(* ===== verification/_CoqProject ===== *)
-Q . S2P
Prelude.v
StateM.v
Gf256.v
RsSimd.v
LinAlg.v
Rs.v
RsMds.v
RsDecode.v
RsReconstruct.v
ObjTable.v
Fec.v
FecEncode.v
FecWf.v
FecDelivery.v
AntiReplay.v
Session.v
Wire.v
Feedback.v
Plpmtu.v
LossDetect.v
FifoMap.v
RetxBuf.v
Adaptive.v
Flow.v
Classify.v
Transport.v
MacTable.v
WireGlue.v
DataPlane.v
DataPlaneWf.v
DataPlaneDelivery.v
Reader.v
NetAddr.v
StdText.v
MemberCodec.v
MemberVerify.v
Directory.v
DirGossip.v
Obf.v
RdvProto.v
RdvServer.v
RdvDaemon.v
RdvClient.v
DirSafe.v
RdvExamples.v
EpochSet.v
EpochPlane.v
EpochProtocol.v
Spsc.v
SessionBuffers.v
Gso.v
PathState.v
Reality.v
Noise.v
Metrics.v
SplitTunnel.v
TunOffload.v
PmState.v
PmTable.v
PmPlane.v
PmObf.v
PmRekey.v
PmHandshake.v
PmRouting.v
PmRelay.v
PmDispatch.v
PmSafe.v
PmSafeHs.v
PmRun.v
PollLoop.v
PmSpec.v
PmRefines.v
PmRefinesRun.v
PmSecurity.v
PmFirst.v
Config.v
Sharding.v
CaTool.v
CaQuorum.v
PmExamples.v
