(* ===== verification/Prelude.v ===== *)
(** * yip: a verification development

    yip is a peer-to-peer VPN in Rust.  A daemon ([src/bin/yipd]) carries IP or
    Ethernet packets between peers over UDP: each packet is sealed under a Noise
    session, cut into symbols of an erasure code, framed and masked.  Peers find
    each other through gossiped, signed directory records and a rendezvous server
    ([src/bin/yip-rendezvous]) that also relays and, over TLS, poses as a web
    site; certificates come from an authority, offline or a quorum of signers
    ([src/bin/yip-ca]).  This development models these parts as executable Rocq definitions,
    translated from the source function by function, and proves what makes them
    correct.

    ** Conventions

    A [u8] is [Byte.byte]; wider integers are [N] with wrapping, saturation and
    overflow checks written out; [usize] lengths are [nat].  Code that may panic
    runs in [run] ([Ret] or [Panic]); [Result] is [result].  Vectors are lists,
    hash maps are [gmap], fixed-size arrays are lists whose length a
    well-formedness predicate states.  Floats are [SpecFloat] in IEEE single or
    double precision.  Loops that are not structural run on fuel; running out is
    [Panic] (or [None] in Spsc), so a theorem that gives [Ret] also shows
    that the fuel, always a length or capacity of the data, is enough.

    Third-party code is a class with the laws its documentation states, and every
    theorem over such a class has a witness at a concrete instance: the AEAD of
    ring ([Sess.Aead]), SipHash ([SipHash], [SipHash24]), BLAKE2s and Ed25519
    ([Blake2s], [Ed25519]), the key exchange and cipher of the TLS seal
    ([RealityCrypto]), Noise and ML-KEM ([Snow], [MlKem]), the CPU's vector
    features ([Cpu]), the order hash maps are iterated in ([HashIter]), clock and
    randomness of the operating system ([Os]), the threshold signatures of FROST
    ([Frost]).  Elsewhere random draws, clocks and files are
    arguments; the kernel and the scheduler are arbitrary.  StateM has the
    state monad and the two program logics for code that mutates one structure.

    ** The erasure code (crates/yip-transport)

    - Gf256 (gf256.rs): table-driven GF(256); a field.  RsSimd (rs_simd.rs): the
      SSSE3, AVX2, GFNI and NEON kernels, equal to the scalar one.
    - LinAlg, Rs, RsMds, RsDecode, RsReconstruct (rs.rs): generator,
      encoding, decoding, inversion and reconstruction; every K rows of the
      generator are independent, and any K distinct shards give back the source.
    - ObjTable, Fec, FecEncode, FecWf, FecDelivery (fec.rs): the hash table of
      objects in flight refines a finite map; the encoder emits one codeword; the
      reassembler never panics, returns an object once K of its symbols have
      arrived, and returns nothing else.
    - Classify, Flow, FifoMap, RetxBuf, Adaptive, LossDetect, Plpmtu, Feedback,
      Transport (classify.rs, flow.rs, retxbuf.rs, control.rs, lossdetect.rs,
      plpmtu.rs, feedback.rs, lib.rs): classification, retransmission, redundancy,
      loss detection, path MTU search and control frames, each with its invariant
      and, where it bounds an ideal object, a refinement of it; and their
      composition.

    ** Sessions and framing

    - AntiReplay, Session, SessionBuffers (crates/yip-crypto/src/lib.rs): the
      replay window refines a set of marked counters; frames round-trip in any
      order; nonces never repeat; the in-place variants agree with the plain
      ones.  SessionBuffers also has the chunks of nonces for workers
      (crates/yip-io/src/nonce.rs).
    - Wire (crates/yip-wire/src/lib.rs), WireGlue (bin/yipd/src/wire_glue.rs): the
      masked, authenticated frame and the symbols in it.
    - MacTable (bin/yipd/src/mac_table.rs): the learning table refines a recency
      list.
    - DataPlane, DataPlaneWf, DataPlaneDelivery (bin/yipd/src/dataplane.rs): the
      whole data plane; it never panics, and a packet that enters one end leaves
      the other exactly once when enough of its datagrams arrive.

    - Noise (crates/yip-crypto/src/lib.rs, bin/yipd/src/handshake.rs): the hybrid
      handshake; its two sides end with mirror-image sessions.

    ** Rekeying (bin/yipd/src/epoch.rs, peer_manager/rekey.rs)

    - EpochSet: the current, next and previous data planes of a peer and the
      steps of the rekey handlers, against the interface [Plane]; EpochPlane: the
      invariant, and DataPlane as the implementation of the interface;
      EpochProtocol: both peers over a faulty network, as a step relation; they
      never strand each other.

    ** Membership and rendezvous

    - Reader, NetAddr, MemberCodec (crates/yip-membership): decoders accept
      exactly the encodings of well-formed values.  MemberVerify: what a verified
      record proves.  Directory, DirGossip (bin/yipd/src/membership.rs): the
      gossiped directory stays sound and one round of gossip converges.
    - Obf (crates/yip-obf): the envelope opens to what was put in.
    - RdvProto, RdvServer (crates/yip-rendezvous), RdvDaemon
      (bin/yip-rendezvous: main.rs, conn.rs), RdvClient (bin/yipd:
      rendezvous.rs), RdvExamples: protocol, server, daemon loop, TLS first
      frame and client; the daemon never panics on any input, keeps its bounds,
      and relaying and lookup work end to end.
    - Reality (crates/yip-utls/src/auth.rs, bin/yip-rendezvous:
      reality_replay.rs, tls_front.rs): a sealed TLS hello is admitted once.
    - PathState (bin/yipd/src/path.rs): the path attempt always reaches the relay.

    ** The peer manager (bin/yipd/src/peer_manager)

    - PmState, PmTable (mod.rs): peers, indices, construction, commands on the
      table.  PmObf (obf.rs), PmRekey (rekey.rs), PmHandshake (handshake.rs),
      PmRouting (routing.rs), PmRelay (gossip.rs, relay.rs): the handlers.  PmDispatch (mod.rs, control.rs): datagrams, tunnel packets,
      ticks and control commands, composed from them.  Metrics (metrics.rs):
      counters.  SplitTunnel (control.rs): which packets bypass the tunnel,
      exactly by the leading bits of the configured blocks.
    - PmPlane: what the manager relies on of a session's data plane
      ([ManagedLaws]), and the data planes of DataPlane as the implementation.
      DirSafe: the directory's operations do not fail.
    - PmSafe, PmSafeHs, PmRun: the invariant, a logic of safe computations, and
      that no input makes the manager panic as long as no peer is removed;
      PmExamples has the run in which removing a peer does.  PmObf also shows
      that delayed datagrams are neither lost nor duplicated.
    - PmSpec: the transitions open to one peer and the evidence each needs.
      PmRefines, PmRefinesRun: the manager takes only those.  PmSecurity: hence
      initiations are not replayed, sessions belong to authorised members,
      endpoints follow authenticated traffic, the server cannot touch sessions.
    - PmFirst: two fresh daemons deliver the first packet, through
      handshake, session, erasure code and dispatch.  PmExamples: runs that
      instantiate these theorems.

    ** Threads and sends (crates/yip-io)

    - Spsc (spsc.rs): the lock-free ring, every interleaving and stale load.
    - Gso (gso.rs, poll.rs): segmented sends never mix what must not share fate,
      and the sending loop neither duplicates nor alters datagrams.

    - TunOffload (tun_offload.rs): large frames of the device are split into
      valid segments, and packets written in a burst are joined into frames that
      carry the same bytes of the same flows.
    - PollLoop (poll.rs): the event loop over any handler ([Dispatch]), with the
      peer manager as an instance; it serves its inputs in order and sends what
      the handlers return, whatever the kernel does.

    ** Configuration and start (bin/yipd/src/config.rs, tunnel.rs)

    - StdText: the parts of the standard library the formats use (lines, trim,
      split, numbers, socket addresses).  Config: the configuration file, the
      rules an accepted one obeys, and the start of the daemon from it, which
      reaches the loop it selects and stays in good order in it.
    - Sharding (sharding.rs, flow.rs): the daemon of several workers, each with
      its own manager and rings to the others, as interleaved steps.  No worker
      fails and the rings stay bounded; the workers' nonces are disjoint exactly
      when shard 0 sealed at most one frame before it replicated the session.
      PmExamples has a run in which a nonce is used twice, and one in which a
      replayed datagram is delivered again by another worker.

    ** The certificate authority (bin/yip-ca)

    - CaTool (main.rs): the offline commands; what they print is what the daemon
      loads and trusts.
    - CaQuorum (rpc.rs, signer_daemon.rs, roast_coordinator.rs, serve.rs,
      enroll.rs): signers, coordinator and client, the coordinator's tasks as
      interleaved steps; nonces are used once, every certificate handed out is
      valid and was asked for, honest signers suffice for an enrolment, and a
      request that is refused takes its signers out of service.

    ** Not modelled

    System calls and what they need: opening sockets and devices, the io_uring,
    AF_XDP and TUN drivers, the pinning and busy polling of workers, the metrics
    endpoint, the control socket with its read-only reports.  TLS and QUIC
    connections and certificate forging, which drive third-party state machines.
    Serialization by serde, on the control socket and between the authority's
    daemons.  Distributed key generation and refresh, thin calls of FROST.  The
    fountain-code experiment rlnc.rs, which nothing uses.  In Spsc the memory
    model is coherent stale loads over interleaved accesses, not the full C11
    model. *)

From Stdlib Require Strings.Byte.
From Stdlib Require Import NArith Lia.
From stdpp Require Import base numbers gmap list.

Declare Scope yip_scope.
Delimit Scope yip_scope with yip.

(** ** Bytes

    A Rust [u8] is the 256-constructor type [Byte.byte]: every value of the
    type is a legal [u8], so the laws of the byte operations carry no range
    side conditions.  Wider machine integers ([u16], [u32], [u64]) are [N]
    with the wrap-around written out; [usize] lengths and indices are [nat]. *)
Abbreviation u8 := Byte.byte (only parsing).

Definition b2n (b : u8) : N := Byte.to_N b.
Definition n2b (n : N) : u8 :=
  match Byte.of_N (n mod 256) with Some b => b | None => Byte.x00 end.

Definition all_bytes : list u8 := map (fun i => n2b (N.of_nat i)) (seq 0 256).

#[export] Instance byte_eq_dec : EqDecision u8 := Byte.byte_eq_dec.

Definition bxor (a b : u8) : u8 := n2b (N.lxor (b2n a) (b2n b)).
Definition band (a b : u8) : u8 := n2b (N.land (b2n a) (b2n b)).

(** ** Panics

    Rust code that may panic (a failed [assert!], [expect], slice range or
    array index) is a computation in [run]; an [Option]- or [Result]-valued
    function that may panic has type [run (option A)]. *)
Inductive run (A : Type) : Type :=
| Ret (a : A)
| Panic.
Arguments Ret {A} a.
Arguments Panic {A}.

Definition rbind {A B} (m : run A) (k : A -> run B) : run B :=
  match m with Ret a => k a | Panic => Panic end.

Definition rassert (b : bool) : run unit := if b then Ret tt else Panic.

(** [expect] / [unwrap] on an [Option]. *)
Definition rexpect {A} (o : option A) : run A :=
  match o with Some a => Ret a | None => Panic end.

Notation "'let!' x ':=' e 'in' k" := (rbind e (fun x => k))
  (at level 10, x name, e at level 100, k at level 200) : yip_scope.
Notation "'let!' ' p ':=' e 'in' k" := (rbind e (fun p => k))
  (at level 10, p pattern, e at level 100, k at level 200) : yip_scope.
Open Scope yip_scope.

Fixpoint rfold {A S} (f : S -> A -> run S) (l : list A) (s : S) : run S :=
  match l with
  | [] => Ret s
  | a :: l' => let! s' := f s a in rfold f l' s'
  end.

Fixpoint rmap {A B} (f : A -> run B) (l : list A) : run (list B) :=
  match l with
  | [] => Ret []
  | a :: l' => let! b := f a in let! bs := rmap f l' in Ret (b :: bs)
  end.

(** [slice.chunks(n)], by fuel; the length of the list is enough. *)
Fixpoint chunks_fuel {A} (fuel n : nat) (l : list A) : list (list A) :=
  match fuel, l with
  | O, _ | _, [] => []
  | S fuel, _ => take n l :: chunks_fuel fuel n (drop n l)
  end.
Definition chunks {A} (n : nat) (l : list A) : list (list A) := chunks_fuel (length l) n l.

Fixpoint rfilter {A} (f : A -> run bool) (l : list A) : run (list A) :=
  match l with
  | [] => Ret []
  | a :: l => let! b := f a in let! rest := rfilter f l in Ret (if b then a :: rest else rest)
  end.

(** [Result<A, E>] *)
Inductive result (A E : Type) := Ok (a : A) | Err (e : E).
Arguments Ok {A E} _.
Arguments Err {A E} _.

(** ** Machine integers *)
Definition u16_mod : N := 2 ^ 16.
Definition u32_mod : N := 2 ^ 32.
Definition u64_mod : N := 2 ^ 64.

Definition wrap16 (x : N) : N := x mod u16_mod.
Definition wrap32 (x : N) : N := x mod u32_mod.
Definition wrap64 (x : N) : N := x mod u64_mod.

Definition sat_add (modulus a b : N) : N := N.min (a + b) (modulus - 1).
Definition sat_add32 : N -> N -> N := sat_add u32_mod.
Definition sat_add64 : N -> N -> N := sat_add u64_mod.

(** [x.to_be_bytes()] of an [n]-byte integer, and [from_be_bytes]. *)
Fixpoint to_be_bytes (n : nat) (v : N) : list u8 :=
  match n with
  | O => []
  | S n' => n2b (N.shiftr v (8 * N.of_nat n')) :: to_be_bytes n' v
  end.

Definition from_be_bytes (bs : list u8) : N :=
  fold_left (fun acc b => acc * 256 + b2n b)%N bs 0%N.

(** A half-open slice [l[i..j]]; [slice_opt] is the checked [l.get(i..j)],
    [slice_run] the panicking index expression. *)
Definition slice {A} (i j : nat) (l : list A) : list A := take (j - i) (drop i l).
Definition slice_opt {A} (i j : nat) (l : list A) : option (list A) :=
  if decide (i <= j /\ j <= length l)%nat then Some (slice i j l) else None.
Definition slice_run {A} (i j : nat) (l : list A) : run (list A) := rexpect (slice_opt i j l).

(** [dst[off..off+n].copy_from_slice(src)] with [n = src.len()]: panics when
    the destination range does not exist. *)
Definition copy_at {A} (off : nat) (src dst : list A) : run (list A) :=
  if decide (off + length src <= length dst)%nat
  then Ret (take off dst ++ src ++ drop (off + length src) dst)
  else Panic.

(** * Lemmas *)

(** ** Bytes *)
Lemma b2n_lt b : (b2n b < 256)%N.
Proof. unfold b2n. pose proof (Byte.to_N_bounded b). lia. Qed.

Lemma n2b_b2n b : n2b (b2n b) = b.
Proof.
  unfold n2b. rewrite N.mod_small by apply b2n_lt. unfold b2n.
  by rewrite Byte.of_to_N.
Qed.

Lemma b2n_n2b n : b2n (n2b n) = (n mod 256)%N.
Proof.
  unfold n2b, b2n.
  assert (Hlt : (n mod 256 < 256)%N) by (apply N.mod_lt; lia).
  pose proof (Byte.to_of_N_option_map (n mod 256)) as H.
  destruct (Byte.of_N (n mod 256)) as [b|] eqn:E; simpl in H;
    destruct (N.leb_spec (n mod 256) 255); try congruence; lia.
Qed.

Lemma b2n_n2b_small n : (n < 256)%N -> b2n (n2b n) = n.
Proof. intros. rewrite b2n_n2b. by apply N.mod_small. Qed.

Lemma b2n_inj a b : b2n a = b2n b -> a = b.
Proof. intros H. rewrite <- (n2b_b2n a), <- (n2b_b2n b). by rewrite H. Qed.

#[export] Instance byte_countable : Countable u8.
Proof. apply (inj_countable' b2n n2b n2b_b2n). Defined.

#[export] Instance byte_inhabited : Inhabited u8 := populate Byte.x00.

Lemma elem_of_all_bytes b : b ∈ all_bytes.
Proof.
  unfold all_bytes. apply list_elem_of_In, in_map_iff.
  exists (N.to_nat (b2n b)). rewrite N2Nat.id. split; [apply n2b_b2n|].
  apply in_seq. pose proof (b2n_lt b). lia.
Qed.

(** Decide a boolean property of every byte by evaluation. *)
Lemma forall_bytes (f : u8 -> bool) :
  forallb f all_bytes = true -> forall b, f b = true.
Proof.
  intros H b. rewrite forallb_forall in H. apply H.
  apply list_elem_of_In, elem_of_all_bytes.
Qed.

(** The same for a decidable proposition, and for an initial segment of [nat]. *)
Lemma forall_bytes_dec (P : u8 -> Prop) `{forall b, Decision (P b)} :
  forallb (fun b => bool_decide (P b)) all_bytes = true -> forall b, P b.
Proof.
  intros Hall b. apply (bool_decide_unpack (P b)), Is_true_true.
  exact (forall_bytes (fun b => bool_decide (P b)) Hall b).
Qed.

Lemma forall_below_dec (n : nat) (P : nat -> Prop) `{forall i, Decision (P i)} :
  forallb (fun i => bool_decide (P i)) (seq 0 n) = true -> forall i, (i < n)%nat -> P i.
Proof.
  intros Hall i Hi. rewrite forallb_forall in Hall.
  apply (bool_decide_unpack (P i)), Is_true_true, Hall, in_seq. lia.
Qed.

Lemma N_lt_256_testbit a : (forall i, (8 <= i)%N -> N.testbit a i = false) -> (a < 256)%N.
Proof.
  intros H. destruct (N.eq_dec a 0%N) as [->|Hne]; [lia|].
  change 256%N with (2 ^ 8)%N. apply N.log2_lt_pow2; [lia|].
  destruct (N.lt_ge_cases (N.log2 a) 8) as [?|Hge]; [done|].
  specialize (H _ Hge). by rewrite N.bit_log2 in H.
Qed.

Lemma testbit_256 a i : (a < 256)%N -> (8 <= i)%N -> N.testbit a i = false.
Proof.
  intros Ha Hi. rewrite <- (N.mod_small a (2 ^ 8)) by done.
  by apply N.mod_pow2_bits_high.
Qed.

Lemma b2n_bxor a b : b2n (bxor a b) = N.lxor (b2n a) (b2n b).
Proof.
  unfold bxor. apply b2n_n2b_small, N_lt_256_testbit. intros i Hi.
  rewrite N.lxor_spec, !testbit_256; auto using b2n_lt.
Qed.

Lemma bxor_comm a b : bxor a b = bxor b a.
Proof. unfold bxor. by rewrite N.lxor_comm. Qed.

Lemma bxor_assoc a b c : bxor a (bxor b c) = bxor (bxor a b) c.
Proof. apply b2n_inj. rewrite !b2n_bxor. by rewrite N.lxor_assoc. Qed.

Lemma bxor_0_l a : bxor Byte.x00 a = a.
Proof. apply b2n_inj. rewrite b2n_bxor. apply N.lxor_0_l. Qed.

Lemma bxor_0_r a : bxor a Byte.x00 = a.
Proof. rewrite bxor_comm. apply bxor_0_l. Qed.

Lemma bxor_nilpotent a : bxor a a = Byte.x00.
Proof. apply b2n_inj. rewrite b2n_bxor. apply N.lxor_nilpotent. Qed.

Lemma bxor_involutive a m : bxor (bxor a m) m = a.
Proof. by rewrite <- bxor_assoc, bxor_nilpotent, bxor_0_r. Qed.

(** ** Big-endian integers *)
Lemma length_to_be_bytes n v : length (to_be_bytes n v) = n.
Proof. induction n; simpl; congruence. Qed.

Lemma from_be_bytes_snoc bs b :
  from_be_bytes (bs ++ [b]) = (from_be_bytes bs * 256 + b2n b)%N.
Proof. unfold from_be_bytes. by rewrite fold_left_app. Qed.

Lemma to_be_bytes_snoc n v :
  to_be_bytes (S n) v = to_be_bytes n (N.shiftr v 8) ++ [n2b v].
Proof.
  revert v. induction n as [|n IH]; intros v.
  { simpl. by rewrite N.shiftr_0_r. }
  change (to_be_bytes (S (S n)) v)
    with (n2b (N.shiftr v (8 * N.of_nat (S n))) :: to_be_bytes (S n) v).
  rewrite IH. simpl. rewrite N.shiftr_shiftr.
  do 3 f_equal. lia.
Qed.

Lemma from_to_be_bytes n v : from_be_bytes (to_be_bytes n v) = (v mod 256 ^ N.of_nat n)%N.
Proof.
  revert v. induction n as [|n IH]; intros v.
  { simpl. by rewrite N.mod_1_r. }
  rewrite to_be_bytes_snoc, from_be_bytes_snoc, IH, b2n_n2b, N.shiftr_div_pow2.
  change (2 ^ 8)%N with 256%N.
  rewrite Nat2N.inj_succ, N.pow_succ_r'.
  rewrite N.Div0.mod_mul_r. lia.
Qed.

Lemma from_to_be_bytes_small n v :
  (v < 256 ^ N.of_nat n)%N -> from_be_bytes (to_be_bytes n v) = v.
Proof. intros. rewrite from_to_be_bytes. by apply N.mod_small. Qed.

Lemma to_from_be_bytes bs : to_be_bytes (length bs) (from_be_bytes bs) = bs.
Proof.
  induction bs as [|b bs IH] using rev_ind; [done|].
  rewrite length_app, Nat.add_1_r, to_be_bytes_snoc, from_be_bytes_snoc.
  pose proof (b2n_lt b) as Hb.
  rewrite N.shiftr_div_pow2. change (2 ^ 8)%N with 256%N.
  rewrite N.div_add_l, (N.div_small (b2n b)), N.add_0_r by lia.
  rewrite IH. do 2 f_equal. apply b2n_inj. rewrite b2n_n2b.
  rewrite N.add_comm, N.Div0.mod_add. by apply N.mod_small.
Qed.

Lemma to_from_be_bytes_len n bs : length bs = n -> to_be_bytes n (from_be_bytes bs) = bs.
Proof. intros <-. apply to_from_be_bytes. Qed.

Lemma from_be_bytes_lt bs : (from_be_bytes bs < 256 ^ N.of_nat (length bs))%N.
Proof.
  rewrite <- (to_from_be_bytes bs) at 1. rewrite from_to_be_bytes.
  apply N.mod_lt, N.pow_nonzero. lia.
Qed.

(** ** Lists *)
Lemma elem_of_map {A B} (f : A -> B) l y : y ∈ map f l <-> exists x, y = f x /\ x ∈ l.
Proof. apply list_elem_of_fmap. Qed.

(** ** Slices *)
Lemma length_slice {A} i j (l : list A) :
  (i <= j <= length l)%nat -> length (slice i j l) = (j - i)%nat.
Proof. intros. unfold slice. rewrite length_take, length_drop. lia. Qed.

Lemma slice_run_ok {A} i j (l : list A) :
  (i <= j <= length l)%nat -> slice_run i j l = Ret (slice i j l).
Proof. intros. unfold slice_run, slice_opt. by rewrite decide_True. Qed.

Lemma copy_at_ok {A} off (src dst : list A) :
  (off + length src <= length dst)%nat ->
  copy_at off src dst = Ret (take off dst ++ src ++ drop (off + length src) dst).
Proof. intros. unfold copy_at. by rewrite decide_True. Qed.

Lemma copy_at_length {A} off (src dst dst' : list A) :
  copy_at off src dst = Ret dst' -> length dst' = length dst.
Proof.
  unfold copy_at. case_decide as H; intros E; [|done]. injection E as <-.
  rewrite !length_app, length_take, length_drop. lia.
Qed.

(** ** The panic monad *)
Lemma rfold_app {A S} (f : S -> A -> run S) l1 l2 s :
  rfold f (l1 ++ l2) s = let! s' := rfold f l1 s in rfold f l2 s'.
Proof.
  revert s. induction l1 as [|a l1 IH]; intros s; [done|]. simpl.
  destruct (f s a); simpl; auto.
Qed.

Lemma rfold_ret {A S} (f : S -> A -> run S) (g : S -> A -> S) l s :
  (forall s a, a ∈ l -> f s a = Ret (g s a)) ->
  rfold f l s = Ret (fold_left g l s).
Proof.
  revert s. induction l as [|a l IH]; intros s H; [done|]. simpl.
  rewrite H by set_solver. simpl. apply IH. set_solver.
Qed.

Lemma rfold_inv {A S} (P : S -> Prop) (f : S -> A -> run S) l s :
  P s -> (forall s a, a ∈ l -> P s -> exists s', f s a = Ret s' /\ P s') ->
  exists s', rfold f l s = Ret s' /\ P s'.
Proof.
  revert s. induction l as [|a l IH]; intros s HP Hf; [by exists s|].
  destruct (Hf s a ltac:(left) HP) as (s1 & E & HP1). simpl. rewrite E. simpl.
  apply IH; [done|]. intros s2 a2 Ha2. apply Hf. by right.
Qed.

Lemma rmap_ret {A B} (f : A -> run B) (g : A -> B) l :
  (forall a, a ∈ l -> f a = Ret (g a)) -> rmap f l = Ret (map g l).
Proof.
  induction l as [|a l IH]; intros H; [done|]. simpl.
  rewrite H by set_solver. simpl. rewrite IH by set_solver. done.
Qed.

(** ** Chunks and filters *)

Lemma chunks_fuel_concat {A} fuel n (l : list A) : 0 < n -> length l <= fuel -> concat (chunks_fuel fuel n l) = l.
Proof.
  intros Hn. revert l. induction fuel as [|fuel IH]; intros [|a l] Hl; cbn in Hl; try done; [lia|].
  cbn [chunks_fuel concat]. rewrite IH; [apply take_drop|]. rewrite length_drop. cbn. lia.
Qed.

Lemma chunks_concat {A} n (l : list A) : 0 < n -> concat (chunks n l) = l.
Proof. intros Hn. by apply chunks_fuel_concat. Qed.

Lemma chunks_length {A} n (l c : list A) : c ∈ chunks n l -> length c <= n.
Proof.
  unfold chunks. generalize (length l). intros fuel. revert l. induction fuel as [|fuel IH]; intros [|a l]; cbn [chunks_fuel];
    try by intros ?%not_elem_of_nil.
  intros [->|H]%elem_of_cons; [rewrite length_take; lia|]. by apply IH in H.
Qed.

Lemma chunks_elem {A} n (l c : list A) x : 0 < n -> c ∈ chunks n l -> x ∈ c -> x ∈ l.
Proof. intros Hn Hc Hx. rewrite <- (chunks_concat n l Hn). apply list_elem_of_In, in_concat. exists c. by rewrite <- !list_elem_of_In. Qed.

Lemma chunks_covers {A} n (l : list A) x : 0 < n -> x ∈ l -> exists c, c ∈ chunks n l /\ x ∈ c.
Proof.
  intros Hn. rewrite <- (chunks_concat n l Hn) at 1. rewrite list_elem_of_In, in_concat. intros (c & Hc & Hx).
  exists c. by rewrite !list_elem_of_In.
Qed.

Lemma rfilter_ok {A} (f : A -> run bool) (P : A -> Prop) l :
  (forall a, a ∈ l -> exists b, f a = Ret b /\ (b = true <-> P a)) ->
  exists l', rfilter f l = Ret l' /\ forall a, a ∈ l' <-> a ∈ l /\ P a.
Proof.
  induction l as [|a l IH]; intros Hf; cbn [rfilter].
  - exists []. split; [done|]. intros x. split; [by intros ?%not_elem_of_nil|by intros [?%not_elem_of_nil _]].
  - destruct (Hf a ltac:(left)) as (b & -> & Hb). destruct IH as (l' & -> & Hl'); [intros x Hx; apply Hf; by right|].
    cbn [rbind]. eexists. split; [done|]. intros x. destruct b.
    + rewrite !elem_of_cons, Hl'. destruct Hb as [Hb _]. specialize (Hb eq_refl). naive_solver.
    + rewrite !elem_of_cons, Hl'. naive_solver.
Qed.

(** ** Automation *)
Create HintDb yip discriminated.
Create Rewrite HintDb len.
#[export] Hint Resolve b2n_lt n2b_b2n b2n_inj elem_of_all_bytes : yip.
#[export] Hint Rewrite @length_app @length_map @length_take @length_drop @length_seq
  @length_replicate @length_to_be_bytes @length_insert : len.

(** Decide a list-length side condition. *)
Ltac len := autorewrite with len in *; simpl in *; try lia.

(** Take a [run] computation apart: [rbind (Ret _) _] reduces, a hypothesis
    that a bind returned gives the intermediate value. *)
Ltac run_inv H :=
  let a := fresh "a" in let E := fresh "E" in
  match type of H with
  | rbind ?m _ = Ret _ => destruct m as [a|] eqn:E; simpl in H; [|discriminate H]
  end.
