(* ===== verification/StateM.v ===== *)
(** * Stateful code

    The handlers of the daemon mutate one large structure and may panic.  They
    are written in the state monad over [run], with stdpp's notations; records
    are updated field by field with [r <| field := v |>].  [spec] is the total
    specification of such a computation, and [keeps] a relation between the
    state before and after it; both have a rule for each construct, and the
    tactics [keep_step] and [keep] apply those of [keeps]. *)

From Stdlib Require Strings.Byte.
From Stdlib Require Import NArith Lia.
From stdpp Require Import base numbers gmap list.
From S2P Require Import Prelude.

Local Open Scope nat_scope.

(** ** Record update *)

(** The eta expansion of a record, from which its setters are derived. *)
Class Settable (R : Type) := eta : R -> R.
Class Setter {R T : Type} (proj : R -> T) := set_field : (T -> T) -> R -> R.

Ltac derive_setter :=
  lazymatch goal with
  | |- @Setter ?R ?T ?proj =>
      let i := constr:(_ : Settable R) in
      let e := eval hnf in i in
      let h := eval pattern proj in e in
      lazymatch h with
      | ?upd _ => exact (fun (f : T -> T) => upd (fun r => f (proj r)))
      end
  end.

#[export] Hint Extern 0 (Setter _) => derive_setter : typeclass_instances.

Notation "r <| p ::= f |>" := (set_field (proj := p) f r) (at level 12, left associativity).
Notation "r <| p := v |>" := (set_field (proj := p) (fun _ => v) r) (at level 12, left associativity).

(** ** The monad *)

Definition M (S A : Type) : Type := S -> run (S * A).

#[export] Instance M_ret {S} : MRet (M S) := fun A a s => Ret (s, a).
#[export] Instance M_bind {S} : MBind (M S) := fun A B k m s => let! ' (s, a) := m s in k a s.

Section State.
Context {S : Type}.

Definition get : M S S := fun s => Ret (s, s).
Definition gets {A} (f : S -> A) : M S A := fun s => Ret (s, f s).
Definition modify (f : S -> S) : M S unit := fun s => Ret (f s, tt).
Definition panic {A} : M S A := fun _ => Panic.
Definition lift {A} (r : run A) : M S A := fun s => let! a := r in Ret (s, a).
Definition when (b : bool) (m : M S unit) : M S unit := if b then m else mret tt.

(** A loop that collects what its body returns. *)
Fixpoint mconcat {A B} (f : A -> M S (list B)) (l : list A) : M S (list B) :=
  match l with
  | [] => mret []
  | x :: l => ys ← f x; zs ← mconcat f l; mret (ys ++ zs)
  end.

Definition mfor {A} (l : list A) (f : A -> M S unit) : M S unit :=
  fold_right (fun x k => f x ;; k) (mret tt) l.

(** ** Total specifications *)

Definition spec {A} (P : S -> Prop) (m : M S A) (Q : S -> A -> Prop) : Prop :=
  forall s, P s -> exists s' a, m s = Ret (s', a) /\ Q s' a.

Lemma spec_ret {A} (P : S -> Prop) (a : A) (Q : S -> A -> Prop) : (forall s, P s -> Q s a) -> spec P (mret a) Q.
Proof. intros H s Hs. exists s, a. split; [done|]. by apply H. Qed.

Lemma spec_bind {A B} P (m : M S A) (k : A -> M S B) R Q :
  spec P m R -> (forall a, spec (fun s => R s a) (k a) Q) -> spec P (m ≫= k) Q.
Proof.
  intros Hm Hk s Hs. destruct (Hm s Hs) as (s1 & a & E & HR). destruct (Hk a s1 HR) as (s2 & b & E2 & HQ).
  exists s2, b. split; [|done]. unfold mbind, M_bind. by rewrite E.
Qed.

Lemma spec_conseq {A} (P P' : S -> Prop) (m : M S A) (Q Q' : S -> A -> Prop) :
  spec P' m Q' -> (forall s, P s -> P' s) -> (forall s a, Q' s a -> Q s a) -> spec P m Q.
Proof. intros H HP HQ s Hs. destruct (H s (HP s Hs)) as (s' & a & E & H'). eauto. Qed.

Lemma spec_get (P : S -> Prop) : spec P get (fun s a => P s /\ a = s).
Proof. intros s Hs. by exists s, s. Qed.

Lemma spec_gets {A} (P : S -> Prop) (f : S -> A) : spec P (gets f) (fun s a => P s /\ a = f s).
Proof. intros s Hs. by exists s, (f s). Qed.

Lemma spec_modify (P : S -> Prop) (f : S -> S) (Q : S -> unit -> Prop) :
  (forall s, P s -> Q (f s) tt) -> spec P (modify f) Q.
Proof. intros H s Hs. exists (f s), tt. split; [done|]. by apply H. Qed.

Lemma spec_lift {A} (P : S -> Prop) (r : run A) (R : A -> Prop) :
  (forall s, P s -> exists a, r = Ret a /\ R a) -> spec P (lift r) (fun s a => P s /\ R a).
Proof. intros H s Hs. destruct (H s Hs) as (a & E & Ha). exists s, a. unfold lift. by rewrite E. Qed.

Lemma spec_if {A} P (b : bool) (m n : M S A) Q :
  (b = true -> spec P m Q) -> (b = false -> spec P n Q) -> spec P (if b then m else n) Q.
Proof. destruct b; auto. Qed.

Lemma spec_when (P : S -> Prop) b m : (b = true -> spec P m (fun s _ => P s)) -> spec P (when b m) (fun s _ => P s).
Proof. destruct b; cbn; [auto|]. intros _. by apply spec_ret. Qed.

Lemma spec_mconcat {A B} (I : S -> Prop) (R : B -> Prop) (f : A -> M S (list B)) l :
  (forall x, x ∈ l -> spec I (f x) (fun s ys => I s /\ Forall R ys)) ->
  spec I (mconcat f l) (fun s ys => I s /\ Forall R ys).
Proof.
  induction l as [|x l IH]; intros H; cbn [mconcat].
  { apply spec_ret. intros s Hs. split; [done|constructor]. }
  eapply spec_bind; [apply H; by left|]. intros ys. cbn beta.
  intros s [Hs Hys]. destruct (IH (fun y Hy => H y (list_elem_of_further _ _ _ Hy)) s Hs) as (s' & zs & E & Hs' & Hzs).
  exists s', (ys ++ zs). unfold mbind, M_bind. rewrite E. split; [done|]. split; [done|]. by apply Forall_app.
Qed.

Lemma spec_mfor {A} (I : S -> Prop) (l : list A) f :
  (forall x, x ∈ l -> spec I (f x) (fun s _ => I s)) -> spec I (mfor l f) (fun s _ => I s).
Proof.
  induction l as [|x l IH]; intros H; cbn [mfor fold_right].
  { by apply spec_ret. }
  eapply spec_bind; [apply H; by left|]. intros []. apply IH. intros y Hy. apply H. by right.
Qed.

(** ** Relations between the states before and after *)

Definition keeps {A} (R : S -> S -> Prop) (m : M S A) : Prop :=
  forall s s' a, m s = Ret (s', a) -> R s s'.

Section Keeps.
Context (R : S -> S -> Prop) `{!PreOrder R}.

Lemma keeps_ret {A} (a : A) : keeps R (mret a).
Proof. intros s s' b [= <- <-]. reflexivity. Qed.

Lemma keeps_panic {A} : keeps R (panic : M S A).
Proof. by intros s s' a. Qed.

Lemma keeps_bind {A B} (m : M S A) (k : A -> M S B) : keeps R m -> (forall a, keeps R (k a)) -> keeps R (m ≫= k).
Proof.
  intros Hm Hk s s' b. unfold mbind, M_bind. destruct (m s) as [[s1 a]|] eqn:E; [|done]. cbn [rbind].
  intros E2. transitivity s1; [by eapply Hm|by eapply Hk].
Qed.

Lemma keeps_get : keeps R get.
Proof. intros s s' a [= <- <-]. reflexivity. Qed.

Lemma keeps_gets {A} (f : S -> A) : keeps R (gets f).
Proof. intros s s' a [= <- <-]. reflexivity. Qed.

Lemma keeps_lift {A} (r : run A) : keeps R (lift r).
Proof. intros s s' a. unfold lift. destruct r; [|done]. intros [= <- <-]. reflexivity. Qed.

Lemma keeps_modify f : (forall s, R s (f s)) -> keeps R (modify f).
Proof. intros H s s' a [= <- <-]. apply H. Qed.

Lemma keeps_when b m : keeps R m -> keeps R (when b m).
Proof. destruct b; [done|]. intros _. apply keeps_ret. Qed.

Lemma keeps_mconcat {A B} (f : A -> M S (list B)) l : (forall x, keeps R (f x)) -> keeps R (mconcat f l).
Proof.
  intros H. induction l as [|x l IH]; cbn [mconcat]; [apply keeps_ret|].
  apply keeps_bind; [done|]. intros ys. apply keeps_bind; [done|]. intros zs. apply keeps_ret.
Qed.

Lemma keeps_mfor {A} (l : list A) f : (forall x, keeps R (f x)) -> keeps R (mfor l f).
Proof.
  intros H. induction l as [|x l IH]; cbn [mfor fold_right]; [apply keeps_ret|]. apply keeps_bind; [done|]. by intros [].
Qed.
End Keeps.

(** What a computation does not falsify holds after it too. *)
Lemma spec_frame {A} (P X : S -> Prop) (m : M S A) Q :
  spec P m Q -> keeps (fun s s' => X s -> X s') m -> spec (fun s => P s /\ X s) m (fun s a => Q s a /\ X s).
Proof. intros Hm Hk s [Hs Hx]. destruct (Hm s Hs) as (s' & a & E & HQ). exists s', a. split; [done|]. split; [done|]. by eapply Hk. Qed.
End State.

Create HintDb state discriminated.
#[export] Hint Resolve keeps_ret keeps_panic keeps_get keeps_gets keeps_lift : state.
#[export] Hint Extern 0 (PreOrder _) => apply _ : state.

(** Walk through a computation for [keeps]: binds, branches and the lemmas of
    the [state] database. *)
Ltac keep_step :=
  match goal with
  | |- PreOrder _ => apply _
  | |- forall _, _ => intro
  | |- keeps _ (_ ≫= _) => apply keeps_bind
  | |- keeps _ (when _ _) => apply keeps_when
  | |- keeps _ (mfor _ _) => apply keeps_mfor
  | |- keeps _ (mconcat _ _) => apply keeps_mconcat
  | |- keeps _ (if ?b then _ else _) => destruct b eqn:?
  | |- keeps _ (match ?x with _ => _ end) => destruct x eqn:?
  | |- keeps _ (let _ := _ in _) => cbv zeta
  | |- keeps _ _ => solve [eauto 2 with state]
  end.
Ltac keep := repeat keep_step.
