(* ===== verification/Gf256.v ===== *)
(** * GF(2^8) arithmetic (crates/yip-transport/src/gf256.rs)

    The exp/log tables are built by the loops of [tables()]; [mul] and [inv]
    read them.  The theorems show that the tables implement the field
    GF(2)[x]/(x^8+x^4+x^3+x^2+1): [gf_field] registers the structure with
    [field], which the linear algebra of the later files uses. *)

From Stdlib Require Strings.Byte.
From Stdlib Require Import NArith Lia Field.
From stdpp Require Import base numbers list.
From S2P Require Import Prelude.

(** Reducing polynomial, low 8 bits. *)
Definition POLY : u8 := Byte.x1d.

Record Tables := mkTables { exp : list u8; log : list u8 }.

(** One doubling of the running element: [hi = x & 0x80; x <<= 1; if hi != 0
    { x ^= POLY }].  The shift drops the top bit ([n2b] reduces mod 256). *)
Definition xtime (x : u8) : u8 :=
  let hi := band x Byte.x80 in
  let x' := n2b (N.shiftl (b2n x) 1) in
  if decide (hi = Byte.x00) then x' else bxor x' POLY.

Definition tables_step (st : list u8 * list u8 * u8) (i : nat) : list u8 * list u8 * u8 :=
  let '(exp, log, x) := st in
  (<[i := x]> exp, <[N.to_nat (b2n x) := n2b (N.of_nat i)]> log, xtime x).

Definition tables : Tables :=
  let '(exp, log, _) :=
    fold_left tables_step (seq 0 255)
      (replicate 512 Byte.x00, replicate 256 Byte.x00, Byte.x01) in
  let exp := fold_left (fun e i => <[i := e !!! (i - 255)%nat]> e) (seq 255 257) exp in
  mkTables exp log.

Definition log_of (a : u8) : nat := N.to_nat (b2n (log tables !!! N.to_nat (b2n a))).
Definition exp_at (i : nat) : u8 := exp tables !!! i.

(** Field addition (and subtraction): XOR. *)
Definition add (a b : u8) : u8 := bxor a b.

Definition mul (a b : u8) : u8 :=
  if decide (a = Byte.x00 \/ b = Byte.x00) then Byte.x00
  else exp_at (log_of a + log_of b).

Definition inv_unchecked (a : u8) : u8 := exp_at (255 - log_of a).

(** Multiplicative inverse; [assert!(a != 0)]. *)
Definition inv (a : u8) : run u8 :=
  let! _ := rassert (bool_decide (a <> Byte.x00)) in
  Ret (inv_unchecked a).

(** [for (d, &s) in dst.iter_mut().zip(src)]: the tail of [dst] beyond [src]
    is left alone. *)
Fixpoint zip_upd (f : u8 -> u8 -> u8) (dst src : list u8) : list u8 :=
  match dst, src with
  | d :: dst', s :: src' => f d s :: zip_upd f dst' src'
  | _, _ => dst
  end.

(** Accumulate [c * src] into [dst]. The [debug_assert_eq!] on the lengths is
    compiled out of release builds and is not part of the model. *)
Definition mul_slice_into (dst src : list u8) (c : u8) : list u8 :=
  if decide (c = Byte.x00) then dst
  else zip_upd (fun d s => bxor d (mul s c)) dst src.

(** Reference multiplication: shift-and-add over the reducing polynomial, the
    definition the source's own tests compare against. *)
Fixpoint ref_mul_loop (n : nat) (a : u8) (b : N) (p : u8) : u8 :=
  match n with
  | O => p
  | S n' =>
      let p' := if N.testbit b 0 then bxor p a else p in
      ref_mul_loop n' (xtime a) (N.shiftr b 1) p'
  end.
Definition ref_mul (a b : u8) : u8 := ref_mul_loop 8 a (b2n b) Byte.x00.

(** * Table facts, by evaluation of at most 512 entries each *)

Lemma exp_at_S i : (i < 511)%nat -> exp_at (S i) = xtime (exp_at i).
Proof. revert i. apply (forall_below_dec 511 (fun i => _ = _)). vm_compute. reflexivity. Qed.

Lemma exp_at_period i : (i < 257)%nat -> exp_at (i + 255) = exp_at i.
Proof. revert i. apply (forall_below_dec 257 (fun i => _ = _)). vm_compute. reflexivity. Qed.

Lemma log_exp i : (i < 255)%nat -> log_of (exp_at i) = i.
Proof. revert i. apply (forall_below_dec 255 (fun i => _ = _)). vm_compute. reflexivity. Qed.

Lemma exp_log_lt a : a <> Byte.x00 -> exp_at (log_of a) = a /\ (log_of a < 255)%nat.
Proof.
  revert a. apply (forall_bytes_dec (fun a => a <> Byte.x00 -> exp_at (log_of a) = a /\ log_of a < 255)%nat).
  vm_compute. reflexivity.
Qed.

Lemma exp_nonzero i : (i < 512)%nat -> exp_at i <> Byte.x00.
Proof. revert i. apply (forall_below_dec 512 (fun i => _ <> _)). vm_compute. reflexivity. Qed.

Lemma exp_0 : exp_at 0 = Byte.x01.
Proof. vm_compute. reflexivity. Qed.

Lemma log_1 : log_of Byte.x01 = 0%nat.
Proof. vm_compute. reflexivity. Qed.

#[global] Opaque exp_at log_of.

Lemma exp_log a : a <> Byte.x00 -> exp_at (log_of a) = a.
Proof. intros H. exact (proj1 (exp_log_lt a H)). Qed.

Lemma log_lt a : a <> Byte.x00 -> (log_of a < 255)%nat.
Proof. intros H. exact (proj2 (exp_log_lt a H)). Qed.

Lemma mul_nonzero a b :
  a <> Byte.x00 -> b <> Byte.x00 -> mul a b = exp_at (log_of a + log_of b).
Proof. intros. unfold mul. rewrite decide_False; [reflexivity|tauto]. Qed.

Lemma mul_0_l b : mul Byte.x00 b = Byte.x00.
Proof. unfold mul. rewrite decide_True; auto. Qed.

Lemma mul_0_r a : mul a Byte.x00 = Byte.x00.
Proof. unfold mul. rewrite decide_True; auto. Qed.

Lemma mul_comm a b : mul a b = mul b a.
Proof.
  unfold mul. rewrite Nat.add_comm.
  do 2 case_decide; tauto.
Qed.

Lemma mul_1_l a : mul Byte.x01 a = a.
Proof.
  destruct (decide (a = Byte.x00)) as [->|Ha]; [apply mul_0_r|].
  rewrite mul_nonzero by done. rewrite log_1. by apply exp_log.
Qed.

Lemma mul_eq_0 a b : mul a b = Byte.x00 <-> a = Byte.x00 \/ b = Byte.x00.
Proof.
  split; [|intros [->| ->]; auto using mul_0_l, mul_0_r].
  intros H. destruct (decide (a = Byte.x00)), (decide (b = Byte.x00)); auto.
  rewrite mul_nonzero in H by done. exfalso.
  pose proof (log_lt a ltac:(done)). pose proof (log_lt b ltac:(done)).
  by apply (exp_nonzero (log_of a + log_of b)); [lia|].
Qed.

(** ** [xtime] is linear and commutes with multiplication *)

Lemma b2n_xtime x :
  b2n (xtime x) = N.lxor (N.shiftl (b2n x) 1 mod 256)
                    (if N.testbit (b2n x) 7 then 29 else 0).
Proof.
  unfold xtime.
  assert (Hhi : band x Byte.x80 = Byte.x00 <-> N.testbit (b2n x) 7 = false).
  { revert x. apply (forall_bytes_dec (fun x => _ <-> _)). vm_compute. reflexivity. }
  destruct (N.testbit (b2n x) 7) eqn:E.
  - rewrite decide_False by (rewrite Hhi; done).
    rewrite b2n_bxor, b2n_n2b. done.
  - rewrite decide_True by (rewrite Hhi; done). by rewrite b2n_n2b, N.lxor_0_r.
Qed.

Lemma mod256_lxor a b : (N.lxor a b mod 256 = N.lxor (a mod 256) (b mod 256))%N.
Proof.
  change 256%N with (2 ^ 8)%N. apply N.bits_inj. intros i. rewrite N.lxor_spec.
  destruct (N.lt_ge_cases i 8).
  - rewrite !N.mod_pow2_bits_low by done. by rewrite N.lxor_spec.
  - by rewrite !N.mod_pow2_bits_high.
Qed.

Lemma xtime_add a b : xtime (bxor a b) = bxor (xtime a) (xtime b).
Proof.
  apply b2n_inj. rewrite b2n_bxor, !b2n_xtime, b2n_bxor.
  rewrite N.shiftl_lxor, mod256_lxor, N.lxor_spec.
  set (p := (N.shiftl (b2n a) 1 mod 256)%N). set (q := (N.shiftl (b2n b) 1 mod 256)%N).
  destruct (N.testbit (b2n a) 7), (N.testbit (b2n b) 7); simpl xorb; cbv iota;
    rewrite ?N.lxor_0_r; try reflexivity.
  - rewrite <- N.lxor_assoc, (N.lxor_comm (N.lxor p 29)), N.lxor_assoc.
    rewrite (N.lxor_assoc p), N.lxor_nilpotent, N.lxor_0_r. apply N.lxor_comm.
  - by rewrite !N.lxor_assoc, (N.lxor_comm q).
  - by rewrite N.lxor_assoc.
Qed.

Lemma xtime_0 : xtime Byte.x00 = Byte.x00.
Proof. vm_compute. reflexivity. Qed.

Lemma xtime_nonzero a : a <> Byte.x00 -> xtime a <> Byte.x00.
Proof.
  intros Ha. pose proof (log_lt a Ha).
  rewrite <- (exp_log a Ha), <- exp_at_S by lia. apply exp_nonzero. lia.
Qed.

Lemma exp_log_xtime a n :
  a <> Byte.x00 -> (n < 255)%nat -> exp_at (log_of (xtime a) + n) = exp_at (S (log_of a + n)).
Proof.
  intros Ha Hn. pose proof (log_lt a Ha) as Hl.
  rewrite <- (exp_log a Ha) at 1. rewrite <- exp_at_S by lia.
  destruct (decide (log_of a = 254%nat)) as [E|E].
  - rewrite E. rewrite (exp_at_period 0 ltac:(lia) : exp_at 255 = _), log_exp by lia.
    replace (S (254 + n)) with (n + 255)%nat by lia. by rewrite exp_at_period by lia.
  - by rewrite log_exp by lia.
Qed.

Lemma mul_xtime a b : mul (xtime a) b = xtime (mul a b).
Proof.
  destruct (decide (a = Byte.x00)) as [->|Ha].
  { by rewrite xtime_0, !mul_0_l, xtime_0. }
  destruct (decide (b = Byte.x00)) as [->|Hb].
  { by rewrite !mul_0_r, xtime_0. }
  rewrite !mul_nonzero by auto using xtime_nonzero.
  pose proof (log_lt a Ha). pose proof (log_lt b Hb).
  rewrite exp_log_xtime by done. apply exp_at_S. lia.
Qed.

Lemma exp_at_iter n : (n < 512)%nat -> exp_at n = Nat.iter n xtime Byte.x01.
Proof.
  induction n as [|n IH]; intros Hn; [apply exp_0|].
  rewrite exp_at_S by lia. simpl. by rewrite IH by lia.
Qed.

Lemma mul_iter n a b : mul (Nat.iter n xtime a) b = Nat.iter n xtime (mul a b).
Proof. induction n as [|n IH]; simpl; [done|]. by rewrite mul_xtime, IH. Qed.

(** Multiplication by a nonzero element is repeated doubling. *)
Lemma mul_log a b : a <> Byte.x00 -> mul a b = Nat.iter (log_of a) xtime b.
Proof.
  intros Ha. pose proof (log_lt a Ha).
  rewrite <- (exp_log a Ha) at 1. rewrite exp_at_iter by lia.
  by rewrite mul_iter, mul_1_l.
Qed.

Lemma mul_assoc a b c : mul a (mul b c) = mul (mul a b) c.
Proof.
  destruct (decide (a = Byte.x00)) as [->|Ha]; [by rewrite !mul_0_l|].
  by rewrite !(mul_log a) by done; rewrite mul_iter.
Qed.

Lemma mul_add_r a b c : mul a (bxor b c) = bxor (mul a b) (mul a c).
Proof.
  destruct (decide (a = Byte.x00)) as [->|Ha].
  { by rewrite !mul_0_l. }
  rewrite !(mul_log a) by done. induction (log_of a) as [|n IH]; [done|].
  simpl. by rewrite IH, xtime_add.
Qed.

Lemma mul_add_l a b c : mul (bxor a b) c = bxor (mul a c) (mul b c).
Proof. by rewrite mul_comm, mul_add_r, !(mul_comm c). Qed.

Lemma mul_inv_unchecked a : a <> Byte.x00 -> mul (inv_unchecked a) a = Byte.x01.
Proof.
  intros Ha. unfold inv_unchecked. pose proof (log_lt a Ha) as Hl.
  rewrite mul_nonzero by (try apply exp_nonzero; auto; lia).
  destruct (decide (log_of a = 0%nat)) as [E|E].
  - rewrite E. change (255 - 0)%nat with (0 + 255)%nat.
    rewrite exp_at_period, log_exp by lia. apply exp_0.
  - rewrite log_exp by lia. replace (255 - log_of a + log_of a)%nat with (0 + 255)%nat by lia.
    rewrite exp_at_period by lia. apply exp_0.
Qed.

Definition div (a b : u8) : u8 := mul a (inv_unchecked b).

Lemma gf_field_theory :
  field_theory Byte.x00 Byte.x01 add mul add (fun x : u8 => x) div inv_unchecked eq.
Proof.
  split; [split|..]; unfold add; auto using bxor_0_l, bxor_comm, bxor_assoc, mul_1_l,
    mul_comm, mul_assoc, mul_add_l, bxor_nilpotent, mul_inv_unchecked; done.
Qed.

(** Coefficients in GF(2): [ring] and [field] then know that [x + x = 0]. *)
Definition gf2_phi (b : bool) : u8 := if b then Byte.x01 else Byte.x00.

Lemma gf2_morph :
  ring_morph Byte.x00 Byte.x01 add mul add (fun x : u8 => x) eq
    false true xorb andb xorb (fun x : bool => x) Bool.eqb gf2_phi.
Proof.
  split; try reflexivity.
  - intros [] []; vm_compute; reflexivity.
  - intros [] []; vm_compute; reflexivity.
  - intros [] []; vm_compute; reflexivity.
  - intros [] []; simpl; congruence.
Qed.

Ltac gf2_cst t :=
  match t with
  | Byte.x00 => constr:(false)
  | Byte.x01 => constr:(true)
  | _ => constr:(InitialRing.NotConstant)
  end.

Add Field gf_field : gf_field_theory (morphism gf2_morph, constants [gf2_cst]).

Declare Scope gf_scope.
Delimit Scope gf_scope with gf.
Infix "+" := add : gf_scope.
Infix "*" := mul : gf_scope.
Notation "0" := Byte.x00 : gf_scope.
Notation "1" := Byte.x01 : gf_scope.

Lemma add_self a : add a a = Byte.x00.
Proof. apply bxor_nilpotent. Qed.

Lemma add_eq_0 a b : add a b = Byte.x00 -> a = b.
Proof.
  unfold add. intros H. rewrite <- (bxor_0_r a), <- (bxor_nilpotent b), bxor_assoc, H.
  apply bxor_0_l.
Qed.

Lemma inv_ok a : a <> Byte.x00 -> inv a = Ret (inv_unchecked a).
Proof. intros. unfold inv. by rewrite bool_decide_eq_true_2. Qed.

Lemma inv_unchecked_nonzero a : a <> Byte.x00 -> inv_unchecked a <> Byte.x00.
Proof.
  intros Ha E. pose proof (mul_inv_unchecked a Ha) as H. rewrite E, mul_0_l in H. done.
Qed.

(** ** Agreement with the reference multiplication *)

Fixpoint poly_bits (n : nat) (b : N) : u8 :=
  match n with
  | O => Byte.x00
  | S n' => bxor (if N.testbit b 0 then Byte.x01 else Byte.x00) (xtime (poly_bits n' (N.shiftr b 1)))
  end.

Lemma poly_bits_byte b : poly_bits 8 (b2n b) = b.
Proof. revert b. apply (forall_bytes_dec (fun b => _ = _)). vm_compute. reflexivity. Qed.

Lemma ref_mul_loop_spec n a b p : ref_mul_loop n a b p = bxor p (mul (poly_bits n b) a).
Proof.
  revert a b p. induction n as [|n IH]; intros a b p; simpl.
  { by rewrite mul_0_l, bxor_0_r. }
  rewrite IH, mul_add_l, mul_xtime, (mul_comm _ (xtime a)), mul_xtime, (mul_comm a).
  destruct (N.testbit b 0).
  - by rewrite mul_1_l, <- bxor_assoc.
  - by rewrite mul_0_l, bxor_0_l.
Qed.

Lemma mul_ref a b : mul a b = ref_mul a b.
Proof.
  unfold ref_mul. rewrite ref_mul_loop_spec, poly_bits_byte, bxor_0_l. apply mul_comm.
Qed.

(** ** Slices *)
Lemma length_zip_upd f dst src : length (zip_upd f dst src) = length dst.
Proof. revert src. induction dst as [|d dst IH]; intros [|s src]; simpl; auto. Qed.

Lemma zip_upd_zip_with f dst src :
  length src = length dst -> zip_upd f dst src = zip_with f dst src.
Proof.
  revert src. induction dst as [|d dst IH]; intros [|s src] H; simpl in *; try lia; auto.
  f_equal. apply IH. lia.
Qed.

(** ** The contract of the module *)

(** Table multiplication is multiplication of polynomials over GF(2)
    modulo x^8+x^4+x^3+x^2+1, as computed bit by bit by the reference routine
    of the source's own tests, on all 65536 pairs. *)
Theorem mul_matches_reference (a b : u8) : mul a b = ref_mul a b.
Proof. apply mul_ref. Qed.

(** The bytes with [add] (xor) and [mul] form a field in which every
    element is its own negation, and [inv] computes the reciprocal of every
    non-zero byte and fails, as asserted, exactly on zero. *)
Theorem gf256_is_field :
  field_theory Byte.x00 Byte.x01 add mul add (fun x : u8 => x) div inv_unchecked eq /\
  inv Byte.x00 = Panic /\
  forall a, a <> Byte.x00 -> exists b, inv a = Ret b /\ mul a b = Byte.x01.
Proof.
  split_and!; [apply gf_field_theory|reflexivity|].
  intros a Ha. exists (inv_unchecked a). rewrite inv_ok by done. split; [done|].
  rewrite mul_comm. by apply mul_inv_unchecked.
Qed.
