(* ===== verification/RsSimd.v ===== *)
(** * SIMD multiply-accumulate kernels (crates/yip-transport/src/rs_simd.rs)
    and their dispatch ([mul_add_row] of rs.rs)

    A vector register is the list of its bytes in memory order.  The
    [core::arch] intrinsics the kernels use are given by their documented
    per-lane meaning; each kernel is the loop of the source over whole
    registers followed by the scalar remainder loop.  The theorems show that
    every kernel, on every CPU, computes what [gf256::mul_slice_into]
    computes. *)

From Stdlib Require Strings.Byte.
From Stdlib Require Import NArith Lia.
From stdpp Require Import base numbers list.
From S2P Require Import Prelude Gf256.

(** ** Tables *)

(** One row of [SimdTables.lo] / [SimdTables.hi]: the 16 products, stored twice. *)
Definition lo_row (coeff : u8) : list u8 :=
  let v := map (fun b => mul coeff (n2b (N.of_nat b))) (seq 0 16) in v ++ v.
Definition hi_row (coeff : u8) : list u8 :=
  let v := map (fun b => mul coeff (n2b (N.shiftl (N.of_nat b) 4))) (seq 0 16) in v ++ v.

Definition nibble_tables (coeff : u8) : list u8 * list u8 :=
  (take 16 (lo_row coeff), take 16 (hi_row coeff)).

(** [u64::from_le_bytes]. *)
Definition from_le_bytes (bs : list u8) : N := from_be_bytes (rev bs).

(** The bit matrix of multiplication by [coeff]: bit [k] of byte [7-i] is bit
    [i] of [coeff * 2^k]. *)
Definition gfni_matrix (coeff : u8) : N :=
  from_le_bytes
    (fold_left
       (fun bytes k =>
          let c_k := mul coeff (n2b (N.shiftl 1 (N.of_nat k))) in
          fold_left
            (fun bytes i =>
               if N.testbit (b2n c_k) (N.of_nat i)
               then <[(7 - i)%nat :=
                       n2b (N.lor (b2n (bytes !!! (7 - i)%nat)) (N.shiftl 1 (N.of_nat k)))]> bytes
               else bytes)
            (seq 0 8) bytes)
       (seq 0 8) (replicate 8 Byte.x00)).

(** ** Intrinsics *)

(** [_mm*_set1_epi8], [vdupq_n_u8], [u8x16_splat]. *)
Definition set1_epi8 (w : nat) (b : u8) : list u8 := replicate w b.
(** [_mm*_and_si*], [vandq_u8], [v128_and]. *)
Definition and_si (a b : list u8) : list u8 := zip_with band a b.
(** [_mm*_xor_si*], [veorq_u8], [v128_xor]. *)
Definition xor_si (a b : list u8) : list u8 := zip_with bxor a b.

(** [_mm*_srli_epi16(a, 4)]: a logical right shift of each little-endian
    16-bit lane. *)
Fixpoint srli_epi16_4 (a : list u8) : list u8 :=
  match a with
  | lo :: hi :: a' =>
      let v := N.shiftr (b2n lo + 256 * b2n hi) 4 in
      n2b v :: n2b (N.shiftr v 8) :: srli_epi16_4 a'
  | _ => a
  end.

(** [vshrq_n_u8(a, 4)], [u8x16_shr(a, 4)]: a right shift of each byte. *)
Definition shr_u8_4 (a : list u8) : list u8 := map (fun b => n2b (N.shiftr (b2n b) 4)) a.

(** [_mm*_shuffle_epi8(tbl, idx)]: within each 16-byte lane [l], byte [j] is
    zero when the index has its top bit set and byte [idx[j] mod 16] of the
    same lane of [tbl] otherwise. *)
Definition shuffle_epi8 (tbl idx : list u8) : list u8 :=
  imap (fun j b =>
          if N.testbit (b2n b) 7 then Byte.x00
          else tbl !!! ((j / 16) * 16 + N.to_nat (N.land (b2n b) 15))%nat) idx.

(** [vqtbl1q_u8(tbl, idx)], [i8x16_swizzle(tbl, idx)]: an index past the
    16-byte table reads zero. *)
Definition table_lookup_16 (tbl idx : list u8) : list u8 :=
  map (fun b => if (b2n b <? 16)%N then tbl !!! N.to_nat (b2n b) else Byte.x00) idx.

(** [_mm512_broadcast_i32x4]: a 128-bit register in all four lanes. *)
Definition broadcast_i32x4 (a : list u8) : list u8 := a ++ a ++ a ++ a.

Definition matrix_byte (mat : N) (j : nat) : N := N.land (N.shiftr mat (8 * N.of_nat j)) 255.

Definition parity (v : N) : bool :=
  fold_left (fun p i => xorb p (N.testbit v (N.of_nat i))) (seq 0 8) false.

(** [_mm*_gf2p8affine_epi64_epi8::<0>(data, set1(mat))]: bit [i] of each output
    byte is the parity of the byte masked with byte [7-i] of the matrix. *)
Definition affine_byte (mat : N) (x : u8) : u8 :=
  n2b (fold_left (fun acc i =>
                    if parity (N.land (b2n x) (matrix_byte mat (7 - i)))
                    then N.lor acc (N.shiftl 1 (N.of_nat i)) else acc)
         (seq 0 8) 0%N).
Definition gf2p8affine (data : list u8) (mat : N) : list u8 := map (affine_byte mat) data.

(** ** Kernels *)

(** [for i in 0..chunks]: load [w] bytes of [src] and [dst] at [i*w], combine
    them and store the result back into [dst]. *)
Definition chunk_loop (w chunks : nat) (op : list u8 -> list u8 -> list u8)
    (src dst : list u8) : list u8 :=
  fold_left
    (fun dst i =>
       let offset := (i * w)%nat in
       let data := slice offset (offset + w) src in
       let prev_dst := slice offset (offset + w) dst in
       take offset dst ++ op data prev_dst ++ drop (offset + w) dst)
    (seq 0 chunks) dst.

(** [for i in remainder..len { dst[i] ^= mul(src[i], coeff) }] *)
Definition remainder_loop (remainder len : nat) (coeff : u8) (src dst : list u8) : list u8 :=
  fold_left (fun dst i => <[i := bxor (dst !!! i) (mul (src !!! i) coeff)]> dst)
    (seq remainder (len - remainder)) dst.

Definition kernel (w : nat) (op : list u8 -> list u8 -> list u8)
    (coeff : u8) (src dst : list u8) : list u8 :=
  let len := length src in
  let chunks := (len / w)%nat in
  let dst := chunk_loop w chunks op src dst in
  remainder_loop (chunks * w) len coeff src dst.

(** The loop body shared by the x86 nibble-shuffle kernels at width [w]. *)
Definition shuffle_body (w : nat) (tbl_lo tbl_hi : list u8) (data prev_dst : list u8) : list u8 :=
  let mask_lo := set1_epi8 w Byte.x0f in
  let v_lo := and_si data mask_lo in
  let shifted := srli_epi16_4 data in
  let v_hi := and_si shifted mask_lo in
  let p_lo := shuffle_epi8 tbl_lo v_lo in
  let p_hi := shuffle_epi8 tbl_hi v_hi in
  let prod := xor_si p_lo p_hi in
  xor_si prev_dst prod.

(** The loop body of the NEON and WebAssembly kernels. *)
Definition table_body (tbl_lo tbl_hi : list u8) (data prev_dst : list u8) : list u8 :=
  let mask_lo := set1_epi8 16 Byte.x0f in
  let v_lo := and_si data mask_lo in
  let shifted := shr_u8_4 data in
  let v_hi := and_si shifted mask_lo in
  let p_lo := table_lookup_16 tbl_lo v_lo in
  let p_hi := table_lookup_16 tbl_hi v_hi in
  let prod := xor_si p_lo p_hi in
  xor_si prev_dst prod.

Definition guarded (f : u8 -> list u8 -> list u8 -> list u8)
    (coeff : u8) (src dst : list u8) : run (list u8) :=
  let! _ := rassert (bool_decide (length src = length dst)) in
  if decide (coeff = Byte.x00) then Ret dst else Ret (f coeff src dst).

Definition mul_add_ssse3 : u8 -> list u8 -> list u8 -> run (list u8) :=
  guarded (fun coeff =>
    kernel 16 (shuffle_body 16 (take 16 (lo_row coeff)) (take 16 (hi_row coeff))) coeff).

Definition mul_add_avx2 : u8 -> list u8 -> list u8 -> run (list u8) :=
  guarded (fun coeff => kernel 32 (shuffle_body 32 (lo_row coeff) (hi_row coeff)) coeff).

Definition mul_add_avx512 : u8 -> list u8 -> list u8 -> run (list u8) :=
  guarded (fun coeff =>
    kernel 64 (shuffle_body 64 (broadcast_i32x4 (take 16 (lo_row coeff)))
                               (broadcast_i32x4 (take 16 (hi_row coeff)))) coeff).

Definition mul_add_neon : u8 -> list u8 -> list u8 -> run (list u8) :=
  guarded (fun coeff =>
    kernel 16 (table_body (nibble_tables coeff).1 (nibble_tables coeff).2) coeff).

Definition mul_add_wasm128 : u8 -> list u8 -> list u8 -> run (list u8) :=
  guarded (fun coeff =>
    kernel 16 (table_body (nibble_tables coeff).1 (nibble_tables coeff).2) coeff).

Definition gfni_body (mat : N) (data prev_dst : list u8) : list u8 :=
  xor_si prev_dst (gf2p8affine data mat).

Definition mul_add_gfni_512 (mat : N) : u8 -> list u8 -> list u8 -> list u8 := kernel 64 (gfni_body mat).
Definition mul_add_gfni_256 (mat : N) : u8 -> list u8 -> list u8 -> list u8 := kernel 32 (gfni_body mat).
Definition mul_add_gfni_128 (mat : N) : u8 -> list u8 -> list u8 -> list u8 := kernel 16 (gfni_body mat).

(** ** The CPU and the dispatch *)

Inductive Arch := X86_64 | AArch64 | Wasm32 | OtherArch.

(** What the [cfg(target_arch)] gates and the runtime feature probes see. *)
Class Cpu := mkCpu {
  target_arch : Arch;
  has_gfni : bool;
  has_avx512f : bool;
  has_avx512bw : bool;
  has_avx2 : bool;
  has_ssse3 : bool;
  has_neon : bool
}.

Section dispatch.
Context {cpu : Cpu}.

Definition mul_add_gfni : u8 -> list u8 -> list u8 -> run (list u8) :=
  guarded (fun coeff src dst =>
    let mat := gfni_matrix coeff in
    if has_avx512f then mul_add_gfni_512 mat coeff src dst
    else if has_avx2 then mul_add_gfni_256 mat coeff src dst
    else mul_add_gfni_128 mat coeff src dst).

(** rs.rs [mul_add_row]: multiply [src] by [coeff] and accumulate into [dst]. *)
Definition mul_add_row (coeff : u8) (src dst : list u8) : run (list u8) :=
  let! _ := rassert (bool_decide (length src = length dst)) in
  if decide (coeff = Byte.x00) then Ret dst
  else if decide (coeff = Byte.x01) then Ret (zip_upd bxor dst src)
  else match target_arch with
       | X86_64 =>
           if has_gfni then mul_add_gfni coeff src dst
           else if has_avx512bw then mul_add_avx512 coeff src dst
           else if has_avx2 then mul_add_avx2 coeff src dst
           else if has_ssse3 then mul_add_ssse3 coeff src dst
           else Ret (mul_slice_into dst src coeff)
       | AArch64 =>
           if has_neon then mul_add_neon coeff src dst
           else Ret (mul_slice_into dst src coeff)
       | Wasm32 => mul_add_wasm128 coeff src dst
       | OtherArch => Ret (mul_slice_into dst src coeff)
       end.
End dispatch.

(** * Correctness of the kernels *)

(** The byte operation every kernel implements. *)
Definition mac (c d s : u8) : u8 := bxor d (mul s c).

(** [dst] after the first [i] bytes have been processed. *)
Definition progress (c : u8) (src dst : list u8) (i : nat) : list u8 :=
  zip_with (mac c) (take i dst) (take i src) ++ drop i dst.

Section loops.
Context (c : u8) (src dst : list u8) (Hlen : length src = length dst).

Lemma length_progress i : length (progress c src dst i) = length dst.
Proof. unfold progress. rewrite length_app, length_zip_with. len. Qed.

Lemma drop_progress i j : (i <= j)%nat -> (i <= length dst)%nat ->
  drop j (progress c src dst i) = drop j dst.
Proof.
  intros. unfold progress. rewrite drop_app_ge by (rewrite length_zip_with; len).
  rewrite length_zip_with, drop_drop. f_equal. len.
Qed.

Lemma take_progress i : (i <= length dst)%nat ->
  take i (progress c src dst i) = zip_with (mac c) (take i dst) (take i src).
Proof. intros. unfold progress. rewrite take_app_length'; [done|]. rewrite length_zip_with. len. Qed.

Lemma slice_progress i w : (i + w <= length dst)%nat ->
  slice i (i + w) (progress c src dst i) = slice i (i + w) dst.
Proof. intros. unfold slice. by rewrite drop_progress by lia. Qed.

Lemma progress_chunk i w : (i + w <= length dst)%nat ->
  take i (progress c src dst i)
    ++ zip_with (mac c) (slice i (i + w) dst) (slice i (i + w) src)
    ++ drop (i + w) (progress c src dst i)
  = progress c src dst (i + w).
Proof.
  intros H. rewrite take_progress, drop_progress by lia. unfold progress, slice.
  replace (i + w - i)%nat with w by lia.
  rewrite <- (take_take_drop dst i w), <- (take_take_drop src i w).
  rewrite zip_with_app by len. by rewrite app_assoc.
Qed.

Lemma progress_step i : (i < length dst)%nat ->
  <[i := bxor (progress c src dst i !!! i) (mul (src !!! i) c)]> (progress c src dst i)
  = progress c src dst (S i).
Proof.
  intros H. rewrite insert_take_drop by (rewrite length_progress; lia).
  rewrite <- Nat.add_1_r, <- progress_chunk by lia. rewrite Nat.add_1_r. do 2 f_equal.
  destruct (lookup_lt_is_Some_2 src i) as [s Hs]; [lia|].
  destruct (lookup_lt_is_Some_2 dst i) as [d Hd]; [lia|].
  assert (Hp : progress c src dst i !! i = Some d).
  { rewrite <- (Nat.add_0_r i), <- lookup_drop, drop_progress, lookup_drop by lia.
    by rewrite Nat.add_0_r. }
  rewrite (list_lookup_total_correct _ _ _ Hp), (list_lookup_total_correct _ _ _ Hs).
  unfold slice. replace (S i - i)%nat with 1%nat by lia.
  by rewrite (drop_S dst d), (drop_S src s).
Qed.

Lemma chunk_loop_progress w chunks op :
  (forall data prev, length data = w -> length prev = w -> op data prev = zip_with (mac c) prev data) ->
  (chunks * w <= length dst)%nat ->
  chunk_loop w chunks op src dst = progress c src dst (chunks * w).
Proof.
  intros Hop. induction chunks as [|n IH]; intros H; [done|].
  unfold chunk_loop in *. rewrite seq_S, fold_left_app, IH by lia. simpl.
  rewrite slice_progress, Hop by (rewrite ?length_slice; lia).
  rewrite progress_chunk by lia. f_equal. lia.
Qed.

Lemma remainder_loop_progress i : (i <= length dst)%nat ->
  remainder_loop i (length dst) c src (progress c src dst i) = progress c src dst (length dst).
Proof.
  intros H. unfold remainder_loop.
  remember (length dst - i)%nat as n eqn:En. revert i H En.
  induction n as [|n IH]; intros i H En; simpl.
  { f_equal. lia. }
  rewrite progress_step by lia. apply IH; lia.
Qed.

Lemma kernel_correct w op :
  (0 < w)%nat ->
  (forall data prev, length data = w -> length prev = w -> op data prev = zip_with (mac c) prev data) ->
  kernel w op c src dst = zip_with (mac c) dst src.
Proof.
  intros Hw Hop. unfold kernel. rewrite Hlen.
  assert (length dst / w * w <= length dst)%nat
    by (pose proof (Nat.Div0.mul_div_le (length dst) w); lia).
  rewrite chunk_loop_progress by done. rewrite remainder_loop_progress by done.
  unfold progress. by rewrite drop_all, app_nil_r, !firstn_all2 by lia.
Qed.

End loops.

(** ** Nibble tables *)

Definition lo_nib (x : u8) : N := N.land (b2n x) 15.
Definition hi_nib (x : u8) : N := N.shiftr (b2n x) 4.

Lemma nib_split x :
  x = bxor (n2b (lo_nib x)) (n2b (N.shiftl (hi_nib x) 4)) /\ (lo_nib x < 16)%N /\ (hi_nib x < 16)%N.
Proof.
  revert x. apply (forall_bytes_dec (fun x => _ /\ _ /\ _)). vm_compute. reflexivity.
Qed.

Lemma mul_nibbles c x :
  bxor (mul c (n2b (lo_nib x))) (mul c (n2b (N.shiftl (hi_nib x) 4))) = mul x c.
Proof. rewrite <- mul_add_r, mul_comm. f_equal. symmetry. apply nib_split. Qed.

(** A register whose 16-byte lanes all hold the table [f]. *)
Definition lanes_hold (tbl : list u8) (w : nat) (f : N -> u8) : Prop :=
  forall j n, (j < w)%nat -> (n < 16)%N -> tbl !!! (j / 16 * 16 + N.to_nat n)%nat = f n.

Lemma lookup_total_map_seq (f : nat -> u8) m n :
  (n < m)%nat -> map f (seq 0 m) !!! n = f n.
Proof.
  intros H. apply list_lookup_total_correct. rewrite list_lookup_fmap.
  by rewrite lookup_seq_lt by lia.
Qed.

Lemma lanes_app v tbl w (f : N -> u8) :
  length v = 16%nat -> lanes_hold v 16 f -> lanes_hold tbl w f -> lanes_hold (v ++ tbl) (16 + w) f.
Proof.
  intros Hv H1 H2 j n Hj Hn. destruct (decide (j < 16)%nat) as [Hlt|Hge].
  - rewrite lookup_total_app_l by (rewrite Hv, Nat.div_small by lia; lia).
    by apply H1.
  - assert (Hd : (j / 16 = S ((j - 16) / 16))%nat).
    { replace j with (j - 16 + 1 * 16)%nat at 1 by lia. rewrite Nat.div_add by lia. lia. }
    rewrite Hd, lookup_total_app_r by lia.
    rewrite <- (H2 (j - 16)%nat n ltac:(lia) Hn). f_equal. lia.
Qed.

Lemma lanes_16 (f : N -> u8) :
  lanes_hold (map (fun b => f (N.of_nat b)) (seq 0 16)) 16 f.
Proof.
  intros j n Hj Hn. rewrite Nat.div_small by lia. simpl Nat.add.
  rewrite lookup_total_map_seq by lia. by rewrite N2Nat.id.
Qed.

#[export] Hint Resolve lanes_app lanes_16 : yip.

Lemma lo_row_lanes c : lanes_hold (lo_row c) 32 (fun n => mul c (n2b n)) /\
  lanes_hold (take 16 (lo_row c)) 16 (fun n => mul c (n2b n)) /\
  lanes_hold (broadcast_i32x4 (take 16 (lo_row c))) 64 (fun n => mul c (n2b n)).
Proof.
  unfold lo_row, broadcast_i32x4. rewrite take_app_length' by done.
  pose proof (lanes_16 (fun n => mul c (n2b n))) as H.
  set (v := map _ _) in *. assert (Hv : length v = 16%nat) by done.
  pose proof (fun t w => lanes_app v t w _ Hv H) as Happ.
  split_and!; [exact (Happ _ 16 H)|done|].
  exact (Happ _ 48 (Happ _ 32 (Happ _ 16 H))).
Qed.

Lemma hi_row_lanes c : lanes_hold (hi_row c) 32 (fun n => mul c (n2b (N.shiftl n 4))) /\
  lanes_hold (take 16 (hi_row c)) 16 (fun n => mul c (n2b (N.shiftl n 4))) /\
  lanes_hold (broadcast_i32x4 (take 16 (hi_row c))) 64 (fun n => mul c (n2b (N.shiftl n 4))).
Proof.
  unfold hi_row, broadcast_i32x4. rewrite take_app_length' by done.
  pose proof (lanes_16 (fun n => mul c (n2b (N.shiftl n 4)))) as H.
  set (v := map _ _) in *. assert (Hv : length v = 16%nat) by done.
  pose proof (fun t w => lanes_app v t w _ Hv H) as Happ.
  split_and!; [exact (Happ _ 16 H)|done|].
  exact (Happ _ 48 (Happ _ 32 (Happ _ 16 H))).
Qed.

(** ** Masks and shifts *)

Lemma and_mask l : and_si l (set1_epi8 (length l) Byte.x0f) = map (fun x => n2b (lo_nib x)) l.
Proof.
  unfold and_si, set1_epi8. induction l as [|x l IH]; [done|]. simpl. by rewrite IH.
Qed.

Lemma srli_pair lo hi :
  let v := N.shiftr (b2n lo + 256 * b2n hi) 4 in
  lo_nib (n2b v) = hi_nib lo /\ lo_nib (n2b (N.shiftr v 8)) = hi_nib hi.
Proof.
  unfold lo_nib, hi_nib. change 15%N with (N.ones 4).
  rewrite !N.land_ones, !b2n_n2b, !N.shiftr_div_pow2.
  pose proof (b2n_lt lo). pose proof (b2n_lt hi).
  change (2 ^ 4)%N with 16%N. change (2 ^ 8)%N with 256%N.
  split; apply N2Z.inj; rewrite ?N2Z.inj_mod, ?N2Z.inj_div, ?N2Z.inj_mod, ?N2Z.inj_div,
    ?N2Z.inj_add, ?N2Z.inj_mul; simpl Z.of_N; Z.to_euclidean_division_equations; lia.
Qed.

Lemma srli_mask l : Nat.Even (length l) ->
  and_si (srli_epi16_4 l) (set1_epi8 (length l) Byte.x0f) = map (fun x => n2b (hi_nib x)) l.
Proof.
  remember (length l) as n eqn:E. revert l E.
  induction n as [n IH] using lt_wf_ind. intros [|lo [|hi l]] -> Heven; [done| |].
  { destruct Heven as [m Hm]. simpl in Hm. lia. }
  unfold and_si, set1_epi8 in *. simpl.
  destruct (srli_pair lo hi) as [H1 H2]. unfold lo_nib in H1, H2. unfold band.
  change (b2n Byte.x0f) with 15%N. rewrite H1, H2. do 2 f_equal.
  apply (IH (length l)); [simpl; lia|done|].
  destruct Heven as [m Hm]. simpl in Hm. exists (m - 1)%nat. lia.
Qed.

Lemma shr_mask l :
  and_si (shr_u8_4 l) (set1_epi8 (length l) Byte.x0f) = map (fun x => n2b (hi_nib x)) l.
Proof.
  unfold and_si, shr_u8_4, set1_epi8. induction l as [|x l IH]; [done|]. simpl. rewrite IH. f_equal.
  revert x. apply (forall_bytes_dec (fun x => _ = _)). vm_compute. reflexivity.
Qed.

(** ** Lookups *)

Lemma nib_byte n : (n < 16)%N ->
  N.testbit (b2n (n2b n)) 7 = false /\ N.land (b2n (n2b n)) 15 = n /\ b2n (n2b n) = n.
Proof.
  intros Hn. rewrite b2n_n2b_small by lia. split_and!; [|change 15%N with (N.ones 4)|done].
  - rewrite <- (N.mod_small n (2 ^ 4)) by done. by rewrite N.mod_pow2_bits_high.
  - rewrite N.land_ones. by apply N.mod_small.
Qed.

Lemma shuffle_lanes tbl w f (nib : u8 -> N) l :
  (forall x, (nib x < 16)%N) -> lanes_hold tbl w f -> length l = w ->
  shuffle_epi8 tbl (map (fun x => n2b (nib x)) l) = map (fun x => f (nib x)) l.
Proof.
  intros Hnib Htbl Hl. apply list_eq. intros j. unfold shuffle_epi8.
  rewrite list_lookup_imap, !list_lookup_fmap.
  destruct (l !! j) as [x|] eqn:Ex; cbn -[Nat.div Nat.mul]; [|done]. apply lookup_lt_Some in Ex.
  destruct (nib_byte (nib x) (Hnib x)) as (-> & -> & _).
  cbv iota. f_equal. apply Htbl; auto. lia.
Qed.

Lemma table_lanes tbl f (nib : u8 -> N) l :
  (forall x, (nib x < 16)%N) -> lanes_hold tbl 16 f ->
  table_lookup_16 tbl (map (fun x => n2b (nib x)) l) = map (fun x => f (nib x)) l.
Proof.
  intros Hnib Htbl. unfold table_lookup_16. rewrite map_map. apply map_ext. intros x.
  destruct (nib_byte (nib x) (Hnib x)) as (_ & _ & ->).
  rewrite (proj2 (N.ltb_lt _ _)) by apply Hnib.
  by rewrite <- (Htbl 0%nat (nib x)) by (auto; lia).
Qed.

Lemma xor_nibbles c data prev :
  xor_si prev (xor_si (map (fun x => mul c (n2b (lo_nib x))) data)
                      (map (fun x => mul c (n2b (N.shiftl (hi_nib x) 4))) data))
  = zip_with (mac c) prev data.
Proof.
  unfold xor_si. revert prev. induction data as [|x data IH]; intros [|d prev]; [done..|].
  simpl. rewrite IH, mul_nibbles. done.
Qed.

Lemma shuffle_body_correct w c tbl_lo tbl_hi data prev :
  Nat.Even w -> lanes_hold tbl_lo w (fun n => mul c (n2b n)) ->
  lanes_hold tbl_hi w (fun n => mul c (n2b (N.shiftl n 4))) ->
  length data = w -> shuffle_body w tbl_lo tbl_hi data prev = zip_with (mac c) prev data.
Proof.
  intros Hw Hlo Hhi <-. unfold shuffle_body. rewrite and_mask, srli_mask by done.
  erewrite (shuffle_lanes tbl_lo), (shuffle_lanes tbl_hi); eauto; try apply nib_split.
  apply xor_nibbles.
Qed.

Lemma table_body_correct c tbl_lo tbl_hi data prev :
  lanes_hold tbl_lo 16 (fun n => mul c (n2b n)) ->
  lanes_hold tbl_hi 16 (fun n => mul c (n2b (N.shiftl n 4))) ->
  length data = 16%nat -> table_body tbl_lo tbl_hi data prev = zip_with (mac c) prev data.
Proof.
  intros Hlo Hhi Hd. unfold table_body. rewrite <- Hd, and_mask, shr_mask.
  erewrite (table_lanes tbl_lo), (table_lanes tbl_hi); eauto; try apply nib_split.
  apply xor_nibbles.
Qed.

(** ** GFNI: the affine transform is multiplication *)

(** A byte assembled from eight bits has those bits. *)
Lemma byte_of_bits (f : nat -> bool) i :
  (i < 8)%nat ->
  N.testbit (b2n (n2b (fold_left (fun acc i => if f i then N.lor acc (N.shiftl 1 (N.of_nat i)) else acc)
                         (seq 0 8) 0%N))) (N.of_nat i) = f i.
Proof.
  intros Hi. simpl fold_left.
  destruct (f 0%nat) eqn:E0, (f 1%nat) eqn:E1, (f 2%nat) eqn:E2, (f 3%nat) eqn:E3,
    (f 4%nat) eqn:E4, (f 5%nat) eqn:E5, (f 6%nat) eqn:E6, (f 7%nat) eqn:E7;
  do 8 (destruct i as [|i]; [match goal with E : f ?k = _ |- _ = f ?k => rewrite E end;
                             reflexivity|]); lia.
Qed.

Lemma parity_lxor a b : parity (N.lxor a b) = xorb (parity a) (parity b).
Proof.
  unfold parity. change false with (xorb false false) at 1. generalize false at 1 3. generalize false.
  induction (seq 0 8) as [|i l IH]; intros p q; [done|]. simpl. rewrite <- IH. f_equal.
  rewrite N.lxor_spec. destruct p, q, (N.testbit a _), (N.testbit b _); reflexivity.
Qed.

Lemma byte_bits_eq a b :
  (forall i, (i < 8)%nat -> N.testbit (b2n a) (N.of_nat i) = N.testbit (b2n b) (N.of_nat i)) -> a = b.
Proof.
  intros H. apply b2n_inj, N.bits_inj. intros i.
  destruct (N.lt_ge_cases i 8) as [Hi|Hi].
  - rewrite <- (N2Nat.id i). apply H. lia.
  - rewrite !testbit_256; auto using b2n_lt.
Qed.

Lemma affine_byte_bit mat x i : (i < 8)%nat ->
  N.testbit (b2n (affine_byte mat x)) (N.of_nat i)
  = parity (N.land (b2n x) (matrix_byte mat (7 - i))).
Proof.
  intros Hi. unfold affine_byte.
  exact (byte_of_bits (fun i => parity (N.land (b2n x) (matrix_byte mat (7 - i)))) i Hi).
Qed.

Lemma affine_byte_add mat x y : affine_byte mat (bxor x y) = bxor (affine_byte mat x) (affine_byte mat y).
Proof.
  apply byte_bits_eq. intros i Hi. rewrite b2n_bxor, N.lxor_spec, !affine_byte_bit by done.
  rewrite <- parity_lxor, b2n_bxor. f_equal. apply N.bits_inj. intros k.
  rewrite N.lxor_spec, !N.land_spec, N.lxor_spec.
  destruct (N.testbit (b2n x) k), (N.testbit (b2n y) k), (N.testbit (matrix_byte mat (7 - i)) k);
    reflexivity.
Qed.

(** Two additive functions that agree on the eight powers of two agree. *)
Lemma additive_ext (f g : u8 -> u8) :
  (forall x y, f (bxor x y) = bxor (f x) (f y)) ->
  (forall x y, g (bxor x y) = bxor (g x) (g y)) ->
  (forall k, (k < 8)%nat -> f (n2b (2 ^ N.of_nat k)) = g (n2b (2 ^ N.of_nat k))) ->
  forall x, f x = g x.
Proof.
  intros Hf Hg Hb x.
  pose (bit := fun (x : u8) k => if N.testbit (b2n x) (N.of_nat k) then n2b (2 ^ N.of_nat k) else Byte.x00).
  assert (Hx : fold_right (fun k acc => bxor (bit x k) acc) Byte.x00 (seq 0 8) = x).
  { revert x. apply (forall_bytes_dec (fun x => _ = _)). vm_compute. reflexivity. }
  assert (Hz : forall h : u8 -> u8, (forall x y, h (bxor x y) = bxor (h x) (h y)) -> h Byte.x00 = Byte.x00).
  { intros h Hh. specialize (Hh Byte.x00 Byte.x00). rewrite bxor_nilpotent in Hh.
    by rewrite bxor_nilpotent in Hh. }
  rewrite <- Hx. clear Hx. assert (Hk : Forall (fun k => (k < 8)%nat) (seq 0 8)).
  { apply Forall_seq. lia. }
  induction Hk as [|k ks Hlt _ IH]; simpl; [by rewrite (Hz f), (Hz g)|].
  rewrite Hf, Hg, IH. f_equal. unfold bit.
  destruct (N.testbit _ _); [by apply Hb|by rewrite (Hz f), (Hz g)].
Qed.

Lemma gfni_basis c k : (k < 8)%nat ->
  affine_byte (gfni_matrix c) (n2b (2 ^ N.of_nat k)) = mul c (n2b (2 ^ N.of_nat k)).
Proof.
  intros Hk. assert (H : Forall (fun k => affine_byte (gfni_matrix c) (n2b (2 ^ N.of_nat k))
                                   = mul c (n2b (2 ^ N.of_nat k))) (seq 0 8)).
  { clear Hk. revert c. apply (forall_bytes_dec (fun c => Forall _ _)). vm_compute. reflexivity. }
  rewrite Forall_seq in H. apply H. lia.
Qed.

(** The GFNI bit matrix of [coeff] multiplies by [coeff]. *)
Lemma affine_gfni c x : affine_byte (gfni_matrix c) x = mul c x.
Proof.
  revert x. apply additive_ext; auto using affine_byte_add, mul_add_r, gfni_basis.
Qed.

Lemma gfni_body_correct c data prev :
  gfni_body (gfni_matrix c) data prev = zip_with (mac c) prev data.
Proof.
  unfold gfni_body, gf2p8affine, xor_si.
  revert prev. induction data as [|x data IH]; intros [|d prev]; [done..|].
  simpl. rewrite IH, affine_gfni, (mul_comm c). done.
Qed.

(** ** Every kernel is the scalar loop *)

Lemma guarded_correct f c src dst :
  length src = length dst ->
  (c <> Byte.x00 -> f c src dst = zip_with (mac c) dst src) ->
  guarded f c src dst = Ret (mul_slice_into dst src c).
Proof.
  intros Hlen Hf. unfold guarded, mul_slice_into. rewrite bool_decide_eq_true_2 by done. simpl.
  case_decide; [done|]. rewrite Hf by done. by rewrite zip_upd_zip_with.
Qed.

Ltac kernel_tac :=
  intros; apply guarded_correct; [done|]; intros _; apply kernel_correct; [done|lia|];
  intros; first [apply shuffle_body_correct | apply table_body_correct]; auto;
  first [apply lo_row_lanes | apply hi_row_lanes | by exists 8%nat | by exists 16%nat | by exists 32%nat].

Section kernels.
Context (c : u8) (src dst : list u8) (Hlen : length src = length dst).

Lemma mul_add_ssse3_correct : mul_add_ssse3 c src dst = Ret (mul_slice_into dst src c).
Proof. kernel_tac. Qed.

Lemma mul_add_avx2_correct : mul_add_avx2 c src dst = Ret (mul_slice_into dst src c).
Proof. kernel_tac. Qed.

Lemma mul_add_avx512_correct : mul_add_avx512 c src dst = Ret (mul_slice_into dst src c).
Proof. kernel_tac. Qed.

Lemma mul_add_neon_correct : mul_add_neon c src dst = Ret (mul_slice_into dst src c).
Proof. kernel_tac. Qed.

Lemma mul_add_wasm128_correct : mul_add_wasm128 c src dst = Ret (mul_slice_into dst src c).
Proof. kernel_tac. Qed.

Lemma mul_add_gfni_correct {cpu : Cpu} : mul_add_gfni c src dst = Ret (mul_slice_into dst src c).
Proof.
  apply guarded_correct; [done|]. intros _.
  unfold mul_add_gfni_512, mul_add_gfni_256, mul_add_gfni_128.
  repeat case_match; apply kernel_correct; auto using gfni_body_correct; lia.
Qed.

(** On every CPU, [mul_add_row] accumulates [coeff * src] into [dst]. *)
Lemma mul_add_row_correct {cpu : Cpu} :
  mul_add_row c src dst = Ret (zip_with (mac c) dst src).
Proof.
  assert (Hs : c <> Byte.x00 -> zip_with (mac c) dst src = mul_slice_into dst src c).
  { intros. unfold mul_slice_into. rewrite decide_False by done. by rewrite zip_upd_zip_with. }
  unfold mul_add_row. rewrite bool_decide_eq_true_2 by done. cbn [rassert rbind].
  case_decide as H0; [|case_decide as H1].
  - subst c. f_equal. clear Hs. revert src Hlen.
    induction dst as [|d ds IH]; intros [|s ss] H; simpl in *; try lia; [done|].
    unfold mac at 1. rewrite mul_0_r, bxor_0_r. f_equal. apply IH. lia.
  - subst c. rewrite zip_upd_zip_with by done. f_equal. apply zip_with_ext; [|done..].
    intros d s. unfold mac. by rewrite mul_comm, mul_1_l.
  - rewrite Hs by done.
    repeat case_match; auto using mul_add_ssse3_correct, mul_add_avx2_correct,
      mul_add_avx512_correct, mul_add_neon_correct, mul_add_wasm128_correct, mul_add_gfni_correct.
Qed.

End kernels.

(** C40: every vector kernel (SSSE3, AVX2, AVX-512, the three GFNI widths,
    NEON and WebAssembly) computes, on slices of equal length, exactly what the
    scalar table loop computes, whatever the length and whatever the remainder
    after the last full vector. *)
Theorem kernels_match_scalar {cpu : Cpu} (c : u8) (src dst : list u8) :
  length src = length dst ->
  mul_add_ssse3 c src dst = Ret (mul_slice_into dst src c) /\
  mul_add_avx2 c src dst = Ret (mul_slice_into dst src c) /\
  mul_add_avx512 c src dst = Ret (mul_slice_into dst src c) /\
  mul_add_gfni c src dst = Ret (mul_slice_into dst src c) /\
  mul_add_neon c src dst = Ret (mul_slice_into dst src c) /\
  mul_add_wasm128 c src dst = Ret (mul_slice_into dst src c).
Proof.
  intros Hlen. split_and!; auto using mul_add_ssse3_correct, mul_add_avx2_correct,
    mul_add_avx512_correct, mul_add_neon_correct, mul_add_wasm128_correct, mul_add_gfni_correct.
Qed.

(** The dispatching row operation [dst += coeff * src] gives the same
    bytes on every architecture and with every combination of CPU features:
    each byte of [dst] plus [coeff] times the byte of [src]. *)
Theorem mul_add_row_portable {cpu : Cpu} (c : u8) (src dst : list u8) :
  length src = length dst ->
  mul_add_row c src dst = Ret (zip_with (fun d s => add d (mul s c)) dst src).
Proof. intros Hlen. by apply mul_add_row_correct. Qed.

Definition demo_src : list u8 := map (fun i => n2b (N.of_nat (5 * i + 3))) (seq 0 37).
Definition demo_dst : list u8 := map (fun i => n2b (N.of_nat (11 * i))) (seq 0 37).

Lemma kernels_match_scalar_witness :
  length demo_src = length demo_dst /\
  mul_add_avx2 Byte.x53 demo_src demo_dst = Ret (mul_slice_into demo_dst demo_src Byte.x53).
Proof.
  split; [reflexivity|].
  apply (kernels_match_scalar (cpu := mkCpu X86_64 true true true true true false) Byte.x53 demo_src demo_dst).
  reflexivity.
Defined.

Lemma mul_add_row_portable_witness :
  mul_add_row (cpu := mkCpu AArch64 false false false false false true) Byte.x53 demo_src demo_dst
  = mul_add_row (cpu := mkCpu X86_64 true true true true true false) Byte.x53 demo_src demo_dst.
Proof.
  rewrite (mul_add_row_portable (cpu := mkCpu AArch64 false false false false false true)) by reflexivity.
  rewrite (mul_add_row_portable (cpu := mkCpu X86_64 true true true true true false)) by reflexivity.
  reflexivity.
Defined.

#[global] Opaque mul_add_row.
