(* ===== verification/LinAlg.v ===== *)
(** * Linear algebra over GF(2^8)

    Finite sums, and the fact the Cauchy code rests on: the kernel of a Cauchy
    matrix is trivial ([cauchy_kernel]). *)

From Stdlib Require Strings.Byte.
From Stdlib Require Import NArith Lia Field.
From stdpp Require Import base numbers sets list.
From S2P Require Import Prelude Gf256.

Local Open Scope gf_scope.

(** ** Sums *)

Fixpoint lsum {A} (l : list A) (f : A -> u8) : u8 :=
  match l with
  | [] => 0
  | a :: l' => f a + lsum l' f
  end.

Section sums.
Context {A : Type}.
Implicit Types (l : list A) (f g : A -> u8).

Lemma lsum_ext l f g : (forall a, a ∈ l -> f a = g a) -> lsum l f = lsum l g.
Proof.
  induction l as [|a l IH]; intros H; simpl; [done|].
  rewrite H, IH by set_solver. done.
Qed.

Lemma lsum_zero l f : (forall a, a ∈ l -> f a = 0) -> lsum l f = 0.
Proof.
  induction l as [|a l IH]; intros H; simpl; [done|].
  rewrite H, IH by set_solver. ring.
Qed.

Lemma lsum_add l f g : lsum l (fun a => f a + g a) = lsum l f + lsum l g.
Proof. induction l as [|a l IH]; simpl; [ring|]. rewrite IH. ring. Qed.

Lemma lsum_mul_l l c f : lsum l (fun a => c * f a) = c * lsum l f.
Proof. induction l as [|a l IH]; simpl; [ring|]. rewrite IH. ring. Qed.

Lemma lsum_mul_r l c f : lsum l (fun a => f a * c) = lsum l f * c.
Proof. induction l as [|a l IH]; simpl; [ring|]. rewrite IH. ring. Qed.

Lemma lsum_app l1 l2 f : lsum (l1 ++ l2) f = lsum l1 f + lsum l2 f.
Proof. induction l1 as [|a l IH]; simpl; [ring|]. rewrite IH. ring. Qed.

Lemma lsum_filter_split (P : A -> Prop) `{forall a, Decision (P a)} l f :
  lsum l f = lsum (filter P l) f + lsum (filter (fun a => ~ P a) l) f.
Proof.
  induction l as [|a l IH]; simpl; [ring|]. rewrite IH.
  destruct (decide (P a)) as [Ha|Ha].
  - rewrite filter_cons_True, filter_cons_False by auto. simpl. ring.
  - rewrite filter_cons_False, (filter_cons_True (fun a => ~ P a)) by auto. simpl. ring.
Qed.
End sums.

Lemma lsum_map {A B} (h : A -> B) l (f : B -> u8) : lsum (map h l) f = lsum l (fun a => f (h a)).
Proof. induction l as [|a l IH]; simpl; [done|]. by rewrite IH. Qed.

Lemma lsum_swap {A B} (la : list A) (lb : list B) (f : A -> B -> u8) :
  lsum la (fun a => lsum lb (fun b => f a b)) = lsum lb (fun b => lsum la (fun a => f a b)).
Proof.
  induction la as [|a la IH]; simpl.
  - symmetry. by apply lsum_zero.
  - by rewrite IH, lsum_add.
Qed.

(** The sum of a function that vanishes off one point. *)
Lemma lsum_delta {A} `{EqDecision A} (l : list A) a (f : A -> u8) :
  NoDup l -> a ∈ l -> (forall b, b ∈ l -> b <> a -> f b = 0) -> lsum l f = f a.
Proof.
  induction 1 as [|b l Hb Hnd IH]; intros Ha Hf; [by apply not_elem_of_nil in Ha|]. simpl.
  apply elem_of_cons in Ha as [->|Ha].
  - rewrite lsum_zero; [ring|]. intros c Hc. apply Hf; [set_solver|congruence].
  - rewrite IH by set_solver. rewrite (Hf b); [ring|set_solver|congruence].
Qed.

(** [Σ_{i<n} f i] *)
Abbreviation sum n f := (lsum (seq 0 n) f).

Lemma sum_delta n j (f : nat -> u8) :
  (j < n)%nat -> (forall i, (i < n)%nat -> i <> j -> f i = 0) -> sum n f = f j.
Proof.
  intros Hj Hf. apply lsum_delta; [apply NoDup_seq|apply elem_of_seq; lia|].
  intros i Hi. apply elem_of_seq in Hi. apply Hf. lia.
Qed.

Lemma sum_ext n (f g : nat -> u8) : (forall i, (i < n)%nat -> f i = g i) -> sum n f = sum n g.
Proof. intros H. apply lsum_ext. intros i Hi%elem_of_seq. apply H. lia. Qed.

Lemma sum_zero n (f : nat -> u8) : (forall i, (i < n)%nat -> f i = 0) -> sum n f = 0.
Proof. intros H. apply lsum_zero. intros i Hi%elem_of_seq. apply H. lia. Qed.

(** ** Cauchy matrices *)

Lemma sub_nonzero (a b : u8) : a <> b -> a + b <> 0.
Proof. intros H E. by apply H, add_eq_0. Qed.

Lemma mul_cancel_0 (a b : u8) : a * b = 0 -> a <> 0 -> b = 0.
Proof. intros H Ha. apply mul_eq_0 in H. tauto. Qed.

Section cauchy.
Context (b a : u8) (ys : list u8) (w : u8 -> u8).
Context (Hb : b ∉ ys).

(** Clearing the column of [b] in the row of [x]. *)
Lemma cauchy_clear x :
  x <> b -> (forall y, y ∈ ys -> x <> y) ->
  w b * inv_unchecked (x + b) + lsum ys (fun y => w y * inv_unchecked (x + y)) = 0 ->
  w b + lsum ys w + lsum ys (fun y => w y * (b + y) * inv_unchecked (x + y)) = 0.
Proof.
  intros Hxb Hxy H.
  assert (E : (x + b) * (w b * inv_unchecked (x + b)
                + lsum ys (fun y => w y * inv_unchecked (x + y))) = 0).
  { rewrite H. ring. }
  rewrite <- E. clear E H.
  assert (Hs : (x + b) * lsum ys (fun y => w y * inv_unchecked (x + y))
    = lsum ys w + lsum ys (fun y => w y * (b + y) * inv_unchecked (x + y))).
  { rewrite <- lsum_mul_l, <- lsum_add. apply lsum_ext. intros y Hy.
    field. apply sub_nonzero. auto. }
  transitivity ((x + b) * (w b * inv_unchecked (x + b))
    + (x + b) * lsum ys (fun y => w y * inv_unchecked (x + y))); [|ring].
  rewrite Hs. field. by apply sub_nonzero.
Qed.

(** Subtracting the cleared row of [a] from the cleared row of [x] leaves the
    row of [x] of a smaller Cauchy matrix. *)
Lemma cauchy_reduce x :
  x <> a -> (forall y, y ∈ ys -> x <> y) -> (forall y, y ∈ ys -> a <> y) ->
  w b + lsum ys w + lsum ys (fun y => w y * (b + y) * inv_unchecked (x + y)) = 0 ->
  w b + lsum ys w + lsum ys (fun y => w y * (b + y) * inv_unchecked (a + y)) = 0 ->
  lsum ys (fun y => w y * (b + y) * inv_unchecked (a + y) * inv_unchecked (x + y)) = 0.
Proof.
  intros Hxa Hx Ha H1 H2. apply (mul_cancel_0 (x + a)); [|by apply sub_nonzero].
  rewrite <- lsum_mul_l.
  transitivity ((w b + lsum ys w + lsum ys (fun y => w y * (b + y) * inv_unchecked (x + y)))
    + (w b + lsum ys w + lsum ys (fun y => w y * (b + y) * inv_unchecked (a + y)))).
  - transitivity (lsum ys (fun y => w y * (b + y) * inv_unchecked (x + y))
      + lsum ys (fun y => w y * (b + y) * inv_unchecked (a + y))); [|ring].
    rewrite <- lsum_add. apply lsum_ext. intros y Hy.
    field. split; apply sub_nonzero; auto.
  - rewrite H1, H2. ring.
Qed.
End cauchy.

(** The kernel of the Cauchy matrix [1/(x+y)] (distinct [x]s, distinct [y]s, no
    [x] equal to a [y]) is trivial. *)
Lemma cauchy_kernel (ys xs : list u8) (w : u8 -> u8) :
  NoDup ys -> NoDup xs -> length xs = length ys ->
  (forall x y, x ∈ xs -> y ∈ ys -> x <> y) ->
  (forall x, x ∈ xs -> lsum ys (fun y => w y * inv_unchecked (x + y)) = 0) ->
  forall y, y ∈ ys -> w y = 0.
Proof.
  intros Hys. revert xs w. induction Hys as [|b ys Hb Hys IH]; intros xs w Hxs Hlen Hne Hk y Hy.
  { by apply not_elem_of_nil in Hy. }
  destruct Hxs as [|a xs Ha Hxs]; [done|]. simpl in Hlen.
  assert (Hxb : forall x, x ∈ a :: xs -> x <> b) by (intros; apply Hne; [done|left]).
  assert (Hxy : forall x y, x ∈ a :: xs -> y ∈ ys -> x <> y) by (intros; apply Hne; [done|by right]).
  assert (Hclear : forall x, x ∈ a :: xs ->
    w b + lsum ys w + lsum ys (fun y => w y * (b + y) * inv_unchecked (x + y)) = 0).
  { intros x Hx. apply cauchy_clear; auto. apply (Hk x Hx). }
  assert (Hrest : forall y, y ∈ ys -> w y = 0).
  { intros z Hz.
    assert (Hz0 : w z * (b + z) * inv_unchecked (a + z) = 0).
    { apply (IH xs (fun y => w y * (b + y) * inv_unchecked (a + y))); [done|lia| | |done].
      - intros x u Hx Hu. apply Hxy; [by right|done].
      - intros x Hx. assert (x ∈ a :: xs) by (by right). assert (a ∈ a :: xs) by left.
        apply cauchy_reduce; auto. congruence. }
    apply mul_eq_0 in Hz0 as [Hz0|Hz0]; [apply mul_eq_0 in Hz0 as [Hz0|Hz0]; [done|]|].
    - apply add_eq_0 in Hz0. congruence.
    - exfalso. eapply inv_unchecked_nonzero; [|exact Hz0]. apply sub_nonzero, Hxy; [left|done]. }
  apply elem_of_cons in Hy as [->|Hy]; [|by apply Hrest].
  specialize (Hk a ltac:(left)). simpl in Hk.
  rewrite (lsum_zero ys) in Hk by (intros z Hz; rewrite Hrest by done; ring).
  assert (Hab : a + b <> 0) by (apply sub_nonzero, Hxb; left).
  apply (mul_cancel_0 (inv_unchecked (a + b))); [|by apply inv_unchecked_nonzero].
  rewrite <- Hk. ring.
Qed.
