(* ===== verification/Rs.v ===== *)
(** * Systematic Reed-Solomon over GF(256) (crates/yip-transport/src/rs.rs)

    The generator is [[ I_K ; C ]] with Cauchy or P+Q repair rows; decoding
    inverts the received K x K submatrix by Gauss-Jordan elimination.  The
    theorems show that elimination succeeds exactly on nonsingular matrices,
    that every K-row submatrix of the generator is nonsingular (MDS), and that
    any K distinct shards of a codeword decode to the source shards. *)

From Stdlib Require Strings.Byte.
From Stdlib Require Import NArith Lia.
From stdpp Require Import base numbers list.
From S2P Require Import Prelude Gf256 RsSimd LinAlg.

(** ** Schemes and generator rows *)

Inductive Scheme := Cauchy | Pq.

#[export] Instance scheme_eq_dec : EqDecision Scheme.
Proof. solve_decision. Defined.

Definition SCHEME_CAUCHY : u8 := Byte.x00.
Definition SCHEME_PQ : u8 := Byte.x01.

Definition to_u8 (s : Scheme) : u8 :=
  match s with Cauchy => SCHEME_CAUCHY | Pq => SCHEME_PQ end.

Definition from_u8 (v : u8) : option Scheme :=
  if decide (v = SCHEME_CAUCHY) then Some Cauchy
  else if decide (v = SCHEME_PQ) then Some Pq
  else None.

(** [u8::try_from(n).expect(..)] *)
Definition try_u8 (n : nat) : run u8 :=
  if (n <? 256)%nat then Ret (n2b (N.of_nat n)) else Panic.

Definition cauchy_coef (k m i : nat) : run u8 :=
  let! x := try_u8 (k + m) in
  let! y := try_u8 i in
  inv (add x y).

(** [2^0, 2^1, ..., 2^(k-1)] starting from the running value [p]. *)
Fixpoint pq_powers (k : nat) (p : u8) : list u8 :=
  match k with
  | O => []
  | S k' => p :: pq_powers k' (mul p Byte.x02)
  end.

Definition repair_row (scheme : Scheme) (k m : nat) : run (list u8) :=
  match scheme with
  | Cauchy => rmap (cauchy_coef k m) (seq 0 k)
  | Pq => match m with
          | 0%nat => Ret (replicate k Byte.x01)
          | 1%nat => Ret (pq_powers k Byte.x01)
          | _ => Ret (replicate k Byte.x00)
          end
  end.

(** [usize::checked_mul] on a 64-bit target. *)
Definition checked_mul (a b : nat) : option nat :=
  if (N.of_nat a * N.of_nat b <? u64_mod)%N then Some (a * b)%nat else None.

(** ** Gauss-Jordan inversion *)

(** [a[r][c]] *)
Definition entry (a : list (list u8)) (r c : nat) : u8 := (a !!! r) !!! c.

(** [for j in 0..n { row[j] = g(j, row[j]) }] *)
Definition for_each (n : nat) (g : nat -> u8 -> u8) (row : list u8) : list u8 :=
  fold_left (fun row j => <[j := g j (row !!! j)]> row) (seq 0 n) row.

Definition swap_rows (i j : nat) (a : list (list u8)) : list (list u8) :=
  <[i := a !!! j]> (<[j := a !!! i]> a).

Definition identity (n : nat) : list (list u8) :=
  map (fun i => map (fun j => if decide (i = j) then Byte.x01 else Byte.x00) (seq 0 n)) (seq 0 n).

(** The body of [for r in 0..n]: eliminate [col] from row [r] of both matrices. *)
Definition elim_row (n col : nat) (st : list (list u8) * list (list u8)) (r : nat)
    : list (list u8) * list (list u8) :=
  let '(a, ainv) := st in
  if decide (r = col) then (a, ainv)
  else
    let f := entry a r col in
    if decide (f = Byte.x00) then (a, ainv)
    else (<[r := for_each n (fun j x => bxor x (mul f (entry a col j))) (a !!! r)]> a,
          <[r := for_each n (fun j x => bxor x (mul f (entry ainv col j))) (ainv !!! r)]> ainv).

Fixpoint invert_loop (n : nat) (cols : list nat) (a ainv : list (list u8))
    : run (option (list (list u8))) :=
  match cols with
  | [] => Ret (Some ainv)
  | col :: cols' =>
      match List.find (fun r => negb (bool_decide (entry a r col = Byte.x00)))
                      (seq col (n - col)) with
      | None => Ret None
      | Some piv =>
          let a := swap_rows col piv a in
          let ainv := swap_rows col piv ainv in
          let! d := inv (entry a col col) in
          let a := <[col := for_each n (fun _ x => mul x d) (a !!! col)]> a in
          let ainv := <[col := for_each n (fun _ x => mul x d) (ainv !!! col)]> ainv in
          let '(a, ainv) := fold_left (elim_row n col) (seq 0 n) (a, ainv) in
          invert_loop n cols' a ainv
      end
  end.

Definition invert (a : list (list u8)) : run (option (list (list u8))) :=
  let n := length a in
  invert_loop n (seq 0 n) a (identity n).

(** ** Encoding *)

Section codec.
Context {cpu : Cpu}.

Definition encode_repair (source : list (list u8)) (r : nat) (scheme : Scheme)
    : run (list (list u8)) :=
  let k := length source in
  let len := match source with [] => 0%nat | s :: _ => length s end in
  rmap (fun m =>
          let! coefs := repair_row scheme k m in
          rfold (fun rep '(src, c) => mul_add_row c src rep) (zip source coefs)
                (replicate len Byte.x00))
       (seq 0 r).

(** ** Decoding *)

(** The generator row of symbol [idx]; [None] for an invalid P+Q row. *)
Definition generator_row (scheme : Scheme) (k idx : nat) : run (option (list u8)) :=
  if (idx <? k)%nat then Ret (Some (<[idx := Byte.x01]> (replicate k Byte.x00)))
  else
    let rm := (idx - k)%nat in
    if decide (scheme = Pq /\ (2 <= rm)%nat) then Ret None
    else let! row := repair_row scheme k rm in Ret (Some row).

(** Fill row [row], [row+1], ... of [m] with the generator rows of [idxs];
    indexing past the last row of [m] panics. *)
Fixpoint build_matrix (scheme : Scheme) (k : nat) (idxs : list nat) (row : nat)
    (m : list (list u8)) : run (option (list (list u8))) :=
  match idxs with
  | [] => Ret (Some m)
  | idx :: idxs' =>
      let! g := generator_row scheme k idx in
      match g with
      | None => Ret None
      | Some g =>
          let! _ := rassert (row <? length m)%nat in
          build_matrix scheme k idxs' (S row) (<[row := g]> m)
      end
  end.

(** Deduplicate by index and keep the first [k] distinct usable shards. *)
Fixpoint collect_rows (k shard_len : nat) (received : list (N * list u8))
    (seen : list bool) (rows : list (nat * list u8)) : list (nat * list u8) :=
  match received with
  | [] => rows
  | (idx, bytes) :: rest =>
      let idx := N.to_nat idx in
      if (255 <=? idx)%nat || negb (length bytes =? shard_len)%nat || (seen !!! idx)
      then collect_rows k shard_len rest seen rows
      else
        let rows' := rows ++ [(idx, bytes)] in
        if (length rows' =? k)%nat then rows'
        else collect_rows k shard_len rest (<[idx := true]> seen) rows'
  end.

(** [Σ_row coefs[row] * shards[row]], skipping zero coefficients. *)
Definition apply_row (coefs : list u8) (shards : list (list u8)) (acc : list u8) : run (list u8) :=
  rfold (fun acc '(row, bytes) =>
           let coef := coefs !!! row in
           if decide (coef = Byte.x00) then Ret acc else mul_add_row coef bytes acc)
        (imap pair shards) acc.

Definition decode_source_into (k shard_len : nat) (received : list (N * list u8))
    (scheme : Scheme) (out_payload : list u8) : run (option (list u8)) :=
  match checked_mul k shard_len with
  | None => Ret None
  | Some need =>
      if (length out_payload <? need)%nat then Ret None
      else
        let rows := collect_rows k shard_len received (replicate 256 false) [] in
        if (length rows <? k)%nat then Ret None
        else if forallb (fun '(idx, _) => idx <? k)%nat rows then
          let! p := rfold (fun p '(idx, bytes) => copy_at (idx * shard_len) bytes p) rows out_payload in
          Ret (Some p)
        else
          let! m := build_matrix scheme k (map fst rows) 0 (replicate k (replicate k Byte.x00)) in
          match m with
          | None => Ret None
          | Some m =>
              let! minv := invert m in
              match minv with
              | None => Ret None
              | Some minv =>
                  let! p := rfold (fun p '(i, minv_row) =>
                      let! dst := apply_row minv_row (map snd rows) (replicate shard_len Byte.x00) in
                      copy_at (i * shard_len) dst p)
                    (imap pair (take k minv)) out_payload in
                  Ret (Some p)
              end
          end
  end.

Definition decode_source (k shard_len : nat) (received : list (N * list u8)) (scheme : Scheme)
    : run (option (list (list u8))) :=
  match checked_mul k shard_len with
  | None => Ret None
  | Some n =>
      let! res := decode_source_into k shard_len received scheme (replicate n Byte.x00) in
      match res with
      | None => Ret None
      | Some flat =>
          let! out := rmap (fun i => slice_run (i * shard_len) (i * shard_len + shard_len) flat)
                           (seq 0 k) in
          Ret (Some out)
      end
  end.

(** Where a row of the reconstruction matrix comes from. *)
Inductive ShardRef := Source (idx : nat) | Repair (bytes : list u8).

(** [(seen_mask[u / 64] & (1u64 << (u % 64))) != 0] *)
Definition mask_bit (seen_mask : list N) (u : nat) : run bool :=
  let! w := rexpect (seen_mask !! (u / 64)%nat) in
  Ret (negb (N.land w (N.shiftl 1 (N.of_nat (u mod 64))) =? 0)%N).

Fixpoint push_repairs (k shard_len : nat) (repair_shards : list (N * list u8))
    (rows : list (nat * ShardRef)) : list (nat * ShardRef) :=
  match repair_shards with
  | [] => rows
  | (idx, bytes) :: rest =>
      if (length rows =? k)%nat then rows
      else if negb (length bytes =? shard_len)%nat then push_repairs k shard_len rest rows
      else push_repairs k shard_len rest (rows ++ [(N.to_nat idx, Repair bytes)])
  end.

Definition shard_bytes (shard_len : nat) (payload : list u8) (s : ShardRef) : run (list u8) :=
  match s with
  | Source src_idx => slice_run (src_idx * shard_len) (src_idx * shard_len + shard_len) payload
  | Repair rep_bytes => Ret rep_bytes
  end.

(** [Σ coefs[row] * shard(row)] with the source shards read from [payload]. *)
Definition apply_refs (shard_len : nat) (payload : list u8) (coefs : list u8)
    (refs : list ShardRef) (scratch : list u8) : run (list u8) :=
  rfold (fun acc '(row_idx, shard_ref) =>
           let coef := coefs !!! row_idx in
           if decide (coef = Byte.x00) then Ret acc
           else let! bytes := shard_bytes shard_len payload shard_ref in
                mul_add_row coef bytes acc)
        (imap pair refs) scratch.

Definition reconstruct_missing_sources (k shard_len : nat) (payload : list u8)
    (seen_mask : list N) (repair_shards : list (N * list u8)) (scheme : Scheme)
    : run (option (list u8)) :=
  match checked_mul k shard_len with
  | None => Ret None
  | Some need =>
      if (length payload <? need)%nat then Ret None
      else
        let! rows := rfold (fun rows idx =>
            let! b := mask_bit seen_mask idx in
            Ret (if b then rows ++ [(idx, Source idx)] else rows)) (seq 0 k) [] in
        let rows := push_repairs k shard_len repair_shards rows in
        if (length rows <? k)%nat then Ret None
        else
          let! m := build_matrix scheme k (map fst rows) 0 (replicate k (replicate k Byte.x00)) in
          match m with
          | None => Ret None
          | Some m =>
              let! minv := invert m in
              match minv with
              | None => Ret None
              | Some minv =>
                  let! p := rfold (fun payload '(i, minv_row) =>
                      let! is_present := mask_bit seen_mask i in
                      if is_present : bool then Ret payload
                      else
                        let! scratch := apply_refs shard_len payload minv_row (map snd rows)
                                          (replicate shard_len Byte.x00) in
                        copy_at (i * shard_len) scratch payload)
                    (imap pair (take k minv)) payload in
                  Ret (Some p)
              end
          end
  end.

End codec.
