(* ===== verification/RsMds.v ===== *)
(** * Inversion, and the generator is MDS

    First the Gauss-Jordan inversion [rs::invert].  The loop keeps four facts:
    both working matrices stay square, the left one is the product of the right
    one with the input, its first [col] columns are unit columns, and its kernel
    is contained in the input's.  On success the right matrix is therefore a
    left inverse; on failure the missing pivot yields a nonzero vector in the
    kernel.

    Then the generator.  [grow] is the generator row of a symbol as a pure
    function; the rows the code computes agree with it.  Any [k] distinct valid
    symbols give a nonsingular matrix: for Cauchy rows by [cauchy_kernel], for
    P+Q rows by the two-erasure argument on [1] and [2^i]. *)

From Stdlib Require Strings.Byte.
From Stdlib Require Import NArith Lia Field.
From stdpp Require Import base numbers list.
From S2P Require Import Prelude Gf256 RsSimd LinAlg Rs.

Local Open Scope gf_scope.

Definition shape (n : nat) (a : list (list u8)) : Prop :=
  length a = n /\ Forall (fun row => length row = n) a.

Definition delta (i j : nat) : u8 := if decide (i = j) then 1 else 0.

(** [x] is in the kernel of [a]. *)
Definition kills (n : nat) (a : list (list u8)) (x : nat -> u8) : Prop :=
  forall r, (r < n)%nat -> sum n (fun c => entry a r c * x c) = 0.

Definition nonsingular (n : nat) (a : list (list u8)) : Prop :=
  forall x, kills n a x -> forall c, (c < n)%nat -> x c = 0.

Definition left_inverse (n : nat) (b a : list (list u8)) : Prop :=
  forall i c, (i < n)%nat -> (c < n)%nat ->
    sum n (fun r => entry b i r * entry a r c) = delta i c.

(** ** Shapes *)

Lemma shape_row n a r : shape n a -> (r < n)%nat -> length (a !!! r) = n.
Proof.
  intros [Hl Hf] Hr. destruct (lookup_lt_is_Some_2 a r) as [row Hrow]; [lia|].
  rewrite (list_lookup_total_correct _ _ _ Hrow). by eapply Forall_lookup_1 in Hf.
Qed.

Lemma shape_insert n a r row : shape n a -> length row = n -> shape n (<[r := row]> a).
Proof. intros [Hl Hf] Hr. split; [len|]. by apply Forall_insert. Qed.

Lemma length_for_each m g row : length (for_each m g row) = length row.
Proof.
  unfold for_each. generalize (seq 0 m). intros l. revert row.
  induction l as [|j l IH]; intros row; simpl; [done|]. by rewrite IH, length_insert.
Qed.

Lemma for_each_lookup m g row j :
  (m <= length row)%nat ->
  for_each m g row !!! j = if decide (j < m)%nat then g j (row !!! j) else row !!! j.
Proof.
  intros Hm. revert j. induction m as [|m IH]; intros j; [done|].
  assert (Hl : length (for_each m g row) = length row) by apply length_for_each.
  unfold for_each in *. rewrite seq_S, fold_left_app. simpl.
  rewrite list_lookup_total_insert, Hl.
  destruct (decide (m = j)) as [<-|Hne].
  - rewrite decide_True by lia. rewrite decide_True by lia.
    rewrite IH by lia. by rewrite decide_False by lia.
  - rewrite decide_False by lia. rewrite IH by lia.
    destruct (decide (j < m)%nat), (decide (j < S m)%nat); try lia; done.
Qed.

#[export] Hint Resolve shape_row shape_insert : yip.

Lemma shape_for_each n m a r g :
  shape n a -> (r < n)%nat -> shape n (<[r := for_each m g (a !!! r)]> a).
Proof. intros. apply shape_insert; [done|]. rewrite length_for_each. auto with yip. Qed.

Lemma entry_for_each n a r g r' c :
  shape n a -> (r < n)%nat -> (c < n)%nat ->
  entry (<[r := for_each n g (a !!! r)]> a) r' c
  = if decide (r = r') then g c (entry a r c) else entry a r' c.
Proof.
  intros Ha Hr Hc. unfold entry. rewrite list_lookup_total_insert.
  destruct Ha as [Hl Hf] eqn:E. rewrite Hl.
  destruct (decide (r = r')) as [<-|Hne].
  - rewrite decide_True by lia. rewrite for_each_lookup by (rewrite (shape_row n a r); auto).
    by rewrite decide_True.
  - by rewrite decide_False by tauto.
Qed.

(** ** Row exchange *)

Definition sw (i j r : nat) : nat := if decide (r = i) then j else if decide (r = j) then i else r.

Lemma sw_sw i j r : sw i j (sw i j r) = r.
Proof. unfold sw. repeat case_decide; congruence. Qed.

Lemma sw_lt n i j r : (i < n)%nat -> (j < n)%nat -> (r < n)%nat -> (sw i j r < n)%nat.
Proof. unfold sw. repeat case_decide; lia. Qed.

Lemma swap_rows_lookup i j a r :
  (i < length a)%nat -> (j < length a)%nat -> swap_rows i j a !!! r = a !!! sw i j r.
Proof.
  intros Hi Hj. unfold swap_rows, sw. rewrite !list_lookup_total_insert, length_insert.
  repeat case_decide; subst; try reflexivity; exfalso; lia.
Qed.

Lemma swap_rows_entry n i j a r c :
  shape n a -> (i < n)%nat -> (j < n)%nat -> entry (swap_rows i j a) r c = entry a (sw i j r) c.
Proof. intros [Hl _] ??. unfold entry. by rewrite swap_rows_lookup by lia. Qed.

Lemma swap_rows_shape n i j a :
  shape n a -> (i < n)%nat -> (j < n)%nat -> shape n (swap_rows i j a).
Proof. intros. unfold swap_rows. auto with yip. Qed.

(** ** The elimination pass *)

Section elim.
Context (n col : nat) (a0 b0 : list (list u8)).
Context (Ha0 : shape n a0) (Hb0 : shape n b0) (Hcol : (col < n)%nat).

Lemma elim_fold m : (m <= n)%nat ->
  let st := fold_left (elim_row n col) (seq 0 m) (a0, b0) in
  shape n st.1 /\ shape n st.2 /\
  forall r c, (r < n)%nat -> (c < n)%nat ->
    entry st.1 r c = entry a0 r c + (if decide ((r < m)%nat /\ r <> col)
                                     then entry a0 r col * entry a0 col c else 0) /\
    entry st.2 r c = entry b0 r c + (if decide ((r < m)%nat /\ r <> col)
                                     then entry a0 r col * entry b0 col c else 0).
Proof.
  induction m as [|m IH]; intros Hm.
  { cbn [seq fold_left fst snd]. split_and!; [done..|]. intros r c _ _. case_decide; [lia|]. split; ring. }
  rewrite seq_S, fold_left_app. specialize (IH ltac:(lia)). cbn [fold_left Nat.add].
  destruct (fold_left (elim_row n col) (seq 0 m) (a0, b0)) as [a b]. cbn [fst snd] in *.
  destruct IH as (Ha & Hb & He).
  assert (Hrow : forall c, (c < n)%nat -> entry a col c = entry a0 col c /\ entry b col c = entry b0 col c).
  { intros c Hc. destruct (He col c Hcol Hc) as [-> ->].
    case_decide; [tauto|]. split; ring. }
  assert (Hf : entry a m col = entry a0 m col).
  { destruct (He m col ltac:(lia) Hcol) as [-> _]. case_decide; [lia|]. ring. }
  unfold elim_row. destruct (decide (m = col)) as [->|Hmc]; cbn [fst snd].
  { split_and!; [done..|]. intros r c Hr Hc. destruct (He r c Hr Hc) as [-> ->].
    destruct (decide ((r < col)%nat /\ r <> col)), (decide ((r < S col)%nat /\ r <> col)); try lia; done. }
  destruct (decide (entry a m col = 0)) as [Hz|Hz]; cbn [fst snd].
  { split_and!; [done..|]. intros r c Hr Hc. destruct (He r c Hr Hc) as [-> ->].
    destruct (decide (r = m)) as [->|Hrm].
    - repeat case_decide; try lia. rewrite <- Hf, Hz. split; ring.
    - destruct (decide ((r < m)%nat /\ r <> col)), (decide ((r < S m)%nat /\ r <> col)); try lia; done. }
  split_and!; [apply shape_for_each; auto; lia..|].
  intros r c Hr Hc. rewrite !(entry_for_each n) by (auto; lia).
  destruct (He r c Hr Hc) as [Hea Heb]. destruct (Hrow c Hc) as [Hra Hrb].
  destruct (decide (m = r)) as [->|Hrm].
  - rewrite Hea, Heb, Hra, Hrb, Hf. repeat case_decide; try lia.
    change bxor with add. split; ring.
  - rewrite Hea, Heb.
    destruct (decide ((r < m)%nat /\ r <> col)), (decide ((r < S m)%nat /\ r <> col)); try lia; done.
Qed.

End elim.

(** ** One column: exchange, normalise, eliminate *)

Definition pivot_step (n col piv : nat) (d : u8) (a b : list (list u8))
    : list (list u8) * list (list u8) :=
  let a := swap_rows col piv a in
  let b := swap_rows col piv b in
  fold_left (elim_row n col) (seq 0 n)
    (<[col := for_each n (fun _ x => mul x d) (a !!! col)]> a,
     <[col := for_each n (fun _ x => mul x d) (b !!! col)]> b).

(** Row [r] of either matrix after the step, in terms of the rows before it;
    [a] supplies the multipliers. *)
Definition stepped (col piv : nat) (d : u8) (a m : list (list u8)) (r c : nat) : u8 :=
  if decide (r = col) then entry m piv c * d
  else entry m (sw col piv r) c + entry a (sw col piv r) col * (entry m piv c * d).

Lemma pivot_step_spec n col piv d a b :
  shape n a -> shape n b -> (col < n)%nat -> (piv < n)%nat ->
  let st := pivot_step n col piv d a b in
  shape n st.1 /\ shape n st.2 /\
  forall r c, (r < n)%nat -> (c < n)%nat ->
    entry st.1 r c = stepped col piv d a a r c /\ entry st.2 r c = stepped col piv d a b r c.
Proof.
  intros Ha Hb Hcol Hpiv. unfold pivot_step. cbv zeta.
  assert (Ha1 := swap_rows_shape n col piv a Ha Hcol Hpiv).
  assert (Hb1 := swap_rows_shape n col piv b Hb Hcol Hpiv).
  destruct (elim_fold n col _ _ (shape_for_each n n _ col (fun _ x => mul x d) Ha1 Hcol)
              (shape_for_each n n _ col (fun _ x => mul x d) Hb1 Hcol) Hcol n (Nat.le_refl n))
    as (H1 & H2 & He).
  split_and!; [done..|]. intros r c Hr Hc. destruct (He r c Hr Hc) as [-> ->].
  rewrite !(entry_for_each n) by auto. unfold stepped.
  rewrite !(swap_rows_entry n) by auto.
  assert (Hsw : sw col piv col = piv) by (unfold sw; by rewrite decide_True).
  destruct (decide (r = col)) as [->|Hrc].
  - repeat case_decide; try tauto. rewrite Hsw. split; ring.
  - repeat case_decide; try lia; try congruence. rewrite Hsw. split; ring.
Qed.

Record gj_inv (n : nat) (A0 : list (list u8)) (col : nat) (a b : list (list u8)) : Prop := {
  gj_a : shape n a;
  gj_b : shape n b;
  gj_prod : forall r c, (r < n)%nat -> (c < n)%nat ->
    entry a r c = sum n (fun k => entry b r k * entry A0 k c);
  gj_unit : forall r c, (r < n)%nat -> (c < col)%nat -> entry a r c = delta r c;
  gj_ker : forall x, kills n a x -> kills n A0 x
}.

Lemma delta_same i : delta i i = 1.
Proof. unfold delta. by rewrite decide_True. Qed.

Lemma delta_ne i j : i <> j -> delta i j = 0.
Proof. intros. unfold delta. by rewrite decide_False. Qed.

Section step.
Context (n col piv : nat) (A0 a b : list (list u8)) (d : u8).
Context (Hinv : gj_inv n A0 col a b).
Context (Hcol : (col < n)%nat) (Hpiv : (col <= piv < n)%nat).
Context (Hnz : entry a piv col <> 0) (Hd : d = inv_unchecked (entry a piv col)).

Let st := pivot_step n col piv d a b.

Lemma step_entries r c : (r < n)%nat -> (c < n)%nat ->
  entry st.1 r c = stepped col piv d a a r c /\ entry st.2 r c = stepped col piv d a b r c.
Proof. intros. apply pivot_step_spec; auto; [apply Hinv..|lia]. Qed.

Lemma step_prod r c : (r < n)%nat -> (c < n)%nat ->
  entry st.1 r c = sum n (fun k => entry st.2 r k * entry A0 k c).
Proof.
  intros Hr Hc. destruct (step_entries r c Hr Hc) as [-> _].
  rewrite (sum_ext n _ (fun k => stepped col piv d a b r k * entry A0 k c))
    by (intros k Hk; by rewrite (proj2 (step_entries r k Hr Hk))).
  assert (Hp : (piv < n)%nat) by lia. pose proof (sw_lt n col piv r Hcol Hp Hr) as Hs.
  unfold stepped. rewrite !(gj_prod _ _ _ _ _ Hinv _ c) by auto.
  destruct (decide (r = col)) as [_|_].
  - rewrite <- lsum_mul_r. apply lsum_ext. intros k _. ring.
  - rewrite <- lsum_mul_r, <- lsum_mul_l, <- lsum_add. apply lsum_ext. intros k _. ring.
Qed.

Lemma step_unit r c : (r < n)%nat -> (c < S col)%nat -> entry st.1 r c = delta r c.
Proof.
  intros Hr Hc. rewrite (proj1 (step_entries r c Hr ltac:(lia))). unfold stepped.
  assert (Hd1 : entry a piv col * d = 1) by (rewrite Hd; field; done).
  destruct (decide (c = col)) as [->|Hne].
  - rewrite Hd1. destruct (decide (r = col)) as [->|Hrc].
    + by rewrite delta_same.
    + rewrite delta_ne by done. ring.
  - rewrite !(gj_unit _ _ _ _ _ Hinv) by (try apply sw_lt; lia).
    rewrite (delta_ne piv c) by lia. unfold sw. repeat case_decide; subst.
    + rewrite delta_ne by lia. ring.
    + rewrite !delta_ne by lia. ring.
    + ring.
Qed.

Lemma step_ker x : kills n st.1 x -> kills n a x.
Proof.
  intros Hk. assert (Hp : (piv < n)%nat) by lia.
  assert (Hdnz : d <> 0) by (rewrite Hd; by apply inv_unchecked_nonzero).
  assert (Hrow : sum n (fun c => entry a piv c * x c) = 0).
  { specialize (Hk col Hcol). rewrite (sum_ext n _ (fun c => d * (entry a piv c * x c))) in Hk.
    - rewrite lsum_mul_l in Hk. by eapply mul_cancel_0.
    - intros c Hc. rewrite (proj1 (step_entries col c Hcol Hc)). unfold stepped.
      rewrite decide_True by done. ring. }
  intros r Hr. destruct (decide (r = piv)) as [->|Hrp]; [done|].
  assert (Hs : sw col piv r <> col) by (unfold sw; repeat case_decide; congruence).
  pose proof (sw_lt n col piv r Hcol Hp Hr) as Hlt.
  specialize (Hk _ Hlt).
  rewrite (sum_ext n _ (fun c => entry a r c * x c + (entry a r col * d) * (entry a piv c * x c))) in Hk.
  - rewrite lsum_add, lsum_mul_l, Hrow in Hk. rewrite <- Hk. ring.
  - intros c Hc. rewrite (proj1 (step_entries _ c Hlt Hc)). unfold stepped.
    rewrite decide_False by done. rewrite sw_sw. ring.
Qed.

Lemma pivot_inv : gj_inv n A0 (S col) st.1 st.2.
Proof.
  destruct (pivot_step_spec n col piv d a b (gj_a _ _ _ _ _ Hinv) (gj_b _ _ _ _ _ Hinv) Hcol
              ltac:(lia)) as (H1 & H2 & _).
  split; auto using step_prod, step_unit. intros x Hx. by apply Hinv, step_ker.
Qed.
End step.

(** ** A missing pivot *)

Lemma find_pivot_Some n col a piv :
  List.find (fun r => negb (bool_decide (entry a r col = 0))) (seq col (n - col)) = Some piv ->
  (col <= piv < n)%nat /\ entry a piv col <> 0.
Proof.
  intros [Hin Hb]%find_some. apply in_seq in Hin.
  apply negb_true_iff, bool_decide_eq_false_1 in Hb. split; [lia|done].
Qed.

Lemma find_pivot_None n col a r :
  List.find (fun r => negb (bool_decide (entry a r col = 0))) (seq col (n - col)) = None ->
  (col <= r < n)%nat -> entry a r col = 0.
Proof.
  intros H Hr. pose proof (find_none _ _ H r ltac:(apply in_seq; lia)) as Hb.
  by apply negb_false_iff, bool_decide_eq_true_1 in Hb.
Qed.

(** The vector a missing pivot in column [col] puts in the kernel. *)
Definition stuck_vector (a : list (list u8)) (col c : nat) : u8 :=
  if decide (c < col)%nat then entry a c col else if decide (c = col) then 1 else 0.

Lemma stuck_kills n A0 col a b :
  gj_inv n A0 col a b -> (col < n)%nat ->
  (forall r, (col <= r < n)%nat -> entry a r col = 0) ->
  kills n a (stuck_vector a col).
Proof.
  intros Hinv Hcol Hz r Hr.
  replace n with (col + S (n - col - 1))%nat at 1 by lia.
  rewrite seq_app, lsum_app. simpl.
  rewrite (lsum_zero (seq (S col) _)).
  2:{ intros c Hc%elem_of_seq. unfold stuck_vector. repeat case_decide; try lia. ring. }
  assert (Hself : stuck_vector a col col = 1).
  { unfold stuck_vector. rewrite decide_False by lia. by rewrite decide_True. }
  rewrite Hself.
  assert (Hlow : sum col (fun c => entry a r c * stuck_vector a col c)
                 = if decide (r < col)%nat then entry a r col else 0).
  { case_decide as Hlt.
    - rewrite (sum_delta col r); [|done|].
      + rewrite (gj_unit _ _ _ _ _ Hinv), delta_same by done.
        unfold stuck_vector. rewrite decide_True by done. ring.
      + intros c Hc Hne. rewrite (gj_unit _ _ _ _ _ Hinv), delta_ne by auto. ring.
    - apply sum_zero. intros c Hc. rewrite (gj_unit _ _ _ _ _ Hinv), delta_ne by lia. ring. }
  rewrite Hlow. case_decide; [ring|]. rewrite Hz by lia. ring.
Qed.

(** ** The whole loop *)

Lemma invert_loop_spec n A0 m : forall col a b,
  (col + m = n)%nat -> gj_inv n A0 col a b ->
  match invert_loop n (seq col m) a b with
  | Ret (Some B) => exists a', gj_inv n A0 n a' B
  | Ret None => exists x c, (c < n)%nat /\ kills n A0 x /\ x c <> 0
  | Panic => False
  end.
Proof.
  induction m as [|m IH]; intros col a b Hm Hinv; simpl.
  { assert (col = n) by lia. subst col. by exists a. }
  destruct (List.find _ _) as [piv|] eqn:Hf.
  - apply find_pivot_Some in Hf as [Hp Hnz].
    rewrite (swap_rows_entry n) by (try apply Hinv; lia).
    replace (sw col piv col) with piv by (unfold sw; by rewrite decide_True).
    rewrite inv_ok by done. simpl.
    pose proof (pivot_inv n col piv A0 a b _ Hinv ltac:(lia) Hp Hnz eq_refl) as Hs.
    unfold pivot_step in Hs. cbv zeta in Hs.
    destruct (fold_left (elim_row n col) (seq 0 n) _) as [a' b'].
    apply IH; [lia|done].
  - exists (stuck_vector a col), col. split_and!; [lia| |].
    + apply Hinv. eapply stuck_kills; [done|lia|]. intros r Hr. by eapply find_pivot_None.
    + unfold stuck_vector. rewrite decide_False by lia. by rewrite decide_True.
Qed.

Lemma identity_shape n : shape n (identity n).
Proof.
  unfold identity. split; [len|]. apply Forall_forall. intros row Hrow.
  apply elem_of_map in Hrow as (i & -> & _). len.
Qed.

Lemma identity_entry n r c : (r < n)%nat -> (c < n)%nat -> entry (identity n) r c = delta r c.
Proof.
  intros Hr Hc. unfold entry, identity, delta.
  rewrite (list_lookup_total_correct _ r
             (map (fun j => if decide (r = j) then Byte.x01 else Byte.x00) (seq 0 n))).
  - apply list_lookup_total_correct. rewrite list_lookup_fmap, lookup_seq_lt by done. done.
  - rewrite list_lookup_fmap, lookup_seq_lt by done. done.
Qed.

Lemma gj_init n A0 : shape n A0 -> gj_inv n A0 0 A0 (identity n).
Proof.
  intros H. split; auto using identity_shape; [|lia].
  intros r c Hr Hc. rewrite (sum_delta n r); [|done|].
  - rewrite identity_entry, delta_same by done. ring.
  - intros k Hk Hne. rewrite identity_entry, delta_ne by auto. ring.
Qed.

Lemma left_inverse_nonsingular n a b : left_inverse n b a -> nonsingular n a.
Proof.
  intros Hl x Hk i Hi.
  transitivity (sum n (fun c => sum n (fun r => entry b i r * entry a r c) * x c)).
  - rewrite (sum_ext n _ (fun c => delta i c * x c)) by (intros; by rewrite Hl).
    rewrite (sum_delta n i); [rewrite delta_same; ring|done|].
    intros c Hc Hne. rewrite delta_ne by auto. ring.
  - transitivity (sum n (fun r => entry b i r * sum n (fun c => entry a r c * x c))).
    + rewrite (sum_ext n _ (fun c => sum n (fun r => entry b i r * entry a r c * x c)))
        by (intros; symmetry; apply lsum_mul_r).
      rewrite lsum_swap. apply lsum_ext. intros r _. rewrite <- lsum_mul_l.
      apply lsum_ext. intros c _. ring.
    + apply sum_zero. intros r Hr. rewrite Hk by done. ring.
Qed.

(** [invert] never panics on a square matrix, and returns a left inverse
    exactly when the matrix is nonsingular. *)
Lemma invert_spec n a :
  shape n a ->
  match invert a with
  | Ret (Some b) => shape n b /\ left_inverse n b a
  | Ret None => ~ nonsingular n a
  | Panic => False
  end.
Proof.
  intros H. unfold invert. rewrite (proj1 H).
  pose proof (invert_loop_spec n a n 0 a (identity n) eq_refl (gj_init n a H)) as Hs.
  destruct (invert_loop _ _ _ _) as [[b|]|]; [|destruct Hs as (x & c & Hc & Hk & Hx)|done].
  - destruct Hs as [a' Ha']. split; [apply Ha'|]. intros i c Hi Hc.
    rewrite <- (gj_prod _ _ _ _ _ Ha') by done. by apply (gj_unit _ _ _ _ _ Ha').
  - intros Hns. by apply Hx, (Hns x Hk).
Qed.

Lemma invert_nonsingular n a :
  shape n a -> nonsingular n a ->
  exists b, invert a = Ret (Some b) /\ shape n b /\ left_inverse n b a.
Proof.
  intros Hs Hn. pose proof (invert_spec n a Hs) as H.
  destruct (invert a) as [[b|]|]; [by exists b|tauto|done].
Qed.

(** Gauss-Jordan inversion is sound and complete.  On a square matrix
    [invert] never indexes out of range or divides by zero; it returns a matrix
    exactly when the input is non-singular, and then its product with the input
    is the identity. *)
Theorem invert_sound_complete (n : nat) (a : list (list u8)) :
  shape n a ->
  (exists b, invert a = Ret (Some b) /\ shape n b /\ left_inverse n b a /\ nonsingular n a) \/
  (invert a = Ret None /\ ~ nonsingular n a).
Proof.
  intros Hs. pose proof (invert_spec n a Hs) as H.
  destruct (invert a) as [[b|]|]; [left|by right|done].
  destruct H as [Hb Hl]. exists b. split_and!; try done. by eapply left_inverse_nonsingular.
Qed.

Definition demo_matrix : list (list u8) := [[Byte.x00; Byte.x02]; [Byte.x01; Byte.x03]].

Lemma invert_sound_complete_witness :
  exists b, invert demo_matrix = Ret (Some b) /\ left_inverse 2 b demo_matrix.
Proof.
  destruct (invert_sound_complete 2 demo_matrix) as [(b & Hb & _ & Hl & _)|[Hn _]].
  - split; [reflexivity|]. repeat constructor.
  - exists b. split; assumption.
  - vm_compute in Hn. discriminate Hn.
Defined.

Definition nb (n : nat) : u8 := n2b (N.of_nat n).

Lemma nb_inj i j : (i < 256)%nat -> (j < 256)%nat -> nb i = nb j -> i = j.
Proof.
  intros Hi Hj H. apply (f_equal b2n) in H. unfold nb in H.
  rewrite !b2n_n2b_small in H by lia. lia.
Qed.

Lemma nb_index i : (i < 256)%nat -> N.to_nat (b2n (nb i)) = i.
Proof. intros. unfold nb. rewrite b2n_n2b_small by lia. lia. Qed.

(** A symbol index that names a row of the generator. *)
Definition valid_idx (scheme : Scheme) (k idx : nat) : Prop :=
  match scheme with
  | Cauchy => (idx < 256)%nat
  | Pq => (idx < k + 2)%nat
  end.

Definition grow (scheme : Scheme) (k idx : nat) : list u8 :=
  map (fun c =>
         if decide (idx < k)%nat then delta idx c
         else match scheme with
              | Cauchy => inv_unchecked (nb idx + nb c)
              | Pq => if decide (idx = k) then 1 else exp_at c
              end) (seq 0 k).

Lemma length_grow scheme k idx : length (grow scheme k idx) = k.
Proof. unfold grow. len. Qed.

Lemma grow_entry scheme k idx c : (c < k)%nat ->
  grow scheme k idx !!! c =
    if decide (idx < k)%nat then delta idx c
    else match scheme with
         | Cauchy => inv_unchecked (nb idx + nb c)
         | Pq => if decide (idx = k) then 1 else exp_at c
         end.
Proof. intros H. unfold grow. by rewrite lookup_total_map_seq. Qed.

(** ** The code's rows *)

Lemma cauchy_coef_ok k m i :
  (k + m < 256)%nat -> (i < k)%nat ->
  cauchy_coef k m i = Ret (inv_unchecked (nb (k + m) + nb i)).
Proof.
  intros Hm Hi. unfold cauchy_coef, try_u8.
  rewrite !(proj2 (Nat.ltb_lt _ 256)) by lia. cbn [rbind].
  apply inv_ok, sub_nonzero. intros H%nb_inj; lia.
Qed.

Lemma pq_powers_from k e : (e + k <= 255)%nat -> pq_powers k (exp_at e) = map exp_at (seq e k).
Proof.
  revert e. induction k as [|k IH]; intros e He; [done|]. simpl. f_equal.
  assert (Hx : mul (exp_at e) Byte.x02 = exp_at (S e)).
  { rewrite mul_comm. change Byte.x02 with (xtime Byte.x01).
    rewrite mul_xtime, mul_1_l. symmetry. apply exp_at_S. lia. }
  rewrite Hx. apply IH. lia.
Qed.

Lemma replicate_map_seq {A} (x : A) k : replicate k x = map (fun _ => x) (seq 0 k).
Proof. generalize 0%nat. induction k as [|k IH]; intros n; [done|]. simpl. by rewrite <- IH. Qed.

Lemma repair_row_ok scheme k m :
  (k < 255)%nat -> valid_idx scheme k (k + m) ->
  repair_row scheme k m = Ret (grow scheme k (k + m)).
Proof.
  intros Hk Hv. unfold repair_row, grow. destruct scheme; simpl in Hv.
  - rewrite (rmap_ret _ (fun i => inv_unchecked (nb (k + m) + nb i))).
    + f_equal. apply map_ext_in. intros c Hc%in_seq. by rewrite decide_False by lia.
    + intros i Hi%elem_of_seq. apply cauchy_coef_ok; lia.
  - destruct m as [|[|m]]; [| |lia].
    + rewrite replicate_map_seq. f_equal. apply map_ext_in. intros c Hc%in_seq.
      rewrite decide_False by lia. by rewrite decide_True by lia.
    + rewrite <- exp_0, pq_powers_from by lia. f_equal. apply map_ext_in. intros c Hc%in_seq.
      rewrite decide_False by lia. by rewrite decide_False by lia.
Qed.

Lemma unit_row k idx : (idx < k)%nat ->
  <[idx := Byte.x01]> (replicate k Byte.x00) = map (fun c => delta idx c) (seq 0 k).
Proof.
  intros H. apply list_eq. intros c. rewrite list_lookup_fmap.
  destruct (decide (c < k)%nat) as [Hc|Hc].
  - rewrite lookup_seq_lt by done. simpl. unfold delta.
    destruct (decide (idx = c)) as [<-|Hne].
    + rewrite list_lookup_insert_eq; [done|len].
    + rewrite list_lookup_insert_ne by done. by apply lookup_replicate_2.
  - rewrite !lookup_ge_None_2; [done|len..].
Qed.

Lemma generator_row_ok scheme k idx :
  (k < 255)%nat -> valid_idx scheme k idx ->
  generator_row scheme k idx = Ret (Some (grow scheme k idx)).
Proof.
  intros Hk Hv. unfold generator_row. destruct (Nat.ltb_spec idx k) as [Hlt|Hge].
  - rewrite unit_row by done. do 2 f_equal. unfold grow. apply map_ext. intros c.
    by rewrite decide_True.
  - rewrite decide_False by (intros [-> H]; simpl in Hv; lia).
    rewrite repair_row_ok; [|done|by replace (k + (idx - k))%nat with idx by lia].
    simpl. do 3 f_equal. lia.
Qed.

Lemma build_matrix_ok scheme k idxs : (k < 255)%nat -> Forall (valid_idx scheme k) idxs ->
  forall row m, (row + length idxs <= length m)%nat ->
  build_matrix scheme k idxs row m
  = Ret (Some (take row m ++ map (grow scheme k) idxs ++ drop (row + length idxs) m)).
Proof.
  intros Hk. induction 1 as [|idx idxs Hv _ IH]; intros row m Hm; simpl.
  { by rewrite Nat.add_0_r, take_drop. }
  simpl in Hm. rewrite generator_row_ok by done. simpl.
  rewrite (proj2 (Nat.ltb_lt row (length m))) by lia. simpl.
  rewrite IH by len. do 2 f_equal.
  rewrite (take_S_r _ _ (grow scheme k idx)) by (apply list_lookup_insert_eq; lia).
  rewrite take_insert_ge, drop_insert_lt by lia.
  rewrite <- app_assoc. simpl. do 4 f_equal. lia.
Qed.

(** ** The submatrix of [k] distinct symbols *)

Definition submatrix (scheme : Scheme) (k : nat) (idxs : list nat) : list (list u8) :=
  map (grow scheme k) idxs.

Lemma submatrix_shape scheme k idxs : length idxs = k -> shape k (submatrix scheme k idxs).
Proof.
  intros H. split; [unfold submatrix; len|]. apply Forall_forall. intros row Hr.
  apply elem_of_map in Hr as (idx & -> & _). apply length_grow.
Qed.

Lemma submatrix_entry scheme k idxs r idx c :
  idxs !! r = Some idx -> entry (submatrix scheme k idxs) r c = grow scheme k idx !!! c.
Proof.
  intros H. unfold entry, submatrix. f_equal. apply list_lookup_total_correct.
  by rewrite list_lookup_fmap, H.
Qed.

Section erasures.
Context (scheme : Scheme) (k : nat) (idxs : list nat).
Context (Hk : (k < 255)%nat) (Hnd : NoDup idxs) (Hlen : length idxs = k).
Context (Hv : Forall (valid_idx scheme k) idxs).

(** The erased source symbols and the repair symbols that stand in for them. *)
Definition missing : list nat := filter (fun c => c ∉ idxs) (seq 0 k).
Definition repairs : list nat := filter (fun idx => ~ (idx < k)%nat) idxs.

Lemma length_filter_split {A} (P : A -> Prop) `{forall a, Decision (P a)} (l : list A) :
  (length (filter P l) + length (filter (fun a => ~ P a) l) = length l)%nat.
Proof.
  induction l as [|a l IH]; [done|]. simpl. destruct (decide (P a)).
  - rewrite filter_cons_True, filter_cons_False by auto. simpl. lia.
  - rewrite filter_cons_False, (filter_cons_True (fun a => ~ P a)) by auto. simpl. lia.
Qed.

Lemma missing_repairs : length missing = length repairs.
Proof.
  assert (Hp : Permutation (filter (fun c => c ∈ idxs) (seq 0 k)) (filter (fun i => (i < k)%nat) idxs)).
  { apply NoDup_Permutation; [apply NoDup_filter, NoDup_seq|by apply NoDup_filter|].
    intros c. rewrite !list_elem_of_filter, elem_of_seq. split; intros [? ?]; split; auto; lia. }
  apply Permutation_length in Hp.
  pose proof (length_filter_split (fun c => c ∈ idxs) (seq 0 k)) as H1.
  pose proof (length_filter_split (fun i => (i < k)%nat) idxs) as H2.
  rewrite length_seq in H1. unfold missing, repairs. lia.
Qed.

Section kernel.
Context (x : nat -> u8) (Hx : kills k (submatrix scheme k idxs) x).

Lemma kills_row idx : idx ∈ idxs -> sum k (fun c => grow scheme k idx !!! c * x c) = 0.
Proof.
  intros [r Hr]%list_elem_of_lookup. rewrite <- (Hx r).
  - apply sum_ext. intros c _. by rewrite (submatrix_entry _ _ _ _ _ _ Hr).
  - rewrite <- Hlen. by eapply lookup_lt_Some.
Qed.

Lemma kills_present c : c ∈ idxs -> (c < k)%nat -> x c = 0.
Proof.
  intros Hc Hlt. rewrite <- (kills_row c Hc). symmetry. rewrite (sum_delta k c); [|done|].
  - rewrite grow_entry, decide_True, delta_same by done. ring.
  - intros i Hi Hne. rewrite grow_entry, decide_True, delta_ne by auto. ring.
Qed.

Lemma kills_missing idx : idx ∈ repairs -> lsum missing (fun c => grow scheme k idx !!! c * x c) = 0.
Proof.
  intros [_ Hin]%list_elem_of_filter. rewrite <- (kills_row idx Hin).
  rewrite (lsum_filter_split (fun c => c ∈ idxs) (seq 0 k)).
  rewrite (lsum_zero (filter (fun c => c ∈ idxs) _)); [unfold missing; ring|].
  intros c [Hc Hs]%list_elem_of_filter. apply elem_of_seq in Hs.
  rewrite (kills_present c) by (auto; lia). ring.
Qed.
End kernel.

Lemma missing_lt c : c ∈ missing -> (c < k)%nat.
Proof. intros [_ H]%list_elem_of_filter. apply elem_of_seq in H. lia. Qed.

Lemma repairs_valid idx : idx ∈ repairs -> (k <= idx)%nat /\ valid_idx scheme k idx.
Proof.
  intros [H Hin]%list_elem_of_filter. split; [lia|].
  rewrite Forall_forall in Hv. by apply Hv.
Qed.

Lemma NoDup_missing : NoDup missing.
Proof. apply NoDup_filter, NoDup_seq. Qed.

Lemma NoDup_repairs : NoDup repairs.
Proof. by apply NoDup_filter. Qed.

Lemma NoDup_nb l : NoDup l -> Forall (fun i => (i < 256)%nat) l -> NoDup (map nb l).
Proof.
  intros H Hl. apply NoDup_fmap_2_strong; [|done]. intros i j Hi Hj.
  rewrite Forall_forall in Hl. apply nb_inj; auto.
Qed.

Lemma cauchy_missing_zero x :
  scheme = Cauchy -> kills k (submatrix scheme k idxs) x -> forall c, c ∈ missing -> x c = 0.
Proof.
  intros Hs Hx c Hc.
  assert (Hm : Forall (fun i => (i < 256)%nat) missing).
  { apply Forall_forall. intros i Hi%missing_lt. lia. }
  assert (Hr : Forall (fun i => (i < 256)%nat) repairs).
  { apply Forall_forall. intros i Hi%repairs_valid. subst scheme. apply Hi. }
  pose proof (cauchy_kernel (map nb missing) (map nb repairs) (fun y => x (N.to_nat (b2n y)))
    (NoDup_nb _ NoDup_missing Hm) (NoDup_nb _ NoDup_repairs Hr)) as Hck.
  rewrite Forall_forall in Hm, Hr.
  rewrite <- (nb_index c) by (apply missing_lt in Hc; lia). apply Hck.
  - rewrite !length_map. symmetry. apply missing_repairs.
  - intros ? ? (i & -> & Hi)%elem_of_map (j & -> & Hj)%elem_of_map E.
    apply nb_inj in E; [|auto..]. apply repairs_valid in Hi. apply missing_lt in Hj. lia.
  - intros ? (i & -> & Hi)%elem_of_map. rewrite lsum_map, <- (kills_missing x Hx i Hi).
    apply lsum_ext. intros j Hj. rewrite nb_index by auto. apply missing_lt in Hj.
    rewrite grow_entry by done. apply repairs_valid in Hi.
    rewrite decide_False by lia. rewrite Hs. ring.
  - apply elem_of_map. eauto.
Qed.

Lemma pq_row_P x :
  scheme = Pq -> kills k (submatrix scheme k idxs) x -> k ∈ repairs -> lsum missing x = 0.
Proof.
  intros Hs Hx Hr. rewrite <- (kills_missing x Hx k Hr). apply lsum_ext. intros c Hc%missing_lt.
  rewrite grow_entry by done. rewrite decide_False by lia. rewrite Hs, decide_True by done. ring.
Qed.

Lemma pq_row_Q x :
  scheme = Pq -> kills k (submatrix scheme k idxs) x -> S k ∈ repairs ->
  lsum missing (fun c => exp_at c * x c) = 0.
Proof.
  intros Hs Hx Hr. rewrite <- (kills_missing x Hx _ Hr). apply lsum_ext. intros c Hc%missing_lt.
  rewrite grow_entry by done. rewrite decide_False by lia. rewrite Hs, decide_False by lia. ring.
Qed.

(** At most two P+Q repair rows stand in for erasures. *)
Lemma pq_repairs : scheme = Pq ->
  repairs = [] \/ repairs = [k] \/ repairs = [S k] \/
  (k ∈ repairs /\ S k ∈ repairs /\ length repairs = 2%nat).
Proof.
  intros Hs. assert (Hin : forall i, i ∈ repairs -> i = k \/ i = S k).
  { intros i Hi%repairs_valid. subst scheme. simpl in Hi. lia. }
  pose proof NoDup_repairs as Hn. destruct repairs as [|p [|q [|r l]]]; [auto| | |].
  - destruct (Hin p ltac:(left)) as [->| ->]; auto.
  - right; right; right. apply NoDup_cons in Hn as [Hpq _].
    assert (p <> q) by (intros ->; apply Hpq; left).
    destruct (Hin p ltac:(left)) as [->| ->], (Hin q ltac:(right; left)) as [->| ->];
      try congruence; split_and!; try done; rewrite !elem_of_cons; auto.
  - exfalso. apply NoDup_cons in Hn as [Hp Hn]. apply NoDup_cons in Hn as [Hq _].
    apply not_elem_of_cons in Hp as [? [? _]%not_elem_of_cons], Hq as [? _].
    destruct (Hin p ltac:(left)), (Hin q ltac:(right; left)), (Hin r ltac:(right; right; left)); lia.
Qed.

Lemma pq_missing_zero x :
  scheme = Pq -> kills k (submatrix scheme k idxs) x -> forall c, c ∈ missing -> x c = 0.
Proof.
  intros Hs Hx c Hc. pose proof missing_repairs as Hmr.
  pose proof (pq_row_P x Hs Hx) as HP. pose proof (pq_row_Q x Hs Hx) as HQ.
  pose proof missing_lt as Hlt. pose proof NoDup_missing as Hn.
  destruct (pq_repairs Hs) as [E|[E|[E|(HpIn & HqIn & E)]]]; rewrite E in Hmr; simpl in Hmr;
    destruct missing as [|i [|j [|? ?]]]; try discriminate Hmr.
  - exfalso. exact (not_elem_of_nil _ Hc).
  - apply list_elem_of_singleton in Hc as ->.
    specialize (HP ltac:(rewrite E; left)). simpl in HP. rewrite <- HP. ring.
  - apply list_elem_of_singleton in Hc as ->. specialize (HQ ltac:(rewrite E; left)). simpl in HQ.
    apply (mul_cancel_0 (exp_at i)); [rewrite <- HQ; ring|].
    apply exp_nonzero. specialize (Hlt i ltac:(left)). lia.
  - specialize (HP HpIn). specialize (HQ HqIn). simpl in HP, HQ.
    apply NoDup_cons in Hn as [Hij _]. rewrite not_elem_of_cons in Hij.
    assert (Hi := Hlt i ltac:(left)). assert (Hj := Hlt j ltac:(right; left)).
    assert (Exj : x i = x j) by (apply add_eq_0; rewrite <- HP; ring).
    assert (Hxi : x i = 0).
    { apply (mul_cancel_0 (exp_at i + exp_at j)); [rewrite <- HQ, Exj; ring|].
      apply sub_nonzero. intros Ee. apply (f_equal log_of) in Ee.
      rewrite !log_exp in Ee by lia. tauto. }
    rewrite !elem_of_cons in Hc. destruct Hc as [->|[->|Hc]]; [done|congruence|].
    exfalso. exact (not_elem_of_nil _ Hc).
Qed.

(** Any [k] distinct rows of the generator are linearly independent. *)
Lemma submatrix_nonsingular : nonsingular k (submatrix scheme k idxs).
Proof.
  intros x Hx c Hc. destruct (decide (c ∈ idxs)) as [Hin|Hout].
  - by eapply kills_present.
  - assert (Hm : c ∈ missing) by (apply list_elem_of_filter; split; [done|apply elem_of_seq; lia]).
    assert (Hs : scheme = Cauchy \/ scheme = Pq) by (case scheme; auto).
    destruct Hs; [by apply (cauchy_missing_zero x)|by apply (pq_missing_zero x)].
Qed.

End erasures.

(** C23: the code is maximum distance separable.  For either scheme and every
    K below 255, any K distinct rows of the generator, source or repair, form an
    invertible matrix: the decoder's inversion of it succeeds, so that any K
    symbols of an object determine it. *)
Theorem generator_mds (scheme : Scheme) (k : nat) (idxs : list nat) :
  (k < 255)%nat -> NoDup idxs -> length idxs = k -> Forall (valid_idx scheme k) idxs ->
  exists m minv,
    build_matrix scheme k idxs 0 (replicate k (replicate k Byte.x00)) = Ret (Some m) /\
    invert m = Ret (Some minv) /\ left_inverse k minv m.
Proof.
  intros Hk Hn Hl Hv.
  destruct (invert_nonsingular k (submatrix scheme k idxs)) as (minv & ? & ? & ?);
    [by apply submatrix_shape|by apply submatrix_nonsingular|].
  exists (submatrix scheme k idxs), minv. split_and!; try done.
  rewrite build_matrix_ok by (try done; len). rewrite take_0, drop_ge by len. by rewrite app_nil_r.
Qed.

Lemma generator_mds_witness :
  exists m minv,
    build_matrix Pq 4 [5; 0; 4; 2]%nat 0 (replicate 4 (replicate 4 Byte.x00)) = Ret (Some m) /\
    invert m = Ret (Some minv) /\ left_inverse 4 minv m.
Proof.
  apply (generator_mds Pq 4 [5; 0; 4; 2]%nat).
  - lia.
  - apply (bool_decide_unpack _). reflexivity.
  - reflexivity.
  - repeat constructor.
Defined.
