(* ===== verification/RsDecode.v ===== *)
(** * Reed-Solomon encode/decode correctness

    A codeword shard is the linear combination of the source shards by its
    generator row; any [k] distinct codeword shards determine the source. *)

From Stdlib Require Strings.Byte.
From Stdlib Require Import NArith Lia Field.
From stdpp Require Import base numbers list.
From S2P Require Import Prelude Gf256 RsSimd LinAlg Rs RsMds.

Local Open Scope gf_scope.

(** ** Linear combinations of shards *)

Definition lincomb (L : nat) (cs : list u8) (shards : list (list u8)) : list u8 :=
  map (fun j => sum (length shards) (fun i => cs !!! i * entry shards i j)) (seq 0 L).

Lemma length_lincomb L cs shards : length (lincomb L cs shards) = L.
Proof. unfold lincomb. len. Qed.

Lemma lincomb_entry L cs shards j : (j < L)%nat ->
  lincomb L cs shards !!! j = sum (length shards) (fun i => cs !!! i * entry shards i j).
Proof. intros. unfold lincomb. by rewrite lookup_total_map_seq. Qed.

(** Two byte lists of length [L] with the same bytes are equal. *)
Lemma bytes_ext L (a b : list u8) :
  length a = L -> length b = L -> (forall j, (j < L)%nat -> a !!! j = b !!! j) -> a = b.
Proof.
  intros Ha Hb H. apply list_eq. intros j. destruct (decide (j < L)%nat) as [Hj|Hj].
  - rewrite !list_lookup_lookup_total_lt by lia. by rewrite H.
  - rewrite !lookup_ge_None_2 by lia. done.
Qed.

Lemma zip_with_mac_entry L c acc s j :
  length acc = L -> length s = L -> (j < L)%nat ->
  zip_with (mac c) acc s !!! j = acc !!! j + c * s !!! j.
Proof.
  intros Ha Hs Hj.
  rewrite (list_lookup_total_correct _ _ (mac c (acc !!! j) (s !!! j))).
  - unfold mac, add. by rewrite (mul_comm c).
  - rewrite lookup_zip_with, !list_lookup_lookup_total_lt by lia. done.
Qed.

Lemma sum_S_l n (f : nat -> u8) : sum (S n) f = f 0%nat + sum n (fun i => f (S i)).
Proof. simpl. f_equal. by rewrite <- seq_shift, lsum_map. Qed.

Lemma sum_S_r n (f : nat -> u8) : sum (S n) f = sum n f + f n.
Proof. rewrite seq_S, lsum_app. simpl. ring. Qed.

Lemma lincomb_0 L cs : lincomb L cs [] = replicate L 0.
Proof.
  apply (bytes_ext L); [apply length_lincomb|len|]. intros j Hj.
  rewrite lincomb_entry by done. by rewrite lookup_total_replicate_2.
Qed.

Section codec.
Context {cpu : Cpu}.

(** The accumulation loop of [encode_repair]. *)
Lemma rfold_zip_mac L srcs : forall cs acc,
  length cs = length srcs -> Forall (fun s => length s = L) srcs -> length acc = L ->
  exists out, rfold (fun rep '(src, c) => mul_add_row c src rep) (zip srcs cs) acc = Ret out
    /\ length out = L
    /\ forall j, (j < L)%nat ->
         out !!! j = acc !!! j + sum (length srcs) (fun i => cs !!! i * entry srcs i j).
Proof.
  induction srcs as [|s srcs IH]; intros cs acc Hlen Hf Hacc.
  { exists acc. destruct cs; [|done]. split_and!; [done..|]. intros. simpl. ring. }
  destruct cs as [|c cs]; [done|]. apply Forall_cons in Hf as [Hs Hf]. cbn [zip_with rfold].
  rewrite mul_add_row_correct by lia. cbn [rbind].
  destruct (IH cs (zip_with (mac c) acc s)) as (out & -> & Hl & Ho);
    [simpl in Hlen; lia|done|rewrite length_zip_with; lia|].
  exists out. split_and!; [done..|]. intros j Hj. rewrite Ho by done.
  rewrite (zip_with_mac_entry L) by done. 
  change (length (s :: srcs)) with (S (length srcs)). rewrite sum_S_l.
  unfold entry. simpl. ring.
Qed.

(** The accumulation loop of the decoders. *)
Lemma apply_row_ok L cs shards acc :
  Forall (fun s => length s = L) shards -> length acc = L ->
  exists out, apply_row cs shards acc = Ret out /\ length out = L
    /\ forall j, (j < L)%nat ->
         out !!! j = acc !!! j + sum (length shards) (fun i => cs !!! i * entry shards i j).
Proof.
  intros Hf Hacc. unfold apply_row. induction shards as [|s shards IH] using rev_ind.
  { exists acc. split_and!; [done..|]. intros. simpl. ring. }
  apply Forall_app in Hf as [Hf Hs]. apply Forall_cons in Hs as [Hs _].
  destruct (IH Hf) as (out & Hr & Hl & Ho). rewrite imap_app, rfold_app, Hr. simpl.
  rewrite Nat.add_0_r.
  assert (Hsum : forall j, (j < L)%nat ->
    acc !!! j + sum (length (shards ++ [s])) (fun i => cs !!! i * entry (shards ++ [s]) i j)
    = out !!! j + cs !!! length shards * s !!! j).
  { intros j Hj. rewrite length_app, Nat.add_1_r, sum_S_r, Ho by done. unfold entry at 2.
    rewrite lookup_total_app_r, Nat.sub_diag by lia.
    rewrite (sum_ext _ _ (fun i => cs !!! i * entry shards i j)); [simpl; ring|].
    intros i Hi. unfold entry. by rewrite lookup_total_app_l. }
  case_decide as Hz; simpl.
  - exists out. split_and!; [done..|]. intros j Hj. rewrite Hsum, Hz by done. ring.
  - rewrite mul_add_row_correct by lia. simpl. eexists. split_and!; [done| |].
    + rewrite length_zip_with. lia.
    + intros j Hj. rewrite Hsum by done. by rewrite (zip_with_mac_entry L).
Qed.

Lemma apply_row_zero L cs shards :
  Forall (fun s => length s = L) shards ->
  apply_row cs shards (replicate L 0) = Ret (lincomb L cs shards).
Proof.
  intros Hf. destruct (apply_row_ok L cs shards (replicate L 0)) as (out & -> & Hl & Ho); [done|len|].
  f_equal. apply (bytes_ext L); [done|apply length_lincomb|]. intros j Hj.
  rewrite Ho, lincomb_entry, lookup_total_replicate_2 by done. ring.
Qed.

(** ** Codewords *)

Definition codeword (scheme : Scheme) (L : nat) (source : list (list u8)) (idx : nat) : list u8 :=
  lincomb L (grow scheme (length source) idx) source.

Definition shards_ok (L : nat) (source : list (list u8)) : Prop :=
  Forall (fun s => length s = L) source.

Lemma shards_ok_lookup L source i :
  shards_ok L source -> (i < length source)%nat -> length (source !!! i) = L.
Proof.
  intros H Hi. unfold shards_ok in H. rewrite Forall_lookup in H.
  apply (H i), list_lookup_lookup_total_lt. done.
Qed.

Lemma codeword_source scheme L source idx :
  shards_ok L source -> (idx < length source)%nat -> codeword scheme L source idx = source !!! idx.
Proof.
  intros Hs Hi. apply (bytes_ext L); [apply length_lincomb|by apply shards_ok_lookup|].
  intros j Hj. unfold codeword. rewrite lincomb_entry by done.
  rewrite (sum_delta _ idx); [|done|].
  - rewrite grow_entry, decide_True, delta_same by done. unfold entry. ring.
  - intros i Hlt Hne. rewrite grow_entry, decide_True, delta_ne by auto. ring.
Qed.

Lemma encode_repair_ok scheme L source r :
  source <> [] -> shards_ok L source -> (length source < 255)%nat ->
  (forall m, (m < r)%nat -> valid_idx scheme (length source) (length source + m)) ->
  encode_repair source r scheme
  = Ret (map (fun m => codeword scheme L source (length source + m)) (seq 0 r)).
Proof.
  intros Hne Hs Hk Hv. unfold encode_repair.
  assert (HL : match source with [] => 0%nat | s :: _ => length s end = L).
  { destruct source; [done|]. by apply Forall_cons in Hs as [Hs _]. }
  rewrite HL. apply rmap_ret. intros m Hm%elem_of_seq.
  rewrite repair_row_ok by (auto with lia). simpl.
  destruct (rfold_zip_mac L source (grow scheme (length source) (length source + m)) (replicate L 0))
    as (out & -> & Hl & Ho); [apply length_grow|done|len|].
  f_equal. apply (bytes_ext L); [done|apply length_lincomb|]. intros j Hj.
  rewrite Ho by done. unfold codeword. rewrite lincomb_entry, lookup_total_replicate_2 by done. ring.
Qed.

(** Applying a left inverse of the received submatrix to the received shards
    gives the source shards back. *)
Lemma decode_combination scheme L source idxs minv i :
  shards_ok L source -> length idxs = length source ->
  left_inverse (length source) minv (submatrix scheme (length source) idxs) ->
  (i < length source)%nat ->
  lincomb L (minv !!! i) (map (codeword scheme L source) idxs) = source !!! i.
Proof.
  intros Hs Hidx Hinv Hi. set (k := length source) in *.
  apply (bytes_ext L); [apply length_lincomb|by apply shards_ok_lookup|]. intros j Hj.
  rewrite lincomb_entry by done. rewrite length_map, Hidx.
  transitivity (sum k (fun r => sum k (fun c =>
    entry minv i r * entry (submatrix scheme k idxs) r c * entry source c j))).
  { apply sum_ext. intros r Hr. destruct (lookup_lt_is_Some_2 idxs r) as [idx Hx]; [lia|].
    unfold entry at 1. rewrite (list_lookup_total_correct (map _ idxs) r (codeword scheme L source idx))
      by (by rewrite list_lookup_fmap, Hx).
    unfold codeword. rewrite lincomb_entry by done. rewrite <- lsum_mul_l. apply sum_ext.
    intros c Hc. rewrite (submatrix_entry _ _ _ _ _ _ Hx). unfold entry. fold k. ring. }
  rewrite lsum_swap.
  rewrite (sum_ext k _ (fun c => delta i c * entry source c j)).
  - rewrite (sum_delta k i); [rewrite delta_same; unfold entry; ring|done|].
    intros c Hc Hne. rewrite delta_ne by auto. ring.
  - intros c Hc. rewrite lsum_mul_r. f_equal. by apply Hinv.
Qed.

End codec.

(** ** Payload buffers as rows of shards *)

Definition shard (L i : nat) (p : list u8) : list u8 := slice (i * L) (i * L + L) p.

Lemma length_shard L i k p : (i < k)%nat -> (k * L <= length p)%nat -> length (shard L i p) = L.
Proof. intros. unfold shard. rewrite length_slice by nia. lia. Qed.

(** Writing shard [i] leaves every other shard, and everything after the
    [k] shards, alone. *)
Lemma copy_shard L k i s p :
  (i < k)%nat -> (k * L <= length p)%nat -> length s = L ->
  exists p', copy_at (i * L) s p = Ret p' /\ length p' = length p /\
    drop (k * L) p' = drop (k * L) p /\
    forall j, (j < k)%nat -> shard L j p' = if decide (i = j) then s else shard L j p.
Proof.
  intros Hi Hp Hs. assert (Hb : (i * L + L <= k * L)%nat) by nia.
  eexists. split; [apply copy_at_ok; lia|]. rewrite Hs. split_and!.
  - len.
  - rewrite app_assoc, drop_app_ge by len. rewrite drop_drop. f_equal. len.
  - intros j Hj. unfold shard, slice. replace (j * L + L - j * L)%nat with L by lia.
    destruct (decide (i = j)) as [<-|Hne].
    + rewrite drop_app_length' by len. rewrite take_app_length' by done. done.
    + destruct (decide (j < i)%nat) as [Hlt|Hge].
      * assert (j * L + L <= i * L)%nat by nia.
        rewrite drop_app_le by len. rewrite take_app_le by len.
        rewrite skipn_firstn_comm, take_take. f_equal. lia.
      * assert (i * L + L <= j * L)%nat by nia.
        rewrite app_assoc, drop_app_ge by len. rewrite drop_drop. do 2 f_equal. len.
Qed.

(** A buffer whose shards are those of [source] starts with their concatenation. *)
Lemma shards_concat L source p :
  shards_ok L source -> (length source * L <= length p)%nat ->
  (forall i, (i < length source)%nat -> shard L i p = source !!! i) ->
  take (length source * L) p = concat source.
Proof.
  intros Hs. revert p. induction Hs as [|s source Hl Hs IH]; intros p Hp H; [done|].
  simpl in *. rewrite <- (take_take_drop p L). f_equal.
  - specialize (H 0%nat ltac:(lia)). unfold shard, slice in H. simpl in H.
    rewrite Nat.sub_0_r in H. exact H.
  - apply IH; [len|]. intros i Hi. specialize (H (S i) ltac:(lia)).
    change ((s :: source) !!! S i) with (source !!! i) in H. rewrite <- H. unfold shard, slice.
    rewrite drop_drop. replace (L + i * L)%nat with (S i * L)%nat by lia. f_equal. lia.
Qed.

(** ** Collecting the received rows *)

Definition usable (L : nat) (e : N * list u8) : Prop :=
  (N.to_nat e.1 < 255)%nat /\ length e.2 = L.

#[local] Instance usable_dec L e : Decision (usable L e).
Proof. unfold usable. apply _. Defined.

(** What [rows] and [seen] say about the prefix of [received] already read. *)
Record collect_inv (L : nat) (pre : list (N * list u8)) (seen : list bool)
    (rows : list (nat * list u8)) : Prop := {
  ci_nodup : NoDup (map fst rows);
  ci_len : length seen = 256%nat;
  ci_seen : forall i, (i < 255)%nat -> seen !!! i = true <-> i ∈ map fst rows;
  ci_from : forall i b, (i, b) ∈ rows -> exists e, e ∈ pre /\ usable L e /\ N.to_nat e.1 = i /\ e.2 = b;
  ci_all : forall e, e ∈ pre -> usable L e -> N.to_nat e.1 ∈ map fst rows
}.

Lemma collect_inv_skip L pre seen rows e :
  collect_inv L pre seen rows -> (usable L e -> N.to_nat e.1 ∈ map fst rows) ->
  collect_inv L (pre ++ [e]) seen rows.
Proof.
  intros [H1 H2 H3 H4 H5] He. split; [done..| |].
  - intros i b Hib. destruct (H4 i b Hib) as (e' & ? & ?). exists e'. split; [|done].
    apply elem_of_app. auto.
  - intros e' [Hin|Hin]%elem_of_app Hu; [auto|]. apply list_elem_of_singleton in Hin as ->. auto.
Qed.

Lemma collect_inv_push L pre seen rows e :
  collect_inv L pre seen rows -> usable L e -> seen !!! N.to_nat e.1 = false ->
  collect_inv L (pre ++ [e]) (<[N.to_nat e.1 := true]> seen) (rows ++ [(N.to_nat e.1, e.2)]).
Proof.
  intros [H1 H2 H3 H4 H5] [He Hlen] Hns.
  assert (Hnin : N.to_nat e.1 ∉ map fst rows).
  { intros Hin. apply H3 in Hin; [congruence|done]. }
  assert (Hmap : map fst (rows ++ [(N.to_nat e.1, e.2)]) = map fst rows ++ [N.to_nat e.1]).
  { by rewrite map_app. }
  split; rewrite ?Hmap.
  - apply NoDup_app. split_and!; [done| |apply NoDup_singleton].
    intros i Hi ->%list_elem_of_singleton. done.
  - len.
  - intros i Hi. rewrite list_lookup_total_insert, elem_of_app, list_elem_of_singleton.
    destruct (decide (N.to_nat e.1 = i)) as [<-|Hne].
    + rewrite decide_True by (split; [done|lia]). tauto.
    + rewrite decide_False by tauto. rewrite H3 by done. split; [auto|intros [?|?]; [done|congruence]].
  - intros i b [Hib|Hib]%elem_of_app.
    + destruct (H4 i b Hib) as (e' & ? & ?). exists e'. split; [apply elem_of_app; auto|done].
    + apply list_elem_of_singleton in Hib. injection Hib as -> ->. exists e.
      split_and!; try done. apply elem_of_app. right. by apply list_elem_of_singleton.
  - intros e' [Hin|Hin]%elem_of_app Hu; apply elem_of_app; [auto|].
    apply list_elem_of_singleton in Hin as ->. right. by apply list_elem_of_singleton.
Qed.

Lemma collect_rows_inv L k received : forall pre seen rows,
  collect_inv L pre seen rows -> (length rows < k)%nat ->
  let out := collect_rows k L received seen rows in
  NoDup (map fst out) /\ (length out <= k)%nat /\
  (forall i b, (i, b) ∈ out -> exists e, e ∈ pre ++ received /\ usable L e /\ N.to_nat e.1 = i /\ e.2 = b) /\
  (length out < k -> forall e, e ∈ pre ++ received -> usable L e -> N.to_nat e.1 ∈ map fst out)%nat.
Proof.
  induction received as [|[idx bytes] rest IH]; intros pre seen rows Hinv Hlt; cbn [collect_rows].
  { rewrite app_nil_r. split_and!; try apply Hinv; [lia|]. intros _. apply Hinv. }
  assert (Happ : pre ++ (idx, bytes) :: rest = (pre ++ [(idx, bytes)]) ++ rest)
    by by rewrite <- app_assoc.
  destruct ((255 <=? N.to_nat idx)%nat || negb (length bytes =? L)%nat || seen !!! N.to_nat idx) eqn:Hskip.
  { rewrite Happ. apply IH; [|done]. apply collect_inv_skip; [done|]. intros [Hu1 Hu2]. cbn [fst snd] in Hu1, Hu2.
    rewrite (proj2 (Nat.leb_gt _ _) Hu1), (proj2 (Nat.eqb_eq _ _) Hu2) in Hskip. cbn [orb negb] in Hskip.
    by apply (ci_seen _ _ _ _ Hinv). }
  apply orb_false_iff in Hskip as [Hskip Hns]. apply orb_false_iff in Hskip as [H255 Hlen].
  apply Nat.leb_gt in H255. apply negb_false_iff, Nat.eqb_eq in Hlen.
  pose proof (collect_inv_push L pre seen rows (idx, bytes) Hinv (conj H255 Hlen) Hns) as Hpush.
  cbn [fst snd] in Hpush. destruct (Nat.eqb_spec (length (rows ++ [(N.to_nat idx, bytes)])) k) as [Ek|Ek].
  - rewrite Happ. split_and!; [apply Hpush|lia| |lia].
    intros i b Hib. destruct (ci_from _ _ _ _ Hpush i b Hib) as (e & He & ?).
    exists e. split; [apply elem_of_app; auto|done].
  - rewrite Happ. apply IH; [done|]. rewrite length_app in *. simpl in *. lia.
Qed.

Lemma collect_rows_spec L k received :
  (0 < k)%nat ->
  let out := collect_rows k L received (replicate 256 false) [] in
  NoDup (map fst out) /\ (length out <= k)%nat /\
  (forall i b, (i, b) ∈ out -> exists e, e ∈ received /\ usable L e /\ N.to_nat e.1 = i /\ e.2 = b) /\
  (length out < k -> forall e, e ∈ received -> usable L e -> N.to_nat e.1 ∈ map fst out)%nat.
Proof.
  intros Hk. apply (collect_rows_inv L k received []); [|done]. split; cbn [map].
  - constructor.
  - len.
  - intros i Hi. rewrite lookup_total_replicate_2 by lia. rewrite elem_of_nil. done.
  - intros i b H. by apply not_elem_of_nil in H.
  - intros e H. by apply not_elem_of_nil in H.
Qed.

(** ** Restoring the source shards in a buffer *)

Lemma rfold_map {A B S} (f : S -> B -> run S) (h : A -> B) l s :
  rfold f (map h l) s = rfold (fun s a => f s (h a)) l s.
Proof. revert s. induction l as [|a l IH]; intros s; [done|]. simpl. by destruct (f s (h a)); simpl. Qed.

Lemma imap_pair_seq {A} `{Inhabited A} (l : list A) :
  imap pair l = map (fun i => (i, l !!! i)) (seq 0 (length l)).
Proof.
  apply list_eq. intros i. rewrite list_lookup_imap, list_lookup_fmap.
  destruct (decide (i < length l)%nat).
  - rewrite lookup_seq_lt, list_lookup_lookup_total_lt by done. done.
  - rewrite !lookup_ge_None_2 by len. done.
Qed.

Section restore.
Context (L : nat) (source : list (list u8)) (p0 : list u8).
Context (Hs : shards_ok L source) (Hp0 : (length source * L <= length p0)%nat).

(** [p] agrees with [p0] outside the shards and holds source shard [j] for
    every [j] in [R]. *)
Definition restored (R : nat -> Prop) (p : list u8) : Prop :=
  length p = length p0 /\ drop (length source * L) p = drop (length source * L) p0 /\
  forall j, (j < length source)%nat -> R j -> shard L j p = source !!! j.

Lemma restored_copy R i p :
  (i < length source)%nat -> restored R p ->
  exists p', copy_at (i * L) (source !!! i) p = Ret p' /\ restored (fun j => R j \/ j = i) p'.
Proof.
  intros Hi (Hl & Hd & HR).
  destruct (copy_shard L (length source) i (source !!! i) p) as (p' & Hc & Hl' & Hd' & Hsh);
    [done|lia|by apply shards_ok_lookup|].
  exists p'. split; [done|]. split_and!; [lia|congruence|].
  intros j Hj HRj. rewrite Hsh by done. case_decide; [by subst|].
  destruct HRj; [auto|congruence].
Qed.

Lemma restored_weaken (R R' : nat -> Prop) p :
  (forall j, (j < length source)%nat -> R' j -> R j) -> restored R p -> restored R' p.
Proof. intros HRR (Hl & Hd & HR). split_and!; auto. Qed.

Lemma restored_all p : restored (fun _ => True) p -> p = concat source ++ drop (length source * L) p0.
Proof.
  intros (Hl & Hd & HR). rewrite <- (take_drop (length source * L) p) at 1. rewrite Hd. f_equal.
  apply shards_concat; [done|lia|auto].
Qed.

(** A loop over the shards that rewrites each one it does not already hold. *)
Lemma restore_loop (P : nat -> Prop) (g : list u8 -> nat -> run (list u8)) :
  restored P p0 ->
  (forall p i, (i < length source)%nat -> restored (fun j => P j \/ (j < i)%nat) p ->
     (P i /\ g p i = Ret p) \/ g p i = copy_at (i * L) (source !!! i) p) ->
  rfold g (seq 0 (length source)) p0 = Ret (concat source ++ drop (length source * L) p0).
Proof.
  intros HP Hg.
  assert (H : forall n, (n <= length source)%nat ->
    exists p, rfold g (seq 0 n) p0 = Ret p /\ restored (fun j => P j \/ (j < n)%nat) p).
  { induction n as [|n IH]; intros Hn.
    - exists p0. split; [done|]. eapply restored_weaken; [|exact HP]. intros j _ [?|?]; [done|lia].
    - destruct IH as (p & Hr & HR); [lia|]. rewrite seq_S, rfold_app, Hr. simpl.
      destruct (Hg p n ltac:(lia) HR) as [[Hn' ->]| ->].
      + exists p. split; [done|]. eapply restored_weaken; [|exact HR]. intros j _ [?|?]; [by left|].
        destruct (decide (j = n)) as [->|]; [by left|right; lia].
      + destruct (restored_copy _ n p ltac:(lia) HR) as (p' & -> & HR'). exists p'. split; [done|].
        eapply restored_weaken; [|exact HR']. intros j _ [?|?]; [by left; left|].
        destruct (decide (j = n)) as [->|]; [by right|left; right; lia]. }
  destruct (H (length source) ltac:(lia)) as (p & -> & HR). f_equal. apply restored_all.
  eapply restored_weaken; [|exact HR]. intros j Hj _. by right.
Qed.

(** Copying rows into place, in any order. *)
Lemma copy_rows_loop rows :
  (forall i b, (i, b) ∈ rows -> (i < length source)%nat /\ b = source !!! i) ->
  forall R p, restored R p ->
  exists p', rfold (fun p '(idx, bytes) => copy_at (idx * L) bytes p) rows p = Ret p' /\
    restored (fun j => R j \/ j ∈ map fst rows) p'.
Proof.
  induction rows as [|[i b] rows IH]; intros Hrows R p HR.
  { exists p. split; [done|]. eapply restored_weaken; [|exact HR].
    intros j _ [?|H]; [done|]. by apply not_elem_of_nil in H. }
  destruct (Hrows i b ltac:(left)) as [Hi ->]. simpl.
  destruct (restored_copy R i p Hi HR) as (p1 & -> & HR1). simpl.
  destruct (IH (fun i b H => Hrows i b ltac:(by right)) _ p1 HR1) as (p' & -> & HR').
  exists p'. split; [done|]. eapply restored_weaken; [|exact HR'].
  intros j _. rewrite elem_of_cons. tauto.
Qed.

End restore.

Lemma NoDup_below_all k (l : list nat) :
  NoDup l -> length l = k -> (forall i, i ∈ l -> (i < k)%nat) -> forall j, (j < k)%nat -> j ∈ l.
Proof.
  intros Hn Hl Hlt j Hj.
  assert (Hsub : l ⊆+ seq 0 k).
  { apply NoDup_submseteq; [done|]. intros i Hi. apply elem_of_seq. specialize (Hlt i Hi). lia. }
  apply submseteq_length_Permutation in Hsub; [|len].
  rewrite Hsub. apply elem_of_seq. lia.
Qed.

Lemma length_concat_shards L source :
  shards_ok L source -> length (concat source) = (length source * L)%nat.
Proof. intros Hs. induction Hs as [|s l Hl _ IH]; [done|]. cbn. rewrite length_app, IH, Hl. lia. Qed.

Lemma slice_concat L source i :
  shards_ok L source -> (i < length source)%nat ->
  slice_run (i * L) (i * L + L) (concat source) = Ret (source !!! i).
Proof.
  intros Hs Hi. rewrite slice_run_ok by (rewrite ?(length_concat_shards L) by done; nia). f_equal.
  unfold slice. replace (i * L + L - i * L)%nat with L by lia.
  revert i Hi. induction Hs as [|s l Hl _ IH]; intros [|i] Hi; cbn in Hi |- *; try lia.
  - rewrite drop_0. by apply take_app_length'.
  - rewrite drop_app_ge, Hl by lia. replace (L + i * L - L)%nat with (i * L)%nat by lia.
    apply IH. lia.
Qed.

Lemma checked_mul_ok a b : (N.of_nat a * N.of_nat b < u64_mod)%N -> checked_mul a b = Some (a * b)%nat.
Proof. intros. unfold checked_mul. by rewrite (proj2 (N.ltb_lt _ _)). Qed.

Section decoding.
Context {cpu : Cpu} (scheme : Scheme) (L : nat) (source : list (list u8)).
Abbreviation k := (length source).
Context (Hk : (0 < k < 255)%nat) (Hs : shards_ok L source).
Context (Hfit : (N.of_nat k * N.of_nat L < u64_mod)%N).

(** The matrix built from [k] distinct valid rows inverts. *)
Lemma matrix_inverts idxs :
  NoDup idxs -> length idxs = k -> Forall (valid_idx scheme k) idxs ->
  exists minv,
    build_matrix scheme k idxs 0 (replicate k (replicate k Byte.x00))
      = Ret (Some (submatrix scheme k idxs)) /\
    invert (submatrix scheme k idxs) = Ret (Some minv) /\ shape k minv /\
    left_inverse k minv (submatrix scheme k idxs).
Proof.
  intros Hn Hl Hv.
  destruct (invert_nonsingular k (submatrix scheme k idxs)) as (minv & ? & ? & ?);
    [by apply submatrix_shape|apply submatrix_nonsingular; auto; lia|].
  exists minv. split_and!; try done. rewrite build_matrix_ok by (try done; len).
  rewrite take_0, drop_ge by len. by rewrite app_nil_r.
Qed.

(** The received shards: those the decoder can use are shards of the codeword,
    and they cover at least [k] distinct symbols. *)
Definition received_ok (received : list (N * list u8)) : Prop :=
  (forall e, e ∈ received -> usable L e ->
     valid_idx scheme k (N.to_nat e.1) /\ e.2 = codeword scheme L source (N.to_nat e.1)) /\
  (exists idxs, NoDup idxs /\ length idxs = k /\
     forall i, i ∈ idxs -> exists e, e ∈ received /\ usable L e /\ N.to_nat e.1 = i).

Section received.
Context (received : list (N * list u8)) (Hrec : received_ok received).
Abbreviation rows := (collect_rows k L received (replicate 256 false) []).

Lemma rows_facts :
  NoDup (map fst rows) /\ length rows = k /\ Forall (valid_idx scheme k) (map fst rows) /\
  (forall i b, (i, b) ∈ rows -> b = codeword scheme L source i).
Proof.
  destruct (collect_rows_spec L k received ltac:(lia)) as (Hn & Hle & Hfrom & Hall).
  destruct Hrec as [Hcw (idxs & Hni & Hli & Hin)].
  assert (Hlen : length rows = k).
  { destruct (decide (length rows < k)%nat) as [Hlt|]; [exfalso|lia].
    assert (Hsub : idxs ⊆+ map fst rows).
    { apply NoDup_submseteq; [done|]. intros i Hi. destruct (Hin i Hi) as (e & He & Hu & <-). auto. }
    apply submseteq_length in Hsub. rewrite length_map in Hsub. lia. }
  split_and!; [done..| |].
  - apply Forall_forall. intros i ([i' b] & -> & Hib)%elem_of_map.
    destruct (Hfrom _ _ Hib) as (e & He & Hu & <- & _). by apply Hcw.
  - intros i b Hib. destruct (Hfrom _ _ Hib) as (e & He & Hu & <- & <-). by apply Hcw.
Qed.

Lemma rows_shards : map snd rows = map (codeword scheme L source) (map fst rows).
Proof.
  destruct rows_facts as (_ & _ & _ & H). rewrite map_map. apply map_ext_in.
  intros [i b] Hib%list_elem_of_In. simpl. by apply H.
Qed.

(** Decoding into a buffer writes the source shards and nothing else. *)
Lemma decode_source_into_ok out :
  (k * L <= length out)%nat ->
  decode_source_into k L received scheme out = Ret (Some (concat source ++ drop (k * L) out)).
Proof.
  intros Hout. unfold decode_source_into. rewrite checked_mul_ok by done.
  rewrite (proj2 (Nat.ltb_ge _ _)) by done.
  destruct rows_facts as (Hn & Hlen & Hv & Hcw). pose proof rows_shards as Hsh.
  rewrite (proj2 (Nat.ltb_ge (length rows) k)) by lia.
  destruct (forallb _ rows) eqn:Hfast.
  - rewrite forallb_forall in Hfast.
    assert (Hlt : forall i b, (i, b) ∈ rows -> (i < k)%nat).
    { intros i b Hib%list_elem_of_In. apply Hfast in Hib. by apply Nat.ltb_lt in Hib. }
    destruct (copy_rows_loop L source out Hs Hout rows) with (R := fun _ : nat => False) (p := out)
      as (p & -> & HR); [|done|].
    { intros i b Hib. split; [by eapply Hlt|]. rewrite (Hcw _ _ Hib).
      apply codeword_source; [done|by eapply Hlt]. }
    simpl. do 2 f_equal. apply restored_all; try done. eapply restored_weaken; [|exact HR].
    intros j Hj _. right. apply (NoDup_below_all k); [done|len| |done].
    intros i ([i' b] & -> & Hib)%elem_of_map. by eapply Hlt.
  - clear Hfast. destruct (matrix_inverts (map fst rows)) as (minv & -> & Hinv & Hshape & Hleft);
      [done|len|done|].
    cbn [rbind]. rewrite Hinv. cbn [rbind]. rewrite imap_pair_seq, rfold_map.
    rewrite firstn_all2 by (rewrite (proj1 Hshape); lia). rewrite (proj1 Hshape).
    rewrite (restore_loop L source out Hs Hout (fun _ => False)); [done|by split_and!|].
    intros p i Hi _. right. rewrite Hsh, apply_row_zero.
    + simpl. f_equal. apply decode_combination; try done. len.
    + apply Forall_forall. intros s (i' & -> & _)%elem_of_map. apply length_lincomb.
Qed.

Lemma decode_source_ok : decode_source k L received scheme = Ret (Some source).
Proof.
  unfold decode_source. rewrite checked_mul_ok by done.
  rewrite decode_source_into_ok by len. simpl.
  rewrite (rmap_ret _ (fun i => source !!! i)).
  - simpl. do 2 f_equal. apply list_eq. intros i. rewrite list_lookup_fmap.
    destruct (decide (i < k)%nat).
    + rewrite lookup_seq_lt, list_lookup_lookup_total_lt by done. done.
    + rewrite !lookup_ge_None_2 by len. done.
  - intros i Hi%elem_of_seq. rewrite drop_ge, app_nil_r by len. apply slice_concat; [done|lia].
Qed.
End received.
End decoding.

(** With fewer than [k] distinct usable symbols the decoder reports failure. *)
Lemma decode_source_into_short {cpu : Cpu} scheme k L received out idxs :
  (0 < k)%nat -> (forall e, e ∈ received -> usable L e -> N.to_nat e.1 ∈ idxs) ->
  (length idxs < k)%nat -> decode_source_into k L received scheme out = Ret None.
Proof.
  intros Hk Hin Hlt. unfold decode_source_into. destruct (checked_mul k L); [|done].
  case_match; [done|].
  destruct (collect_rows_spec L k received Hk) as (Hn & _ & Hfrom & _).
  rewrite (proj2 (Nat.ltb_lt (length (collect_rows _ _ _ _ _)) k)); [done|].
  rewrite <- (length_map fst). eapply Nat.le_lt_trans; [|exact Hlt].
  apply submseteq_length, NoDup_submseteq; [done|].
  intros i ([i' b] & -> & Hib)%elem_of_map. destruct (Hfrom _ _ Hib) as (e & ? & ? & <- & _). simpl; auto.
Qed.

(** C18: encode, lose, decode.  Take K source shards of equal length and any
    number of repair shards the scheme allows.  From any list of these shards,
    in any order and with repetitions, in which K of them are distinct,
    [decode_source] returns the source shards. *)
Theorem decode_recovers {cpu : Cpu} (scheme : Scheme) (L r : nat) (source reps : list (list u8))
    (received : list (N * list u8)) (idxs : list nat) :
  (0 < length source < 255)%nat -> shards_ok L source ->
  (N.of_nat (length source) * N.of_nat L < u64_mod)%N ->
  (length source + r <= 255)%nat -> (scheme = Pq -> r <= 2)%nat ->
  encode_repair source r scheme = Ret reps ->
  Forall (fun e => (source ++ reps) !! N.to_nat e.1 = Some e.2) received ->
  NoDup idxs -> length idxs = length source -> idxs ⊆ map (fun e => N.to_nat e.1) received ->
  decode_source (length source) L received scheme = Ret (Some source).
Proof.
  intros Hk Hs Hfit Hroom Hpq Henc Hrec Hn Hl Hsub.
  assert (Hv : forall i, (i < length source + r)%nat -> valid_idx scheme (length source) i).
  { intros i Hi. destruct scheme; cbn; [lia|]. specialize (Hpq eq_refl). lia. }
  rewrite (encode_repair_ok scheme L) in Henc;
    [|by intros ->; simpl in Hk; lia|done|lia|intros; apply Hv; lia].
  injection Henc as <-.
  assert (Hsh : forall e, e ∈ received ->
    (N.to_nat e.1 < length source + r)%nat /\ e.2 = codeword scheme L source (N.to_nat e.1)).
  { intros e He. rewrite Forall_forall in Hrec. specialize (Hrec e He).
    apply lookup_app_Some in Hrec as [Hi|[Hge Hi]].
    - pose proof (lookup_lt_Some _ _ _ Hi). split; [lia|].
      rewrite codeword_source by done. by symmetry; apply list_lookup_total_correct.
    - rewrite list_lookup_fmap in Hi. destruct (seq 0 r !! _) as [m|] eqn:Em; [|done].
      apply lookup_seq in Em as [-> Hm]. cbn in Hi. injection Hi as <-.
      replace (length source + (N.to_nat e.1 - length source))%nat with (N.to_nat e.1) by lia.
      split; [lia|done]. }
  apply decode_source_ok; try done. split; [intros e He _; destruct (Hsh e He); auto|].
  exists idxs. split_and!; [done..|]. intros i Hi. apply Hsub, elem_of_map in Hi as (e & -> & He).
  exists e. split_and!; try done. destruct (Hsh e He) as [Hvi Hb]. split; [lia|].
  rewrite Hb. apply length_lincomb.
Qed.

Definition demo_source : list (list u8) :=
  [[Byte.x01; Byte.x02]; [Byte.x03; Byte.x04]; [Byte.xff; Byte.x80]].

Lemma decode_recovers_witness :
  exists cpu reps b3 b5, encode_repair (cpu := cpu) demo_source 3 Cauchy = Ret reps /\
    decode_source (cpu := cpu) 3 2 [(5, b5); (1, [Byte.x03; Byte.x04]); (3, b3); (5, b5)]%N Cauchy
    = Ret (Some demo_source).
Proof.
  pose (cpu := mkCpu OtherArch false false false false false false).
  assert (He : exists r3 r4 r5, encode_repair (cpu := cpu) demo_source 3 Cauchy = Ret [r3; r4; r5]).
  { do 3 eexists. vm_compute. reflexivity. }
  destruct He as (r3 & r4 & r5 & He). exists cpu, [r3; r4; r5], r3, r5. split; [exact He|].
  apply (decode_recovers (cpu := cpu) Cauchy 2 3 demo_source [r3; r4; r5]
           [(5, r5); (1, [Byte.x03; Byte.x04]); (3, r3); (5, r5)]%N [5; 1; 3]%nat).
  - simpl. lia.
  - repeat constructor.
  - reflexivity.
  - simpl. lia.
  - discriminate.
  - exact He.
  - repeat (constructor; [reflexivity|]). constructor.
  - apply (bool_decide_unpack _). reflexivity.
  - reflexivity.
  - intros i Hi. exact (Hi : i ∈ [5; 1; 3]%nat) || (simpl; rewrite !elem_of_cons in *; tauto).
Defined.
