(* ===== verification/RsReconstruct.v ===== *)
(** * In-place reconstruction of missing source shards

    [reconstruct_missing_sources] of [crates/yip-transport/src/rs.rs] fills the
    holes of a payload buffer from the source shards already in place (named
    by a 256-bit mask) and from repair shards kept aside. *)
From Stdlib Require Strings.Byte.
From Stdlib Require Import NArith Lia.
From stdpp Require Import base numbers sets list.
From S2P Require Import Prelude Gf256 RsSimd LinAlg Rs RsMds RsDecode.

Local Open Scope nat_scope.

(** Bit [u] of the mask. *)
Definition mask_has (seen_mask : list N) (u : nat) : bool :=
  N.testbit (seen_mask !!! (u / 64)) (N.of_nat (u mod 64)).

Lemma land_shiftl_testbit w n : negb (N.land w (N.shiftl 1 n) =? 0)%N = N.testbit w n.
Proof.
  destruct (N.testbit w n) eqn:E.
  - destruct (N.eqb_spec (N.land w (N.shiftl 1 n)) 0) as [H|]; [|done].
    apply (f_equal (fun x => N.testbit x n)) in H.
    rewrite N.land_spec, N.shiftl_1_l, N.pow2_bits_true, E in H. done.
  - destruct (N.eqb_spec (N.land w (N.shiftl 1 n)) 0) as [|H]; [done|]. destruct H.
    apply N.bits_inj. intros m. rewrite N.land_spec, N.shiftl_1_l, N.bits_0.
    destruct (decide (m = n)) as [->|]; [by rewrite E|].
    rewrite N.pow2_bits_false by congruence. apply andb_false_r.
Qed.

Lemma mask_bit_ok mask u : length mask = 4 -> u < 256 -> mask_bit mask u = Ret (mask_has mask u).
Proof.
  intros Hl Hu. unfold mask_bit, mask_has.
  rewrite list_lookup_lookup_total_lt
    by (rewrite Hl; apply Nat.Div0.div_lt_upper_bound; lia).
  cbn [rexpect rbind]. by rewrite land_shiftl_testbit.
Qed.

Definition present (mask : list N) (k : nat) : list nat :=
  filter (fun i => mask_has mask i = true) (seq 0 k).

Lemma present_spec mask k i : i ∈ present mask k <-> i < k /\ mask_has mask i = true.
Proof. unfold present. rewrite list_elem_of_filter, elem_of_seq. intuition lia. Qed.

Definition usable_repairs (L : nat) (reps : list (N * list u8)) : list (N * list u8) :=
  filter (fun e => length e.2 = L) reps.

Definition as_row (e : N * list u8) : nat * ShardRef := (N.to_nat e.1, Repair e.2).

Lemma push_repairs_spec k L reps rows :
  length rows <= k ->
  push_repairs k L reps rows
  = rows ++ take (k - length rows) (map as_row (usable_repairs L reps)).
Proof.
  revert rows. induction reps as [|[idx bytes] reps IH]; intros rows Hr; cbn [push_repairs].
  { cbn. by rewrite take_nil, app_nil_r. }
  destruct (Nat.eqb_spec (length rows) k) as [->|].
  { by rewrite Nat.sub_diag, take_0, app_nil_r. }
  unfold usable_repairs. rewrite filter_cons. cbn [snd].
  destruct (Nat.eqb_spec (length bytes) L) as [HL|HL]; cbn [negb].
  - rewrite decide_True by done. rewrite IH by len. rewrite <- app_assoc. f_equal.
    rewrite length_app. cbn [length]. replace (k - length rows) with (S (k - (length rows + 1))) by lia.
    done.
  - rewrite decide_False by done. by apply IH.
Qed.

Section reconstruct.
Context {cpu : Cpu} (scheme : Scheme) (L : nat) (source : list (list u8)).
Abbreviation k := (length source).
Context (Hk : 0 < k < 255) (Hs : shards_ok L source).
Context (Hfit : (N.of_nat k * N.of_nat L < u64_mod)%N).
Context (mask : list N) (reps : list (N * list u8)) (payload : list u8).

(** What the receive path maintains for any object in progress. *)
Record partial_wf : Prop := {
  po_mask : length mask = 4;
  po_len : k * L <= length payload;
  po_nodup : NoDup (map (fun e => N.to_nat e.1) (usable_repairs L reps));
  po_valid : forall e, e ∈ usable_repairs L reps ->
    k <= N.to_nat e.1 /\ valid_idx scheme k (N.to_nat e.1);
}.
Context (Hwf : partial_wf).

Lemma length_present : length (present mask k) <= k.
Proof. unfold present. rewrite <- (length_seq k 0) at 2. apply length_filter. Qed.

Lemma collect_present :
  rfold (fun rows idx =>
      let! b := mask_bit mask idx in
      Ret (if b then rows ++ [(idx, Source idx)] else rows)) (seq 0 k) []
  = Ret (map (fun i => (i, Source i)) (present mask k)).
Proof.
  unfold present. generalize (le_n k). generalize k at 1 3 4. intros n Hn.
  induction n as [|n IH]; [done|]. rewrite seq_S, rfold_app, IH by lia. cbn [rbind rfold].
  rewrite mask_bit_ok by (try apply Hwf; lia). cbn [rbind Nat.add].
  rewrite filter_app, filter_cons, filter_nil, map_app.
  destruct (mask_has mask n); [by rewrite decide_True|].
  rewrite decide_False by done. by rewrite app_nil_r.
Qed.

(** The rows of the decoding matrix, with the bytes each one names. *)
Abbreviation rows := (map (fun i => (i, Source i)) (present mask k) ++
  take (k - length (present mask k)) (map as_row (usable_repairs L reps))).

Lemma rows_mem i r : (i, r) ∈ rows ->
  (r = Source i /\ i < k /\ mask_has mask i = true) \/
  (exists e, e ∈ usable_repairs L reps /\ i = N.to_nat e.1 /\ r = Repair e.2).
Proof.
  rewrite elem_of_app. intros [H|H].
  - left. apply elem_of_map in H as (j & [= -> ->] & Hj). by apply present_spec in Hj.
  - right. apply subseteq_take in H. apply elem_of_map in H as (e & [= -> ->] & He). by exists e.
Qed.

Lemma rows_valid : Forall (valid_idx scheme k) (map fst rows).
Proof.
  apply Forall_forall. intros i ([i' r] & -> & Hr)%elem_of_map.
  apply rows_mem in Hr as [(_ & ? & _)|(e & He & -> & _)].
  - simpl. unfold valid_idx. destruct scheme; lia.
  - by apply (po_valid Hwf).
Qed.

Lemma rows_nodup : NoDup (map fst rows).
Proof.
  rewrite map_app, map_map. cbn [fst]. rewrite map_id. apply NoDup_app. split_and!.
  - apply NoDup_filter, NoDup_seq.
  - intros i Hi ([i' r] & -> & Hr)%elem_of_map. apply present_spec in Hi as [Hi _].
    apply subseteq_take in Hr. apply elem_of_map in Hr as (e & [= -> ->] & He).
    apply (po_valid Hwf) in He. simpl in Hi. lia.
  - rewrite <- firstn_map, map_map. eapply sublist_NoDup; [apply (po_nodup Hwf)|apply sublist_take].
Qed.

Lemma apply_refs_row p coefs refs bs scratch :
  Forall2 (fun r b => shard_bytes L p r = Ret b) refs bs ->
  apply_refs L p coefs refs scratch = apply_row coefs bs scratch.
Proof.
  unfold apply_refs, apply_row. revert bs scratch.
  induction refs as [|r refs IH] using rev_ind; intros bs0 scratch H.
  { by apply Forall2_nil_inv_l in H as ->. }
  apply Forall2_app_inv_l in H as (bs & bl & Hl & H & ->).
  apply Forall2_cons_inv_l in H as (b & bl' & Hr & H & ->). apply Forall2_nil_inv_l in H as ->.
  rewrite !imap_app, !rfold_app, (IH bs) by done.
  destruct (rfold _ _ scratch) as [acc|]; [|done]. cbn. rewrite (Forall2_length _ _ _ Hl), !Nat.add_0_r.
  case_decide; [done|]. by rewrite Hr.
Qed.

(** Every row names [L] bytes. *)
Lemma rows_read p :
  length p = length payload ->
  exists bs, Forall2 (fun r b => shard_bytes L p r = Ret b) (map snd rows) bs /\
    Forall (fun b => length b = L) bs.
Proof.
  intros Hp.
  assert (H : forall r, r ∈ map snd rows -> exists b, shard_bytes L p r = Ret b /\ length b = L).
  { intros r ([i r'] & -> & Hr)%elem_of_map. pose proof (po_len Hwf).
    apply rows_mem in Hr as [(-> & Hi & _)|(e & He & _ & ->)]; cbn [shard_bytes snd].
    - rewrite slice_run_ok by nia. eexists. split; [done|]. rewrite length_slice by nia. lia.
    - eexists. split; [done|]. unfold usable_repairs in He. by apply list_elem_of_filter in He as [? _]. }
  clear -H. induction (map snd rows) as [|r l IH]; [by exists []|].
  destruct (H r ltac:(left)) as (b & Hb & Hl). destruct IH as (bs & H1 & H2).
  { intros r' Hr'. apply H. by right. }
  exists (b :: bs). split; by constructor.
Qed.

(** Whatever the bytes are, enough shards give a result. *)
Lemma reconstruct_total :
  k <= length (present mask k) + length (usable_repairs L reps) ->
  exists p, reconstruct_missing_sources k L payload mask reps scheme = Ret (Some p) /\
    length p = length payload.
Proof.
  intros Hmany. pose proof length_present as Hpl. pose proof (po_len Hwf) as Hpay.
  unfold reconstruct_missing_sources. rewrite checked_mul_ok by done.
  rewrite (proj2 (Nat.ltb_ge _ _)) by done. rewrite collect_present. cbn [rbind].
  rewrite push_repairs_spec by len. rewrite length_map.
  assert (Hlen : length rows = k) by len.
  rewrite (proj2 (Nat.ltb_ge (length rows) k)) by lia.
  destruct (matrix_inverts scheme L source Hk Hfit (map fst rows)) as (minv & -> & Hinv & Hsh & Hleft);
    [apply rows_nodup|by rewrite length_map|apply rows_valid|].
  cbn [rbind]. rewrite Hinv. cbn [rbind]. rewrite imap_pair_seq, rfold_map.
  rewrite firstn_all2 by (rewrite (proj1 Hsh); lia). rewrite (proj1 Hsh).
  match goal with |- context [rfold ?f ?l payload] =>
    destruct (rfold_inv (fun p => length p = length payload) f l payload) as (p' & -> & Hp')
  end; [done| |by exists p'].
  intros p i Hi%elem_of_seq Hp. rewrite mask_bit_ok by (try apply Hwf; lia). cbn [rbind].
  destruct (mask_has mask i); [by exists p|].
  destruct (rows_read p Hp) as (bs & Hbs & Hbl). rewrite (apply_refs_row _ _ _ bs) by done.
  rewrite apply_row_zero by done. cbn [rbind].
  rewrite copy_at_ok by (rewrite length_lincomb; nia). eexists. split; [done|].
  rewrite !length_app, length_take, length_drop, length_lincomb. nia.
Qed.

(** The bytes are those of a codeword: what a source and its receiver share. *)
Record partial_ok : Prop := {
  po_source : forall i, i < k -> mask_has mask i = true -> shard L i payload = source !!! i;
  po_repair : forall e, e ∈ usable_repairs L reps -> e.2 = codeword scheme L source (N.to_nat e.1);
}.
Context (Hok : partial_ok).

(** Reading a row's bytes while the holes are being filled. *)
Lemma rows_bytes p :
  restored L source payload (fun j => mask_has mask j = true) p ->
  Forall2 (fun r b => shard_bytes L p r = Ret b) (map snd rows)
          (map (codeword scheme L source) (map fst rows)).
Proof.
  intros (Hl & _ & HR). rewrite map_map. apply Forall2_fmap, Forall_Forall2_diag, Forall_forall.
  intros [i r] [(-> & Hi & Hm)|(e & He & -> & ->)]%rows_mem; cbn [shard_bytes fst snd].
  - pose proof (po_len Hwf). rewrite slice_run_ok by nia. f_equal.
    change (slice _ _ p) with (shard L i p). rewrite HR by done. by rewrite codeword_source.
  - f_equal. by apply (po_repair Hok).
Qed.

(** Enough shards in all: every hole is filled and nothing else changes. *)
Lemma reconstruct_ok :
  k <= length (present mask k) + length (usable_repairs L reps) ->
  reconstruct_missing_sources k L payload mask reps scheme
  = Ret (Some (concat source ++ drop (k * L) payload)).
Proof.
  intros Hmany. pose proof length_present as Hpl. pose proof (po_len Hwf) as Hpay.
  unfold reconstruct_missing_sources. rewrite checked_mul_ok by done.
  rewrite (proj2 (Nat.ltb_ge _ _)) by done. rewrite collect_present. cbn [rbind].
  rewrite push_repairs_spec by len. rewrite length_map.
  assert (Hlen : length rows = k) by len.
  rewrite (proj2 (Nat.ltb_ge (length rows) k)) by lia.
  destruct (matrix_inverts scheme L source Hk Hfit (map fst rows)) as (minv & -> & Hinv & Hsh & Hleft);
    [apply rows_nodup|by rewrite length_map|apply rows_valid|].
  cbn [rbind]. rewrite Hinv. cbn [rbind]. rewrite imap_pair_seq, rfold_map.
  rewrite firstn_all2 by (rewrite (proj1 Hsh); lia). rewrite (proj1 Hsh).
  rewrite (restore_loop L source payload Hs Hpay (fun j => mask_has mask j = true)); [done| |].
  { split_and!; [done..|]. apply (po_source Hok). }
  intros p i Hi HR. rewrite mask_bit_ok by (try apply Hwf; lia). cbn [rbind].
  destruct (mask_has mask i); [by left|right].
  rewrite (apply_refs_row _ _ _ (map (codeword scheme L source) (map fst rows))).
  - rewrite apply_row_zero.
    + cbn [rbind]. f_equal. apply decode_combination; try done. by rewrite length_map.
    + apply Forall_forall. intros s (i' & -> & _)%elem_of_map. apply length_lincomb.
  - apply rows_bytes. eapply restored_weaken; [|exact HR]. by left.
Qed.

(** Too few: the payload is left to wait for more symbols. *)
Lemma reconstruct_short :
  length (present mask k) + length (usable_repairs L reps) < k ->
  reconstruct_missing_sources k L payload mask reps scheme = Ret None.
Proof.
  intros Hfew. unfold reconstruct_missing_sources. rewrite checked_mul_ok by done.
  case_match; [done|]. rewrite collect_present. cbn [rbind].
  rewrite push_repairs_spec by len. rewrite length_map.
  by rewrite (proj2 (Nat.ltb_lt _ _)) by len.
Qed.
End reconstruct.

(** Reconstruction in place.  The payload holds the source shards named by
    the mask, the repair shards are distinct shards of the same codeword, and
    there are K shards in all: then the missing source shards are written into
    the payload, whose bytes beyond the source shards do not change; with fewer
    shards the call reports failure. *)
Theorem reconstruct_fills {cpu : Cpu} (scheme : Scheme) (L : nat) (source : list (list u8))
    (mask : list N) (reps : list (N * list u8)) (payload : list u8) :
  0 < length source < 255 -> shards_ok L source ->
  (N.of_nat (length source) * N.of_nat L < u64_mod)%N ->
  partial_wf scheme L source mask reps payload -> partial_ok scheme L source mask reps payload ->
  reconstruct_missing_sources (length source) L payload mask reps scheme =
  Ret (if decide (length source <= length (present mask (length source)) + length (usable_repairs L reps))
       then Some (concat source ++ drop (length source * L) payload) else None).
Proof.
  intros Hk Hs Hfit Hwf Hok. case_decide.
  - by apply reconstruct_ok.
  - apply reconstruct_short; try done. lia.
Qed.

Definition demo_partial : list u8 :=
  [Byte.x01; Byte.x02; Byte.x00; Byte.x00; Byte.x00; Byte.x00].

Definition demo_repairs : list (N * list u8) :=
  [(3%N, codeword Pq 2 demo_source 3); (4%N, codeword Pq 2 demo_source 4)].

Lemma reconstruct_fills_witness :
  reconstruct_missing_sources (cpu := mkCpu OtherArch false false false false false false)
    (length demo_source) 2 demo_partial [1%N; 0%N; 0%N; 0%N] demo_repairs Pq
  = Ret (Some (concat demo_source)).
Proof.
  rewrite (reconstruct_fills (cpu := mkCpu OtherArch false false false false false false)
             Pq 2 demo_source [1%N; 0%N; 0%N; 0%N] demo_repairs demo_partial).
  - vm_compute. reflexivity.
  - simpl. lia.
  - repeat constructor.
  - reflexivity.
  - split; [reflexivity|simpl; lia|vm_compute; apply (bool_decide_unpack _); reflexivity|].
    intros e He. change (usable_repairs 2 demo_repairs) with demo_repairs in He.
    unfold demo_repairs in He. rewrite !elem_of_cons, elem_of_nil in He.
    destruct He as [->|[->|[]]]; simpl; lia.
  - split.
    + intros [|[|[|i]]] Hi Hm; try (vm_compute in Hm; discriminate Hm); [reflexivity|simpl in Hi; lia].
    + intros e He. change (usable_repairs 2 demo_repairs) with demo_repairs in He.
      unfold demo_repairs in He. rewrite !elem_of_cons, elem_of_nil in He.
      destruct He as [->|[->|[]]]; reflexivity.
Defined.
