(* ===== verification/ObjTable.v ===== *)
(** * The object table of the FEC reassembler

    [ObjectTable] of [crates/yip-transport/src/fec.rs]: an open-addressing hash
    table with linear probing and backward-shift deletion.  The three probing
    loops of the source are the same loop and are modelled by [probe].  A loop
    that would run for ever, like an index out of range, is a [Panic] of the
    model, so a theorem that gives a [Ret] rules out both.

    The abstract view of a table is the finite map [to_map] of its entries, and
    the theorems say that each operation is the operation of finite maps. *)
From Stdlib Require Strings.Byte.
From Stdlib Require Import NArith Lia.
From stdpp Require Import base numbers gmap fin_maps sets list.
From S2P Require Import Prelude.

Local Open Scope nat_scope.

Module Table.

Definition hash_key (key : N) (mask : nat) : nat :=
  let x := key in
  let x := wrap64 (N.lxor x (N.shiftr x 30) * 0xbf58476d1ce4e5b9) in
  let x := wrap64 (N.lxor x (N.shiftr x 27) * 0x94d049bb133111eb) in
  let x := N.lxor x (N.shiftr x 31) in
  N.to_nat (N.land x (N.of_nat mask)).

Fixpoint next_power_of_two_from (fuel p n : nat) : nat :=
  match fuel with
  | 0 => p
  | S fuel => if p <? n then next_power_of_two_from fuel (2 * p) n else p
  end.

Definition next_power_of_two (n : nat) : nat := next_power_of_two_from n 1 n.

Section table.
Context {V : Type}.

Record ObjectTable := mkTable { slots : list (option (N * V)); len : nat }.

Definition new (capacity : nat) : ObjectTable :=
  let cap := Nat.max (next_power_of_two (Nat.max capacity 1 * 2)) 16 in
  {| slots := replicate cap None; len := 0 |}.

Definition is_empty (t : ObjectTable) : bool := (len t =? 0).

(** [(idx + 1) & mask] *)
Definition step (mask idx : nat) : nat := Nat.land (idx + 1) mask.

Inductive slot_ref := Occupied (idx : nat) | Vacant (idx : nat).

Fixpoint probe (fuel mask : nat) (s : list (option (N * V))) (key : N) (idx : nat) : run slot_ref :=
  match fuel with
  | 0 => Panic
  | S fuel =>
      let! slot := rexpect (s !! idx) in
      match slot with
      | Some (k, _) => if (k =? key)%N then Ret (Occupied idx) else probe fuel mask s key (step mask idx)
      | None => Ret (Vacant idx)
      end
  end.

Definition locate (t : ObjectTable) (key : N) : run slot_ref :=
  let mask := length (slots t) - 1 in
  probe (length (slots t)) mask (slots t) key (hash_key key mask).

Definition find_index (t : ObjectTable) (key : N) : run (option nat) :=
  let! r := locate t key in
  Ret (match r with Occupied idx => Some idx | Vacant _ => None end).

Definition get (t : ObjectTable) (key : N) : run (option V) :=
  let! r := find_index t key in
  match r with
  | None => Ret None
  | Some idx => let! slot := rexpect (slots t !! idx) in Ret (snd <$> slot)
  end.

(** Writing through the reference [get_mut] returns. *)
Definition put (t : ObjectTable) (key : N) (v : V) : run ObjectTable :=
  let! r := find_index t key in
  match r with
  | None => Panic
  | Some idx => Ret {| slots := <[idx := Some (key, v)]> (slots t); len := len t |}
  end.

Definition insert (t : ObjectTable) (key : N) (state : V) : run (option V * ObjectTable) :=
  let! r := locate t key in
  match r with
  | Occupied idx =>
      let! slot := rexpect (slots t !! idx) in
      Ret (snd <$> slot, {| slots := <[idx := Some (key, state)]> (slots t); len := len t |})
  | Vacant idx =>
      Ret (None, {| slots := <[idx := Some (key, state)]> (slots t); len := len t + 1 |})
  end.

Definition should_move (idx next_idx natural_idx : nat) : bool :=
  if (idx <=? next_idx) then (natural_idx <=? idx) || (next_idx <? natural_idx)
  else (natural_idx <=? idx) && (next_idx <? natural_idx).

Fixpoint shift_back (fuel mask : nat) (s : list (option (N * V))) (idx next_idx : nat)
    : run (list (option (N * V))) :=
  match fuel with
  | 0 => Panic
  | S fuel =>
      let! slot := rexpect (s !! next_idx) in
      match slot with
      | None => Ret s
      | Some (k, v) =>
          if should_move idx next_idx (hash_key k mask)
          then shift_back fuel mask (<[next_idx := None]> (<[idx := Some (k, v)]> s))
                 next_idx (step mask next_idx)
          else shift_back fuel mask s idx (step mask next_idx)
      end
  end.

Definition remove (t : ObjectTable) (key : N) : run (option V * ObjectTable) :=
  let mask := length (slots t) - 1 in
  let! r := locate t key in
  match r with
  | Vacant _ => Ret (None, t)
  | Occupied idx =>
      let! slot := rexpect (slots t !! idx) in
      let! s := shift_back (length (slots t)) mask (<[idx := None]> (slots t)) idx (step mask idx) in
      Ret (snd <$> slot, {| slots := s; len := len t - 1 |})
  end.

(** The abstract view. *)
Definition entries (s : list (option (N * V))) : list (N * V) := omap id s.
Definition to_map (t : ObjectTable) : gmap N V := list_to_map (entries (slots t)).

End table.

Arguments ObjectTable : clear implicits.

(** ** Positions on the ring *)

Section ring.
Context (n : nat).

(** Steps from [a] forward to [b]. *)
Definition dist (a b : nat) : nat := if a <=? b then b - a else b + n - a.

Lemma dist_self a : dist a a = 0.
Proof. unfold dist. case_match; [lia|]. rewrite Nat.leb_gt in *. lia. Qed.
End ring.

Ltac ring_lia :=
  unfold dist, should_move in *;
  repeat match goal with
    | H : context [?a <=? ?b] |- _ => destruct (Nat.leb_spec a b)
    | |- context [?a <=? ?b] => destruct (Nat.leb_spec a b)
    | H : context [?a <? ?b] |- _ => destruct (Nat.ltb_spec a b)
    | |- context [?a <? ?b] => destruct (Nat.ltb_spec a b)
    end; cbn [andb orb] in *; try discriminate; try lia.

Lemma hash_key_lt key a : hash_key key (2 ^ a - 1) < 2 ^ a.
Proof.
  unfold hash_key. match goal with |- context [N.land ?x _] => generalize x end. intros x.
  assert (Hpos : 2 ^ a <> 0) by (apply Nat.pow_nonzero; lia).
  replace (N.of_nat (2 ^ a - 1)) with (N.ones (N.of_nat a)).
  - rewrite N.land_ones.
    assert (Hm : (x mod 2 ^ N.of_nat a < 2 ^ N.of_nat a)%N) by (apply N.mod_lt, N.pow_nonzero; lia).
    rewrite <- (Nat2N.id (2 ^ a)), Nat2N.inj_pow. simpl (N.of_nat 2). lia.
  - rewrite N.ones_equiv, Nat2N.inj_sub, Nat2N.inj_pow. simpl (N.of_nat 2). simpl (N.of_nat 1). lia.
Qed.

Lemma step_ring a idx :
  idx < 2 ^ a -> step (2 ^ a - 1) idx = if idx + 1 =? 2 ^ a then 0 else idx + 1.
Proof.
  intros Hi. unfold step.
  replace (2 ^ a - 1) with (Nat.ones a) by (rewrite Nat.ones_equiv; lia).
  rewrite Nat.land_ones. destruct (Nat.eqb_spec (idx + 1) (2 ^ a)) as [->|].
  - apply Nat.Div0.mod_same.
  - apply Nat.mod_small. lia.
Qed.

(** ** Well-formed tables *)

Section wf.
Context {V : Type}.
Implicit Types (s : list (option (N * V))) (t : ObjectTable V).

Abbreviation home s k := (hash_key k (length s - 1)).

(** Every entry can be reached from its home slot without crossing a vacant
    one. *)
Definition probe_ok s : Prop :=
  forall i k v, s !! i = Some (Some (k, v)) ->
  forall j, dist (length s) (home s k) j < dist (length s) (home s k) i -> s !! j <> Some None.

Record table_wf t : Prop := {
  wf_pow : exists a, length (slots t) = 2 ^ a /\ 1 <= a;
  wf_len : len t = length (entries (slots t));
  wf_room : len t < length (slots t);
  wf_keys : NoDup (map fst (entries (slots t)));
  wf_probe : probe_ok (slots t);
}.

Lemma entries_elem s k v : (k, v) ∈ entries s <-> exists i, s !! i = Some (Some (k, v)).
Proof.
  unfold entries. rewrite list_elem_of_omap. setoid_rewrite list_elem_of_lookup. split.
  - intros (x & [i Hi] & Hx). simpl in Hx. subst. by exists i.
  - intros [i Hi]. exists (Some (k, v)). eauto.
Qed.

(** A table that is not full has a vacant slot. *)
Lemma vacant_exists s : length (entries s) < length s -> exists e, s !! e = Some None.
Proof.
  unfold entries. induction s as [|[x|] s IH]; cbn; intros H; [lia| |].
  - destruct IH as [e He]; [lia|]. by exists (S e).
  - by exists 0.
Qed.

Lemma step_dist a s i j :
  length s = 2 ^ a -> i < length s -> j < length s -> i <> j ->
  step (length s - 1) i < length s /\ dist (length s) i j = S (dist (length s) (step (length s - 1) i) j).
Proof.
  intros Ha Hi Hj Hij. rewrite Ha in *. rewrite step_ring by done.
  destruct (Nat.eqb_spec (i + 1) (2 ^ a)); split; ring_lia.
Qed.

Lemma lookup_lt s i x : s !! i = Some x -> i < length s.
Proof. intros. apply lookup_lt_is_Some. eauto. Qed.

Lemma home_lt s k a : length s = 2 ^ a -> home s k < length s.
Proof. intros ->. apply hash_key_lt. Qed.

Lemma key_unique s i j k v v' :
  NoDup (map fst (entries s)) ->
  s !! i = Some (Some (k, v)) -> s !! j = Some (Some (k, v')) -> i = j.
Proof.
  unfold entries. revert i j. induction s as [|x s IH]; intros i j Hn Hi Hj; [done|].
  assert (Hs : forall k v i, s !! i = Some (Some (k, v)) -> k ∈ map fst (omap id s)).
  { intros k0 v0 i0 H0. change k0 with (fst (k0, v0)). apply list_elem_of_fmap_2.
    apply (entries_elem s). eauto. }
  destruct i as [|i], j as [|j]; cbn in Hi, Hj; simplify_eq; [done| | |].
  - apply NoDup_cons in Hn as [Hn _]. by apply Hs in Hj.
  - apply NoDup_cons in Hn as [Hn _]. by apply Hs in Hi.
  - f_equal. destruct x; [apply NoDup_cons in Hn as [_ Hn]|]; by eapply IH.
Qed.

(** The probing loop finds the key's slot, or the vacant slot that ends its
    probe path. *)
Lemma probe_spec a s key e :
  length s = 2 ^ a -> s !! e = Some None ->
  forall fuel idx, idx < length s ->
  dist (length s) (home s key) e = dist (length s) (home s key) idx + dist (length s) idx e ->
  dist (length s) idx e < fuel ->
  (forall j, j < length s -> dist (length s) (home s key) j < dist (length s) (home s key) idx ->
     exists k v, s !! j = Some (Some (k, v)) /\ k <> key) ->
  exists i, i < length s /\
    (forall j, j < length s -> dist (length s) (home s key) j < dist (length s) (home s key) i ->
       exists k v, s !! j = Some (Some (k, v)) /\ k <> key) /\
    ((exists v, probe fuel (length s - 1) s key idx = Ret (Occupied i) /\ s !! i = Some (Some (key, v))) \/
     (probe fuel (length s - 1) s key idx = Ret (Vacant i) /\ s !! i = Some None)).
Proof.
  intros Ha He. pose proof (home_lt s key a Ha) as Hh. pose proof (lookup_lt _ _ _ He) as Hel.
  induction fuel as [|fuel IH]; intros idx Hi Hd Hf Hpath; [lia|]. cbn [probe].
  destruct (lookup_lt_is_Some_2 s idx Hi) as [slot Hslot]. rewrite Hslot. cbn [rexpect rbind].
  destruct slot as [[k v]|]; [|exists idx; eauto].
  destruct (N.eqb_spec k key) as [->|Hk]; [exists idx; eauto 10|].
  assert (Hne : idx <> e) by congruence.
  destruct (step_dist a s idx e Ha Hi Hel Hne) as [Hstep Hdist].
  assert (Hnext : dist (length s) (home s key) (step (length s - 1) idx)
                  = S (dist (length s) (home s key) idx)).
  { rewrite Ha in *. rewrite step_ring in * by done.
    destruct (Nat.eqb_spec (idx + 1) (2 ^ a)); ring_lia. }
  apply IH; [done|lia|lia|]. intros j Hj Hdj. rewrite Hnext in Hdj.
  destruct (decide (j = idx)) as [->|]; [eauto|]. apply Hpath; [done|]. clear -Hdj Hj Hi n Hh. ring_lia.
Qed.

Lemma locate_spec t key :
  table_wf t ->
  exists i, i < length (slots t) /\
    (forall j, j < length (slots t) ->
       dist (length (slots t)) (home (slots t) key) j < dist (length (slots t)) (home (slots t) key) i ->
       slots t !! j <> Some None) /\
    ((exists v, locate t key = Ret (Occupied i) /\ slots t !! i = Some (Some (key, v))) \/
     (locate t key = Ret (Vacant i) /\ slots t !! i = Some None /\
      forall j v, slots t !! j <> Some (Some (key, v)))).
Proof.
  intros [(a & Ha & _) Hlen Hroom Hkeys Hprobe].
  destruct (vacant_exists (slots t)) as [e He]; [lia|].
  pose proof (home_lt (slots t) key a Ha) as Hh. pose proof (lookup_lt _ _ _ He) as Hel.
  destruct (probe_spec a (slots t) key e Ha He (length (slots t)) (home (slots t) key))
    as (i & Hi & Hpath & Hres); [done|by rewrite dist_self|ring_lia|rewrite dist_self; lia|].
  exists i. split_and!; [done| |].
  - intros j Hj Hd. destruct (Hpath j Hj Hd) as (k & v & -> & _). done.
  - unfold locate. destruct Hres as [(v & Hp & Hs)|[Hp Hs]]; [left; eauto|right].
    split_and!; [done..|]. intros j v Hj. pose proof (lookup_lt _ _ _ Hj).
    destruct (decide (dist (length (slots t)) (home (slots t) key) j
                      < dist (length (slots t)) (home (slots t) key) i)) as [Hlt|Hge].
    + destruct (Hpath j ltac:(done) Hlt) as (k & v' & Hj' & ?). congruence.
    + assert (i <> j) by congruence.
      apply (Hprobe j key v Hj i); [|done]. ring_lia.
Qed.

Lemma to_map_lookup t key v :
  table_wf t -> to_map t !! key = Some v <-> exists i, slots t !! i = Some (Some (key, v)).
Proof.
  intros Hwf. unfold to_map. rewrite <- entries_elem. symmetry.
  apply elem_of_list_to_map, Hwf.
Qed.

Lemma get_ok t key : table_wf t -> get t key = Ret (to_map t !! key).
Proof.
  intros Hwf. unfold get, find_index.
  destruct (locate_spec t key Hwf) as (i & Hi & _ & [(v & -> & Hs)|(-> & Hs & Hno)]); cbn [rbind].
  - rewrite Hs. cbn. f_equal. symmetry. apply to_map_lookup; eauto.
  - f_equal. destruct (to_map t !! key) eqn:E; [|done].
    apply to_map_lookup in E as [j Hj]; [|done]. by apply Hno in Hj.
Qed.

(** ** Entries under slot updates *)

Lemma entries_fill s i x : s !! i = Some None -> entries (<[i := Some x]> s) ≡ₚ x :: entries s.
Proof.
  unfold entries. revert i. induction s as [|y s IH]; intros [|i] Hi; cbn in *; simplify_eq; [done|].
  specialize (IH i Hi). cbn in IH. destruct y as [y|]; cbn; rewrite IH; [apply Permutation_swap|done].
Qed.

Lemma entries_vacate s i x :
  s !! i = Some (Some x) -> entries s ≡ₚ x :: entries (<[i := None]> s).
Proof.
  intros Hi. pose proof (lookup_lt _ _ _ Hi).
  rewrite <- (entries_fill _ i x) by (by apply list_lookup_insert_eq).
  by rewrite list_insert_insert_eq, list_insert_id.
Qed.

Lemma entries_replace s i x y :
  s !! i = Some (Some x) -> entries (<[i := Some y]> s) ≡ₚ y :: entries (<[i := None]> s).
Proof.
  intros Hi. pose proof (lookup_lt _ _ _ Hi).
  rewrite <- (entries_fill _ i y) by (by apply list_lookup_insert_eq). by rewrite list_insert_insert_eq.
Qed.

Lemma list_to_map_perm (l l' : list (N * V)) :
  NoDup (map fst l) -> l ≡ₚ l' -> (list_to_map l : gmap N V) = list_to_map l'.
Proof. intros. by apply list_to_map_proper. Qed.

Lemma probe_ok_fill s i k v :
  probe_ok s -> i < length s ->
  (forall j, j < length s -> dist (length s) (home s k) j < dist (length s) (home s k) i -> s !! j <> Some None) ->
  probe_ok (<[i := Some (k, v)]> s).
Proof.
  intros Hp Hi Hk j k' v' Hj q Hd. rewrite length_insert in *.
  destruct (decide (q = i)) as [->|]; [by rewrite list_lookup_insert_eq|].
  rewrite list_lookup_insert_ne by done. intros Hq.
  destruct (decide (j = i)) as [->|].
  - rewrite list_lookup_insert_eq in Hj by done. simplify_eq.
    eapply Hk; [by eapply lookup_lt|done|done].
  - rewrite list_lookup_insert_ne in Hj by done. by eapply Hp.
Qed.

(** A slot update that keeps the keys keeps well-formedness. *)
Lemma replace_wf t i k v v' :
  table_wf t -> slots t !! i = Some (Some (k, v)) ->
  let t' := {| slots := <[i := Some (k, v')]> (slots t); len := len t |} in
  table_wf t' /\ to_map t' = <[k := v']> (to_map t).
Proof.
  intros Hwf Hi t'. pose proof (lookup_lt _ _ _ Hi) as Hil. destruct Hwf as [Hpow Hlen Hroom Hkeys Hprobe].
  pose proof (entries_vacate _ _ _ Hi) as E. pose proof (entries_replace _ _ _ (k, v') Hi) as E'.
  assert (Hkeys' : NoDup (map fst (entries (<[i := Some (k, v')]> (slots t)))))
    by (rewrite E'; rewrite E in Hkeys; done).
  split; [split|]; unfold to_map, t'; cbn [slots len]; try (by rewrite ?length_insert).
  - rewrite Hlen, E, E'. done.
  - apply probe_ok_fill; [done|done|]. intros j _. by eapply Hprobe.
  - rewrite (list_to_map_perm _ _ Hkeys' E'), (list_to_map_perm _ _ Hkeys E). cbn.
    by rewrite insert_insert_eq.
Qed.

Lemma put_ok t key v v' :
  table_wf t -> to_map t !! key = Some v ->
  exists t', put t key v' = Ret t' /\ table_wf t' /\ to_map t' = <[key := v']> (to_map t) /\
    length (slots t') = length (slots t).
Proof.
  intros Hwf Hv. unfold put, find_index.
  destruct (locate_spec t key Hwf) as (i & Hi & _ & [(w & -> & Hs)|(-> & Hs & Hno)]); cbn [rbind].
  - destruct (replace_wf t i key w v' Hwf Hs). eexists. split_and!; [done..|]. cbn. by rewrite length_insert.
  - apply to_map_lookup in Hv as [j Hj]; [|done]. by apply Hno in Hj.
Qed.

Lemma insert_ok t key v :
  table_wf t -> len t + 1 < length (slots t) ->
  exists t', insert t key v = Ret (to_map t !! key, t') /\ table_wf t' /\
    to_map t' = <[key := v]> (to_map t) /\ length (slots t') = length (slots t).
Proof.
  intros Hwf Hroom'. unfold insert.
  destruct (locate_spec t key Hwf) as (i & Hi & Hpath & [(w & -> & Hs)|(-> & Hs & Hno)]); cbn [rbind].
  - rewrite Hs. cbn. destruct (replace_wf t i key w v Hwf Hs) as [Hwf' Hm].
    rewrite (proj2 (to_map_lookup t key w Hwf)) by eauto.
    eexists. split_and!; [done..|]. cbn. by rewrite length_insert.
  - assert (Hnone : to_map t !! key = None).
    { destruct (to_map t !! key) eqn:E; [|done]. apply to_map_lookup in E as [j Hj]; [|done]. by apply Hno in Hj. }
    rewrite Hnone. eexists. split_and!; [done| | |by cbn; rewrite length_insert];
      destruct Hwf as [Hpow Hlen Hroom Hkeys Hprobe]; pose proof (entries_fill _ _ (key, v) Hs) as E;
      assert (Hkeys' : NoDup (map fst (entries (<[i:=Some (key, v)]> (slots t))))) by
        (rewrite E; cbn; apply NoDup_cons; split; [by apply not_elem_of_list_to_map|done]).
    + split; cbn; rewrite ?length_insert; try done.
      * rewrite E. cbn. lia.
      * by apply probe_ok_fill.
    + unfold to_map. cbn [slots]. by rewrite (list_to_map_perm _ _ Hkeys' E).
Qed.

(** ** Backward-shift deletion *)

(** Arithmetic of the ring: hole [p], examined slot [q], home [h], entry [i]. *)
Lemma ring_between n p q i h :
  p < n -> q < n -> i < n -> h < n -> dist n p q < dist n p i -> dist n h p < dist n h i ->
  dist n h q < dist n h i.
Proof. intros. ring_lia. Qed.

Lemma ring_keep n p q h :
  p < n -> q < n -> h < n -> p <> q -> should_move p q h = false -> dist n h q < dist n h p.
Proof. intros. ring_lia. Qed.

Lemma ring_move n p q h :
  p < n -> q < n -> h < n -> p <> q -> should_move p q h = true -> dist n h p < dist n h q.
Proof. intros. ring_lia. Qed.

Lemma dist_pos n p q : p < n -> q < n -> 0 < dist n p q <-> p <> q.
Proof. intros. split; ring_lia. Qed.

Lemma step_dist_from a s p q e :
  length s = 2 ^ a -> p < length s -> q < length s -> e < length s -> q <> e -> p <> e ->
  dist (length s) p q <= dist (length s) p e ->
  0 < dist (length s) p (step (length s - 1) q) <= dist (length s) p e /\
  dist (length s) p (step (length s - 1) q) = S (dist (length s) p q).
Proof.
  intros Ha. rewrite Ha in *. intros. rewrite step_ring by done.
  destruct (Nat.eqb_spec (q + 1) (2 ^ a)); ring_lia.
Qed.

(** The hole at [p] is the only vacant slot a probe path may cross, and only
    for entries at or beyond [q]; the vacant slot [e] bounds the scan. *)
Record shift_inv (e : nat) s (p q : nat) : Prop := {
  si_hole : s !! p = Some None;
  si_end : s !! e = Some None;
  si_next : q < length s;
  si_order : p <> e /\ 0 < dist (length s) p q <= dist (length s) p e;
  si_path : forall i k v, s !! i = Some (Some (k, v)) ->
    forall j, dist (length s) (home s k) j < dist (length s) (home s k) i -> s !! j = Some None ->
    j = p /\ dist (length s) p q <= dist (length s) p i;
}.

Lemma shift_stop a e s p q :
  length s = 2 ^ a -> shift_inv e s p q -> s !! q = Some None -> probe_ok s.
Proof.
  intros Ha [Hp He Hq [Hpe Hord] Hpath] Hqn i k v Hi j Hd Hj.
  destruct (Hpath i k v Hi j Hd Hj) as [-> Hle].
  pose proof (lookup_lt _ _ _ Hp). pose proof (lookup_lt _ _ _ Hi). pose proof (home_lt s k a Ha).
  assert (q <> i) by congruence.
  destruct (Hpath i k v Hi q) as [-> _]; [|done|rewrite dist_self in Hord; lia].
  apply ring_between with p; try done. ring_lia.
Qed.

Lemma shift_keep a e s p q k v :
  length s = 2 ^ a -> shift_inv e s p q -> s !! q = Some (Some (k, v)) ->
  should_move p q (home s k) = false -> shift_inv e s p (step (length s - 1) q).
Proof.
  intros Ha [Hp He Hq [Hpe Hord] Hpath] Hqk Hm.
  pose proof (lookup_lt _ _ _ Hp). pose proof (lookup_lt _ _ _ He). pose proof (home_lt s k a Ha).
  assert (q <> e) by congruence. assert (p <> q) by congruence.
  destruct (step_dist_from a s p q e) as [Hb HS]; try done; try lia.
  split; try done; [by apply (step_dist a s q e)|].
  intros i k' v' Hi j Hd Hj. destruct (Hpath i k' v' Hi j Hd Hj) as [-> Hle].
  split; [done|]. pose proof (lookup_lt _ _ _ Hi).
  destruct (decide (i = q)) as [->|]; [|rewrite HS; clear -Hle n Hq H H4; ring_lia].
  simplify_eq.
  pose proof (ring_keep (length s) p q (home s k) ltac:(done) ltac:(done) ltac:(done) ltac:(done) Hm). lia.
Qed.

Lemma shift_move a e s p q k v :
  length s = 2 ^ a -> shift_inv e s p q -> s !! q = Some (Some (k, v)) ->
  should_move p q (home s k) = true ->
  let s' := <[q := None]> (<[p := Some (k, v)]> s) in
  shift_inv e s' q (step (length s - 1) q) /\ entries s' ≡ₚ entries s.
Proof.
  intros Ha [Hp He Hq [Hpe Hord] Hpath] Hqk Hm s'.
  pose proof (lookup_lt _ _ _ Hp). pose proof (lookup_lt _ _ _ He). pose proof (home_lt s k a Ha).
  assert (q <> e) by congruence. assert (p <> q) by congruence.
  assert (Hl : length s' = length s) by (unfold s'; by rewrite !length_insert).
  assert (Hlk : forall i, s' !! i = if decide (i = q) then Some None
                                  else if decide (i = p) then Some (Some (k, v)) else s !! i).
  { intros i. unfold s'. repeat case_decide; subst; rewrite ?list_lookup_insert_eq by len; auto;
      rewrite list_lookup_insert_ne by done; rewrite ?list_lookup_insert_eq by len; auto.
    by rewrite list_lookup_insert_ne. }
  pose proof (ring_move (length s) p q (home s k) ltac:(done) ltac:(done) ltac:(done) ltac:(done) Hm) as Hmv.
  assert (Hone : dist (length s) q (step (length s - 1) q) = 1).
  { destruct (step_dist_from a s q q e) as [_ ->]; try done; rewrite ?dist_self; lia. }
  split; [split; rewrite ?Hl|].
  - rewrite Hlk. by rewrite decide_True.
  - rewrite Hlk. by rewrite !decide_False by congruence.
  - by apply (step_dist a s q e).
  - split; [done|]. rewrite Hone. split; [lia|]. by apply dist_pos.
  - intros i k' v' Hi j Hd Hj. rewrite Hone. rewrite Hlk in Hi, Hj.
    assert (Hiq : i <> q) by (intros ->; by rewrite decide_True in Hi).
    pose proof (lookup_lt s' i (Some (k', v')) ltac:(by rewrite Hlk)) as Hil. rewrite Hl in Hil.
    pose proof (proj2 (dist_pos (length s) q i Hq Hil) ltac:(done)).
    rewrite decide_False in Hi by done. case_decide; [subst j|].
    + done.
    + exfalso. case_decide; [done|]. case_decide; [subst i|].
      * simplify_eq. destruct (Hpath q k' v' Hqk j ltac:(lia) Hj). done.
      * destruct (Hpath i k' v' Hi j Hd Hj). done.
  - unfold s'. rewrite (entries_vacate s q (k, v) Hqk).
    rewrite list_insert_insert_ne by done. apply entries_fill. by rewrite list_lookup_insert_ne.
Qed.

Lemma shift_back_ok a e :
  forall fuel s p q, length s = 2 ^ a -> shift_inv e s p q -> dist (length s) q e < fuel ->
  exists s', shift_back fuel (length s - 1) s p q = Ret s' /\ length s' = length s /\
    entries s' ≡ₚ entries s /\ probe_ok s'.
Proof.
  induction fuel as [|fuel IH]; intros s p q Ha Hinv Hf; [lia|]. cbn [shift_back].
  destruct (lookup_lt_is_Some_2 s q (si_next _ _ _ _ Hinv)) as [slot Hslot].
  rewrite Hslot. cbn [rexpect rbind]. destruct slot as [[k v]|].
  2: { exists s. split_and!; try done. by eapply shift_stop. }
  assert (Hqe : q <> e) by (intros ->; pose proof (si_end _ _ _ _ Hinv); congruence).
  destruct (step_dist a s q e Ha (si_next _ _ _ _ Hinv) (lookup_lt _ _ _ (si_end _ _ _ _ Hinv)) Hqe)
    as [_ Hd].
  destruct (should_move p q (home s k)) eqn:Hm.
  - destruct (shift_move a e s p q k v Ha Hinv Hslot Hm) as [Hinv' Hperm].
    edestruct IH as (s' & Hs' & Hl' & Hp' & Hok); [|exact Hinv'| |]; rewrite ?length_insert; try done; [lia|].
    rewrite !length_insert in Hs', Hl'. exists s'. split_and!; try done. by rewrite Hp'.
  - apply IH; [done|by eapply shift_keep|lia].
Qed.

Lemma remove_ok t key :
  table_wf t ->
  exists t', remove t key = Ret (to_map t !! key, t') /\ table_wf t' /\
    to_map t' = delete key (to_map t) /\ length (slots t') = length (slots t).
Proof.
  intros Hwf. unfold remove.
  destruct (locate_spec t key Hwf) as (p & Hp & _ & [(v & -> & Hs)|(-> & Hs & Hno)]); cbn [rbind].
  2: { assert (Hnone : to_map t !! key = None).
       { destruct (to_map t !! key) eqn:E; [|done]. apply to_map_lookup in E as [j Hj]; [|done]. by apply Hno in Hj. }
       exists t. rewrite Hnone, delete_id by done. done. }
  rewrite (proj2 (to_map_lookup t key v Hwf)) by eauto.
  rewrite Hs. cbn [rexpect rbind]. destruct Hwf as [(a & Ha & Ha1) Hlen Hroom Hkeys Hprobe].
  destruct (vacant_exists (slots t)) as [e He]; [lia|]. assert (Hpe : p <> e) by congruence.
  pose proof (lookup_lt _ _ _ He) as Hel. pose proof (entries_vacate _ _ _ Hs) as E.
  assert (Hone : dist (length (slots t)) p (step (length (slots t) - 1) p) = 1).
  { destruct (step_dist_from a (slots t) p p e) as [_ ->]; try done; rewrite ?dist_self; lia. }
  destruct (step_dist a (slots t) p e Ha Hp Hel Hpe) as [Hsl Hsd].
  assert (Hde : dist (length (slots t)) p e < length (slots t)) by (clear -Hp Hel; ring_lia).
  destruct (shift_back_ok a e (length (slots t)) (<[p := None]> (slots t)) p (step (length (slots t) - 1) p))
    as (s' & Hs' & Hl' & Hperm & Hok); rewrite ?length_insert; try done; [|lia|].
  - split; rewrite ?length_insert.
    + by apply list_lookup_insert_eq.
    + by rewrite list_lookup_insert_ne.
    + done.
    + split; [done|]. rewrite Hone. split; [lia|]. by apply dist_pos.
    + intros i k w Hi j Hd Hj. rewrite Hone.
      assert (Hip : i <> p) by (intros ->; by rewrite list_lookup_insert_eq in Hi).
      rewrite list_lookup_insert_ne in Hi by done. pose proof (lookup_lt _ _ _ Hi).
      split; [|by apply dist_pos; auto].
      destruct (decide (j = p)) as [->|Hjp]; [done|]. rewrite list_lookup_insert_ne in Hj by done.
      by destruct (Hprobe i k w Hi j Hd).
  - rewrite length_insert in Hs', Hl'. rewrite Hs'. cbn [rbind].
    rewrite E in Hkeys. cbn in Hkeys. apply NoDup_cons in Hkeys as [Hnk Hkeys].
    assert (Hkeys' : NoDup (map fst (entries s'))) by (by rewrite Hperm).
    rewrite E in Hlen. cbn in Hlen.
    eexists. split_and!; [done| | |done].
    + split; cbn [slots len]; rewrite ?Hl'; try done; [by exists a| |lia].
      rewrite Hperm. lia.
    + unfold to_map. cbn [slots]. rewrite (list_to_map_perm _ _ Hkeys' Hperm).
      rewrite (list_to_map_perm (entries (slots t)) _ ltac:(rewrite E; by apply NoDup_cons) E). cbn.
      symmetry. apply delete_insert_id. by apply not_elem_of_list_to_map.
Qed.

(** ** Sizes *)

Lemma next_power_of_two_from_spec fuel a n :
  n <= 2 ^ (a + fuel) -> exists b, next_power_of_two_from fuel (2 ^ a) n = 2 ^ b /\ n <= 2 ^ b /\ a <= b.
Proof.
  revert a. induction fuel as [|fuel IH]; intros a Hn; cbn [next_power_of_two_from].
  - exists a. rewrite Nat.add_0_r in Hn. done.
  - destruct (Nat.ltb_spec (2 ^ a) n); [|by exists a].
    change (2 * 2 ^ a) with (2 ^ S a). destruct (IH (S a)) as (b & -> & ? & ?).
    + by rewrite Nat.add_succ_l, <- Nat.add_succ_r.
    + exists b. split_and!; [done..|lia].
Qed.

Lemma new_ok capacity :
  table_wf (new capacity : ObjectTable V) /\ to_map (new capacity : ObjectTable V) = ∅ /\
  capacity < length (slots (new capacity : ObjectTable V)).
Proof.
  unfold new, to_map. cbn [slots len]. set (c := Nat.max capacity 1 * 2).
  destruct (next_power_of_two_from_spec c 0 c) as (b & Hb & Hcb & _).
  { apply Nat.lt_le_incl, Nat.pow_gt_lin_r. lia. }
  change (2 ^ 0) with 1 in Hb. unfold next_power_of_two. rewrite Hb.
  assert (Hent : forall m, entries (replicate m (@None (N * V))) = []) by (induction m; done).
  assert (Hmax : exists a, Nat.max (2 ^ b) 16 = 2 ^ a /\ 1 <= a).
  { destruct (decide (b <= 4)).
    - exists 4. split; [|lia]. apply Nat.max_r. change 16 with (2 ^ 4). apply Nat.pow_le_mono_r; lia.
    - exists b. split; [|lia]. apply Nat.max_l. change 16 with (2 ^ 4). apply Nat.pow_le_mono_r; lia. }
  split_and!; [split; cbn [slots len]| |]; rewrite ?length_replicate, ?Hent; cbn [length map].
  - done.
  - done.
  - lia.
  - constructor.
  - intros i k v Hi. by apply lookup_replicate in Hi as [? _].
  - done.
  - unfold c in *. lia.
Qed.

Lemma len_size t : table_wf t -> len t = size (to_map t).
Proof.
  intros [_ Hlen _ Hkeys _]. unfold to_map. rewrite Hlen. symmetry.
  rewrite map_size_list_to_map by done. done.
Qed.
End wf.

End Table.

(** ** The interface the reassembler uses *)

Class Store (T V : Type) := {
  store_new : nat -> T;
  store_len : T -> nat;
  store_get : T -> N -> run (option V);
  store_put : T -> N -> V -> run T;
  store_insert : T -> N -> V -> run (option V * T);
  store_remove : T -> N -> run (option V * T);
}.

#[export] Instance table_store {V} : Store (Table.ObjectTable V) V := {|
  store_new := Table.new;
  store_len := Table.len;
  store_get := Table.get;
  store_put := Table.put;
  store_insert := Table.insert;
  store_remove := Table.remove;
|}.

(** What it relies on: the store is a finite map as long as it holds at most
    [store_cap] entries. *)
Class StoreLaws (T V : Type) `{Store T V} := {
  store_wf : T -> Prop;
  store_map : T -> gmap N V;
  store_cap : T -> nat;
  store_new_ok n : store_wf (store_new n) /\ store_map (store_new n) = ∅ /\ n <= store_cap (store_new n);
  store_len_ok t : store_wf t -> store_len t = size (store_map t);
  store_get_ok t k : store_wf t -> store_get t k = Ret (store_map t !! k);
  store_put_ok t k v : store_wf t -> is_Some (store_map t !! k) ->
    exists t', store_put t k v = Ret t' /\ store_wf t' /\ store_map t' = <[k := v]> (store_map t) /\
      store_cap t' = store_cap t;
  store_insert_ok t k v : store_wf t -> size (store_map t) < store_cap t ->
    exists t', store_insert t k v = Ret (store_map t !! k, t') /\ store_wf t' /\
      store_map t' = <[k := v]> (store_map t) /\ store_cap t' = store_cap t;
  store_remove_ok t k : store_wf t ->
    exists t', store_remove t k = Ret (store_map t !! k, t') /\ store_wf t' /\
      store_map t' = delete k (store_map t) /\ store_cap t' = store_cap t;
}.

#[export] Program Instance table_laws {V} : StoreLaws (Table.ObjectTable V) V := {|
  store_wf := Table.table_wf;
  store_map := Table.to_map;
  store_cap t := length (Table.slots t) - 1;
|}.
Next Obligation. intros V n. destruct (@Table.new_ok V n) as (? & ? & ?). split_and!; [done..|].
  change (n <= length (Table.slots (@Table.new V n)) - 1). lia.
Qed.
Next Obligation. intros V t Hwf. by apply Table.len_size. Qed.
Next Obligation. intros V t k Hwf. by apply Table.get_ok. Qed.
Next Obligation.
  intros V t k v Hwf [w Hw]. destruct (Table.put_ok t k w v Hwf Hw) as (t' & ? & ? & ? & Hl).
  exists t'. rewrite Hl. done.
Qed.
Next Obligation.
  intros V t k v Hwf Hroom. rewrite <- Table.len_size in Hroom by done.
  destruct (Table.insert_ok t k v Hwf) as (t' & ? & ? & ? & Hl); [lia|].
  exists t'. rewrite Hl. done.
Qed.
Next Obligation.
  intros V t k Hwf. destruct (Table.remove_ok t k Hwf) as (t' & ? & ? & ? & Hl).
  exists t'. rewrite Hl. done.
Qed.

(** ** Sequences of operations *)

Inductive op (V : Type) := OGet (k : N) | OInsert (k : N) (v : V) | ORemove (k : N).
Arguments OGet {V} _.
Arguments OInsert {V} _ _.
Arguments ORemove {V} _.

Definition store_op {T V} `{Store T V} (o : op V) (t : T) : run (option V * T) :=
  match o with
  | OGet k => let! r := store_get t k in Ret (r, t)
  | OInsert k v => store_insert t k v
  | ORemove k => store_remove t k
  end.

Fixpoint store_ops {T V} `{Store T V} (os : list (op V)) (t : T) : run (list (option V) * T) :=
  match os with
  | [] => Ret ([], t)
  | o :: os =>
      let! ' (r, t) := store_op o t in
      let! ' (rs, t) := store_ops os t in
      Ret (r :: rs, t)
  end.

(** The same sequence on a finite map. *)
Fixpoint map_ops {V} (os : list (op V)) (m : gmap N V) : list (option V) * gmap N V :=
  match os with
  | [] => ([], m)
  | o :: os =>
      let '(r, m') :=
        match o with
        | OGet k => (m !! k, m)
        | OInsert k v => (m !! k, <[k := v]> m)
        | ORemove k => (m !! k, delete k m)
        end in
      let '(rs, m'') := map_ops os m' in
      (r :: rs, m'')
  end.

(** No insertion finds the map already holding [cap] entries. *)
Fixpoint ops_fit {V} (cap : nat) (os : list (op V)) (m : gmap N V) : bool :=
  match os with
  | [] => true
  | OGet _ :: os => ops_fit cap os m
  | OInsert k v :: os => (size m <? cap) && ops_fit cap os (<[k := v]> m)
  | ORemove k :: os => ops_fit cap os (delete k m)
  end.

Lemma store_ops_ok {T V} `{StoreLaws T V} cap (os : list (op V)) (t : T) :
  store_wf t -> cap <= store_cap t -> ops_fit cap os (store_map t) = true ->
  exists t', store_ops os t = Ret ((map_ops os (store_map t)).1, t') /\ store_wf t' /\
    store_map t' = (map_ops os (store_map t)).2.
Proof.
  revert t. induction os as [|o os IH]; intros t Hwf Hcap Hfit; [by exists t|].
  assert (Hstep : exists r m t', store_op o t = Ret (r, t') /\ store_wf t' /\ store_map t' = m /\
      cap <= store_cap t' /\ ops_fit cap os m = true /\
      map_ops (o :: os) (store_map t) = (r :: (map_ops os m).1, (map_ops os m).2)).
  { cbn [map_ops]. destruct o as [k|k v|k]; cbn [store_op ops_fit] in *.
    - rewrite store_get_ok by done. exists (store_map t !! k), (store_map t), t.
      split_and!; try done. by destruct (map_ops os _).
    - apply andb_true_iff in Hfit as [Hs%Nat.ltb_lt Hfit].
      destruct (store_insert_ok t k v Hwf) as (t' & -> & ? & Hm & ?); [lia|].
      exists (store_map t !! k), (<[k := v]> (store_map t)), t'. split_and!; try done; [lia|].
      by destruct (map_ops os _).
    - destruct (store_remove_ok t k Hwf) as (t' & -> & ? & Hm & ?).
      exists (store_map t !! k), (delete k (store_map t)), t'. split_and!; try done; [lia|].
      by destruct (map_ops os _). }
  destruct Hstep as (r & m & t1 & Ho & Hwf1 & <- & Hcap1 & Hfit1 & ->). cbn [store_ops fst snd].
  rewrite Ho. cbn [rbind]. destruct (IH t1 Hwf1 Hcap1 Hfit1) as (t' & -> & ? & ?).
  exists t'. cbn [rbind]. by destruct (map_ops os _).
Qed.

(** C17: the hash table refines a finite map.  From an empty table made for
    [cap] objects, every sequence of lookups, insertions and removals that
    never inserts into a table already holding [cap] entries terminates without
    a panic, returns what the finite map returns, and ends in a table that
    holds the map's entries.  In particular backward-shift deletion never
    makes a later entry unreachable. *)
Theorem table_refines_map {V} (cap : nat) (os : list (op V)) :
  ops_fit cap os ∅ = true ->
  exists t', store_ops os (Table.new cap) = Ret ((map_ops os ∅).1, t') /\
    Table.table_wf t' /\ Table.to_map t' = (map_ops os ∅).2.
Proof.
  intros Hfit. destruct (@store_new_ok _ _ _ (@table_laws V) cap) as (Hwf & Hmap & Hcap).
  destruct (store_ops_ok cap os (store_new cap) Hwf Hcap) as (t' & Ht & Hw & Hm).
  - by rewrite Hmap.
  - rewrite Hmap in Ht, Hm. by exists t'.
Qed.

Definition demo_ops : list (op nat) :=
  [OInsert 7 1; OInsert 23 2; OInsert 7 3; ORemove 7; OGet 23; OGet 7; OInsert 5 4; ORemove 9].

Lemma table_refines_map_witness :
  exists t', store_ops demo_ops (Table.new 3)
    = Ret ([None; None; Some 1; Some 3; Some 2; None; None; None], t') /\
    Table.table_wf t' /\ Table.to_map t' = (map_ops demo_ops ∅).2.
Proof. exact (table_refines_map 3 demo_ops eq_refl). Defined.
