(* ===== verification/Fec.v ===== *)
(** * The FEC object layer

    [crates/yip-transport/src/fec.rs] and the flow classes of
    [crates/yip-transport/src/lib.rs]: one sealed ciphertext is an object, cut
    into K source symbols with R repair symbols; the reassembler keeps several
    objects in flight and rebuilds each from any K of its symbols.

    Lengths and counts ([usize]) are [nat]; wire fields keep their width as
    [N].  The reassembler is written against the interface [Store] of the
    object table.  [push] is cut at the points where the source has a blank
    line: the guards, the sweep of the queue, the admission of a new object and
    the treatment of the symbol. *)
From Stdlib Require Strings.Byte.
From Stdlib Require Import NArith ZArith SpecFloat Lia.
From stdpp Require Import base numbers gmap sets list.
From S2P Require Import Prelude Gf256 RsSimd Rs ObjTable.

Local Open Scope nat_scope.

(** ** Flow classes *)

Inductive FlowClass := Realtime | Bulk | Default.
#[export] Instance flow_class_eq_dec : EqDecision FlowClass.
Proof. solve_decision. Defined.

Record FlowParams := mkFlowParams {
  symbol_size : N;
  initial_repair_ratio : spec_float;
  deadline_ms : N;
  arq : bool;
}.

(** Single-precision literals. *)
Definition f32_0_15 : spec_float := S754_finite false 0x99999a (-26).
Definition f32_0_05 : spec_float := S754_finite false 0xcccccd (-28).
Definition f32_0_10 : spec_float := S754_finite false 0xcccccd (-27).

Definition params (c : FlowClass) : FlowParams :=
  match c with
  | Realtime => mkFlowParams 1200 f32_0_15 20 false
  | Bulk => mkFlowParams 1200 f32_0_05 500 true
  | Default => mkFlowParams 1200 f32_0_10 100 false
  end.

Definition class_index (c : FlowClass) : nat :=
  match c with Realtime => 0 | Bulk => 1 | Default => 2 end.

(** ** Symbols *)

Definition MAX_OBJECT_SIZE : N := 262144.
Definition CODEC_RS_V1 : u8 := Byte.x01.

Record Symbol := mkSymbol {
  object_id : N;
  object_size : N;
  payload_id : u8 * u8 * u8 * u8;
  data : list u8;
}.

Definition shard_for_fec_symbol (conn_tag object_id : N) (num_shards : nat) : nat :=
  if num_shards <=? 1 then 0
  else
    let mixed := N.lxor conn_tag (wrap64 (object_id * 0x9e3779b97f4a7c15)) in
    N.to_nat (mixed mod N.of_nat num_shards).

Definition pack_payload_id (symbol_index : N) (scheme : u8) : u8 * u8 * u8 * u8 :=
  match to_be_bytes 2 symbol_index with
  | [i0; i1] => (CODEC_RS_V1, i0, i1, scheme)
  | _ => (CODEC_RS_V1, Byte.x00, Byte.x00, scheme)
  end.

Definition parse_payload_id (pid : u8 * u8 * u8 * u8) : option (N * Scheme) :=
  let '(p0, p1, p2, p3) := pid in
  if decide (p0 = CODEC_RS_V1) then
    match from_u8 p3 with
    | None => None
    | Some scheme => Some (from_be_bytes [p1; p2], scheme)
    end
  else None.

(** [size.div_ceil(sym)], 0 when [sym] is 0. *)
Definition source_count (object_size symbol_size : N) : nat :=
  let size := N.to_nat object_size in
  let sym := N.to_nat symbol_size in
  if sym =? 0 then 0 else (size + sym - 1) / sym.

Definition split_source (ciphertext : list u8) (k sym : nat) : run (list (list u8)) :=
  rmap (fun i =>
          let shard := replicate sym Byte.x00 in
          let start := i * sym in
          let stop := Nat.min (start + sym) (length ciphertext) in
          if start <? length ciphertext
          then let! src := slice_run start stop ciphertext in copy_at 0 src shard
          else Ret shard)
       (seq 0 k).

(** ** The encoder *)

Record FecEncoder := mkEncoder { next_object_id : N; stride : N; symbols_encoded : N }.

Definition encoder_new : FecEncoder := mkEncoder 0 1 0.

Definition set_shard (e : FecEncoder) (shard_id num_shards : N) : FecEncoder :=
  mkEncoder shard_id (if (num_shards =? 0)%N then 1 else num_shards) (symbols_encoded e).

(** [u16::try_from(n).expect(..)] *)
Definition u16_try (n : nat) : run N :=
  if (N.of_nat n <? u16_mod)%N then Ret (N.of_nat n) else Panic.

Section encoder.
Context {cpu : Cpu}.

(** Symbols [first], [first + 1], … carrying [payloads]. *)
Definition number_symbols (object_id object_size : N) (scheme_u8 : u8) (first : nat)
    (payloads : list (list u8)) : run (list Symbol) :=
  rmap (fun '(m, d) =>
          let! idx := u16_try (first + m) in
          Ret (mkSymbol object_id object_size (pack_payload_id idx scheme_u8) d))
       (imap pair payloads).

Definition build (ciphertext : list u8) (p : FlowParams) (object_id repair : N) : run (list Symbol) :=
  let object_size := N.of_nat (length ciphertext) in
  if negb (object_size <? u32_mod)%N then Panic
  else
  let sym := N.to_nat (symbol_size p) in
  if sym =? 0 then Ret []
  else
  let k := source_count object_size (symbol_size p) in
  if (k =? 0) || (255 <=? k) then Ret []
  else
  let max_repair := 255 - k in
  let r := Nat.min (N.to_nat repair) max_repair in
  let scheme := if negb (arq p) && ((r =? 1) || (r =? 2)) then Pq else Cauchy in
  let scheme_u8 := to_u8 scheme in
  if k =? 1 then
    let source := [ciphertext] in
    let out := [mkSymbol object_id object_size (pack_payload_id 0 scheme_u8) ciphertext] in
    if 0 <? r then
      let! reps := encode_repair source r scheme in
      let! rs := number_symbols object_id object_size scheme_u8 1 reps in
      Ret (out ++ rs)
    else Ret out
  else
    let! source := split_source ciphertext k sym in
    let obj_len := length ciphertext in
    let last_source_len := obj_len - (k - 1) * sym in
    let! payloads := rmap (fun '(i, shard) =>
        if i =? k - 1 then slice_run 0 last_source_len shard else Ret shard) (imap pair source) in
    let! out := number_symbols object_id object_size scheme_u8 0 payloads in
    if 0 <? r then
      let! reps := encode_repair source r scheme in
      let! rs := number_symbols object_id object_size scheme_u8 k reps in
      Ret (out ++ rs)
    else Ret out.

Definition encode (e : FecEncoder) (ciphertext : list u8) (p : FlowParams) (repair : N)
    : run (list Symbol * FecEncoder) :=
  let object_id := next_object_id e in
  let! syms := build ciphertext p object_id repair in
  Ret (syms, mkEncoder (wrap16 (object_id + stride e)) (stride e)
                       (sat_add64 (symbols_encoded e) (N.of_nat (length syms)))).

Definition repair_with_id (e : FecEncoder) (ciphertext : list u8) (p : FlowParams)
    (object_id extra_repair : N) : run (list Symbol * FecEncoder) :=
  let! syms := build ciphertext p object_id extra_repair in
  Ret (syms, mkEncoder (next_object_id e) (stride e)
                       (sat_add64 (symbols_encoded e) (N.of_nat (length syms)))).

End encoder.

(** ** The reassembler *)

Record ObjState := mkObj {
  st_payload : list u8;
  st_seen_mask : list N;
  st_source_count : nat;
  st_total_count : nat;
  st_k : nat;
  st_shard_len : nat;
  st_object_size : N;
  st_scheme : Scheme;
  st_done : bool;
  st_expires_at_ms : N;
  st_repair_shards : list (N * list u8);
}.

Definition is_seen (seen_mask : list N) (idx : N) : run bool :=
  let u := N.to_nat idx in
  if 256 <=? u then Ret false else mask_bit seen_mask u.

Definition mark_seen (seen_mask : list N) (idx : N) : run (list N) :=
  let u := N.to_nat idx in
  if u <? 256 then
    let! w := rexpect (seen_mask !! (u / 64)) in
    Ret (<[u / 64 := N.lor w (N.shiftl 1 (N.of_nat (u mod 64)))]> seen_mask)
  else Ret seen_mask.

Record FecReassembler (T : Type) := mkReassembler {
  re_symbol_size : N;
  objects : T;
  order : list N;
  max_objects : nat;
  recovered_count : N;
  unrecoverable_count : N;
}.
Arguments mkReassembler {T} _ _ _ _ _ _.
Arguments re_symbol_size {T} _.
Arguments objects {T} _.
Arguments order {T} _.
Arguments max_objects {T} _.
Arguments recovered_count {T} _.
Arguments unrecoverable_count {T} _.

Section reassembler.
Context {cpu : Cpu} {T : Type} {store : Store T ObjState}.
Implicit Types re : FecReassembler T.

Definition reassembler_new (symbol_size : N) (max_objs : nat) : FecReassembler T :=
  let max_obj := Nat.max max_objs 1 in
  mkReassembler symbol_size (store_new max_obj) [] max_obj 0 0.

Definition in_flight re : nat := store_len (objects re).

Definition set_symbol_size re (s : N) : FecReassembler T :=
  mkReassembler s (objects re) (order re) (max_objects re) (recovered_count re) (unrecoverable_count re).

(** Guards on the fields of a symbol: its index, scheme, K, symbol size and
    object size, or nothing. *)
Definition guard re (object_key : N) (symbol : Symbol) : run (option (N * Scheme * nat * nat * nat)) :=
  if (object_size symbol =? 0)%N || (MAX_OBJECT_SIZE <? object_size symbol)%N
     || (re_symbol_size re =? 0)%N then Ret None
  else
  match parse_payload_id (payload_id symbol) with
  | None => Ret None
  | Some (symbol_index, scheme) =>
      if 255 <=? N.to_nat symbol_index then Ret None
      else
      let! existing := store_get (objects re) object_key in
      let dims :=
        match existing with
        | Some existing =>
            if (st_object_size existing =? object_size symbol)%N
            then Some (st_k existing, st_shard_len existing) else None
        | None => Some (source_count (object_size symbol) (re_symbol_size re), N.to_nat (re_symbol_size re))
        end in
      match dims with
      | None => Ret None
      | Some (k, sym_size) =>
          if (k =? 0) || (255 <=? k) then Ret None
          else
          let obj_size := N.to_nat (object_size symbol) in
          let expected_wire_len :=
            if N.to_nat symbol_index =? k - 1 then
              match checked_mul (k - 1) sym_size with
              | None => None
              | Some prefix => if obj_size <? prefix then None else Some (obj_size - prefix)
              end
            else Some (Nat.min obj_size sym_size) in
          match expected_wire_len with
          | None => Ret None
          | Some expected_wire_len =>
              if negb (length (data symbol) =? expected_wire_len) then Ret None
              else if (if decide (scheme = Pq) then k + 2 <=? N.to_nat symbol_index else false)
              then Ret None
              else Ret (Some (symbol_index, scheme, k, sym_size, obj_size))
          end
      end
  end.

(** Drop expired or finished objects from the head of the queue. *)
Fixpoint sweep (object_key now_ms : N) (ord : list N) (objs : T) (unrec : N) : run (list N * T * N) :=
  match ord with
  | [] => Ret ([], objs, unrec)
  | oldest_id :: rest =>
      if (oldest_id =? object_key)%N then Ret (ord, objs, unrec)
      else
      let! state := store_get objs oldest_id in
      match state with
      | Some state =>
          if (st_expires_at_ms state <? now_ms)%N || st_done state then
            let unrec := if st_done state then unrec else sat_add64 unrec 1 in
            let! ' (_, objs) := store_remove objs oldest_id in
            sweep object_key now_ms rest objs unrec
          else Ret (ord, objs, unrec)
      | None => sweep object_key now_ms rest objs unrec
      end
  end.

(** Make room for a new object and insert it. *)
Definition admit_object (object_key : N) (fresh : ObjState) (max_objs : nat)
    (ord : list N) (objs : T) (unrec : N) : run (list N * T * N) :=
  let! present := store_get objs object_key in
  match present with
  | Some _ => Ret (ord, objs, unrec)
  | None =>
      let! ' (ord, objs, unrec) :=
        if max_objs <=? store_len objs then
          match ord with
          | [] => Ret (ord, objs, unrec)
          | oldest :: rest =>
              let! ' (st, objs) := store_remove objs oldest in
              Ret (rest, objs,
                   match st with
                   | Some st => if st_done st then unrec else sat_add64 unrec 1
                   | None => unrec
                   end)
          end
        else Ret (ord, objs, unrec) in
      let! ' (_, objs) := store_insert objs object_key fresh in
      Ret (ord ++ [object_key], objs, unrec)
  end.

Definition fresh_object (k sym_size obj_size : nat) (size : N) (scheme : Scheme) (expires : N) : ObjState :=
  let shard_len := Nat.min obj_size sym_size in
  let payload_len := match checked_mul k shard_len with Some n => n | None => 0 end in
  {| st_payload := replicate payload_len Byte.x00; st_seen_mask := [0%N; 0%N; 0%N; 0%N];
     st_source_count := 0; st_total_count := 0; st_k := k; st_shard_len := shard_len;
     st_object_size := size; st_scheme := scheme; st_done := false;
     st_expires_at_ms := expires; st_repair_shards := [] |}.

(** A finished object keeps its entry, without its buffers. *)
Definition tombstone (st : ObjState) : ObjState :=
  mkObj [] (st_seen_mask st) (st_source_count st) (st_total_count st) (st_k st) (st_shard_len st)
        (st_object_size st) (st_scheme st) true (st_expires_at_ms st) [].

(** Store the bytes of a symbol not seen before. *)
Definition store_symbol (st : ObjState) (symbol_index : N) (bytes : list u8) : run ObjState :=
  let! mask := mark_seen (st_seen_mask st) symbol_index in
  let sym_idx := N.to_nat symbol_index in
  let! ' (payload, sc, reps) :=
    if sym_idx <? st_k st then
      let offset := sym_idx * st_shard_len st in
      let copy_len := Nat.min (length bytes) (st_shard_len st) in
      let! payload := copy_at offset (take copy_len bytes) (st_payload st) in
      Ret (payload, st_source_count st + 1, st_repair_shards st)
    else
      let shard_data := bytes ++ replicate (st_shard_len st - length bytes) Byte.x00 in
      Ret (st_payload st, st_source_count st, st_repair_shards st ++ [(symbol_index, shard_data)]) in
  Ret (mkObj payload mask sc (st_total_count st + 1) (st_k st) (st_shard_len st) (st_object_size st)
             (st_scheme st) (st_done st) (st_expires_at_ms st) reps).

(** Treat one symbol of an object in the table: the new state, how many
    objects were recovered through repair symbols, and the object if complete. *)
Definition ingest (st : ObjState) (symbol_index : N) (scheme : Scheme) (symbol : Symbol) (now_ms : N)
    : run (ObjState * N * option (list u8)) :=
  if (st_expires_at_ms st <? now_ms)%N then Ret (tombstone st, 0%N, None)
  else if st_done st then Ret (st, 0%N, None)
  else if negb (bool_decide (st_scheme st = scheme)) then Ret (st, 0%N, None)
  else
  let! seen := is_seen (st_seen_mask st) symbol_index in
  if seen : bool then Ret (st, 0%N, None)
  else
  let! st := store_symbol st symbol_index (data symbol) in
  if st_total_count st <? st_k st then Ret (st, 0%N, None)
  else
  let size := N.to_nat (object_size symbol) in
  if st_source_count st =? st_k st then
    Ret (tombstone st, 0%N, Some (take size (st_payload st)))
  else
    let! res := reconstruct_missing_sources (st_k st) (st_shard_len st) (st_payload st)
                  (st_seen_mask st) (st_repair_shards st) (st_scheme st) in
    match res with
    | None =>
        Ret (mkObj (st_payload st) (st_seen_mask st) (st_source_count st) (st_total_count st) (st_k st)
                   (st_shard_len st) (st_object_size st) (st_scheme st) true (st_expires_at_ms st)
                   (st_repair_shards st), 1%N, None)
    | Some payload => Ret (tombstone st, 1%N, Some (take size payload))
    end.

Definition push re (object_key : N) (symbol : Symbol) (now_ms deadline_ms : N)
    : run (FecReassembler T * option (list u8)) :=
  let! g := guard re object_key symbol in
  match g with
  | None => Ret (re, None)
  | Some (symbol_index, scheme, k, sym_size, obj_size) =>
      let! ' (ord, objs, unrec) := sweep object_key now_ms (order re) (objects re) (unrecoverable_count re) in
      let fresh := fresh_object k sym_size obj_size (object_size symbol) scheme
                     (sat_add64 now_ms deadline_ms) in
      let! ' (ord, objs, unrec) := admit_object object_key fresh (max_objects re) ord objs unrec in
      let! state := store_get objs object_key in
      match state with
      | None => Ret (mkReassembler (re_symbol_size re) objs ord (max_objects re) (recovered_count re) unrec, None)
      | Some state =>
          let! ' (state, recovered, out) := ingest state symbol_index scheme symbol now_ms in
          let! objs := store_put objs object_key state in
          Ret (mkReassembler (re_symbol_size re) objs ord (max_objects re)
                 (wrap64 (recovered_count re + recovered)) unrec, out)
      end
  end.

End reassembler.
