(* ===== verification/FecEncode.v ===== *)
(** * What the encoder produces

    [build] of [crates/yip-transport/src/fec.rs] emits the symbols of one
    codeword: the object, padded to K shards of L bytes, multiplied by the
    generator, the last source shard trimmed to the bytes of the object. *)
From Stdlib Require Strings.Byte.
From Stdlib Require Import NArith Lia.
From stdpp Require Import base numbers gmap sets list.
From S2P Require Import Prelude Gf256 RsSimd LinAlg Rs RsMds RsDecode RsReconstruct ObjTable Fec.

Local Open Scope nat_scope.

(** The object filled up with zeros to [k] shards. *)
Definition padded (L k : nat) (ct : list u8) : list u8 := ct ++ replicate (k * L - length ct) Byte.x00.

Definition source_of (L k : nat) (ct : list u8) : list (list u8) :=
  map (fun i => shard L i (padded L k ct)) (seq 0 k).

(** [k] shards of [L] bytes are just enough for the object. *)
Definition dims (L k : nat) (ct : list u8) : Prop :=
  0 < k < 255 /\ 0 < L /\ (k - 1) * L < length ct <= k * L.

(** Bytes on the wire for symbol [idx]. *)
Definition wire_data (scheme : Scheme) (L k : nat) (ct : list u8) (idx : nat) : list u8 :=
  let cw := codeword scheme L (source_of L k ct) idx in
  if idx =? k - 1 then take (length ct - (k - 1) * L) cw else cw.

Definition wire_symbol (scheme : Scheme) (L k : nat) (ct : list u8) (oid : N) (idx : nat) : Symbol :=
  mkSymbol oid (N.of_nat (length ct)) (pack_payload_id (N.of_nat idx) (to_u8 scheme))
           (wire_data scheme L k ct idx).

Section source.
Context (L k : nat) (ct : list u8).
Context (Hd : dims L k ct).

Lemma length_padded : length (padded L k ct) = k * L.
Proof using Hd. destruct Hd as (_ & _ & _ & ?). unfold padded. len. Qed.

Lemma length_source_of : length (source_of L k ct) = k.
Proof using. unfold source_of. len. Qed.

Lemma source_of_lookup i : i < k -> source_of L k ct !!! i = shard L i (padded L k ct).
Proof using.
  intros Hi. unfold source_of. apply list_lookup_total_correct.
  rewrite list_lookup_fmap, lookup_seq_lt by done. done.
Qed.

Lemma source_of_shards : shards_ok L (source_of L k ct).
Proof using Hd.
  apply Forall_forall. intros s (i & -> & Hi%elem_of_seq)%elem_of_map.
  apply (length_shard L i k); [lia|]. by rewrite length_padded.
Qed.

Lemma concat_source_of : concat (source_of L k ct) = padded L k ct.
Proof using Hd.
  rewrite <- (shards_concat L (source_of L k ct) (padded L k ct)).
  - rewrite length_source_of, take_ge; [done|]. by rewrite length_padded.
  - apply source_of_shards.
  - rewrite length_source_of, length_padded. done.
  - rewrite length_source_of. intros. by rewrite source_of_lookup.
Qed.

Lemma take_padded : take (length ct) (padded L k ct) = ct.
Proof using. unfold padded. by rewrite take_app_length. Qed.

(** A source shard is the object's bytes there, zero filled. *)
Lemma shard_padded i :
  i < k ->
  shard L i (padded L k ct) =
  slice (i * L) (Nat.min (i * L + L) (length ct)) ct
    ++ replicate (L - (Nat.min (i * L + L) (length ct) - i * L)) Byte.x00.
Proof using Hd.
  intros Hi. destruct Hd as (Hk & HL & Hlo & Hhi).
  assert (Hs : i * L < length ct) by nia. assert (Hkl : i * L + L <= k * L) by nia.
  unfold shard, slice, padded. replace (i * L + L - i * L) with L by lia.
  rewrite drop_app_le by lia. rewrite take_app, length_drop.
  rewrite take_replicate. f_equal; [|f_equal; lia].
  destruct (decide (i * L + L <= length ct)).
  - f_equal. lia.
  - rewrite !take_ge; [done|len..].
Qed.
End source.

Lemma split_source_ok L k ct :
  dims L k ct -> split_source ct k L = Ret (source_of L k ct).
Proof.
  intros Hd. unfold split_source. apply rmap_ret. intros i Hi%elem_of_seq.
  pose proof Hd as (Hk & HL & Hlo & Hhi). assert (Hs : i * L < length ct) by nia.
  rewrite (proj2 (Nat.ltb_lt _ _)) by done. rewrite slice_run_ok by lia. cbn [rbind].
  rewrite shard_padded by (try done; lia).
  unfold copy_at. rewrite length_slice by lia. rewrite length_replicate.
  rewrite decide_True by lia. rewrite drop_replicate. reflexivity.
Qed.

Lemma source_count_dims ct size sym k :
  size = N.of_nat (length ct) -> k = source_count size sym -> sym <> 0%N -> 0 < k < 255 ->
  dims (Nat.min (length ct) (N.to_nat sym)) k ct /\
  (1 < k -> Nat.min (length ct) (N.to_nat sym) = N.to_nat sym) /\
  (k = 1 -> Nat.min (length ct) (N.to_nat sym) = length ct).
Proof.
  intros -> Hk Hsym Hkb. unfold source_count in Hk. rewrite Nat2N.id in Hk.
  set (s := N.to_nat sym) in *. set (n := length ct) in *. assert (Hs : 0 < s) by lia.
  rewrite (proj2 (Nat.eqb_neq _ _)) in Hk by lia.
  pose proof (Nat.div_mod (n + s - 1) s ltac:(lia)) as Hdm. rewrite <- Hk in Hdm.
  pose proof (Nat.mod_upper_bound (n + s - 1) s ltac:(lia)) as Hmod.
  assert (Hlo : (k - 1) * s < n) by nia. assert (Hhi : n <= k * s) by nia.
  assert (H1 : 1 < k -> Nat.min n s = s) by nia.
  assert (H2 : k = 1 -> Nat.min n s = n) by nia.
  split_and!; [|done..]. unfold dims. fold n.
  destruct (decide (k = 1)) as [->|]; [rewrite H2 by done|rewrite H1 by lia]; lia.
Qed.

Lemma valid_idx_source scheme k idx : 0 < k < 255 -> idx < k -> valid_idx scheme k idx.
Proof. intros. destruct scheme; cbn; lia. Qed.

(** The scheme and the number of repair symbols [build] selects. *)
Definition repair_of (k : nat) (repair : N) : nat := Nat.min (N.to_nat repair) (255 - k).
Definition scheme_of (p : FlowParams) (r : nat) : Scheme :=
  if negb (arq p) && ((r =? 1) || (r =? 2)) then Pq else Cauchy.

Lemma scheme_of_valid p k repair m :
  0 < k < 255 -> m < k + repair_of k repair -> valid_idx (scheme_of p (repair_of k repair)) k m.
Proof.
  unfold scheme_of. intros Hk Hm. assert (repair_of k repair <= 255 - k) by (unfold repair_of; lia).
  destruct (negb (arq p) && _) eqn:E; cbn; [|lia].
  apply andb_true_iff in E as [_ [?%Nat.eqb_eq|?%Nat.eqb_eq]%orb_true_iff]; lia.
Qed.

Lemma imap_map_seq {A} (f : nat -> A) first n :
  imap pair (map f (seq first n)) = map (fun i => (i - first, f i)) (seq first n).
Proof.
  apply list_eq. intros i. rewrite list_lookup_imap, !list_lookup_fmap.
  destruct (decide (i < n)).
  - rewrite lookup_seq_lt by done. cbn. do 2 f_equal. lia.
  - rewrite !lookup_ge_None_2 by len. done.
Qed.

Lemma number_symbols_ok oid size scheme first n (f : nat -> list u8) :
  first + n <= 255 ->
  number_symbols oid size scheme first (map f (seq first n))
  = Ret (map (fun idx => mkSymbol oid size (pack_payload_id (N.of_nat idx) scheme) (f idx)) (seq first n)).
Proof.
  intros Hb. unfold number_symbols. rewrite imap_map_seq.
  rewrite (rmap_ret _ (fun '(m, d) => mkSymbol oid size (pack_payload_id (N.of_nat (first + m)) scheme) d)).
  - f_equal. rewrite map_map. apply map_ext_in. intros i Hi%list_elem_of_In%elem_of_seq.
    do 3 f_equal. lia.
  - intros [m d] (i & [= -> ->] & Hi%elem_of_seq)%elem_of_map. unfold u16_try.
    rewrite (proj2 (N.ltb_lt _ _)); [done|]. unfold u16_mod. lia.
Qed.

Section build.
Context {cpu : Cpu} (ct : list u8) (p : FlowParams) (oid repair : N).
Context (k L r : nat) (scheme : Scheme).
Context (Ek : k = source_count (N.of_nat (length ct)) (symbol_size p)).
Context (EL : L = Nat.min (length ct) (N.to_nat (symbol_size p))).
Context (Er : r = repair_of k repair) (Es : scheme = scheme_of p r).
Context (Hct : (N.of_nat (length ct) < u32_mod)%N) (Hsym : symbol_size p <> 0%N) (Hk : 0 < k < 255).

Lemma build_dims : dims L k ct.
Proof. rewrite EL. by apply (source_count_dims ct (N.of_nat (length ct)) (symbol_size p) k). Qed.

(** Repair shards are the codeword from index [k] on. *)
Lemma encode_repair_source :
  encode_repair (source_of L k ct) r scheme
  = Ret (map (codeword scheme L (source_of L k ct)) (seq k r)).
Proof.
  rewrite (encode_repair_ok scheme L).
  - f_equal. rewrite length_source_of. rewrite <- (map_map (fun m => k + m)). f_equal.
    etransitivity; [apply (fmap_add_seq k 0)|]. by rewrite Nat.add_0_r.
  - intros E. apply (f_equal length) in E. rewrite length_source_of in E. cbn in E. lia.
  - apply source_of_shards, build_dims.
  - rewrite length_source_of. lia.
  - rewrite length_source_of. intros m Hm. subst scheme r. apply scheme_of_valid; lia.
Qed.

Lemma wire_repair idx : k <= idx -> wire_data scheme L k ct idx = codeword scheme L (source_of L k ct) idx.
Proof. intros Hi. unfold wire_data. by rewrite (proj2 (Nat.eqb_neq _ _)) by lia. Qed.

Lemma wire_source idx :
  idx < k ->
  wire_data scheme L k ct idx
  = if idx =? k - 1 then take (length ct - (k - 1) * L) (source_of L k ct !!! idx)
    else source_of L k ct !!! idx.
Proof.
  intros Hi. unfold wire_data. rewrite codeword_source; [done| |by rewrite length_source_of].
  apply source_of_shards, build_dims.
Qed.

Lemma repair_symbols :
  (if 0 <? r then
     let! reps := encode_repair (source_of L k ct) r scheme in
     let! rs := number_symbols oid (N.of_nat (length ct)) (to_u8 scheme) k reps in
     Ret (map (wire_symbol scheme L k ct oid) (seq 0 k) ++ rs)
   else Ret (map (wire_symbol scheme L k ct oid) (seq 0 k)))
  = Ret (map (wire_symbol scheme L k ct oid) (seq 0 (k + r))).
Proof.
  rewrite seq_app, map_app. destruct (Nat.ltb_spec 0 r) as [Hr|Hr].
  - rewrite encode_repair_source. cbn [rbind]. rewrite number_symbols_ok by (subst r; unfold repair_of; lia).
    cbn [rbind]. do 2 f_equal. apply map_ext_in. intros i Hi%list_elem_of_In%elem_of_seq.
    unfold wire_symbol. rewrite wire_repair by lia. done.
  - replace r with 0 by lia. cbn. by rewrite app_nil_r.
Qed.

Lemma build_ok : build ct p oid repair = Ret (map (wire_symbol scheme L k ct oid) (seq 0 (k + r))).
Proof.
  pose proof build_dims as Hd. unfold build.
  rewrite (proj2 (N.ltb_lt _ _)) by done. cbn [negb].
  rewrite (proj2 (Nat.eqb_neq (N.to_nat (symbol_size p)) 0)) by lia. rewrite <- Ek.
  rewrite (proj2 (Nat.eqb_neq k 0)) by lia. rewrite (proj2 (Nat.leb_gt 255 k)) by lia. cbn [orb].
  fold (repair_of k repair). rewrite <- Er. fold (scheme_of p r). rewrite <- Es.
  destruct (source_count_dims ct _ (symbol_size p) k eq_refl Ek Hsym Hk) as (_ & Hmany & Hone).
  rewrite <- EL in Hmany, Hone. rewrite <- repair_symbols. destruct (Nat.eqb_spec k 1) as [H1|H1].
  - assert (Hsrc : [ct] = source_of L k ct).
    { rewrite H1, Hone by done. unfold source_of, padded, shard, slice. cbn. rewrite !Nat.add_0_r, !Nat.sub_diag.
      rewrite Nat.sub_0_r. cbn. rewrite app_nil_r, take_ge; [done|]. rewrite drop_0. done. }
    assert (Hout : [mkSymbol oid (N.of_nat (length ct)) (pack_payload_id 0 (to_u8 scheme)) ct]
                   = map (wire_symbol scheme L k ct oid) (seq 0 k)).
    { rewrite H1 at 2. cbn. f_equal. unfold wire_symbol. f_equal. rewrite wire_source by lia.
      rewrite <- Hsrc, H1. cbn. rewrite Nat.sub_0_r. by rewrite take_ge. }
    rewrite Hout, Hsrc. by rewrite H1.
  - assert (HL : N.to_nat (symbol_size p) = L) by (symmetry; apply Hmany; lia).
    rewrite HL. rewrite split_source_ok by done. cbn [rbind].
    unfold source_of at 1. rewrite imap_map_seq.
    rewrite (rmap_ret _ (fun '(i, s) => if i =? k - 1 then take (length ct - (k - 1) * L) s else s)).
    + cbn [rbind]. rewrite map_map.
      rewrite (map_ext_in _ (wire_data scheme L k ct)).
      * rewrite number_symbols_ok by lia. done.
      * intros i Hi%list_elem_of_In%elem_of_seq. rewrite Nat.sub_0_r, wire_source by lia.
        by rewrite source_of_lookup by lia.
    + intros [i s] (j & [= -> ->] & Hj%elem_of_seq)%elem_of_map. rewrite Nat.sub_0_r.
      destruct (Nat.eqb_spec j (k - 1)); [|done].
      destruct Hd as (_ & _ & Hlo & Hhi).
      rewrite slice_run_ok; [unfold slice; by rewrite Nat.sub_0_r, drop_0|].
      rewrite (length_shard L j k) by (try rewrite length_padded; lia || apply build_dims). nia.
Qed.
End build.

(** The source symbols, in order, are the object. *)
Lemma wire_sources_concat scheme L k ct :
  dims L k ct -> concat (map (wire_data scheme L k ct) (seq 0 k)) = ct.
Proof.
  intros Hd. pose proof Hd as (Hk & HL & Hlo & Hhi).
  assert (Hw : forall i, i < k -> codeword scheme L (source_of L k ct) i = source_of L k ct !!! i).
  { intros i Hi. apply codeword_source; [by apply source_of_shards|by rewrite length_source_of]. }
  destruct k as [|n]; [lia|]. rewrite seq_S, map_app, concat_app. cbn [map concat Nat.add].
  rewrite app_nil_r. unfold wire_data at 2. replace (S n - 1) with n by lia. rewrite Nat.eqb_refl, Hw by lia.
  pose proof (concat_source_of L (S n) ct Hd) as Hcat. unfold source_of at 1 in Hcat.
  rewrite seq_S, map_app, concat_app in Hcat. cbn [map concat Nat.add] in Hcat. rewrite app_nil_r in Hcat.
  assert (Hfront : map (wire_data scheme L (S n) ct) (seq 0 n)
                   = map (fun i => shard L i (padded L (S n) ct)) (seq 0 n)).
  { apply map_ext_in. intros i Hi%list_elem_of_In%elem_of_seq. unfold wire_data.
    rewrite (proj2 (Nat.eqb_neq _ _)), Hw by lia. by rewrite source_of_lookup by lia. }
  rewrite Hfront, source_of_lookup by lia.
  assert (Hlen : length (concat (map (fun i => shard L i (padded L (S n) ct)) (seq 0 n))) = n * L).
  { rewrite (length_concat_shards L), length_map, length_seq; [done|]. apply Forall_forall.
    intros s (i & -> & Hi%elem_of_seq)%elem_of_map. apply (length_shard L i (S n)); [lia|].
    by rewrite length_padded. }
  pose proof (take_padded L (S n) ct) as Ht. rewrite <- Hcat, take_app, Hlen in Ht.
  etransitivity; [|exact Ht]. f_equal. symmetry. apply take_ge. lia.
Qed.

(** Encoding never panics on objects of less than 4 GiB. *)
Lemma build_total {cpu : Cpu} ct p oid repair :
  (N.of_nat (length ct) < u32_mod)%N -> exists syms, build ct p oid repair = Ret syms.
Proof.
  intros Hct. destruct (decide (symbol_size p = 0%N)) as [Hs|Hs].
  { exists []. unfold build. rewrite (proj2 (N.ltb_lt _ _)) by done. cbn [negb]. by rewrite Hs. }
  set (k := source_count (N.of_nat (length ct)) (symbol_size p)).
  destruct (decide (0 < k < 255)) as [Hk|Hk].
  - eexists. by apply (build_ok ct p oid repair k _ _ _ eq_refl eq_refl eq_refl eq_refl).
  - exists []. unfold build. rewrite (proj2 (N.ltb_lt _ _)) by done. cbn [negb]. fold k.
    rewrite (proj2 (Nat.eqb_neq (N.to_nat (symbol_size p)) 0)) by lia.
    destruct (Nat.eqb_spec k 0); [done|]. by rewrite (proj2 (Nat.leb_le 255 k)) by lia.
Qed.

(** An object the codec can carry. *)
Definition codable (ct : list u8) (p : FlowParams) : Prop :=
  0 < length ct /\ (N.of_nat (length ct) <= MAX_OBJECT_SIZE)%N /\ symbol_size p <> 0%N /\
  source_count (N.of_nat (length ct)) (symbol_size p) < 255.

Lemma codable_k ct p : codable ct p -> 0 < source_count (N.of_nat (length ct)) (symbol_size p) < 255.
Proof.
  intros (Hpos & _ & Hs & Hk). split; [|done]. unfold source_count.
  rewrite (proj2 (Nat.eqb_neq _ _)) by lia. apply Nat.div_str_pos. lia.
Qed.

Lemma build_codable {cpu : Cpu} ct p oid repair :
  codable ct p ->
  let k := source_count (N.of_nat (length ct)) (symbol_size p) in
  let L := Nat.min (length ct) (N.to_nat (symbol_size p)) in
  let r := repair_of k repair in
  dims L k ct /\
  build ct p oid repair = Ret (map (wire_symbol (scheme_of p r) L k ct oid) (seq 0 (k + r))).
Proof.
  intros Hc k L r. pose proof (codable_k ct p Hc) as Hk. destruct Hc as (Hpos & Hmax & Hsym & _).
  unfold MAX_OBJECT_SIZE in Hmax. split.
  - by apply (source_count_dims ct (N.of_nat (length ct)) (symbol_size p) k).
  - apply build_ok; try done. unfold u32_mod. lia.
Qed.

(** The encoder is systematic.  Encoding an object emits its K source
    symbols followed by min(repair, 255 - K) repair symbols under one object
    id; the bytes of the source symbols, in order, are the object itself; the
    next object gets the id advanced by the stride, modulo 2^16. *)
Theorem encode_systematic {cpu : Cpu} (e : FecEncoder) ct p repair :
  codable ct p ->
  let k := source_count (N.of_nat (length ct)) (symbol_size p) in
  exists syms, encode e ct p repair
      = Ret (syms, mkEncoder (wrap16 (next_object_id e + stride e)) (stride e)
                     (sat_add64 (symbols_encoded e) (N.of_nat (length syms)))) /\
    length syms = k + Nat.min (N.to_nat repair) (255 - k) /\
    concat (map data (take k syms)) = ct /\
    Forall (fun s => object_id s = next_object_id e /\ object_size s = N.of_nat (length ct)) syms.
Proof.
  intros Hc k. destruct (build_codable ct p (next_object_id e) repair Hc) as [Hd Hb].
  fold k in Hd, Hb. unfold encode. rewrite Hb. cbn [rbind]. eexists. split_and!; [reflexivity| | |].
  - by rewrite length_map, length_seq.
  - rewrite firstn_map, map_map. cbn [data wire_symbol].
    rewrite seq_app, take_app_length' by (by rewrite length_seq). by apply wire_sources_concat.
  - apply Forall_forall. intros s (i & -> & _)%elem_of_map. done.
Qed.
