(* ===== verification/FecWf.v ===== *)
(** * The reassembler's invariant

    What [push] of [crates/yip-transport/src/fec.rs] keeps true of its objects
    and its queue whatever symbols arrive, and that it never panics. *)
From Stdlib Require Strings.Byte.
From Stdlib Require Import NArith Lia.
From stdpp Require Import base numbers gmap sets list.
From S2P Require Import Prelude Gf256 RsSimd LinAlg Rs RsMds RsDecode RsReconstruct.
From S2P Require Import ObjTable Fec FecEncode.

Local Open Scope nat_scope.

(** ** The mask of seen symbols *)

Lemma is_seen_ok mask idx :
  length mask = 4 -> N.to_nat idx < 256 -> is_seen mask idx = Ret (mask_has mask (N.to_nat idx)).
Proof.
  intros Hm Hi. unfold is_seen. rewrite (proj2 (Nat.leb_gt _ _)) by done. by apply mask_bit_ok.
Qed.

Lemma mask_has_zero u : u < 256 -> mask_has [0%N; 0%N; 0%N; 0%N] u = false.
Proof.
  intros Hu. unfold mask_has.
  assert (Hd : u / 64 < 4) by (apply Nat.Div0.div_lt_upper_bound; lia).
  destruct (u / 64) as [|[|[|[|]]]]; [reflexivity..|lia].
Qed.

Lemma lor_bit_testbit w i j :
  N.testbit (N.lor w (N.shiftl 1 i)) j = N.testbit w j || (j =? i)%N.
Proof.
  rewrite N.lor_spec, N.shiftl_1_l. f_equal. destruct (N.eqb_spec j i) as [->|].
  - apply N.pow2_bits_true.
  - apply N.pow2_bits_false. congruence.
Qed.

Lemma mark_seen_ok mask idx :
  length mask = 4 -> N.to_nat idx < 256 ->
  exists mask', mark_seen mask idx = Ret mask' /\ length mask' = 4 /\
    forall u, u < 256 -> mask_has mask' u = mask_has mask u || (u =? N.to_nat idx).
Proof.
  intros Hm Hi. unfold mark_seen. rewrite (proj2 (Nat.ltb_lt _ _)) by done.
  set (v := N.to_nat idx) in *.
  assert (Hd : forall u, u < 256 -> u / 64 < 4) by (intros; apply Nat.Div0.div_lt_upper_bound; lia).
  rewrite list_lookup_lookup_total_lt by (rewrite Hm; auto). cbn [rexpect rbind].
  eexists. split_and!; [done|by rewrite length_insert|]. intros u Hu. unfold mask_has.
  destruct (decide (u / 64 = v / 64)) as [E|E].
  - rewrite E, list_lookup_total_insert_eq by (rewrite Hm; auto). rewrite lor_bit_testbit. f_equal.
    destruct (Nat.eqb_spec u v) as [->|Hne]; [apply N.eqb_refl|].
    apply N.eqb_neq. intros H. apply Hne. rewrite (Nat.div_mod_eq u 64), (Nat.div_mod_eq v 64). lia.
  - rewrite list_lookup_total_insert_ne by done.
    rewrite (proj2 (Nat.eqb_neq u v)) by congruence. by rewrite orb_false_r.
Qed.

Lemma filter_ext_on (f g : nat -> bool) (l : list nat) :
  (forall u, u ∈ l -> g u = f u) -> filter (fun u => g u = true) l = filter (fun u => f u = true) l.
Proof.
  induction l as [|y l IH]; intros H; [done|]. rewrite !filter_cons, IH by (intros; apply H; by right).
  rewrite (H y) by left. done.
Qed.

Lemma length_filter_add (f g : nat -> bool) x (l : list nat) :
  NoDup l -> x ∈ l -> f x = false -> (forall u, u ∈ l -> g u = f u || (u =? x)) ->
  length (filter (fun u => g u = true) l) = S (length (filter (fun u => f u = true) l)).
Proof.
  induction l as [|y l IH]; intros Hn Hx Hf Hg; [by apply not_elem_of_nil in Hx|].
  apply NoDup_cons in Hn as [Hy Hn]. rewrite !filter_cons.
  pose proof (Hg y ltac:(left)) as Hgy. assert (Hg' : forall u, u ∈ l -> g u = f u || (u =? x)) by
    (intros; apply Hg; by right).
  destruct (Nat.eqb_spec y x) as [->|Hyx].
  - rewrite Hf in Hgy. cbn in Hgy. rewrite decide_True by done. rewrite decide_False by (by rewrite Hf).
    cbn. do 2 f_equal. apply filter_ext_on. intros u Hu. rewrite (Hg' u Hu).
    rewrite (proj2 (Nat.eqb_neq u x)) by congruence. by rewrite orb_false_r.
  - rewrite orb_false_r in Hgy. apply elem_of_cons in Hx as [?|Hx]; [congruence|].
    specialize (IH Hn Hx Hf Hg'). destruct (f y) eqn:Efy.
    + rewrite !decide_True by done. cbn. by rewrite IH.
    + rewrite !decide_False by congruence. done.
Qed.

Lemma present_mark mask mask' k idx :
  k <= 256 -> (forall u, u < 256 -> mask_has mask' u = mask_has mask u || (u =? idx)) ->
  mask_has mask idx = false ->
  length (present mask' k) = (if idx <? k then 1 else 0) + length (present mask k).
Proof.
  intros Hk Hm Hidx. unfold present. destruct (Nat.ltb_spec idx k).
  - apply length_filter_add with idx; [apply NoDup_seq|apply elem_of_seq; lia|done|].
    intros u Hu%elem_of_seq. apply Hm. lia.
  - cbn. f_equal. apply filter_ext_on. intros u Hu%elem_of_seq.
    rewrite Hm by lia. rewrite (proj2 (Nat.eqb_neq u idx)) by lia. by rewrite orb_false_r.
Qed.

(** ** One object *)

(** Length on the wire of symbol [idx]. *)
Definition wire_len (k L size idx : nat) : nat := if idx =? k - 1 then size - (k - 1) * L else L.

Abbreviation rep_idx := (fun e : N * list u8 => N.to_nat e.1).

(** The counters, the mask and the stored shards agree. *)
Record obj_content (st : ObjState) : Prop := {
  ol_payload : length (st_payload st) = st_k st * st_shard_len st;
  ol_source : st_source_count st = length (present (st_seen_mask st) (st_k st));
  ol_total : st_total_count st = st_source_count st + length (st_repair_shards st);
  ol_reps : forall e, e ∈ st_repair_shards st ->
    st_k st <= rep_idx e < 255 /\ valid_idx (st_scheme st) (st_k st) (rep_idx e) /\
    length e.2 = st_shard_len st /\ mask_has (st_seen_mask st) (rep_idx e) = true;
  ol_nodup : NoDup (map rep_idx (st_repair_shards st));
  ol_cover : forall u, u < 256 -> mask_has (st_seen_mask st) u = true ->
    u < st_k st \/ u ∈ map rep_idx (st_repair_shards st);
}.

Record obj_wf (st : ObjState) : Prop := {
  ow_k : 0 < st_k st < 255;
  ow_L : 0 < st_shard_len st <= N.to_nat (st_object_size st);
  ow_size : (st_k st - 1) * st_shard_len st < N.to_nat (st_object_size st)
            <= st_k st * st_shard_len st;
  ow_max : (st_object_size st <= MAX_OBJECT_SIZE)%N;
  ow_mask : length (st_seen_mask st) = 4;
  ow_live : st_done st = false -> obj_content st /\ st_total_count st < st_k st;
}.

(** A symbol the guards let through for this object. *)
Definition symbol_ok (st : ObjState) (idx : N) (scheme : Scheme) (bytes : list u8) : Prop :=
  N.to_nat idx < 255 /\ valid_idx scheme (st_k st) (N.to_nat idx) /\
  length bytes = wire_len (st_k st) (st_shard_len st) (N.to_nat (st_object_size st)) (N.to_nat idx).

(** [st'] is [st] with symbol [idx] added. *)
Record stored (st : ObjState) (idx : N) (bytes : list u8) (st' : ObjState) : Prop := {
  sd_dims : st_k st' = st_k st /\ st_shard_len st' = st_shard_len st /\
    st_object_size st' = st_object_size st /\ st_scheme st' = st_scheme st /\
    st_done st' = st_done st /\ st_expires_at_ms st' = st_expires_at_ms st;
  sd_mask_len : length (st_seen_mask st') = 4;
  sd_mask : forall u, u < 256 ->
    mask_has (st_seen_mask st') u = mask_has (st_seen_mask st) u || (u =? N.to_nat idx);
  sd_total : st_total_count st' = st_total_count st + 1;
  sd_data : if N.to_nat idx <? st_k st
    then copy_at (N.to_nat idx * st_shard_len st) bytes (st_payload st) = Ret (st_payload st') /\
         st_repair_shards st' = st_repair_shards st /\ st_source_count st' = st_source_count st + 1
    else st_payload st' = st_payload st /\
         st_repair_shards st' = st_repair_shards st ++ [(idx, bytes)] /\
         st_source_count st' = st_source_count st;
}.

Lemma wire_len_le st idx :
  obj_wf st ->
  wire_len (st_k st) (st_shard_len st) (N.to_nat (st_object_size st)) idx <= st_shard_len st.
Proof. intros []. unfold wire_len. case_match; nia. Qed.

Lemma store_symbol_ok st idx scheme bytes :
  obj_wf st -> obj_content st -> symbol_ok st idx scheme bytes ->
  exists st', store_symbol st idx bytes = Ret st' /\ stored st idx bytes st'.
Proof.
  intros Hwf Hc (Hi & Hv & Hl). unfold store_symbol.
  pose proof (wire_len_le st (N.to_nat idx) Hwf) as Hle. rewrite <- Hl in Hle.
  destruct (mark_seen_ok (st_seen_mask st) idx (ow_mask _ Hwf) ltac:(lia)) as (m & -> & Hml & Hm).
  cbn [rbind]. destruct (Nat.ltb_spec (N.to_nat idx) (st_k st)) as [Hlt|Hge].
  - rewrite Nat.min_l by lia. rewrite take_ge by done.
    rewrite copy_at_ok by (rewrite (ol_payload _ Hc); nia). cbn [rbind]. eexists. split; [done|].
    split; cbn -[Nat.ltb]; try done. rewrite (proj2 (Nat.ltb_lt _ _)) by done. split_and!; [|done..].
    apply copy_at_ok. rewrite (ol_payload _ Hc). nia.
  - unfold wire_len in Hl. rewrite (proj2 (Nat.eqb_neq _ _)) in Hl by (pose proof (ow_k _ Hwf); lia).
    rewrite Hl, Nat.sub_diag. cbn. rewrite app_nil_r. eexists. split; [done|].
    split; cbn -[Nat.ltb]; try done. by rewrite (proj2 (Nat.ltb_ge _ _)).
Qed.

Lemma stored_content st idx scheme bytes st' :
  obj_wf st -> obj_content st -> symbol_ok st idx scheme bytes -> st_scheme st = scheme ->
  mask_has (st_seen_mask st) (N.to_nat idx) = false -> stored st idx bytes st' -> obj_content st'.
Proof.
  intros Hwf Hc (Hi & Hv & Hl) <- Hun [(Ek & EL & Esz & Esc & _) Hml Hm Htot Hdata].
  pose proof (present_mark (st_seen_mask st) (st_seen_mask st') (st_k st) (N.to_nat idx)
                ltac:(pose proof (ow_k _ Hwf); lia) Hm Hun) as Hpres.
  assert (Hgrow : forall u, u < 255 -> mask_has (st_seen_mask st) u = true -> mask_has (st_seen_mask st') u = true).
  { intros u Hu E. rewrite Hm by lia. by rewrite E. }
  destruct (Nat.ltb_spec (N.to_nat idx) (st_k st)) as [Hlt|Hge].
  - destruct Hdata as (Hcopy & Er & Es). split; rewrite ?Ek, ?EL, ?Esc, ?Er.
    + by rewrite (copy_at_length _ _ _ _ Hcopy), (ol_payload _ Hc).
    + rewrite Es, (ol_source _ Hc), Hpres. lia.
    + rewrite Htot, (ol_total _ Hc), Es. lia.
    + intros e He. destruct (ol_reps _ Hc e He) as (? & ? & ? & ?). split_and!; try done; try lia.
      apply Hgrow; [lia|done].
    + apply (ol_nodup _ Hc).
    + intros u Hu. rewrite Hm by done. intros [Hs|Hs%Nat.eqb_eq]%orb_true_iff.
      * by apply (ol_cover _ Hc).
      * left. by rewrite Hs.
  - destruct Hdata as (Ep & Er & Es). split; rewrite ?Ek, ?EL, ?Esc, ?Er.
    + by rewrite Ep, (ol_payload _ Hc).
    + rewrite Es, (ol_source _ Hc), Hpres. done.
    + rewrite Htot, (ol_total _ Hc), Es. len.
    + intros e [He|He]%elem_of_app.
      * destruct (ol_reps _ Hc e He) as (? & ? & ? & ?). split_and!; try done; try lia.
        apply Hgrow; [lia|done].
      * apply list_elem_of_singleton in He as ->. cbn. split_and!; try done.
        { unfold wire_len in Hl. rewrite (proj2 (Nat.eqb_neq _ _)) in Hl by (pose proof (ow_k _ Hwf); lia).
          done. }
        rewrite Hm by lia. rewrite Nat.eqb_refl. apply orb_true_r.
    + rewrite map_app. apply NoDup_app. split_and!; [apply (ol_nodup _ Hc)| |apply NoDup_singleton].
      intros u (e & -> & He)%elem_of_map Hu%list_elem_of_singleton. cbn in Hu.
      destruct (ol_reps _ Hc e He) as (_ & _ & _ & Hseen). cbn in Hseen. rewrite Hu in Hseen. congruence.
    + intros u Hu. rewrite Hm by done. rewrite map_app, elem_of_app.
      intros [Hs|Hs%Nat.eqb_eq]%orb_true_iff; [|right; right; rewrite Hs; left].
      destruct (ol_cover _ Hc u Hu Hs); [by left|by right; left].
Qed.

Lemma usable_all L reps : (forall e, e ∈ reps -> length e.2 = L) -> usable_repairs L reps = reps.
Proof.
  induction reps as [|e reps IH]; intros H; [done|]. unfold usable_repairs. rewrite filter_cons.
  rewrite decide_True by (apply H; left). f_equal. apply IH. intros; apply H. by right.
Qed.

Lemma obj_usable st : obj_content st -> usable_repairs (st_shard_len st) (st_repair_shards st) = st_repair_shards st.
Proof. intros Hc. apply usable_all. intros e He. by apply (ol_reps _ Hc). Qed.

Lemma obj_partial_wf st source :
  obj_content st -> length source = st_k st -> length (st_seen_mask st) = 4 ->
  partial_wf (st_scheme st) (st_shard_len st) source (st_seen_mask st) (st_repair_shards st) (st_payload st).
Proof.
  intros Hc Hs Hm. split; rewrite ?Hs, ?obj_usable by done; try done.
  - rewrite (ol_payload _ Hc). done.
  - apply (ol_nodup _ Hc).
  - intros e He. destruct (ol_reps _ Hc e He) as (? & ? & _). split; [lia|done].
Qed.

Lemma obj_fit st : obj_wf st -> (N.of_nat (st_k st) * N.of_nat (st_shard_len st) < u64_mod)%N.
Proof.
  intros [Hk HL _ Hmax _ _]. unfold MAX_OBJECT_SIZE in Hmax.
  apply N.le_lt_trans with (254 * 262144)%N; [apply N.mul_le_mono; lia|done].
Qed.

(** Every branch of [ingest]. *)
Inductive ingested {cpu : Cpu} (st : ObjState) (idx : N) (scheme : Scheme) (symbol : Symbol) (now : N) : Prop :=
| ing_expired :
    (st_expires_at_ms st < now)%N ->
    ingest st idx scheme symbol now = Ret (tombstone st, 0%N, None) -> ingested st idx scheme symbol now
| ing_ignored :
    (now <= st_expires_at_ms st)%N ->
    st_done st = true \/ st_scheme st <> scheme \/ mask_has (st_seen_mask st) (N.to_nat idx) = true ->
    ingest st idx scheme symbol now = Ret (st, 0%N, None) -> ingested st idx scheme symbol now
| ing_stored st' :
    (now <= st_expires_at_ms st)%N -> st_done st = false -> st_scheme st = scheme ->
    mask_has (st_seen_mask st) (N.to_nat idx) = false ->
    stored st idx (data symbol) st' -> obj_content st' -> st_total_count st' < st_k st' ->
    ingest st idx scheme symbol now = Ret (st', 0%N, None) -> ingested st idx scheme symbol now
| ing_complete st' r p :
    (now <= st_expires_at_ms st)%N -> st_done st = false -> st_scheme st = scheme ->
    mask_has (st_seen_mask st) (N.to_nat idx) = false ->
    stored st idx (data symbol) st' -> obj_content st' -> st_total_count st' = st_k st' ->
    ingest st idx scheme symbol now
      = Ret (tombstone st', r, Some (take (N.to_nat (object_size symbol)) p)) ->
    length p = st_k st * st_shard_len st ->
    (st_source_count st' = st_k st' /\ p = st_payload st') \/
    reconstruct_missing_sources (st_k st') (st_shard_len st') (st_payload st') (st_seen_mask st')
      (st_repair_shards st') (st_scheme st') = Ret (Some p) ->
    ingested st idx scheme symbol now.

Lemma stored_wf_live st idx bytes st' :
  obj_wf st -> obj_content st' -> stored st idx bytes st' ->
  (st_done st' = false -> st_total_count st' < st_k st') -> obj_wf st'.
Proof.
  intros [] Hc [(Ek & EL & Esz & _) Hml _ _ _] Hlive.
  split; rewrite ?Ek, ?EL, ?Esz in *; try done. auto.
Qed.

Lemma tombstone_wf st : obj_wf st -> obj_wf (tombstone st).
Proof. intros []. by split. Qed.

Lemma ingest_cases {cpu : Cpu} st idx scheme symbol now :
  obj_wf st -> symbol_ok st idx scheme (data symbol) -> ingested st idx scheme symbol now.
Proof.
  intros Hwf Hsym. pose proof Hsym as (Hi & _ & _).
  destruct (N.ltb_spec (st_expires_at_ms st) now) as [Hexp|Hexp].
  { apply ing_expired; [done|]. unfold ingest. by rewrite (proj2 (N.ltb_lt _ _)). }
  assert (Ept : (st_expires_at_ms st <? now)%N = false) by (by apply N.ltb_ge).
  destruct (st_done st) eqn:Edone.
  { apply ing_ignored; [done|by left|]. unfold ingest. by rewrite Ept, Edone. }
  destruct (decide (st_scheme st = scheme)) as [Hsch|Hsch].
  2: { apply ing_ignored; [done|by right; left|]. unfold ingest. rewrite Ept, Edone.
       by rewrite bool_decide_false. }
  pose proof (is_seen_ok (st_seen_mask st) idx (ow_mask _ Hwf) ltac:(lia)) as Hseen.
  destruct (mask_has (st_seen_mask st) (N.to_nat idx)) eqn:Emask.
  { apply ing_ignored; [done|by right; right|]. unfold ingest. rewrite Ept, Edone, bool_decide_true by done.
    cbn [negb]. by rewrite Hseen. }
  destruct (ow_live _ Hwf Edone) as [Hc Hlt].
  destruct (store_symbol_ok st idx scheme (data symbol) Hwf Hc Hsym) as (st' & Hst & Hstored).
  pose proof (stored_content st idx scheme (data symbol) st' Hwf Hc Hsym Hsch Emask Hstored) as Hc'.
  assert (Hrun : ingest st idx scheme symbol now =
    if st_total_count st' <? st_k st' then Ret (st', 0%N, None)
    else if st_source_count st' =? st_k st'
      then Ret (tombstone st', 0%N, Some (take (N.to_nat (object_size symbol)) (st_payload st')))
      else let! res := reconstruct_missing_sources (st_k st') (st_shard_len st') (st_payload st')
                         (st_seen_mask st') (st_repair_shards st') (st_scheme st') in
           match res with
           | None => Ret (mkObj (st_payload st') (st_seen_mask st') (st_source_count st')
                     (st_total_count st') (st_k st') (st_shard_len st') (st_object_size st')
                     (st_scheme st') true (st_expires_at_ms st') (st_repair_shards st'), 1%N, None)
           | Some payload => Ret (tombstone st', 1%N, Some (take (N.to_nat (object_size symbol)) payload))
           end).
  { unfold ingest. rewrite Ept, Edone, bool_decide_true by done. cbn [negb]. rewrite Hseen. cbn [rbind].
    rewrite Hst. done. }
  pose proof Hstored as [(Ek & EL & Esz & Esc & _) Hml _ Htot _].
  destruct (Nat.ltb_spec (st_total_count st') (st_k st')) as [Hmore|Hfull].
  { by apply (ing_stored _ _ _ _ _ st'). }
  pose proof (ol_payload _ Hc') as Hpl. rewrite Ek, EL in Hpl.
  destruct (Nat.eqb_spec (st_source_count st') (st_k st')) as [Hall|Hsome].
  { apply (ing_complete _ _ _ _ _ st' 0%N (st_payload st')); try done; [lia|by left]. }
  set (zeros := replicate (st_k st') (@nil u8)).
  assert (Hz : length zeros = st_k st') by (unfold zeros; len).
  destruct (reconstruct_total (st_scheme st') (st_shard_len st') zeros) with
    (mask := st_seen_mask st') (reps := st_repair_shards st') (payload := st_payload st')
    as (p & Hp & Hplen).
  - rewrite Hz, Ek. apply (ow_k _ Hwf).
  - rewrite Hz, Ek, EL. by apply obj_fit.
  - by apply obj_partial_wf.
  - rewrite Hz, obj_usable, <- (ol_source _ Hc'), <- (ol_total _ Hc') by done. done.
  - rewrite Hz in Hp. rewrite Hp in Hrun. cbn [rbind] in Hrun.
    apply (ing_complete _ _ _ _ _ st' 1%N p); try done; [lia|congruence|by right].
Qed.

Lemma ingest_ok {cpu : Cpu} st idx scheme symbol now :
  obj_wf st -> symbol_ok st idx scheme (data symbol) -> object_size symbol = st_object_size st ->
  exists st' r out, ingest st idx scheme symbol now = Ret (st', r, out) /\ obj_wf st' /\
    (forall o, out = Some o -> length o = N.to_nat (object_size symbol)).
Proof.
  intros Hwf Hsym Hsz.
  destruct (ingest_cases st idx scheme symbol now Hwf Hsym)
    as [Hexp E|Hexp _ E|st' _ Hd _ _ Hs Hc Ht E|st' r p _ Hd _ _ Hs Hc Ht E Hp _]; rewrite E;
    do 3 eexists; (split; [reflexivity|]).
  - split; [by apply tombstone_wf|done].
  - done.
  - split; [by eapply stored_wf_live|done].
  - split.
    + pose proof (sd_dims _ _ _ _ Hs) as (Ek & EL & Esz & _). destruct Hwf.
      split; cbn; rewrite ?Ek, ?EL, ?Esz; try done. apply Hs.
    + intros o [= <-]. rewrite length_take, Hp, Hsz. destruct (ow_size _ Hwf). lia.
Qed.

(** ** The queue and the table *)

Lemma source_count_fresh size sym k scheme expires :
  (0 < size)%N -> (size <= MAX_OBJECT_SIZE)%N -> sym <> 0%N -> k = source_count size sym -> 0 < k < 255 ->
  let st := fresh_object k (N.to_nat sym) (N.to_nat size) size scheme expires in
  obj_wf st /\ obj_content st /\
  (forall idx, wire_len k (st_shard_len st) (N.to_nat size) idx =
     if idx =? k - 1 then N.to_nat size - (k - 1) * N.to_nat sym else Nat.min (N.to_nat size) (N.to_nat sym)).
Proof.
  intros Hpos Hmax Hsym Hk Hkb st.
  destruct (source_count_dims (replicate (N.to_nat size) Byte.x00) size sym k) as (Hd & Hmany & Hone);
    rewrite ?length_replicate, ?N2Nat.id; try done.
  unfold dims in Hd. rewrite length_replicate in *.
  destruct Hd as (_ & HL & Hlo & Hhi). set (L := Nat.min (N.to_nat size) (N.to_nat sym)) in *.
  assert (Hfit : checked_mul k L = Some (k * L)).
  { apply checked_mul_ok. unfold MAX_OBJECT_SIZE in Hmax.
    apply N.le_lt_trans with (254 * 262144)%N; [apply N.mul_le_mono; lia|done]. }
  assert (Hpl : st_payload st = replicate (k * L) Byte.x00).
  { unfold st, fresh_object. cbn [st_payload]. fold L. by rewrite Hfit. }
  assert (Hpres : present [0%N; 0%N; 0%N; 0%N] k = []).
  { unfold present. rewrite (filter_ext_on (fun _ => false)).
    - induction (seq 0 k) as [|x l IH]; [done|]. rewrite filter_cons, decide_False by done. done.
    - intros u Hu%elem_of_seq. apply mask_has_zero. lia. }
  assert (Hc : obj_content st).
  { split; cbn [st st_k st_shard_len st_seen_mask st_source_count st_total_count st_repair_shards fresh_object];
      rewrite ?Hpl, ?Hpres; try done.
    - len.
    - intros e He. by apply not_elem_of_nil in He.
    - constructor.
    - intros u Hu. rewrite mask_has_zero by done. done. }
  split_and!; [|done|].
  - split; cbn; fold L; try done; try lia. intros _. split; [done|lia].
  - intros idx. unfold wire_len. cbn. fold L. case_match; [|done].
    destruct (decide (k = 1)) as [->|]; [lia|]. rewrite Hmany by lia. done.
Qed.

Section reassembler_wf.
Context {cpu : Cpu} {T : Type} {store : Store T ObjState} {laws : StoreLaws T ObjState}.
Implicit Types (re : FecReassembler T) (objs : T).

Record queue_wf (max : nat) (ord : list N) objs : Prop := {
  qw_store : store_wf objs;
  qw_cap : 1 <= max <= store_cap objs;
  qw_nodup : NoDup ord;
  qw_order : forall k, k ∈ ord <-> is_Some (store_map objs !! k);
  qw_len : length ord <= max;
  qw_objs : forall k st, store_map objs !! k = Some st -> obj_wf st;
}.

Definition re_wf re : Prop := queue_wf (max_objects re) (order re) (objects re).

Lemma queue_size max ord objs : queue_wf max ord objs -> size (store_map objs) = length ord.
Proof.
  intros []. rewrite <- size_dom. rewrite <- (size_list_to_set (C := gset N) ord) by done. f_equal.
  apply set_eq. intros k. rewrite elem_of_dom, elem_of_list_to_set. by rewrite qw_order0.
Qed.

Lemma reassembler_new_wf sym max : re_wf (reassembler_new sym max).
Proof.
  destruct (store_new_ok (Nat.max max 1)) as (Hwf & Hm & Hc).
  split; cbn; try done; try lia.
  - constructor.
  - intros k. rewrite Hm, lookup_empty. split; [intros H; by apply not_elem_of_nil in H|intros [? ?]; done].
  - intros k st. by rewrite Hm, lookup_empty.
Qed.

Lemma guard_ok re key symbol now deadline :
  re_wf re ->
  exists g, guard re key symbol = Ret g /\
  match g with
  | None => True
  | Some (idx, scheme, k, sym, size) =>
      let st := match store_map (objects re) !! key with
                | Some st => st
                | None => fresh_object k sym size (object_size symbol) scheme (sat_add64 now deadline)
                end in
      parse_payload_id (payload_id symbol) = Some (idx, scheme) /\
      symbol_ok st idx scheme (data symbol) /\ st_object_size st = object_size symbol /\ obj_wf st
  end.
Proof.
  intros Hwf. unfold guard. destruct (_ || _ || _) eqn:E0; [by exists None|].
  apply orb_false_iff in E0 as [[Hnz%N.eqb_neq Hmax%N.ltb_ge]%orb_false_iff Hsym%N.eqb_neq].
  destruct (parse_payload_id (payload_id symbol)) as [[idx scheme]|]; [|by exists None].
  destruct (Nat.leb_spec 255 (N.to_nat idx)) as [|Hidx]; [by exists None|].
  rewrite store_get_ok by apply Hwf. cbn [rbind].
  (* a valid index passes the scheme guard *)
  assert (Hvalid : forall k, (if decide (scheme = Pq) then k + 2 <=? N.to_nat idx else false) = false ->
    valid_idx scheme k (N.to_nat idx)).
  { intros k. destruct scheme; cbn [valid_idx]; [lia|]. rewrite decide_True by done.
    intros ?%Nat.leb_gt. lia. }
  assert (Hlen : forall k sym g, (if N.to_nat idx =? k - 1 then
       match checked_mul (k - 1) sym with
       | None => None
       | Some prefix => if N.to_nat (object_size symbol) <? prefix then None
                        else Some (N.to_nat (object_size symbol) - prefix)
       end
     else Some (Nat.min (N.to_nat (object_size symbol)) sym)) = Some g ->
     g = if N.to_nat idx =? k - 1 then N.to_nat (object_size symbol) - (k - 1) * sym
         else Nat.min (N.to_nat (object_size symbol)) sym).
  { intros k sym g. unfold checked_mul. repeat case_match; congruence. }
  destruct (store_map (objects re) !! key) as [st|] eqn:Est.
  - destruct (N.eqb_spec (st_object_size st) (object_size symbol)) as [Esz|]; [|by exists None].
    pose proof (qw_objs _ _ _ Hwf _ _ Est) as Hst.
    destruct (_ || _); [by exists None|].
    destruct (if N.to_nat idx =? st_k st - 1 then _ else _) as [g|] eqn:Eg; [|by exists None].
    destruct (Nat.eqb_spec (length (data symbol)) g) as [Hl|]; [|by exists None]. cbn [negb].
    destruct (if decide _ then _ else _) eqn:Epq; [by exists None|].
    eexists. split; [done|]. split_and!; try done. split_and!; [done|by apply Hvalid|].
    rewrite Hl, (Hlen _ _ _ Eg), Esz. unfold wire_len.
    destruct (N.to_nat idx =? st_k st - 1); [done|].
    apply Nat.min_r. rewrite <- Esz. apply (ow_L _ Hst).
  - destruct (_ || _) eqn:Ek; [by exists None|].
    apply orb_false_iff in Ek as [?%Nat.eqb_neq ?%Nat.leb_gt].
    destruct (if N.to_nat idx =? _ then _ else _) as [g|] eqn:Eg; [|by exists None].
    destruct (Nat.eqb_spec (length (data symbol)) g) as [Hl|]; [|by exists None]. cbn [negb].
    destruct (if decide _ then _ else _) eqn:Epq; [by exists None|].
    destruct (source_count_fresh (object_size symbol) (re_symbol_size re) _ scheme
                (sat_add64 now deadline) ltac:(lia) Hmax Hsym eq_refl ltac:(lia)) as (Hf & _ & Hw).
    eexists. split; [done|]. split_and!; try done. split_and!; [done|by apply Hvalid|].
    rewrite Hl, (Hlen _ _ _ Eg). symmetry. apply Hw.
Qed.

(** An object in progress and within its deadline. *)
Definition live_at (now : N) (st : ObjState) : Prop := st_done st = false /\ (now <= st_expires_at_ms st)%N.

Lemma queue_pop max k ord objs :
  queue_wf max (k :: ord) objs ->
  exists st objs', store_map objs !! k = Some st /\ store_remove objs k = Ret (Some st, objs') /\
    queue_wf max ord objs' /\ store_map objs' = delete k (store_map objs).
Proof.
  intros [Hs Hc Hn Ho Hl Hobj]. destruct (proj1 (Ho k) ltac:(left)) as [st Hst].
  destruct (store_remove_ok objs k Hs) as (objs' & Hr & Hs' & Hm' & Hc'). rewrite Hst in Hr.
  apply NoDup_cons in Hn as [Hk Hn]. exists st, objs'. split_and!; try done.
  split; rewrite ?Hc', ?Hm'; try done.
  - intros j. destruct (decide (j = k)) as [->|Hjk].
    + rewrite lookup_delete_eq. split; [done|]. by intros [? ?].
    + rewrite lookup_delete_ne by done. rewrite <- Ho, elem_of_cons. tauto.
  - cbn in Hl. lia.
  - intros j st' [_ Hj]%lookup_delete_Some. by eapply Hobj.
Qed.

Lemma sweep_ok max key now ord objs unrec :
  queue_wf max ord objs ->
  exists ord' objs' unrec', sweep key now ord objs unrec = Ret (ord', objs', unrec') /\
    queue_wf max ord' objs' /\
    store_map objs' ⊆ store_map objs /\ store_map objs' !! key = store_map objs !! key /\
    (forall k st, store_map objs !! k = Some st -> live_at now st -> store_map objs' !! k = Some st).
Proof.
  revert objs unrec. induction ord as [|k ord IH]; intros objs unrec Hq; cbn [sweep].
  { eexists _, _, _. split_and!; [done..|auto]. }
  destruct (N.eqb_spec k key) as [->|Hk]; [eexists _, _, _; split_and!; [done..|auto]|].
  destruct (queue_pop _ _ _ _ Hq) as (st & objs1 & Hst & Hrem & Hq1 & Hm1).
  rewrite store_get_ok by apply Hq. rewrite Hst. cbn [rbind].
  destruct (_ || _) eqn:Edrop; [|eexists _, _, _; split_and!; [done..|auto]].
  rewrite Hrem. cbn [rbind].
  destruct (IH objs1 (if st_done st then unrec else sat_add64 unrec 1) Hq1)
    as (ord' & objs' & unrec' & Hs & Hq' & Hsub & Hkey & Hkeep).
  rewrite Hs. eexists _, _, _. split_and!; [done|done| | |].
  - etransitivity; [done|]. rewrite Hm1. apply delete_subseteq.
  - by rewrite Hkey, Hm1, lookup_delete_ne by done.
  - intros j st' Hj [Hd He]. apply Hkeep; [|done]. rewrite Hm1. rewrite lookup_delete_ne; [done|].
    intros ->. simplify_eq. apply orb_true_iff in Edrop as [?%N.ltb_lt|?]; [lia|congruence].
Qed.

Lemma admit_ok max key fresh ord objs unrec :
  queue_wf max ord objs -> obj_wf fresh ->
  exists ord' objs' unrec', admit_object key fresh max ord objs unrec = Ret (ord', objs', unrec') /\
    queue_wf max ord' objs' /\
    store_map objs' !! key = Some (match store_map objs !! key with Some st => st | None => fresh end) /\
    (forall k st, k <> key -> store_map objs' !! k = Some st -> store_map objs !! k = Some st) /\
    (is_Some (store_map objs !! key) \/ size (store_map objs) < max ->
     forall k, k <> key -> store_map objs' !! k = store_map objs !! k).
Proof.
  intros Hq Hf. unfold admit_object. rewrite store_get_ok by apply Hq. cbn [rbind].
  destruct (store_map objs !! key) as [st|] eqn:Ekey; [eexists _, _, _; split_and!; done|].
  rewrite store_len_ok by apply Hq. rewrite (queue_size _ _ _ Hq).
  (* inserting into a queue with room *)
  assert (Hins : forall (ord1 : list N) (objs1 : T) (unrec1 : N), queue_wf max ord1 objs1 -> length ord1 < max ->
      store_map objs1 !! key = None ->
      exists objs', (let! ' (_, objs) := store_insert objs1 key fresh in Ret (ord1 ++ [key], objs, unrec1))
        = Ret (ord1 ++ [key], objs', unrec1) /\ queue_wf max (ord1 ++ [key]) objs' /\
        store_map objs' = <[key := fresh]> (store_map objs1)).
  { intros ord1 objs1 unrec1 Hq1 Hlt Hno. pose proof (queue_size _ _ _ Hq1) as Hsz.
    destruct Hq1 as [Hs Hc Hn Ho Hl Hobj].
    destruct (store_insert_ok objs1 key fresh Hs ltac:(lia)) as (objs' & -> & Hs' & Hm' & Hc').
    exists objs'. split_and!; [done| |done]. split; rewrite ?Hc', ?Hm'; try done.
    - apply NoDup_app. split_and!; [done| |apply NoDup_singleton].
      intros k Hk ->%list_elem_of_singleton. apply Ho in Hk as [? ?]. congruence.
    - intros k. rewrite elem_of_app, list_elem_of_singleton, Ho.
      destruct (decide (k = key)) as [->|]; [rewrite lookup_insert_eq; split; eauto|].
      rewrite lookup_insert_ne by done. tauto.
    - len.
    - intros k st [[_ <-]|[_ Hk]]%lookup_insert_Some; [done|by eapply Hobj]. }
  destruct (Nat.leb_spec max (length ord)) as [Hfull|Hroom].
  - destruct ord as [|k ord]; [pose proof (qw_cap _ _ _ Hq); cbn in Hfull; lia|].
    destruct (queue_pop _ _ _ _ Hq) as (st & objs1 & Hst & Hrem & Hq1 & Hm1).
    rewrite Hrem. cbn [rbind].
    destruct (Hins ord objs1 (if st_done st then unrec else sat_add64 unrec 1) Hq1)
      as (objs' & -> & Hq' & Hm').
    + pose proof (qw_len _ _ _ Hq). cbn in *. lia.
    + rewrite Hm1. destruct (decide (k = key)) as [->|]; [apply lookup_delete_eq|].
      by rewrite lookup_delete_ne.
    + eexists _, _, _. split_and!; [done|done| | |].
      * rewrite Hm'. apply lookup_insert_eq.
      * intros j st' Hj. rewrite Hm', lookup_insert_ne, Hm1 by done.
        by intros [_ ?]%lookup_delete_Some.
      * intros [[? ?]|Hlt]; [done|lia].
  - cbn [rbind]. destruct (Hins ord objs unrec Hq Hroom Ekey) as (objs' & -> & Hq' & Hm').
    eexists _, _, _. split_and!; [done|done| | |].
    + rewrite Hm'. apply lookup_insert_eq.
    + intros j st' Hj. by rewrite Hm', lookup_insert_ne.
    + intros _ j Hj. by rewrite Hm', lookup_insert_ne.
Qed.

(** What one call of [push] does, seen through the map of objects. *)
Inductive pushed re (key : N) (symbol : Symbol) (now deadline : N)
    : FecReassembler T -> option (list u8) -> Prop :=
| pushed_rejected : guard re key symbol = Ret None -> pushed re key symbol now deadline re None
| pushed_ingested idx scheme k sym sz st st' r re' out :
    guard re key symbol = Ret (Some (idx, scheme, k, sym, sz)) ->
    st = match store_map (objects re) !! key with
         | Some st => st
         | None => fresh_object k sym sz (object_size symbol) scheme (sat_add64 now deadline)
         end ->
    parse_payload_id (payload_id symbol) = Some (idx, scheme) ->
    symbol_ok st idx scheme (data symbol) -> st_object_size st = object_size symbol -> obj_wf st ->
    ingest st idx scheme symbol now = Ret (st', r, out) ->
    store_map (objects re') !! key = Some st' ->
    (forall j s, j <> key -> store_map (objects re') !! j = Some s -> store_map (objects re) !! j = Some s) ->
    (is_Some (store_map (objects re) !! key) \/ size (store_map (objects re)) < max_objects re ->
     forall j s, j <> key -> store_map (objects re) !! j = Some s -> live_at now s ->
       store_map (objects re') !! j = Some s) ->
    pushed re key symbol now deadline re' out.

Lemma push_ok re key symbol now deadline :
  re_wf re ->
  exists re' out, push re key symbol now deadline = Ret (re', out) /\
    re_wf re' /\ re_symbol_size re' = re_symbol_size re /\ max_objects re' = max_objects re /\
    pushed re key symbol now deadline re' out /\
    (forall o, out = Some o -> length o = N.to_nat (object_size symbol)).
Proof.
  intros Hwf. unfold push.
  destruct (guard_ok re key symbol now deadline Hwf) as (g & Hg & Hgs). rewrite Hg. cbn [rbind].
  destruct g as [[[[[idx scheme] k] sym] sz]|].
  2: { exists re, None. split_and!; try done. by constructor. }
  set (fresh := fresh_object k sym sz (object_size symbol) scheme (sat_add64 now deadline)) in *.
  destruct Hgs as (Hparse & Hsym & Hsz & Hst).
  set (st := match store_map (objects re) !! key with Some st => st | None => fresh end) in *.
  destruct (sweep_ok (max_objects re) key now (order re) (objects re) (unrecoverable_count re) Hwf)
    as (ord1 & objs1 & un1 & -> & Hq1 & Hsub1 & Hkey1 & Hkeep1). cbn [rbind].
  assert (Hadm : exists ord2 objs2 un2,
    admit_object key fresh (max_objects re) ord1 objs1 un1 = Ret (ord2, objs2, un2) /\
    queue_wf (max_objects re) ord2 objs2 /\ store_map objs2 !! key = Some st /\
    (forall j s, j <> key -> store_map objs2 !! j = Some s -> store_map objs1 !! j = Some s) /\
    (is_Some (store_map objs1 !! key) \/ size (store_map objs1) < max_objects re ->
     forall j, j <> key -> store_map objs2 !! j = store_map objs1 !! j)).
  { destruct (store_map (objects re) !! key) as [st0|] eqn:E.
    - unfold admit_object. rewrite store_get_ok by apply Hq1. rewrite Hkey1. cbn [rbind].
      eexists _, _, _. split_and!; try done.
    - destruct (admit_ok (max_objects re) key fresh ord1 objs1 un1 Hq1 Hst)
        as (ord2 & objs2 & un2 & -> & Hq2 & Hk2 & Hback2 & Hkeep2).
      rewrite Hkey1 in Hk2. eexists _, _, _. split_and!; done. }
  destruct Hadm as (ord2 & objs2 & un2 & -> & Hq2 & Hk2 & Hback2 & Hkeep2). cbn [rbind].
  rewrite store_get_ok by apply Hq2. rewrite Hk2. cbn [rbind].
  destruct (ingest_ok st idx scheme symbol now Hst Hsym (eq_sym Hsz)) as (st' & r & out & Hing & Hwf' & Hout).
  rewrite Hing. cbn [rbind].
  destruct (store_put_ok objs2 key st' ltac:(apply Hq2) ltac:(eauto)) as (objs3 & -> & Hs3 & Hm3 & Hc3).
  cbn [rbind]. eexists _, _. split_and!; [done| |done|done| |done].
  - destruct Hq2 as [Hs Hc Hn Ho Hl Hobj]. unfold re_wf. cbn. split; rewrite ?Hc3, ?Hm3; try done.
    + intros j. rewrite Ho. destruct (decide (j = key)) as [->|]; [rewrite lookup_insert_eq; split; eauto|].
      by rewrite lookup_insert_ne.
    + intros j s [[_ <-]|[_ Hj]]%lookup_insert_Some; [done|by eapply Hobj].
  - eapply pushed_ingested; try done; cbn [objects]; rewrite Hm3.
    + apply lookup_insert_eq.
    + intros j s Hj. rewrite lookup_insert_ne by done. intros Hs. eapply lookup_weaken; [|exact Hsub1].
      by apply Hback2.
    + intros Hroom j s Hj Hs Hlive. rewrite lookup_insert_ne by done. rewrite Hkeep2; [by apply Hkeep1| |done].
      destruct Hroom as [?|Hlt]; [left; by rewrite Hkey1|right].
      eapply Nat.le_lt_trans; [|exact Hlt]. by apply map_subseteq_size.
Qed.
End reassembler_wf.
