(* ===== verification/FecDelivery.v ===== *)
(** * Delivery of objects

    The contract between [FecEncoder] and [FecReassembler] of
    [crates/yip-transport/src/fec.rs]: whatever else arrives, an object comes
    out as it went in, and it does come out once K of its symbols have
    arrived. *)
From Stdlib Require Strings.Byte.
From Stdlib Require Import NArith Lia.
From stdpp Require Import base numbers gmap sets list.
From S2P Require Import Prelude Gf256 RsSimd LinAlg Rs RsMds RsDecode RsReconstruct.
From S2P Require Import ObjTable Fec FecEncode FecWf.

Local Open Scope nat_scope.

Lemma parse_pack idx scheme :
  (idx < u16_mod)%N -> parse_payload_id (pack_payload_id idx (to_u8 scheme)) = Some (idx, scheme).
Proof.
  intros Hi. unfold pack_payload_id.
  pose proof (length_to_be_bytes 2 idx) as Hl. pose proof (from_to_be_bytes_small 2 idx) as Hr.
  destruct (to_be_bytes 2 idx) as [|b0 [|b1 [|]]]; try discriminate.
  unfold parse_payload_id. rewrite decide_True by done.
  replace (from_u8 (to_u8 scheme)) with (Some scheme) by (by destruct scheme).
  rewrite Hr; [done|]. exact Hi.
Qed.

(** Copying fewer bytes than a shard keeps the rest of it. *)
Lemma copy_part_shard L k i d p p' :
  i < k -> length p = k * L -> length d <= L -> copy_at (i * L) d p = Ret p' ->
  forall j, j < k -> shard L j p' = if decide (i = j) then d ++ drop (length d) (shard L i p) else shard L j p.
Proof.
  intros Hi Hp Hd Hc. pose proof (length_shard L i k p Hi ltac:(lia)) as Hs.
  assert (Hfull : copy_at (i * L) (d ++ drop (length d) (shard L i p)) p = Ret p').
  { rewrite <- Hc.
    rewrite !copy_at_ok by (rewrite ?length_app, ?length_drop, ?Hs; nia).
    rewrite length_app, length_drop, Hs, <- !app_assoc. do 3 f_equal.
    unfold shard, slice. rewrite <- (take_drop (L - length d) (drop (i * L + length d) p)).
    f_equal.
    - replace (i * L + L - i * L) with L by lia. rewrite skipn_firstn_comm, drop_drop. done.
    - rewrite drop_drop. f_equal. lia. }
  destruct (copy_shard L k i (d ++ drop (length d) (shard L i p)) p) as (p2 & Hp2 & _ & _ & Hsh); [done|lia| |].
  - rewrite length_app, length_drop, Hs. lia.
  - rewrite Hp2 in Hfull. injection Hfull as <-. exact Hsh.
Qed.

(** ** Sequences of arrivals *)

Record event := mkEvent { ev_key : N; ev_sym : Symbol; ev_now : N; ev_deadline : N }.

Fixpoint push_all {cpu : Cpu} {T} {store : Store T ObjState} (re : FecReassembler T) (evs : list event)
    : run (list (option (list u8)) * FecReassembler T) :=
  match evs with
  | [] => Ret ([], re)
  | e :: evs =>
      let! ' (re, out) := push re (ev_key e) (ev_sym e) (ev_now e) (ev_deadline e) in
      let! ' (outs, re) := push_all re evs in
      Ret (out :: outs, re)
  end.

Lemma push_all_ok {cpu : Cpu} {T} {store : Store T ObjState} {laws : StoreLaws T ObjState}
    (re : FecReassembler T) evs :
  re_wf re ->
  exists outs re', push_all re evs = Ret (outs, re') /\ re_wf re' /\ max_objects re' = max_objects re /\
    Forall2 (fun e out => forall o, out = Some o -> length o = N.to_nat (object_size (ev_sym e))) evs outs.
Proof.
  revert re. induction evs as [|e evs IH]; intros re Hwf; cbn [push_all].
  { exists [], re. split_and!; [done..|constructor]. }
  destruct (push_ok re (ev_key e) (ev_sym e) (ev_now e) (ev_deadline e) Hwf)
    as (re1 & out1 & -> & Hwf1 & _ & Hm1 & _ & Hlen). cbn [rbind].
  destruct (IH re1 Hwf1) as (outs & re2 & -> & Hwf2 & Hm2 & Hf). cbn [rbind].
  eexists _, _. split_and!; [done|done|congruence|]. by constructor.
Qed.

Section delivery.
Context {cpu : Cpu} {T : Type} {store : Store T ObjState} {laws : StoreLaws T ObjState}.
Context (ct : list u8) (sym : N) (scheme : Scheme).
Context (k L : nat) (Ek : k = source_count (N.of_nat (length ct)) sym)
        (EL : L = Nat.min (length ct) (N.to_nat sym)).
Context (Hpos : 0 < length ct) (Hmax : (N.of_nat (length ct) <= MAX_OBJECT_SIZE)%N)
        (Hsym : sym <> 0%N) (Hk : 0 < k < 255).

Abbreviation source := (source_of L k ct).

(** The symbols of the object under this scheme. *)
Definition own_symbol (s : Symbol) (idx : nat) : Prop :=
  idx < 255 /\ valid_idx scheme k idx /\ exists oid, s = wire_symbol scheme L k ct oid idx.

Lemma own_dims : dims L k ct.
Proof. rewrite EL. by apply (source_count_dims ct (N.of_nat (length ct)) sym k). Qed.

Lemma own_L : 1 < k -> L = N.to_nat sym.
Proof.
  intros H. destruct (source_count_dims ct (N.of_nat (length ct)) sym k) as (_ & Hm & _); try done.
  rewrite EL. auto.
Qed.

(** Bytes of a source symbol, filled up with zeros. *)
Lemma wire_source_fill idx :
  idx < k ->
  wire_data scheme L k ct idx ++ replicate (L - length (wire_data scheme L k ct idx)) Byte.x00
  = source !!! idx.
Proof.
  intros Hi. pose proof own_dims as Hd. pose proof Hd as (_ & HL & Hlo & Hhi).
  unfold wire_data. rewrite codeword_source by (try apply source_of_shards; rewrite ?length_source_of; done).
  assert (Hl : length (source !!! idx) = L).
  { apply shards_ok_lookup; [by apply source_of_shards|by rewrite length_source_of]. }
  destruct (Nat.eqb_spec idx (k - 1)) as [->|_].
  - rewrite source_of_lookup, shard_padded by (done || lia).
    rewrite Nat.min_r by nia. set (n := length ct - (k - 1) * L).
    assert (Hs : length (slice ((k - 1) * L) (length ct) ct) = n) by (rewrite length_slice; lia).
    rewrite take_app_length' by done. by rewrite Hs.
  - rewrite Hl, Nat.sub_diag. cbn. by rewrite app_nil_r.
Qed.

Lemma wire_data_len idx : length (wire_data scheme L k ct idx) = wire_len k L (length ct) idx.
Proof.
  pose proof own_dims as (_ & _ & ? & ?). unfold wire_data, wire_len, codeword.
  case_match; rewrite ?length_take, length_lincomb; [nia|done].
Qed.

(** The object's entry holds the object's bytes. *)
Record holds (st : ObjState) : Prop := {
  ho_wf : obj_wf st;
  ho_k : st_k st = k;
  ho_L : st_shard_len st = L;
  ho_size : st_object_size st = N.of_nat (length ct);
  ho_scheme : st_scheme st = scheme;
  ho_data : st_done st = false ->
    (forall i, i < k -> shard L i (st_payload st)
       = if mask_has (st_seen_mask st) i then source !!! i else replicate L Byte.x00) /\
    (forall e, e ∈ st_repair_shards st -> e.2 = codeword scheme L source (N.to_nat e.1));
}.

Lemma fresh_holds expires :
  holds (fresh_object k (N.to_nat sym) (length ct) (N.of_nat (length ct)) scheme expires).
Proof.
  destruct (source_count_fresh (N.of_nat (length ct)) sym k scheme expires) as (Hwf & Hc & _); try done; [lia|].
  rewrite Nat2N.id in *. split; [done|done|cbn; by rewrite EL|done|done|].
  intros _. split; [|intros e He; by apply not_elem_of_nil in He].
  intros i Hi. pose proof (ol_payload _ Hc) as Hl.
  assert (Hz : st_payload (fresh_object k (N.to_nat sym) (length ct) (N.of_nat (length ct)) scheme expires)
               = replicate (k * L) Byte.x00).
  { unfold fresh_object in *. cbn in *. rewrite <- EL in *. rewrite length_replicate in Hl. by rewrite Hl. }
  rewrite Hz. replace (mask_has _ i) with false.
  - unfold shard, slice. rewrite drop_replicate, take_replicate. f_equal. nia.
  - symmetry. apply mask_has_zero. lia.
Qed.

(** Storing one of the object's own symbols. *)
Lemma holds_stored st s idx st' :
  holds st -> st_done st = false -> own_symbol s idx ->
  mask_has (st_seen_mask st) idx = false -> stored st (N.of_nat idx) (data s) st' ->
  (forall i, i < k -> shard L i (st_payload st')
     = if mask_has (st_seen_mask st') i then source !!! i else replicate L Byte.x00) /\
  (forall e, e ∈ st_repair_shards st' -> e.2 = codeword scheme L source (N.to_nat e.1)).
Proof.
  intros Hh Hlive (Hidx & Hv & oid & ->) Hun [_ _ Hm _ Hd].
  destruct (ho_data _ Hh Hlive) as [Hpay Hreps]. destruct (ow_live _ (ho_wf _ Hh) Hlive) as [Hc _].
  pose proof (ol_payload _ Hc) as Hpl. rewrite (ho_k _ Hh), (ho_L _ Hh) in Hd, Hpl.
  rewrite Nat2N.id in Hd, Hm. cbn [data wire_symbol] in Hd. pose proof own_dims as (_ & _ & ? & ?).
  destruct (Nat.ltb_spec idx k) as [Hlt|Hge].
  - destruct Hd as (Hcopy & Er & _). rewrite Er. split; [|done]. intros i Hi.
    rewrite (copy_part_shard L k idx (wire_data scheme L k ct idx) (st_payload st) _ Hlt Hpl);
      [|rewrite wire_data_len; unfold wire_len; case_match; nia|done|done].
    rewrite Hm by lia. destruct (Nat.eqb_spec i idx) as [->|Hne].
    + rewrite decide_True, orb_true_r by done. rewrite Hpay, Hun by done. rewrite drop_replicate.
      by apply wire_source_fill.
    + rewrite decide_False, orb_false_r by congruence. by apply Hpay.
  - destruct Hd as (Ep & Er & _). rewrite Ep, Er. split.
    + intros i Hi. rewrite Hm by lia. rewrite (proj2 (Nat.eqb_neq i idx)), orb_false_r by lia. by apply Hpay.
    + intros e [He|He]%elem_of_app; [by apply Hreps|]. apply list_elem_of_singleton in He as ->. cbn.
      rewrite Nat2N.id. unfold wire_data. by rewrite (proj2 (Nat.eqb_neq _ _)) by lia.
Qed.

(** A full set of shards gives back the object. *)
Lemma holds_complete st s idx st' p :
  holds st -> st_done st = false -> own_symbol s idx ->
  mask_has (st_seen_mask st) idx = false -> stored st (N.of_nat idx) (data s) st' ->
  obj_content st' -> st_total_count st' = st_k st' ->
  (st_source_count st' = st_k st' /\ p = st_payload st') \/
  reconstruct_missing_sources (st_k st') (st_shard_len st') (st_payload st') (st_seen_mask st')
      (st_repair_shards st') (st_scheme st') = Ret (Some p) ->
  take (length ct) p = ct.
Proof.
  intros Hh Hlive Hs Hun Hst Hc Ht Hp.
  destruct (holds_stored st s idx st' Hh Hlive Hs Hun Hst) as [Hpay Hreps].
  destruct (sd_dims _ _ _ _ Hst) as (E1 & E2 & E3 & E4 & _).
  rewrite (ho_k _ Hh) in E1. rewrite (ho_L _ Hh) in E2. rewrite (ho_scheme _ Hh) in E4.
  pose proof (ol_payload _ Hc) as Hpl. rewrite E1, E2 in Hpl. rewrite E1, E2, E4 in Hp.
  pose proof own_dims as Hd. pose proof (source_of_shards L k ct Hd) as Hss.
  pose proof (length_source_of L k ct) as Hls.
  assert (Hcat : take (length ct) (concat source) = ct)
    by (rewrite concat_source_of by done; apply take_padded).
  assert (Hle : length ct <= k * L) by apply Hd.
  destruct Hp as [[Hall ->]|Hp].
  - rewrite <- Hcat at 2. rewrite <- (shards_concat L source (st_payload st')); try done; rewrite ?Hls.
    + rewrite take_take. f_equal. lia.
    + lia.
    + intros i Hi. rewrite Hpay by done.
      replace (mask_has (st_seen_mask st') i) with true; [done|]. symmetry.
      assert (Hin : i ∈ present (st_seen_mask st') k).
      { apply (NoDup_below_all k); [apply NoDup_filter, NoDup_seq| | |done].
        - by rewrite <- E1, <- (ol_source _ Hc), Hall.
        - intros j Hj. apply present_spec in Hj as [? _]. done. }
      apply present_spec in Hin as [_ ?]. done.
  - pose proof (obj_partial_wf st' source Hc ltac:(by rewrite Hls) ltac:(apply Hst)) as Hpw.
    pose proof (obj_usable st' Hc) as Hus. rewrite E2 in Hus. rewrite E4, E2 in Hpw.
    pose proof (obj_fit st (ho_wf _ Hh)) as Hfit. rewrite (ho_k _ Hh), (ho_L _ Hh) in Hfit.
    pose proof (ol_source _ Hc) as Hsc. pose proof (ol_total _ Hc) as Htc. rewrite E1 in Hsc, Ht.
    pose proof (reconstruct_ok scheme L source) as Hr. rewrite Hls in Hr.
    rewrite (Hr Hk Hss Hfit _ _ _ Hpw) in Hp.
    + injection Hp as <-. rewrite take_app_le; [done|]. rewrite (length_concat_shards L), Hls by done. lia.
    + split; rewrite ?Hls, ?Hus; [|done].
      intros i Hi Hmi. rewrite Hpay by done. by rewrite Hmi.
    + rewrite Hus. lia.
Qed.

Lemma holds_ingest st s idx now :
  holds st -> own_symbol s idx ->
  exists st' r out, ingest st (N.of_nat idx) scheme s now = Ret (st', r, out) /\ holds st' /\
    (out = None \/ out = Some ct) /\
    (live_at now st ->
       out = Some ct \/
       (out = None /\ st_done st' = false /\ st_expires_at_ms st' = st_expires_at_ms st /\
        mask_has (st_seen_mask st') idx = true /\
        forall u, u < 256 -> mask_has (st_seen_mask st) u = true -> mask_has (st_seen_mask st') u = true)).
Proof.
  intros Hh Hs. pose proof Hs as (Hidx & Hv & oid & Es). pose proof (ho_wf _ Hh) as Hwf.
  assert (Hsym_ok : symbol_ok st (N.of_nat idx) scheme (data s)).
  { split_and!; rewrite ?Nat2N.id, ?(ho_k _ Hh); try done.
    rewrite (ho_L _ Hh), (ho_size _ Hh), Nat2N.id, Es. apply wire_data_len. }
  assert (Hsize : N.to_nat (object_size s) = length ct) by (rewrite Es; apply Nat2N.id).
  destruct (ingest_cases st (N.of_nat idx) scheme s now Hwf Hsym_ok)
    as [Hexp E|Hexp Hwhy E|st' Hexp Hd Hsc Hun Hst Hc Ht E|st' r p Hexp Hd Hsc Hun Hst Hc Ht E Hp Hhow];
    rewrite E; do 3 eexists; (split; [reflexivity|]); rewrite ?Nat2N.id in *.
  - split_and!; [|by left|].
    + destruct Hh. split; try done. by apply tombstone_wf.
    + intros [_ Hl]. lia.
  - split_and!; [done|by left|]. intros [Hd _]. right. split_and!; try done.
    destruct Hwhy as [?|[Hne|?]]; [congruence| |done]. by destruct Hne, Hh.
  - pose proof (sd_dims _ _ _ _ Hst) as (E1 & E2 & E3 & E4 & E5 & E6).
    pose proof (holds_stored st s idx st' Hh Hd Hs Hun Hst) as Hdata.
    split_and!; [|by left|].
    + pose proof (stored_wf_live _ _ _ _ Hwf Hc Hst (fun _ => Ht)).
      destruct Hh. split; try done; congruence.
    + intros [_ _]. right. split_and!; try congruence.
      * rewrite (sd_mask _ _ _ _ Hst) by lia. rewrite Nat2N.id, Nat.eqb_refl. apply orb_true_r.
      * intros u Hu Hm. rewrite (sd_mask _ _ _ _ Hst) by lia. by rewrite Hm.
  - pose proof (sd_dims _ _ _ _ Hst) as (E1 & E2 & E3 & E4 & E5 & E6).
    rewrite Hsize, (holds_complete st s idx st' p Hh Hd Hs Hun Hst Hc Ht Hhow).
    split_and!; [|by right|by left].
    assert (Hwf' : obj_wf (tombstone st')).
    { destruct Hwf. split; cbn; rewrite ?E1, ?E2, ?E3; try done. apply Hst. }
    destruct Hh. split; cbn; try done; congruence.
Qed.

(** The guards let the object's own symbols through. *)
Lemma guard_own (re : FecReassembler T) key s idx :
  re_wf re -> re_symbol_size re = sym -> own_symbol s idx ->
  (forall st, store_map (objects re) !! key = Some st -> holds st) ->
  guard re key s = Ret (Some (N.of_nat idx, scheme, k,
    match store_map (objects re) !! key with Some _ => L | None => N.to_nat sym end, length ct)).
Proof.
  intros Hwf Hre (Hidx & Hv & oid & ->) Hholds. unfold guard. cbn [object_size payload_id data wire_symbol].
  rewrite (proj2 (N.eqb_neq (N.of_nat (length ct)) 0)) by lia.
  rewrite (proj2 (N.ltb_ge _ _)) by done. rewrite Hre, (proj2 (N.eqb_neq sym 0)) by done. cbn [orb].
  rewrite parse_pack by (unfold u16_mod; lia). rewrite Nat2N.id.
  rewrite (proj2 (Nat.leb_gt _ _)) by done. rewrite store_get_ok by apply Hwf. cbn [rbind].
  pose proof own_dims as (_ & HL & Hlo & Hhi).
  assert (Hscheme : forall A (x y : A), (if (if decide (scheme = Pq) then k + 2 <=? idx else false) then x else y) = y).
  { intros A x y. case_decide as Hpq; [|done]. rewrite Hpq in Hv. cbn in Hv.
    by rewrite (proj2 (Nat.leb_gt _ _)). }
  assert (Hkk : (k =? 0) || (255 <=? k) = false).
  { rewrite (proj2 (Nat.eqb_neq k 0)), (proj2 (Nat.leb_gt 255 k)) by lia. done. }
  assert (Hpre : forall x, (k - 1) * x = (k - 1) * L -> Nat.min (length ct) x = L ->
    (if idx =? k - 1 then
       match checked_mul (k - 1) x with
       | None => None
       | Some prefix => if length ct <? prefix then None else Some (length ct - prefix)
       end else Some (Nat.min (length ct) x)) = Some (wire_len k L (length ct) idx)).
  { intros x Hx Hm. unfold wire_len. rewrite Hm. destruct (idx =? k - 1); [|done].
    rewrite checked_mul_ok, Hx.
    - by rewrite (proj2 (Nat.ltb_ge _ _)) by lia.
    - rewrite <- Nat2N.inj_mul, Hx. unfold MAX_OBJECT_SIZE in Hmax.
      apply N.le_lt_trans with 262144%N; [lia|done]. }
  assert (Hsz : N.to_nat (N.of_nat (length ct)) = length ct) by apply Nat2N.id.
  destruct (store_map (objects re) !! key) as [st|] eqn:Est.
  - pose proof (Hholds st eq_refl) as Hh.
    rewrite (ho_size _ Hh), N.eqb_refl, (ho_k _ Hh), (ho_L _ Hh), Hkk, Hsz.
    rewrite Hpre by lia. rewrite wire_data_len, Nat.eqb_refl. cbn [negb]. by rewrite Hscheme.
  - rewrite <- Ek, Hkk, Hsz.
    rewrite Hpre; [|destruct (decide (k = 1)) as [->|]; [done|rewrite own_L by lia; done]|lia].
    rewrite wire_data_len, Nat.eqb_refl. cbn [negb]. by rewrite Hscheme.
Qed.

(** One arrival at the object's own key. *)
Lemma push_own (re : FecReassembler T) key s idx now deadline :
  re_wf re -> re_symbol_size re = sym -> own_symbol s idx ->
  (forall st, store_map (objects re) !! key = Some st -> holds st) ->
  exists re' out st', push re key s now deadline = Ret (re', out) /\
    store_map (objects re') !! key = Some st' /\ holds st' /\ (out = None \/ out = Some ct) /\
    let st := match store_map (objects re) !! key with
              | Some st => st
              | None => fresh_object k (N.to_nat sym) (length ct) (N.of_nat (length ct)) scheme
                          (sat_add64 now deadline)
              end in
    (live_at now st ->
       out = Some ct \/
       (out = None /\ st_done st' = false /\ st_expires_at_ms st' = st_expires_at_ms st /\
        mask_has (st_seen_mask st') idx = true /\
        forall u, u < 256 -> mask_has (st_seen_mask st) u = true -> mask_has (st_seen_mask st') u = true)).
Proof.
  intros Hwf Hre Hs Hholds.
  pose proof (guard_own re key s idx Hwf Hre Hs Hholds) as Hg.
  destruct (push_ok re key s now deadline Hwf) as (re' & out & Hp & _ & _ & _ & Hpd & _).
  destruct Hpd as [Hg'|idx' sch' k' sym' sz' st st' r re' out Hg' Est _ _ _ _ Hing Hk' _ _];
    rewrite Hg in Hg'; [done|]. injection Hg' as <- <- <- <- <-.
  assert (Hst : holds st /\ st = match store_map (objects re) !! key with
              | Some st => st
              | None => fresh_object k (N.to_nat sym) (length ct) (N.of_nat (length ct)) scheme
                          (sat_add64 now deadline) end).
  { rewrite Est. destruct (store_map (objects re) !! key) as [st0|]; [split; [by apply Hholds|done]|].
    pose proof Hs as (_ & _ & oid & ->). split; [apply fresh_holds|done]. }
  destruct Hst as [Hst <-].
  destruct (holds_ingest st s idx now Hst Hs) as (st1 & r1 & out1 & Hing1 & Hh1 & Ho1 & Hl1).
  rewrite Hing in Hing1. injection Hing1 as <- <- <-. eauto 10.
Qed.

Lemma own_symbol_inj s i j : own_symbol s i -> own_symbol s j -> i = j.
Proof.
  intros (Hi & _ & oid & ->) (Hj & _ & oid' & E). apply (f_equal payload_id) in E. cbn [payload_id wire_symbol] in E.
  apply (f_equal parse_payload_id) in E. rewrite !parse_pack in E by (unfold u16_mod; lia).
  injection E. lia.
Qed.

(** Arrivals at other keys do not touch the object. *)
Lemma push_other (re re' : FecReassembler T) key e out :
  re_wf re -> ev_key e <> key ->
  push re (ev_key e) (ev_sym e) (ev_now e) (ev_deadline e) = Ret (re', out) ->
  (forall st, store_map (objects re') !! key = Some st -> store_map (objects re) !! key = Some st) /\
  (is_Some (store_map (objects re) !! ev_key e) \/ size (store_map (objects re)) < max_objects re ->
   forall st, store_map (objects re) !! key = Some st -> live_at (ev_now e) st ->
     store_map (objects re') !! key = Some st).
Proof.
  intros Hwf Hne Hp.
  destruct (push_ok re (ev_key e) (ev_sym e) (ev_now e) (ev_deadline e) Hwf)
    as (re1 & out1 & Hp1 & _ & _ & _ & Hpd & _).
  rewrite Hp in Hp1. injection Hp1 as <- <-.
  destruct Hpd as [|???????? re' out _ _ _ _ _ _ _ _ Hback Hkeep]; [done|].
  split; [intros s; apply Hback; congruence|]. intros Hroom s. apply Hkeep; [done|congruence].
Qed.

Section object.
Context (key : N).
Abbreviation own_event := (fun e => ev_key e = key -> exists idx, own_symbol (ev_sym e) idx).

Lemma push_all_integrity (re : FecReassembler T) evs outs re' :
  re_wf re -> re_symbol_size re = sym ->
  (forall st, store_map (objects re) !! key = Some st -> holds st) ->
  Forall own_event evs -> push_all re evs = Ret (outs, re') ->
  Forall2 (fun e out => ev_key e = key -> forall o, out = Some o -> o = ct) evs outs.
Proof.
  revert re outs. induction evs as [|e evs IH]; intros re outs Hwf Hre Hh Hev Hrun; cbn in Hrun.
  { injection Hrun as <- <-. constructor. }
  apply Forall_cons in Hev as [He Hev].
  destruct (push_ok re (ev_key e) (ev_sym e) (ev_now e) (ev_deadline e) Hwf)
    as (re1 & out1 & Hp1 & Hwf1 & Hs1 & _ & _ & _).
  rewrite Hp1 in Hrun. cbn [rbind] in Hrun.
  destruct (push_all re1 evs) as [[outs1 re2]|] eqn:E; [|done]. cbn in Hrun. injection Hrun as <- <-.
  assert (Hnext : (forall st, store_map (objects re1) !! key = Some st -> holds st) /\
                  (ev_key e = key -> forall o, out1 = Some o -> o = ct)).
  { destruct (decide (ev_key e = key)) as [Hkey|Hkey].
    - destruct (He Hkey) as [idx Hown]. rewrite Hkey in Hp1.
      destruct (push_own re key (ev_sym e) idx (ev_now e) (ev_deadline e) Hwf Hre Hown Hh)
        as (re3 & out3 & st3 & Hp3 & Hk3 & Hh3 & Ho3 & _).
      rewrite Hp1 in Hp3. injection Hp3 as <- <-. split.
      + intros st Hst. congruence.
      + intros _ o ->. destruct Ho3; congruence.
    - destruct (push_other re re1 key e out1 Hwf Hkey Hp1) as [Hback _]. split; [auto|done]. }
  destruct Hnext as [Hh1 Hout]. constructor; [done|].
  apply (IH re1); auto. congruence.
Qed.

Section within.
Context (deadline : N) (keys : list N).

(** All arrivals are in time for the object, and there are never more objects
    than the reassembler keeps. *)
Definition in_time (e : event) : Prop :=
  (ev_now e <= deadline)%N /\ ev_key e ∈ keys /\
  (ev_key e = key -> (deadline <= sat_add64 (ev_now e) (ev_deadline e))%N).

(** The object is in progress and has every symbol in [P]. *)
Record progress (re : FecReassembler T) (P : nat -> Prop) : Prop := {
  pg_wf : re_wf re;
  pg_sym : re_symbol_size re = sym;
  pg_max : length keys <= max_objects re;
  pg_keys : forall j, is_Some (store_map (objects re) !! j) -> j ∈ keys;
  pg_obj : match store_map (objects re) !! key with
    | None => forall i, ~ P i
    | Some st => holds st /\ st_done st = false /\ (deadline <= st_expires_at_ms st)%N /\
        forall i, i < 255 -> P i -> mask_has (st_seen_mask st) i = true
    end;
}.

Lemma progress_weaken re (P P' : nat -> Prop) : progress re P -> (forall i, P' i -> P i) -> progress re P'.
Proof.
  intros [H1 H2 H3 H4 H5] HP. split; try done. destruct (store_map (objects re) !! key).
  - destruct H5 as (? & ? & ? & Hs). split_and!; auto.
  - intros i Hi. by apply (H5 i), HP.
Qed.

Lemma progress_room re P e :
  progress re P -> ev_key e ∈ keys ->
  is_Some (store_map (objects re) !! ev_key e) \/ size (store_map (objects re)) < max_objects re.
Proof.
  intros [Hwf _ Hmx Hkeys _] He.
  destruct (store_map (objects re) !! ev_key e) eqn:E; [left; eauto|right].
  rewrite (queue_size _ _ _ Hwf). apply Nat.lt_le_trans with (length (ev_key e :: order re)); [cbn; lia|].
  etransitivity; [|exact Hmx]. apply submseteq_length, NoDup_submseteq.
  - apply NoDup_cons. split; [|apply Hwf]. intros [? ?]%(qw_order _ _ _ Hwf). congruence.
  - intros j [->|Hj]%elem_of_cons; [done|]. apply Hkeys. by apply (qw_order _ _ _ Hwf).
Qed.

Lemma push_progress re P e :
  progress re P -> in_time e -> own_event e ->
  exists re' out, push re (ev_key e) (ev_sym e) (ev_now e) (ev_deadline e) = Ret (re', out) /\
    ((ev_key e = key /\ out = Some ct) \/
     (ev_key e = key -> out = None) /\
     progress re' (fun i => P i \/ (ev_key e = key /\ own_symbol (ev_sym e) i))).
Proof.
  intros Hpg (Hnow & Hkey & Hdl) He. pose proof (progress_room re P e Hpg Hkey) as Hroom.
  destruct Hpg as [Hwf Hre Hmx Hkeys Hobj].
  destruct (push_ok re (ev_key e) (ev_sym e) (ev_now e) (ev_deadline e) Hwf)
    as (re1 & out1 & Hp1 & Hwf1 & Hs1 & Hm1 & Hpd & _).
  assert (Hkeys1 : forall j, is_Some (store_map (objects re1) !! j) -> j ∈ keys).
  { intros j [s Hj]. destruct (decide (j = ev_key e)) as [->|Hne]; [done|]. apply Hkeys.
    destruct Hpd as [|???????? re' out _ _ _ _ _ _ _ _ Hback _]; [eauto|]. apply Hback in Hj; eauto. }
  exists re1, out1. split; [done|].
  destruct (decide (ev_key e = key)) as [Hk1|Hk1].
  - destruct (He Hk1) as [idx Hown]. rewrite Hk1 in Hp1.
    assert (Hh : forall st, store_map (objects re) !! key = Some st -> holds st)
      by (intros st Hst; rewrite Hst in Hobj; apply Hobj).
    destruct (push_own re key (ev_sym e) idx (ev_now e) (ev_deadline e) Hwf Hre Hown Hh)
      as (re3 & out3 & st3 & Hp3 & Hk3 & Hh3 & _ & Hlive).
    rewrite Hp1 in Hp3. injection Hp3 as <- <-.
    assert (Hst : exists st, st = match store_map (objects re) !! key with
              | Some st => st
              | None => fresh_object k (N.to_nat sym) (length ct) (N.of_nat (length ct)) scheme
                          (sat_add64 (ev_now e) (ev_deadline e)) end /\
              st_done st = false /\ (deadline <= st_expires_at_ms st)%N /\
              forall i, i < 255 -> P i -> mask_has (st_seen_mask st) i = true).
    { eexists. split; [reflexivity|]. destruct (store_map (objects re) !! key); [by apply Hobj|].
      split_and!; [done|by apply Hdl|]. intros i _ Hi. by destruct (Hobj i). }
    destruct Hst as (st & Est & Hd & Hexp & Hseen). cbn zeta in Hlive. rewrite <- Est in Hlive.
    destruct Hlive as [->|(-> & Hd3 & He3 & Hi3 & Hmono)]; [split; [done|lia]|by left|right].
    split; [done|]. split; try done; try congruence. rewrite Hk3. split_and!; try done; [by rewrite He3|].
    intros i Hi [HP|[_ Hown']]; [apply Hmono; auto; lia|]. by rewrite (own_symbol_inj _ _ _ Hown' Hown).
  - right. destruct (push_other re re1 key e out1 Hwf Hk1 Hp1) as [Hback Hkeep].
    split; [done|]. split; try done; try congruence.
    destruct (store_map (objects re) !! key) as [st|] eqn:Est.
    + destruct Hobj as (Hh & Hd & Hexp & Hseen).
      rewrite (Hkeep Hroom st eq_refl) by (split; [done|lia]). split_and!; try done.
      intros i Hi [HP|[? _]]; [auto|done].
    + destruct (store_map (objects re1) !! key) as [st1|] eqn:E1; [by specialize (Hback st1 eq_refl)|].
      intros i [HP|[? _]]; [by destruct (Hobj i)|done].
Qed.

Lemma progress_bound re P ids :
  progress re P -> NoDup ids -> (forall i, i ∈ ids -> i < 255 /\ P i) -> length ids < k.
Proof.
  intros [_ _ _ _ Hobj] Hn Hids.
  destruct (store_map (objects re) !! key) as [st|].
  - destruct Hobj as (Hh & Hd & _ & Hseen).
    destruct (ow_live _ (ho_wf _ Hh) Hd) as [Hc Hlt]. rewrite (ho_k _ Hh) in Hlt.
    apply Nat.le_lt_trans with (length (present (st_seen_mask st) k ++ map rep_idx (st_repair_shards st))).
    + apply submseteq_length, NoDup_submseteq; [done|]. intros i Hi.
      destruct (Hids i Hi) as [Hi255 HP]. pose proof (Hseen i Hi255 HP) as Hm.
      apply elem_of_app. rewrite <- (ho_k _ Hh).
      destruct (ol_cover _ Hc i ltac:(lia) Hm); [left; by apply present_spec|by right].
    + rewrite length_app, length_map, <- (ho_k _ Hh), <- (ol_source _ Hc), <- (ol_total _ Hc).
      by rewrite (ho_k _ Hh).
  - destruct ids as [|i ids]; [cbn; lia|]. destruct (Hids i ltac:(left)) as [_ HP]. by destruct (Hobj i).
Qed.

Lemma push_all_progress re P evs :
  progress re P -> Forall in_time evs -> Forall own_event evs ->
  exists outs re', push_all re evs = Ret (outs, re') /\
    ((exists n e, evs !! n = Some e /\ ev_key e = key /\ outs !! n = Some (Some ct)) \/
     progress re' (fun i => P i \/ exists e, e ∈ evs /\ ev_key e = key /\ own_symbol (ev_sym e) i)).
Proof.
  revert re P. induction evs as [|e evs IH]; intros re P Hpg Ht Ho; cbn [push_all].
  { exists [], re. split; [done|]. right. eapply progress_weaken; [exact Hpg|].
    intros i [?|(e & He & _)]; [done|by apply not_elem_of_nil in He]. }
  apply Forall_cons in Ht as [Ht Hts]. apply Forall_cons in Ho as [Ho Hos].
  destruct (push_progress re P e Hpg Ht Ho) as (re1 & out1 & Hp & Hres).
  destruct Hres as [[Hkey ->]|[_ Hpg1]].
  - destruct (push_ok re (ev_key e) (ev_sym e) (ev_now e) (ev_deadline e) (pg_wf _ _ Hpg))
      as (re2 & out2 & Hp2 & Hwf1 & _). rewrite Hp in Hp2. injection Hp2 as <- <-.
    destruct (push_all_ok re1 evs Hwf1) as (outs & re2 & Hall & _). rewrite Hp. cbn [rbind].
    rewrite Hall. cbn [rbind]. eexists _, _. split; [done|]. left. by exists 0, e.
  - rewrite Hp. cbn [rbind]. destruct (IH re1 _ Hpg1 Hts Hos) as (outs & re2 & -> & Hres). cbn [rbind].
    eexists _, _. split; [done|]. destruct Hres as [(n & e' & ? & ? & ?)|Hpg2]; [left; by exists (S n), e'|right].
    eapply progress_weaken; [exact Hpg2|]. intros i [?|(e0 & [->|?]%elem_of_cons & ?)]; eauto.
Qed.

Lemma push_all_delivers max evs ids :
  length keys <= Nat.max max 1 -> Forall in_time evs -> Forall own_event evs ->
  NoDup ids -> length ids = k ->
  (forall i, i ∈ ids -> exists e, e ∈ evs /\ ev_key e = key /\ own_symbol (ev_sym e) i) ->
  exists outs re', push_all (reassembler_new sym max) evs = Ret (outs, re') /\
    exists n e, evs !! n = Some e /\ ev_key e = key /\ outs !! n = Some (Some ct).
Proof.
  intros Hkeys Ht Ho Hn Hl Hids.
  destruct (store_new_ok (Nat.max max 1)) as (_ & Hm & _).
  destruct (push_all_progress (reassembler_new sym max) (fun _ => False) evs) as (outs & re' & Hp & Hres); try done.
  - split; cbn; try done; [apply reassembler_new_wf| |]; rewrite Hm.
    + intros j. rewrite lookup_empty. by intros [? ?].
    + rewrite lookup_empty. by intros i [].
  - exists outs, re'. split; [done|]. destruct Hres as [?|Hpg]; [done|exfalso].
    pose proof (progress_bound re' _ ids Hpg Hn) as Hb. rewrite Hl in Hb. apply (Nat.lt_irrefl k), Hb.
    intros i Hi. destruct (Hids i Hi) as (e & He & Hk' & Hown). split; [apply Hown|]. right. eauto.
Qed.
End within.
End object.
End delivery.

(** ** The contract, for the hash table of the source *)

Abbreviation Reassembler := (FecReassembler (Table.ObjectTable ObjState)).

(** [s] is a symbol of [ct] under [scheme], from an encoding or a
    retransmission. *)
Definition sent_symbol {cpu : Cpu} (ct : list u8) (p : FlowParams) (scheme : Scheme) (s : Symbol) : Prop :=
  exists oid repair syms, build ct p oid repair = Ret syms /\ s ∈ syms /\
    scheme_of p (repair_of (source_count (N.of_nat (length ct)) (symbol_size p)) repair) = scheme.

Lemma sent_own {cpu : Cpu} ct p scheme s :
  codable ct p -> sent_symbol ct p scheme s ->
  exists idx, own_symbol ct scheme (source_count (N.of_nat (length ct)) (symbol_size p))
    (Nat.min (length ct) (N.to_nat (symbol_size p))) s idx.
Proof.
  intros Hc (oid & repair & syms & Hb & Hs & <-). pose proof (codable_k ct p Hc) as Hk.
  destruct (build_codable ct p oid repair Hc) as [_ Hb']. rewrite Hb' in Hb. injection Hb as <-.
  apply elem_of_map in Hs as (idx & -> & Hidx%elem_of_seq).
  exists idx. split_and!; [unfold repair_of in *; lia|apply scheme_of_valid; lia|eauto].
Qed.

(** Retransmission stays compatible.  For a class with ARQ, the symbols of
    the original encoding and of every retransmission, whatever the repair
    counts, are symbols of one and the same (Cauchy) codeword of the object, so
    that they add up at the receiver. *)
Theorem retransmit_compatible {cpu : Cpu} (e : FecEncoder) ct p oid repair extra :
  codable ct p -> arq p = true ->
  exists syms1 e1 syms2 e2, encode e ct p repair = Ret (syms1, e1) /\
    repair_with_id e1 ct p oid extra = Ret (syms2, e2) /\
    Forall (sent_symbol ct p Cauchy) (syms1 ++ syms2) /\
    length syms2 = source_count (N.of_nat (length ct)) (symbol_size p)
                   + repair_of (source_count (N.of_nat (length ct)) (symbol_size p)) extra /\
    next_object_id e2 = next_object_id e1.
Proof.
  intros Hc Harq.
  destruct (build_codable ct p (next_object_id e) repair Hc) as [_ Hb1].
  destruct (build_codable ct p oid extra Hc) as [_ Hb2].
  unfold encode, repair_with_id. rewrite Hb1. cbn [rbind]. rewrite Hb2. cbn [rbind].
  do 4 eexists. split_and!; [reflexivity|reflexivity| |by rewrite length_map, length_seq|reflexivity].
  apply Forall_forall. intros s [Hs|Hs]%elem_of_app.
  - eexists _, _, _. split_and!; [exact Hb1|exact Hs|]. unfold scheme_of. by rewrite Harq.
  - eexists _, _, _. split_and!; [exact Hb2|exact Hs|]. unfold scheme_of. by rewrite Harq.
Qed.

(** Whatever symbols arrive, under whatever keys and at whatever times,
    the reassembler neither panics nor loops; it never holds more objects than
    it was made for, its counters and buffers stay consistent, and an object it
    returns has the length its symbols announce. *)
Theorem push_never_panics {cpu : Cpu} (sym : N) (max : nat) (evs : list event) :
  exists outs (re : Reassembler), push_all (reassembler_new sym max) evs = Ret (outs, re) /\
    re_wf re /\ in_flight re <= Nat.max max 1 /\
    Forall2 (fun e out => forall o, out = Some o -> length o = N.to_nat (object_size (ev_sym e))) evs outs.
Proof.
  destruct (push_all_ok (reassembler_new sym max : Reassembler) evs (reassembler_new_wf sym max))
    as (outs & re & Hp & Hwf & Hmax & Hf).
  exists outs, re. split_and!; try done. unfold in_flight. rewrite store_len_ok by apply Hwf.
  rewrite (queue_size _ _ _ Hwf). etransitivity; [apply Hwf|]. by rewrite Hmax.
Qed.

(** Integrity.  When every symbol that arrives under [key] was produced by
    encoding or retransmitting [ct], whatever arrives under other keys, the
    only object the reassembler ever returns for [key] is [ct] itself. *)
Theorem push_integrity {cpu : Cpu} ct p scheme key max evs outs (re : Reassembler) :
  codable ct p ->
  Forall (fun e => ev_key e = key -> sent_symbol ct p scheme (ev_sym e)) evs ->
  push_all (reassembler_new (symbol_size p) max) evs = Ret (outs, re) ->
  Forall2 (fun e out => ev_key e = key -> forall o, out = Some o -> o = ct) evs outs.
Proof.
  intros Hc Hev Hrun. pose proof (codable_k ct p Hc) as Hk. pose proof Hc as (Hpos & Hmax & Hsym & _).
  eapply (push_all_integrity ct (symbol_size p) scheme _ _ eq_refl eq_refl Hpos Hmax Hsym Hk key);
    [apply reassembler_new_wf|done| | |exact Hrun].
  - destruct (@store_new_ok _ _ _ (@table_laws ObjState) (Nat.max max 1)) as (_ & Hm & _).
    cbn [objects reassembler_new]. rewrite Hm. intros st. by rewrite lookup_empty.
  - eapply Forall_impl; [exact Hev|]. cbn. intros e He Hkey. apply sent_own; auto.
Qed.

(** C10: delivery.  When the symbols that arrive under [key] are symbols of
    [ct], K of them are distinct, all arrivals fall within the object's
    deadline and they use no more keys than the reassembler keeps objects, then
    one of the arrivals under [key] makes it return [ct], whatever the order,
    the duplicates and the symbols of other objects in between. *)
Theorem push_delivers {cpu : Cpu} ct p scheme key max deadline keys ids evs :
  codable ct p ->
  Forall (fun e => ev_key e = key -> sent_symbol ct p scheme (ev_sym e)) evs ->
  Forall (in_time key deadline keys) evs -> length keys <= Nat.max max 1 ->
  NoDup ids -> length ids = source_count (N.of_nat (length ct)) (symbol_size p) ->
  Forall (fun i => Exists (fun e => ev_key e = key /\
    option_map fst (parse_payload_id (payload_id (ev_sym e))) = Some (N.of_nat i)) evs) ids ->
  exists outs (re : Reassembler), push_all (reassembler_new (symbol_size p) max) evs = Ret (outs, re) /\
    exists n e, evs !! n = Some e /\ ev_key e = key /\ outs !! n = Some (Some ct).
Proof.
  intros Hc Hev Htime Hkeys Hn Hl Hids. pose proof (codable_k ct p Hc) as Hk.
  pose proof Hc as (Hpos & Hmax & Hsym & _).
  eapply (push_all_delivers ct (symbol_size p) scheme _ _ eq_refl eq_refl Hpos Hmax Hsym Hk key deadline keys
            max evs ids Hkeys Htime); try done.
  - eapply Forall_impl; [exact Hev|]. cbn. intros e He Hkey. apply sent_own; auto.
  - intros i Hi. rewrite Forall_forall in Hids. specialize (Hids i Hi).
    apply Exists_exists in Hids as (e & He & Hkey & Hpid). exists e. split_and!; try done.
    rewrite Forall_forall in Hev. destruct (sent_own ct p scheme (ev_sym e) Hc (Hev e He Hkey)) as [j Hj].
    replace i with j; [done|]. destruct Hj as (Hj & _ & oid & Es). rewrite Es in Hpid.
    unfold wire_symbol in Hpid. cbn [payload_id] in Hpid.
    rewrite parse_pack in Hpid by (unfold u16_mod; lia). cbn in Hpid. injection Hpid. lia.
Qed.

(** ** A worked example: three source and two repair symbols *)

Definition demo_cpu : Cpu := mkCpu OtherArch false false false false false false.
Definition demo_params : FlowParams := mkFlowParams 4 f32_0_10 100 false.
Definition demo_object : list u8 := map (fun i => n2b (N.of_nat (7 * i + 1))) (seq 0 10).

Definition demo_symbols : list Symbol :=
  Eval vm_compute in
  match @build demo_cpu demo_object demo_params 9 2 with Ret l => l | Panic => [] end.

(** Symbols 4, 0 (twice) and 3 of the object under key 5, and one of another
    object under key 6. *)
Definition demo_events : list event :=
  Eval vm_compute in
  let at_ key n t := match demo_symbols !! n with
                     | Some s => [mkEvent key s t 100]
                     | None => [] end in
  at_ 5%N 4 10%N ++ at_ 6%N 1 11%N ++ at_ 5%N 0 12%N ++ at_ 5%N 0 13%N ++ at_ 5%N 3 14%N.

Lemma demo_sent :
  Forall (fun e => ev_key e = 5%N -> @sent_symbol demo_cpu demo_object demo_params Pq (ev_sym e)) demo_events.
Proof.
  assert (Hb : @build demo_cpu demo_object demo_params 9 2 = Ret demo_symbols) by (vm_compute; reflexivity).
  assert (Hall : forall n s, demo_symbols !! n = Some s -> @sent_symbol demo_cpu demo_object demo_params Pq s).
  { intros n s Hs. exists 9%N, 2%N, demo_symbols.
    split_and!; [exact Hb|by eapply list_elem_of_lookup_2|reflexivity]. }
  unfold demo_events. apply Forall_cons. split; [intros _; apply (Hall 4); reflexivity|].
  apply Forall_cons. split; [intros H; exfalso; discriminate H|].
  do 2 (apply Forall_cons; split; [intros _; apply (Hall 0); reflexivity|]).
  apply Forall_cons. split; [intros _; apply (Hall 3); reflexivity|constructor].
Qed.

Lemma demo_codable : codable demo_object demo_params.
Proof. unfold codable. split_and!; [vm_compute; lia|vm_compute; discriminate|discriminate|vm_compute; lia]. Qed.

Lemma push_integrity_witness :
  exists outs (re : Reassembler),
    push_all (cpu := demo_cpu) (reassembler_new 4 8) demo_events = Ret (outs, re) /\
    Forall2 (fun e out => ev_key e = 5%N -> forall o, out = Some o -> o = demo_object) demo_events outs.
Proof.
  destruct (push_all (cpu := demo_cpu) (reassembler_new 4 8 : Reassembler) demo_events) as [[outs re]|] eqn:E.
  - exists outs, re. split; [reflexivity|].
    exact (push_integrity (cpu := demo_cpu) demo_object demo_params Pq 5 8 demo_events outs re
             demo_codable demo_sent E).
  - vm_compute in E. discriminate E.
Defined.

Lemma demo_in_time : Forall (in_time 5 100 [5%N; 6%N]) demo_events.
Proof.
  unfold demo_events. repeat (apply Forall_cons; split; [|]); try constructor; cbn [ev_now ev_key ev_deadline].
  all: try lia.
  all: split; [|intros _; vm_compute; discriminate].
  all: rewrite !elem_of_cons; auto.
Qed.

Lemma push_delivers_witness :
  exists outs (re : Reassembler),
    push_all (cpu := demo_cpu) (reassembler_new 4 8) demo_events = Ret (outs, re) /\
    exists n e, demo_events !! n = Some e /\ ev_key e = 5%N /\ outs !! n = Some (Some demo_object).
Proof.
  apply (push_delivers (cpu := demo_cpu) demo_object demo_params Pq 5 8 100 [5%N; 6%N] [0; 3; 4] demo_events
           demo_codable demo_sent demo_in_time).
  - vm_compute. lia.
  - apply (bool_decide_unpack _). vm_compute. exact I.
  - vm_compute. reflexivity.
  - apply (bool_decide_unpack _). vm_compute. exact I.
Defined.

Lemma retransmit_compatible_witness :
  exists syms1 e1 syms2 e2,
    encode (cpu := demo_cpu) encoder_new demo_object (mkFlowParams 4 f32_0_05 500 true) 1 = Ret (syms1, e1) /\
    repair_with_id (cpu := demo_cpu) e1 demo_object (mkFlowParams 4 f32_0_05 500 true) 0 3 = Ret (syms2, e2) /\
    Forall (sent_symbol (cpu := demo_cpu) demo_object (mkFlowParams 4 f32_0_05 500 true) Cauchy) (syms1 ++ syms2) /\
    length syms2 = 3 + 3 /\ next_object_id e2 = next_object_id e1.
Proof.
  apply (retransmit_compatible (cpu := demo_cpu) encoder_new demo_object (mkFlowParams 4 f32_0_05 500 true) 0 1 3).
  - exact demo_codable.
  - reflexivity.
Defined.

Lemma encode_systematic_witness :
  exists syms, encode (cpu := demo_cpu) encoder_new demo_object demo_params 2
      = Ret (syms, mkEncoder 1 1 5) /\ concat (map data (take 3 syms)) = demo_object.
Proof.
  destruct (encode_systematic (cpu := demo_cpu) encoder_new demo_object demo_params 2 demo_codable)
    as (syms & He & Hl & Hcat & _).
  exists syms. split; [|exact Hcat]. rewrite He, Hl. reflexivity.
Defined.
