(* ===== verification/AntiReplay.v ===== *)
(** * The anti-replay window

    [ReplayWindow] of [crates/yip-crypto/src/lib.rs]: a ring of 64-bit words
    over a monotonic 64-bit counter, in two sizes.  [check] reads, [commit]
    records, [promote_to_high_throughput] moves to the larger ring.

    The abstract window [spec] keeps the list of marked counters and no ring.
    A ring of [W] words covers the [W] words up to the one of the latest
    counter, while the acceptance test admits [64 * W] counters behind the
    latest one, which may begin inside one word more.  A counter in that extra
    word shares its ring word with the latest counter; [slot] makes this
    explicit, and the theorems below say exactly what follows from it. *)
From Stdlib Require Import NArith Lia.
From stdpp Require Import base numbers sets list.
From S2P Require Import Prelude.

Local Open Scope N_scope.

Module Replay.

Definition REPLAY_WINDOW_BITS_STANDARD : N := 8192.
Definition REPLAY_WORDS_STANDARD : nat := 128.
Definition REPLAY_WINDOW_BITS_HIGH_THROUGHPUT : N := 131072.
Definition REPLAY_WORDS_HIGH_THROUGHPUT : nat := 2048.

Inductive ReplayProfile := Standard | HighThroughput.
#[export] Instance replay_profile_eq_dec : EqDecision ReplayProfile.
Proof. solve_decision. Defined.

Definition bits (p : ReplayProfile) : N :=
  match p with
  | Standard => REPLAY_WINDOW_BITS_STANDARD
  | HighThroughput => REPLAY_WINDOW_BITS_HIGH_THROUGHPUT
  end.

Definition words (p : ReplayProfile) : nat :=
  match p with
  | Standard => REPLAY_WORDS_STANDARD
  | HighThroughput => REPLAY_WORDS_HIGH_THROUGHPUT
  end.

Record ReplayWindow := mkWindow {
  profile : ReplayProfile;
  latest : N;
  bitmap : list N;
  started : bool;
}.

Definition new_with_profile (p : ReplayProfile) : ReplayWindow :=
  mkWindow p 0 (replicate (words p) 0) false.

Definition window_new : ReplayWindow := new_with_profile HighThroughput.

(** [(w as usize) & (len - 1)] *)
Definition ring_idx (len : nat) (w : N) : nat := N.to_nat (N.land w (N.of_nat len - 1)).

Definition word_idx (rw : ReplayWindow) (counter : N) : nat := ring_idx (length (bitmap rw)) (counter / 64).

Definition bit_mask (counter : N) : N := N.shiftl 1 (counter mod 64).

(** [bm[idx] = w], out of range is a panic. *)
Definition set_word (idx : nat) (w : N) (bm : list N) : run (list N) :=
  if decide (idx < length bm)%nat then Ret (<[idx := w]> bm) else Panic.

Definition promote_to_high_throughput (rw : ReplayWindow) : run ReplayWindow :=
  if decide (profile rw = HighThroughput) then Ret rw
  else
  let old_words := length (bitmap rw) in
  let new_words := words HighThroughput in
  let! new_bitmap :=
    if started rw then
      let latest_word := latest rw / 64 in
      let start_word := latest_word - (N.of_nat old_words - 1) in
      rfold (fun bm i =>
               let w := start_word + N.of_nat i in
               let! v := rexpect (bitmap rw !! ring_idx old_words w) in
               set_word (ring_idx new_words w) v bm)
            (seq 0 (N.to_nat (latest_word + 1 - start_word))) (replicate new_words 0)
    else Ret (replicate new_words 0) in
  Ret (mkWindow HighThroughput (latest rw) new_bitmap (started rw)).

Definition check (rw : ReplayWindow) (counter : N) : run bool :=
  if negb (started rw) then Ret true
  else if latest rw <? counter then Ret true
  else
  let diff := latest rw - counter in
  if bits (profile rw) <=? diff then Ret false
  else
  let! w := rexpect (bitmap rw !! word_idx rw counter) in
  Ret (N.land w (bit_mask counter) =? 0).

(** [self.bitmap[idx] |= mask] *)
Definition or_word (rw : ReplayWindow) (counter : N) (bm : list N) : run (list N) :=
  let idx := ring_idx (length bm) (counter / 64) in
  let! w := rexpect (bm !! idx) in
  Ret (<[idx := N.lor w (bit_mask counter)]> bm).

Definition commit (rw : ReplayWindow) (counter : N) : run ReplayWindow :=
  if negb (started rw) then
    let! bm := set_word (word_idx rw counter) (bit_mask counter) (bitmap rw) in
    Ret (mkWindow (profile rw) counter bm true)
  else if latest rw <? counter then
    let diff := counter - latest rw in
    let window_bits := bits (profile rw) in
    let total_words := length (bitmap rw) in
    let! bm :=
      if window_bits <=? diff then Ret (replicate total_words 0)
      else
        let old_word := latest rw / 64 in
        let new_word := counter / 64 in
        if old_word <? new_word then
          let words_to_clear := Nat.min (N.to_nat (new_word - old_word)) total_words in
          rfold (fun bm w => set_word (ring_idx total_words (old_word + N.of_nat w)) 0 bm)
                (seq 1 words_to_clear) (bitmap rw)
        else Ret (bitmap rw) in
    let! bm := or_word rw counter bm in
    Ret (mkWindow (profile rw) counter bm true)
  else
    let diff := latest rw - counter in
    if diff <? bits (profile rw) then
      let! bm := or_word rw counter (bitmap rw) in
      Ret (mkWindow (profile rw) (latest rw) bm true)
    else Ret rw.

Definition check_and_set (rw : ReplayWindow) (counter : N) : run (bool * ReplayWindow) :=
  let! ok := check rw counter in
  if ok : bool then let! rw := commit rw counter in Ret (true, rw) else Ret (false, rw).

(** ** The abstract window *)

Record spec := mkSpec {
  sp_profile : ReplayProfile;
  sp_latest : N;
  sp_started : bool;
  sp_marked : list N;
}.

Definition span (p : ReplayProfile) : N := N.of_nat (words p).

(** The words the ring holds. *)
Definition in_ring (p : ReplayProfile) (latest_ c : N) : bool := latest_ / 64 <? c / 64 + span p.

(** The counter whose bit stands for [c]. *)
Definition slot (p : ReplayProfile) (latest_ c : N) : N :=
  if in_ring p latest_ c then c else c + 64 * span p.

Definition spec_new (p : ReplayProfile) : spec := mkSpec p 0 false [].

Definition spec_check (s : spec) (c : N) : bool :=
  if negb (sp_started s) then true
  else if sp_latest s <? c then true
  else if bits (sp_profile s) <=? sp_latest s - c then false
  else bool_decide (slot (sp_profile s) (sp_latest s) c ∉ sp_marked s).

Definition spec_commit (s : spec) (c : N) : spec :=
  if negb (sp_started s) then mkSpec (sp_profile s) c true [c]
  else if sp_latest s <? c then mkSpec (sp_profile s) c true (c :: sp_marked s)
  else if sp_latest s - c <? bits (sp_profile s)
  then mkSpec (sp_profile s) (sp_latest s) true (slot (sp_profile s) (sp_latest s) c :: sp_marked s)
  else s.

Definition spec_promote (s : spec) : spec :=
  match sp_profile s with
  | HighThroughput => s
  | Standard => mkSpec HighThroughput (sp_latest s) (sp_started s)
                  (filter (fun c => in_ring Standard (sp_latest s) c = true) (sp_marked s))
  end.

(** ** Ring arithmetic *)

Definition exponent (p : ReplayProfile) : N := match p with Standard => 7 | HighThroughput => 11 end.

Lemma span_pow p : span p = 2 ^ exponent p.
Proof. by destruct p. Qed.

Lemma span_pos p : 0 < span p.
Proof. by destruct p. Qed.

Lemma bits_span p : bits p = 64 * span p.
Proof. by destruct p. Qed.

Lemma ring_idx_mod p w : ring_idx (words p) w = N.to_nat (w mod span p).
Proof.
  unfold ring_idx. f_equal. change (N.of_nat (words p)) with (span p). rewrite span_pow.
  replace (2 ^ exponent p - 1) with (N.ones (exponent p)) by (rewrite N.ones_equiv; lia).
  apply N.land_ones.
Qed.

Lemma ring_idx_lt p w : (ring_idx (words p) w < words p)%nat.
Proof.
  rewrite ring_idx_mod. pose proof (N.mod_lt w (span p)) as H. pose proof (span_pos p).
  specialize (H ltac:(lia)). unfold span in *. lia.
Qed.

(** Words of one ring turn have distinct places. *)
Lemma ring_idx_inj p v w :
  v <= w -> w < v + span p -> ring_idx (words p) v = ring_idx (words p) w -> v = w.
Proof.
  rewrite !ring_idx_mod. intros Hle Hlt E. pose proof (span_pos p).
  assert (Em : v mod span p = w mod span p) by lia.
  pose proof (N.div_mod v (span p) ltac:(lia)) as Hv. pose proof (N.div_mod w (span p) ltac:(lia)) as Hw.
  assert (v / span p = w / span p) by nia. nia.
Qed.

Lemma ring_idx_turn p v : ring_idx (words p) (v + span p) = ring_idx (words p) v.
Proof.
  rewrite !ring_idx_mod. f_equal. pose proof (span_pos p).
  rewrite <- (N.mul_1_l (span p)) at 1. apply N.Div0.mod_add.
Qed.

Lemma word_bit w b : b < 64 -> (64 * w + b) / 64 = w /\ (64 * w + b) mod 64 = b.
Proof.
  intros Hb. rewrite (N.mul_comm 64). split.
  - rewrite N.div_add_l by lia. rewrite N.div_small by done. lia.
  - rewrite N.add_comm, N.Div0.mod_add. by apply N.mod_small.
Qed.

Lemma word_bit_eq c w b : b < 64 -> c = 64 * w + b <-> c / 64 = w /\ c mod 64 = b.
Proof.
  intros Hb. split; [intros ->; by apply word_bit|]. intros [<- <-]. apply N.div_mod. lia.
Qed.

Lemma testbit_bit_mask c b : N.testbit (bit_mask c) b = (b =? c mod 64).
Proof.
  unfold bit_mask. rewrite N.shiftl_1_l. destruct (N.eqb_spec b (c mod 64)) as [->|].
  - apply N.pow2_bits_true.
  - apply N.pow2_bits_false. congruence.
Qed.

Lemma land_bit_mask w c : (N.land w (bit_mask c) =? 0) = negb (N.testbit w (c mod 64)).
Proof.
  destruct (N.testbit w (c mod 64)) eqn:E; cbn.
  - apply N.eqb_neq. intros H. apply (f_equal (fun x => N.testbit x (c mod 64))) in H.
    rewrite N.land_spec, testbit_bit_mask, N.eqb_refl, E in H. done.
  - apply N.eqb_eq, N.bits_inj. intros b. rewrite N.land_spec, testbit_bit_mask, N.bits_0.
    destruct (N.eqb_spec b (c mod 64)) as [->|]; [by rewrite E|apply andb_false_r].
Qed.

(** Bit [b] of the ring word of [w]. *)
Definition bit_at (p : ReplayProfile) (bm : list N) (w b : N) : bool :=
  N.testbit (bm !!! ring_idx (words p) w) b.

Lemma or_word_ok p rw c bm :
  length bm = words p ->
  exists bm', or_word rw c bm = Ret bm' /\ length bm' = words p /\
    forall w b, bit_at p bm' w b
      = bit_at p bm w b || (bool_decide (ring_idx (words p) w = ring_idx (words p) (c / 64)) && (b =? c mod 64)).
Proof.
  intros Hl. unfold or_word. rewrite Hl. pose proof (ring_idx_lt p (c / 64)) as Hlt.
  rewrite list_lookup_lookup_total_lt by lia. cbn [rexpect rbind].
  eexists. split_and!; [done|by rewrite length_insert|]. intros w b. unfold bit_at.
  case_bool_decide as E.
  - rewrite E, list_lookup_total_insert_eq by lia. rewrite N.lor_spec, testbit_bit_mask. done.
  - rewrite list_lookup_total_insert_ne by done. by rewrite orb_false_r.
Qed.

Lemma set_word_ok p w v bm :
  length bm = words p ->
  exists bm', set_word (ring_idx (words p) w) v bm = Ret bm' /\ length bm' = words p /\
    forall w' b, bit_at p bm' w' b
      = if bool_decide (ring_idx (words p) w' = ring_idx (words p) w) then N.testbit v b else bit_at p bm w' b.
Proof.
  intros Hl. unfold set_word. pose proof (ring_idx_lt p w) as Hlt. rewrite decide_True by lia.
  eexists. split_and!; [done|by rewrite length_insert|]. intros w' b. unfold bit_at.
  case_bool_decide as E.
  - rewrite E, list_lookup_total_insert_eq by lia. done.
  - by rewrite list_lookup_total_insert_ne.
Qed.

(** The clearing loop. *)
Lemma clear_words_ok p old n bm :
  length bm = words p ->
  exists bm', rfold (fun bm w => set_word (ring_idx (words p) (old + N.of_nat w)) 0 bm) (seq 1 n) bm = Ret bm' /\
    length bm' = words p /\
    (forall w b, (exists i, (1 <= i <= n)%nat /\ ring_idx (words p) w = ring_idx (words p) (old + N.of_nat i)) ->
       bit_at p bm' w b = false) /\
    (forall w b, (forall i, (1 <= i <= n)%nat -> ring_idx (words p) w <> ring_idx (words p) (old + N.of_nat i)) ->
       bit_at p bm' w b = bit_at p bm w b).
Proof.
  intros Hl. induction n as [|n IH].
  { exists bm. split_and!; [done..| |done]. intros w b (i & Hi & _). lia. }
  destruct IH as (bm1 & Hr & Hl1 & Hc & Hk). rewrite seq_S, rfold_app, Hr. cbn [rbind rfold].
  destruct (set_word_ok p (old + N.of_nat (1 + n)) 0 bm1 Hl1) as (bm2 & -> & Hl2 & Hb2).
  exists bm2. split_and!; [done|done| |].
  - intros w b (i & Hi & E). rewrite Hb2. case_bool_decide as En; [apply N.bits_0|].
    apply Hc. exists i. split; [|done]. destruct (decide (i = S n)) as [->|]; [done|lia].
  - intros w b Hno. rewrite Hb2. rewrite bool_decide_false by (apply Hno; lia). apply Hk.
    intros i Hi. apply Hno. lia.
Qed.


(** ** The ring implements the abstract window *)

Record refines (rw : ReplayWindow) (s : spec) : Prop := {
  rf_profile : sp_profile s = profile rw;
  rf_latest : sp_latest s = latest rw;
  rf_started : sp_started s = started rw;
  rf_len : length (bitmap rw) = words (profile rw);
  rf_fresh : started rw = false ->
    sp_marked s = [] /\ bitmap rw = replicate (words (profile rw)) 0;
  rf_top : forall m, m ∈ sp_marked s -> m / 64 <= latest rw / 64;
  rf_bits : started rw = true -> forall w b,
    w <= latest rw / 64 -> latest rw / 64 < w + span (profile rw) -> b < 64 ->
    bit_at (profile rw) (bitmap rw) w b = bool_decide (64 * w + b ∈ sp_marked s);
}.

Lemma new_refines p : refines (new_with_profile p) (spec_new p).
Proof.
  split; try done; [apply length_replicate|]. intros m Hm. by apply not_elem_of_nil in Hm.
Qed.

(** The counter a bit stands for lies in the word of the ring. *)
Lemma slot_word p lat c :
  c <= lat -> lat - c < bits p ->
  slot p lat c / 64 <= lat / 64 /\ lat / 64 < slot p lat c / 64 + span p /\
  ring_idx (words p) (slot p lat c / 64) = ring_idx (words p) (c / 64) /\
  slot p lat c mod 64 = c mod 64.
Proof.
  intros Hle Hd. rewrite bits_span in Hd. unfold slot, in_ring. pose proof (span_pos p).
  assert (c / 64 <= lat / 64) by (apply N.Div0.div_le_mono; done).
  destruct (N.ltb_spec (lat / 64) (c / 64 + span p)) as [Hin|Hout]; [done|].
  assert (E : (c + 64 * span p) / 64 = c / 64 + span p).
  { rewrite (N.mul_comm 64), N.div_add by lia. done. }
  assert (Hup : lat / 64 <= c / 64 + span p).
  { rewrite <- E. apply N.Div0.div_le_mono. lia. }
  rewrite E. split_and!; [lia|lia|apply ring_idx_turn|].
  rewrite (N.mul_comm 64). apply N.Div0.mod_add.
Qed.

Lemma check_refines rw s c : refines rw s -> check rw c = Ret (spec_check s c).
Proof.
  intros [Hp Hlat Hst Hlen Hfr Htop Hbits]. unfold check, spec_check. rewrite Hp, Hlat, Hst.
  destruct (started rw) eqn:Est; cbn [negb]; [|done].
  destruct (N.ltb_spec (latest rw) c) as [|Hle]; [done|].
  destruct (N.leb_spec (bits (profile rw)) (latest rw - c)) as [|Hd]; [done|].
  destruct (slot_word (profile rw) (latest rw) c Hle Hd) as (H1 & H2 & H3 & H4).
  unfold word_idx. rewrite Hlen. pose proof (ring_idx_lt (profile rw) (c / 64)) as Hlt.
  rewrite list_lookup_lookup_total_lt by lia. cbn [rexpect rbind]. f_equal.
  rewrite land_bit_mask. set (m := slot (profile rw) (latest rw) c) in *.
  pose proof (Hbits eq_refl (m / 64) (m mod 64) H1 H2 ltac:(apply N.mod_lt; lia)) as Hb.
  rewrite <- N.div_mod in Hb by lia. unfold bit_at in Hb. rewrite H3, H4 in Hb. rewrite Hb.
  symmetry. apply bool_decide_not.
Qed.

(** Marking one more counter of the ring. *)
Lemma mark_bits p bm bm' lat marked m :
  m / 64 <= lat / 64 -> lat / 64 < m / 64 + span p ->
  (forall w b, bit_at p bm' w b
     = bit_at p bm w b || (bool_decide (ring_idx (words p) w = ring_idx (words p) (m / 64)) && (b =? m mod 64))) ->
  (forall w b, w <= lat / 64 -> lat / 64 < w + span p -> b < 64 ->
     bit_at p bm w b = bool_decide (64 * w + b ∈ marked)) ->
  forall w b, w <= lat / 64 -> lat / 64 < w + span p -> b < 64 ->
    bit_at p bm' w b = bool_decide (64 * w + b ∈ m :: marked).
Proof.
  intros Hm1 Hm2 Hor Hb w b Hw1 Hw2 Hb64. rewrite Hor, Hb by done.
  assert (Hidx : ring_idx (words p) w = ring_idx (words p) (m / 64) <-> w = m / 64).
  { split; [|by intros ->]. intros E. destruct (N.le_ge_cases w (m / 64)).
    - by apply (ring_idx_inj p); [|lia|].
    - symmetry. apply (ring_idx_inj p); [done|lia|by symmetry]. }
  rewrite (bool_decide_ext _ _ Hidx). apply Bool.eq_iff_eq_true.
  rewrite orb_true_iff, andb_true_iff, !bool_decide_eq_true, N.eqb_eq, elem_of_cons.
  pose proof (word_bit_eq m w b Hb64) as Hwb. split.
  - intros [?|[-> ->]]; [by right|left]. symmetry. by apply Hwb.
  - intros [E|?]; [right|by left]. symmetry in E. apply Hwb in E as [-> ->]. done.
Qed.

(** Advancing to a later counter clears exactly the words it enters. *)
Lemma advance_ok p bm0 lat c (marked : list N) :
  length bm0 = words p -> lat < c -> (forall m, m ∈ marked -> m / 64 <= lat / 64) ->
  (forall w b, w <= lat / 64 -> lat / 64 < w + span p -> b < 64 ->
     bit_at p bm0 w b = bool_decide (64 * w + b ∈ marked)) ->
  exists bm',
    (if bits p <=? c - lat then Ret (replicate (length bm0) 0)
     else if lat / 64 <? c / 64 then
       rfold (fun bm w => set_word (ring_idx (length bm0) (lat / 64 + N.of_nat w)) 0 bm)
         (seq 1 (Nat.min (N.to_nat (c / 64 - lat / 64)) (length bm0))) bm0
     else Ret bm0) = Ret bm' /\ length bm' = words p /\
    forall w b, w <= c / 64 -> c / 64 < w + span p -> b < 64 ->
      bit_at p bm' w b = bool_decide (64 * w + b ∈ marked).
Proof.
  intros Hl Hlt Htop Hb. rewrite Hl, bits_span. pose proof (span_pos p) as Hsp.
  assert (Hdiv : lat / 64 <= c / 64) by (apply N.Div0.div_le_mono; lia).
  assert (Hnew : forall w b, b < 64 -> lat / 64 < w -> bool_decide (64 * w + b ∈ marked) = false).
  { intros w b Hb64 Hw. apply bool_decide_false. intros Hm%Htop.
    rewrite (proj1 (word_bit w b Hb64)) in Hm. lia. }
  destruct (N.leb_spec (64 * span p) (c - lat)) as [Hbig|Hsmall].
  - exists (replicate (words p) 0). split_and!; [done|apply length_replicate|]. intros w b Hw1 Hw2 Hb64.
    assert (Hleap : lat / 64 + span p <= c / 64).
    { rewrite <- N.div_add by lia. apply N.Div0.div_le_mono. lia. }
    rewrite Hnew by (done || lia). unfold bit_at. rewrite lookup_total_replicate_2 by apply ring_idx_lt.
    apply N.bits_0.
  - assert (Hup : c / 64 <= lat / 64 + span p).
    { rewrite <- N.div_add by lia. apply N.Div0.div_le_mono. lia. }
    destruct (N.ltb_spec (lat / 64) (c / 64)) as [Hmove|Hstay].
    + rewrite Nat.min_l by (unfold span in *; lia).
      destruct (clear_words_ok p (lat / 64) (N.to_nat (c / 64 - lat / 64)) bm0 Hl)
        as (bm' & -> & Hl' & Hclr & Hkeep).
      exists bm'. split_and!; [done|done|]. intros w b Hw1 Hw2 Hb64.
      destruct (N.le_gt_cases w (lat / 64)) as [Hold|Hin].
      * rewrite Hkeep; [apply Hb; lia|]. intros i Hi E. apply (ring_idx_inj p) in E; lia.
      * rewrite Hnew by done. apply Hclr. exists (N.to_nat (w - lat / 64)). split; [lia|]. f_equal. lia.
    + exists bm0. split_and!; [done|done|]. intros w b Hw1 Hw2 Hb64. apply Hb; lia.
Qed.

Lemma commit_refines rw s c : refines rw s -> exists rw', commit rw c = Ret rw' /\ refines rw' (spec_commit s c).
Proof.
  intros [Hp Hlat Hst Hlen Hfr Htop Hbits]. unfold commit, spec_commit. rewrite Hp, Hlat, Hst.
  set (p := profile rw) in *. pose proof (span_pos p) as Hsp.
  destruct (started rw) eqn:Est; cbn [negb].
  2: { destruct (Hfr eq_refl) as [Hm Hz]. unfold word_idx. rewrite Hlen.
    destruct (set_word_ok p (c / 64) (bit_mask c) (bitmap rw) Hlen) as (bm & -> & Hl & Hb).
    cbn [rbind]. eexists. split; [done|]. split; cbn; try done.
    - intros m ->%list_elem_of_singleton. done.
    - intros _. apply (mark_bits p (replicate (words p) 0) bm c [] c); [done|lia| |].
      + intros w b. rewrite Hb, Hz. unfold bit_at. rewrite lookup_total_replicate_2 by apply ring_idx_lt.
        rewrite N.bits_0. case_bool_decide; [apply testbit_bit_mask|done].
      + intros w b _ _ _. unfold bit_at. rewrite lookup_total_replicate_2 by apply ring_idx_lt.
        rewrite N.bits_0. by rewrite bool_decide_false by apply not_elem_of_nil. }
  destruct (N.ltb_spec (latest rw) c) as [Hgt|Hle].
  - assert (Hdiv : latest rw / 64 <= c / 64) by (apply N.Div0.div_le_mono; lia).
    destruct (advance_ok p (bitmap rw) (latest rw) c (sp_marked s) Hlen Hgt Htop (Hbits eq_refl))
      as (bm & -> & Hl & Hb). cbn [rbind].
    destruct (or_word_ok p rw c bm Hl) as (bm' & -> & Hl' & Hor). cbn [rbind].
    eexists. split; [done|]. split; cbn; try done.
    + intros m [->|Hm]%elem_of_cons; [done|]. etransitivity; [by apply Htop|done].
    + intros _. apply (mark_bits p bm bm' c (sp_marked s) c); [done|lia|done|done].
  - destruct (N.ltb_spec (latest rw - c) (bits p)) as [Hd|Hd].
    + destruct (slot_word p (latest rw) c Hle Hd) as (H1 & H2 & H3 & H4).
      destruct (or_word_ok p rw c (bitmap rw) Hlen) as (bm' & -> & Hl' & Hor). cbn [rbind].
      eexists. split; [done|]. split; cbn; try done.
      * intros m [->|Hm]%elem_of_cons; [done|by apply Htop].
      * intros _. apply (mark_bits p (bitmap rw) bm' (latest rw)); try done; [|by apply Hbits].
        intros w b. by rewrite Hor, H3, H4.
    + exists rw. split; [done|]. split; rewrite ?Est; try done; congruence.
Qed.


(** Copying the words of the small ring into the large one. *)
Lemma copy_words_ok old lw n :
  let start := lw - (span Standard - 1) in
  length old = words Standard -> start + N.of_nat n <= lw + 1 ->
  exists bm, rfold (fun bm i =>
      let w := start + N.of_nat i in
      let! v := rexpect (old !! ring_idx (words Standard) w) in
      set_word (ring_idx (words HighThroughput) w) v bm) (seq 0 n) (replicate (words HighThroughput) 0) = Ret bm /\
    length bm = words HighThroughput /\
    forall w b, w <= lw -> lw < w + span HighThroughput ->
      bit_at HighThroughput bm w b
      = if bool_decide (start <= w < start + N.of_nat n) then bit_at Standard old w b else false.
Proof.
  intros start Hl. induction n as [|n IH]; intros Hn.
  { exists (replicate (words HighThroughput) 0). split_and!; [done|apply length_replicate|].
    intros w b _ _. rewrite bool_decide_false by lia. unfold bit_at.
    rewrite lookup_total_replicate_2 by apply ring_idx_lt. apply N.bits_0. }
  destruct IH as (bm & Hr & Hlb & Hb); [lia|]. rewrite seq_S, rfold_app, Hr. cbn [rbind rfold Nat.add].
  pose proof (ring_idx_lt Standard (start + N.of_nat n)) as Hlt.
  rewrite list_lookup_lookup_total_lt by lia. cbn [rexpect rbind].
  destruct (set_word_ok HighThroughput (start + N.of_nat n)
              (old !!! ring_idx (words Standard) (start + N.of_nat n)) bm Hlb) as (bm' & -> & Hl' & Hb').
  exists bm'. split_and!; [done|done|]. intros w b Hw1 Hw2. rewrite Hb', Hb by done.
  assert (Hspan : span Standard = 128 /\ span HighThroughput = 2048) by done.
  case_bool_decide as E.
  - assert (Ew : w = start + N.of_nat n).
    { destruct (N.le_ge_cases w (start + N.of_nat n)).
      - apply (ring_idx_inj HighThroughput); [done|lia|done].
      - symmetry. apply (ring_idx_inj HighThroughput); [done|lia|done]. }
    rewrite bool_decide_true by lia. by rewrite Ew.
  - assert (Hne : w <> start + N.of_nat n) by congruence.
    rewrite (bool_decide_ext (start <= w < start + N.of_nat (S n)) (start <= w < start + N.of_nat n)) by lia.
    done.
Qed.

Lemma promote_refines rw s :
  refines rw s -> exists rw', promote_to_high_throughput rw = Ret rw' /\ refines rw' (spec_promote s).
Proof.
  intros [Hp Hlat Hst Hlen Hfr Htop Hbits]. unfold promote_to_high_throughput, spec_promote. rewrite Hp.
  destruct (profile rw) eqn:Epr; [|exists rw; rewrite decide_True by done; split; [done|];
    split; rewrite ?Epr; done].
  rewrite decide_False by done. rewrite Hlen, Hlat, Hst.
  assert (Hfilter : forall c, c ∈ filter (fun c => in_ring Standard (latest rw) c = true) (sp_marked s) <->
    in_ring Standard (latest rw) c = true /\ c ∈ sp_marked s) by (intros c; by rewrite list_elem_of_filter).
  destruct (started rw) eqn:Est.
  - set (lw := latest rw / 64) in *. change (N.of_nat (words Standard)) with (span Standard).
    destruct (copy_words_ok (bitmap rw) lw (N.to_nat (lw + 1 - (lw - (span Standard - 1)))) Hlen)
      as (bm & Hr & Hl & Hb); [lia|]. cbv zeta in Hr |- *. rewrite Hr. cbn [rbind].
    eexists. split; [done|]. split; cbn; try done.
    + intros m [_ Hm]%Hfilter. by apply Htop.
    + intros _ w b Hw1 Hw2 Hb64. rewrite Hb by done. fold lw in Hw1, Hw2.
      assert (Hspan : span Standard = 128) by done.
      assert (Hring : in_ring Standard (latest rw) (64 * w + b) = bool_decide (lw < w + span Standard)).
      { unfold in_ring. rewrite (proj1 (word_bit w b Hb64)). fold lw.
        apply Bool.eq_iff_eq_true. by rewrite bool_decide_eq_true, N.ltb_lt. }
      apply Bool.eq_iff_eq_true. rewrite bool_decide_eq_true, Hfilter, Hring, bool_decide_eq_true.
      clear Hring. case_bool_decide as E.
      * rewrite Hbits by (done || lia). rewrite bool_decide_eq_true. intuition lia.
      * split; [done|]. intros [? _]. lia.
  - cbn [rbind]. destruct (Hfr eq_refl) as [Hm _]. rewrite Hm. eexists. split; [done|]. split; cbn; try done.
    intros m Hx. by apply not_elem_of_nil in Hx.
Qed.


(** ** Sequences of operations *)

Inductive op := OCheck (c : N) | OCommit (c : N) | OPromote.

Fixpoint run_ops (os : list op) (rw : ReplayWindow) : run (list bool * ReplayWindow) :=
  match os with
  | [] => Ret ([], rw)
  | OCheck c :: os =>
      let! b := check rw c in let! ' (bs, rw) := run_ops os rw in Ret (b :: bs, rw)
  | OCommit c :: os => let! rw := commit rw c in run_ops os rw
  | OPromote :: os => let! rw := promote_to_high_throughput rw in run_ops os rw
  end.

Fixpoint spec_ops (os : list op) (s : spec) : list bool * spec :=
  match os with
  | [] => ([], s)
  | OCheck c :: os => let '(bs, s') := spec_ops os s in (spec_check s c :: bs, s')
  | OCommit c :: os => spec_ops os (spec_commit s c)
  | OPromote :: os => spec_ops os (spec_promote s)
  end.

Lemma run_ops_refines os rw s :
  refines rw s ->
  exists rw', run_ops os rw = Ret ((spec_ops os s).1, rw') /\ refines rw' (spec_ops os s).2.
Proof.
  revert rw s. induction os as [|[c|c|] os IH]; intros rw s Hr; cbn [run_ops spec_ops]; [by exists rw|..].
  - rewrite (check_refines rw s c Hr). cbn [rbind]. destruct (IH rw s Hr) as (rw' & -> & Hr'). cbn [rbind].
    exists rw'. by destruct (spec_ops os s).
  - destruct (commit_refines rw s c Hr) as (rw1 & -> & Hr1). cbn [rbind]. by apply IH.
  - destruct (promote_refines rw s Hr) as (rw1 & -> & Hr1). cbn [rbind]. by apply IH.
Qed.

(** C22: the ring bitmap implements the abstract window.  Every sequence of
    checks, commits and promotions runs without a panic and gives the answers
    of the abstract window, which keeps the set of marked counters: a counter
    marks itself while the ring holds its word, and marks the counter one ring
    turn later when the ring no longer does. *)
Theorem window_refines_spec (p : ReplayProfile) (os : list op) :
  exists rw, run_ops os (new_with_profile p) = Ret ((spec_ops os (spec_new p)).1, rw) /\
    refines rw (spec_ops os (spec_new p)).2.
Proof. apply run_ops_refines, new_refines. Qed.

Definition commit_all (cs : list N) (rw : ReplayWindow) : run ReplayWindow := rfold commit cs rw.

Definition spec_commits (cs : list N) (s : spec) : spec := fold_left spec_commit cs s.

Lemma commit_all_refines cs rw s :
  refines rw s -> exists rw', commit_all cs rw = Ret rw' /\ refines rw' (spec_commits cs s).
Proof.
  revert rw s. induction cs as [|c cs IH]; intros rw s Hr; [by exists rw|].
  destruct (commit_refines rw s c Hr) as (rw1 & E & Hr1). unfold commit_all. cbn. rewrite E. cbn [rbind].
  by apply IH.
Qed.

(** What the marks of the abstract window are, in terms of the counters
    committed so far. *)
Record history (p : ReplayProfile) (cs : list N) (s : spec) : Prop := {
  hi_profile : sp_profile s = p;
  hi_started : sp_started s = bool_decide (cs <> []);
  hi_latest : forall c, c ∈ cs -> c <= sp_latest s;
  hi_latest_in : cs <> [] -> sp_latest s ∈ cs;
  hi_seen : forall c, c ∈ cs -> in_ring p (sp_latest s) c = true -> c ∈ sp_marked s;
  hi_marked : forall m, m ∈ sp_marked s -> m ∈ cs \/ exists c, c ∈ cs /\ m = c + 64 * span p;
}.

Lemma in_ring_mono p lat lat' c : lat <= lat' -> in_ring p lat' c = true -> in_ring p lat c = true.
Proof.
  unfold in_ring. intros Hle. rewrite !N.ltb_lt. intros H.
  assert (lat / 64 <= lat' / 64) by (by apply N.Div0.div_le_mono). lia.
Qed.

Lemma history_snoc p cs s c : history p cs s -> history p (cs ++ [c]) (spec_commit s c).
Proof.
  intros [Hp Hst Hlat Hin Hseen Hmk]. unfold spec_commit. rewrite Hst, Hp.
  assert (Hnil : bool_decide (cs ++ [c] <> []) = true) by (apply bool_decide_true; by destruct cs).
  assert (Hold : forall x, x ∈ cs ++ [c] <-> x ∈ cs \/ x = c)
    by (intros x; by rewrite elem_of_app, list_elem_of_singleton).
  destruct (decide (cs = [])) as [->|Hne].
  { rewrite bool_decide_false by tauto. cbn. split; cbn; try done.
    - intros x ->%list_elem_of_singleton. done.
    - intros _. left.
    - intros m ->%list_elem_of_singleton. left. left. }
  rewrite bool_decide_true by done. cbn [negb].
  destruct (N.ltb_spec (sp_latest s) c) as [Hgt|Hle].
  - split; cbn; try done; setoid_rewrite Hold.
    + intros x [Hx| ->]; [|done]. specialize (Hlat x Hx). lia.
    + intros _. by right.
    + intros x [Hx| ->] Hr; [|by left]. right. apply Hseen; [done|]. eapply in_ring_mono; [|done]. lia.
    + intros m [->|Hm]%elem_of_cons; [left; by right|].
      destruct (Hmk m Hm) as [?|(x & ? & ?)]; [left; by left|right; eauto].
  - destruct (N.ltb_spec (sp_latest s - c) (bits p)) as [Hd|Hd].
    + split; cbn; try done; setoid_rewrite Hold.
      * intros x [Hx| ->]; auto.
      * intros _. left. auto.
      * intros x [Hx| ->] Hr; [right; auto|]. unfold slot. rewrite Hr. left.
      * intros m [->|Hm]%elem_of_cons.
        { unfold slot. destruct (in_ring p (sp_latest s) c); [left; by right|right; exists c; auto]. }
        destruct (Hmk m Hm) as [?|(x & ? & ?)]; [left; by left|right; eauto].
    + split; try done; try setoid_rewrite Hold.
      * by rewrite Hst, Hnil, bool_decide_true.
      * intros x [Hx| ->]; auto.
      * intros _. left. auto.
      * intros x [Hx| ->] Hr; [auto|exfalso].
        unfold in_ring in Hr. apply N.ltb_lt in Hr. rewrite bits_span in Hd.
        assert ((c + 64 * span p) / 64 <= sp_latest s / 64) as H by (apply N.Div0.div_le_mono; lia).
        rewrite (N.mul_comm 64), N.div_add in H by lia. lia.
      * intros m Hm. destruct (Hmk m Hm) as [?|(x & ? & ?)]; [left; by left|right; eauto].
Qed.

Lemma spec_commits_history p cs : history p cs (spec_commits cs (spec_new p)).
Proof.
  induction cs as [|c cs IH] using rev_ind.
  - split; cbn; try done; intros ? H; by apply not_elem_of_nil in H.
  - unfold spec_commits. rewrite fold_left_app. by apply history_snoc.
Qed.


(** A marked counter the ring holds is refused. *)
Lemma spec_check_seen s c :
  sp_started s = true -> c <= sp_latest s -> in_ring (sp_profile s) (sp_latest s) c = true ->
  c ∈ sp_marked s -> spec_check s c = false.
Proof.
  intros Hst Hle Hring Hm. unfold spec_check. rewrite Hst. cbn [negb].
  rewrite (proj2 (N.ltb_ge _ _)) by done. case_match; [done|].
  apply bool_decide_false. unfold slot. rewrite Hring. intros Hn. by apply Hn.
Qed.

(** An unmarked counter of the window the ring holds is accepted. *)
Lemma spec_check_fresh s c :
  in_ring (sp_profile s) (sp_latest s) c = true -> sp_latest s < c + bits (sp_profile s) ->
  c ∉ sp_marked s -> spec_check s c = true.
Proof.
  intros Hring Hwin Hm. unfold spec_check. destruct (negb _); [done|].
  destruct (N.ltb_spec (sp_latest s) c); [done|]. rewrite (proj2 (N.leb_gt _ _)) by lia.
  apply bool_decide_true. unfold slot. by rewrite Hring.
Qed.

(** Exact behaviour of the window.  After any sequence of commits the
    latest counter is the greatest one committed; a committed counter whose
    word the ring still holds is rejected, as is any counter a full window or
    more behind; a later counter is accepted; and an earlier counter whose word
    the ring holds is accepted if it was not committed, and no counter exactly
    one ring turn before it was. *)
Theorem window_exact (p : ReplayProfile) (cs : list N) :
  exists rw, commit_all cs (new_with_profile p) = Ret rw /\
    (cs <> [] -> latest rw ∈ cs /\ forall c, c ∈ cs -> c <= latest rw) /\
    forall c,
      (c ∈ cs -> in_ring p (latest rw) c = true -> check rw c = Ret false) /\
      (cs <> [] -> c + bits p <= latest rw -> check rw c = Ret false) /\
      (latest rw < c -> check rw c = Ret true) /\
      (c ∉ cs -> (forall c', c' ∈ cs -> c <> c' + bits p) ->
       in_ring p (latest rw) c = true -> latest rw < c + bits p -> check rw c = Ret true).
Proof.
  destruct (commit_all_refines cs _ _ (new_refines p)) as (rw & E & Hr). exists rw. split; [done|].
  destruct (spec_commits_history p cs) as [Hp Hst Hlat Hin Hseen Hmk].
  pose proof (rf_latest _ _ Hr) as El. set (s := spec_commits cs (spec_new p)) in *. rewrite <- El.
  split; [by auto|]. intros c. rewrite (check_refines rw s c Hr).
  pose proof (bits_span p) as Hbs. pose proof (span_pos p) as Hsp.
  split_and!.
  - intros Hc Hring. f_equal. apply spec_check_seen; rewrite ?Hp; auto. rewrite Hst.
    apply bool_decide_true. intros ->. by apply not_elem_of_nil in Hc.
  - intros Hne Hold. unfold spec_check. rewrite Hst, Hp. rewrite bool_decide_true by done. cbn [negb].
    rewrite (proj2 (N.ltb_ge _ _)) by lia. by rewrite (proj2 (N.leb_le _ _)) by lia.
  - intros Hnew. unfold spec_check. rewrite (proj2 (N.ltb_lt _ _)) by done. by destruct (negb _).
  - intros Hnot Hshift Hring Hwin. f_equal. apply spec_check_fresh; rewrite ?Hp; try done.
    intros [?|(c' & Hc' & ->)]%Hmk; [done|]. by apply (Hshift c'); [|rewrite Hbs].
Qed.

(** The word shared by the two ends of the window: a counter the window still
    covers is accepted a second time. *)
Lemma replay_accepted_standard :
  exists rw, commit_all [1; 8192] (new_with_profile Standard) = Ret rw /\
    latest rw - 1 < bits Standard /\ check rw 1 = Ret true.
Proof. eexists. split_and!; [vm_compute; reflexivity|reflexivity|vm_compute; reflexivity]. Qed.

Lemma replay_accepted_high_throughput :
  exists rw, commit_all [1; 131072] window_new = Ret rw /\
    latest rw - 1 < bits HighThroughput /\ check rw 1 = Ret true.
Proof. eexists. split_and!; [vm_compute; reflexivity|reflexivity|vm_compute; reflexivity]. Qed.

(** A counter already rejected as too old is accepted again after promotion. *)
Lemma replay_accepted_after_promotion :
  exists rw rw', commit_all [1; 20000] (new_with_profile Standard) = Ret rw /\ check rw 1 = Ret false /\
    promote_to_high_throughput rw = Ret rw' /\ check rw' 1 = Ret true.
Proof.
  eexists _, _. split_and!; [vm_compute; reflexivity|vm_compute; reflexivity|vm_compute; reflexivity|].
  vm_compute. reflexivity.
Qed.

(** Promotion keeps the recent past.  After any commits and a promotion to
    the large ring, the window answers as the abstract one does: the counters
    whose word the small ring held stay rejected, and later counters are
    accepted as before. *)
Theorem promotion_keeps_recent (cs : list N) :
  exists rw rw', commit_all cs (new_with_profile Standard) = Ret rw /\
    promote_to_high_throughput rw = Ret rw' /\ latest rw' = latest rw /\
    forall c, (c ∈ cs -> in_ring Standard (latest rw) c = true -> check rw' c = Ret false) /\
              (latest rw < c -> check rw' c = Ret true).
Proof.
  destruct (commit_all_refines cs _ _ (new_refines Standard)) as (rw & E & Hr).
  destruct (promote_refines rw _ Hr) as (rw' & E' & Hr').
  destruct (spec_commits_history Standard cs) as [Hp Hst Hlat Hin Hseen Hmk].
  set (s := spec_commits cs (spec_new Standard)) in *.
  assert (Hlw : latest rw' = sp_latest s).
  { rewrite <- (rf_latest _ _ Hr'). unfold spec_promote. by rewrite Hp. }
  exists rw, rw'. split_and!; [done|done|by rewrite Hlw, (rf_latest _ _ Hr)|]. rewrite <- (rf_latest _ _ Hr).
  intros c. rewrite (check_refines rw' _ c Hr'). unfold spec_check, spec_promote. rewrite Hp. cbn. rewrite Hst.
  split.
  - intros Hc Hring. rewrite bool_decide_true by (intros ->; by apply not_elem_of_nil in Hc). cbn [negb].
    rewrite (proj2 (N.ltb_ge _ _)) by auto. case_match; [done|]. f_equal. apply bool_decide_false.
    intros Hn. apply Hn. unfold slot. replace (in_ring HighThroughput (sp_latest s) c) with true.
    + apply list_elem_of_filter. auto.
    + symmetry. unfold in_ring in *. apply N.ltb_lt in Hring. apply N.ltb_lt.
      change (span HighThroughput) with 2048. change (span Standard) with 128 in Hring. lia.
  - intros Hnew. rewrite (proj2 (N.ltb_lt _ _)) by done. by destruct (negb _).
Qed.

End Replay.
