(* ===== verification/Session.v ===== *)
(** * The AEAD session

    [Session] and [ChaCha20Poly1305Cipher] of [crates/yip-crypto/src/lib.rs]:
    frames are sealed under a monotonic counter and opened out of order behind
    the anti-replay window.

    The cipher itself is [ring]'s ChaCha20-Poly1305 and a parameter of the
    model: the class [Aead] has its operations, [AeadLaws] what its
    documentation says of them.  A buffer the source overwrites in place is
    returned when the call succeeds; after an error its contents are not
    specified and the model does not name them. *)
From Stdlib Require Strings.Byte.
From Stdlib Require Import NArith Lia.
From stdpp Require Import base numbers sets sorting list.
From S2P Require Import Prelude AntiReplay.

Local Open Scope N_scope.

Module Sess.

Inductive CryptoError := Decrypt | ReplayError | HandshakeError.

(** [ring::aead]: key construction, sealing into ciphertext and separate tag,
    opening of ciphertext followed by tag.  [None] is an error. *)
Class Aead := {
  Key : Type;
  key_new : list u8 -> option Key;
  aead_seal : Key -> list u8 -> list u8 -> option (list u8 * list u8);
  aead_open : Key -> list u8 -> list u8 -> option (list u8);
}.

Class AeadLaws `{Aead} := {
  seal_lengths k n p c tag : aead_seal k n p = Some (c, tag) -> length c = length p /\ length tag = 16%nat;
  open_seal k n p c tag : aead_seal k n p = Some (c, tag) -> aead_open k n (c ++ tag) = Some p;
}.

Definition to_le_bytes (n : nat) (v : N) : list u8 := rev (to_be_bytes n v).

(** Noise nonce: four zero bytes and the counter, little-endian. *)
Definition noise_nonce (counter : N) : list u8 := replicate 4 Byte.x00 ++ to_le_bytes 8 counter.

Lemma noise_nonce_inj a b : a < u64_mod -> b < u64_mod -> noise_nonce a = noise_nonce b -> a = b.
Proof.
  intros Ha Hb E. unfold noise_nonce, to_le_bytes in E. apply app_inv_head in E.
  apply (f_equal (@rev u8)) in E. rewrite !rev_involutive in E.
  apply (f_equal from_be_bytes) in E. by rewrite !from_to_be_bytes_small in E.
Qed.

Section session.
Context {aead : Aead}.

Record Sealed := mkSealed { counter : N; ciphertext : list u8 }.

Record Session := mkSession {
  send_key : Key;
  recv_key : Key;
  send_counter : N;
  stride : N;
  replay : Replay.ReplayWindow;
}.

Definition norm_stride (s : N) : N := if s =? 0 then 1 else s.

Definition from_raw_keys (k_send k_recv : list u8) (start_counter stride : N) : result Session CryptoError :=
  match key_new k_send with
  | None => Err HandshakeError
  | Some send =>
      match key_new k_recv with
      | None => Err HandshakeError
      | Some recv => Ok (mkSession send recv start_counter (norm_stride stride) Replay.window_new)
      end
  end.

Definition set_stride (s : Session) (start_counter stride_ : N) : Session :=
  let stride_ := norm_stride stride_ in
  let sc :=
    if send_counter s =? 0 then start_counter
    else
      let rem := send_counter s mod stride_ in
      let target_rem := start_counter mod stride_ in
      let diff := if rem <=? target_rem then target_rem - rem else stride_ - (rem - target_rem) in
      sat_add64 (send_counter s) diff in
  mkSession (send_key s) (recv_key s) sc stride_ (replay s).

(** [seal_in_place_append_tag] *)
Definition seal_append (k : Key) (c : N) (plaintext : list u8) : option (list u8) :=
  match aead_seal k (noise_nonce c) plaintext with
  | Some (ct, tag) => Some (ct ++ tag)
  | None => None
  end.

(** [send_counter.checked_add(stride)] *)
Definition next_counter (s : Session) : option Session :=
  if send_counter s + stride s <? u64_mod
  then Some (mkSession (send_key s) (recv_key s) (send_counter s + stride s) (stride s) (replay s))
  else None.

Definition seal (s : Session) (plaintext : list u8) : Session * result Sealed CryptoError :=
  let c := send_counter s in
  match seal_append (send_key s) c plaintext with
  | None => (s, Err Decrypt)
  | Some buf =>
      match next_counter s with
      | None => (s, Err Decrypt)
      | Some s' => (s', Ok (mkSealed c buf))
      end
  end.

(** The buffer on success, and the counter used. *)
Definition seal_into (s : Session) (plaintext : list u8) : Session * result (N * list u8) CryptoError :=
  let c := send_counter s in
  match seal_append (send_key s) c plaintext with
  | None => (s, Err Decrypt)
  | Some out =>
      match next_counter s with
      | None => (s, Err Decrypt)
      | Some s' => (s', Ok (c, out))
      end
  end.

Definition seal_with_counter (s : Session) (c : N) (plaintext : list u8) : result Sealed CryptoError :=
  match seal_append (send_key s) c plaintext with
  | None => Err Decrypt
  | Some buf => Ok (mkSealed c buf)
  end.

Definition open_with_window (s : Session) (c : N) (ct : list u8) (rw : Replay.ReplayWindow)
    : run (Replay.ReplayWindow * result (list u8) CryptoError) :=
  let! ok := Replay.check rw c in
  if negb ok then Ret (rw, Err ReplayError)
  else
  match aead_open (recv_key s) (noise_nonce c) ct with
  | None => Ret (rw, Err Decrypt)
  | Some plain => let! rw := Replay.commit rw c in Ret (rw, Ok plain)
  end.

Definition open (s : Session) (c : N) (ct : list u8) : run (Session * result (list u8) CryptoError) :=
  let! ok := Replay.check (replay s) c in
  if negb ok then Ret (s, Err ReplayError)
  else
  match aead_open (recv_key s) (noise_nonce c) ct with
  | None => Ret (s, Err Decrypt)
  | Some plain =>
      let! rw := Replay.commit (replay s) c in
      Ret (mkSession (send_key s) (recv_key s) (send_counter s) (stride s) rw, Ok plain)
  end.

Definition check_replay (s : Session) (c : N) : run bool := Replay.check (replay s) c.

(** [buf[..plaintext_len + 16]] overwritten with ciphertext and tag. *)
Definition seal_buffer (k : Key) (c : N) (buf : list u8) (plaintext_len : nat)
    : run (option (list u8)) :=
  if negb (N.of_nat plaintext_len + 16 <? u64_mod) then Ret None
  else
  let total_len := (plaintext_len + 16)%nat in
  if (length buf <? total_len)%nat then Ret None
  else
  match aead_seal k (noise_nonce c) (take plaintext_len buf) with
  | None => Ret None
  | Some (ct, tag) =>
      let! buf := copy_at 0 ct buf in
      let! buf := copy_at plaintext_len tag buf in
      Ret (Some buf)
  end.

Definition seal_in_place (s : Session) (buf : list u8) (plaintext_len : nat)
    : run (Session * result (N * list u8) CryptoError) :=
  let c := send_counter s in
  let! r := seal_buffer (send_key s) c buf plaintext_len in
  match r with
  | None => Ret (s, Err Decrypt)
  | Some buf =>
      Ret (match next_counter s with
           | None => (s, Err Decrypt)
           | Some s' => (s', Ok (c, buf))
           end)
  end.

(** The plaintext is left at the front of the buffer. *)
Definition open_buffer (k : Key) (c : N) (buf : list u8) (sealed_len : nat) : option (list u8) :=
  if (sealed_len <? 16)%nat || (length buf <? sealed_len)%nat then None
  else aead_open k (noise_nonce c) (take sealed_len buf).

Definition open_in_place (s : Session) (c : N) (buf : list u8) (sealed_len : nat)
    : run (Session * result (list u8) CryptoError) :=
  let! ok := Replay.check (replay s) c in
  if negb ok then Ret (s, Err ReplayError)
  else
  match open_buffer (recv_key s) c buf sealed_len with
  | None => Ret (s, Err Decrypt)
  | Some plain =>
      let! rw := Replay.commit (replay s) c in
      Ret (mkSession (send_key s) (recv_key s) (send_counter s) (stride s) rw, Ok plain)
  end.

(** [ChaCha20Poly1305Cipher] *)
Definition cipher_seal_in_place (k : Key) (c : N) (buf : list u8) (plaintext_len : nat)
    : run (result (nat * list u8) CryptoError) :=
  let! r := seal_buffer k c buf plaintext_len in
  Ret (match r with
       | None => Err Decrypt
       | Some buf => Ok ((plaintext_len + 16)%nat, buf)
       end).

Definition cipher_open_in_place (k : Key) (c : N) (buf : list u8) (sealed_len : nat)
    : result (list u8) CryptoError :=
  match open_buffer k c buf sealed_len with
  | None => Err Decrypt
  | Some plain => Ok plain
  end.

Definition cipher_open_in_place_with_window (k : Key) (c : N) (buf : list u8) (sealed_len : nat)
    (rw : Replay.ReplayWindow) : run (Replay.ReplayWindow * result (list u8) CryptoError) :=
  let! ok := Replay.check rw c in
  if negb ok then Ret (rw, Err ReplayError)
  else
  match cipher_open_in_place k c buf sealed_len with
  | Err e => Ret (rw, Err e)
  | Ok plain => let! rw := Replay.commit rw c in Ret (rw, Ok plain)
  end.


(** ** Nonces *)

Inductive send_op := OSeal (p : list u8) | OSealInto (p : list u8) | OSetStride (start stride_ : N).

(** Run the operations; the counters of the frames that were sealed. *)
Fixpoint send_ops (os : list send_op) (s : Session) : list N * Session :=
  match os with
  | [] => ([], s)
  | OSeal p :: os =>
      let '(s, r) := seal s p in
      let '(cs, s') := send_ops os s in
      (match r with Ok f => counter f :: cs | Err _ => cs end, s')
  | OSealInto p :: os =>
      let '(s, r) := seal_into s p in
      let '(cs, s') := send_ops os s in
      (match r with Ok (c, _) => c :: cs | Err _ => cs end, s')
  | OSetStride start st :: os => send_ops os (set_stride s start st)
  end.

Definition send_ok (s : Session) : Prop := send_counter s < u64_mod /\ 0 < stride s.

Definition op_ok (o : send_op) : Prop :=
  match o with OSetStride start _ => start < u64_mod | _ => True end.

Lemma norm_stride_pos s : 0 < norm_stride s.
Proof. unfold norm_stride. destruct (N.eqb_spec s 0); lia. Qed.

Lemma seal_step s p :
  send_ok s ->
  (exists e, seal s p = (s, Err e)) \/
  (exists s' ct, seal s p = (s', Ok (mkSealed (send_counter s) ct)) /\ send_ok s' /\
     send_counter s' = send_counter s + stride s /\ stride s' = stride s).
Proof.
  intros [Hc Hst]. unfold seal, next_counter. destruct (seal_append _ _ _); [|eauto].
  destruct (N.ltb_spec (send_counter s + stride s) u64_mod); [|eauto].
  right. eexists _, _. by split_and!.
Qed.

Lemma seal_into_step s p :
  send_ok s ->
  (exists e, seal_into s p = (s, Err e)) \/
  (exists s' ct, seal_into s p = (s', Ok (send_counter s, ct)) /\ send_ok s' /\
     send_counter s' = send_counter s + stride s /\ stride s' = stride s).
Proof.
  intros [Hc Hst]. unfold seal_into, next_counter. destruct (seal_append _ _ _); [|eauto].
  destruct (N.ltb_spec (send_counter s + stride s) u64_mod); [|eauto].
  right. eexists _, _. by split_and!.
Qed.

Lemma set_stride_ok s start st : send_ok s -> start < u64_mod -> send_ok (set_stride s start st).
Proof.
  intros [Hc _] Hs. unfold set_stride. split; cbn; [|apply norm_stride_pos].
  case_match; [done|]. unfold sat_add64, sat_add. apply N.min_lt_iff. right. done.
Qed.

(** A stride change never moves the counter back, once one was used. *)
Lemma set_stride_mono s start st :
  send_ok s -> send_counter s <> 0 -> send_counter s <= send_counter (set_stride s start st).
Proof.
  intros [Hc _] Hne. unfold set_stride. cbn. rewrite (proj2 (N.eqb_neq _ _)) by done.
  unfold sat_add64, sat_add. apply N.min_glb; lia.
Qed.

Lemma send_ops_increasing os s :
  send_ok s -> Forall op_ok os ->
  StronglySorted N.lt (send_ops os s).1 /\
  Forall (fun c => c < u64_mod /\ (send_counter s <> 0 -> send_counter s <= c)) (send_ops os s).1.
Proof.
  revert s. induction os as [|o os IH]; intros s Hs Hos; [split; constructor|].
  apply Forall_cons in Hos as [Ho Hos].
  assert (Hcase : (exists s', (send_ops (o :: os) s).1 = (send_ops os s').1 /\ send_ok s' /\
                     (send_counter s <> 0 -> send_counter s' <> 0 /\ send_counter s <= send_counter s')) \/
                  (exists s', (send_ops (o :: os) s).1 = send_counter s :: (send_ops os s').1 /\ send_ok s' /\
                     send_counter s < send_counter s')).
  { destruct o as [p|p|start st]; cbn [send_ops].
    - destruct (seal_step s p Hs) as [[e ->]|(s' & ct & -> & Hs' & Hc & _)].
      + left. exists s. destruct (send_ops os s). done.
      + right. exists s'. destruct (send_ops os s'). split_and!; [done|done|]. destruct Hs. lia.
    - destruct (seal_into_step s p Hs) as [[e ->]|(s' & ct & -> & Hs' & Hc & _)].
      + left. exists s. destruct (send_ops os s). done.
      + right. exists s'. destruct (send_ops os s'). split_and!; [done|done|]. destruct Hs. lia.
    - left. exists (set_stride s start st). split_and!; [done|by apply set_stride_ok|].
      intros Hne. pose proof (set_stride_mono s start st Hs Hne). lia. }
  destruct Hcase as [(s' & -> & Hs' & Hle)|(s' & -> & Hs' & Hlt)]; destruct (IH s' Hs' Hos) as [Hsort Hall].
  - split; [done|]. eapply Forall_impl; [exact Hall|]. cbn. intros c [? Hc]. split; [done|].
    intros Hne. destruct (Hle Hne). specialize (Hc ltac:(done)). lia.
  - split.
    + constructor; [done|]. eapply Forall_impl; [exact Hall|]. cbn. intros c [_ Hc].
      specialize (Hc ltac:(lia)). lia.
    + constructor; [destruct Hs; split; [done|lia]|]. eapply Forall_impl; [exact Hall|]. cbn.
      intros c [? Hc]. split; [done|]. intros _. specialize (Hc ltac:(lia)). lia.
Qed.


(** Counters of a session that keeps its stride stay in one residue class. *)
Lemma seals_residue ps s :
  send_ok s ->
  Forall (fun c => c mod stride s = send_counter s mod stride s) (send_ops (map OSeal ps) s).1.
Proof.
  revert s. induction ps as [|p ps IH]; intros s Hs; [constructor|]. cbn [map send_ops].
  destruct (seal_step s p Hs) as [[e ->]|(s' & ct & -> & Hs' & Hc & Hst)].
  - specialize (IH s Hs). by destruct (send_ops (map OSeal ps) s).
  - specialize (IH s' Hs'). rewrite Hst, Hc in IH. destruct (send_ops (map OSeal ps) s'). cbn in *.
    constructor; [done|]. eapply Forall_impl; [exact IH|]. cbn. intros c ->. destruct Hs.
    rewrite <- (N.mul_1_l (stride s)) at 1. apply N.Div0.mod_add.
Qed.

(** Workers do not collide.  Sessions of different workers made from the
    same keys with the number of workers as stride, each starting at its own
    index, never seal under the same counter. *)
Theorem workers_disjoint (ks kr : list u8) (n i j : N) (si sj : Session) (ps qs : list (list u8)) :
  i < n -> j < n -> i <> j -> n < u64_mod ->
  from_raw_keys ks kr i n = Ok si -> from_raw_keys ks kr j n = Ok sj ->
  Forall (fun c => c ∉ (send_ops (map OSeal qs) sj).1) (send_ops (map OSeal ps) si).1.
Proof.
  intros Hi Hj Hij Hn Hsi Hsj. apply Forall_forall. intros c Hci Hcj.
  assert (Hinit : forall x s, x < n -> from_raw_keys ks kr x n = Ok s ->
    send_ok s /\ send_counter s = x /\ stride s = n).
  { intros x s Hx. unfold from_raw_keys, norm_stride. rewrite (proj2 (N.eqb_neq n 0)) by lia.
    repeat case_match; try discriminate. intros [= <-]. unfold send_ok. cbn. lia. }
  destruct (Hinit i si Hi Hsi) as (Hoki & Hci0 & Hsti). destruct (Hinit j sj Hj Hsj) as (Hokj & Hcj0 & Hstj).
  pose proof (seals_residue ps si Hoki) as Ri. pose proof (seals_residue qs sj Hokj) as Rj.
  rewrite Forall_forall in Ri, Rj. specialize (Ri c Hci). specialize (Rj c Hcj).
  rewrite Hsti, Hci0, (N.mod_small i) in Ri by done. rewrite Hstj, Hcj0, (N.mod_small j) in Rj by done. congruence.
Qed.

(** Resharding.  Changing start and stride of a session in use moves the
    counter forward by less than one stride, to the residue class of the new
    start, unless the counter space is exhausted. *)
Theorem set_stride_aligns (s : Session) (start st : N) :
  send_ok s -> send_counter s <> 0 -> 0 < st -> send_counter s + st < u64_mod ->
  let s' := set_stride s start st in
  send_counter s <= send_counter s' < send_counter s + st /\
  send_counter s' mod st = start mod st /\ stride s' = st.
Proof.
  intros [Hc _] Hne Hst Hroom s'. unfold s', set_stride, norm_stride. cbn.
  rewrite (proj2 (N.eqb_neq st 0)), (proj2 (N.eqb_neq (send_counter s) 0)) by lia.
  set (c := send_counter s) in *. pose proof (N.mod_lt c st ltac:(lia)) as Hx.
  pose proof (N.mod_lt start st ltac:(lia)) as Hy. pose proof (N.div_mod c st ltac:(lia)) as Hdm.
  assert (Hres : forall q d, c + d = start mod st + q * st -> (c + d) mod st = start mod st).
  { intros q d ->. rewrite N.Div0.mod_add. apply N.Div0.mod_mod. }
  revert Hx Hy Hdm Hres. generalize (c mod st) (start mod st) (c / st). intros x y q Hx Hy Hdm Hres.
  unfold sat_add64, sat_add.
  destruct (N.leb_spec x y) as [Hle|Hgt].
  - rewrite N.min_l by lia. split_and!; [lia|lia| |done]. apply (Hres q). lia.
  - rewrite N.min_l by lia. split_and!; [lia|lia| |done]. apply (Hres (q + 1)). lia.
Qed.

(** ** Opening *)

Fixpoint open_all (arrivals : list (N * list u8)) (s : Session)
    : run (list (result (list u8) CryptoError) * Session) :=
  match arrivals with
  | [] => Ret ([], s)
  | (c, ct) :: rest =>
      let! ' (s, r) := open s c ct in
      let! ' (rs, s) := open_all rest s in
      Ret (r :: rs, s)
  end.

(** The counters of the frames that were opened. *)
Fixpoint opened (arrivals : list (N * list u8)) (rs : list (result (list u8) CryptoError)) : list N :=
  match arrivals, rs with
  | (c, _) :: arrivals, Ok _ :: rs => c :: opened arrivals rs
  | _ :: arrivals, _ :: rs => opened arrivals rs
  | _, _ => []
  end.

Definition with_window (s : Session) (rw : Replay.ReplayWindow) : Session :=
  mkSession (send_key s) (recv_key s) (send_counter s) (stride s) rw.

Lemma open_step s sp c ct :
  Replay.refines (replay s) sp ->
  (exists e, open s c ct = Ret (s, Err e)) \/
  (exists plain rw, open s c ct = Ret (with_window s rw, Ok plain) /\
     Replay.spec_check sp c = true /\ aead_open (recv_key s) (noise_nonce c) ct = Some plain /\
     Replay.commit (replay s) c = Ret rw /\ Replay.refines rw (Replay.spec_commit sp c)).
Proof.
  intros Hr. unfold open. rewrite (Replay.check_refines _ _ c Hr). cbn [rbind].
  destruct (Replay.spec_check sp c); cbn [negb]; [|eauto].
  destruct (aead_open _ _ _) as [plain|]; [|eauto]. right.
  destruct (Replay.commit_refines _ _ c Hr) as (rw & -> & Hr'). exists plain, rw. done.
Qed.

Lemma open_all_window arrivals s sp :
  Replay.refines (replay s) sp ->
  exists rs s', open_all arrivals s = Ret (rs, s') /\ length rs = length arrivals /\
    Replay.commit_all (opened arrivals rs) (replay s) = Ret (replay s') /\
    s' = with_window s (replay s').
Proof.
  revert s sp. induction arrivals as [|[c ct] arrivals IH]; intros s sp Hr; cbn [open_all].
  { exists [], s. split_and!; try done. by destruct s. }
  destruct (open_step s sp c ct Hr) as [[e ->]|(plain & rw & -> & _ & _ & Hc & Hr')]; cbn [rbind].
  - destruct (IH s sp Hr) as (rs & s' & -> & Hl & Hw & Hs). cbn [rbind].
    exists (Err e :: rs), s'. split_and!; try done. cbn. by rewrite Hl.
  - destruct (IH (with_window s rw) _ Hr') as (rs & s' & -> & Hl & Hw & Hs). cbn [rbind].
    exists (Ok plain :: rs), s'. split_and!; try done; [cbn; by rewrite Hl|].
    cbn [opened]. unfold Replay.commit_all. cbn [rfold]. rewrite Hc. cbn [rbind]. exact Hw.
Qed.

(** C34: replays and forgeries.  Whatever frames arrive at a fresh session,
    nothing panics; the window afterwards is determined by the frames that were
    opened alone, so that frames that fail to authenticate leave no trace in
    it; and a frame opened before, whose counter the ring still holds, is
    refused as a replay whatever ciphertext comes with it. *)
Theorem opened_frames_not_replayed (s : Session) (arrivals : list (N * list u8)) :
  replay s = Replay.window_new ->
  exists rs s', open_all arrivals s = Ret (rs, s') /\ length rs = length arrivals /\
    Replay.commit_all (opened arrivals rs) Replay.window_new = Ret (replay s') /\
    forall c ct, c ∈ opened arrivals rs ->
      Replay.in_ring Replay.HighThroughput (Replay.latest (replay s')) c = true ->
      open s' c ct = Ret (s', Err ReplayError).
Proof.
  intros Hnew.
  assert (Hr : Replay.refines (replay s) (Replay.spec_new Replay.HighThroughput))
    by (rewrite Hnew; apply Replay.new_refines).
  destruct (open_all_window arrivals s _ Hr) as (rs & s' & Hrun & Hl & Hw & _). rewrite Hnew in Hw.
  exists rs, s'. split_and!; try done. intros c ct Hc Hring.
  destruct (Replay.commit_all_refines (opened arrivals rs) _ _ (Replay.new_refines Replay.HighThroughput))
    as (rw & Hw' & Hr'). unfold Replay.window_new in Hw. rewrite Hw in Hw'. injection Hw' as <-.
  unfold open. rewrite (Replay.check_refines _ _ c Hr'). cbn [rbind].
  destruct (Replay.spec_commits_history Replay.HighThroughput (opened arrivals rs)) as [Hp Hst Hlat _ Hseen _].
  rewrite <- (Replay.rf_latest _ _ Hr') in Hring.
  rewrite Replay.spec_check_seen; [done|..]; auto.
  - rewrite Hst. apply bool_decide_true. intros E. rewrite E in Hc. by apply not_elem_of_nil in Hc.
  - rewrite Hp. done.
Qed.

(** Sealing a list of frames, all of which succeed. *)
Fixpoint seal_all (ps : list (list u8)) (s : Session) : option (list (Sealed * list u8)) :=
  match ps with
  | [] => Some []
  | p :: ps =>
      match seal s p with
      | (s, Ok f) => match seal_all ps s with Some fs => Some ((f, p) :: fs) | None => None end
      | (_, Err _) => None
      end
  end.

Lemma seal_all_open {laws : AeadLaws} ps s fs f p :
  seal_all ps s = Some fs -> (f, p) ∈ fs ->
  aead_open (send_key s) (noise_nonce (counter f)) (ciphertext f) = Some p.
Proof.
  revert s fs. induction ps as [|q ps IH]; intros s fs Hrun Hin; cbn in Hrun.
  { injection Hrun as <-. by apply not_elem_of_nil in Hin. }
  destruct (seal s q) as [s1 [g|e]] eqn:E; [|done].
  destruct (seal_all ps s1) as [gs|] eqn:Es; [|done]. injection Hrun as <-.
  unfold seal, seal_append, next_counter in E.
  destruct (aead_seal (send_key s) (noise_nonce (send_counter s)) q) as [[ct tag]|] eqn:Eq; [|done].
  destruct (_ <? _); [|done]. injection E as <- <-.
  apply elem_of_cons in Hin as [[= -> ->]|Hin]; [by eapply open_seal|]. by apply (IH _ gs Es).
Qed.

(** Counters that differ by less than the ring. *)
Definition reorder_span : N := Replay.bits Replay.HighThroughput - 64.

Definition as_arrival (d : Sealed * list u8) : N * list u8 := (counter d.1, ciphertext d.1).

Lemma fresh_counter_ok cs sp c :
  Replay.history Replay.HighThroughput cs sp -> c ∉ cs ->
  (forall x, x ∈ cs -> x <= c + reorder_span /\ c <= x + reorder_span) ->
  Replay.spec_check sp c = true.
Proof.
  intros [Hp Hst Hlat Hin Hseen Hmk] Hc Hspan.
  destruct (decide (cs = [])) as [->|Hne]; [unfold Replay.spec_check; by rewrite Hst|].
  destruct (Hspan _ (Hin Hne)) as [Hs1 Hs2]. unfold reorder_span in *.
  apply Replay.spec_check_fresh; rewrite ?Hp.
  - unfold Replay.in_ring. apply N.ltb_lt.
    change (Replay.span Replay.HighThroughput) with 2048.
    change (Replay.bits Replay.HighThroughput - 64) with (2047 * 64) in *.
    assert (Replay.sp_latest sp / 64 <= (c + 2047 * 64) / 64) as H by (by apply N.Div0.div_le_mono).
    rewrite N.div_add in H by done. lia.
  - change (Replay.bits Replay.HighThroughput) with 131072 in *. lia.
  - intros [?|(x & Hx & E)]%Hmk; [done|]. destruct (Hspan x Hx).
    change (64 * Replay.span Replay.HighThroughput) with 131072 in E.
    change (Replay.bits Replay.HighThroughput - 64) with 131008 in *. lia.
Qed.

Lemma open_all_fresh ds s sp cs :
  Replay.refines (replay s) sp -> Replay.history Replay.HighThroughput cs sp ->
  Forall (fun d => aead_open (recv_key s) (noise_nonce (counter d.1)) (ciphertext d.1) = Some d.2) ds ->
  NoDup (map (fun d => counter d.1) ds) -> (forall d, d ∈ ds -> counter d.1 ∉ cs) ->
  (forall x y, x ∈ cs ++ map (fun d => counter d.1) ds -> y ∈ cs ++ map (fun d => counter d.1) ds ->
     x <= y + reorder_span) ->
  exists s', open_all (map as_arrival ds) s = Ret (map (fun d => Ok d.2) ds, s').
Proof.
  revert s sp cs. induction ds as [|[f p] ds IH]; intros s sp cs Hr Hh Hop Hn Hnew Hspan; [by exists s|].
  apply Forall_cons in Hop as [Hf Hop]. cbn [map fst] in Hn. apply NoDup_cons in Hn as [Hfn Hn].
  cbn [map as_arrival open_all fst snd] in *.
  assert (Hck : Replay.spec_check sp (counter f) = true).
  { apply (fresh_counter_ok cs); [done|by apply (Hnew (f, p)); left|].
    intros x Hx. split; apply Hspan; apply elem_of_app; [by left|right; left|right; left|by left]. }
  unfold open at 1. rewrite (Replay.check_refines _ _ _ Hr), Hck. cbn [rbind negb]. rewrite Hf.
  destruct (Replay.commit_refines _ _ (counter f) Hr) as (rw & -> & Hr'). cbn [rbind].
  destruct (IH (with_window s rw) _ (cs ++ [counter f]) Hr') as (s' & Hs'); [..|unfold with_window in Hs'; rewrite Hs'; by exists s'].
  - by apply Replay.history_snoc.
  - done.
  - done.
  - intros d Hd [Hc|Hc]%elem_of_app; [by apply (Hnew d); [right|]|].
    apply list_elem_of_singleton in Hc. apply Hfn. rewrite <- Hc.
    exact (list_elem_of_fmap_2 (fun d => counter d.1) ds d Hd).
  - intros x y. rewrite <- app_assoc. apply Hspan.
Qed.

(** Sealed frames are opened, in any order.  Whatever frames a session
    seals, a peer that holds the same key opens each of them to its plaintext,
    in any order and with any losses, as long as the counters delivered are
    distinct and differ by at most 131008 (the window less one word). *)
Theorem session_round_trip {laws : AeadLaws} (s r : Session) ps fs ds :
  seal_all ps s = Some fs -> recv_key r = send_key s -> replay r = Replay.window_new ->
  ds ⊆ fs -> NoDup (map (fun d => counter d.1) ds) ->
  (forall d e, d ∈ ds -> e ∈ ds -> counter d.1 <= counter e.1 + reorder_span) ->
  exists r', open_all (map as_arrival ds) r = Ret (map (fun d => Ok d.2) ds, r').
Proof.
  intros Hseal Hkey Hnew Hsub Hn Hspan.
  apply (open_all_fresh ds r (Replay.spec_new Replay.HighThroughput) []).
  - rewrite Hnew. apply Replay.new_refines.
  - apply (Replay.spec_commits_history Replay.HighThroughput []).
  - apply Forall_forall. intros [f p] Hd. rewrite Hkey. apply (seal_all_open ps s fs); [done|by apply Hsub].
  - done.
  - intros d _. apply not_elem_of_nil.
  - cbn. intros x y (d & -> & Hd)%elem_of_map (e & -> & He)%elem_of_map. auto.
Qed.

End session.

(** ** A toy cipher, to run the model *)

Definition toy_tag (n : list u8) : list u8 := take 16 (n ++ replicate 16 Byte.x00).

#[local] Instance toy_aead : Aead := {|
  Key := list u8;
  key_new k := if (length k =? 32)%nat then Some k else None;
  aead_seal _ n p := Some (p, toy_tag n);
  aead_open _ n c :=
    if (length c <? 16)%nat then None
    else if decide (drop (length c - 16) c = toy_tag n) then Some (take (length c - 16) c) else None;
|}.

Lemma length_toy_tag n : length (toy_tag n) = 16%nat.
Proof. unfold toy_tag. rewrite length_take, length_app, length_replicate. lia. Qed.

#[local] Instance toy_laws : AeadLaws.
Proof.
  split.
  - intros k n p c tag [= <- <-]. split; [done|apply length_toy_tag].
  - intros k n p c tag [= <- <-]. cbn [aead_open toy_aead]. rewrite length_app, length_toy_tag.
    rewrite (proj2 (Nat.ltb_ge _ _)) by lia. replace (length p + 16 - 16)%nat with (length p) by lia.
    rewrite drop_app_length, decide_True by done. by rewrite take_app_length.
Qed.

Definition toy_key : list u8 := replicate 32 Byte.x07.
Definition toy_session (start st : N) : Session := mkSession (toy_key : Key) toy_key start st Replay.window_new.


Lemma workers_disjoint_witness :
  Forall (fun c => c ∉ (send_ops (map OSeal [[]; []]) (toy_session 1 3)).1)
         (send_ops (map OSeal [[]; []]) (toy_session 2 3)).1.
Proof.
  apply (workers_disjoint toy_key toy_key 3 2 1 (toy_session 2 3) (toy_session 1 3) [[]; []] [[]; []]);
    try reflexivity. discriminate.
Defined.

Lemma set_stride_aligns_witness :
  send_counter (set_stride (toy_session 10 1) 1 4) = 13 /\ 13 mod 4 = 1 mod 4.
Proof.
  split; [reflexivity|].
  apply (set_stride_aligns (toy_session 10 1) 1 4); [split; reflexivity|discriminate|reflexivity|reflexivity].
Defined.

(** Frames 5, 9 and a forgery. *)
Definition toy_arrivals : list (N * list u8) :=
  [(5, toy_tag (noise_nonce 5)); (6, replicate 20 Byte.xff); (9, Byte.x2a :: toy_tag (noise_nonce 9))].

Lemma opened_frames_not_replayed_witness :
  exists rs s', open_all toy_arrivals (toy_session 0 1) = Ret (rs, s') /\
    opened toy_arrivals rs = [5; 9] /\ open s' 5 (toy_tag (noise_nonce 5)) = Ret (s', Err ReplayError).
Proof.
  destruct (opened_frames_not_replayed (toy_session 0 1) toy_arrivals eq_refl) as (rs & s' & Hrun & _ & _ & Hrep).
  assert (Hrs : match open_all toy_arrivals (toy_session 0 1) with
                | Ret (rs, s') => rs = [Ok []; Err Decrypt; Ok [Byte.x2a]] /\ Replay.latest (replay s') = 9
                | Panic => False
                end) by (vm_compute; split; reflexivity).
  rewrite Hrun in Hrs. destruct Hrs as [-> Hl]. exists [Ok []; Err Decrypt; Ok [Byte.x2a]], s'. split; [exact Hrun|]. split; [reflexivity|].
  apply Hrep; [left|]. rewrite Hl. reflexivity.
Defined.

Lemma session_round_trip_witness :
  exists fs r', seal_all [[Byte.x01]; [Byte.x02]; [Byte.x03]] (toy_session 0 1) = Some fs /\
    open_all (map as_arrival (rev fs)) (toy_session 0 1) = Ret ([Ok [Byte.x03]; Ok [Byte.x02]; Ok [Byte.x01]], r').
Proof.
  assert (Hs : exists fs, seal_all [[Byte.x01]; [Byte.x02]; [Byte.x03]] (toy_session 0 1) = Some fs)
    by (eexists; vm_compute; reflexivity).
  destruct Hs as [fs Hs].
  destruct (session_round_trip (toy_session 0 1) (toy_session 0 1) _ fs (rev fs) Hs eq_refl eq_refl)
    as [r' Hr].
  - intros x Hx%list_elem_of_In. apply list_elem_of_In. by apply in_rev.
  - vm_compute in Hs. injection Hs as <-. apply (bool_decide_unpack _). vm_compute. exact I.
  - assert (Hall : Forall (fun d => counter d.1 <= 2) (rev fs)).
    { vm_compute in Hs. injection Hs as <-. repeat (constructor; [discriminate|]). constructor. }
    rewrite Forall_forall in Hall. intros d e Hd _. transitivity reorder_span; [|apply N.le_add_l].
    transitivity 2; [by apply Hall|discriminate].
  - exists fs, r'. split; [exact Hs|]. rewrite Hr. vm_compute in Hs. injection Hs as <-. reflexivity.
Defined.

End Sess.
