(* ===== verification/Wire.v ===== *)
(** * Wire framing

    [crates/yip-wire/src/lib.rs]: a frame is a 15-byte header, the payload and
    an 8-byte tag; the tag authenticates header and payload, and the header is
    masked with a keystream seeded by the tag.

    SipHash-1-3 is the crate [siphasher] and a parameter of the model: the class
    [SipHash] has the keyed hash of a byte string.  [SipHasher13] hashes what
    has been written to it, so that consecutive writes hash the concatenation. *)
From Stdlib Require Strings.Byte.
From Stdlib Require Import NArith Lia.
From stdpp Require Import base numbers list.
From S2P Require Import Prelude.

Local Open Scope nat_scope.

Class SipHash := { sip13 : list u8 -> list u8 -> N }.

Module Wire.

Record Frame := mkFrame {
  conn_tag : N;
  object_id : N;
  payload_id : u8 * u8 * u8 * u8;
  flags : u8;
  payload : list u8;
}.

Definition HEADER_LEN : nat := 15.
Definition TAG_LEN : nat := 8.
Definition MIN_FRAME : nat := HEADER_LEN + TAG_LEN.

Definition write_header (f : Frame) : list u8 :=
  let '(p0, p1, p2, p3) := payload_id f in
  to_be_bytes 8 (conn_tag f) ++ to_be_bytes 2 (object_id f) ++ [p0; p1; p2; p3] ++ [flags f].

Definition read_header (bytes : list u8) : run (N * N * (u8 * u8 * u8 * u8) * u8) :=
  let! tag := slice_run 0 8 bytes in
  let! oid := slice_run 8 10 bytes in
  let! p0 := rexpect (bytes !! 10) in
  let! p1 := rexpect (bytes !! 11) in
  let! p2 := rexpect (bytes !! 12) in
  let! p3 := rexpect (bytes !! 13) in
  let! flags := rexpect (bytes !! 14) in
  Ret (from_be_bytes tag, from_be_bytes oid, (p0, p1, p2, p3), flags).

(** [for (b, m) in buf.iter_mut().zip(mask)] *)
Fixpoint xor_in_place (buf mask : list u8) : list u8 :=
  match buf, mask with
  | b :: buf, m :: mask => bxor b m :: xor_in_place buf mask
  | buf, _ => buf
  end.

Inductive WireError := AuthFailed | Malformed.

Record Codec := mkCodec { auth_key : list u8; hp_key : list u8 }.

Section codec.
Context {sip : SipHash}.

Definition auth_tag (key header payload : list u8) : list u8 := to_be_bytes 8 (sip13 key (header ++ payload)).

Definition header_mask (key sample : list u8) : list u8 :=
  let h0 := to_be_bytes 8 (sip13 key (sample ++ to_be_bytes 4 0)) in
  let h1 := to_be_bytes 8 (sip13 key (sample ++ to_be_bytes 4 1)) in
  h0 ++ take 7 h1.

Definition frame (c : Codec) (f : Frame) : list u8 :=
  let header := write_header f in
  let tag := auth_tag (auth_key c) header (payload f) in
  let mask := header_mask (hp_key c) tag in
  xor_in_place header mask ++ payload f ++ tag.

Definition deframe (c : Codec) (datagram : list u8) : run (result Frame WireError) :=
  if length datagram <? MIN_FRAME then Ret (Err Malformed)
  else
  let! tag := slice_run (length datagram - TAG_LEN) (length datagram) datagram in
  let mask := header_mask (hp_key c) tag in
  let! masked := slice_run 0 HEADER_LEN datagram in
  let header := xor_in_place masked mask in
  let! body := slice_run HEADER_LEN (length datagram - TAG_LEN) datagram in
  let expected := auth_tag (auth_key c) header body in
  if negb (bool_decide (expected = tag)) then Ret (Err AuthFailed)
  else
  let! ' (ct, oid, pid, fl) := read_header header in
  Ret (Ok (mkFrame ct oid pid fl body)).

(** ** Headers *)

Definition frame_wf (f : Frame) : Prop := (conn_tag f < u64_mod)%N /\ (object_id f < u16_mod)%N.

Lemma length_write_header f : length (write_header f) = HEADER_LEN.
Proof.
  unfold write_header. destruct (payload_id f) as [[[p0 p1] p2] p3].
  rewrite !length_app, !length_to_be_bytes. done.
Qed.

Lemma read_write_header f :
  frame_wf f -> read_header (write_header f) = Ret (conn_tag f, object_id f, payload_id f, flags f).
Proof.
  intros [Hc Ho]. unfold write_header. destruct (payload_id f) as [[[p0 p1] p2] p3].
  pose proof (length_to_be_bytes 8 (conn_tag f)) as L8. pose proof (length_to_be_bytes 2 (object_id f)) as L2.
  pose proof (from_to_be_bytes_small 8 (conn_tag f) Hc) as R8.
  pose proof (from_to_be_bytes_small 2 (object_id f) Ho) as R2.
  destruct (to_be_bytes 8 (conn_tag f)) as [|a0 [|a1 [|a2 [|a3 [|a4 [|a5 [|a6 [|a7 [|]]]]]]]]]; try discriminate L8.
  destruct (to_be_bytes 2 (object_id f)) as [|b0 [|b1 [|]]]; try discriminate L2.
  unfold read_header. cbn [app]. rewrite !slice_run_ok by (cbn; lia). cbn [rbind].
  cbn [lookup list_lookup rexpect rbind]. unfold slice. cbn [drop take Nat.sub]. by rewrite R8, R2.
Qed.

(** Any 15 bytes are the header of the frame they parse to. *)
Lemma write_read_header h p :
  length h = HEADER_LEN ->
  exists ct oid pid fl, read_header h = Ret (ct, oid, pid, fl) /\
    write_header (mkFrame ct oid pid fl p) = h /\ frame_wf (mkFrame ct oid pid fl p).
Proof.
  unfold HEADER_LEN. intros Hl.
  do 15 (destruct h as [|? h]; [discriminate Hl|]). destruct h; [|discriminate Hl].
  unfold read_header. rewrite !slice_run_ok by (cbn; lia). cbn [rbind].
  cbn [lookup list_lookup rexpect rbind]. unfold slice. cbn [drop take Nat.sub].
  do 4 eexists. split; [reflexivity|]. split.
  - unfold write_header. cbn [payload_id conn_tag object_id flags].
    rewrite !to_from_be_bytes_len by done. done.
  - split; cbn [conn_tag object_id]; (eapply N.lt_le_trans; [apply from_be_bytes_lt|vm_compute; discriminate]).
Qed.

(** ** Masking *)

Lemma length_header_mask key sample : length (header_mask key sample) = HEADER_LEN.
Proof. unfold header_mask. by rewrite length_app, length_take, !length_to_be_bytes. Qed.

Lemma length_xor_in_place buf mask : length (xor_in_place buf mask) = length buf.
Proof. revert mask. induction buf as [|b buf IH]; intros [|m mask]; cbn; auto. Qed.

Lemma xor_twice buf mask : xor_in_place (xor_in_place buf mask) mask = buf.
Proof.
  revert mask. induction buf as [|b buf IH]; intros [|m mask]; cbn; [done..|].
  by rewrite IH, <- bxor_assoc, bxor_nilpotent, bxor_0_r.
Qed.

Lemma length_auth_tag key h p : length (auth_tag key h p) = TAG_LEN.
Proof. apply length_to_be_bytes. Qed.

(** The three parts of a datagram long enough to hold a frame. *)
Lemma datagram_parts (d : list u8) :
  MIN_FRAME <= length d ->
  exists h p t, d = h ++ p ++ t /\ length h = HEADER_LEN /\ length t = TAG_LEN.
Proof.
  unfold MIN_FRAME, HEADER_LEN, TAG_LEN. intros Hl.
  exists (take 15 d), (take (length d - 23) (drop 15 d)), (drop (length d - 8) d).
  split_and!; [|rewrite length_take; lia|rewrite length_drop; lia].
  rewrite <- (take_drop 15 d) at 1. f_equal.
  rewrite <- (take_drop (length d - 23) (drop 15 d)) at 1. f_equal. rewrite drop_drop. f_equal. lia.
Qed.

(** What [deframe] does with a datagram in three parts. *)
Lemma deframe_parts c h p t :
  length h = HEADER_LEN -> length t = TAG_LEN ->
  let header := xor_in_place h (header_mask (hp_key c) t) in
  deframe c (h ++ p ++ t) =
  if bool_decide (auth_tag (auth_key c) header p = t)
  then let! ' (ct, oid, pid, fl) := read_header header in Ret (Ok (mkFrame ct oid pid fl p))
  else Ret (Err AuthFailed).
Proof.
  intros Hh Ht header. unfold deframe, MIN_FRAME, HEADER_LEN, TAG_LEN in *.
  rewrite !length_app, Hh, Ht. rewrite (proj2 (Nat.ltb_ge _ _)) by lia.
  assert (Hs1 : slice_run (15 + (length p + 8) - 8) (15 + (length p + 8)) (h ++ p ++ t) = Ret t).
  { rewrite slice_run_ok by (rewrite !length_app; lia). f_equal. unfold slice.
    replace (15 + (length p + 8) - 8) with (length (h ++ p)) by (rewrite length_app; lia).
    rewrite app_assoc, drop_app_length. apply take_ge. rewrite length_app. lia. }
  assert (Hs2 : slice_run 0 15 (h ++ p ++ t) = Ret h).
  { rewrite slice_run_ok by (rewrite !length_app; lia). f_equal. unfold slice. rewrite drop_0.
    by apply take_app_length'. }
  assert (Hs3 : slice_run 15 (15 + (length p + 8) - 8) (h ++ p ++ t) = Ret p).
  { rewrite slice_run_ok by (rewrite !length_app; lia). f_equal. unfold slice.
    rewrite drop_app_length' by done. replace (15 + (length p + 8) - 8 - 15) with (length p) by lia.
    apply take_app_length. }
  rewrite Hs1. cbn [rbind]. rewrite Hs2. cbn [rbind]. rewrite Hs3. cbn [rbind].
  fold header. by destruct (bool_decide _).
Qed.

Lemma frame_deframes (c : Codec) (f : Frame) :
  frame_wf f -> deframe c (frame c f) = Ret (Ok f).
Proof.
  intros Hf. unfold frame. rewrite deframe_parts;
    [|by rewrite length_xor_in_place, length_write_header|apply length_auth_tag].
  rewrite xor_twice, bool_decide_true by done. rewrite read_write_header by done. by destruct f.
Qed.

Lemma deframe_cases (c : Codec) (d : list u8) :
  (deframe c d = Ret (Err Malformed) /\ length d < MIN_FRAME) \/
  (deframe c d = Ret (Err AuthFailed) /\ MIN_FRAME <= length d) \/
  (exists f, deframe c d = Ret (Ok f) /\ frame c f = d /\ frame_wf f).
Proof.
  destruct (Nat.lt_ge_cases (length d) MIN_FRAME) as [Hs|Hl].
  { left. split; [|done]. unfold deframe. by rewrite (proj2 (Nat.ltb_lt _ _)). }
  right. destruct (datagram_parts d Hl) as (h & p & t & -> & Hh & Ht).
  rewrite deframe_parts by done. set (header := xor_in_place h (header_mask (hp_key c) t)).
  case_bool_decide as Htag; [right|by left].
  destruct (write_read_header header p) as (ct & oid & pid & fl & -> & Hw & Hwf).
  { unfold header. by rewrite length_xor_in_place. }
  cbn [rbind]. eexists. split_and!; [done| |done]. unfold frame. rewrite Hw. cbn [payload].
  rewrite Htag. unfold header. by rewrite xor_twice.
Qed.

(** Framing round trip.  For every hash function and every key pair, a
    frame comes back from its datagram as it went in. *)
Theorem deframe_frame (c : Codec) (f : Frame) :
  frame_wf f -> deframe c (frame c f) = Ret (Ok f).
Proof. apply frame_deframes. Qed.

(** C35: only frames are accepted.  [deframe] never panics on any datagram.  It
    reports [Malformed] exactly when the datagram is shorter than header and
    tag; and a datagram it accepts is, byte for byte, the encoding of the frame
    it returns, so that no two datagrams decode to the same frame and no
    change of header, payload or tag goes unnoticed unless it yields another
    valid encoding. *)
Theorem deframe_sound (c : Codec) (d : list u8) :
  (deframe c d = Ret (Err Malformed) /\ length d < MIN_FRAME) \/
  (deframe c d = Ret (Err AuthFailed) /\ MIN_FRAME <= length d) \/
  (exists f, deframe c d = Ret (Ok f) /\ frame c f = d /\ frame_wf f).
Proof. apply deframe_cases. Qed.
End codec.

(** ** A toy hash, to run the model *)

Definition toy_sip : SipHash := {| sip13 k m := foldr (fun b acc => (b2n b + 257 * acc) mod u64_mod)%N 1%N (k ++ m) |}.
Definition demo_codec : Codec := mkCodec (replicate 16 Byte.x01) (replicate 16 Byte.x02).
Definition demo_frame : Frame :=
  mkFrame 0x1122334455667788 0xbeef (Byte.x01, Byte.x00, Byte.x07, Byte.x01) Byte.x80 [Byte.xca; Byte.xfe].

Lemma deframe_frame_witness :
  deframe (sip := toy_sip) demo_codec (frame (sip := toy_sip) demo_codec demo_frame) = Ret (Ok demo_frame).
Proof. apply (deframe_frame (sip := toy_sip)). split; reflexivity. Defined.

End Wire.
