(* ===== verification/Feedback.v ===== *)
(** * Control messages

    The loss report of [crates/yip-transport/src/feedback.rs] and the control
    frames of [crates/yip-transport/src/plpmtu.rs] that carry it, MTU probes
    and their acknowledgements. *)
From Stdlib Require Strings.Byte.
From Stdlib Require Import NArith Lia.
From stdpp Require Import base numbers list.
From S2P Require Import Prelude.

Local Open Scope nat_scope.

Definition MAX_NACK : nat := 64.

Record LossReport := mkReport { delivered_count : N; high_counter : N; missing : list N }.

Module Report.

Definition encode (r : LossReport) : list u8 :=
  let n_missing := Nat.min (length (missing r)) MAX_NACK in
  to_be_bytes 4 (delivered_count r) ++ to_be_bytes 8 (high_counter r) ++ to_be_bytes 2 (N.of_nat n_missing)
    ++ concat (map (to_be_bytes 8) (take n_missing (missing r))).

Definition decode (bytes : list u8) : run (option LossReport) :=
  if length bytes <? 14 then Ret None
  else
  let! dc := slice_run 0 4 bytes in
  let! hc := slice_run 4 12 bytes in
  let! nm := slice_run 12 14 bytes in
  let n_missing := N.to_nat (from_be_bytes nm) in
  if negb (length bytes =? 14 + n_missing * 8) then Ret None
  else
  let! ms := rmap (fun i =>
      let offset := 14 + i * 8 in
      let! num := slice_run offset (offset + 8) bytes in Ret (from_be_bytes num)) (seq 0 n_missing) in
  Ret (Some (mkReport (from_be_bytes dc) (from_be_bytes hc) (take MAX_NACK ms))).

Definition report_wf (r : LossReport) : Prop :=
  (delivered_count r < u32_mod)%N /\ (high_counter r < u64_mod)%N /\ Forall (fun m => m < u64_mod)%N (missing r).

(** What survives encoding. *)
Definition capped (r : LossReport) : LossReport :=
  mkReport (delivered_count r) (high_counter r) (take MAX_NACK (missing r)).

Lemma length_words (l : list N) : length (concat (map (to_be_bytes 8) l)) = length l * 8.
Proof. induction l as [|x l IH]; [done|]. cbn [map concat length]. rewrite length_app, IH, length_to_be_bytes. lia. Qed.

(** Reading back the fields of a header followed by big-endian words. *)
Lemma decode_fields a b c rest :
  length a = 4 -> length b = 8 -> length c = 2 ->
  length rest = N.to_nat (from_be_bytes c) * 8 ->
  decode (a ++ b ++ c ++ rest) =
  Ret (Some (mkReport (from_be_bytes a) (from_be_bytes b)
    (take MAX_NACK (map (fun i => from_be_bytes (slice (i * 8) (i * 8 + 8) rest))
                        (seq 0 (N.to_nat (from_be_bytes c))))))).
Proof.
  intros Ha Hb Hc. unfold decode. remember (N.to_nat (from_be_bytes c)) as n eqn:En. intros Hr.
  assert (Hlen : length (a ++ b ++ c ++ rest) = 14 + n * 8) by (rewrite !length_app; lia).
  rewrite Hlen, (proj2 (Nat.ltb_ge _ _)) by lia.
  assert (H0 : slice 0 4 (a ++ b ++ c ++ rest) = a).
  { unfold slice. rewrite drop_0. by apply take_app_length'. }
  assert (H4 : slice 4 12 (a ++ b ++ c ++ rest) = b).
  { unfold slice. rewrite drop_app_length' by done. by apply take_app_length'. }
  assert (Hd : drop 14 (a ++ b ++ c ++ rest) = rest).
  { rewrite !app_assoc. apply drop_app_length'. rewrite !length_app. lia. }
  assert (H12 : slice 12 14 (a ++ b ++ c ++ rest) = c).
  { unfold slice. rewrite app_assoc, drop_app_length' by (rewrite length_app; lia). by apply take_app_length'. }
  rewrite !slice_run_ok by lia. cbn [rbind]. rewrite H0, H4, H12, <- En, Nat.eqb_refl. cbn [negb].
  rewrite (rmap_ret _ (fun i => from_be_bytes (slice (i * 8) (i * 8 + 8) rest))); [done|].
  intros i Hi%elem_of_seq. cbv zeta. rewrite slice_run_ok by (rewrite Hlen; lia). cbn [rbind]. do 2 f_equal.
  unfold slice. rewrite <- drop_drop, Hd. done.
Qed.

Lemma words_read_back (l : list N) :
  Forall (fun m => m < u64_mod)%N l ->
  map (fun i => from_be_bytes (slice (i * 8) (i * 8 + 8) (concat (map (to_be_bytes 8) l)))) (seq 0 (length l)) = l.
Proof.
  induction 1 as [|x l Hx Hl IH]; [done|]. cbn [length seq map concat].
  pose proof (length_to_be_bytes 8 x) as L8. f_equal.
  - unfold slice. rewrite drop_0, take_app_length' by lia. by apply from_to_be_bytes_small.
  - rewrite <- IH at 2. rewrite <- seq_shift, map_map. apply map_ext_in. intros i _. done.
Qed.

Lemma decode_encode r : report_wf r -> decode (encode r) = Ret (Some (capped r)).
Proof.
  intros (Hd & Hh & Hm). unfold encode, capped. set (n := Nat.min (length (missing r)) MAX_NACK).
  assert (Hn : N.to_nat (from_be_bytes (to_be_bytes 2 (N.of_nat n))) = n).
  { rewrite from_to_be_bytes_small; [lia|]. apply N.le_lt_trans with 64%N; [|reflexivity].
    unfold n, MAX_NACK. lia. }
  assert (Ht : length (take n (missing r)) = n) by (rewrite length_take; lia).
  rewrite decode_fields; rewrite ?length_to_be_bytes, ?Hn; try done; [|by rewrite length_words, Ht].
  rewrite !from_to_be_bytes_small by done. do 3 f_equal.
  pose proof (words_read_back (take n (missing r)) ltac:(by apply Forall_take)) as Hw.
  rewrite Ht in Hw. rewrite Hw.
  rewrite take_take. unfold n. destruct (Nat.le_gt_cases (length (missing r)) MAX_NACK).
  - rewrite (take_ge _ MAX_NACK) by lia. apply take_ge. lia.
  - f_equal. lia.
Qed.

Lemma decode_total bytes : exists o, decode bytes = Ret o.
Proof.
  unfold decode. destruct (Nat.ltb_spec (length bytes) 14); [by exists None|].
  rewrite !slice_run_ok by lia. cbn [rbind].
  destruct (Nat.eqb_spec (length bytes) (14 + N.to_nat (from_be_bytes (slice 12 14 bytes)) * 8)) as [E|];
    cbn [negb]; [|by exists None].
  rewrite (rmap_ret _ (fun i => from_be_bytes (slice (14 + i * 8) (14 + i * 8 + 8) bytes))); [by eexists|].
  intros i Hi%elem_of_seq. cbv zeta. rewrite slice_run_ok by (rewrite E; lia). done.
Qed.

Lemma decode_short bytes : length bytes < 14 -> decode bytes = Ret None.
Proof. intros. unfold decode. by rewrite (proj2 (Nat.ltb_lt _ _)). Qed.

End Report.

(** ** Control frames *)

Definition MAGIC_MTU_PROBE : list u8 := [Byte.xff; Byte.x50].
Definition MAGIC_MTU_PROBE_ACK : list u8 := [Byte.xff; Byte.x41].

Inductive ControlFrame :=
| Feedback (report : LossReport)
| MtuProbe (probe_id target_symbol_size : N) (padding : list u8)
| MtuProbeAck (probe_id accepted_symbol_size : N).

Module Control.

Definition encode (f : ControlFrame) : list u8 :=
  match f with
  | Feedback report => Report.encode report
  | MtuProbe probe_id target padding =>
      MAGIC_MTU_PROBE ++ to_be_bytes 2 probe_id ++ to_be_bytes 2 target ++ padding
  | MtuProbeAck probe_id accepted =>
      MAGIC_MTU_PROBE_ACK ++ to_be_bytes 2 probe_id ++ to_be_bytes 2 accepted
  end.

(** [bytes[0..2] == magic], guarded by a length test in the source. *)
Definition has_magic (magic bytes : list u8) : bool := bool_decide (take 2 bytes = magic).

Definition decode (bytes : list u8) : run (option ControlFrame) :=
  if (6 <=? length bytes) && has_magic MAGIC_MTU_PROBE bytes then
    let! id := slice_run 2 4 bytes in
    let! target := slice_run 4 6 bytes in
    if negb (length bytes =? N.to_nat (from_be_bytes target)) then Ret None
    else
    let! padding := slice_run 6 (length bytes) bytes in
    Ret (Some (MtuProbe (from_be_bytes id) (from_be_bytes target) padding))
  else if (length bytes =? 6) && has_magic MAGIC_MTU_PROBE_ACK bytes then
    let! id := slice_run 2 4 bytes in
    let! accepted := slice_run 4 6 bytes in
    Ret (Some (MtuProbeAck (from_be_bytes id) (from_be_bytes accepted)))
  else
    let! r := Report.decode bytes in
    Ret (option_map Feedback r).

(** Frames the format can tell apart: a probe announces its own length, and a
    report does not begin like a probe. *)
Definition control_wf (f : ControlFrame) : Prop :=
  match f with
  | Feedback r => Report.report_wf r /\ length (missing r) <= MAX_NACK /\
      (delivered_count r / 65536 <> 0xff50)%N
  | MtuProbe id target padding =>
      (id < u16_mod)%N /\ (target < u16_mod)%N /\ N.to_nat target = 6 + length padding
  | MtuProbeAck id accepted => (id < u16_mod)%N /\ (accepted < u16_mod)%N
  end.

Lemma two_bytes x : (x < u16_mod)%N -> exists a b, to_be_bytes 2 x = [a; b] /\ from_be_bytes [a; b] = x.
Proof.
  intros Hx. pose proof (length_to_be_bytes 2 x) as Hl. pose proof (from_to_be_bytes_small 2 x Hx) as Hr.
  destruct (to_be_bytes 2 x) as [|a [|b [|]]]; try discriminate Hl. by exists a, b.
Qed.

(** The first two bytes of a four-byte integer are its high half. *)
Lemma high_half x rest : take 2 (to_be_bytes 4 x ++ rest) = to_be_bytes 2 (x / 65536).
Proof.
  change 65536%N with (2 ^ 16)%N. rewrite <- N.shiftr_div_pow2. cbn.
  by rewrite !N.shiftr_shiftr.
Qed.

Lemma report_no_magic r :
  (delivered_count r < u32_mod)%N -> (delivered_count r / 65536 <> 0xff50)%N ->
  has_magic MAGIC_MTU_PROBE (Report.encode r) = false.
Proof.
  intros Hd Hne. unfold has_magic, Report.encode. rewrite high_half. apply bool_decide_false.
  intros E. apply (f_equal from_be_bytes) in E. rewrite from_to_be_bytes_small in E; [done|].
  apply N.Div0.div_lt_upper_bound. exact Hd.
Qed.

Lemma length_encode_report r : length (Report.encode r) = 14 + Nat.min (length (missing r)) MAX_NACK * 8.
Proof.
  unfold Report.encode. rewrite !length_app, !length_to_be_bytes, Report.length_words, length_take. lia.
Qed.

Lemma encode_decode (f : ControlFrame) :
  control_wf f -> decode (encode f) = Ret (Some f).
Proof.
  destruct f as [r|id target padding|id accepted]; cbn [control_wf encode].
  - intros (Hwf & Hcap & Hne). unfold decode.
    rewrite report_no_magic, andb_false_r by (done || apply Hwf).
    rewrite length_encode_report, (proj2 (Nat.eqb_neq _ 6)) by lia. cbn [andb].
    rewrite Report.decode_encode by done. cbn. unfold Report.capped. rewrite take_ge by done. by destruct r.
  - intros (Hid & Ht & Hlen). unfold decode.
    destruct (two_bytes id Hid) as (a & b & -> & Ra). destruct (two_bytes target Ht) as (c & d & -> & Rc).
    cbn [app MAGIC_MTU_PROBE]. rewrite (proj2 (Nat.leb_le _ _)) by (cbn; lia).
    unfold has_magic. rewrite bool_decide_true by done. cbn [andb].
    rewrite !slice_run_ok by (cbn; lia). cbn [rbind]. unfold slice. cbn [drop take Nat.sub].
    rewrite take_0, Rc, Ra, (proj2 (Nat.eqb_eq _ _)) by (cbn; lia). cbn [negb length Nat.sub].
    by rewrite (take_ge padding) by (cbn; lia).
  - intros (Hid & Ht). unfold decode.
    destruct (two_bytes id Hid) as (a & b & -> & Ra). destruct (two_bytes accepted Ht) as (c & d & -> & Rc).
    cbn [app MAGIC_MTU_PROBE_ACK length Nat.leb Nat.eqb andb].
    unfold has_magic. rewrite bool_decide_false, bool_decide_true by (discriminate || done).
    rewrite !slice_run_ok by (cbn; lia). cbn [rbind]. unfold slice. cbn [drop take Nat.sub]. by rewrite Ra, Rc.
Qed.

(** Control frames round trip.  Loss reports, MTU probes and
    acknowledgements decode to what was encoded, for every report that lists at
    most 64 counters and does not begin with the two bytes of a probe, every
    probe that announces its own length and every acknowledgement. *)
Theorem control_round_trip (f : ControlFrame) :
  control_wf f -> decode (encode f) = Ret (Some f).
Proof. apply encode_decode. Qed.

Lemma control_decode_total bytes : exists o, decode bytes = Ret o.
Proof.
  unfold decode. destruct (_ && _) eqn:E.
  - apply andb_true_iff in E as [Hl%Nat.leb_le _]. rewrite !slice_run_ok by lia. cbn [rbind].
    destruct (negb _); eauto.
  - destruct ((length bytes =? 6) && _) eqn:E6.
    + apply andb_true_iff in E6 as [Hl%Nat.eqb_eq _]. rewrite !slice_run_ok by lia. cbn [rbind]. eauto.
    + destruct (Report.decode_total bytes) as [o ->]. cbn. eauto.
Qed.

(** Control frames from the network.  No byte string makes the decoder
    panic, and a frame it accepts lists at most 64 missing counters and, if a
    probe, is exactly as long as the size it probes. *)
Theorem control_decode_safe (bytes : list u8) :
  exists o, decode bytes = Ret o /\
    match o with
    | Some (Feedback r) => length (missing r) <= MAX_NACK
    | Some (MtuProbe id target padding) =>
        length bytes = N.to_nat target /\ length padding = length bytes - 6 /\
        encode (MtuProbe id target padding) = bytes
    | Some (MtuProbeAck id accepted) => encode (MtuProbeAck id accepted) = bytes
    | None => True
    end.
Proof.
  unfold decode. destruct (_ && _) eqn:E.
  - apply andb_true_iff in E as [Hl%Nat.leb_le Hm%bool_decide_eq_true].
    rewrite !slice_run_ok by lia. cbn [rbind].
    destruct (Nat.eqb_spec (length bytes) (N.to_nat (from_be_bytes (slice 4 6 bytes)))) as [E|];
      cbn [negb]; [|by exists None].
    eexists. split; [done|]. split_and!; [done|rewrite length_slice; lia|].
    cbn [encode]. rewrite !to_from_be_bytes_len by (rewrite length_slice; lia). rewrite <- Hm.
    unfold slice. rewrite (take_ge (drop 6 bytes)) by (rewrite length_drop; lia).
    do 6 (destruct bytes as [|? bytes]; [cbn in Hl; lia|]). done.
  - destruct ((length bytes =? 6) && _) eqn:E6.
    + apply andb_true_iff in E6 as [Hl%Nat.eqb_eq Hm%bool_decide_eq_true].
      rewrite !slice_run_ok by lia. cbn [rbind]. eexists. split; [done|]. cbn [encode].
      rewrite !to_from_be_bytes_len by (rewrite length_slice; lia). rewrite <- Hm. unfold slice.
      do 6 (destruct bytes as [|? bytes]; [cbn in Hl; lia|]). destruct bytes; [done|discriminate Hl].
    + unfold Report.decode. destruct (Nat.ltb_spec (length bytes) 14); [by exists None|].
      rewrite !slice_run_ok by lia. cbn [rbind].
      destruct (Nat.eqb_spec (length bytes) (14 + N.to_nat (from_be_bytes (slice 12 14 bytes)) * 8)) as [Eb|];
        cbn [negb rbind]; [|by exists None].
      rewrite (rmap_ret _ (fun i => from_be_bytes (slice (14 + i * 8) (14 + i * 8 + 8) bytes))).
      * eexists. split; [done|]. cbn. rewrite length_take. apply Nat.le_min_l.
      * intros i Hi%elem_of_seq. cbv zeta. rewrite slice_run_ok by (rewrite Eb; lia). done.
Qed.

(** A report whose delivered count begins with the bytes of a probe does not
    come back. *)
Lemma report_taken_for_probe :
  decode (encode (Feedback (mkReport 0xff500000 7 [5%N]))) = Ret None.
Proof. reflexivity. Qed.

Lemma control_round_trip_witness :
  decode (encode (Feedback (mkReport 1000 5000 [10; 42; 4999]%N)))
    = Ret (Some (Feedback (mkReport 1000 5000 [10; 42; 4999]%N))).
Proof.
  apply (control_round_trip (Feedback (mkReport 1000 5000 [10; 42; 4999]%N))).
  split; [|split; [vm_compute; lia|discriminate]].
  split; [reflexivity|]. split; [reflexivity|]. repeat (constructor; [reflexivity|]). constructor.
Defined.

End Control.
