(* ===== verification/Plpmtu.v ===== *)
(** * Path MTU discovery: the search ladder controller

    Models [PlpmtuController] of yip-transport/src/plpmtu.rs: a search over a
    four-step ladder of symbol sizes, driven by ticks, acknowledgements,
    blackhole reports and path changes.  [probe_round] puts the controller and
    the control-frame codec together as the data plane does (one tick, the
    probe's trip to the peer, the acknowledgement's trip back).  The theorems
    show that no event sequence leaves the ladder, that the size in use grows
    only by an acknowledgement of the probe in flight, and that on a path of a
    given capacity the search ends at the largest size that fits. *)

From Stdlib Require Strings.Byte.
From Stdlib Require Import NArith Lia.
From stdpp Require Import base numbers list.
From S2P Require Import Prelude.
From S2P Require Import Feedback.

Local Open Scope nat_scope.

Definition PLPMTU_LADDER : list N := [1120; 1320; 1400; 1530]%N.
Definition PROBE_INTERVAL_MS : N := 1000.
Definition MAX_PROBE_ATTEMPTS : N := 3.

Inductive ControllerState :=
| Probing (tier_idx : nat) (attempts : N)
| Converged.

Record PlpmtuController := mkPlpmtu {
  confirmed_symbol_size : N;
  ctl_state : ControllerState;
  next_probe_id : N;
  probe_id_in_flight : N;
  last_probe_ms : option N;
  backoff_exp : N;
}.

Module Plpmtu.

Definition ladder (i : nat) : run N := rexpect (PLPMTU_LADDER !! i).

Definition new : PlpmtuController :=
  mkPlpmtu 1120 (Probing 1 0) 2 1 (Some 0%N) 0.

Definition current_symbol_size (c : PlpmtuController) : N := confirmed_symbol_size c.

Definition is_converged (c : PlpmtuController) : bool :=
  match ctl_state c with Converged => true | Probing _ _ => false end.

Definition candidate_symbol_size (c : PlpmtuController) : run (option N) :=
  match ctl_state c with
  | Probing tier_idx _ => let! s := ladder tier_idx in Ret (Some s)
  | Converged => Ret None
  end.

(** [PROBE_INTERVAL_MS.saturating_mul(1 << backoff_exp.min(5))] on u64. *)
Definition probe_interval_ms (c : PlpmtuController) : N :=
  N.min (PROBE_INTERVAL_MS * N.shiftl 1 (N.min (backoff_exp c) 5)) (u64_mod - 1).

Definition on_tick (c : PlpmtuController) (now_ms : N) :
    run (PlpmtuController * option (N * N * nat)) :=
  match ctl_state c with
  | Probing tier_idx attempts =>
      let interval := probe_interval_ms c in
      let due := (interval <=? now_ms - default 0 (last_probe_ms c))%N in
      if negb due then Ret (c, None)
      else
      let next_attempts := N.min (attempts + 1) 255 in
      if (MAX_PROBE_ATTEMPTS <? next_attempts)%N then
        Ret (mkPlpmtu (confirmed_symbol_size c) Converged (next_probe_id c)
               (probe_id_in_flight c) (last_probe_ms c) (backoff_exp c), None)
      else
      let c := mkPlpmtu (confirmed_symbol_size c) (Probing tier_idx next_attempts)
                 (next_probe_id c) (probe_id_in_flight c) (Some now_ms) (backoff_exp c) in
      let! target_symbol_size := ladder tier_idx in
      let pad_len := N.to_nat target_symbol_size - 6 in
      Ret (c, Some (probe_id_in_flight c, target_symbol_size, pad_len))
  | Converged => Ret (c, None)
  end.

Definition on_ack (c : PlpmtuController) (probe_id accepted_symbol_size : N) :
    run (PlpmtuController * option N) :=
  match ctl_state c with
  | Probing tier_idx _ =>
      let! target_symbol_size := ladder tier_idx in
      if (probe_id =? probe_id_in_flight c)%N && (accepted_symbol_size =? target_symbol_size)%N then
        let next_tier := tier_idx + 1 in
        let c :=
          if next_tier <? length PLPMTU_LADDER then
            mkPlpmtu accepted_symbol_size (Probing next_tier 0)
              (wrap16 (next_probe_id c + 1)) (next_probe_id c) (last_probe_ms c) 0
          else
            mkPlpmtu accepted_symbol_size Converged
              (next_probe_id c) (probe_id_in_flight c) (last_probe_ms c) 0 in
        Ret (c, Some accepted_symbol_size)
      else Ret (c, None)
  | Converged => Ret (c, None)
  end.

Definition on_blackhole (c : PlpmtuController) : run (PlpmtuController * option N) :=
  let! floor := ladder 0 in
  if (floor <? confirmed_symbol_size c)%N then
    Ret (mkPlpmtu floor (Probing 1 0) (wrap16 (next_probe_id c + 1)) (next_probe_id c)
           (last_probe_ms c) (sat_add32 (backoff_exp c) 1), Some floor)
  else Ret (c, None).

Definition reset_to_floor (c : PlpmtuController) : run (PlpmtuController * N) :=
  let! floor := ladder 0 in
  Ret (mkPlpmtu floor (Probing 1 0) (wrap16 (next_probe_id c + 1)) (next_probe_id c)
         (last_probe_ms c) 0, floor).

(** ** The controller as a machine *)

Inductive event :=
| Tick (now_ms : N)
| Ack (probe_id accepted_symbol_size : N)
| Blackhole
| Roam.

Definition step (c : PlpmtuController) (e : event) : run PlpmtuController :=
  match e with
  | Tick now => let! ' (c', _) := on_tick c now in Ret c'
  | Ack id size => let! ' (c', _) := on_ack c id size in Ret c'
  | Blackhole => let! ' (c', _) := on_blackhole c in Ret c'
  | Roam => let! ' (c', _) := reset_to_floor c in Ret c'
  end.

(** The data plane's use of the controller, on a path that carries control
    frames of at most [mtu] bytes: a tick, the probe it emits padded with zeros
    and encoded, the peer's acknowledgement, and its arrival. *)
Definition probe_trip (mtu : nat) (c : PlpmtuController)
    (probe_id target_symbol_size : N) (pad_len : nat) : run PlpmtuController :=
  let bytes := Control.encode (MtuProbe probe_id target_symbol_size (replicate pad_len Byte.x00)) in
  if mtu <? length bytes then Ret c
  else
  let! received := Control.decode bytes in
  match received with
  | Some (MtuProbe id size _) =>
      let! reply := Control.decode (Control.encode (MtuProbeAck id size)) in
      match reply with
      | Some (MtuProbeAck id' size') => let! ' (c, _) := on_ack c id' size' in Ret c
      | _ => Ret c
      end
  | _ => Ret c
  end.

Definition probe_round (mtu : nat) (c : PlpmtuController) (now_ms : N) : run PlpmtuController :=
  let! ' (c, probe) := on_tick c now_ms in
  match probe with
  | None => Ret c
  | Some (probe_id, target_symbol_size, pad_len) => probe_trip mtu c probe_id target_symbol_size pad_len
  end.

(** ** The ladder invariant *)

Definition wf (c : PlpmtuController) : Prop :=
  match ctl_state c with
  | Probing t a => 1 <= t <= 3 /\ (a <= 3)%N /\ PLPMTU_LADDER !! (t - 1) = Some (confirmed_symbol_size c)
  | Converged => confirmed_symbol_size c ∈ PLPMTU_LADDER
  end /\ (next_probe_id c < u16_mod)%N /\ (probe_id_in_flight c < u16_mod)%N.

Lemma wrap16_lt x : (wrap16 x < u16_mod)%N.
Proof. by apply N.mod_lt. Qed.

#[local] Hint Resolve wrap16_lt : core.

Lemma mtu_new_wf : wf new.
Proof. unfold wf; cbn. split_and!; done || lia. Qed.

(** The three tiers that are ever probed. *)
Lemma tier_cases t : 1 <= t <= 3 -> t = 1 \/ t = 2 \/ t = 3.
Proof. lia. Qed.

(** What one event does to a well-formed controller. *)
Definition effect (c : PlpmtuController) (e : event) (c' : PlpmtuController) : Prop :=
  confirmed_symbol_size c' = confirmed_symbol_size c \/
  (e = Ack (probe_id_in_flight c) (confirmed_symbol_size c') /\
   candidate_symbol_size c = Ret (Some (confirmed_symbol_size c')) /\
   (confirmed_symbol_size c < confirmed_symbol_size c')%N) \/
  ((e = Blackhole \/ e = Roam) /\ confirmed_symbol_size c' = 1120%N).

Lemma step_tick c now : wf c -> exists c', step c (Tick now) = Ret c' /\ wf c' /\ effect c (Tick now) c'.
Proof.
  destruct c as [conf [t a|] nid pid lp bo]; unfold wf, step, on_tick, effect; cbn -[N.min N.leb N.ltb].
  - intros ((Ht & Ha & Hc) & Hn & Hp).
    destruct (_ <=? _)%N; cbn -[N.min N.ltb]; [|eexists; split; [done|]; cbn; auto].
    destruct (N.ltb_spec MAX_PROBE_ATTEMPTS (N.min (a + 1) 255)); cbn.
    + eexists. split; [done|]. cbn. split; [|by left]. split_and!; try done. by eapply list_elem_of_lookup_2.
    + unfold MAX_PROBE_ATTEMPTS in *.
      destruct (tier_cases t Ht) as [-> | [-> | ->]]; eexists; (split; [done|]); cbn; auto with lia.
  - intros H. eexists. split; [done|]. cbn. auto.
Qed.

Lemma step_ack c id size :
  wf c -> exists c', step c (Ack id size) = Ret c' /\ wf c' /\ effect c (Ack id size) c'.
Proof.
  destruct c as [conf [t a|] nid pid lp bo]; unfold wf, step, on_ack, effect, candidate_symbol_size; cbn.
  - intros ((Ht & Ha & Hc) & Hn & Hp).
    destruct (tier_cases t Ht) as [-> | [-> | ->]]; cbn in Hc |- *; injection Hc as <-;
      (destruct (N.eqb_spec id pid) as [->|]; cbn; [|eexists; split; [done|]; cbn; auto with lia]);
      match goal with |- context [(size =? ?s)%N] => destruct (N.eqb_spec size s) as [->|] end; cbn;
      eexists; (split; [done|]); cbn; split; auto 6 with lia; split_and!; auto with lia.
    repeat (left || right); constructor.
  - intros H. eexists. split; [done|]. cbn. auto.
Qed.

Lemma mtu_step_ok c e : wf c -> exists c', step c e = Ret c' /\ wf c' /\ effect c e c'.
Proof.
  destruct e as [now|id size| |]; [apply step_tick|apply step_ack| |]; intros H;
    unfold step, on_blackhole, reset_to_floor; cbn.
  - destruct (N.ltb_spec 1120 (confirmed_symbol_size c)); cbn; eexists; (split; [done|]).
    + split; [|right; right; auto]. unfold wf; cbn. destruct H as (_ & Hn & _). auto with lia.
    + split; [done|by left].
  - eexists. split; [done|]. split; [|right; right; auto].
    unfold wf; cbn. destruct H as (_ & Hn & _). auto with lia.
Qed.

(** The search never leaves the ladder.  No sequence of ticks,
    acknowledgements, blackhole reports and path changes makes the controller
    index the ladder out of range; the confirmed size is always a step of the
    ladder, the step being probed is the one above it, and no step is probed
    more than three times. *)
Theorem plpmtu_invariant (es : list event) :
  exists c, rfold step es new = Ret c /\ wf c.
Proof.
  generalize mtu_new_wf. generalize new. induction es as [|e es IH]; intros c Hc; cbn; [by exists c|].
  destruct (mtu_step_ok c e Hc) as (c' & -> & Hc' & _). by apply IH.
Qed.

(** The symbol size grows only on proof.  An event changes the confirmed
    size only if it is an acknowledgement that carries the probe id in flight
    and the size being probed (then that size is confirmed), or a blackhole
    report or path change (then the size falls back to 1120). *)
Theorem plpmtu_grows_only_by_ack (c : PlpmtuController) (e : event) (c' : PlpmtuController) :
  wf c -> step c e = Ret c' -> effect c e c'.
Proof.
  intros H E. destruct (mtu_step_ok c e H) as (c2 & E2 & _ & He). rewrite E in E2. by injection E2 as ->.
Qed.

(** ** Convergence *)

(** The controller during a search on a path of capacity [mtu]: it has
    confirmed only sizes that fit, has repeated a probe only if it does not
    fit, and has stopped only at the largest size that fits. *)
Definition fits (mtu : nat) (s : N) : Prop := N.to_nat s <= mtu.

Definition largest (mtu : nat) (s : N) : Prop :=
  s ∈ PLPMTU_LADDER /\ fits mtu s /\ Forall (fun s' => fits mtu s' -> (s' <= s)%N) PLPMTU_LADDER.

Definition searching (mtu : nat) (c : PlpmtuController) : Prop :=
  wf c /\ match ctl_state c with
          | Probing t a => fits mtu (confirmed_symbol_size c) /\
              (a <> 0%N -> forall s, PLPMTU_LADDER !! t = Some s -> ~ fits mtu s)
          | Converged => largest mtu (confirmed_symbol_size c)
          end.

(** Rounds left, in the worst case. *)
Definition rounds_left (c : PlpmtuController) : nat :=
  match ctl_state c with
  | Probing t a => (3 - t) + (4 - N.to_nat a)
  | Converged => 0
  end.

(** Each tick comes a probe interval after the previous one. *)
Fixpoint spaced (gap last : N) (times : list N) : Prop :=
  match times with
  | [] => True
  | t :: rest => (last + gap <= t)%N /\ spaced gap t rest
  end.

Lemma spaced_weaken gap gap' last times :
  (gap' <= gap)%N -> spaced gap last times -> spaced gap' last times.
Proof. revert last. induction times as [|t ts IH]; intros last Hg; cbn; [done|]. intros [? ?]. auto with lia. Qed.

Lemma interval_monotone c c' :
  (backoff_exp c' <= backoff_exp c)%N -> (probe_interval_ms c' <= probe_interval_ms c)%N.
Proof.
  intros H. unfold probe_interval_ms. apply N.min_le_compat_r, N.mul_le_mono_l.
  rewrite !N.shiftl_1_l. apply N.pow_le_mono_r; lia.
Qed.

(** A probe and its acknowledgement survive the codec. *)
Lemma probe_arrives mtu c id size pad :
  (id < u16_mod)%N -> (size < u16_mod)%N -> N.to_nat size = 6 + pad ->
  probe_trip mtu c id size pad
  = if mtu <? N.to_nat size then Ret c else let! ' (c, _) := on_ack c id size in Ret c.
Proof.
  intros Hid Hs Hp. unfold probe_trip. cbv zeta.
  assert (length (Control.encode (MtuProbe id size (replicate pad Byte.x00))) = N.to_nat size) as ->.
  { cbn [Control.encode]. rewrite !length_app, !length_to_be_bytes, length_replicate. cbn. lia. }
  destruct (mtu <? N.to_nat size); [done|].
  rewrite Control.encode_decode by (cbn; rewrite length_replicate; auto). cbn [rbind].
  rewrite Control.encode_decode by (cbn; auto). done.
Qed.

Lemma largest_of_tier mtu t s s' :
  1 <= t <= 3 -> PLPMTU_LADDER !! (t - 1) = Some s -> PLPMTU_LADDER !! t = Some s' ->
  fits mtu s -> ~ fits mtu s' -> largest mtu s.
Proof.
  unfold largest, fits. intros Ht H H' Hf Hn. split; [by eapply list_elem_of_lookup_2|]. split; [done|].
  destruct (tier_cases t Ht) as [-> | [-> | ->]]; cbn in H, H'; injection H as <-; injection H' as <-;
    repeat (constructor; [lia|]); constructor.
Qed.

(** A round in which the probe is lost, one in which it arrives, and the one in
    which the controller gives the step up. *)
Lemma round_ok mtu c now :
  searching mtu c -> (default 0 (last_probe_ms c) + probe_interval_ms c <= now)%N ->
  exists c', probe_round mtu c now = Ret c' /\ searching mtu c' /\
    rounds_left c' <= rounds_left c - 1 /\ (backoff_exp c' <= backoff_exp c)%N /\
    (ctl_state c' = Converged \/ last_probe_ms c' = Some now).
Proof.
  intros [Hwf Hs] Hdue. unfold probe_round, on_tick, searching, rounds_left.
  destruct c as [conf [t a|] nid pid lp bo]; cbn in *;
    [|exists (mkPlpmtu conf Converged nid pid lp bo); split_and!; auto; lia].
  rewrite (proj2 (N.leb_le _ _)) by lia. cbn -[N.ltb N.min probe_trip].
  destruct Hwf as ((Ht & Ha & Hc) & Hn & Hp), Hs as [Hf Hrep]. cbn in *.
  destruct (lookup_lt_is_Some_2 PLPMTU_LADDER t) as [s Hts]; [cbn; lia|].
  destruct (N.ltb_spec MAX_PROBE_ATTEMPTS (N.min (a + 1) 255)) as [Hg|Hg]; unfold MAX_PROBE_ATTEMPTS in Hg.
  { eexists. split; [done|]. cbn. split; [|split; [lia|split; [lia|by left]]].
    split; [unfold wf; cbn -[PLPMTU_LADDER]; split_and!; try done; exact (list_elem_of_lookup_2 _ (t - 1) _ Hc)|].
    apply (largest_of_tier mtu t conf s); auto. apply Hrep; [lia|done]. }
  unfold ladder at 1. rewrite Hts. cbn -[probe_trip N.min].
  assert (N.to_nat s = 6 + (N.to_nat s - 6) /\ (s < u16_mod)%N) as [Hs6 Hs16].
  { clear -Ht Hts. destruct (tier_cases t Ht) as [-> | [-> | ->]]; injection Hts as <-; split; vm_compute; done. }
  rewrite (probe_arrives mtu _ pid s (N.to_nat s - 6) Hp Hs16 Hs6).
  destruct (Nat.ltb_spec mtu (N.to_nat s)) as [Hlost|Harr].
  { eexists. split; [done|]. cbn -[N.min]. split; [|split; [lia|split; [lia|by right]]].
    split; [unfold wf; cbn -[N.min]; auto with lia|]. split; [done|]. intros _ s' Es.
    rewrite Hts in Es. injection Es as <-. unfold fits. lia. }
  assert (a = 0%N) as ->.
  { destruct (decide (a = 0%N)) as [|Hne]; [done|]. by destruct (Hrep Hne s Hts). }
  unfold on_ack, ladder. cbn -[PLPMTU_LADDER N.min]. rewrite Hts. cbn -[PLPMTU_LADDER N.min]. rewrite !N.eqb_refl. cbn -[N.min].
  clear Hrep Hdue Hg. destruct (tier_cases t Ht) as [-> | [-> | ->]]; injection Hts as <-; eexists; (split; [done|]); cbn;
    (split; [|split; [lia|split; [lia|auto]]]); (split; [unfold wf; cbn; auto with lia|]).
  1,2: split; [exact Harr|done].
  - split_and!; try done. repeat (left || right); constructor.
  - unfold largest, fits. split; [repeat (left || right); constructor|]. split; [exact Harr|].
    repeat (constructor; [lia|]); constructor.
Qed.

Lemma search_ends mtu (times : list N) : forall c (last : N),
  searching mtu c -> rounds_left c <= length times ->
  (ctl_state c = Converged \/ default 0%N (last_probe_ms c) = last) ->
  spaced (probe_interval_ms c) last times ->
  exists c', rfold (probe_round mtu) times c = Ret c' /\ ctl_state c' = Converged /\
    largest mtu (confirmed_symbol_size c').
Proof.
  induction times as [|now times IH]; intros c last Hs Hlen Hlast Hsp.
  - exists c. split; [done|]. destruct Hs as [[Hwf _] Hs]. unfold rounds_left in Hlen.
    destruct (ctl_state c) as [t a|]; [|done]. cbn in Hlen. destruct Hwf as (? & ? & _). lia.
  - cbn. destruct (ctl_state c) as [t a|] eqn:Ec.
    + destruct Hlast as [| <-]; [done|]. destruct Hsp as [Hdue Hsp].
      destruct (round_ok mtu c now Hs Hdue) as (c' & -> & Hs' & Hr & Hb & Hl).
      apply (IH c' now); [done|cbn in Hlen; lia| |].
      * destruct Hl as [?| ->]; auto.
      * eapply spaced_weaken; [by apply interval_monotone|done].
    + assert (probe_round mtu c now = Ret c) as ->.
      { unfold probe_round, on_tick. by rewrite Ec. }
      apply (IH c now); [done| |auto|apply Hsp]. unfold rounds_left. rewrite Ec. lia.
Qed.

(** The search finds the path's capacity.  From a fresh controller, or one
    that fell back after a blackhole or a path change, on a path that carries
    control frames of up to [mtu] bytes and loses longer ones, any six ticks
    spaced by the probe interval end the search with the largest ladder size
    that fits confirmed. *)
Theorem plpmtu_finds_capacity (mtu : nat) (c : PlpmtuController) (times : list N) :
  wf c -> ctl_state c = Probing 1 0 -> 1120 <= mtu -> 6 <= length times ->
  spaced (probe_interval_ms c) (default 0%N (last_probe_ms c)) times ->
  exists c', rfold (probe_round mtu) times c = Ret c' /\ is_converged c' = true /\
    largest mtu (current_symbol_size c').
Proof.
  intros Hwf Hst Hmtu Hlen Hsp.
  destruct (search_ends mtu times c (default 0%N (last_probe_ms c))) as (c' & E & Ec & Hl); auto.
  - split; [done|]. rewrite Hst. split; [|done]. destruct Hwf as [Hwf _]. rewrite Hst in Hwf.
    destruct Hwf as (_ & _ & [= <-]). unfold fits. lia.
  - unfold rounds_left. rewrite Hst. lia.
  - exists c'. unfold is_converged. by rewrite Ec.
Qed.

Lemma plpmtu_grows_only_by_ack_witness :
  effect new (Ack 1 1320) (mkPlpmtu 1320 (Probing 2 0) 3 2 (Some 0%N) 0).
Proof.
  apply (plpmtu_grows_only_by_ack new (Ack 1 1320) (mkPlpmtu 1320 (Probing 2 0) 3 2 (Some 0%N) 0)).
  - split; [|split; reflexivity]. split; [lia|]. split; [lia|reflexivity].
  - reflexivity.
Defined.

Lemma plpmtu_finds_capacity_witness :
  exists c', rfold (probe_round 1450) [1000; 2000; 3000; 4000; 5000; 6000]%N new = Ret c' /\
    is_converged c' = true /\ largest 1450 (current_symbol_size c').
Proof.
  apply (plpmtu_finds_capacity 1450 new [1000; 2000; 3000; 4000; 5000; 6000]%N).
  - split; [|split; reflexivity]. split; [lia|]. split; [lia|reflexivity].
  - reflexivity.
  - apply Nat.leb_le. reflexivity.
  - apply Nat.leb_le. reflexivity.
  - repeat (split; [vm_compute; discriminate|]). exact I.
Defined.

End Plpmtu.
