(* ===== verification/LossDetect.v ===== *)
(** * The receiver's loss detector

    Models [LossDetector] of yip-transport/src/lossdetect.rs.  The ordered maps
    of the source are finite maps with their keys listed in order; its three
    loops (the watermark, the two window trims) run on fuel that is shown to be
    enough.  [Ideal] is the detector without any bound: a set of resolved
    counters and a map of pending ones.  As long as no counter runs more than a
    window ahead of the lowest unresolved one, the bounded detector with its
    watermark behaves exactly like the ideal one. *)

From Stdlib Require Import NArith Lia.
From stdpp Require Import base numbers gmap sets sorting list.
From S2P Require Import Prelude.
From S2P Require Import Feedback.

Local Open Scope nat_scope.

Record LossDetector := mkDetector {
  grace_ms : N;
  window : nat;
  high_seen : N;
  seen_any : bool;
  pending : gmap N N;
  delivered : N;
  resolved_below : N;
  resolved_set : gset N;
}.

Module Detector.

(** ** Ordered maps *)

Definition in_order (s : gset N) : list N := merge_sort N.le (elements s).

Definition pop_first_set (s : gset N) : option (gset N) :=
  match in_order s with [] => None | k :: _ => Some (s ∖ {[k]}) end.

Definition pop_first_map (m : gmap N N) : option (gmap N N) :=
  match in_order (dom m) with [] => None | k :: _ => Some (delete k m) end.

(** [map.entry(k).or_insert(v)] *)
Definition or_insert (k v : N) (m : gmap N N) : gmap N N :=
  match m !! k with Some _ => m | None => <[k := v]> m end.

(** [a..b] *)
Definition range (a b : N) : list N := map (fun i => (a + N.of_nat i)%N) (seq 0 (N.to_nat (b - a))).

(** ** Operations *)

Definition new (grace_ms : N) (window : nat) : LossDetector :=
  mkDetector grace_ms window 0 false ∅ 0 0 ∅.

Definition is_resolved (d : LossDetector) (c : N) : bool :=
  (c <? resolved_below d)%N || bool_decide (c ∈ resolved_set d).

(** Advance the watermark over the resolved counters at it. *)
Fixpoint advance (fuel : nat) (below : N) (set : gset N) : run (N * gset N) :=
  match fuel with
  | 0 => Panic
  | S fuel =>
      if bool_decide (below ∈ set) then advance fuel (sat_add64 below 1) (set ∖ {[below]})
      else Ret (below, set)
  end.

Fixpoint trim_set (fuel window : nat) (s : gset N) : run (gset N) :=
  match fuel with
  | 0 => Panic
  | S fuel =>
      if window <? size s then
        match pop_first_set s with None => Ret s | Some s' => trim_set fuel window s' end
      else Ret s
  end.

Fixpoint trim_map (fuel window : nat) (m : gmap N N) : run (gmap N N) :=
  match fuel with
  | 0 => Panic
  | S fuel =>
      if window <? size m then
        match pop_first_map m with None => Ret m | Some m' => trim_map fuel window m' end
      else Ret m
  end.

Definition with_resolved (d : LossDetector) (below : N) (set : gset N) : LossDetector :=
  mkDetector (grace_ms d) (window d) (high_seen d) (seen_any d) (pending d) (delivered d) below set.

Definition with_pending (d : LossDetector) (m : gmap N N) : LossDetector :=
  mkDetector (grace_ms d) (window d) (high_seen d) (seen_any d) m (delivered d)
    (resolved_below d) (resolved_set d).

Definition mark_resolved (d : LossDetector) (c : N) : run LossDetector :=
  if (c <? resolved_below d)%N then Ret d
  else
  let set := {[c]} ∪ resolved_set d in
  let! ' (below, set) := advance (S (size set)) (resolved_below d) set in
  let! set := trim_set (S (size set)) (window d) set in
  Ret (with_resolved d below set).

Definition enforce_window (d : LossDetector) : run LossDetector :=
  let! m := trim_map (S (size (pending d))) (window d) (pending d) in
  Ret (with_pending d m).

Definition set_pending (d : LossDetector) (high : N) (m : gmap N N) : LossDetector :=
  mkDetector (grace_ms d) (window d) high true m (delivered d) (resolved_below d) (resolved_set d).

Definition fill_gap (d : LossDetector) (now_ms : N) (gap : list N) : gmap N N :=
  fold_left (fun m c => if is_resolved d c then m else or_insert c now_ms m) gap (pending d).

Definition on_seen (d : LossDetector) (counter now_ms : N) : run LossDetector :=
  if is_resolved d counter then Ret d
  else if negb (seen_any d) then
    enforce_window (set_pending d counter (or_insert counter now_ms (pending d)))
  else
  let '(high, m) :=
    if (high_seen d <? counter)%N
    then (counter, fill_gap d now_ms (range (high_seen d + 1) counter))
    else (high_seen d, pending d) in
  enforce_window (set_pending d high (or_insert counter now_ms m)).

Definition on_delivered (d : LossDetector) (counter : N) : run LossDetector :=
  let d := with_pending d (delete counter (pending d)) in
  let! d := mark_resolved d counter in
  Ret (mkDetector (grace_ms d) (window d) (high_seen d) (seen_any d) (pending d)
         (sat_add32 (delivered d) 1) (resolved_below d) (resolved_set d)).

(** The counter has been pending for the grace period. *)
Definition overdue (grace_ms now_ms : N) (m : gmap N N) (c : N) : bool :=
  match m !! c with Some first_ms => (grace_ms <=? now_ms - first_ms)%N | None => false end.

Definition promoted (d : LossDetector) (now_ms : N) : list N :=
  filter (fun c => overdue (grace_ms d) now_ms (pending d) c) (in_order (dom (pending d))).

Definition promote (d : LossDetector) (c : N) : run LossDetector :=
  mark_resolved (with_pending d (delete c (pending d))) c.

Definition report (d : LossDetector) (now_ms : N) : run (LossDetector * LossReport) :=
  let missing := promoted d now_ms in
  let! d := rfold promote missing d in
  Ret (mkDetector (grace_ms d) (window d) (high_seen d) (seen_any d) (pending d) 0
         (resolved_below d) (resolved_set d),
       mkReport (delivered d) (if seen_any d then high_seen d else 0) (take MAX_NACK missing)).

Inductive event :=
| Seen (counter now_ms : N)
| Delivered (counter : N)
| Report (now_ms : N).

Definition step (d : LossDetector) (e : event) : run (LossDetector * option LossReport) :=
  match e with
  | Seen c now => let! d := on_seen d c now in Ret (d, None)
  | Delivered c => let! d := on_delivered d c in Ret (d, None)
  | Report now => let! ' (d, r) := report d now in Ret (d, Some r)
  end.

(** Run a sequence of events, collecting the reports. *)
Fixpoint steps (d : LossDetector) (es : list event) : run (LossDetector * list LossReport) :=
  match es with
  | [] => Ret (d, [])
  | e :: es =>
      let! ' (d, r) := step d e in
      let! ' (d, rs) := steps d es in
      Ret (d, option_list r ++ rs)
  end.

(** ** The loops end *)

Lemma in_order_perm s : in_order s ≡ₚ elements s.
Proof. apply merge_sort_Permutation. Qed.

Lemma elem_of_in_order s k : k ∈ in_order s <-> k ∈ s.
Proof. rewrite in_order_perm. apply elem_of_elements. Qed.

Lemma in_order_NoDup s : NoDup (in_order s).
Proof. rewrite in_order_perm. apply NoDup_elements. Qed.

Lemma in_order_sorted s : StronglySorted N.le (in_order s).
Proof. apply StronglySorted_merge_sort; [apply _|]. intros x y. lia. Qed.

Lemma pop_first_set_spec s :
  s <> ∅ -> exists k, k ∈ s /\ pop_first_set s = Some (s ∖ {[k]}) /\ size (s ∖ {[k]}) < size s.
Proof.
  intros Hne. unfold pop_first_set. destruct (in_order s) as [|k l] eqn:E.
  - destruct Hne. apply set_eq. intros x. rewrite <- elem_of_in_order, E. set_solver.
  - assert (k ∈ s) as Hk by (apply elem_of_in_order; rewrite E; by left).
    exists k. split_and!; [done|done|]. apply subset_size. set_solver.
Qed.

Lemma advance_total fuel : forall below set, size set < fuel -> (below < u64_mod)%N ->
  exists below' set', advance fuel below set = Ret (below', set') /\ (below' ∉ set') /\ set' ⊆ set /\
    (below <= below' < u64_mod)%N /\
    (forall c, c ∈ set -> c ∈ set' \/ ((c < below')%N \/ c = (u64_mod - 1)%N)) /\
    (forall c, (below <= c < below')%N -> c ∈ set) /\
    (forall c, c ∈ set' -> (c < below)%N \/ (below' < c)%N).
Proof.
  induction fuel as [|fuel IH]; intros below set Hf Hb64; [lia|]. cbn [advance].
  destruct (bool_decide_reflect (below ∈ set)) as [Hin|Hout].
  - unfold sat_add64, sat_add.
    destruct (IH (N.min (below + 1) (u64_mod - 1)) (set ∖ {[below]}))
      as (b & s & E & Hb & Hs & Hle & Hc & Hr & Hl).
    { assert (size (set ∖ {[below]}) < size set) by (apply subset_size; set_solver). lia. }
    { lia. }
    exists b, s. split_and!; try done; try lia.
    + set_solver.
    + intros c Hcs. destruct (decide (c = below)) as [->|]; [lia|apply Hc; set_solver].
    + intros c Hcr. destruct (decide (c = below)) as [->|]; [done|].
      assert (c ∈ set ∖ {[below]}); [|set_solver]. apply Hr. lia.
    + intros c Hcs. destruct (decide (c = below)) as [->|]; [set_solver|].
      destruct (Hl c Hcs); [left; lia|by right].
  - exists below, set. split_and!; try done; auto; try (intros; lia).
    intros c Hc. destruct (decide (c = below)) as [->|]; [done|]. lia.
Qed.

Lemma trim_set_total fuel w : forall s, size s < fuel ->
  exists s', trim_set fuel w s = Ret s' /\ s' ⊆ s /\ size s' <= w.
Proof.
  induction fuel as [|fuel IH]; intros s Hf; [lia|]. cbn [trim_set].
  destruct (Nat.ltb_spec w (size s)); [|by exists s].
  destruct (pop_first_set_spec s) as (k & Hk & -> & Hsz); [intros ->; rewrite size_empty in *; lia|].
  destruct (IH (s ∖ {[k]})) as (s' & -> & Hs & Hw); [lia|]. exists s'. set_solver.
Qed.

Lemma trim_set_id fuel w s : size s < fuel -> size s <= w -> trim_set fuel w s = Ret s.
Proof. intros Hf Hw. destruct fuel; [lia|]. cbn [trim_set]. by rewrite (proj2 (Nat.ltb_ge _ _)). Qed.

Lemma trim_map_total fuel w : forall m, size m < fuel ->
  exists m', trim_map fuel w m = Ret m' /\ m' ⊆ m /\ size m' <= w.
Proof.
  induction fuel as [|fuel IH]; intros m Hf; [lia|]. cbn [trim_map].
  destruct (Nat.ltb_spec w (size m)); [|by exists m]. unfold pop_first_map.
  destruct (in_order (dom m)) as [|k l] eqn:E; cycle 1.
  - assert (is_Some (m !! k)) as [v Hv].
    { apply elem_of_dom, elem_of_in_order. rewrite E. by left. }
    pose proof (map_size_delete_Some k m (ex_intro _ v Hv)) as Hsz.
    destruct (IH (delete k m)) as (m' & -> & Hm & Hw); [lia|]. exists m'. split_and!; try done.
    etransitivity; [exact Hm|apply delete_subseteq].
  - exfalso. assert (m = ∅) as ->; [|rewrite map_size_empty in *; lia].
    apply dom_empty_inv_L, set_eq. intros x. rewrite <- elem_of_in_order, E. set_solver.
Qed.

Lemma trim_map_id fuel w m : size m < fuel -> size m <= w -> trim_map fuel w m = Ret m.
Proof. intros Hf Hw. destruct fuel; [lia|]. cbn [trim_map]. by rewrite (proj2 (Nat.ltb_ge _ _)). Qed.

(** ** Bounds and consistency *)

(** No pending counter is resolved, both collections respect the window, and
    the out-of-order resolved counters lie above the watermark. *)
Definition inv (d : LossDetector) : Prop :=
  (resolved_below d < u64_mod)%N /\
  (forall c, c ∈ resolved_set d -> (resolved_below d < c)%N) /\
  (forall c, is_Some (pending d !! c) -> is_resolved d c = false) /\
  size (pending d) <= window d /\ size (resolved_set d) <= window d.

Lemma is_resolved_spec d c :
  is_resolved d c = true <-> ((c < resolved_below d)%N \/ c ∈ resolved_set d).
Proof. unfold is_resolved. by rewrite orb_true_iff, N.ltb_lt, bool_decide_eq_true. Qed.

Lemma not_resolved_spec d c :
  is_resolved d c = false <-> ((resolved_below d <= c)%N /\ c ∉ resolved_set d).
Proof. unfold is_resolved. by rewrite orb_false_iff, N.ltb_ge, bool_decide_eq_false. Qed.

(** What [mark_resolved] does in every case: it can only resolve [c], and at
    worst forgets some resolved counters. *)
Lemma mark_resolved_ok d c :
  (resolved_below d < u64_mod)%N -> (forall x, x ∈ resolved_set d -> (resolved_below d < x)%N) ->
  size (resolved_set d) <= window d ->
  exists below set, mark_resolved d c = Ret (with_resolved d below set) /\
    (resolved_below d <= below < u64_mod)%N /\ size set <= window d /\
    (forall x, x ∈ set -> (below < x)%N) /\ set ⊆ {[c]} ∪ resolved_set d /\
    (forall x, (x < below)%N -> is_resolved d x = true \/ x = c).
Proof.
  intros Hb Hset Hsz. unfold mark_resolved. destruct (N.ltb_spec c (resolved_below d)) as [Hlt|Hge].
  { exists (resolved_below d), (resolved_set d). destruct d; cbn in *. split_and!; try done; try lia; [set_solver|].
    intros x Hx. left. apply is_resolved_spec. by left. }
  cbv zeta. destruct (advance_total (S (size ({[c]} ∪ resolved_set d))) (resolved_below d)
    ({[c]} ∪ resolved_set d)) as (below & set1 & -> & Hnb & Hsub & Hle & _ & Hr & Hab); [lia|done|].
  cbn [rbind]. destruct (trim_set_total (S (size set1)) (window d) set1) as (set2 & -> & Hsub2 & Hw); [lia|].
  exists below, set2. cbn [rbind]. split_and!; try done; try lia.
  - intros x Hx. destruct (Hab x) as [Hlt|]; [by apply Hsub2| |done].
    exfalso. apply Hsub2, Hsub, elem_of_union in Hx as [->%elem_of_singleton|Hx%Hset]; lia.
  - set_solver.
  - intros x Hx. destruct (decide (x < resolved_below d)%N) as [|Hn].
    + left. apply is_resolved_spec. by left.
    + assert (x ∈ {[c]} ∪ resolved_set d) as [->%elem_of_singleton|]%elem_of_union by (apply Hr; lia);
        [by right|]. left. apply is_resolved_spec. by right.
Qed.

Lemma mark_resolved_inv d c :
  inv d -> pending d !! c = None -> exists d', mark_resolved d c = Ret d' /\ inv d' /\
    pending d' = pending d /\ window d' = window d.
Proof.
  intros (Hb & Hset & Hp & Hsp & Hsr) Hc.
  destruct (mark_resolved_ok d c Hb Hset Hsr) as (below & set & -> & Hle & Hsz & Hab & Hsub & Hlow).
  eexists. split; [done|]. split; [|done]. split_and!; cbn; try done; try lia.
  intros x Hx. pose proof (Hp x Hx) as Hn.
  assert (x <> c) as Hne by (intros ->; rewrite Hc in Hx; by destruct Hx).
  apply not_resolved_spec. cbn. split.
  - destruct (decide (below <= x)%N) as [|Hlt]; [done|]. destruct (Hlow x) as [E| ->]; [lia| |done].
    by rewrite E in Hn.
  - intros Hin. apply Hsub, elem_of_union in Hin as [->%elem_of_singleton|Hin]; [done|].
    apply not_resolved_spec in Hn as [_ Hn]. done.
Qed.

Lemma inv_delete d c : inv d -> inv (with_pending d (delete c (pending d))).
Proof.
  intros (Hb & Hset & Hp & Hsp & Hsr). split_and!; cbn; try done.
  - intros x [v [_ Hx]%lookup_delete_Some]. by apply (Hp x).
  - pose proof (map_subseteq_size (delete c (pending d)) (pending d) (delete_subseteq _ _)). lia.
Qed.

Lemma enforce_window_inv d :
  (resolved_below d < u64_mod)%N -> (forall c, c ∈ resolved_set d -> (resolved_below d < c)%N) ->
  (forall c, is_Some (pending d !! c) -> is_resolved d c = false) -> size (resolved_set d) <= window d ->
  exists d', enforce_window d = Ret d' /\ inv d' /\ window d' = window d.
Proof.
  intros Hb Hset Hp Hsr. unfold enforce_window.
  destruct (trim_map_total (S (size (pending d))) (window d) (pending d)) as (m & -> & Hm & Hw); [lia|].
  eexists. split; [done|]. split; [|done]. split_and!; cbn; try done.
  intros c [v Hv]. apply (Hp c). exists v. by eapply lookup_weaken.
Qed.

Lemma or_insert_Some k v m x : is_Some (or_insert k v m !! x) <-> is_Some (m !! x) \/ x = k.
Proof.
  unfold or_insert. destruct (m !! k) as [u|] eqn:E.
  - split; [auto|]. intros [H| ->]; eauto.
  - rewrite lookup_insert_is_Some. destruct (decide (k = x)); naive_solver.
Qed.

Lemma fill_gap_Some d now gap x :
  is_Some (fill_gap d now gap !! x) <->
  is_Some (pending d !! x) \/ (x ∈ gap /\ is_resolved d x = false).
Proof.
  unfold fill_gap. induction gap as [|c gap IH] using rev_ind; [cbn; set_solver|].
  rewrite fold_left_app, elem_of_app, list_elem_of_singleton. cbn [fold_left].
  destruct (is_resolved d c) eqn:Ec; [|rewrite or_insert_Some]; rewrite IH; naive_solver congruence.
Qed.

Lemma on_seen_inv d c now : inv d -> exists d', on_seen d c now = Ret d' /\ inv d' /\ window d' = window d.
Proof.
  intros Hinv. unfold on_seen. destruct (is_resolved d c) eqn:Er; [by exists d|].
  destruct Hinv as (Hb & Hset & Hp & Hsp & Hsr).
  assert (forall high m, (forall x, is_Some (m !! x) -> is_resolved d x = false) ->
    exists d', enforce_window (set_pending d high (or_insert c now m)) = Ret d' /\ inv d' /\
      window d' = window d) as Hgen.
  { intros high m Hm. apply (enforce_window_inv (set_pending d high (or_insert c now m))); cbn; try done.
    intros x [Hx| ->]%or_insert_Some; [by apply Hm|done]. }
  destruct (seen_any d); cbn [negb]; [|by apply Hgen].
  destruct (high_seen d <? c)%N; apply Hgen; [|done].
  intros x [Hx|[_ Hx]]%fill_gap_Some; auto.
Qed.

Lemma promote_inv d c : inv d -> exists d', promote d c = Ret d' /\ inv d' /\ window d' = window d.
Proof.
  intros Hinv. unfold promote.
  destruct (mark_resolved_inv (with_pending d (delete c (pending d))) c) as (d' & -> & Hd & _ & Hw).
  - by apply inv_delete.
  - apply lookup_delete_eq.
  - by exists d'.
Qed.

Lemma promotes_inv l : forall d, inv d -> exists d', rfold promote l d = Ret d' /\ inv d' /\ window d' = window d.
Proof.
  induction l as [|c l IH]; intros d Hd; cbn; [by exists d|].
  destruct (promote_inv d c Hd) as (d1 & -> & Hd1 & <-). by apply IH.
Qed.

Lemma on_delivered_inv d c :
  inv d -> exists d', on_delivered d c = Ret d' /\ inv d' /\ window d' = window d.
Proof.
  intros Hd. unfold on_delivered. cbv zeta. fold (promote d c).
  destruct (promote_inv d c Hd) as (d' & -> & Hd' & Hw). by eexists.
Qed.

Lemma report_inv d now :
  inv d -> exists d' r, report d now = Ret (d', r) /\ inv d' /\ window d' = window d.
Proof.
  intros Hd. unfold report. cbv zeta.
  destruct (promotes_inv (promoted d now) d Hd) as (d' & -> & Hd' & Hw). by eexists _, _.
Qed.

Lemma event_inv d e : inv d -> exists d' r, step d e = Ret (d', r) /\ inv d' /\ window d' = window d.
Proof.
  intros Hd. destruct e as [c now|c|now]; cbn [step].
  - destruct (on_seen_inv d c now Hd) as (d' & -> & ?). by eexists _, _.
  - destruct (on_delivered_inv d c Hd) as (d' & -> & ?). by eexists _, _.
  - destruct (report_inv d now Hd) as (d' & r & -> & ?). by eexists _, _.
Qed.

Lemma new_inv grace w : inv (new grace w).
Proof.
  split; [done|]. split; [by intros c ?%elem_of_empty|]. split; [by intros c [? ?]|].
  split; cbn; [rewrite map_size_empty|rewrite size_empty]; lia.
Qed.

(** The detector is total and bounded.  No sequence of seen, delivered and
    report events makes one of its loops run for ever or panic; the pending and
    the resolved counters never exceed the window, and no counter is pending and
    resolved at once, so a resolved counter is never reported missing while it
    is remembered. *)
Theorem detector_total (grace : N) (w : nat) (es : list event) :
  exists d rs, steps (new grace w) es = Ret (d, rs) /\ inv d /\ window d = w.
Proof.
  pose proof (new_inv grace w) as H.
  assert (window (new grace w) = w) as Hw by done. revert H Hw. generalize (new grace w).
  induction es as [|e es IH]; intros d Hd Hw; cbn [steps]; [by eexists _, _|].
  destruct (event_inv d e Hd) as (d1 & r & -> & Hd1 & Hw1). cbn [rbind].
  destruct (IH d1 Hd1) as (d2 & rs & -> & Hd2 & Hw2); [congruence|]. by eexists _, _.
Qed.

(** ** The ideal detector *)

Record ideal := mkIdeal {
  i_high : option N;
  i_pending : gmap N N;
  i_resolved : gset N;
  i_delivered : N;
}.

Definition ideal_new : ideal := mkIdeal None ∅ ∅ 0.

(** Counters that a new highest counter [c] implies. *)
Definition implied (s : ideal) (c : N) : list N :=
  match i_high s with
  | Some h => filter (fun x => x ∉ i_resolved s) (range (h + 1) c)
  | None => []
  end.

Definition ideal_seen (s : ideal) (c now : N) : ideal :=
  if decide (c ∈ i_resolved s) then s
  else mkIdeal (Some (match i_high s with Some h => N.max h c | None => c end))
         (i_pending s ∪ gset_to_gmap now (list_to_set (c :: implied s c)))
         (i_resolved s) (i_delivered s).

Definition ideal_delivered (s : ideal) (c : N) : ideal :=
  mkIdeal (i_high s) (delete c (i_pending s)) ({[c]} ∪ i_resolved s) (sat_add32 (i_delivered s) 1).

Definition ideal_overdue (grace now : N) (s : ideal) : gset N :=
  dom (filter (fun x => (grace <= now - x.2)%N) (i_pending s)).

Definition ideal_report (grace now : N) (s : ideal) : ideal * LossReport :=
  let late := ideal_overdue grace now s in
  (mkIdeal (i_high s) (filter (fun x => x.1 ∉ late) (i_pending s)) (late ∪ i_resolved s) 0,
   mkReport (i_delivered s) (default 0%N (i_high s)) (take MAX_NACK (in_order late))).

Definition ideal_step (grace : N) (s : ideal) (e : event) : ideal * option LossReport :=
  match e with
  | Seen c now => (ideal_seen s c now, None)
  | Delivered c => (ideal_delivered s c, None)
  | Report now => let '(s, r) := ideal_report grace now s in (s, Some r)
  end.

Fixpoint ideal_steps (grace : N) (s : ideal) (es : list event) : ideal * list LossReport :=
  match es with
  | [] => (s, [])
  | e :: es =>
      let '(s, r) := ideal_step grace s e in
      let '(s, rs) := ideal_steps grace s es in
      (s, option_list r ++ rs)
  end.

(** The counter is less than a window ahead of a point below which everything
    is resolved. *)
Definition within (w : nat) (s : ideal) (c : N) : Prop :=
  (c < u64_mod - 1)%N /\
  exists low, (forall x, (x < low)%N -> x ∈ i_resolved s) /\ (c < low + N.of_nat w)%N.

Fixpoint in_window (grace : N) (w : nat) (s : ideal) (es : list event) : Prop :=
  match es with
  | [] => True
  | e :: es =>
      match e with Seen c _ | Delivered c => within w s c | Report _ => True end /\
      in_window grace w (ideal_step grace s e).1 es
  end.

(** ** Refinement *)

Lemma elem_of_range a b x : x ∈ range a b <-> (a <= x < b)%N.
Proof.
  unfold range. rewrite elem_of_map. split.
  - intros (i & -> & Hi%elem_of_seq). lia.
  - intros Hx. exists (N.to_nat (x - a)). split; [lia|]. apply elem_of_seq. lia.
Qed.

Lemma bounded_size (s : gset N) a w :
  (forall x, x ∈ s -> (a <= x < a + N.of_nat w)%N) -> size s <= w.
Proof.
  intros H. transitivity (size (list_to_set (range a (a + N.of_nat w)) : gset N)).
  - apply subseteq_size. intros x Hx. rewrite elem_of_list_to_set, elem_of_range. auto.
  - rewrite size_list_to_set.
    + unfold range. rewrite length_map, length_seq. lia.
    + unfold range. apply NoDup_fmap_2; [intros i j; lia|apply NoDup_seq].
Qed.

(** The counter is close enough above the watermark to be kept. *)
Definition kept (d : LossDetector) (c : N) : Prop :=
  (c < resolved_below d + N.of_nat (window d))%N /\ (c < u64_mod - 1)%N.

Definition refines (d : LossDetector) (s : ideal) : Prop :=
  i_high s = (if seen_any d then Some (high_seen d) else None) /\
  pending d = i_pending s /\ delivered d = i_delivered s /\
  (forall c, is_resolved d c = true <-> c ∈ i_resolved s) /\
  (resolved_below d < u64_mod)%N /\
  (forall c, c ∈ resolved_set d -> (resolved_below d < c)%N /\ kept d c) /\
  (forall c, is_Some (pending d !! c) -> is_resolved d c = false /\ kept d c).

Lemma refines_kept d s c : refines d s -> within (window d) s c -> kept d c.
Proof.
  intros (_ & _ & _ & Hres & Hb & Hset & _) (Hmax & low & Hlow & Hc). split; [|done].
  destruct (decide (low <= resolved_below d)%N) as [|Hn]; [lia|].
  assert (resolved_below d ∈ i_resolved s) as Hr by (apply Hlow; lia).
  apply Hres, is_resolved_spec in Hr as [|Hr%Hset]; lia.
Qed.

(** Inside the window [mark_resolved] resolves its counter and forgets
    nothing. *)
Lemma mark_resolved_exact d c :
  (resolved_below d < u64_mod)%N ->
  (forall x, x ∈ resolved_set d -> (resolved_below d < x)%N /\ kept d x) -> kept d c ->
  exists below set, mark_resolved d c = Ret (with_resolved d below set) /\
    (resolved_below d <= below < u64_mod)%N /\
    (forall x, x ∈ set -> (below < x)%N /\ kept d x) /\
    (forall x, is_resolved (with_resolved d below set) x = true <-> is_resolved d x = true \/ x = c).
Proof.
  intros Hb Hset Hc. unfold mark_resolved. destruct (N.ltb_spec c (resolved_below d)) as [Hlt|Hge].
  { exists (resolved_below d), (resolved_set d). split; [by destruct d|]. split; [lia|]. split; [done|].
    intros x. rewrite !is_resolved_spec. cbn. split; [auto|]. intros [?| ->]; auto. }
  cbv zeta. destruct (advance_total (S (size ({[c]} ∪ resolved_set d))) (resolved_below d)
    ({[c]} ∪ resolved_set d)) as (below & set & -> & Hnb & Hsub & Hle & Hkeep & Hr & Hab); [lia|done|].
  assert (forall x, x ∈ {[c]} ∪ resolved_set d -> (resolved_below d <= x)%N /\ kept d x) as Hall.
  { intros x [->%elem_of_singleton|Hx%Hset]%elem_of_union; [done|]. split; [lia|apply Hx]. }
  assert (forall x, x ∈ set -> (below < x)%N /\ kept d x) as Hgt.
  { intros x Hx. destruct (Hall x) as [? ?]; [by apply Hsub|]. split; [|done]. destruct (Hab x Hx); lia. }
  cbn [rbind]. rewrite trim_set_id; [|lia|].
  2: { apply (bounded_size set below). intros x [? [? _]]%Hgt. lia. }
  exists below, set. split; [done|]. split; [done|]. split; [done|].
  intros x. rewrite !is_resolved_spec. cbn. split.
  - intros [Hx|Hx%Hsub].
    + destruct (decide (x < resolved_below d)%N) as [|]; [auto|].
      assert (x ∈ {[c]} ∪ resolved_set d) as Hin by (apply Hr; lia). set_solver.
    + set_solver.
  - intros Hx. assert ((x < resolved_below d)%N \/ x ∈ {[c]} ∪ resolved_set d) as [|Hin] by set_solver; [left; lia|].
    destruct (Hkeep x Hin) as [|[?|Hm]]; auto. destruct (Hall x Hin) as [_ [_ ?]]. lia.
Qed.

Lemma kept_mono d below set m x :
  (resolved_below d <= below)%N -> kept d x -> kept (with_resolved (with_pending d m) below set) x.
Proof. unfold kept. cbn. lia. Qed.

(** Resolving a counter, the common part of delivery and promotion. *)
Lemma promote_tracks d s c :
  refines d s -> kept d c ->
  exists d', promote d c = Ret d' /\ window d' = window d /\ grace_ms d' = grace_ms d /\
    (resolved_below d <= resolved_below d')%N /\
    refines d' (mkIdeal (i_high s) (delete c (i_pending s)) ({[c]} ∪ i_resolved s) (i_delivered s)).
Proof.
  intros (Hh & Hp & Hd & Hres & Hb & Hset & Hpend) Hc. unfold promote.
  destruct (mark_resolved_exact (with_pending d (delete c (pending d))) c)
    as (below & set & -> & Hle & Hset' & Hres'); cbn; [done|done|done|].
  eexists. split; [done|]. split; [done|]. split; [done|]. split; [apply Hle|]. split_and!; cbn; try done.
  - by rewrite Hp.
  - intros x. rewrite Hres'. change (is_resolved (with_pending d (delete c (pending d))) x) with (is_resolved d x).
    rewrite Hres, elem_of_union, elem_of_singleton. naive_solver.
  - lia.
  - intros x Hx. destruct (Hset' x Hx) as [? ?]. split; [done|]. by apply kept_mono; [apply Hle|].
  - intros x [v [Hne Hx]%lookup_delete_Some]. destruct (Hpend x) as [Hn Hk]; [by exists v|].
    split; [|by apply kept_mono; [apply Hle|]].
    apply not_true_iff_false. rewrite Hres'. intros [E| ->]; [|done].
    change (is_resolved (with_pending d (delete c (pending d))) x) with (is_resolved d x) in E. congruence.
Qed.

Lemma union_now (m : gmap N N) now (X Y : gset N) :
  (m ∪ gset_to_gmap now X) ∪ gset_to_gmap now Y = m ∪ gset_to_gmap now (X ∪ Y).
Proof.
  apply map_eq. intros i. rewrite !lookup_union, !lookup_gset_to_gmap.
  destruct (m !! i), (decide (i ∈ X)), (decide (i ∈ Y));
    repeat first [rewrite option_guard_True by set_solver | rewrite option_guard_False by set_solver]; done.
Qed.

Lemma or_insert_union c now m : or_insert c now m = m ∪ gset_to_gmap now {[c]}.
Proof.
  unfold or_insert. apply map_eq. intros i. rewrite lookup_union, lookup_gset_to_gmap.
  destruct (m !! c) as [u|] eqn:E, (decide (i = c)) as [->|Hne].
  - rewrite E. by destruct (guard _).
  - rewrite option_guard_False by set_solver. by destruct (m !! i).
  - rewrite E, option_guard_True by set_solver. by rewrite lookup_insert_eq.
  - rewrite option_guard_False by set_solver. rewrite lookup_insert_ne by done. by destruct (m !! i).
Qed.

Lemma fill_gap_union d now gap :
  fill_gap d now gap = pending d ∪ gset_to_gmap now (list_to_set (filter (fun x => is_resolved d x = false) gap)).
Proof.
  unfold fill_gap. induction gap as [|c gap IH] using rev_ind.
  - cbn. by rewrite gset_to_gmap_empty, (right_id_L ∅ (∪)).
  - rewrite fold_left_app, filter_app, list_to_set_app_L. cbn [fold_left]. rewrite IH.
    destruct (is_resolved d c) eqn:E.
    + rewrite filter_cons_False by congruence. f_equal. f_equal. set_solver.
    + rewrite filter_cons_True by done. rewrite filter_nil, or_insert_union, union_now. f_equal. f_equal. set_solver.
Qed.

Lemma enforce_window_id d :
  (forall c, is_Some (pending d !! c) -> is_resolved d c = false /\ kept d c) ->
  enforce_window d = Ret d.
Proof.
  intros H. unfold enforce_window. rewrite trim_map_id; [by destruct d|lia|].
  rewrite <- (size_dom (D := gset N)). apply (bounded_size _ (resolved_below d)).
  intros x Hx%elem_of_dom. destruct (H x Hx) as [Hn%not_resolved_spec [Hk _]]. lia.
Qed.

Lemma implied_range d s c :
  refines d s -> seen_any d = true ->
  list_to_set (implied s c) =@{gset N}
    list_to_set (filter (fun x => is_resolved d x = false) (range (high_seen d + 1) c)).
Proof.
  intros (Hh & _ & _ & Hres & _) Hseen. unfold implied. rewrite Hh, Hseen. apply set_eq. intros x.
  rewrite !elem_of_list_to_set, !list_elem_of_filter, <- Hres, not_true_iff_false. done.
Qed.

(** The pending map after [on_seen], before the trim. *)
Lemma seen_pending d s c now :
  refines d s -> kept d c -> is_resolved d c = false ->
  refines (set_pending d (match i_high s with Some h => N.max h c | None => c end)
             (i_pending s ∪ gset_to_gmap now (list_to_set (c :: implied s c))))
          (mkIdeal (Some (match i_high s with Some h => N.max h c | None => c end))
             (i_pending s ∪ gset_to_gmap now (list_to_set (c :: implied s c)))
             (i_resolved s) (i_delivered s)).
Proof.
  intros R Hc Hn. pose proof R as (Hh & Hp & Hd & Hres & Hb & Hset & Hpend).
  split_and!; cbn; try done.
  intros x [v Hx]. rewrite lookup_union_Some_raw in Hx. destruct Hx as [Hx|[_ Hx]].
  - apply (Hpend x). rewrite Hp. by exists v.
  - apply lookup_gset_to_gmap_Some in Hx as [[->%elem_of_singleton|Hx]%elem_of_union _]; [done|].
    unfold implied in Hx. destruct (i_high s) as [h|]; [|set_solver].
    apply elem_of_list_to_set, list_elem_of_filter in Hx as [Hnx Hx%elem_of_range].
    split; [apply not_true_iff_false; change (is_resolved d x <> true); by rewrite Hres|]. unfold kept in *. cbn. lia.
Qed.

Lemma on_seen_refines d s c now :
  refines d s -> kept d c ->
  exists d', on_seen d c now = Ret d' /\ window d' = window d /\ grace_ms d' = grace_ms d /\
    refines d' (ideal_seen s c now).
Proof.
  intros R Hc. unfold on_seen, ideal_seen. pose proof R as (Hh & Hp & _ & Hres & _).
  destruct (is_resolved d c) eqn:Er.
  { rewrite decide_True by by apply Hres. by exists d. }
  rewrite decide_False by (intros ?%Hres; congruence).
  pose proof (seen_pending d s c now R Hc Er) as R'.
  eexists. split; [|split; [|split; [|exact R']]]; [|done|done].
  rewrite <- (enforce_window_id (set_pending d _ _)) by apply R'.
  destruct (seen_any d) eqn:Es; rewrite Hh; cbn [negb].
  - destruct (N.ltb_spec (high_seen d) c) as [Hlt|Hge].
    + rewrite N.max_r by lia. repeat f_equal.
      rewrite fill_gap_union, or_insert_union, union_now, Hp, <- (implied_range d s c R Es).
      repeat f_equal. cbn. set_solver.
    + rewrite N.max_l by lia. repeat f_equal. rewrite or_insert_union, Hp. repeat f_equal.
      cbn. rewrite (implied_range d s c R Es). unfold range. replace (c - (high_seen d + 1))%N with 0%N by lia.
      cbn. set_solver.
  - repeat f_equal. rewrite or_insert_union, Hp. repeat f_equal. unfold implied. rewrite Hh. cbn. set_solver.
Qed.

Lemma promotes_refine l : forall d s,
  refines d s -> Forall (kept d) l ->
  exists d', rfold promote l d = Ret d' /\ window d' = window d /\ grace_ms d' = grace_ms d /\
    refines d' (mkIdeal (i_high s) (filter (fun x => x.1 ∉ (list_to_set l : gset N)) (i_pending s))
                  (list_to_set l ∪ i_resolved s) (i_delivered s)).
Proof.
  induction l as [|c l IH]; intros d s R Hk; cbn [rfold].
  - exists d. split_and!; try done. cbn. rewrite map_filter_id by set_solver.
    rewrite (left_id_L ∅ (∪)). by destruct s.
  - apply Forall_cons in Hk as [Hc Hk].
    destruct (promote_tracks d s c R Hc) as (d1 & -> & Hw & Hg & Hle & R1). cbn [rbind].
    destruct (IH d1 _ R1) as (d2 & -> & Hw2 & Hg2 & R2).
    { eapply Forall_impl; [exact Hk|]. unfold kept. rewrite Hw. intros x [? ?]. lia. }
    exists d2. split_and!; try congruence. cbn in R2 |- *.
    replace (filter _ (i_pending s)) with
      (filter (fun x => x.1 ∉ (list_to_set l : gset N)) (delete c (i_pending s))); cycle 1.
    { apply map_eq. intros x. apply option_eq. intros v.
      rewrite !map_lookup_filter_Some, lookup_delete_Some. cbn. set_solver. }
    replace ({[c]} ∪ list_to_set l ∪ i_resolved s) with (list_to_set l ∪ ({[c]} ∪ i_resolved s)) by set_solver.
    done.
Qed.

Lemma in_order_unique s l :
  StronglySorted N.le l -> NoDup l -> (forall x, x ∈ l <-> x ∈ s) -> l = in_order s.
Proof.
  intros Hs Hnd Hl. apply (StronglySorted_unique N.le); [done|apply in_order_sorted|].
  rewrite in_order_perm. apply NoDup_Permutation; [done|apply NoDup_elements|].
  intros x. by rewrite Hl, elem_of_elements.
Qed.

Lemma filter_sorted (P : N -> bool) l : StronglySorted N.le l -> StronglySorted N.le (filter (fun x => P x) l).
Proof.
  induction 1 as [|x l Hl IH Hf]; [constructor|]. rewrite filter_cons.
  destruct (decide (P x)); [|done]. constructor; [done|].
  rewrite Forall_forall in Hf |- *. intros y [_ Hy]%list_elem_of_filter. auto.
Qed.

Lemma promoted_overdue d s now :
  refines d s -> promoted d now = in_order (ideal_overdue (grace_ms d) now s).
Proof.
  intros (_ & Hp & _). unfold promoted. apply in_order_unique.
  - apply filter_sorted, in_order_sorted.
  - apply NoDup_filter, in_order_NoDup.
  - intros c. rewrite list_elem_of_filter, elem_of_in_order, Hp. unfold ideal_overdue, overdue.
    rewrite !elem_of_dom. unfold is_Some. setoid_rewrite map_lookup_filter_Some. cbn.
    destruct (i_pending s !! c) as [v|] eqn:E; [|naive_solver].
    rewrite Is_true_true, N.leb_le. naive_solver.
Qed.

Lemma report_refines d s now :
  refines d s ->
  exists d', report d now = Ret (d', (ideal_report (grace_ms d) now s).2) /\ window d' = window d /\
    grace_ms d' = grace_ms d /\ refines d' (ideal_report (grace_ms d) now s).1.
Proof.
  intros R. unfold report, ideal_report. cbv zeta. rewrite (promoted_overdue d s now R).
  set (late := ideal_overdue _ _ _). pose proof R as (Hh & Hp & Hd & _ & _ & _ & Hpend).
  destruct (promotes_refine (in_order late) d s R) as (d' & -> & Hw & Hg & R').
  { apply Forall_forall. intros c Hc%elem_of_in_order. apply Hpend. rewrite Hp.
    unfold late, ideal_overdue in Hc. apply elem_of_dom in Hc as [v [Hv _]%map_lookup_filter_Some]. by exists v. }
  cbn [rbind]. replace (list_to_set (in_order late)) with late in R'; cycle 1.
  { apply set_eq. intros x. by rewrite elem_of_list_to_set, elem_of_in_order. }
  destruct R' as (Hh' & Hp' & Hd' & Hrest). cbn in Hh', Hp', Hd'.
  assert (default 0%N (i_high s) = if seen_any d' then high_seen d' else 0%N) as ->
    by (rewrite Hh'; by destruct (seen_any d')).
  eexists. split; [by rewrite Hd'|].
  split; [exact Hw|]. split; [exact Hg|].
  split; [exact Hh'|]. split; [exact Hp'|]. split; [done|exact Hrest].
Qed.

Lemma steps_refine es : forall d s,
  refines d s -> in_window (grace_ms d) (window d) s es ->
  exists d', steps d es = Ret (d', (ideal_steps (grace_ms d) s es).2) /\
    refines d' (ideal_steps (grace_ms d) s es).1.
Proof.
  induction es as [|e es IH]; intros d s R Hwin; [by exists d|]. destruct Hwin as [He Hwin].
  assert (exists d', step d e = Ret (d', (ideal_step (grace_ms d) s e).2) /\ window d' = window d /\
    grace_ms d' = grace_ms d /\ refines d' (ideal_step (grace_ms d) s e).1) as (d' & Es & Hw & Hg & R').
  { destruct e as [c now|c|now]; cbn [step ideal_step].
    - destruct (on_seen_refines d s c now R) as (d' & -> & ?); [by eapply refines_kept|]. by exists d'.
    - destruct (promote_tracks d s c R) as (d' & E & Hw & Hg & _ & R'); [by eapply refines_kept|].
      unfold on_delivered. cbv zeta. fold (promote d c). rewrite E. cbn [rbind].
      eexists. split; [done|]. split; [done|]. split; [done|].
      destruct R' as (H1 & H2 & Hd & H3). split; [exact H1|]. split; [exact H2|].
      split; [|exact H3]. cbn in Hd |- *. by rewrite Hd.
    - destruct (report_refines d s now R) as (d' & -> & Hw & Hg & R').
      exists d'. destruct (ideal_report (grace_ms d) now s). done. }
  cbn [steps ideal_steps]. rewrite Es. cbn [rbind].
  destruct (ideal_step (grace_ms d) s e) as [s1 r1]. cbn [fst snd] in *.
  rewrite <- Hg in Hwin |- *. rewrite <- Hw in Hwin.
  destruct (IH d' s1 R' Hwin) as (d2 & -> & R2). cbn [rbind].
  exists d2. destruct (ideal_steps (grace_ms d') s1 es). done.
Qed.

Lemma refines_new grace w : refines (new grace w) ideal_new.
Proof.
  split_and!; cbn; try done; try (by intros c [? ?]).
  intros c. rewrite is_resolved_spec. cbn. split; [intros [?|?]; [lia|done]|by intros ?%elem_of_empty].
Qed.

(** The bounded detector is the ideal one inside its window.  As long as no
    counter is a window or more ahead of the point below which everything is
    resolved, the detector with its watermark and its two bounded collections
    emits exactly the reports of the unbounded ideal detector, and agrees with
    it on which counters are pending and which are resolved. *)
Theorem detector_refines_ideal (grace : N) (w : nat) (es : list event) :
  in_window grace w ideal_new es ->
  exists d, steps (new grace w) es = Ret (d, (ideal_steps grace ideal_new es).2) /\
    pending d = i_pending (ideal_steps grace ideal_new es).1 /\
    forall c, is_resolved d c = true <-> c ∈ i_resolved (ideal_steps grace ideal_new es).1.
Proof.
  intros H. destruct (steps_refine es (new grace w) ideal_new (refines_new grace w) H) as (d & E & R).
  exists d. split; [exact E|]. destruct R as (_ & Hp & _ & Hres & _). done.
Qed.

(** ** What gets reported *)

Lemma ideal_steps_app grace es1 : forall s es2,
  ideal_steps grace s (es1 ++ es2) =
    let '(s1, r1) := ideal_steps grace s es1 in
    let '(s2, r2) := ideal_steps grace s1 es2 in (s2, r1 ++ r2).
Proof.
  induction es1 as [|e es1 IH]; intros s es2; cbn; [by destruct ideal_steps|].
  destruct (ideal_step grace s e) as [s1 r]. rewrite IH.
  destruct (ideal_steps grace s1 es1) as [s2 r1], (ideal_steps grace s2 es2) as [s3 r2].
  by rewrite app_assoc.
Qed.

Lemma in_window_app grace w es1 : forall s es2,
  in_window grace w s (es1 ++ es2) <->
  in_window grace w s es1 /\ in_window grace w (ideal_steps grace s es1).1 es2.
Proof.
  induction es1 as [|e es1 IH]; intros s es2; cbn; [naive_solver|].
  rewrite IH. destruct (ideal_step grace s e) as [s1 r]. cbn.
  destruct (ideal_steps grace s1 es1) as [s2 rs]. cbn. naive_solver.
Qed.

(** The history behind an ideal state: [c0] was the first counter seen. *)
Definition history (c0 : N) (es : list event) (s : ideal) : Prop :=
  (exists h, i_high s = Some h /\ (c0 <= h)%N /\
     forall c, is_Some (i_pending s !! c) <->
       ((c0 <= c <= h)%N \/ exists t, Seen c t ∈ es) /\ c ∉ i_resolved s) /\
  (forall c, c ∈ i_resolved s <-> Delivered c ∈ es) /\
  (forall c t, i_pending s !! c = Some t -> exists c', Seen c' t ∈ es).

Lemma seen_is_Some (m : gmap N N) now (X : gset N) c :
  is_Some ((m ∪ gset_to_gmap now X) !! c) <-> is_Some (m !! c) \/ c ∈ X.
Proof.
  rewrite lookup_union_is_Some. unfold is_Some at 2. setoid_rewrite lookup_gset_to_gmap_Some. naive_solver.
Qed.

Lemma history_seen c0 es s c now :
  history c0 es s -> history c0 (es ++ [Seen c now]) (ideal_seen s c now).
Proof.
  intros ((h & Hh & Hle & Hp) & Hres & Ht). unfold ideal_seen.
  assert (forall x t, Seen x t ∈ es ++ [Seen c now] <-> Seen x t ∈ es \/ (x = c /\ t = now)) as Hin.
  { intros x t. rewrite elem_of_app, list_elem_of_singleton. naive_solver. }
  assert (forall x, Delivered x ∈ es ++ [Seen c now] <-> Delivered x ∈ es) as Hdel.
  { intros x. rewrite elem_of_app, list_elem_of_singleton. naive_solver. }
  destruct (decide (c ∈ i_resolved s)) as [Hc|Hc].
  - split_and!; [|intros x; by rewrite Hdel|intros x t E; destruct (Ht x t E) as [y Hy]; exists y; rewrite Hin; auto].
    exists h. split_and!; try done. intros x. rewrite Hp. setoid_rewrite Hin. naive_solver.
  - split_and!; cbn.
    + exists (N.max h c). rewrite Hh. split_and!; [done|lia|]. intros x. rewrite seen_is_Some, Hp, elem_of_union, elem_of_singleton, elem_of_list_to_set.
      setoid_rewrite Hin. unfold implied. rewrite Hh, list_elem_of_filter, elem_of_range.
      destruct (decide (x ∈ i_resolved s)) as [Hx|Hx]; [naive_solver|].
      destruct (decide (x = c)) as [->|]; [naive_solver|]. split.
      * intros [[[?|[t ?]] _]|[?|[_ ?]]]; [|by split; [right; exists t; left|]|done|]; (split; [left; lia|done]).
      * intros [[?|[t [?|[? _]]]] _]; [|left; split; [right; by exists t|done]|done].
        destruct (decide (x <= h)%N); [left; split; [left; lia|done]|right; right; split; [done|lia]].
    + intros x. by rewrite Hdel.
    + intros x t E. rewrite lookup_union_Some_raw in E. destruct E as [E|[_ E]].
      * destruct (Ht x t E) as [y Hy]. exists y. rewrite Hin. auto.
      * apply lookup_gset_to_gmap_Some in E as [_ <-]. exists c. rewrite Hin. auto.
Qed.

Lemma history_delivered c0 es s c :
  history c0 es s -> history c0 (es ++ [Delivered c]) (ideal_delivered s c).
Proof.
  intros ((h & Hh & Hle & Hp) & Hres & Ht).
  assert (forall x t, Seen x t ∈ es ++ [Delivered c] <-> Seen x t ∈ es) as Hin.
  { intros x t. rewrite elem_of_app, list_elem_of_singleton. naive_solver. }
  split_and!; cbn.
  - exists h. split_and!; try done. intros x. setoid_rewrite Hin.
    rewrite lookup_delete_is_Some, Hp, elem_of_union, elem_of_singleton. naive_solver.
  - intros x. rewrite elem_of_app, list_elem_of_singleton, elem_of_union, elem_of_singleton, Hres. naive_solver.
  - intros x t [_ E]%lookup_delete_Some. setoid_rewrite Hin. eauto.
Qed.

Definition no_report (e : event) : Prop := match e with Report _ => False | _ => True end.

Lemma history_steps grace c0 t0 es :
  Forall no_report es -> history c0 (Seen c0 t0 :: es) (ideal_steps grace ideal_new (Seen c0 t0 :: es)).1.
Proof.
  induction es as [|e es IH] using rev_ind.
  - intros _. change (history c0 [Seen c0 t0] (ideal_seen ideal_new c0 t0)). unfold ideal_seen.
    rewrite decide_False by apply not_elem_of_empty.
    split_and!; cbn [i_high i_pending i_resolved ideal_new implied].
    + exists c0. split_and!; [done|lia|]. intros c. rewrite seen_is_Some. setoid_rewrite list_elem_of_singleton.
      split; [intros [[? ?]|Hc]; [done|]; split; [left; set_solver by lia|set_solver]|].
      intros [[?|[t [= -> _]]] _]; right; [assert (c = c0) as -> by lia|]; set_solver.
    + intros c. split; [by intros ?%elem_of_empty|]. rewrite list_elem_of_singleton. discriminate.
    + intros c t. rewrite lookup_union_Some_raw. intros [?|[_ [_ <-]%lookup_gset_to_gmap_Some]]; [done|].
      exists c0. by left.
  - intros [Hes He]%Forall_app. specialize (IH Hes). rewrite Forall_singleton in He.
    rewrite app_comm_cons, ideal_steps_app. destruct (ideal_steps grace ideal_new (Seen c0 t0 :: es)) as [s rs].
    cbn [fst] in IH. destruct e as [c t|c|]; [| |destruct He]; cbn [ideal_steps ideal_step fst]; [by apply history_seen|by apply history_delivered].
Qed.

Lemma no_report_silent grace es : Forall no_report es -> forall s, (ideal_steps grace s es).2 = [].
Proof.
  induction 1 as [|e es He _ IH]; intros s; [done|]. cbn.
  destruct e as [c t|c|]; [| |destruct He]; cbn;
    [specialize (IH (ideal_seen s c t))|specialize (IH (ideal_delivered s c))];
    destruct (ideal_steps grace _ es); exact IH.
Qed.

(** Losses are reported, exactly.  After any in-window sequence of seen and
    delivered events that starts by seeing [c0], a report made once every event
    is a grace period old lists, in increasing order and up to the 64 the format
    carries, precisely the counters from [c0] to the highest one seen, and those
    seen late below [c0], that were not delivered. *)
Theorem losses_reported (grace : N) (w : nat) (c0 t0 now : N) (es : list event) :
  Forall no_report es -> in_window grace w ideal_new (Seen c0 t0 :: es) ->
  Forall (fun e => match e with Seen _ t => (t + grace <= now)%N | _ => True end) (Seen c0 t0 :: es) ->
  exists d r (late : gset N), steps (new grace w) (Seen c0 t0 :: es ++ [Report now]) = Ret (d, [r]) /\
    missing r = take MAX_NACK (in_order late) /\
    forall c, c ∈ late <->
      ((c0 <= c <= high_counter r)%N \/ exists t, Seen c t ∈ Seen c0 t0 :: es) /\
      Delivered c ∉ Seen c0 t0 :: es.
Proof.
  intros Hnr Hwin Hold. pose proof (history_steps grace c0 t0 es Hnr) as Hist.
  destruct (steps_refine (Seen c0 t0 :: es ++ [Report now]) (new grace w) ideal_new) as (d & E & _).
  { apply refines_new. }
  { cbn [grace_ms window new]. rewrite app_comm_cons, in_window_app. done. }
  cbn [grace_ms new] in E. exists d. revert E. rewrite app_comm_cons, ideal_steps_app.
  assert ((ideal_steps grace ideal_new (Seen c0 t0 :: es)).2 = []) as Hnil.
  { apply no_report_silent. by constructor. }
  destruct (ideal_steps grace ideal_new (Seen c0 t0 :: es)) as [s rs]. cbn [fst snd] in *. subst rs. cbn.
  intros E. eexists _, (ideal_overdue grace now s). split; [exact E|]. split; [done|].
  destruct Hist as ((h & Hh & Hle & Hp) & Hres & Ht). intros c. cbn. rewrite Hh, <- Hres. cbn. rewrite <- Hp.
  unfold ideal_overdue. rewrite elem_of_dom. unfold is_Some. setoid_rewrite map_lookup_filter_Some.
  split; [naive_solver|]. intros [t E2]. exists t. split; [done|]. cbn.
  destruct (Ht c t E2) as [c' Hc']. rewrite Forall_forall in Hold. specialize (Hold _ Hc'). cbn in Hold. lia.
Qed.

(** Losses beyond the 64 a report carries are marked resolved with the others
    and never reported: counters 1 to 65 are lost here, 65 is forgotten. *)
Lemma loss_beyond_cap_forgotten :
  match steps (new 5 1024) [Seen 0 0; Delivered 0; Seen 66 0; Delivered 66; Report 10; Report 20] with
  | Ret (d, rs) => map missing rs = [range 1 65; []] /\ is_resolved d 65 = true
  | Panic => False
  end.
Proof. vm_compute. done. Qed.

Lemma within_start w s c : (c < u64_mod - 1)%N -> (c < N.of_nat w)%N -> within w s c.
Proof. intros H1 H2. split; [done|]. exists 0%N. split; [intros x Hx; lia|lia]. Qed.

Lemma detector_refines_ideal_witness :
  exists d, steps (new 5 16) [Seen 0 0; Delivered 0; Seen 2 1; Report 10]
      = Ret (d, (ideal_steps 5 ideal_new [Seen 0 0; Delivered 0; Seen 2 1; Report 10]%N).2) /\
    pending d = i_pending (ideal_steps 5 ideal_new [Seen 0 0; Delivered 0; Seen 2 1; Report 10]%N).1 /\
    forall c, is_resolved d c = true <->
      c ∈ i_resolved (ideal_steps 5 ideal_new [Seen 0 0; Delivered 0; Seen 2 1; Report 10]%N).1.
Proof.
  apply (detector_refines_ideal 5 16 [Seen 0 0; Delivered 0; Seen 2 1; Report 10]%N).
  repeat (split; [try (apply within_start; reflexivity)|]); exact I.
Defined.

Lemma losses_reported_witness :
  exists d r (late : gset N), steps (new 5 16) [Seen 0 0; Delivered 0; Seen 2 1; Delivered 2; Report 10]
      = Ret (d, [r]) /\
    missing r = take MAX_NACK (in_order late) /\
    forall c, c ∈ late <->
      ((0 <= c <= high_counter r)%N \/ exists t, Seen c t ∈ [Seen 0 0; Delivered 0; Seen 2 1; Delivered 2]%N) /\
      Delivered c ∉ [Seen 0 0; Delivered 0; Seen 2 1; Delivered 2]%N.
Proof.
  apply (losses_reported 5 16 0 0 10 [Delivered 0; Seen 2 1; Delivered 2]%N).
  - repeat constructor.
  - repeat (split; [try (apply within_start; reflexivity)|]); exact I.
  - repeat (constructor; [first [exact I|vm_compute; discriminate]|]). constructor.
Defined.

End Detector.
