(* ===== verification/FifoMap.v ===== *)
(** * A hash map with an insertion-order queue

    The retransmit buffer and the flow table of yip-transport keep their entries
    the same way: a hash map for lookup and a queue of keys, oldest first, for
    eviction.  This file models the two steps they share (dropping expired
    entries from the front, making room when full) and shows that a map and a
    queue of keys that agree implement one queue of entries. *)

From Stdlib Require Import Lia.
From stdpp Require Import base numbers gmap sets list.

Local Open Scope nat_scope.

Section fifo.
Context {K : Type} `{Countable K} {V : Type}.

Implicit Types (m : gmap K V) (order : list K) (q : list (K * V)).

(** The loop of [evict_expired]; every turn pops the queue. *)
Fixpoint evict_loop (expired : V -> bool) m order : gmap K V * list K :=
  match order with
  | [] => (m, [])
  | front :: rest =>
      if match m !! front with Some e => expired e | None => true end
      then evict_loop expired (delete front m) rest
      else (m, order)
  end.

(** Pop the oldest entry if the map is full. *)
Definition make_room (max : nat) m order : gmap K V * list K :=
  if max <=? size m then
    match order with
    | old :: rest => (delete old m, rest)
    | [] => (m, [])
    end
  else (m, order).

(** ** The queue of entries *)

Fixpoint drop_expired (expired : V -> bool) q : list (K * V) :=
  match q with
  | [] => []
  | x :: rest => if expired x.2 then drop_expired expired rest else q
  end.

Definition drop_oldest (max : nat) q : list (K * V) := if max <=? length q then tail q else q.

(** Replace the value of a key, in place. *)
Definition update (k : K) (v : V) q : list (K * V) :=
  map (fun x => if decide (x.1 = k) then (x.1, v) else x) q.

(** The map and the order hold the queue [q]. *)
Definition fifo m order q : Prop := order = q.*1 /\ NoDup q.*1 /\ m = list_to_map q.

Lemma fifo_empty : fifo ∅ [] [].
Proof. split_and!; [done|apply NoDup_nil_2|done]. Qed.

Lemma fifo_lookup m order q k v : fifo m order q -> m !! k = Some v <-> (k, v) ∈ q.
Proof. intros (_ & Hnd & ->). symmetry. by apply elem_of_list_to_map. Qed.

Lemma fifo_none m order q k : fifo m order q -> m !! k = None <-> k ∉ q.*1.
Proof. intros (_ & Hnd & ->). symmetry. apply not_elem_of_list_to_map. Qed.

Lemma fifo_size m order q : fifo m order q -> size m = length q.
Proof.
  intros (_ & Hnd & ->). induction q as [|[k v] q IH]; cbn; [done|].
  apply NoDup_cons in Hnd as [Hk Hnd].
  rewrite map_size_insert_None by by apply not_elem_of_list_to_map. by rewrite IH.
Qed.

Lemma delete_front k v q :
  k ∉ q.*1 -> delete k (list_to_map ((k, v) :: q) : gmap K V) = list_to_map q.
Proof. intros Hk. cbn. apply delete_insert_id. by apply not_elem_of_list_to_map. Qed.

Lemma fifo_evict expired m order q :
  fifo m order q ->
  fifo (evict_loop expired m order).1 (evict_loop expired m order).2 (drop_expired expired q).
Proof.
  intros (-> & Hnd & ->). induction q as [|[k v] q IH]; [apply fifo_empty|].
  pose proof Hnd as [Hk Hnd']%NoDup_cons. cbn [fmap list_fmap evict_loop drop_expired fst snd].
  replace ((list_to_map ((k, v) :: q) : gmap K V) !! k) with (Some v) by (symmetry; apply lookup_insert_eq).
  destruct (expired v); [|done]. rewrite delete_front by done. by apply IH.
Qed.

Lemma fifo_room max m order q :
  fifo m order q -> fifo (make_room max m order).1 (make_room max m order).2 (drop_oldest max q).
Proof.
  intros F. unfold make_room, drop_oldest. rewrite (fifo_size _ _ _ F).
  destruct (max <=? length q); [|done]. destruct F as (-> & Hnd & ->).
  destruct q as [|[k v] q]; [apply fifo_empty|]. apply NoDup_cons in Hnd as [Hk Hnd].
  cbn [fmap list_fmap fst snd tail]. rewrite delete_front by done. done.
Qed.

Lemma fifo_snoc m order q k v :
  fifo m order q -> k ∉ q.*1 -> fifo (<[k := v]> m) (order ++ [k]) (q ++ [(k, v)]).
Proof.
  intros (-> & Hnd & ->) Hk. split_and!.
  - by rewrite fmap_app.
  - rewrite fmap_app. apply NoDup_app. split; [done|]. split; [|apply NoDup_singleton].
    intros x Hx ->%list_elem_of_singleton. done.
  - by rewrite list_to_map_snoc.
Qed.

Lemma update_keys k v q : (update k v q).*1 = q.*1.
Proof. induction q as [|x q IH]; cbn; [done|]. f_equal; [by case_decide|done]. Qed.

Lemma update_absent k v q : k ∉ q.*1 -> update k v q = q.
Proof.
  induction q as [|x q IH]; cbn; [done|]. intros [Hne Hk]%not_elem_of_cons.
  rewrite decide_False by congruence. f_equal. by apply IH.
Qed.

Lemma fifo_update m order q k v :
  fifo m order q -> k ∈ q.*1 -> fifo (<[k := v]> m) order (update k v q).
Proof.
  intros (-> & Hnd & ->) Hk. split_and!; [by rewrite update_keys|by rewrite update_keys|].
  induction q as [|[k' v'] q IH]; [by apply elem_of_nil in Hk|].
  apply NoDup_cons in Hnd as [Hk' Hnd]. cbn. destruct (decide (k' = k)) as [->|Hne]; cbn.
  - fold (update k v q). by rewrite update_absent, insert_insert_eq.
  - apply elem_of_cons in Hk as [->|Hk]; [done|]. fold (update k v q).
    rewrite <- IH by done. by apply insert_insert_ne.
Qed.

(** ** Facts about the queue *)

Lemma drop_expired_suffix expired q : exists gone, q = gone ++ drop_expired expired q.
Proof.
  induction q as [|x q [gone IH]]; cbn; [by exists []|].
  destruct (expired _); [|by exists []]. exists (x :: gone). cbn. by f_equal.
Qed.

Lemma drop_expired_subset expired q k : k ∈ (drop_expired expired q).*1 -> k ∈ q.*1.
Proof.
  destruct (drop_expired_suffix expired q) as [gone E]. rewrite E at 2.
  rewrite fmap_app, elem_of_app. auto.
Qed.

Lemma drop_oldest_subset max q k : k ∈ (drop_oldest max q).*1 -> k ∈ q.*1.
Proof. unfold drop_oldest. destruct (_ <=? _); [|done]. destruct q; cbn; [done|]. by right. Qed.

(** After the two eviction steps there is room for one more entry. *)
Lemma room_for_one expired max q :
  1 <= max -> length q <= max ->
  length (drop_oldest max (drop_expired expired q)) < max.
Proof.
  intros H1 Hq. destruct (drop_expired_suffix expired q) as [gone E].
  apply (f_equal length) in E. rewrite length_app in E. unfold drop_oldest.
  destruct (Nat.leb_spec max (length (drop_expired expired q))); [|lia].
  destruct (drop_expired expired q); cbn in *; lia.
Qed.

Lemma drop_expired_keeps expired pre x post :
  expired x.2 = false ->
  exists pre', drop_expired expired (pre ++ x :: post) = pre' ++ x :: post.
Proof.
  intros Hx. induction pre as [|y pre IH]; cbn.
  - rewrite Hx. by exists [].
  - destruct (expired y.2); [done|]. by exists (y :: pre).
Qed.

(** Eviction only removes entries. *)
Lemma evict_loop_subset expired order : forall m, (evict_loop expired m order).1 ⊆ m.
Proof.
  induction order as [|k order IH]; intros m; cbn; [done|].
  destruct (match m !! k with Some e => expired e | None => true end); [|done].
  etransitivity; [apply IH|apply delete_subseteq].
Qed.

Lemma make_room_subset max m order : (make_room max m order).1 ⊆ m.
Proof. unfold make_room. destruct (_ <=? _); [|done]. destruct order; [done|]. apply delete_subseteq. Qed.

End fifo.
