(* ===== verification/RetxBuf.v ===== *)
(** * The sender's retransmit buffer

    Models [RetxBuffer] of yip-transport/src/retxbuf.rs: a hash map from send
    counters to sent objects, together with a queue of the counters in insertion
    order that decides which one is evicted.  The map and the queue are shown to
    stay in agreement and to implement a bounded first-in first-out queue of
    objects (FifoMap.v); an object stays available for as long as the buffer's
    capacity and time-to-live promise. *)

From Stdlib Require Strings.Byte.
From Stdlib Require Import NArith Lia.
From stdpp Require Import base numbers gmap sets list.
From S2P Require Import Prelude.
From S2P Require Import FifoMap Fec.

Local Open Scope nat_scope.

Record Entry := mkEntry {
  e_ciphertext : list u8;
  e_class : FlowClass;
  e_object_id : N;
  e_inserted_ms : N;
}.

Record RetxBuffer := mkRetx {
  r_map : gmap N Entry;
  r_order : list N;
  r_max : nat;
  r_ttl_ms : N;
}.

Module Retx.

Definition new (max : nat) (ttl_ms : N) : RetxBuffer := mkRetx ∅ [] (Nat.max max 1) ttl_ms.

Definition len (b : RetxBuffer) : nat := size (r_map b).

Definition is_empty (b : RetxBuffer) : bool := size (r_map b) =? 0.

Definition expired (ttl_ms now_ms : N) (e : Entry) : bool := (ttl_ms <? now_ms - e_inserted_ms e)%N.

Definition evict_expired (b : RetxBuffer) (now_ms : N) : RetxBuffer :=
  let '(map, order) := evict_loop (expired (r_ttl_ms b) now_ms) (r_map b) (r_order b) in
  mkRetx map order (r_max b) (r_ttl_ms b).

Definition put (b : RetxBuffer) (counter : N) (ciphertext : list u8) (class : FlowClass)
    (object_id now_ms : N) : RetxBuffer :=
  let entry := mkEntry ciphertext class object_id now_ms in
  match r_map b !! counter with
  | Some _ => mkRetx (<[counter := entry]> (r_map b)) (r_order b) (r_max b) (r_ttl_ms b)
  | None =>
      let b := evict_expired b now_ms in
      let '(map, order) := make_room (r_max b) (r_map b) (r_order b) in
      mkRetx (<[counter := entry]> map) (order ++ [counter]) (r_max b) (r_ttl_ms b)
  end.

Definition get (b : RetxBuffer) (counter now_ms : N) : option (list u8 * FlowClass * N) :=
  match r_map b !! counter with
  | None => None
  | Some entry =>
      if expired (r_ttl_ms b) now_ms entry then None
      else Some (e_ciphertext entry, e_class entry, e_object_id entry)
  end.

(** One call of [put], as a value. *)
Record put_op := mkPut {
  p_counter : N;
  p_ciphertext : list u8;
  p_class : FlowClass;
  p_object_id : N;
  p_now_ms : N;
}.

Definition run_put (b : RetxBuffer) (p : put_op) : RetxBuffer :=
  put b (p_counter p) (p_ciphertext p) (p_class p) (p_object_id p) (p_now_ms p).

Definition entry_of (p : put_op) : Entry :=
  mkEntry (p_ciphertext p) (p_class p) (p_object_id p) (p_now_ms p).

(** ** The queue the buffer implements *)

Definition enqueue (max : nat) (ttl_ms : N) (q : list (N * Entry)) (p : put_op) : list (N * Entry) :=
  if decide (p_counter p ∈ q.*1) then update (p_counter p) (entry_of p) q
  else drop_oldest max (drop_expired (expired ttl_ms (p_now_ms p)) q) ++ [(p_counter p, entry_of p)].

Definition represents (b : RetxBuffer) (q : list (N * Entry)) : Prop := fifo (r_map b) (r_order b) q.

Lemma run_put_params b p : r_max (run_put b p) = r_max b /\ r_ttl_ms (run_put b p) = r_ttl_ms b.
Proof.
  unfold run_put, put, evict_expired. destruct (r_map b !! _); [done|]. cbv zeta.
  destruct evict_loop as [m o]. cbn. by destruct make_room.
Qed.

Lemma represents_put b q p :
  represents b q -> represents (run_put b p) (enqueue (r_max b) (r_ttl_ms b) q p).
Proof.
  unfold represents. intros R. unfold run_put, put, enqueue, evict_expired. fold (entry_of p). cbv zeta.
  destruct (r_map b !! p_counter p) as [old|] eqn:Eold.
  - assert (p_counter p ∈ q.*1) as Hin.
    { apply (fifo_lookup _ _ _ _ _ R) in Eold. by apply (list_elem_of_fmap_2 fst) in Eold. }
    rewrite decide_True by done. by apply fifo_update.
  - pose proof (proj1 (fifo_none _ _ _ _ R) Eold) as Hout. rewrite decide_False by done.
    apply (fifo_evict (expired (r_ttl_ms b) (p_now_ms p))) in R.
    destruct evict_loop as [m o]. cbn in R |- *.
    apply (fifo_room (r_max b)) in R. destruct make_room as [m' o']. cbn in R |- *.
    apply fifo_snoc; [done|]. by intros ?%drop_oldest_subset%drop_expired_subset.
Qed.

Lemma enqueue_bounded max ttl q p : 1 <= max -> length q <= max -> length (enqueue max ttl q p) <= max.
Proof.
  intros H1 Hq. unfold enqueue. destruct (decide _); [unfold update; by rewrite length_map|].
  rewrite length_app. cbn. pose proof (room_for_one (expired ttl (p_now_ms p)) max q H1 Hq). lia.
Qed.

(** Puts to an empty buffer. *)
Definition puts (max : nat) (ttl_ms : N) (ops : list put_op) : RetxBuffer :=
  fold_left run_put ops (new max ttl_ms).

Lemma puts_represents max ttl ops :
  represents (puts max ttl ops) (fold_left (enqueue (Nat.max max 1) ttl) ops []) /\
  r_max (puts max ttl ops) = Nat.max max 1 /\ r_ttl_ms (puts max ttl ops) = ttl.
Proof.
  induction ops as [|p ops IH] using rev_ind; [split; [apply fifo_empty|done]|].
  unfold puts. rewrite !fold_left_app. cbn [fold_left]. fold (puts max ttl ops).
  destruct IH as (R & Em & Et), (run_put_params (puts max ttl ops) p) as [-> ->].
  split; [|done]. pose proof (represents_put _ _ p R) as R'. by rewrite Em, Et in R'.
Qed.

(** The retransmit buffer is a bounded queue.  After any calls of [put],
    the hash map and the order queue describe the same first-in first-out queue
    of objects; [get] answers with the queued object unless it has outlived its
    time to live, and the buffer never holds more than its capacity. *)
Theorem retx_refines_queue (max : nat) (ttl_ms : N) (ops : list put_op) :
  let b := puts max ttl_ms ops in
  let q := fold_left (enqueue (Nat.max max 1) ttl_ms) ops [] in
  r_order b = q.*1 /\ NoDup (r_order b) /\ len b = length q /\ len b <= Nat.max max 1 /\
  forall c now, get b c now =
    match list_find (fun x => x.1 = c) q with
    | Some (_, (_, e)) =>
        if expired ttl_ms now e then None else Some (e_ciphertext e, e_class e, e_object_id e)
    | None => None
    end.
Proof.
  cbv zeta. destruct (puts_represents max ttl_ms ops) as (R & Em & Et).
  assert (length (fold_left (enqueue (Nat.max max 1) ttl_ms) ops []) <= Nat.max max 1) as Hb.
  { clear. induction ops as [|p ops IH] using rev_ind; [cbn; lia|].
    rewrite fold_left_app. apply enqueue_bounded; [lia|done]. }
  pose proof (fifo_size _ _ _ R : len _ = _) as Hl. pose proof R as (Ho & Hnd & Hm).
  split; [done|]. split; [by rewrite Ho|]. split; [done|]. split; [lia|].
  intros c now. unfold get. rewrite Et.
  destruct (list_find _ _) as [[i [c' e]]|] eqn:Ef.
  - apply list_find_Some in Ef as (Hi & Hc & _). cbn in Hc. subst c'.
    by rewrite (proj2 (fifo_lookup _ _ _ c e R) (list_elem_of_lookup_2 _ _ _ Hi)).
  - apply list_find_None in Ef. rewrite (proj2 (fifo_none _ _ _ c R)); [done|].
    intros (x & -> & Hx)%list_elem_of_fmap. rewrite Forall_forall in Ef. by apply (Ef x Hx).
Qed.

(** ** Availability *)

(** An unexpired object with fewer than [max - 1] objects behind it survives
    the next [put], and moves at most one place forward. *)
Lemma enqueue_keeps max ttl p c e pre post :
  c <> p_counter p -> expired ttl (p_now_ms p) e = false -> S (length post) < max ->
  exists pre' post', enqueue max ttl (pre ++ (c, e) :: post) p = pre' ++ (c, e) :: post' /\
    length post' <= S (length post).
Proof.
  intros Hne Hex Hl. unfold enqueue. destruct (decide _).
  - unfold update. rewrite map_app. cbn. rewrite decide_False by done. eexists _, _. split; [done|].
    rewrite length_map. lia.
  - destruct (drop_expired_keeps (expired ttl (p_now_ms p)) pre (c, e) post Hex) as [pre' ->].
    unfold drop_oldest. destruct (Nat.leb_spec max (length (pre' ++ (c, e) :: post))) as [Hm|_].
    + destruct pre' as [|y pre']; cbn in *; [lia|]. exists pre', (post ++ [(p_counter p, entry_of p)]).
      rewrite <- app_assoc. split; [done|]. rewrite length_app. cbn. lia.
    + exists pre', (post ++ [(p_counter p, entry_of p)]). rewrite <- app_assoc.
      split; [done|]. rewrite length_app. cbn. lia.
Qed.

Lemma enqueues_keep max ttl c e later : forall pre post,
  Forall (fun p => c <> p_counter p /\ expired ttl (p_now_ms p) e = false) later ->
  length post + length later < max ->
  exists pre' post', fold_left (enqueue max ttl) later (pre ++ (c, e) :: post) = pre' ++ (c, e) :: post'.
Proof.
  induction later as [|p later IH]; intros pre post Hf Hl; [by eexists _, _|].
  apply Forall_cons in Hf as [[Hne Hex] Hf]. cbn in Hl |- *.
  destruct (enqueue_keeps max ttl p c e pre post Hne Hex) as (pre' & post' & -> & Hp); [lia|].
  apply IH; [done|lia].
Qed.

Lemma enqueue_counters max ttl q p c : c ∈ (enqueue max ttl q p).*1 -> c ∈ q.*1 \/ c = p_counter p.
Proof.
  unfold enqueue. destruct (decide _); [rewrite update_keys; auto|].
  rewrite fmap_app, elem_of_app. intros [H|H%list_elem_of_singleton]; [left|by right].
  by apply drop_oldest_subset, drop_expired_subset in H.
Qed.

Lemma enqueues_counters max ttl ops c :
  c ∈ (fold_left (enqueue max ttl) ops []).*1 -> c ∈ map p_counter ops.
Proof.
  induction ops as [|p ops IH] using rev_ind; [done|].
  rewrite fold_left_app, map_app, elem_of_app. intros [H| ->]%enqueue_counters; [auto|].
  right. by left.
Qed.

(** Objects stay available for retransmission.  An object put into the
    buffer under a counter not used before can be fetched, unchanged, until its
    time to live has passed, as long as fewer further objects are put than the
    buffer holds. *)
Theorem retx_available (max : nat) (ttl_ms now : N) (before : list put_op) (p : put_op)
    (later : list put_op) :
  p_counter p ∉ map p_counter before ->
  Forall (fun p' => p_counter p <> p_counter p' /\ (p_now_ms p' - p_now_ms p <= ttl_ms)%N) later ->
  length later < Nat.max max 1 -> (now - p_now_ms p <= ttl_ms)%N ->
  get (puts max ttl_ms (before ++ p :: later)) (p_counter p) now
    = Some (p_ciphertext p, p_class p, p_object_id p).
Proof.
  intros Hnew Hlater Hlen Hnow.
  destruct (puts_represents max ttl_ms (before ++ p :: later)) as (R & _ & Et).
  assert (exists pre post, fold_left (enqueue (Nat.max max 1) ttl_ms) (before ++ p :: later) []
    = pre ++ (p_counter p, entry_of p) :: post) as (pre & post & E).
  { rewrite fold_left_app. cbn. unfold enqueue at 2. rewrite decide_False by (intros ?%enqueues_counters; done).
    apply enqueues_keep; [|cbn; lia]. eapply Forall_impl; [exact Hlater|].
    intros p' [Hne Ht]. split; [done|]. by apply N.ltb_ge. }
  unfold get. rewrite Et, (proj2 (fifo_lookup _ _ _ (p_counter p) (entry_of p) R)).
  - unfold expired. cbn. by rewrite (proj2 (N.ltb_ge _ _)).
  - rewrite E. apply elem_of_app. right. by left.
Qed.

Lemma retx_available_witness :
  get (puts 2 2000 [mkPut 7 [Byte.x01; Byte.x02] Bulk 99 0; mkPut 8 [Byte.x03] Bulk 100 1500]) 7 2000
    = Some ([Byte.x01; Byte.x02], Bulk, 99%N).
Proof.
  apply (retx_available 2 2000 2000 [] (mkPut 7 [Byte.x01; Byte.x02] Bulk 99 0)
           [mkPut 8 [Byte.x03] Bulk 100 1500]).
  - apply not_elem_of_nil.
  - constructor; [|constructor]. split; [discriminate|]. vm_compute. discriminate.
  - apply Nat.ltb_lt. reflexivity.
  - vm_compute. discriminate.
Defined.

End Retx.
