(* ===== verification/Adaptive.v ===== *)
(** * The adaptive redundancy controller

    Models [AdaptiveController] of yip-transport/src/control.rs on IEEE
    single-precision floats ([SpecFloat], 24-bit mantissa) with the comparisons,
    the clamping and the minimum and maximum of the source's float type, NaN
    included.  The ratio never becomes NaN or negative, whatever loss figures
    are observed, and no repair is sent exactly when it has decayed to zero. *)

From Stdlib Require Import NArith ZArith SpecFloat Lia.
From stdpp Require Import base numbers list.
From S2P Require Import Prelude Fec.

Local Open Scope Z_scope.

(** ** f32 and f64 *)

Definition f32_add : spec_float -> spec_float -> spec_float := SFadd 24 128.
Definition f32_mul : spec_float -> spec_float -> spec_float := SFmul 24 128.
Definition f64_mul : spec_float -> spec_float -> spec_float := SFmul 53 1024.

Definition f32_zero : spec_float := S754_zero false.
Definition f32_one : spec_float := S754_finite false 0x800000 (-23).
Definition f32_0_9 : spec_float := S754_finite false 0xe66666 (-24).
Definition f32_0_001 : spec_float := S754_finite false 0x83126f (-33).
Definition f32_epsilon : spec_float := S754_finite false 0x800000 (-46).

Definition is_nan (x : spec_float) : bool := match x with S754_nan => true | _ => false end.

(** [x.clamp(lo, hi)], [x.min(y)] and [x.max(y)] *)
Definition f32_clamp (x lo hi : spec_float) : spec_float :=
  let x := if SFltb x lo then lo else x in
  if SFltb hi x then hi else x.

Definition f32_min (x y : spec_float) : spec_float :=
  if is_nan x then y else if is_nan y then x else if SFltb y x then y else x.

Definition f32_max (x y : spec_float) : spec_float :=
  if is_nan x then y else if is_nan y then x else if SFltb x y then y else x.

(** [f64::from] of a u32 and of an f32; both are exact. *)
Definition f64_of_u32 (n : N) : spec_float := binary_normalize 53 1024 (Z.of_N n) 0 false.

Definition f64_of_f32 (x : spec_float) : spec_float :=
  match x with
  | S754_finite s m e => binary_normalize 53 1024 (cond_Zopp s (Zpos m)) e s
  | _ => x
  end.

(** [x.ceil() as i64]: saturating, zero for NaN. *)
Definition ceil_as_i64 (x : spec_float) : Z :=
  match x with
  | S754_nan | S754_zero _ => 0
  | S754_infinity s => if s then - 2 ^ 63 else 2 ^ 63 - 1
  | S754_finite s m e =>
      let v := cond_Zopp s (Zpos m) in
      let c := if 0 <=? e then v * 2 ^ e else - ((- v) / 2 ^ (- e)) in
      Z.max (- 2 ^ 63) (Z.min c (2 ^ 63 - 1))
  end.

(** ** The controller *)

Record AdaptiveController := mkAdaptive {
  ratio : spec_float;
  min_ratio : spec_float;
  target_residual : spec_float;
}.

Module Adaptive.

Definition new_for (p : FlowParams) : AdaptiveController :=
  mkAdaptive (initial_repair_ratio p)
    (if arq p then f32_zero else initial_repair_ratio p) f32_0_001.

Definition new (p : FlowParams) : AdaptiveController := new_for p.

Definition set_ratio (c : AdaptiveController) (r : spec_float) : AdaptiveController :=
  mkAdaptive (f32_clamp r f32_zero f32_one) (min_ratio c) (target_residual c).

Definition set_min_ratio (c : AdaptiveController) (r : spec_float) : AdaptiveController :=
  mkAdaptive (ratio c) (f32_clamp r f32_zero f32_one) (target_residual c).

Definition observe_loss (c : AdaptiveController) (loss_fraction : spec_float) : AdaptiveController :=
  let loss := f32_clamp loss_fraction f32_zero f32_one in
  let ratio' :=
    if SFltb (f32_add (target_residual c) (ratio c)) loss then
      f32_min (f32_add loss f32_0_05) f32_one
    else if SFleb loss (target_residual c) then
      let decayed := f32_max (f32_mul (ratio c) f32_0_9) (min_ratio c) in
      if SFleb decayed f32_epsilon then min_ratio c else decayed
    else ratio c in
  mkAdaptive ratio' (min_ratio c) (target_residual c).

Definition repair_count (c : AdaptiveController) (source_symbols : N) : N :=
  if SFleb (ratio c) f32_epsilon then 0%N
  else
  let raw := f64_mul (f64_of_u32 source_symbols) (f64_of_f32 (ratio c)) in
  let i := ceil_as_i64 raw in
  let n := if (0 <=? i) && (i <? 2 ^ 32) then Z.to_N i else (u32_mod - 1)%N in
  N.max n 1.

(** ** Ratios are numbers *)

(** Zero, or a positive number or infinity; in particular not NaN. *)
Definition nonneg (x : spec_float) : Prop :=
  match x with
  | S754_zero _ => True
  | S754_infinity s | S754_finite s _ _ => s = false
  | S754_nan => False
  end.

(** Shifting and rounding keep a mantissa non-negative. *)
Lemma shr_1_nonneg r : 0 <= shr_m r -> 0 <= shr_m (shr_1 r).
Proof. destruct r as [[|[p|p|]|p] ? ?]; cbn; lia. Qed.

Lemma shr_nonneg r e n : 0 <= shr_m r -> 0 <= shr_m (shr r e n).1.
Proof.
  intros H. destruct n as [|p|p]; cbn; [done| |done]. clear e. revert r H.
  induction p as [p IH|p IH|]; intros r H; cbn; [|by apply IH, IH|by apply shr_1_nonneg].
  by apply IH, IH, shr_1_nonneg.
Qed.

Lemma shr_fexp_nonneg prec emax m e l : 0 <= m -> 0 <= shr_m (shr_fexp prec emax m e l).1.
Proof.
  intros H. unfold shr_fexp. apply shr_nonneg. by destruct l as [|[| |]].
Qed.

Lemma round_nonneg m l : 0 <= m -> 0 <= round_nearest_even m l.
Proof. intros H. destruct l as [|[| |]]; cbn; try destruct (Z.even m); lia. Qed.

Lemma binary_round_aux_nonneg prec emax m e l :
  0 <= m -> nonneg (binary_round_aux prec emax false m e l).
Proof.
  intros H. unfold binary_round_aux.
  pose proof (shr_fexp_nonneg prec emax m e l H) as H1. destruct (shr_fexp prec emax m e l) as [r e'].
  cbn in H1. set (m' := round_nearest_even _ _).
  assert (0 <= m') as H2 by by apply round_nonneg.
  pose proof (shr_fexp_nonneg prec emax m' e' loc_Exact H2) as H3.
  destruct (shr_fexp prec emax m' e' loc_Exact) as [r' e'']. cbn in H3.
  destruct (shr_m r') as [|p|p]; cbn; [done| |lia]. by destruct (_ <=? _).
Qed.

Lemma binary_normalize_nonneg prec emax m e s :
  0 <= m -> nonneg (binary_normalize prec emax m e s).
Proof.
  intros H. destruct m as [|p|p]; cbn; [done| |lia]. unfold binary_round.
  destruct (shl_align _ _ _). apply binary_round_aux_nonneg. lia.
Qed.

Lemma add_nonneg x y : nonneg x -> nonneg y -> nonneg (f32_add x y).
Proof.
  destruct x as [[]|[]| |[]], y as [[]|[]| |[]]; try done; intros _ _; cbn -[binary_normalize];
    apply binary_normalize_nonneg; lia.
Qed.

Lemma mul_nonneg x (m : positive) e : nonneg x -> nonneg (f32_mul x (S754_finite false m e)).
Proof.
  destruct x as [s|s| |s mx ex]; try done; cbn -[binary_round_aux].
  - intros ->. done.
  - intros ->. apply binary_round_aux_nonneg. lia.
Qed.

Lemma clamp_nonneg x : is_nan x = false -> nonneg (f32_clamp x f32_zero f32_one).
Proof.
  destruct x as [s|[]| |[] m e]; try done; intros _; unfold f32_clamp; cbn;
    repeat (destruct (_ : bool); cbn; try done); by case_match.
Qed.

Lemma clamp_nan : f32_clamp S754_nan f32_zero f32_one = S754_nan.
Proof. reflexivity. Qed.

Definition valid (c : AdaptiveController) : Prop :=
  nonneg (ratio c) /\ nonneg (min_ratio c) /\ nonneg (target_residual c).

Lemma min_nonneg x y : nonneg x -> nonneg y -> nonneg (f32_min x y).
Proof. unfold f32_min. destruct (is_nan x), (is_nan y), (SFltb y x); done. Qed.

Lemma max_nonneg x y : nonneg x -> nonneg y -> nonneg (f32_max x y).
Proof. unfold f32_max. destruct (is_nan x), (is_nan y), (SFltb x y); done. Qed.

Lemma ltb_nan x : SFltb x S754_nan = false.
Proof. by destruct x. Qed.

Lemma observe_valid c l : valid c -> valid (observe_loss c l).
Proof.
  intros (Hr & Hm & Ht). unfold observe_loss. cbv zeta. split_and!; [|done|done]. cbn [ratio].
  destruct (is_nan l) eqn:En.
  { destruct l; try done. rewrite clamp_nan, ltb_nan. done. }
  pose proof (clamp_nonneg l En) as Hl. destruct (SFltb _ _).
  - by apply min_nonneg; [apply add_nonneg|].
  - destruct (SFleb _ _); [|done]. destruct (SFleb _ _); [done|].
    apply max_nonneg; [by apply mul_nonneg|done].
Qed.

Lemma new_valid class : valid (new (params class)).
Proof. by destruct class. Qed.

Lemma repair_count_range c n :
  (repair_count c n < u32_mod)%N /\ (repair_count c n = 0%N <-> SFleb (ratio c) f32_epsilon = true).
Proof.
  unfold repair_count. destruct (SFleb _ _); [done|]. cbv zeta. set (i := ceil_as_i64 _).
  assert ((if ((0 <=? i) && (i <? 2 ^ 32))%Z then Z.to_N i else (u32_mod - 1)) < u32_mod)%N.
  { destruct ((0 <=? i) && (i <? 2 ^ 32)) eqn:E; [|done].
    apply andb_true_iff in E as [?%Z.leb_le ?%Z.ltb_lt]. unfold u32_mod. lia. }
  split; [unfold u32_mod in *; lia|]. split; [lia|done].
Qed.

(** The redundancy ratio stays a number.  Whatever loss figures are
    observed, NaN included, the repair ratio of a class's controller is never
    NaN and never negative; the number of repair symbols fits 32 bits and is
    zero exactly when the ratio has decayed to (at most) the float epsilon. *)
Theorem adaptive_ratio_valid (class : FlowClass) (losses : list spec_float) :
  let c := fold_left observe_loss losses (new (params class)) in
  nonneg (ratio c) /\ forall n, (repair_count c n < u32_mod)%N /\
    (repair_count c n = 0%N <-> SFleb (ratio c) f32_epsilon = true).
Proof.
  cbv zeta. split; [|intros n; apply repair_count_range].
  assert (valid (fold_left observe_loss losses (new (params class)))) as H; [|apply H].
  generalize (new_valid class). generalize (new (params class)).
  induction losses as [|l ls IH]; intros c Hc; cbn; [done|]. by apply IH, observe_valid.
Qed.

Definition clean (n : nat) (class : FlowClass) : AdaptiveController :=
  Nat.iter n (fun c => observe_loss c f32_zero) (new (params class)).

Lemma clean_fixed n m class :
  observe_loss (clean n class) f32_zero = clean n class -> (n <= m)%nat -> clean m class = clean n class.
Proof.
  intros E H. induction H as [|m H IH]; [done|].
  change (clean (S m) class) with (observe_loss (clean m class) f32_zero). by rewrite IH.
Qed.

(** On a clean link redundancy is withdrawn only where retransmission backs
    it up.  Reports of no loss leave the Realtime and Default controllers at
    their initial ratio for ever, always sending at least one repair symbol;
    after 150 of them the Bulk controller, whose losses are retransmitted, sends
    none. *)
Theorem adaptive_clean_link (m : nat) (n : N) :
  clean m Realtime = new (params Realtime) /\ clean m Default = new (params Default) /\
  (repair_count (clean m Realtime) n <> 0)%N /\ (repair_count (clean m Default) n <> 0)%N /\
  ((150 <= m)%nat -> ratio (clean m Bulk) = f32_zero /\ repair_count (clean m Bulk) n = 0%N).
Proof.
  assert (clean m Realtime = clean 0 Realtime) as -> by (apply clean_fixed; [reflexivity|lia]).
  assert (clean m Default = clean 0 Default) as -> by (apply clean_fixed; [reflexivity|lia]).
  split_and!; try done.
  - rewrite (proj2 (repair_count_range _ n)). done.
  - rewrite (proj2 (repair_count_range _ n)). done.
  - intros Hm. rewrite (clean_fixed 150 m Bulk) by (vm_compute; reflexivity || done).
    split; [vm_compute; reflexivity|].
    apply (proj2 (repair_count_range _ n)). vm_compute. reflexivity.
Qed.

End Adaptive.
