(* ===== verification/Flow.v ===== *)
(** * Flow classification

    Models yip-transport/src/flow.rs, the per-flow table (exponentially averaged
    packet size and packet rate of each flow, bounded in number and in age), and
    the flow keys of yip-transport/src/classify.rs.

    Float arithmetic is IEEE single precision.  The one unchecked product that
    could exceed 64 bits panics in the model. *)

From Stdlib Require Strings.Byte.
From Stdlib Require Import NArith ZArith SpecFloat Lia.
From stdpp Require Import base numbers gmap sets list.
From S2P Require Import Prelude FifoMap Fec Adaptive.

Local Open Scope nat_scope.

(** ** Flow keys *)

Record FlowKey := mkFlowKey {
  k_src : list u8;
  k_dst : list u8;
  k_src_port : N;
  k_dst_port : N;
  k_proto : u8;
}.

#[export] Instance flow_key_eq_dec : EqDecision FlowKey.
Proof. solve_decision. Defined.

#[export] Instance flow_key_countable : Countable FlowKey.
Proof.
  refine (inj_countable' (fun k => (k_src k, k_dst k, k_src_port k, k_dst_port k, k_proto k))
            (fun '(s, d, sp, dp, p) => mkFlowKey s d sp dp p) _).
  by intros [].
Defined.

(** Lexicographic order of byte arrays. *)
Fixpoint bytes_compare (a b : list u8) : comparison :=
  match a, b with
  | [], [] => Eq
  | [], _ :: _ => Lt
  | _ :: _, [] => Gt
  | x :: a, y :: b =>
      match N.compare (b2n x) (b2n y) with Eq => bytes_compare a b | c => c end
  end.

Definition endpoint_leb (a : list u8) (ap : N) (b : list u8) (bp : N) : bool :=
  match bytes_compare a b with Lt => true | Gt => false | Eq => (ap <=? bp)%N end.

Module Key.

Definition canonical (k : FlowKey) : FlowKey :=
  if endpoint_leb (k_src k) (k_src_port k) (k_dst k) (k_dst_port k) then k
  else mkFlowKey (k_dst k) (k_src k) (k_dst_port k) (k_src_port k) (k_proto k).

(** The key of the packets that flow the other way. *)
Definition reversed (k : FlowKey) : FlowKey :=
  mkFlowKey (k_dst k) (k_src k) (k_dst_port k) (k_src_port k) (k_proto k).

Lemma bytes_compare_antisym a : forall b, bytes_compare b a = CompOpp (bytes_compare a b).
Proof.
  induction a as [|x a IH]; intros [|y b]; cbn; try done.
  rewrite (N.compare_antisym (b2n x) (b2n y)), IH. by destruct (N.compare _ _).
Qed.

Lemma bytes_compare_eq a : forall b, bytes_compare a b = Eq -> a = b.
Proof.
  induction a as [|x a IH]; intros [|y b]; cbn; try done.
  destruct (N.compare_spec (b2n x) (b2n y)) as [E| |]; try done. intros H%IH. f_equal; [by apply b2n_inj|done].
Qed.

Lemma canonical_reversed k : canonical (reversed k) = canonical k.
Proof.
  unfold canonical, reversed, endpoint_leb. destruct k as [s d sp dp p]. cbn.
  rewrite (bytes_compare_antisym s d). destruct (bytes_compare s d) eqn:E; cbn; try done.
  apply bytes_compare_eq in E as ->.
  destruct (N.leb_spec dp sp), (N.leb_spec sp dp); try done; [|lia]. by replace sp with dp by lia.
Qed.

Lemma canonical_is k : canonical k = k \/ canonical k = reversed k.
Proof. unfold canonical. destruct (endpoint_leb _ _ _ _); auto. Qed.

(** A flow key identifies a conversation.  Two packets get the same
    canonical key exactly when they have the same protocol, addresses and ports,
    or those with source and destination exchanged: both directions share one
    entry of the flow table and no two conversations do. *)
Theorem canonical_identifies (k1 k2 : FlowKey) :
  canonical k1 = canonical k2 <-> k1 = k2 \/ k1 = reversed k2.
Proof.
  assert (forall k, reversed (reversed k) = k) as Hrr by by intros [].
  split.
  - intros E. destruct (canonical_is k1) as [E1|E1], (canonical_is k2) as [E2|E2];
      rewrite E1, E2 in E; [auto|auto|right|left].
    + by rewrite <- E, Hrr.
    + by rewrite <- (Hrr k1), E, Hrr.
  - intros [->| ->]; [done|]. apply canonical_reversed.
Qed.

End Key.

(** ** The flow table *)

Definition MIN_PACKETS : N := 4.
Definition SMALL_BYTES : spec_float := S754_finite false 0x800000 (-15).
Definition LARGE_BYTES : spec_float := S754_finite false 0xfa0000 (-14).
Definition EWMA_ALPHA : spec_float := S754_finite false 0x800000 (-25).
Definition MIN_RATE_PPS : N := 20.

Record FlowStat := mkFlowStat {
  ewma_size : spec_float;
  packets : N;
  first_ms : N;
  last_ms : N;
}.

Record FlowTable := mkFlowTable {
  f_map : gmap FlowKey FlowStat;
  f_order : list FlowKey;
  f_max : nat;
  f_ttl_ms : N;
}.

Module Flows.

Definition new (max : nat) (ttl_ms : N) : FlowTable := mkFlowTable ∅ [] (Nat.max max 1) ttl_ms.

Definition len (t : FlowTable) : nat := size (f_map t).

Definition is_empty (t : FlowTable) : bool := size (f_map t) =? 0.

Definition idle (ttl_ms now_ms : N) (s : FlowStat) : bool := (ttl_ms <? now_ms - last_ms s)%N.

Definition evict_expired (t : FlowTable) (now_ms : N) : FlowTable :=
  let '(map, order) := evict_loop (idle (f_ttl_ms t) now_ms) (f_map t) (f_order t) in
  mkFlowTable map order (f_max t) (f_ttl_ms t).

(** [u16::try_from(size).map(f32::from).unwrap_or(f32::from(u16::MAX))] *)
Definition size_f32 (size : nat) : spec_float :=
  binary_normalize 24 128 (Z.min (Z.of_nat size) 65535) 0 false.

Definition f32_sub : spec_float -> spec_float -> spec_float := SFsub 24 128.

Definition ewma (size_f old : spec_float) : spec_float :=
  f32_add (f32_mul EWMA_ALPHA size_f) (f32_mul (f32_sub f32_one EWMA_ALPHA) old).

Definition observe (t : FlowTable) (key : FlowKey) (size : nat) (now_ms : N) : FlowTable :=
  let t := evict_expired t now_ms in
  let size_f := size_f32 size in
  match f_map t !! key with
  | Some stat =>
      let stat := mkFlowStat (ewma size_f (ewma_size stat)) (sat_add32 (packets stat) 1)
                    (first_ms stat) now_ms in
      mkFlowTable (<[key := stat]> (f_map t)) (f_order t) (f_max t) (f_ttl_ms t)
  | None =>
      let '(map, order) := make_room (f_max t) (f_map t) (f_order t) in
      mkFlowTable (<[key := mkFlowStat size_f 1 now_ms now_ms]> map) (order ++ [key])
        (f_max t) (f_ttl_ms t)
  end.

(** The rate test multiplies unchecked 64-bit integers. *)
Definition is_frequent (stat : FlowStat) : run bool :=
  let duration_ms := (last_ms stat - first_ms stat)%N in
  if (duration_ms =? 0)%N then Ret true
  else
  let! _ := rassert (MIN_RATE_PPS * duration_ms <? u64_mod)%N in
  Ret (MIN_RATE_PPS * duration_ms <=? packets stat * 1000)%N.

Definition classify (t : FlowTable) (key : FlowKey) : run (option FlowClass) :=
  match f_map t !! key with
  | None => Ret None
  | Some stat =>
      if (packets stat <? MIN_PACKETS)%N then Ret None
      else if SFltb LARGE_BYTES (ewma_size stat) then Ret (Some Bulk)
      else if SFltb (ewma_size stat) SMALL_BYTES then
        let! frequent := is_frequent stat in
        if frequent then Ret (Some Realtime) else Ret None
      else Ret None
  end.

(** *** Exactness on packet sizes *)

#[export] Instance spec_float_eq_dec : EqDecision spec_float.
Proof. solve_decision. Defined.

(** Check a predicate on the numbers below [n]. *)
Definition all_below (n : N) (P : Z -> bool) : bool :=
  (N.iter n (fun '(i, b) => (i + 1, b && P i))%Z (0%Z, true)).2.

Lemma all_below_spec n P : all_below n P = true -> forall i, (0 <= i < Z.of_N n)%Z -> P i = true.
Proof.
  unfold all_below. set (f := fun '(i, b) => _).
  assert (forall n, (N.iter n f (0%Z, true)).1 = Z.of_N n /\
    ((N.iter n f (0%Z, true)).2 = true -> forall i, (0 <= i < Z.of_N n)%Z -> P i = true)) as H.
  { clear n. intros n. induction n as [|n [IH1 IH2]] using N.peano_ind; [split; [done|lia]|].
    rewrite N.iter_succ. destruct (N.iter n f (0%Z, true)) as [j b]. cbn in *. subst j.
    split; [lia|]. intros [Hb HP]%andb_true_iff i Hi.
    destruct (decide (i = Z.of_N n)) as [->|]; [done|]. apply IH2; [done|lia]. }
  apply H.
Qed.

Definition f32_of_Z (z : Z) : spec_float := binary_normalize 24 128 z 0 false.

(** The average of a constant is that constant, and the size thresholds compare
    like integers. *)
Definition size_ok (z : Z) : bool :=
  bool_decide (ewma (f32_of_Z z) (f32_of_Z z) = f32_of_Z z) &&
  eqb (SFltb LARGE_BYTES (f32_of_Z z)) (1000 <? z)%Z &&
  eqb (SFltb (f32_of_Z z) SMALL_BYTES) (z <? 256)%Z.

Lemma sizes_ok : all_below 2048 size_ok = true.
Proof. vm_compute. reflexivity. Qed.

Lemma size_f32_exact size : size < 2048 ->
  ewma (size_f32 size) (size_f32 size) = size_f32 size /\
  SFltb LARGE_BYTES (size_f32 size) = (1000 <? size) /\
  SFltb (size_f32 size) SMALL_BYTES = (size <? 256).
Proof.
  intros Hs. pose proof (all_below_spec _ _ sizes_ok (Z.of_nat size)) as H.
  unfold size_ok in H. rewrite !andb_true_iff, bool_decide_eq_true, !eqb_true_iff in H.
  destruct H as [[H1 H2] H3]; [lia|]. unfold size_f32. rewrite Z.min_l by lia.
  fold (f32_of_Z (Z.of_nat size)). rewrite H1, H2, H3. split_and!; [done| |]; apply eq_true_iff_eq;
    rewrite Z.ltb_lt, Nat.ltb_lt; lia.
Qed.

(** *** The table is a bounded queue of flows *)

Definition table_wf (t : FlowTable) (q : list (FlowKey * FlowStat)) : Prop :=
  fifo (f_map t) (f_order t) q /\ length q <= f_max t /\ 1 <= f_max t.

Lemma flows_new_wf max ttl : table_wf (new max ttl) [].
Proof. split; [apply fifo_empty|]. cbn. lia. Qed.

(** One observed packet: where the flow was known its statistics change in
    place, otherwise it joins the end of the queue. *)
Definition observe_queue (t : FlowTable) (q : list (FlowKey * FlowStat)) (key : FlowKey) (size : nat)
    (now_ms : N) : list (FlowKey * FlowStat) :=
  let q := drop_expired (idle (f_ttl_ms t) now_ms) q in
  match list_find (fun x => x.1 = key) q with
  | Some (_, (_, stat)) =>
      update key (mkFlowStat (ewma (size_f32 size) (ewma_size stat)) (sat_add32 (packets stat) 1)
                    (first_ms stat) now_ms) q
  | None => drop_oldest (f_max t) q ++ [(key, mkFlowStat (size_f32 size) 1 now_ms now_ms)]
  end.

Lemma observe_params t key size now :
  f_max (observe t key size now) = f_max t /\ f_ttl_ms (observe t key size now) = f_ttl_ms t.
Proof.
  unfold observe, evict_expired. destruct evict_loop as [m o]. cbn.
  destruct (m !! key); [done|]. by destruct make_room.
Qed.

Lemma find_in_fifo {V} m order (q : list (FlowKey * V)) key :
  fifo m order q ->
  m !! key = match list_find (fun x => x.1 = key) q with Some (_, (_, v)) => Some v | None => None end.
Proof.
  intros F. destruct (list_find _ _) as [[i [k v]]|] eqn:E.
  - apply list_find_Some in E as (Hi & Hk & _). cbn in Hk. subst k.
    apply (fifo_lookup _ _ _ _ _ F). by eapply list_elem_of_lookup_2.
  - apply list_find_None in E. apply (fifo_none _ _ _ _ F).
    intros (x & -> & Hx)%list_elem_of_fmap. rewrite Forall_forall in E. by apply (E x Hx).
Qed.

Lemma observe_wf t q key size now :
  table_wf t q -> table_wf (observe t key size now) (observe_queue t q key size now).
Proof.
  intros (F & Hl & Hm). unfold table_wf. destruct (observe_params t key size now) as [-> _].
  unfold observe, observe_queue, evict_expired. cbv zeta.
  pose proof (room_for_one (idle (f_ttl_ms t) now) (f_max t) q Hm Hl) as Hroom.
  destruct (drop_expired_suffix (idle (f_ttl_ms t) now) q) as [gone Eq].
  apply (f_equal length) in Eq. rewrite length_app in Eq.
  apply (fifo_evict (idle (f_ttl_ms t) now)) in F. destruct evict_loop as [m o]. cbn in F |- *.
  rewrite (find_in_fifo m o _ key F). set (q' := drop_expired _ q) in *.
  destruct (list_find _ q') as [[i [k stat]]|] eqn:E; cbn.
  - apply list_find_Some in E as (Hi & Hk & _). cbn in Hk. subst k.
    split; [|unfold update; rewrite length_map; lia].
    apply fifo_update; [done|]. apply list_elem_of_lookup_2, (list_elem_of_fmap_2 fst) in Hi. done.
  - assert (key ∉ q'.*1) as Hk.
    { apply (fifo_none _ _ _ _ F). by rewrite (find_in_fifo m o _ key F), E. }
    apply (fifo_room (f_max t)) in F. destruct make_room as [m' o']. cbn in F |- *.
    split; [|rewrite length_app; cbn; lia]. apply fifo_snoc; [done|]. by intros ?%drop_oldest_subset.
Qed.

Definition observation : Type := FlowKey * nat * N.

Definition observe_all (t : FlowTable) (os : list observation) : FlowTable :=
  fold_left (fun t '(key, size, now) => observe t key size now) os t.

(** The flow table stays bounded and consistent.  After any observations
    the map and the order queue hold the same flows, each once, and no more than
    the table's capacity. *)
Theorem flow_table_bounded (max : nat) (ttl : N) (os : list observation) :
  let t := observe_all (new max ttl) os in
  NoDup (f_order t) /\ len t = length (f_order t) /\ len t <= Nat.max max 1 /\
  forall k, is_Some (f_map t !! k) <-> k ∈ f_order t.
Proof.
  assert (exists q, table_wf (observe_all (new max ttl) os) q /\
    f_max (observe_all (new max ttl) os) = Nat.max max 1) as (q & (F & Hl & _) & Hm).
  { unfold observe_all. assert (f_max (new max ttl) = Nat.max max 1) as Hm by done.
    pose proof (flows_new_wf max ttl) as Hw. revert Hw Hm. generalize (@nil (FlowKey * FlowStat)), (new max ttl).
    induction os as [|[[k sz] now] os IH]; intros q t Hw Hm; cbn; [by exists q|].
    apply (IH (observe_queue t q k sz now)); [by apply observe_wf|].
    by destruct (observe_params t k sz now) as [-> _]. }
  cbv zeta. unfold len. rewrite (fifo_size _ _ _ F). pose proof F as (Eo & Hnd & Em).
  rewrite Eo, length_fmap. split_and!; [done|done|lia|]. intros k.
  rewrite <- not_eq_None_Some, (fifo_none _ _ _ k F).
  destruct (decide (k ∈ q.*1)); naive_solver.
Qed.

(** *** A steady flow *)

(** No two consecutive packets are more than [ttl] apart. *)
Fixpoint gaps_ok (ttl last : N) (times : list N) : Prop :=
  match times with
  | [] => True
  | t :: rest => (t - last <= ttl)%N /\ gaps_ok ttl t rest
  end.

Lemma evict_keeps t q key stat now :
  table_wf t q -> f_map t !! key = Some stat -> idle (f_ttl_ms t) now stat = false ->
  f_map (evict_expired t now) !! key = Some stat.
Proof.
  intros (F & _ & _) Hk Hi. unfold evict_expired.
  apply (fifo_lookup _ _ _ _ _ F), list_elem_of_split in Hk as (pre & post & ->).
  apply (fifo_evict (idle (f_ttl_ms t) now)) in F. destruct evict_loop as [m o]. cbn in F |- *.
  apply (fifo_lookup _ _ _ _ _ F).
  destruct (drop_expired_keeps (idle (f_ttl_ms t) now) pre (key, stat) post Hi) as [pre' ->].
  apply elem_of_app. right. by left.
Qed.

Lemma observe_steady t q key size n first last now :
  table_wf t q -> f_map t !! key = Some (mkFlowStat (size_f32 size) n first last) ->
  (now - last <= f_ttl_ms t)%N -> size < 2048 ->
  f_map (observe t key size now) !! key = Some (mkFlowStat (size_f32 size) (sat_add32 n 1) first now).
Proof.
  intros Hw Hk Hgap Hs. unfold observe. cbv zeta.
  rewrite (evict_keeps t q key _ now Hw Hk) by by apply N.ltb_ge. cbn.
  rewrite lookup_insert_eq. by rewrite (proj1 (size_f32_exact size Hs)).
Qed.

Lemma observe_fresh t q key size now :
  table_wf t q -> f_map t !! key = None ->
  f_map (observe t key size now) !! key = Some (mkFlowStat (size_f32 size) 1 now now).
Proof.
  intros (F & _) Hk. unfold observe, evict_expired. cbv zeta.
  apply (fifo_none _ _ _ _ F) in Hk. apply (fifo_evict (idle (f_ttl_ms t) now)) in F.
  destruct evict_loop as [m o]. cbn in F |- *.
  rewrite (proj2 (fifo_none _ _ _ key F)) by (intros ?%drop_expired_subset; done).
  destruct make_room as [m' o']. cbn. apply lookup_insert_eq.
Qed.

Lemma last_shift (l : list N) : forall a d, List.last (a :: l) d = List.last l a.
Proof.
  induction l as [|b l IH]; intros a d; [done|]. change (List.last (b :: l) d = List.last (b :: l) a).
  by rewrite !IH.
Qed.

Lemma observes_steady key size first times : forall t q n prev,
  table_wf t q -> f_map t !! key = Some (mkFlowStat (size_f32 size) n first prev) ->
  gaps_ok (f_ttl_ms t) prev times -> size < 2048 -> (n + N.of_nat (length times) < u32_mod)%N ->
  f_map (observe_all t (map (fun now => (key, size, now)) times)) !! key
    = Some (mkFlowStat (size_f32 size) (n + N.of_nat (length times)) first (List.last times prev)).
Proof.
  induction times as [|now times IH]; intros t q n prev Hw Hk Hg Hs Hn.
  - cbn. rewrite Hk. do 2 f_equal. lia.
  - destruct Hg as [Hgap Hg]. cbn [length] in Hn.
    pose proof (observe_steady t q key size n first prev now Hw Hk Hgap Hs) as Hk'.
    unfold sat_add32, sat_add in Hk'. rewrite N.min_l in Hk' by lia.
    destruct (observe_params t key size now) as [_ Et].
    cbn [map observe_all fold_left]. fold (observe_all (observe t key size now) (map (fun now => (key, size, now)) times)).
    rewrite (IH _ (observe_queue t q key size now) (n + 1)%N now);
      [|by apply observe_wf|done|by rewrite Et|done|lia].
    f_equal. f_equal; [cbn [length]; lia|]. by rewrite last_shift.
Qed.

(** The class a flow of [n] packets of one size, seen from [first] to [last],
    is put in. *)
Definition steady_class (size : nat) (n first last : N) : option FlowClass :=
  if 1000 <? size then Some Bulk
  else if (size <? 256) && (20 * (last - first) <=? n * 1000)%N then Some Realtime
  else None.

(** Steady flows are recognised.  In any well-formed table, a new flow that
    sends four or more packets of one size under 2048 bytes, never idle for
    longer than the time to live, is classified Bulk if its packets exceed 1000
    bytes, Realtime if they are under 256 bytes and come at 20 per second or
    more, and left unclassified otherwise; float rounding does not interfere. *)
Theorem steady_flow_classified (t : FlowTable) (q : list (FlowKey * FlowStat)) (key : FlowKey)
    (size : nat) (first : N) (times : list N) :
  table_wf t q -> f_map t !! key = None -> size < 2048 ->
  3 <= length times -> (1 + N.of_nat (length times) < u32_mod)%N ->
  gaps_ok (f_ttl_ms t) first times -> (20 * (List.last times first - first) < u64_mod)%N ->
  classify (observe_all t (map (fun now => (key, size, now)) (first :: times))) key
    = Ret (steady_class size (1 + N.of_nat (length times)) first (List.last times first)).
Proof.
  intros Hw Hk Hs Hlen Hn Hg Ht. cbn [map observe_all fold_left].
  fold (observe_all (observe t key size first) (map (fun now => (key, size, now)) times)).
  destruct (observe_params t key size first) as [_ Et]. unfold classify.
  rewrite (observes_steady key size first times _ (observe_queue t q key size first) 1 first);
    [|by apply observe_wf|by eapply observe_fresh|by rewrite Et|done|done].
  destruct (size_f32_exact size Hs) as (_ & Hlarge & Hsmall). cbn [packets ewma_size].
  unfold MIN_PACKETS. rewrite (proj2 (N.ltb_ge _ _)) by lia. rewrite Hlarge, Hsmall. unfold steady_class.
  destruct (1000 <? size); [done|]. destruct (size <? 256); [|done]. cbn [andb].
  unfold is_frequent, MIN_RATE_PPS, rassert. cbn [packets first_ms last_ms]. cbv zeta.
  destruct (N.eqb_spec (List.last times first - first) 0) as [->|Hne].
  - cbn [rbind]. by rewrite (proj2 (N.leb_le _ _)) by lia.
  - rewrite (proj2 (N.ltb_lt _ _)) by done. cbn [rbind]. by destruct (_ <=? _)%N.
Qed.

Definition demo_key : FlowKey :=
  mkFlowKey (replicate 16 Byte.x01) (replicate 16 Byte.x02) 1000 5000 Byte.x11.

Lemma steady_flow_classified_witness :
  classify (observe_all (new 1024 10000) (map (fun now => (demo_key, 80, now)) [0; 5; 10; 15]%N)) demo_key
    = Ret (Some Realtime).
Proof.
  apply (steady_flow_classified (new 1024 10000) [] demo_key 80 0 [5; 10; 15]%N).
  - apply flows_new_wf.
  - reflexivity.
  - apply Nat.ltb_lt. reflexivity.
  - apply Nat.leb_le. reflexivity.
  - reflexivity.
  - repeat (split; [vm_compute; discriminate|]). exact I.
  - reflexivity.
Defined.

End Flows.
