(* ===== verification/Classify.v ===== *)
(** * The classifier

    Models yip-transport/src/classify.rs: the parser of inner packets and the
    precedence policy rule, DSCP mark, flow history, default.  The canonical
    flow key identifies a conversation exactly, and the classifier never panics
    on any packet while the clock is in range. *)

From Stdlib Require Strings.Byte.
From Stdlib Require Import NArith ZArith SpecFloat Lia.
From stdpp Require Import base numbers gmap sets list.
From S2P Require Import Prelude FifoMap Fec Adaptive Flow.

Local Open Scope nat_scope.

Record PolicyRule := mkRule {
  rule_proto : option u8;
  rule_dst_port : option N;
  rule_class : FlowClass;
}.

Record Classifier := mkClassifier {
  rules : list PolicyRule;
  flows : FlowTable;
}.

Record Parsed := mkParsed {
  dscp : N;
  key : FlowKey;
}.

Module Classify.

Definition new (rules : list PolicyRule) : Classifier := mkClassifier rules (Flows.new 4096 30000).

(** [ip.get(i..j).map(|b| u16::from_be_bytes([b[0], b[1]])).unwrap_or(0)] *)
Definition port_at (off : nat) (ip : list u8) : N :=
  match slice_opt off (off + 2) ip with
  | Some b => from_be_bytes b
  | None => 0
  end.

(** Ports of a TCP or UDP packet, zero for other protocols. *)
Definition ports (proto : u8) (l4_off : nat) (ip : list u8) : N * N :=
  if (b2n proto =? 6)%N || (b2n proto =? 17)%N
  then (port_at l4_off ip, port_at (l4_off + 2) ip)
  else (0%N, 0%N).

(** An address in the low bytes of a 16-byte array. *)
Definition addr16 (a : list u8) : list u8 := a ++ replicate (16 - length a) Byte.x00.

Definition parse_ipv4 (ip0 : u8) (ip : list u8) : option (N * u8 * nat * list u8 * list u8) :=
  let ihl := N.to_nat (N.land (b2n ip0) 0x0f) * 4 in
  match ip !! 1, ip !! 9, slice_opt 12 16 ip, slice_opt 16 20 ip with
  | Some tos, Some proto, Some src, Some dst =>
      Some (N.shiftr (b2n tos) 2, proto, ihl, addr16 src, addr16 dst)
  | _, _, _, _ => None
  end.

Definition parse_ipv6 (ip0 : u8) (ip : list u8) : option (N * u8 * nat * list u8 * list u8) :=
  match ip !! 1, ip !! 6, slice_opt 8 24 ip, slice_opt 24 40 ip with
  | Some b1, Some proto, Some src, Some dst =>
      let tc := N.lor (N.shiftl (N.land (b2n ip0) 0x0f) 4) (N.shiftr (b2n b1) 4) in
      let dscp := N.shiftr tc 2 in
      if (dscp <? 256)%N then Some (dscp, proto, 40, src, dst) else None
  | _, _, _, _ => None
  end.

(** Strip the Ethernet header of a frame that carries IPv4 or IPv6. *)
Definition ip_of_frame (inner : list u8) (l2 : bool) : option (list u8) :=
  if l2 then
    match inner !! 12, inner !! 13 with
    | Some b12, Some b13 =>
        let ethertype := from_be_bytes [b12; b13] in
        if (ethertype =? 0x0800)%N || (ethertype =? 0x86dd)%N
        then slice_opt 14 (length inner) inner
        else None
    | _, _ => None
    end
  else Some inner.

Definition parse_ip (inner : list u8) (l2 : bool) : option Parsed :=
  match ip_of_frame inner l2 with
  | None => None
  | Some ip =>
      match ip !! 0 with
      | None => None
      | Some ip0 =>
          let version := N.shiftr (b2n ip0) 4 in
          match (if (version =? 4)%N then parse_ipv4 ip0 ip
                 else if (version =? 6)%N then parse_ipv6 ip0 ip else None) with
          | None => None
          | Some (dscp, proto, l4_off, src, dst) =>
              let '(src_port, dst_port) := ports proto l4_off ip in
              Some (mkParsed dscp (mkFlowKey src dst src_port dst_port proto))
          end
      end
  end.

Definition rule_matches (p : Parsed) (r : PolicyRule) : bool :=
  match rule_proto r with None => true | Some x => bool_decide (x = k_proto (key p)) end &&
  match rule_dst_port r with None => true | Some x => (x =? k_dst_port (key p))%N end.

Definition dscp_class (dscp : N) : option FlowClass :=
  if (dscp =? 46)%N || (dscp =? 40)%N || (dscp =? 48)%N || (dscp =? 56)%N then Some Realtime
  else if (dscp =? 8)%N || (dscp =? 10)%N || (dscp =? 12)%N || (dscp =? 14)%N then Some Bulk
  else None.

Definition classify (c : Classifier) (inner : list u8) (l2 : bool) (now_ms : N) :
    run (Classifier * FlowClass) :=
  match parse_ip inner l2 with
  | None => Ret (c, Default)
  | Some p =>
      match List.find (rule_matches p) (rules c) with
      | Some r => Ret (c, rule_class r)
      | None =>
          match dscp_class (dscp p) with
          | Some class => Ret (c, class)
          | None =>
              let canonical := Key.canonical (key p) in
              let flows := Flows.observe (flows c) canonical (length inner) now_ms in
              let! class := Flows.classify flows canonical in
              Ret (mkClassifier (rules c) flows, default Default class)
          end
      end
  end.

Definition observe_ingress (c : Classifier) (inner : list u8) (l2 : bool) (now_ms : N) : Classifier :=
  match parse_ip inner l2 with
  | None => c
  | Some p =>
      mkClassifier (rules c) (Flows.observe (flows c) (Key.canonical (key p)) (length inner) now_ms)
  end.

(** ** The classifier never panics *)

(** The clock values in the table are small enough for the rate test. *)
Definition clock_ok (t : FlowTable) : Prop :=
  forall k s, f_map t !! k = Some s -> (20 * last_ms s < u64_mod)%N.

Lemma observe_clock t k size now :
  clock_ok t -> (20 * now < u64_mod)%N -> clock_ok (Flows.observe t k size now).
Proof.
  intros Hc Hnow. unfold Flows.observe, Flows.evict_expired.
  pose proof (evict_loop_subset (Flows.idle (f_ttl_ms t) now) (f_order t) (f_map t)) as Hs.
  destruct evict_loop as [m o]. cbn in Hs |- *.
  assert (forall k' s, m !! k' = Some s -> (20 * last_ms s < u64_mod)%N) as Hm.
  { intros k' s E. apply (Hc k'). by eapply lookup_weaken. }
  destruct (m !! k) as [st|].
  - intros k' s. cbn. intros [[<- <-]|[_ E]]%lookup_insert_Some; [done|by apply (Hm k')].
  - pose proof (make_room_subset (f_max t) m o) as Hr. destruct make_room as [m' o']. cbn in Hr |- *.
    intros k' s. cbn. intros [[<- <-]|[_ E]]%lookup_insert_Some; [done|]. apply (Hm k'). by eapply lookup_weaken.
Qed.

Lemma flows_classify_ok t k : clock_ok t -> exists r, Flows.classify t k = Ret r.
Proof.
  intros Hc. unfold Flows.classify. destruct (f_map t !! k) as [s|] eqn:E; [|eauto].
  destruct (_ <? _)%N; [eauto|]. destruct (SFltb _ _); [eauto|]. destruct (SFltb _ _); [|eauto].
  unfold Flows.is_frequent, MIN_RATE_PPS, rassert. cbv zeta.
  destruct (_ =? _)%N; [cbn; eauto|]. pose proof (Hc k s E).
  rewrite (proj2 (N.ltb_lt _ _)) by lia. cbn [rbind]. destruct (_ <=? _)%N; eauto.
Qed.

Lemma classify_ok c inner l2 now :
  clock_ok (flows c) -> (20 * now < u64_mod)%N ->
  exists c' class, classify c inner l2 now = Ret (c', class) /\ clock_ok (flows c') /\ rules c' = rules c.
Proof.
  intros Hc Hnow. unfold classify. destruct (parse_ip inner l2) as [p|]; [|eauto].
  destruct (List.find _ _); [eauto|]. destruct (dscp_class _); [eauto|]. cbv zeta.
  pose proof (observe_clock (flows c) (Key.canonical (key p)) (length inner) now Hc Hnow) as Hc'.
  destruct (flows_classify_ok _ (Key.canonical (key p)) Hc') as [r ->]. cbn [rbind]. eauto.
Qed.

Lemma observe_ingress_ok c inner l2 now :
  clock_ok (flows c) -> (20 * now < u64_mod)%N ->
  clock_ok (flows (observe_ingress c inner l2 now)) /\ rules (observe_ingress c inner l2 now) = rules c.
Proof.
  intros Hc Hnow. unfold observe_ingress. destruct (parse_ip inner l2); [|done].
  split; [|done]. by apply observe_clock.
Qed.

Lemma clock_new rs : clock_ok (flows (new rs)).
Proof. intros k s. cbn. by rewrite lookup_empty. Qed.

(** A packet, in either direction. *)
Inductive packet := Egress (inner : list u8) (l2 : bool) (now : N) | Ingress (inner : list u8) (l2 : bool) (now : N).

Definition packet_time (p : packet) : N := match p with Egress _ _ now | Ingress _ _ now => now end.

Definition handle (c : Classifier) (p : packet) : run Classifier :=
  match p with
  | Egress inner l2 now => let! ' (c, _) := classify c inner l2 now in Ret c
  | Ingress inner l2 now => Ret (observe_ingress c inner l2 now)
  end.

(** No packet makes the classifier panic.  Under any policy and any
    sequence of packets, truncated and malformed ones included, classification
    returns a class, as long as the millisecond clock stays below 2^64 / 20. *)
Theorem classifier_total (rs : list PolicyRule) (ps : list packet) :
  Forall (fun p => (20 * packet_time p < u64_mod)%N) ps ->
  exists c, rfold handle ps (new rs) = Ret c /\ rules c = rs.
Proof.
  intros Hps. assert (exists c, rfold handle ps (new rs) = Ret c /\ clock_ok (flows c) /\ rules c = rules (new rs))
    as (c & E & _ & Er); [|eauto].
  generalize (clock_new rs). generalize (new rs). induction Hps as [|p ps Hp _ IH]; intros c Hc; cbn [rfold]; [eauto|].
  destruct p as [inner l2 now|inner l2 now]; cbn [handle packet_time] in *.
  - destruct (classify_ok c inner l2 now Hc Hp) as (c' & class & -> & Hc' & <-). cbn [rbind]. by apply IH.
  - destruct (observe_ingress_ok c inner l2 now Hc Hp) as [Hc' <-]. cbn [rbind]. by apply IH.
Qed.

Lemma classifier_total_witness :
  exists c, rfold handle [Egress (replicate 24 Byte.x45) false 10; Ingress [Byte.x60] true 20] (new [])
    = Ret c /\ rules c = [].
Proof.
  apply (classifier_total [] [Egress (replicate 24 Byte.x45) false 10; Ingress [Byte.x60] true 20]).
  repeat (constructor; [reflexivity|]). constructor.
Defined.

End Classify.
