(* ===== verification/Transport.v ===== *)
(** * The FEC transport

    Models [Transport] of yip-transport/src/lib.rs, which puts the classifier,
    the encoder, one redundancy controller per class and one reassembler per
    class together.  The theorems carry the delivery contract of the object
    layer over to a pair of transports. *)

From Stdlib Require Strings.Byte.
From Stdlib Require Import NArith ZArith SpecFloat Lia.
From stdpp Require Import base numbers gmap sets list.
From S2P Require Import Prelude Gf256 RsSimd LinAlg Rs RsMds RsDecode RsReconstruct.
From S2P Require Import ObjTable Fec FecEncode FecWf FecDelivery Adaptive Flow Classify.

Local Open Scope nat_scope.

Definition object_table : Type := Table.ObjectTable ObjState.

Record Transport := mkTransport {
  classifier : Classifier;
  encoder : FecEncoder;
  controllers : list AdaptiveController;
  reassemblers : gmap nat (FecReassembler object_table);
  t_symbol_size : N;
}.

Module Tp.

Section transport.
Context {cpu : Cpu}.

Definition new (rules : list PolicyRule) (symbol_size : N) : Transport :=
  mkTransport (Classify.new rules) encoder_new
    [Adaptive.new_for (params Realtime); Adaptive.new_for (params Bulk); Adaptive.new_for (params Default)]
    ∅ symbol_size.

(** [shard_id as u16], [num_shards as u16] *)
Definition set_shard (t : Transport) (shard_id num_shards : N) : Transport :=
  mkTransport (classifier t) (Fec.set_shard (encoder t) (wrap16 shard_id) (wrap16 num_shards))
    (controllers t) (reassemblers t) (t_symbol_size t).

Definition set_symbol_size (t : Transport) (symbol_size : N) : Transport :=
  mkTransport (classifier t) (encoder t) (controllers t)
    ((fun re => Fec.set_symbol_size re symbol_size) <$> reassemblers t) symbol_size.

Definition params_for (t : Transport) (class : FlowClass) : FlowParams :=
  let p := params class in
  mkFlowParams (t_symbol_size t) (initial_repair_ratio p) (deadline_ms p) (arq p).

(** [ciphertext.len().div_ceil(symbol_size)] as a u32, at least one. *)
Definition source_symbols (len : nat) (symbol_size : N) : run N :=
  if (symbol_size =? 0)%N then Panic
  else
  let n := N.of_nat ((len + N.to_nat symbol_size - 1) / N.to_nat symbol_size) in
  Ret (N.max (if (n <? u32_mod)%N then n else u32_mod - 1) 1).

Definition encode (t : Transport) (ciphertext inner : list u8) (l2 : bool) (now_ms : N) :
    run (Transport * (FlowClass * list Symbol)) :=
  let! ' (cls, class) := Classify.classify (classifier t) inner l2 now_ms in
  let p := params_for t class in
  let! source := source_symbols (length ciphertext) (symbol_size p) in
  let! ctl := rexpect (controllers t !! class_index class) in
  let repair := Adaptive.repair_count ctl source in
  let! ' (syms, enc) := Fec.encode (encoder t) ciphertext p repair in
  Ret (mkTransport cls enc (controllers t) (reassemblers t) (t_symbol_size t), (class, syms)).

(** The class's reassembler, made on first use. *)
Definition reassembler_for (t : Transport) (class : FlowClass) : FecReassembler object_table :=
  match reassemblers t !! class_index class with
  | Some re => re
  | None => reassembler_new (t_symbol_size t) 256
  end.

Definition decode (t : Transport) (object_key : N) (symbol : Symbol) (class : FlowClass) (now_ms : N) :
    run (Transport * option (list u8)) :=
  let p := params_for t class in
  let! ' (re, out) := push (reassembler_for t class) object_key symbol now_ms (deadline_ms p) in
  Ret (mkTransport (classifier t) (encoder t) (controllers t)
         (<[class_index class := re]> (reassemblers t)) (t_symbol_size t), out).

Definition observe_ingress (t : Transport) (inner : list u8) (l2 : bool) (now_ms : N) : Transport :=
  mkTransport (Classify.observe_ingress (classifier t) inner l2 now_ms) (encoder t) (controllers t)
    (reassemblers t) (t_symbol_size t).

Definition repair_object (t : Transport) (ciphertext : list u8) (class : FlowClass)
    (object_id extra_repair : N) : run (Transport * list Symbol) :=
  let p := params_for t class in
  let! ' (syms, enc) := repair_with_id (encoder t) ciphertext p object_id extra_repair in
  Ret (mkTransport (classifier t) enc (controllers t) (reassemblers t) (t_symbol_size t), syms).

Definition observe_loss (t : Transport) (class : FlowClass) (loss : spec_float) : run Transport :=
  let! ctl := rexpect (controllers t !! class_index class) in
  Ret (mkTransport (classifier t) (encoder t)
         (<[class_index class := Adaptive.observe_loss ctl loss]> (controllers t))
         (reassemblers t) (t_symbol_size t)).

Definition set_fec_repair_ratio (t : Transport) (r : spec_float) : Transport :=
  mkTransport (classifier t) (encoder t)
    (map (fun c => Adaptive.set_min_ratio (Adaptive.set_ratio c r) r) (controllers t))
    (reassemblers t) (t_symbol_size t).

(** ** Well-formed transports *)

Record wf (t : Transport) : Prop := {
  wf_symbol : t_symbol_size t <> 0%N;
  wf_clock : Classify.clock_ok (flows (classifier t));
  wf_ctl : length (controllers t) = 3;
  wf_re : forall i re, reassemblers t !! i = Some re -> re_wf re /\ re_symbol_size re = t_symbol_size t;
}.

Lemma class_index_lt class : class_index class < 3.
Proof. destruct class; cbn; lia. Qed.

Lemma tp_new_wf rules sym : sym <> 0%N -> wf (new rules sym).
Proof.
  intros H. split; cbn; [done|apply (Classify.clock_new rules)|done|]. intros i re. by rewrite lookup_empty.
Qed.

Lemma reassembler_for_wf t class :
  wf t -> re_wf (reassembler_for t class) /\ re_symbol_size (reassembler_for t class) = t_symbol_size t.
Proof.
  intros [_ _ _ Hre]. unfold reassembler_for. destruct (reassemblers t !! _) eqn:E; [by eapply Hre|].
  split; [apply reassembler_new_wf|done].
Qed.

Lemma decode_ok t key s class now :
  wf t -> exists t' out, decode t key s class now = Ret (t', out) /\ wf t' /\
    t_symbol_size t' = t_symbol_size t /\ classifier t' = classifier t /\
    reassembler_for t' class = (match push (reassembler_for t class) key s now (deadline_ms (params class)) with
                                | Ret (re, _) => re | Panic => reassembler_for t class end) /\
    (forall o, out = Some o -> length o = N.to_nat (object_size s)).
Proof.
  intros Hwf. destruct (reassembler_for_wf t class Hwf) as [Hr Hs].
  destruct (push_ok (reassembler_for t class) key s now (deadline_ms (params class)) Hr)
    as (re' & out & Hp & Hwf' & Hsz & _ & _ & Hlen).
  unfold decode. cbn [params_for deadline_ms]. rewrite Hp. cbn [rbind].
  eexists _, _. split; [reflexivity|]. split.
  - destruct Hwf as [H1 H2 H3 H4]. split; cbn; try done.
    intros i re [[<- <-]|[_ E]]%lookup_insert_Some; [|by apply (H4 i)]. split; [done|congruence].
  - unfold reassembler_for at 1. cbn. rewrite lookup_insert_eq. split_and!; done.
Qed.

(** Decoding a symbol steps the reassembler of its class. *)
Lemma decode_steps t key s class now t' out :
  decode t key s class now = Ret (t', out) ->
  exists re', push (reassembler_for t class) key s now (deadline_ms (params class)) = Ret (re', out) /\
    reassembler_for t' class = re' /\
    forall class', class' <> class -> reassembler_for t' class' = reassembler_for t class'.
Proof.
  unfold decode. cbn [params_for deadline_ms].
  destruct (push _ _ _ _ _) as [[re o]|]; [|done]. cbn [rbind]. intros [= <- <-]. exists re. split; [done|].
  unfold reassembler_for at 1. cbn. rewrite lookup_insert_eq. split; [done|]. intros class' Hne.
  unfold reassembler_for. cbn. by rewrite lookup_insert_ne by (destruct class, class'; cbn; congruence).
Qed.

Lemma source_symbols_ok len sym : sym <> 0%N -> exists n, source_symbols len sym = Ret n.
Proof. intros H. unfold source_symbols. rewrite (proj2 (N.eqb_neq _ _)) by done. eauto. Qed.

(** Encoding, with the symbols it produces. *)
Lemma encode_ok t ct inner l2 now :
  wf t -> (20 * now < u64_mod)%N -> (N.of_nat (length ct) < u32_mod)%N ->
  exists t' class repair syms, encode t ct inner l2 now = Ret (t', (class, syms)) /\ wf t' /\
    t_symbol_size t' = t_symbol_size t /\ reassemblers t' = reassemblers t /\
    build ct (params_for t class) (next_object_id (encoder t)) repair = Ret syms.
Proof.
  intros [H1 H2 H3 H4] Hnow Hct. unfold encode.
  destruct (Classify.classify_ok (classifier t) inner l2 now H2 Hnow) as (cls & class & -> & Hcls & _).
  cbn [rbind]. destruct (source_symbols_ok (length ct) (symbol_size (params_for t class)) H1) as [n ->]. cbn [rbind].
  destruct (lookup_lt_is_Some_2 (controllers t) (class_index class)) as [ctl ->];
    [rewrite H3; apply class_index_lt|]. cbn [rexpect rbind].
  destruct (build_total ct (params_for t class) (next_object_id (encoder t))
    (Adaptive.repair_count ctl n) Hct) as [syms Hb].
  unfold Fec.encode. rewrite Hb. cbn [rbind]. eexists _, class, (Adaptive.repair_count ctl n), _.
  split; [reflexivity|]. split_and!; [split; done|done|done|exact Hb].
Qed.

Lemma repair_object_ok t ct class oid extra :
  wf t -> (N.of_nat (length ct) < u32_mod)%N ->
  exists t' syms, repair_object t ct class oid extra = Ret (t', syms) /\ wf t' /\
    t_symbol_size t' = t_symbol_size t /\ reassemblers t' = reassemblers t /\
    build ct (params_for t class) oid extra = Ret syms.
Proof.
  intros Hwf Hct. unfold repair_object, repair_with_id.
  destruct (build_total ct (params_for t class) oid extra Hct) as [syms Hb].
  rewrite Hb. cbn [rbind]. eexists _, _. split; [done|]. destruct Hwf. by split_and!.
Qed.

Lemma observe_loss_ok t class loss :
  wf t -> exists t', observe_loss t class loss = Ret t' /\ wf t' /\ t_symbol_size t' = t_symbol_size t.
Proof.
  intros [H1 H2 H3 H4]. unfold observe_loss.
  destruct (lookup_lt_is_Some_2 (controllers t) (class_index class)) as [ctl ->];
    [rewrite H3; apply class_index_lt|]. cbn [rexpect rbind]. eexists. split; [done|].
  split; [|done]. split; cbn; try done. by rewrite length_insert.
Qed.

Lemma observe_ingress_wf t inner l2 now :
  wf t -> (20 * now < u64_mod)%N -> wf (observe_ingress t inner l2 now).
Proof.
  intros [H1 H2 H3 H4] Hnow. split; cbn; try done. by apply Classify.observe_ingress_ok.
Qed.

Lemma set_symbol_size_wf t s : wf t -> s <> 0%N -> wf (set_symbol_size t s).
Proof.
  intros [H1 H2 H3 H4] Hs. split; cbn; try done.
  intros i re. rewrite lookup_fmap. intros (re0 & Hre & ->)%fmap_Some.
  destruct (H4 i re0 Hre) as [Hw _]. split; [exact Hw|done].
Qed.

Lemma set_fec_repair_ratio_wf t r : wf t -> wf (set_fec_repair_ratio t r).
Proof. intros [H1 H2 H3 H4]. split; cbn; try done. by rewrite length_map. Qed.

Lemma set_shard_wf t i n : wf t -> wf (set_shard t i n).
Proof. intros []. by split. Qed.

End transport.

(** ** Two ends that disagree on the symbol size

    The symbol size travels neither in a symbol nor in its frame: each end
    uses its own [t_symbol_size].  After the path MTU controller of one end has
    grown its size, an object whose length lies between the two sizes is one
    source symbol to the sender and two to the receiver, which drops every
    symbol of it. *)

Definition outputs (t : Transport) (key : N) (class : FlowClass) (syms : list Symbol) : list (option (list u8)) :=
  (foldl (fun '(t, outs) s =>
      match decode (cpu := demo_cpu) t key s class 0 with
      | Ret (t', o) => (t', outs ++ [o])
      | Panic => (t, outs)
      end) (t, []) syms).2.

Definition mismatch_object : list u8 := replicate 1266 Byte.x2a.

(** The object is sent in three symbols; a receiver with the sender's size
    outputs it at the first one, a receiver with the floor size never does. *)
Lemma mismatched_sizes_lose_object :
  match repair_object (cpu := demo_cpu) (new [] 1320) mismatch_object Bulk 0 2 with
  | Ret (_, syms) =>
      length syms = 3 /\
      outputs (new [] 1320) 7 Bulk syms = [Some mismatch_object; None; None] /\
      outputs (new [] 1120) 7 Bulk syms = [None; None; None]
  | Panic => False
  end.
Proof. vm_compute. done. Qed.

End Tp.
