(* ===== verification/MacTable.v ===== *)
(** * The MAC learning table

    Models bin/yipd/src/mac_table.rs: a bounded table of learned Ethernet
    addresses with a recency list threaded through a slab of nodes.  The slab is
    a list of nodes indexed by slot, links are slots ([None] for the sentinel
    [NIL]), and indexing out of the slab panics.  The table refines a plain list
    of entries, most recently learned first. *)

From Stdlib Require Strings.Byte.
From Stdlib Require Import NArith Lia.
From stdpp Require Import base numbers gmap sets list.
From S2P Require Import Prelude.

Local Open Scope nat_scope.

Definition DEFAULT_MAC_TABLE_CAPACITY : nat := Eval vm_compute in 64 * 64.
Definition DEFAULT_MAC_TABLE_TTL_MS : N := 300000.

Inductive LearnOrigin := Peer | LocalTap.

Record MacEntry := mkMacEntry { peer_id : N; last_seen_ms : N; origin : LearnOrigin }.

Record Node := mkNode { n_mac : list u8; n_entry : MacEntry; n_prev : option nat; n_next : option nat }.

Record MacTable := mkMacTable {
  capacity : nat;
  mac_ttl_ms : N;
  index : gmap (list u8) nat;
  nodes : list Node;
  free : list nat;
  head_ : option nat;
  tail_ : option nat;
}.

Module Mac.

Definition new (capacity : nat) (ttl_ms : N) : MacTable := mkMacTable capacity ttl_ms ∅ [] [] None None.

Definition is_learnable_source_mac (mac : list u8) : bool :=
  negb (bool_decide (mac = replicate 6 Byte.x00)) && negb (bool_decide (mac = replicate 6 Byte.xff)) &&
  match mac with b0 :: _ => (N.land (b2n b0) 1 =? 0)%N | [] => true end.

(** *** Links *)

Definition with_links (t : MacTable) (ns : list Node) (h l : option nat) : MacTable :=
  mkMacTable (capacity t) (mac_ttl_ms t) (index t) ns (free t) h l.

(** [self.nodes[slot]] read, and a field of it assigned. *)
Definition node_at (ns : list Node) (slot : nat) : run Node := rexpect (ns !! slot).

Definition set_prev (ns : list Node) (slot : nat) (p : option nat) : run (list Node) :=
  let! n := node_at ns slot in Ret (<[slot := mkNode (n_mac n) (n_entry n) p (n_next n)]> ns).

Definition set_next (ns : list Node) (slot : nat) (q : option nat) : run (list Node) :=
  let! n := node_at ns slot in Ret (<[slot := mkNode (n_mac n) (n_entry n) (n_prev n) q]> ns).

Definition set_entry (ns : list Node) (slot : nat) (e : MacEntry) : run (list Node) :=
  let! n := node_at ns slot in Ret (<[slot := mkNode (n_mac n) e (n_prev n) (n_next n)]> ns).

Definition unlink (t : MacTable) (slot : nat) : run MacTable :=
  let! node := node_at (nodes t) slot in
  let prev := n_prev node in
  let next := n_next node in
  let! ' (ns, h) := match prev with
                    | Some p => let! ns := set_next (nodes t) p next in Ret (ns, head_ t)
                    | None => Ret (nodes t, next)
                    end in
  let! ' (ns, l) := match next with
                    | Some n => let! ns := set_prev ns n prev in Ret (ns, tail_ t)
                    | None => Ret (ns, prev)
                    end in
  let! ns := set_prev ns slot None in
  let! ns := set_next ns slot None in
  Ret (with_links t ns h l).

Definition push_front (t : MacTable) (slot : nat) : run MacTable :=
  let! ns := set_prev (nodes t) slot None in
  let! ns := set_next ns slot (head_ t) in
  let! ns := match head_ t with
             | Some h => set_prev ns h (Some slot)
             | None => Ret ns
             end in
  Ret (with_links t ns (Some slot) (match tail_ t with None => Some slot | l => l end)).

Definition move_to_front (t : MacTable) (slot : nat) : run MacTable :=
  if decide (head_ t = Some slot) then Ret t
  else
  let! t := unlink t slot in
  push_front t slot.

(** *** The slab *)

Definition alloc (t : MacTable) (mac : list u8) (entry : MacEntry) : run (MacTable * nat) :=
  let node := mkNode mac entry None None in
  match last (free t) with
  | Some slot =>
      let! _ := node_at (nodes t) slot in
      Ret (mkMacTable (capacity t) (mac_ttl_ms t) (index t) (<[slot := node]> (nodes t))
             (removelast (free t)) (head_ t) (tail_ t), slot)
  | None =>
      Ret (mkMacTable (capacity t) (mac_ttl_ms t) (index t) (nodes t ++ [node]) (free t) (head_ t) (tail_ t),
           length (nodes t))
  end.

Definition remove (t : MacTable) (mac : list u8) : run MacTable :=
  match index t !! mac with
  | None => Ret t
  | Some slot =>
      let! t := unlink (mkMacTable (capacity t) (mac_ttl_ms t) (delete mac (index t)) (nodes t) (free t)
                          (head_ t) (tail_ t)) slot in
      Ret (mkMacTable (capacity t) (mac_ttl_ms t) (index t) (nodes t) (free t ++ [slot]) (head_ t) (tail_ t))
  end.

Definition evict_tail (t : MacTable) : run MacTable :=
  match tail_ t with
  | None => Ret t
  | Some l => let! n := node_at (nodes t) l in remove t (n_mac n)
  end.

Definition learn (t : MacTable) (src_mac : list u8) (peer : N) (o : LearnOrigin) (now_ms : N) : run MacTable :=
  if negb (is_learnable_source_mac src_mac) || (capacity t =? 0) then Ret t
  else
  let entry := mkMacEntry peer now_ms o in
  match index t !! src_mac with
  | Some slot =>
      let! ns := set_entry (nodes t) slot entry in
      move_to_front (with_links t ns (head_ t) (tail_ t)) slot
  | None =>
      let! t := if capacity t <=? size (index t) then evict_tail t else Ret t in
      let! ' (t, slot) := alloc t src_mac entry in
      push_front (mkMacTable (capacity t) (mac_ttl_ms t) (<[src_mac := slot]> (index t)) (nodes t) (free t)
                    (head_ t) (tail_ t)) slot
  end.

Definition expired (ttl_ms now_ms : N) (e : MacEntry) : bool := (ttl_ms <? now_ms - last_seen_ms e)%N.

Definition lookup (t : MacTable) (mac : list u8) (now_ms : N) : run (option MacEntry) :=
  match index t !! mac with
  | None => Ret None
  | Some slot =>
      let! n := node_at (nodes t) slot in
      Ret (if expired (mac_ttl_ms t) now_ms (n_entry n) then None else Some (n_entry n))
  end.

(** The expired addresses are collected in the hash map's iteration order
    [entries], which is any order. *)
Definition sweep (entries : list (list u8 * nat)) (t : MacTable) (now_ms : N) : run MacTable :=
  let! marks := rmap (fun '(mac, slot) =>
                        let! n := node_at (nodes t) slot in
                        Ret (mac, expired (mac_ttl_ms t) now_ms (n_entry n))) entries in
  rfold remove (map fst (List.filter snd marks)) t.

(** ** Chains of nodes *)

(** First and last slot of a list, with a default for the empty one. *)
Definition hd (next : option nat) (l : list nat) : option nat := match l with x :: _ => Some x | [] => next end.
Definition lst (prev : option nat) (l : list nat) : option nat := match last l with Some x => Some x | None => prev end.

(** The nodes [l] are linked in order, between [prev] and [next]. *)
Fixpoint seg (ns : list Node) (prev : option nat) (l : list nat) (next : option nat) : Prop :=
  match l with
  | [] => True
  | s :: rest =>
      (exists n, ns !! s = Some n /\ n_prev n = prev /\ n_next n = hd next rest) /\ seg ns (Some s) rest next
  end.

Lemma lst_cons prev x l : lst prev (x :: l) = lst (Some x) l.
Proof. unfold lst. rewrite last_cons. by destruct (last l). Qed.

Lemma lst_snoc prev l x : lst prev (l ++ [x]) = Some x.
Proof. unfold lst. by rewrite last_snoc. Qed.

Lemma seg_app ns a : forall prev b next,
  seg ns prev (a ++ b) next <-> seg ns prev a (hd next b) /\ seg ns (lst prev a) b next.
Proof.
  induction a as [|x a IH]; intros prev b next; [cbn; tauto|].
  cbn [app seg]. rewrite IH, lst_cons. replace (hd next (a ++ b)) with (hd (hd next b) a) by (by destruct a). tauto.
Qed.

Lemma seg_ext ns ns' l : forall prev next,
  (forall s, s ∈ l -> ns' !! s = ns !! s) -> seg ns prev l next -> seg ns' prev l next.
Proof.
  induction l as [|x l IH]; intros prev next H; [done|]. intros [(n & Hn & ?) Hs]. split.
  - exists n. by rewrite H by left.
  - apply IH; [|done]. intros s Hs'. apply H. by right.
Qed.

(** What an address and its entry are is not touched by links. *)
Definition data (ns : list Node) (s : nat) : option (list u8 * MacEntry) :=
  (fun n => (n_mac n, n_entry n)) <$> ns !! s.

(** [ns'] differs from [ns] only in links, and only at slots in [touched]. *)
Definition relinked (ns ns' : list Node) (touched : nat -> Prop) : Prop :=
  length ns' = length ns /\ (forall s, data ns' s = data ns s) /\
  (forall s, ~ touched s -> ns' !! s = ns !! s).

Lemma relinked_refl ns P : relinked ns ns P.
Proof. done. Qed.

Lemma relinked_trans ns1 ns2 ns3 P Q :
  relinked ns1 ns2 P -> relinked ns2 ns3 Q -> relinked ns1 ns3 (fun s => P s \/ Q s).
Proof.
  intros (L1 & D1 & E1) (L2 & D2 & E2). split_and!; [congruence|intros s; by rewrite D2|].
  intros s Hs. rewrite E2, E1; tauto.
Qed.

Lemma set_link ns s n f :
  ns !! s = Some n -> n_mac (f n) = n_mac n -> n_entry (f n) = n_entry n ->
  relinked ns (<[s := f n]> ns) (fun x => x = s) /\ <[s := f n]> ns !! s = Some (f n).
Proof.
  intros Hn Hm He. pose proof (lookup_lt_Some _ _ _ Hn) as Hlt. split.
  - split_and!.
    + by rewrite length_insert.
    + intros x. unfold data. destruct (decide (x = s)) as [->|Hne].
      * rewrite list_lookup_insert_eq, Hn by done. cbn. by rewrite Hm, He.
      * by rewrite list_lookup_insert_ne by congruence.
    + intros x Hx. by rewrite list_lookup_insert_ne by congruence.
  - by rewrite list_lookup_insert_eq.
Qed.

Lemma set_next_ok ns s n q :
  ns !! s = Some n -> exists ns', set_next ns s q = Ret ns' /\ relinked ns ns' (fun x => x = s) /\
    ns' !! s = Some (mkNode (n_mac n) (n_entry n) (n_prev n) q).
Proof.
  intros Hn. unfold set_next, node_at. rewrite Hn. cbn. eexists. split; [done|].
  by apply (set_link ns s n (fun n => mkNode (n_mac n) (n_entry n) (n_prev n) q)).
Qed.

Lemma set_prev_ok ns s n p :
  ns !! s = Some n -> exists ns', set_prev ns s p = Ret ns' /\ relinked ns ns' (fun x => x = s) /\
    ns' !! s = Some (mkNode (n_mac n) (n_entry n) p (n_next n)).
Proof.
  intros Hn. unfold set_prev, node_at. rewrite Hn. cbn. eexists. split; [done|].
  by apply (set_link ns s n (fun n => mkNode (n_mac n) (n_entry n) p (n_next n))).
Qed.

(** Point the last node of a chain, or the first one, elsewhere. *)
Lemma relink_last ns prev l x next q :
  NoDup (l ++ [x]) -> seg ns prev (l ++ [x]) next ->
  exists ns', set_next ns x q = Ret ns' /\ seg ns' prev (l ++ [x]) q /\ relinked ns ns' (fun s => s = x).
Proof.
  intros Hnd Hs. pose proof Hs as [Hl [(n & Hn & Hp & _) _]]%seg_app.
  destruct (set_next_ok ns x n q Hn) as (ns' & E & R & Hx). exists ns'. split_and!; [done| |done].
  apply seg_app. split.
  - cbn in Hl |- *. eapply seg_ext; [|exact Hl]. intros s Hs'. apply R. intros ->.
    apply NoDup_app in Hnd as (_ & Hd & _). apply (Hd x Hs'). by left.
  - cbn. split; [|done]. by eexists.
Qed.

Lemma relink_first ns prev x l next p :
  NoDup (x :: l) -> seg ns prev (x :: l) next ->
  exists ns', set_prev ns x p = Ret ns' /\ seg ns' p (x :: l) next /\ relinked ns ns' (fun s => s = x).
Proof.
  intros [Hx Hnd]%NoDup_cons [(n & Hn & Hp & Hnx) Hs].
  destruct (set_prev_ok ns x n p Hn) as (ns' & E & R & Hx'). exists ns'. split_and!; [done| |done].
  split; [by eexists|]. eapply seg_ext; [|exact Hs]. intros s Hs'. apply R. congruence.
Qed.

(** The recency list of the table is [l], front to back. *)
Definition listed (t : MacTable) (l : list nat) : Prop :=
  NoDup l /\ seg (nodes t) None l None /\ head_ t = hd None l /\ tail_ t = lst None l.

Lemma relinked_weaken ns ns' (P Q : nat -> Prop) :
  (forall s, P s -> Q s) -> relinked ns ns' P -> relinked ns ns' Q.
Proof. intros H (? & ? & E). split_and!; try done. intros s Hs. apply E. auto. Qed.

(** The left neighbour of [s], or the head, is made to skip it. *)
Lemma unlink_left t pre s post :
  listed t (pre ++ s :: post) ->
  exists ns, (match lst None pre with
              | Some p => let! ns := set_next (nodes t) p (hd None post) in Ret (ns, head_ t)
              | None => Ret (nodes t, hd None post)
              end) = Ret (ns, hd None (pre ++ post)) /\
    seg ns None pre (hd None post) /\ relinked (nodes t) ns (fun x => x ∈ pre).
Proof.
  intros (Hnd & Hs & Hh & _). apply seg_app in Hs as [Hpre _].
  destruct pre as [|p pre] using rev_ind.
  - exists (nodes t). cbn. split_and!; done.
  - rewrite lst_snoc. cbn [hd] in Hpre.
    destruct (relink_last (nodes t) None pre p (Some s) (hd None post)) as (ns & E & Hs' & R); [|done|].
    { by apply NoDup_app in Hnd as (? & _). }
    rewrite E. cbn. exists ns. split_and!; [|done|eapply relinked_weaken; [|exact R]; intros x ->; set_solver].
    rewrite Hh. by destruct pre.
Qed.

(** The same on the right. *)
Lemma unlink_right t ns pre s post :
  listed t (pre ++ s :: post) -> seg ns (Some s) post None ->
  exists ns', (match hd None post with
               | Some n => let! ns := set_prev ns n (lst None pre) in Ret (ns, tail_ t)
               | None => Ret (ns, lst None pre)
               end) = Ret (ns', lst None (pre ++ post)) /\
    seg ns' (lst None pre) post None /\ relinked ns ns' (fun x => x ∈ post).
Proof.
  intros (Hnd & _ & _ & Ht) Hs. destruct post as [|n post].
  - exists ns. rewrite app_nil_r. done.
  - cbn [hd]. destruct (relink_first ns (Some s) n post None (lst None pre)) as (ns' & E & Hs' & R); [|done|].
    { apply NoDup_app in Hnd as (_ & _ & Hnd). by apply NoDup_cons in Hnd as [_ ?]. }
    rewrite E. cbn [rbind]. exists ns'. split_and!; [|done|eapply relinked_weaken; [|exact R]; intros x ->; set_solver].
    rewrite Ht. do 2 f_equal. unfold lst. rewrite !last_app, !last_cons. by destruct (last post).
Qed.

Lemma unlink_ok t pre s post :
  listed t (pre ++ s :: post) ->
  exists ns, unlink t s = Ret (with_links t ns (hd None (pre ++ post)) (lst None (pre ++ post))) /\
    NoDup (pre ++ post) /\ (s ∉ pre ++ post) /\ seg ns None (pre ++ post) None /\
    relinked (nodes t) ns (fun x => x ∈ pre ++ s :: post).
Proof.
  intros Hl. pose proof Hl as (Hnd & Hseg & _ & _).
  assert ((s ∉ pre ++ post) /\ NoDup (pre ++ post)) as [Hs Hnd'].
  { apply (NoDup_cons s (pre ++ post)). by rewrite Permutation_middle. }
  apply seg_app in Hseg as [Hpre [(n & Hn & Hp & Hnx) Hpost]].
  destruct (unlink_left t pre s post Hl) as (ns1 & E1 & Hpre1 & R1).
  assert (seg ns1 (Some s) post None) as Hpost1.
  { eapply seg_ext; [|exact Hpost]. intros x Hx. apply R1. intros Hx'.
    apply NoDup_app in Hnd' as (_ & Hd & _). by apply (Hd x). }
  destruct (unlink_right t ns1 pre s post Hl Hpost1) as (ns2 & E2 & Hpost2 & R2).
  assert (ns2 !! s = Some n) as Hs2.
  { rewrite (proj2 (proj2 R2)), (proj2 (proj2 R1)); [done| |]; set_solver. }
  destruct (set_prev_ok ns2 s n None Hs2) as (ns3 & E3 & R3 & Hs3).
  destruct (set_next_ok ns3 s _ None Hs3) as (ns4 & E4 & R4 & _).
  exists ns4. unfold unlink, node_at. rewrite Hn. cbn [rexpect rbind]. cbv zeta. rewrite Hp, Hnx.
  rewrite E1. cbn [rbind]. rewrite E2. cbn [rbind]. rewrite E3. cbn [rbind]. rewrite E4. cbn [rbind].
  pose proof (relinked_trans _ _ _ _ _ R3 R4) as R34. split_and!; try done.
  - eapply (seg_ext ns2); [intros x Hx; apply R34; set_solver|]. apply seg_app. split; [|done].
    eapply (seg_ext ns1); [|exact Hpre1]. intros x Hx. apply R2. intros Hx'.
    apply NoDup_app in Hnd' as (_ & Hd & _). by apply (Hd x).
  - eapply relinked_weaken; [|exact (relinked_trans _ _ _ _ _ (relinked_trans _ _ _ _ _ R1 R2) R34)]. set_solver.
Qed.

Lemma push_front_ok t s l n :
  listed t l -> s ∉ l -> nodes t !! s = Some n ->
  exists ns, push_front t s = Ret (with_links t ns (hd None (s :: l)) (lst None (s :: l))) /\
    seg ns None (s :: l) None /\ relinked (nodes t) ns (fun x => x ∈ s :: l).
Proof.
  intros (Hnd & Hseg & Hh & Ht) Hs Hn. unfold push_front.
  destruct (set_prev_ok (nodes t) s n None Hn) as (ns1 & -> & R1 & Hs1). cbn [rbind].
  destruct (set_next_ok ns1 s _ (head_ t) Hs1) as (ns2 & -> & R2 & Hs2). cbn [rbind n_prev n_mac n_entry] in *.
  pose proof (relinked_trans _ _ _ _ _ R1 R2) as R12.
  assert (seg ns2 None l None) as Hseg2.
  { eapply seg_ext; [|exact Hseg]. intros x Hx. apply R12. intros [-> | ->]; done. }
  rewrite Hh in Hs2 |- *. destruct l as [|h l].
  - cbn [hd rbind] in *. rewrite Ht. exists ns2. cbn. split_and!; try done; [by eexists|].
    eapply relinked_weaken; [|exact R12]. set_solver.
  - cbn [hd] in *. destruct (relink_first ns2 None h l None (Some s) Hnd Hseg2) as (ns3 & -> & Hs3 & R3).
    cbn [rbind]. exists ns3. split_and!.
    + rewrite Ht. do 2 f_equal. rewrite !lst_cons. unfold lst. by destruct (last l).
    + split; [|exact Hs3]. rewrite (proj2 (proj2 R3)) by set_solver. by eexists.
    + eapply relinked_weaken; [|exact (relinked_trans _ _ _ _ _ R12 R3)]. set_solver.
Qed.

(** ** The list of entries the table implements *)

Definition entries : Type := list (list u8 * MacEntry).

Definition without {A} (mac : list u8) (q : list (list u8 * A)) : list (list u8 * A) :=
  filter (fun x => x.1 <> mac) q.

Definition spec_learn (cap : nat) (q : entries) (mac : list u8) (e : MacEntry) : entries :=
  if negb (is_learnable_source_mac mac) || (cap =? 0) then q
  else (mac, e) :: (if decide (mac ∈ q.*1) then without mac q
                    else if cap <=? length q then removelast q else q).

Definition spec_sweep (ttl now : N) (q : entries) : entries :=
  filter (fun x => expired ttl now x.2 = false) q.

Definition spec_lookup (ttl now : N) (q : entries) (mac : list u8) : option MacEntry :=
  match list_find (fun x => x.1 = mac) q with
  | Some (_, (_, e)) => if expired ttl now e then None else Some e
  | None => None
  end.

(** The table holds [q]; [l] is the slot of each address. *)
Record rep (t : MacTable) (l : list (list u8 * nat)) (q : entries) : Prop := {
  rp_list : listed t l.*2;
  rp_keys : NoDup l.*1;
  rp_index : index t = list_to_map l;
  rp_data : Forall2 (fun x y => data (nodes t) x.2 = Some y /\ x.1 = y.1) l q;
  rp_free : NoDup (free t) /\ forall s, s ∈ free t -> (s ∉ l.*2) /\ s < length (nodes t);
  rp_cap : length l <= capacity t;
}.

Lemma rep_same_keys t l q : rep t l q -> l.*1 = q.*1.
Proof. intros [_ _ _ Hd _ _]. induction Hd as [|x y l q [_ Hxy] _ IH]; cbn; [done|]. by f_equal. Qed.

Lemma rep_lookup t l q mac s : rep t l q -> index t !! mac = Some s <-> (mac, s) ∈ l.
Proof. intros [_ Hk -> _ _ _]. symmetry. by apply elem_of_list_to_map. Qed.

Lemma rep_none t l q mac : rep t l q -> index t !! mac = None <-> mac ∉ q.*1.
Proof.
  intros R. rewrite <- (rep_same_keys t l q R). destruct R as [_ Hk -> _ _ _].
  symmetry. apply not_elem_of_list_to_map.
Qed.

Lemma rep_size t l q : rep t l q -> size (index t) = length q.
Proof.
  intros R. rewrite <- (length_fmap fst q), <- (rep_same_keys t l q R), length_fmap.
  destruct R as [_ Hk -> _ _ _]. induction l as [|[m s] l IH]; cbn; [done|].
  apply NoDup_cons in Hk as [Hm Hk]. rewrite map_size_insert_None by by apply not_elem_of_list_to_map.
  by rewrite IH.
Qed.

Lemma rep_new cap ttl : rep (new cap ttl) [] [].
Proof.
  split; cbn; try done; try lia; [|apply NoDup_nil_2|].
  - split_and!; try done. apply NoDup_nil_2.
  - split; [apply NoDup_nil_2|]. by intros s ?%elem_of_nil.
Qed.

Lemma filter_id {A} (P : A -> Prop) `{forall x, Decision (P x)} (l : list A) : Forall P l -> filter P l = l.
Proof. induction 1 as [|x l Hx _ IH]; [done|]. rewrite filter_cons_True by done. by rewrite IH. Qed.

Lemma without_split {A} mac (x : A) pre post :
  NoDup (pre ++ (mac, x) :: post).*1 -> without mac (pre ++ (mac, x) :: post) = pre ++ post.
Proof.
  rewrite fmap_app. intros (Hpre & Hd & [Hpost _]%NoDup_cons)%NoDup_app. unfold without.
  rewrite filter_app, filter_cons_False by naive_solver.
  f_equal; apply filter_id, Forall_forall; intros y Hy%(list_elem_of_fmap_2 fst) E; rewrite E in Hy.
  - apply (Hd mac Hy). by left.
  - done.
Qed.

Lemma without_absent {A} mac (q : list (list u8 * A)) : mac ∉ q.*1 -> without mac q = q.
Proof.
  intros H. apply filter_id, Forall_forall. intros y Hy%(list_elem_of_fmap_2 fst) E. by rewrite E in Hy.
Qed.

Lemma data_ext ns ns' (l : list (list u8 * nat)) (q : entries) :
  (forall x, x ∈ l.*2 -> data ns' x = data ns x) ->
  Forall2 (fun x y => data ns x.2 = Some y /\ x.1 = y.1) l q ->
  Forall2 (fun x y => data ns' x.2 = Some y /\ x.1 = y.1) l q.
Proof.
  intros H F. apply Forall2_same_length_lookup. rewrite Forall2_same_length_lookup in F.
  destruct F as [Hl F]. split; [done|]. intros i x y Hx Hy. destruct (F i x y Hx Hy) as [E ?].
  split; [|done]. rewrite H; [done|]. by apply list_elem_of_lookup_2, (list_elem_of_fmap_2 snd) in Hx.
Qed.

(** An address in the table, with its slot and entry. *)
Lemma rep_split t l q mac s :
  rep t l q -> index t !! mac = Some s ->
  exists lpre lpost qpre qpost e, l = lpre ++ (mac, s) :: lpost /\ q = qpre ++ (mac, e) :: qpost /\
    Forall2 (fun x y => data (nodes t) x.2 = Some y /\ x.1 = y.1) lpre qpre /\
    Forall2 (fun x y => data (nodes t) x.2 = Some y /\ x.1 = y.1) lpost qpost /\
    data (nodes t) s = Some (mac, e).
Proof.
  intros R Hi. apply (rep_lookup t l q mac s R) in Hi as (lpre & lpost & ->)%list_elem_of_split.
  destruct R as [_ _ _ Hd _ _].
  apply Forall2_app_inv_l in Hd as (qpre & q' & Hpre & Hd & ->).
  apply Forall2_cons_inv_l in Hd as ([m e] & qpost & [Hs Hm] & Hpost & ->). cbn in Hs, Hm. subst m.
  by exists lpre, lpost, qpre, qpost, e.
Qed.

Lemma NoDup_remove_middle {A} (x : A) pre post : NoDup (pre ++ x :: post) -> NoDup (pre ++ post).
Proof. rewrite <- Permutation_middle. by intros [_ ?]%NoDup_cons. Qed.

Lemma delete_middle mac s (pre post : list (list u8 * nat)) :
  NoDup (pre ++ (mac, s) :: post).*1 ->
  delete mac (list_to_map (pre ++ (mac, s) :: post) : gmap (list u8) nat) = list_to_map (pre ++ post).
Proof.
  intros Hnd. rewrite <- (list_to_map_proper ((mac, s) :: pre ++ post)); [| |by rewrite Permutation_middle].
  - cbn. apply delete_insert_id, not_elem_of_list_to_map. rewrite fmap_app in Hnd |- *. cbn in Hnd.
    rewrite <- Permutation_middle in Hnd. by apply NoDup_cons in Hnd as [? _].
  - by rewrite Permutation_middle.
Qed.

Lemma mac_remove_ok t l q mac :
  rep t l q -> exists t', remove t mac = Ret t' /\ rep t' (without mac l) (without mac q) /\
    capacity t' = capacity t /\ mac_ttl_ms t' = mac_ttl_ms t.
Proof.
  intros R. unfold remove. destruct (index t !! mac) as [s|] eqn:Ei; cycle 1.
  { exists t. pose proof (proj1 (rep_none t l q mac R) Ei) as Hm. split; [done|]. split; [|done].
    rewrite (without_absent mac q) by done. rewrite without_absent; [done|]. by rewrite (rep_same_keys t l q R). }
  destruct (rep_split t l q mac s R Ei) as (lpre & lpost & qpre & qpost & e & El & Eq & Hpre & Hpost & Hs).
  pose proof (rep_same_keys t l q R) as Hkeys. destruct R as [Hl Hk Hidx Hd [Hfn Hfree] Hcap]. subst l q.
  rewrite fmap_app in Hl. cbn [fmap list_fmap snd] in Hl.
  destruct (unlink_ok (mkMacTable (capacity t) (mac_ttl_ms t) (delete mac (index t)) (nodes t) (free t)
    (head_ t) (tail_ t)) lpre.*2 s lpost.*2 Hl) as (ns & -> & Hnd & Hs' & Hseg & Hrel). cbn [rbind].
  eexists. split; [reflexivity|]. split; [|done].
  rewrite !without_split by (done || by rewrite <- Hkeys). split; cbn.
  - rewrite fmap_app. split_and!; done.
  - rewrite fmap_app in Hk |- *. by apply NoDup_remove_middle in Hk.
  - rewrite Hidx. by apply delete_middle.
  - apply (data_ext (nodes t)); [intros; apply Hrel|]. by apply Forall2_app.
  - rewrite fmap_app. split.
    + apply NoDup_app. split; [done|]. split; [|apply NoDup_singleton].
      intros x [Hx _]%Hfree ->%list_elem_of_singleton. apply Hx. rewrite fmap_app. set_solver.
    + rewrite (proj1 Hrel). cbn. intros x [Hx| ->%list_elem_of_singleton]%elem_of_app.
      * apply Hfree in Hx as [Hx ?]. rewrite fmap_app in Hx. split; [set_solver|done].
      * split; [done|]. unfold data in Hs. apply fmap_Some in Hs as (n & Hn & _). by eapply lookup_lt_Some.
  - rewrite length_app in *. cbn in Hcap. lia.
Qed.

(** The oldest entry goes when the table is full. *)
Lemma evict_ok t l q :
  rep t l q -> q <> [] -> exists t', evict_tail t = Ret t' /\ rep t' (removelast l) (removelast q) /\
    capacity t' = capacity t /\ mac_ttl_ms t' = mac_ttl_ms t.
Proof.
  intros R Hne. pose proof (rep_same_keys t l q R) as Hkeys. pose proof R as [(_ & _ & _ & Ht) Hk _ Hd _ _].
  destruct q as [|y q] using rev_ind; [done|]. clear IHq.
  apply Forall2_app_inv_r in Hd as (l' & ls & _ & Hd & ->).
  apply Forall2_cons_inv_r in Hd as ([m s] & rest & [Hs Hm] & Hn & ->). inversion Hn; subst rest.
  destruct y as [m' e]. cbn in Hs, Hm. subst m'. unfold evict_tail.
  rewrite Ht, fmap_app. cbn [fmap list_fmap snd]. rewrite lst_snoc. unfold data in Hs. apply fmap_Some in Hs as (n & Hn' & [= Hm _]).
  unfold node_at. rewrite Hn'. cbn [rexpect rbind]. rewrite <- Hm.
  destruct (mac_remove_ok t _ _ m R) as (t' & -> & R' & ?). exists t'. split; [done|]. split; [|done].
  rewrite without_split in R' by done. rewrite without_split in R' by (by rewrite <- Hkeys).
  rewrite !app_nil_r in R'. by rewrite !removelast_last.
Qed.

(** A slot for a new address. *)
Lemma alloc_ok t l q mac e :
  rep t l q -> exists ns fr slot,
    alloc t mac e = Ret (mkMacTable (capacity t) (mac_ttl_ms t) (index t) ns fr (head_ t) (tail_ t), slot) /\
    ns !! slot = Some (mkNode mac e None None) /\ (slot ∉ l.*2) /\
    (forall s, s <> slot -> s < length (nodes t) -> ns !! s = nodes t !! s) /\
    NoDup fr /\ (forall s, s ∈ fr -> (s ∉ slot :: l.*2) /\ s < length ns) /\ length (nodes t) <= length ns.
Proof.
  intros [(_ & Hseg & _ & _) _ _ Hd [Hfn Hfree] _]. unfold alloc. destruct (free t) as [|s fr] using rev_ind.
  - cbn. eexists _, _, _. split; [done|]. split_and!.
    + by rewrite lookup_app_r, Nat.sub_diag by lia.
    + intros Hs. apply list_elem_of_fmap in Hs as ([m x] & E & Hx). cbn in E. subst x.
      apply list_elem_of_lookup in Hx as [i Hi]. rewrite Forall2_same_length_lookup in Hd.
      destruct Hd as [Hl Hd]. destruct (lookup_lt_is_Some_2 q i) as [y Hy]; [rewrite <- Hl; by eapply lookup_lt_Some|].
      destruct (Hd i _ y Hi Hy) as [E _]. unfold data in E. cbn in E.
      by rewrite lookup_ge_None_2 in E by done.
    + intros s _ Hs. by apply lookup_app_l.
    + apply NoDup_nil_2.
    + by intros s ?%elem_of_nil.
    + rewrite length_app. lia.
  - clear IHfr. rewrite last_snoc, removelast_last. apply NoDup_app in Hfn as (Hfn & Hdis & _).
    destruct (Hfree s) as [Hs Hlt]; [apply elem_of_app; right; by left|].
    destruct (lookup_lt_is_Some_2 (nodes t) s Hlt) as [n Hn]. unfold node_at. rewrite Hn. cbn.
    eexists _, _, _. split; [done|]. split_and!; try done.
    + by rewrite list_lookup_insert_eq.
    + intros x Hx _. by rewrite list_lookup_insert_ne by congruence.
    + intros x Hx. rewrite length_insert. destruct (Hfree x) as [Hx' ?]; [apply elem_of_app; by left|].
      split; [|done]. intros [->|?]%elem_of_cons; [|done]. apply (Hdis s Hx). by left.
    + by rewrite length_insert.
Qed.

Lemma slot_lt t l q s : rep t l q -> s ∈ l.*2 -> s < length (nodes t).
Proof.
  intros [_ _ _ Hd _ _] ([m x] & -> & Hx)%list_elem_of_fmap. cbn.
  apply list_elem_of_lookup in Hx as [i Hi]. rewrite Forall2_same_length_lookup in Hd. destruct Hd as [Hl Hd].
  destruct (lookup_lt_is_Some_2 q i) as [y Hy]; [rewrite <- Hl; by eapply lookup_lt_Some|].
  destruct (Hd i _ y Hi Hy) as [E _]. unfold data in E. cbn in E.
  apply fmap_Some in E as (n & Hn & _). by eapply lookup_lt_Some.
Qed.

Lemma mac_insert_ok t l q mac e :
  rep t l q -> mac ∉ q.*1 -> length q < capacity t ->
  exists t' slot, (let! ' (t, slot) := alloc t mac e in
             push_front (mkMacTable (capacity t) (mac_ttl_ms t) (<[mac := slot]> (index t)) (nodes t) (free t)
                           (head_ t) (tail_ t)) slot) = Ret t' /\
    rep t' ((mac, slot) :: l) ((mac, e) :: q) /\ capacity t' = capacity t /\ mac_ttl_ms t' = mac_ttl_ms t.
Proof.
  intros R Hm Hc. destruct (alloc_ok t l q mac e R) as (ns & fr & slot & -> & Hslot & Hnew & Hold & Hfn & Hfr & Hlen).
  cbn [rbind]. pose proof (slot_lt t l q) as Hlt. pose proof (rep_same_keys t l q R) as Hkeys.
  assert (forall x, x ∈ l.*2 -> ns !! x = nodes t !! x) as Hsame.
  { intros x Hx. apply Hold; [congruence|]. by apply Hlt. }
  pose proof (Forall2_length _ _ _ (rp_data _ _ _ R)) as Hll.
  destruct R as [(Hnd & Hseg & Hh & Ht) Hk Hidx Hd _ Hcap].
  destruct (push_front_ok (mkMacTable (capacity t) (mac_ttl_ms t) (<[mac := slot]> (index t)) ns fr
    (head_ t) (tail_ t)) slot l.*2 (mkNode mac e None None)) as (ns' & E & Hseg' & Hrel).
  - split_and!; try done. by eapply seg_ext.
  - done.
  - done.
  - cbn [capacity mac_ttl_ms index nodes free head_ tail_] in E |- *. rewrite E. eexists _, slot.
    split; [done|]. split; [|done].
    split; cbn.
    + split_and!; try done. by apply NoDup_cons.
    + apply NoDup_cons. by rewrite Hkeys in *.
    + by rewrite Hidx.
    + constructor; [split; [|done]; cbn|].
      * rewrite (proj1 (proj2 Hrel)). unfold data. cbn. by rewrite Hslot.
      * apply (data_ext (nodes t)); [|done]. intros x Hx. rewrite (proj1 (proj2 Hrel)). unfold data. cbn. by rewrite Hsame.
    + split; [done|]. rewrite (proj1 Hrel). exact Hfr.
    + lia.
Qed.

Definition links (ns : list Node) (s : nat) : option (option nat * option nat) :=
  (fun n => (n_prev n, n_next n)) <$> ns !! s.

Lemma seg_links ns ns' l : forall prev next,
  (forall s, links ns' s = links ns s) -> seg ns prev l next -> seg ns' prev l next.
Proof.
  induction l as [|x l IH]; intros prev next H; [done|]. intros [(n & Hn & Hp & Hq) Hs]. split; [|by apply IH].
  specialize (H x). unfold links in H. rewrite Hn in H. cbn in H.
  apply fmap_Some in H as (n' & Hn' & [= E1 E2]). exists n'. split_and!; congruence.
Qed.

Lemma set_entry_ok ns s n e :
  ns !! s = Some n -> exists ns', set_entry ns s e = Ret ns' /\ length ns' = length ns /\
    (forall x, links ns' x = links ns x) /\ (forall x, x <> s -> data ns' x = data ns x) /\
    data ns' s = Some (n_mac n, e).
Proof.
  intros Hn. pose proof (lookup_lt_Some _ _ _ Hn) as Hlt. unfold set_entry, node_at. rewrite Hn. cbn.
  eexists. split; [done|]. split_and!.
  - by rewrite length_insert.
  - intros x. unfold links. destruct (decide (x = s)) as [->|].
    + by rewrite list_lookup_insert_eq, Hn.
    + by rewrite list_lookup_insert_ne by congruence.
  - intros x Hx. unfold data. by rewrite list_lookup_insert_ne by congruence.
  - unfold data. by rewrite list_lookup_insert_eq.
Qed.

Lemma move_ok t pre s post n :
  listed t (pre ++ s :: post) -> nodes t !! s = Some n ->
  exists ns, move_to_front t s
      = Ret (with_links t ns (hd None (s :: pre ++ post)) (lst None (s :: pre ++ post))) /\
    NoDup (s :: pre ++ post) /\ seg ns None (s :: pre ++ post) None /\
    length ns = length (nodes t) /\ (forall x, data ns x = data (nodes t) x).
Proof.
  intros Hl Hn. unfold move_to_front. pose proof Hl as (Hnd & Hseg & Hh & Ht). case_decide as Hhead.
  - destruct pre as [|p pre].
    + exists (nodes t). cbn [app] in *. split; [rewrite <- Hh, <- Ht; by destruct t|]. done.
    + exfalso. rewrite Hh in Hhead. injection Hhead as ->. apply NoDup_cons in Hnd as [Hs _]. set_solver.
  - destruct (unlink_ok t pre s post Hl) as (ns1 & -> & Hnd1 & Hs1 & Hseg1 & R1). cbn [rbind].
    destruct (lookup_lt_is_Some_2 ns1 s) as [n1 Hn1]; [rewrite (proj1 R1); by eapply lookup_lt_Some|].
    destruct (push_front_ok (with_links t ns1 (hd None (pre ++ post)) (lst None (pre ++ post))) s
      (pre ++ post) n1) as (ns2 & E & Hseg2 & R2); [by split_and!|done|done|].
    rewrite E. exists ns2. split_and!; [done|by apply NoDup_cons|done| |].
    + rewrite (proj1 R2). apply R1.
    + intros x. rewrite (proj1 (proj2 R2)). apply R1.
Qed.

Lemma refresh_ok t l q mac e s :
  rep t l q -> index t !! mac = Some s ->
  exists t' l', (let! ns := set_entry (nodes t) s e in
                 move_to_front (with_links t ns (head_ t) (tail_ t)) s) = Ret t' /\
    rep t' l' ((mac, e) :: without mac q) /\ capacity t' = capacity t /\ mac_ttl_ms t' = mac_ttl_ms t.
Proof.
  intros R Hi. pose proof (rep_same_keys t l q R) as Hkeys.
  destruct (rep_split t l q mac s R Hi) as (lpre & lpost & qpre & qpost & e0 & -> & -> & Hpre & Hpost & Hs).
  destruct R as [(Hnd & Hseg & Hh & Ht) Hk Hidx _ [Hfn Hfree] Hcap].
  unfold data in Hs. apply fmap_Some in Hs as (n & Hn & [= Hm He]).
  destruct (set_entry_ok (nodes t) s n e Hn) as (ns & -> & Hlen & Hlinks & Hdata & Hds). cbn [rbind].
  rewrite fmap_app in Hnd, Hseg, Hh, Ht. cbn [fmap list_fmap snd] in Hnd, Hseg, Hh, Ht.
  destruct (lookup_lt_is_Some_2 ns s) as [n1 Hn1]; [rewrite Hlen; by eapply lookup_lt_Some|].
  destruct (move_ok (with_links t ns (head_ t) (tail_ t)) lpre.*2 s lpost.*2 n1) as (ns2 & -> & Hnd2 & Hseg2 & Hl2 & Hd2);
    [split_and!; [done|by eapply seg_links|done|done]|done|].
  eexists _, ((mac, s) :: lpre ++ lpost). split; [done|]. split; [|done].
  rewrite without_split by (by rewrite <- Hkeys). cbn in Hl2, Hd2.
  assert (forall x, x ∈ (lpre ++ lpost).*2 -> data ns2 x = data (nodes t) x) as Hother.
  { intros x Hx. rewrite Hd2, Hdata; [done|]. intros ->. rewrite fmap_app in Hx. by apply NoDup_cons in Hnd2 as [? _]. }
  split; cbn.
  - rewrite fmap_app. by split_and!.
  - rewrite fmap_app in Hk |- *. cbn in Hk. by rewrite Permutation_middle.
  - rewrite Hidx. change (list_to_map (lpre ++ (mac, s) :: lpost)
      =@{gmap (list u8) nat} list_to_map ((mac, s) :: lpre ++ lpost)).
    apply list_to_map_proper; [done|]. by rewrite Permutation_middle.
  - constructor; [split; [|done]; cbn; rewrite Hd2, Hds; by rewrite Hm|].
    apply (data_ext (nodes t)); [done|]. by apply Forall2_app.
  - split; [done|]. intros x [Hx ?]%Hfree. rewrite !fmap_app in *. cbn in *. split; [set_solver|lia].
  - rewrite !length_app in *. cbn in *. lia.
Qed.

Lemma learn_ok t l q mac peer o now :
  rep t l q -> exists t' l', learn t mac peer o now = Ret t' /\
    rep t' l' (spec_learn (capacity t) q mac (mkMacEntry peer now o)) /\
    capacity t' = capacity t /\ mac_ttl_ms t' = mac_ttl_ms t.
Proof.
  intros R. unfold learn, spec_learn.
  destruct (negb (is_learnable_source_mac mac) || (capacity t =? 0)) eqn:Eg; [by exists t, l|].
  apply orb_false_iff in Eg as [_ Hcap%Nat.eqb_neq]. cbv zeta.
  destruct (index t !! mac) as [s|] eqn:Ei.
  - assert (mac ∈ q.*1) as Hin.
    { rewrite <- (rep_same_keys t l q R). apply (rep_lookup t l q mac s R) in Ei.
      by apply (list_elem_of_fmap_2 fst) in Ei. }
    rewrite decide_True by done. by apply (refresh_ok t l q mac (mkMacEntry peer now o) s).
  - pose proof (proj1 (rep_none t l q mac R) Ei) as Hm. rewrite decide_False by done.
    rewrite (rep_size t l q R).
    destruct (Nat.leb_spec (capacity t) (length q)) as [Hfull|Hroom].
    + destruct (evict_ok t l q R) as (t1 & -> & R1 & Hc1 & Ht1); [intros ->; cbn in *; lia|]. cbn [rbind].
      destruct (mac_insert_ok t1 (removelast l) (removelast q) mac (mkMacEntry peer now o) R1)
        as (t2 & slot & E & R2 & Hc2 & Ht2).
      * intros Hx. apply Hm. destruct q as [|y q] using rev_ind; [done|]. rewrite removelast_last in Hx.
        rewrite fmap_app. set_solver.
      * pose proof (Forall2_length _ _ _ (rp_data _ _ _ R)). pose proof (rp_cap _ _ _ R).
        destruct q as [|y q] using rev_ind; [cbn in *; lia|]. rewrite removelast_last. rewrite length_app in *.
        cbn in *. lia.
      * exists t2, ((mac, slot) :: removelast l). split; [done|]. split; [done|]. split; congruence.
    + cbn [rbind]. destruct (mac_insert_ok t l q mac (mkMacEntry peer now o) R Hm Hroom)
        as (t2 & slot & E & R2 & Hc2 & Ht2). exists t2, ((mac, slot) :: l). done.
Qed.

Lemma lookup_ok t l q mac now :
  rep t l q -> lookup t mac now = Ret (spec_lookup (mac_ttl_ms t) now q mac).
Proof.
  intros R. unfold lookup, spec_lookup. destruct (index t !! mac) as [s|] eqn:Ei.
  - pose proof (rep_same_keys t l q R) as Hkeys.
    destruct (rep_split t l q mac s R Ei) as (lpre & lpost & qpre & qpost & e & -> & -> & _ & _ & Hs).
    destruct R as [_ Hk _ _ _ _]. rewrite Hkeys in Hk.
    unfold data in Hs. apply fmap_Some in Hs as (n & Hn & [= _ He]). unfold node_at. rewrite Hn. cbn.
    assert (list_find (fun x => x.1 = mac) (qpre ++ (mac, e) :: qpost) = Some (length qpre, (mac, e))) as ->.
    { apply list_find_Some. split_and!; [by rewrite lookup_app_r, Nat.sub_diag by lia|done|].
      intros i y Hi Hlt E. rewrite lookup_app_l in Hi by done. rewrite fmap_app in Hk.
      apply NoDup_app in Hk as (_ & Hd & _).
      apply list_elem_of_lookup_2, (list_elem_of_fmap_2 fst) in Hi. rewrite E in Hi. apply (Hd mac Hi). by left. }
    by rewrite He.
  - pose proof (proj1 (rep_none t l q mac R) Ei) as Hm.
    assert (list_find (fun x => x.1 = mac) q = None) as ->; [|done].
    apply list_find_None, Forall_forall. intros y Hy E. apply Hm. rewrite <- E. by apply list_elem_of_fmap_2.
Qed.

Lemma filter_and {A} (P Q R : A -> Prop) `{forall x, Decision (P x)} `{forall x, Decision (Q x)}
    `{forall x, Decision (R x)} (l : list A) :
  (forall x, R x <-> P x /\ Q x) -> filter P (filter Q l) = filter R l.
Proof.
  intros Hiff. induction l as [|x l IH]; [done|]. destruct (decide (Q x)) as [HQ|HQ].
  - rewrite (filter_cons_True Q) by done. destruct (decide (P x)) as [HP|HP].
    + rewrite (filter_cons_True P), (filter_cons_True R) by naive_solver. by rewrite IH.
    + rewrite (filter_cons_False P), (filter_cons_False R) by naive_solver. by rewrite IH.
  - rewrite (filter_cons_False Q), (filter_cons_False R) by naive_solver. by rewrite IH.
Qed.

Lemma removes_ok macs : forall t l q, rep t l q ->
  exists t' l', rfold remove macs t = Ret t' /\ rep t' l' (filter (fun x => x.1 ∉ macs) q) /\
    capacity t' = capacity t /\ mac_ttl_ms t' = mac_ttl_ms t.
Proof.
  induction macs as [|m macs IH]; intros t l q R; cbn [rfold].
  - exists t, l. split; [done|]. split; [|done].
    replace (filter _ q) with q; [done|]. symmetry. apply filter_id, Forall_forall. intros y _. apply not_elem_of_nil.
  - destruct (mac_remove_ok t l q m R) as (t1 & -> & R1 & Hc & Ht). cbn [rbind].
    destruct (IH t1 _ _ R1) as (t2 & l2 & -> & R2 & Hc2 & Ht2). exists t2, l2. split; [done|].
    split; [|split; congruence]. match goal with |- rep _ _ ?q' => enough (filter (fun x => x.1 ∉ macs) (without m q) = q') as <- by done end.
    apply filter_and. intros x. rewrite not_elem_of_cons. naive_solver.
Qed.

Lemma filter_same {A} (P Q : A -> Prop) `{forall x, Decision (P x)} `{forall x, Decision (Q x)} (l : list A) :
  (forall x, x ∈ l -> P x <-> Q x) -> filter P l = filter Q l.
Proof.
  induction l as [|x l IH]; intros Hiff; [done|].
  assert (filter P l = filter Q l) as E by (apply IH; intros y Hy; apply Hiff; by right).
  pose proof (Hiff x ltac:(left)). destruct (decide (P x)) as [HP|HP].
  - rewrite (filter_cons_True P), (filter_cons_True Q) by naive_solver. by rewrite E.
  - rewrite (filter_cons_False P), (filter_cons_False Q) by naive_solver. done.
Qed.

(** The entry in a slot. *)
Definition entry_at (ns : list Node) (s : nat) : MacEntry :=
  match ns !! s with Some n => n_entry n | None => mkMacEntry 0 0 Peer end.

Lemma rep_entry t l q mac s :
  rep t l q -> index t !! mac = Some s ->
  exists n, nodes t !! s = Some n /\ (mac, n_entry n) ∈ q.
Proof.
  intros R Hi. destruct (rep_split t l q mac s R Hi) as (lpre & lpost & qpre & qpost & e & _ & -> & _ & _ & Hs).
  unfold data in Hs. apply fmap_Some in Hs as (n & Hn & [= _ ->]). exists n. split; [done|].
  apply elem_of_app. right. by left.
Qed.

Lemma mac_sweep_ok es t l q now :
  rep t l q -> es ≡ₚ map_to_list (index t) ->
  exists t' l', sweep es t now = Ret t' /\ rep t' l' (spec_sweep (mac_ttl_ms t) now q) /\
    capacity t' = capacity t /\ mac_ttl_ms t' = mac_ttl_ms t.
Proof.
  intros R Hes.
  assert (forall mac s, (mac, s) ∈ es -> index t !! mac = Some s) as Hin.
  { intros mac s. rewrite Hes. apply elem_of_map_to_list. }
  unfold sweep. rewrite (rmap_ret _ (fun '(mac, s) => (mac, expired (mac_ttl_ms t) now (entry_at (nodes t) s)))); cycle 1.
  { intros [mac s] Hx. destruct (rep_entry t l q mac s R (Hin mac s Hx)) as (n & Hn & _).
    unfold node_at, entry_at. by rewrite Hn. }
  cbn [rbind]. set (gone := map fst _).
  destruct (removes_ok gone t l q R) as (t' & l' & -> & R' & Hp). exists t', l'. split; [done|]. split; [|done].
  replace (spec_sweep (mac_ttl_ms t) now q) with (filter (fun x => x.1 ∉ gone) q); [done|].
  assert (NoDup q.*1) as Hk by (rewrite <- (rep_same_keys t l q R); apply R).
  apply filter_same. intros [mac e] Hx. cbn.
  assert (exists s n, index t !! mac = Some s /\ nodes t !! s = Some n /\ n_entry n = e) as (s & n & Hs & Hn & He).
  { destruct (index t !! mac) as [s|] eqn:Es.
    - destruct (rep_entry t l q mac s R Es) as (n & Hn & Hx'). exists s, n. split_and!; try done.
      apply (elem_of_list_to_map_1 (M := gmap (list u8))) in Hx, Hx'; [congruence|done|done].
    - exfalso. apply (rep_none t l q mac R) in Es. apply Es. by apply (list_elem_of_fmap_2 fst) in Hx. }
  assert (mac ∈ gone <-> expired (mac_ttl_ms t) now e = true) as Hg.
  { unfold gone. rewrite elem_of_map. split.
    - intros ([m b] & -> & Hm). apply list_elem_of_In, filter_In in Hm as [Hm Hb]. cbn in *.
      apply list_elem_of_In, elem_of_map in Hm as ([m' s'] & [= -> ->] & Hm').
      apply Hin in Hm'. rewrite Hs in Hm'. injection Hm' as <-. unfold entry_at in Hb. rewrite Hn in Hb. by subst e.
    - intros Hexp. exists (mac, true). split; [done|]. apply list_elem_of_In, filter_In. split; [|done].
      apply list_elem_of_In, elem_of_map. exists (mac, s). unfold entry_at. rewrite Hn, He, Hexp. split; [done|].
      rewrite Hes. by apply elem_of_map_to_list. }
  rewrite Hg. by destruct (expired _ _ _).
Qed.

Inductive op := Learn (mac : list u8) (peer : N) (o : LearnOrigin) (now : N) | Sweep (now : N).

Definition apply_op (iter : gmap (list u8) nat -> list (list u8 * nat)) (t : MacTable) (o : op) : run MacTable :=
  match o with
  | Learn mac peer orig now => learn t mac peer orig now
  | Sweep now => sweep (iter (index t)) t now
  end.

Definition spec_op (cap : nat) (ttl : N) (q : entries) (o : op) : entries :=
  match o with
  | Learn mac peer orig now => spec_learn cap q mac (mkMacEntry peer now orig)
  | Sweep now => spec_sweep ttl now q
  end.

(** The address table refines a recency list.  Whatever addresses are
    learned and whenever the table is swept, and in whatever order the hash map
    is iterated, the linked list in the slab never points astray (no index out
    of bounds) and the table behaves like a plain list of entries, most recently
    learned first, from which refreshing moves to the front, a full table drops
    the last entry and sweeping drops the expired ones. *)
Theorem mac_table_refines (iter : gmap (list u8) nat -> list (list u8 * nat)) (cap : nat) (ttl : N)
    (ops : list op) :
  (forall m, iter m ≡ₚ map_to_list m) ->
  exists t, rfold (apply_op iter) ops (new cap ttl) = Ret t /\
    let q := fold_left (spec_op cap ttl) ops [] in
    NoDup q.*1 /\ length q <= cap /\
    forall mac now, lookup t mac now = Ret (spec_lookup ttl now q mac).
Proof.
  intros Hiter.
  assert (forall t l q, rep t l q -> capacity t = cap -> mac_ttl_ms t = ttl ->
    exists t' l', rfold (apply_op iter) ops t = Ret t' /\ rep t' l' (fold_left (spec_op cap ttl) ops q) /\
      capacity t' = cap /\ mac_ttl_ms t' = ttl) as H.
  { induction ops as [|o ops IH]; intros t l q R Hc Ht; cbn [rfold fold_left]; [by exists t, l|].
    assert (exists t' l', apply_op iter t o = Ret t' /\ rep t' l' (spec_op cap ttl q o) /\
      capacity t' = capacity t /\ mac_ttl_ms t' = mac_ttl_ms t) as (t' & l' & -> & R' & Hc' & Ht').
    { destruct o as [mac peer orig now|now]; cbn [apply_op spec_op]; rewrite <- ?Hc, <- ?Ht.
      - by apply (learn_ok t l).
      - by apply (mac_sweep_ok (iter (index t)) t l). }
    cbn [rbind]. apply (IH t' l'); congruence. }
  destruct (H (new cap ttl) [] [] (rep_new cap ttl) eq_refl eq_refl) as (t & l & Hrun & R & Hc & Ht).
  exists t. split; [done|]. cbv zeta. split_and!.
  - rewrite <- (rep_same_keys t l _ R). apply R.
  - rewrite <- (Forall2_length _ _ _ (rp_data _ _ _ R)), <- Hc. apply R.
  - intros mac now. rewrite <- Ht at 1. by rewrite (lookup_ok t l _ mac now R), Ht.
Qed.

Lemma mac_table_refines_witness :
  exists t, rfold (apply_op map_to_list)
      [Learn [Byte.x02; Byte.x00; Byte.x00; Byte.x00; Byte.x00; Byte.x01] 1 Peer 10; Sweep 500000] (new 2 300000)
      = Ret t /\
    NoDup ([] : entries).*1 /\ length ([] : entries) <= 2 /\
    forall mac now, lookup t mac now = Ret (spec_lookup 300000 now [] mac).
Proof.
  apply (mac_table_refines map_to_list 2 300000
    [Learn [Byte.x02; Byte.x00; Byte.x00; Byte.x00; Byte.x00; Byte.x01] 1 Peer 10; Sweep 500000]).
  intros m. reflexivity.
Defined.

End Mac.
