(* ===== verification/WireGlue.v ===== *)
(** * Symbols on the wire

    Models bin/yipd/src/wire_glue.rs: how an FEC symbol, the AEAD counter and
    the flow class travel in an authenticated frame; and the sent log of
    bin/yipd/src/dataplane.rs, which attributes reported losses to classes.
    The key derivation of wire_glue.rs is a hash of a third-party library and is
    not modelled; codecs are given their keys. *)

From Stdlib Require Strings.Byte.
From Stdlib Require Import NArith ZArith SpecFloat Lia.
From stdpp Require Import base numbers gmap sets list.
From S2P Require Import Prelude FifoMap Fec Wire.

Local Open Scope nat_scope.

Definition class_to_flags (c : FlowClass) : u8 :=
  match c with Realtime => Byte.x00 | Bulk => Byte.x01 | Default => Byte.x02 end.

Definition flags_to_class (f : u8) : FlowClass :=
  let x := N.land (b2n f) 0x03 in
  if (x =? 0)%N then Realtime else if (x =? 1)%N then Bulk else Default.

Definition symbol_to_frame (conn_tag : N) (sym : Symbol) (counter : N) (class : FlowClass) : Wire.Frame :=
  let payload := to_be_bytes 8 counter ++ to_be_bytes 4 (object_size sym) ++ data sym in
  Wire.mkFrame conn_tag (object_id sym) (payload_id sym) (class_to_flags class) payload.

Definition frame_to_symbol (frame : Wire.Frame) : run (option (Symbol * N * FlowClass)) :=
  if length (Wire.payload frame) <? 12 then Ret None
  else
  let! c := slice_run 0 8 (Wire.payload frame) in
  let! sz := slice_run 8 12 (Wire.payload frame) in
  let! d := slice_run 12 (length (Wire.payload frame)) (Wire.payload frame) in
  Ret (Some (mkSymbol (Wire.object_id frame) (from_be_bytes sz) (Wire.payload_id frame) d,
             from_be_bytes c, flags_to_class (Wire.flags frame))).

Lemma flags_round_trip c : flags_to_class (class_to_flags c) = c.
Proof. by destruct c. Qed.

Lemma frame_to_symbol_total f : exists o, frame_to_symbol f = Ret o.
Proof.
  unfold frame_to_symbol. destruct (Nat.ltb_spec (length (Wire.payload f)) 12); [eauto|].
  rewrite !slice_run_ok by lia. cbn. eauto.
Qed.

Lemma symbol_round_trip tag s c class :
  (c < u64_mod)%N -> (object_size s < u32_mod)%N ->
  frame_to_symbol (symbol_to_frame tag s c class) = Ret (Some (s, c, class)).
Proof.
  intros Hc Hs. unfold frame_to_symbol, symbol_to_frame. cbn [Wire.payload Wire.object_id Wire.payload_id Wire.flags].
  pose proof (length_to_be_bytes 8 c) as H8. pose proof (length_to_be_bytes 4 (object_size s)) as H4.
  assert (length (to_be_bytes 8 c ++ to_be_bytes 4 (object_size s) ++ data s) = 12 + length (data s)) as Hl
    by (rewrite !length_app; lia).
  rewrite Hl, (proj2 (Nat.ltb_ge _ _)) by lia. rewrite !slice_run_ok by lia. cbn [rbind]. unfold slice.
  rewrite drop_0, take_app_length' by (rewrite H8; lia).
  rewrite (drop_app_length' (to_be_bytes 8 c)) by (rewrite H8; lia).
  rewrite take_app_length' by (rewrite H4; lia).
  replace (drop 12 (to_be_bytes 8 c ++ to_be_bytes 4 (object_size s) ++ data s)) with (data s).
  - rewrite take_ge by lia. rewrite !from_to_be_bytes_small by done. rewrite flags_round_trip. by destruct s.
  - rewrite app_assoc, drop_app_length'; [done|]. rewrite length_app, H8, H4. lia.
Qed.

(** ** The sent log *)

Record ClassCounts := mkCounts { n_realtime : N; n_bulk : N; n_default : N }.

Record SentLog := mkSentLog {
  log_capacity : nat;
  log_map : gmap N FlowClass;
  log_order : list (N * FlowClass);
}.

Module Log.

Definition new (capacity : nat) : SentLog := mkSentLog capacity ∅ [].

Definition insert (l : SentLog) (counter : N) (class : FlowClass) : SentLog :=
  let '(map, order) :=
    if log_capacity l <=? size (log_map l) then
      match log_order l with
      | (oldest, _) :: rest => (delete oldest (log_map l), rest)
      | [] => (log_map l, [])
      end
    else (log_map l, log_order l) in
  mkSentLog (log_capacity l) (<[counter := class]> map) (order ++ [(counter, class)]).

Definition get (l : SentLog) (counter : N) : option FlowClass := log_map l !! counter.

(** [u32::try_from(n).unwrap_or(u32::MAX)] *)
Definition u32_or_max (n : nat) : N := if (N.of_nat n <? u32_mod)%N then N.of_nat n else (u32_mod - 1)%N.

Definition count_class (l : SentLog) (class : FlowClass) : N :=
  u32_or_max (length (filter (fun x => x.2 = class) (map_to_list (log_map l)))).

Definition bump (k : ClassCounts) (class : FlowClass) : ClassCounts :=
  match class with
  | Realtime => mkCounts (sat_add32 (n_realtime k) 1) (n_bulk k) (n_default k)
  | Bulk => mkCounts (n_realtime k) (sat_add32 (n_bulk k) 1) (n_default k)
  | Default => mkCounts (n_realtime k) (n_bulk k) (sat_add32 (n_default k) 1)
  end.

Definition count_classes_in_range (l : SentLog) (start end_ : N) : ClassCounts :=
  if (end_ <? start)%N then mkCounts 0 0 0
  else fold_left (fun k '(counter, class) =>
         if (start <=? counter)%N && (counter <=? end_)%N then bump k class else k)
       (log_order l) (mkCounts 0 0 0).

End Log.
