(* ===== verification/DataPlane.v ===== *)
(** * The data plane

    Models [DataPlane] of bin/yipd/src/dataplane.rs, the state machine that
    ties the session, the transport, the wire codec, the loss detector, the
    retransmit buffer, the path MTU search and the address table together:
    a packet from the tunnel device becomes framed datagrams, a datagram from
    the network becomes a packet for the device or datagrams to send, and a
    periodic tick emits feedback and probes.

    The buffers the source reuses between calls hold nothing across calls and
    are not part of the state.  The cipher, the hash and the CPU's vector units
    are interfaces; the random re-roll of the feedback interval is an argument
    of [tick]. *)

From Stdlib Require Strings.Byte.
From Stdlib Require Import NArith ZArith SpecFloat Lia.
From stdpp Require Import base numbers gmap sets list.
From S2P Require Import Prelude Gf256 RsSimd LinAlg Rs RsMds RsDecode RsReconstruct.
From S2P Require Import ObjTable FifoMap Fec FecEncode FecWf FecDelivery AntiReplay Session Wire.
From S2P Require Import Feedback Plpmtu LossDetect RetxBuf Adaptive Flow Classify Transport MacTable WireGlue.

Local Open Scope nat_scope.

Definition SENT_LOG_CAPACITY : nat := Eval vm_compute in 64 * 64.
Definition RETX_BUFFER_MAX : nat := Eval vm_compute in 128 * 128.
Definition RETX_BUFFER_TTL_MS : N := 2000.
Definition RETX_EXTRA_REPAIR : N := 4.
Definition FEEDBACK_INTERVAL_MS : N := 30.
Definition LOG_INTERVAL_MS : N := 5000.
Definition MAC_SWEEP_INTERVAL_MS : N := 1000.
Definition SINGLE_REMOTE_PEER_ID : N := 1.
Definition LOCAL_TAP_PEER_ID : N := 0.
Definition ETHERNET_HEADER_LEN : nat := 14.
Definition ETHERNET_SOURCE_MAC_OFFSET : nat := 6.

(** [PacketType::Data as u8], [PacketType::Control as u8] *)
Definition PACKET_DATA : u8 := Byte.x02.
Definition PACKET_CONTROL : u8 := Byte.x03.

Definition f32_0_8 : spec_float := S754_finite false 0xcccccd (-24).

Module Dp.

Section dataplane.
Context {cpu : Cpu} {aead : Sess.Aead} {sip : SipHash}.
Context {Addr : Type} `{EqDecision Addr}.

Record EgressDatagram := mkDatagram { fate : N; dst : Addr; bytes : list u8 }.

Inductive Outcome := NoOutcome | TunWrite (inner : list u8) | Send (pkts : list EgressDatagram).

Record DataPlane := mkDataPlane {
  session : Sess.Session;
  transport : Transport;
  codec : Wire.Codec;
  conn_tag : N;
  l2 : bool;
  peer_addr : Addr;
  sent_log : SentLog;
  retx : RetxBuffer;
  detector : LossDetector;
  mac_table : MacTable;
  last_loss_report_high : N;
  last_feedback_ms : N;
  last_log_ms : N;
  last_sweep_ms : N;
  obf_on : bool;
  feedback_interval_ms : N;
  arq_retx_count : N;
  plpmtu : PlpmtuController;
}.

Definition new (s : Sess.Session) (auth_key hp_key : list u8) (tag : N) (l2_tap : bool) (addr : Addr)
    (obf : bool) (symbol_size : N) : DataPlane :=
  mkDataPlane s (Tp.new [] symbol_size) (Wire.mkCodec auth_key hp_key) tag l2_tap addr
    (Log.new SENT_LOG_CAPACITY) (Retx.new RETX_BUFFER_MAX RETX_BUFFER_TTL_MS)
    (Detector.new 5 SENT_LOG_CAPACITY) (Mac.new DEFAULT_MAC_TABLE_CAPACITY DEFAULT_MAC_TABLE_TTL_MS)
    0 0 0 0 obf FEEDBACK_INTERVAL_MS 0 Plpmtu.new.

(** *** Field updates *)

Definition set_session (d : DataPlane) (x : Sess.Session) : DataPlane :=
  mkDataPlane x (transport d) (codec d) (conn_tag d) (l2 d) (peer_addr d) (sent_log d) (retx d) (detector d)
    (mac_table d) (last_loss_report_high d) (last_feedback_ms d) (last_log_ms d) (last_sweep_ms d) (obf_on d)
    (feedback_interval_ms d) (arq_retx_count d) (plpmtu d).

Definition set_transport (d : DataPlane) (x : Transport) : DataPlane :=
  mkDataPlane (session d) x (codec d) (conn_tag d) (l2 d) (peer_addr d) (sent_log d) (retx d) (detector d)
    (mac_table d) (last_loss_report_high d) (last_feedback_ms d) (last_log_ms d) (last_sweep_ms d) (obf_on d)
    (feedback_interval_ms d) (arq_retx_count d) (plpmtu d).

Definition set_detector (d : DataPlane) (x : LossDetector) : DataPlane :=
  mkDataPlane (session d) (transport d) (codec d) (conn_tag d) (l2 d) (peer_addr d) (sent_log d) (retx d) x
    (mac_table d) (last_loss_report_high d) (last_feedback_ms d) (last_log_ms d) (last_sweep_ms d) (obf_on d)
    (feedback_interval_ms d) (arq_retx_count d) (plpmtu d).

Definition set_mac (d : DataPlane) (x : MacTable) : DataPlane :=
  mkDataPlane (session d) (transport d) (codec d) (conn_tag d) (l2 d) (peer_addr d) (sent_log d) (retx d)
    (detector d) x (last_loss_report_high d) (last_feedback_ms d) (last_log_ms d) (last_sweep_ms d) (obf_on d)
    (feedback_interval_ms d) (arq_retx_count d) (plpmtu d).

Definition set_logs (d : DataPlane) (x : SentLog) (y : RetxBuffer) : DataPlane :=
  mkDataPlane (session d) (transport d) (codec d) (conn_tag d) (l2 d) (peer_addr d) x y (detector d)
    (mac_table d) (last_loss_report_high d) (last_feedback_ms d) (last_log_ms d) (last_sweep_ms d) (obf_on d)
    (feedback_interval_ms d) (arq_retx_count d) (plpmtu d).

(** The path MTU controller, and the transport's symbol size with it. *)
Definition set_plpmtu (d : DataPlane) (x : PlpmtuController) (size : option N) : DataPlane :=
  mkDataPlane (session d)
    (match size with Some s => Tp.set_symbol_size (transport d) s | None => transport d end)
    (codec d) (conn_tag d) (l2 d) (peer_addr d) (sent_log d) (retx d) (detector d)
    (mac_table d) (last_loss_report_high d) (last_feedback_ms d) (last_log_ms d) (last_sweep_ms d) (obf_on d)
    (feedback_interval_ms d) (arq_retx_count d) x.

Definition set_report_high (d : DataPlane) (x : N) : DataPlane :=
  mkDataPlane (session d) (transport d) (codec d) (conn_tag d) (l2 d) (peer_addr d) (sent_log d) (retx d)
    (detector d) (mac_table d) x (last_feedback_ms d) (last_log_ms d) (last_sweep_ms d) (obf_on d)
    (feedback_interval_ms d) (arq_retx_count d) (plpmtu d).

Definition set_arq (d : DataPlane) (x : N) : DataPlane :=
  mkDataPlane (session d) (transport d) (codec d) (conn_tag d) (l2 d) (peer_addr d) (sent_log d) (retx d)
    (detector d) (mac_table d) (last_loss_report_high d) (last_feedback_ms d) (last_log_ms d) (last_sweep_ms d)
    (obf_on d) (feedback_interval_ms d) x (plpmtu d).

Definition set_timers (d : DataPlane) (feedback log sweep interval : N) : DataPlane :=
  mkDataPlane (session d) (transport d) (codec d) (conn_tag d) (l2 d) (peer_addr d) (sent_log d) (retx d)
    (detector d) (mac_table d) (last_loss_report_high d) feedback log sweep (obf_on d) interval
    (arq_retx_count d) (plpmtu d).

Definition set_addr (d : DataPlane) (x : Addr) : DataPlane :=
  mkDataPlane (session d) (transport d) (codec d) (conn_tag d) (l2 d) x (sent_log d) (retx d)
    (detector d) (mac_table d) (last_loss_report_high d) (last_feedback_ms d) (last_log_ms d) (last_sweep_ms d)
    (obf_on d) (feedback_interval_ms d) (arq_retx_count d) (plpmtu d).

(** *** Small helpers of the source *)

Definition set_peer_addr (d : DataPlane) (addr : Addr) : run DataPlane :=
  let! d :=
    if decide (peer_addr d = addr) then Ret d
    else
      let! ' (c, floor) := Plpmtu.reset_to_floor (plpmtu d) in
      Ret (set_plpmtu d c (Some floor)) in
  Ret (set_addr d addr).

Definition set_shard (d : DataPlane) (shard_id num_shards : N) : DataPlane :=
  set_transport d (Tp.set_shard (transport d) shard_id num_shards).

Definition set_fec_repair_ratio (d : DataPlane) (r : spec_float) : DataPlane :=
  set_transport d (Tp.set_fec_repair_ratio (transport d) r).

Definition source_mac_from_ethernet_frame (inner : list u8) : run (option (list u8)) :=
  if length inner <? ETHERNET_HEADER_LEN then Ret None
  else
  let! src := slice_run ETHERNET_SOURCE_MAC_OFFSET (ETHERNET_SOURCE_MAC_OFFSET + 6) inner in
  Ret (Some src).

Definition f32_of_u16 (n : N) : spec_float := binary_normalize 24 128 (Z.of_N (N.min n 65535)) 0 false.

Definition fraction_f32 (numerator denominator : N) : spec_float :=
  if (denominator =? 0)%N then f32_zero
  else f32_clamp (SFdiv 24 128 (f32_of_u16 numerator) (f32_of_u16 denominator)) f32_zero f32_one.

(** Learn the source address of an Ethernet frame. *)
Definition learn_source (d : DataPlane) (inner : list u8) (peer : N) (o : LearnOrigin) (now_ms : N) : run DataPlane :=
  if l2 d then
    let! src := source_mac_from_ethernet_frame inner in
    match src with
    | Some src_mac => let! m := Mac.learn (mac_table d) src_mac peer o now_ms in Ret (set_mac d m)
    | None => Ret d
    end
  else Ret d.

(** [type byte][frame] *)
Definition data_datagram (d : DataPlane) (sym : Symbol) (counter : N) (class : FlowClass) : EgressDatagram :=
  mkDatagram (object_id sym) (peer_addr d)
    (PACKET_DATA :: Wire.frame (codec d) (symbol_to_frame (conn_tag d) sym counter class)).

(** [type byte][counter][ciphertext] *)
Definition control_datagram (d : DataPlane) (s : Sess.Sealed) : EgressDatagram :=
  mkDatagram 0 (peer_addr d) (PACKET_CONTROL :: to_be_bytes 8 (Sess.counter s) ++ Sess.ciphertext s).

(** *** From the tunnel device *)

Definition on_tun_packet (d : DataPlane) (inner : list u8) (now_ms : N) : run (DataPlane * list EgressDatagram) :=
  let! d := learn_source d inner LOCAL_TAP_PEER_ID LocalTap now_ms in
  match Sess.seal_into (session d) inner with
  | (s, Err _) => Ret (set_session d s, [])
  | (s, Ok (counter, seal_buf)) =>
      let d := set_session d s in
      let! ' (tp, (class, symbols)) := Tp.encode (transport d) seal_buf inner (l2 d) now_ms in
      let d := set_transport d tp in
      let log := Log.insert (sent_log d) counter class in
      let buf := match symbols with
                 | sym :: _ => Retx.put (retx d) counter seal_buf class (object_id sym) now_ms
                 | [] => retx d
                 end in
      let d := set_logs d log buf in
      Ret (d, map (fun sym => data_datagram d sym counter class) symbols)
  end.

(** *** From the network: data *)

Definition on_data (d : DataPlane) (wire : list u8) (now_ms : N) : run (DataPlane * Outcome) :=
  let! deframed := Wire.deframe (codec d) wire in
  match deframed with
  | Err _ => Ret (d, NoOutcome)
  | Ok frame =>
      let! parsed := frame_to_symbol frame in
      match parsed with
      | None => Ret (d, NoOutcome)
      | Some (sym, counter, class) =>
          let! fresh := Sess.check_replay (session d) counter in
          if negb fresh then Ret (d, NoOutcome)
          else
          let! det := Detector.on_seen (detector d) counter now_ms in
          let d := set_detector d det in
          let! ' (tp, decoded) := Tp.decode (transport d) counter sym class now_ms in
          let d := set_transport d tp in
          match decoded with
          | None => Ret (d, NoOutcome)
          | Some ciphertext =>
              let! det := Detector.on_delivered (detector d) counter in
              let d := set_detector d det in
              let! ' (s, opened) := Sess.open (session d) counter ciphertext in
              let d := set_session d s in
              match opened with
              | Err _ => Ret (d, NoOutcome)
              | Ok inner =>
                  let d := set_transport d (Tp.observe_ingress (transport d) inner (l2 d) now_ms) in
                  let! d := learn_source d inner SINGLE_REMOTE_PEER_ID Peer now_ms in
                  Ret (d, TunWrite inner)
              end
          end
      end
  end.

(** *** From the network: feedback *)

(** Missing counters attributed to classes through the sent log. *)
Definition attribute_losses (log : SentLog) (missing : list N) : ClassCounts :=
  fold_left (fun k c => match Log.get log c with Some class => Log.bump k class | None => k end)
    missing (mkCounts 0 0 0).

(** Packets sent in the window the report covers, and the window's new end. *)
Definition sent_in_window (d : DataPlane) (high : N) : DataPlane * ClassCounts :=
  if (last_loss_report_high d <? high)%N then
    let start := if (last_loss_report_high d =? 0)%N
                 then match log_order (sent_log d) with (c, _) :: _ => c | [] => 0%N end
                 else sat_add64 (last_loss_report_high d) 1 in
    (set_report_high d high, Log.count_classes_in_range (sent_log d) start high)
  else (d, mkCounts (Log.count_class (sent_log d) Realtime) (Log.count_class (sent_log d) Bulk)
             (Log.count_class (sent_log d) Default)).

Definition observe_class (d : DataPlane) (class : FlowClass) (missing sent : N) :
    run (DataPlane * option spec_float) :=
  if (0 <? sent)%N || (0 <? missing)%N then
    let denom := N.max (N.max sent missing) 1 in
    let frac := fraction_f32 missing denom in
    let! tp := Tp.observe_loss (transport d) class frac in
    Ret (set_transport d tp, Some frac)
  else Ret (d, None).

Definition severe (frac : option spec_float) (sent : N) : bool :=
  match frac with Some f => SFleb f32_0_8 f | None => false end && (3 <=? sent)%N.

(** Fresh symbols for one missing counter, if it is still buffered and its
    class is retransmitted. *)
Definition retransmit_one (now_ms : N) (acc : DataPlane * list EgressDatagram) (missing_counter : N) :
    run (DataPlane * list EgressDatagram) :=
  let '(d, pkts) := acc in
  match Retx.get (retx d) missing_counter now_ms with
  | None => Ret (d, pkts)
  | Some (ct, cls, oid) =>
      if negb (arq (params cls)) then Ret (d, pkts)
      else
      let d := set_arq d (sat_add64 (arq_retx_count d) 1) in
      let! ' (tp, syms) := Tp.repair_object (transport d) ct cls oid RETX_EXTRA_REPAIR in
      let d := set_transport d tp in
      Ret (d, pkts ++ map (fun sym =>
        mkDatagram oid (peer_addr d)
          (PACKET_DATA :: Wire.frame (codec d) (symbol_to_frame (conn_tag d) sym missing_counter cls))) syms)
  end.

Definition on_feedback (d : DataPlane) (report : LossReport) (now_ms : N) : run (DataPlane * Outcome) :=
  let lost := attribute_losses (sent_log d) (missing report) in
  let '(d, sent) := sent_in_window d (high_counter report) in
  let! ' (d, _) := observe_class d Realtime (n_realtime lost) (n_realtime sent) in
  let! ' (d, frac_bulk) := observe_class d Bulk (n_bulk lost) (n_bulk sent) in
  let! ' (d, frac_default) := observe_class d Default (n_default lost) (n_default sent) in
  let! d :=
    if severe frac_default (n_default sent) || severe frac_bulk (n_bulk sent) then
      let! ' (c, floor) := Plpmtu.on_blackhole (plpmtu d) in
      Ret (set_plpmtu d c floor)
    else Ret d in
  let! ' (d, pkts) := rfold (retransmit_one now_ms) (missing report) (d, []) in
  Ret (d, match pkts with [] => NoOutcome | _ => Send pkts end).

(** *** From the network: control *)

Definition on_control (d : DataPlane) (dg : list u8) (now_ms : N) : run (DataPlane * Outcome) :=
  if length dg <? 9 then Ret (d, NoOutcome)
  else
  let! c := slice_run 1 9 dg in
  let! ct := slice_run 9 (length dg) dg in
  let counter := from_be_bytes c in
  let! ' (s, opened) := Sess.open (session d) counter ct in
  let d := set_session d s in
  match opened with
  | Err _ => Ret (d, NoOutcome)
  | Ok plaintext =>
      let! det := Detector.on_seen (detector d) counter now_ms in
      let! det := Detector.on_delivered det counter in
      let d := set_detector d det in
      let! frame := Control.decode plaintext in
      match frame with
      | None => Ret (d, NoOutcome)
      | Some (Feedback report) => on_feedback d report now_ms
      | Some (MtuProbe probe_id target_symbol_size _) =>
          match Sess.seal (session d) (Control.encode (MtuProbeAck probe_id target_symbol_size)) with
          | (s, Err _) => Ret (set_session d s, NoOutcome)
          | (s, Ok sealed) => let d := set_session d s in Ret (d, Send [control_datagram d sealed])
          end
      | Some (MtuProbeAck probe_id accepted_symbol_size) =>
          let! ' (c, new_sym) := Plpmtu.on_ack (plpmtu d) probe_id accepted_symbol_size in
          Ret (set_plpmtu d c new_sym, NoOutcome)
      end
  end.

Definition on_udp_datagram (d : DataPlane) (dg : list u8) (now_ms : N) : run (DataPlane * Outcome) :=
  match dg with
  | [] => Ret (d, NoOutcome)
  | b :: wire =>
      if decide (b = PACKET_DATA) then on_data d wire now_ms
      else if decide (b = PACKET_CONTROL) then on_control d dg now_ms
      else Ret (d, NoOutcome)
  end.

(** *** The tick *)

(** Seal a control frame into a datagram. *)
Definition seal_control (d : DataPlane) (f : ControlFrame) : DataPlane * list EgressDatagram :=
  match Sess.seal (session d) (Control.encode f) with
  | (s, Err _) => (set_session d s, [])
  | (s, Ok sealed) => let d := set_session d s in (d, [control_datagram d sealed])
  end.

(** [jitter] is the re-rolled interval used when obfuscation is on, [entries]
    the order in which the address table is iterated. *)
Definition tick (d : DataPlane) (jitter : N) (entries : list (list u8 * nat)) (now_ms : N) :
    run (DataPlane * list EgressDatagram) :=
  let! d :=
    if (MAC_SWEEP_INTERVAL_MS <=? now_ms - last_sweep_ms d)%N then
      let! m := Mac.sweep entries (mac_table d) now_ms in
      Ret (set_timers (set_mac d m) (last_feedback_ms d) (last_log_ms d) now_ms (feedback_interval_ms d))
    else Ret d in
  let d := if (LOG_INTERVAL_MS <=? now_ms - last_log_ms d)%N
           then set_timers d (last_feedback_ms d) now_ms (last_sweep_ms d) (feedback_interval_ms d)
           else d in
  if (now_ms - last_feedback_ms d <? feedback_interval_ms d)%N then
    let! ' (c, probe) := Plpmtu.on_tick (plpmtu d) now_ms in
    let d := set_plpmtu d c None in
    match probe with
    | None => Ret (d, [])
    | Some (probe_id, target_symbol_size, pad_len) =>
        Ret (seal_control d (MtuProbe probe_id target_symbol_size (replicate pad_len Byte.x00)))
    end
  else
  let interval := if obf_on d then jitter else FEEDBACK_INTERVAL_MS in
  let d := set_timers d now_ms (last_log_ms d) (last_sweep_ms d) interval in
  let! ' (det, report) := Detector.report (detector d) now_ms in
  Ret (seal_control (set_detector d det) (Feedback report)).

End dataplane.
End Dp.
