(* ===== verification/DataPlaneWf.v ===== *)
(** * The data plane never panics

    The invariant of [DataPlane] (bin/yipd/src/dataplane.rs), assembled from
    those of its components, and its preservation by every entry point. *)

From Stdlib Require Strings.Byte.
From Stdlib Require Import NArith ZArith SpecFloat Lia.
From stdpp Require Import base numbers gmap sets list.
From S2P Require Import Prelude Gf256 RsSimd LinAlg Rs RsMds RsDecode RsReconstruct.
From S2P Require Import ObjTable FifoMap Fec FecEncode FecWf FecDelivery AntiReplay Session Wire.
From S2P Require Import Feedback Plpmtu LossDetect RetxBuf Adaptive Flow Classify Transport MacTable WireGlue.
From S2P Require Import DataPlane.

Local Open Scope nat_scope.

Module DpWf.
Import Dp.

(** Objects short enough to be encoded. *)
Definition short (ct : list u8) : Prop := (N.of_nat (length ct) < u32_mod)%N.

Definition buffered_short (b : RetxBuffer) : Prop :=
  forall c e, r_map b !! c = Some e -> short (e_ciphertext e).

Lemma put_short b c ct class oid now :
  buffered_short b -> short ct -> buffered_short (Retx.put b c ct class oid now).
Proof.
  intros Hb Hct. unfold Retx.put. cbv zeta. destruct (r_map b !! c).
  - intros c' e'. cbn. intros [[<- <-]|[_ E]]%lookup_insert_Some; [done|by apply (Hb c')].
  - unfold Retx.evict_expired.
    pose proof (evict_loop_subset (Retx.expired (r_ttl_ms b) now) (r_order b) (r_map b)) as H1.
    destruct evict_loop as [m o]. cbn [fst] in H1. cbn.
    pose proof (make_room_subset (r_max b) m o) as H2. destruct make_room as [m' o']. cbn [fst] in H2.
    intros c' e'. cbn. intros [[<- <-]|[_ E]]%lookup_insert_Some; [done|]. apply (Hb c').
    eapply lookup_weaken; [|exact H1]. by eapply lookup_weaken.
Qed.

Lemma get_short b c now ct class oid : buffered_short b -> Retx.get b c now = Some (ct, class, oid) -> short ct.
Proof.
  intros Hb. unfold Retx.get. destruct (r_map b !! c) as [e|] eqn:E; [|done].
  destruct (Retx.expired _ _ _); [done|]. intros [= <- _ _]. by apply (Hb c).
Qed.

Section wf.
Context {cpu : Cpu} {aead : Sess.Aead} {sip : SipHash}.
Context {Addr : Type} `{EqDecision Addr}.
Implicit Types d : DataPlane (Addr := Addr).

Record dp_wf d : Prop := {
  dw_tp : Tp.wf (transport d);
  dw_session : exists sp, Replay.refines (Sess.replay (session d)) sp;
  dw_det : Detector.inv (detector d);
  dw_mac : exists l q, Mac.rep (mac_table d) l q;
  dw_mtu : Plpmtu.wf (plpmtu d);
  dw_retx : buffered_short (retx d);
}.

(** The clock is in range. *)
Definition clock (now : N) : Prop := (20 * now < u64_mod)%N.

Lemma new_wf s auth hp tag tap addr obf sym :
  Sess.replay s = Replay.window_new -> sym <> 0%N -> dp_wf (new s auth hp tag tap addr obf sym).
Proof.
  intros Hs Hsym. split; cbn.
  - by apply Tp.tp_new_wf.
  - rewrite Hs. eexists. apply Replay.new_refines.
  - apply Detector.new_inv.
  - exists [], []. apply Mac.rep_new.
  - apply Plpmtu.mtu_new_wf.
  - intros c e. cbn. by rewrite lookup_empty.
Qed.

(** Learning touches the address table only. *)
Lemma learn_source_ok d inner peer o now :
  dp_wf d -> exists m, learn_source d inner peer o now = Ret (set_mac d m) /\ dp_wf (set_mac d m).
Proof.
  intros Hd. assert (learn_source d inner peer o now = Ret d -> exists m,
    learn_source d inner peer o now = Ret (set_mac d m) /\ dp_wf (set_mac d m)) as Hid.
  { intros ->. exists (mac_table d). replace (set_mac d (mac_table d)) with d by (by destruct d). done. }
  unfold learn_source in *. destruct (l2 d); [|by apply Hid].
  unfold source_mac_from_ethernet_frame in *. destruct (Nat.ltb_spec (length inner) ETHERNET_HEADER_LEN) as [|Hl];
    [by apply Hid|]. clear Hid. unfold ETHERNET_HEADER_LEN in Hl.
  rewrite slice_run_ok by (unfold ETHERNET_SOURCE_MAC_OFFSET; lia). cbn [rbind].
  destruct Hd as [H1 H2 H3 (l & q & R) H5 H6].
  destruct (Mac.learn_ok (mac_table d) l q (slice ETHERNET_SOURCE_MAC_OFFSET (ETHERNET_SOURCE_MAC_OFFSET + 6) inner)
    peer o now R) as (m & l' & -> & R' & _). cbn [rbind]. exists m. split; [done|]. split; cbn; eauto.
Qed.

Lemma session_open_ok (s : Sess.Session) c ct :
  (exists sp, Replay.refines (Sess.replay s) sp) ->
  exists s' r, Sess.open s c ct = Ret (s', r) /\ exists sp, Replay.refines (Sess.replay s') sp.
Proof.
  intros [sp Hr]. destruct (Sess.open_step s sp c ct Hr) as [[e ->]|(p & rw & -> & _ & _ & _ & Hr')]; eauto 10.
Qed.

Lemma on_data_ok d wire now :
  dp_wf d -> clock now -> exists d' o, on_data d wire now = Ret (d', o) /\ dp_wf d'.
Proof.
  intros Hd Hnow. unfold on_data.
  destruct (Wire.deframe_cases (codec d) wire) as [[-> _]|[[-> _]|(f & -> & _)]]; cbn [rbind]; [eauto..|].
  destruct (frame_to_symbol_total f) as [o ->]. cbn [rbind]. destruct o as [[[sym c] class]|]; [|eauto].
  pose proof Hd as [H1 [sp Hsp] H3 H4 H5 H6]. unfold Sess.check_replay.
  rewrite (Replay.check_refines _ _ c Hsp). cbn [rbind]. destruct (negb _); [eauto|].
  destruct (Detector.on_seen_inv (detector d) c now H3) as (det & -> & Hdet & _). cbn [rbind].
  destruct (Tp.decode_ok (transport d) c sym class now H1) as (tp & out & Edec & Htp & _).
  cbn [transport set_detector]. rewrite Edec. cbn [rbind]. destruct out as [ct|]; cycle 1.
  { eexists _, _. split; [done|]. split; cbn; eauto. }
  cbn [detector set_transport set_detector session].
  destruct (Detector.on_delivered_inv det c Hdet) as (det' & -> & Hdet' & _). cbn [rbind].
  destruct (session_open_ok (session d) c ct ltac:(eauto)) as (s' & r & -> & Hs'). cbn [rbind].
  destruct r as [inner|e]; cycle 1.
  { eexists _, _. split; [done|]. split; cbn; eauto. }
  match goal with |- context [learn_source ?x _ _ _ _] => destruct (learn_source_ok x inner SINGLE_REMOTE_PEER_ID Peer now)
    as (m & -> & Hm) end.
  - split; cbn; eauto. by apply Tp.observe_ingress_wf.
  - cbn [rbind]. eauto.
Qed.

(** Fields of the state other than the transport, the report mark, the
    retransmit count and the path MTU controller are left alone by feedback. *)
Lemma set_transport_wf d tp : dp_wf d -> Tp.wf tp -> dp_wf (set_transport d tp).
Proof. intros [] Htp. by split. Qed.

Lemma observe_class_ok d class missing sent :
  dp_wf d -> exists d' f, observe_class d class missing sent = Ret (d', f) /\ dp_wf d'.
Proof.
  intros Hd. unfold observe_class. destruct (_ || _); [|eauto]. cbv zeta.
  destruct (Tp.observe_loss_ok (transport d) class (fraction_f32 missing (N.max (N.max sent missing) 1)) (dw_tp _ Hd))
    as (tp & -> & Htp & _). cbn [rbind]. eexists _, _. split; [done|]. by apply set_transport_wf.
Qed.

Lemma set_plpmtu_wf d c size :
  dp_wf d -> Plpmtu.wf c -> (forall s, size = Some s -> s <> 0%N) -> dp_wf (set_plpmtu d c size).
Proof.
  intros [H1 H2 H3 H4 H5 H6] Hc Hs. split; cbn; try done.
  destruct size as [s|]; [|done]. apply Tp.set_symbol_size_wf; auto.
Qed.

(** The controller's answers are sizes of the ladder. *)
Lemma on_blackhole_ok c :
  Plpmtu.wf c -> exists c' r, Plpmtu.on_blackhole c = Ret (c', r) /\ Plpmtu.wf c' /\ forall s, r = Some s -> s <> 0%N.
Proof.
  intros Hc. destruct (Plpmtu.mtu_step_ok c Plpmtu.Blackhole Hc) as (c' & E & Hc' & _).
  unfold Plpmtu.step in E. unfold Plpmtu.on_blackhole in *. cbn in *.
  destruct (_ <? _)%N; cbn in E; injection E as <-; eexists _, _; (split; [done|]); split; try done; by intros s [= <-].
Qed.

Lemma on_ack_ok c id size :
  Plpmtu.wf c -> exists c' r, Plpmtu.on_ack c id size = Ret (c', r) /\ Plpmtu.wf c' /\ forall s, r = Some s -> s <> 0%N.
Proof.
  intros Hc. destruct (Plpmtu.mtu_step_ok c (Plpmtu.Ack id size) Hc) as (c' & E & Hc' & _).
  unfold Plpmtu.step in E. destruct (Plpmtu.on_ack c id size) as [[c2 r]|] eqn:Ea; [|done].
  cbn in E. injection E as ->. eexists _, _. split; [done|]. split; [done|]. intros s ->.
  unfold Plpmtu.on_ack in Ea. destruct (ctl_state c) as [t a|] eqn:Es; [|done].
  destruct Hc as [Hc _]. rewrite Es in Hc. destruct Hc as (Ht & _).
  destruct (Plpmtu.tier_cases t Ht) as [-> | [-> | ->]]; cbn in Ea;
    destruct (_ && _) eqn:Eb in Ea; try done; injection Ea as _ <-; apply andb_true_iff in Eb as [_ ->%N.eqb_eq]; done.
Qed.

Lemma reset_ok c :
  Plpmtu.wf c -> exists c' s, Plpmtu.reset_to_floor c = Ret (c', s) /\ Plpmtu.wf c' /\ s <> 0%N.
Proof.
  intros Hc. destruct (Plpmtu.mtu_step_ok c Plpmtu.Roam Hc) as (c' & E & Hc' & _).
  unfold Plpmtu.step, Plpmtu.reset_to_floor in *. cbn in *. injection E as <-. by eexists _, _.
Qed.

Lemma on_tick_ok c now : Plpmtu.wf c -> exists c' r, Plpmtu.on_tick c now = Ret (c', r) /\ Plpmtu.wf c'.
Proof.
  intros Hc. destruct (Plpmtu.mtu_step_ok c (Plpmtu.Tick now) Hc) as (c' & E & Hc' & _).
  unfold Plpmtu.step in E. destruct (Plpmtu.on_tick c now) as [[c2 r]|]; [|done]. cbn in E. injection E as ->. eauto.
Qed.

Lemma retransmits_ok now l : forall d pkts,
  dp_wf d -> exists d' pkts', rfold (retransmit_one now) l (d, pkts) = Ret (d', pkts') /\ dp_wf d'.
Proof.
  induction l as [|c l IH]; intros d pkts Hd; cbn [rfold]; [eauto|].
  assert (exists d' pkts', retransmit_one now (d, pkts) c = Ret (d', pkts') /\ dp_wf d') as (d' & p' & -> & Hd').
  { unfold retransmit_one. destruct (Retx.get (retx d) c now) as [[[ct cls] oid]|] eqn:E; [|eauto].
    destruct (negb _); [eauto|]. cbv zeta. cbn [transport set_arq].
    destruct (Tp.repair_object_ok (transport d) ct cls oid RETX_EXTRA_REPAIR (dw_tp _ Hd)) as (tp & syms & -> & Htp & _).
    { by apply (get_short (retx d) c now ct cls oid); [apply Hd|]. }
    cbn [rbind]. eexists _, _. split; [done|]. destruct Hd. by split. }
  cbn [rbind]. by apply IH.
Qed.

Lemma on_feedback_ok d r now : dp_wf d -> exists d' o, on_feedback d r now = Ret (d', o) /\ dp_wf d'.
Proof.
  intros Hd. unfold on_feedback. cbv zeta.
  assert (dp_wf (sent_in_window d (high_counter r)).1) as Hd0.
  { unfold sent_in_window. destruct (_ <? _)%N; [|done]. cbn. destruct Hd. by split. }
  destruct (sent_in_window d (high_counter r)) as [d0 sent]. cbn [fst] in Hd0.
  destruct (observe_class_ok d0 Realtime (n_realtime (attribute_losses (sent_log d) (missing r))) (n_realtime sent) Hd0)
    as (d1 & f1 & -> & Hd1). cbn [rbind].
  destruct (observe_class_ok d1 Bulk (n_bulk (attribute_losses (sent_log d) (missing r))) (n_bulk sent) Hd1)
    as (d2 & f2 & -> & Hd2). cbn [rbind].
  destruct (observe_class_ok d2 Default (n_default (attribute_losses (sent_log d) (missing r))) (n_default sent) Hd2)
    as (d3 & f3 & -> & Hd3). cbn [rbind].
  assert (exists d4, (if severe f3 (n_default sent) || severe f2 (n_bulk sent)
    then let! ' (c, floor) := Plpmtu.on_blackhole (plpmtu d3) in Ret (set_plpmtu d3 c floor)
    else Ret d3) = Ret d4 /\ dp_wf d4) as (d4 & -> & Hd4).
  { destruct (_ || _); [|eauto]. destruct (on_blackhole_ok (plpmtu d3) (dw_mtu _ Hd3)) as (c & fl & -> & Hc & Hs).
    cbn [rbind]. eexists. split; [done|]. by apply set_plpmtu_wf. }
  cbn [rbind]. destruct (retransmits_ok now (missing r) d4 [] Hd4) as (d5 & pkts & -> & Hd5). cbn [rbind]. eauto.
Qed.

Lemma seal_window (s : Sess.Session) p : Sess.replay (Sess.seal s p).1 = Sess.replay s.
Proof.
  unfold Sess.seal, Sess.next_counter. destruct (Sess.seal_append _ _ _); [|done]. by destruct (_ <? _)%N.
Qed.

Lemma set_session_wf d s : dp_wf d -> Sess.replay s = Sess.replay (session d) -> dp_wf (set_session d s).
Proof. intros [H1 H2 H3 H4 H5 H6] E. split; cbn; try done. by rewrite E. Qed.

Lemma on_control_ok d dg now : dp_wf d -> exists d' o, on_control d dg now = Ret (d', o) /\ dp_wf d'.
Proof.
  intros Hd. unfold on_control. destruct (Nat.ltb_spec (length dg) 9); [eauto|].
  rewrite !slice_run_ok by lia. cbn [rbind]. cbv zeta. set (c := from_be_bytes _). set (ct := slice 9 _ dg).
  pose proof Hd as [H1 H2 H3 H4 H5 H6].
  destruct (session_open_ok (session d) c ct H2) as (s' & r & -> & Hs'). cbn [rbind].
  assert (dp_wf (set_session d s')) as Hd1 by (split; cbn; eauto).
  destruct r as [plain|e]; [|eauto]. cbn [detector set_session].
  destruct (Detector.on_seen_inv (detector d) c now H3) as (det & -> & Hdet & _). cbn [rbind].
  destruct (Detector.on_delivered_inv det c Hdet) as (det' & -> & Hdet' & _). cbn [rbind].
  assert (dp_wf (set_detector (set_session d s') det')) as Hd2 by (destruct Hd1; by split).
  destruct (Control.control_decode_total plain) as [o ->]. cbn [rbind].
  destruct o as [[rep|id target pad|id acc]|]; [by apply on_feedback_ok| | |eauto].
  - match goal with |- context [Sess.seal ?s ?p] => pose proof (seal_window s p) as Hw; destruct (Sess.seal s p) as [s2 [sealed|e]] end;
      eexists _, _; (split; [done|]); by apply set_session_wf.
  - destruct (on_ack_ok (plpmtu (set_detector (set_session d s') det')) id acc (dw_mtu _ Hd2)) as (p & r & -> & Hp & Hr).
    cbn [rbind]. eexists _, _. split; [done|]. by apply set_plpmtu_wf.
Qed.

Lemma on_udp_ok d dg now :
  dp_wf d -> clock now -> exists d' o, on_udp_datagram d dg now = Ret (d', o) /\ dp_wf d'.
Proof.
  intros Hd Hnow. unfold on_udp_datagram. destruct dg as [|b wire]; [eauto|].
  destruct (decide _); [by apply on_data_ok|]. destruct (decide _); [by apply on_control_ok|eauto].
Qed.

Section sealing.
Context {laws : Sess.AeadLaws}.

Lemma on_tun_ok d inner now :
  dp_wf d -> clock now -> (N.of_nat (length inner) + 16 < u32_mod)%N ->
  exists d' out, on_tun_packet d inner now = Ret (d', out) /\ dp_wf d'.
Proof.
  intros Hd Hnow Hlen. unfold on_tun_packet.
  destruct (learn_source_ok d inner LOCAL_TAP_PEER_ID LocalTap now Hd) as (m & -> & Hd1). cbn [rbind].
  set (d1 := set_mac d m) in *. unfold Sess.seal_into.
  destruct (Sess.seal_append _ _ inner) as [ct|] eqn:Ect; cycle 1.
  { eexists _, _. split; [done|]. by apply set_session_wf. }
  unfold Sess.next_counter. destruct (_ <? _)%N; cycle 1.
  { eexists _, _. split; [done|]. by apply set_session_wf. }
  assert (short ct) as Hct.
  { unfold Sess.seal_append in Ect. destruct (Sess.aead_seal _ _ inner) as [[c tag]|] eqn:Es; [|done].
    injection Ect as <-. destruct (Sess.seal_lengths _ _ _ _ _ Es) as [Hc Ht]. unfold short.
    rewrite length_app. lia. }
  match goal with |- context [set_session d1 ?s] => assert (dp_wf (set_session d1 s)) as Hd2 by (by apply set_session_wf);
    set (d2 := set_session d1 s) in * end.
  destruct (Tp.encode_ok (transport d2) ct inner (l2 d2) now (dw_tp _ Hd2) Hnow Hct)
    as (tp & class & rep & syms & -> & Htp & _). cbn [rbind].
  eexists _, _. split; [done|]. destruct Hd2 as [H1 H2 H3 H4 H5 H6]. split; cbn; try done.
  destruct syms as [|sym syms]; [done|]. by apply put_short.
Qed.
End sealing.

Lemma seal_control_wf d f : dp_wf d -> dp_wf (seal_control d f).1.
Proof.
  intros Hd. unfold seal_control. pose proof (seal_window (session d) (Control.encode f)) as Hw.
  destruct (Sess.seal (session d) (Control.encode f)) as [s [sealed|e]]; by apply set_session_wf.
Qed.

Lemma set_timers_wf d a b c i : dp_wf d -> dp_wf (set_timers d a b c i).
Proof. intros []. by split. Qed.

Lemma tick_ok d jitter es now :
  dp_wf d -> es ≡ₚ map_to_list (index (mac_table d)) ->
  exists d' out, tick d jitter es now = Ret (d', out) /\ dp_wf d'.
Proof.
  intros Hd Hes. unfold tick.
  match goal with |- context [rbind ?e _] => assert (exists d1, e = Ret d1 /\ dp_wf d1) as (d1 & -> & Hd1) end.
  { destruct (_ <=? _)%N; [|eauto]. destruct (dw_mac _ Hd) as (l & q & R).
    destruct (Mac.mac_sweep_ok es (mac_table d) l q now R Hes) as (m & l' & -> & R' & _). cbn [rbind].
    eexists. split; [done|]. apply set_timers_wf. destruct Hd. split; cbn; eauto. }
  cbn [rbind]. cbv zeta. set (d2 := if (_ <=? _)%N then _ else d1).
  assert (dp_wf d2) as Hd2 by (unfold d2; destruct (_ <=? _)%N; [by apply set_timers_wf|done]). clearbody d2.
  destruct (_ <? _)%N.
  - destruct (on_tick_ok (plpmtu d2) now (dw_mtu _ Hd2)) as (c & r & -> & Hc). cbn [rbind].
    assert (dp_wf (set_plpmtu d2 c None)) as Hd3 by (by apply set_plpmtu_wf).
    destruct r as [[[id target] pad]|]; [|eauto].
    match goal with |- context [seal_control ?d ?f] => pose proof (seal_control_wf d f Hd3) as Hs;
      destruct (seal_control d f) as [d4 out] end. by eexists _, _.
  - set (d3 := set_timers d2 _ _ _ _).
    assert (dp_wf d3) as Hd3 by (by apply set_timers_wf). clearbody d3.
    destruct (Detector.report_inv (detector d3) now (dw_det _ Hd3)) as (det & r & -> & Hdet & _). cbn [rbind].
    assert (dp_wf (set_detector d3 det)) as Hd4 by (destruct Hd3; by split).
    match goal with |- context [seal_control ?d ?f] => pose proof (seal_control_wf d f Hd4) as Hs;
      destruct (seal_control d f) as [d5 out] end. by eexists _, _.
Qed.

Lemma set_peer_addr_ok d a : dp_wf d -> exists d', set_peer_addr d a = Ret d' /\ dp_wf d'.
Proof.
  intros Hd. unfold set_peer_addr.
  match goal with |- context [rbind ?e _] => assert (exists d1, e = Ret d1 /\ dp_wf d1) as (d1 & -> & []) end.
  { destruct (decide _); [eauto|]. destruct (reset_ok (plpmtu d) (dw_mtu _ Hd)) as (c & s & -> & Hc & Hs).
    cbn [rbind]. eexists. split; [done|]. apply set_plpmtu_wf; [done..|]. by intros ? [= <-]. }
  cbn [rbind]. eexists. split; [done|]. by split.
Qed.

(** *** Histories of a data plane *)

Inductive event :=
| Tun (inner : list u8) (now : N)
| Udp (dg : list u8) (now : N)
| Timer (jitter : N) (order : gmap (list u8) nat -> list (list u8 * nat)) (now : N)
| Roam (addr : Addr)
| FecRatio (r : spec_float)
| Shard (id num : N).

Definition step d (e : event) : run DataPlane :=
  match e with
  | Tun inner now => let! ' (d', _) := on_tun_packet d inner now in Ret d'
  | Udp dg now => let! ' (d', _) := on_udp_datagram d dg now in Ret d'
  | Timer jitter order now => let! ' (d', _) := tick d jitter (order (index (mac_table d))) now in Ret d'
  | Roam addr => set_peer_addr d addr
  | FecRatio r => Ret (set_fec_repair_ratio d r)
  | Shard id num => Ret (set_shard d id num)
  end.

(** Packets of a tunnel device fit the object format, the clock stays below
    2^64 / 20 ms, and the address table is iterated in some order of its
    entries. The datagrams are unconstrained. *)
Definition event_ok (e : event) : Prop :=
  match e with
  | Tun inner now => clock now /\ (N.of_nat (length inner) + 16 < u32_mod)%N
  | Udp _ now => clock now
  | Timer _ order _ => forall m, order m ≡ₚ map_to_list m
  | Roam _ | FecRatio _ | Shard _ _ => True
  end.

Lemma step_ok {laws : Sess.AeadLaws} d e : dp_wf d -> event_ok e -> exists d', step d e = Ret d' /\ dp_wf d'.
Proof.
  intros Hd He. destruct e as [inner now|dg now|jitter order now|addr|r|id num]; cbn [step event_ok] in *.
  - destruct He as [H1 H2]. destruct (on_tun_ok d inner now Hd H1 H2) as (d' & o & -> & H). cbn [rbind]. eauto.
  - destruct (on_udp_ok d dg now Hd He) as (d' & o & -> & H). cbn [rbind]. eauto.
  - destruct (tick_ok d jitter _ now Hd (He _)) as (d' & o & -> & H). cbn [rbind]. eauto.
  - by apply set_peer_addr_ok.
  - eexists. split; [done|]. apply set_transport_wf; [done|]. by apply Tp.set_fec_repair_ratio_wf, Hd.
  - eexists. split; [done|]. apply set_transport_wf; [done|]. by apply Tp.set_shard_wf, Hd.
Qed.

Lemma steps_ok {laws : Sess.AeadLaws} evs : forall d,
  dp_wf d -> Forall event_ok evs -> exists d', rfold step evs d = Ret d' /\ dp_wf d'.
Proof.
  induction evs as [|e evs IH]; intros d Hd Hevs; cbn [rfold]; [eauto|].
  apply Forall_cons in Hevs as [He Hevs]. destruct (step_ok d e Hd He) as (d' & -> & Hd'). cbn [rbind]. eauto.
Qed.

(** C15: A data plane never panics. From a fresh one (any keys, addresses and
    options, a non-zero symbol size), any sequence of packets from the tunnel,
    datagrams from the network with any contents, timer ticks, address changes,
    shard and redundancy settings is handled without an index out of range, an
    integer overflow, a failed expectation or a loop that does not end, and the
    invariants of the transport, the session, the loss detector, the MAC table,
    the path MTU controller and the retransmit buffer hold afterwards. *)
Theorem dataplane_never_panics {laws : Sess.AeadLaws} s auth hp tag tap addr obf sym evs :
  Sess.replay s = Replay.window_new -> sym <> 0%N -> Forall event_ok evs ->
  exists d, rfold step evs (new s auth hp tag tap addr obf sym) = Ret d /\ dp_wf d.
Proof. intros Hs Hsym Hevs. apply steps_ok; [by apply new_wf|done]. Qed.

End wf.

(** A packet out, garbage in, a tick and a roam. *)
Definition demo_history : list (event (Addr := N)) :=
  [Tun (replicate 40 Byte.x45) 10; Udp (Byte.x04 :: replicate 30 Byte.xff) 11; Udp [Byte.x05; Byte.x00] 12;
   Timer 250 map_to_list 1200; Roam 9%N; Shard 1 2].

Lemma dataplane_never_panics_witness :
  exists d, rfold (step (cpu := demo_cpu) (aead := Sess.toy_aead) (sip := Wire.toy_sip)) demo_history
    (new (Sess.toy_session 0 1) (replicate 16 Byte.x01) (replicate 16 Byte.x02) 7 true 8%N false 1120) = Ret d /\ dp_wf d.
Proof.
  apply (dataplane_never_panics (cpu := demo_cpu) (aead := Sess.toy_aead) (sip := Wire.toy_sip) (laws := Sess.toy_laws)).
  - reflexivity.
  - discriminate.
  - repeat (constructor; [first [exact I | split; reflexivity | reflexivity | intros m; reflexivity]|]). constructor.
Defined.

End DpWf.
