(* ===== verification/DataPlaneDelivery.v ===== *)
(** * A packet through the tunnel

    End-to-end behaviour of two data planes (bin/yipd/src/dataplane.rs): the
    datagrams one of them makes of a packet, received by the other in any
    order, with duplicates and losses and between other traffic, are turned
    back into the packet exactly once. *)

From Stdlib Require Strings.Byte.
From Stdlib Require Import NArith ZArith SpecFloat Lia.
From stdpp Require Import base numbers gmap sets list.
From S2P Require Import Prelude Gf256 RsSimd LinAlg Rs RsMds RsDecode RsReconstruct.
From S2P Require Import ObjTable FifoMap Fec FecEncode FecWf FecDelivery AntiReplay Session Wire.
From S2P Require Import Feedback Plpmtu LossDetect RetxBuf Adaptive Flow Classify Transport MacTable WireGlue.
From S2P Require Import DataPlane DataPlaneWf.

Local Open Scope nat_scope.

Module Tunnel.
Import Dp DpWf.

(** ** The replay window around one counter *)

(** Counters at most a window less a word apart. *)
Definition near (c x : N) : Prop := (x <= c + Sess.reorder_span /\ c <= x + Sess.reorder_span)%N.

Lemma near_refl c : near c c.
Proof. unfold near. lia. Qed.

(** A window that has taken in the counters [cs], all near [c]. *)
Definition tracks (rw : Replay.ReplayWindow) (c : N) (cs : list N) : Prop :=
  exists sp, Replay.refines rw sp /\ Replay.history Replay.HighThroughput cs sp /\ Forall (near c) cs.

Lemma seen_counter_refused cs sp c :
  Replay.history Replay.HighThroughput cs sp -> c ∈ cs -> Forall (near c) cs -> Replay.spec_check sp c = false.
Proof.
  intros [Hp Hst Hlat Hin Hseen _] Hc Hnear. rewrite Forall_forall in Hnear.
  assert (cs <> []) as Hne by (intros ->; by apply not_elem_of_nil in Hc).
  destruct (Hnear _ (Hin Hne)) as [Hs _]. unfold Sess.reorder_span in Hs.
  assert (Replay.in_ring Replay.HighThroughput (Replay.sp_latest sp) c = true) as Hring.
  { unfold Replay.in_ring. apply N.ltb_lt. change (Replay.span Replay.HighThroughput) with 2048%N.
    change (Replay.bits Replay.HighThroughput - 64)%N with (2047 * 64)%N in Hs.
    assert (Replay.sp_latest sp / 64 <= (c + 2047 * 64) / 64)%N as H by (by apply N.Div0.div_le_mono).
    rewrite N.div_add in H by done. lia. }
  apply Replay.spec_check_seen; rewrite ?Hp; auto. rewrite Hst. by apply bool_decide_true.
Qed.

Lemma tracks_check rw c cs : tracks rw c cs -> Replay.check rw c = Ret (bool_decide (c ∉ cs)).
Proof.
  intros (sp & Hr & Hh & Hn). rewrite (Replay.check_refines _ _ c Hr). f_equal.
  destruct (decide (c ∈ cs)).
  - rewrite bool_decide_false by tauto. by apply (seen_counter_refused cs).
  - rewrite bool_decide_true by done. apply (Sess.fresh_counter_ok cs); [done..|].
    intros x Hx. rewrite Forall_forall in Hn. by apply Hn.
Qed.

(** ** One datagram *)

(** The symbol, counter and class a frame carries, when it authenticates. *)
Definition carried {sip : SipHash} (cd : Wire.Codec) (wire : list u8) : option (Symbol * N * FlowClass) :=
  match Wire.deframe cd wire with
  | Ret (Ok f) => match frame_to_symbol f with Ret o => o | Panic => None end
  | _ => None
  end.

Section tunnel.
Context {cpu : Cpu} {aead : Sess.Aead} {sip : SipHash}.
Context {Addr : Type} `{EqDecision Addr}.
Implicit Types d b : DataPlane (Addr := Addr).

Lemma on_data_not_carried d wire now :
  carried (codec d) wire = None -> on_data d wire now = Ret (d, NoOutcome).
Proof.
  unfold carried, on_data.
  destruct (Wire.deframe_cases (codec d) wire) as [[-> _]|[[-> _]|(f & -> & _)]]; cbn [rbind]; [done..|].
  destruct (frame_to_symbol_total f) as [o ->]. intros ->. done.
Qed.

Lemma learn_source_ret d inner peer o now d' :
  learn_source d inner peer o now = Ret d' -> exists m, d' = set_mac d m.
Proof.
  unfold learn_source. assert (exists m, d = set_mac d m) as Hid by (exists (mac_table d); by destruct d).
  destruct (l2 d); [|by intros [= <-]]. destruct (source_mac_from_ethernet_frame inner) as [[src|]|]; [..|done];
    cbn [rbind]; [|by intros [= <-]].
  destruct (Mac.learn _ _ _ _ _) as [m|]; [|done]. intros [= <-]. by exists m.
Qed.

(** A frame that carries a symbol: refused by the window, or decoded; a decoded
    object that opens is written to the tunnel and its counter committed. *)
Lemma on_data_carried d wire now s c class :
  dp_wf d -> clock now -> carried (codec d) wire = Some (s, c, class) ->
  exists fresh, Replay.check (Sess.replay (session d)) c = Ret fresh /\
  if negb fresh then on_data d wire now = Ret (d, NoOutcome)
  else exists tp out d' o, Tp.decode (transport d) c s class now = Ret (tp, out) /\
    on_data d wire now = Ret (d', o) /\ dp_wf d' /\ codec d' = codec d /\
    Sess.recv_key (session d') = Sess.recv_key (session d) /\
    reassemblers (transport d') = reassemblers tp /\ t_symbol_size (transport d') = t_symbol_size tp /\
    ((o = NoOutcome /\ Sess.replay (session d') = Sess.replay (session d) /\
      match out with Some ct => Sess.aead_open (Sess.recv_key (session d)) (Sess.noise_nonce c) ct = None | None => True end) \/
     exists ct inner, out = Some ct /\ Sess.aead_open (Sess.recv_key (session d)) (Sess.noise_nonce c) ct = Some inner /\
       o = TunWrite inner /\ Replay.commit (Sess.replay (session d)) c = Ret (Sess.replay (session d'))).
Proof.
  intros Hd Hnow Hc. destruct (on_data_ok d wire now Hd Hnow) as (d' & o & Erun & Hd').
  unfold carried in Hc. pose proof Erun as Ed. unfold on_data in Ed.
  destruct (Wire.deframe (codec d) wire) as [[f|e]|]; [|done..]. cbn [rbind] in Ed.
  destruct (frame_to_symbol f) as [w|]; [|done]. subst w. cbn [rbind] in Ed. unfold Sess.check_replay in Ed.
  destruct (Replay.check (Sess.replay (session d)) c) as [fresh|] eqn:Ech; [|done]. exists fresh. split; [done|].
  cbn [rbind] in Ed. destruct fresh; cbn [negb] in *; [|congruence].
  destruct (Detector.on_seen (detector d) c now) as [det|]; [|done]. cbn [rbind transport set_detector] in Ed.
  destruct (Tp.decode_ok (transport d) c s class now (dw_tp _ Hd)) as (tp & out & Edec & _ & Hsz & _).
  rewrite Edec in Ed. cbn [rbind] in Ed. exists tp, out, d', o. split; [done|]. split; [done|]. split; [done|].
  destruct out as [ct|].
  2: { injection Ed as <- <-. cbn. split_and!; try done. by left. }
  cbn [detector set_transport set_detector session] in Ed.
  destruct (Detector.on_delivered det c) as [det'|]; [|done]. cbn [rbind session set_transport set_detector] in Ed.
  unfold Sess.open in Ed. rewrite Ech in Ed. cbn [rbind negb] in Ed.
  destruct (Sess.aead_open _ _ ct) as [inner|] eqn:Eo; cbn [rbind] in Ed.
  2: { injection Ed as <- <-. cbn. split_and!; try done. by left. }
  destruct (Replay.commit _ c) as [rw|]; [|done]. cbn [rbind] in Ed.
  match type of Ed with context [learn_source ?x ?i ?p ?g ?n] =>
    destruct (learn_source x i p g n) as [d1|] eqn:El; [|done]; destruct (learn_source_ret x i p g n d1 El) as [m ->] end.
  cbn [rbind] in Ed. injection Ed as <- <-. cbn. split_and!; try done. right. by eexists _, _.
Qed.

(** A sequence of data frames, with their times of arrival. *)
Fixpoint receive d (arrivals : list (list u8 * N)) : run (DataPlane (Addr := Addr) * list (Outcome (Addr := Addr))) :=
  match arrivals with
  | [] => Ret (d, [])
  | (wire, now) :: rest =>
      let! ' (d', o) := on_udp_datagram d (PACKET_DATA :: wire) now in
      let! ' (d'', os) := receive d' rest in
      Ret (d'', o :: os)
  end.

(** ** A packet on its way *)

Section packet.
(** The packet, its counter, class and ciphertext. *)
Context (cd : Wire.Codec) (key : Sess.Key) (sym : N) (c : N) (class : FlowClass) (inner ct : list u8).
Context (scheme : Scheme) (k L : nat).
Context (Ek : k = source_count (N.of_nat (length ct)) sym) (EL : L = Nat.min (length ct) (N.to_nat sym)).
Context (Hpos : 0 < length ct) (Hmax : (N.of_nat (length ct) <= MAX_OBJECT_SIZE)%N).
Context (Hsym : sym <> 0%N) (Hk : 0 < k < 255).
Context (Hopen : Sess.aead_open key (Sess.noise_nonce c) ct = Some inner).
(** The other counters seen meanwhile, and the interval of arrival. *)
Context (keys : list N) (start : N).
Context (Hnear : Forall (near c) keys).

Definition limit : N := sat_add64 start (deadline_ms (params class)).

(** What may arrive: any data frame within the interval, of the counters
    [keys]; those of [c] are symbols of the packet. *)
Definition may_arrive (wire : list u8) (now : N) : Prop :=
  clock now /\ (start <= now <= limit)%N /\
  forall s c' class', carried cd wire = Some (s, c', class') ->
    c' ∈ keys /\ (c' = c -> class' = class /\ exists idx, own_symbol ct scheme k L s idx).

Record receiver d (cs : list N) : Prop := {
  rc_wf : dp_wf d;
  rc_codec : codec d = cd;
  rc_key : Sess.recv_key (session d) = key;
  rc_window : tracks (Sess.replay (session d)) c cs;
}.

(** Not delivered yet, with the symbols of [P] received; and delivered. *)
Definition waiting d (P : nat -> Prop) : Prop :=
  exists cs, receiver d cs /\ c ∉ cs /\
    progress ct sym scheme k L c limit keys (Tp.reassembler_for (transport d) class) P.

Definition finished d : Prop := exists cs, receiver d cs /\ c ∈ cs.

Definition of_packet (wire : list u8) : Prop := exists s class', carried cd wire = Some (s, c, class').

Lemma tracks_commit rw rw' x cs :
  tracks rw c cs -> near c x -> Replay.commit rw x = Ret rw' -> tracks rw' c (cs ++ [x]).
Proof.
  intros (sp & Hr & Hh & Hn) Hx Hcm. destruct (Replay.commit_refines rw sp x Hr) as (rw2 & E & Hr2).
  rewrite Hcm in E. injection E as <-. exists (Replay.spec_commit sp x). split; [done|].
  split; [by apply Replay.history_snoc|]. apply Forall_app. auto.
Qed.

(** After the packet is delivered its symbols are refused, whatever comes. *)
Lemma finished_step d wire now :
  finished d -> may_arrive wire now ->
  exists d' o, on_data d wire now = Ret (d', o) /\ finished d' /\ (of_packet wire -> o = NoOutcome).
Proof.
  intros (cs & Hrc & Hc) (Hclk & Hint & Hcar). pose proof Hrc as [Hwf Hcd Hkey Htr].
  destruct (carried cd wire) as [[[s c'] class']|] eqn:Ec; cycle 1.
  { rewrite on_data_not_carried by congruence. eexists _, _. split; [done|]. split; [by exists cs|done]. }
  destruct (Hcar s c' class' eq_refl) as [Hin Hown]. rewrite <- Hcd in Ec.
  destruct (on_data_carried d wire now s c' class' Hwf Hclk Ec) as (fresh & Hfresh & Hrest).
  destruct fresh; cbn [negb] in Hrest; cycle 1.
  { eexists _, _. split; [done|]. split; [by exists cs|done]. }
  assert (c' <> c) as Hne.
  { intros ->. rewrite (tracks_check _ _ _ Htr), bool_decide_false in Hfresh by tauto. done. }
  destruct Hrest as (tp & out & d' & o & _ & Erun & Hwf' & Hcd' & Hkey' & _ & _ & Hout).
  exists d', o. split; [done|]. split; [|intros (s2 & k2 & E2); congruence].
  destruct Hout as [(_ & Hrw & _)|(ct' & p & _ & _ & _ & Hcm)].
  - exists cs. split; [split; congruence|done].
  - exists (cs ++ [c']). split; [split; try congruence|apply elem_of_app; by left].
    rewrite Forall_forall in Hnear. eapply tracks_commit; eauto.
Qed.

(** Before, a symbol of the packet is stored or completes it. *)
Lemma waiting_step d P wire now :
  waiting d P -> may_arrive wire now ->
  exists d' o, on_data d wire now = Ret (d', o) /\
    ((of_packet wire /\ o = TunWrite inner /\ finished d') \/
     ((of_packet wire -> o = NoOutcome) /\
      waiting d' (fun i => P i \/ exists s class', carried cd wire = Some (s, c, class') /\ own_symbol ct scheme k L s i))).
Proof.
  intros (cs & Hrc & Hc & Hpg) (Hclk & Hint & Hcar). pose proof Hrc as [Hwf Hcd Hkey Htr].
  destruct (carried cd wire) as [[[s c'] class']|] eqn:Ec; cycle 1.
  { rewrite on_data_not_carried by congruence. eexists _, _. split; [done|]. right. split; [done|].
    exists cs. split; [done|]. split; [done|]. eapply progress_weaken; [exact Hpg|]. intros i [?|(? & ? & ? & ?)]; done. }
  destruct (Hcar s c' class' eq_refl) as [Hin Hown]. rewrite <- Hcd in Ec.
  destruct (on_data_carried d wire now s c' class' Hwf Hclk Ec) as (fresh & Hfresh & Hrest).
  destruct fresh; cbn [negb] in Hrest; cycle 1.
  { assert (c' <> c) as Hne.
    { intros ->. rewrite (tracks_check _ _ _ Htr), bool_decide_true in Hfresh by done. done. }
    eexists _, _. split; [done|]. right. split; [done|]. exists cs. split; [done|]. split; [done|].
    eapply progress_weaken; [exact Hpg|]. intros i [?|(s2 & k2 & E2 & _)]; [done|congruence]. }
  destruct Hrest as (tp & out & d' & o & Edec & Erun & Hwf' & Hcd' & Hkey' & Hre & Hsz & Hout).
  exists d', o. split; [done|].
  assert (forall cs', tracks (Sess.replay (session d')) c cs' -> receiver d' cs') as Hrc'
    by (intros cs' ?; split; congruence).
  destruct (Tp.decode_steps _ _ _ _ _ _ _ Edec) as (re' & Epush & Ere' & Eother).
  assert (forall x, Tp.reassembler_for (transport d') x = Tp.reassembler_for tp x) as Hsame.
  { intros x. unfold Tp.reassembler_for. rewrite Hre. destruct (reassemblers tp !! class_index x); [done|].
    by rewrite Hsz. }
  assert ((c' = c -> out = None) ->
    exists cs', tracks (Sess.replay (session d')) c cs' /\ c ∉ cs') as Hstay.
  { intros Hnone. destruct Hout as [(_ & -> & _)|(ct' & p & -> & _ & _ & Hcm)]; [by exists cs|].
    exists (cs ++ [c']). split; [eapply tracks_commit; eauto; rewrite Forall_forall in Hnear; auto|].
    intros [?|Hx]%elem_of_app; [done|]. apply list_elem_of_singleton in Hx. by specialize (Hnone (eq_sym Hx)). }
  destruct (decide (class' = class)) as [->|Hcl].
  - destruct (push_progress ct sym scheme k L Ek EL Hpos Hmax Hsym Hk c limit keys _ P
      (mkEvent c' s now (deadline_ms (params class))) Hpg) as (re2 & out2 & Ep2 & Hcase).
    { split; [apply Hint|]. split; [done|]. intros _. cbn [ev_now ev_deadline]. unfold limit, sat_add64, sat_add. lia. }
    { intros E. apply Hown, E. }
    cbn [ev_key ev_sym ev_now ev_deadline] in *. rewrite Epush in Ep2. injection Ep2 as <- <-.
    destruct Hcase as [[-> ->]|[Hnone Hpg']].
    + left. destruct Hout as [(_ & _ & Hbad)|(ct' & p & [= <-] & Hp & -> & Hcm)]; [congruence|].
      split; [exists s, class; by rewrite <- Hcd|]. split; [congruence|]. exists (cs ++ [c]).
      split; [|apply elem_of_app; right; left]. apply Hrc'. eapply tracks_commit; eauto. apply near_refl.
    + right. split.
      { intros (s2 & k2 & E2). assert (c' = c) as Hc' by congruence. specialize (Hnone Hc'). subst out.
        by destruct Hout as [(? & _)|(? & ? & ? & _)]. }
      destruct Hstay as (cs' & Ht' & Hn'); [done|].
      exists cs'. split; [by apply Hrc'|]. split; [done|]. rewrite Hsame, Ere'.
      eapply progress_weaken; [exact Hpg'|]. intros i [?|(s2 & k2 & E2 & Hi)]; [by left|right].
      injection E2 as <- Hc' _. by split.
  - assert (c' <> c) as Hne by (intros E; by destruct (Hown E)). right.
    split; [intros (s2 & k2 & E2); congruence|].
    destruct Hstay as (cs' & Ht' & Hn'); [done|].
    exists cs'. split; [by apply Hrc'|]. split; [done|]. rewrite Hsame, Eother by done.
    eapply progress_weaken; [exact Hpg|]. intros i [?|(s2 & k2 & E2 & _)]; [done|congruence].
Qed.
Lemma on_udp_data d wire now : on_udp_datagram d (PACKET_DATA :: wire) now = on_data d wire now.
Proof. unfold on_udp_datagram. by rewrite decide_True. Qed.

(** Frames of the packet among the arrivals, and what they led to. *)
Definition silent (arrivals : list (list u8 * N)) (outs : list (Outcome (Addr := Addr))) : Prop :=
  forall m wire now o, arrivals !! m = Some (wire, now) -> of_packet wire -> outs !! m = Some o -> o = NoOutcome.

Definition delivered_once (arrivals : list (list u8 * N)) (outs : list (Outcome (Addr := Addr))) : Prop :=
  exists n wire now, arrivals !! n = Some (wire, now) /\ of_packet wire /\ outs !! n = Some (TunWrite inner) /\
    forall m wire' now' o, arrivals !! m = Some (wire', now') -> of_packet wire' -> outs !! m = Some o ->
      m <> n -> o = NoOutcome.

Lemma receive_finished arrivals : forall d,
  finished d -> Forall (fun a => may_arrive a.1 a.2) arrivals ->
  exists d' outs, receive d arrivals = Ret (d', outs) /\ length outs = length arrivals /\ silent arrivals outs.
Proof.
  induction arrivals as [|[wire now] l IH]; intros d Hd Hl; cbn [receive].
  { eexists _, _. split; [done|]. split; [done|]. by intros m wire now o Hm. }
  apply Forall_cons in Hl as [Ha Hl]. destruct (finished_step d wire now Hd Ha) as (d1 & o & E & Hd1 & Ho).
  rewrite on_udp_data, E. cbn [rbind]. destruct (IH d1 Hd1 Hl) as (d2 & outs & -> & Hlen & Hs). cbn [rbind].
  eexists _, _. split; [done|]. split; [cbn; lia|]. intros [|m] w t o'; cbn; [intros [= <- <-] Hw [= <-]; auto|apply Hs].
Qed.

Lemma receive_waiting arrivals : forall d P,
  waiting d P -> Forall (fun a => may_arrive a.1 a.2) arrivals ->
  exists d' outs, receive d arrivals = Ret (d', outs) /\ length outs = length arrivals /\
    (delivered_once arrivals outs \/
     (silent arrivals outs /\
      waiting d' (fun i => P i \/ exists wire now s class', (wire, now) ∈ arrivals /\
        carried cd wire = Some (s, c, class') /\ own_symbol ct scheme k L s i))).
Proof.
  induction arrivals as [|[wire now] l IH]; intros d P Hd Hl; cbn [receive].
  { eexists _, _. split; [done|]. split; [done|]. right. split; [by intros m wire now o Hm|].
    destruct Hd as (cs & Hr & Hc & Hpg). exists cs. split; [done|]. split; [done|].
    eapply progress_weaken; [exact Hpg|]. intros i [?|(? & ? & ? & ? & Hin & _)]; [done|by apply not_elem_of_nil in Hin]. }
  apply Forall_cons in Hl as [Ha Hl]. destruct (waiting_step d P wire now Hd Ha) as (d1 & o & E & Hcase).
  rewrite on_udp_data, E. cbn [rbind]. destruct Hcase as [(Hw & -> & Hd1)|[Ho Hd1]].
  - destruct (receive_finished l d1 Hd1 Hl) as (d2 & outs & -> & Hlen & Hs). cbn [rbind].
    eexists _, _. split; [done|]. split; [cbn; lia|]. left. exists 0, wire, now. split_and!; try done.
    intros [|m] w t o'; cbn; [done|]. intros Hm Hw2 Ho2 _. by eapply Hs.
  - destruct (IH d1 _ Hd1 Hl) as (d2 & outs & -> & Hlen & Hs). cbn [rbind].
    eexists _, _. split; [done|]. split; [cbn; lia|]. destruct Hs as [(n & w & t & H1 & H2 & H3 & H4)|[Hs Hd2]].
    + left. exists (S n), w, t. split_and!; try done. intros [|m] w' t' o'; cbn.
      * intros [= <- <-] Hw [= <-] _. auto.
      * intros ??? Hne. apply (H4 m w' t'); try done. congruence.
    + right. split.
      { intros [|m] w t o'; cbn; [intros [= <- <-] Hw [= <-]; auto|apply Hs]. }
      destruct Hd2 as (cs & Hr & Hc & Hpg). exists cs. split; [done|]. split; [done|].
      eapply progress_weaken; [exact Hpg|].
      intros i [?|(w & t & s & cl & [[= -> ->]|Hin]%elem_of_cons & Hca & Hi)]; [by left; left|left; right|right]; eauto 10.
Qed.

(** With [k] symbols of the packet among the arrivals it is delivered. *)
Lemma receive_delivers d arrivals ids :
  waiting d (fun _ => False) -> Forall (fun a => may_arrive a.1 a.2) arrivals ->
  NoDup ids -> length ids = k ->
  (forall i, i ∈ ids -> exists wire now s class', (wire, now) ∈ arrivals /\
     carried cd wire = Some (s, c, class') /\ own_symbol ct scheme k L s i) ->
  exists d' outs, receive d arrivals = Ret (d', outs) /\ length outs = length arrivals /\ delivered_once arrivals outs.
Proof.
  intros Hd Hl Hn Hlen Hids. destruct (receive_waiting arrivals d _ Hd Hl) as (d' & outs & E & Hlo & Hcase).
  exists d', outs. split; [done|]. split; [done|]. destruct Hcase as [?|[_ (cs & _ & _ & Hpg)]]; [done|exfalso].
  pose proof (progress_bound ct sym scheme k L Ek EL Hpos Hmax Hsym Hk c limit keys _ _ ids Hpg Hn) as Hb.
  rewrite Hlen in Hb. apply (Nat.lt_irrefl k), Hb. intros i Hi.
  destruct (Hids i Hi) as (w & t & s & cl & Hin & Hca & Hown). split; [apply Hown|]. right. eauto 10.
Qed.

End packet.

(** ** The sender *)

(** The class the sender puts the packet in. *)
Definition class_of d (inner : list u8) (now : N) : FlowClass :=
  match Classify.classify (classifier (transport d)) inner (l2 d) now with
  | Ret (_, class) => class
  | Panic => Default
  end.

(** A packet taken from the tunnel and sent as [dgs]. *)
Record sends d (inner : list u8) (now : N) (dgs : list (EgressDatagram (Addr := Addr))) : Prop := {
  sd_wf : dp_wf d;
  sd_clock : clock now;
  sd_len : (N.of_nat (length inner) + 16 <= MAX_OBJECT_SIZE)%N;
  sd_tag : (conn_tag d < u64_mod)%N;
  sd_id : (next_object_id (encoder (transport d)) < u16_mod)%N;
  sd_run : exists d', on_tun_packet d inner now = Ret (d', dgs);
  sd_some : dgs <> [];
}.

Lemma build_some ct p oid repair syms :
  build ct p oid repair = Ret syms -> syms <> [] -> symbol_size p <> 0%N -> 0 < length ct ->
  (N.of_nat (length ct) <= MAX_OBJECT_SIZE)%N -> codable ct p.
Proof.
  intros Hb Hne Hs Hpos Hmax. split_and!; try done. unfold build in Hb. destruct (negb _); [done|].
  rewrite (proj2 (Nat.eqb_neq _ _)) in Hb by lia.
  destruct (Nat.leb_spec 255 (source_count (N.of_nat (length ct)) (symbol_size p))) as [Hk|Hk]; [|done].
  rewrite orb_true_r in Hb. injection Hb as <-. done.
Qed.

Lemma on_tun_sent {laws : Sess.AeadLaws} d inner now dgs :
  sends d inner now dgs ->
  let c := Sess.send_counter (session d) in
  let p := Tp.params_for (transport d) (class_of d inner now) in
  exists ct r scheme, (c < u64_mod)%N /\ length ct = length inner + 16 /\ codable ct p /\
    Sess.aead_open (Sess.send_key (session d)) (Sess.noise_nonce c) ct = Some inner /\
    let k := source_count (N.of_nat (length ct)) (symbol_size p) in
    let L := Nat.min (length ct) (N.to_nat (symbol_size p)) in
    (forall i, i < k + r -> i < 255 /\ valid_idx scheme k i) /\
    map bytes dgs = map (fun i => PACKET_DATA :: Wire.frame (codec d)
      (symbol_to_frame (conn_tag d) (wire_symbol scheme L k ct (next_object_id (encoder (transport d))) i) c
         (class_of d inner now))) (seq 0 (k + r)).
Proof.
  intros [Hwf Hclk Hlen Htag Hid [d' Hrun] Hne] c p. unfold on_tun_packet in Hrun.
  destruct (learn_source _ _ _ _ _) as [d1|] eqn:El; [|done]. cbn [rbind] in Hrun.
  destruct (learn_source_ret _ _ _ _ _ _ El) as [m ->]. unfold Sess.seal_into in Hrun. cbn [session set_mac] in Hrun.
  destruct (Sess.seal_append _ _ inner) as [ct|] eqn:Ect; [|injection Hrun as _ <-; done].
  unfold Sess.next_counter in Hrun. destruct (N.ltb_spec (Sess.send_counter (session d) + Sess.stride (session d)) u64_mod)
    as [Hc|_]; [|injection Hrun as _ <-; done]. cbn [transport set_session set_mac l2] in Hrun.
  unfold Sess.seal_append in Ect. destruct (Sess.aead_seal _ _ inner) as [[c0 tag]|] eqn:Es; [|done].
  injection Ect as <-. destruct (Sess.seal_lengths _ _ _ _ _ Es) as [Hc0 Ht].
  pose proof (Sess.open_seal _ _ _ _ _ Es) as Ho. set (ct := c0 ++ tag) in *.
  assert (length ct = length inner + 16) as Hct by (unfold ct; rewrite length_app; lia).
  destruct (Tp.encode_ok (transport d) ct inner (l2 d) now (dw_tp _ Hwf) Hclk) as (tp & class & rep & syms & Ee & _ & _ & _ & Hb).
  { unfold MAX_OBJECT_SIZE in Hlen. unfold u32_mod. lia. }
  assert (class_of d inner now = class) as Ecl.
  { unfold class_of. unfold Tp.encode in Ee. destruct (Classify.classify _ _ _ _) as [[cls cl]|]; [|done].
    cbn [rbind] in Ee. destruct (Tp.source_symbols _ _); [|done]. cbn [rbind] in Ee.
    destruct (rexpect _); [|done]. cbn [rbind] in Ee. destruct (Fec.encode _ _ _ _) as [[? ?]|]; [|done].
    by injection Ee. }
  unfold p. rewrite Ecl. rewrite Ee in Hrun. cbn [rbind] in Hrun. injection Hrun as _ <-.
  assert (codable ct (Tp.params_for (transport d) class)) as Hcod.
  { eapply build_some; [exact Hb| |apply (dw_tp _ Hwf)|lia|lia]. by intros ->. }
  destruct (build_codable ct _ (next_object_id (encoder (transport d))) rep Hcod) as [_ Hb'].
  rewrite Hb in Hb'. injection Hb' as ->. pose proof (codable_k _ _ Hcod) as Hk.
  eexists ct, _, _. split; [lia|]. split; [done|]. split; [done|]. split; [exact Ho|]. cbv zeta. split.
  - intros i Hi. split; [|by apply scheme_of_valid]. unfold repair_of in Hi. lia.
  - rewrite !map_map. apply map_ext. intros i. done.
Qed.

Lemma carried_frame cd tag s c class :
  (tag < u64_mod)%N -> (object_id s < u16_mod)%N -> (c < u64_mod)%N -> (object_size s < u32_mod)%N ->
  carried cd (Wire.frame cd (symbol_to_frame tag s c class)) = Some (s, c, class).
Proof.
  intros Ht Ho Hc Hs. unfold carried. rewrite Wire.frame_deframes by done. by rewrite symbol_round_trip.
Qed.

Lemma sent_of_packet {laws : Sess.AeadLaws} d inner now dgs wire :
  sends d inner now dgs -> PACKET_DATA :: wire ∈ map bytes dgs ->
  of_packet (codec d) (Sess.send_counter (session d)) wire.
Proof.
  intros Hsd Hin. destruct (on_tun_sent d inner now dgs Hsd) as (ct & r & scheme & Hc & _ & Hcod & _ & _ & Hdgs).
  cbv zeta in Hdgs. rewrite Hdgs in Hin. apply list_elem_of_fmap in Hin as (i & E & _). injection E as ->.
  eexists _, _. apply carried_frame; [apply Hsd..|done|]. cbn. destruct Hcod as (_ & Hmax & _).
  unfold MAX_OBJECT_SIZE in Hmax. unfold u32_mod. lia.
Qed.

(** ** Delivery *)

(** A receiver set up for the sender's packets: the same wire keys and symbol
    size and the sender's key, a window that has seen counters [cs] near the
    packet's, and room in the reassembler for the objects [keys]. *)
Record expects b d (class : FlowClass) (cs keys : list N) : Prop := {
  ex_wf : dp_wf b;
  ex_codec : codec b = codec d;
  ex_key : Sess.recv_key (session b) = Sess.send_key (session d);
  ex_size : t_symbol_size (transport b) = t_symbol_size (transport d);
  ex_window : Replay.commit_all cs Replay.window_new = Ret (Sess.replay (session b));
  ex_fresh : Sess.send_counter (session d) ∉ cs;
  ex_near : Forall (near (Sess.send_counter (session d))) (cs ++ keys);
  ex_room : length keys <= max_objects (Tp.reassembler_for (transport b) class);
  ex_objects : forall j, is_Some (store_map (objects (Tp.reassembler_for (transport b) class)) !! j) ->
    j ∈ keys /\ j <> Sess.send_counter (session d);
}.

(** What arrives meanwhile: data frames, in the interval the class allows, of
    objects among [keys]; a frame that carries the packet's counter is one the
    sender made. *)
Definition arrives d (class : FlowClass) (keys : list N) (start : N)
    (dgs : list (EgressDatagram (Addr := Addr))) (a : list u8 * N) : Prop :=
  clock a.2 /\ (start <= a.2 <= limit class start)%N /\
  forall s c class', carried (codec d) a.1 = Some (s, c, class') ->
    c ∈ keys /\ (c = Sess.send_counter (session d) -> PACKET_DATA :: a.1 ∈ map bytes dgs).

Lemma expects_waiting b d class cs keys ct scheme k L start :
  expects b d class cs keys ->
  waiting (codec d) (Sess.send_key (session d)) (t_symbol_size (transport d)) (Sess.send_counter (session d)) class ct
    scheme k L keys start b (fun _ => False).
Proof.
  intros [Hwf Hcd Hkey Hsz Hwin Hfresh Hnear Hroom Hobj]. apply Forall_app in Hnear as [Hn1 Hn2].
  exists cs. split; [|split; [done|]].
  - split; try done.
    destruct (Replay.commit_all_refines cs _ _ (Replay.new_refines Replay.HighThroughput)) as (rw & E & Hr).
    unfold Replay.window_new in Hwin. rewrite Hwin in E. injection E as <-.
    eexists. split; [exact Hr|]. split; [apply Replay.spec_commits_history|done].
  - destruct (Tp.reassembler_for_wf (transport b) class (dw_tp _ Hwf)) as [Hr Hs].
    split; try done; [congruence|by intros j Hj; apply Hobj|].
    destruct (store_map _ !! Sess.send_counter (session d)) eqn:E; [|by intros i []].
    destruct (Hobj (Sess.send_counter (session d))) as [_ Hx]; [by eexists|done].
Qed.

Lemma tunnel_delivery {laws : Sess.AeadLaws} d b inner now dgs cs keys start arrivals ids :
  sends d inner now dgs -> expects b d (class_of d inner now) cs keys ->
  Forall (arrives d (class_of d inner now) keys start dgs) arrivals ->
  NoDup ids ->
  length ids = source_count (N.of_nat (length inner + 16)) (t_symbol_size (transport d)) ->
  (forall i, i ∈ ids -> exists dg wire t, dgs !! i = Some dg /\ bytes dg = PACKET_DATA :: wire /\ (wire, t) ∈ arrivals) ->
  exists b' outs, receive b arrivals = Ret (b', outs) /\ length outs = length arrivals /\
    delivered_once (codec d) (Sess.send_counter (session d)) inner arrivals outs.
Proof.
  intros Hsd Hex Harr Hn Hl Hids.
  destruct (on_tun_sent d inner now dgs Hsd) as (ct & r & scheme & Hc & Hct & Hcod & Hopen & Hidx & Hdgs).
  cbv zeta in Hidx, Hdgs. cbn [symbol_size Tp.params_for] in *. set (class := class_of d inner now) in *.
  set (c := Sess.send_counter (session d)) in *. set (sym := t_symbol_size (transport d)) in *.
  set (k := source_count (N.of_nat (length ct)) sym) in *. set (L := Nat.min (length ct) (N.to_nat sym)) in *.
  pose proof (codable_k _ _ Hcod) as Hk. destruct Hcod as (Hpos & Hmax & Hsym & _).
  set (oid := next_object_id (encoder (transport d))) in *.
  assert (forall i wire, map bytes dgs !! i = Some (PACKET_DATA :: wire) ->
    carried (codec d) wire = Some (wire_symbol scheme L k ct oid i, c, class) /\
    own_symbol ct scheme k L (wire_symbol scheme L k ct oid i) i) as Hsent.
  { intros i wire Hi. rewrite Hdgs in Hi. apply list_lookup_fmap_Some in Hi as (j & E & Hj).
    apply lookup_seq in Hj as [-> Hj]. injection E as ->. cbn [Nat.add] in *. split.
    - apply carried_frame; try done; [apply Hsd..|]. cbn. unfold MAX_OBJECT_SIZE in Hmax. unfold u32_mod. lia.
    - destruct (Hidx i Hj). split_and!; eauto. }
  destruct (Forall_app (near c) cs keys) as [[_ Hnear] _]; [apply Hex|].
  apply (receive_delivers (codec d) (Sess.send_key (session d)) sym c class inner ct scheme k L eq_refl eq_refl
    Hpos Hmax Hsym Hk Hopen keys start Hnear b arrivals ids); try done.
  - by apply (expects_waiting b d class cs keys).
  - eapply Forall_impl; [exact Harr|]. intros [wire t] (H1 & H2 & H3). split; [done|]. split; [done|].
    cbn [fst] in *. intros s c' class' Hca. destruct (H3 s c' class' Hca) as [Hin Hown]. split; [done|].
    intros ->. destruct (proj1 (list_elem_of_lookup _ _) (Hown eq_refl)) as [i Hi].
    destruct (Hsent i wire Hi) as [Hca' Ho]. rewrite Hca in Hca'. injection Hca' as -> ->. eauto.
  - by rewrite Hl, <- Hct.
  - intros i Hi. destruct (Hids i Hi) as (dg & wire & t & Hdg & Hb & Hin).
    destruct (Hsent i wire) as [Hca Ho]; [by rewrite list_lookup_fmap, Hdg, <- Hb|]. eauto 10.
Qed.

(** C5: a packet through the tunnel.  The datagrams a data plane makes of a
    packet, arriving at its peer in any order, with losses and duplicates and
    among other data frames, as long as K distinct ones (K the number of source
    symbols) arrive in the deadline of the packet's class, make the peer write
    exactly that packet to its tunnel device exactly once: one of them yields
    the packet, every other one nothing. *)
Theorem tunnel_delivers {laws : Sess.AeadLaws} d b inner now dgs cs keys start arrivals ids :
  sends d inner now dgs -> expects b d (class_of d inner now) cs keys ->
  Forall (arrives d (class_of d inner now) keys start dgs) arrivals ->
  NoDup ids ->
  length ids = source_count (N.of_nat (length inner + 16)) (t_symbol_size (transport d)) ->
  (forall i, i ∈ ids -> exists dg wire t, dgs !! i = Some dg /\ bytes dg = PACKET_DATA :: wire /\ (wire, t) ∈ arrivals) ->
  exists b' outs, receive b arrivals = Ret (b', outs) /\ length outs = length arrivals /\
    delivered_once (codec d) (Sess.send_counter (session d)) inner arrivals outs.
Proof. apply tunnel_delivery. Qed.

(** The condition on arrivals, executable. *)
Definition arrives_b d (class : FlowClass) (keys : list N) (start : N)
    (dgs : list (EgressDatagram (Addr := Addr))) (a : list u8 * N) : bool :=
  (20 * a.2 <? u64_mod)%N && (start <=? a.2)%N && (a.2 <=? limit class start)%N &&
  match carried (codec d) a.1 with
  | None => true
  | Some (_, c, _) =>
      bool_decide (c ∈ keys) &&
      (negb (c =? Sess.send_counter (session d))%N || bool_decide (PACKET_DATA :: a.1 ∈ map bytes dgs))
  end.

Lemma arrives_b_sound d class keys start dgs l :
  forallb (arrives_b d class keys start dgs) l = true -> Forall (arrives d class keys start dgs) l.
Proof.
  rewrite forallb_forall. intros H. apply Forall_forall. intros a Ha.
  specialize (H a (proj1 (list_elem_of_In _ _) Ha)). unfold arrives_b in H.
  apply andb_true_iff in H as [[[H1 H2]%andb_true_iff H3]%andb_true_iff H4].
  split; [by apply N.ltb_lt|]. split; [split; by apply N.leb_le|]. intros s c class' Hc. rewrite Hc in H4.
  apply andb_true_iff in H4 as [H4%bool_decide_eq_true H5]. split; [done|]. intros E.
  rewrite E, N.eqb_refl in H5. by apply bool_decide_eq_true in H5.
Qed.

End tunnel.

(** *** A packet of three source symbols, the second one lost *)

#[local] Existing Instances Sess.toy_aead Wire.toy_sip demo_cpu.

Definition demo_inner : list u8 := map (fun i => n2b (N.of_nat (3 * i + 1))) (seq 0 40).
Definition demo_end (addr : N) : DataPlane (Addr := N) :=
  new (Sess.toy_session 0 1) (replicate 16 Byte.x01) (replicate 16 Byte.x02) 7 false addr false 20.
Definition demo_dgs : list (EgressDatagram (Addr := N)) :=
  match on_tun_packet (demo_end 1) demo_inner 10 with Ret (_, l) => l | Panic => [] end.
Definition demo_wire (n : nat) : list u8 :=
  match demo_dgs !! n with Some dg => tail (bytes dg) | None => [] end.
(** The repair symbol, noise, the first and the last source symbol, and duplicates. *)
Definition demo_arrivals : list (list u8 * N) :=
  [(demo_wire 3, 30); (replicate 40 Byte.xaa, 31); (demo_wire 0, 32); (demo_wire 0, 33); (demo_wire 2, 34);
   (demo_wire 2, 35); (demo_wire 3, 36)]%N.

Lemma tunnel_delivers_witness :
  exists b' outs, receive (demo_end 2) demo_arrivals = Ret (b', outs) /\ length outs = length demo_arrivals /\
    delivered_once (codec (demo_end 1)) 0 demo_inner demo_arrivals outs.
Proof.
  apply (tunnel_delivers (laws := Sess.toy_laws) (demo_end 1) (demo_end 2) demo_inner 10 demo_dgs [] [0%N] 30
    demo_arrivals [0; 2; 3]).
  - split; try (vm_compute; reflexivity).
    + apply new_wf; [reflexivity|discriminate].
    + vm_compute. discriminate.
    + unfold demo_dgs. destruct (on_tun_packet (demo_end 1) demo_inner 10) as [[a' l]|] eqn:E; [by exists a'|].
      vm_compute in E. discriminate.
    + vm_compute. discriminate.
  - split; try (vm_compute; reflexivity).
    + apply new_wf; [reflexivity|discriminate].
    + apply not_elem_of_nil.
    + repeat constructor; vm_compute; discriminate.
    + vm_compute. lia.
    + intros j [x Hj]. exfalso. revert Hj. vm_compute. by destruct j as [|p].
  - apply arrives_b_sound. vm_compute. reflexivity.
  - apply (bool_decide_unpack _). vm_compute. exact I.
  - vm_compute. reflexivity.
  - intros i Hi. assert (i = 0 \/ i = 2 \/ i = 3) as [->|[->| ->]] by set_solver.
    + eexists _, (demo_wire 0), 32%N. split; [vm_compute; reflexivity|]. split; [vm_compute; reflexivity|].
      do 2 right. left.
    + eexists _, (demo_wire 2), 34%N. split; [vm_compute; reflexivity|]. split; [vm_compute; reflexivity|].
      do 4 right. left.
    + eexists _, (demo_wire 3), 30%N. split; [vm_compute; reflexivity|]. split; [vm_compute; reflexivity|].
      left.
Defined.

End Tunnel.
