(* ===== verification/Reader.v ===== *)
(** * Readers over a byte buffer

    The decoders of yip-membership and yip-rendezvous walk a buffer with a
    position: [buf.get(pos..pos + n)?], then [pos += n].  A reader is that
    step, and [reads] is its contract: it accepts exactly the encodings a
    relation describes, and consumes exactly their bytes.  The rules below give
    the contract of a composed decoder from those of its parts. *)

From Stdlib Require Strings.Byte.
From Stdlib Require Import NArith Lia.
From stdpp Require Import base numbers list.
From S2P Require Import Prelude.

Local Open Scope nat_scope.

Definition reader (A : Type) : Type := list u8 -> nat -> option (A * nat).

(** [buf.get(pos..pos + n)?] *)
Definition rd_bytes (n : nat) : reader (list u8) := fun buf pos =>
  match slice_opt pos (pos + n) buf with
  | Some b => Some (b, pos + n)
  | None => None
  end.

(** [*buf.get(pos)?] *)
Definition rd_u8 : reader u8 := fun buf pos =>
  match buf !! pos with Some b => Some (b, pos + 1) | None => None end.

(** [uN::from_be_bytes(buf.get(pos..pos + n)?.try_into().ok()?)] *)
Definition rd_be (n : nat) : reader N := fun buf pos =>
  match rd_bytes n buf pos with Some (b, pos) => Some (from_be_bytes b, pos) | None => None end.

Definition rd_bind {A B} (r : reader A) (k : A -> reader B) : reader B := fun buf pos =>
  match r buf pos with Some (a, pos) => k a buf pos | None => None end.

Definition rd_ret {A} (a : A) : reader A := fun _ pos => Some (a, pos).

Definition rd_fail {A} : reader A := fun _ _ => None.

Notation "'read' x ':=' r 'in' k" := (rd_bind r (fun x => k))
  (at level 10, x name, r at level 100, k at level 200) : yip_scope.

(** [for _ in 0..n] pushing what [r] reads. *)
Fixpoint rd_times {A} (n : nat) (r : reader A) : reader (list A) :=
  match n with
  | O => rd_ret []
  | S n => read a := r in read l := rd_times n r in rd_ret (a :: l)
  end.

(** A decoder on the whole buffer: [if pos != buf.len() { return None; }] *)
Definition rd_exact {A} (r : reader A) (buf : list u8) : option A :=
  match r buf 0 with
  | Some (a, pos) => if pos =? length buf then Some a else None
  | None => None
  end.

(** ** The contract *)

Definition reads {A} (r : reader A) (R : A -> list u8 -> Prop) : Prop :=
  (forall a bs pre post, R a bs -> r (pre ++ bs ++ post) (length pre) = Some (a, length pre + length bs)) /\
  (forall buf pos a pos', pos <= length buf -> r buf pos = Some (a, pos') ->
     exists bs, R a bs /\ drop pos buf = bs ++ drop pos' buf /\ pos' = pos + length bs /\ pos' <= length buf).

Lemma reads_equiv {A} (r : reader A) (R R' : A -> list u8 -> Prop) :
  (forall a bs, R a bs <-> R' a bs) -> reads r R -> reads r R'.
Proof.
  intros HR [Hc Hs]. split.
  - intros a bs pre post H. by apply Hc, HR.
  - intros buf pos a pos' Hp E. destruct (Hs buf pos a pos' Hp E) as (bs & H & ?). exists bs. split; [by apply HR|done].
Qed.

Lemma drop_split {A} (l : list A) i n :
  i + n <= length l -> drop i l = take n (drop i l) ++ drop (i + n) l.
Proof. intros H. rewrite <- (take_drop n (drop i l)) at 1. by rewrite drop_drop. Qed.

Lemma reads_bytes n : reads (rd_bytes n) (fun a bs => a = bs /\ length bs = n).
Proof.
  split.
  - intros a bs pre post [-> Hl]. unfold rd_bytes, slice_opt. rewrite decide_True by (rewrite !length_app; lia).
    unfold slice. rewrite drop_app_length, take_app_length' by lia. by rewrite Hl.
  - intros buf pos a pos' Hp. unfold rd_bytes, slice_opt. destruct (decide _) as [[_ Hb]|]; [|done].
    intros [= <- <-]. exists (slice pos (pos + n) buf). rewrite length_slice by lia.
    split_and!; try done; try lia. unfold slice. replace (pos + n - pos) with n by lia. by apply drop_split.
Qed.

Lemma reads_u8 : reads rd_u8 (fun a bs => bs = [a]).
Proof.
  split.
  - intros a bs pre post ->. unfold rd_u8. rewrite lookup_app_r, Nat.sub_diag by lia. done.
  - intros buf pos a pos' Hp. unfold rd_u8. destruct (buf !! pos) as [b|] eqn:E; [|done]. intros [= -> <-].
    exists [a]. apply lookup_lt_Some in E as Hl. split_and!; try done; [|lia].
    by rewrite (drop_S _ _ _ E), Nat.add_1_r.
Qed.

Lemma reads_be n : reads (rd_be n) (fun a bs => bs = to_be_bytes n a /\ (a < 256 ^ N.of_nat n)%N).
Proof.
  destruct (reads_bytes n) as [Hc Hs]. split.
  - intros a bs pre post [-> Ha]. unfold rd_be. rewrite (Hc (to_be_bytes n a)) by (rewrite length_to_be_bytes; auto).
    by rewrite from_to_be_bytes_small.
  - intros buf pos a pos' Hp. unfold rd_be. destruct (rd_bytes n buf pos) as [[b p]|] eqn:E; [|done].
    intros [= <- <-]. destruct (Hs _ _ _ _ Hp E) as (bs & [-> Hl] & H). exists bs. split; [|done].
    split; [by rewrite to_from_be_bytes_len|]. rewrite <- Hl. apply from_be_bytes_lt.
Qed.

Lemma reads_ret {A} (a : A) : reads (rd_ret a) (fun x bs => x = a /\ bs = []).
Proof.
  split.
  - intros x bs pre post [-> ->]. unfold rd_ret. by rewrite Nat.add_0_r.
  - intros buf pos x pos' Hp [= <- <-]. exists []. cbn. split_and!; try done; lia.
Qed.

Lemma reads_fail {A} : reads (@rd_fail A) (fun _ _ => False).
Proof. split; [done|]. by intros. Qed.

Lemma reads_bind {A B} (r : reader A) (k : A -> reader B) R S :
  reads r R -> (forall a, reads (k a) (S a)) ->
  reads (rd_bind r k) (fun b bs => exists a bs1 bs2, R a bs1 /\ S a b bs2 /\ bs = bs1 ++ bs2).
Proof.
  intros [Hc Hs] Hk. split.
  - intros b bs pre post (a & b1 & b2 & H1 & H2 & ->). unfold rd_bind.
    rewrite <- (app_assoc b1), (Hc a b1) by done. destruct (Hk a) as [Hc2 _].
    specialize (Hc2 b b2 (pre ++ b1) post H2). rewrite <- app_assoc, length_app in Hc2. rewrite Hc2, length_app.
    do 2 f_equal. lia.
  - intros buf pos b pos' Hp. unfold rd_bind. destruct (r buf pos) as [[a p]|] eqn:E; [|done]. intros E2.
    destruct (Hs _ _ _ _ Hp E) as (b1 & H1 & Hd1 & -> & Hl1). destruct (Hk a) as [_ Hs2].
    destruct (Hs2 _ _ _ _ Hl1 E2) as (b2 & H2 & Hd2 & -> & Hl2).
    exists (b1 ++ b2). split; [by exists a, b1, b2|]. rewrite length_app. split_and!; try lia.
    rewrite Hd1, Hd2, app_assoc. do 2 f_equal; lia.
Qed.

Lemma reads_times {A} (r : reader A) R n :
  reads r R ->
  reads (rd_times n r) (fun l bs => length l = n /\ exists bss, Forall2 R l bss /\ bs = concat bss).
Proof.
  intros Hr. induction n as [|n IH]; cbn [rd_times].
  - eapply reads_equiv; [|apply reads_ret]. intros l bs. split.
    + intros [-> ->]. split; [done|]. by exists [].
    + intros [Hl (bss & HF & ->)]. apply nil_length_inv in Hl as ->. by inversion HF.
  - eapply reads_equiv; [|eapply reads_bind; [exact Hr|intros a; eapply reads_bind; [exact IH|intros l; apply reads_ret]]].
    intros l bs. cbn beta. split.
    + intros (a & b1 & b2 & Ha & (l' & c1 & c2 & (Hl & bss & HF & ->) & [-> ->] & ->) & ->).
      rewrite app_nil_r. split; [cbn; lia|]. exists (b1 :: bss). split; [by constructor|done].
    + intros [Hl (bss & HF & ->)]. destruct HF as [|a b l' bss Ha HF]; [done|].
      exists a, b, (concat bss). split; [done|]. split; [|done].
      exists l', (concat bss), []. rewrite app_nil_r. split_and!; try done; [|by exists bss]. cbn in Hl. lia.
Qed.

(** On a whole buffer: exactly the encodings are accepted. *)
Lemma rd_exact_spec {A} (r : reader A) R buf a : reads r R -> rd_exact r buf = Some a <-> R a buf.
Proof.
  intros [Hc Hs]. unfold rd_exact. split.
  - destruct (r buf 0) as [[x p]|] eqn:E; [|done]. destruct (Nat.eqb_spec p (length buf)) as [->|]; [|done].
    intros [= ->]. destruct (Hs _ _ _ _ (Nat.le_0_l _) E) as (bs & H & Hd & _ & _).
    rewrite drop_0, drop_all, app_nil_r in Hd. by rewrite Hd.
  - intros H. specialize (Hc a buf [] [] H). rewrite app_nil_r in Hc. cbn in Hc. rewrite Hc.
    by rewrite Nat.eqb_refl.
Qed.

(** A relation that is a printing function on well-formed values. *)
Definition prints {A} (wf : A -> Prop) (put : A -> list u8) (a : A) (bs : list u8) : Prop := wf a /\ bs = put a.

(** Take apart the relation of a composed reader, and put it together. *)
Ltac unread := repeat match goal with
  | H : exists _, _ |- _ => destruct H
  | H : _ /\ _ |- _ => destruct H
  | H : prints _ _ _ _ |- _ => destruct H
  end; subst.

(** ** Records, field by field

    [C] collects what the fields read so far say of the record, [W] and [P]
    what the rest of the reader checks and consumes. *)

Lemma reads_field {A B} (proj : B -> A) (r : reader A) wf put (k : A -> reader B) (C W : B -> Prop) P :
  reads r (prints wf put) ->
  (forall a, reads (k a) (prints (fun b => (C b /\ proj b = a) /\ W b) P)) ->
  reads (rd_bind r k) (prints (fun b => C b /\ (wf (proj b) /\ W b)) (fun b => put (proj b) ++ P b)).
Proof.
  intros Hr Hk. eapply reads_equiv; [|eapply reads_bind; [exact Hr|exact Hk]].
  intros b bs. cbn beta. split.
  - intros. unread. by split.
  - intros [(HC & Hwf & HW) ->]. exists (proj b), (put (proj b)), (P b). by split_and!.
Qed.

Lemma reads_done {B} (x : B) (C : B -> Prop) :
  (forall b, C b <-> b = x) -> reads (rd_ret x) (prints (fun b => C b /\ True) (fun _ => [])).
Proof.
  intros HC. eapply reads_equiv; [|apply reads_ret]. intros b bs. unfold prints. rewrite HC. naive_solver.
Qed.

Lemma reads_record {A} (r : reader A) (W wf : A -> Prop) P put :
  reads r (prints (fun a => True /\ W a) P) -> (forall a, W a <-> wf a) -> (forall a, P a = put a) ->
  reads r (prints wf put).
Proof. intros Hr Hw Hp. eapply reads_equiv; [|exact Hr]. intros a bs. unfold prints. rewrite <- Hw, Hp. naive_solver. Qed.

Lemma reads_bytes_p n : reads (rd_bytes n) (prints (fun b => length b = n) id).
Proof. eapply reads_equiv; [|apply reads_bytes]. intros a bs. unfold prints, id. naive_solver. Qed.

Lemma reads_u8_p : reads rd_u8 (prints (fun _ => True) (fun b => [b])).
Proof. eapply reads_equiv; [|apply reads_u8]. intros a bs. unfold prints. naive_solver. Qed.

Lemma reads_be_p n : reads (rd_be n) (prints (fun a => (a < 256 ^ N.of_nat n)%N) (to_be_bytes n)).
Proof. eapply reads_equiv; [|apply reads_be]. intros a bs. unfold prints. naive_solver. Qed.

Lemma reads_u16 : reads (rd_be 2) (prints (fun a => (a < u16_mod)%N) (to_be_bytes 2)).
Proof. exact (reads_be_p 2). Qed.
Lemma reads_u32 : reads (rd_be 4) (prints (fun a => (a < u32_mod)%N) (to_be_bytes 4)).
Proof. exact (reads_be_p 4). Qed.
Lemma reads_u64 : reads (rd_be 8) (prints (fun a => (a < u64_mod)%N) (to_be_bytes 8)).
Proof. exact (reads_be_p 8). Qed.

Lemma reads_times_p {A} (r : reader A) wf put n :
  reads r (prints wf put) ->
  reads (rd_times n r) (prints (fun l => length l = n /\ Forall wf l) (fun l => concat (map put l))).
Proof.
  intros Hr. eapply reads_equiv; [|apply reads_times, Hr]. intros l bs. unfold prints. split.
  - intros (Hl & bss & HF & ->). enough (Forall wf l /\ bss = map put l) as [? ->] by done.
    clear Hl. induction HF as [|a b l bss [Ha ->] _ [IH ->]]; [done|]. split; [by constructor|done].
  - intros [[Hl HF] ->]. split; [done|]. exists (map put l). split; [|done]. clear Hl.
    induction HF; cbn; constructor; [by split|done].
Qed.

(** ** Counts and length prefixes of 16 bits *)

Definition fits16 (n : nat) : Prop := (N.of_nat n < u16_mod)%N.

#[export] Instance fits16_dec n : Decision (fits16 n).
Proof. unfold fits16. apply _. Defined.

(** [n as u16] in network order. *)
Definition be16 (n : nat) : list u8 := to_be_bytes 2 (N.of_nat n).

(** A count, then that many elements. *)
Definition rd_counted {A} (r : reader A) : reader (list A) :=
  read count := rd_be 2 in rd_times (N.to_nat count) r.

Definition counted {A} (put : A -> list u8) (l : list A) : list u8 := be16 (length l) ++ concat (map put l).

(** A length, then that many bytes. *)
Definition rd_prefixed : reader (list u8) :=
  read len := rd_be 2 in rd_bytes (N.to_nat len).

Definition prefixed (b : list u8) : list u8 := be16 (length b) ++ b.

(** [X::decode(bytes)?] on length-prefixed bytes. *)
Definition rd_embedded {A} (decode : list u8 -> option A) : reader A :=
  read bytes := rd_prefixed in
  match decode bytes with Some a => rd_ret a | None => rd_fail end.

Lemma reads_counted {A} (r : reader A) wf put :
  reads r (prints wf put) ->
  reads (rd_counted r) (prints (fun l => fits16 (length l) /\ Forall wf l) (counted put)).
Proof.
  intros Hr. eapply reads_equiv; [|eapply reads_bind; [apply (reads_be_p 2)|intros n; apply reads_times_p, Hr]].
  intros l bs. unfold prints, counted, be16, fits16, u16_mod. cbn beta. split.
  - intros (n & b1 & b2 & [Hn ->] & [[Hl HF] ->] & ->). rewrite Hl, N2Nat.id. done.
  - intros [[Hl HF] ->]. exists (N.of_nat (length l)), (to_be_bytes 2 (N.of_nat (length l))), (concat (map put l)).
    by rewrite Nat2N.id.
Qed.

Lemma reads_prefixed : reads rd_prefixed (prints (fun b => fits16 (length b)) prefixed).
Proof.
  eapply reads_equiv; [|eapply reads_bind; [apply (reads_be_p 2)|intros n; apply reads_bytes_p]].
  intros l bs. unfold prints, prefixed, be16, fits16, id. cbn beta. split.
  - intros (n & b1 & b2 & [Hn ->] & [Hl ->] & ->). rewrite Hl, N2Nat.id. done.
  - intros [Hl ->]. exists (N.of_nat (length l)), (to_be_bytes 2 (N.of_nat (length l))), l.
    by rewrite Nat2N.id.
Qed.

Lemma reads_embedded {A} (decode : list u8 -> option A) wf put :
  (forall buf a, decode buf = Some a <-> prints wf put a buf) ->
  reads (rd_embedded decode) (prints (fun a => wf a /\ fits16 (length (put a))) (fun a => prefixed (put a))).
Proof.
  intros Hd.
  eapply reads_equiv; [|eapply reads_bind; [apply reads_prefixed|
    intros b; instantiate (1 := fun b a bs => decode b = Some a /\ bs = [])]].
  - intros a bs. cbn beta. split.
    + intros (b & b1 & b2 & [Hf ->] & [E ->] & ->). apply Hd in E as [Ha ->]. by rewrite app_nil_r.
    + intros [[Ha Hf] ->]. exists (put a), (prefixed (put a)), []. rewrite app_nil_r. split_and!; try done.
      by apply Hd.
  - cbn beta. destruct (decode b) as [x|].
    + eapply reads_equiv; [|apply reads_ret]. naive_solver.
    + eapply reads_equiv; [|apply reads_fail]. naive_solver.
Qed.

Create HintDb reads.
#[export] Hint Resolve reads_bytes_p reads_u8_p reads_u16 reads_u32 reads_u64 reads_counted reads_prefixed : reads.

(** Read the next field of a record. *)
Ltac next_field proj := apply (reads_field proj); [solve [eauto with reads] | intros ?; cbn beta].

(** The record is built from the fields read. *)
Ltac last_field := apply reads_done; intros []; cbn; split; [intros; unread; reflexivity | intros [=]; subst; by split_and!].
