(* ===== verification/NetAddr.v ===== *)
(** * Socket addresses on the wire

    Models the family-tagged address codec that yip-membership (src/cert.rs)
    and yip-rendezvous (src/proto.rs) share, and the length prefixes of the
    membership formats. *)

From Stdlib Require Strings.Byte.
From Stdlib Require Import NArith Lia.
From stdpp Require Import base numbers gmap list.
From S2P Require Import Prelude Reader.

Local Open Scope nat_scope.

(** [std::net::SocketAddr]; an IPv6 address also has a flow label and a scope. *)
Inductive SocketAddr :=
| SockV4 (ip : list u8) (port : N)
| SockV6 (ip : list u8) (port flowinfo scope_id : N).

#[export] Instance socket_addr_eq_dec : EqDecision SocketAddr.
Proof. solve_decision. Defined.

#[export] Instance socket_addr_countable : Countable SocketAddr.
Proof.
  apply (inj_countable'
    (fun a => match a with SockV4 ip p => inl (ip, p) | SockV6 ip p f s => inr (ip, p, f, s) end)
    (fun x => match x with inl (ip, p) => SockV4 ip p | inr (ip, p, f, s) => SockV6 ip p f s end)).
  by intros [].
Defined.

Definition port_of (a : SocketAddr) : N := match a with SockV4 _ p => p | SockV6 _ p _ _ => p end.

(** [std::net::IpAddr], and [SocketAddr::ip] and [set_ip]. *)
Inductive IpAddr := IpV4 (octets : list u8) | IpV6 (octets : list u8).

#[export] Instance ip_addr_eq_dec : EqDecision IpAddr.
Proof. solve_decision. Defined.

Definition ip_of (a : SocketAddr) : IpAddr := match a with SockV4 ip _ => IpV4 ip | SockV6 ip _ _ _ => IpV6 ip end.

Definition set_ip (a : SocketAddr) (ip : IpAddr) : SocketAddr :=
  match a, ip with
  | SockV4 _ p, IpV4 o => SockV4 o p
  | SockV6 _ p f s, IpV6 o => SockV6 o p f s
  | SockV4 _ p, IpV6 o => SockV6 o p 0 0
  | SockV6 _ p _ _, IpV4 o => SockV4 o p
  end.

Definition put_addr (a : SocketAddr) : list u8 :=
  match a with
  | SockV4 ip _ => Byte.x04 :: ip
  | SockV6 ip _ _ _ => Byte.x06 :: ip
  end ++ to_be_bytes 2 (port_of a).

(** The address at the front of [buf], and the bytes it takes. *)
Definition take_addr (buf : list u8) : option (SocketAddr * nat) :=
  match buf with
  | [] => None
  | fam :: rest =>
      match
        if decide (fam = Byte.x04) then
          match slice_opt 0 4 rest with Some o => Some ((fun p => SockV4 o p), 4) | None => None end
        else if decide (fam = Byte.x06) then
          match slice_opt 0 16 rest with Some o => Some ((fun p => SockV6 o p 0 0), 16) | None => None end
        else None
      with
      | None => None
      | Some (with_port, used) =>
          match slice_opt used (used + 2) rest with
          | Some port_bytes => Some (with_port (from_be_bytes port_bytes), 1 + used + 2)
          | None => None
          end
      end
  end.

(** [take_addr(buf.get(pos..)?)?], then [pos += used] *)
Definition rd_addr : reader SocketAddr := fun buf pos =>
  if pos <=? length buf then
    match take_addr (drop pos buf) with Some (a, used) => Some (a, pos + used) | None => None end
  else None.

(** [u16::try_from(n).expect(..).to_be_bytes()] *)
Definition len16 (n : nat) : run (list u8) :=
  if (N.of_nat n <? u16_mod)%N then Ret (to_be_bytes 2 (N.of_nat n)) else Panic.

(** ** Round trip *)

(** Addresses the codec keeps: no flow label and no scope. *)
Definition addr_wf (a : SocketAddr) : Prop :=
  (port_of a < u16_mod)%N /\
  match a with
  | SockV4 ip _ => length ip = 4
  | SockV6 ip _ f s => length ip = 16 /\ f = 0%N /\ s = 0%N
  end.

Lemma slice_opt_prefix {A} n (x y : list A) : length x = n -> slice_opt 0 n (x ++ y) = Some x.
Proof.
  intros Hl. unfold slice_opt. rewrite decide_True by (rewrite length_app; lia). unfold slice.
  rewrite drop_0, Nat.sub_0_r. by rewrite take_app_length'.
Qed.

Lemma slice_opt_after {A} i j (x y z : list A) :
  length x = i -> i + length y = j -> slice_opt i j (x ++ y ++ z) = Some y.
Proof.
  intros Hi Hj. unfold slice_opt. rewrite decide_True by (rewrite !length_app; lia). unfold slice.
  rewrite drop_app_length' by done. by rewrite take_app_length' by lia.
Qed.

Lemma slice_opt_Some {A} i j (l s : list A) :
  slice_opt i j l = Some s -> i <= j <= length l /\ s = slice i j l /\ length s = j - i.
Proof.
  unfold slice_opt. destruct (decide _); [|done]. intros [= <-]. rewrite length_slice by lia. done.
Qed.

Lemma take_put_addr a post : addr_wf a -> take_addr (put_addr a ++ post) = Some (a, length (put_addr a)).
Proof.
  intros [Hp Ha]. pose proof (length_to_be_bytes 2 (port_of a)) as H2.
  assert (from_be_bytes (to_be_bytes 2 (port_of a)) = port_of a) as Hfp by (apply from_to_be_bytes_small; exact Hp).
  destruct a as [ip port|ip port f s]; cbn [port_of] in *; unfold put_addr, take_addr; cbn [app port_of].
  - rewrite decide_True by done. rewrite <- app_assoc, slice_opt_prefix by done.
    rewrite slice_opt_after by lia. rewrite Hfp, length_cons, length_app. do 2 f_equal. lia.
  - destruct Ha as (Hip & -> & ->). rewrite decide_False, decide_True by done.
    rewrite <- app_assoc, slice_opt_prefix by done.
    rewrite slice_opt_after by lia. rewrite Hfp, length_cons, length_app. do 2 f_equal. lia.
Qed.

Lemma split_at_2 (rest : list u8) n :
  n + 2 <= length rest -> rest = take n rest ++ slice n (n + 2) rest ++ drop (n + 2) rest.
Proof.
  intros H. unfold slice. replace (n + 2 - n) with 2 by lia. rewrite <- drop_split by lia. by rewrite take_drop.
Qed.

Lemma take_addr_Some buf a used :
  take_addr buf = Some (a, used) -> addr_wf a /\ buf = put_addr a ++ drop used buf /\ used = length (put_addr a).
Proof.
  unfold take_addr. destruct buf as [|fam rest]; [done|].
  assert (forall n o pb, slice_opt 0 n rest = Some o -> slice_opt n (n + 2) rest = Some pb ->
    length o = n /\ (from_be_bytes pb < u16_mod)%N /\
    rest = (o ++ to_be_bytes 2 (from_be_bytes pb)) ++ drop (n + 2) rest) as Hgen.
  { intros n o pb Ho Hpb. apply slice_opt_Some in Ho as (_ & Eo & Lo).
    apply slice_opt_Some in Hpb as (Hb & Epb & Lpb). split; [lia|]. split.
    - pose proof (from_be_bytes_lt pb) as Hlt. rewrite Lpb in Hlt. by replace (n + 2 - n) with 2 in Hlt by lia.
    - rewrite to_from_be_bytes_len by lia. rewrite <- app_assoc, Eo, Epb. unfold slice at 1.
      rewrite drop_0, Nat.sub_0_r. apply split_at_2. lia. }
  destruct (decide (fam = Byte.x04)) as [->|].
  { destruct (slice_opt 0 4 rest) as [o|] eqn:Eo; [|done].
    destruct (slice_opt 4 (4 + 2) rest) as [pb|] eqn:Epb; [|done]. intros [= <- <-].
    destruct (Hgen 4 o pb Eo Epb) as (Hlo & Hp & Hr). split; [done|]. unfold put_addr. cbn [port_of].
    rewrite length_app, length_cons, length_to_be_bytes, Hlo. split; [|done]. cbn [app]. f_equal. exact Hr. }
  destruct (decide (fam = Byte.x06)) as [->|]; [|done].
  destruct (slice_opt 0 16 rest) as [o|] eqn:Eo; [|done].
  destruct (slice_opt 16 (16 + 2) rest) as [pb|] eqn:Epb; [|done]. intros [= <- <-].
  destruct (Hgen 16 o pb Eo Epb) as (Hlo & Hp & Hr). split; [done|]. unfold put_addr. cbn [port_of].
  rewrite length_app, length_cons, length_to_be_bytes, Hlo. split; [|done]. cbn [app]. f_equal. exact Hr.
Qed.

Lemma reads_addr : reads rd_addr (prints addr_wf put_addr).
Proof.
  split.
  - intros a bs pre post [Ha ->]. unfold rd_addr. rewrite (proj2 (Nat.leb_le _ _)) by (rewrite !length_app; lia).
    rewrite drop_app_length. by rewrite take_put_addr.
  - intros buf pos a pos' Hp. unfold rd_addr. rewrite (proj2 (Nat.leb_le _ _)) by done.
    destruct (take_addr (drop pos buf)) as [[x used]|] eqn:E; [|done]. intros [= -> <-].
    destruct (take_addr_Some _ _ _ E) as (Ha & Hd & Hu). exists (put_addr a). split; [done|].
    rewrite drop_drop in Hd. subst used. split_and!; try done.
    apply (f_equal length) in Hd. rewrite length_app, !length_drop in Hd.
    assert (0 < length (put_addr a)) by (unfold put_addr; destruct a; rewrite length_app; cbn; lia). lia.
Qed.

#[export] Hint Resolve reads_addr : reads.
