(* ===== verification/StdText.v ===== *)
(** * Text of the standard library

    What the sources use of Rust's strings, integer parsing and address parsing
    (core::str, core::num, core::net::parser).  A string is the list of its
    characters, as Unicode scalar values; [utf8] gives its bytes. *)

From Stdlib Require Strings.Byte Strings.String Strings.Ascii.
From Stdlib Require Import NArith Lia.
From stdpp Require Import base numbers gmap list.
From S2P Require Import Prelude NetAddr.
Export String.StringSyntax.

Local Open Scope N_scope.

Abbreviation str := (list N) (only parsing).

(** A literal of the source. *)
Definition lit (s : String.string) : str := map (fun a => Ascii.N_of_ascii a) (String.list_ascii_of_string s).
Arguments lit _%_string_scope.

Module Text.

(** ** Strings *)

Definition utf8_char (c : N) : list u8 :=
  if c <? 0x80 then [n2b c]
  else if c <? 0x800 then [n2b (0xC0 + c / 0x40); n2b (0x80 + c mod 0x40)]
  else if c <? 0x10000 then [n2b (0xE0 + c / 0x1000); n2b (0x80 + c / 0x40 mod 0x40); n2b (0x80 + c mod 0x40)]
  else [n2b (0xF0 + c / 0x40000); n2b (0x80 + c / 0x1000 mod 0x40); n2b (0x80 + c / 0x40 mod 0x40); n2b (0x80 + c mod 0x40)].

Definition utf8 (s : str) : list u8 := concat (map utf8_char s).

(** [char::is_whitespace] *)
Definition is_whitespace (c : N) : bool :=
  ((9 <=? c) && (c <=? 13)) || (c =? 32) || (c =? 0x85) || (c =? 0xA0) || (c =? 0x1680) ||
  ((0x2000 <=? c) && (c <=? 0x200A)) || (c =? 0x2028) || (c =? 0x2029) || (c =? 0x202F) || (c =? 0x205F) || (c =? 0x3000).

Fixpoint drop_while (f : N -> bool) (s : str) : str :=
  match s with
  | c :: s' => if f c then drop_while f s' else s
  | [] => []
  end.

Definition trim_by (f : N -> bool) (s : str) : str := rev (drop_while f (rev (drop_while f s))).
Definition trim : str -> str := trim_by is_whitespace.
Definition trim_matches (c : N) : str -> str := trim_by (N.eqb c).

(** [split_once], [rsplit_once] and [split] at a character. *)
Fixpoint split_once (c : N) (s : str) : option (str * str) :=
  match s with
  | [] => None
  | x :: s => if x =? c then Some ([], s) else (fun p => (x :: p.1, p.2)) <$> split_once c s
  end.

Definition rsplit_once (c : N) (s : str) : option (str * str) :=
  (fun p => (rev p.2, rev p.1)) <$> split_once c (rev s).

Fixpoint split (c : N) (s : str) : list str :=
  match s with
  | [] => [[]]
  | x :: s =>
      if x =? c then [] :: split c s
      else match split c s with p :: ps => (x :: p) :: ps | [] => [[x]] end
  end.

(** [strip_prefix] *)
Fixpoint strip_prefix (p s : str) : option str :=
  match p, s with
  | [], _ => Some s
  | x :: p, y :: s => if x =? y then strip_prefix p s else None
  | _, [] => None
  end.

Definition starts_with (c : N) (s : str) : bool := match s with x :: _ => x =? c | [] => false end.

(** [str::split_whitespace] *)
Fixpoint words_from (word s : str) : list str :=
  match s with
  | [] => match word with [] => [] | _ => [word] end
  | c :: s =>
      if is_whitespace c then match word with [] => words_from [] s | _ => word :: words_from [] s end
      else words_from (word ++ [c]) s
  end.
Definition split_whitespace : str -> list str := words_from [].

(** [str::lines]: the text between line feeds, without a carriage return before
    one, and without an empty last piece. *)
Definition chomp (s : str) : str := match rev s with 13 :: r => rev r | _ => s end.

Definition lines (s : str) : list str :=
  let ps := split 10 s in
  let last := List.last ps [] in
  map chomp (removelast ps) ++ (match last with [] => [] | _ => [last] end).

(** ** Numbers *)

(** [char::to_digit] *)
Definition to_digit (radix c : N) : option N :=
  let d := if (48 <=? c) && (c <=? 57) then Some (c - 48)
           else if (97 <=? c) && (c <=? 122) then Some (c - 97 + 10)
           else if (65 <=? c) && (c <=? 90) then Some (c - 65 + 10)
           else None in
  match d with Some d => if d <? radix then Some d else None | None => None end.

Fixpoint digits_from (modulus radix acc : N) (s : str) : option N :=
  match s with
  | [] => Some acc
  | c :: s =>
      match to_digit radix c with
      | Some d => let acc := acc * radix + d in if acc <? modulus then digits_from modulus radix acc s else None
      | None => None
      end
  end.

(** [uN::from_str_radix] for the unsigned type below [modulus]; a plus sign may
    come first. *)
Definition from_str_radix (modulus radix : N) (s : str) : option N :=
  match s with
  | [] => None
  | 43 :: [] => None
  | 43 :: s => digits_from modulus radix 0 s
  | _ => digits_from modulus radix 0 s
  end.

(** [s.parse::<uN>()] *)
Definition parse_uint (modulus : N) : str -> option N := from_str_radix modulus 10.

(** ** Addresses *)

(** A parser that consumes a prefix; a failure consumes nothing. *)
Definition parser (A : Type) := str -> option (A * str).

Definition given (c : N) : parser unit :=
  fun s => match s with x :: s => if x =? c then Some (tt, s) else None | [] => None end.

Definition pbind {A B} (p : parser A) (k : A -> parser B) : parser B :=
  fun s => match p s with Some (a, s) => k a s | None => None end.
Definition pret {A} (a : A) : parser A := fun s => Some (a, s).
Definition por {A} (p q : parser A) : parser A := fun s => match p s with Some r => Some r | None => q s end.
Definition popt {A} (p : parser A) : parser (option A) :=
  fun s => match p s with Some (a, s) => Some (Some a, s) | None => Some (None, s) end.

(** The digits at the front: their values and the rest. *)
Fixpoint span_digits (radix : N) (s : str) : list N * str :=
  match s with
  | c :: s' => match to_digit radix c with Some d => let ' (ds, r) := span_digits radix s' in (d :: ds, r) | None => ([], s) end
  | [] => ([], [])
  end.

Definition value (radix : N) (ds : list N) : N := fold_left (fun a d => a * radix + d) ds 0.

(** [read_number]: at most [max] digits, below [modulus], and unless
    [zero_prefix] no leading zero.  Without a bound on the digits the value is
    checked at each digit, which fails exactly when the final one is too
    large. *)
Definition read_number (modulus radix : N) (max : option nat) (zero_prefix : bool) : parser N :=
  fun s =>
    let ' (ds, r) := span_digits radix s in
    if match max with Some m => (m <? length ds)%nat | None => false end then None
    else if (length ds =? 0)%nat then None
    else if negb zero_prefix && match s with 48 :: _ => true | _ => false end && (1 <? length ds)%nat then None
    else if value radix ds <? modulus then Some (value radix ds, r) else None.

Definition read_separator {A} (sep : N) (first : bool) (p : parser A) : parser A :=
  if first then p else pbind (given sep) (fun _ => p).

Definition read_octet (first : bool) : parser N := read_separator 46 first (read_number 256 10 (Some 3%nat) false).

Definition read_ipv4 : parser (list u8) :=
  pbind (read_octet true) (fun a => pbind (read_octet false) (fun b =>
  pbind (read_octet false) (fun c => pbind (read_octet false) (fun d => pret (map n2b [a; b; c; d]))))).

(** [read_groups] for [limit] groups: the groups, and whether an IPv4 address
    ended them. *)
Fixpoint read_groups (limit : nat) (first : bool) (s : str) : list N * bool * str :=
  match limit with
  | O => ([], false, s)
  | S limit =>
      match (if (1 <=? limit)%nat then read_separator 58 first read_ipv4 s else None) with
      | Some (v4, s) => ([from_be_bytes (take 2 v4); from_be_bytes (drop 2 v4)], true, s)
      | None =>
          match read_separator 58 first (read_number u16_mod 16 (Some 4%nat) true) s with
          | Some (g, s) => let ' (gs, e, s) := read_groups limit false s in (g :: gs, e, s)
          | None => ([], false, s)
          end
      end
  end.

Definition groups_bytes (gs : list N) : list u8 := concat (map (to_be_bytes 2) gs).

Definition read_ipv6 : parser (list u8) :=
  fun s =>
    let ' (head, v4, s) := read_groups 8 true s in
    if (length head =? 8)%nat then Some (groups_bytes head, s)
    else if v4 then None
    else
      match pbind (given 58) (fun _ => given 58) s with
      | None => None
      | Some (_, s) =>
          let ' (tail, _, s) := read_groups (7 - length head) true s in
          Some (groups_bytes (head ++ replicate (8 - length head - length tail)%nat 0 ++ tail), s)
      end.

Definition read_port : parser N := pbind (given 58) (fun _ => read_number u16_mod 10 None true).
Definition read_scope_id : parser N := pbind (given 37) (fun _ => read_number u32_mod 10 None true).

Definition read_socket_v4 : parser SocketAddr := pbind read_ipv4 (fun ip => pbind read_port (fun p => pret (SockV4 ip p))).
Definition read_socket_v6 : parser SocketAddr :=
  pbind (given 91) (fun _ => pbind read_ipv6 (fun ip => pbind (popt read_scope_id) (fun sc =>
  pbind (given 93) (fun _ => pbind read_port (fun p => pret (SockV6 ip p 0 (default 0 sc))))))).

(** [parse_with]: the whole text. *)
Definition parse_all {A} (p : parser A) (s : str) : option A := match p s with Some (a, []) => Some a | _ => None end.

Definition parse_socket_addr : str -> option SocketAddr := parse_all (por read_socket_v4 read_socket_v6).
Definition parse_ip_addr : str -> option IpAddr :=
  parse_all (por (pbind read_ipv4 (fun o => pret (IpV4 o))) (pbind read_ipv6 (fun o => pret (IpV6 o)))).

(** ** What the address parsers return *)

(** An address as the text form gives it: no flow label. *)
Definition addr_shape (a : SocketAddr) : Prop :=
  port_of a < u16_mod /\
  match a with SockV4 ip _ => length ip = 4%nat | SockV6 ip _ f sc => length ip = 16%nat /\ f = 0 /\ sc < u32_mod end.

Lemma pbind_some {A B} (p : parser A) (k : A -> parser B) s r :
  pbind p k s = Some r <-> exists a s', p s = Some (a, s') /\ k a s' = Some r.
Proof. unfold pbind. destruct (p s) as [[a s']|]; naive_solver. Qed.

Lemma read_number_bound m radix max zp s v s' : read_number m radix max zp s = Some (v, s') -> v < m.
Proof.
  unfold read_number. destruct (span_digits radix s) as [ds r].
  destruct (match max with Some m => _ | None => _ end); [done|]. destruct (length ds =? 0)%nat; [done|].
  destruct (negb zp && _ && _); [done|]. destruct (N.ltb_spec (value radix ds) m); [by intros [= <- <-]|done].
Qed.

Lemma read_ipv4_length s ip s' : read_ipv4 s = Some (ip, s') -> length ip = 4%nat.
Proof.
  unfold read_ipv4. intros H. do 4 apply pbind_some in H as (? & ? & _ & H). by injection H as <- _.
Qed.

Lemma read_groups_length limit first s : (length (read_groups limit first s).1.1 <= limit)%nat.
Proof.
  revert first s. induction limit as [|limit IH]; intros first s; cbn [read_groups]; [cbn; lia|].
  destruct (if (1 <=? limit)%nat then _ else _) as [[v4 s1]|] eqn:E.
  - destruct (Nat.leb_spec 1 limit) as [Hl|Hl]; [|done]. clear -Hl. simpl. lia.
  - destruct (read_separator 58 first (read_number _ _ _ _) s) as [[g s1]|]; [|apply Nat.le_0_l].
    specialize (IH false s1). destruct (read_groups limit false s1) as [[gs e] s2]. simpl in *. lia.
Qed.

Lemma length_groups_bytes gs : length (groups_bytes gs) = (2 * length gs)%nat.
Proof. induction gs as [|g gs IH]; [done|]. unfold groups_bytes in *. cbn [map concat]. rewrite length_app, length_to_be_bytes, IH. cbn. lia. Qed.

Lemma read_ipv6_length s ip s' : read_ipv6 s = Some (ip, s') -> length ip = 16%nat.
Proof.
  unfold read_ipv6. pose proof (read_groups_length 8 true s) as Hh. destruct (read_groups 8 true s) as [[head v4] s1]. cbn in Hh.
  destruct (Nat.eqb_spec (length head) 8) as [H8|H8]; [intros [= <- _]; rewrite length_groups_bytes; lia|].
  destruct v4; [done|]. destruct (pbind _ _ s1) as [[u s2]|]; [|done].
  pose proof (read_groups_length (7 - length head) true s2) as Ht. destruct (read_groups _ true s2) as [[tail e] s3]. cbn in Ht.
  intros [= <- _]. rewrite length_groups_bytes, !length_app, length_replicate. lia.
Qed.

Lemma read_port_bound s p s' : read_port s = Some (p, s') -> p < u16_mod.
Proof. unfold read_port. rewrite pbind_some. intros (u & s1 & _ & H). by apply read_number_bound in H. Qed.

Lemma parse_all_some {A} (p : parser A) s a : parse_all p s = Some a <-> p s = Some (a, []).
Proof. unfold parse_all. destruct (p s) as [[b [|c r]]|]; naive_solver. Qed.

Lemma parse_socket_addr_shape s a : parse_socket_addr s = Some a -> addr_shape a.
Proof.
  unfold parse_socket_addr. rewrite parse_all_some. unfold por, read_socket_v4.
  destruct (pbind read_ipv4 _ s) as [[b s1]|] eqn:E.
  - intros [= -> ->]. apply pbind_some in E as (ip & s2 & Hip & E). apply pbind_some in E as (p & s3 & Hp & [= <- _]).
    split; [by eapply read_port_bound|by eapply read_ipv4_length].
  - clear E. unfold read_socket_v6. intros E.
    apply pbind_some in E as (u & s1 & _ & E). apply pbind_some in E as (ip & s2 & Hip & E).
    apply pbind_some in E as (sc & s3 & Hsc & E). apply pbind_some in E as (u' & s4 & _ & E). apply pbind_some in E as (p & s5 & Hp & [= <- _]).
    split; [by eapply read_port_bound|]. split; [by eapply read_ipv6_length|]. split; [done|].
    unfold popt in Hsc. destruct (read_scope_id s2) as [[k s6]|] eqn:Es; [|by injection Hsc as <- _].
    injection Hsc as <- _. unfold read_scope_id in Es. apply pbind_some in Es as (u2 & s7 & _ & Es). by apply read_number_bound in Es.
Qed.

Lemma parse_ip_addr_length s ip :
  parse_ip_addr s = Some ip -> match ip with IpV4 o => length o = 4%nat | IpV6 o => length o = 16%nat end.
Proof.
  unfold parse_ip_addr. rewrite parse_all_some. unfold por.
  destruct (pbind read_ipv4 _ s) as [[b s1]|] eqn:E.
  - intros [= -> ->]. apply pbind_some in E as (o & s2 & Ho & [= <- _]). by eapply read_ipv4_length.
  - intros E2. apply pbind_some in E2 as (o & s2 & Ho & [= <- _]). by eapply read_ipv6_length.
Qed.

End Text.
