(* ===== verification/MemberCodec.v ===== *)
(** * Membership formats

    Models yip-membership: certificates and root sets (src/cert.rs), directory
    records (src/record.rs) and gossip messages (src/gossip.rs).  Fixed-size
    arrays are byte lists; [cert_wf] and its like state their lengths.  The
    encoders panic (an [expect]) on collections that do not fit the format.

    The contract of each format is that its decoder accepts exactly the
    encodings of well-formed values: decoding is a left and right inverse of
    encoding, so no two byte strings decode to one value. *)

From Stdlib Require Strings.Byte.
From Stdlib Require Import NArith Lia.
From stdpp Require Import base numbers gmap list.
From S2P Require Import Prelude Reader NetAddr.

Local Open Scope nat_scope.

(** ** Data *)

Record Cert := mkCert {
  version : u8;
  member_pubkey : list u8;
  member_sign_pubkey : list u8;
  network_id : list u8;
  not_before : N;
  not_after : N;
  tags : list (u8 * list u8);
  ca_sig : list u8;
}.

Record RootSet := mkRootSet {
  roots : list (list u8 * SocketAddr);
  rs_version : N;
  rs_ca_sig : list u8;
}.

(** [Record] of src/record.rs. *)
Record Entry := mkEntry {
  node_id : list u8;
  cert : Cert;
  endpoints : list SocketAddr;
  seq : N;
  sig : list u8;
}.

Inductive GossipMsg :=
| Digest (entries : list (list u8 * N))
| PullRequest (ids : list (list u8))
| Records (records : list Entry).

#[export] Instance cert_eq_dec : EqDecision Cert.
Proof. solve_decision. Defined.
#[export] Instance entry_eq_dec : EqDecision Entry.
Proof. solve_decision. Defined.

Definition TAG_DIGEST : u8 := Byte.x00.
Definition TAG_PULL_REQUEST : u8 := Byte.x01.
Definition TAG_RECORDS : u8 := Byte.x02.

(** ** Encoders *)

(** Append what [f] makes of each element. *)
Definition put_all {A} (f : A -> run (list u8)) (l : list A) : run (list u8) :=
  let! bss := rmap f l in Ret (concat bss).

Definition put_tag (t : u8 * list u8) : run (list u8) :=
  let! len := len16 (length t.2) in Ret (t.1 :: len ++ t.2).

Definition cert_signing_body (c : Cert) : run (list u8) :=
  let! tag_count := len16 (length (tags c)) in
  let! tag_bytes := put_all put_tag (tags c) in
  Ret (version c :: member_pubkey c ++ member_sign_pubkey c ++ network_id c ++
       to_be_bytes 8 (not_before c) ++ to_be_bytes 8 (not_after c) ++ tag_count ++ tag_bytes).

Definition cert_encode (c : Cert) : run (list u8) :=
  let! body := cert_signing_body c in Ret (body ++ ca_sig c).

Definition rootset_signing_body (r : RootSet) : run (list u8) :=
  let! count := len16 (length (roots r)) in
  Ret (to_be_bytes 8 (rs_version r) ++ count ++ concat (map (fun x => x.1 ++ put_addr x.2) (roots r))).

Definition rootset_encode (r : RootSet) : run (list u8) :=
  let! body := rootset_signing_body r in Ret (body ++ rs_ca_sig r).

Definition record_signing_body (r : Entry) : run (list u8) :=
  let! cert_bytes := cert_encode (cert r) in
  let! cert_len := len16 (length cert_bytes) in
  let! endpoint_count := len16 (length (endpoints r)) in
  Ret (node_id r ++ cert_len ++ cert_bytes ++ endpoint_count ++ concat (map put_addr (endpoints r)) ++
       to_be_bytes 8 (seq r)).

Definition record_encode (r : Entry) : run (list u8) :=
  let! body := record_signing_body r in Ret (body ++ sig r).

(** A record with its length in front, as it is embedded in messages. *)
Definition put_record (r : Entry) : run (list u8) :=
  let! bytes := record_encode r in
  let! len := len16 (length bytes) in
  Ret (len ++ bytes).

Definition gossip_encode (m : GossipMsg) : run (list u8) :=
  match m with
  | Digest entries =>
      let! count := len16 (length entries) in
      Ret (TAG_DIGEST :: count ++ concat (map (fun e => e.1 ++ to_be_bytes 8 e.2) entries))
  | PullRequest ids =>
      let! count := len16 (length ids) in
      Ret (TAG_PULL_REQUEST :: count ++ concat ids)
  | Records records =>
      let! count := len16 (length records) in
      let! body := put_all put_record records in
      Ret (TAG_RECORDS :: count ++ body)
  end.

(** ** Decoders *)

Definition rd_tag : reader (u8 * list u8) :=
  read tag := rd_u8 in
  read bytes := rd_prefixed in
  rd_ret (tag, bytes).

Definition rd_cert : reader Cert :=
  read version := rd_u8 in
  read member_pubkey := rd_bytes 32 in
  read member_sign_pubkey := rd_bytes 32 in
  read network_id := rd_bytes 16 in
  read not_before := rd_be 8 in
  read not_after := rd_be 8 in
  read tags := rd_counted rd_tag in
  read ca_sig := rd_bytes 64 in
  rd_ret (mkCert version member_pubkey member_sign_pubkey network_id not_before not_after tags ca_sig).

Definition cert_decode (buf : list u8) : option Cert := rd_exact rd_cert buf.

Definition rd_root : reader (list u8 * SocketAddr) :=
  read pk := rd_bytes 32 in
  read addr := rd_addr in
  rd_ret (pk, addr).

Definition rd_rootset : reader RootSet :=
  read version := rd_be 8 in
  read roots := rd_counted rd_root in
  read ca_sig := rd_bytes 64 in
  rd_ret (mkRootSet roots version ca_sig).

Definition rootset_decode (buf : list u8) : option RootSet := rd_exact rd_rootset buf.

Definition rd_record : reader Entry :=
  read node_id := rd_bytes 16 in
  read cert := rd_embedded cert_decode in
  read endpoints := rd_counted rd_addr in
  read seq := rd_be 8 in
  read sig := rd_bytes 64 in
  rd_ret (mkEntry node_id cert endpoints seq sig).

Definition record_decode (buf : list u8) : option Entry := rd_exact rd_record buf.

Definition rd_digest_entry : reader (list u8 * N) :=
  read id := rd_bytes 16 in
  read seq := rd_be 8 in
  rd_ret (id, seq).

Definition gossip_decode (buf : list u8) : option GossipMsg :=
  match buf with
  | [] => None
  | tag :: rest =>
      if decide (tag = TAG_DIGEST) then option_map Digest (rd_exact (rd_counted rd_digest_entry) rest)
      else if decide (tag = TAG_PULL_REQUEST) then option_map PullRequest (rd_exact (rd_counted (rd_bytes 16)) rest)
      else if decide (tag = TAG_RECORDS) then option_map Records (rd_exact (rd_counted (rd_embedded record_decode)) rest)
      else None
  end.

(** ** Well-formed values and their bytes *)

Record cert_wf (c : Cert) : Prop := {
  cw_member : length (member_pubkey c) = 32;
  cw_sign : length (member_sign_pubkey c) = 32;
  cw_network : length (network_id c) = 16;
  cw_before : (not_before c < u64_mod)%N;
  cw_after : (not_after c < u64_mod)%N;
  cw_count : fits16 (length (tags c));
  cw_tags : Forall (fun t => fits16 (length t.2)) (tags c);
  cw_sig : length (ca_sig c) = 64;
}.

Definition tag_bytes (t : u8 * list u8) : list u8 := t.1 :: prefixed t.2.
Definition cert_body (c : Cert) : list u8 :=
  version c :: member_pubkey c ++ member_sign_pubkey c ++ network_id c ++
  to_be_bytes 8 (not_before c) ++ to_be_bytes 8 (not_after c) ++ counted tag_bytes (tags c).
Definition cert_bytes (c : Cert) : list u8 := cert_body c ++ ca_sig c.

Record rootset_wf (r : RootSet) : Prop := {
  sw_version : (rs_version r < u64_mod)%N;
  sw_count : fits16 (length (roots r));
  sw_roots : Forall (fun x => length x.1 = 32 /\ addr_wf x.2) (roots r);
  sw_sig : length (rs_ca_sig r) = 64;
}.

Definition root_bytes (x : list u8 * SocketAddr) : list u8 := x.1 ++ put_addr x.2.
Definition rootset_body (r : RootSet) : list u8 := to_be_bytes 8 (rs_version r) ++ counted root_bytes (roots r).
Definition rootset_bytes (r : RootSet) : list u8 := rootset_body r ++ rs_ca_sig r.

Record record_wf (r : Entry) : Prop := {
  rw_id : length (node_id r) = 16;
  rw_cert : cert_wf (cert r);
  rw_cert_len : fits16 (length (cert_bytes (cert r)));
  rw_count : fits16 (length (endpoints r));
  rw_endpoints : Forall addr_wf (endpoints r);
  rw_seq : (seq r < u64_mod)%N;
  rw_sig : length (sig r) = 64;
}.

Definition record_body (r : Entry) : list u8 :=
  node_id r ++ prefixed (cert_bytes (cert r)) ++ counted put_addr (endpoints r) ++ to_be_bytes 8 (seq r).
Definition record_bytes (r : Entry) : list u8 := record_body r ++ sig r.

Definition digest_wf (e : list u8 * N) : Prop := length e.1 = 16 /\ (e.2 < u64_mod)%N.
Definition digest_bytes (e : list u8 * N) : list u8 := e.1 ++ to_be_bytes 8 e.2.

Definition gossip_wf (m : GossipMsg) : Prop :=
  match m with
  | Digest entries => fits16 (length entries) /\ Forall digest_wf entries
  | PullRequest ids => fits16 (length ids) /\ Forall (fun id => length id = 16) ids
  | Records records =>
      fits16 (length records) /\ Forall (fun r => record_wf r /\ fits16 (length (record_bytes r))) records
  end.

Definition gossip_bytes (m : GossipMsg) : list u8 :=
  match m with
  | Digest entries => TAG_DIGEST :: counted digest_bytes entries
  | PullRequest ids => TAG_PULL_REQUEST :: counted id ids
  | Records records => TAG_RECORDS :: counted (fun r => prefixed (record_bytes r)) records
  end.

(** ** The decoders accept exactly these bytes *)

Ltac same_bytes := intros; unfold id; cbn beta; cbn [app]; rewrite <- ?app_assoc, ?app_nil_r; reflexivity.

Lemma reads_tag : reads rd_tag (prints (fun t => fits16 (length t.2)) tag_bytes).
Proof.
  eapply reads_record.
  - next_field (@fst u8 (list u8)). next_field (@snd u8 (list u8)). last_field.
  - naive_solver.
  - same_bytes.
Qed.

#[local] Hint Resolve reads_tag : reads.

Lemma reads_cert : reads rd_cert (prints cert_wf cert_bytes).
Proof.
  eapply reads_record.
  - next_field version. next_field member_pubkey. next_field member_sign_pubkey. next_field network_id.
    next_field not_before. next_field not_after. next_field tags. next_field ca_sig. last_field.
  - intros c. cbn beta. split; [intros; unread; constructor; assumption|by intros []].
  - unfold cert_bytes, cert_body. same_bytes.
Qed.

Lemma cert_decode_spec buf c : cert_decode buf = Some c <-> prints cert_wf cert_bytes c buf.
Proof. apply rd_exact_spec, reads_cert. Qed.

Lemma reads_root : reads rd_root (prints (fun x => length x.1 = 32 /\ addr_wf x.2) root_bytes).
Proof.
  eapply reads_record.
  - next_field (@fst (list u8) SocketAddr). next_field (@snd (list u8) SocketAddr). last_field.
  - naive_solver.
  - unfold root_bytes. same_bytes.
Qed.

#[local] Hint Resolve reads_root : reads.

Lemma reads_rootset : reads rd_rootset (prints rootset_wf rootset_bytes).
Proof.
  eapply reads_record.
  - next_field rs_version. next_field roots. next_field rs_ca_sig. last_field.
  - intros c. cbn beta. split; [intros; unread; constructor; assumption|by intros []].
  - unfold rootset_bytes, rootset_body. same_bytes.
Qed.

Lemma reads_record_cert :
  reads (rd_embedded cert_decode)
    (prints (fun c => cert_wf c /\ fits16 (length (cert_bytes c))) (fun c => prefixed (cert_bytes c))).
Proof. apply reads_embedded, cert_decode_spec. Qed.

#[local] Hint Resolve reads_record_cert : reads.

Lemma reads_entry : reads rd_record (prints record_wf record_bytes).
Proof.
  eapply reads_record.
  - next_field node_id. next_field cert. next_field endpoints. next_field seq. next_field sig. last_field.
  - intros r. cbn beta. split; [intros; unread; constructor; assumption|by intros []].
  - unfold record_bytes, record_body. same_bytes.
Qed.

Lemma record_decode_spec buf r : record_decode buf = Some r <-> prints record_wf record_bytes r buf.
Proof. apply rd_exact_spec, reads_entry. Qed.

Lemma reads_digest_entry : reads rd_digest_entry (prints digest_wf digest_bytes).
Proof.
  eapply reads_record.
  - next_field (@fst (list u8) N). next_field (@snd (list u8) N). last_field.
  - intros a. unfold digest_wf. cbn beta. naive_solver.
  - unfold digest_bytes. same_bytes.
Qed.

Lemma exact_counted {A M} (K : A -> M) (inj : forall a b, K a = K b -> a = b) (r : reader A) wf put buf a :
  reads r (prints wf put) -> option_map K (rd_exact r buf) = Some (K a) <-> wf a /\ buf = put a.
Proof.
  intros Hr. rewrite <- (rd_exact_spec r _ buf a Hr). destruct (rd_exact r buf); cbn; [|naive_solver].
  split; [intros [= ?%inj]; congruence|congruence].
Qed.

Lemma gossip_decode_spec buf m : gossip_decode buf = Some m <-> gossip_wf m /\ buf = gossip_bytes m.
Proof.
  pose proof (fun b a => exact_counted Digest ltac:(congruence) _ _ _ b a (reads_counted _ _ _ reads_digest_entry)) as HD.
  pose proof (fun b a => exact_counted PullRequest ltac:(congruence) _ _ _ b a (reads_counted _ _ _ (reads_bytes_p 16))) as HP.
  pose proof (fun b a => exact_counted Records ltac:(congruence) _ _ _ b a
    (reads_counted _ _ _ (reads_embedded _ _ _ record_decode_spec))) as HR.
  destruct buf as [|tag rest]; [split; [done|]; by destruct m; intros [_ ?]|]. unfold gossip_decode.
  repeat case_decide; subst; destruct m as [es|ids|rs]; cbn [gossip_wf gossip_bytes];
    (split; [intros E|intros [Hw [= E]]]); try done; try (by destruct (rd_exact _ _)); subst;
    try (apply HD in E as [? ->]; done); try (apply HP in E as [? ->]; done); try (apply HR in E as [? ->]; done).
  - by apply HD.
  - by apply HP.
  - by apply HR.
Qed.

(** ** The encoders produce exactly these bytes *)

Lemma len16_fits n : fits16 n -> len16 n = Ret (be16 n).
Proof. intros H. unfold len16. by rewrite (proj2 (N.ltb_lt _ _)). Qed.

Lemma put_all_ok {A} (f : A -> run (list u8)) g (P : A -> Prop) l :
  (forall a, P a -> f a = Ret (g a)) -> Forall P l -> put_all f l = Ret (concat (map g l)).
Proof.
  intros Hf HF. unfold put_all. enough (rmap f l = Ret (map g l)) as -> by done.
  induction HF as [|a l Ha _ IH]; [done|]. cbn [rmap map]. rewrite (Hf a Ha). cbn [rbind]. by rewrite IH.
Qed.

Lemma cert_signing_body_ok c : cert_wf c -> cert_signing_body c = Ret (cert_body c).
Proof.
  intros []. unfold cert_signing_body. rewrite len16_fits by done. cbn [rbind].
  erewrite put_all_ok; [reflexivity| |done].
  intros t Ht. unfold put_tag. by rewrite len16_fits.
Qed.

Lemma cert_encode_ok c : cert_wf c -> cert_encode c = Ret (cert_bytes c).
Proof. intros H. unfold cert_encode. by rewrite cert_signing_body_ok. Qed.

Lemma rootset_signing_body_ok r : rootset_wf r -> rootset_signing_body r = Ret (rootset_body r).
Proof. intros []. unfold rootset_signing_body. by rewrite len16_fits. Qed.

Lemma record_signing_body_ok r : record_wf r -> record_signing_body r = Ret (record_body r).
Proof.
  intros []. unfold record_signing_body. rewrite cert_encode_ok by done. cbn [rbind].
  rewrite !len16_fits by done. cbn [rbind]. unfold record_body, prefixed, counted. by rewrite <- !app_assoc.
Qed.

Lemma record_encode_ok r : record_wf r -> record_encode r = Ret (record_bytes r).
Proof. intros H. unfold record_encode. by rewrite record_signing_body_ok. Qed.

Lemma gossip_encode_ok m : gossip_wf m -> gossip_encode m = Ret (gossip_bytes m).
Proof.
  destruct m as [es|ids|rs]; cbn [gossip_wf gossip_encode gossip_bytes]; intros [Hc HF]; rewrite len16_fits by done.
  - done.
  - unfold counted. cbn [rbind]. by rewrite map_id.
  - cbn [rbind]. erewrite put_all_ok; [reflexivity| |exact HF].
    intros r [Hr Hl]. unfold put_record. rewrite record_encode_ok by done. cbn [rbind]. by rewrite len16_fits.
Qed.

(** A root set: decoding accepts exactly what encoding produces. *)
Lemma rootset_decode_iff buf r : rootset_decode buf = Some r <-> rootset_wf r /\ rootset_encode r = Ret buf.
Proof.
  unfold rootset_decode. rewrite (rd_exact_spec _ _ _ _ reads_rootset). unfold prints, rootset_encode, rootset_bytes.
  split; intros [Hw E]; (split; [done|]); rewrite rootset_signing_body_ok in * by done; cbn [rbind] in *; congruence.
Qed.

(** The decoders of the membership formats accept exactly the encodings of
    well-formed values, for certificates and for directory records. *)
Lemma cert_decode_iff buf c : cert_decode buf = Some c <-> cert_wf c /\ cert_encode c = Ret buf.
Proof.
  rewrite cert_decode_spec. unfold prints.
  split; intros [Hw E]; (split; [done|]); rewrite cert_encode_ok in * by done; congruence.
Qed.

Lemma record_decode_iff buf r : record_decode buf = Some r <-> record_wf r /\ record_encode r = Ret buf.
Proof.
  rewrite record_decode_spec. unfold prints.
  split; intros [Hw E]; (split; [done|]); rewrite record_encode_ok in * by done; congruence.
Qed.

(** The gossip decoder accepts exactly the encodings of well-formed
    messages, the certificates and records inside them included: every
    accepted buffer is the one encoding of the message it decodes to, and
    encoding a well-formed message does not panic. *)
Theorem gossip_codec_exact buf m :
  gossip_decode buf = Some m <-> gossip_wf m /\ gossip_encode m = Ret buf.
Proof.
  rewrite gossip_decode_spec.
  split; intros [Hw E]; (split; [done|]); rewrite gossip_encode_ok in * by done; congruence.
Qed.

(** ** Signing bodies determine what they sign *)

Lemma prints_inj {A} (r : reader A) wf put a b :
  reads r (prints wf put) -> wf a -> wf b -> put a = put b -> a = b.
Proof.
  intros Hr Ha Hb E. apply (rd_exact_spec _ _ (put a)) with (a := a) in Hr as H1.
  apply (rd_exact_spec _ _ (put a)) with (a := b) in Hr as H2.
  assert (rd_exact r (put a) = Some a) by (by apply H1).
  assert (rd_exact r (put a) = Some b) by (by apply H2). congruence.
Qed.

Definition with_ca_sig (s : list u8) (c : Cert) : Cert :=
  mkCert (version c) (member_pubkey c) (member_sign_pubkey c) (network_id c) (not_before c) (not_after c) (tags c) s.
Definition with_sig (s : list u8) (r : Entry) : Entry := mkEntry (node_id r) (cert r) (endpoints r) (seq r) s.

Lemma with_ca_sig_wf s c : length s = 64 -> cert_wf c -> cert_wf (with_ca_sig s c).
Proof. intros Hs []. by constructor. Qed.

Lemma with_sig_wf s r : length s = 64 -> record_wf r -> record_wf (with_sig s r).
Proof. intros Hs []. by constructor. Qed.

(** Two certificates with one signing body differ in the signature only. *)
Lemma cert_body_inj c c' : cert_wf c -> cert_wf c' -> cert_body c = cert_body c' -> c' = with_ca_sig (ca_sig c') c.
Proof.
  intros Hc Hc' E. symmetry. apply (prints_inj rd_cert cert_wf cert_bytes); [apply reads_cert| |done|].
  - apply with_ca_sig_wf; [apply Hc'|done].
  - unfold cert_bytes. by rewrite <- E.
Qed.

Lemma record_body_inj r r' : record_wf r -> record_wf r' -> record_body r = record_body r' -> r' = with_sig (sig r') r.
Proof.
  intros Hr Hr' E. symmetry. apply (prints_inj rd_record record_wf record_bytes); [apply reads_entry| |done|].
  - apply with_sig_wf; [apply Hr'|done].
  - unfold record_bytes. by rewrite <- E.
Qed.
