(* ===== verification/MemberVerify.v ===== *)
(** * Membership verification

    Models the checks of yip-membership: [verify_cert] and
    [RootSet::verify_rootset] (src/cert.rs), [sign] and [Record::verify]
    (src/record.rs), the key-derived identifiers (src/ids.rs), and the minting
    of records ([build_signed_record] of bin/yipd/src/membership.rs).

    BLAKE2s and Ed25519 are third-party code: [Blake2s] and [Ed25519] are their
    operations, [Blake2sLaws] and [Ed25519Laws] what their documentation says
    of them.  Unforgeability is never assumed as a law: where a theorem speaks
    of who signed what, it is about the messages that verify. *)

From Stdlib Require Strings.Byte.
From Stdlib Require Import NArith Lia.
From stdpp Require Import base numbers gmap list.
From S2P Require Import Prelude Reader NetAddr MemberCodec.

Local Open Scope nat_scope.

(** [Blake2sVar::new(n)], [update] with [m], [finalize_variable]. *)
Class Blake2s := blake2s : nat -> list u8 -> list u8.
Class Blake2sLaws `{Blake2s} : Prop := { blake2s_length n m : length (blake2s n m) = n }.

Class Ed25519 := {
  VerifyingKey : Type;
  vk_from_bytes : list u8 -> option VerifyingKey;
  verify_strict : VerifyingKey -> list u8 -> list u8 -> bool;
  ed_sign : list u8 -> list u8 -> list u8;
  ed_public : list u8 -> list u8;
}.

(** A signature is 64 bytes, and verifies under the signer's public key. *)
Class Ed25519Laws `{Ed25519} : Prop := {
  ed_sign_length sk m : length (ed_sign sk m) = 64;
  ed_sign_verifies sk m :
    exists vk, vk_from_bytes (ed_public sk) = Some vk /\ verify_strict vk m (ed_sign sk m) = true;
}.

(** ** Identifiers *)

(** The ASCII bytes of "yip-rdv-v1" and "yip-addr-v1". *)
Definition rdv_domain : list u8 := map n2b [121; 105; 112; 45; 114; 100; 118; 45; 118; 49]%N.
Definition addr_domain : list u8 := map n2b [121; 105; 112; 45; 97; 100; 100; 114; 45; 118; 49]%N.

Section Verify.
Context `{HB : Blake2s} `{HE : Ed25519}.

Definition node_id_of (pubkey : list u8) : list u8 := blake2s 16 (rdv_domain ++ pubkey).

Definition node_addr (pubkey : list u8) : list u8 := n2b 253 :: blake2s 15 (addr_domain ++ pubkey).

(** ** Certificates and root sets *)

Inductive CertError := BadSig | Expired | NotYetValid | WrongNetwork | WrongMember.

(** One key's verdict: an undecodable key verifies nothing. *)
Definition key_verifies (body sig pk : list u8) : bool :=
  match vk_from_bytes pk with Some vk => verify_strict vk body sig | None => false end.

Definition verify_any (body sig_bytes : list u8) (ca_pubkeys : list (list u8)) : bool :=
  existsb (key_verifies body sig_bytes) ca_pubkeys.

Definition verify_cert (c : Cert) (ca_pubkeys : list (list u8)) (net member : list u8) (now skew : N) :
    run (result unit CertError) :=
  let! body := cert_signing_body c in
  Ret (if negb (verify_any body (ca_sig c) ca_pubkeys) then Err BadSig
       else if negb (bool_decide (member_pubkey c = member)) then Err WrongMember
       else if negb (bool_decide (network_id c = net)) then Err WrongNetwork
       else if (sat_add64 now skew <? not_before c)%N then Err NotYetValid
       else if (sat_add64 (not_after c) skew <=? now)%N then Err Expired
       else Ok tt).

Definition verify_rootset (r : RootSet) (ca_pubkeys : list (list u8)) : run bool :=
  let! body := rootset_signing_body r in Ret (verify_any body (rs_ca_sig r) ca_pubkeys).

(** ** Records *)

Definition sign (body member_sign_priv : list u8) : list u8 := ed_sign member_sign_priv body.

Definition record_verify (r : Entry) (ca_pubkeys : list (list u8)) (net : list u8) (now skew : N) :
    run (result unit CertError) :=
  let! v := verify_cert (cert r) ca_pubkeys net (member_pubkey (cert r)) now skew in
  match v with
  | Err e => Ret (Err e)
  | Ok _ =>
      match vk_from_bytes (member_sign_pubkey (cert r)) with
      | None => Ret (Err BadSig)
      | Some vk =>
          let! body := record_signing_body r in
          Ret (if negb (verify_strict vk body (sig r)) then Err BadSig
               else if negb (bool_decide (node_id r = node_id_of (member_pubkey (cert r)))) then Err WrongMember
               else Ok tt)
      end
  end.

(** [build_signed_record] *)
Definition build_signed_record (c : Cert) (endpoints : list SocketAddr) (seq : N) (sign_priv : list u8) : run Entry :=
  let r := mkEntry (node_id_of (member_pubkey c)) c endpoints seq (replicate 64 Byte.x00) in
  let! body := record_signing_body r in
  Ret (with_sig (sign body sign_priv) r).

(** ** What verification means *)

Definition is_ok {A E} (r : result A E) : bool := match r with Ok _ => true | Err _ => false end.

(** A certificate valid at [now]: signed by a trusted key, of this network,
    inside its window widened by the clock skew. *)
Record cert_valid (c : Cert) (cas : list (list u8)) (net : list u8) (now skew : N) : Prop := {
  cv_signed : exists pk, pk ∈ cas /\ key_verifies (cert_body c) (ca_sig c) pk = true;
  cv_network : network_id c = net;
  cv_from : (not_before c <= sat_add64 now skew)%N;
  cv_until : (now < sat_add64 (not_after c) skew)%N;
}.

Lemma verify_any_spec body sg cas :
  verify_any body sg cas = true <-> exists pk, pk ∈ cas /\ key_verifies body sg pk = true.
Proof. unfold verify_any. rewrite existsb_exists. by setoid_rewrite list_elem_of_In. Qed.

Lemma verify_cert_spec c cas net member now skew :
  cert_wf c ->
  exists v, verify_cert c cas net member now skew = Ret v /\
            (v = Ok tt <-> cert_valid c cas net now skew /\ member_pubkey c = member).
Proof.
  intros Hw. unfold verify_cert. rewrite cert_signing_body_ok by done. cbn [rbind]. eexists. split; [done|].
  destruct (verify_any _ _ _) eqn:Ev; cbn [negb]; [apply verify_any_spec in Ev|].
  2: { split; [done|]. intros [[H _ _ _] _]. apply verify_any_spec in H. congruence. }
  case_bool_decide as Hm; cbn [negb]; [|split; [done|]; by intros [_ ?]].
  case_bool_decide as Hn; cbn [negb]; [|split; [done|]; by intros [[] _]].
  destruct (N.ltb_spec (sat_add64 now skew) (not_before c)); [split; [done|]; intros [[] _]; lia|].
  destruct (N.leb_spec (sat_add64 (not_after c) skew) now); [split; [done|]; intros [[] _]; lia|].
  split; [|done]. intros _. split; [|done]. by constructor.
Qed.

(** A record valid at [now]. *)
Record record_valid (r : Entry) (cas : list (list u8)) (net : list u8) (now skew : N) : Prop := {
  rv_cert : cert_valid (cert r) cas net now skew;
  rv_signed : key_verifies (record_body r) (sig r) (member_sign_pubkey (cert r)) = true;
  rv_id : node_id r = node_id_of (member_pubkey (cert r));
}.

Lemma record_verify_spec r cas net now skew :
  record_wf r ->
  exists v, record_verify r cas net now skew = Ret v /\ (v = Ok tt <-> record_valid r cas net now skew).
Proof.
  intros Hw. unfold record_verify.
  destruct (verify_cert_spec (cert r) cas net (member_pubkey (cert r)) now skew (rw_cert _ Hw)) as (v & -> & Hv).
  cbn [rbind]. destruct v as [[]|e].
  2: { eexists. split; [done|]. split; [done|]. intros [Hc _ _]. destruct Hv as [_ Hv]. by specialize (Hv (conj Hc eq_refl)). }
  destruct Hv as [Hv _]. destruct (Hv eq_refl) as [Hc _].
  destruct (vk_from_bytes _) as [vk|] eqn:Evk.
  2: { eexists. split; [done|]. split; [done|]. intros [_ Hs _]. unfold key_verifies in Hs. by rewrite Evk in Hs. }
  rewrite record_signing_body_ok by done. cbn [rbind]. eexists. split; [done|].
  destruct (verify_strict vk _ _) eqn:Es; cbn [negb].
  2: { split; [done|]. intros [_ Hs _]. unfold key_verifies in Hs. rewrite Evk in Hs. congruence. }
  case_bool_decide as Hi; cbn [negb]; [|split; [done|]; by intros []].
  split; [|done]. intros _. constructor; [done| |done]. unfold key_verifies. by rewrite Evk.
Qed.

Lemma cert_valid_mono c cas cas' net now skew :
  (forall pk, pk ∈ cas -> pk ∈ cas') -> cert_valid c cas net now skew -> cert_valid c cas' net now skew.
Proof. intros Hs [(pk & Hp & Hv) ? ? ?]. constructor; [|done..]. exists pk. auto. Qed.

(** The records a member builds. *)
Lemma build_signed_record_ok `{!Blake2sLaws} `{!Ed25519Laws} c eps sq sk :
  cert_wf c -> fits16 (length (cert_bytes c)) -> fits16 (length eps) -> Forall addr_wf eps -> (sq < u64_mod)%N ->
  exists r, build_signed_record c eps sq sk = Ret r /\ record_wf r /\
            cert r = c /\ endpoints r = eps /\ seq r = sq /\ node_id r = node_id_of (member_pubkey c) /\
            sig r = ed_sign sk (record_body r).
Proof.
  intros Hc Hl He Ha Hs. unfold build_signed_record.
  set (r0 := mkEntry _ _ _ _ _). assert (record_wf r0) as Hw.
  { by constructor; [apply blake2s_length|..]. }
  rewrite record_signing_body_ok by done. cbn [rbind]. eexists. split; [done|].
  split; [apply with_sig_wf; [apply ed_sign_length|done]|]. done.
Qed.

Lemma build_signed_record_valid `{!Blake2sLaws} `{!Ed25519Laws} c eps sq sk cas net now skew :
  cert_wf c -> fits16 (length (cert_bytes c)) -> fits16 (length eps) -> Forall addr_wf eps -> (sq < u64_mod)%N ->
  member_sign_pubkey c = ed_public sk -> cert_valid c cas net now skew ->
  exists r, build_signed_record c eps sq sk = Ret r /\ record_wf r /\
            cert r = c /\ endpoints r = eps /\ seq r = sq /\ record_valid r cas net now skew.
Proof.
  intros Hc Hl He Ha Hs Hk Hv. destruct (build_signed_record_ok c eps sq sk) as (r & E & Hw & Ec & Ee & Es & En & Eg);
    try done.
  exists r. split_and!; try done. constructor; [by rewrite Ec| |by rewrite En, Ec].
  rewrite Ec, Hk, Eg. unfold key_verifies. destruct (ed_sign_verifies sk (record_body r)) as (vk & -> & ->). done.
Qed.


End Verify.

(** ** Concrete instances *)

(** A stand-in hash: the last bytes of the message. *)
#[local] Instance toy_blake : Blake2s := fun n m => take n (rev m ++ replicate n Byte.x00).

Lemma toy_blake_laws : Blake2sLaws.
Proof.
  constructor. intros n m. unfold blake2s, toy_blake. rewrite length_take, length_app, length_replicate. lia.
Qed.

(** A stand-in signature: the key and the end of the message, 64 bytes. *)
Definition toy_sign (sk m : list u8) : list u8 := take 64 (sk ++ rev m ++ replicate 64 Byte.x00).

#[local] Instance toy_ed : Ed25519 := {|
  VerifyingKey := list u8;
  vk_from_bytes := Some;
  verify_strict vk m s := bool_decide (s = toy_sign vk m);
  ed_sign := toy_sign;
  ed_public sk := sk;
|}.

Lemma toy_ed_laws : Ed25519Laws.
Proof.
  constructor.
  - intros sk m. cbn. unfold toy_sign. rewrite length_take, !length_app, length_replicate. lia.
  - intros sk m. exists sk. cbn. by rewrite bool_decide_true.
Qed.

(** Signatures by a ledger: only the messages it lists verify. *)
Definition ledger_ed (ledger : list (list u8 * list u8)) : Ed25519 := {|
  VerifyingKey := list u8;
  vk_from_bytes := Some;
  verify_strict vk m s := bool_decide ((vk, m) ∈ ledger) && bool_decide (s = toy_sign vk m);
  ed_sign := toy_sign;
  ed_public sk := sk;
|}.

Definition demo_ca : list u8 := replicate 32 (n2b 200).
Definition demo_member (i : N) : list u8 := replicate 32 (n2b i).
Definition demo_network : list u8 := replicate 16 (n2b 7).

(** The certificate of member [i], valid from 100 to 1000. *)
Definition demo_cert (i : N) : Cert :=
  let c := mkCert (n2b 1) (demo_member i) (demo_member (i + 100)) demo_network 100 1000 []
             (replicate 64 Byte.x00) in
  with_ca_sig (toy_sign demo_ca (cert_body c)) c.

Definition demo_record (i : N) (eps : list SocketAddr) (sq : N) : Entry :=
  let r := mkEntry (node_id_of (demo_member i)) (demo_cert i) eps sq (replicate 64 Byte.x00) in
  with_sig (toy_sign (demo_member (i + 100)) (record_body r)) r.

Lemma demo_cert_wf i : cert_wf (demo_cert i).
Proof. by constructor. Qed.

Lemma length_demo_cert i : length (cert_bytes (demo_cert i)) = 163.
Proof.
  unfold cert_bytes. rewrite length_app, (cw_sig _ (demo_cert_wf i)). unfold cert_body. rewrite length_cons, !length_app.
  unfold demo_cert. cbn. done.
Qed.

Lemma demo_record_wf i eps sq :
  fits16 (length eps) -> Forall addr_wf eps -> (sq < u64_mod)%N -> record_wf (demo_record i eps sq).
Proof.
  intros Hl Ha Hs. constructor; [apply (blake2s_length (Blake2sLaws := toy_blake_laws))|apply demo_cert_wf| |done..|].
  - change (cert (demo_record i eps sq)) with (demo_cert i). by rewrite length_demo_cert.
  - apply (ed_sign_length (Ed25519Laws := toy_ed_laws)).
Qed.

Definition demo_ledger : list (list u8 * list u8) :=
  [(demo_ca, cert_body (demo_cert 1)); (demo_member 101, record_body (demo_record 1 [] 5))].

