(* ===== verification/Directory.v ===== *)
(** * The membership directory

    Models bin/yipd/src/membership.rs: the directory of verified records a node
    learns by gossip, its index by mesh address, the eviction of expired
    entries and the anti-entropy exchange (digest, pull request, records).

    The clock skew is read once from the environment and constant for the
    process ([skew]); the order a [HashMap] is iterated in is a permutation the
    code does not choose ([HashIter]); the jittered interval of [tick_digest]
    is an argument. *)

From Stdlib Require Strings.Byte.
From Stdlib Require Import NArith Lia.
From stdpp Require Import base numbers gmap list.
From S2P Require Import Prelude Reader NetAddr MemberCodec MemberVerify.

Local Open Scope nat_scope.

(** The order in which the entries of a [HashMap] are visited. *)
Class HashIter := hash_iter : forall A : Type, list A -> list A.
Arguments hash_iter {_ A} l.
Class HashIterLaws `{HashIter} : Prop := { hash_iter_perm {A} (l : list A) : hash_iter l ≡ₚ l }.

Definition GOSSIP_INTERVAL_MS : N := 5000.
Definition MAX_GOSSIP_RECORDS_PER_REPLY : nat := 32.
Definition MAX_GOSSIP_DIGEST_ENTRIES : nat := 40.
Definition INITIAL_SEQ : N := 0.

Record MemberInfo := mkMemberInfo { pubkey : list u8; mi_endpoints : list SocketAddr }.

Record Membership := mkMembership {
  directory : gmap (list u8) Entry;
  by_addr : gmap (list u8) (list u8);
  ca_pubkeys : list (list u8);
  m_network_id : list u8;
  m_roots : RootSet;
  own_node_id : list u8;
  own_cert : Cert;
  own_endpoints : list SocketAddr;
  sign_priv : list u8;
  last_digest_ms : option N;
  digest_ms : N;
}.

Definition set_maps (m : Membership) (dir : gmap (list u8) Entry) (idx : gmap (list u8) (list u8)) : Membership :=
  mkMembership dir idx (ca_pubkeys m) (m_network_id m) (m_roots m) (own_node_id m) (own_cert m) (own_endpoints m)
    (sign_priv m) (last_digest_ms m) (digest_ms m).
Definition set_own_cert (m : Membership) (c : Cert) : Membership :=
  mkMembership (directory m) (by_addr m) (ca_pubkeys m) (m_network_id m) (m_roots m) (own_node_id m) c
    (own_endpoints m) (sign_priv m) (last_digest_ms m) (digest_ms m).
Definition set_digest (m : Membership) (last : option N) (ms : N) : Membership :=
  mkMembership (directory m) (by_addr m) (ca_pubkeys m) (m_network_id m) (m_roots m) (own_node_id m) (own_cert m)
    (own_endpoints m) (sign_priv m) last ms.

Module Dir.
Section Dir.
Context `{HB : Blake2s} `{HE : Ed25519} `{HI : HashIter} (skew : N).
Implicit Types (m : Membership) (r : Entry).

(** ** Operations *)

Definition insert_record m r : Membership :=
  let addr := node_addr (member_pubkey (cert r)) in
  set_maps m (<[node_id r := r]> (directory m)) (<[addr := node_id r]> (by_addr m)).

Definition insert_if_newer m r : Membership * bool :=
  match directory m !! node_id r with
  | Some existing => if (seq r <=? seq existing)%N then (m, false) else (insert_record m r, true)
  | None => (insert_record m r, true)
  end.

Definition evict m (nid : list u8) : Membership * bool :=
  match directory m !! nid with
  | Some r => (set_maps m (delete nid (directory m)) (delete (node_addr (member_pubkey (cert r))) (by_addr m)), true)
  | None => (m, false)
  end.

(** The two filters of [sweep_expired]. *)
Definition entry_expired m (now : N) (x : list u8 * Entry) : run bool :=
  if bool_decide (x.1 = own_node_id m) then Ret false
  else
    let! v := verify_cert (cert x.2) (ca_pubkeys m) (m_network_id m) (member_pubkey (cert x.2)) now skew in
    Ret (negb (is_ok v)).

Definition sweep_expired m (now : N) : run (Membership * bool) :=
  let! expired := rfilter (entry_expired m now) (hash_iter (map_to_list (directory m))) in
  Ret (fold_left (fun s x => let r := evict s.1 x.1 in (r.1, s.2 || r.2)) expired (m, false)).

(** The trust anchors of [verify_record]. *)
Definition trust m : list (list u8) :=
  fold_left (fun cas x => if bool_decide (x.1 ∈ cas) then cas else cas ++ [x.1]) (roots (m_roots m)) (ca_pubkeys m).

Definition verify_record m r (now : N) : run bool :=
  let! v := record_verify r (trust m) (m_network_id m) now skew in Ret (is_ok v).

Definition member_verify_cert m (c : Cert) (static_key : list u8) (now : N) : run bool :=
  let! v := verify_cert c (ca_pubkeys m) (m_network_id m) static_key now skew in Ret (is_ok v).

Definition ingest_record m r (now : N) : run (Membership * bool) :=
  let! ' (m, changed) := sweep_expired m now in
  let! ok := verify_record m r now in
  if ok then let x := insert_if_newer m r in Ret (x.1, changed || x.2) else Ret (m, changed).

Definition new (cas : list (list u8)) (net : list u8) (c : Cert) (own_sign_priv : list u8) (rts : RootSet)
    (eps : list SocketAddr) : run Membership :=
  let! own_record := build_signed_record c eps INITIAL_SEQ own_sign_priv in
  Ret (insert_record (mkMembership ∅ ∅ cas net rts (node_id_of (member_pubkey c)) c eps own_sign_priv None
                        GOSSIP_INTERVAL_MS) own_record).

Definition update_own_cert m (new_cert : Cert) : run (Membership * Entry) :=
  let m := set_own_cert m new_cert in
  let next_seq := match directory m !! own_node_id m with
                  | Some r => sat_add64 (seq r) 1
                  | None => INITIAL_SEQ
                  end in
  let! rec := build_signed_record new_cert (own_endpoints m) next_seq (sign_priv m) in
  Ret (insert_record m rec, rec).

Definition sign_registration m (sq : N) : run Entry :=
  build_signed_record (own_cert m) (own_endpoints m) sq (sign_priv m).

Definition resolve m (addr : list u8) : option MemberInfo :=
  match by_addr m !! addr with
  | None => None
  | Some nid =>
      match directory m !! nid with
      | None => None
      | Some r => Some (mkMemberInfo (member_pubkey (cert r)) (endpoints r))
      end
  end.

Definition own_cert_bytes m : run (list u8) := cert_encode (own_cert m).

Definition member_or_admitted_cert_valid m (pk : list u8) (admitted_not_after : option N) (now : N) : run bool :=
  if existsb (fun x => bool_decide (x.1 = pk)) (roots (m_roots m)) then Ret true
  else
    match directory m !! node_id_of pk with
    | Some r => member_verify_cert m (cert r) pk now
    | None =>
        match admitted_not_after with
        | Some not_after => Ret (now <=? sat_add64 not_after skew)%N
        | None => Ret false
        end
    end.

Definition member_cert_valid m (pk : list u8) (now : N) : run bool := member_or_admitted_cert_valid m pk None now.

(** ** Anti-entropy *)

(** The ids of a digest we lack or hold at a lower sequence number. *)
Definition wanted m (entries : list (list u8 * N)) : list (list u8) :=
  omap (fun e : list u8 * N =>
    let have_enough := match directory m !! e.1 with Some existing => (e.2 <=? seq existing)%N | None => false end in
    if have_enough then None else Some e.1) entries.

Definition ingest_all m (recs : list Entry) (now : N) : run Membership :=
  rfold (fun m r => let! x := ingest_record m r now in Ret x.1) recs m.

Definition on_gossip m (msg : GossipMsg) (now : N) : run (Membership * list GossipMsg) :=
  match msg with
  | Digest entries =>
      let want := wanted m entries in
      Ret (m, match want with [] => [] | _ => [PullRequest want] end)
  | PullRequest ids =>
      let recs := omap (fun nid => directory m !! nid) ids in
      Ret (m, map Records (chunks MAX_GOSSIP_RECORDS_PER_REPLY recs))
  | Records recs => let! m := ingest_all m recs now in Ret (m, [])
  end.

(** [jitter] is what [jitter_ms(GOSSIP_INTERVAL_MS)] returns. *)
Definition tick_digest m (now_ms : N) (obf_on : bool) (jitter : N) : Membership * list GossipMsg :=
  if match last_digest_ms m with Some last => (now_ms - last <? digest_ms m)%N | None => false end then (m, [])
  else
    let m := set_digest m (Some now_ms) (if obf_on then jitter else GOSSIP_INTERVAL_MS) in
    let entries := map (fun x : list u8 * Entry => (x.1, seq x.2)) (hash_iter (map_to_list (directory m))) in
    (m, map Digest (chunks MAX_GOSSIP_DIGEST_ENTRIES entries)).

(** ** The inputs of a running directory *)

Inductive event :=
| Ingest (r : Entry) (now : N)
| Gossip (msg : GossipMsg) (now : N)
| DigestTick (now_ms : N) (obf_on : bool) (jitter : N)
| Renew (c : Cert).

Definition step m (e : event) : run Membership :=
  match e with
  | Ingest r now => let! x := ingest_record m r now in Ret x.1
  | Gossip msg now => let! x := on_gossip m msg now in Ret x.1
  | DigestTick now_ms obf_on jitter => Ret (tick_digest m now_ms obf_on jitter).1
  | Renew c => let! x := update_own_cert m c in Ret x.1
  end.

Definition steps m (es : list event) : run Membership := rfold step es m.

End Dir.
End Dir.

Module DirWf.
Import Dir.
Section Wf.
Context `{HB : Blake2s} `{HBL : !Blake2sLaws} `{HE : Ed25519} `{HEL : !Ed25519Laws}.
Context `{HI : HashIter} `{HIL : !HashIterLaws} (skew : N).

Implicit Types (m : Membership) (r : Entry).

Lemma trust_incl m pk : pk ∈ ca_pubkeys m -> pk ∈ trust m.
Proof.
  unfold trust. generalize (ca_pubkeys m). induction (roots (m_roots m)) as [|x l IH]; intros cas Hpk; cbn [fold_left]; [done|].
  apply IH. case_bool_decide; [done|]. apply elem_of_app. by left.
Qed.

Lemma trust_elem m pk : pk ∈ trust m <-> pk ∈ ca_pubkeys m \/ pk ∈ (roots (m_roots m)).*1.
Proof.
  unfold trust. generalize (ca_pubkeys m). induction (roots (m_roots m)) as [|x l IH]; intros cas; cbn [fold_left fmap list_fmap].
  { set_solver. }
  rewrite IH. case_bool_decide; set_solver.
Qed.

Lemma wanted_spec m es nid :
  nid ∈ wanted m es <->
  exists s, (nid, s) ∈ es /\ forall r, directory m !! nid = Some r -> (seq r < s)%N.
Proof.
  unfold wanted. rewrite list_elem_of_omap. split.
  - intros ([n s] & Hin & E). cbn [fst snd] in E. exists s.
    destruct (directory m !! n) as [r|] eqn:Er.
    + destruct (N.leb_spec s (seq r)); [done|]. injection E as ->. split; [done|]. intros r' Hr'.
      assert (r' = r) as -> by congruence. done.
    + injection E as ->. split; [done|]. intros r Hr. congruence.
  - intros (s & Hin & Hs). exists (nid, s). split; [done|]. cbn [fst snd].
    destruct (directory m !! nid) as [r|] eqn:Er; [|done].
    specialize (Hs r eq_refl). destruct (N.leb_spec s (seq r)); [lia|done].
Qed.

Lemma wanted_length m es : length (wanted m es) <= length es.
Proof.
  induction es as [|e es IH]; [done|]. unfold wanted in *. cbn [omap list_omap length].
  set (b := match directory m !! e.1 with Some x => _ | None => _ end). destruct b; cbn [length]; lia.
Qed.

(** The member keys in play: the identifiers derived from them do not collide. *)
Context (K : list u8 -> Prop).
Hypothesis K_id : forall p q, K p -> K q -> node_id_of p = node_id_of q -> p = q.
Hypothesis K_addr : forall p q, K p -> K q -> node_addr p = node_addr q -> p = q.

(** A certificate and endpoints whose records can be encoded and embedded. *)
Definition announceable (c : Cert) (eps : list SocketAddr) : Prop :=
  cert_wf c /\ Forall addr_wf eps /\ fits16 (length eps) /\
  fits16 (92 + length (cert_bytes c) + length (concat (map put_addr eps))).

Definition entry_ok r : Prop :=
  record_wf r /\ fits16 (length (record_bytes r)) /\ node_id r = node_id_of (member_pubkey (cert r)) /\
  K (member_pubkey (cert r)).

Record mem_wf m : Prop := {
  mw_entry nid r : directory m !! nid = Some r -> entry_ok r /\ node_id r = nid;
  mw_index nid r : directory m !! nid = Some r -> by_addr m !! node_addr (member_pubkey (cert r)) = Some nid;
  mw_back a nid : by_addr m !! a = Some nid ->
    exists r, directory m !! nid = Some r /\ node_addr (member_pubkey (cert r)) = a;
  mw_verified nid r : directory m !! nid = Some r -> nid <> own_node_id m ->
    exists t, record_valid r (trust m) (m_network_id m) t skew;
  mw_own : is_Some (directory m !! own_node_id m);
  mw_own_id : own_node_id m = node_id_of (member_pubkey (own_cert m));
  mw_own_key : K (member_pubkey (own_cert m));
  mw_announce : announceable (own_cert m) (own_endpoints m);
}.

(** What no operation changes. *)
Definition same_config m m' : Prop :=
  ca_pubkeys m' = ca_pubkeys m /\ m_network_id m' = m_network_id m /\ m_roots m' = m_roots m /\
  own_node_id m' = own_node_id m /\ own_endpoints m' = own_endpoints m /\ sign_priv m' = sign_priv m /\
  member_pubkey (own_cert m') = member_pubkey (own_cert m).

Lemma same_config_refl m : same_config m m.
Proof. by unfold same_config. Qed.

Lemma same_config_trans m m' m'' : same_config m m' -> same_config m' m'' -> same_config m m''.
Proof. unfold same_config. intros. intuition congruence. Qed.

Lemma same_config_trust m m' : same_config m m' -> trust m' = trust m.
Proof. intros (E1 & _ & E2 & _). unfold trust. by rewrite E1, E2. Qed.

Lemma same_key r r' : entry_ok r -> entry_ok r' -> node_id r = node_id r' ->
  member_pubkey (cert r) = member_pubkey (cert r').
Proof. intros (_ & _ & E & Hk) (_ & _ & E' & Hk'). rewrite E, E'. auto. Qed.

(** ** Inserting and evicting *)

Lemma insert_record_ok m r :
  mem_wf m -> entry_ok r ->
  (node_id r <> own_node_id m -> exists t, record_valid r (trust m) (m_network_id m) t skew) ->
  mem_wf (insert_record m r).
Proof.
  intros [He Hi Hb Hv Ho Hoi Hok Ha] Hr Hrv.
  assert (forall r0, directory m !! node_id r = Some r0 -> member_pubkey (cert r0) = member_pubkey (cert r)) as Hsame.
  { intros r0 H0. destruct (He _ _ H0) as [H1 H2]. by apply same_key. }
  constructor; cbn; try done.
  - intros nid r'. rewrite lookup_insert_Some. intros [[<- <-]|[_ H]]; [done|]. by apply He.
  - intros nid r'. rewrite lookup_insert_Some. intros [[<- <-]|[Hne H]]; [by rewrite lookup_insert_eq|].
    rewrite lookup_insert_ne; [by apply Hi|]. intros E. destruct (He _ _ H) as [(_ & _ & Eid & HK) En].
    apply K_addr in E; [|apply Hr|done]. destruct Hr as (_ & _ & Er & _). congruence.
  - intros a nid. rewrite lookup_insert_Some. intros [[<- <-]|[Hne H]].
    { exists r. by rewrite lookup_insert_eq. }
    destruct (Hb _ _ H) as (r' & Hr' & Ea). destruct (decide (nid = node_id r)) as [->|Hn].
    + exfalso. apply Hne. by rewrite <- Ea, (Hsame _ Hr').
    + exists r'. by rewrite lookup_insert_ne.
  - intros nid r'. rewrite lookup_insert_Some. intros [[<- <-]|[_ H]] Hne; [by apply Hrv|by eapply Hv].
  - rewrite lookup_insert_is_Some. destruct (decide (node_id r = own_node_id m)); auto.
Qed.

Lemma evict_member_ok m nid :
  mem_wf m -> nid <> own_node_id m ->
  mem_wf (evict m nid).1 /\ same_config m (evict m nid).1 /\ directory (evict m nid).1 = delete nid (directory m).
Proof.
  intros Hm Hne. unfold evict. destruct (directory m !! nid) as [r|] eqn:E; cbn [fst].
  2: { split_and!; [done|apply same_config_refl|]. by rewrite delete_id. }
  split_and!; [|by unfold same_config|done]. destruct Hm as [He Hi Hb Hv Ho Hoi Hok Ha].
  constructor; cbn; try done.
  - intros n r'. rewrite lookup_delete_Some. intros [_ H]. by apply He.
  - intros n r'. rewrite lookup_delete_Some. intros [Hn H]. rewrite lookup_delete_ne; [by apply Hi|].
    intros Ea. destruct (He _ _ E) as [(_ & _ & E1 & K1) N1]. destruct (He _ _ H) as [(_ & _ & E2 & K2) N2].
    apply K_addr in Ea; [|done..]. congruence.
  - intros a n. rewrite lookup_delete_Some. intros [Hn H]. destruct (Hb _ _ H) as (r' & Hr' & Ea).
    exists r'. rewrite lookup_delete_ne; [done|]. intros <-. congruence.
  - intros n r'. rewrite lookup_delete_Some. intros [_ H]. by apply Hv.
  - by rewrite lookup_delete_ne.
Qed.

Lemma evict_all_ok (l : list (list u8 * Entry)) m (b : bool) :
  mem_wf m -> (forall x, x ∈ l -> x.1 <> own_node_id m) ->
  exists m' b', fold_left (fun s x => let r := evict s.1 x.1 in (r.1, s.2 || r.2)) l (m, b) = (m', b') /\
    mem_wf m' /\ same_config m m' /\
    forall nid r, directory m' !! nid = Some r <-> directory m !! nid = Some r /\ nid ∉ l.*1.
Proof.
  revert m b. induction l as [|x l IH]; intros m b Hm Hl; cbn [fold_left].
  - exists m, b. split_and!; [done|done|apply same_config_refl|]. intros nid r. cbn. set_solver.
  - destruct (evict_member_ok m x.1 Hm (Hl x ltac:(left))) as (H1 & H2 & H3).
    destruct (IH (evict m x.1).1 (b || (evict m x.1).2) H1) as (m' & b' & E & Hw & Hc & Hd).
    { intros y Hy. destruct H2 as (_ & _ & _ & -> & _). apply Hl. by right. }
    exists m', b'. cbn in E |- *. rewrite E. split_and!; [done|done|by eapply same_config_trans|].
    intros nid r. rewrite Hd, H3, lookup_delete_Some. cbn. rewrite not_elem_of_cons. naive_solver.
Qed.

(** An entry the sweep keeps. *)
Definition kept m (now : N) nid r : Prop :=
  nid = own_node_id m \/ cert_valid (cert r) (ca_pubkeys m) (m_network_id m) now skew.

Lemma sweep_expired_ok m now :
  mem_wf m ->
  exists m' b, sweep_expired skew m now = Ret (m', b) /\ mem_wf m' /\ same_config m m' /\
    forall nid r, directory m' !! nid = Some r <-> directory m !! nid = Some r /\ kept m now nid r.
Proof.
  intros Hm. unfold sweep_expired.
  destruct (rfilter_ok (entry_expired skew m now)
    (fun x => x.1 <> own_node_id m /\ ~ cert_valid (cert x.2) (ca_pubkeys m) (m_network_id m) now skew)
    (hash_iter (map_to_list (directory m)))) as (ex & -> & Hex).
  { intros [nid r]. rewrite hash_iter_perm, elem_of_map_to_list. intros Hr. unfold entry_expired. cbn [fst snd].
    case_bool_decide as Ho; [exists false; naive_solver|].
    destruct (mw_entry m Hm _ _ Hr) as [[Hw _] _].
    destruct (verify_cert_spec (cert r) (ca_pubkeys m) (m_network_id m) (member_pubkey (cert r)) now skew
      (rw_cert _ Hw)) as (v & -> & Hv). cbn [rbind]. eexists. split; [done|].
    destruct v as [[]|e]; cbn; naive_solver. }
  cbn [rbind]. destruct (evict_all_ok ex m false Hm) as (m' & b & E & Hw & Hc & Hd).
  { intros x Hx. by apply Hex in Hx as [_ [? _]]. }
  exists m', b. cbn in E |- *. rewrite E. split_and!; try done. intros nid r. rewrite Hd.
  assert (forall r', (nid, r') ∈ hash_iter (map_to_list (directory m)) <-> directory m !! nid = Some r') as Hin
    by (intros; by rewrite hash_iter_perm, elem_of_map_to_list).
  split; intros [Hr H]; (split; [done|]).
  - unfold kept. destruct (decide (nid = own_node_id m)) as [|Ho]; [by left|right].
    destruct (mw_entry m Hm _ _ Hr) as [[Hwr _] _].
    destruct (verify_cert_spec (cert r) (ca_pubkeys m) (m_network_id m) (member_pubkey (cert r)) now skew
      (rw_cert _ Hwr)) as (v & _ & Hv). destruct v as [[]|e]; [by apply Hv|].
    exfalso. apply H, list_elem_of_fmap. exists (nid, r). split; [done|]. apply Hex. rewrite Hin. naive_solver.
  - intros ([n' r'] & -> & Hx)%list_elem_of_fmap. cbn in *. apply Hex in Hx as [Hx1 [Hx2 Hx3]]. cbn in *.
    apply Hin in Hx1. destruct H; [done|]. congruence.
Qed.

(** ** Ingesting a record *)

(** A decoded record of a member in play. *)
Definition incoming r : Prop :=
  record_wf r /\ fits16 (length (record_bytes r)) /\ K (member_pubkey (cert r)).

Lemma verify_record_ok m r now :
  record_wf r ->
  exists b, verify_record skew m r now = Ret b /\ (b = true <-> record_valid r (trust m) (m_network_id m) now skew).
Proof.
  intros Hw. unfold verify_record. destruct (record_verify_spec r (trust m) (m_network_id m) now skew Hw) as (v & -> & Hv).
  cbn [rbind]. eexists. split; [done|]. destruct v as [[]|e]; cbn; naive_solver.
Qed.

(** The record is valid and supersedes the entry the sweep leaves. *)
Definition supersedes m r now : Prop :=
  record_valid r (trust m) (m_network_id m) now skew /\
  forall r0, directory m !! node_id r = Some r0 -> kept m now (node_id r) r0 -> (seq r0 < seq r)%N.

Definition ingested m r now nid r' : Prop :=
  (supersedes m r now /\ nid = node_id r /\ r' = r) \/
  (directory m !! nid = Some r' /\ kept m now nid r' /\ ~ (supersedes m r now /\ nid = node_id r)).

Lemma ingest_record_ok m r now :
  mem_wf m -> incoming r ->
  exists m' b, ingest_record skew m r now = Ret (m', b) /\ mem_wf m' /\ same_config m m' /\
    forall nid r', directory m' !! nid = Some r' <-> ingested m r now nid r'.
Proof.
  intros Hm (Hw & Hf & HK). unfold ingest_record.
  destruct (sweep_expired_ok m now Hm) as (m1 & b1 & -> & Hm1 & Hc1 & Hd1). cbn [rbind].
  destruct (verify_record_ok m1 r now Hw) as (ok & -> & Hok). cbn [rbind].
  rewrite (same_config_trust _ _ Hc1) in Hok. destruct (Hc1) as (_ & Hn & _ & Hown & _). rewrite Hn in Hok.
  assert ((exists r0, directory m1 !! node_id r = Some r0 /\ (seq r <= seq r0)%N) -> ~ supersedes m r now) as Hold.
  { intros (r0 & H0 & Hle) [_ Hs]. apply Hd1 in H0 as [H0 Hk]. specialize (Hs r0 H0 Hk). lia. }
  destruct ok.
  2: { exists m1, b1. split_and!; try done. intros nid r'. rewrite Hd1. unfold ingested.
       assert (~ supersedes m r now) by (intros [Hs _]; by apply Hok in Hs). naive_solver. }
  destruct Hok as [Hval _]. specialize (Hval eq_refl).
  assert (entry_ok r) as Hr by (split_and!; try done; apply Hval).
  assert (supersedes m r now -> mem_wf (insert_record m1 r) /\ same_config m (insert_record m1 r) /\
    (forall nid r', directory (insert_record m1 r) !! nid = Some r' <-> ingested m r now nid r')) as Hins.
  { intros Hs. split_and!.
    - apply insert_record_ok; [done..|]. intros _. exists now. rewrite (same_config_trust _ _ Hc1), Hn. done.
    - by apply (same_config_trans _ m1).
    - intros nid r'. cbn. rewrite lookup_insert_Some, Hd1. unfold ingested. naive_solver. }
  unfold insert_if_newer. destruct (directory m1 !! node_id r) as [r0|] eqn:E0.
  - destruct (N.leb_spec (seq r) (seq r0)); cbn [fst snd].
    + exists m1, (b1 || false). split_and!; try done. intros nid r'. rewrite Hd1. unfold ingested.
      pose proof (Hold (ex_intro _ r0 (conj eq_refl H))). naive_solver.
    + do 2 eexists. split; [done|]. apply Hins. split; [done|]. intros r1 H1 Hk.
      assert (directory m1 !! node_id r = Some r1) by (by apply Hd1). congruence.
  - cbn [fst snd]. do 2 eexists. split; [done|]. apply Hins. split; [done|]. intros r1 H1 Hk.
    assert (directory m1 !! node_id r = Some r1) by (by apply Hd1). congruence.
Qed.

Lemma ingest_all_ok recs m now :
  mem_wf m -> Forall incoming recs ->
  exists m', ingest_all skew m recs now = Ret m' /\ mem_wf m' /\ same_config m m'.
Proof.
  intros Hm HF. revert m Hm. induction HF as [|r l Hr _ IH]; intros m Hm.
  - exists m. split_and!; [done..|]. apply same_config_refl.
  - destruct (ingest_record_ok m r now Hm Hr) as (m1 & b & E & Hm1 & Hc1 & _).
    destruct (IH m1 Hm1) as (m2 & E2 & Hm2 & Hc2). exists m2. unfold ingest_all in *. cbn [rfold].
    rewrite E. cbn [rbind fst]. rewrite E2. split_and!; [done..|]. by eapply same_config_trans.
Qed.

(** ** Gossip *)

Definition message_ok (msg : GossipMsg) : Prop :=
  gossip_wf msg /\ match msg with Records recs => Forall (fun r => K (member_pubkey (cert r))) recs | _ => True end.

Lemma message_incoming recs : message_ok (Records recs) -> Forall incoming recs.
Proof.
  intros [[_ H1] H2]. rewrite Forall_forall in *. intros r Hr. destruct (H1 r Hr). split_and!; auto.
Qed.

Lemma on_gossip_ok m msg now :
  mem_wf m -> message_ok msg ->
  exists m' replies, on_gossip skew m msg now = Ret (m', replies) /\ mem_wf m' /\ same_config m m' /\
    Forall message_ok replies.
Proof.
  intros Hm Hmsg. destruct msg as [es|ids|recs]; cbn [on_gossip].
  - exists m. eexists. split_and!; [done..|apply same_config_refl|].
    destruct (wanted m es) as [|w ws] eqn:Ew; constructor; [|done]. split; [|done].
    destruct Hmsg as [[Hl HF] _]. split.
    + pose proof (wanted_length m es). rewrite Ew in *. unfold fits16 in *. lia.
    + apply Forall_forall. intros nid Hn. rewrite <- Ew in Hn. apply wanted_spec in Hn as (s & Hin & _).
      by apply (proj1 (Forall_forall _ _) HF (nid, s)).
  - exists m. eexists. split_and!; [done..|apply same_config_refl|].
    rewrite Forall_map, Forall_forall. intros c Hc.
    assert (forall r, r ∈ c -> entry_ok r) as Hr.
    { intros r Hr. apply (chunks_elem _ _ _ r) in Hc; [|unfold MAX_GOSSIP_RECORDS_PER_REPLY; lia|done].
      apply list_elem_of_omap in Hc as (nid & _ & Hd). by apply (mw_entry m Hm nid). }
    apply chunks_length in Hc. unfold MAX_GOSSIP_RECORDS_PER_REPLY in Hc. split; [split|].
    + unfold fits16. change u16_mod with 65536%N. lia.
    + rewrite Forall_forall. intros r H. by destruct (Hr r H) as (? & ? & _).
    + rewrite Forall_forall. intros r H. by destruct (Hr r H) as (_ & _ & _ & ?).
  - destruct (ingest_all_ok recs m now Hm (message_incoming _ Hmsg)) as (m' & -> & Hw & Hc). cbn [rbind].
    exists m', []. by split_and!.
Qed.

Lemma tick_digest_ok m now_ms obf jitter :
  mem_wf m ->
  mem_wf (tick_digest m now_ms obf jitter).1 /\ same_config m (tick_digest m now_ms obf jitter).1 /\
  directory (tick_digest m now_ms obf jitter).1 = directory m /\
  Forall message_ok (tick_digest m now_ms obf jitter).2.
Proof.
  intros Hm. unfold tick_digest. set (b := match last_digest_ms m with Some _ => _ | None => _ end).
  destruct b; cbn [fst snd]; [split_and!; [done|apply same_config_refl|done|constructor]|].
  split_and!; [by destruct Hm|by unfold same_config|done|]. rewrite Forall_map, Forall_forall. intros c Hc.
  split; [|done]. cbn [gossip_wf]. split.
  - apply chunks_length in Hc. unfold MAX_GOSSIP_DIGEST_ENTRIES in Hc. unfold fits16. change u16_mod with 65536%N. lia.
  - rewrite Forall_forall. intros e He. apply (chunks_elem _ _ _ e) in Hc; [|unfold MAX_GOSSIP_DIGEST_ENTRIES; lia|done].
    apply list_elem_of_fmap in Hc as ([nid r] & -> & Hin). rewrite hash_iter_perm, elem_of_map_to_list in Hin.
    destruct (mw_entry m Hm _ _ Hin) as [(Hw & _) <-]. split; apply Hw.
Qed.

(** ** The node's own record *)

Lemma length_record_bytes r :
  record_wf r ->
  length (record_bytes r) = 92 + length (cert_bytes (cert r)) + length (concat (map put_addr (endpoints r))).
Proof.
  intros Hw. unfold record_bytes, record_body, prefixed, counted, be16.
  rewrite !length_app, !length_to_be_bytes, (rw_id _ Hw), (rw_sig _ Hw). lia.
Qed.

Lemma own_record_ok c eps sq sk :
  announceable c eps -> K (member_pubkey c) -> (sq < u64_mod)%N ->
  exists r, build_signed_record c eps sq sk = Ret r /\ entry_ok r /\ node_id r = node_id_of (member_pubkey c) /\
            cert r = c /\ endpoints r = eps /\ seq r = sq.
Proof.
  intros (Hc & Ha & He & Hl) HK Hs.
  destruct (build_signed_record_ok c eps sq sk) as (r & E & Hw & Ec & Ee & Es & En & _); try done.
  { unfold fits16 in *. lia. }
  exists r. split; [done|]. split; [|done]. unfold entry_ok. rewrite Ec. split_and!; try done.
  rewrite length_record_bytes, Ec, Ee by done. done.
Qed.

Lemma dir_new_ok cas net c sk rts eps :
  announceable c eps -> K (member_pubkey c) ->
  exists m, new cas net c sk rts eps = Ret m /\ mem_wf m /\ own_node_id m = node_id_of (member_pubkey c) /\
            own_cert m = c /\ ca_pubkeys m = cas /\ m_network_id m = net /\ m_roots m = rts.
Proof.
  intros Ha HK. unfold new. destruct (own_record_ok c eps INITIAL_SEQ sk Ha HK) as (r & -> & Hr & En & Ec & _); [done|].
  cbn [rbind]. eexists. split_and!; try done. constructor; cbn; try done.
  - intros nid r'. rewrite lookup_insert_Some, lookup_empty. intros [[<- <-]|[_ ?]]; done.
  - intros nid r'. rewrite lookup_insert_Some, lookup_empty. intros [[<- <-]|[_ ?]]; [|done]. by rewrite lookup_insert_eq.
  - intros a nid. rewrite lookup_insert_Some, lookup_empty. intros [[<- <-]|[_ ?]]; [|done]. exists r. by rewrite lookup_insert_eq.
  - intros nid r'. rewrite lookup_insert_Some, lookup_empty, En. intros [[<- <-]|[_ ?]]; done.
  - rewrite En, lookup_insert_eq. eauto.
Qed.

(** A renewed certificate of the same member. *)
Definition renews m (c : Cert) : Prop :=
  announceable c (own_endpoints m) /\ member_pubkey c = member_pubkey (own_cert m).

Lemma update_own_cert_ok m c :
  mem_wf m -> renews m c ->
  exists m' r, update_own_cert m c = Ret (m', r) /\ mem_wf m' /\ same_config m m' /\ own_cert m' = c /\
               directory m' = <[own_node_id m := r]> (directory m) /\ cert r = c /\
               (forall r0, directory m !! own_node_id m = Some r0 -> seq r = sat_add64 (seq r0) 1).
Proof.
  intros Hm [Ha Ek]. unfold update_own_cert. cbn [directory own_node_id own_endpoints sign_priv set_own_cert].
  set (nxt := match directory m !! own_node_id m with Some r => _ | None => _ end).
  assert (nxt < u64_mod)%N as Hn.
  { unfold nxt. destruct (_ !! _); [unfold sat_add64, sat_add, u64_mod; lia|done]. }
  destruct (own_record_ok c (own_endpoints m) nxt (sign_priv m) Ha) as (r & -> & Hr & En & Ec & _ & Es);
    [rewrite Ek; apply Hm|done|]. cbn [rbind].
  assert (node_id r = own_node_id m) as Eo by (rewrite En, Ek; symmetry; apply Hm).
  do 2 eexists. split; [done|]. split_and!; try done.
  - apply insert_record_ok; [|done|by rewrite Eo]. destruct Hm. constructor; cbn; try done; by rewrite Ek.
  - cbn. by rewrite Eo.
  - intros r0 H0. rewrite Es. unfold nxt. by rewrite H0.
Qed.

(** ** Runs *)

Definition event_ok m (e : event) : Prop :=
  match e with
  | Ingest r _ => incoming r
  | Gossip msg _ => message_ok msg
  | DigestTick _ _ _ => True
  | Renew c => renews m c
  end.

Lemma event_ok_config m m' e : same_config m m' -> event_ok m e -> event_ok m' e.
Proof. destruct e; try done. intros (_ & _ & _ & _ & E & _ & E'). cbn. unfold renews. by rewrite E, E'. Qed.

Lemma dir_step_ok m e :
  mem_wf m -> event_ok m e -> exists m', step skew m e = Ret m' /\ mem_wf m' /\ same_config m m'.
Proof.
  intros Hm He. destruct e as [r now|msg now|now_ms obf j|c]; cbn [step event_ok] in *.
  - destruct (ingest_record_ok m r now Hm He) as (m' & b & -> & ? & ? & _). by exists m'.
  - destruct (on_gossip_ok m msg now Hm He) as (m' & rs & -> & ? & ? & _). by exists m'.
  - destruct (tick_digest_ok m now_ms obf j Hm) as (? & ? & _). eauto.
  - destruct (update_own_cert_ok m c Hm He) as (m' & r & -> & ? & ? & _). by exists m'.
Qed.

Lemma dir_steps_ok es m :
  mem_wf m -> Forall (event_ok m) es -> exists m', steps skew m es = Ret m' /\ mem_wf m' /\ same_config m m'.
Proof.
  revert m. induction es as [|e es IH]; intros m Hm HF.
  - exists m. split_and!; [done..|apply same_config_refl].
  - apply Forall_cons in HF as [He HF]. destruct (dir_step_ok m e Hm He) as (m1 & E & Hm1 & Hc1).
    destruct (IH m1 Hm1) as (m2 & E2 & Hm2 & Hc2).
    { eapply Forall_impl; [exact HF|]. intros x. by apply event_ok_config. }
    exists m2. unfold steps in *. cbn [rfold]. rewrite E. cbn [rbind]. split_and!; [done..|]. by eapply same_config_trans.
Qed.

Lemma resolve_spec m addr info :
  mem_wf m ->
  resolve m addr = Some info <->
  exists nid r, directory m !! nid = Some r /\ node_addr (member_pubkey (cert r)) = addr /\
                info = mkMemberInfo (member_pubkey (cert r)) (endpoints r).
Proof.
  intros Hm. unfold resolve. split.
  - destruct (by_addr m !! addr) as [nid|] eqn:Eb; [|done]. destruct (mw_back m Hm _ _ Eb) as (r & Er & Ea).
    rewrite Er. intros [= <-]. by exists nid, r.
  - intros (nid & r & Er & <- & ->). by rewrite (mw_index m Hm _ _ Er), Er.
Qed.

End Wf.
End DirWf.
