(* ===== verification/DirGossip.v ===== *)
(** * Anti-entropy between two directories

    Composes two directories the way the daemons exchange gossip: the digests of
    one node, the pull requests they provoke, the records that answer them.
    One round brings every valid record of the first node to the second, or a
    newer one; and the invariants of Directory hold along every run. *)

From Stdlib Require Strings.Byte.
From Stdlib Require Import NArith Lia.
From stdpp Require Import base numbers gmap list.
From S2P Require Import Prelude Reader NetAddr MemberCodec MemberVerify Directory.

Local Open Scope nat_scope.

Module Converge.
Import Dir DirWf.
Section Converge.
Context `{HB : Blake2s} `{HBL : !Blake2sLaws} `{HE : Ed25519} `{HEL : !Ed25519Laws}.
Context `{HI : HashIter} `{HIL : !HashIterLaws} (skew : N).
Implicit Types (a b m : Membership) (r : Entry).

(** Deliver each message to a node, collecting its replies. *)
Definition deliver m (msgs : list GossipMsg) (now : N) : run (Membership * list GossipMsg) :=
  rfold (fun s msg => let! x := on_gossip skew s.1 msg now in Ret (x.1, s.2 ++ x.2)) msgs (m, []).

(** One round: [b] answers the digests, [a] the pull requests, [b] ingests. *)
Definition gossip_round a b (digests : list GossipMsg) (now : N) : run (Membership * Membership) :=
  let! ' (b, pulls) := deliver b digests now in
  let! ' (a, replies) := deliver a pulls now in
  let! ' (b, _) := deliver b replies now in
  Ret (a, b).

Section Round.
Context (K : list u8 -> Prop).
Hypothesis K_id : forall p q, K p -> K q -> node_id_of p = node_id_of q -> p = q.
Hypothesis K_addr : forall p q, K p -> K q -> node_addr p = node_addr q -> p = q.

Notation mem_wf := (mem_wf skew K).
Notation message_ok := (message_ok K).

(** No key of a root node verifies a signature. *)
Definition roots_certify_nothing m : Prop :=
  forall body sg pk, pk ∈ (roots (m_roots m)).*1 -> key_verifies body sg pk = false.

(** Every entry is one the sweep keeps. *)
Definition current m now : Prop := forall nid r, directory m !! nid = Some r -> kept skew m now nid r.

(** The node holds [nid] at [s] or later. *)
Definition holds m nid s : Prop := exists r, directory m !! nid = Some r /\ (s <= seq r)%N.

Lemma kept_config m m' now nid r : same_config m m' -> kept skew m now nid r -> kept skew m' now nid r.
Proof. intros (E1 & E2 & _ & E3 & _). unfold kept. by rewrite E1, E2, E3. Qed.

Lemma certify_config m m' : same_config m m' -> roots_certify_nothing m -> roots_certify_nothing m'.
Proof. intros (_ & _ & E & _). unfold roots_certify_nothing. by rewrite E. Qed.

Lemma trusted_by_ca m r now :
  roots_certify_nothing m -> record_valid r (trust m) (m_network_id m) now skew ->
  cert_valid (cert r) (ca_pubkeys m) (m_network_id m) now skew.
Proof.
  intros Hn [[(pk & Hpk & Hv) ? ? ?] _ _]. constructor; try done. exists pk. split; [|done].
  apply trust_elem in Hpk as [|Hr]; [done|]. by rewrite (Hn _ _ _ Hr) in Hv.
Qed.

Lemma ingest_keeps m r now m' c :
  mem_wf m -> incoming K r -> roots_certify_nothing m -> current m now ->
  ingest_record skew m r now = Ret (m', c) ->
  current m' now /\ (forall nid s, holds m nid s -> holds m' nid s) /\
  (record_valid r (ca_pubkeys m) (m_network_id m) now skew -> holds m' (node_id r) (seq r)).
Proof.
  intros Hm Hr Hn Hcur E. destruct (ingest_record_ok skew K K_id K_addr m r now Hm Hr) as (m1 & c1 & E1 & _ & Hc & Hd).
  rewrite E in E1. injection E1 as <- <-. split_and!.
  - intros nid r' H. apply Hd in H as [(Hs & -> & ->)|(_ & Hk & _)]; [|by eapply kept_config].
    eapply kept_config; [done|]. right. eapply trusted_by_ca; [done|apply Hs].
  - intros nid s (r0 & H0 & Hle).
    destruct (directory m' !! nid) as [r1|] eqn:E1.
    + exists r1. split; [done|]. apply Hd in E1 as [([_ Hs] & -> & ->)|(H1 & _)]; [|by simplify_eq].
      specialize (Hs r0 H0 (Hcur _ _ H0)). lia.
    + exfalso. assert (ingested skew m r now nid r0) as Hi.
      { right. split; [done|]. split; [by apply Hcur|]. intros [Hs ->].
        assert (directory m' !! node_id r = Some r) by (apply Hd; by left). congruence. }
      apply Hd in Hi. congruence.
  - intros Hv. assert (record_valid r (trust m) (m_network_id m) now skew) as Hvt.
    { destruct Hv as [Hcv ? ?]. constructor; try done. eapply cert_valid_mono; [|done]. apply trust_incl. }
    destruct (directory m !! node_id r) as [r0|] eqn:E0.
    + destruct (N.lt_ge_cases (seq r0) (seq r)) as [Hlt|Hge].
      * exists r. split; [|lia]. apply Hd. left. split_and!; try done. split; [done|]. intros r1 H1 _. congruence.
      * exists r0. split; [|done]. apply Hd. right. split; [done|]. split; [by apply Hcur|].
        intros [[_ Hs] _]. specialize (Hs r0 E0 (Hcur _ _ E0)). lia.
    + exists r. split; [|lia]. apply Hd. left. split_and!; try done. split; [done|]. intros r1 H1 _. congruence.
Qed.

(** What a node keeps while it ingests records at [now]. *)
Record gaining m m' now : Prop := {
  ga_wf : mem_wf m';
  ga_config : same_config m m';
  ga_current : current m' now;
  ga_holds nid s : holds m nid s -> holds m' nid s;
}.

Lemma ingest_all_keeps recs m now :
  mem_wf m -> Forall (incoming K) recs -> roots_certify_nothing m -> current m now ->
  exists m', ingest_all skew m recs now = Ret m' /\ gaining m m' now /\
    (forall r, r ∈ recs -> record_valid r (ca_pubkeys m) (m_network_id m) now skew -> holds m' (node_id r) (seq r)).
Proof.
  intros Hm HF. revert m Hm. induction HF as [|r l Hr _ IH]; intros m Hm Hn Hcur.
  - exists m. split; [done|]. split; [constructor; try done; apply same_config_refl|]. by intros r ?%not_elem_of_nil.
  - destruct (ingest_record_ok skew K K_id K_addr m r now Hm Hr) as (m1 & c1 & E1 & Hm1 & Hc1 & _).
    destruct (ingest_keeps m r now m1 c1 Hm Hr Hn Hcur E1) as (Hcur1 & Hh1 & Hg1).
    destruct (IH m1 Hm1 (certify_config _ _ Hc1 Hn) Hcur1) as (m2 & E2 & [Hw2 Hc2 Hcur2 Hh2] & Hg2).
    exists m2. unfold ingest_all in *. cbn [rfold]. rewrite E1. cbn [rbind fst]. split; [done|].
    split; [constructor; try done; [by eapply same_config_trans|auto]|].
    intros x [->|Hx]%elem_of_cons Hv; [auto|]. apply Hg2; [done|]. destruct Hc1 as (-> & -> & _). done.
Qed.

(** ** The three deliveries *)

Lemma deliver_cons m msg msgs now acc :
  rfold (fun s x => let! y := on_gossip skew s.1 x now in Ret (y.1, s.2 ++ y.2)) (msg :: msgs) (m, acc) =
  let! y := on_gossip skew m msg now in
  rfold (fun s x => let! y := on_gossip skew s.1 x now in Ret (y.1, s.2 ++ y.2)) msgs (y.1, acc ++ y.2).
Proof. cbn [rfold fst snd]. by destruct (on_gossip skew m msg now). Qed.

Definition is_digest (x : GossipMsg) : Prop := match x with Digest _ => True | _ => False end.
Definition is_pull (x : GossipMsg) : Prop := match x with PullRequest _ => True | _ => False end.
Definition is_records (x : GossipMsg) : Prop := match x with Records _ => True | _ => False end.

(** A question is answered without changing the directory. *)
Lemma deliver_questions m msgs now acc :
  mem_wf m -> Forall message_ok msgs -> Forall (fun x => is_digest x \/ is_pull x) msgs ->
  exists replies,
    rfold (fun s x => let! y := on_gossip skew s.1 x now in Ret (y.1, s.2 ++ y.2)) msgs (m, acc) =
      Ret (m, acc ++ replies) /\ Forall message_ok replies /\
    (forall x, x ∈ replies <-> exists q rs, q ∈ msgs /\ on_gossip skew m q now = Ret (m, rs) /\ x ∈ rs).
Proof.
  intros Hm HF. revert acc. induction HF as [|q msgs Hq _ IH]; intros acc HQ.
  - exists []. rewrite app_nil_r. split_and!; [done|constructor|]. set_solver.
  - apply Forall_cons in HQ as [Hk HQ].
    destruct (on_gossip_ok skew K K_id K_addr m q now Hm Hq) as (m1 & rs & E & _ & _ & Hrs).
    assert (m1 = m) as -> by (destruct q; cbn in E; [congruence..|by destruct Hk]).
    rewrite deliver_cons, E. cbn [rbind fst snd]. destruct (IH (acc ++ rs) HQ) as (reps & -> & Hreps & Hin).
    exists (rs ++ reps). rewrite app_assoc. split_and!; [done|by apply Forall_app|].
    intros x. rewrite elem_of_app, Hin. split.
    + intros [Hx|(q' & rs' & ? & ? & ?)]; [exists q, rs; split_and!; try done; left|exists q', rs'; split_and!; try done; by right].
    + intros (q' & rs' & [->|Hq']%elem_of_cons & E' & Hx); [left; congruence|right; eauto].
Qed.

Lemma deliver_records m msgs now acc :
  mem_wf m -> roots_certify_nothing m -> current m now -> Forall message_ok msgs -> Forall is_records msgs ->
  exists m' replies,
    rfold (fun s x => let! y := on_gossip skew s.1 x now in Ret (y.1, s.2 ++ y.2)) msgs (m, acc) = Ret (m', replies) /\
    gaining m m' now /\
    (forall recs r, Records recs ∈ msgs -> r ∈ recs ->
       record_valid r (ca_pubkeys m) (m_network_id m) now skew -> holds m' (node_id r) (seq r)).
Proof.
  intros Hm Hn Hcur HF. revert m acc Hm Hn Hcur. induction HF as [|q msgs Hq _ IH]; intros m acc Hm Hn Hcur HR.
  - exists m, acc. split; [done|]. split; [constructor; try done; apply same_config_refl|]. by intros ? ? ?%not_elem_of_nil.
  - apply Forall_cons in HR as [Hk HR]. destruct q as [|?|recs]; [done..|].
    destruct (ingest_all_keeps recs m now Hm (message_incoming _ _ Hq) Hn Hcur) as (m1 & E1 & [Hw1 Hc1 Hcur1 Hh1] & Hg1).
    rewrite deliver_cons. cbn [on_gossip]. rewrite E1. cbn [rbind fst snd].
    destruct (IH m1 (acc ++ []) Hw1 (certify_config _ _ Hc1 Hn) Hcur1 HR) as (m2 & reps & -> & [Hw2 Hc2 Hcur2 Hh2] & Hg2).
    exists m2, reps. split; [done|]. split; [constructor; try done; [by eapply same_config_trans|auto]|].
    intros rs r [[= ->]|Hin]%elem_of_cons Hr Hv; [auto|]. eapply Hg2; [done..|]. by destruct Hc1 as (-> & -> & _).
Qed.

Lemma pull_replies m ids now : on_gossip skew m (PullRequest ids) now =
  Ret (m, map Records (chunks MAX_GOSSIP_RECORDS_PER_REPLY (omap (fun nid => directory m !! nid) ids))).
Proof. done. Qed.

(** A digest round: every record of [a] that [b] can verify, or a newer one. *)
Lemma round_converges a b ds now :
  mem_wf a -> mem_wf b -> roots_certify_nothing b -> current b now ->
  Forall message_ok ds -> Forall is_digest ds ->
  (forall nid r, directory a !! nid = Some r -> exists es, Digest es ∈ ds /\ (nid, seq r) ∈ es) ->
  exists b', gossip_round a b ds now = Ret (a, b') /\ gaining b b' now /\
    (forall nid r, directory a !! nid = Some r ->
       record_valid r (ca_pubkeys b) (m_network_id b) now skew -> holds b' nid (seq r)).
Proof.
  intros Ha Hb Hn Hcur Hds HD Hcov. unfold gossip_round, deliver.
  destruct (deliver_questions b ds now [] Hb Hds) as (pulls & E1 & Hpok & Hpin);
    [eapply Forall_impl; [exact HD|]; auto|].
  rewrite E1. cbn [rbind app]. assert (Forall is_pull pulls) as HP.
  { apply Forall_forall. intros x Hx. apply Hpin in Hx as (q & rs & Hq & Eq & Hx).
    pose proof (proj1 (Forall_forall _ _) HD _ Hq). destruct q as [es|?|?]; [|done..]. cbn in Eq.
    destruct (wanted b es); injection Eq as <-; [by apply not_elem_of_nil in Hx|].
    by apply list_elem_of_singleton in Hx as ->. }
  destruct (deliver_questions a pulls now [] Ha Hpok) as (reps & E2 & Hrok & Hrin);
    [eapply Forall_impl; [exact HP|]; auto|].
  rewrite E2. cbn [rbind app]. assert (Forall is_records reps) as HR.
  { apply Forall_forall. intros x Hx. apply Hrin in Hx as (q & rs & Hq & Eq & Hx).
    pose proof (proj1 (Forall_forall _ _) HP _ Hq). destruct q as [|ids|]; [done| |done].
    rewrite pull_replies in Eq. injection Eq as <-. by apply list_elem_of_fmap in Hx as (? & -> & _). }
  destruct (deliver_records b reps now [] Hb Hn Hcur Hrok HR) as (b' & ? & E3 & Hg & Hgain).
  rewrite E3. cbn [rbind]. exists b'. split; [done|]. split; [done|]. intros nid r Hr Hv.
  destruct (mw_entry skew K a Ha _ _ Hr) as [_ Eid]. destruct (Hcov _ _ Hr) as (es & Hes & Hin).
  destruct (decide (nid ∈ wanted b es)) as [Hw|Hw].
  - assert (PullRequest (wanted b es) ∈ pulls) as Hpull.
    { apply Hpin. do 2 eexists. split; [exact Hes|]. cbn [on_gossip]. split; [done|].
      destruct (wanted b es); [by apply not_elem_of_nil in Hw|]. by apply list_elem_of_singleton. }
    set (recs := omap (fun n => directory a !! n) (wanted b es)).
    destruct (chunks_covers MAX_GOSSIP_RECORDS_PER_REPLY recs r) as (c & Hc & Hrc);
      [unfold MAX_GOSSIP_RECORDS_PER_REPLY; lia|apply list_elem_of_omap; by exists nid|].
    rewrite <- Eid. eapply (Hgain c r); [|done..]. apply Hrin. do 2 eexists. split; [exact Hpull|].
    rewrite pull_replies. split; [done|]. apply list_elem_of_fmap. by exists c.
  - apply (ga_holds _ _ _ Hg). destruct (directory b !! nid) as [r0|] eqn:E0.
    + exists r0. split; [done|]. destruct (N.lt_ge_cases (seq r0) (seq r)); [|done]. exfalso. apply Hw, wanted_spec.
      exists (seq r). split; [done|]. intros r' ?. by simplify_eq.
    + exfalso. apply Hw, wanted_spec. exists (seq r). split; [done|]. intros; congruence.
Qed.

(** The digests of a tick that fires cover the directory. *)
Definition digest_due m (now_ms : N) : Prop :=
  match last_digest_ms m with Some last => (digest_ms m <= now_ms - last)%N | None => True end.

Lemma tick_digest_covers m now_ms obf jitter :
  digest_due m now_ms ->
  Forall is_digest (tick_digest m now_ms obf jitter).2 /\
  forall nid r, directory m !! nid = Some r ->
    exists es, Digest es ∈ (tick_digest m now_ms obf jitter).2 /\ (nid, seq r) ∈ es.
Proof.
  intros Hdue. unfold tick_digest.
  replace (match last_digest_ms m with Some last => (now_ms - last <? digest_ms m)%N | None => false end) with false.
  2: { unfold digest_due in Hdue. destruct (last_digest_ms m); [|done]. symmetry. by apply N.ltb_ge. }
  cbn [snd]. split; [apply Forall_map, Forall_true; done|]. intros nid r Hr. cbn [directory set_digest].
  set (es := map _ (hash_iter _)). assert ((nid, seq r) ∈ es) as Hin.
  { apply list_elem_of_fmap. exists (nid, r). split; [done|]. by rewrite hash_iter_perm, elem_of_map_to_list. }
  destruct (chunks_covers MAX_GOSSIP_DIGEST_ENTRIES es _ ltac:(unfold MAX_GOSSIP_DIGEST_ENTRIES; lia) Hin) as (c & Hc & Hrc).
  exists c. split; [|done]. apply list_elem_of_fmap. by exists c.
Qed.


(** ** Runs from the start *)

(** C28: however records, gossip, digest ticks and certificate renewals arrive,
    the directory never panics, and its two indices agree: [resolve] answers
    for an address exactly with the entry whose key derives that address; every
    entry has the identifier of its key, and every entry but the node's own
    was verified when it came in. *)
Theorem directory_sound cas net c sk rts eps es :
  announceable c eps -> K (member_pubkey c) ->
  (forall m, new cas net c sk rts eps = Ret m -> Forall (event_ok K m) es) ->
  exists m0 m, new cas net c sk rts eps = Ret m0 /\ steps skew m0 es = Ret m /\
    (forall addr info, resolve m addr = Some info <->
       exists nid r, directory m !! nid = Some r /\ node_addr (member_pubkey (cert r)) = addr /\
                     info = mkMemberInfo (member_pubkey (cert r)) (endpoints r)) /\
    (forall nid r, directory m !! nid = Some r ->
       nid = node_id_of (member_pubkey (cert r)) /\ record_wf r /\
       (member_pubkey (cert r) = member_pubkey c \/
        exists t, record_valid r (trust m0) net t skew)).
Proof.
  intros Ha HK Hes. destruct (dir_new_ok skew K cas net c sk rts eps Ha HK) as (m0 & E0 & Hm0 & Eo & Eoc & _ & En & _).
  destruct (dir_steps_ok skew K K_id K_addr es m0 Hm0 (Hes m0 E0)) as (m & E & Hm & Hc).
  exists m0, m. split; [done|]. split; [done|]. split; [by intros; apply (resolve_spec skew K)|].
  intros nid r Hr. destruct (mw_entry skew K m Hm _ _ Hr) as [(Hw & _ & Eid & HKr) <-]. split; [done|]. split; [done|].
  destruct (decide (node_id r = own_node_id m)) as [Eown|Hne].
  - left. apply K_id; [done..|]. rewrite <- Eid, Eown. destruct Hc as (_ & _ & _ & -> & _). done.
  - right. destruct (mw_verified skew K m Hm _ _ Hr Hne) as (t & Ht). exists t.
    rewrite (same_config_trust _ _ Hc) in Ht. destruct Hc as (_ & En' & _). by rewrite En', En in Ht.
Qed.

(** Ingesting a record at [now] leaves exactly the entries that are still
    valid, the node's own among them, with the record in place of the entry it
    supersedes: a record is taken only when it verifies and its sequence number
    is higher than that of the entry in force. *)
Theorem ingest_record_exact m r now :
  mem_wf m -> incoming K r ->
  exists m' changed, ingest_record skew m r now = Ret (m', changed) /\ mem_wf m' /\
    forall nid r', directory m' !! nid = Some r' <-> ingested skew m r now nid r'.
Proof.
  intros Hm Hr. destruct (ingest_record_ok skew K K_id K_addr m r now Hm Hr) as (m' & b & E & Hw & _ & Hd).
  by exists m', b.
Qed.

End Round.
End Converge.
End Converge.

(** ** Two nodes *)

#[local] Existing Instance toy_blake.
#[local] Existing Instance toy_ed.
#[local] Instance toy_iter : HashIter := fun A l => rev l.

Lemma toy_iter_laws : HashIterLaws.
Proof. constructor. intros A l. symmetry. apply Permutation_rev. Qed.

Module DirDemo.
Import Dir DirWf Converge.

Definition demo_key (p : list u8) : Prop := p = demo_member 1 \/ p = demo_member 2.

Lemma demo_key_id p q : demo_key p -> demo_key q -> node_id_of p = node_id_of q -> p = q.
Proof. by intros [->| ->] [->| ->]. Qed.

Lemma demo_key_addr p q : demo_key p -> demo_key q -> node_addr p = node_addr q -> p = q.
Proof. by intros [->| ->] [->| ->]. Qed.

Definition demo_roots : RootSet := mkRootSet [] 0 (replicate 64 Byte.x00).

(** A fresh node with the certificate of member [i]. *)
Definition demo_node (i : N) : Membership :=
  insert_record (mkMembership ∅ ∅ [demo_ca] demo_network demo_roots (node_id_of (demo_member i)) (demo_cert i) []
                   (demo_member (i + 100)) None GOSSIP_INTERVAL_MS) (demo_record i [] 0).

Lemma demo_node_entry i nid r :
  directory (demo_node i) !! nid = Some r -> nid = node_id_of (demo_member i) /\ r = demo_record i [] 0.
Proof.
  unfold demo_node, insert_record. cbn [directory set_maps].
  rewrite lookup_insert_Some, lookup_empty. by intros [[<- <-]|[_ ?]].
Qed.

Lemma demo_announceable i : announceable (demo_cert i) [].
Proof. split_and!; [apply demo_cert_wf|done..|]. by rewrite length_demo_cert. Qed.

Lemma demo_node_new i : new [demo_ca] demo_network (demo_cert i) (demo_member (i + 100)) demo_roots [] = Ret (demo_node i).
Proof.
  unfold new, build_signed_record. rewrite record_signing_body_ok; [done|].
  by constructor.
Qed.

Lemma demo_node_wf i : demo_key (demo_member i) -> mem_wf 300 demo_key (demo_node i).
Proof.
  intros Hi. destruct (dir_new_ok (HBL := toy_blake_laws) (HEL := toy_ed_laws) 300 demo_key [demo_ca] demo_network (demo_cert i)
    (demo_member (i + 100)) demo_roots [] (demo_announceable i) Hi) as (m & E & Hm & _).
  rewrite demo_node_new in E. by injection E as <-.
Qed.

Lemma demo_record_valid i : i = 1%N \/ i = 2%N -> record_valid (demo_record i [] 0) [demo_ca] demo_network 500 300.
Proof.
  intros Hi. constructor; [constructor| |]; [exists demo_ca; split; [left|]| | | | |]; destruct Hi as [->| ->];
    vm_compute; done.
Qed.

Lemma demo_incoming i : demo_key (demo_member i) -> incoming demo_key (demo_record i [] 0).
Proof.
  intros Hi. assert (record_wf (demo_record i [] 0)) as Hw by (by apply demo_record_wf).
  split; [exact Hw|]. split; [|exact Hi]. rewrite length_record_bytes by exact Hw.
  change (cert (demo_record i [] 0)) with (demo_cert i). by rewrite length_demo_cert.
Qed.


Lemma directory_sound_witness :
  exists m0 m, new [demo_ca] demo_network (demo_cert 1) (demo_member 101) demo_roots [] = Ret m0 /\
    steps 300 m0 [Ingest (demo_record 2 [] 0) 500; Renew (demo_cert 1); DigestTick 0 false 0] = Ret m /\
    (forall nid r, directory m !! nid = Some r -> nid = node_id_of (member_pubkey (cert r))).
Proof.
  destruct (directory_sound (HBL := toy_blake_laws) (HEL := toy_ed_laws) (HIL := toy_iter_laws) 300 demo_key
    demo_key_id demo_key_addr [demo_ca] demo_network (demo_cert 1) (demo_member 101) demo_roots []
    [Ingest (demo_record 2 [] 0) 500; Renew (demo_cert 1); DigestTick 0 false 0]
    (demo_announceable 1) (or_introl eq_refl)) as (m0 & m & E0 & E & _ & Hd).
  - intros m Em. rewrite demo_node_new in Em. injection Em as <-.
    apply Forall_cons; split; [apply demo_incoming; by right|].
    apply Forall_cons; split; [split; [apply demo_announceable|done]|].
    by apply Forall_singleton.
  - exists m0, m. split; [exact E0|]. split; [exact E|]. intros nid r Hr. by destruct (Hd nid r Hr).
Defined.

Lemma ingest_record_exact_witness :
  exists m' changed, ingest_record 300 (demo_node 1) (demo_record 2 [] 0) 500 = Ret (m', changed) /\
    directory m' !! node_id_of (demo_member 2) = Some (demo_record 2 [] 0).
Proof.
  destruct (ingest_record_exact (HBL := toy_blake_laws) (HEL := toy_ed_laws) (HIL := toy_iter_laws) 300 demo_key
    demo_key_id demo_key_addr (demo_node 1) (demo_record 2 [] 0) 500) as (m' & c & E & _ & Hd).
  - apply demo_node_wf. by left.
  - apply demo_incoming. by right.
  - exists m', c. split; [exact E|]. apply Hd. left. split_and!; [|done|done]. split; [apply demo_record_valid; by right|].
    intros r0 H. by apply demo_node_entry in H as [? _].
Defined.
End DirDemo.
