(* ===== verification/Obf.v ===== *)
(** * The obfuscation envelope

    Models yip-obf/src/lib.rs: the keyed mask over a type byte, a body and its
    padding, the length buckets of the traffic defence, and the xorshift
    generator of junk traffic.

    SipHash-2-4 is third-party code ([SipHash24]); the nonce, drawn from the
    operating system, is an argument of [obfuscate].  [obfuscate] masks its
    buffer in chunks of eight bytes and [deobfuscate] with a keystream made in
    advance: the two are shown to be the same mask. *)

From Stdlib Require Strings.Byte.
From Stdlib Require Import NArith Lia.
From stdpp Require Import base numbers list.
From S2P Require Import Prelude Wire NetAddr MemberVerify.

Local Open Scope nat_scope.

Class SipHash24 := sip24 : list u8 -> list u8 -> N.

Definition NONCE_LEN : nat := 8.
Definition MIN_ENVELOPE : nat := NONCE_LEN + 3.
Definition RDV_TYPE : u8 := n2b 5.
(** The ASCII bytes of "yip-obf-v1". *)
Definition OBF_DOMAIN : list u8 := map n2b [121; 105; 112; 45; 111; 98; 102; 45; 118; 49]%N.

Definition derive_key `{Blake2s} (psk : list u8) : list u8 := blake2s 16 (OBF_DOMAIN ++ psk).

Module Obf.
Import Wire.Wire.
Section Obf.
Context {SH : SipHash24}.

(** One block of the keystream. *)
Definition block (key nonce : list u8) (counter : N) : list u8 :=
  to_be_bytes 8 (sip24 key (nonce ++ to_be_bytes 8 counter)).

(** [while out.len() < n], by fuel; every turn adds eight bytes. *)
Fixpoint keystream_loop (fuel : nat) (key nonce : list u8) (n : nat) (counter : N) (out : list u8) : list u8 :=
  match fuel with
  | O => out
  | S fuel =>
      if length out <? n then keystream_loop fuel key nonce n (wrap64 (counter + 1)) (out ++ block key nonce counter)
      else out
  end.

Definition keystream (key nonce : list u8) (n : nat) : list u8 := take n (keystream_loop n key nonce n 0 []).

(** [for chunk in region.chunks_mut(8)], xoring the block of each counter. *)
Fixpoint mask_chunks (key nonce : list u8) (counter : N) (cs : list (list u8)) : list u8 :=
  match cs with
  | [] => []
  | c :: cs => xor_in_place c (block key nonce counter) ++ mask_chunks key nonce (wrap64 (counter + 1)) cs
  end.

(** [obfuscate_into]: [None] stands for [false], with the buffer cleared. *)
Definition obfuscate_into (key : list u8) (ptype : u8) (body : list u8) (pad_len : nat) (nonce : list u8) :
    option (list u8) :=
  if (N.of_nat (length body) <? u16_mod)%N then
    let plain := ptype :: to_be_bytes 2 (N.of_nat (length body)) ++ body ++ replicate pad_len Byte.x00 in
    Some (nonce ++ mask_chunks key nonce 0 (chunks 8 plain))
  else None.

Definition obfuscate (key : list u8) (ptype : u8) (body : list u8) (pad_len : nat) (nonce : list u8) :
    option (list u8) :=
  match obfuscate_into key ptype body pad_len nonce with Some out => Some out | None => None end.

Definition deobfuscate (key dg : list u8) : option (u8 * list u8) :=
  if length dg <? MIN_ENVELOPE then None
  else
    let nonce := take NONCE_LEN dg in
    let masked := drop NONCE_LEN dg in
    let region := xor_in_place masked (keystream key nonce (length masked)) in
    match head region with
    | None => None
    | Some ptype =>
        match slice_opt 1 3 region with
        | None => None
        | Some lb =>
            let body_len := N.to_nat (from_be_bytes lb) in
            match slice_opt 3 (3 + body_len) region with
            | None => None
            | Some body => Some (ptype, body)
            end
        end
    end.

(** ** The two masks agree *)

(** The ideal keystream: the concatenation of blocks from [counter] on. *)
Fixpoint blocks (key nonce : list u8) (counter : N) (m : nat) : list u8 :=
  match m with
  | O => []
  | S m => block key nonce counter ++ blocks key nonce (wrap64 (counter + 1)) m
  end.

Lemma length_block key nonce c : length (block key nonce c) = 8.
Proof. apply length_to_be_bytes. Qed.

Lemma length_blocks key nonce c m : length (blocks key nonce c m) = 8 * m.
Proof. revert c. induction m as [|m IH]; intros c; cbn [blocks]; [done|]. rewrite length_app, length_block, IH. lia. Qed.

Lemma keystream_loop_spec fuel key nonce n c out :
  n <= length out + 8 * fuel ->
  exists m, keystream_loop fuel key nonce n c out = out ++ blocks key nonce c m /\ n <= length out + 8 * m.
Proof.
  revert c out. induction fuel as [|fuel IH]; intros c out Hn; cbn [keystream_loop].
  - exists 0. rewrite app_nil_r. split; [done|lia].
  - destruct (Nat.ltb_spec (length out) n).
    + destruct (IH (wrap64 (c + 1)) (out ++ block key nonce c)) as (m & -> & Hm); rewrite ?length_app, length_block in *; [lia|].
      exists (S m). cbn [blocks]. rewrite <- app_assoc. split; [done|lia].
    + exists 0. rewrite app_nil_r. split; [done|lia].
Qed.

Lemma xor_in_place_app a b k : xor_in_place (a ++ b) k = xor_in_place a (take (length a) k) ++ xor_in_place b (drop (length a) k).
Proof.
  revert k. induction a as [|x a IH]; intros k; cbn; [by rewrite drop_0|]. destruct k as [|y k]; cbn.
  - f_equal. by destruct b.
  - f_equal. apply IH.
Qed.

Lemma xor_in_place_take a k n : length a <= n -> xor_in_place a (take n k) = xor_in_place a k.
Proof.
  revert k n. induction a as [|x a IH]; intros k n Hn; cbn in *; [done|]. destruct n as [|n]; [lia|].
  destruct k as [|y k]; cbn; [done|]. f_equal. apply IH. lia.
Qed.

Lemma mask_chunks_fuel_eq fuel l key nonce c m :
  length l <= fuel -> length l <= 8 * m ->
  mask_chunks key nonce c (chunks_fuel fuel 8 l) = xor_in_place l (blocks key nonce c m).
Proof.
  revert l c m. induction fuel as [|fuel IH]; intros l c m Hf Hm.
  { destruct l; [done|]. cbn in Hf. lia. }
  destruct l as [|x l]; [done|]. destruct m as [|m]; [cbn in Hm; lia|].
  cbn [chunks_fuel mask_chunks blocks]. set (t := x :: l) in *.
  rewrite <- (take_drop 8 t) at 3. rewrite xor_in_place_app. f_equal.
  - rewrite xor_in_place_take by done. rewrite <- (xor_in_place_take _ (_ ++ _) 8) by (rewrite length_take; lia).
    by rewrite take_app_length' by (by rewrite length_block).
  - destruct (decide (length t <= 8)) as [Hle|Hgt].
    + rewrite (drop_ge t 8) by done. destruct fuel; done.
    + rewrite length_take, Nat.min_l by lia. rewrite drop_app_length' by (by rewrite length_block).
      apply IH; rewrite length_drop; unfold t in *; cbn in *; lia.
Qed.

(** Masking in chunks is xoring with the keystream. *)
Lemma mask_is_keystream key nonce l :
  mask_chunks key nonce 0 (chunks 8 l) = xor_in_place l (keystream key nonce (length l)).
Proof.
  unfold keystream. destruct (keystream_loop_spec (length l) key nonce (length l) 0 []) as (m & -> & Hm); [cbn; lia|].
  cbn in Hm. rewrite app_nil_l, xor_in_place_take by done. apply mask_chunks_fuel_eq; [done|lia].
Qed.

Lemma length_obfuscate key ptype body pad nonce dg :
  length nonce = NONCE_LEN -> obfuscate key ptype body pad nonce = Some dg ->
  length dg = MIN_ENVELOPE + length body + pad.
Proof.
  intros Hn. unfold obfuscate, obfuscate_into. destruct (_ <? _)%N; [|done]. intros <-%(inj Some).
  rewrite length_app, Hn, mask_is_keystream, length_xor_in_place. unfold MIN_ENVELOPE.
  cbn [length]. rewrite !length_app, length_to_be_bytes, length_replicate. lia.
Qed.

(** What [obfuscate_round_trip] states, for the components that wrap messages. *)
Lemma obfuscate_opens key ptype body pad nonce :
  length nonce = NONCE_LEN ->
  match obfuscate key ptype body pad nonce with
  | Some dg => length dg = MIN_ENVELOPE + length body + pad /\ deobfuscate key dg = Some (ptype, body)
  | None => (u16_mod <= N.of_nat (length body))%N
  end.
Proof.
  intros Hn. destruct (obfuscate key ptype body pad nonce) as [dg|] eqn:E.
  2: { unfold obfuscate, obfuscate_into in E. by destruct (N.ltb_spec (N.of_nat (length body)) u16_mod). }
  pose proof (length_obfuscate _ _ _ _ _ _ Hn E) as Hl. split; [done|].
  unfold obfuscate, obfuscate_into in E. destruct (N.ltb_spec (N.of_nat (length body)) u16_mod) as [Hb|]; [|done].
  apply (inj Some) in E as <-. unfold deobfuscate.
  rewrite (proj2 (Nat.ltb_ge _ _)) by lia. rewrite take_app_length', drop_app_length' by done.
  rewrite mask_is_keystream, length_xor_in_place, xor_twice. cbn [head].
  set (lb := to_be_bytes 2 (N.of_nat (length body))).
  assert (length lb = 2) as Hlb by apply length_to_be_bytes.
  change (ptype :: lb ++ body ++ replicate pad Byte.x00) with ([ptype] ++ lb ++ body ++ replicate pad Byte.x00).
  rewrite (slice_opt_after 1 3 [ptype] lb) by (cbn; lia).
  unfold lb at 1. rewrite from_to_be_bytes_small by done. rewrite Nat2N.id.
  rewrite app_assoc, (slice_opt_after 3 _ ([ptype] ++ lb) body) by (rewrite ?length_app; cbn [length]; lia). done.
Qed.

(** An envelope opens to what was put in it: for every key, nonce, type,
    padding and body of less than 64 KiB, [deobfuscate] of [obfuscate] gives
    back the type and the body, although one masks in chunks and the other
    with a precomputed keystream; a longer body is refused, and the envelope is
    longer than its body by the header and the padding exactly. *)
Theorem obfuscate_round_trip key ptype body pad nonce :
  length nonce = NONCE_LEN ->
  match obfuscate key ptype body pad nonce with
  | Some dg => length dg = MIN_ENVELOPE + length body + pad /\ deobfuscate key dg = Some (ptype, body)
  | None => (u16_mod <= N.of_nat (length body))%N
  end.
Proof. apply obfuscate_opens. Qed.

End Obf.
End Obf.

(** ** Traffic defence *)

Inductive TrafficDefensePreset := Off | Balanced | Paranoid.

Definition default_buckets (p : TrafficDefensePreset) : list nat :=
  match p with Off => [] | Balanced => [256; 512; 1024; 1420] | Paranoid => [512; 1420] end.

(** The scan of [round_to_bucket] over the buckets. *)
Fixpoint scan_buckets (raw_wire_len : nat) (buckets : list nat) (max_budget : nat) : nat :=
  match buckets with
  | [] => Nat.max max_budget raw_wire_len
  | b :: rest =>
      if raw_wire_len <=? b then if b <=? max_budget then b else Nat.max max_budget raw_wire_len
      else scan_buckets raw_wire_len rest max_budget
  end.

Definition round_to_bucket (raw_wire_len : nat) (buckets : list nat) (max_budget : nat) : nat :=
  match buckets with [] => raw_wire_len | _ => scan_buckets raw_wire_len buckets max_budget end.

Lemma scan_buckets_bounds raw buckets budget :
  raw <= scan_buckets raw buckets budget <= Nat.max budget raw /\
  (scan_buckets raw buckets budget ∈ buckets \/ scan_buckets raw buckets budget = Nat.max budget raw).
Proof.
  induction buckets as [|b rest [IH1 IH2]]; cbn [scan_buckets]; [split; [lia|by right]|].
  destruct (Nat.leb_spec raw b); [destruct (Nat.leb_spec b budget)|].
  - split; [lia|]. left. left.
  - split; [lia|by right].
  - split; [done|]. destruct IH2; [left; by right|by right].
Qed.

(** Quantising a datagram length never shrinks the datagram and never
    exceeds the budget a datagram of that length already respects; every
    length up to the budget is mapped to a bucket or to the budget, so an
    observer sees no other size. *)
Theorem round_to_bucket_safe raw buckets budget :
  raw <= round_to_bucket raw buckets budget <= Nat.max budget raw /\
  (buckets <> [] -> raw <= budget ->
   round_to_bucket raw buckets budget ∈ buckets \/ round_to_bucket raw buckets budget = budget).
Proof.
  unfold round_to_bucket. destruct buckets as [|b rest]; [split; [lia|done]|].
  destruct (scan_buckets_bounds raw (b :: rest) budget) as [H1 H2]. split; [done|].
  intros _ Hr. destruct H2 as [?| ->]; [by left|right; lia].
Qed.

(** ** The junk generator *)

Module XorShift64.

Definition ensure_nonzero (seed : N) : N := N.lor seed 1.

Definition from_seed (seed : N) : N := ensure_nonzero seed.

(** [x ^= x >> 12; x ^= x << 25; x ^= x >> 27] *)
Definition next_state (x : N) : N :=
  let x := N.lxor x (N.shiftr x 12) in
  let x := N.lxor x (wrap64 (N.shiftl x 25)) in
  N.lxor x (N.shiftr x 27).

Definition next_u64 (state : N) : N * N :=
  let x := next_state state in (wrap64 (x * 2685821657736338717), x).

(** [hi - lo + 1] is zero, and the remainder panics, on the whole range. *)
Definition gen_range (state lo hi_inclusive : N) : run (N * N) :=
  if (hi_inclusive <=? lo)%N then Ret (lo, state)
  else
    let span := wrap64 (hi_inclusive - lo + 1) in
    if (span =? 0)%N then Panic
    else let ' (v, state) := next_u64 state in Ret ((lo + v mod span)%N, state).

Fixpoint fill_chunks (state : N) (cs : list (list u8)) : list u8 * N :=
  match cs with
  | [] => ([], state)
  | c :: cs =>
      let ' (v, state) := next_u64 state in
      let ' (rest, state) := fill_chunks state cs in
      (take (length c) (rev (to_be_bytes 8 v)) ++ rest, state)
  end.

Definition fill (state : N) (buf : list u8) : list u8 * N := fill_chunks state (chunks 8 buf).

(** The state after [n] draws. *)
Fixpoint nth_state (n : nat) (seed : N) : N :=
  match n with O => from_seed seed | S n => (next_u64 (nth_state n seed)).2 end.

(** A right shift by a positive amount has no fixed point but zero. *)
Lemma lxor_shiftr_zero x n : (0 < n)%N -> N.lxor x (N.shiftr x n) = 0%N -> x = 0%N.
Proof.
  intros Hn H. apply N.lxor_eq in H. destruct (N.eq_0_gt_0_cases x) as [|Hx]; [done|].
  rewrite N.shiftr_div_pow2 in H. pose proof (N.div_lt x (2 ^ n) Hx) as Hd.
  assert (1 < 2 ^ n)%N by (apply N.pow_gt_1; lia). specialize (Hd ltac:(lia)). lia.
Qed.

(** Nor has a left shift on 64 bits. *)
Lemma lxor_shiftl_zero x n : (0 < n)%N -> (x < u64_mod)%N -> N.lxor x (wrap64 (N.shiftl x n)) = 0%N -> x = 0%N.
Proof.
  intros Hn Hx H. apply N.lxor_eq in H. apply N.bits_inj. intros i. rewrite N.bits_0.
  induction i as [i IH] using (well_founded_induction N.lt_wf_0). rewrite H. unfold wrap64.
  destruct (N.lt_ge_cases i 64) as [Hi|Hi].
  - change u64_mod with (2 ^ 64)%N. rewrite N.mod_pow2_bits_low by done.
    destruct (N.lt_ge_cases i n); [by rewrite N.shiftl_spec_low|].
    rewrite N.shiftl_spec_high' by done. apply IH. lia.
  - change u64_mod with (2 ^ 64)%N. by rewrite N.mod_pow2_bits_high.
Qed.

Lemma lxor_lt x y : (x < u64_mod -> y < u64_mod -> N.lxor x y < u64_mod)%N.
Proof.
  change u64_mod with (2 ^ 64)%N. intros Hx Hy. destruct (N.eq_0_gt_0_cases (N.lxor x y)) as [->|H]; [done|].
  apply N.log2_lt_pow2; [done|]. eapply N.le_lt_trans; [apply N.log2_lxor|].
  apply N.max_lub_lt; [destruct (N.eq_0_gt_0_cases x) as [->|]|destruct (N.eq_0_gt_0_cases y) as [->|]];
    try done; by apply N.log2_lt_pow2.
Qed.

Lemma shiftr_lt x n : (x < u64_mod -> N.shiftr x n < u64_mod)%N.
Proof. rewrite N.shiftr_div_pow2. intros. eapply N.le_lt_trans; [|done]. apply N.Div0.div_le_upper_bound. nia. Qed.

(** The generator never falls into the fixed point zero: from a seed, the
    state is a nonzero 64-bit word for ever, and so junk lengths and bytes
    keep varying. *)
Theorem xorshift_never_stuck seed n :
  (seed < u64_mod)%N ->
  (0 < nth_state n seed < u64_mod)%N.
Proof.
  intros Hs. induction n as [|n IH]; cbn [nth_state].
  - unfold from_seed, ensure_nonzero. split.
    + apply N.neq_0_lt_0. intros [_ H]%N.lor_eq_0_iff. done.
    + change u64_mod with (2 ^ 64)%N. apply N.log2_lt_pow2; [apply N.neq_0_lt_0; intros [_ H]%N.lor_eq_0_iff; done|].
      rewrite N.log2_lor. apply N.max_lub_lt; [|done].
      destruct (N.eq_0_gt_0_cases seed) as [->|]; [done|by apply N.log2_lt_pow2].
  - destruct IH as [H0 H1]. unfold next_u64, next_state; cbn [snd]. set (x := nth_state n seed) in *.
    set (y := N.lxor x (N.shiftr x 12)). set (z := N.lxor y (wrap64 (N.shiftl y 25))).
    assert (y < u64_mod)%N by (apply lxor_lt; [done|by apply shiftr_lt]).
    assert (z < u64_mod)%N by (apply lxor_lt; [done|apply N.mod_lt; done]).
    split; [|apply lxor_lt; [done|by apply shiftr_lt]].
    apply N.neq_0_lt_0. intros Hz%lxor_shiftr_zero; [|done]. apply lxor_shiftl_zero in Hz; [|done..].
    apply lxor_shiftr_zero in Hz; [|done]. lia.
Qed.

(** A draw stays in its range. *)
Lemma gen_range_bounds state lo hi :
  (lo <= hi < u64_mod)%N -> (hi - lo + 1 < u64_mod)%N ->
  exists v state', gen_range state lo hi = Ret (v, state') /\ (lo <= v <= hi)%N.
Proof.
  intros [Hl Hh] Hs. unfold gen_range. destruct (N.leb_spec hi lo); [exists lo, state; split; [done|lia]|].
  unfold wrap64. rewrite (N.mod_small (hi - lo + 1)) by done. destruct (N.eqb_spec (hi - lo + 1) 0) as [|Hz]; [lia|].
  destruct (next_u64 state) as [v st]. do 2 eexists. split; [done|].
  pose proof (N.mod_lt v (hi - lo + 1) Hz) as Hm. revert Hm. generalize (v mod (hi - lo + 1))%N. intros q Hq. lia.
Qed.

Lemma fill_length state buf : length (fill state buf).1 = length buf.
Proof.
  unfold fill. assert (forall cs st, Forall (fun c => length c <= 8) cs -> length (fill_chunks st cs).1 = length (concat cs)) as H.
  { intros cs. induction cs as [|c cs IH]; intros st HF; cbn [fill_chunks concat]; [done|].
    apply Forall_cons in HF as [Hc HF]. destruct (next_u64 st) as [v st1]. specialize (IH st1 HF).
    destruct (fill_chunks st1 cs) as [rest st2]. cbn [fst] in *.
    rewrite !length_app, IH, length_take, length_rev, length_to_be_bytes. lia. }
  rewrite H; [by rewrite chunks_concat by lia|]. apply Forall_forall. intros c Hc. by apply chunks_length in Hc.
Qed.
End XorShift64.

(** ** A concrete envelope *)

#[local] Instance toy_sip24 : SipHash24 :=
  fun k m => foldr (fun b acc => (b2n b + 251 * acc) mod u64_mod)%N 7%N (k ++ m).

Lemma obfuscate_round_trip_witness :
  exists dg, Obf.obfuscate (map n2b [1; 2; 3]%N) RDV_TYPE (map n2b [9; 8; 7]%N) 4 (map n2b [1; 2; 3; 4; 5; 6; 7; 8]%N) = Some dg /\
    Obf.deobfuscate (map n2b [1; 2; 3]%N) dg = Some (RDV_TYPE, map n2b [9; 8; 7]%N).
Proof.
  pose proof (Obf.obfuscate_round_trip (map n2b [1; 2; 3]%N) RDV_TYPE (map n2b [9; 8; 7]%N) 4
    (map n2b [1; 2; 3; 4; 5; 6; 7; 8]%N) eq_refl) as H.
  destruct (Obf.obfuscate _ _ _ _ _) as [dg|] eqn:E; [|vm_compute in E; discriminate E].
  exists dg. split; [reflexivity|exact (proj2 H)].
Defined.

Lemma round_to_bucket_safe_witness : round_to_bucket 300 (default_buckets Balanced) 1420 = 512 /\
  (512 ∈ default_buckets Balanced \/ 512 = 1420).
Proof.
  split; [reflexivity|].
  destruct (round_to_bucket_safe 300 (default_buckets Balanced) 1420) as [_ H].
  apply H; [discriminate|lia].
Defined.

Lemma xorshift_never_stuck_witness : (0 < XorShift64.nth_state 3 0 < u64_mod)%N.
Proof. apply (XorShift64.xorshift_never_stuck 0 3). reflexivity. Defined.
