(* ===== verification/RdvProto.v ===== *)
(** * The rendezvous protocol

    Models yip-rendezvous/src/proto.rs: the messages between nodes and the
    rendezvous server, their encoder and decoder, and the keyed hash of
    rootless registrations.  The decoder takes fields from the front of the
    datagram and, for most messages, ignores what follows: [accepts] says
    exactly which datagrams decode to a message. *)

From Stdlib Require Strings.Byte.
From Stdlib Require Import NArith Lia.
From stdpp Require Import base numbers gmap list.
From S2P Require Import Prelude Reader NetAddr MemberCodec MemberVerify.

Local Open Scope nat_scope.

(** The ASCII bytes of "yip-rendezvous-v1-reg-auth". *)
Definition DOMAIN_REG_AUTH : list u8 :=
  map n2b [121; 105; 112; 45; 114; 101; 110; 100; 101; 122; 118; 111; 117; 115; 45; 118; 49; 45; 114; 101; 103; 45;
           97; 117; 116; 104]%N.

Section Mac.
Context `{HB : Blake2s}.

Definition compute_register_mac (obf_key node : list u8) (counter : N) : list u8 :=
  blake2s 16 (DOMAIN_REG_AUTH ++ obf_key ++ node ++ to_be_bytes 8 counter).

Definition verify_register_mac (obf_key node : list u8) (counter : N) (mac : list u8) : bool :=
  bool_decide (compute_register_mac obf_key node counter = mac).
End Mac.

Module Rdv.

Inductive Message :=
| Register (node : list u8) (counter : N)
| Lookup (node : list u8)
| PeerInfo (node : list u8) (reflexive : SocketAddr) (record : option Entry)
| NotFound (node : list u8)
| PunchHint (node : list u8) (reflexive : SocketAddr)
| RelaySend (src dst payload : list u8)
| RelayDeliver (src payload : list u8)
| RegisterSigned (record : Entry)
| RegisterAuth (node : list u8) (counter : N) (mac : list u8).

(** The discriminants of [Tag]. *)
Definition tag_of (m : Message) : u8 :=
  match m with
  | Register _ _ => Byte.x00
  | Lookup _ => Byte.x01
  | PeerInfo _ _ _ => Byte.x02
  | NotFound _ => Byte.x03
  | PunchHint _ _ => Byte.x04
  | RelaySend _ _ _ => Byte.x05
  | RelayDeliver _ _ => Byte.x06
  | RegisterSigned _ => Byte.x07
  | RegisterAuth _ _ _ => Byte.x08
  end.

(** [put_record] of proto.rs is the embedding of gossip messages. *)
Definition encode (m : Message) : run (list u8) :=
  let! body :=
    match m with
    | Register node counter => Ret (node ++ to_be_bytes 8 counter)
    | Lookup node | NotFound node => Ret node
    | PeerInfo node reflexive None => Ret (node ++ put_addr reflexive ++ [Byte.x00])
    | PeerInfo node reflexive (Some r) =>
        let! rec := put_record r in Ret (node ++ put_addr reflexive ++ Byte.x01 :: rec)
    | PunchHint node reflexive => Ret (node ++ put_addr reflexive)
    | RelaySend src dst payload => Ret (src ++ dst ++ payload)
    | RelayDeliver src payload => Ret (src ++ payload)
    | RegisterSigned r => put_record r
    | RegisterAuth node counter mac => Ret (node ++ to_be_bytes 8 counter ++ mac)
    end in
  Ret (tag_of m :: body).

(** Take fields from the front of [buf] and go on with what follows them. *)
Definition on_front {A B} (r : reader A) (buf : list u8) (k : A -> list u8 -> option B) : option B :=
  match r buf 0 with Some (a, pos) => k a (drop pos buf) | None => None end.

Definition take_record (buf : list u8) : option Entry := on_front (rd_embedded record_decode) buf (fun r _ => Some r).

Definition rd_node_counter : reader (list u8 * N) :=
  read node := rd_bytes 16 in read counter := rd_be 8 in rd_ret (node, counter).
Definition rd_node_addr : reader (list u8 * SocketAddr) :=
  read node := rd_bytes 16 in read addr := rd_addr in rd_ret (node, addr).
Definition rd_two_nodes : reader (list u8 * list u8) :=
  read src := rd_bytes 16 in read dst := rd_bytes 16 in rd_ret (src, dst).
Definition rd_auth : reader (list u8 * N * list u8) :=
  read nc := rd_node_counter in read mac := rd_bytes 16 in rd_ret (nc, mac).

(** The optional record behind the address of a [PeerInfo]; a legacy datagram
    ends there. *)
Definition take_presence (after_addr : list u8) : option (option Entry) :=
  match after_addr with
  | [] => Some None
  | b :: rest =>
      if decide (b = Byte.x00) then Some None
      else if decide (b = Byte.x01) then option_map Some (take_record rest)
      else None
  end.

Definition decode (buf : list u8) : option Message :=
  match buf with
  | [] => None
  | tag :: rest =>
      if decide (tag = Byte.x00) then on_front rd_node_counter rest (fun x _ => Some (Register x.1 x.2))
      else if decide (tag = Byte.x01) then on_front (rd_bytes 16) rest (fun n _ => Some (Lookup n))
      else if decide (tag = Byte.x03) then on_front (rd_bytes 16) rest (fun n _ => Some (NotFound n))
      else if decide (tag = Byte.x02) then
        on_front rd_node_addr rest (fun x after =>
          match take_presence after with Some record => Some (PeerInfo x.1 x.2 record) | None => None end)
      else if decide (tag = Byte.x04) then on_front rd_node_addr rest (fun x _ => Some (PunchHint x.1 x.2))
      else if decide (tag = Byte.x05) then on_front rd_two_nodes rest (fun x after => Some (RelaySend x.1 x.2 after))
      else if decide (tag = Byte.x06) then on_front (rd_bytes 16) rest (fun n after => Some (RelayDeliver n after))
      else if decide (tag = Byte.x07) then
        match take_record rest with Some r => Some (RegisterSigned r) | None => None end
      else if decide (tag = Byte.x08) then
        if length rest =? 40 then on_front rd_auth rest (fun x _ => Some (RegisterAuth x.1.1 x.1.2 x.2)) else None
      else None
  end.

(** ** Well-formed messages *)

Definition id_wf (n : list u8) : Prop := length n = 16.
Definition carried_wf (r : Entry) : Prop := record_wf r /\ fits16 (length (record_bytes r)).

Definition message_wf (m : Message) : Prop :=
  match m with
  | Register node counter => id_wf node /\ (counter < u64_mod)%N
  | Lookup node | NotFound node => id_wf node
  | PeerInfo node reflexive record =>
      id_wf node /\ addr_wf reflexive /\ match record with Some r => carried_wf r | None => True end
  | PunchHint node reflexive => id_wf node /\ addr_wf reflexive
  | RelaySend src dst _ => id_wf src /\ id_wf dst
  | RelayDeliver src _ => id_wf src
  | RegisterSigned r => carried_wf r
  | RegisterAuth node counter mac => id_wf node /\ (counter < u64_mod)%N /\ id_wf mac
  end.

(** The bytes after the discriminant. *)
Definition body_of (m : Message) : list u8 :=
  match m with
  | Register node counter => node ++ to_be_bytes 8 counter
  | Lookup node | NotFound node => node
  | PeerInfo node reflexive None => node ++ put_addr reflexive ++ [Byte.x00]
  | PeerInfo node reflexive (Some r) => node ++ put_addr reflexive ++ Byte.x01 :: prefixed (record_bytes r)
  | PunchHint node reflexive => node ++ put_addr reflexive
  | RelaySend src dst payload => src ++ dst ++ payload
  | RelayDeliver src payload => src ++ payload
  | RegisterSigned r => prefixed (record_bytes r)
  | RegisterAuth node counter mac => node ++ to_be_bytes 8 counter ++ mac
  end.

(** Which bytes after the discriminant decode to [m]: its own, with anything
    behind them except where the length is fixed or the rest is the payload; a
    [PeerInfo] without record may also end at its address. *)
Definition accepts (m : Message) (rest : list u8) : Prop :=
  match m with
  | RelaySend _ _ _ | RelayDeliver _ _ | RegisterAuth _ _ _ => rest = body_of m
  | PeerInfo node reflexive None => rest = node ++ put_addr reflexive \/ exists junk, rest = body_of m ++ junk
  | _ => exists junk, rest = body_of m ++ junk
  end.

Lemma message_encode_ok m : message_wf m -> encode m = Ret (tag_of m :: body_of m).
Proof.
  assert (forall r, carried_wf r -> put_record r = Ret (prefixed (record_bytes r))) as Hp.
  { intros r [Hr Hl]. unfold put_record. rewrite record_encode_ok by done. cbn [rbind]. by rewrite len16_fits. }
  unfold encode. destruct m as [| |n a [r|]| | | | | r|]; cbn [message_wf body_of rbind]; try done.
  - intros (_ & _ & Hr). by rewrite Hp.
  - intros Hr. by rewrite Hp.
Qed.

(** ** What the decoder accepts *)

Lemma on_front_spec {A B} (r : reader A) wf put (k : A -> list u8 -> option B) buf b :
  reads r (prints wf put) ->
  on_front r buf k = Some b <-> exists a after, wf a /\ buf = put a ++ after /\ k a after = Some b.
Proof.
  intros [Hc Hs]. unfold on_front. split.
  - destruct (r buf 0) as [[a pos]|] eqn:E; [|done]. intros Hk.
    destruct (Hs _ _ _ _ (Nat.le_0_l _) E) as (bs & [Ha ->] & Hd & _ & _). exists a, (drop pos buf).
    by rewrite drop_0 in Hd.
  - intros (a & after & Ha & -> & Hk). specialize (Hc a (put a) [] after (conj Ha eq_refl)). cbn in Hc. rewrite Hc.
    by rewrite drop_app_length.
Qed.

Lemma reads_node_counter :
  reads rd_node_counter (prints (fun x => id_wf x.1 /\ (x.2 < u64_mod)%N) (fun x => x.1 ++ to_be_bytes 8 x.2)).
Proof.
  eapply reads_record.
  - next_field (@fst (list u8) N). next_field (@snd (list u8) N). last_field.
  - unfold id_wf. naive_solver.
  - same_bytes.
Qed.

Lemma reads_node_addr : reads rd_node_addr (prints (fun x => id_wf x.1 /\ addr_wf x.2) (fun x => x.1 ++ put_addr x.2)).
Proof.
  eapply reads_record.
  - next_field (@fst (list u8) SocketAddr). next_field (@snd (list u8) SocketAddr). last_field.
  - unfold id_wf. naive_solver.
  - same_bytes.
Qed.

Lemma reads_two_nodes : reads rd_two_nodes (prints (fun x => id_wf x.1 /\ id_wf x.2) (fun x => x.1 ++ x.2)).
Proof.
  eapply reads_record.
  - next_field (@fst (list u8) (list u8)). next_field (@snd (list u8) (list u8)). last_field.
  - unfold id_wf. naive_solver.
  - same_bytes.
Qed.

#[local] Hint Resolve reads_node_counter : reads.

Lemma reads_auth :
  reads rd_auth (prints (fun x => (id_wf x.1.1 /\ (x.1.2 < u64_mod)%N) /\ id_wf x.2)
                        (fun x => (x.1.1 ++ to_be_bytes 8 x.1.2) ++ x.2)).
Proof.
  eapply reads_record.
  - next_field (@fst (list u8 * N) (list u8)). next_field (@snd (list u8 * N) (list u8)). last_field.
  - unfold id_wf. naive_solver.
  - intros. unfold id. cbn beta. by rewrite app_nil_r.
Qed.

Lemma take_record_spec buf r :
  take_record buf = Some r <-> carried_wf r /\ exists junk, buf = prefixed (record_bytes r) ++ junk.
Proof.
  unfold take_record. rewrite (on_front_spec _ _ _ _ _ _ (reads_embedded _ _ _ record_decode_spec)).
  unfold carried_wf. split.
  - intros (a & after & Ha & -> & [= ->]). eauto.
  - intros [Hr [junk ->]]. eauto.
Qed.

Lemma take_presence_spec after record :
  take_presence after = Some record <->
  match record with
  | None => after = [] \/ exists junk, after = Byte.x00 :: junk
  | Some r => carried_wf r /\ exists junk, after = Byte.x01 :: prefixed (record_bytes r) ++ junk
  end.
Proof.
  unfold take_presence. destruct after as [|b rest].
  { destruct record; [split; [done|]; by intros (_ & ? & ?)|naive_solver]. }
  destruct (decide (b = Byte.x00)) as [->|H0].
  { destruct record; [split; [done|]; by intros (_ & ? & ?)|naive_solver]. }
  destruct (decide (b = Byte.x01)) as [->|H1].
  2: { destruct record; [split; [done|]; intros (_ & ? & ?); congruence|split; [done|]; intros [|[? ?]]; congruence]. }
  pose proof (fun r => take_record_spec rest r) as Hs. destruct (take_record rest) as [r'|] eqn:E; cbn [option_map].
  - destruct record as [r|].
    + split; [intros [= ->]; destruct (proj1 (Hs r) eq_refl) as (? & j & ->); eauto|].
      intros (Hr & j & [= ->]). f_equal. f_equal. assert (Some r' = Some r) by (apply Hs; eauto). congruence.
    + split; [done|]. intros [|[? ?]]; congruence.
  - destruct record as [r|].
    + split; [done|]. intros (Hr & j & [= ->]). exfalso. assert (None = Some r) by (apply Hs; eauto). done.
    + split; [done|]. intros [|[? ?]]; congruence.
Qed.

Lemma decode_sound buf m :
  decode buf = Some m -> message_wf m /\ exists rest, buf = tag_of m :: rest /\ accepts m rest.
Proof.
  destruct buf as [|tag rest]; [done|]. unfold decode.
  destruct (decide (tag = Byte.x00)) as [->|_].
  { rewrite (on_front_spec _ _ _ _ _ _ reads_node_counter). intros ([n c] & junk & [? ?] & -> & [= <-]).
    split; [done|]. eexists. split; [done|]. by exists junk. }
  destruct (decide (tag = Byte.x01)) as [->|_].
  { rewrite (on_front_spec _ _ _ _ _ _ (reads_bytes_p 16)). intros (n & junk & ? & -> & [= <-]).
    split; [done|]. eexists. split; [done|]. by exists junk. }
  destruct (decide (tag = Byte.x03)) as [->|_].
  { rewrite (on_front_spec _ _ _ _ _ _ (reads_bytes_p 16)). intros (n & junk & ? & -> & [= <-]).
    split; [done|]. eexists. split; [done|]. by exists junk. }
  destruct (decide (tag = Byte.x02)) as [->|_].
  { rewrite (on_front_spec _ _ _ _ _ _ reads_node_addr). intros ([n a] & after & [Hn Ha] & -> & E).
    destruct (take_presence after) as [record|] eqn:Ep; [|done]. injection E as <-. cbn [fst snd] in *.
    apply take_presence_spec in Ep. destruct record as [r|].
    - destruct Ep as (Hr & junk & ->). split; [done|]. eexists. split; [done|]. exists junk. cbn. by rewrite <- !app_assoc.
    - split; [done|]. eexists. split; [done|]. destruct Ep as [->|[junk ->]]; [left; by rewrite app_nil_r|right].
      exists junk. cbn. by rewrite <- !app_assoc. }
  destruct (decide (tag = Byte.x04)) as [->|_].
  { rewrite (on_front_spec _ _ _ _ _ _ reads_node_addr). intros ([n a] & junk & [? ?] & -> & [= <-]).
    split; [done|]. eexists. split; [done|]. by exists junk. }
  destruct (decide (tag = Byte.x05)) as [->|_].
  { rewrite (on_front_spec _ _ _ _ _ _ reads_two_nodes). intros ([s d] & pl & [? ?] & -> & [= <-]).
    split; [done|]. eexists. split; [done|]. cbn. by rewrite <- app_assoc. }
  destruct (decide (tag = Byte.x06)) as [->|_].
  { rewrite (on_front_spec _ _ _ _ _ _ (reads_bytes_p 16)). intros (n & pl & ? & -> & [= <-]).
    split; [done|]. eexists. by split. }
  destruct (decide (tag = Byte.x07)) as [->|_].
  { destruct (take_record rest) as [r|] eqn:E; [|done]. intros [= <-]. apply take_record_spec in E as (? & junk & ->).
    split; [done|]. eexists. split; [done|]. by exists junk. }
  destruct (decide (tag = Byte.x08)) as [->|_]; [|done].
  destruct (Nat.eqb_spec (length rest) 40) as [Hl|]; [|done].
  rewrite (on_front_spec _ _ _ _ _ _ reads_auth). intros ([[n c] mac] & junk & [[? ?] ?] & -> & [= <-]).
  cbn [fst snd] in *. unfold id_wf in *. rewrite !length_app, length_to_be_bytes in Hl.
  assert (junk = []) as -> by (apply nil_length_inv; lia). split; [done|]. eexists. split; [done|].
  cbn. by rewrite app_nil_r, <- app_assoc.
Qed.

Lemma decode_complete m rest : message_wf m -> accepts m rest -> decode (tag_of m :: rest) = Some m.
Proof.
  intros Hw Ha. unfold decode.
  destruct m as [n c|n|n a record|n|n a|s d pl|s pl|r|n c mac]; cbn [tag_of message_wf] in *;
    repeat first [rewrite decide_True by done|rewrite decide_False by done].
  - destruct Ha as [junk ->]. apply (on_front_spec _ _ _ _ _ _ reads_node_counter). by exists (n, c), junk.
  - destruct Ha as [junk ->]. apply (on_front_spec _ _ _ _ _ _ (reads_bytes_p 16)). by exists n, junk.
  - apply (on_front_spec _ _ _ _ _ _ reads_node_addr). destruct Hw as (Hn & Hadr & Hr). destruct record as [r|].
    + destruct Ha as [junk ->]. exists (n, a), (Byte.x01 :: prefixed (record_bytes r) ++ junk).
      split; [done|]. split; [cbn [body_of fst snd]; by rewrite <- !app_assoc|]. rewrite (proj2 (take_presence_spec _ (Some r))); eauto.
    + destruct Ha as [->|[junk ->]].
      * exists (n, a), []. split; [done|]. split; [by rewrite app_nil_r|done].
      * exists (n, a), (Byte.x00 :: junk). split; [done|]. split; [cbn [body_of fst snd]; by rewrite <- !app_assoc|done].
  - destruct Ha as [junk ->]. apply (on_front_spec _ _ _ _ _ _ (reads_bytes_p 16)). by exists n, junk.
  - destruct Ha as [junk ->]. apply (on_front_spec _ _ _ _ _ _ reads_node_addr). by exists (n, a), junk.
  - cbn [accepts body_of] in Ha. subst rest. apply (on_front_spec _ _ _ _ _ _ reads_two_nodes). exists (s, d), pl.
    split; [done|]. split; [by rewrite <- app_assoc|done].
  - cbn [accepts body_of] in Ha. subst rest. apply (on_front_spec _ _ _ _ _ _ (reads_bytes_p 16)). by exists s, pl.
  - destruct Ha as [junk ->]. rewrite (proj2 (take_record_spec _ r)); [done|eauto].
  - cbn [accepts body_of] in Ha. subst rest. destruct Hw as (Hn & Hc & Hm). unfold id_wf in *.
    rewrite (proj2 (Nat.eqb_eq _ _)) by (rewrite !length_app, length_to_be_bytes; lia).
    apply (on_front_spec _ _ _ _ _ _ reads_auth). exists (n, c, mac), [].
    split; [done|]. split; [cbn [body_of fst snd]; by rewrite app_nil_r, <- app_assoc|done].
Qed.

(** The rendezvous decoder accepts exactly the datagrams [accepts]
    describes: a message's own encoding (which does not panic), with trailing
    bytes ignored where the format has no payload or fixed length, and the
    legacy form of [PeerInfo]; in particular every well-formed message, with
    the signed record it carries, survives the round trip, and everything
    else is refused. *)
Theorem rdv_decode_exact buf m :
  decode buf = Some m <->
  message_wf m /\ encode m = Ret (tag_of m :: body_of m) /\ exists rest, buf = tag_of m :: rest /\ accepts m rest.
Proof.
  split.
  - intros H. apply decode_sound in H as [Hw Hr]. split; [done|]. split; [by apply message_encode_ok|done].
  - intros (Hw & _ & rest & -> & Ha). by apply decode_complete.
Qed.

(** A message decodes from its own encoding. *)
Lemma accepts_own m : accepts m (body_of m).
Proof. destruct m as [| |? ? [|]| | | | | |]; cbn; try done; try (exists []; by rewrite app_nil_r). right. exists []. by rewrite app_nil_r. Qed.

Lemma rdv_round_trip m : message_wf m -> exists buf, encode m = Ret buf /\ decode buf = Some m.
Proof. intros Hw. eexists. split; [by apply message_encode_ok|]. apply decode_complete; [done|apply accepts_own]. Qed.

End Rdv.
