(* ===== verification/RdvServer.v ===== *)
(** * The rendezvous server

    Models yip-rendezvous/src/server.rs: soft-state registrations with a time
    to live and a freshness counter, rate limits per source, lookups, the blind
    relay, and the rooted mode in which only records verified against the
    network's certificate authorities register.

    The theorems cover whole runs: the memory bounds, the rate limit in terms of
    messages served, the stability of a live registration against replays and
    floods, and what a rooted server may ever answer. *)

From Stdlib Require Strings.Byte.
From Stdlib Require Import NArith Lia.
From stdpp Require Import base numbers gmap list.
From S2P Require Import Prelude Reader NetAddr MemberCodec MemberVerify RdvProto.

Local Open Scope nat_scope.

Definition REGISTRATION_SKEW_SECS : N := 300.
Definition REG_TTL_MS : N := 60000.
Definition MAX_REGISTRATIONS : N := 65536.
Definition MAX_RATE_ENTRIES : N := 131072.
Definition RATE_WINDOW_MS : N := 1000.
Definition MAX_MSGS_PER_WINDOW : nat := 64.

Record Reg := mkReg { addr : SocketAddr; expiry_ms : N; last_counter : N; reg_record : option Entry }.
Record Rate := mkRate { window_start_ms : N; count : nat }.
Record TlsSeen := mkTlsSeen { tls_last_counter : N; tls_expiry_ms : N }.

Record RendezvousServer := mkServer {
  regs : gmap (list u8) Reg;
  rates : gmap SocketAddr Rate;
  tls_seen : gmap (list u8) TlsSeen;
  forwarded : N;
  roots_cfg : option (list (list u8) * list u8);
}.

Definition sat_mul64 (a b : N) : N := N.min (a * b) (u64_mod - 1).

(** The length of a map, compared in [N] with a limit. *)
Definition map_len {K A} `{Countable K} (m : gmap K A) : N := N.of_nat (size m).

Module Server.
Import Rdv.
Section Server.
Context `{HB : Blake2s} `{HE : Ed25519}.
Implicit Types s : RendezvousServer.

Definition set_regs s x := mkServer x (rates s) (tls_seen s) (forwarded s) (roots_cfg s).
Definition set_rates s x := mkServer (regs s) x (tls_seen s) (forwarded s) (roots_cfg s).
Definition set_tls s x := mkServer (regs s) (rates s) x (forwarded s) (roots_cfg s).

(** ** Operations *)

Definition new : RendezvousServer := mkServer ∅ ∅ ∅ 0 None.

Definition new_with_roots (ca_pubkeys : list (list u8)) (net : list u8) : RendezvousServer :=
  mkServer ∅ ∅ ∅ 0 (Some (ca_pubkeys, net)).

Definition record_relay_forward s : RendezvousServer :=
  mkServer (regs s) (rates s) (tls_seen s) (wrap64 (forwarded s + 1)) (roots_cfg s).

Definition verify_signed_record s (r : Entry) (now_secs : N) : run bool :=
  match roots_cfg s with
  | None => Ret false
  | Some (ca_pubkeys, net) =>
      let! v := record_verify r ca_pubkeys net now_secs REGISTRATION_SKEW_SECS in
      if negb (is_ok v) then Ret false
      else
        let now_wall_ms := sat_mul64 now_secs 1000 in
        let skew_ms := sat_mul64 REGISTRATION_SKEW_SECS 1000 in
        let min_seq := (now_wall_ms - sat_add64 REG_TTL_MS skew_ms)%N in
        let max_seq := sat_add64 now_wall_ms skew_ms in
        Ret (negb ((seq r <? min_seq)%N || (max_seq <? seq r)%N))
  end.

Definition rate_ok s (src : SocketAddr) (now_ms : N) : RendezvousServer * bool :=
  if (MAX_RATE_ENTRIES <=? map_len (rates s))%N && bool_decide (rates s !! src = None) then (s, false)
  else
    let r := match rates s !! src with Some r => r | None => mkRate now_ms 0 end in
    let r := if (RATE_WINDOW_MS <=? now_ms - window_start_ms r)%N then mkRate now_ms 0 else r in
    if MAX_MSGS_PER_WINDOW <=? count r then (set_rates s (<[src := r]> (rates s)), false)
    else (set_rates s (<[src := mkRate (window_start_ms r) (count r + 1)]> (rates s)), true).

Definition sweep s (now_ms : N) : RendezvousServer :=
  mkServer (filter (fun x => (now_ms < expiry_ms x.2)%N) (regs s))
           (filter (fun x => (now_ms - window_start_ms x.2 < RATE_WINDOW_MS)%N) (rates s))
           (filter (fun x => (now_ms < tls_expiry_ms x.2)%N) (tls_seen s))
           (forwarded s) (roots_cfg s).

Definition register_if_fresh s (node : list u8) (counter : N) (src : SocketAddr) (now_ms : N) :
    RendezvousServer * bool :=
  if match regs s !! node with
     | Some existing => (now_ms <? expiry_ms existing)%N && (counter <=? last_counter existing)%N
     | None => false
     end then (s, false)
  else if (MAX_REGISTRATIONS <=? map_len (regs s))%N && bool_decide (regs s !! node = None) then (s, false)
  else (set_regs s (<[node := mkReg src (sat_add64 now_ms REG_TTL_MS) counter None]> (regs s)), true).

Definition register_if_fresh_tls s (node : list u8) (counter now_ms : N) : RendezvousServer * bool :=
  if match tls_seen s !! node with
     | Some seen => (now_ms <? tls_expiry_ms seen)%N && (counter <=? tls_last_counter seen)%N
     | None => false
     end then (s, false)
  else (set_tls s (<[node := mkTlsSeen counter (sat_add64 now_ms REG_TTL_MS)]> (tls_seen s)), true).

(** [if let Some(reg) = self.regs.get_mut(&node) { reg.record = Some(record) }] *)
Definition attach_record s (node : list u8) (r : Entry) : RendezvousServer :=
  match regs s !! node with
  | Some reg => set_regs s (<[node := mkReg (addr reg) (expiry_ms reg) (last_counter reg) (Some r)]> (regs s))
  | None => s
  end.

(** The messages of [handle], after the rate limit. *)
Definition dispatch s (src : SocketAddr) (msg : Message) (now_ms now_secs : N) :
    run (RendezvousServer * list (SocketAddr * Message)) :=
  match msg with
  | Register node counter =>
      Ret (match roots_cfg s with
           | Some _ => s
           | None => (register_if_fresh s node counter src now_ms).1
           end, [])
  | RegisterSigned r =>
      let! ok := verify_signed_record s r now_secs in
      Ret (if ok then
             let x := register_if_fresh s (node_id r) (seq r) src now_ms in
             if x.2 then attach_record x.1 (node_id r) r else x.1
           else s, [])
  | RegisterAuth _ _ _ => Ret (s, [])
  | Lookup node =>
      Ret (s, match regs s !! node with
              | Some reg =>
                  if (now_ms <? expiry_ms reg)%N then
                    [(src, PeerInfo node (addr reg) (reg_record reg)); (addr reg, PunchHint node src)]
                  else [(src, NotFound node)]
              | None => [(src, NotFound node)]
              end)
  | RelaySend sender dst payload =>
      Ret (match regs s !! dst with
           | Some reg =>
               if (now_ms <? expiry_ms reg)%N then
                 (record_relay_forward s, [(addr reg, RelayDeliver sender payload)])
               else (s, [])
           | None => (s, [])
           end)
  | PeerInfo _ _ _ | NotFound _ | PunchHint _ _ | RelayDeliver _ _ => Ret (s, [])
  end.

Definition handle s (src : SocketAddr) (msg : Message) (now_ms now_secs : N) :
    run (RendezvousServer * list (SocketAddr * Message)) :=
  let x := rate_ok s src now_ms in
  if x.2 then dispatch x.1 src msg now_ms now_secs else Ret (x.1, []).

(** ** Runs of the socket loop *)

Inductive event :=
| Datagram (src : SocketAddr) (msg : Message) (now_ms now_secs : N)
| SweepTimer (now_ms : N)
| TlsRegister (node : list u8) (counter now_ms : N)
| TlsForward.

Definition step s (e : event) : run (RendezvousServer * list (SocketAddr * Message)) :=
  match e with
  | Datagram src msg now_ms now_secs => handle s src msg now_ms now_secs
  | SweepTimer now_ms => Ret (sweep s now_ms, [])
  | TlsRegister node counter now_ms => Ret ((register_if_fresh_tls s node counter now_ms).1, [])
  | TlsForward => Ret (record_relay_forward s, [])
  end.

(** The server after [es], with everything it sent. *)
Definition run_server s (es : list event) : run (RendezvousServer * list (SocketAddr * Message)) :=
  rfold (fun x e => let! y := step x.1 e in Ret (y.1, x.2 ++ y.2)) es (s, []).

End Server.
End Server.

Lemma map_len_insert {K A} `{Countable K} (m : gmap K A) k a cap :
  (map_len m <= cap)%N -> (cap <=? map_len m)%N && bool_decide (m !! k = None) = false ->
  (map_len (<[k := a]> m) <= cap)%N.
Proof.
  unfold map_len. intros Hm Hc. destruct (m !! k) as [b|] eqn:E.
  - rewrite map_size_insert_Some by eauto. done.
  - rewrite map_size_insert_None by done. rewrite bool_decide_true, andb_true_r in Hc by done.
    apply N.leb_gt in Hc. lia.
Qed.

Lemma map_len_filter {K A} `{Countable K} (P : K * A -> Prop) `{!forall x, Decision (P x)} (m : gmap K A) :
  (map_len (filter P m) <= map_len m)%N.
Proof. unfold map_len. pose proof (map_subseteq_size _ _ (map_filter_subseteq P m)). lia. Qed.

Module ServerWf.
Import Rdv Server.
Section Wf.
Context `{HB : Blake2s} `{HE : Ed25519}.
Implicit Types s : RendezvousServer.

(** What a registration holds: in rooted mode a verified record of its node. *)
Definition reg_ok (cfg : option (list (list u8) * list u8)) (node : list u8) (reg : Reg) : Prop :=
  addr_wf (addr reg) /\
  match cfg with
  | None => reg_record reg = None
  | Some (cas, net) =>
      exists r t, reg_record reg = Some r /\ node_id r = node /\ last_counter reg = seq r /\ carried_wf r /\
                  record_valid r cas net t REGISTRATION_SKEW_SECS
  end.

Record srv_wf s : Prop := {
  sw_regs : (map_len (regs s) <= MAX_REGISTRATIONS)%N;
  sw_rates : (map_len (rates s) <= MAX_RATE_ENTRIES)%N;
  sw_counts src r : rates s !! src = Some r -> count r <= MAX_MSGS_PER_WINDOW;
  sw_reg node reg : regs s !! node = Some reg -> reg_ok (roots_cfg s) node reg;
}.

Lemma rate_ok_wf s src now : srv_wf s -> srv_wf (rate_ok s src now).1.
Proof.
  intros [Hr Ht Hc Hg]. unfold rate_ok. destruct (_ && _) eqn:Ecap; [done|].
  set (r0 := match rates s !! src with Some r => r | None => mkRate now 0 end). set (r1 := if (_ <=? _)%N then _ else r0).
  assert (count r1 <= MAX_MSGS_PER_WINDOW) as H1.
  { clear Ecap. unfold r1. destruct (_ <=? _)%N; [apply Nat.le_0_l|]. unfold r0.
    destruct (rates s !! src) eqn:E; [by eapply Hc|apply Nat.le_0_l]. }
  destruct (Nat.leb_spec MAX_MSGS_PER_WINDOW (count r1)); constructor; cbn; try done;
    try (by apply map_len_insert); intros q r; rewrite lookup_insert_Some; (intros [[_ <-]|[_ ?]]; [cbn [count]; lia|by eapply Hc]).
Qed.

Lemma rate_ok_frame s src now :
  regs (rate_ok s src now).1 = regs s /\ tls_seen (rate_ok s src now).1 = tls_seen s /\
  forwarded (rate_ok s src now).1 = forwarded s /\ roots_cfg (rate_ok s src now).1 = roots_cfg s.
Proof. unfold rate_ok. destruct (_ && _); [done|]. by destruct (_ <=? _). Qed.

Lemma sweep_wf s now : srv_wf s -> srv_wf (sweep s now).
Proof.
  intros [Hr Ht Hc Hg]. constructor; cbn.
  - etransitivity; [apply map_len_filter|done].
  - etransitivity; [apply map_len_filter|done].
  - intros src r. rewrite map_lookup_filter_Some. intros [? _]. by eapply Hc.
  - intros node reg. rewrite map_lookup_filter_Some. intros [? _]. by apply Hg.
Qed.

(** A registration writes the node's entry, or nothing. *)
Lemma register_if_fresh_cases s node c src now :
  (register_if_fresh s node c src now = (s, false)) \/
  (register_if_fresh s node c src now =
     (set_regs s (<[node := mkReg src (sat_add64 now REG_TTL_MS) c None]> (regs s)), true) /\
   (map_len (regs s) <= MAX_REGISTRATIONS ->
    map_len (<[node := mkReg src (sat_add64 now REG_TTL_MS) c None]> (regs s)) <= MAX_REGISTRATIONS)%N /\
   (forall reg, regs s !! node = Some reg -> (expiry_ms reg <= now)%N \/ (last_counter reg < c)%N)).
Proof.
  unfold register_if_fresh. destruct (match regs s !! node with Some x => _ | None => _ end) eqn:Es; [by left|].
  destruct (_ && _) eqn:Ecap; [by left|]. right. split; [done|]. split; [by intros; apply map_len_insert|].
  intros reg Hreg. rewrite Hreg in Es. apply andb_false_iff in Es as [?%N.ltb_ge|?%N.leb_gt]; auto.
Qed.

Lemma map_len_overwrite {A} (m : gmap (list u8) A) k a b : map_len (<[k := a]> (<[k := b]> m)) = map_len (<[k := b]> m).
Proof. unfold map_len. rewrite map_size_insert_Some; [done|]. rewrite lookup_insert_eq. eauto. Qed.

Lemma verify_signed_record_ok s r now :
  record_wf r ->
  exists b, verify_signed_record s r now = Ret b /\
    (b = true -> exists cas net, roots_cfg s = Some (cas, net) /\
                 record_valid r cas net now REGISTRATION_SKEW_SECS).
Proof.
  intros Hw. unfold verify_signed_record. destruct (roots_cfg s) as [[cas net]|]; [|by exists false].
  destruct (record_verify_spec r cas net now REGISTRATION_SKEW_SECS Hw) as (v & -> & Hv). cbn [rbind].
  destruct v as [[]|e]; cbn [is_ok negb]; [|by exists false]. eexists. split; [done|]. intros _.
  exists cas, net. split; [done|]. by apply Hv.
Qed.

(** ** Replies *)

(** What a server with this configuration may send. *)
Definition reply_ok (cfg : option (list (list u8) * list u8)) (x : SocketAddr * Message) : Prop :=
  addr_wf x.1 /\ message_wf x.2 /\
  match x.2 with
  | PeerInfo node _ record =>
      match cfg with
      | None => record = None
      | Some (cas, net) => exists r t, record = Some r /\ node_id r = node /\ record_valid r cas net t REGISTRATION_SKEW_SECS
      end
  | NotFound _ | PunchHint _ _ | RelayDeliver _ _ => True
  | _ => False
  end.

Lemma dispatch_ok s src msg now now_secs :
  srv_wf s -> addr_wf src -> message_wf msg ->
  exists s' out, dispatch s src msg now now_secs = Ret (s', out) /\ srv_wf s' /\ roots_cfg s' = roots_cfg s /\
    rates s' = rates s /\ Forall (reply_ok (roots_cfg s)) out /\ length out <= 2.
Proof.
  intros Hs Hsrc Hm. destruct msg as [n c|n|n a record|n|n a|sr d pl|sr pl|r|n c mac]; cbn [dispatch];
    try (exists s, []; by split_and!; try done; cbn; lia).
  - do 2 eexists. split; [done|]. destruct (roots_cfg s) as [cfg|] eqn:Ecfg; [split_and!; try done; cbn; lia|].
    destruct (register_if_fresh_cases s n c src now) as [->|(-> & Hl & _)]; cbn [fst]; [split_and!; try done; cbn; lia|].
    split_and!; try done; [|cbn; lia]. destruct Hs as [Hr Ht Hc Hg]. constructor; cbn; auto.
    intros node reg. rewrite lookup_insert_Some, Ecfg. intros [[_ <-]|[_ H]]; [done|].
    specialize (Hg _ _ H). by rewrite Ecfg in Hg.
  - exists s. eexists. split; [done|]. split_and!; try done.
    + assert (Forall (reply_ok (roots_cfg s)) [(src, NotFound n)]) as Hnf by (by apply Forall_singleton).
      destruct (regs s !! n) as [reg|] eqn:E; [destruct (_ <? _)%N|]; [|done..].
      destruct (sw_reg s Hs _ _ E) as [Ha Hreg]. apply Forall_cons. split; [|by apply Forall_singleton].
      split; [done|]. cbn [fst snd]. destruct (roots_cfg s) as [[cas net]|].
      * destruct Hreg as (r & t & -> & Hid & _ & Hw & Hv). split; [done|]. by exists r, t.
      * by rewrite Hreg.
    + destruct (regs s !! n); [destruct (_ <? _)%N|]; cbn; lia.
  - destruct Hm as [Hsr Hd]. destruct (regs s !! d) as [reg|] eqn:E; [|exists s, []; split_and!; try done; cbn; lia].
    destruct (_ <? _)%N; [|exists s, []; split_and!; try done; cbn; lia].
    do 2 eexists. split; [done|]. split_and!; try done; [by destruct Hs| |cbn; lia].
    constructor; [|done]. split_and!; try done. by destruct (sw_reg s Hs _ _ E).
  - destruct Hm as [Hw Hf]. destruct (verify_signed_record_ok s r now_secs Hw) as (ok & -> & Hok). cbn [rbind].
    do 2 eexists. split; [done|]. destruct ok; [|split_and!; try done; cbn; lia].
    destruct (Hok eq_refl) as (cas & net & Ecfg & Hv).
    destruct (register_if_fresh_cases s (node_id r) (seq r) src now) as [->|(-> & Hl & _)]; cbn [fst snd];
      [split_and!; try done; cbn; lia|].
    unfold attach_record. cbn [regs set_regs]. rewrite lookup_insert_eq.
    split_and!; try done; [|cbn; lia]. destruct Hs as [Hr Ht Hc Hg]. constructor; cbn; auto.
    + rewrite map_len_overwrite. auto.
    + rewrite insert_insert_eq. intros node reg. rewrite lookup_insert_Some. intros [[<- <-]|[_ H]]; [|by apply Hg].
      split; [done|]. rewrite Ecfg. by exists r, now_secs.
Qed.

Lemma handle_ok s src msg now now_secs :
  srv_wf s -> addr_wf src -> message_wf msg ->
  exists s' out, handle s src msg now now_secs = Ret (s', out) /\ srv_wf s' /\ roots_cfg s' = roots_cfg s /\
    rates s' = rates (rate_ok s src now).1 /\ Forall (reply_ok (roots_cfg s)) out /\ length out <= 2.
Proof.
  intros Hs Hsrc Hm. unfold handle. pose proof (rate_ok_wf s src now Hs) as Hw.
  destruct (rate_ok_frame s src now) as (_ & _ & _ & Ecfg).
  destruct (rate_ok s src now) as [s1 ok]; cbn [fst snd] in *. destruct ok.
  - rewrite <- Ecfg. by apply dispatch_ok.
  - exists s1, []. split_and!; try done; cbn; lia.
Qed.

Definition event_ok (e : event) : Prop :=
  match e with Datagram src msg _ _ => addr_wf src /\ message_wf msg | _ => True end.

Lemma server_step_ok s e :
  srv_wf s -> event_ok e ->
  exists s' out, step s e = Ret (s', out) /\ srv_wf s' /\ roots_cfg s' = roots_cfg s /\
    Forall (reply_ok (roots_cfg s)) out.
Proof.
  intros Hs He. destruct e as [src msg now ns|now|n c now|]; cbn [step].
  - destruct He as [Ha Hm]. destruct (handle_ok s src msg now ns Hs Ha Hm) as (s' & out & -> & ? & ? & _ & ? & _). eauto 6.
  - do 2 eexists. split; [done|]. split_and!; [by apply sweep_wf|done|constructor].
  - do 2 eexists. split; [done|]. unfold register_if_fresh_tls. destruct (match tls_seen s !! n with Some x => _ | None => _ end);
      (split_and!; [by destruct Hs|done|constructor]).
  - do 2 eexists. split; [done|]. split_and!; [by destruct Hs|done|constructor].
Qed.

Lemma run_server_ok es s out :
  srv_wf s -> Forall event_ok es -> Forall (reply_ok (roots_cfg s)) out ->
  exists s' out', rfold (fun x e => let! y := step x.1 e in Ret (y.1, x.2 ++ y.2)) es (s, out) = Ret (s', out') /\
    srv_wf s' /\ roots_cfg s' = roots_cfg s /\ Forall (reply_ok (roots_cfg s)) out'.
Proof.
  intros Hs HF. revert s out Hs. induction HF as [|e es He _ IH]; intros s out Hs Ho; cbn [rfold]; [eauto 6|].
  destruct (server_step_ok s e Hs He) as (s1 & o1 & E & Hs1 & Ec1 & Ho1). cbn [fst snd]. rewrite E. cbn [rbind fst snd].
  destruct (IH s1 (out ++ o1) Hs1) as (s2 & o2 & -> & ? & Ec2 & ?); [rewrite Ec1; by apply Forall_app|].
  exists s2, o2. rewrite <- Ec1 at 2. split_and!; try done; congruence.
Qed.

Lemma new_srv_wf : srv_wf new.
Proof. by constructor; cbn; try (intros ? ?; rewrite lookup_empty). Qed.

Lemma new_with_roots_wf cas net : srv_wf (new_with_roots cas net).
Proof. by constructor; cbn; try (intros ? ?; rewrite lookup_empty). Qed.
End Wf.
End ServerWf.

(** ** Runs *)

Module ServerRuns.
Import Rdv Server ServerWf.
Section Runs.
Context `{HB : Blake2s} `{HE : Ed25519}.
Implicit Types s : RendezvousServer.

(** *** The rate limit *)

(** Whether this event is a datagram of [src] that passes the rate limit. *)
Definition serves s (src : SocketAddr) (e : event) : bool :=
  match e with
  | Datagram a _ now _ => bool_decide (a = src) && (rate_ok s a now).2
  | _ => false
  end.

(** How many datagrams of [src] are served along a run. *)
Fixpoint served (src : SocketAddr) s (es : list event) : nat :=
  match es with
  | [] => 0
  | e :: es =>
      (if serves s src e then 1 else 0) + match step s e with Ret (s', _) => served src s' es | Panic => 0 end
  end.

Definition event_time (e : event) : option N :=
  match e with
  | Datagram _ _ now _ | SweepTimer now | TlsRegister _ _ now => Some now
  | TlsForward => None
  end.

(** What [src] may still be served while the clock stays within [lo, hi]. *)
Definition budget (lo : N) s (src : SocketAddr) : nat :=
  match rates s !! src with
  | None => MAX_MSGS_PER_WINDOW
  | Some r =>
      if (lo <=? window_start_ms r)%N then MAX_MSGS_PER_WINDOW - count r
      else MAX_MSGS_PER_WINDOW - count r + MAX_MSGS_PER_WINDOW
  end.

Lemma budget_rates lo s s' src : rates s' = rates s -> budget lo s' src = budget lo s src.
Proof. unfold budget. by intros ->. Qed.

Lemma rate_ok_budget lo hi s src a now :
  (lo <= now <= hi)%N -> (hi - lo < RATE_WINDOW_MS)%N ->
  (if bool_decide (a = src) && (rate_ok s a now).2 then 1 else 0) + budget lo (rate_ok s a now).1 src <= budget lo s src.
Proof.
  intros Hnow Hw. destruct (decide (a = src)) as [->|Hne].
  2: { rewrite bool_decide_false by done. cbn [andb]. unfold rate_ok. destruct (_ && _); [done|].
       destruct (_ <=? _); unfold budget; cbn [fst rates set_rates]; by rewrite lookup_insert_ne. }
  rewrite bool_decide_true by done. cbn [andb]. unfold rate_ok. destruct (_ && _); [done|].
  destruct (rates s !! src) as [r|] eqn:Er.
  - destruct (N.leb_spec RATE_WINDOW_MS (now - window_start_ms r)); cbn [window_start_ms count].
    + replace (MAX_MSGS_PER_WINDOW <=? 0) with false by done. cbn [fst snd]. unfold budget. cbn [rates set_rates].
      rewrite lookup_insert_eq, Er. cbn [window_start_ms count]. rewrite (proj2 (N.leb_le lo now)) by lia.
      destruct (N.leb_spec lo (window_start_ms r)); [lia|]. unfold MAX_MSGS_PER_WINDOW. lia.
    + destruct (Nat.leb_spec MAX_MSGS_PER_WINDOW (count r)); cbn [fst snd]; unfold budget; cbn [rates set_rates];
        rewrite lookup_insert_eq, Er; cbn [window_start_ms count]; destruct (N.leb_spec lo (window_start_ms r)); lia.
  - cbn [window_start_ms]. rewrite N.sub_diag. replace (RATE_WINDOW_MS <=? 0)%N with false by done. cbn [count].
    replace (MAX_MSGS_PER_WINDOW <=? 0) with false by done. cbn [fst snd]. unfold budget. cbn [rates set_rates].
    rewrite lookup_insert_eq, Er. cbn [window_start_ms count]. rewrite (proj2 (N.leb_le lo now)) by lia.
    unfold MAX_MSGS_PER_WINDOW. lia.
Qed.

Lemma sweep_budget lo hi s src now :
  (lo <= now <= hi)%N -> (hi - lo < RATE_WINDOW_MS)%N -> budget lo (sweep s now) src <= budget lo s src.
Proof.
  intros Hnow Hw. unfold budget, sweep. cbn [rates]. destruct (filter _ (rates s) !! src) as [r|] eqn:E.
  - apply map_lookup_filter_Some in E as [-> _]. done.
  - apply map_lookup_filter_None in E as [->|E]; [done|]. destruct (rates s !! src) as [r|]; [|done].
    specialize (E r eq_refl). cbn in E. destruct (N.leb_spec lo (window_start_ms r)); lia.
Qed.

Lemma served_budget es lo hi s src :
  srv_wf s -> Forall event_ok es ->
  Forall (fun e => match event_time e with Some t => (lo <= t <= hi)%N | None => True end) es ->
  (hi - lo < RATE_WINDOW_MS)%N -> served src s es <= budget lo s src.
Proof.
  intros Hs Hok HF Hw. revert s Hs Hok. induction HF as [|e es He _ IH]; intros s Hs Hok; cbn [served]; [lia|].
  apply Forall_cons in Hok as [Hoe Hok]. destruct (server_step_ok s e Hs Hoe) as (s' & out & E & Hs' & _).
  rewrite E. specialize (IH s' Hs' Hok).
  enough ((if serves s src e then 1 else 0) + budget lo s' src <= budget lo s src) by lia.
  destruct e as [a msg now ns|now|n c now|]; cbn [serves step event_time] in *.
  - destruct Hoe as [Ha Hm]. destruct (handle_ok s a msg now ns Hs Ha Hm) as (s1 & o1 & E1 & _ & _ & Er & _).
    rewrite E1 in E. injection E as <- _. rewrite (budget_rates _ _ _ _ Er). by eapply rate_ok_budget.
  - injection E as <- _. by eapply sweep_budget.
  - injection E as <- _. rewrite (budget_rates lo s); [lia|]. unfold register_if_fresh_tls.
    by destruct (match tls_seen s !! n with Some x => _ | None => _ end).
  - injection E as <- _. rewrite (budget_rates lo s); [lia|done].
Qed.

(** C39: the rate limit holds: in any period shorter than a window, however
    datagrams, sweeps and TLS registrations interleave, at most twice the
    window's budget of one source's datagrams are served. *)
Theorem rate_limit_holds s es src lo hi :
  srv_wf s -> Forall event_ok es ->
  Forall (fun e => match event_time e with Some t => (lo <= t <= hi)%N | None => True end) es ->
  (hi - lo < RATE_WINDOW_MS)%N -> served src s es <= 2 * MAX_MSGS_PER_WINDOW.
Proof.
  intros Hs Hok HF Hw. pose proof (served_budget es lo hi s src Hs Hok HF Hw) as H.
  enough (budget lo s src <= 2 * MAX_MSGS_PER_WINDOW) by lia. unfold budget.
  destruct (rates s !! src) as [r|]; [destruct (_ <=? _)%N|]; lia.
Qed.

(** *** Live registrations *)

(** The event does not carry a fresh registration of [node]. *)
Definition stale_for (node : list u8) (last : N) (e : event) : Prop :=
  match e with
  | Datagram _ (Register n c) _ _ => n = node -> (c <= last)%N
  | Datagram _ (RegisterSigned r) _ _ => node_id r = node -> (seq r <= last)%N
  | _ => True
  end.

Lemma register_other s node c src now n reg :
  regs s !! n = Some reg -> (now < expiry_ms reg)%N -> (node = n -> (c <= last_counter reg)%N) ->
  regs (register_if_fresh s node c src now).1 !! n = Some reg.
Proof.
  intros Hn Hlive Hst. destruct (register_if_fresh_cases s node c src now) as [->|(-> & _ & Hfresh)]; [done|].
  cbn. destruct (decide (node = n)) as [->|]; [|by rewrite lookup_insert_ne].
  specialize (Hst eq_refl). destruct (Hfresh reg Hn); lia.
Qed.

Lemma attach_other s node r n : node <> n -> regs (attach_record s node r) !! n = regs s !! n.
Proof. intros Hne. unfold attach_record. destruct (regs s !! node); [|done]. cbn. by rewrite lookup_insert_ne. Qed.

Lemma register_fails s node c src now reg :
  regs s !! node = Some reg -> (now < expiry_ms reg)%N -> (c <= last_counter reg)%N ->
  register_if_fresh s node c src now = (s, false).
Proof.
  intros Hn Hl Hc. unfold register_if_fresh. rewrite Hn. rewrite (proj2 (N.ltb_lt _ _) Hl), (proj2 (N.leb_le _ _) Hc). done.
Qed.

Lemma dispatch_keeps s src msg now ns s' out node reg :
  dispatch s src msg now ns = Ret (s', out) -> regs s !! node = Some reg -> (now < expiry_ms reg)%N ->
  stale_for node (last_counter reg) (Datagram src msg now ns) -> regs s' !! node = Some reg.
Proof.
  intros E Hn Hl Hst. destruct msg as [n c|n|n a record|n|n a|sr d pl|sr pl|r|n c mac]; cbn [dispatch stale_for] in *;
    try (by injection E as <- _).
  - injection E as <- _. destruct (roots_cfg s); [done|]. by apply register_other.
  - injection E as E. destruct (regs s !! d); [destruct (_ <? _)%N|]; by injection E as <- _.
  - destruct (verify_signed_record s r ns) as [ok|]; [|done]. cbn [rbind] in E. injection E as <- _.
    destruct ok; [|done]. destruct (decide (node_id r = node)) as [Hid|Hne].
    + rewrite (register_fails s (node_id r) (seq r) src now reg); [done|by rewrite Hid|done|auto].
    + destruct (register_if_fresh s (node_id r) (seq r) src now) as [s1 b] eqn:Er. cbn [fst snd].
      assert (regs s1 !! node = Some reg) as H1.
      { pose proof (register_other s (node_id r) (seq r) src now node reg Hn Hl ltac:(done)) as H.
        by rewrite Er in H. }
      destruct b; [by rewrite attach_other|done].
Qed.

Lemma step_keeps s e s' out node reg :
  step s e = Ret (s', out) -> regs s !! node = Some reg ->
  match event_time e with Some t => (t < expiry_ms reg)%N | None => True end ->
  stale_for node (last_counter reg) e -> regs s' !! node = Some reg.
Proof.
  intros E Hn Ht Hst. destruct e as [a msg now ns|now|n c now|]; cbn [step event_time] in *.
  - unfold handle in E. destruct (rate_ok_frame s a now) as (Er & _). rewrite <- Er in Hn.
    destruct (rate_ok s a now) as [s1 ok]; cbn [fst snd] in *. destruct ok; [|by injection E as <- _].
    by eapply dispatch_keeps.
  - injection E as <- _. cbn. apply map_lookup_filter_Some. by split.
  - injection E as <- _. unfold register_if_fresh_tls. by destruct (match tls_seen s !! n with Some x => _ | None => _ end).
  - by injection E as <- _.
Qed.

Lemma run_keeps es s out s' out' node reg :
  rfold (fun x e => let! y := step x.1 e in Ret (y.1, x.2 ++ y.2)) es (s, out) = Ret (s', out') ->
  regs s !! node = Some reg ->
  Forall (fun e => match event_time e with Some t => (t < expiry_ms reg)%N | None => True end /\
                   stale_for node (last_counter reg) e) es ->
  regs s' !! node = Some reg.
Proof.
  intros E Hn HF. revert s out E Hn. induction HF as [|e es [Ht Hst] _ IH]; intros s out E Hn; cbn [rfold] in E.
  - by injection E as <- _.
  - destruct (step s e) as [[s1 o1]|] eqn:Es; cbn [rbind fst snd] in E; rewrite ?Es in E; cbn [rbind fst snd] in E; [|done].
    eapply IH; [exact E|]. by eapply step_keeps.
Qed.

(** A live registration stands: until it expires, no flood, sweep, relay
    traffic, replayed or stale registration changes it, and a lookup that
    passes the rate limit is answered with its address and its record and
    announced to the registered node. *)
Theorem registration_stands s es node reg s' out q now ns :
  regs s !! node = Some reg ->
  Forall (fun e => match event_time e with Some t => (t < expiry_ms reg)%N | None => True end /\
                   stale_for node (last_counter reg) e) es ->
  (now < expiry_ms reg)%N ->
  run_server s es = Ret (s', out) -> (rate_ok s' q now).2 = true ->
  exists s'', handle s' q (Lookup node) now ns =
    Ret (s'', [(q, PeerInfo node (addr reg) (reg_record reg)); (addr reg, PunchHint node q)]).
Proof.
  intros Hn HF Hnow E Hr. pose proof (run_keeps es s [] s' out node reg E Hn HF) as H.
  unfold handle. destruct (rate_ok_frame s' q now) as (Er & _).
  destruct (rate_ok s' q now) as [s1 ok]; cbn [fst snd] in *. subst ok. exists s1. cbn [dispatch].
  rewrite Er, H. by rewrite (proj2 (N.ltb_lt _ _) Hnow).
Qed.

(** *** Expired registrations

    A registration that has expired no longer guards its counter: the same
    registration is accepted again, from any source. *)
Lemma replay_after_expiry s node c src now reg :
  srv_wf s -> regs s !! node = Some reg -> (expiry_ms reg <= now)%N ->
  (register_if_fresh s node c src now).2 = true.
Proof.
  intros Hs Hn He. unfold register_if_fresh. rewrite Hn. rewrite (proj2 (N.ltb_ge _ _) He). cbn [andb].
  rewrite bool_decide_false by done. by rewrite andb_false_r.
Qed.

(** The table of TLS clients has no bound. *)
Lemma tls_seen_grows s node c now :
  tls_seen s !! node = None ->
  (register_if_fresh_tls s node c now).2 = true /\
  size (tls_seen (register_if_fresh_tls s node c now).1) = S (size (tls_seen s)).
Proof. intros Hn. unfold register_if_fresh_tls. rewrite Hn. cbn. by rewrite map_size_insert_None. Qed.

End Runs.
End ServerRuns.
