(* ===== verification/RdvDaemon.v ===== *)
(** * The rendezvous daemon

    Models the datagram loop of bin/yip-rendezvous/src/main.rs around the server
    state machine (deobfuscate, decode, [handle], encode, obfuscate) and the
    classification of the first frame of a TLS connection
    (bin/yip-rendezvous/src/conn.rs).  Padding lengths and nonces, drawn from
    the operating system, are arguments. *)

From Stdlib Require Strings.Byte.
From Stdlib Require Import NArith Lia.
From stdpp Require Import base numbers gmap list.
From S2P Require Import Prelude Reader NetAddr MemberCodec MemberVerify Obf RdvProto RdvServer.

Local Open Scope nat_scope.

(** The size of the receive buffer, and of the largest TLS frame. *)
Definition RX_LEN : nat := 2048.
Definition TLS_FRAME_CAP : nat := 2048.
Definition OBF_PAD_MAX : nat := 64.

Module Daemon.
Import Rdv Server ServerWf Obf.Obf.
Section Daemon.
Context `{HB : Blake2s} `{HE : Ed25519} {SH : SipHash24}.
Implicit Types s : RendezvousServer.

Definition decode_inbound (obf_key : option (list u8)) (dg : list u8) : option Message :=
  match obf_key with
  | Some key =>
      match deobfuscate key dg with
      | Some (pt, body) => if decide (pt = RDV_TYPE) then decode body else None
      | None => None
      end
  | None => decode dg
  end.

(** [pad] is what [random_pad(OBF_PAD_MAX)] returns. *)
Definition wrap_reply (obf_key : option (list u8)) (reply : Message) (pad : nat) (nonce : list u8) : run (list u8) :=
  let! out := encode reply in
  match obf_key with
  | Some key => rexpect (obfuscate key RDV_TYPE out pad nonce)
  | None => Ret out
  end.

(** [wrap_reply] of each reply, with its own padding and nonce. *)
Fixpoint wrap_all (obf_key : option (list u8)) (replies : list (SocketAddr * Message)) (rnd : nat -> nat * list u8) :
    run (list (SocketAddr * list u8)) :=
  match replies with
  | [] => Ret []
  | (dst, reply) :: rest =>
      let! wire := wrap_reply obf_key reply (rnd 0).1 (rnd 0).2 in
      let! wires := wrap_all obf_key rest (fun i => rnd (S i)) in
      Ret ((dst, wire) :: wires)
  end.

(** One turn of the loop on a received datagram: [&rx[..n]] of it arrive. *)
Definition on_datagram (obf_key : option (list u8)) s (src : SocketAddr) (dg : list u8) (now_ms now_secs : N)
    (rnd : nat -> nat * list u8) : run (RendezvousServer * list (SocketAddr * list u8)) :=
  match decode_inbound obf_key (take RX_LEN dg) with
  | None => Ret (s, [])
  | Some msg =>
      let! ' (s, replies) := handle s src msg now_ms now_secs in
      let! wires := wrap_all obf_key replies rnd in
      Ret (s, wires)
  end.

(** ** The TLS front *)

(** [unwrap_or(u16::MAX)] on the length. *)
Definition frame_obf (key : list u8) (msg : Message) (pad : nat) (nonce : list u8) : run (list u8) :=
  let! plain := encode msg in
  let! env := rexpect (obfuscate key RDV_TYPE plain pad nonce) in
  Ret (to_be_bytes 2 (N.min (N.of_nat (length env)) (u16_mod - 1)) ++ env).

Inductive Classify := Upgrade (node reply : list u8) | Decoy.

(** The decoded message of a framed envelope. *)
Definition first_message (buf key : list u8) : option Message :=
  match slice_opt 0 2 buf with
  | None => None
  | Some len_bytes =>
      let len := N.to_nat (from_be_bytes len_bytes) in
      if (len =? 0) || (TLS_FRAME_CAP <? len) then None
      else
        match slice_opt 2 (2 + len) buf with
        | None => None
        | Some env =>
            match deobfuscate key env with
            | None => None
            | Some (ptype, body) => if decide (ptype = RDV_TYPE) then decode body else None
            end
        end
  end.

Definition classify_first_frame_at (buf key : list u8) s (now_ms now_secs : N) (pad : nat) (nonce : list u8) :
    run (RendezvousServer * Classify) :=
  match first_message buf key with
  | None => Ret (s, Decoy)
  | Some msg =>
      match roots_cfg s with
      | Some _ =>
          match msg with
          | RegisterSigned r =>
              let! ok := verify_signed_record s r now_secs in
              if negb ok then Ret (s, Decoy)
              else
                let x := register_if_fresh_tls s (node_id r) (seq r) now_ms in
                if negb x.2 then Ret (x.1, Decoy)
                else let! reply := frame_obf key (RegisterSigned r) pad nonce in Ret (x.1, Upgrade (node_id r) reply)
          | _ => Ret (s, Decoy)
          end
      | None =>
          match msg with
          | RegisterAuth node counter mac =>
              if negb (verify_register_mac key node counter mac) then Ret (s, Decoy)
              else
                let x := register_if_fresh_tls s node counter now_ms in
                if negb x.2 then Ret (x.1, Decoy)
                else
                  let! reply := frame_obf key (RegisterAuth node counter mac) pad nonce in
                  Ret (x.1, Upgrade node reply)
          | _ => Ret (s, Decoy)
          end
      end
  end.

(** ** Sizes *)

Lemma length_put_addr a : addr_wf a -> length (put_addr a) <= 19.
Proof.
  intros [_ H]. unfold put_addr. rewrite length_app, length_to_be_bytes. destruct a; cbn [length]; [|destruct H]; lia.
Qed.

Lemma decode_small buf m : length buf <= RX_LEN -> decode buf = Some m -> message_wf m /\ length (body_of m) <= RX_LEN.
Proof.
  intros Hl H. apply decode_sound in H as (Hw & rest & -> & Ha). split; [done|]. cbn in Hl.
  destruct m as [n c|n|n a [r|]|n|n a|sr d pl|sr pl|r|n c mac]; cbn [accepts] in Ha; try (subst rest; lia);
    try (destruct Ha as [junk ->]; rewrite length_app in Hl; lia).
  destruct Ha as [->|[junk ->]]; [|rewrite length_app in Hl; lia]. cbn [body_of]. rewrite !length_app in *. cbn. lia.
Qed.

Lemma deobfuscate_length key dg pt body : deobfuscate key dg = Some (pt, body) -> length body <= length dg.
Proof.
  unfold deobfuscate. destruct (_ <? _); [done|]. set (region := Wire.Wire.xor_in_place _ _).
  destruct (head region) as [t|]; [|done]. destruct (slice_opt 1 3 region) as [lb|]; [|done].
  destruct (slice_opt 3 _ region) as [b|] eqn:E; [|done]. intros [= -> ->].
  apply slice_opt_Some in E as (Hb & _ & Hl). unfold region in Hb. rewrite Wire.Wire.length_xor_in_place, length_drop in Hb. lia.
Qed.

Lemma decode_inbound_small key dg m :
  length dg <= RX_LEN -> decode_inbound key dg = Some m -> message_wf m /\ length (body_of m) <= RX_LEN.
Proof.
  intros Hl. unfold decode_inbound. destruct key as [k|]; [|by apply decode_small].
  destruct (deobfuscate k dg) as [[pt body]|] eqn:E; [|done]. apply deobfuscate_length in E.
  destruct (decide _); [|done]. apply decode_small. lia.
Qed.

(** A reply is not much longer than the datagram it answers, or than the
    registration it reports. *)
Definition fits_reply (x : SocketAddr * Message) : Prop := length (body_of x.2) <= RX_LEN + 40.

Definition records_fit s : Prop :=
  forall node reg r, regs s !! node = Some reg -> reg_record reg = Some r -> length (prefixed (record_bytes r)) <= RX_LEN.

Lemma handle_sizes s src msg now ns s' out :
  srv_wf s -> records_fit s -> addr_wf src -> message_wf msg -> length (body_of msg) <= RX_LEN ->
  handle s src msg now ns = Ret (s', out) -> records_fit s' /\ Forall fits_reply out.
Proof.
  intros Hs Hr Ha Hm Hl E. unfold handle in E. destruct (rate_ok_frame s src now) as (Er & _).
  pose proof (rate_ok_wf s src now Hs) as Hs1.
  destruct (rate_ok s src now) as [s1 ok]; cbn [fst snd] in *. assert (records_fit s1) as Hr1 by (unfold records_fit; by rewrite Er).
  clear Er Hr Hs s. destruct ok; [|injection E as <- <-; by split].
  destruct msg as [n c|n|n a record|n|n a|sr d pl|sr pl|r|n c mac]; cbn [dispatch] in E;
    try (injection E as <- <-; by split).
  - injection E as <- <-. split; [|done]. destruct (roots_cfg s1); [done|].
    destruct (register_if_fresh_cases s1 n c src now) as [->|(-> & _)]; [done|]. intros node reg r. cbn.
    rewrite lookup_insert_Some. intros [[_ <-]|[_ H]]; [done|by eapply Hr1].
  - injection E as <- <-. split; [done|].
    change (id_wf n) in Hm. unfold id_wf in Hm.
    assert (Forall fits_reply [(src, NotFound n)]) as Hnf
      by (apply Forall_singleton; unfold fits_reply; cbn [snd body_of]; unfold RX_LEN; lia).
    destruct (regs s1 !! n) as [reg|] eqn:En; [destruct (_ <? _)%N|]; [|done..].
    destruct (sw_reg _ Hs1 _ _ En) as [Hadr _]. pose proof (length_put_addr _ Hadr). pose proof (length_put_addr _ Ha).
    apply Forall_cons. split; [|apply Forall_singleton]; unfold fits_reply; cbn [snd body_of].
    + destruct (reg_record reg) as [r|] eqn:Erec; rewrite !length_app, ?length_cons; [|cbn [length]; unfold RX_LEN; lia].
      pose proof (Hr1 _ _ _ En Erec). lia.
    + rewrite length_app. unfold RX_LEN. lia.
  - injection E as E. destruct (regs s1 !! d) as [reg|]; [destruct (_ <? _)%N|]; injection E as <- <-; split; try done.
    apply Forall_singleton. unfold fits_reply. cbn [snd body_of] in *. rewrite !length_app in *. lia.
  - destruct (verify_signed_record s1 r ns) as [ok|]; [|done]. cbn [rbind] in E. injection E as <- <-. split; [|done].
    destruct ok; [|done]. destruct (register_if_fresh_cases s1 (node_id r) (seq r) src now) as [->|(-> & _)]; [done|].
    cbn [fst snd]. unfold attach_record. cbn [regs set_regs]. rewrite lookup_insert_eq. cbn [regs set_regs].
    intros node reg r'. cbn. rewrite insert_insert_eq, lookup_insert_Some.
    intros [[_ <-]|[_ H]]; [by intros [= <-]|by eapply Hr1].
Qed.

Lemma wrap_reply_ok key reply pad nonce :
  message_wf reply -> length (body_of reply) <= RX_LEN + 40 -> length nonce = NONCE_LEN ->
  exists wire, wrap_reply key reply pad nonce = Ret wire /\ decode_inbound key wire = Some reply.
Proof.
  intros Hw Hl Hn. unfold wrap_reply. rewrite message_encode_ok by done. cbn [rbind].
  assert (decode (tag_of reply :: body_of reply) = Some reply) as Hd by (apply decode_complete; [done|apply accepts_own]).
  destruct key as [k|]; [|by eexists]. unfold decode_inbound.
  pose proof (obfuscate_opens k RDV_TYPE (tag_of reply :: body_of reply) pad nonce Hn) as H.
  destruct (obfuscate _ _ _ _ _) as [dg|].
  - exists dg. split; [done|]. destruct H as [_ ->]. by rewrite decide_True.
  - exfalso. unfold RX_LEN in Hl. change u16_mod with 65536%N in H. cbn [length] in H. lia.
Qed.

Lemma wrap_all_ok key replies rnd :
  Forall (fun x => message_wf x.2 /\ fits_reply x) replies -> (forall i, length (rnd i).2 = NONCE_LEN) ->
  exists wires, wrap_all key replies rnd = Ret wires /\
    Forall2 (fun x w => x.1 = w.1 /\ decode_inbound key w.2 = Some x.2) replies wires.
Proof.
  intros HF. revert rnd. induction HF as [|[dst reply] rest [Hw Hf] _ IH]; intros rnd Hn; cbn [wrap_all]; [by exists []|].
  destruct (wrap_reply_ok key reply (rnd 0).1 (rnd 0).2 Hw Hf (Hn 0)) as (w & -> & Hd). cbn [rbind].
  destruct (IH (fun i => rnd (S i)) (fun i => Hn (S i))) as (ws & -> & H2). cbn [rbind].
  eexists. split; [done|]. by constructor.
Qed.

(** ** Runs of the loop *)

Inductive input :=
| Recv (src : SocketAddr) (dg : list u8) (now_ms now_secs : N) (rnd : nat -> nat * list u8)
| SweepTick (now_ms : N).

Definition turn (obf_key : option (list u8)) (x : RendezvousServer * list (SocketAddr * list u8)) (i : input) :
    run (RendezvousServer * list (SocketAddr * list u8)) :=
  match i with
  | Recv src dg now_ms now_secs rnd =>
      let! y := on_datagram obf_key x.1 src dg now_ms now_secs rnd in Ret (y.1, x.2 ++ y.2)
  | SweepTick now_ms => Ret (sweep x.1 now_ms, x.2)
  end.

(** Source addresses the socket reports, and nonces of the right length; the
    datagrams are arbitrary bytes. *)
Definition input_ok (i : input) : Prop :=
  match i with
  | Recv src _ _ _ rnd => addr_wf src /\ forall k, length (rnd k).2 = NONCE_LEN
  | SweepTick _ => True
  end.

(** A datagram a client opens with the same key to an allowed reply. *)
Definition wire_ok (obf_key : option (list u8)) (cfg : option (list (list u8) * list u8)) (w : SocketAddr * list u8) : Prop :=
  exists m, decode_inbound obf_key w.2 = Some m /\ reply_ok cfg (w.1, m).

Lemma on_datagram_ok key s src dg now ns rnd :
  srv_wf s -> records_fit s -> addr_wf src -> (forall k, length (rnd k).2 = NONCE_LEN) ->
  exists s' wires, on_datagram key s src dg now ns rnd = Ret (s', wires) /\ srv_wf s' /\ records_fit s' /\
    roots_cfg s' = roots_cfg s /\ Forall (wire_ok key (roots_cfg s)) wires.
Proof.
  intros Hs Hr Ha Hn. unfold on_datagram.
  destruct (decode_inbound key (take RX_LEN dg)) as [m|] eqn:Ed; [|by exists s, []].
  apply decode_inbound_small in Ed as [Hm Hl]; [|rewrite length_take; lia].
  destruct (handle_ok s src m now ns Hs Ha Hm) as (s' & out & E & Hs' & Ecfg & _ & Hout & _). rewrite E. cbn [rbind].
  destruct (handle_sizes s src m now ns s' out Hs Hr Ha Hm Hl E) as [Hr' Hfit].
  destruct (wrap_all_ok key out rnd) as (wires & -> & H2).
  { apply Forall_forall. intros x Hx. split; [|by apply (proj1 (Forall_forall _ _) Hfit)].
    by destruct (proj1 (Forall_forall _ _) Hout x Hx) as (_ & ? & _). }
  2: { cbn [rbind]. exists s', wires. split_and!; try done. clear -Hout H2.
       induction H2 as [|[d m] [d' w] out ws [E1 E2] _ IH]; [constructor|]. apply Forall_cons in Hout as [Ho Hout].
       constructor; [|by apply IH]. exists m. cbn in *. by subst. }
  done.
Qed.

Lemma turns_ok key inputs s sent :
  srv_wf s -> records_fit s -> Forall input_ok inputs -> Forall (wire_ok key (roots_cfg s)) sent ->
  exists s' sent', rfold (turn key) inputs (s, sent) = Ret (s', sent') /\ srv_wf s' /\ roots_cfg s' = roots_cfg s /\
    Forall (wire_ok key (roots_cfg s)) sent'.
Proof.
  intros Hs Hr HF. revert s sent Hs Hr. induction HF as [|i inputs Hi _ IH]; intros s sent Hs Hr Hsent; cbn [rfold]; [eauto 6|].
  assert (exists s1 w1, turn key (s, sent) i = Ret (s1, sent ++ w1) /\ srv_wf s1 /\ records_fit s1 /\
    roots_cfg s1 = roots_cfg s /\ Forall (wire_ok key (roots_cfg s)) w1) as (s1 & w1 & E1 & Hs1 & Hr1 & Ec1 & Hw1).
  { destruct i as [src dg now ns rnd|now]; cbn [turn fst snd].
    - destruct Hi as [Ha Hn]. destruct (on_datagram_ok key s src dg now ns rnd Hs Hr Ha Hn) as (s1 & w1 & -> & H).
      exists s1, w1. split; [done|exact H].
    - exists (sweep s now), []. rewrite app_nil_r. split_and!; try done; [by apply sweep_wf|].
      intros node reg r. cbn. rewrite map_lookup_filter_Some. intros [? _]. by eapply Hr. }
  rewrite E1. cbn [rbind]. destruct (IH s1 (sent ++ w1) Hs1 Hr1) as (s2 & w2 & -> & ? & Ec2 & ?); [rewrite Ec1; by apply Forall_app|].
  exists s2, w2. rewrite Ec1 in *. by split_and!.
Qed.


(** ** The TLS front *)

Lemma first_message_small buf key m : first_message buf key = Some m -> message_wf m /\ length (body_of m) <= RX_LEN.
Proof.
  unfold first_message. destruct (slice_opt 0 2 buf) as [lb|]; [|done].
  destruct (Nat.eqb_spec (N.to_nat (from_be_bytes lb)) 0); [done|].
  destruct (Nat.ltb_spec TLS_FRAME_CAP (N.to_nat (from_be_bytes lb))); [done|]. cbn [orb].
  destruct (slice_opt 2 _ buf) as [env|] eqn:E; [|done]. apply slice_opt_Some in E as (_ & _ & El).
  destruct (deobfuscate key env) as [[pt body]|] eqn:Ed; [|done]. apply deobfuscate_length in Ed.
  destruct (decide _); [|done]. apply decode_small. unfold TLS_FRAME_CAP, RX_LEN in *. lia.
Qed.

Lemma frame_obf_ok key m pad nonce :
  message_wf m -> length (body_of m) <= RX_LEN -> pad <= OBF_PAD_MAX -> length nonce = NONCE_LEN ->
  exists env, frame_obf key m pad nonce = Ret (to_be_bytes 2 (N.of_nat (length env)) ++ env) /\
    (N.of_nat (length env) < u16_mod)%N /\ decode_inbound (Some key) env = Some m.
Proof.
  intros Hw Hl Hp Hn. unfold frame_obf.
  destruct (wrap_reply_ok (Some key) m pad nonce Hw ltac:(lia) Hn) as (env & E & Hd). unfold wrap_reply in E.
  destruct (encode m) as [plain|] eqn:Ee; [|done]. cbn [rbind] in *. rewrite E. cbn [rbind]. exists env.
  assert (length env = MIN_ENVELOPE + length plain + pad) as Hle.
  { destruct (obfuscate key RDV_TYPE plain pad nonce) eqn:Eo; [|done]. injection E as <-. by eapply length_obfuscate. }
  rewrite message_encode_ok in Ee by done. injection Ee as <-. cbn [length] in Hle.
  unfold MIN_ENVELOPE, NONCE_LEN, OBF_PAD_MAX, RX_LEN in *. change u16_mod with 65536%N.
  split_and!; [|lia|done]. do 3 f_equal. lia.
Qed.

(** What entitles the sender of a first frame to a tunnel. *)
Definition entitled s key (msg : Message) (now_secs : N) (node : list u8) (counter : N) : Prop :=
  match roots_cfg s with
  | Some (cas, net) =>
      exists r, msg = RegisterSigned r /\ node = node_id r /\ counter = seq r /\
                record_valid r cas net now_secs REGISTRATION_SKEW_SECS
  | None => exists mac, msg = RegisterAuth node counter mac /\ mac = compute_register_mac key node counter
  end.

Lemma tls_fresh s node c now :
  (register_if_fresh_tls s node c now).2 = true <->
  forall seen, tls_seen s !! node = Some seen -> (now < tls_expiry_ms seen)%N -> (tls_last_counter seen < c)%N.
Proof.
  unfold register_if_fresh_tls. destruct (tls_seen s !! node) as [seen|]; [|split; [by intros _ ? ?|done]].
  destruct (N.ltb_spec now (tls_expiry_ms seen)); cbn [andb]; [destruct (N.leb_spec c (tls_last_counter seen)); cbn [snd]|].
  - split; [done|]. intros H'. specialize (H' seen eq_refl H). lia.
  - split; [|done]. intros _ ? [= ->]. done.
  - split; [|done]. intros _ ? [= ->] ?. lia.
Qed.

Lemma tls_records s node c now :
  (register_if_fresh_tls s node c now).2 = true ->
  tls_seen (register_if_fresh_tls s node c now).1 !! node = Some (mkTlsSeen c (sat_add64 now REG_TTL_MS)).
Proof.
  unfold register_if_fresh_tls. destruct (match tls_seen s !! node with Some x => _ | None => _ end); [done|].
  intros _. cbn. apply lookup_insert_eq.
Qed.

Lemma classify_frame_ok buf key s now ns pad nonce :
  pad <= OBF_PAD_MAX -> length nonce = NONCE_LEN ->
  exists s' c, classify_first_frame_at buf key s now ns pad nonce = Ret (s', c) /\ roots_cfg s' = roots_cfg s /\
    match c with
    | Decoy => True
    | Upgrade node reply =>
        exists msg counter env, first_message buf key = Some msg /\ entitled s key msg ns node counter /\
          (forall seen, tls_seen s !! node = Some seen -> (now < tls_expiry_ms seen)%N -> (tls_last_counter seen < counter)%N) /\
          tls_seen s' !! node = Some (mkTlsSeen counter (sat_add64 now REG_TTL_MS)) /\
          reply = to_be_bytes 2 (N.of_nat (length env)) ++ env /\ decode_inbound (Some key) env = Some msg
    end.
Proof.
  intros Hp Hn. unfold classify_first_frame_at. destruct (first_message buf key) as [m|] eqn:Em; [|by exists s, Decoy].
  destruct (first_message_small _ _ _ Em) as [Hw Hl].
  assert (forall n c now, roots_cfg (register_if_fresh_tls s n c now).1 = roots_cfg s) as Hcfg.
  { intros n c t. unfold register_if_fresh_tls. by destruct (match tls_seen s !! n with Some x => _ | None => _ end). }
  unfold entitled. destruct (roots_cfg s) as [[cas net]|] eqn:Ecfg.
  - destruct m as [| | | | | | |r|]; try (by exists s, Decoy).
    destruct (verify_signed_record_ok s r ns (proj1 Hw)) as (ok & -> & Hok). cbn [rbind]. destruct ok; cbn [negb]; [|by exists s, Decoy].
    destruct (Hok eq_refl) as (cas' & net' & Ec' & Hv). rewrite Ecfg in Ec'. injection Ec' as <- <-.
    destruct (register_if_fresh_tls s (node_id r) (seq r) now).2 eqn:Ef; cbn [negb]; [|eexists _, Decoy; split; [done|]; by rewrite Hcfg].
    destruct (frame_obf_ok key _ pad nonce Hw Hl Hp Hn) as (env & -> & _ & Hd). cbn [rbind].
    do 2 eexists. split; [done|]. split; [by rewrite Hcfg|]. exists (RegisterSigned r), (seq r), env. split_and!; try done; [by exists r| |].
    + by apply tls_fresh.
    + by apply tls_records.
  - destruct m as [| | | | | | | |n c mac]; try (by exists s, Decoy).
    unfold verify_register_mac. case_bool_decide as Hmac; cbn [negb]; [|by exists s, Decoy].
    destruct (register_if_fresh_tls s n c now).2 eqn:Ef; cbn [negb]; [|eexists _, Decoy; split; [done|]; by rewrite Hcfg].
    destruct (frame_obf_ok key _ pad nonce Hw Hl Hp Hn) as (env & -> & _ & Hd). cbn [rbind].
    do 2 eexists. split; [done|]. split; [by rewrite Hcfg|]. exists (RegisterAuth n c mac), c, env. split_and!; try done; [by exists mac| |].
    + by apply tls_fresh.
    + by apply tls_records.
Qed.

(** The TLS front gives a tunnel only to an entitled sender (a record the
    authorities certified, or the keyed hash of the network secret) whose
    counter is fresh, answers it with a frame that echoes its registration,
    and sends everybody else to the decoy without panicking; the same first
    frame replayed before the registration expires goes to the decoy. *)
Theorem tls_front_admits_once buf key s now ns pad nonce now' ns' pad' nonce' :
  pad <= OBF_PAD_MAX -> length nonce = NONCE_LEN -> pad' <= OBF_PAD_MAX -> length nonce' = NONCE_LEN ->
  (now' < sat_add64 now REG_TTL_MS)%N ->
  exists s' c, classify_first_frame_at buf key s now ns pad nonce = Ret (s', c) /\
    match c with
    | Decoy => True
    | Upgrade node reply =>
        (exists msg counter env, first_message buf key = Some msg /\ entitled s key msg ns node counter /\
           reply = to_be_bytes 2 (N.of_nat (length env)) ++ env /\ decode_inbound (Some key) env = Some msg) /\
        exists s'', classify_first_frame_at buf key s' now' ns' pad' nonce' = Ret (s'', Decoy)
    end.
Proof.
  intros Hp Hn Hp' Hn' Ht. destruct (classify_frame_ok buf key s now ns pad nonce Hp Hn) as (s' & c & E & Ecfg & Hc).
  exists s', c. split; [done|]. destruct c as [node reply|]; [|done].
  destruct Hc as (msg & counter & env & Em & He & _ & Hseen & Hr & Hd). split; [by exists msg, counter, env|].
  destruct (classify_frame_ok buf key s' now' ns' pad' nonce' Hp' Hn') as (s'' & c' & E' & _ & Hc').
  exists s''. rewrite E'. destruct c' as [node' reply'|]; [|done]. exfalso.
  destruct Hc' as (msg' & counter' & env' & Em' & He' & Hfresh & _). rewrite Em in Em'. injection Em' as <-.
  assert (node' = node /\ counter' = counter) as [-> ->].
  { unfold entitled in *. rewrite Ecfg in He'. destruct (roots_cfg s) as [[cas net]|].
    - destruct He as (r & -> & -> & -> & _), He' as (r' & [= <-] & -> & -> & _). done.
    - destruct He as (mac & -> & _), He' as (mac' & [= <- <- _] & _). done. }
  specialize (Hfresh _ Hseen Ht). cbn in Hfresh. lia.
Qed.

End Daemon.
End Daemon.
