(* ===== verification/RdvClient.v ===== *)
(** * The rendezvous client

    Models bin/yipd/src/rendezvous.rs: the [Rendezvous] trait, as a class with
    the contract its users rely on, and its two implementations.  The theorems
    compose the client with the server of RdvServer and the directory of
    Directory: a member's registration is found, with a record the asker can
    verify; and what becomes of the refreshes of a client without records. *)

From Stdlib Require Strings.Byte.
From Stdlib Require Import NArith Lia.
From stdpp Require Import base numbers gmap list.
From S2P Require Import Prelude DataPlane Reader NetAddr MemberCodec MemberVerify Directory RdvProto RdvServer.

Local Open Scope nat_scope.

(** [EgressDatagram] of yip-io/src/poll.rs, for socket addresses. *)
Notation EgressDatagram := (Dp.EgressDatagram (Addr := SocketAddr)).
Notation mkEgress := (Dp.mkDatagram (Addr := SocketAddr)).
Notation dst := (Dp.dst (Addr := SocketAddr)).
Notation bytes := (Dp.bytes (Addr := SocketAddr)).

Inductive RdvEvent :=
| PeerCandidate (node : list u8) (addr : SocketAddr) (record : option Entry)
| PunchTo (node : list u8) (addr : SocketAddr)
| Relayed (src payload : list u8)
| PeerNotFound (node : list u8)
| Ignored.

Class Rendezvous (T : Type) := {
  register : T -> list u8 -> option Entry -> run (option EgressDatagram);
  lookup_node : T -> list u8 -> run EgressDatagram;
  relay : T -> list u8 -> list u8 -> list u8 -> run EgressDatagram;
  parse : T -> list u8 -> RdvEvent;
  server_addr : T -> SocketAddr;
}.

Module Client.
Import Rdv.

Record ConfiguredServerRendezvous := mkConfigured { server : SocketAddr }.
Record TlsRelayRendezvous := mkTlsRelay { relay_addr : SocketAddr }.

Definition to_server (server : SocketAddr) (msg : Message) : run EgressDatagram :=
  let! buf := encode msg in Ret (mkEgress 0 server buf).

Definition parse_datagram (dg : list u8) : RdvEvent :=
  match decode dg with
  | Some (PeerInfo node reflexive record) => PeerCandidate node reflexive record
  | Some (PunchHint node reflexive) => PunchTo node reflexive
  | Some (RelayDeliver src payload) => Relayed src payload
  | Some (NotFound node) => PeerNotFound node
  | _ => Ignored
  end.

#[export] Instance configured_rendezvous : Rendezvous ConfiguredServerRendezvous := {|
  register c node signed :=
    match signed with
    | Some record => let! dg := to_server (server c) (RegisterSigned record) in Ret (Some dg)
    | None => let! dg := to_server (server c) (Register node 0) in Ret (Some dg)
    end;
  lookup_node c node := to_server (server c) (Lookup node);
  relay c src dst payload := to_server (server c) (RelaySend src dst payload);
  parse _ dg := parse_datagram dg;
  server_addr c := server c;
|}.

#[export] Instance tls_relay_rendezvous : Rendezvous TlsRelayRendezvous := {|
  register _ _ _ := Ret None;
  lookup_node c _ := to_server (relay_addr c) (Lookup (replicate 16 Byte.x00));
  relay c src dst payload := to_server (relay_addr c) (RelaySend src dst payload);
  parse _ dg := parse_datagram dg;
  server_addr c := relay_addr c;
|}.

(** ** The contract *)

(** The event a reply stands for. *)
Definition event_of (m : Message) : RdvEvent :=
  match m with
  | PeerInfo node reflexive record => PeerCandidate node reflexive record
  | PunchHint node reflexive => PunchTo node reflexive
  | RelayDeliver src payload => Relayed src payload
  | NotFound node => PeerNotFound node
  | _ => Ignored
  end.

(** The datagram goes to the server, which decodes it to [m]. *)
Definition carries {T} `{Rendezvous T} (c : T) (dg : EgressDatagram) (m : Message) : Prop :=
  dst dg = server_addr c /\ decode (bytes dg) = Some m.

(** What [PeerManager] may rely on, whichever implementation it has. *)
Class RendezvousLaws (T : Type) `{Rendezvous T} : Prop := {
  register_law (c : T) node signed : id_wf node -> match signed with Some r => carried_wf r | None => True end ->
    exists o, register c node signed = Ret o /\
      match o with
      | None => True
      | Some dg => carries c dg (match signed with Some r => RegisterSigned r | None => Register node 0 end)
      end;
  relay_law (c : T) src d payload : id_wf src -> id_wf d ->
    exists dg, relay c src d payload = Ret dg /\ carries c dg (RelaySend src d payload);
  lookup_law (c : T) node : id_wf node ->
    exists dg n, lookup_node c node = Ret dg /\ carries c dg (Lookup n);
  parse_law (c : T) m wire : message_wf m -> encode m = Ret wire -> parse c wire = event_of m;
  parse_wf (c : T) dg node a r : parse c dg = PeerCandidate node a (Some r) -> carried_wf r;
}.

Lemma to_server_ok a m : message_wf m -> exists dg, to_server a m = Ret dg /\ dst dg = a /\ decode (bytes dg) = Some m.
Proof.
  intros Hw. unfold to_server. destruct (rdv_round_trip m Hw) as (buf & -> & Hd). cbn [rbind]. eexists. by split_and!.
Qed.

Lemma parse_datagram_ok m wire : message_wf m -> encode m = Ret wire -> parse_datagram wire = event_of m.
Proof.
  intros Hw E. unfold parse_datagram. destruct (rdv_round_trip m Hw) as (buf & E' & Hd). rewrite E in E'.
  injection E' as <-. rewrite Hd. by destruct m.
Qed.

Lemma parse_datagram_wf dg node a r : parse_datagram dg = PeerCandidate node a (Some r) -> carried_wf r.
Proof.
  unfold parse_datagram. destruct (decode dg) as [m|] eqn:E; [|done]. apply decode_sound in E as [Hw _].
  destruct m; try done. cbn in *. intros [= -> -> ->]. by destruct Hw as (_ & _ & ?).
Qed.

#[export] Instance configured_laws : RendezvousLaws ConfiguredServerRendezvous.
Proof.
  constructor.
  - intros c node [r|] Hn Hs; cbn [register configured_rendezvous].
    + destruct (to_server_ok (server c) (RegisterSigned r) Hs) as (dg & -> & Hd). cbn [rbind]. eexists. split; [done|exact Hd].
    + destruct (to_server_ok (server c) (Register node 0)) as (dg & -> & Hd); [by split|]. cbn [rbind]. eexists. split; [done|exact Hd].
  - intros c src d pl Hs Hd. apply to_server_ok. by split.
  - intros c node Hn. destruct (to_server_ok (server c) (Lookup node) Hn) as (dg & E & H). by exists dg, node.
  - intros c m wire. apply parse_datagram_ok.
  - intros c. apply parse_datagram_wf.
Qed.

#[export] Instance tls_relay_laws : RendezvousLaws TlsRelayRendezvous.
Proof.
  constructor.
  - intros c node signed _ _. by exists None.
  - intros c src d pl Hs Hd. apply to_server_ok. by split.
  - intros c node Hn. destruct (to_server_ok (relay_addr c) (Lookup (replicate 16 Byte.x00)) eq_refl) as (dg & E & H).
    by exists dg, (replicate 16 Byte.x00).
  - intros c m wire. apply parse_datagram_ok.
  - intros c. apply parse_datagram_wf.
Qed.

(** Relaying works end to end for every implementation of the trait: what a
    client hands to [relay] reaches, through a server where the destination
    is registered and whatever happened since, the registered address, and
    the destination's client parses it back to the payload and its sender. *)
Theorem relay_end_to_end `{HB : Blake2s} `{HE : Ed25519} {T U} `{RendezvousLaws T} `{RendezvousLaws U}
    (a : T) (b : U) s q src d payload reg now ns :
  id_wf src -> id_wf d ->
  regs s !! d = Some reg -> (now < expiry_ms reg)%N -> (Server.rate_ok s q now).2 = true ->
  exists dg m s' wire, relay a src d payload = Ret dg /\ decode (bytes dg) = Some m /\
    Server.handle s q m now ns = Ret (s', [(addr reg, RelayDeliver src payload)]) /\
    forwarded s' = wrap64 (forwarded s + 1) /\
    encode (RelayDeliver src payload) = Ret wire /\ parse b wire = Relayed src payload.
Proof.
  intros Hsrc Hd Hreg Hlive Hrate. destruct (relay_law a src d payload Hsrc Hd) as (dg & Er & _ & Hdec).
  exists dg, (RelaySend src d payload). unfold Server.handle.
  destruct (ServerWf.rate_ok_frame s q now) as (Erg & _ & Ef & _).
  destruct (Server.rate_ok s q now) as [s1 ok]; cbn [fst snd] in *. subst ok. cbn [Server.dispatch].
  rewrite Erg, Hreg, (proj2 (N.ltb_lt _ _) Hlive). destruct (rdv_round_trip (RelayDeliver src payload) Hsrc) as (wire & Ew & _).
  eexists _, wire. split_and!; try done; [cbn; by rewrite Ef|]. by apply (parse_law b (RelayDeliver src payload)).
Qed.

(** ** Registration in a mesh *)

(** The registration counter of [PeerManager::tick]. *)
Definition next_reg_seq (reg_seq wall_ms : N) : N := sat_add64 (N.max reg_seq wall_ms) 1.

Section Mesh.
Context `{HB : Blake2s} `{HBL : !Blake2sLaws} `{HE : Ed25519} `{HEL : !Ed25519Laws}.
Implicit Types s : RendezvousServer.
Import Server ServerWf ServerRuns.

(** The server takes the registration: it is fresh and there is room. *)
Definition accepts_registration s (node : list u8) (counter now : N) : Prop :=
  (forall reg, regs s !! node = Some reg -> (expiry_ms reg <= now)%N \/ (last_counter reg < counter)%N) /\
  ((map_len (regs s) < MAX_REGISTRATIONS)%N \/ is_Some (regs s !! node)).

Lemma register_accepted s node c src now :
  accepts_registration s node c now ->
  register_if_fresh s node c src now =
    (set_regs s (<[node := mkReg src (sat_add64 now REG_TTL_MS) c None]> (regs s)), true).
Proof.
  intros [Hf Hroom]. unfold register_if_fresh.
  replace (match regs s !! node with Some existing => _ | None => false end) with false.
  2: { destruct (regs s !! node) as [reg|]; [|done]. symmetry. apply andb_false_iff.
       destruct (Hf reg eq_refl); [left; by apply N.ltb_ge|right; by apply N.leb_gt]. }
  replace ((MAX_REGISTRATIONS <=? map_len (regs s))%N && bool_decide (regs s !! node = None)) with false; [done|].
  symmetry. apply andb_false_iff. destruct Hroom as [H|[reg ->]]; [left; by apply N.leb_gt|right; done].
Qed.

(** The counter of a mesh node's next registration is newer than the one the
    server holds, so every refresh is taken. *)
Lemma mesh_refresh_taken s node reg sq wall src now :
  regs s !! node = Some reg -> (last_counter reg <= sq)%N -> (N.max sq wall + 1 < u64_mod)%N ->
  (register_if_fresh s node (next_reg_seq sq wall) src now).2 = true.
Proof.
  intros Hr Hl Hb. rewrite register_accepted; [done|]. split; [|right; by eexists].
  intros reg' Hr'. rewrite Hr in Hr'. injection Hr' as <-. right. unfold next_reg_seq, sat_add64, sat_add. lia.
Qed.

(** The window in which the server takes a record's sequence number. *)
Definition seq_in_window (sq now_secs : N) : Prop :=
  (now_secs * 1000 + 300000 < u64_mod)%N /\ (now_secs * 1000 <= sq + 360000)%N /\ (sq <= now_secs * 1000 + 300000)%N.

Lemma verify_signed_accepts s r cas net ns :
  roots_cfg s = Some (cas, net) -> record_wf r -> record_valid r cas net ns REGISTRATION_SKEW_SECS ->
  seq_in_window (seq r) ns -> verify_signed_record s r ns = Ret true.
Proof.
  intros Ecfg Hw Hv (Hns & Hlo & Hhi). unfold verify_signed_record. rewrite Ecfg.
  destruct (record_verify_spec r cas net ns REGISTRATION_SKEW_SECS Hw) as (v & -> & Hvv). cbn [rbind].
  rewrite (proj2 Hvv Hv). cbn [is_ok negb]. f_equal.
  assert (sat_mul64 ns 1000 = ns * 1000)%N as -> by (unfold sat_mul64; lia).
  change (sat_mul64 REGISTRATION_SKEW_SECS 1000) with 300000%N.
  change (sat_add64 REG_TTL_MS 300000) with 360000%N.
  assert (sat_add64 (ns * 1000) 300000 = ns * 1000 + 300000)%N as -> by (unfold sat_add64, sat_add; lia).
  rewrite (proj2 (N.ltb_ge _ _)), (proj2 (N.ltb_ge _ _)) by lia. done.
Qed.

Lemma handle_signed s r src now ns cas net :
  roots_cfg s = Some (cas, net) -> record_wf r -> record_valid r cas net ns REGISTRATION_SKEW_SECS ->
  seq_in_window (seq r) ns -> accepts_registration s (node_id r) (seq r) now -> (rate_ok s src now).2 = true ->
  exists s', handle s src (RegisterSigned r) now ns = Ret (s', []) /\
    regs s' !! node_id r = Some (mkReg src (sat_add64 now REG_TTL_MS) (seq r) (Some r)).
Proof.
  intros Ecfg Hw Hv Hsq Hacc Hr. unfold handle. destruct (rate_ok_frame s src now) as (Er & _ & _ & Ec).
  destruct (rate_ok s src now) as [s1 ok]; cbn [fst snd] in *. subst ok. cbn [dispatch].
  rewrite (verify_signed_accepts s1 r cas net ns) by (by rewrite ?Ec). cbn [rbind].
  rewrite register_accepted by (unfold accepts_registration; by rewrite Er). cbn [fst snd].
  eexists. split; [done|]. unfold attach_record. cbn [regs set_regs]. rewrite lookup_insert_eq. cbn.
  by rewrite lookup_insert_eq.
Qed.

(** A member is found: a record it signs for registration reaches a rooted
    server through its client and is accepted; as long as it has not expired,
    whatever else the server does, a lookup by another member's client is
    answered with the address the server saw and that record, and the asker's
    directory verifies the record. *)
Theorem mesh_lookup_end_to_end skew mA mB sq s addrA now ns cas net a b :
  DirWf.announceable (own_cert mA) (own_endpoints mA) ->
  member_sign_pubkey (own_cert mA) = ed_public (sign_priv mA) -> (sq < u64_mod)%N ->
  roots_cfg s = Some (cas, net) -> addr_wf addrA ->
  cert_valid (own_cert mA) cas net ns REGISTRATION_SKEW_SECS -> seq_in_window sq ns ->
  accepts_registration s (node_id_of (member_pubkey (own_cert mA))) sq now -> (rate_ok s addrA now).2 = true ->
  exists r dg s1, Dir.sign_registration mA sq = Ret r /\
    register (mkConfigured a) (node_id r) (Some r) = Ret (Some dg) /\ dst dg = a /\
    decode (bytes dg) = Some (RegisterSigned r) /\
    handle s addrA (RegisterSigned r) now ns = Ret (s1, []) /\
    forall es s2 out q now2 ns2 nsB,
      Forall (fun e => match event_time e with Some t => (t < sat_add64 now REG_TTL_MS)%N | None => True end /\
                       stale_for (node_id r) sq e) es ->
      run_server s1 es = Ret (s2, out) -> (now2 < sat_add64 now REG_TTL_MS)%N -> (rate_ok s2 q now2).2 = true ->
      cert_valid (own_cert mA) (ca_pubkeys mB) (m_network_id mB) nsB skew ->
      exists s3 wire rest,
        handle s2 q (Lookup (node_id r)) now2 ns2 = Ret (s3, (q, PeerInfo (node_id r) addrA (Some r)) :: rest) /\
        encode (PeerInfo (node_id r) addrA (Some r)) = Ret wire /\
        parse (mkConfigured b) wire = PeerCandidate (node_id r) addrA (Some r) /\
        Dir.verify_record skew mB r nsB = Ret true.
Proof.
  intros (Hcw & Heps & He & Hl) Hkey Hsq Ecfg HaA Hcv Hwin Hacc Hrate. unfold Dir.sign_registration.
  assert (fits16 (length (cert_bytes (own_cert mA)))) as Hcl by (unfold fits16 in *; lia).
  destruct (build_signed_record_valid (own_cert mA) (own_endpoints mA) sq (sign_priv mA) cas net ns REGISTRATION_SKEW_SECS)
    as (r & Er & Hw & Ec & Ee & Es & Hv); try done.
  assert (node_id r = node_id_of (member_pubkey (own_cert mA))) as En by (rewrite (rv_id _ _ _ _ _ Hv), Ec; done).
  assert (carried_wf r) as Hcar.
  { split; [done|]. rewrite DirWf.length_record_bytes, Ec, Ee by done. done. }
  destruct (to_server_ok a (RegisterSigned r) Hcar) as (dg & Edg & Hdst & Hdec).
  destruct (handle_signed s r addrA now ns cas net Ecfg Hw Hv) as (s1 & E1 & Hreg); [by rewrite Es|by rewrite En, Es|done|].
  exists r, dg, s1. split_and!; try done.
  { cbn [register configured_rendezvous server]. by rewrite Edg. }
  intros es s2 out q now2 ns2 nsB HF Erun Ht Hr2 HcvB.
  pose proof (run_keeps es s1 [] s2 out (node_id r) _ Erun Hreg) as Hreg2. cbn in Hreg2. rewrite Es in Hreg2. specialize (Hreg2 HF).
  unfold handle. destruct (rate_ok_frame s2 q now2) as (Erg & _). destruct (rate_ok s2 q now2) as [s3 ok]; cbn [fst snd] in *.
  subst ok. cbn [dispatch]. rewrite Erg, Hreg2. cbn [expiry_ms addr reg_record]. rewrite (proj2 (N.ltb_lt _ _) Ht).
  assert (message_wf (PeerInfo (node_id r) addrA (Some r))) as Hpw by (split_and!; [apply Hw|done|apply Hcar..]).
  destruct (rdv_round_trip _ Hpw) as (wire & Ew & _). do 3 eexists. split; [done|]. split; [exact Ew|].
  split; [by apply (parse_datagram_ok (PeerInfo (node_id r) addrA (Some r)))|].
  destruct (DirWf.verify_record_ok skew mB r nsB Hw) as (ok & -> & Hok). f_equal. apply Hok.
  destruct Hv as [_ Hsig Hid]. constructor; [|done..]. rewrite Ec. eapply cert_valid_mono; [|exact HcvB]. apply DirWf.trust_incl.
Qed.

(** ** Registration without records *)

(** A client without membership records cannot refresh its registration: the
    datagram [register] makes always has counter zero, and the server ignores
    it while the first one lives, so neither the expiry nor the address moves,
    whoever sends it. The binding lapses when it expires, however often the
    client refreshes it. *)
Theorem legacy_refresh_ignored s node reg c src now ns :
  srv_wf s -> id_wf node -> addr_wf src -> regs s !! node = Some reg -> (now < expiry_ms reg)%N ->
  exists dg m s', register (mkConfigured c) node None = Ret (Some dg) /\ decode (bytes dg) = Some m /\
    handle s src m now ns = Ret (s', []) /\ regs s' !! node = Some reg.
Proof.
  intros Hs Hn Ha Hreg Hlive. destruct (to_server_ok c (Register node 0)) as (dg & Edg & _ & Hdec); [by split|].
  assert (message_wf (Register node 0)) as Hw by (by split).
  destruct (handle_ok s src (Register node 0) now ns Hs Ha Hw) as (s' & out & E & _).
  exists dg, (Register node 0), s'. cbn [register configured_rendezvous server]. rewrite Edg. split_and!; try done.
  - rewrite E. unfold handle in E. destruct (rate_ok s src now) as [s1 ok]; cbn [fst snd] in *.
    destruct ok; [cbn [dispatch] in E|]; injection E as _ <-; done.
  - eapply (step_keeps s (Datagram src (Register node 0) now ns)); [exact E|done|done|]. cbn. intros _. lia.
Qed.
End Mesh.
End Client.
