(* ===== verification/DirSafe.v ===== *)
(** * Directories that cannot fail

    The part of a directory's invariant that keeps its operations from
    panicking: every entry, and the node's own announcement, can be encoded.
    Unlike the invariant of Directory it needs nothing of the member keys, so
    the peer manager can rely on it whatever arrives. *)

From Stdlib Require Strings.Byte.
From Stdlib Require Import NArith Lia.
From stdpp Require Import base numbers gmap list.
From S2P Require Import Prelude Reader NetAddr MemberCodec MemberVerify Directory RdvProto.

Local Open Scope nat_scope.

Module DirSafe.
Import Dir DirWf.
Section Safe.
Context `{HB : Blake2s} `{HBL : !Blake2sLaws} `{HE : Ed25519} `{HEL : !Ed25519Laws}.
Context `{HI : HashIter} `{HIL : !HashIterLaws} (skew : N) (eps : list SocketAddr).
Implicit Types (m : Membership) (r : Entry).

Record mem_safe m : Prop := {
  ms_entry nid r : directory m !! nid = Some r -> Rdv.carried_wf r /\ length nid = 16;
  ms_own : announceable (own_cert m) eps;
  ms_eps : own_endpoints m = eps;
}.

(** The directory changed, the node did not. *)
Definition same_node m m' : Prop := own_cert m' = own_cert m /\ own_endpoints m' = own_endpoints m.

Lemma mem_safe_sub m m' :
  mem_safe m -> same_node m m' -> (forall nid r, directory m' !! nid = Some r -> directory m !! nid = Some r) -> mem_safe m'.
Proof. intros [He Ho Hp] [E1 E2] Hs. constructor; [eauto| |congruence]. by rewrite E1. Qed.

Lemma insert_record_safe m r : mem_safe m -> Rdv.carried_wf r -> mem_safe (insert_record m r).
Proof.
  intros [He Ho Hp] Hr. constructor; [|done..]. intros nid r'. cbn. rewrite lookup_insert_Some.
  intros [[<- <-]|[_ H]]; [|eauto]. split; [done|]. apply Hr.
Qed.

Lemma evict_all_safe (l : list (list u8 * Entry)) m (b : bool) :
  mem_safe m -> mem_safe (fold_left (fun s x => let r := evict s.1 x.1 in (r.1, s.2 || r.2)) l (m, b)).1.
Proof.
  revert m b. induction l as [|x l IH]; intros m b Hm; cbn [fold_left]; [done|]. apply IH. cbn [fst].
  unfold evict. destruct (directory m !! x.1) eqn:E; [|done]. apply (mem_safe_sub m); [done..|].
  cbn. intros nid r'. by intros [_ H]%lookup_delete_Some.
Qed.

Lemma member_verify_cert_safe m c pk now : cert_wf c -> exists b, member_verify_cert skew m c pk now = Ret b.
Proof.
  intros Hc. unfold member_verify_cert. destruct (verify_cert_spec c (ca_pubkeys m) (m_network_id m) pk now skew Hc) as (v & -> & _).
  by eexists.
Qed.

Lemma sweep_expired_safe m now : mem_safe m -> exists m' b, sweep_expired skew m now = Ret (m', b) /\ mem_safe m'.
Proof.
  intros Hm. unfold sweep_expired.
  destruct (rfilter_ok (entry_expired skew m now) (fun x => exists b, entry_expired skew m now x = Ret b /\ b = true)
    (hash_iter (map_to_list (directory m)))) as (ex & -> & _).
  { intros [nid r]. rewrite hash_iter_perm, elem_of_map_to_list. intros Hr. unfold entry_expired. cbn [fst snd].
    case_bool_decide as Ho; [exists false; naive_solver|]. destruct (ms_entry m Hm _ _ Hr) as [[Hw _] _].
    destruct (verify_cert_spec (cert r) (ca_pubkeys m) (m_network_id m) (member_pubkey (cert r)) now skew
      (rw_cert _ Hw)) as (v & -> & Hv). cbn [rbind]. eexists. split; [done|]. naive_solver. }
  cbn [rbind]. pose proof (evict_all_safe ex m false Hm) as H.
  cbn [fst] in H |- *. destruct (fold_left _ ex (m, false)) as [m' b]. by exists m', b.
Qed.

Lemma ingest_record_safe m r now : mem_safe m -> Rdv.carried_wf r -> exists x, ingest_record skew m r now = Ret x /\ mem_safe x.1.
Proof.
  intros Hm Hr. unfold ingest_record. destruct (sweep_expired_safe m now Hm) as (m1 & b & -> & H1). cbn [rbind].
  destruct (verify_record_ok skew m1 r now (proj1 Hr)) as (ok & -> & _). cbn [rbind].
  destruct ok; [|by exists (m1, b)]. eexists. split; [done|]. unfold insert_if_newer.
  destruct (_ !! _) as [r0|]; [destruct (_ <=? _)%N; [done|]|]; by apply insert_record_safe.
Qed.

Lemma ingest_all_safe recs m now :
  mem_safe m -> Forall Rdv.carried_wf recs -> exists m', ingest_all skew m recs now = Ret m' /\ mem_safe m'.
Proof.
  intros Hm HF. unfold ingest_all.
  destruct (rfold_inv mem_safe (fun m r => let! x := ingest_record skew m r now in Ret x.1) recs m Hm) as (m' & E & H); [|eauto].
  intros s r Hr Hs. destruct (ingest_record_safe s r now Hs) as (x & -> & Hx); [by apply (proj1 (Forall_forall _ _) HF)|].
  by exists x.1.
Qed.

Lemma on_gossip_safe m msg now :
  mem_safe m -> gossip_wf msg ->
  exists m' replies, on_gossip skew m msg now = Ret (m', replies) /\ mem_safe m' /\ Forall gossip_wf replies.
Proof.
  intros Hm Hmsg. destruct msg as [es|ids|recs]; cbn [on_gossip].
  - exists m. eexists. split; [done|]. split; [done|].
    destruct (wanted m es) as [|w ws] eqn:Ew; constructor; [|done].
    destruct Hmsg as [Hl HF]. split.
    + pose proof (wanted_length m es). rewrite Ew in *. unfold fits16 in *. lia.
    + apply Forall_forall. intros nid Hn. rewrite <- Ew in Hn. apply wanted_spec in Hn as (s & Hin & _).
      by apply (proj1 (Forall_forall _ _) HF (nid, s)).
  - exists m. eexists. split; [done|]. split; [done|]. rewrite Forall_map, Forall_forall. intros c Hc. split.
    + apply chunks_length in Hc. unfold MAX_GOSSIP_RECORDS_PER_REPLY in Hc. unfold fits16. change u16_mod with 65536%N. lia.
    + apply Forall_forall. intros r Hr. apply (chunks_elem _ _ _ r) in Hc; [|unfold MAX_GOSSIP_RECORDS_PER_REPLY; lia|done].
      apply list_elem_of_omap in Hc as (nid & _ & Hd). by apply (ms_entry m Hm nid).
  - destruct (ingest_all_safe recs m now Hm) as (m' & -> & Hw); [by destruct Hmsg|]. by exists m', [].
Qed.

Lemma tick_digest_safe m now_ms obf jitter :
  mem_safe m -> mem_safe (tick_digest m now_ms obf jitter).1 /\ Forall gossip_wf (tick_digest m now_ms obf jitter).2.
Proof.
  intros Hm. unfold tick_digest. set (b := match last_digest_ms m with Some _ => _ | None => _ end).
  destruct b; cbn [fst snd]; [done|]. split; [by destruct Hm|].
  rewrite Forall_map, Forall_forall. intros c Hc. split.
  - apply chunks_length in Hc. unfold MAX_GOSSIP_DIGEST_ENTRIES in Hc. unfold fits16. change u16_mod with 65536%N. lia.
  - rewrite Forall_forall. intros e He. apply (chunks_elem _ _ _ e) in Hc; [|unfold MAX_GOSSIP_DIGEST_ENTRIES; lia|done].
    apply list_elem_of_fmap in Hc as ([nid r] & -> & Hin). rewrite hash_iter_perm, elem_of_map_to_list in Hin.
    destruct (ms_entry m Hm _ _ Hin) as [[Hw _] Hl]. split; [done|apply Hw].
Qed.

(** ** The node's own record *)

Lemma announce_safe c sq sk :
  announceable c eps -> (sq < u64_mod)%N -> exists r, build_signed_record c eps sq sk = Ret r /\ Rdv.carried_wf r.
Proof.
  intros Ha Hs. destruct (own_record_ok (fun _ => True) c eps sq sk Ha I Hs) as (r & E & (Hw & Hl & _) & _). by exists r.
Qed.

Lemma sign_registration_safe m sq :
  mem_safe m -> (sq < u64_mod)%N -> exists r, sign_registration m sq = Ret r /\ Rdv.carried_wf r.
Proof. intros [_ Ho Hp] Hs. unfold sign_registration. rewrite Hp. by apply announce_safe. Qed.

Lemma own_cert_bytes_safe m : mem_safe m -> exists b, own_cert_bytes m = Ret b.
Proof. intros [_ (Hc & _) _]. unfold own_cert_bytes. rewrite cert_encode_ok by done. by eexists. Qed.

Lemma update_own_cert_safe m c :
  mem_safe m -> announceable c eps -> exists x, update_own_cert m c = Ret x /\ mem_safe x.1.
Proof.
  intros Hm Ha. pose proof (ms_eps m Hm) as Ep. unfold update_own_cert. cbn [directory own_node_id own_endpoints sign_priv set_own_cert]. rewrite Ep.
  set (nxt := match directory m !! own_node_id m with Some r => _ | None => _ end).
  assert (nxt < u64_mod)%N as Hn.
  { unfold nxt. destruct (_ !! _); [unfold sat_add64, sat_add, u64_mod; lia|done]. }
  destruct (announce_safe c nxt (sign_priv m) Ha Hn) as (r & -> & Hr). cbn [rbind].
  eexists. split; [done|]. apply insert_record_safe; [|done]. destruct Hm. by constructor.
Qed.

Lemma member_or_admitted_safe m pk na now :
  mem_safe m -> exists b, member_or_admitted_cert_valid skew m pk na now = Ret b.
Proof.
  intros Hm. unfold member_or_admitted_cert_valid. destruct (existsb _ _); [by eexists|].
  destruct (directory m !! _) as [r|] eqn:E; [|destruct na; by eexists].
  apply member_verify_cert_safe. destruct (ms_entry m Hm _ _ E) as [[Hw _] _]. apply Hw.
Qed.

End Safe.
End DirSafe.
