(* ===== verification/RdvExamples.v ===== *)
(** * Rendezvous examples

    Concrete servers, registrations, lookups and TLS frames at which the theorems
    of RdvServer, RdvDaemon and RdvClient apply. *)

From Stdlib Require Strings.Byte.
From Stdlib Require Import NArith Lia.
From stdpp Require Import base numbers gmap list.
From S2P Require Import Prelude Reader NetAddr MemberCodec MemberVerify Directory DirGossip.
From S2P Require Import Obf RdvProto RdvServer RdvDaemon RdvClient.

Local Open Scope nat_scope.

#[local] Existing Instance toy_blake.
#[local] Existing Instance toy_ed.
#[local] Existing Instance toy_sip24.

Import Rdv Server ServerWf ServerRuns Daemon Client.

Definition alice_addr : SocketAddr := SockV4 (map n2b [198; 51; 100; 7]%N) 41000.
Definition bob_addr : SocketAddr := SockV4 (map n2b [203; 0; 113; 9]%N) 52000.
Definition alice : list u8 := replicate 16 (n2b 1).
Definition bob : list u8 := replicate 16 (n2b 2).
Definition nonces (i : nat) : nat * list u8 := (3, replicate 8 (n2b (N.of_nat i))).

Lemma rate_limit_holds_witness :
  let es := [Datagram bob_addr (Lookup alice) 0 0; SweepTimer 1; Datagram bob_addr (Lookup bob) 999 0] in
  served bob_addr new es = 2 /\ served bob_addr new es <= 2 * MAX_MSGS_PER_WINDOW.
Proof.
  split; [vm_compute; reflexivity|].
  apply (rate_limit_holds new _ bob_addr 0 999); [apply new_srv_wf| | |reflexivity].
  - repeat (constructor; [by repeat split|]). constructor.
  - repeat (constructor; [cbn; try done; lia|]). constructor.
Defined.

(** Alice is registered; Bob replays her registration and the timer runs. *)
Definition alice_reg : Reg := mkReg alice_addr 60000 5 None.
Definition alice_server : RendezvousServer := mkServer {[alice := alice_reg]} ∅ ∅ 0 None.

Lemma alice_server_wf : srv_wf alice_server.
Proof.
  constructor.
  - by vm_compute.
  - by vm_compute.
  - intros src r H. destruct (lookup_empty_Some (M := gmap SocketAddr) src r H).
  - intros node reg H. apply (lookup_singleton_Some (M := gmap (list u8)) alice node alice_reg reg) in H as [<- <-]. by repeat split.
Qed.

Definition replays : list event := [Datagram bob_addr (Register alice 5) 100 0; SweepTimer 200].

Lemma registration_stands_witness :
  exists s' out s'', run_server alice_server replays = Ret (s', out) /\
    handle s' bob_addr (Lookup alice) 300 0 =
      Ret (s'', [(bob_addr, PeerInfo alice alice_addr None); (alice_addr, PunchHint alice bob_addr)]).
Proof.
  assert (match run_server alice_server replays with Ret (s', _) => (rate_ok s' bob_addr 300).2 | Panic => false end = true)
    as Hr by (vm_compute; reflexivity).
  destruct (run_server alice_server replays) as [[s' out]|] eqn:E; [|discriminate Hr].
  destruct (registration_stands alice_server replays alice alice_reg s' out bob_addr 300 0) as [s'' H].
  - apply lookup_singleton_eq.
  - repeat (constructor; [cbn; split; [lia|intros; try done; lia]|]). constructor.
  - reflexivity.
  - exact E.
  - exact Hr.
  - exists s', out, s''. split; [reflexivity|exact H].
Defined.


(** The first frame of a client that knows the network key. *)
Definition obf_demo_key : list u8 := replicate 16 (n2b 9).
Definition auth_frame : list u8 :=
  match frame_obf obf_demo_key (RegisterAuth alice 7 (compute_register_mac obf_demo_key alice 7)) 2 (replicate 8 (n2b 4)) with
  | Ret f => f
  | Panic => []
  end.

Lemma tls_front_admits_once_witness :
  exists s' reply s'', classify_first_frame_at auth_frame obf_demo_key new 0 0 1 (replicate 8 (n2b 1)) = Ret (s', Upgrade alice reply) /\
    classify_first_frame_at auth_frame obf_demo_key s' 59999 0 1 (replicate 8 (n2b 2)) = Ret (s'', Decoy).
Proof.
  destruct (tls_front_admits_once auth_frame obf_demo_key new 0 0 1 (replicate 8 (n2b 1)) 59999 0 1 (replicate 8 (n2b 2)))
    as (s' & c & E & H); [unfold OBF_PAD_MAX; lia|reflexivity|unfold OBF_PAD_MAX; lia|reflexivity|reflexivity|].
  assert (match classify_first_frame_at auth_frame obf_demo_key new 0 0 1 (replicate 8 (n2b 1)) with
          | Ret (_, Upgrade n _) => bool_decide (n = alice) | _ => false end = true) as Hu by (vm_compute; reflexivity).
  rewrite E in Hu. destruct c as [n reply|]; [|discriminate Hu]. apply bool_decide_eq_true in Hu as ->.
  destruct H as [_ [s'' H]]. exists s', reply, s''. split; [exact E|exact H].
Defined.

Lemma relay_end_to_end_witness :
  exists dg m s' wire, relay (mkConfigured bob_addr) bob alice [Byte.x07] = Ret dg /\ decode (bytes dg) = Some m /\
    handle alice_server bob_addr m 300 0 = Ret (s', [(alice_addr, RelayDeliver bob [Byte.x07])]) /\
    encode (RelayDeliver bob [Byte.x07]) = Ret wire /\ parse (mkTlsRelay bob_addr) wire = Relayed bob [Byte.x07].
Proof.
  destruct (relay_end_to_end (mkConfigured bob_addr) (mkTlsRelay bob_addr) alice_server bob_addr bob alice [Byte.x07] alice_reg 300 0)
    as (dg & m & s' & wire & H1 & H2 & H3 & _ & H4 & H5); [reflexivity|reflexivity|apply lookup_singleton_eq|reflexivity|reflexivity|].
  exists dg, m, s', wire. split; [exact H1|]. split; [exact H2|]. split; [exact H3|]. split; [exact H4|exact H5].
Defined.

Lemma legacy_refresh_ignored_witness :
  exists dg m s', register (mkConfigured bob_addr) alice None = Ret (Some dg) /\ decode (bytes dg) = Some m /\
    handle alice_server alice_addr m 20000 0 = Ret (s', []) /\ regs s' !! alice = Some alice_reg.
Proof.
  destruct (legacy_refresh_ignored alice_server alice alice_reg bob_addr alice_addr 20000 0)
    as (dg & m & s' & H1 & H2 & H3 & H4);
    [apply alice_server_wf|reflexivity|by repeat split|apply lookup_singleton_eq|reflexivity|].
  exists dg, m, s'. split; [exact H1|]. split; [exact H2|]. split; [exact H3|exact H4].
Defined.

(** Member 1 registers with a rooted server; member 2 looks it up. *)
Definition rooted_server : RendezvousServer := new_with_roots [demo_ca] demo_network.

Lemma demo_cert_valid_at : cert_valid (demo_cert 1) [demo_ca] demo_network 500 300.
Proof.
  constructor; [exists demo_ca; split; [left|]| | |]; by vm_compute.
Qed.

Lemma mesh_lookup_end_to_end_witness :
  exists r dg s1, Dir.sign_registration (DirDemo.demo_node 1) 500001 = Ret r /\
    register (mkConfigured bob_addr) (node_id r) (Some r) = Ret (Some dg) /\
    handle rooted_server alice_addr (RegisterSigned r) 0 500 = Ret (s1, []) /\
    exists s3 wire rest,
      handle s1 bob_addr (Lookup (node_id r)) 100 500 = Ret (s3, (bob_addr, PeerInfo (node_id r) alice_addr (Some r)) :: rest) /\
      encode (PeerInfo (node_id r) alice_addr (Some r)) = Ret wire /\
      parse (mkConfigured alice_addr) wire = PeerCandidate (node_id r) alice_addr (Some r) /\
      Dir.verify_record 300 (DirDemo.demo_node 2) r 500 = Ret true.
Proof.
  destruct (mesh_lookup_end_to_end (HBL := toy_blake_laws) (HEL := toy_ed_laws) 300 (DirDemo.demo_node 1) (DirDemo.demo_node 2)
    500001 rooted_server alice_addr 0 500 [demo_ca] demo_network bob_addr alice_addr)
    as (r & dg & s1 & H1 & H2 & _ & _ & H3 & H4).
  - apply DirDemo.demo_announceable.
  - reflexivity.
  - reflexivity.
  - reflexivity.
  - by repeat split.
  - exact demo_cert_valid_at.
  - split; [reflexivity|]. split; lia.
  - split; [|left; reflexivity]. intros reg H. destruct (lookup_empty_Some (M := gmap (list u8)) _ reg H).
  - reflexivity.
  - exists r, dg, s1. split; [exact H1|]. split; [exact H2|]. split; [exact H3|].
    apply (H4 [] s1 [] bob_addr 100%N 500%N 500%N); [constructor|reflexivity|reflexivity| |exact demo_cert_valid_at].
    assert (match Dir.sign_registration (DirDemo.demo_node 1) 500001 with
            | Ret r => match handle rooted_server alice_addr (RegisterSigned r) 0 500 with
                       | Ret (s1, _) => (rate_ok s1 bob_addr 100).2 | Panic => false end
            | Panic => false end = true) as Hr by (vm_compute; reflexivity).
    rewrite H1, H3 in Hr. exact Hr.
Defined.
