(* ===== verification/EpochSet.v ===== *)
(** * Session epochs

    Models bin/yipd/src/epoch.rs: the live data plane of a peer, the responder's
    unconfirmed next one and the superseded one, and their rotation; and the
    rekey part of bin/yipd/src/peer_manager/rekey.rs: the schedule of the
    initiator, the responder's gate on handshake initiations and the
    initiator's completion.

    Data planes are used through [Plane], the operations epochs need of them;
    DataPlane is one instance, and EpochProtocol uses another.  The state of a
    Noise handshake is an opaque type. *)

From Stdlib Require Strings.Byte.
From Stdlib Require Import NArith Lia Floats.SpecFloat.
From stdpp Require Import base numbers gmap list.
From S2P Require Import Prelude.

Local Open Scope nat_scope.

Definition PREVIOUS_EPOCH_GRACE_MS : N := 15000.
Definition HANDSHAKE_TOTAL_MS : N := 90000.

Inductive EpochInbound (Pkt : Type) :=
| InNone
| InTun (inner : list u8)
| InSend (pkts : list Pkt)
| InTunThenSend (inner : list u8) (pkts : list Pkt).
Arguments InNone {Pkt}.
Arguments InTun {Pkt} inner.
Arguments InSend {Pkt} pkts.
Arguments InTunThenSend {Pkt} inner pkts.

Definition is_none {Pkt} (x : EpochInbound Pkt) : bool := match x with InNone => true | _ => false end.

(** What the epochs use of a data plane; [Dg] is a received datagram. *)
Class Plane (D Dg Addr Pkt : Type) := {
  plane_open : D -> Dg -> N -> run (D * EpochInbound Pkt);
  plane_set_addr : D -> Addr -> run D;
  plane_set_ratio : D -> spec_float -> D;
}.

Record RekeyInFlight (Hs Addr : Type) := mkRekey {
  hs : Hs;
  init_pkt : list u8;
  started_ms : N;
  last_sent_ms : N;
  retry_ms : N;
  target : Addr;
}.
Arguments mkRekey {Hs Addr}.
Arguments hs {Hs Addr} _.
Arguments init_pkt {Hs Addr} _.
Arguments started_ms {Hs Addr} _.
Arguments last_sent_ms {Hs Addr} _.
Arguments retry_ms {Hs Addr} _.
Arguments target {Hs Addr} _.

Record NextEpoch (D Eph Resp : Type) := mkNext { next_dp : D; init_eph : Eph; cached_resp : Resp }.
Arguments mkNext {D Eph Resp}.
Arguments next_dp {D Eph Resp} _.
Arguments init_eph {D Eph Resp} _.
Arguments cached_resp {D Eph Resp} _.

Record EpochSet (D Eph Resp Hs Addr : Type) := mkEpochs {
  current : D;
  current_created_ms : N;
  next : option (NextEpoch D Eph Resp);
  previous : option D;
  previous_retire_ms : N;
  rekey : option (RekeyInFlight Hs Addr);
  epoch : N;
}.
Arguments mkEpochs {D Eph Resp Hs Addr}.
Arguments current {D Eph Resp Hs Addr} _.
Arguments current_created_ms {D Eph Resp Hs Addr} _.
Arguments next {D Eph Resp Hs Addr} _.
Arguments previous {D Eph Resp Hs Addr} _.
Arguments previous_retire_ms {D Eph Resp Hs Addr} _.
Arguments rekey {D Eph Resp Hs Addr} _.
Arguments epoch {D Eph Resp Hs Addr} _.

Module Epochs.
Section Epochs.
Context {D Dg Addr Pkt Eph Resp Hs : Type} `{P : Plane D Dg Addr Pkt} `{EqDecision Eph}.
Notation EpochSet := (EpochSet D Eph Resp Hs Addr).
Implicit Types s : EpochSet.

(** ** Operations *)

Definition new (cur : D) (now_ms : N) : EpochSet := mkEpochs cur now_ms None None 0 None 1.

Definition set_current s (d : D) : EpochSet :=
  mkEpochs d (current_created_ms s) (next s) (previous s) (previous_retire_ms s) (rekey s) (epoch s).
Definition set_next s (n : option (NextEpoch D Eph Resp)) : EpochSet :=
  mkEpochs (current s) (current_created_ms s) n (previous s) (previous_retire_ms s) (rekey s) (epoch s).
Definition set_previous s (p : option D) : EpochSet :=
  mkEpochs (current s) (current_created_ms s) (next s) p (previous_retire_ms s) (rekey s) (epoch s).
Definition set_rekey s (r : option (RekeyInFlight Hs Addr)) : EpochSet :=
  mkEpochs (current s) (current_created_ms s) (next s) (previous s) (previous_retire_ms s) r (epoch s).

Definition set_fec_repair_ratio s (ratio : spec_float) : EpochSet :=
  let s := set_current s (plane_set_ratio (current s) ratio) in
  match next s with
  | Some n => set_next s (Some (mkNext (plane_set_ratio (next_dp n) ratio) (init_eph n) (cached_resp n)))
  | None => s
  end.

Definition set_peer_addr s (addr : Addr) : run EpochSet :=
  let! d := plane_set_addr (current s) addr in
  let s := set_current s d in
  let! s := match next s with
            | Some n => let! d := plane_set_addr (next_dp n) addr in
                        Ret (set_next s (Some (mkNext d (init_eph n) (cached_resp n))))
            | None => Ret s
            end in
  let! s := match previous s with
            | Some p => let! d := plane_set_addr p addr in Ret (set_previous s (Some d))
            | None => Ret s
            end in
  Ret (match rekey s with
       | Some rk => set_rekey s (Some (mkRekey (hs rk) (init_pkt rk) (started_ms rk) (last_sent_ms rk) (retry_ms rk) addr))
       | None => s
       end).

(** The switch of [inbound_open]: next becomes current, current previous. *)
Definition promote_next s (new_dp : D) (now_ms : N) : EpochSet :=
  mkEpochs new_dp now_ms None (Some (current s)) (sat_add64 now_ms PREVIOUS_EPOCH_GRACE_MS) (rekey s)
    (sat_add64 (epoch s) 1).

(** The last try of [inbound_open]. *)
Definition open_previous s (dg : Dg) (now_ms : N) : run (EpochSet * EpochInbound Pkt) :=
  match previous s with
  | Some p => let! ' (p, out) := plane_open p dg now_ms in Ret (set_previous s (Some p), out)
  | None => Ret (s, InNone)
  end.

Definition inbound_open s (dg : Dg) (now_ms : N) : run (EpochSet * EpochInbound Pkt) :=
  let! ' (d, out) := plane_open (current s) dg now_ms in
  let s := set_current s d in
  if negb (is_none out) then Ret (s, out)
  else
    match next s with
    | Some n =>
        let! ' (d, out) := plane_open (next_dp n) dg now_ms in
        if negb (is_none out) then Ret (promote_next s d now_ms, out)
        else open_previous (set_next s (Some (mkNext d (init_eph n) (cached_resp n)))) dg now_ms
    | None => open_previous s dg now_ms
    end.

Definition promote_from_rekey s (new_dp : D) (now_ms : N) : EpochSet :=
  mkEpochs new_dp now_ms (next s) (Some (current s)) (sat_add64 now_ms PREVIOUS_EPOCH_GRACE_MS) None
    (sat_add64 (epoch s) 1).

Definition install_next s (new_dp : D) (eph : Eph) (resp : Resp) : EpochSet :=
  set_next s (Some (mkNext new_dp eph resp)).

Definition next_cached_resp_for s (eph : Eph) : option Resp :=
  match next s with
  | Some n => if decide (init_eph n = eph) then Some (cached_resp n) else None
  | None => None
  end.

Definition retire_previous_if_due s (now_ms : N) : EpochSet :=
  if match previous s with Some _ => true | None => false end && (previous_retire_ms s <=? now_ms)%N
  then set_previous s None else s.

Definition needs_rekey s (now_ms : N) (is_glare_winner : bool) (interval_ms : N) : bool :=
  match rekey s with
  | Some _ => false
  | None =>
      let age := (now_ms - current_created_ms s)%N in
      if is_glare_winner then (interval_ms <=? age)%N
      else (N.min (interval_ms * 2) (u64_mod - 1) <=? age)%N
  end.

(** ** The initiator's schedule

    [start] is what [HandshakeState::start_initiator] returns, [retry] the
    (jittered) interval, [target] the peer's endpoint or the server. *)
Definition drive_rekey_schedule s (start : option (Hs * list u8)) (tgt : option Addr) (retry : N) (winner : bool)
    (interval now_ms : N) : EpochSet * option (list u8) :=
  match rekey s with
  | None =>
      if negb (needs_rekey s now_ms winner interval) then (s, None)
      else
        match tgt, start with
        | Some a, Some (h, pkt) => (set_rekey s (Some (mkRekey h pkt now_ms now_ms retry a)), Some pkt)
        | _, _ => (s, None)
        end
  | Some rk =>
      if (HANDSHAKE_TOTAL_MS <=? now_ms - started_ms rk)%N then (set_rekey s None, None)
      else if (now_ms - last_sent_ms rk <? retry_ms rk)%N then (s, None)
      else (set_rekey s (Some (mkRekey (hs rk) (init_pkt rk) (started_ms rk) now_ms retry (target rk))),
            Some (init_pkt rk))
  end.
End Epochs.
End Epochs.

(** ** The responder's gate

    The fields of a peer that [rekey_init_core] uses. *)
Record RekeyPeer (D Eph Resp Hs Addr : Type) := mkPeer {
  epochs : EpochSet D Eph Resp Hs Addr;
  peer_cached_resp : option Resp;
  cached_resp_init_eph : option Eph;
  last_accepted_init_ts : option N;
}.
Arguments mkPeer {D Eph Resp Hs Addr}.
Arguments epochs {D Eph Resp Hs Addr} _.
Arguments peer_cached_resp {D Eph Resp Hs Addr} _.
Arguments cached_resp_init_eph {D Eph Resp Hs Addr} _.
Arguments last_accepted_init_ts {D Eph Resp Hs Addr} _.

Module Rekey.
Section Rekey.
Context {D Dg Addr Pkt Eph Resp Hs : Type} `{P : Plane D Dg Addr Pkt} `{EqDecision Eph}.
Notation RekeyPeer := (RekeyPeer D Eph Resp Hs Addr).

(** Labels (TAI64N timestamps) compare as big-endian numbers. *)
Definition accept_fresh_init (boot_floor_ts : N) (p : RekeyPeer) (ts : N) : bool :=
  match last_accepted_init_ts p with
  | None => (boot_floor_ts <? ts)%N
  | Some last => (last <? ts)%N
  end.

(** [dp] is the data plane of the session the handshake has established, [resp]
    its response.  The answer is the reply to send; whether it goes out directly
    or wrapped for the relay does not touch the peer. *)
Definition rekey_init_core (boot_floor_ts : N) (p : RekeyPeer) (dp : D) (resp : Resp) (eph : Eph) (ts : N) :
    RekeyPeer * option Resp :=
  if decide (cached_resp_init_eph p = Some eph) then (p, peer_cached_resp p)
  else
    match Epochs.next_cached_resp_for (epochs p) eph with
    | Some cached => (p, Some cached)
    | None =>
        if negb (accept_fresh_init boot_floor_ts p ts) then (p, None)
        else (mkPeer (Epochs.install_next (epochs p) dp eph resp) (peer_cached_resp p) (cached_resp_init_eph p) (Some ts),
              Some resp)
    end.

(** [read] is what [read_response] and the check of the responder's certificate
    give: the data plane of the new session, which has already sealed its first
    packets; [None] when either refuses, and the rekey is given up.  The tag
    table, the round-trip estimate and the metrics of the source are outside this
    model; the data plane is also the answer, as the one to prime. *)
Definition rekey_resp_core (s : EpochSet D Eph Resp Hs Addr) (read : RekeyInFlight Hs Addr -> option D) (now_ms : N) :
    EpochSet D Eph Resp Hs Addr * option D :=
  match rekey s with
  | None => (s, None)
  | Some rk =>
      let s := Epochs.set_rekey s None in
      match read rk with
      | None => (s, None)
      | Some dp => (Epochs.promote_from_rekey s dp now_ms, Some dp)
      end
  end.
End Rekey.
End Rekey.
