(* ===== verification/EpochPlane.v ===== *)
(** * Epochs over data planes

    What the epochs need of a data plane ([PlaneLaws]), the invariant of an
    epoch set against that interface, and the data planes of DataPlane as the
    implementation that discharges it. *)

From Stdlib Require Strings.Byte.
From Stdlib Require Import NArith Lia Floats.SpecFloat.
From stdpp Require Import base numbers gmap list.
From S2P Require Import Prelude Gf256 RsSimd FecDelivery Session Wire DataPlane DataPlaneWf EpochSet.

Local Open Scope nat_scope.

Class PlaneLaws (D Dg Addr Pkt : Type) `{Plane D Dg Addr Pkt} (wf : D -> Prop) (clock : N -> Prop) : Prop := {
  plane_open_ok d dg now : wf d -> clock now -> exists d' o, plane_open d dg now = Ret (d', o) /\ wf d';
  plane_set_addr_ok d a : wf d -> exists d', plane_set_addr d a = Ret d' /\ wf d';
  plane_set_ratio_ok d r : wf d -> wf (plane_set_ratio d r);
}.

Module EpochWf.
Import Epochs.
Section Wf.
Context {D Dg Addr Pkt Eph Resp Noise : Type} `{P : Plane D Dg Addr Pkt} `{EqDecision Eph}.
Context (wf : D -> Prop) (clock : N -> Prop) `{L : !PlaneLaws D Dg Addr Pkt wf clock}.
Notation EpochSet := (EpochSet D Eph Resp Noise Addr).
Implicit Types s : EpochSet.

Record epochs_wf s : Prop := {
  ew_current : wf (current s);
  ew_next n : next s = Some n -> wf (next_dp n);
  ew_previous p : previous s = Some p -> wf p;
}.

Lemma epochs_new_wf d now : wf d -> epochs_wf (new d now : EpochSet).
Proof. intros. by constructor. Qed.

Lemma open_previous_ok s dg now :
  epochs_wf s -> clock now -> exists s' o, open_previous s dg now = Ret (s', o) /\ epochs_wf s'.
Proof.
  intros Hs Hnow. pose proof Hs as [Hc Hn Hp]. unfold open_previous.
  destruct (previous s) as [p|] eqn:Ep; [|by exists s, InNone].
  destruct (plane_open_ok p dg now (Hp p eq_refl) Hnow) as (p' & o & -> & Hp'). cbn [rbind]. do 2 eexists. split; [done|].
  constructor; cbn; try done. by intros ? [= <-].
Qed.

Lemma inbound_open_ok s dg now :
  epochs_wf s -> clock now -> exists s' o, inbound_open s dg now = Ret (s', o) /\ epochs_wf s'.
Proof.
  intros [Hc Hn Hp] Hnow. unfold inbound_open.
  destruct (plane_open_ok (current s) dg now Hc Hnow) as (d & o & -> & Hd). cbn [rbind].
  assert (epochs_wf (set_current s d)) as Hs by (by constructor).
  destruct (negb (is_none o)); [by exists (set_current s d), o|]. cbn [next set_current].
  destruct (next s) as [n|] eqn:En; [|by apply open_previous_ok].
  destruct (plane_open_ok (next_dp n) dg now (Hn n eq_refl) Hnow) as (d2 & o2 & -> & Hd2). cbn [rbind].
  destruct (negb (is_none o2)).
  - do 2 eexists. split; [done|]. constructor; cbn; try done. by intros ? [= <-].
  - apply open_previous_ok; [|done]. constructor; cbn; try done. by intros ? [= <-].
Qed.

Lemma epochs_set_addr_ok s a : epochs_wf s -> exists s', set_peer_addr s a = Ret s' /\ epochs_wf s'.
Proof.
  intros [Hc Hn Hp]. unfold set_peer_addr. destruct (plane_set_addr_ok (current s) a Hc) as (d & -> & Hd). cbn [rbind].
  assert (epochs_wf (set_current s d)) as H0 by (by constructor).
  match goal with |- context [rbind ?e _] => assert (exists s1, e = Ret s1 /\ epochs_wf s1 /\ previous s1 = previous s) as (s1 & -> & H1 & E1) end.
  { cbn [next set_current]. destruct (next s) as [n|] eqn:En; [|by exists (set_current s d)].
    destruct (plane_set_addr_ok (next_dp n) a (Hn n eq_refl)) as (d2 & -> & Hd2). cbn [rbind]. eexists. split; [done|].
    split; [|done]. constructor; cbn; try done. by intros ? [= <-]. }
  cbn [rbind].
  match goal with |- context [rbind ?e _] => assert (exists s2, e = Ret s2 /\ epochs_wf s2) as (s2 & -> & H2) end.
  { destruct (previous s1) as [p|] eqn:Ep; [|by eexists].
    destruct (plane_set_addr_ok p a (ew_previous _ H1 p Ep)) as (d3 & -> & Hd3). cbn [rbind]. eexists. split; [done|].
    destruct H1. constructor; cbn; try done. by intros ? [= <-]. }
  cbn [rbind]. eexists. split; [done|]. destruct (rekey s2); [|done]. destruct H2. by constructor.
Qed.

(** What happens to an epoch set. *)
Inductive event :=
| EOpen (dg : Dg) (now : N)
| ERoam (a : Addr)
| ERatio (r : spec_float)
| EInstall (d : D) (eph : Eph) (resp : Resp)
| EPromote (d : D) (now : N)
| ERetire (now : N).

Definition step s (e : event) : run EpochSet :=
  match e with
  | EOpen dg now => let! x := inbound_open s dg now in Ret x.1
  | ERoam a => set_peer_addr s a
  | ERatio r => Ret (set_fec_repair_ratio s r)
  | EInstall d eph resp => Ret (install_next s d eph resp)
  | EPromote d now => Ret (promote_from_rekey s d now)
  | ERetire now => Ret (retire_previous_if_due s now)
  end.

Definition event_ok (e : event) : Prop :=
  match e with
  | EOpen _ now => clock now
  | EInstall d _ _ | EPromote d _ => wf d
  | _ => True
  end.

Lemma epoch_step_ok s e : epochs_wf s -> event_ok e -> exists s', step s e = Ret s' /\ epochs_wf s'.
Proof.
  intros Hs He. destruct e as [dg now|a|r|d eph resp|d now|now]; cbn [step event_ok] in *.
  - destruct (inbound_open_ok s dg now Hs He) as (s' & o & -> & H). by eexists.
  - by apply epochs_set_addr_ok.
  - eexists. split; [done|]. destruct Hs as [Hc Hn Hp]. unfold set_fec_repair_ratio. cbn [next set_current].
    destruct (next s) as [n|] eqn:En; constructor; cbn; try done; try (by apply plane_set_ratio_ok).
    + intros ? [= <-]. by apply plane_set_ratio_ok, Hn.
    + by rewrite En.
  - eexists. split; [done|]. destruct Hs. constructor; cbn; try done. by intros ? [= <-].
  - eexists. split; [done|]. destruct Hs. constructor; cbn; try done. by intros ? [= <-].
  - eexists. split; [done|]. unfold retire_previous_if_due. destruct Hs. destruct (_ && _); by constructor.
Qed.

Lemma epoch_steps_ok es s : epochs_wf s -> Forall event_ok es -> exists s', rfold step es s = Ret s' /\ epochs_wf s'.
Proof.
  intros Hs HF. destruct (rfold_inv epochs_wf step es s Hs) as (s' & E & H); [|by exists s'].
  intros s1 e He Hs1. apply epoch_step_ok; [done|]. by apply (proj1 (Forall_forall _ _) HF).
Qed.

(** Make before break: after a switch, a frame of the superseded session that
    neither the new session nor a pending one opens is opened by the old data
    plane, with the result it would have given, until the grace period ends;
    the retirement timer does not come earlier. *)
Theorem grace_keeps_old_epoch s d0 now0 dg now old out d1 :
  (now < sat_add64 now0 PREVIOUS_EPOCH_GRACE_MS)%N ->
  plane_open (current s) dg now = Ret (old, out) -> out <> InNone ->
  plane_open d0 dg now = Ret (d1, InNone) ->
  (forall n, next s = Some n -> exists d2, plane_open (next_dp n) dg now = Ret (d2, InNone)) ->
  exists s', inbound_open (retire_previous_if_due (promote_from_rekey s d0 now0) now) dg now = Ret (s', out) /\
    current s' = d1 /\ previous s' = Some old.
Proof.
  intros Hnow Eold Hout Enew Hnext. unfold retire_previous_if_due. cbn [previous promote_from_rekey previous_retire_ms andb].
  rewrite (proj2 (N.leb_gt _ _) Hnow). unfold inbound_open. cbn [current promote_from_rekey]. rewrite Enew. cbn [rbind is_none negb].
  cbn [next set_current promote_from_rekey]. destruct (next s) as [n|] eqn:En.
  - destruct (Hnext n eq_refl) as [d2 ->]. cbn [rbind is_none negb]. unfold open_previous. cbn. rewrite Eold. cbn. by eexists.
  - unfold open_previous. cbn. rewrite Eold. cbn. by eexists.
Qed.
End Wf.
End EpochWf.

(** ** The data planes of DataPlane *)

Section DataPlanes.
Context {cpu : Cpu} {aead : Sess.Aead} {sip : SipHash} {Addr : Type} `{EqDecision Addr}.
Notation DP := (Dp.DataPlane (Addr := Addr)).
Notation Dgram := (Dp.EgressDatagram (Addr := Addr)).

(** [EpochSet::own] *)
Definition own (o : Dp.Outcome (Addr := Addr)) : EpochInbound Dgram :=
  match o with
  | Dp.NoOutcome => InNone
  | Dp.TunWrite b => InTun b
  | Dp.Send pkts => InSend pkts
  end.

#[export] Instance dataplane_plane : Plane DP (list u8) Addr Dgram := {|
  plane_open d dg now := let! ' (d, o) := Dp.on_udp_datagram d dg now in Ret (d, own o);
  plane_set_addr d a := Dp.set_peer_addr d a;
  plane_set_ratio d r := Dp.set_fec_repair_ratio d r;
|}.

#[export] Instance dataplane_laws : PlaneLaws DP (list u8) Addr Dgram DpWf.dp_wf DpWf.clock.
Proof.
  constructor; cbn.
  - intros d dg now Hd Hnow. destruct (DpWf.on_udp_ok d dg now Hd Hnow) as (d' & o & -> & H). cbn [rbind]. eauto.
  - intros d a Hd. by apply DpWf.set_peer_addr_ok.
  - intros d r Hd. apply DpWf.set_transport_wf; [done|]. by apply Transport.Tp.set_fec_repair_ratio_wf, Hd.
Qed.

(** A peer's sessions never panic across rotations: any sequence of arbitrary
    datagrams, address changes, redundancy settings, installed and promoted
    data planes and retirements leaves every epoch's data plane well-formed. *)
Theorem epochs_never_panic {Eph Resp Noise : Type} `{EqDecision Eph} (d : DP) now es :
  DpWf.dp_wf d -> Forall (EpochWf.event_ok (Eph := Eph) (Resp := Resp) DpWf.dp_wf DpWf.clock) es ->
  exists s, rfold EpochWf.step es (Epochs.new d now : EpochSet DP Eph Resp Noise Addr) = Ret s /\
    EpochWf.epochs_wf DpWf.dp_wf s.
Proof. intros Hd HF. apply (EpochWf.epoch_steps_ok DpWf.dp_wf DpWf.clock); [by apply EpochWf.epochs_new_wf|done]. Qed.
End DataPlanes.

(** A fresh data plane, garbage, a roam, a switch and a retirement. *)
Lemma epochs_never_panic_witness :
  let fresh : Dp.DataPlane (Addr := N) :=
    Dp.new (Sess.toy_session 0 1) (replicate 16 Byte.x01) (replicate 16 Byte.x02) 7 true 8%N false 1120 in
  exists s, rfold (EpochWf.step (P := dataplane_plane (cpu := demo_cpu) (aead := Sess.toy_aead) (sip := Wire.toy_sip)))
      [EpochWf.EOpen [Byte.x05; Byte.x00] 12; EpochWf.ERoam 9%N; EpochWf.EPromote fresh 20; EpochWf.ERetire 30]
      (Epochs.new fresh 0 : EpochSet _ N unit unit N) = Ret s.
Proof.
  intros fresh.
  assert (DpWf.dp_wf (aead := Sess.toy_aead) fresh) as Hf
    by (apply (DpWf.new_wf (aead := Sess.toy_aead)); [reflexivity|discriminate]).
  destruct (epochs_never_panic (cpu := demo_cpu) (aead := Sess.toy_aead) (sip := Wire.toy_sip)
    (Eph := N) (Resp := unit) (Noise := unit) fresh 0
    [EpochWf.EOpen [Byte.x05; Byte.x00] 12; EpochWf.ERoam 9%N; EpochWf.EPromote fresh 20; EpochWf.ERetire 30] Hf) as (s & E & _).
  - constructor; [by vm_compute|]. constructor; [exact I|].
    constructor; [exact Hf|]. constructor; [exact I|constructor].
  - exists s. exact E.
Defined.
