(* ===== verification/EpochProtocol.v ===== *)
(** * The rekey protocol

    Two peers rotate their session keys with the operations of EpochSet, over a
    network that loses, duplicates, delays and reorders: whatever was sent may
    arrive at any time, any number of times.  A session is an abstract name; a
    data plane opens exactly the frames the other side sealed in its session.

    The invariant is that the peers never strand each other: each opens what
    the other sends, at every moment of every run, as long as the initiator
    neither retires its old session nor starts another round before the
    responder has confirmed the switch.  [early_retirement_strands] shows that
    the first proviso is needed. *)

From Stdlib Require Strings.Byte.
From Stdlib Require Import NArith Lia Floats.SpecFloat.
From stdpp Require Import base numbers gmap list.
From S2P Require Import Prelude EpochSet EpochPlane.

Local Open Scope nat_scope.

(** The initiator's and the responder's half of a session. *)
Inductive ISess := mkI (sid : nat).
Inductive RSess := mkR (sid : nat).

(** A data frame: who sealed it, and in which session. *)
Inductive Frame := FromI (sid : nat) | FromR (sid : nat).

#[export] Instance frame_eq_dec : EqDecision Frame.
Proof. solve_decision. Defined.

Definition seal_i (d : ISess) : Frame := match d with mkI n => FromI n end.
Definition seal_r (d : RSess) : Frame := match d with mkR n => FromR n end.

#[export] Instance i_plane : Plane ISess Frame unit unit := {|
  plane_open d f _ := let ' (mkI n) := d in Ret (d, if decide (f = FromR n) then InTun [] else InNone);
  plane_set_addr d _ := Ret d;
  plane_set_ratio d _ := d;
|}.

#[export] Instance r_plane : Plane RSess Frame unit unit := {|
  plane_open d f _ := let ' (mkR n) := d in Ret (d, if decide (f = FromI n) then InTun [] else InNone);
  plane_set_addr d _ := Ret d;
  plane_set_ratio d _ := d;
|}.

(** Rounds name handshakes: the ephemeral and the label of an initiation, the
    initiator's handshake state; a response names its round and its session. *)
Notation IEpochs := (EpochSet ISess N (N * nat) N unit).
Notation RPeer := (RekeyPeer RSess N (N * nat) N unit).

Record system := mkSystem {
  ini : IEpochs;
  res : RPeer;
  round : N;
  fresh_sid : nat;
  inits : list N;
  resps : list (N * nat);
  frames : list Frame;
}.

Definition sid_i (s : system) : nat := match current (ini s) with mkI n => n end.
Definition sid_r (s : system) : nat := match current (epochs (res s)) with mkR n => n end.

(** The responder has confirmed the initiator's session. *)
Definition settled (s : system) : Prop := sid_i s = sid_r s.

(** Both sides right after the cold start, in session 0. *)
Definition start : system :=
  mkSystem (Epochs.new (mkI 0) 0) (mkPeer (Epochs.new (mkR 0) 0) None None (Some 0%N)) 0 1 [] [] [].

Definition with_ini s x := mkSystem x (res s) (round s) (fresh_sid s) (inits s) (resps s) (frames s).
Definition with_res s x := mkSystem (ini s) x (round s) (fresh_sid s) (inits s) (resps s) (frames s).
Definition with_frame s f := mkSystem (ini s) (res s) (round s) (fresh_sid s) (inits s) (resps s) (f :: frames s).
Definition with_epochs (p : RPeer) e : RPeer := mkPeer e (peer_cached_resp p) (cached_resp_init_eph p) (last_accepted_init_ts p).

(** A tick of the initiator's schedule; the next handshake it may start is the
    next round. *)
Definition tick_i s retry winner interval now : system :=
  let x := Epochs.drive_rekey_schedule (ini s) (Some ((round s + 1)%N, [])) (Some tt) retry winner interval now in
  match rekey (ini s), rekey x.1 with
  | None, Some _ => mkSystem x.1 (res s) (round s + 1) (fresh_sid s) ((round s + 1)%N :: inits s) (resps s) (frames s)
  | _, _ => with_ini s x.1
  end.

(** The responder answers an initiation, with a session of its own choice. *)
Definition answer s (n : N) : system :=
  let x := Rekey.rekey_init_core 0 (res s) (mkR (fresh_sid s)) (n, fresh_sid s) n n in
  mkSystem (ini s) x.1 (round s) (fresh_sid s + 1) (inits s)
    (match x.2 with Some r => r :: resps s | None => resps s end) (frames s).

(** The initiator reads a response, and primes the session it gives. *)
Definition complete s (r : N * nat) now : system :=
  let x := Rekey.rekey_resp_core (ini s) (fun rk => if decide (hs rk = r.1) then Some (mkI r.2) else None) now in
  match x.2 with
  | Some d => with_frame (with_ini s x.1) (seal_i d)
  | None => with_ini s x.1
  end.

(** [early] drops the proviso on the retirement of the old session. *)
Inductive step (early : bool) (s : system) : system -> Prop :=
| STick retry winner interval now :
    (settled s \/ rekey (Epochs.drive_rekey_schedule (ini s) (Some ((round s + 1)%N, [])) (Some tt) retry winner interval now).1 = None
     \/ rekey (ini s) <> None) ->
    step early s (tick_i s retry winner interval now)
| SInit n : n ∈ inits s -> step early s (answer s n)
| SResp r now : r ∈ resps s -> step early s (complete s r now)
| SSendI : step early s (with_frame s (seal_i (current (ini s))))
| SSendR : step early s (with_frame s (seal_r (current (epochs (res s)))))
| SRecvI f now e out :
    f ∈ frames s -> Epochs.inbound_open (ini s) f now = Ret (e, out) -> step early s (with_ini s e)
| SRecvR f now e out :
    f ∈ frames s -> Epochs.inbound_open (epochs (res s)) f now = Ret (e, out) ->
    step early s (with_res s (with_epochs (res s) e))
| SRetireI now :
    early = true \/ settled s -> step early s (with_ini s (Epochs.retire_previous_if_due (ini s) now))
| SRetireR now :
    step early s (with_res s (with_epochs (res s) (Epochs.retire_previous_if_due (epochs (res s)) now))).

Inductive reachable (early : bool) : system -> Prop :=
| RStart : reachable early start
| RStep s s' : reachable early s -> step early s s' -> reachable early s'.

(** ** The invariant *)

Record inv (s : system) : Prop := {
  v_sids : sid_i s < fresh_sid s /\ sid_r s < fresh_sid s;
  v_next_i : next (ini s) = None;
  v_inits n : n ∈ inits s -> (n <= round s)%N;
  v_eph : cached_resp_init_eph (res s) = None;
  v_last : exists t, last_accepted_init_ts (res s) = Some t /\ (t <= round s)%N /\
    (forall r, r ∈ resps s -> (r.1 <= t)%N) /\
    (sid_i s <> sid_r s -> t = round s) /\
    (forall n, next (epochs (res s)) = Some n -> init_eph n = t);
  v_next_r n : next (epochs (res s)) = Some n ->
    exists sid, next_dp n = mkR sid /\ cached_resp n = (init_eph n, sid) /\ sid < fresh_sid s /\ sid <> sid_r s /\
      (sid = sid_i s -> sid_i s <> sid_r s) /\ (FromI sid ∈ frames s -> sid = sid_i s);
  v_rekey rk : rekey (ini s) = Some rk -> hs rk = round s /\ settled s;
  v_resps rk r : rekey (ini s) = Some rk -> r ∈ resps s -> r.1 = hs rk ->
    exists n, next (epochs (res s)) = Some n /\ next_dp n = mkR r.2;
  v_frames sid : FromI sid ∈ frames s -> sid < fresh_sid s;
  v_switch : sid_i s <> sid_r s ->
    (exists n, next (epochs (res s)) = Some n /\ next_dp n = mkR (sid_i s)) /\ previous (ini s) = Some (mkI (sid_r s));
}.

Lemma inv_start : inv start.
Proof.
  constructor; cbn; try done; try lia; try (by intros ? ?%not_elem_of_nil).
  - exists 0%N. split_and!; try done. by intros ? ?%not_elem_of_nil.
Qed.

Lemma open_i_same (e e' : IEpochs) f now out :
  next e = None -> Epochs.inbound_open e f now = Ret (e', out) -> e' = e.
Proof.
  intros Hn. unfold Epochs.inbound_open, Epochs.open_previous. destruct e as [[n] cm nx pv pr rk ep]. cbn in *. subst nx.
  destruct (decide _); cbn; [by intros [= <- _]|]. destruct pv as [[p]|]; cbn; by intros [= <- _].
Qed.

(** Opening at the responder: nothing changes, or the next epoch is promoted. *)
Lemma open_r_cases (e e' : EpochSet RSess N (N * nat) N unit) f now out :
  Epochs.inbound_open e f now = Ret (e', out) ->
  e' = e \/ exists n sid, next e = Some n /\ next_dp n = mkR sid /\ f = FromI sid /\ e' = Epochs.promote_next e (mkR sid) now.
Proof.
  unfold Epochs.inbound_open, Epochs.open_previous. destruct e as [[c] cm nx pv pr rk ep]. cbn.
  destruct (decide (f = FromI c)); cbn; [by intros [= <- _]; left|]. destruct nx as [[[d] eph resp]|]; cbn.
  - destruct (decide (f = FromI d)) as [->|]; cbn.
    + intros [= <- _]. right. by exists (mkNext (mkR d) eph resp), d.
    + destruct pv as [[p]|]; cbn; intros [= <- _]; by left.
  - destruct pv as [[p]|]; cbn; intros [= <- _]; by left.
Qed.

Lemma inv_frame s f : inv s -> (forall sid, f = FromI sid -> sid = sid_i s) -> inv (with_frame s f).
Proof.
  intros [] Hf. constructor; cbn; try done.
  - intros n Hn. destruct (v_next_r0 n Hn) as (sid & H1 & H2 & H3 & H4 & H5 & H6). exists sid. split_and!; try done.
    intros [H|H]%elem_of_cons; [exact (Hf sid (eq_sym H))|auto].
  - intros sid [H|H]%elem_of_cons; [|auto]. rewrite (Hf sid (eq_sym H)). apply v_sids0.
Qed.

Lemma inv_retire_i s now : inv s -> settled s -> inv (with_ini s (Epochs.retire_previous_if_due (ini s) now)).
Proof.
  intros Hv Hs. unfold Epochs.retire_previous_if_due. destruct (_ && _); [|by destruct s].
  destruct Hv. constructor; cbn; try done.
Qed.

Lemma inv_retire_r s now :
  inv s -> inv (with_res s (with_epochs (res s) (Epochs.retire_previous_if_due (epochs (res s)) now))).
Proof.
  intros Hv. unfold Epochs.retire_previous_if_due. destruct (_ && _); [|by destruct s as [? [] ? ? ? ? ?]].
  destruct Hv. constructor; cbn; try done.
Qed.

Lemma inv_recv_r s f now e out :
  inv s -> f ∈ frames s -> Epochs.inbound_open (epochs (res s)) f now = Ret (e, out) ->
  inv (with_res s (with_epochs (res s) e)).
Proof.
  intros Hv Hf E. destruct (open_r_cases _ _ _ _ _ E) as [->|(n & sid & Hn & Hd & -> & ->)]; [by destruct s as [? [] ? ? ? ? ?]|].
  destruct Hv. destruct (v_next_r0 n Hn) as (sid' & Hd' & _ & Hlt & Hne & Hsw & Hfr). rewrite Hd in Hd'. injection Hd' as <-.
  specialize (Hfr Hf). subst sid. specialize (Hsw eq_refl).
  assert (rekey (ini s) = None) as Hrk.
  { destruct (rekey (ini s)) as [rk|] eqn:Erk; [|done]. destruct (v_rekey0 rk eq_refl) as [_ H]. unfold settled in H. done. }
  destruct v_last0 as (t & Ht1 & Ht2 & Ht3 & Ht4 & Ht5).
  constructor; unfold settled, sid_r, sid_i in *; cbn; try done.
  - exists t. by split_and!.
  - rewrite Hrk. done.
  - rewrite Hrk. done.
Qed.

Lemma inv_init s n : inv s -> n ∈ inits s -> inv (answer s n).
Proof.
  intros Hv Hn. pose proof Hv as [Hsid Hni Hin Heph (t & Ht1 & Ht2 & Ht3 & Ht4 & Ht5) Hnr Hrk Hrs Hfr Hsw].
  unfold answer, Rekey.rekey_init_core. rewrite Heph. rewrite decide_False by done.
  assert (forall r, (forall x, x ∈ match r with Some y => y :: resps s | None => resps s end -> x ∈ resps s \/
            (exists nx, next (epochs (res s)) = Some nx /\ x = cached_resp nx)) ->
    inv (mkSystem (ini s) (res s) (round s) (fresh_sid s + 1) (inits s) (match r with Some y => y :: resps s | None => resps s end) (frames s))) as Hsame.
  { intros r Hx. constructor; unfold settled, sid_i, sid_r in *; cbn; try done.
    - lia.
    - exists t. split_and!; try done. intros x Hxr. destruct (Hx x Hxr) as [|(nx & Enx & ->)]; [auto|].
      destruct (Hnr nx Enx) as (sid & _ & -> & _). cbn. rewrite (Ht5 nx Enx). lia.
    - intros nx Enx. destruct (Hnr nx Enx) as (sid & H1 & H2 & H3 & H4 & H5 & H6). exists sid. split_and!; try done. lia.
    - intros rk x Erk Hxr Ex. destruct (Hx x Hxr) as [|(nx & Enx & ->)]; [by eapply Hrs|].
      destruct (Hnr nx Enx) as (sid & H1 & H2 & _). exists nx. rewrite H2. by split.
    - intros sid Hs. specialize (Hfr sid Hs). lia. }
  destruct (Epochs.next_cached_resp_for (epochs (res s)) n) as [r|] eqn:Ec.
  { apply (Hsame (Some r)). intros x [->|Hx]%elem_of_cons; [right|by left]. unfold Epochs.next_cached_resp_for in Ec.
    destruct (next (epochs (res s))) as [nx|]; [|done]. exists nx. split; [done|]. destruct (decide _); congruence. }
  unfold Rekey.accept_fresh_init. rewrite Ht1. destruct (N.ltb_spec t n) as [Hlt|]; cbn [negb];
    [|apply (Hsame None); by left].
  specialize (Hin n Hn). assert (sid_i s = sid_r s) as Hset.
  { destruct (decide (sid_i s = sid_r s)) as [|Hd]; [done|]. specialize (Ht4 Hd). lia. }
  constructor; unfold settled, sid_i, sid_r in *; cbn; try done.
  + lia.
  + by apply Hv.
  + exists n. split_and!; try done; [intros x [->|Hx]%elem_of_cons; [done|specialize (Ht3 x Hx); lia]|by intros ? [= <-]].
  + intros ? [= <-]. exists (fresh_sid s). cbn. split_and!; try done; [lia|intros Hq; lia|intros Hq; lia|].
    intros Hf%Hfr. lia.
  + intros rk x Erk [->|Hx]%elem_of_cons Ex; [eexists; by split|]. specialize (Ht3 x Hx). destruct (Hrk rk Erk) as [Eh _]. lia.
  + intros sid Hf%Hfr. lia.
Qed.

Lemma inv_resp s r now : inv s -> r ∈ resps s -> inv (complete s r now).
Proof.
  intros Hv Hr. pose proof Hv as [Hsid Hni Hin Heph (t & Ht1 & Ht2 & Ht3 & Ht4 & Ht5) Hnr Hrk Hrs Hfr Hsw].
  unfold complete, Rekey.rekey_resp_core. destruct (rekey (ini s)) as [rk|] eqn:Erk; [|by destruct s].
  destruct (Hrk rk eq_refl) as [Eh Hset]. destruct (decide (hs rk = r.1)) as [Er|Hne]; cbn [snd fst].
  2: { unfold settled in Hset. constructor; unfold settled, sid_i, sid_r in *; cbn; try done.
    exists t. by split_and!. }
  destruct (Hrs rk r eq_refl Hr (eq_sym Er)) as (n & En & Ed). destruct (Hnr n En) as (sid & Ed' & _ & Hlt & Hne & Hfresh & _).
  rewrite Ed in Ed'. injection Ed' as <-. unfold settled in Hset.
  constructor; unfold settled, sid_i, sid_r in *; cbn; try done.
  - split; [done|apply Hsid].
  - exists t. split_and!; try done. intros _. pose proof (Ht3 r Hr). lia.
  - intros n' En'. rewrite En in En'. injection En' as <-. exists r.2.
    destruct (Hnr n En) as (sid & Ed' & Ec & ? & ? & _). rewrite Ed in Ed'. injection Ed' as <-. by split_and!.
  - intros sid [[= ->]|Hf]%elem_of_cons; [done|auto].
  - intros _. split; [by exists n|]. rewrite <- Hset. by destruct (current (ini s)).
Qed.

Lemma inv_tick s retry winner interval now :
  inv s -> (settled s \/ rekey (Epochs.drive_rekey_schedule (ini s) (Some ((round s + 1)%N, [])) (Some tt) retry winner interval now).1 = None
    \/ rekey (ini s) <> None) ->
  inv (tick_i s retry winner interval now).
Proof.
  intros Hv Hg. pose proof Hv as [Hsid Hni Hin Heph (t & Ht1 & Ht2 & Ht3 & Ht4 & Ht5) Hnr Hrk Hrs Hfr Hsw].
  unfold tick_i in *. destruct (rekey (ini s)) as [rk|] eqn:Erk.
  - destruct (Hrk rk eq_refl) as [Eh Hset]. unfold Epochs.drive_rekey_schedule. rewrite Erk.
    destruct (_ <=? _)%N; [|destruct (_ <? _)%N; cbn [fst]; [by destruct s|]];
      (unfold settled in *; constructor; unfold settled, sid_i, sid_r in *; cbn; try done; [exists t; by split_and!|..]).
    + by intros ? [= <-].
    + intros ? x [= <-] Hx Ex. by apply (Hrs rk x).
  - unfold Epochs.drive_rekey_schedule in *. rewrite Erk in *. destruct (negb _); cbn [fst] in *; [rewrite Erk; by destruct s|].
    cbn [rekey Epochs.set_rekey] in *. destruct Hg as [Hset|[Hg|Hg]]; [|done..]. unfold settled in Hset.
    constructor; unfold settled, sid_i, sid_r in *; cbn; try done.
    + intros n [->|Hn]%elem_of_cons; [done|]. specialize (Hin n Hn). lia.
    + exists t. split_and!; try done. lia.
    + by intros ? [= <-].
    + intros ? x [= <-] Hx Ex. cbn in Ex. specialize (Ht3 x Hx). lia.
Qed.

Lemma inv_step s s' : inv s -> step false s s' -> inv s'.
Proof.
  intros Hv Hst. destruct Hst as [rt w i now Hg|n Hn|r now Hr| | |f now e out Hf E|f now e out Hf E|now Hg|now].
  - by apply inv_tick.
  - by apply inv_init.
  - by apply inv_resp.
  - apply inv_frame; [done|]. intros sid. unfold sid_i. destruct (current (ini s)). by intros [= <-].
  - apply inv_frame; [done|]. intros sid. by destruct (current (epochs (res s))).
  - rewrite (open_i_same _ _ _ _ _ (v_next_i _ Hv) E). by destruct s.
  - by eapply inv_recv_r.
  - destruct Hg as [|Hg]; [done|]. by apply inv_retire_i.
  - by apply inv_retire_r.
Qed.

Lemma reachable_inv s : reachable false s -> inv s.
Proof. induction 1; [apply inv_start|by eapply inv_step]. Qed.

(** C16: the peers never strand each other: in every reachable state, however the
    network treated initiations, responses and data, the responder opens what
    the initiator sends and the initiator opens what the responder sends. *)
Theorem rekey_never_strands s now :
  reachable false s ->
  (exists e out, Epochs.inbound_open (epochs (res s)) (seal_i (current (ini s))) now = Ret (e, out) /\ out <> InNone) /\
  (exists e out, Epochs.inbound_open (ini s) (seal_r (current (epochs (res s)))) now = Ret (e, out) /\ out <> InNone).
Proof.
  intros Hr. destruct (reachable_inv s Hr) as [_ Hni _ _ _ _ _ _ _ Hsw]. unfold sid_i, sid_r in Hsw.
  destruct (current (ini s)) as [i] eqn:Ei, (current (epochs (res s))) as [r] eqn:Er. cbn [seal_i seal_r].
  unfold Epochs.inbound_open. rewrite Ei, Er. cbn. destruct (decide (i = r)) as [->|Hne].
  - rewrite !decide_True by done. cbn. split; do 2 eexists; done.
  - rewrite !decide_False by congruence. cbn. destruct (Hsw Hne) as [(n & En & Ed) Ep]. rewrite En, Hni, Ed. cbn.
    rewrite decide_True by done. cbn. unfold Epochs.open_previous. cbn. rewrite Ep. cbn. rewrite decide_True by done. cbn.
    split; do 2 eexists; done.
Qed.

(** Without the proviso: the prime is lost, the initiator's grace period ends,
    and what the responder sends in the old session is opened by nobody. *)
Lemma early_retirement_strands :
  exists s, reachable true s /\
    Epochs.inbound_open (ini s) (seal_r (current (epochs (res s)))) 20000 = Ret (ini s, InNone).
Proof.
  set (s1 := tick_i start 1000 true 0 0). set (s2 := answer s1 1). set (s3 := complete s2 (1%N, 1) 0).
  exists (with_ini s3 (Epochs.retire_previous_if_due (ini s3) 15000)). split; [|by vm_compute].
  eapply RStep; [|apply SRetireI; by left]. eapply RStep; [|apply SResp; vm_compute; left].
  eapply RStep; [|apply SInit; vm_compute; left]. eapply RStep; [apply RStart|]. apply STick. by left.
Qed.

(** One complete round: start, answer, completion, confirmation. *)
Lemma rekey_never_strands_witness :
  exists s, reachable false s /\ sid_i s = 1 /\ sid_r s = 1 /\
    (exists e out, Epochs.inbound_open (epochs (res s)) (seal_i (current (ini s))) 5 = Ret (e, out) /\ out <> InNone) /\
    (exists e out, Epochs.inbound_open (ini s) (seal_r (current (epochs (res s)))) 5 = Ret (e, out) /\ out <> InNone).
Proof.
  set (s1 := tick_i start 1000 true 0 0). set (s2 := answer s1 1). set (s3 := complete s2 (1%N, 1) 0).
  set (e := Epochs.promote_next (epochs (res s3)) (mkR 1) 3).
  assert (reachable false (with_res s3 (with_epochs (res s3) e))) as Hr.
  { eapply RStep; [|eapply (SRecvR _ s3 (FromI 1) 3); [vm_compute; left|vm_compute; reflexivity]].
    eapply RStep; [|apply SResp; vm_compute; left]. eapply RStep; [|apply SInit; vm_compute; left].
    eapply RStep; [apply RStart|]. apply STick. by left. }
  exists (with_res s3 (with_epochs (res s3) e)). split; [exact Hr|]. split; [reflexivity|]. split; [reflexivity|].
  apply (rekey_never_strands _ 5 Hr).
Defined.

(** After a switch from session 0 to session 1, a late frame of session 0. *)
Lemma grace_keeps_old_epoch_witness :
  exists s', Epochs.inbound_open (Epochs.retire_previous_if_due
      (Epochs.promote_from_rekey (Epochs.new (mkI 0) 0 : IEpochs) (mkI 1) 1000) 15999) (FromR 0) 15999 = Ret (s', InTun []) /\
    current s' = mkI 1 /\ previous s' = Some (mkI 0).
Proof.
  apply (EpochWf.grace_keeps_old_epoch (Epochs.new (mkI 0) 0 : IEpochs) (mkI 1) 1000 (FromR 0) 15999 (mkI 0) (InTun []) (mkI 1));
    [reflexivity|reflexivity|discriminate|reflexivity|discriminate].
Defined.
