(* ===== verification/Spsc.v ===== *)
(** * The ring between two threads

    Models crates/yip-io/src/spsc.rs: the bounded ring that one producer and one
    consumer thread share without a lock.  [push], [pop], [drain_batch] and
    [is_empty] are programs over the accesses to shared memory the source makes,
    one constructor of [prog] per access, so that the two threads interleave
    between any two accesses.

    Each counter is kept with every value it ever had, and an [Acquire] load of
    the other thread's counter may return any of them from the one last seen on:
    the loads are coherent but may be stale.  A slot holds a value or is
    uninitialised; [assume_init_read] moves the value out, and reading an
    uninitialised slot, or both threads reaching one slot at once, is undefined. *)

From Stdlib Require Strings.Byte.
From Stdlib Require Import NArith Lia.
From stdpp Require Import base numbers gmap list.
From S2P Require Import Prelude.

Local Open Scope N_scope.

(** ** Programs *)

Inductive prog (A R : Type) : Type :=
| Done (r : R)
| LoadHead (k : N -> prog A R)
| LoadTail (k : N -> prog A R)
| GetCached (k : N -> prog A R)
| SetCached (v : N) (k : prog A R)
| WriteSlot (i : nat) (x : A) (k : prog A R)
| ReadSlot (i : nat) (k : A -> prog A R)
| StoreHead (v : N) (k : prog A R)
| StoreTail (v : N) (k : prog A R).
Arguments Done {A R} r.
Arguments LoadHead {A R} k.
Arguments LoadTail {A R} k.
Arguments GetCached {A R} k.
Arguments SetCached {A R} v k.
Arguments WriteSlot {A R} i x k.
Arguments ReadSlot {A R} i k.
Arguments StoreHead {A R} v k.
Arguments StoreTail {A R} v k.

(** [wrapping_sub] and [wrapping_add] of the 64-bit counters. *)
Definition wrapping_sub (a b : N) : N := (a + u64_mod - b) mod u64_mod.
Definition wrapping_add (a b : N) : N := (a + b) mod u64_mod.

(** What a call of the consumer returns. *)
Inductive answer (A : Type) :=
| Popped (o : option A)
| Drained (out : list A) (n : N)
| IsEmpty (b : bool).
Arguments Popped {A} o.
Arguments Drained {A} out n.
Arguments IsEmpty {A} b.

Section Ring.
Context {A : Type} (CAP : N).

Definition slot_of (c : N) : nat := N.to_nat (N.land c (CAP - 1)).

(** The end of [push], once there is room. *)
Definition push_write (head : N) (item : A) : prog A (option A) :=
  WriteSlot (slot_of head) item (StoreHead (wrapping_add head 1) (Done None)).

(** [Ok(())] is [None], [Err(item)] is [Some item]. *)
Definition push (item : A) : prog A (option A) :=
  LoadHead (fun head =>
  GetCached (fun tail =>
  if CAP <=? wrapping_sub head tail then
    LoadTail (fun tail =>
    SetCached tail
      (if CAP <=? wrapping_sub head tail then Done (Some item) else push_write head item))
  else push_write head item)).

Definition pop_read (tail : N) : prog A (answer A) :=
  ReadSlot (slot_of tail) (fun item => StoreTail (wrapping_add tail 1) (Done (Popped (Some item)))).

Definition pop : prog A (answer A) :=
  LoadTail (fun tail =>
  GetCached (fun head =>
  if head =? tail then
    LoadHead (fun head => SetCached head (if head =? tail then Done (Popped None) else pop_read tail))
  else pop_read tail)).

(** The loop of [drain_batch]: [n] items are left, the next is [tail + i]. *)
Fixpoint drain_loop (n : nat) (tail i to_drain : N) (out : list A) : prog A (answer A) :=
  match n with
  | O => StoreTail (wrapping_add tail to_drain) (Done (Drained out to_drain))
  | S n => ReadSlot (slot_of (wrapping_add tail i)) (fun item => drain_loop n tail (i + 1) to_drain (out ++ [item]))
  end.

Definition drain_some (head tail max : N) (out : list A) : prog A (answer A) :=
  let available := wrapping_sub head tail in
  let to_drain := N.min available max in
  if to_drain =? 0 then Done (Drained out 0) else drain_loop (N.to_nat to_drain) tail 0 to_drain out.

Definition drain_batch (out : list A) (max : N) : prog A (answer A) :=
  if max =? 0 then Done (Drained out 0)
  else
    LoadTail (fun tail =>
    GetCached (fun head =>
    if wrapping_sub head tail <? max
    then LoadHead (fun head => SetCached head (drain_some head tail max out))
    else drain_some head tail max out)).

Definition is_empty : prog A (answer A) :=
  LoadTail (fun tail => LoadHead (fun head => SetCached head (Done (IsEmpty (head =? tail))))).

(** ** The two threads *)

Record RingBuffer := mkRing { heads : list N; tails : list N; slots : list (option A) }.

(** A half has the program it runs, its cached counter, and how much of the
    other half's counter it has seen; the producer has the item of the running
    call and the items accepted so far, the consumer the items it received. *)
Record SpscProducer := mkProducer {
  p_prog : option (A * prog A (option A));
  cached_tail : N;
  tail_seen : nat;
  accepted : list A;
}.
Record SpscConsumer := mkConsumer {
  c_prog : option (prog A (answer A));
  cached_head : N;
  head_seen : nat;
  received : list A;
}.
Record threads := mkThreads { ring : RingBuffer; producer : SpscProducer; consumer : SpscConsumer }.

Definition is_power_of_two (n : N) : bool := n =? 2 ^ N.log2 n.

Definition spsc_pair : run threads :=
  let! _ := rassert (0 <? CAP) in
  let! _ := rassert (is_power_of_two CAP) in
  Ret (mkThreads (mkRing [0] [0] (replicate (N.to_nat CAP) None)) (mkProducer None 0 0 []) (mkConsumer None 0 0 [])).

(** The counters' latest values; a load of the other half's counter chooses the
    value at [v], not before the one seen last. *)
Definition latest (log : list N) : N := default 0 (last log).
Definition load (log : list N) (seen v : nat) : option N := if Nat.leb seen v then log !! v else None.

(** One access of the producer; [None] when it is not possible. *)
Definition producer_access (v : nat) (t : threads) : option threads :=
  let r := ring t in
  let p := producer t in
  let go r cached seen x k := Some (mkThreads r (mkProducer (Some (x, k)) cached seen (accepted p)) (consumer t)) in
  match p_prog p with
  | Some (x, LoadHead k) => go r (cached_tail p) (tail_seen p) x (k (latest (heads r)))
  | Some (x, GetCached k) => go r (cached_tail p) (tail_seen p) x (k (cached_tail p))
  | Some (x, LoadTail k) => tail ← load (tails r) (tail_seen p) v; go r (cached_tail p) v x (k tail)
  | Some (x, SetCached c k) => go r c (tail_seen p) x k
  | Some (x, WriteSlot i y k) =>
      if decide (i < length (slots r))%nat
      then go (mkRing (heads r) (tails r) (<[i := Some y]> (slots r))) (cached_tail p) (tail_seen p) x k
      else None
  | Some (x, StoreHead h k) => go (mkRing (heads r ++ [h]) (tails r) (slots r)) (cached_tail p) (tail_seen p) x k
  | Some (x, Done None) =>
      Some (mkThreads r (mkProducer None (cached_tail p) (tail_seen p) (accepted p ++ [x])) (consumer t))
  | Some (_, Done (Some _)) =>
      Some (mkThreads r (mkProducer None (cached_tail p) (tail_seen p) (accepted p)) (consumer t))
  | _ => None
  end.

Definition items (a : answer A) : list A :=
  match a with Popped o => option_list o | Drained out _ => out | IsEmpty _ => [] end.

Definition consumer_access (v : nat) (t : threads) : option threads :=
  let r := ring t in
  let c := consumer t in
  let go r cached seen k := Some (mkThreads r (producer t) (mkConsumer (Some k) cached seen (received c))) in
  match c_prog c with
  | Some (LoadTail k) => go r (cached_head c) (head_seen c) (k (latest (tails r)))
  | Some (GetCached k) => go r (cached_head c) (head_seen c) (k (cached_head c))
  | Some (LoadHead k) => head ← load (heads r) (head_seen c) v; go r (cached_head c) v (k head)
  | Some (SetCached x k) => go r x (head_seen c) k
  | Some (ReadSlot i k) =>
      match slots r !! i with
      | Some (Some x) => go (mkRing (heads r) (tails r) (<[i := None]> (slots r))) (cached_head c) (head_seen c) (k x)
      | _ => None
      end
  | Some (StoreTail x k) => go (mkRing (heads r) (tails r ++ [x]) (slots r)) (cached_head c) (head_seen c) k
  | Some (Done a) =>
      Some (mkThreads r (producer t) (mkConsumer None (cached_head c) (head_seen c) (received c ++ items a)))
  | _ => None
  end.

(** A call starts when the half is idle; the vector given to [drain_batch] is
    empty. *)
Inductive call := Pop | Drain (max : N) | Ask.

Definition program_of (c : call) : prog A (answer A) :=
  match c with Pop => pop | Drain max => drain_batch [] max | Ask => is_empty end.

Definition start_push (x : A) (t : threads) : option threads :=
  let p := producer t in
  match p_prog p with
  | None => Some (mkThreads (ring t) (mkProducer (Some (x, push x)) (cached_tail p) (tail_seen p) (accepted p)) (consumer t))
  | Some _ => None
  end.

Definition start_call (k : call) (t : threads) : option threads :=
  let c := consumer t in
  match c_prog c with
  | None => Some (mkThreads (ring t) (producer t) (mkConsumer (Some (program_of k)) (cached_head c) (head_seen c) (received c)))
  | Some _ => None
  end.

Inductive move := PushCall (x : A) | ProducerMove (v : nat) | ConsumerCall (k : call) | ConsumerMove (v : nat).

Definition do_move (t : threads) (m : move) : option threads :=
  match m with
  | PushCall x => start_push x t
  | ProducerMove v => producer_access v t
  | ConsumerCall k => start_call k t
  | ConsumerMove v => consumer_access v t
  end.

Inductive reachable : threads -> Prop :=
| reach_start t : spsc_pair = Ret t -> reachable t
| reach_move t m t' : reachable t -> do_move t m = Some t' -> reachable t'.

(** [Drop] of the ring: both halves are gone. *)
Fixpoint drop_loop (n : nat) (tail i : N) (sl : list (option A)) : option (list A) :=
  match n with
  | O => Some []
  | S n =>
      match sl !! slot_of (wrapping_add tail i) with
      | Some (Some x) => xs ← drop_loop n tail (i + 1) (<[slot_of (wrapping_add tail i) := None]> sl); Some (x :: xs)
      | _ => None
      end
  end.

Definition drop_ring (r : RingBuffer) : option (list A) :=
  let head := latest (heads r) in
  let tail := latest (tails r) in
  drop_loop (N.to_nat (wrapping_sub head tail)) tail 0 (slots r).

(** Both threads are about to access one slot. *)
Definition race (t : threads) : bool :=
  match p_prog (producer t), c_prog (consumer t) with
  | Some (_, WriteSlot i _ _), Some (ReadSlot j _) => Nat.eqb i j
  | _, _ => false
  end.

(** A running half can make its next access. *)
Definition can_go (t : threads) : Prop :=
  (p_prog (producer t) <> None -> exists v t', producer_access v t = Some t') /\
  (c_prog (consumer t) <> None -> exists v t', consumer_access v t = Some t').

(** A call of one half run to its end while the other half makes no access and
    loads return the latest values, in at most [n] accesses. *)
Fixpoint finish_push (n : nat) (t : threads) : option threads :=
  match p_prog (producer t), n with
  | None, _ => Some t
  | Some _, O => None
  | Some _, S n => t ← producer_access (pred (length (tails (ring t)))) t; finish_push n t
  end.

Fixpoint finish_call (n : nat) (t : threads) : option threads :=
  match c_prog (consumer t), n with
  | None, _ => Some t
  | Some _, O => None
  | Some _, S n => t ← consumer_access (pred (length (heads (ring t)))) t; finish_call n t
  end.
End Ring.

(** ** The counters

    [H] and [T] are the counters without wrap-around; memory holds them modulo
    the width. *)
Definition phys (c : N) : N := c mod u64_mod.

Lemma phys_sub a b : b <= a -> a - b < u64_mod -> wrapping_sub (phys a) (phys b) = a - b.
Proof.
  intros Hle Hlt. unfold wrapping_sub, phys.
  replace (a mod u64_mod) with ((b mod u64_mod + (a - b)) mod u64_mod)
    by (rewrite N.Div0.add_mod_idemp_l; f_equal; lia).
  pose proof (N.mod_lt b u64_mod ltac:(done)) as Hb. revert Hb Hlt. generalize (b mod u64_mod), (a - b).
  intros r d Hr Hd. destruct (N.lt_ge_cases (r + d) u64_mod) as [Hs|Hs].
  - rewrite (N.mod_small (r + d)) by done. replace (r + d + u64_mod - r) with (d + 1 * u64_mod) by lia.
    rewrite N.Div0.mod_add. by apply N.mod_small.
  - replace ((r + d) mod u64_mod) with (r + d - u64_mod).
    + replace (r + d - u64_mod + u64_mod - r) with d by lia. by apply N.mod_small.
    + replace (r + d) with (r + d - u64_mod + 1 * u64_mod) at 2 by lia. rewrite N.Div0.mod_add.
      symmetry. apply N.mod_small. lia.
Qed.

Lemma phys_add a n : wrapping_add (phys a) n = phys (a + n).
Proof. unfold wrapping_add, phys. by rewrite N.Div0.add_mod_idemp_l. Qed.

Lemma phys_eqb a b : b <= a -> a - b < u64_mod -> (phys a =? phys b) = (a =? b).
Proof.
  intros Hle Hlt. destruct (N.eqb_spec a b) as [->|Hne]; [apply N.eqb_refl|].
  apply N.eqb_neq. intros E. pose proof (phys_sub a b Hle Hlt) as Hs. rewrite E, phys_sub in Hs by lia. lia.
Qed.

Section Counters.
Context (k : N) (Hk : k < 64).
Local Notation CAP := (2 ^ k).

Lemma cap_bounds : 0 < CAP /\ CAP < u64_mod.
Proof using Hk. split; [apply N.neq_0_lt_0, N.pow_nonzero; lia|]. apply N.pow_lt_mono_r; lia. Qed.

Lemma slot_of_phys c : slot_of CAP (phys c) = N.to_nat (c mod CAP).
Proof using Hk.
  unfold slot_of, phys. rewrite N.sub_1_r, <- N.ones_equiv, N.land_ones. f_equal.
  replace u64_mod with (CAP * 2 ^ (64 - k)) by (rewrite <- N.pow_add_r; unfold u64_mod; f_equal; lia).
  pose proof (proj1 cap_bounds). rewrite N.Div0.mod_mul_r, N.mul_comm, N.Div0.mod_add. apply N.Div0.mod_mod.
Qed.

Lemma slots_differ a b : a < b -> b < a + CAP -> N.to_nat (a mod CAP) <> N.to_nat (b mod CAP).
Proof using Hk.
  intros H1 H2 E. pose proof (proj1 cap_bounds) as HC. apply N2Nat.inj in E. revert H2 HC E. generalize CAP.
  intros C H2 HC E. pose proof (N.div_mod' a C) as Ea. pose proof (N.div_mod' b C) as Eb. rewrite E in Ea.
  assert (a / C < b / C) by nia. assert (b / C < a / C + 1) by nia. lia.
Qed.

Lemma slot_bound c : (N.to_nat (c mod CAP) < N.to_nat CAP)%nat.
Proof using Hk. pose proof cap_bounds as [HC _]. pose proof (N.mod_lt c CAP ltac:(lia)). lia. Qed.
End Counters.

(** ** The invariant *)

Section Inv.
Context {A : Type} (k : N) (Hk : k < 64).
Local Notation CAP := (2 ^ k).
Implicit Types t : threads (A := A).

(** The points of the programs between two accesses. *)
Definition push_3 (tail head : N) (x : A) : prog A (option A) :=
  SetCached tail (if CAP <=? wrapping_sub head tail then Done (Some x) else push_write CAP head x).
Definition push_2 (head : N) (x : A) : prog A (option A) := LoadTail (fun tail => push_3 tail head x).
Definition push_1 (head : N) (x : A) : prog A (option A) :=
  GetCached (fun tail => if CAP <=? wrapping_sub head tail then push_2 head x else push_write CAP head x).

Definition pop_3 (head tail : N) : prog A (answer A) :=
  SetCached head (if head =? tail then Done (Popped None) else pop_read CAP tail).
Definition pop_2 (tail : N) : prog A (answer A) := LoadHead (fun head => pop_3 head tail).
Definition pop_1 (tail : N) : prog A (answer A) :=
  GetCached (fun head => if head =? tail then pop_2 tail else pop_read CAP tail).

Definition drain_3 (head tail max : N) : prog A (answer A) := SetCached head (drain_some CAP head tail max []).
Definition drain_2 (tail max : N) : prog A (answer A) := LoadHead (fun head => drain_3 head tail max).
Definition drain_1 (tail max : N) : prog A (answer A) :=
  GetCached (fun head => if wrapping_sub head tail <? max then drain_2 tail max else drain_some CAP head tail max []).

Definition empty_2 (head tail : N) : prog A (answer A) := SetCached head (Done (IsEmpty (head =? tail))).
Definition empty_1 (tail : N) : prog A (answer A) := LoadHead (fun head => empty_2 head tail).

(** Where the producer is, when it has published [H] items and seen the tail
    [tv]: its cached counter, its call, the items written so far and those
    accepted. *)
Inductive prod_at (H tv : N) : N -> option (A * prog A (option A)) -> N -> list A -> list A -> Prop :=
| p_idle l : prod_at H tv (phys tv) None H l l
| p_start x l : prod_at H tv (phys tv) (Some (x, push CAP x)) H l l
| p_head x l : prod_at H tv (phys tv) (Some (x, push_1 (phys H) x)) H l l
| p_full x l : prod_at H tv (phys tv) (Some (x, push_2 (phys H) x)) H l l
| p_tail c x l : prod_at H tv c (Some (x, push_3 (phys tv) (phys H) x)) H l l
| p_write x l : H < tv + CAP -> prod_at H tv (phys tv) (Some (x, push_write CAP (phys H) x)) H l l
| p_store x l : H < tv + CAP ->
    prod_at H tv (phys tv) (Some (x, StoreHead (phys (H + 1)) (Done None))) (H + 1) (l ++ [x]) l
| p_ok x l : prod_at H tv (phys tv) (Some (x, Done None)) H (l ++ [x]) l
| p_err x l : prod_at H tv (phys tv) (Some (x, Done (Some x))) H l l.

(** Where the consumer is, when it has freed [T] slots and seen the head [hv]:
    its cached counter, its call, the slots read so far, the items received and
    those of finished calls. *)
Inductive cons_at (T hv : N) : N -> option (prog A (answer A)) -> N -> list A -> list A -> Prop :=
| c_idle l : cons_at T hv (phys hv) None T l l
| c_pop l : cons_at T hv (phys hv) (Some (pop CAP)) T l l
| c_pop1 l : cons_at T hv (phys hv) (Some (pop_1 (phys T))) T l l
| c_pop2 l : cons_at T hv (phys hv) (Some (pop_2 (phys T))) T l l
| c_pop3 c l : cons_at T hv c (Some (pop_3 (phys hv) (phys T))) T l l
| c_read l : T < hv -> cons_at T hv (phys hv) (Some (pop_read CAP (phys T))) T l l
| c_store a n l : T + n <= hv ->
    cons_at T hv (phys hv) (Some (StoreTail (phys (T + n)) (Done a))) (T + n) (l ++ items a) l
| c_drain max l : cons_at T hv (phys hv) (Some (drain_batch CAP [] max)) T l l
| c_drain1 max l : cons_at T hv (phys hv) (Some (drain_1 (phys T) max)) T l l
| c_drain2 max l : cons_at T hv (phys hv) (Some (drain_2 (phys T) max)) T l l
| c_drain3 max c l : cons_at T hv c (Some (drain_3 (phys hv) (phys T) max)) T l l
| c_loop n i m out l : N.of_nat n + i = m -> T + m <= hv -> (0 < n)%nat ->
    cons_at T hv (phys hv) (Some (drain_loop CAP n (phys T) i m out)) (T + i) (l ++ out) l
| c_ask l : cons_at T hv (phys hv) (Some is_empty) T l l
| c_ask1 l : cons_at T hv (phys hv) (Some (empty_1 (phys T))) T l l
| c_ask2 c l : cons_at T hv c (Some (empty_2 (phys hv) (phys T))) T l l
| c_done a l : cons_at T hv (phys hv) (Some (Done a)) T (l ++ items a) l.

(** Every value of the producer's counter: it goes up one by one. *)
Definition head_log (H : N) : list N := (fun n => phys (N.of_nat n)) <$> seq 0 (S (N.to_nat H)).

Definition nondecreasing (ts : list N) : Prop :=
  forall i j a b, (i <= j)%nat -> ts !! i = Some a -> ts !! j = Some b -> a <= b.

Record inv t (H T hv tv hw tr : N) (ts : list N) (sent got : list A) : Prop := mkInv {
  inv_heads : heads (ring t) = head_log H;
  inv_tails : tails (ring t) = phys <$> ts;
  inv_last : last ts = Some T;
  inv_mono : nondecreasing ts;
  inv_seen_tail : ts !! tail_seen (producer t) = Some tv;
  inv_seen_head : head_seen (consumer t) = N.to_nat hv;
  inv_order : tv <= T /\ T <= tr /\ tr <= hv /\ hv <= H /\ H <= hw /\ hw <= tv + CAP;
  inv_cap : length (slots (ring t)) = N.to_nat CAP;
  inv_slots : forall n, tr <= n < hw -> exists x,
    sent !! N.to_nat n = Some x /\ slots (ring t) !! N.to_nat (n mod CAP) = Some (Some x);
  inv_sent : length sent = N.to_nat hw;
  inv_got : got = take (N.to_nat tr) sent;
  inv_prod : prod_at H tv (cached_tail (producer t)) (p_prog (producer t)) hw sent (accepted (producer t));
  inv_cons : cons_at T hv (cached_head (consumer t)) (c_prog (consumer t)) tr got (received (consumer t));
}.

Lemma latest_heads H : latest (head_log H) = phys H.
Proof.
  unfold latest, head_log. rewrite fmap_last, seq_S, last_snoc. simpl. by rewrite N2Nat.id.
Qed.

Lemma latest_tails ts T : last ts = Some T -> latest (phys <$> ts) = phys T.
Proof. intros E. unfold latest. by rewrite fmap_last, E. Qed.

Lemma load_heads H hv v h :
  hv <= H -> load (head_log H) (N.to_nat hv) v = Some h ->
  hv <= N.of_nat v <= H /\ h = phys (N.of_nat v).
Proof.
  intros Hle. unfold load, head_log. destruct (Nat.leb_spec (N.to_nat hv) v); [|done].
  rewrite list_lookup_fmap. intros (n & [-> Hn]%lookup_seq & ->)%fmap_Some. simpl. split; [lia|done].
Qed.

Lemma load_tails ts seen T tv v c :
  nondecreasing ts -> last ts = Some T -> ts !! seen = Some tv -> load (phys <$> ts) seen v = Some c ->
  exists tv', tv <= tv' <= T /\ c = phys tv' /\ ts !! v = Some tv'.
Proof.
  intros Hm Hl Hs. unfold load. destruct (Nat.leb_spec seen v) as [Hle|]; [|done].
  rewrite list_lookup_fmap. intros (tv' & Hv & ->)%fmap_Some. exists tv'. split; [|done]. split; [by apply (Hm seen v)|].
  rewrite last_lookup in Hl. apply (Hm v (pred (length ts))); [|done|done]. apply lookup_lt_Some in Hv. lia.
Qed.

(** A step of one half leaves the other half's part of the invariant alone. *)
Lemma head_log_S H : head_log (H + 1) = head_log H ++ [phys (H + 1)].
Proof.
  unfold head_log. replace (N.to_nat (H + 1)) with (S (N.to_nat H)) by lia. rewrite (seq_S (S _)), fmap_app.
  f_equal. cbn. repeat f_equal. lia.
Qed.

Lemma producer_access_inv v t t' H T hv tv hw tr ts sent got :
  inv t H T hv tv hw tr ts sent got -> producer_access v t = Some t' ->
  exists H' tv' hw' sent', inv t' H' T hv tv' hw' tr ts sent' got.
Proof using Hk.
  intros I E. pose proof (cap_bounds k Hk) as [HC0 HC1].
  destruct t as [[hs tl sl] [pp ct seen acc] cn]. destruct I as [I1 I2 I3 I4 I5 I6 I7 I8 I9 I10 I11 I12 I13].
  cbn [ring heads tails slots producer consumer p_prog cached_tail tail_seen accepted] in *. subst hs tl.
  destruct I7 as (O1 & O2 & O3 & O4 & O5 & O6).
  revert E I9 I10 I11 O5 O6. destruct I12 as [l|x l|x l|x l|c x l|x l Hr|x l Hr|x l|x l]; intros E I9 I10 I11 O5 O6;
    cbn -[head_log fmap latest wrapping_sub wrapping_add slot_of N.leb load N.pow] in E.
  - done.
  - apply (inj Some) in E as <-. exists H, tv, H, l.
    rewrite latest_heads. split; try done. constructor.
  - apply (inj Some) in E as <-. exists H, tv, H, l. split; try done. cbn [producer p_prog cached_tail accepted].
    rewrite phys_sub by lia. destruct (N.leb_spec CAP (H - tv)); constructor; lia.
  - apply bind_Some in E as (c & Hl & E). apply (inj Some) in E as <-.
    destruct (load_tails ts seen T tv v c I4 I3 I5 Hl) as (tv' & ? & -> & Hs).
    exists H, tv', H, l. split; try done; [split; lia|constructor].
  - apply (inj Some) in E as <-. exists H, tv, H, l. split; try done. cbn [producer p_prog cached_tail accepted].
    rewrite phys_sub by lia. destruct (N.leb_spec CAP (H - tv)); constructor; lia.
  - rewrite slot_of_phys in E by done. rewrite decide_True in E by (rewrite I8; by apply slot_bound).
    apply (inj Some) in E as <-. exists H, tv, (H + 1), (l ++ [x]). split; try done; cbn [ring slots].
    + lia.
    + by rewrite length_insert.
    + intros n Hn. destruct (decide (n = H)) as [->|Hne].
      * exists x. rewrite lookup_app_r, <- I10, Nat.sub_diag by lia. split; [done|].
        apply list_lookup_insert_eq. rewrite I8. by apply slot_bound.
      * destruct (I9 n ltac:(lia)) as (y & Hy & Hsl). exists y. split; [by apply lookup_app_l_Some|].
        rewrite list_lookup_insert_ne; [done|]. intros Heq. symmetry in Heq. revert Heq. apply slots_differ; [done|lia|lia].
    + rewrite length_app, I10. simpl. lia.
    + rewrite take_app_le; [done|]. lia.
    + rewrite phys_add. by constructor.
  - apply (inj Some) in E as <-. exists (H + 1), tv, (H + 1), (l ++ [x]). split; try done; cbn [ring heads].
    + symmetry. apply head_log_S.
    + lia.
    + constructor.
  - apply (inj Some) in E as <-. exists H, tv, H, (l ++ [x]). split; try done. constructor.
  - apply (inj Some) in E as <-. exists H, tv, H, l. split; try done. constructor.
Qed.

Lemma nondecreasing_snoc ts T x : nondecreasing ts -> last ts = Some T -> T <= x -> nondecreasing (ts ++ [x]).
Proof.
  intros Hm Hl Hx. assert (forall i a, ts !! i = Some a -> a <= x) as Hall.
  { intros i a Ha. rewrite last_lookup in Hl. pose proof (lookup_lt_Some _ _ _ Ha).
    pose proof (Hm i (pred (length ts)) a T ltac:(lia) Ha Hl). lia. }
  intros i j a b Hij Ha Hb.
  apply lookup_snoc_Some in Ha as [[Hi Ha]|[-> <-]], Hb as [[Hj Hb]|[-> <-]]; [by apply (Hm i j)|by apply (Hall i)|lia|lia].
Qed.

(** Reading the slot of the next item not read. *)
Lemma read_slot t H T hv tv hw tr ts sent got :
  inv t H T hv tv hw tr ts sent got -> tr < hv ->
  exists x, slots (ring t) !! slot_of CAP (phys tr) = Some (Some x) /\ got ++ [x] = take (N.to_nat (tr + 1)) sent /\
    (forall n, tr + 1 <= n < hw -> exists y, sent !! N.to_nat n = Some y /\
       (<[slot_of CAP (phys tr) := None]> (slots (ring t))) !! N.to_nat (n mod CAP) = Some (Some y)).
Proof using Hk.
  intros I Hlt. pose proof (inv_order _ _ _ _ _ _ _ _ _ _ I) as (O1 & O2 & O3 & O4 & O5 & O6).
  rewrite slot_of_phys by done. destruct (inv_slots _ _ _ _ _ _ _ _ _ _ I tr ltac:(lia)) as (x & Hx & Hs). exists x.
  split; [done|]. split.
  - rewrite (inv_got _ _ _ _ _ _ _ _ _ _ I). replace (N.to_nat (tr + 1)) with (S (N.to_nat tr)) by lia.
    by rewrite (take_S_r _ _ x).
  - intros n Hn. destruct (inv_slots _ _ _ _ _ _ _ _ _ _ I n ltac:(lia)) as (y & Hy & Hsn). exists y. split; [done|].
    rewrite list_lookup_insert_ne; [done|]. apply slots_differ; [done|lia|lia].
Qed.

(** What the consumer does once it has the head, in [drain_batch]. *)
Lemma drain_some_at T hv max l :
  T <= hv -> hv - T < u64_mod ->
  cons_at T hv (phys hv) (Some (drain_some CAP (phys hv) (phys T) max [])) T l l.
Proof.
  intros Hle Hlt. unfold drain_some. rewrite phys_sub by done.
  destruct (N.eqb_spec (N.min (hv - T) max) 0) as [E|E].
  - rewrite <- (app_nil_r l) at 1. apply (c_done _ _ (Drained [] 0)).
  - pose proof (c_loop T hv (N.to_nat (N.min (hv - T) max)) 0 (N.min (hv - T) max) [] l) as HL.
    rewrite !N.add_0_r, app_nil_r in HL. apply HL; lia.
Qed.

Lemma consumer_access_inv v t t' H T hv tv hw tr ts sent got :
  inv t H T hv tv hw tr ts sent got -> consumer_access v t = Some t' ->
  exists T' hv' tr' ts' got', inv t' H T' hv' tv hw tr' ts' sent got'.
Proof using Hk.
  intros I E. pose proof (cap_bounds k Hk) as [HC0 HC1]. pose proof (read_slot _ _ _ _ _ _ _ _ _ _ I) as HR.
  destruct t as [[hs tl sl] pr [cp ch seen rc]]. destruct I as [I1 I2 I3 I4 I5 I6 I7 I8 I9 I10 I11 I12 I13].
  cbn [ring heads tails slots producer consumer c_prog cached_head head_seen received] in *. subst hs tl seen.
  destruct I7 as (O1 & O2 & O3 & O4 & O5 & O6).
  revert E HR I9 I11 O2 O3.
  destruct I13 as [l|l|l|l|c l|l Hr|a n l Hr|max l|max l|max l|max c l|n i m out l Hm Hr Hn|l|l|c l|a l];
    intros E HR I9 I11 O2 O3;
    cbn -[head_log fmap latest wrapping_sub wrapping_add slot_of N.leb N.eqb N.ltb load N.pow drain_some drain_batch drain_loop] in E.
  - done.
  - apply (inj Some) in E as <-. exists T, hv, T, ts, l. rewrite (latest_tails ts T) by done. split; try done. constructor.
  - apply (inj Some) in E as <-. exists T, hv, T, ts, l. split; try done. cbn [consumer c_prog cached_head received].
    rewrite phys_eqb by lia. destruct (N.eqb_spec hv T); constructor; lia.
  - apply bind_Some in E as (c & Hl & E). apply (inj Some) in E as <-.
    destruct (load_heads H hv v c O4 Hl) as [Hb ->]. exists T, (N.of_nat v), T, ts, l.
    split; try done; [by rewrite Nat2N.id|split; lia|constructor].
  - apply (inj Some) in E as <-. exists T, hv, T, ts, l. split; try done. cbn [consumer c_prog cached_head received].
    rewrite phys_eqb by lia. destruct (N.eqb_spec hv T); [|constructor; lia].
    rewrite <- (app_nil_r l) at 1. apply (c_done _ _ (Popped None)).
  - destruct (HR ltac:(lia)) as (x & Hx & Hg & Hs). rewrite Hx in E. apply (inj Some) in E as <-.
    exists T, hv, (T + 1), ts, (l ++ [x]).
    split; try done; [split; lia|cbn [ring slots]; by rewrite length_insert|]. cbn [consumer c_prog cached_head received].
    rewrite phys_add. apply (c_store _ _ (Popped (Some x))). lia.
  - apply (inj Some) in E as <-. exists (T + n), hv, (T + n), (ts ++ [T + n]), (l ++ items a).
    split; try done; cbn [ring tails producer tail_seen]; [by rewrite fmap_app|by rewrite last_snoc| |by apply lookup_app_l_Some|lia|].
    + apply (nondecreasing_snoc _ T); [done|done|lia].
    + constructor.
  - unfold drain_batch in E. destruct (N.eqb_spec max 0).
    + apply (inj Some) in E as <-. exists T, hv, T, ts, l. split; try done. cbn. rewrite app_nil_r. constructor.
    + apply (inj Some) in E as <-. exists T, hv, T, ts, l. rewrite (latest_tails ts T) by done. split; try done. constructor.
  - apply (inj Some) in E as <-. exists T, hv, T, ts, l. split; try done. cbn [consumer c_prog cached_head received].
    destruct (N.ltb _ _); [constructor|]. apply drain_some_at; lia.
  - apply bind_Some in E as (c & Hl & E). apply (inj Some) in E as <-.
    destruct (load_heads H hv v c O4 Hl) as [Hb ->]. exists T, (N.of_nat v), T, ts, l.
    split; try done; [by rewrite Nat2N.id|split; lia|constructor].
  - apply (inj Some) in E as <-. exists T, hv, T, ts, l. split; try done. cbn [consumer c_prog cached_head received].
    apply drain_some_at; lia.
  - destruct n as [|n]; [lia|]. cbn [drain_loop] in E. rewrite phys_add in E.
    destruct (HR ltac:(lia)) as (x & Hx & Hg & Hs). rewrite Hx in E. apply (inj Some) in E as <-.
    exists T, hv, (T + i + 1), ts, ((l ++ out) ++ [x]).
    split; try done; [split; lia|cbn [ring slots]; by rewrite length_insert|]. cbn [consumer c_prog cached_head received].
    rewrite <- app_assoc, <- N.add_assoc. destruct n as [|n].
    + cbn [drain_loop]. rewrite phys_add. replace m with (i + 1) by lia. apply (c_store _ _ (Drained (out ++ [x]) (i + 1))). lia.
    + apply c_loop; lia.
  - apply (inj Some) in E as <-. exists T, hv, T, ts, l. rewrite (latest_tails ts T) by done. split; try done. constructor.
  - apply bind_Some in E as (c & Hl & E). apply (inj Some) in E as <-.
    destruct (load_heads H hv v c O4 Hl) as [Hb ->]. exists T, (N.of_nat v), T, ts, l.
    split; try done; [by rewrite Nat2N.id|split; lia|constructor].
  - apply (inj Some) in E as <-. exists T, hv, T, ts, l. split; try done. cbn [consumer c_prog cached_head received].
    rewrite <- (app_nil_r l) at 1. apply (c_done _ _ (IsEmpty _)).
  - apply (inj Some) in E as <-. exists T, hv, T, ts, (l ++ items a). split; try done. constructor.
Qed.

Lemma start_inv t : spsc_pair CAP = Ret t -> inv t 0 0 0 0 0 0 [0] [] [].
Proof using Hk.
  unfold spsc_pair. destruct (0 <? CAP); [|done]. destruct (is_power_of_two CAP); [|done].
  cbn [rbind rassert]. intros [= <-]. pose proof (cap_bounds k Hk).
  split; try done; cbn [ring heads tails slots producer consumer]; [|lia| |lia|constructor|constructor].
  - intros i j a b _ Ha Hb. destruct i, j; simplify_list_eq; lia.
  - by rewrite length_replicate.
Qed.

Lemma threads_inv t : reachable CAP t -> exists H T hv tv hw tr ts sent got, inv t H T hv tv hw tr ts sent got.
Proof using Hk.
  induction 1 as [t E|t m t' _ (H & T & hv & tv & hw & tr & ts & sent & got & I) E].
  { do 9 eexists. by apply start_inv. }
  destruct m as [x|v|c|v]; cbn [do_move] in E.
  - exists H, T, hv, tv, hw, tr, ts, sent, got. unfold start_push in E.
    destruct I as [I1 I2 I3 I4 I5 I6 I7 I8 I9 I10 I11 I12 I13].
    destruct I12; try done. apply (inj Some) in E as <-. split; try done. constructor.
  - destruct (producer_access_inv _ _ _ _ _ _ _ _ _ _ _ _ I E) as (H' & tv' & hw' & sent' & I'). by eauto 10.
  - exists H, T, hv, tv, hw, tr, ts, sent, got. unfold start_call in E.
    destruct I as [I1 I2 I3 I4 I5 I6 I7 I8 I9 I10 I11 I12 I13].
    destruct I13; try done. apply (inj Some) in E as <-. split; try done. destruct c; constructor.
  - destruct (consumer_access_inv _ _ _ _ _ _ _ _ _ _ _ _ I E) as (T' & hv' & tr' & ts' & got' & I'). by eauto 12.
Qed.

(** ** What the invariant gives *)

Lemma inv_no_race t H T hv tv hw tr ts sent got : inv t H T hv tv hw tr ts sent got -> race t = false.
Proof using Hk.
  intros I. pose proof (inv_order _ _ _ _ _ _ _ _ _ _ I) as (O1 & O2 & O3 & O4 & O5 & O6).
  pose proof (inv_prod _ _ _ _ _ _ _ _ _ _ I) as IP. pose proof (inv_cons _ _ _ _ _ _ _ _ _ _ I) as IC.
  unfold race. assert (tr < hv -> hw = H -> H < tv + CAP ->
    (slot_of CAP (phys H) =? slot_of CAP (phys tr))%nat = false) as Hne.
  { intros Hr -> Hw. rewrite !slot_of_phys by done. apply Nat.eqb_neq. intros E. symmetry in E. revert E.
    apply slots_differ; [done|lia|lia]. }
  destruct IP; try done. destruct IC as [| | | | | | | | | | |n i m out l' Hm Hr Hn| | | |]; try done; cbn [push_write pop_read].
  - apply Hne; lia || done.
  - unfold drain_batch. by destruct (_ =? _).
  - destruct n as [|n]; [lia|]. cbn [drain_loop]. rewrite phys_add. apply Hne; lia || done.
Qed.

Lemma inv_can_go t H T hv tv hw tr ts sent got : inv t H T hv tv hw tr ts sent got -> can_go t.
Proof using Hk.
  intros I. pose proof (read_slot _ _ _ _ _ _ _ _ _ _ I) as HR.
  destruct t as [[hs tl sl] [pp ct seen acc] [cp ch hseen rc]]. destruct I as [I1 I2 I3 I4 I5 I6 I7 I8 I9 I10 I11 I12 I13].
  cbn [ring heads tails slots producer consumer p_prog cached_tail tail_seen accepted c_prog cached_head head_seen received] in *.
  subst hs tl hseen. destruct I7 as (O1 & O2 & O3 & O4 & O5 & O6). split.
  - intros Hp. exists seen. clear I9 I10 I11 HR. revert Hp. destruct I12; intros Hp; try done; try (by eexists); [|].
    + unfold producer_access, load, push_2. cbn [producer p_prog ring tails tail_seen].
      rewrite Nat.leb_refl, list_lookup_fmap, I5. by eexists.
    + unfold producer_access, push_write. cbn [producer p_prog ring slots].
      rewrite slot_of_phys, decide_True by (done || rewrite I8; by apply slot_bound). by eexists.
  - intros Hp. exists (N.to_nat hv). clear I9 I10 I11 I12.
    assert (load (head_log H) (N.to_nat hv) (N.to_nat hv) = Some (phys hv)) as HL.
    { unfold load, head_log. rewrite Nat.leb_refl, list_lookup_fmap, lookup_seq_lt by lia. simpl. by rewrite N2Nat.id. }
    revert Hp HR.
    destruct I13 as [| | | | |l Hr| |max| | | |n i m out l Hm Hr Hn| | | |]; intros Hp HR; try done; try (by eexists); [| | | | |].
    + unfold consumer_access, pop_2. cbn [consumer c_prog ring heads head_seen]. rewrite HL. by eexists.
    + destruct (HR Hr) as (x & Hx & _). unfold consumer_access, pop_read. cbn [consumer c_prog ring slots]. rewrite Hx. by eexists.
    + unfold consumer_access, drain_batch. cbn [consumer c_prog]. destruct (_ =? _); by eexists.
    + unfold consumer_access, drain_2. cbn [consumer c_prog ring heads head_seen]. rewrite HL. by eexists.
    + destruct n as [|n]; [lia|]. destruct (HR ltac:(lia)) as (x & Hx & _). unfold consumer_access.
      cbn [consumer c_prog ring slots drain_loop]. rewrite phys_add, Hx. by eexists.
    + unfold consumer_access, empty_1. cbn [consumer c_prog ring heads head_seen]. rewrite HL. by eexists.
Qed.

(** The items on their way: of the calls in progress only the running push may
    have been received. *)
Lemma inv_prefix t H T hv tv hw tr ts sent got :
  inv t H T hv tv hw tr ts sent got ->
  received (consumer t) `prefix_of` accepted (producer t) ++ option_list (fst <$> p_prog (producer t)).
Proof.
  intros I. transitivity sent.
  - transitivity got; [|rewrite (inv_got _ _ _ _ _ _ _ _ _ _ I); apply prefix_take].
    destruct (inv_cons _ _ _ _ _ _ _ _ _ _ I); try done; by apply prefix_app_r.
  - destruct (inv_prod _ _ _ _ _ _ _ _ _ _ I); cbn;
      first [done | by rewrite app_nil_r | by apply prefix_app_r].
Qed.

(** The slots in use hold the items between two counters, in order. *)
Lemma drop_loop_items n (sl : list (option A)) (sent : list A) tail i :
  N.of_nat n <= CAP -> length sl = N.to_nat CAP ->
  (forall m, tail + i <= m < tail + i + N.of_nat n -> exists x,
     sent !! N.to_nat m = Some x /\ sl !! N.to_nat (m mod CAP) = Some (Some x)) ->
  drop_loop CAP n (phys tail) i sl = Some (take n (drop (N.to_nat (tail + i)) sent)).
Proof using Hk.
  revert i sl. induction n as [|n IH]; intros i sl Hn Hl Hsl; [done|]. cbn [drop_loop].
  rewrite phys_add, slot_of_phys by done. destruct (Hsl (tail + i) ltac:(lia)) as (x & Hx & ->).
  rewrite IH; [|lia|by rewrite length_insert|].
  - rewrite (drop_S sent x (N.to_nat (tail + i))) by done.
    by replace (N.to_nat (tail + (i + 1))) with (S (N.to_nat (tail + i))) by lia.
  - intros m Hm. destruct (Hsl m ltac:(lia)) as (y & Hy & Hs). exists y. split; [done|].
    rewrite list_lookup_insert_ne; [done|]. apply slots_differ; [done|lia|lia].
Qed.

Lemma prod_idle H tv c hw sent acc : prod_at H tv c None hw sent acc -> hw = H /\ sent = acc /\ c = phys tv.
Proof. by inversion 1. Qed.

Lemma cons_idle T hv c tr got rc : cons_at T hv c None tr got rc -> tr = T /\ got = rc /\ c = phys hv.
Proof. by inversion 1. Qed.

(** ** Calls without interference *)

Lemma finish_push_step n t t' :
  p_prog (producer t) <> None -> producer_access (pred (length (tails (ring t)))) t = Some t' ->
  finish_push (S n) t = finish_push n t'.
Proof. intros Hp E. cbn [finish_push]. destruct (p_prog (producer t)); [|done]. by rewrite E. Qed.

Lemma finish_call_step n t t' :
  c_prog (consumer t) <> None -> consumer_access (pred (length (heads (ring t)))) t = Some t' ->
  finish_call (S n) t = finish_call n t'.
Proof. intros Hp E. cbn [finish_call]. destruct (c_prog (consumer t)); [|done]. by rewrite E. Qed.

Lemma load_latest log seen x : (seen < length log)%nat -> last log = Some x -> load log seen (pred (length log)) = Some x.
Proof. intros Hs Hl. unfold load. rewrite last_lookup in Hl. by rewrite (proj2 (Nat.leb_le _ _)) by lia. Qed.

Lemma write_alone n (r : RingBuffer (A := A)) (c : SpscConsumer (A := A)) ct seen acc (x : A) H :
  length (slots r) = N.to_nat CAP -> (3 <= n)%nat ->
  exists r', finish_push n (mkThreads r (mkProducer (Some (x, push_write CAP (phys H) x)) ct seen acc) c) =
    Some (mkThreads r' (mkProducer None ct seen (acc ++ [x])) c).
Proof using Hk.
  intros Hl Hn. destruct n as [|[|[|n]]]; [lia|lia|lia|].
  erewrite finish_push_step; [|done|unfold producer_access; cbn [producer p_prog push_write ring];
    rewrite decide_True by (rewrite Hl, slot_of_phys by done; by apply slot_bound); reflexivity].
  erewrite finish_push_step; [|done|reflexivity]. erewrite finish_push_step; [|done|reflexivity].
  eexists. by destruct n.
Qed.

Lemma push_alone t x H T hv tv hw tr ts sent got :
  inv t H T hv tv hw tr ts sent got -> p_prog (producer t) = None ->
  exists t', start_push CAP x t ≫= finish_push 7 = Some t' /\ p_prog (producer t') = None /\ consumer t' = consumer t /\
    accepted (producer t') = accepted (producer t) ++ (if H - T <? CAP then [x] else []).
Proof using Hk.
  intros I Hp. pose proof (cap_bounds k Hk) as [HC0 HC1].
  destruct t as [[hs tl sl] [pp ct seen acc] cn]. destruct I as [I1 I2 I3 I4 I5 I6 I7 I8 I9 I10 I11 I12 I13].
  cbn [ring heads tails slots producer consumer p_prog cached_tail tail_seen accepted] in *. subst hs tl pp.
  apply prod_idle in I12 as (-> & -> & ->). destruct I7 as (O1 & O2 & O3 & O4 & O5 & O6).
  unfold start_push. cbn [producer p_prog mbind option_bind ring cached_tail tail_seen accepted consumer].
  erewrite finish_push_step; [|done|reflexivity]. cbn [ring heads]. rewrite latest_heads.
  erewrite finish_push_step; [|done|reflexivity]. cbn [producer cached_tail]. rewrite phys_sub by lia.
  destruct (N.leb_spec CAP (H - tv)) as [Hf|Hf].
  - assert (load (phys <$> ts) seen (pred (length (phys <$> ts))) = Some (phys T)) as HL.
    { apply load_latest; [|by rewrite fmap_last, I3]. rewrite length_fmap. by apply lookup_lt_Some in I5. }
    erewrite finish_push_step; [|done|unfold producer_access; cbn [producer p_prog ring tails tail_seen];
      rewrite HL; reflexivity].
    erewrite finish_push_step; [|done|reflexivity]. cbn [producer accepted]. rewrite phys_sub by lia.
    destruct (N.leb_spec CAP (H - T)), (N.ltb_spec (H - T) CAP); try lia.
    + erewrite finish_push_step; [|done|reflexivity]. eexists. split; [reflexivity|]. by rewrite app_nil_r.
    + edestruct write_alone as [r' ->]; [done|lia|]. by eexists.
  - destruct (N.ltb_spec (H - T) CAP); [|lia]. cbn [producer accepted].
    edestruct write_alone as [r' ->]; [done|lia|]. by eexists.
Qed.

(** The slots that hold the items [from .. from + n]. *)
Definition holds (sl : list (option A)) (sent : list A) (from n : N) : Prop :=
  forall j, from <= j < from + n -> exists x,
    sent !! N.to_nat j = Some x /\ sl !! N.to_nat (j mod CAP) = Some (Some x).

Lemma holds_tail sl sent from n :
  holds sl sent from (n + 1) -> n + 1 <= CAP -> holds (<[N.to_nat (from mod CAP) := None]> sl) sent (from + 1) n.
Proof using Hk.
  intros Hh Hn j Hj. destruct (Hh j ltac:(lia)) as (y & Hy & Hs). exists y. split; [done|].
  rewrite list_lookup_insert_ne; [done|]. apply slots_differ; [done|lia|lia].
Qed.

Lemma drain_alone n (r : RingBuffer (A := A)) (p : SpscProducer (A := A)) ch seen rc T i m out sent fuel :
  holds (slots r) sent (T + i) (N.of_nat n) -> N.of_nat n <= CAP -> (n + 2 <= fuel)%nat ->
  exists r', finish_call fuel (mkThreads r p (mkConsumer (Some (drain_loop CAP n (phys T) i m out)) ch seen rc)) =
    Some (mkThreads r' p (mkConsumer None ch seen (rc ++ out ++ take n (drop (N.to_nat (T + i)) sent)))).
Proof using Hk.
  revert r i out fuel. induction n as [|n IH]; intros r i out fuel Hh Hn Hf; (destruct fuel as [|fuel]; [lia|]); cbn [drain_loop].
  - destruct fuel as [|fuel]; [lia|].
    erewrite finish_call_step; [|done|reflexivity]. erewrite finish_call_step; [|done|reflexivity].
    eexists. rewrite app_nil_r. by destruct fuel.
  - destruct (Hh (T + i) ltac:(lia)) as (x & Hx & Hs).
    erewrite finish_call_step; [|done|unfold consumer_access; cbn [consumer c_prog ring];
      rewrite phys_add, slot_of_phys, Hs by done; reflexivity].
    edestruct (IH (mkRing (heads r) (tails r) (<[N.to_nat ((T + i) mod CAP) := None]> (slots r))) (i + 1) (out ++ [x]) fuel)
      as [r' Hr']; [|lia|lia|].
    + rewrite N.add_assoc. apply holds_tail; [|lia]. by replace (N.of_nat n + 1) with (N.of_nat (S n)) by lia.
    + exists r'. cbn [consumer received cached_head head_seen producer]. rewrite Hr'. do 3 f_equal.
      rewrite <- app_assoc. cbn [app]. rewrite (drop_S sent x (N.to_nat (T + i))) by done.
      by replace (N.to_nat (T + (i + 1))) with (S (N.to_nat (T + i))) by lia.
Qed.

(** How many items a call may take. *)
Definition wanted (c : call) : nat := match c with Pop => 1%nat | Drain max => N.to_nat max | Ask => 0%nat end.

(** The items published and not read. *)
Definition unread (H T : N) (sent : list A) : list A := take (N.to_nat (H - T)) (drop (N.to_nat T) sent).

(** A single read. *)
Lemma read_unread (r : RingBuffer (A := A)) (p : SpscProducer (A := A)) ch seen rc H T sent fuel :
  holds (slots r) sent T (H - T) -> T < H -> (3 <= fuel)%nat ->
  exists r', finish_call fuel (mkThreads r p (mkConsumer (Some (pop_read CAP (phys T))) ch seen rc)) =
    Some (mkThreads r' p (mkConsumer None ch seen (rc ++ take 1 (unread H T sent)))).
Proof using Hk.
  intros Hh Hlt Hf. destruct fuel as [|[|[|fuel]]]; [lia|lia|lia|]. destruct (Hh T ltac:(lia)) as (x & Hx & Hs).
  erewrite finish_call_step; [|done|unfold consumer_access; cbn [consumer c_prog pop_read ring];
    rewrite slot_of_phys, Hs by done; reflexivity].
  erewrite finish_call_step; [|done|reflexivity]. erewrite finish_call_step; [|done|reflexivity].
  eexists. unfold unread. rewrite (drop_S sent x (N.to_nat T)), take_take by done.
  replace (1 `min` N.to_nat (H - T))%nat with 1%nat by lia. by destruct fuel.
Qed.

Lemma drain_some_alone (r : RingBuffer (A := A)) (p : SpscProducer (A := A)) seen rc H T hv max sent fuel :
  holds (slots r) sent T (H - T) -> T <= hv <= H -> H - T <= CAP -> hv = H \/ max <= hv - T -> (N.to_nat CAP + 2 <= fuel)%nat ->
  exists r', finish_call fuel (mkThreads r p (mkConsumer (Some (drain_some CAP (phys hv) (phys T) max [])) (phys hv) seen rc)) =
    Some (mkThreads r' p (mkConsumer None (phys hv) seen (rc ++ take (N.to_nat max) (unread H T sent)))).
Proof using Hk.
  intros Hh Hb HC Hv Hf. pose proof (cap_bounds k Hk) as [HC0 HC1]. unfold drain_some, unread. rewrite phys_sub by lia.
  rewrite take_take. replace (N.to_nat max `min` N.to_nat (H - T))%nat with (N.to_nat (N.min (hv - T) max)) by lia.
  destruct (N.eqb_spec (N.min (hv - T) max) 0) as [->|Hne].
  - destruct fuel as [|fuel]; [lia|]. erewrite finish_call_step; [|done|reflexivity]. eexists. by destruct fuel.
  - edestruct (drain_alone (N.to_nat (N.min (hv - T) max)) r p (phys hv) seen rc T 0 (N.min (hv - T) max) [] sent fuel)
      as [r' ->]; [|lia|lia|by rewrite N.add_0_r; eexists].
    intros j Hj. apply Hh. lia.
Qed.

Lemma call_alone t c H T hv tv hw tr ts sent got :
  inv t H T hv tv hw tr ts sent got -> c_prog (consumer t) = None ->
  exists t', start_call CAP c t ≫= finish_call (N.to_nat CAP + 7) = Some t' /\ c_prog (consumer t') = None /\
    producer t' = producer t /\ received (consumer t') = received (consumer t) ++ take (wanted c) (unread H T sent).
Proof using Hk.
  intros I Hc. pose proof (cap_bounds k Hk) as [HC0 HC1].
  destruct t as [[hs tl sl] pr [cp ch seen rc]]. destruct I as [I1 I2 I3 I4 I5 I6 I7 I8 I9 I10 I11 I12 I13].
  cbn [ring heads tails slots producer consumer c_prog cached_head head_seen received] in *. subst hs tl cp seen.
  apply cons_idle in I13 as (-> & -> & ->). destruct I7 as (O1 & O2 & O3 & O4 & O5 & O6).
  assert (holds sl sent T (H - T)) as Hh by (intros j Hj; apply I9; lia).
  assert (load (head_log H) (N.to_nat hv) (pred (length (head_log H))) = Some (phys H)) as HL.
  { apply load_latest; [unfold head_log; rewrite length_fmap, length_seq; lia|].
    unfold head_log. rewrite fmap_last, seq_S, last_snoc. cbn. by rewrite N2Nat.id. }
  rewrite Nat.add_comm. unfold start_call. cbn [consumer c_prog mbind option_bind ring cached_head head_seen received producer].
  destruct c as [|max|]; cbn [program_of wanted].
  - change (7 + N.to_nat CAP)%nat with (S (S (S (S (S (2 + N.to_nat CAP)))))).
    erewrite finish_call_step; [|done|reflexivity]. cbn [ring tails]. rewrite (latest_tails ts T) by done.
    erewrite finish_call_step; [|done|reflexivity]. cbn [consumer cached_head received head_seen producer ring].
    rewrite phys_eqb by lia. destruct (N.eqb_spec hv T) as [->|Hne].
    + erewrite finish_call_step; [|done|unfold consumer_access; cbn [consumer c_prog ring heads head_seen]; rewrite HL; reflexivity].
      erewrite finish_call_step; [|done|reflexivity]. cbn [consumer cached_head received head_seen producer ring].
      rewrite phys_eqb by lia. destruct (N.eqb_spec H T) as [->|Hne].
      * erewrite finish_call_step; [|done|reflexivity]. eexists. split; [by destruct (2 + N.to_nat CAP)%nat|].
        unfold unread. by rewrite N.sub_diag, take_0, take_nil.
      * edestruct read_unread as [r' ->]; [exact Hh|lia|lia|]. by eexists.
    + edestruct read_unread as [r' ->]; [exact Hh|lia|lia|]. by eexists.
  - change (7 + N.to_nat CAP)%nat with (S (S (S (S (S (2 + N.to_nat CAP)))))). unfold drain_batch.
    destruct (N.eqb_spec max 0) as [->|Hm0].
    { erewrite finish_call_step; [|done|reflexivity]. eexists. split; [done|]. by rewrite take_0. }
    erewrite finish_call_step; [|done|reflexivity]. cbn [ring tails]. rewrite (latest_tails ts T) by done.
    erewrite finish_call_step; [|done|reflexivity]. cbn [consumer cached_head received head_seen producer ring].
    rewrite phys_sub by lia. destruct (N.ltb_spec (hv - T) max) as [Hlt|Hge].
    + erewrite finish_call_step; [|done|unfold consumer_access; cbn [consumer c_prog ring heads head_seen]; rewrite HL; reflexivity].
      erewrite finish_call_step; [|done|reflexivity]. cbn [consumer cached_head received head_seen producer ring].
      edestruct (drain_some_alone (mkRing (head_log H) (phys <$> ts) sl)) as [r' ->];
        [exact Hh|lia|lia|by left|lia|]. by eexists.
    + edestruct (drain_some_alone (mkRing (head_log H) (phys <$> ts) sl)) as [r' ->];
        [exact Hh|lia|lia|by right|lia|]. by eexists.
  - change (7 + N.to_nat CAP)%nat with (S (S (S (S (S (2 + N.to_nat CAP)))))).
    erewrite finish_call_step; [|done|reflexivity]. cbn [ring tails]. rewrite (latest_tails ts T) by done.
    erewrite finish_call_step; [|done|unfold consumer_access; cbn [consumer c_prog ring heads head_seen]; rewrite HL; reflexivity].
    erewrite finish_call_step; [|done|reflexivity]. erewrite finish_call_step; [|done|reflexivity].
    eexists. split; [done|]. by rewrite take_0.
Qed.

Lemma inv_drop t H T hv tv hw tr ts sent got :
  inv t H T hv tv hw tr ts sent got -> p_prog (producer t) = None -> c_prog (consumer t) = None ->
  drop_ring CAP (ring t) = Some (unread H T sent) /\ accepted (producer t) = received (consumer t) ++ unread H T sent /\
  N.of_nat (length (unread H T sent)) = H - T /\ H - T <= CAP.
Proof using Hk.
  intros I Hp Hc. pose proof (cap_bounds k Hk). destruct I as [I1 I2 I3 I4 I5 I6 I7 I8 I9 I10 I11 I12 I13].
  rewrite Hp in I12. rewrite Hc in I13.
  apply prod_idle in I12 as (-> & -> & _). apply cons_idle in I13 as (-> & -> & _).
  unfold drop_ring, unread. rewrite I1, I2, latest_heads, (latest_tails ts T) by done.
  rewrite phys_sub by lia. split; [|split; [|split]].
  - rewrite (drop_loop_items _ _ (accepted (producer t))); [by rewrite N.add_0_r|lia|done|].
    intros m Hm. apply I9. lia.
  - rewrite take_ge by (rewrite length_drop; lia). by rewrite I11, take_drop.
  - rewrite length_take, length_drop. lia.
  - lia.
Qed.
End Inv.

(** ** Theorems *)

Section Theorems.
Context {A : Type}.
Implicit Types t : threads (A := A).

Lemma reachable_cap CAP t : reachable CAP t -> CAP = 2 ^ N.log2 CAP.
Proof.
  induction 1 as [t E|]; [|done]. unfold spsc_pair in E. destruct (0 <? CAP); [|done].
  destruct (is_power_of_two CAP) eqn:Ep; [|done]. by apply N.eqb_eq.
Qed.

Lemma reachable_shape CAP t : CAP < u64_mod -> reachable CAP t -> exists k, CAP = 2 ^ k /\ k < 64.
Proof.
  intros Hc Hr. exists (N.log2 CAP). pose proof (reachable_cap _ _ Hr) as E. split; [done|].
  apply (N.pow_lt_mono_r_iff 2); [done|]. by rewrite <- E.
Qed.

(** C19: For every interleaving of the two threads and every coherent choice of
    stale counter values: the threads never touch one slot at once, never read
    an uninitialised slot and never get stuck, the items received are a prefix
    of the items accepted (and the one being pushed), in order and once each,
    and when both halves are gone [Drop] destroys exactly the accepted items not
    received, at most CAP. *)
Theorem spsc_safe CAP t :
  CAP < u64_mod -> reachable CAP t ->
  race t = false /\ can_go t /\
  received (consumer t) `prefix_of` accepted (producer t) ++ option_list (fst <$> p_prog (producer t)) /\
  (p_prog (producer t) = None -> c_prog (consumer t) = None ->
   exists rest, drop_ring CAP (ring t) = Some rest /\ accepted (producer t) = received (consumer t) ++ rest /\
     N.of_nat (length rest) <= CAP).
Proof.
  intros Hc Hr. destruct (reachable_shape CAP t Hc Hr) as (k & -> & Hk).
  destruct (threads_inv k Hk t Hr) as (H & T & hv & tv & hw & tr & ts & sent & got & I).
  split; [by eapply inv_no_race|]. split; [by eapply inv_can_go|]. split; [by eapply inv_prefix|].
  intros Hp Hi. destruct (inv_drop k Hk _ _ _ _ _ _ _ _ _ _ I Hp Hi) as (Hd & Ha & Hl & Hle). eexists. split; [done|].
  split; [done|lia].
Qed.

(** A call made while the other half is idle, with up-to-date loads, ends
    within a bounded number of accesses and behaves as the operation on a
    bounded queue: a push is accepted exactly when fewer than CAP items are
    unread, a pop takes the oldest item, [drain_batch] the oldest [max]. *)
Theorem spsc_calls_exact CAP t rest x c :
  CAP < u64_mod -> reachable CAP t -> p_prog (producer t) = None -> c_prog (consumer t) = None ->
  accepted (producer t) = received (consumer t) ++ rest ->
  (exists t', start_push CAP x t ≫= finish_push 7 = Some t' /\ p_prog (producer t') = None /\ consumer t' = consumer t /\
     accepted (producer t') = accepted (producer t) ++ (if N.of_nat (length rest) <? CAP then [x] else [])) /\
  (exists t', start_call CAP c t ≫= finish_call (N.to_nat CAP + 7) = Some t' /\ c_prog (consumer t') = None /\
     producer t' = producer t /\ received (consumer t') = received (consumer t) ++ take (wanted c) rest).
Proof.
  intros Hc Hr Hp Hi Hrest. destruct (reachable_shape CAP t Hc Hr) as (k & -> & Hk).
  destruct (threads_inv k Hk t Hr) as (H & T & hv & tv & hw & tr & ts & sent & got & I).
  destruct (inv_drop k Hk _ _ _ _ _ _ _ _ _ _ I Hp Hi) as (_ & Ha & Hl & _).
  rewrite Hrest in Ha. apply app_inv_head in Ha as ->. rewrite Hl. split.
  - by eapply push_alone.
  - by eapply call_alone.
Qed.
End Theorems.

(** ** A run

    A ring of two slots: two pushes interleaved with a pop that reads a stale
    head. *)
Definition demo_moves : list (move (A := nat)) :=
  [PushCall 7%nat; ProducerMove 0; ProducerMove 0; ProducerMove 0; ConsumerCall Pop; ConsumerMove 0; ProducerMove 0;
   ConsumerMove 0; ProducerMove 0; ConsumerMove 1; PushCall 8%nat; ConsumerMove 0; ProducerMove 0; ConsumerMove 0;
   ConsumerMove 0; ConsumerMove 0; ProducerMove 0; ProducerMove 0; ProducerMove 0; ProducerMove 0].

Fixpoint do_moves {A} (CAP : N) (t : threads (A := A)) (ms : list move) : option threads :=
  match ms with [] => Some t | m :: ms => t ← do_move CAP t m; do_moves CAP t ms end.

Lemma do_moves_reachable {A} CAP (t t' : threads (A := A)) ms :
  reachable CAP t -> do_moves CAP t ms = Some t' -> reachable CAP t'.
Proof.
  revert t. induction ms as [|m ms IH]; intros t Hr E; cbn [do_moves] in E; [by injection E as <-|].
  apply bind_Some in E as (t1 & E1 & E). eapply IH; [|done]. by eapply reach_move.
Qed.

Definition demo_start : threads (A := nat) :=
  mkThreads (mkRing [0] [0] [None; None]) (mkProducer None 0 0 []) (mkConsumer None 0 0 []).
Definition demo_end : threads (A := nat) :=
  mkThreads (mkRing [0; 1; 2] [0; 1] [None; Some 8%nat]) (mkProducer None 0 0 [7; 8]%nat) (mkConsumer None 1 1 [7]%nat).

Lemma demo_reachable : reachable 2 demo_end.
Proof. apply (do_moves_reachable 2 demo_start _ demo_moves); [by apply reach_start|vm_compute; reflexivity]. Qed.

Lemma spsc_safe_witness : received (consumer demo_end) `prefix_of` accepted (producer demo_end) ++ [].
Proof. exact (proj1 (proj2 (proj2 (spsc_safe 2 demo_end eq_refl demo_reachable)))). Defined.

Lemma spsc_calls_exact_witness :
  exists t', start_push 2 9%nat demo_end ≫= finish_push 7 = Some t' /\ accepted (producer t') = [7; 8; 9]%nat.
Proof.
  destruct (spsc_calls_exact 2 demo_end [8%nat] 9%nat Pop eq_refl demo_reachable eq_refl eq_refl eq_refl) as [(t' & E & _ & _ & Ha) _].
  exists t'. split; [exact E|]. rewrite Ha. reflexivity.
Defined.
