(* ===== verification/SessionBuffers.v ===== *)
(** * Sealing in place, and sessions shared by workers

    The operations of crates/yip-crypto/src/lib.rs that work inside a caller's
    buffer, or under a counter or a replay window the caller supplies, against
    the plain [seal] and [open] of Session; the chunked dispenser of nonces,
    crates/yip-io/src/nonce.rs; and workers that seal under one session with
    nonces from it. *)

From Stdlib Require Strings.Byte.
From Stdlib Require Import NArith Lia.
From stdpp Require Import base numbers list.
From S2P Require Import Prelude AntiReplay Session.

Local Open Scope N_scope.

Record ChunkedNonceDispenser := mkDispenser { next_nonce_at : N; chunk_size : N }.
Record LocalNonceWindow := mkWindow { current : N; limit : N }.

Module Nonce.

Definition new (chunk : N) : ChunkedNonceDispenser := mkDispenser 0 (N.max chunk 1).

(** [fetch_add] wraps around, the end of the window saturates. *)
Definition claim_chunk (d : ChunkedNonceDispenser) : ChunkedNonceDispenser * LocalNonceWindow :=
  let base := next_nonce_at d in
  (mkDispenser (wrap64 (base + chunk_size d)) (chunk_size d), mkWindow base (sat_add64 base (chunk_size d))).

Definition empty : LocalNonceWindow := mkWindow 0 0.

(** [self.current += 1] is a checked addition in debug builds. *)
Definition take_one (w : LocalNonceWindow) : run (LocalNonceWindow * option N) :=
  if current w <? limit w
  then let! _ := rassert (current w + 1 <? u64_mod) in Ret (mkWindow (current w + 1) (limit w), Some (current w))
  else Ret (w, None).

Definition next_nonce (w : LocalNonceWindow) (d : ChunkedNonceDispenser) :
    run (LocalNonceWindow * ChunkedNonceDispenser * option N) :=
  if current w <? limit w
  then let! ' (w, n) := take_one w in Ret (w, d, n)
  else
    let ' (d, w) := claim_chunk d in
    let! ' (w, n) := take_one w in Ret (w, d, n).

(** Workers asking in any order: each entry names the worker that asks. *)
Definition ask (x : list LocalNonceWindow * ChunkedNonceDispenser * list (option N)) (i : nat) :
    run (list LocalNonceWindow * ChunkedNonceDispenser * list (option N)) :=
  let ' (ws, d, out) := x in
  match ws !! i with
  | None => Ret x
  | Some w => let! ' (w, d, n) := next_nonce w d in Ret (<[i := w]> ws, d, out ++ [n])
  end.

Definition ask_all (workers : nat) (chunk : N) (order : list nat) :=
  rfold ask order (replicate workers empty, new chunk, []).

(** ** Invariant *)

Definition within (n : N) (w : LocalNonceWindow) : Prop := current w <= n < limit w.

Record nonce_inv (ws : list LocalNonceWindow) (d : ChunkedNonceDispenser) (used : list N) : Prop := {
  nv_chunk : 0 < chunk_size d;
  nv_below : forall i w, ws !! i = Some w -> limit w <= next_nonce_at d;
  nv_apart : forall i j w w' n, ws !! i = Some w -> ws !! j = Some w' -> within n w -> within n w' -> i = j;
  nv_used : forall n, n ∈ used -> n < next_nonce_at d /\ forall i w, ws !! i = Some w -> ~ within n w;
  nv_once : NoDup used;
}.

(** Serving the first nonce of a worker's window. *)
Lemma serve_inv ws d used i w :
  nonce_inv ws d used -> ws !! i = Some w -> current w < limit w ->
  nonce_inv (<[i := mkWindow (current w + 1) (limit w)]> ws) d (used ++ [current w]).
Proof.
  intros [H1 H2 H3 H4 H5] Hi Hlt. assert (within (current w) w) as Hin by (split; lia).
  assert (forall j v n, <[i := mkWindow (current w + 1) (limit w)]> ws !! j = Some v -> within n v ->
    exists v', ws !! j = Some v' /\ limit v' = limit v /\ within n v' /\ (j = i -> n <> current w)) as Hsub.
  { intros j v n Hj Hn. apply list_lookup_insert_Some in Hj as [(<- & <- & _)|[Hne Hj]].
    - exists w. unfold within in *. cbn in *. split; [done|]. lia.
    - exists v. repeat split; try done; apply Hn. }
  split; [done| | | |].
  - intros j v Hj. apply list_lookup_insert_Some in Hj as [(<- & <- & _)|[_ Hj]]; [exact (H2 i w Hi)|exact (H2 j v Hj)].
  - intros j j' v v' n Hj Hj' Hn Hn'. destruct (Hsub j v n Hj Hn) as (u & ? & _ & ? & _).
    destruct (Hsub j' v' n Hj' Hn') as (u' & ? & _ & ? & _). by apply (H3 j j' u u' n).
  - intros n [Hn| ->%list_elem_of_singleton]%elem_of_app.
    + split; [by apply H4|]. intros j v Hj Hv. destruct (Hsub j v n Hj Hv) as (u & Hu & _ & ? & _). by apply (proj2 (H4 n Hn) j u).
    + split; [pose proof (H2 i w Hi); lia|]. intros j v Hj Hv. destruct (Hsub j v _ Hj Hv) as (u & Hu & _ & Hw & Hne).
      by apply Hne; [apply (H3 j i u w (current w))|].
  - apply NoDup_app. split; [done|]. split; [|apply NoDup_singleton].
    intros n Hn ->%list_elem_of_singleton. by apply (proj2 (H4 _ Hn) i w).
Qed.

(** A worker whose window is used up takes a fresh chunk. *)
Lemma claim_inv ws d used i w :
  nonce_inv ws d used -> ws !! i = Some w -> limit w <= current w -> next_nonce_at d + chunk_size d < u64_mod ->
  nonce_inv (<[i := (claim_chunk d).2]> ws) (claim_chunk d).1 used.
Proof.
  intros [H1 H2 H3 H4 H5] Hi Hge Hb. unfold claim_chunk, wrap64, sat_add64, sat_add.
  rewrite N.mod_small, N.min_l by lia. cbn [fst snd].
  assert (forall j v n, <[i := mkWindow (next_nonce_at d) (next_nonce_at d + chunk_size d)]> ws !! j = Some v -> within n v ->
    (j = i /\ next_nonce_at d <= n) \/ (j <> i /\ n < next_nonce_at d /\ exists v', ws !! j = Some v' /\ within n v')) as Hsub.
  { intros j v n Hj Hn. apply list_lookup_insert_Some in Hj as [(<- & <- & _)|[Hne Hj]]; unfold within in *; cbn in *.
    - left. lia.
    - right. pose proof (H2 j v Hj). split; [done|]. split; [lia|]. by exists v. }
  split; cbn [chunk_size next_nonce_at]; [done| | | |done].
  - intros j v Hj. apply list_lookup_insert_Some in Hj as [(<- & <- & _)|[_ Hj]]; cbn; [lia|]. pose proof (H2 j v Hj). lia.
  - intros j j' v v' n Hj Hj' Hn Hn'.
    destruct (Hsub j v n Hj Hn) as [[-> ?]|(? & ? & u & ? & ?)], (Hsub j' v' n Hj' Hn') as [[-> ?]|(? & ? & u' & ? & ?)]; try lia.
    by apply (H3 j j' u u' n).
  - intros n Hn. destruct (H4 n Hn) as [Hlt Hout]. split; [lia|]. intros j v Hj Hv.
    destruct (Hsub j v n Hj Hv) as [[-> ?]|(? & ? & u & ? & ?)]; [lia|]. by apply (Hout j u).
Qed.

Lemma next_nonce_inv ws d used i w :
  nonce_inv ws d used -> ws !! i = Some w -> next_nonce_at d + chunk_size d < u64_mod ->
  exists w' d' n, next_nonce w d = Ret (w', d', Some n) /\ nonce_inv (<[i := w']> ws) d' (used ++ [n]) /\
    next_nonce_at d' <= next_nonce_at d + chunk_size d /\ chunk_size d' = chunk_size d.
Proof.
  intros I Hi Hb. unfold next_nonce. destruct (N.ltb_spec (current w) (limit w)) as [Hlt|Hge].
  - pose proof (nv_below _ _ _ I i w Hi). unfold take_one. rewrite (proj2 (N.ltb_lt _ _) Hlt).
    rewrite (proj2 (N.ltb_lt _ _)) by lia. do 3 eexists. split; [reflexivity|]. split; [by apply serve_inv|]. lia.
  - pose proof (claim_inv _ _ _ _ _ I Hi Hge Hb) as I'. pose proof (nv_chunk _ _ _ I) as Hc.
    unfold claim_chunk, wrap64, sat_add64, sat_add in *. rewrite N.mod_small, N.min_l in * by lia. cbn [fst snd] in I'.
    cbv beta iota zeta. unfold take_one. cbn [current limit].
    rewrite (proj2 (N.ltb_lt (next_nonce_at d) _)) by lia. rewrite (proj2 (N.ltb_lt (next_nonce_at d + 1) _)) by lia.
    do 3 eexists. split; [reflexivity|]. split; [|cbn; lia].
    apply lookup_lt_Some in Hi.
    pose proof (serve_inv _ _ _ i (mkWindow (next_nonce_at d) (next_nonce_at d + chunk_size d)) I') as HS.
    rewrite list_lookup_insert_eq, list_insert_insert_eq in HS by done. apply HS; [done|cbn; lia].
Qed.

Lemma ask_all_ok workers chunk order :
  N.of_nat (length order) * N.max chunk 1 < u64_mod -> Forall (fun i => (i < workers)%nat) order ->
  exists ws d used, ask_all workers chunk order = Ret (ws, d, Some <$> used) /\ NoDup used /\ length used = length order /\
    Forall (fun n => n < u64_mod) used.
Proof.
  intros Hb HF. unfold ask_all.
  assert (nonce_inv (replicate workers empty) (new chunk) []) as I.
  { split; [cbn; lia| | | |constructor]; try (by intros n ?%elem_of_nil).
    - intros i w [-> _]%lookup_replicate. cbn. lia.
    - intros i j w w' n [-> _]%lookup_replicate _ [? ?] _. cbn in *. lia. }
  pose proof (length_replicate workers empty) as Hlen. change (@nil (option N)) with (Some <$> @nil N).
  assert (next_nonce_at (new chunk) + N.of_nat (length order) * chunk_size (new chunk) < u64_mod) as Hs by done.
  revert I Hlen Hs. change (length order) with (length (@nil N) + length order)%nat at 2.
  generalize (replicate workers empty), (new chunk), (@nil N). clear Hb. induction HF as [|i order Hi HF IH];
    intros ws d used I Hlen Hs; cbn [rfold length] in *.
  - exists ws, d, used. split; [done|]. split; [apply (nv_once _ _ _ I)|]. split; [lia|].
    apply Forall_forall. intros n Hn. pose proof (proj1 (nv_used _ _ _ I n Hn)). lia.
  - destruct (lookup_lt_is_Some_2 ws i ltac:(lia)) as [w Hw]. unfold ask at 1. rewrite Hw.
    destruct (next_nonce_inv ws d used i w I Hw ltac:(nia)) as (w' & d' & n & -> & I' & Hn & Hc). cbn [rbind].
    change [Some n] with (Some <$> [n]). rewrite <- fmap_app.
    destruct (IH (<[i := w']> ws) d' (used ++ [n])) as (ws2 & d2 & used2 & -> & Hd & Hl & Hlt);
      [done|by rewrite length_insert|rewrite Hc; nia|].
    do 3 eexists. split; [done|]. split; [done|]. split; [|done]. rewrite Hl, length_app. cbn. lia.
Qed.

(** Workers that share a dispenser, asking in any order, are always given a
    nonce, and no nonce is given twice, as long as the chunks asked for fit the
    counter's 64 bits. *)
Theorem nonces_unique workers chunk order :
  N.of_nat (length order) * N.max chunk 1 < u64_mod -> Forall (fun i => (i < workers)%nat) order ->
  exists ws d used, ask_all workers chunk order = Ret (ws, d, Some <$> used) /\ NoDup used /\ length used = length order.
Proof.
  intros Hb HF. destruct (ask_all_ok workers chunk order Hb HF) as (ws & d & used & E & HN & Hl & _). by exists ws, d, used.
Qed.
End Nonce.

Lemma nonces_unique_witness :
  exists ws d used, Nonce.ask_all 2 2 [0; 1; 0; 0; 1]%nat = Ret (ws, d, Some <$> used) /\ NoDup used /\ length used = 5%nat.
Proof. apply (Nonce.nonces_unique 2 2 [0; 1; 0; 0; 1]%nat); [reflexivity|repeat constructor]. Defined.

Module Buffers.
Import Sess.
Section Equivalence.
Context `{AeadLaws}.

(** What a buffer that starts with the plaintext holds after sealing. *)
Lemma seal_buffer_spec k c plaintext slack :
  (16 <= length slack)%nat -> N.of_nat (length plaintext) + 16 < u64_mod ->
  seal_buffer k c (plaintext ++ slack) (length plaintext) =
    Ret (match seal_append k c plaintext with Some frame => Some (frame ++ drop 16 slack) | None => None end).
Proof.
  intros Hs Hl. unfold seal_buffer, seal_append. rewrite (proj2 (N.ltb_lt _ _) Hl). cbn [negb].
  rewrite (proj2 (Nat.ltb_ge _ _)) by (rewrite length_app; lia). rewrite take_app_length.
  destruct (aead_seal k (noise_nonce c) plaintext) as [[ct tag]|] eqn:E; [|done].
  destruct (seal_lengths _ _ _ _ _ E) as [Hc Ht].
  rewrite copy_at_ok by (rewrite length_app; lia). cbn [rbind]. rewrite take_0, Nat.add_0_l, Hc, drop_app_length.
  cbn [app]. rewrite copy_at_ok by (rewrite length_app; lia). cbn [rbind].
  rewrite take_app_length' by done. rewrite drop_app_ge by lia. rewrite <- app_assoc. do 3 f_equal.
  f_equal. f_equal. lia.
Qed.

Lemma open_buffer_spec k c frame rest :
  (16 <= length frame)%nat -> open_buffer k c (frame ++ rest) (length frame) = aead_open k (noise_nonce c) frame.
Proof.
  intros Hl. unfold open_buffer. rewrite take_app_length.
  by rewrite (proj2 (Nat.ltb_ge _ _)), (proj2 (Nat.ltb_ge _ _)) by (rewrite ?length_app; lia).
Qed.

(** Sealing in place, in a buffer with room for the tag, gives the same
    counter, the same next state and the same frame as [seal], and leaves the
    rest of the buffer alone; opening in place, or with a window of the caller's,
    accepts the same frames as [open], gives the same plaintext and advances the
    window the same way. *)
Theorem in_place_equivalent s plaintext slack c frame rest :
  (16 <= length slack)%nat -> N.of_nat (length plaintext) + 16 < u64_mod -> (16 <= length frame)%nat ->
  seal_in_place s (plaintext ++ slack) (length plaintext) =
    Ret (match seal s plaintext with
         | (s', Ok f) => (s', Ok (counter f, ciphertext f ++ drop 16 slack))
         | (s', Err e) => (s', Err e)
         end) /\
  open_in_place s c (frame ++ rest) (length frame) = open s c frame /\
  (open_with_window s c frame (replay s) = let! ' (s', r) := open s c frame in Ret (replay s', r)) /\
  (cipher_open_in_place_with_window (recv_key s) c (frame ++ rest) (length frame) (replay s) =
     let! ' (s', r) := open s c frame in Ret (replay s', r)) /\
  (cipher_seal_in_place (send_key s) c (plaintext ++ slack) (length plaintext) =
     Ret (match seal_with_counter s c plaintext with
          | Ok f => Ok ((length plaintext + 16)%nat, ciphertext f ++ drop 16 slack)
          | Err e => Err e
          end)).
Proof.
  intros Hs Hl Hf. split_and!.
  - unfold seal_in_place, seal. rewrite seal_buffer_spec by done. cbn [rbind].
    destruct (seal_append _ _ _); [|done]. by destruct (next_counter s).
  - unfold open_in_place, open. destruct (Replay.check _ _) as [[]|]; [|done|done]. cbn [rbind negb].
    by rewrite open_buffer_spec.
  - unfold open_with_window, open. destruct (Replay.check _ _) as [[]|]; [|done|done]. cbn [rbind negb].
    destruct (aead_open _ _ _); [|done]. by destruct (Replay.commit _ _).
  - unfold cipher_open_in_place_with_window, cipher_open_in_place, open.
    destruct (Replay.check _ _) as [[]|]; [|done|done]. cbn [rbind negb]. rewrite open_buffer_spec by done.
    destruct (aead_open _ _ _); [|done]. by destruct (Replay.commit _ _).
  - unfold cipher_seal_in_place, seal_with_counter. rewrite seal_buffer_spec by done. cbn [rbind].
    by destruct (seal_append _ _ _).
Qed.
End Equivalence.

(** Workers that share a session, each under the next nonce of its window. *)
Section Shared.
Context `{Aead}.

Definition shared_frames (s : Session) (counters : list N) (ps : list (list u8)) : list (result Sealed CryptoError) :=
  zip_with (seal_with_counter s) counters ps.

(** Workers that share one session and take their counters from one
    dispenser, in any order, never seal two frames under one AEAD nonce. *)
Theorem shared_session_nonces s workers chunk order ps :
  N.of_nat (length order) * N.max chunk 1 < u64_mod -> Forall (fun i => (i < workers)%nat) order ->
  exists ws d used, Nonce.ask_all workers chunk order = Ret (ws, d, Some <$> used) /\
    NoDup (noise_nonce <$> used) /\
    forall i f, shared_frames s used ps !! i = Some (Ok f) -> used !! i = Some (counter f).
Proof.
  intros Hb HF. destruct (Nonce.ask_all_ok workers chunk order Hb HF) as (ws & d & used & E & HN & _ & Hlt).
  exists ws, d, used. split; [done|]. split.
  - clear E. induction HN as [|c cs Hc HN IH]; [constructor|]. apply Forall_cons in Hlt as [Hc1 Hlt]. cbn. constructor; [|auto].
    intros (c' & Ec & Hin)%list_elem_of_fmap. rewrite Forall_forall in Hlt. apply noise_nonce_inj in Ec; [|done|by apply Hlt].
    by subst.
  - intros i f Hi. apply lookup_zip_with_Some in Hi as (c & p & Hs & Hc & _). rewrite Hc.
    unfold seal_with_counter in Hs. destruct (seal_append _ _ _); [|done]. by injection Hs as ->.
Qed.
End Shared.

#[local] Existing Instance toy_aead.
#[local] Existing Instance toy_laws.

Lemma in_place_equivalent_witness :
  seal_in_place (toy_session 0 1) ([Byte.x01] ++ replicate 20 Byte.x00) 1 =
    Ret (match seal (toy_session 0 1) [Byte.x01] with
         | (s', Ok f) => (s', Ok (counter f, ciphertext f ++ replicate 4 Byte.x00))
         | (s', Err e) => (s', Err e)
         end).
Proof.
  apply (in_place_equivalent (toy_session 0 1) [Byte.x01] (replicate 20 Byte.x00) 0 (replicate 16 Byte.x00) []);
    [cbn; lia|reflexivity|cbn; lia].
Defined.

Lemma shared_session_nonces_witness :
  exists ws d used, Nonce.ask_all 2 2 [0; 1; 1; 1]%nat = Ret (ws, d, Some <$> used) /\ NoDup (noise_nonce <$> used).
Proof.
  destruct (shared_session_nonces (toy_session 0 1) 2 2 [0; 1; 1; 1]%nat []) as (ws & d & used & E & HN & _);
    [reflexivity|repeat constructor|]. exists ws, d, used. split; [exact E|exact HN].
Defined.
End Buffers.
