(* ===== verification/Gso.v ===== *)
(** * Coalescing datagrams for the kernel

    Models crates/yip-io/src/gso.rs: which datagrams may share one segmented send
    (one destination, one length, and never two of one FEC object), and how a
    batch is split into such runs; and the sending loop of the poll driver,
    [flush_tx] of crates/yip-io/src/poll.rs.

    The kernel answers each system call from an arbitrary stream of replies; what
    it accepts is logged as the packets that leave. *)

From Stdlib Require Strings.Byte.
From Stdlib Require Import NArith Lia.
From stdpp Require Import base numbers gmap list sorting.
From S2P Require Import Prelude DataPlane.

Local Open Scope nat_scope.

Definition MAX_UDP_PAYLOAD : N := 65507.
Definition MAX_GSO_SEGMENTS_PER_SEND : nat := 32.
Definition MAX_DATAGRAM_BATCH : nat := 64.

Record GsoRun := mkGsoRun { segment_size : N; members : list nat }.

Lemma sublist_Forall {A} (P : A -> Prop) l1 l2 : l1 `sublist_of` l2 -> Forall P l2 -> Forall P l1.
Proof. induction 1; [done| |]; intros [? ?]%Forall_cons; [constructor|]; auto. Qed.

(** A list of pieces of one length is what cutting their concatenation gives. *)
Lemma chunks_uniform {A} n (l : list (list A)) : 0 < n -> Forall (fun x => length x = n) l -> chunks n (concat l) = l.
Proof.
  intros Hn HF. unfold chunks. assert (length (concat l) <= length (concat l)) as Hf by lia. revert Hf.
  generalize (length (concat l)) at 2 3. induction HF as [|x l Hx _ IH]; intros fuel Hf; [by destruct fuel|].
  cbn [concat] in *. rewrite length_app in Hf. destruct fuel as [|fuel]; [lia|]. cbn [chunks_fuel].
  destruct x as [|y x]; [cbn in Hx; lia|]. cbn [app]. change (y :: x ++ concat l) with ((y :: x) ++ concat l).
  rewrite take_app_length', drop_app_length' by done. f_equal. apply IH. lia.
Qed.

Module Gso.
Import Dp.
Section Gso.
Context {Addr : Type} `{EqDecision Addr}.
Notation EgressDatagram := (EgressDatagram (Addr := Addr)).
Implicit Types d head : EgressDatagram.
Implicit Types dgs : list EgressDatagram.

(** ** The rule *)

Fixpoint coalesce_loop (first_len : nat) (first_dst : Addr) (prior rest : list EgressDatagram) : bool :=
  match rest with
  | [] => true
  | d :: rest =>
      if negb (length (bytes d) =? first_len) || negb (bool_decide (dst d = first_dst)) then false
      else if existsb (fun p => (fate p =? fate d)%N) prior then false
      else coalesce_loop first_len first_dst (prior ++ [d]) rest
  end.

Definition can_coalesce (r : list EgressDatagram) : option N :=
  if length r <? 2 then None
  else
    match r with
    | [] => None
    | first :: _ =>
        let first_len := length (bytes first) in
        if first_len =? 0 then None
        else if (u16_mod <=? N.of_nat first_len)%N then None
        else if coalesce_loop first_len (dst first) [] r then Some (N.of_nat first_len) else None
    end.

(** [clamp] panics when its bounds are out of order. *)
Definition max_gso_run_len (seg : N) (hard_cap : nat) : run nat :=
  if (seg =? 0)%N then Ret 1
  else
    let hi := Nat.min MAX_GSO_SEGMENTS_PER_SEND hard_cap in
    let! _ := rassert (1 <=? hi) in
    Ret (Nat.max 1 (Nat.min hi (N.to_nat (MAX_UDP_PAYLOAD / seg)))).

(** [members.iter().all(|&k| dgs[k].fate != d.fate)]. *)
Fixpoint fate_free dgs d (ms : list nat) : run bool :=
  match ms with
  | [] => Ret true
  | k :: ms => let! m := rexpect (dgs !! k) in if (fate m =? fate d)%N then Ret false else fate_free dgs d ms
  end.

Fixpoint admit_loop dgs head (cap : nat) (rest ms deferred : list nat) : run (list nat * list nat) :=
  match rest with
  | [] => Ret (ms, deferred)
  | i :: rest =>
      let! d := rexpect (dgs !! i) in
      let! taken :=
        if bool_decide (dst d = dst head) && (length (bytes d) =? length (bytes head))
        then let! free := fate_free dgs d ms in Ret (free && (length ms <? cap))
        else Ret false in
      if taken then admit_loop dgs head cap rest (ms ++ [i]) deferred
      else admit_loop dgs head cap rest ms (deferred ++ [i])
  end.

(** The passes; each takes at least the first index. *)
Fixpoint passes (fuel : nat) dgs (hard_cap : nat) (remaining : list nat) (out : list GsoRun) : run (list GsoRun) :=
  match fuel, remaining with
  | _, [] => Ret out
  | O, _ => Panic
  | S fuel, head_idx :: rest =>
      let! head := rexpect (dgs !! head_idx) in
      let len := N.of_nat (length (bytes head)) in
      if (len =? 0)%N || (u16_mod <=? len)%N
      then passes fuel dgs hard_cap rest (out ++ [mkGsoRun 0 [head_idx]])
      else
        let! cap := max_gso_run_len len hard_cap in
        let! ' (ms, deferred) := admit_loop dgs head cap rest [head_idx] [] in
        passes fuel dgs hard_cap deferred (out ++ [mkGsoRun len ms])
  end.

Definition partition_fate_safe dgs (hard_cap : nat) : run (list GsoRun) :=
  passes (length dgs) dgs hard_cap (seq 0 (length dgs)) [].

(** ** Sending *)

(** What a system call answers: how many datagrams it took, that segmentation is
    not supported, or an error. *)
Inductive reply := Took (n : nat) | Unsupported | Broken.

(** What leaves the host. *)
Inductive skb := Plain d | Segmented (to : Addr) (seg : N) (payload : list u8).

Record sender := mkSender { enabled : bool; calls : nat; sent : list skb }.

(** [kernel true] answers segmented sends. *)
Context (kernel : bool -> nat -> reply).

(** [send_mmsg]; [None] is an error. *)
Definition send_mmsg (s : sender) (r : list EgressDatagram) : sender * option nat :=
  match r with
  | [] => (s, Some 0)
  | _ =>
      let count := Nat.min (length r) MAX_DATAGRAM_BATCH in
      match kernel false (calls s) with
      | Took n => let n := Nat.min n count in
                  (mkSender (enabled s) (S (calls s)) (sent s ++ (Plain <$> take n r)), Some n)
      | _ => (mkSender (enabled s) (S (calls s)) (sent s), None)
      end
  end.

(** Each turn but the last sends at least one datagram. *)
Fixpoint send_run_plain (fuel : nat) (s : sender) (r : list EgressDatagram) : sender * bool :=
  match fuel, r with
  | _, [] | O, _ => (s, true)
  | S fuel, _ =>
      match send_mmsg s r with
      | (s, None) => (s, false)
      | (s, Some n) => if n =? 0 then (s, true) else send_run_plain fuel s (drop n r)
      end
  end.

(** [send_gso_indexed] and [send_gso_payload]: the answer says whether the run
    was taken care of; [None] is an error. *)
Definition send_gso_indexed (s : sender) (tx : list EgressDatagram) (ms : list nat) (seg : N) (to : Addr) :
    run (sender * option bool) :=
  let! ds := rmap (fun i => rexpect (tx !! i)) ms in
  let payload := concat (bytes <$> ds) in
  Ret (match kernel true (calls s) with
       | Took n => (mkSender (enabled s) (S (calls s)) (sent s ++ (if n =? 0 then [] else [Segmented to seg payload])), Some true)
       | Unsupported => (mkSender (enabled s) (S (calls s)) (sent s), Some false)
       | Broken => (mkSender (enabled s) (S (calls s)) (sent s), None)
       end).

(** One datagram after the other, until an error. *)
Fixpoint send_members (s : sender) (tx : list EgressDatagram) (ms : list nat) : run (sender * bool) :=
  match ms with
  | [] => Ret (s, true)
  | i :: ms =>
      let! d := rexpect (tx !! i) in
      let ' (s, ok) := send_run_plain 1 s [d] in
      if ok then send_members s tx ms else Ret (s, false)
  end.

Definition send_one_run (s : sender) (tx : list EgressDatagram) (r : GsoRun) : run (sender * bool) :=
  if enabled s && (2 <=? length (members r)) && (0 <? segment_size r)%N then
    let! m := rexpect (members r !! 0) in
    let! d := rexpect (tx !! m) in
    let! ' (s, answer) := send_gso_indexed s tx (members r) (segment_size r) (dst d) in
    match answer with
    | Some true => Ret (s, true)
    | Some false => send_members (mkSender false (calls s) (sent s)) tx (members r)
    | None => Ret (s, false)
    end
  else send_members s tx (members r).

Fixpoint send_runs (s : sender) (tx : list EgressDatagram) (rs : list GsoRun) : run (sender * bool) :=
  match rs with
  | [] => Ret (s, true)
  | r :: rs => let! ' (s, ok) := send_one_run s tx r in if ok then send_runs s tx rs else Ret (s, false)
  end.

Definition flush_tx (s : sender) (tx : list EgressDatagram) : run (sender * bool) :=
  if negb (enabled s) then Ret (send_run_plain (length tx) s tx)
  else let! rs := partition_fate_safe tx MAX_DATAGRAM_BATCH in send_runs s tx rs.

(** The datagrams on the wire: the kernel cuts a segmented send. *)
Definition on_wire (x : skb) : list (Addr * list u8) :=
  match x with
  | Plain d => [(dst d, bytes d)]
  | Segmented to seg payload => pair to <$> chunks (N.to_nat seg) payload
  end.

(** ** The rule is what it should be *)

Definition same d0 d : Prop := dst d = dst d0 /\ length (bytes d) = length (bytes d0).

Lemma coalesce_loop_iff d0 prior rest :
  NoDup (fate <$> prior) ->
  coalesce_loop (length (bytes d0)) (dst d0) prior rest = true <->
  Forall (same d0) rest /\ NoDup (fate <$> prior ++ rest).
Proof.
  revert prior. induction rest as [|d rest IH]; intros prior Hn; cbn [coalesce_loop].
  { rewrite app_nil_r. split; [done|]. done. }
  destruct (Nat.eqb_spec (length (bytes d)) (length (bytes d0))) as [El|El]; cbn [negb orb].
  2: { split; [done|]. intros [[[_ ?] _]%Forall_cons _]. done. }
  destruct (bool_decide_reflect (dst d = dst d0)) as [Ed|Ed]; cbn [negb orb].
  2: { split; [done|]. intros [[[? _] _]%Forall_cons _]. done. }
  destruct (existsb _ prior) eqn:Ex.
  - split; [done|]. intros [_ Hd]. exfalso. apply existsb_exists in Ex as (p & Hp & Hf%N.eqb_eq).
    rewrite fmap_app in Hd. apply NoDup_app in Hd as (_ & Hd & _). apply (Hd (fate d)).
    + rewrite <- Hf. apply list_elem_of_fmap_2. by apply list_elem_of_In.
    + rewrite fmap_cons. apply elem_of_cons. by left.
  - rewrite IH, <- app_assoc.
    + rewrite Forall_cons. unfold same at 2. naive_solver.
    + rewrite fmap_app. apply NoDup_app. split; [done|]. split; [|apply NoDup_singleton].
      intros x (p & -> & Hp)%list_elem_of_fmap Heq%list_elem_of_singleton.
      assert (existsb (fun p => (fate p =? fate d)%N) prior = true) as Hc; [|by rewrite Ex in Hc].
      apply existsb_exists. exists p. split; [by apply list_elem_of_In|]. by apply N.eqb_eq.
Qed.

Lemma can_coalesce_iff r seg :
  can_coalesce r = Some seg <->
  2 <= length r /\ (0 < seg < u16_mod)%N /\
  exists d0 l, r = d0 :: l /\ seg = N.of_nat (length (bytes d0)) /\ Forall (same d0) r /\ NoDup (fate <$> r).
Proof.
  unfold can_coalesce. destruct (Nat.ltb_spec (length r) 2) as [Hl|Hl].
  { split; [done|]. intros [? _]. lia. }
  destruct r as [|d0 l]; [cbn in Hl; lia|].
  destruct (Nat.eqb_spec (length (bytes d0)) 0) as [E0|E0].
  { split; [done|]. intros (_ & Hb & d & l' & [= <- <-] & -> & _). lia. }
  destruct (N.leb_spec u16_mod (N.of_nat (length (bytes d0)))) as [Eb|Eb].
  { split; [done|]. intros (_ & Hb & d & l' & [= <- <-] & -> & _). lia. }
  pose proof (coalesce_loop_iff d0 [] (d0 :: l) ltac:(constructor)) as Hi.
  destruct (coalesce_loop _ _ _ _).
  - split.
    + intros [= <-]. split; [done|]. split; [lia|]. exists d0, l. by destruct (proj1 Hi eq_refl).
    + by intros (_ & _ & d & l' & [= <- <-] & -> & _).
  - split; [done|]. intros (_ & _ & d & l' & [= <- <-] & -> & HF & HN).
    by discriminate (proj2 Hi (conj HF HN)).
Qed.

(** ** Runs *)

Definition picks dgs (ms : list nat) (ds : list EgressDatagram) : Prop := Forall2 (fun i d => dgs !! i = Some d) ms ds.

(** The datagrams of a run that can be sent with [head]. *)
Definition fits dgs head (cap : nat) (ms : list nat) : Prop :=
  exists ds, picks dgs ms ds /\ Forall (same head) ds /\ NoDup (fate <$> ds) /\ length ms <= cap.

Lemma fate_free_spec dgs d ms ds :
  picks dgs ms ds -> fate_free dgs d ms = Ret (bool_decide (fate d ∉ fate <$> ds)).
Proof.
  induction 1 as [|k m ms ds Hk _ IH]; cbn [fate_free].
  { done. }
  rewrite Hk. cbn [rbind rexpect]. rewrite fmap_cons. destruct (N.eqb_spec (fate m) (fate d)) as [E|E].
  - rewrite bool_decide_eq_false_2; [done|]. intros Hn. apply Hn. rewrite E. apply elem_of_cons. by left.
  - rewrite IH. f_equal. apply bool_decide_ext. rewrite elem_of_cons. naive_solver.
Qed.

Lemma fits_snoc dgs head cap ms i d :
  fits dgs head cap ms -> dgs !! i = Some d -> same head d -> fate_free dgs d ms = Ret true -> length ms < cap ->
  fits dgs head cap (ms ++ [i]).
Proof.
  intros (ds & Hp & HF & Hn & Hl) Hi Hs Hfree Hlt. rewrite (fate_free_spec _ _ _ _ Hp) in Hfree.
  injection Hfree as Hfree%bool_decide_eq_true. exists (ds ++ [d]). split; [|split; [|split]].
  - apply Forall2_app; [done|]. by repeat constructor.
  - apply Forall_app. split; [done|]. by apply Forall_singleton.
  - rewrite fmap_app. apply NoDup_app. split; [done|]. split; [|apply NoDup_singleton].
    by intros x Hx ->%list_elem_of_singleton.
  - rewrite length_app. cbn. lia.
Qed.

Lemma admit_loop_ok dgs head cap rest ms deferred :
  Forall (fun i => i < length dgs) rest -> fits dgs head cap ms ->
  exists ms' deferred', admit_loop dgs head cap rest ms deferred = Ret (ms', deferred') /\ fits dgs head cap ms' /\
    ms' ++ deferred' ≡ₚ ms ++ deferred ++ rest /\ ms' `sublist_of` ms ++ rest /\ deferred' `sublist_of` deferred ++ rest /\
    ms `prefix_of` ms'.
Proof.
  intros HF. revert ms deferred. induction HF as [|i rest Hi HF IH]; intros ms deferred Hfit; cbn [admit_loop].
  { exists ms, deferred. rewrite !app_nil_r. done. }
  destruct (lookup_lt_is_Some_2 dgs i Hi) as [d Hd]. rewrite Hd. cbn [rexpect rbind].
  assert (exists b, (if bool_decide (dst d = dst head) && (length (bytes d) =? length (bytes head))
      then let! free := fate_free dgs d ms in Ret (free && (length ms <? cap)) else Ret false) = Ret b /\
      (b = true -> fits dgs head cap (ms ++ [i]))) as (b & -> & Hb).
  { destruct Hfit as (ds & Hp & Hfit'). pose proof (fate_free_spec dgs d ms ds Hp) as Hff.
    destruct (bool_decide_reflect (dst d = dst head)) as [E1|]; [|by eexists].
    destruct (Nat.eqb_spec (length (bytes d)) (length (bytes head))) as [E2|]; [|by eexists]. cbn [andb].
    rewrite Hff. cbn [rbind]. eexists. split; [done|]. intros [Hfree Hlt]%andb_true_iff. rewrite Hfree in Hff.
    apply (fits_snoc _ _ _ _ _ d); [by exists ds|done|done|done|by apply Nat.ltb_lt]. }
  cbn [rbind]. destruct b.
  - destruct (IH (ms ++ [i]) deferred (Hb eq_refl)) as (ms' & df' & -> & Hf & Hperm & Hs1 & Hs2 & Hl).
    exists ms', df'. split; [done|]. split; [done|]. split; [|split; [|split]].
    + rewrite Hperm. solve_Permutation.
    + by rewrite <- app_assoc in Hs1.
    + etransitivity; [exact Hs2|]. apply sublist_app; [done|]. by apply sublist_cons.
    + by eapply prefix_app_l.
  - destruct (IH ms (deferred ++ [i]) Hfit) as (ms' & df' & -> & Hf & Hperm & Hs1 & Hs2 & Hl).
    exists ms', df'. split; [done|]. split; [done|]. split; [|split; [|split]].
    + rewrite Hperm. solve_Permutation.
    + etransitivity; [exact Hs1|]. apply sublist_app; [done|]. by apply sublist_cons.
    + by rewrite <- app_assoc in Hs2.
    + done.
Qed.

(** What each run promises. *)
Record run_ok dgs (hard_cap : nat) (r : GsoRun) (ds : list EgressDatagram) : Prop := {
  ro_picks : picks dgs (members r) ds;
  ro_order : members r `sublist_of` seq 0 (length dgs);
  ro_some : 1 <= length (members r);
  ro_pair : 2 <= length (members r) -> can_coalesce ds = Some (segment_size r);
  ro_cap : length (members r) <= Nat.max 1 (Nat.min MAX_GSO_SEGMENTS_PER_SEND hard_cap);
  ro_size : 2 <= length (members r) -> (N.of_nat (length (members r)) * segment_size r <= MAX_UDP_PAYLOAD)%N;
}.

Lemma max_gso_run_len_ok seg hard_cap :
  (0 < seg)%N -> 0 < hard_cap ->
  exists cap, max_gso_run_len seg hard_cap = Ret cap /\ 1 <= cap <= Nat.min MAX_GSO_SEGMENTS_PER_SEND hard_cap /\
    (2 <= cap -> (N.of_nat cap * seg <= MAX_UDP_PAYLOAD)%N).
Proof.
  intros Hs Hh. unfold max_gso_run_len. rewrite (proj2 (N.eqb_neq _ _)) by lia.
  rewrite (proj2 (Nat.leb_le 1 _)) by (unfold MAX_GSO_SEGMENTS_PER_SEND; lia). cbn [rassert rbind].
  eexists. split; [done|]. split; [unfold MAX_GSO_SEGMENTS_PER_SEND; lia|]. intros Hc.
  pose proof (N.Div0.mul_div_le MAX_UDP_PAYLOAD seg).
  assert (N.of_nat (Nat.max 1 (Nat.min (Nat.min MAX_GSO_SEGMENTS_PER_SEND hard_cap) (N.to_nat (MAX_UDP_PAYLOAD / seg))))
    <= MAX_UDP_PAYLOAD / seg)%N by lia. nia.
Qed.

Lemma fits_run_ok dgs head cap hard_cap ms i :
  fits dgs head cap ms -> dgs !! i = Some head -> (exists l, ms = i :: l) ->
  (0 < N.of_nat (length (bytes head)) < u16_mod)%N -> ms `sublist_of` seq 0 (length dgs) ->
  1 <= cap <= Nat.min MAX_GSO_SEGMENTS_PER_SEND hard_cap ->
  (2 <= cap -> (N.of_nat cap * N.of_nat (length (bytes head)) <= MAX_UDP_PAYLOAD)%N) ->
  exists ds, run_ok dgs hard_cap (mkGsoRun (N.of_nat (length (bytes head))) ms) ds.
Proof.
  intros (ds & Hp & HF & Hn & Hl) Hi [l ->] Hlen Hsub Hcap Hsize. exists ds.
  destruct ds as [|d0 ds]; [by inversion Hp|]. pose proof Hp as [Hd0 _]%Forall2_cons. rewrite Hi in Hd0. injection Hd0 as <-.
  split; cbn [members segment_size]; [done|done|cbn; lia| |lia|].
  - intros H2. apply can_coalesce_iff. apply Forall2_length in Hp. split; [lia|]. split; [done|]. by exists head, ds.
  - intros H2. specialize (Hsize ltac:(lia)). nia.
Qed.

Lemma passes_ok fuel dgs hard_cap remaining out :
  0 < hard_cap -> length remaining <= fuel -> remaining `sublist_of` seq 0 (length dgs) ->
  exists rs, passes fuel dgs hard_cap remaining out = Ret (out ++ rs) /\ concat (members <$> rs) ≡ₚ remaining /\
    Forall (fun r => exists ds, run_ok dgs hard_cap r ds) rs.
Proof.
  intros Hh. revert remaining out. induction fuel as [|fuel IH]; intros remaining out Hf Hsub.
  { destruct remaining; [|cbn in Hf; lia]. exists []. rewrite app_nil_r. by repeat split. }
  destruct remaining as [|i rest]; cbn [passes].
  { exists []. rewrite app_nil_r. by repeat split. }
  assert (Forall (fun j => j < length dgs) (i :: rest)) as [Hi Hrest]%Forall_cons.
  { apply (sublist_Forall _ _ _ Hsub), Forall_forall. intros j Hj%elem_of_seq. lia. }
  destruct (lookup_lt_is_Some_2 dgs i Hi) as [head Hhead]. rewrite Hhead. cbn [rexpect rbind length] in *.
  destruct (orb _ _) eqn:Eb.
  - destruct (IH rest (out ++ [mkGsoRun 0 [i]])) as (rs & -> & Hp & HF); [lia|by etransitivity; [apply sublist_cons, reflexivity|]|].
    exists (mkGsoRun 0 [i] :: rs). rewrite <- app_assoc. split; [done|]. split; [cbn; by rewrite Hp|]. constructor; [|done].
    exists [head]. split; cbn [members segment_size length]; try lia; [by repeat constructor|].
    etransitivity; [|exact Hsub]. apply sublist_skip, sublist_nil_l.
  - apply orb_false_iff in Eb as [E1%N.eqb_neq E2%N.leb_gt].
    destruct (max_gso_run_len_ok (N.of_nat (length (bytes head))) hard_cap ltac:(lia) Hh) as (cap & -> & Hc & Hs). cbn [rbind].
    destruct (admit_loop_ok dgs head cap rest [i] [] Hrest) as (ms & df & -> & Hfit & Hperm & Hs1 & Hs2 & [l ->]).
    { exists [head]. repeat split; [by repeat constructor|by apply Forall_singleton|apply NoDup_singleton|cbn; lia]. }
    cbn [rbind app] in *. pose proof (Permutation_length Hperm) as HL. cbn [length] in *. rewrite length_app in HL.
    destruct (IH df (out ++ [mkGsoRun (N.of_nat (length (bytes head))) (i :: l)])) as (rs & -> & Hp & HF); [lia| |].
    { etransitivity; [exact Hs2|]. etransitivity; [|exact Hsub]. by apply sublist_cons. }
    eexists (_ :: rs). rewrite <- app_assoc. split; [done|]. split; [cbn; by rewrite Hp|]. constructor; [|done].
    eapply fits_run_ok; [done|done|by eexists|lia|by etransitivity|done|done].
Qed.

Lemma partition_ok dgs hard_cap :
  0 < hard_cap ->
  exists rs, partition_fate_safe dgs hard_cap = Ret rs /\ concat (members <$> rs) ≡ₚ seq 0 (length dgs) /\
    Forall (fun r => exists ds, run_ok dgs hard_cap r ds) rs.
Proof.
  intros Hh. unfold partition_fate_safe. destruct (passes_ok (length dgs) dgs hard_cap (seq 0 (length dgs)) [] Hh)
    as (rs & -> & Hp & HF); [by rewrite length_seq|done|]. by exists rs.
Qed.

(** ** The sending loop *)

Definition wire (s : sender) : list (Addr * list u8) := concat (on_wire <$> sent s).
Definition dgram d : Addr * list u8 := (dst d, bytes d).

(** A kernel that takes every plain send, and takes or refuses to segment. *)
Definition willing : Prop :=
  (forall i, exists n, kernel false i = Took (S n)) /\
  (forall i, (exists n, kernel true i = Took (S n)) \/ kernel true i = Unsupported).

(** From [s] to [s'] the datagrams [ds] were handled: each left at most once and
    unchanged, and all did if the kernel is willing. *)
Definition handled (s s' : sender) (ok : bool) (ds : list EgressDatagram) : Prop :=
  exists w lost, wire s' = wire s ++ w /\ w ++ lost ≡ₚ dgram <$> ds /\ (willing -> ok = true /\ lost = []).

Lemma handled_app s s1 s2 ok ds1 ds2 :
  handled s s1 true ds1 -> handled s1 s2 ok ds2 -> handled s s2 ok (ds1 ++ ds2).
Proof.
  intros (w1 & l1 & E1 & P1 & W1) (w2 & l2 & E2 & P2 & W2). exists (w1 ++ w2), (l1 ++ l2). split; [|split].
  - by rewrite E2, E1, app_assoc.
  - rewrite fmap_app, <- P1, <- P2. solve_Permutation.
  - intros HW. destruct (W1 HW) as [_ ->], (W2 HW) as [-> ->]. done.
Qed.

Lemma handled_stop s s1 ds1 ds2 : handled s s1 false ds1 -> handled s s1 false (ds1 ++ ds2).
Proof.
  intros (w & l & E & P & W). exists w, (l ++ (dgram <$> ds2)). split; [done|]. split.
  - by rewrite app_assoc, P, fmap_app.
  - intros HW. by destruct (W HW).
Qed.

Lemma handled_nil s : handled s s true [].
Proof. exists [], []. by rewrite app_nil_r. Qed.

Lemma wire_app e c (s : sender) xs : wire (mkSender e c (sent s ++ xs)) = wire s ++ concat (on_wire <$> xs).
Proof. unfold wire. cbn [sent]. by rewrite fmap_app, concat_app. Qed.

Lemma on_wire_plain r : concat (on_wire <$> (Plain <$> r)) = dgram <$> r.
Proof. induction r as [|d r IH]; [done|]. cbn. by rewrite <- IH. Qed.

Lemma send_run_plain_handled fuel s r :
  length r <= fuel -> exists s' ok, send_run_plain fuel s r = (s', ok) /\ handled s s' ok r.
Proof.
  revert s r. induction fuel as [|fuel IH]; intros s r Hf.
  { destruct r; [|cbn in Hf; lia]. exists s, true. split; [done|apply handled_nil]. }
  destruct r as [|d r]; [exists s, true; split; [done|apply handled_nil]|]. cbn [send_run_plain send_mmsg].
  destruct (kernel false (calls s)) as [n| |] eqn:Ek.
  - set (m := Nat.min n (Nat.min (length (d :: r)) MAX_DATAGRAM_BATCH)).
    assert (wire (mkSender (enabled s) (S (calls s)) (sent s ++ (Plain <$> take m (d :: r)))) =
      wire s ++ (dgram <$> take m (d :: r))) as Hw by (by rewrite wire_app, on_wire_plain).
    destruct (Nat.eqb_spec m 0) as [E0|E0].
    + do 2 eexists. split; [done|]. exists [], (dgram <$> d :: r). rewrite Hw, E0. split; [done|]. split; [done|].
      intros [HW _]. destruct (HW (calls s)) as [k Hk]. rewrite Hk in Ek. injection Ek as <-. unfold m, MAX_DATAGRAM_BATCH in E0. cbn in E0. lia.
    + destruct (IH (mkSender (enabled s) (S (calls s)) (sent s ++ (Plain <$> take m (d :: r)))) (drop m (d :: r)))
        as (s' & ok & -> & Hh); [rewrite length_drop; cbn in *; lia|].
      exists s', ok. split; [done|]. rewrite <- (take_drop m (d :: r)). eapply handled_app; [|exact Hh].
      exists (dgram <$> take m (d :: r)), []. by rewrite app_nil_r.
  - do 2 eexists. split; [done|]. exists [], (dgram <$> d :: r). rewrite app_nil_r. split; [done|]. split; [done|].
    intros [HW _]. destruct (HW (calls s)) as [k Hk]. by rewrite Hk in Ek.
  - do 2 eexists. split; [done|]. exists [], (dgram <$> d :: r). rewrite app_nil_r. split; [done|]. split; [done|].
    intros [HW _]. destruct (HW (calls s)) as [k Hk]. by rewrite Hk in Ek.
Qed.

Lemma send_members_handled s tx ms ds :
  picks tx ms ds -> exists s' ok, send_members s tx ms = Ret (s', ok) /\ handled s s' ok ds.
Proof.
  intros Hp. revert s. induction Hp as [|i d ms ds Hi _ IH]; intros s; cbn [send_members].
  { exists s, true. split; [done|apply handled_nil]. }
  rewrite Hi. cbn [rexpect rbind]. destruct (send_run_plain_handled 1 s [d] ltac:(done)) as (s1 & ok & -> & H1).
  destruct ok.
  - destruct (IH s1) as (s2 & ok & -> & H2). exists s2, ok. split; [done|]. by apply (handled_app s s1 s2 ok [d]).
  - exists s1, false. split; [done|]. by apply (handled_stop s s1 [d]).
Qed.

Lemma picks_rmap tx ms ds : picks tx ms ds -> rmap (fun i => rexpect (tx !! i)) ms = Ret ds.
Proof. induction 1 as [|i d ms ds Hi _ IH]; [done|]. cbn [rmap]. by rewrite Hi, IH. Qed.

Lemma send_one_run_handled s tx hard_cap r ds :
  run_ok tx hard_cap r ds -> exists s' ok, send_one_run s tx r = Ret (s', ok) /\ handled s s' ok ds.
Proof.
  intros [Hp Ho Hs Hpair Hcap Hsize]. unfold send_one_run.
  destruct (enabled s && _ && _) eqn:Eg; [|by apply send_members_handled].
  apply andb_true_iff in Eg as [[_ H2%Nat.leb_le]%andb_true_iff _].
  destruct (proj1 (can_coalesce_iff _ _) (Hpair H2)) as (_ & Hb & d0 & l & -> & Hseg & HF & _).
  destruct r as [seg [|m ms]]; cbn [members segment_size] in *; [by inversion Hp|].
  pose proof Hp as [Hm _]%Forall2_cons. cbn [lookup list_lookup rexpect rbind]. rewrite Hm. cbn [rexpect rbind].
  unfold send_gso_indexed. rewrite (picks_rmap _ _ _ Hp). cbn [rbind].
  destruct (kernel true (calls s)) as [n| |] eqn:Ek; cbn [rbind].
  - do 2 eexists. split; [done|]. destruct n as [|n]; cbn [Nat.eqb].
    + exists [], (dgram <$> d0 :: l). split; [by rewrite wire_app|]. split; [done|].
      intros [_ HW]. destruct (HW (calls s)) as [[k Hk]|Hk]; by rewrite Hk in Ek.
    + exists (dgram <$> d0 :: l), []. rewrite app_nil_r. split; [|done].
      rewrite wire_app. cbn [fmap list_fmap on_wire]. cbn [concat]. rewrite app_nil_r. f_equal.
      change (bytes d0 ++ concat (bytes <$> l)) with (concat (bytes <$> d0 :: l)).
      change (dgram d0 :: (dgram <$> l)) with (dgram <$> d0 :: l). rewrite Hseg, Nat2N.id, chunks_uniform.
      * rewrite <- list_fmap_compose. apply list_fmap_ext. intros j d Hj. cbn. unfold dgram.
        rewrite Forall_lookup in HF. by destruct (HF j d Hj) as [-> _].
      * lia.
      * apply Forall_fmap. eapply Forall_impl; [exact HF|]. by intros d [_ ?].
  - apply (send_members_handled (mkSender false (S (calls s)) (sent s))). done.
  - do 2 eexists. split; [done|]. exists [], (dgram <$> d0 :: l). rewrite app_nil_r. split; [done|]. split; [done|].
    intros [_ HW]. destruct (HW (calls s)) as [[k Hk]|Hk]; by rewrite Hk in Ek.
Qed.

Lemma send_runs_handled s tx hard_cap rs :
  Forall (fun r => exists ds, run_ok tx hard_cap r ds) rs ->
  exists s' ok ds, send_runs s tx rs = Ret (s', ok) /\ picks tx (concat (members <$> rs)) ds /\ handled s s' ok ds.
Proof.
  intros HF. revert s. induction HF as [|r rs [ds Hr] HF IH]; intros s; cbn [send_runs].
  { exists s, true, []. split; [done|]. split; [constructor|apply handled_nil]. }
  destruct (send_one_run_handled s tx hard_cap r ds Hr) as (s1 & ok & -> & H1). cbn [rbind].
  destruct (IH s1) as (s2 & ok2 & ds2 & E2 & P2 & H2). destruct ok.
  - exists s2, ok2, (ds ++ ds2). rewrite E2. split; [done|]. split; [|by eapply handled_app].
    cbn. apply Forall2_app; [apply (ro_picks _ _ _ _ Hr)|done].
  - exists s1, false, (ds ++ ds2). split; [done|]. split; [|by apply handled_stop].
    cbn. apply Forall2_app; [apply (ro_picks _ _ _ _ Hr)|done].
Qed.

Lemma picks_all tx : picks tx (seq 0 (length tx)) tx.
Proof.
  apply Forall2_lookup. intros i. destruct (decide (i < length tx)) as [Hi|Hi].
  - destruct (lookup_lt_is_Some_2 tx i Hi) as [d Hd]. rewrite lookup_seq_lt, Hd by done. by constructor.
  - rewrite lookup_seq_ge, lookup_ge_None_2 by lia. constructor.
Qed.

Lemma picks_permutation tx ms ds : ms ≡ₚ seq 0 (length tx) -> picks tx ms ds -> ds ≡ₚ tx.
Proof.
  intros Hp Hds. pose proof (picks_all tx) as Hall.
  assert (forall ms ds, picks tx ms ds -> omap (tx !!.) ms = ds) as Ho.
  { clear. induction 1 as [|i d ms ds Hi _ IH]; [done|]. cbn. by rewrite Hi, IH. }
  rewrite <- (Ho _ _ Hds). transitivity (omap (tx !!.) (seq 0 (length tx))); [by rewrite Hp|]. by rewrite (Ho _ _ Hall).
Qed.

(** Splitting a batch for segmented sends never panics, puts every datagram
    in exactly one run, in order of arrival within the run, and every run of two
    or more passes the coalescing rule: one destination, one length, no two
    datagrams of one FEC object, within the segment count and size limits. *)
Theorem gso_partition_safe dgs hard_cap :
  0 < hard_cap ->
  exists rs, partition_fate_safe dgs hard_cap = Ret rs /\ concat (members <$> rs) ≡ₚ seq 0 (length dgs) /\
    Forall (fun r => exists ds, picks dgs (members r) ds /\ members r `sublist_of` seq 0 (length dgs) /\
      length (members r) <= Nat.min MAX_GSO_SEGMENTS_PER_SEND hard_cap /\
      (2 <= length (members r) ->
         can_coalesce ds = Some (segment_size r) /\ NoDup (fate <$> ds) /\
         (exists a, Forall (fun d => dst d = a) ds) /\
         (N.of_nat (length (members r)) * segment_size r <= MAX_UDP_PAYLOAD)%N)) rs.
Proof.
  intros Hh. destruct (partition_ok dgs hard_cap Hh) as (rs & E & Hp & HF). exists rs. split; [done|]. split; [done|].
  eapply Forall_impl; [exact HF|]. intros r (ds & [R1 R2 R3 R4 R5 R6]). exists ds. split; [done|]. split; [done|].
  split; [unfold MAX_GSO_SEGMENTS_PER_SEND in *; lia|]. intros H2. split; [by apply R4|].
  destruct (proj1 (can_coalesce_iff _ _) (R4 H2)) as (_ & _ & d0 & l & -> & _ & HS & Hn). split; [done|]. split; [|by apply R6].
  exists (dst d0). eapply Forall_impl; [exact HS|]. by intros d [? _].
Qed.

(** Whatever the kernel answers, [flush_tx] ends without panic and what
    leaves the host are datagrams of the batch, unchanged, to their own
    destinations and none twice; when the kernel takes plain sends, all of them
    leave, also when it turns out not to support segmentation. *)
Theorem flush_tx_exact s tx :
  exists s' ok w lost, flush_tx s tx = Ret (s', ok) /\ wire s' = wire s ++ w /\ w ++ lost ≡ₚ dgram <$> tx /\
    (willing -> ok = true /\ lost = []).
Proof.
  unfold flush_tx. destruct (enabled s); cbn [negb].
  - destruct (partition_ok tx MAX_DATAGRAM_BATCH) as (rs & -> & Hp & HF); [unfold MAX_DATAGRAM_BATCH; lia|]. cbn [rbind].
    destruct (send_runs_handled s tx _ rs HF) as (s' & ok & ds & -> & Hpk & w & lost & Hw & Hl & HW).
    exists s', ok, w, lost. split; [done|]. split; [done|]. split; [|done].
    by rewrite Hl, (picks_permutation _ _ _ Hp Hpk).
  - destruct (send_run_plain_handled (length tx) s tx ltac:(done)) as (s' & ok & -> & w & lost & ? & ? & ?).
    by exists s', ok, w, lost.
Qed.
End Gso.
End Gso.

Lemma gso_partition_safe_witness :
  exists rs, Gso.partition_fate_safe [Dp.mkDatagram 1 1%N [Byte.x01]; Dp.mkDatagram 1 1%N [Byte.x02]; Dp.mkDatagram 2 1%N [Byte.x03]] 64
    = Ret rs /\ concat (members <$> rs) ≡ₚ seq 0 3.
Proof.
  destruct (Gso.gso_partition_safe [Dp.mkDatagram 1 1%N [Byte.x01]; Dp.mkDatagram 1 1%N [Byte.x02]; Dp.mkDatagram 2 1%N [Byte.x03]] 64)
    as (rs & E & Hp & _); [lia|]. exists rs. split; [exact E|exact Hp].
Defined.
