(* ===== verification/PathState.v ===== *)
(** * Finding a path to a peer

    Models bin/yipd/src/path.rs: the state machine that escalates from the
    peer's own address over hole punching to the relay, each stage with a bounded
    window. *)

From Stdlib Require Strings.Byte.
From Stdlib Require Import NArith Lia.
From stdpp Require Import base numbers gmap list.
From S2P Require Import Prelude.

Local Open Scope N_scope.

Definition DIRECT_MS : N := 3000.
Definition PUNCH_MS : N := 5000.

Inductive PathKind := KDirect | KPunched | KRelayed.
Inductive PathStage := Direct | Punching | Relaying | Failed.

#[export] Instance path_stage_eq_dec : EqDecision PathStage.
Proof. solve_decision. Defined.

Inductive PathAction (Addr : Type) := Idle | NeedLookup | Probe (a : Addr) | Relay | NoPath.
Arguments Idle {Addr}.
Arguments NeedLookup {Addr}.
Arguments Probe {Addr} a.
Arguments Relay {Addr}.
Arguments NoPath {Addr}.

Record PathState (Addr : Type) := mkPath {
  stage : PathStage;
  has_rendezvous : bool;
  direct : option Addr;
  candidate_addr : option Addr;
  stage_started_ms : N;
  is_committed : bool;
  looked_up : bool;
  is_relay_only : bool;
}.
Arguments mkPath {Addr}.
Arguments stage {Addr} _.
Arguments has_rendezvous {Addr} _.
Arguments direct {Addr} _.
Arguments candidate_addr {Addr} _.
Arguments stage_started_ms {Addr} _.
Arguments is_committed {Addr} _.
Arguments looked_up {Addr} _.
Arguments is_relay_only {Addr} _.

Module Path.
Section Path.
Context {Addr : Type}.
Notation PathState := (PathState Addr).
Implicit Types p : PathState.

Definition first_stage (has_direct has_rdv : bool) : PathStage :=
  if has_direct then Direct else if has_rdv then Punching else Failed.

Definition new (has_direct has_rdv : bool) (now_ms : N) : PathState :=
  mkPath (first_stage has_direct has_rdv) has_rdv None None now_ms false false false.

Definition enter p (st : PathStage) (now_ms : N) : PathState :=
  mkPath st (has_rendezvous p) (direct p) (candidate_addr p) now_ms (is_committed p) (looked_up p) (is_relay_only p).

Definition relay_only (now_ms : N) : PathState :=
  let s := enter (new false true now_ms) Relaying now_ms in
  mkPath (stage s) (has_rendezvous s) (direct s) (candidate_addr s) (stage_started_ms s) (is_committed s) (looked_up s) true.

Definition candidate p : option Addr :=
  match stage p with Direct => direct p | Punching => candidate_addr p | _ => None end.

Definition on_direct_addr p (a : Addr) : PathState :=
  mkPath (stage p) (has_rendezvous p) (Some a) (candidate_addr p) (stage_started_ms p) (is_committed p) (looked_up p) (is_relay_only p).

Definition on_peer_candidate p (a : Addr) (now_ms : N) : PathState :=
  let p := mkPath (stage p) (has_rendezvous p) (direct p) (Some a) (stage_started_ms p) (is_committed p) (looked_up p) (is_relay_only p) in
  if bool_decide (stage p = Direct) || bool_decide (stage p = Punching) then
    let started := if bool_decide (stage p = Punching) then stage_started_ms p else now_ms in
    enter p Punching started
  else p.

Definition punch_action p : PathState * PathAction Addr :=
  match candidate_addr p with
  | Some a => (p, Probe a)
  | None =>
      (mkPath (stage p) (has_rendezvous p) (direct p) (candidate_addr p) (stage_started_ms p) (is_committed p) true (is_relay_only p),
       NeedLookup)
  end.

(** The end of the direct stage. *)
Definition leave_direct p (now_ms : N) : PathState * PathAction Addr :=
  if has_rendezvous p then punch_action (enter p Punching now_ms) else (enter p Failed now_ms, NoPath).

Definition advance p (now_ms : N) : PathState * PathAction Addr :=
  if is_relay_only p then (p, Relay)
  else if is_committed p then (p, Idle)
  else
    let elapsed := now_ms - stage_started_ms p in
    match stage p with
    | Direct =>
        match direct p with
        | Some a => if elapsed <? DIRECT_MS then (p, Probe a) else leave_direct p now_ms
        | None => leave_direct p now_ms
        end
    | Punching => if PUNCH_MS <=? elapsed then (enter p Relaying now_ms, Relay) else punch_action p
    | Relaying => (p, Relay)
    | Failed => (p, NoPath)
    end.

Definition committed p (kind : PathKind) : PathState :=
  mkPath (stage p) (has_rendezvous p) (direct p) (candidate_addr p) (stage_started_ms p) true (looked_up p) (is_relay_only p).

Definition reset p (now_ms : N) : PathState :=
  mkPath (first_stage (match direct p with Some _ => true | None => false end) (has_rendezvous p))
    (has_rendezvous p) (direct p) None now_ms false false (is_relay_only p).

(** ** Runs *)

Inductive event := DirectAddr (a : Addr) | Candidate (a : Addr) (now_ms : N) | Tick (now_ms : N) | Commit (kind : PathKind) | Reset (now_ms : N).

Definition step (x : PathState * list (PathAction Addr)) (e : event) : PathState * list (PathAction Addr) :=
  let ' (p, acts) := x in
  match e with
  | DirectAddr a => (on_direct_addr p a, acts)
  | Candidate a now_ms => (on_peer_candidate p a now_ms, acts)
  | Tick now_ms => let ' (p, act) := advance p now_ms in (p, acts ++ [act])
  | Commit kind => (committed p kind, acts)
  | Reset now_ms => (reset p now_ms, acts)
  end.

Definition run_path p (es : list event) : PathState * list (PathAction Addr) := fold_left step es (p, []).

(** Events of an attempt that has not succeeded, up to time [t]. *)
Definition pending_until (t : N) (e : event) : Prop :=
  match e with
  | DirectAddr _ => True
  | Candidate _ now_ms | Tick now_ms => now_ms <= t
  | Commit _ | Reset _ => False
  end.

(** Where such an attempt is: it has left the direct stage or is in it since
    [t0], and no stage began after [t]. *)
Record climbing (t0 t : N) p : Prop := {
  cl_rdv : has_rendezvous p = true;
  cl_free : is_committed p = false /\ is_relay_only p = false;
  cl_stage : stage p <> Failed;
  cl_direct : stage p = Direct -> stage_started_ms p = t0;
  cl_started : stage_started_ms p <= t;
}.

Lemma punch_action_stage p : stage (punch_action p).1 = stage p /\ stage_started_ms (punch_action p).1 = stage_started_ms p /\
  has_rendezvous (punch_action p).1 = has_rendezvous p /\ is_committed (punch_action p).1 = is_committed p /\
  is_relay_only (punch_action p).1 = is_relay_only p.
Proof. unfold punch_action. by destruct (candidate_addr p). Qed.

Lemma climbing_mono t0 t t' p : t <= t' -> climbing t0 t p -> climbing t0 t' p.
Proof. intros Hle [H1 H2 H3 H4 H5]. split; try done. lia. Qed.

Lemma enter_climbing t0 t p st now_ms : climbing t0 t p -> st <> Failed -> st <> Direct -> now_ms <= t -> climbing t0 t (enter p st now_ms).
Proof. intros [H1 H2 H3 H4 H5] Hs Hd Hn. by split. Qed.

Lemma punch_climbing t0 t p : climbing t0 t p -> climbing t0 t (punch_action p).1.
Proof.
  intros [H1 H2 H3 H4 H5]. pose proof (punch_action_stage p) as (E1 & E2 & E3 & E4 & E5).
  split; rewrite ?E1, ?E2, ?E3, ?E4, ?E5; done.
Qed.

Lemma advance_climbing t0 t p now_ms :
  climbing t0 t p -> now_ms <= t ->
  climbing t0 t (advance p now_ms).1 /\ (stage (advance p now_ms).1 = Direct -> now_ms - t0 < DIRECT_MS).
Proof.
  intros C Hn. pose proof C as [H1 [H2 H2'] H3 H4 H5]. unfold advance. rewrite H2, H2'.
  assert (climbing t0 t (leave_direct p now_ms).1 /\ stage (leave_direct p now_ms).1 = Punching) as [HL HLs].
  { unfold leave_direct. rewrite H1. split; [by apply punch_climbing, enter_climbing|].
    by rewrite (proj1 (punch_action_stage _)). }
  destruct (stage p) eqn:Es; [| | |done].
  - destruct (direct p) as [a|]; [|split; [done|by rewrite HLs]].
    destruct (N.ltb_spec (now_ms - stage_started_ms p) DIRECT_MS) as [Hlt|Hge]; [|split; [done|by rewrite HLs]].
    cbn. split; [done|]. intros _. by rewrite <- (H4 eq_refl).
  - destruct (PUNCH_MS <=? _); cbn; [split; [by apply enter_climbing|done]|].
    split; [by apply punch_climbing|]. rewrite (proj1 (punch_action_stage _)), Es. done.
  - cbn. split; [done|]. by rewrite Es.
Qed.

Lemma on_peer_candidate_climbing t0 t p a now_ms :
  climbing t0 t p -> now_ms <= t ->
  climbing t0 t (on_peer_candidate p a now_ms) /\ (stage p <> Direct -> stage (on_peer_candidate p a now_ms) = stage p).
Proof.
  intros [H1 H2 H3 H4 H5] Hn. unfold on_peer_candidate. destruct p as [st r d c s0 cm lu ro]; cbn in *.
  destruct st; cbn; split; try done; split; cbn; done || lia.
Qed.

(** Once left, the direct stage is not entered again, and a stage that began
    before [a] stays the stage. *)
Lemma run_climbing t0 t p acts es :
  climbing t0 t p -> Forall (pending_until t) es -> climbing t0 t (fold_left step es (p, acts)).1.
Proof.
  intros C HF. revert p acts C. induction HF as [|e es He HF IH]; intros p acts C; [done|]. cbn [fold_left step].
  destruct e as [a|a n|n|kd|n]; cbn [pending_until] in He; try done; cbn [step].
  - apply IH. destruct C. by split.
  - by apply IH, on_peer_candidate_climbing.
  - pose proof (advance_climbing t0 t p n C He) as [C' _]. destruct (advance p n) as [p' act]. by apply IH.
Qed.

(** The relay is next: the punching stage began by [a], or is over. *)
Definition past (a : N) p : Prop :=
  is_committed p = false /\ is_relay_only p = false /\
  (stage p = Relaying \/ (stage p = Punching /\ stage_started_ms p <= a)).

Definition undecided (e : event) : Prop := match e with Commit _ | Reset _ => False | _ => True end.

Lemma advance_past a p now_ms :
  past a p -> past a (advance p now_ms).1 /\
  (a + PUNCH_MS <= now_ms \/ stage p = Relaying -> advance p now_ms = ((advance p now_ms).1, Relay) /\ stage (advance p now_ms).1 = Relaying).
Proof.
  intros (Hc & Hr & Hs). unfold advance. rewrite Hc, Hr. destruct Hs as [Hs|[Hs Ht]]; rewrite Hs.
  - split; [|done]. split; [done|]. split; [done|]. by left.
  - destruct (N.leb_spec PUNCH_MS (now_ms - stage_started_ms p)) as [Hle|Hlt].
    + split; [|done]. split; [done|]. split; [done|]. by left.
    + pose proof (punch_action_stage p) as (E1 & E2 & _ & E4 & E5). split.
      * unfold past. rewrite E1, E2, E4, E5. auto.
      * intros [H|H]; [lia|done].
Qed.

Lemma step_past a x e :
  past a x.1 -> undecided e -> past a (step x e).1.
Proof.
  destruct x as [p acts]. cbn [fst]. intros HP He. destruct e as [d|c n|n|kd|n]; try done; cbn [step].
  - destruct p as [st r d c0 s0 cm lu ro]. destruct HP as (Hc & Hr & [Hs|[Hs Ht]]); cbn in *; subst; cbn; unfold past; cbn; auto.
  - pose proof (proj1 (advance_past a p n HP)). by destruct (advance p n).
Qed.

Lemma run_past a x es : past a x.1 -> Forall undecided es -> past a (fold_left step es x).1.
Proof. intros HP HF. revert x HP. induction HF as [|e es He _ IH]; intros x HP; [done|]. cbn. by apply IH, step_past. Qed.

Lemma run_relaying p acts es :
  past 0 p -> stage p = Relaying -> Forall undecided es ->
  exists rest, (fold_left step es (p, acts)).2 = acts ++ rest /\ Forall (eq Relay) rest.
Proof.
  intros HP Hs HF. revert p acts HP Hs. induction HF as [|e es He _ IH]; intros p acts HP Hs.
  { exists []. by rewrite app_nil_r. }
  cbn [fold_left]. pose proof (step_past 0 (p, acts) e HP He) as HP'. destruct e as [d|c n|n|kd|n]; try done; cbn [step fst] in *.
  - by apply IH.
  - apply IH; [done|]. by destruct p; cbn in *; subst.
  - destruct (advance_past 0 p n HP) as [_ HA]. destruct (HA (or_intror Hs)) as [E Es]. rewrite E in *.
    destruct (IH (advance p n).1 (acts ++ [Relay]) HP' Es) as (rest & -> & HR). exists (Relay :: rest).
    rewrite <- app_assoc. split; [done|]. by constructor.
Qed.

Lemma fold_step_1 es p acts acts' : (fold_left step es (p, acts)).1 = (fold_left step es (p, acts')).1.
Proof.
  revert p acts acts'. induction es as [|e es IH]; intros p acts acts'; [done|]. cbn [fold_left].
  destruct e; cbn [step]; try apply IH. destruct (advance p now_ms). apply IH.
Qed.

(** A path attempt with a rendezvous server always reaches the relay: a tick
    after the direct window and another after the punching window are enough,
    whatever addresses arrive in between, and from then on every tick relays. *)
Theorem path_escalates has_direct t0 e1 a e2 b e3 :
  t0 + DIRECT_MS <= a -> a + PUNCH_MS <= b ->
  Forall (pending_until a) e1 -> Forall undecided e2 -> Forall undecided e3 ->
  let x := run_path (new has_direct true t0) (e1 ++ Tick a :: e2) in
  exists rest, (fold_left step (Tick b :: e3) x).2 = x.2 ++ Relay :: rest /\ Forall (eq Relay) rest.
Proof.
  intros Ha Hb H1 H2 H3 x.
  assert (climbing t0 a (new has_direct true t0)) as C0.
  { split; cbn; try done; [by destruct has_direct|lia]. }
  pose proof (run_climbing t0 a _ [] e1 C0 H1) as C1.
  assert (past a x.1) as HP.
  { subst x. unfold run_path. rewrite fold_left_app. cbn [fold_left]. apply run_past; [|done].
    destruct (fold_left step e1 _) as [p1 acts1]. cbn [fst step] in *.
    pose proof (advance_climbing t0 a p1 a C1 ltac:(lia)) as [C2 Hd]. destruct (advance p1 a) as [p2 act]. cbn [fst] in *.
    destruct C2 as [D1 [D2 D2'] D3 D4 D5]. split; [done|]. split; [done|].
    destruct (stage p2); [|by right|by left|done]. specialize (Hd eq_refl). lia. }
  clearbody x. destruct x as [p acts]. cbn [fst snd fold_left step] in *.
  destruct (advance_past a p b HP) as [HP' HA]. destruct (HA (or_introl Hb)) as [E Es]. rewrite E.
  destruct (run_relaying (advance p b).1 (acts ++ [Relay]) e3) as (rest & -> & HR); [|done|done|].
  - destruct HP' as (? & ? & _). split; [done|]. split; [done|]. by left.
  - exists rest. by rewrite <- app_assoc.
Qed.

(** An advance keeps the addresses, and probes only one of them. *)
Lemma advance_addrs p now_ms :
  direct (advance p now_ms).1 = direct p /\ candidate_addr (advance p now_ms).1 = candidate_addr p /\
  (forall a, (advance p now_ms).2 = Probe a -> is_committed p = false /\ (direct p = Some a \/ candidate_addr p = Some a)).
Proof.
  unfold advance, leave_direct, punch_action, enter. destruct p as [st r d c s0 cm lu ro]; cbn.
  destruct ro, cm, st, r, d, c; repeat case_match; simplify_eq; cbn; split_and!; naive_solver.
Qed.

Lemma run_path_snoc p es e : run_path p (es ++ [e]) = step (run_path p es) e.
Proof. unfold run_path. by rewrite fold_left_app. Qed.

(** The addresses a run holds were offered to it. *)
Lemma addrs_offered has_direct has_rdv t0 es :
  let x := run_path (new has_direct has_rdv t0) es in
  (forall d, direct x.1 = Some d -> DirectAddr d ∈ es) /\ (forall d, candidate_addr x.1 = Some d -> exists t, Candidate d t ∈ es).
Proof.
  induction es as [|e es IH] using rev_ind; [done|]. rewrite run_path_snoc.
  destruct (run_path _ es) as [p acts]. cbn [fst] in IH. destruct IH as [I1 I2].
  assert (forall e', e' ∈ es -> e' ∈ es ++ [e]) as Hin by (intros; apply elem_of_app; auto).
  destruct e as [a|a n|n|kd|n]; cbn [step fst].
  - cbn. split; [|naive_solver]. intros d [= <-]. apply elem_of_app. right. by apply list_elem_of_singleton.
  - assert (direct (on_peer_candidate p a n) = direct p /\ candidate_addr (on_peer_candidate p a n) = Some a) as [-> ->].
    { unfold on_peer_candidate. by case_match. }
    split; [naive_solver|]. intros d [= <-]. exists n. apply elem_of_app. right. by apply list_elem_of_singleton.
  - pose proof (advance_addrs p n) as (E1 & E2 & _). destruct (advance p n) as [p' act]. cbn [fst] in *.
    rewrite E1, E2. naive_solver.
  - cbn. naive_solver.
  - cbn. naive_solver.
Qed.

(** An address is probed only after it was offered, as the peer's own address
    or as a candidate, and never while the path is committed. *)
Theorem path_probes_offered has_direct has_rdv t0 es a :
  Probe a ∈ (run_path (new has_direct has_rdv t0) es).2 ->
  exists e1 now_ms e2, es = e1 ++ Tick now_ms :: e2 /\
    (DirectAddr a ∈ e1 \/ exists t, Candidate a t ∈ e1) /\ is_committed (run_path (new has_direct has_rdv t0) e1).1 = false.
Proof.
  induction es as [|e es IH] using rev_ind; [by intros ?%elem_of_nil|]. rewrite run_path_snoc. intros Hin.
  assert (Probe a ∈ (run_path (new has_direct has_rdv t0) es).2 \/
    exists n, e = Tick n /\ (advance (run_path (new has_direct has_rdv t0) es).1 n).2 = Probe a) as [Hold|(n & -> & Hact)].
  { destruct (run_path _ es) as [p acts]. destruct e as [d|d n|n|kd|n]; cbn [step fst snd] in *; auto.
    destruct (advance p n) as [p' act] eqn:E. cbn [snd] in Hin. apply elem_of_app in Hin as [Hin|Hin]; [by left|].
    right. exists n. apply list_elem_of_singleton in Hin as ->. by rewrite E. }
  - destruct (IH Hold) as (e1 & n & e2 & -> & HO). exists e1, n, (e2 ++ [e]). by rewrite <- app_assoc.
  - destruct (advance_addrs (run_path (new has_direct has_rdv t0) es).1 n) as (_ & _ & HA).
    destruct (HA a Hact) as [Hc Ha]. destruct (addrs_offered has_direct has_rdv t0 es) as [O1 O2].
    exists es, n, []. split; [done|]. split; [|done]. destruct Ha as [Ha|Ha]; [left; by apply O1|right; by apply O2].
Qed.
End Path.
End Path.

Lemma path_escalates_witness :
  exists rest, (Path.run_path (Path.new true true 0) [Path.DirectAddr 1%nat; Path.Tick 0; Path.Tick 3000; Path.Candidate 2%nat 4000; Path.Tick 8000; Path.Tick 9000]).2
    = [Probe 1%nat; NeedLookup] ++ Relay :: rest /\ Forall (eq Relay) rest.
Proof.
  apply (Path.path_escalates true 0 [Path.DirectAddr 1%nat; Path.Tick 0] 3000 [Path.Candidate 2%nat 4000] 8000 [Path.Tick 9000]);
    [done|done|repeat constructor; done|repeat constructor|repeat constructor].
Defined.

Lemma path_probes_offered_witness :
  exists e1 now_ms e2, [Path.Candidate 2%nat 10; Path.Tick 20] = e1 ++ Path.Tick now_ms :: e2 /\
    (Path.DirectAddr 2%nat ∈ e1 \/ exists t, Path.Candidate 2%nat t ∈ e1) /\
    is_committed (Path.run_path (Path.new false true 0) e1).1 = false.
Proof.
  apply (Path.path_probes_offered false true 0 [Path.Candidate 2%nat 10; Path.Tick 20] 2%nat). vm_compute. left.
Defined.
