(* ===== verification/Reality.v ===== *)
(** * The authenticated hello

    Models the admission of an authenticated TLS ClientHello by the rendezvous
    daemon: the seal a client hides in its session id and the server's opening of
    it (crates/yip-utls/src/auth.rs), the guard against replays
    (bin/yip-rendezvous/src/reality_replay.rs) and their composition in
    bin/yip-rendezvous/src/tls_front.rs.

    X25519, HKDF and ChaCha20-Poly1305 are third-party code, used through
    [RealityCrypto]. *)

From Stdlib Require Strings.Byte.
From Stdlib Require Import NArith Lia.
From stdpp Require Import base numbers gmap list.
From S2P Require Import Prelude.

Local Open Scope N_scope.

(** [dh secret public], [derive_aead_key shared], and the cipher's [encrypt] and
    [decrypt] of key, nonce and message. *)
Class RealityCrypto := {
  public_of : list u8 -> list u8;
  dh : list u8 -> list u8 -> list u8;
  derive_aead_key : list u8 -> list u8;
  chacha_encrypt : list u8 -> list u8 -> list u8 -> list u8;
  chacha_decrypt : list u8 -> list u8 -> list u8 -> option (list u8);
}.

(** The two sides of a Diffie-Hellman exchange agree; decryption undoes
    encryption; the tag is 16 bytes. *)
Class RealityLaws `{RealityCrypto} : Prop := {
  dh_agree a b : dh a (public_of b) = dh b (public_of a);
  chacha_round key nonce m : chacha_decrypt key nonce (chacha_encrypt key nonce m) = Some m;
  chacha_length key nonce m : length (chacha_encrypt key nonce m) = (length m + 16)%nat;
}.

Definition PLAINTEXT_LEN : nat := 16.
Definition SESSION_ID_LEN : nat := 32.
Definition REALITY_SKEW_MIN : N := 10.

Definition to_le_bytes (n : nat) (v : N) : list u8 := rev (to_be_bytes n v).
Definition from_le_bytes (bs : list u8) : N := from_be_bytes (rev bs).

Definition abs_diff (a b : N) : N := if a <=? b then b - a else a - b.

Section Auth.
Context `{RealityCrypto}.

Definition seal (server_reality_pub eph_priv client_random short_id : list u8) (ts_min : N) : list u8 :=
  let shared := dh eph_priv server_reality_pub in
  let aead_key := derive_aead_key shared in
  let plaintext := short_id ++ to_le_bytes 8 ts_min in
  chacha_encrypt aead_key (take 12 client_random) plaintext.

Definition open_recover_shared (reality_priv eph_pub client_random session_id : list u8) (short_ids : list (list u8))
    (now_min skew_min : N) : option (list u8 * N * list u8) :=
  if negb (length session_id =? SESSION_ID_LEN)%nat then None
  else
    let shared := dh reality_priv eph_pub in
    let aead_key := derive_aead_key shared in
    nonce ← slice_opt 0 12 client_random;
    plaintext ← chacha_decrypt aead_key nonce session_id;
    if negb (length plaintext =? PLAINTEXT_LEN)%nat then None
    else
      short_id ← slice_opt 0 8 plaintext;
      ts_bytes ← slice_opt 8 16 plaintext;
      let ts_min := from_le_bytes ts_bytes in
      if negb (bool_decide (short_id ∈ short_ids)) then None
      else if skew_min <? abs_diff ts_min now_min then None
      else Some (short_id, ts_min, shared).
End Auth.

(** ** The replay guard *)

Definition WINDOW : N := 20.
Definition RING : nat := 21.
Definition SHARDS : nat := 16.

Inductive Verdict := Fresh | Replay.
#[export] Instance verdict_eq_dec : EqDecision Verdict.
Proof. solve_decision. Defined.

Record Bucket := mkBucket { minute : N; seals : gset (list u8) }.
Record ReplayGuard := mkGuard { shards : list (list Bucket); start_min : N; max_bucket : nat; overflow : N }.

Definition NO_MINUTE : N := u64_mod - 1.

Module Guard.

Definition new (start : N) (cap : nat) : ReplayGuard :=
  mkGuard (replicate SHARDS (replicate RING (mkBucket NO_MINUTE ∅))) start cap 0.

Definition live (now_min : N) (s : list u8) (b : Bucket) : bool :=
  negb (minute b =? NO_MINUTE) && (now_min - minute b <=? WINDOW) && bool_decide (s ∈ seals b).

(** Rotation of the slot, the search of all buckets and the insertion, under the
    shard's lock. *)
Definition check_shard (ring : list Bucket) (cap : nat) (s : list u8) (now_min : N) : run (list Bucket * Verdict * bool) :=
  let slot := N.to_nat (now_min mod N.of_nat RING) in
  let! b := rexpect (ring !! slot) in
  let ring := if negb (minute b =? now_min) then <[slot := mkBucket now_min ∅]> ring else ring in
  if existsb (live now_min s) ring then Ret (ring, Replay, false)
  else
    let! b := rexpect (ring !! slot) in
    if (cap <=? size (seals b))%nat then Ret (ring, Replay, true)
    else Ret (<[slot := mkBucket (minute b) ({[s]} ∪ seals b)]> ring, Fresh, false).

Definition check (g : ReplayGuard) (s : list u8) (ts_min now_min : N) : run (ReplayGuard * Verdict) :=
  if ts_min <? start_min g then Ret (g, Replay)
  else
    let! b0 := rexpect (s !! 0%nat) in
    let shard_idx := N.to_nat (N.land (b2n b0) (N.of_nat SHARDS - 1)) in
    let! ring := rexpect (shards g !! shard_idx) in
    let! ' (ring, v, over) := check_shard ring (max_bucket g) s now_min in
    Ret (mkGuard (<[shard_idx := ring]> (shards g)) (start_min g) (max_bucket g)
           (if over then wrap64 (overflow g + 1) else overflow g), v).
End Guard.

(** ** Admission *)

(** What the server reads of a hello. *)
Record Hello := mkHello { sni : option (list u8); eph_pub : list u8; client_random : list u8; legacy_session_id : list u8 }.

Section Admit.
(** [fields_for] says whether there is a certificate to present for a name. *)
Context `{RealityCrypto} (priv_key : list u8) (short_ids server_names : list (list u8)) (fields_for : list u8 -> bool).

(** A hello that names an allowed host and opens is accepted if the guard has
    not seen its seal; everything else is spliced to the real site. *)
Definition decide_hello (g : ReplayGuard) (h : Hello) (now_min : N) : run (ReplayGuard * bool) :=
  match sni h with
  | None => Ret (g, false)
  | Some name =>
      if negb (bool_decide (server_names = []) || bool_decide (name ∈ server_names)) then Ret (g, false)
      else
        match open_recover_shared priv_key (eph_pub h) (client_random h) (legacy_session_id h) short_ids now_min REALITY_SKEW_MIN with
        | None => Ret (g, false)
        | Some (_, ts_min, _) =>
            if negb (fields_for name) then Ret (g, false)
            else
              let! ' (g, v) := Guard.check g (legacy_session_id h) ts_min now_min in
              Ret (g, bool_decide (v = Fresh))
        end
  end.

Definition decide_all (g : ReplayGuard) (hs : list (Hello * N)) : run (ReplayGuard * list bool) :=
  rfold (fun x h => let! ' (g, ok) := decide_hello x.1 h.1 h.2 in Ret (g, x.2 ++ [ok])) hs (g, []).
End Admit.

(** ** The seal *)

Lemma length_to_le_bytes n v : length (to_le_bytes n v) = n.
Proof. unfold to_le_bytes. by rewrite length_rev, length_to_be_bytes. Qed.

Lemma from_to_le_bytes n v : v < 256 ^ N.of_nat n -> from_le_bytes (to_le_bytes n v) = v.
Proof. intros Hv. unfold from_le_bytes, to_le_bytes. by rewrite rev_involutive, from_to_be_bytes_small. Qed.

Section Seal.
Context `{RealityLaws}.

(** The seal a client computes opens at the server to the client's short id
    and time and to the secret both sides share, exactly when the short id is
    configured and the time is within the allowed skew. *)
Theorem seal_opens reality_priv eph_priv client_rnd short_id ts_min short_ids now_min skew :
  length client_rnd = 32%nat -> length short_id = 8%nat -> ts_min < u64_mod ->
  open_recover_shared reality_priv (public_of eph_priv) client_rnd
    (seal (public_of reality_priv) eph_priv client_rnd short_id ts_min) short_ids now_min skew =
  (if bool_decide (short_id ∈ short_ids) && (abs_diff ts_min now_min <=? skew)
   then Some (short_id, ts_min, dh eph_priv (public_of reality_priv)) else None).
Proof.
  intros Hr Hs Ht. unfold open_recover_shared, seal. rewrite (dh_agree reality_priv eph_priv).
  rewrite chacha_length, length_app, length_to_le_bytes, Hs. cbn [Nat.eqb Nat.add SESSION_ID_LEN negb].
  unfold slice_opt, slice. rewrite decide_True by lia. cbn [mbind option_bind Nat.sub]. rewrite drop_0, chacha_round.
  cbn [mbind option_bind]. rewrite length_app, length_to_le_bytes, Hs. cbn [Nat.eqb Nat.add PLAINTEXT_LEN negb].
  rewrite !decide_True by lia. cbn [mbind option_bind Nat.sub]. rewrite drop_0.
  rewrite (take_app_length' short_id), (drop_app_length' short_id) by done.
  rewrite take_ge by (by rewrite length_to_le_bytes). rewrite from_to_le_bytes by done.
  destruct (bool_decide (short_id ∈ short_ids)); cbn [negb andb]; [|done].
  destruct (N.ltb_spec skew (abs_diff ts_min now_min)), (N.leb_spec (abs_diff ts_min now_min) skew); done || lia.
Qed.
End Seal.

(** ** The guard remembers *)

Definition slot_of_minute (m : N) : nat := N.to_nat (m mod N.of_nat RING).
Definition shard_of (b0 : u8) : nat := N.to_nat (N.land (b2n b0) (N.of_nat SHARDS - 1)).

Definition guard_wf (g : ReplayGuard) : Prop :=
  length (shards g) = SHARDS /\ Forall (fun ring => length ring = RING) (shards g).

(** A ring holds the seal in the bucket of minute [m]. *)
Definition holds_seal (ring : list Bucket) (s : list u8) (m : N) : Prop :=
  exists b, ring !! slot_of_minute m = Some b /\ minute b = m /\ s ∈ seals b.

Lemma minute_slot_bound m : (slot_of_minute m < RING)%nat.
Proof. unfold slot_of_minute. pose proof (N.mod_lt m (N.of_nat RING) ltac:(done)). lia. Qed.

Lemma shard_bound b0 : (shard_of b0 < SHARDS)%nat.
Proof.
  unfold shard_of. change (N.of_nat SHARDS - 1) with (N.ones 4). rewrite N.land_ones.
  pose proof (N.mod_lt (b2n b0) (2 ^ 4) ltac:(done)). change (2 ^ 4) with 16 in *. unfold SHARDS. lia.
Qed.

(** Within the window two minutes share a slot only if they are equal. *)
Lemma slot_inj m n : m <= n <= m + WINDOW -> slot_of_minute m = slot_of_minute n -> m = n.
Proof.
  unfold slot_of_minute, WINDOW. intros Hw E%N2Nat.inj. change (N.of_nat RING) with 21 in E.
  pose proof (N.div_mod m 21 ltac:(done)). pose proof (N.div_mod n 21 ltac:(done)). nia.
Qed.

Lemma check_shard_ok ring cap s now :
  length ring = RING -> exists ring' v over, Guard.check_shard ring cap s now = Ret (ring', v, over) /\ length ring' = RING /\
    (v = Fresh -> holds_seal ring' s now) /\
    (forall s0 m, m <= now <= m + WINDOW -> holds_seal ring s0 m -> holds_seal ring' s0 m) /\
    (forall m, m < NO_MINUTE -> m <= now <= m + WINDOW -> holds_seal ring s m -> v = Replay).
Proof.
  intros Hl. unfold Guard.check_shard. change (N.to_nat (now mod N.of_nat RING)) with (slot_of_minute now).
  pose proof (minute_slot_bound now) as Hb. destruct (lookup_lt_is_Some_2 ring (slot_of_minute now) ltac:(lia)) as [b Hbk].
  rewrite Hbk. cbn [rexpect rbind].
  set (ring1 := if negb (minute b =? now) then <[slot_of_minute now := mkBucket now ∅]> ring else ring).
  assert (length ring1 = RING) as Hl1 by (unfold ring1; destruct (negb _); by rewrite ?length_insert).
  assert (forall s0 m, m <= now <= m + WINDOW -> holds_seal ring s0 m -> holds_seal ring1 s0 m) as Hkeep.
  { intros s0 m Hw (b0 & H0 & Hm & Hs). unfold ring1. destruct (N.eqb_spec (minute b) now) as [E|E]; cbn [negb]; [by exists b0|].
    exists b0. split; [|done]. rewrite list_lookup_insert_ne; [done|]. intros Hsl. symmetry in Hsl.
    pose proof (slot_inj m now Hw Hsl) as ->. rewrite Hbk in H0. injection H0 as ->. done. }
  assert (exists b1, ring1 !! slot_of_minute now = Some b1 /\ minute b1 = now) as (b1 & Hb1 & Hm1).
  { unfold ring1. destruct (N.eqb_spec (minute b) now) as [E|E]; cbn [negb]; [by exists b|].
    eexists. rewrite list_lookup_insert_eq by lia. done. }
  destruct (existsb (Guard.live now s) ring1) eqn:Ex.
  - do 3 eexists. split; [done|]. split; [done|]. split; [done|]. by split.
  - assert (forall m, m < NO_MINUTE -> m <= now <= m + WINDOW -> ~ holds_seal ring s m) as Hno.
    { intros m Hm Hw (b0 & H0 & Hmb & Hs)%(Hkeep _ _ Hw). assert (existsb (Guard.live now s) ring1 = true) as Ht; [|by rewrite Ht in Ex].
      apply existsb_exists. exists b0. split; [apply list_elem_of_In; by eapply list_elem_of_lookup_2|].
      unfold Guard.live. rewrite Hmb, (proj2 (N.eqb_neq _ _)), (proj2 (N.leb_le _ _)), bool_decide_eq_true_2 by (done || lia). done. }
    rewrite Hb1. cbn [rexpect rbind]. destruct (cap <=? size (seals b1))%nat.
    + do 3 eexists. split; [done|]. split; [done|]. split; [done|]. split; [done|]. intros m Hm Hw Hh. by destruct (Hno m).
    + do 3 eexists. split; [done|]. split; [by rewrite length_insert|]. split; [|split].
      * intros _. eexists. rewrite list_lookup_insert_eq by lia. split; [done|]. cbn. split; [done|]. set_solver.
      * intros s0 m Hw (b0 & H0 & Hm & Hs)%(Hkeep _ _ Hw). destruct (decide (slot_of_minute now = slot_of_minute m)) as [Hsl|Hsl].
        -- rewrite <- Hsl in H0. rewrite Hb1 in H0. injection H0 as <-. eexists. rewrite <- Hsl, list_lookup_insert_eq by lia.
           split; [done|]. cbn. split; [done|]. set_solver.
        -- exists b0. by rewrite list_lookup_insert_ne.
      * intros m Hm Hw Hh. by destruct (Hno m).
Qed.

Definition remembers (g : ReplayGuard) (s : list u8) (m : N) : Prop :=
  exists b0 ring, s !! 0%nat = Some b0 /\ shards g !! shard_of b0 = Some ring /\ holds_seal ring s m.

Lemma check_ok g s ts now :
  guard_wf g -> s <> [] ->
  exists g' v, Guard.check g s ts now = Ret (g', v) /\ guard_wf g' /\
    (v = Fresh -> remembers g' s now) /\
    (forall s0 m, m <= now <= m + WINDOW -> remembers g s0 m -> remembers g' s0 m) /\
    (forall m, m < NO_MINUTE -> m <= now <= m + WINDOW -> remembers g s m -> v = Replay).
Proof.
  intros [Hl HF] Hs. unfold Guard.check. destruct (ts <? start_min g); [by do 2 eexists|].
  destruct s as [|b0 s']; [done|]. cbn [lookup list_lookup rexpect rbind].
  change (N.to_nat (N.land (b2n b0) (N.of_nat SHARDS - 1))) with (shard_of b0). pose proof (shard_bound b0) as Hb.
  destruct (lookup_lt_is_Some_2 (shards g) (shard_of b0) ltac:(lia)) as [ring Hr]. rewrite Hr. cbn [rexpect rbind].
  pose proof HF as HF'. rewrite Forall_lookup in HF'.
  destruct (check_shard_ok ring (max_bucket g) (b0 :: s') now (HF' _ _ Hr)) as (ring' & v & over & -> & Hl' & H1 & H2 & H3).
  cbn [rbind]. do 2 eexists. split; [done|]. split; [|split; [|split]].
  - split; cbn [shards]; [by rewrite length_insert|]. by apply Forall_insert.
  - intros Hv. exists b0, ring'. cbn [shards]. rewrite list_lookup_insert_eq by lia. auto.
  - intros s0 m Hw (c0 & r0 & Hc & Hr0 & Hh). destruct (decide (shard_of b0 = shard_of c0)) as [E|E].
    + rewrite <- E, Hr in Hr0. injection Hr0 as <-. exists c0, ring'. cbn [shards]. rewrite <- E, list_lookup_insert_eq by lia. auto.
    + exists c0, r0. cbn [shards]. rewrite list_lookup_insert_ne by done. auto.
  - intros m Hm Hw (c0 & r0 & [= <-] & Hr0 & Hh). rewrite Hr in Hr0. injection Hr0 as <-. by eapply H3.
Qed.

(** ** A hello is admitted once *)

Section Once.
Context `{RealityCrypto} (priv_key : list u8) (short_ids server_names : list (list u8)) (fields_for : list u8 -> bool).
Notation decide_hello := (decide_hello priv_key short_ids server_names fields_for).
Notation decide_all := (decide_all priv_key short_ids server_names fields_for).

(** The time inside a hello does not depend on when it is opened. *)
Lemma open_near eph rnd sid now now' x x' :
  open_recover_shared priv_key eph rnd sid short_ids now REALITY_SKEW_MIN = Some x ->
  open_recover_shared priv_key eph rnd sid short_ids now' REALITY_SKEW_MIN = Some x' ->
  sid <> [] /\ abs_diff now now' <= WINDOW.
Proof.
  unfold open_recover_shared. destruct (Nat.eqb_spec (length sid) SESSION_ID_LEN) as [Hl|]; cbn [negb]; [|done].
  destruct (slice_opt 0 12 rnd) as [nonce|]; [|done]. cbn [mbind option_bind].
  destruct (chacha_decrypt _ _ _) as [pt|]; [|done]. cbn [mbind option_bind].
  destruct (negb _); [done|]. destruct (slice_opt 0 8 pt) as [sh|]; [|done]. cbn [mbind option_bind].
  destruct (slice_opt 8 16 pt) as [tb|]; [|done]. cbn [mbind option_bind]. destruct (negb _); [done|].
  destruct (N.ltb_spec REALITY_SKEW_MIN (abs_diff (from_le_bytes tb) now)) as [|H1]; [done|].
  destruct (N.ltb_spec REALITY_SKEW_MIN (abs_diff (from_le_bytes tb) now')) as [|H2]; [done|].
  intros _ _. split; [by intros ->|]. revert H1 H2. unfold abs_diff, REALITY_SKEW_MIN, WINDOW.
  repeat case_match; rewrite ?N.leb_le, ?N.leb_gt in *; lia.
Qed.

(** [accepted] are the hellos admitted so far, the last at [now]. *)
Definition remembers_all (g : ReplayGuard) (accepted : list (Hello * N)) (now : N) : Prop :=
  guard_wf g /\ forall h m, (h, m) ∈ accepted -> m <= now /\ m < NO_MINUTE /\
    (exists x, open_recover_shared priv_key (eph_pub h) (client_random h) (legacy_session_id h) short_ids m REALITY_SKEW_MIN = Some x) /\
    (now <= m + WINDOW -> remembers g (legacy_session_id h) m).

Lemma hello_admit_ok g accepted now h now' :
  remembers_all g accepted now -> now <= now' -> now' < NO_MINUTE ->
  exists g' ok, decide_hello g h now' = Ret (g', ok) /\
    remembers_all g' (accepted ++ (if ok then [(h, now')] else [])) now' /\
    (ok = true -> forall m, (h, m) ∉ accepted).
Proof.
  intros [Hwf Hacc] Hle Hno.
  assert (remembers_all g (accepted ++ []) now') as Hsame.
  { split; [done|]. rewrite app_nil_r. intros h0 m Hm. destruct (Hacc h0 m Hm) as (? & ? & ? & Hr).
    split; [lia|]. split; [done|]. split; [done|]. intros Hw. apply Hr. lia. }
  unfold Reality.decide_hello. destruct (sni h) as [name|]; [|by do 2 eexists]. destruct (negb (orb _ _)); [by do 2 eexists|].
  destruct (open_recover_shared _ _ _ _ _ _ _) as [[[sh ts] sd]|] eqn:Eo; [|by do 2 eexists].
  destruct (negb _); [by do 2 eexists|].
  destruct (open_near _ _ _ _ _ _ _ Eo Eo) as [Hne _].
  destruct (check_ok g (legacy_session_id h) ts now' Hwf Hne) as (g' & v & -> & Hwf' & H1 & H2 & H3). cbn [rbind].
  do 2 eexists. split; [done|]. rewrite bool_decide_eq_true. split.
  - split; [done|]. intros h0 m [Hm|Hm]%elem_of_app.
    + destruct (Hacc h0 m Hm) as (? & ? & ? & Hr). split; [lia|]. split; [done|]. split; [done|].
      intros Hw. apply H2; [lia|]. apply Hr. lia.
    + destruct (bool_decide_reflect (v = Fresh)) as [->|]; [|by apply elem_of_nil in Hm].
      apply list_elem_of_singleton in Hm as [= -> ->]. split; [lia|]. split; [done|]. split; [by eexists|]. auto.
  - intros -> m Hm. destruct (Hacc h m Hm) as (Hmn & Hm1 & [x Hx] & Hr).
    destruct (open_near _ _ _ _ _ _ _ Hx Eo) as [_ Hd]. assert (now' <= m + WINDOW).
    { revert Hd. unfold abs_diff. case_match; rewrite ?N.leb_le, ?N.leb_gt in *; lia. }
    discriminate (H3 m Hm1 ltac:(lia) (Hr ltac:(lia))).
Qed.

(** The hellos of a run that were admitted. *)
Definition admitted (hs : list (Hello * N)) (oks : list bool) : list (Hello * N) :=
  concat (zip_with (fun h (ok : bool) => if ok then [h] else []) hs oks).

(** The clock does not go back. *)
Fixpoint ascending (now : N) (hs : list (Hello * N)) : Prop :=
  match hs with [] => True | (_, t) :: hs => now <= t /\ t < NO_MINUTE /\ ascending t hs end.

Lemma admit_run hs g accepted now outs :
  remembers_all g accepted now -> NoDup accepted.*1 -> ascending now hs ->
  exists g' oks, rfold (fun x h => let! ' (g, ok) := decide_hello x.1 h.1 h.2 in Ret (g, x.2 ++ [ok])) hs (g, outs) = Ret (g', outs ++ oks) /\
    length oks = length hs /\ NoDup (accepted ++ admitted hs oks).*1.
Proof.
  revert g accepted now outs. induction hs as [|[h t] hs IH]; intros g accepted now outs HR HN HA; cbn [rfold].
  { exists g, []. rewrite !app_nil_r. by repeat split. }
  destruct HA as (Hle & Hno & HA). destruct (hello_admit_ok g accepted now h t HR Hle Hno) as (g1 & ok & E & HR1 & Hnew).
  cbn [fst snd]. rewrite E. cbn [rbind fst snd].
  destruct (IH g1 _ t (outs ++ [ok]) HR1) as (g2 & oks & -> & Hl & HN2); [|done|].
  - rewrite fmap_app. destruct ok; [|by rewrite app_nil_r]. apply NoDup_app. split; [done|]. split; [|apply NoDup_singleton].
    intros x ([h' m] & -> & Hx)%list_elem_of_fmap Heq%list_elem_of_singleton. cbn in Heq. subst h'. by apply (Hnew eq_refl m).
  - exists g2, (ok :: oks). rewrite <- app_assoc. split; [done|]. split; [cbn; by rewrite Hl|].
    unfold admitted in *. cbn. by rewrite <- app_assoc in HN2.
Qed.

Lemma guard_new_wf start cap : guard_wf (Guard.new start cap).
Proof. split; cbn [shards Guard.new]; [by rewrite length_replicate|]. by apply Forall_replicate. Qed.

(** C32: As long as the server's clock does not go back, no ClientHello is admitted
    twice, however often and whenever it is replayed: the guard's window covers
    every minute at which the hello's own timestamp is acceptable. *)
Theorem hello_admitted_once start cap hs :
  ascending 0 hs ->
  exists g oks, decide_all (Guard.new start cap) hs = Ret (g, oks) /\ length oks = length hs /\ NoDup (admitted hs oks).*1.
Proof.
  intros HA. unfold Reality.decide_all.
  destruct (admit_run hs (Guard.new start cap) [] 0 []) as (g & oks & E & Hl & HN); [|constructor|done|].
  - split; [apply guard_new_wf|]. by intros h m ?%elem_of_nil.
  - by exists g, oks.
Qed.
End Once.

(** ** An instance *)

(** One key for all, and a tag of zeros. *)
#[local] Instance toy_reality : RealityCrypto := {|
  public_of k := k;
  dh a b := [];
  derive_aead_key s := s;
  chacha_encrypt k n m := m ++ replicate 16 Byte.x00;
  chacha_decrypt k n c := Some (take (length c - 16) c);
|}.

#[local] Instance toy_reality_laws : RealityLaws.
Proof.
  split; [done| |]; intros; cbn [chacha_decrypt chacha_encrypt toy_reality]; rewrite length_app, length_replicate; [|done].
  rewrite Nat.add_sub. by rewrite take_app_length.
Qed.

Definition demo_rnd : list u8 := replicate 32 Byte.x07.
Definition demo_short : list u8 := replicate 8 Byte.x01.
Definition demo_hello : Hello := mkHello (Some []) [] demo_rnd (seal [] [] demo_rnd demo_short 100).

Lemma seal_opens_witness :
  open_recover_shared [] [] demo_rnd (seal [] [] demo_rnd demo_short 100) [demo_short] 105 10 = Some (demo_short, 100, []).
Proof. exact (seal_opens [] [] demo_rnd demo_short 100 [demo_short] 105 10 eq_refl eq_refl eq_refl). Defined.

(** Sent at minutes 95, 100 and 110, the hello is admitted at the first. *)
Lemma hello_admitted_once_witness :
  exists g oks, decide_all [] [demo_short] [] (fun _ => true) (Guard.new 0 8) [(demo_hello, 95); (demo_hello, 100); (demo_hello, 110)]
    = Ret (g, oks) /\ oks = [true; false; false] /\
    NoDup (admitted [(demo_hello, 95); (demo_hello, 100); (demo_hello, 110)] oks).*1.
Proof.
  destruct (hello_admitted_once [] [demo_short] [] (fun _ => true) 0 8 [(demo_hello, 95); (demo_hello, 100); (demo_hello, 110)])
    as (g & oks & E & _ & HN); [by repeat split|].
  exists g, oks. split; [exact E|]. split; [|exact HN].
  assert (match decide_all [] [demo_short] [] (fun _ => true) (Guard.new 0 8) [(demo_hello, 95); (demo_hello, 100); (demo_hello, 110)]
    with Ret (_, l) => bool_decide (l = [true; false; false]) | Panic => false end = true) as HC by (vm_compute; reflexivity).
  rewrite E in HC. by apply bool_decide_eq_true in HC.
Defined.
