(* ===== verification/Noise.v ===== *)
(** * The handshake

    Models the hybrid handshake of yip-crypto/src/lib.rs ([Handshake]: Noise
    IKpsk2 with an ML-KEM-512 shared secret as the psk) and the step functions
    of bin/yipd/src/handshake.rs over it: the framed initiation and response,
    the anti-replay label at the head of the initiation's payload, the
    ephemeral that identifies a round.

    The snow and ml-kem crates are the classes [Snow] and [MlKem]; a natural
    number names each draw of randomness.  The main theorem is that the two
    sides of a completed handshake hold mirror-image sessions. *)

From Stdlib Require Strings.Byte.
From Stdlib Require Import NArith Lia.
From stdpp Require Import base numbers gmap list.
From S2P Require Import Prelude AntiReplay Session MemberVerify.

Local Open Scope nat_scope.

(** [snow::HandshakeState]; [None] is an error, after which the state is
    dropped. *)
Class Snow := {
  SnowState : Type;
  snow_public : list u8 -> list u8;
  snow_initiator : list u8 -> list u8 -> option SnowState;
  snow_responder : list u8 -> option SnowState;
  snow_write : nat -> SnowState -> list u8 -> option (SnowState * list u8);
  snow_read : SnowState -> list u8 -> option (SnowState * list u8);
  snow_set_psk : SnowState -> nat -> list u8 -> option SnowState;
  snow_remote_static : SnowState -> option (list u8);
  snow_hash : SnowState -> list u8;
  snow_split : SnowState -> list u8 * list u8;
  snow_is_initiator : SnowState -> bool;
}.

(** [ml_kem::MlKem512] *)
Class MlKem := {
  Dk : Type;
  kem_keypair : nat -> list u8 * Dk;
  kem_encaps_key : list u8 -> bool;
  kem_encaps : nat -> list u8 -> list u8 * list u8;
  kem_decaps : Dk -> list u8 -> list u8;
}.

Definition PQ_ENCAPS_KEY_LEN : nat := 800.
Definition PQ_CIPHERTEXT_LEN : nat := 768.

(** What Noise_IKpsk2 documents: an initiation is read by the responder it was
    made for, and yields the payload and the initiator's static key; with the
    same psk the response completes the handshake on both sides, with the same
    hash and the same pair of keys.  The first message carries 96 bytes beside
    the payload and starts with the ephemeral, the second 48. *)
Class SnowLaws `{Snow} : Prop := {
  snow_start pa pb : length pa = 32 -> length pb = 32 -> is_Some (snow_initiator pa pb);
  snow_start_responder pb : length pb = 32 -> is_Some (snow_responder pb);
  snow_init_write pa pb s n pl : snow_initiator pa pb = Some s -> length pl <= 4000 ->
    exists s' m, snow_write n s pl = Some (s', m) /\ length m = 96 + length pl;
  snow_init_read pa pb s n pl s' m t : snow_initiator pa (snow_public pb) = Some s -> snow_write n s pl = Some (s', m) ->
    snow_responder pb = Some t ->
    exists t', snow_read t m = Some (t', pl) /\ snow_remote_static t' = Some (snow_public pa);
  snow_psk s k : length k = 32 -> is_Some (snow_set_psk s 2 k);
  snow_resp_write t m t' pl k t2 n pl2 pb : snow_responder pb = Some t -> snow_read t m = Some (t', pl) ->
    snow_set_psk t' 2 k = Some t2 -> length pl2 <= 4000 ->
    exists t3 m2, snow_write n t2 pl2 = Some (t3, m2) /\ length m2 = 48 + length pl2 /\
      snow_remote_static t3 = snow_remote_static t';
  snow_agree pa pb s n pl s1 m t t1 k s2 t2 n2 pl2 t3 m2 :
    snow_initiator pa (snow_public pb) = Some s -> snow_write n s pl = Some (s1, m) ->
    snow_responder pb = Some t -> snow_read t m = Some (t1, pl) ->
    snow_set_psk s1 2 k = Some s2 -> snow_set_psk t1 2 k = Some t2 -> snow_write n2 t2 pl2 = Some (t3, m2) ->
    exists s3, snow_read s2 m2 = Some (s3, pl2) /\ snow_hash s3 = snow_hash t3 /\ snow_split s3 = snow_split t3 /\
      snow_is_initiator s3 = true /\ snow_is_initiator t3 = false;
  snow_short pb t m : snow_responder pb = Some t -> length m < 96 -> snow_read t m = None;
  snow_split_lengths s : length (snow_split s).1 = 32 /\ length (snow_split s).2 = 32;
}.

(** The coefficients of an encapsulation key, in groups of three bytes. *)
Definition coeffs_ok (c : list u8) : bool :=
  match c with
  | [c0; c1; c2] =>
      let d0 := N.lor (b2n c0) (N.shiftl (N.land (b2n c1) 15) 8) in
      let d1 := N.lor (N.shiftr (b2n c1) 4) (N.shiftl (b2n c2) 4) in
      negb ((3329 <=? d0)%N || (3329 <=? d1)%N)
  | _ => true
  end.

Class MlKemLaws `{MlKem} : Prop := {
  kem_ek_length n : length (kem_keypair n).1 = PQ_ENCAPS_KEY_LEN;
  kem_ek_ok n : kem_encaps_key (kem_keypair n).1 = true /\ forallb coeffs_ok (chunks 3 (take 768 (kem_keypair n).1)) = true;
  kem_lengths n ek : length (kem_encaps n ek).1 = PQ_CIPHERTEXT_LEN /\ length (kem_encaps n ek).2 = 32;
  kem_agree n n' : kem_decaps (kem_keypair n).2 (kem_encaps n' (kem_keypair n).1).1 = (kem_encaps n' (kem_keypair n).1).2;
}.

Inductive PacketType := HandshakeInit | HandshakeResp | Data | Control | Gossip.

Definition packet_byte (t : PacketType) : u8 :=
  match t with
  | HandshakeInit => Byte.x00
  | HandshakeResp => Byte.x01
  | Data => Byte.x02
  | Control => Byte.x03
  | Gossip => Byte.x04
  end.

Definition is_type (b : u8) (t : PacketType) : bool := bool_decide (b = packet_byte t).

Definition TAI64N_LEN : nat := 12.

Module Hs.
Section Hs.
Context {snow : Snow} {kem : MlKem} {aead : Sess.Aead} {blake : Blake2s}.

(** ** yip-crypto *)

Inductive HandshakePqRole :=
| PqInitiator (dk : option Dk) (ek : list u8)
| PqResponder (pending_ct : option (list u8)).

Record Handshake := mkHandshake { inner : SnowState; role : HandshakePqRole }.

(** The message buffer of [write_message] and [read_message]. *)
Definition BUF : nat := Eval vm_compute in 64 * 64.

Definition pq_encapsulate (r : nat) (ek : list u8) : option (list u8 * list u8) :=
  if negb (forallb coeffs_ok (chunks 3 (take 768 ek))) then None
  else if kem_encaps_key ek then Some (kem_encaps r ek) else None.

Definition initiator (r : nat) (local_private peer_public : list u8) : option Handshake :=
  match snow_initiator local_private peer_public with
  | None => None
  | Some s => let ' (ek, dk) := kem_keypair r in Some (mkHandshake s (PqInitiator (Some dk) ek))
  end.

Definition responder (local_private : list u8) : option Handshake :=
  match snow_responder local_private with
  | None => None
  | Some s => Some (mkHandshake s (PqResponder None))
  end.

Definition snow_write_buf (r : nat) (s : SnowState) (payload : list u8) : option (SnowState * list u8) :=
  match snow_write r s payload with
  | Some (s, m) => if length m <=? BUF then Some (s, m) else None
  | None => None
  end.

Definition snow_read_buf (s : SnowState) (msg : list u8) : option (SnowState * list u8) :=
  match snow_read s msg with
  | Some (s, p) => if length p <=? BUF then Some (s, p) else None
  | None => None
  end.

Definition write_message (r : nat) (h : Handshake) (payload : list u8) : option (Handshake * list u8) :=
  match role h with
  | PqInitiator dk ek =>
      match snow_write_buf r (inner h) (ek ++ payload) with
      | None => None
      | Some (s, m) => Some (mkHandshake s (role h), m)
      end
  | PqResponder pending_ct =>
      match pending_ct with
      | None => None
      | Some ct =>
          match snow_write_buf r (inner h) payload with
          | None => None
          | Some (s, m) => Some (mkHandshake s (PqResponder None), ct ++ m)
          end
      end
  end.

Definition read_message (r : nat) (h : Handshake) (msg : list u8) : option (Handshake * list u8) :=
  match role h with
  | PqResponder _ =>
      match snow_read_buf (inner h) msg with
      | None => None
      | Some (s, p) =>
          if length p <? PQ_ENCAPS_KEY_LEN then None
          else
            match pq_encapsulate r (take PQ_ENCAPS_KEY_LEN p) with
            | None => None
            | Some (ct, ss) =>
                match snow_set_psk s 2 ss with
                | None => None
                | Some s => Some (mkHandshake s (PqResponder (Some ct)), drop PQ_ENCAPS_KEY_LEN p)
                end
            end
      end
  | PqInitiator dk ek =>
      if length msg <? PQ_CIPHERTEXT_LEN then None
      else
        match dk with
        | None => None
        | Some key =>
            match snow_set_psk (inner h) 2 (kem_decaps key (take PQ_CIPHERTEXT_LEN msg)) with
            | None => None
            | Some s =>
                match snow_read_buf s (drop PQ_CIPHERTEXT_LEN msg) with
                | None => None
                | Some (s, p) => Some (mkHandshake s (PqInitiator None ek), p)
                end
            end
        end
  end.

Definition remote_static (h : Handshake) : option (list u8) := snow_remote_static (inner h).

Definition channel_binding (h : Handshake) : list u8 := snow_hash (inner h).

Definition raw_split_keys (h : Handshake) : list u8 * list u8 :=
  let ' (k0, k1) := snow_split (inner h) in
  if snow_is_initiator (inner h) then (k0, k1) else (k1, k0).

Definition into_session (h : Handshake) : result Sess.Session Sess.CryptoError :=
  let ' (k_send, k_recv) := raw_split_keys h in Sess.from_raw_keys k_send k_recv 0 1.

(** ** yipd *)

Record Established := mkEstablished {
  session : Sess.Session;
  auth_key : list u8;
  hp_key : list u8;
  raw_send_key : list u8;
  raw_recv_key : list u8;
}.

(** "yip wire auth" and "yip wire hp" *)
Definition wire_auth_domain : list u8 := map n2b [121; 105; 112; 32; 119; 105; 114; 101; 32; 97; 117; 116; 104]%N.
Definition wire_hp_domain : list u8 := map n2b [121; 105; 112; 32; 119; 105; 114; 101; 32; 104; 112]%N.

Definition derive_wire_keys (cb : list u8) : list u8 * list u8 :=
  (take 16 (blake2s 32 (wire_auth_domain ++ cb)), take 16 (blake2s 32 (wire_hp_domain ++ cb))).

Definition conn_tag_from_keys (auth hp : list u8) : N := from_be_bytes (take 8 (auth ++ hp)).

(** [Established::clone_for_shard] *)
Definition clone_for_shard (e : Established) (shard_id num_shards : N) : result Established Sess.CryptoError :=
  match Sess.from_raw_keys (raw_send_key e) (raw_recv_key e) shard_id num_shards with
  | Err x => Err x
  | Ok s => Ok (mkEstablished s (auth_key e) (hp_key e) (raw_send_key e) (raw_recv_key e))
  end.

Inductive HsError := HsCrypto | HsUnexpectedPacket | HsNoStatic.

(** The end of both roles: keys, then session. *)
Definition finish (h : Handshake) : result Established HsError :=
  let cb := channel_binding h in
  let ' (send, recv) := raw_split_keys h in
  match into_session h with
  | Err _ => Err HsCrypto
  | Ok s => let ' (auth, hp) := derive_wire_keys cb in Ok (mkEstablished s auth hp send recv)
  end.

(** [r] and [r'] name the draws of the key pair and of the ephemeral. *)
Definition start_initiator (r r' : nat) (local_priv peer_pub payload : list u8) : result (Handshake * list u8) HsError :=
  match initiator r local_priv peer_pub with
  | None => Err HsCrypto
  | Some h =>
      match write_message r' h payload with
      | None => Err HsCrypto
      | Some (h, msg1) => Ok (h, packet_byte HandshakeInit :: msg1)
      end
  end.

Definition start_responder (r r' : nat) (local_priv init_pkt resp_payload : list u8) :
    result (Established * list u8 * list u8 * list u8) HsError :=
  match responder local_priv with
  | None => Err HsCrypto
  | Some h =>
      match init_pkt with
      | [] => Err HsUnexpectedPacket
      | t :: msg1 =>
          if negb (is_type t HandshakeInit) then Err HsUnexpectedPacket
          else
            match read_message r h msg1 with
            | None => Err HsCrypto
            | Some (h, initiator_payload) =>
                match write_message r' h resp_payload with
                | None => Err HsCrypto
                | Some (h, msg2) =>
                    match remote_static h with
                    | None => Err HsNoStatic
                    | Some pk =>
                        match finish h with
                        | Err e => Err e
                        | Ok est => Ok (est, packet_byte HandshakeResp :: msg2, pk, initiator_payload)
                        end
                    end
                end
            end
      end
  end.

Definition read_response (h : Handshake) (resp_pkt : list u8) : result (Established * list u8) HsError :=
  match resp_pkt with
  | [] => Err HsUnexpectedPacket
  | t :: msg2 =>
      if negb (is_type t HandshakeResp) then Err HsUnexpectedPacket
      else
        match read_message 0 h msg2 with
        | None => Err HsCrypto
        | Some (h, responder_payload) =>
            match finish h with
            | Err e => Err e
            | Ok est => Ok (est, responder_payload)
            end
        end
  end.

Definition init_ephemeral (init_pkt : list u8) : option (list u8) := slice_opt 1 33 init_pkt.

(** *** Labels *)

(** [wall_ns] is the wall clock, in nanoseconds since the UNIX epoch. *)
Definition now_tai64n (wall_ns : N) : list u8 :=
  to_be_bytes 8 (wrap64 (wall_ns / 1000000000 + 2 ^ 62)) ++ to_be_bytes 4 (wall_ns mod 1000000000).

Definition tai64n_sub_duration (ts : list u8) (sub_secs sub_nanos : N) : list u8 :=
  let secs := from_be_bytes (take 8 ts) in
  let nanos := from_be_bytes (drop 8 ts) in
  let ' (secs, nanos) :=
    if (nanos <? sub_nanos)%N then ((secs - 1)%N, (nanos + 1000000000 - sub_nanos)%N)
    else (secs, (nanos - sub_nanos)%N) in
  let min_secs := (2 ^ 62)%N in
  let ' (secs, nanos) :=
    if (secs <? min_secs)%N || (secs - sub_secs <? min_secs)%N then (min_secs, 0%N)
    else ((secs - sub_secs)%N, nanos) in
  to_be_bytes 8 secs ++ to_be_bytes 4 nanos.

Definition frame_init_payload (wall_ns : N) (cert : list u8) : list u8 := now_tai64n wall_ns ++ cert.

Definition parse_init_payload (payload : list u8) : option (list u8 * list u8) :=
  match slice_opt 0 TAI64N_LEN payload with
  | None => None
  | Some ts => Some (ts, drop TAI64N_LEN payload)
  end.

(** Labels are byte arrays, compared lexicographically; as they have the same
    length, as big-endian numbers. *)
Definition label_lt (a b : list u8) : bool := (from_be_bytes a <? from_be_bytes b)%N.

(** ** Labels are chronological *)

Lemma from_be_bytes_app a b :
  from_be_bytes (a ++ b) = (from_be_bytes a * 256 ^ N.of_nat (length b) + from_be_bytes b)%N.
Proof.
  induction b as [|x b IH] using rev_ind.
  { rewrite app_nil_r. cbn. lia. }
  rewrite app_assoc, !from_be_bytes_snoc, IH, length_app, Nat2N.inj_add, N.pow_add_r. cbn [length N.of_nat].
  rewrite N.pow_1_r. lia.
Qed.

(** A wall clock before the year 146 billion. *)
Definition wall_ok (w : N) : Prop := (w < 2 ^ 62 * 1000000000)%N.

Lemma now_tai64n_value w :
  wall_ok w -> from_be_bytes (now_tai64n w) = ((w / 1000000000 + 2 ^ 62) * 2 ^ 32 + w mod 1000000000)%N.
Proof.
  intros Hw. unfold now_tai64n. rewrite from_be_bytes_app, length_to_be_bytes.
  assert (w / 1000000000 < 2 ^ 62)%N by (apply N.Div0.div_lt_upper_bound; unfold wall_ok in Hw; lia).
  pose proof (N.mod_lt w 1000000000 ltac:(lia)).
  unfold wrap64, u64_mod. rewrite (N.mod_small (_ + _) (2 ^ 64)) by lia.
  rewrite !from_to_be_bytes_small by (change (256 ^ N.of_nat 8)%N with (2 ^ 64)%N || change (256 ^ N.of_nat 4)%N with (2 ^ 32)%N; lia).
  change (256 ^ N.of_nat 4)%N with (2 ^ 32)%N. lia.
Qed.

(** Later initiations carry greater labels. *)
Lemma label_chronological a b : wall_ok a -> wall_ok b -> label_lt (now_tai64n a) (now_tai64n b) = (a <? b)%N.
Proof.
  intros Ha Hb. unfold label_lt. rewrite !now_tai64n_value by done.
  pose proof (N.Div0.div_mod a 1000000000). pose proof (N.Div0.div_mod b 1000000000).
  pose proof (N.mod_lt a 1000000000 ltac:(lia)). pose proof (N.mod_lt b 1000000000 ltac:(lia)).
  set (qa := (a / 1000000000)%N) in *. set (qb := (b / 1000000000)%N) in *.
  set (ra := (a mod 1000000000)%N) in *. set (rb := (b mod 1000000000)%N) in *.
  apply eq_true_iff_eq. rewrite !N.ltb_lt.
  destruct (N.lt_trichotomy qa qb) as [?|[E|?]]; [split; lia|rewrite E; split; lia|split; lia].
Qed.

Lemma length_now_tai64n w : length (now_tai64n w) = TAI64N_LEN.
Proof. unfold now_tai64n. by rewrite length_app, !length_to_be_bytes. Qed.

Lemma parse_frame w cert : parse_init_payload (frame_init_payload w cert) = Some (now_tai64n w, cert).
Proof.
  unfold parse_init_payload, frame_init_payload, slice_opt. rewrite length_app, length_now_tai64n.
  rewrite decide_True by lia. unfold slice. rewrite Nat.sub_0_r, drop_0. rewrite take_app_length', drop_app_length' by (by rewrite length_now_tai64n). done.
Qed.

(** ** The two sides of a handshake *)

Context {SL : SnowLaws} {KL : MlKemLaws}.

(** A responder's success: its packet starts with the type and holds the
    ephemeral. *)
Lemma start_responder_shape r r' priv pkt pl est resp pk ipl :
  start_responder r r' priv pkt pl = Ok (est, resp, pk, ipl) ->
  exists msg1, pkt = packet_byte HandshakeInit :: msg1 /\ 96 <= length msg1.
Proof.
  unfold start_responder, responder. destruct (snow_responder priv) as [s|] eqn:Es; [|done].
  destruct pkt as [|t msg1]; [done|]. unfold is_type. case_bool_decide as Et; [|done]. cbn [negb]. subst t.
  cbn [read_message role inner]. unfold snow_read_buf.
  destruct (snow_read s msg1) as [[s1 p]|] eqn:Er; [|done]. intros _. exists msg1. split; [done|].
  destruct (Nat.lt_ge_cases (length msg1) 96) as [Hlt|?]; [|done].
  pose proof (snow_short priv s msg1 Es Hlt). congruence.
Qed.

Lemma start_responder_ephemeral r r' priv pkt pl est resp pk ipl :
  start_responder r r' priv pkt pl = Ok (est, resp, pk, ipl) -> exists e, init_ephemeral pkt = Some e.
Proof.
  intros E. destruct (start_responder_shape _ _ _ _ _ _ _ _ _ E) as (m & -> & Hm).
  unfold init_ephemeral, slice_opt. cbn [length]. rewrite decide_True by lia. by eexists.
Qed.

(** The responder's half is the mirror image of the initiator's. *)
Definition mirrors (i e : Established) : Prop :=
  raw_send_key i = raw_recv_key e /\ raw_recv_key i = raw_send_key e /\ auth_key i = auth_key e /\ hp_key i = hp_key e /\
  Sess.send_key (session i) = Sess.recv_key (session e) /\ Sess.recv_key (session i) = Sess.send_key (session e) /\
  Sess.send_counter (session i) = 0%N /\ Sess.send_counter (session e) = 0%N /\
  Sess.stride (session i) = 1%N /\ Sess.stride (session e) = 1%N /\
  Sess.replay (session i) = Replay.window_new /\ Sess.replay (session e) = Replay.window_new.

Lemma finish_mirrors hi hr ei er :
  snow_hash (inner hi) = snow_hash (inner hr) -> snow_split (inner hi) = snow_split (inner hr) ->
  snow_is_initiator (inner hi) = true -> snow_is_initiator (inner hr) = false ->
  finish hi = Ok ei -> finish hr = Ok er -> mirrors ei er.
Proof.
  intros Eh Es Ei Er. unfold finish, into_session, raw_split_keys, channel_binding. rewrite Ei, Er, Eh, Es.
  destruct (snow_split (inner hr)) as [k0 k1]. unfold Sess.from_raw_keys.
  destruct (Sess.key_new k0) as [s0|] eqn:E0, (Sess.key_new k1) as [s1|] eqn:E1; try done.
  destruct (derive_wire_keys _) as [auth hp]. intros [= <-] [= <-]. by split_and!.
Qed.

(** Keys are accepted by the AEAD: ChaCha20-Poly1305 takes every 32-byte key. *)
Definition keys_usable : Prop := forall k, length k = 32 -> is_Some (Sess.key_new k).

Lemma finish_ok h : keys_usable -> exists est, finish h = Ok est.
Proof.
  intros HK. unfold finish, into_session, raw_split_keys. destruct (snow_split_lengths (inner h)) as [H0 H1].
  destruct (snow_split (inner h)) as [k0 k1]. cbn [fst snd] in *. unfold Sess.from_raw_keys.
  destruct (HK k0 H0) as [s0 E0], (HK k1 H1) as [s1 E1].
  destruct (snow_is_initiator (inner h)); rewrite E0, E1; destruct (derive_wire_keys _) as [auth hp]; by eexists.
Qed.

Lemma handshake_agreement ra ra' rb rb' pa pb payload resp_payload :
  keys_usable -> length pa = 32 -> length pb = 32 -> length (snow_public pb) = 32 ->
  length payload <= 3000 -> length resp_payload <= 3000 ->
  exists h init resp est_i est_r,
    start_initiator ra ra' pa (snow_public pb) payload = Ok (h, init) /\
    start_responder rb rb' pb init resp_payload = Ok (est_r, resp, snow_public pa, payload) /\
    read_response h resp = Ok (est_i, resp_payload) /\
    mirrors est_i est_r /\
    conn_tag_from_keys (auth_key est_i) (hp_key est_i) = conn_tag_from_keys (auth_key est_r) (hp_key est_r).
Proof.
  intros HK Ha Hb Hpb Hp Hrp.
  unfold start_initiator, initiator. destruct (snow_start pa (snow_public pb) Ha Hpb) as [s Es]. rewrite Es.
  pose proof (kem_ek_length ra) as Hek. pose proof (kem_ek_ok ra) as [Hko Hkc]. pose proof (kem_agree ra) as Hag.
  destruct (kem_keypair ra) as [ek dk] eqn:Ekp. cbn [fst snd] in *.
  unfold PQ_ENCAPS_KEY_LEN, PQ_CIPHERTEXT_LEN in *.
  cbn [write_message role inner]. unfold snow_write_buf.
  destruct (snow_init_write pa (snow_public pb) s ra' (ek ++ payload) Es) as (s1 & m & Ew & Hm).
  { rewrite length_app. lia. }
  rewrite Ew. rewrite length_app in Hm. rewrite (proj2 (Nat.leb_le (length m) BUF)) by (unfold BUF; lia).
  destruct (snow_start_responder pb Hb) as [t Et].
  destruct (snow_init_read pa pb s ra' _ s1 m t Es Ew Et) as (t1 & Er & Hst).
  exists (mkHandshake s1 (PqInitiator (Some dk) ek)), (packet_byte HandshakeInit :: m).
  unfold start_responder, responder. rewrite Et. unfold is_type. rewrite bool_decide_true by done. cbn [negb].
  cbn [read_message role inner]. unfold snow_read_buf. rewrite Er.
  rewrite (proj2 (Nat.leb_le (length (ek ++ payload)) BUF)) by (rewrite length_app; unfold BUF; lia).
  rewrite (proj2 (Nat.ltb_ge (length (ek ++ payload)) _)) by (rewrite length_app; unfold PQ_ENCAPS_KEY_LEN; lia).
  rewrite take_app_length', drop_app_length' by done. unfold pq_encapsulate. rewrite Hkc, Hko. cbn [negb].
  destruct (kem_lengths rb ek) as [Hct Hss]. specialize (Hag rb). destruct (kem_encaps rb ek) as [ct ss]. cbn [fst snd] in *.
  destruct (snow_psk t1 ss Hss) as [t2 Et2]. rewrite Et2. cbn [write_message role inner].
  destruct (snow_resp_write t m t1 _ ss t2 rb' resp_payload pb Et Er Et2) as (t3 & m2 & Ew2 & Hm2 & Hst3); [lia|].
  unfold snow_write_buf. rewrite Ew2, (proj2 (Nat.leb_le (length m2) BUF)) by (unfold BUF; lia).
  unfold remote_static. cbn [inner]. rewrite Hst3, Hst.
  destruct (finish_ok (mkHandshake t3 (PqResponder None)) HK) as [er Efr]. rewrite Efr.
  destruct (snow_psk s1 ss Hss) as [s2 Es2].
  destruct (snow_agree pa pb s ra' (ek ++ payload) s1 m t t1 ss s2 t2 rb' resp_payload t3 m2) as (s3 & Er3 & Eh & Esp & Ei & Ern); [done..|].
  destruct (finish_ok (mkHandshake s3 (PqInitiator None ek)) HK) as [ei Efi].
  exists (packet_byte HandshakeResp :: ct ++ m2), ei, er. split; [done|]. split; [done|].
  assert (mirrors ei er) as HM by (by apply (finish_mirrors (mkHandshake s3 (PqInitiator None ek)) (mkHandshake t3 (PqResponder None)) ei er Eh Esp Ei Ern)).
  split; [|split; [done|]].
  - unfold read_response, is_type. rewrite bool_decide_true by done. cbn [negb read_message role inner].
    rewrite (proj2 (Nat.ltb_ge (length (ct ++ m2)) _)) by (rewrite length_app, Hct; lia).
    rewrite take_app_length', drop_app_length' by done. rewrite Hag, Es2. unfold snow_read_buf. rewrite Er3.
    rewrite (proj2 (Nat.leb_le (length resp_payload) BUF)) by (unfold BUF; lia). by rewrite Efi.
  - destruct HM as (_ & _ & -> & -> & _). done.
Qed.

(** C26: the handshake agrees: for any two key pairs and payloads that fit, the
    initiator's packet is answered by the responder it names, the answer
    completes the initiator's side, each side has read the other's payload and
    the responder the initiator's static key, and the two established sessions
    are mirror images: one side's send key is the other's receive key, the
    codec keys and the connection tag are equal, both start at counter zero. *)
Theorem handshake_agrees ra ra' rb rb' pa pb payload resp_payload :
  keys_usable -> length pa = 32 -> length pb = 32 -> length (snow_public pb) = 32 ->
  length payload <= 3000 -> length resp_payload <= 3000 ->
  exists h init resp est_i est_r,
    start_initiator ra ra' pa (snow_public pb) payload = Ok (h, init) /\
    start_responder rb rb' pb init resp_payload = Ok (est_r, resp, snow_public pa, payload) /\
    read_response h resp = Ok (est_i, resp_payload) /\
    mirrors est_i est_r /\
    conn_tag_from_keys (auth_key est_i) (hp_key est_i) = conn_tag_from_keys (auth_key est_r) (hp_key est_r).
Proof. apply handshake_agreement. Qed.
End Hs.
End Hs.

(** ** A plaintext handshake

    It keeps the shape and the agreement of the real one, with no secrecy: keys
    are their own public halves, messages carry everything in the clear. *)

Module ToyHs.

Record toy_state := mkToy { t_init : bool; t_local : list u8; t_remote : option (list u8); t_script : list u8 }.

Definition pad32 (l : list u8) : list u8 := take 32 (l ++ replicate 32 Byte.x00).
Definition eph (n : nat) : list u8 := to_be_bytes 32 (N.of_nat n).

Lemma length_eph n : length (eph n) = 32.
Proof. apply length_to_be_bytes. Qed.

Definition zeros (n : nat) : list u8 := replicate n Byte.x00.

Lemma length_zeros n : length (zeros n) = n.
Proof. apply length_replicate. Qed.

#[local] Opaque eph zeros.

Lemma length_pad32 l : length (pad32 l) = 32.
Proof. unfold pad32. rewrite length_take, length_app, length_replicate. lia. Qed.

Lemma pad32_id l : length l = 32 -> pad32 l = l.
Proof. intros H. unfold pad32. by rewrite <- H, take_app_length. Qed.

Definition toy_write (n : nat) (s : toy_state) (pl : list u8) : option (toy_state * list u8) :=
  if t_init s then
    let m := eph n ++ t_local s ++ zeros 32 ++ pl in Some (s, m)
  else
    let m := eph n ++ zeros 16 ++ pl in Some (mkToy false (t_local s) (t_remote s) (eph n ++ t_script s), m).

Definition toy_read (s : toy_state) (m : list u8) : option (toy_state * list u8) :=
  if t_init s then
    if length m <? 48 then None else Some (mkToy true (t_local s) (t_remote s) (take 32 m ++ t_script s), drop 48 m)
  else
    if length m <? 96 then None else Some (mkToy false (t_local s) (Some (slice 32 64 m)) (t_script s), drop 96 m).

#[local] Instance toy_snow : Snow := {|
  SnowState := toy_state;
  snow_public := pad32;
  snow_initiator p q := Some (mkToy true (pad32 p) (Some q) []);
  snow_responder p := Some (mkToy false (pad32 p) None []);
  snow_write := toy_write;
  snow_read := toy_read;
  snow_set_psk s _ k := Some (mkToy (t_init s) (t_local s) (t_remote s) k);
  snow_remote_static := t_remote;
  snow_hash s := pad32 (t_script s);
  snow_split s := (pad32 (t_script s), pad32 (rev (t_script s)));
  snow_is_initiator := t_init;
|}.

#[local] Instance toy_snow_laws : SnowLaws.
Proof.
  constructor; cbn [snow_public snow_initiator snow_responder snow_write snow_read snow_set_psk snow_remote_static snow_hash snow_split
    snow_is_initiator toy_snow].
  - by eexists.
  - by eexists.
  - intros pa pb s n pl [= <-] _. eexists _, _. split; [reflexivity|]. cbn [t_local].
    rewrite !length_app, length_pad32, length_zeros. rewrite length_eph. lia.
  - intros pa pb s n pl s' m t [= <-] [= <- <-] [= <-]. eexists. unfold toy_read. cbn [t_init t_local].
    rewrite !length_app, length_pad32, length_zeros. rewrite length_eph.
    rewrite (proj2 (Nat.ltb_ge _ _)) by lia. cbn [t_local t_script t_remote].
    rewrite (drop_app_ge (eph _)), length_eph by (rewrite length_eph; lia).
    rewrite drop_app_ge, length_pad32 by (rewrite length_pad32; lia).
    rewrite drop_app_length' by (by rewrite length_zeros). split; [reflexivity|]. cbn [t_remote].
    unfold slice. rewrite drop_app_length' by (by rewrite length_eph). rewrite take_app_length' by (by rewrite length_pad32).
    done.
  - by eexists.
  - intros t m t' pl k t2 n pl2 pb [= <-]. unfold toy_read. cbn [t_init]. destruct (length m <? 96); [done|].
    intros [= <- <-] [= <-] _. unfold toy_write. cbn [t_init]. eexists _, _. split; [reflexivity|]. split; [|done].
    rewrite !length_app, length_zeros. rewrite length_eph. lia.
  - intros pa pb s n pl s1 m t t1 k s2 t2 n2 pl2 t3 m2 [= <-] [= <- <-] [= <-] Hr [= <-] [= <-].
    unfold toy_read in Hr. cbn [t_init] in Hr. destruct (_ <? 96); [done|]. injection Hr as <- _.
    unfold toy_write. cbn [t_init t_script]. intros [= <- <-]. eexists. unfold toy_read. cbn [t_init t_script t_local t_remote].
    rewrite !length_app, length_eph, length_zeros, (proj2 (Nat.ltb_ge _ _)) by lia.
    rewrite take_app_length' by (by rewrite length_eph).
    rewrite (drop_app_ge (eph _)), length_eph by (rewrite length_eph; lia).
    rewrite drop_app_length' by (by rewrite length_zeros). split; [reflexivity|]. by cbn [t_script t_init].
  - intros pb t m [= <-] Hm. unfold toy_read. cbn [t_init]. by rewrite (proj2 (Nat.ltb_lt _ _)).
  - intros s. cbn [fst snd]. by rewrite !length_pad32.
Qed.

#[local] Instance toy_kem : MlKem := {|
  Dk := list u8;
  kem_keypair n := (replicate 768 Byte.x00 ++ eph n, eph n);
  kem_encaps_key _ := true;
  kem_encaps n ek := (eph n ++ replicate 736 Byte.x00, eph n);
  kem_decaps _ ct := pad32 ct;
|}.

#[local] Instance toy_kem_laws : MlKemLaws.
Proof.
  constructor; cbn [kem_keypair kem_encaps_key kem_encaps kem_decaps toy_kem fst snd].
  - intros n. by rewrite length_app, length_replicate, length_eph.
  - intros n. split; [done|]. rewrite take_app_length' by (by rewrite length_replicate). by vm_compute.
  - intros n ek. by rewrite length_app, length_replicate, length_eph.
  - intros n n'. unfold pad32. rewrite <- app_assoc. apply take_app_length'. by rewrite length_eph.
Qed.

#[local] Existing Instances Sess.toy_aead toy_blake.

Lemma toy_keys_usable : Hs.keys_usable.
Proof. intros k Hk. cbn. rewrite Hk. by eexists. Qed.

(** Two parties with 32-byte keys; a certificate in each payload. *)
Lemma handshake_agrees_witness :
  exists h init resp est_i est_r,
    Hs.start_initiator 1 2 (replicate 32 Byte.x0a) (snow_public (replicate 32 Byte.x0b)) [Byte.x01; Byte.x02] = Ok (h, init) /\
    Hs.start_responder 3 4 (replicate 32 Byte.x0b) init [Byte.x03] =
      Ok (est_r, resp, snow_public (replicate 32 Byte.x0a), [Byte.x01; Byte.x02]) /\
    Hs.read_response h resp = Ok (est_i, [Byte.x03]) /\ Hs.mirrors est_i est_r /\
    Hs.conn_tag_from_keys (Hs.auth_key est_i) (Hs.hp_key est_i) = Hs.conn_tag_from_keys (Hs.auth_key est_r) (Hs.hp_key est_r).
Proof.
  apply (Hs.handshake_agrees 1 2 3 4 (replicate 32 Byte.x0a) (replicate 32 Byte.x0b) [Byte.x01; Byte.x02] [Byte.x03]).
  - exact toy_keys_usable.
  - reflexivity.
  - reflexivity.
  - reflexivity.
  - cbn; lia.
  - cbn; lia.
Defined.
End ToyHs.
