(* ===== verification/Metrics.v ===== *)
(** * The metrics registry

    Models the counters of bin/yipd/src/metrics.rs and the peer summaries they
    cache.  Every counter is an atomic u64 that wraps.  The registry is shared
    with the scraper thread, which only reads it. *)

From Stdlib Require Strings.Byte.
From Stdlib Require Import NArith Lia Strings.String.
From stdpp Require Import base numbers gmap list.
From S2P Require Import Prelude NetAddr StateM.

Local Open Scope N_scope.

(** [PeerStats] of peer_manager/mod.rs. *)
Record PeerStats := mkStats {
  ps_public_key : list u8;
  ps_endpoint : option SocketAddr;
  ps_node_addr : list u8;
  ps_state : string;
  ps_last_activity_ms : N;
  ps_tx_bytes : N;
  ps_rx_bytes : N;
  ps_tx_packets : N;
  ps_rx_packets : N;
  ps_fec_recovered : N;
  ps_transport : string;
  ps_rtt_ms : option N;
  ps_fec_ratio_pct : N;
  ps_cert_status : string;
}.

Record MetricsRegistry := mkMetrics {
  cached_peer_stats : list PeerStats;
  m_tx_bytes : N;
  m_rx_bytes : N;
  m_tx_packets : N;
  m_rx_packets : N;
  dropped_packets : N;
  fec_tx_symbols : N;
  fec_recovered_symbols : N;
  fec_burst_drops : N;
  daita_padding_bytes : N;
  daita_decoy_packets : N;
  daita_decoy_bytes : N;
  handshakes_success : N;
  handshakes_failure : N;
  rekeys : N;
  current_epoch : N;
  split_bypassed_packets : N;
  split_bypassed_bytes : N;
  split_overlay_packets : N;
  split_overlay_bytes : N;
}.

#[export] Instance metrics_eta : Settable MetricsRegistry := fun r =>
  mkMetrics (cached_peer_stats r) (m_tx_bytes r) (m_rx_bytes r) (m_tx_packets r) (m_rx_packets r) (dropped_packets r)
    (fec_tx_symbols r) (fec_recovered_symbols r) (fec_burst_drops r) (daita_padding_bytes r) (daita_decoy_packets r)
    (daita_decoy_bytes r) (handshakes_success r) (handshakes_failure r) (rekeys r) (current_epoch r)
    (split_bypassed_packets r) (split_bypassed_bytes r) (split_overlay_packets r) (split_overlay_bytes r).

Module Metrics.

Definition new : MetricsRegistry := mkMetrics [] 0 0 0 0 0 0 0 0 0 0 0 0 0 0 1 0 0 0 0.

(** [fetch_add] *)
Definition add (n : N) (x : N) : N := wrap64 (x + n).

(** One constructor per [record_*] method (and [set_current_epoch]). *)
Inductive Sample :=
| Tx (bytes packets : N)
| Rx (bytes packets : N)
| Drop (packets : N)
| FecTx (symbols : N)
| FecRecovered (symbols : N)
| FecBurstDrop (bursts : N)
| DaitaPadding (bytes : N)
| DaitaDecoy (packets bytes : N)
| HandshakeSuccess
| HandshakeFailure
| Rekey
| CurrentEpoch (epoch : N)
| SplitBypass (bytes packets : N)
| SplitOverlay (bytes packets : N).

Definition record (r : MetricsRegistry) (x : Sample) : MetricsRegistry :=
  match x with
  | Tx bytes packets => r <| m_tx_bytes ::= add bytes |> <| m_tx_packets ::= add packets |>
  | Rx bytes packets => r <| m_rx_bytes ::= add bytes |> <| m_rx_packets ::= add packets |>
  | Drop packets => r <| dropped_packets ::= add packets |>
  | FecTx symbols => r <| fec_tx_symbols ::= add symbols |>
  | FecRecovered symbols => r <| fec_recovered_symbols ::= add symbols |>
  | FecBurstDrop bursts => r <| fec_burst_drops ::= add bursts |>
  | DaitaPadding bytes => r <| daita_padding_bytes ::= add bytes |>
  | DaitaDecoy packets bytes => r <| daita_decoy_packets ::= add packets |> <| daita_decoy_bytes ::= add bytes |>
  | HandshakeSuccess => r <| handshakes_success ::= add 1 |>
  | HandshakeFailure => r <| handshakes_failure ::= add 1 |>
  | Rekey => r <| rekeys ::= add 1 |>
  | CurrentEpoch epoch => r <| current_epoch := epoch |>
  | SplitBypass bytes packets => r <| split_bypassed_bytes ::= add bytes |> <| split_bypassed_packets ::= add packets |>
  | SplitOverlay bytes packets => r <| split_overlay_bytes ::= add bytes |> <| split_overlay_packets ::= add packets |>
  end.

Definition update_peer_stats (r : MetricsRegistry) (stats : list PeerStats) : MetricsRegistry :=
  r <| cached_peer_stats := stats |>.

End Metrics.
