(* ===== verification/SplitTunnel.v ===== *)
(** * Split tunnelling

    Models the split-tunnel engine of bin/yipd/src/control.rs: matching an
    address against CIDR blocks, the decision to bypass the tunnel, and the
    destination address of an inner packet.  The main theorem is that the mask
    arithmetic decides equality of the leading bits. *)

From Stdlib Require Strings.Byte.
From Stdlib Require Import NArith Lia Strings.String.
From stdpp Require Import base numbers gmap list.
From S2P Require Import Prelude NetAddr StateM.

Local Open Scope N_scope.

Inductive SplitMode := Exclude | Include.

Record SplitTunnelTelemetry := mkSplitTelemetry {
  bypassed_packets : N;
  bypassed_bytes : N;
  overlay_packets : N;
  overlay_bytes : N;
}.

Record SplitTunnelState := mkSplit {
  enabled : bool;
  split_mode : SplitMode;
  cidrs : list string;
  parsed_cidrs : list (IpAddr * N);
  domains : list string;
  apps : list string;
  telemetry : SplitTunnelTelemetry;
}.

#[export] Instance split_eta : Settable SplitTunnelState := fun r =>
  mkSplit (enabled r) (split_mode r) (cidrs r) (parsed_cidrs r) (domains r) (apps r) (telemetry r).

Module Split.

Definition default : SplitTunnelState := mkSplit false Exclude [] [] [] [] (mkSplitTelemetry 0 0 0 0).

(** One address family: [width] bits. *)
Definition masked_eq (width t n prefix : N) : bool :=
  if prefix =? 0 then true
  else if width <? prefix then false
  else
    let mask := if width <=? prefix then N.ones width else N.lxor (N.ones width) (N.shiftl 1 (width - prefix) - 1) in
    N.land t mask =? N.land n mask.

Definition ip_matches_cidr (target net : IpAddr) (prefix : N) : bool :=
  match target, net with
  | IpV4 t, IpV4 n => masked_eq 32 (from_be_bytes t) (from_be_bytes n) prefix
  | IpV6 t, IpV6 n => masked_eq 128 (from_be_bytes t) (from_be_bytes n) prefix
  | _, _ => false
  end.

Definition matches_ip (s : SplitTunnelState) (ip : IpAddr) : bool :=
  existsb (fun c => ip_matches_cidr ip c.1 c.2) (parsed_cidrs s).

Definition should_bypass (s : SplitTunnelState) (ip : IpAddr) : bool :=
  if negb (enabled s) then false
  else
    match split_mode s with
    | Exclude => matches_ip s ip
    | Include => negb (matches_ip s ip)
    end.

Definition record_bypassed (s : SplitTunnelState) (n : N) : SplitTunnelState :=
  let t := telemetry s in
  s <| telemetry := mkSplitTelemetry (wrap64 (bypassed_packets t + 1)) (wrap64 (bypassed_bytes t + n))
                      (overlay_packets t) (overlay_bytes t) |>.

Definition record_routed (s : SplitTunnelState) (n : N) : SplitTunnelState :=
  let t := telemetry s in
  s <| telemetry := mkSplitTelemetry (bypassed_packets t) (bypassed_bytes t)
                      (wrap64 (overlay_packets t + 1)) (wrap64 (overlay_bytes t + n)) |>.

Definition extract_ip_dst (inner : list u8) : option IpAddr :=
  match inner with
  | [] => None
  | b0 :: _ =>
      let version := N.shiftr (b2n b0) 4 in
      if (20 <=? length inner)%nat && (version =? 4) then Some (IpV4 (slice 16 20 inner))
      else if (40 <=? length inner)%nat && (version =? 6) then Some (IpV6 (slice 24 40 inner))
      else None
  end.

(** ** The mask keeps the leading bits *)

Lemma mask_high width k i :
  k <= width -> N.testbit (N.lxor (N.ones width) (N.shiftl 1 k - 1)) i = (k <=? i) && (i <? width).
Proof.
  intros Hk. rewrite N.lxor_spec. rewrite N.shiftl_1_l, N.sub_1_r, <- N.ones_equiv.
  destruct (N.leb_spec k i), (N.ltb_spec i width); cbn [andb].
  - rewrite N.ones_spec_low, N.ones_spec_high by done. done.
  - rewrite !N.ones_spec_high by lia. done.
  - rewrite !N.ones_spec_low by lia. done.
  - lia.
Qed.

Lemma masked_eq_spec width t n prefix :
  t < 2 ^ width -> n < 2 ^ width -> prefix <= width ->
  masked_eq width t n prefix = true <-> N.shiftr t (width - prefix) = N.shiftr n (width - prefix).
Proof.
  intros Ht Hn Hp. unfold masked_eq. destruct (N.eqb_spec prefix 0) as [->|H0].
  { rewrite N.sub_0_r, !N.shiftr_div_pow2, !N.div_small by done. done. }
  rewrite (proj2 (N.ltb_ge _ _)) by done.
  set (mask := if width <=? prefix then _ else _).
  assert (forall i, N.testbit mask i = (width - prefix <=? i) && (i <? width)) as Hmask.
  { intros i. unfold mask. destruct (N.leb_spec width prefix).
    - replace (width - prefix) with 0 by lia. rewrite (proj2 (N.leb_le 0 i)) by lia. cbn [andb].
      destruct (N.ltb_spec i width); [by rewrite N.ones_spec_low|by rewrite N.ones_spec_high].
    - apply mask_high. lia. }
  assert (forall x i, x < 2 ^ width -> width <= i -> N.testbit x i = false) as Hhigh.
  { intros x i Hx Hi. destruct (N.eq_dec x 0) as [->|]; [apply N.bits_0|].
    apply N.bits_above_log2. apply N.log2_lt_pow2 in Hx; lia. }
  rewrite N.eqb_eq. split; intros E; apply N.bits_inj; intros i.
  - rewrite !N.shiftr_spec' . destruct (N.lt_ge_cases (i + (width - prefix)) width) as [Hi|Hi].
    + apply (f_equal (fun x => N.testbit x (i + (width - prefix)))) in E. rewrite !N.land_spec, Hmask in E.
      rewrite (proj2 (N.leb_le _ _)), (proj2 (N.ltb_lt _ _)) in E by lia. cbn [andb] in E. by rewrite !andb_true_r in E.
    + by rewrite !Hhigh.
  - rewrite !N.land_spec, Hmask. destruct (N.leb_spec (width - prefix) i) as [Hi|Hi]; cbn [andb]; [|by rewrite !andb_false_r].
    apply (f_equal (fun x => N.testbit x (i - (width - prefix)))) in E. rewrite !N.shiftr_spec' in E.
    rewrite N.sub_add in E by done. by rewrite E.
Qed.

(** The address and the block are of the same family and agree in the leading
    [prefix] bits. *)
Definition in_block (target net : IpAddr) (prefix : N) : Prop :=
  match target, net with
  | IpV4 t, IpV4 n => N.shiftr (from_be_bytes t) (32 - prefix) = N.shiftr (from_be_bytes n) (32 - prefix)
  | IpV6 t, IpV6 n => N.shiftr (from_be_bytes t) (128 - prefix) = N.shiftr (from_be_bytes n) (128 - prefix)
  | _, _ => False
  end.

Definition ip_wf (a : IpAddr) : Prop := match a with IpV4 o => length o = 4%nat | IpV6 o => length o = 16%nat end.
Definition prefix_wf (a : IpAddr) (p : N) : Prop := match a with IpV4 _ => p <= 32 | IpV6 _ => p <= 128 end.

Lemma ip_matches_cidr_spec t n p : ip_wf t -> ip_wf n -> prefix_wf n p -> ip_matches_cidr t n p = true <-> in_block t n p.
Proof.
  intros Ht Hn Hp. destruct t as [t|t], n as [n|n]; cbn in *; try done; apply masked_eq_spec; try done.
  1,2: pose proof (from_be_bytes_lt t); pose proof (from_be_bytes_lt n); rewrite Ht, Hn in *; assumption.
  1,2: pose proof (from_be_bytes_lt t); pose proof (from_be_bytes_lt n); rewrite Ht, Hn in *; assumption.
Qed.

(** A packet bypasses the tunnel exactly when split tunnelling is on and the
    policy says so: in exclude mode when its destination agrees with some
    configured block in the block's leading bits, in include mode when it
    agrees with none. *)
Theorem bypass_exact s ip :
  ip_wf ip -> Forall (fun c => ip_wf c.1 /\ prefix_wf c.1 c.2) (parsed_cidrs s) ->
  should_bypass s ip = true <->
  enabled s = true /\
  match split_mode s with
  | Exclude => Exists (fun c => in_block ip c.1 c.2) (parsed_cidrs s)
  | Include => Forall (fun c => ~ in_block ip c.1 c.2) (parsed_cidrs s)
  end.
Proof.
  intros Hip HF.
  assert (matches_ip s ip = true <-> Exists (fun c => in_block ip c.1 c.2) (parsed_cidrs s)) as Hm.
  { unfold matches_ip. rewrite existsb_exists, Exists_exists. split; intros (c & Hc & H); exists c;
      (rewrite list_elem_of_In in *; destruct (proj1 (Forall_forall _ _) HF c) as [H1 H2]; [by apply list_elem_of_In|]);
      split; try done; by apply (ip_matches_cidr_spec ip c.1 c.2). }
  unfold should_bypass. destruct (enabled s); cbn [negb]; [|naive_solver].
  destruct (split_mode s); [naive_solver|]. rewrite negb_true_iff. split; [intros E; split; [done|]|intros [_ E]].
  - apply Forall_forall. intros c Hc Hin. assert (matches_ip s ip = true); [|congruence].
    apply Hm, Exists_exists. eauto.
  - apply not_true_iff_false. rewrite Hm, Exists_exists. intros (c & Hc & Hin). by apply (proj1 (Forall_forall _ _) E c).
Qed.

Lemma bypass_exact_witness :
  should_bypass (mkSplit true Exclude [] [(IpV4 (map n2b [10; 1; 0; 0]), 16)] [] [] (mkSplitTelemetry 0 0 0 0))
    (IpV4 (map n2b [10; 1; 2; 3])) = true <->
  true = true /\ Exists (fun c => in_block (IpV4 (map n2b [10; 1; 2; 3])) c.1 c.2) [(IpV4 (map n2b [10; 1; 0; 0]), 16)].
Proof.
  apply (bypass_exact (mkSplit true Exclude [] [(IpV4 (map n2b [10; 1; 0; 0]), 16)] [] [] (mkSplitTelemetry 0 0 0 0))).
  - reflexivity.
  - constructor; [|constructor]. split; [reflexivity|]. cbn. lia.
Defined.
End Split.
