(* ===== verification/TunOffload.v ===== *)
(** * Segmentation at the tunnel device

    Models crates/yip-io/src/tun_offload.rs: the header the kernel puts before
    packets of a tunnel device with offloads ([virtio_net_hdr]), the parser of
    IPv4/TCP packets, the internet checksums, the splitter that cuts a large
    TCP packet the kernel hands over into segments ([split_gro]), and the
    coalescer that joins segments before they are handed to the kernel.

    The header is in the byte order of the machine, a parameter.  Loops run on
    the length of the payload; a checksum is folded at most three times. *)

From Stdlib Require Strings.Byte.
From Stdlib Require Import NArith Lia.
From stdpp Require Import base numbers gmap list.
From S2P Require Import Prelude.

Local Open Scope nat_scope.

Definition VNET_HDR_LEN : nat := 10.
Definition GSO_NONE : u8 := n2b 0.
Definition GSO_TCPV4 : u8 := n2b 1.
Definition F_NEEDS_CSUM : N := 1.
Definition TCP_FLAG_FIN : N := 0x01.
Definition TCP_FLAG_RST : N := 0x04.
Definition TCP_FLAG_PSH : N := 0x08.
Definition TCP_FLAG_URG : N := 0x20.
Definition MAX_GSO_SEGMENTS : nat := 64.
Definition MAX_GSO_PAYLOAD : N := 65535.

Record VirtioNetHdr := mkHdr {
  h_flags : u8;
  gso_type : u8;
  hdr_len : N;
  gso_size : N;
  csum_start : N;
  csum_offset : N;
}.

Record FlowKey := mkFlow { src : list u8; dst : list u8; sport : N; dport : N }.

#[export] Instance FlowKey_eq_dec : EqDecision FlowKey.
Proof. solve_decision. Defined.

Record Ipv4Tcp := mkTcp {
  ip_hdr_len : nat;
  tcp_hdr_len : nat;
  total_len : nat;
  key : FlowKey;
  seqno : N;
  flags : u8;
  payload_off : nat;
  payload_len : nat;
  bytes : list u8;
}.

Module Offload.

Definition slice_gso_payload (buf : list u8) (mss : nat) : list (list u8) :=
  match buf with
  | [] => []
  | _ => if mss =? 0 then [buf] else chunks mss buf
  end.

(** ** The header of the device *)

Section Vnet.
Context (big_endian : bool).

Definition u16_of_ne (b : list u8) : N := from_be_bytes (if big_endian then b else rev b).
Definition u16_to_ne (v : N) : list u8 := if big_endian then to_be_bytes 2 v else rev (to_be_bytes 2 v).

Definition read_vnet_hdr (buf : list u8) : option VirtioNetHdr :=
  match buf with
  | b0 :: b1 :: b2 :: b3 :: b4 :: b5 :: b6 :: b7 :: b8 :: b9 :: _ =>
      Some (mkHdr b0 b1 (u16_of_ne [b2; b3]) (u16_of_ne [b4; b5]) (u16_of_ne [b6; b7]) (u16_of_ne [b8; b9]))
  | _ => None
  end.

Definition vnet_bytes (h : VirtioNetHdr) : list u8 :=
  [h_flags h; gso_type h] ++ u16_to_ne (hdr_len h) ++ u16_to_ne (gso_size h) ++ u16_to_ne (csum_start h) ++
  u16_to_ne (csum_offset h).

(** Writes the first ten bytes of [out]. *)
Definition write_vnet_hdr (h : VirtioNetHdr) (out : list u8) : run (list u8) :=
  let! _ := rassert (VNET_HDR_LEN <=? length out) in copy_at 0 (vnet_bytes h) out.

End Vnet.

(** ** IPv4 and TCP *)

Definition byte_at (p : list u8) (i : nat) : run N := let! b := rexpect (p !! i) in Ret (b2n b).
Definition u16_at (p : list u8) (i : nat) : run N :=
  let! a := byte_at p i in let! b := byte_at p (i + 1) in Ret (a * 256 + b)%N.
Definition u32_at (p : list u8) (i : nat) : run N :=
  let! a := u16_at p i in let! b := u16_at p (i + 2) in Ret (a * u16_mod + b)%N.

(** The fields of the TCP header at [t], once the IPv4 header is accepted. *)
Definition parse_tcp (p : list u8) (t total : nat) : run (option Ipv4Tcp) :=
  let! off := byte_at p (t + 12) in
  let data_off := N.to_nat (N.shiftr off 4) * 4 in
  if (data_off <? 20) || (total <? t + data_off) then Ret None
  else
    let! sp := u16_at p t in
    let! dp := u16_at p (t + 2) in
    let! sq := u32_at p (t + 4) in
    let! fl := rexpect (p !! (t + 13)) in
    let! s := slice_run 12 16 p in
    let! d := slice_run 16 20 p in
    Ret (Some (mkTcp t data_off total (mkFlow s d sp dp) sq fl (t + data_off) (total - (t + data_off)) p)).

Definition parse_ipv4_tcp (p : list u8) : run (option Ipv4Tcp) :=
  if length p <? 20 then Ret None
  else
    let! b0 := byte_at p 0 in
    if negb (N.shiftr b0 4 =? 4)%N then Ret None
    else
      let ihl := N.to_nat (N.land b0 0x0F) * 4 in
      if (ihl <? 20) || (length p <? ihl) then Ret None
      else
        let! proto := byte_at p 9 in
        if negb (proto =? 6)%N then Ret None
        else
          let! frag := u16_at p 6 in
          if negb (N.land frag 0x2000 =? 0)%N || negb (N.land frag 0x1FFF =? 0)%N then Ret None
          else
            let! len := u16_at p 2 in
            let total := N.to_nat len in
            if (total <? ihl) || (length p <? total) then Ret None
            else if total <? ihl + 20 then Ret None
            else parse_tcp p ihl total.

(** ** Checksums *)

(** Addition on [u32]. *)
Definition add32 (a b : N) : run N := if (a + b <? u32_mod)%N then Ret (a + b)%N else Panic.

(** The big-endian words, the last one padded. *)
Fixpoint sum_words (l : list u8) (sum : N) : run N :=
  match l with
  | a :: b :: l => let! sum := add32 sum (b2n a * 256 + b2n b) in sum_words l sum
  | [a] => add32 sum (N.shiftl (b2n a) 8)
  | [] => Ret sum
  end.

Fixpoint fold_sum (fuel : nat) (sum : N) : run N :=
  match fuel with
  | O => Panic
  | S fuel =>
      if (N.shiftr sum 16 =? 0)%N then Ret sum
      else let! sum := add32 (N.land sum 0xFFFF) (N.shiftr sum 16) in fold_sum fuel sum
  end.

(** [!u16::try_from(sum & 0xFFFF)] of the folded sum. *)
Definition finish_sum (sum : N) : run N :=
  let! sum := fold_sum 3 sum in Ret (N.lxor (N.land sum 0xFFFF) 0xFFFF).

Definition ipv4_checksum (hdr : list u8) : run (list u8) :=
  let! hdr := copy_at 10 [Byte.x00; Byte.x00] hdr in
  let! sum := sum_words hdr 0 in
  let! ck := finish_sum sum in
  copy_at 10 (to_be_bytes 2 ck) hdr.

Definition add_word (p : list u8) (sum : N) (i : nat) : run N := let! w := u16_at p i in add32 sum w.

Definition tcp_checksum (p : list u8) (ip_hdr : nat) : run (list u8) :=
  let total := length p in
  let! p := copy_at (ip_hdr + 16) [Byte.x00; Byte.x00] p in
  let tcp_len := N.of_nat (total - ip_hdr) in
  let! sum := rfold (add_word p) [12; 14; 16; 18] 0%N in
  let! sum := add32 sum 6 in
  let! _ := rassert (tcp_len <? u32_mod)%N in
  let! sum := add32 sum (N.land tcp_len 0xFFFF) in
  let! sum := sum_words (drop ip_hdr p) sum in
  let! ck := finish_sum sum in
  copy_at (ip_hdr + 16) (to_be_bytes 2 ck) p.

Definition complete_partial_csum (p : list u8) (start offset : nat) : run (list u8) :=
  let field := start + offset in
  if (length p <=? start) || (length p <? field + 2) then Ret p
  else
    let! sum := sum_words (drop start p) 0 in
    let! ck := finish_sum sum in
    let udp := bool_decide (p !! 9 = Some (n2b 17)) in
    let ck := if (ck =? 0)%N && udp then 0xFFFF%N else ck in
    copy_at field (to_be_bytes 2 ck) p.

(** ** Splitting what the kernel joined *)

(** One segment: the headers [hdr] with length, identification and sequence
    number patched, the payload, both checksums. *)
Definition segment (hdr : list u8) (ip_hdr : nat) (ip_id sq : N) (payload : list u8) : run (list u8) :=
  let n := length hdr + length payload in
  let! _ := rassert (N.of_nat n <? u16_mod)%N in
  let! s := copy_at 2 (to_be_bytes 2 (N.of_nat n)) (hdr ++ payload) in
  let! s := copy_at 4 (to_be_bytes 2 ip_id) s in
  let! s := copy_at (ip_hdr + 4) (to_be_bytes 4 sq) s in
  let! _ := rassert (ip_hdr <=? length s) in
  let! ip := ipv4_checksum (take ip_hdr s) in
  tcp_checksum (ip ++ drop ip_hdr s) ip_hdr.

(** The loop: [payload] is what is left from [off] on. *)
Fixpoint split_loop (fuel : nat) (hdr : list u8) (ip_hdr seg : nat) (ip_id sq : N) (payload : list u8) (out : list u8)
    (offsets : list (nat * nat)) : run (list u8 * list (nat * nat)) :=
  match payload with
  | [] => Ret (out, offsets)
  | _ =>
      match fuel with
      | O => Panic
      | S fuel =>
          let n := Nat.min seg (length payload) in
          let! s := segment hdr ip_hdr ip_id sq (take n payload) in
          let! _ := rassert (N.of_nat n <? u32_mod)%N in
          split_loop fuel hdr ip_hdr seg (wrap16 (ip_id + 1)) (wrap32 (sq + N.of_nat n)) (drop n payload) (out ++ s)
            (offsets ++ [(length out, length hdr + n)])
      end
  end.

Section Split.
Context (big_endian : bool).

(** The output buffer, the segments in it, and whether the frame was accepted. *)
Definition split_gro (frame : list u8) : run (list u8 * list (nat * nat) * bool) :=
  match read_vnet_hdr big_endian frame with
  | None => Ret ([], [], false)
  | Some h =>
      let body := drop VNET_HDR_LEN frame in
      if bool_decide (gso_type h = GSO_NONE) || (gso_size h =? 0)%N then
        let! out := if negb (N.land (b2n (h_flags h)) F_NEEDS_CSUM =? 0)%N
                    then complete_partial_csum body (N.to_nat (csum_start h)) (N.to_nat (csum_offset h))
                    else Ret body in
        Ret (out, [(0, length body)], true)
      else
        let! parsed := parse_ipv4_tcp body in
        match parsed with
        | None => Ret ([], [], false)
        | Some x =>
            let! hdr := slice_run 0 (payload_off x) body in
            let! payload := slice_run (payload_off x) (payload_off x + payload_len x) body in
            let! ip_id := u16_at body 4 in
            let! ' (out, offsets) :=
              split_loop (length payload) hdr (ip_hdr_len x) (N.to_nat (gso_size h)) ip_id (seqno x) payload [] [] in
            Ret (out, offsets, true)
        end
  end.

(** ** Joining segments for the kernel *)

Record Coalescer := mkCoalescer {
  pending : list u8;
  c_out : list u8;
  has_pending : bool;
  is_tcp_run : bool;
  sealed : bool;
  c_key : FlowKey;
  next_seq : N;
  c_gso_size : N;
  c_ip_hdr_len : nat;
  l3_hdr_len : nat;
  segs : nat;
}.

Definition new : Coalescer :=
  let zeros := replicate 4 Byte.x00 in mkCoalescer [] [] false false false (mkFlow zeros zeros 0 0) 0 0 0 0 0.

(** [u16::try_from(n).unwrap_or(d)] *)
Definition u16_or (d : N) (n : nat) : N := if (N.of_nat n <? u16_mod)%N then N.of_nat n else d.

(** The frame of a pending run: length and checksum of the IPv4 header patched,
    the header of the device written. *)
Definition finish_run (c : Coalescer) : run (list u8) :=
  let p := pending c in
  let! p := copy_at (VNET_HDR_LEN + 2) (to_be_bytes 2 (u16_or 65535 (length p - VNET_HDR_LEN))) p in
  let! ip := slice_run VNET_HDR_LEN (VNET_HDR_LEN + c_ip_hdr_len c) p in
  let! ip := ipv4_checksum ip in
  let! p := copy_at VNET_HDR_LEN ip p in
  write_vnet_hdr big_endian
    (mkHdr (n2b F_NEEDS_CSUM) GSO_TCPV4 (u16_or 0 (l3_hdr_len c)) (c_gso_size c) (u16_or 0 (c_ip_hdr_len c)) 16) p.

Definition take_pending (c : Coalescer) : run (Coalescer * option (list u8)) :=
  if negb (has_pending c) then Ret (c, None)
  else
    let! frame := if is_tcp_run c then finish_run c else Ret (pending c) in
    Ret (mkCoalescer [] frame false (is_tcp_run c) (sealed c) (c_key c) (next_seq c) (c_gso_size c) (c_ip_hdr_len c)
           (l3_hdr_len c) (segs c), Some frame).

Definition start_tcp_run (c : Coalescer) (x : Ipv4Tcp) (seal : bool) : run Coalescer :=
  let! first := slice_run 0 (total_len x) (bytes x) in
  Ret (mkCoalescer (replicate VNET_HDR_LEN Byte.x00 ++ first) (c_out c) true true seal (key x)
         (wrap32 (seqno x + N.of_nat (payload_len x))) (u16_or 0 (payload_len x)) (ip_hdr_len x) (payload_off x) 1).

Definition start_singleton (c : Coalescer) (p : list u8) : run Coalescer :=
  let! hdr := write_vnet_hdr big_endian (mkHdr (n2b 0) GSO_NONE 0 0 0 0) (replicate VNET_HDR_LEN Byte.x00) in
  Ret (mkCoalescer (hdr ++ p) (c_out c) true false true (c_key c) (next_seq c) (c_gso_size c) (c_ip_hdr_len c)
         (l3_hdr_len c) (segs c)).

(** A flag that ends a run. *)
Definition ends_run (x : Ipv4Tcp) : bool :=
  negb (N.land (b2n (flags x)) (N.lor (N.lor (N.lor TCP_FLAG_PSH TCP_FLAG_FIN) TCP_FLAG_RST) TCP_FLAG_URG) =? 0)%N.

Definition continues (c : Coalescer) (x : Ipv4Tcp) : run bool :=
  if (0 <? payload_len x) && negb (ends_run x) && bool_decide (key x = c_key c) && (seqno x =? next_seq c)%N &&
     (payload_off x =? l3_hdr_len c) && (segs c <? MAX_GSO_SEGMENTS)
  then
    let! _ := rassert (VNET_HDR_LEN + l3_hdr_len c <=? length (pending c)) in
    Ret (N.of_nat (length (pending c) - VNET_HDR_LEN - l3_hdr_len c + payload_len x) <=? MAX_GSO_PAYLOAD)%N
  else Ret false.

Definition extend (c : Coalescer) (x : Ipv4Tcp) : run Coalescer :=
  let! more := slice_run (payload_off x) (payload_off x + payload_len x) (bytes x) in
  Ret (mkCoalescer (pending c ++ more) (c_out c) (has_pending c) (is_tcp_run c) (sealed c) (c_key c)
         (wrap32 (next_seq c + N.of_nat (payload_len x))) (c_gso_size c) (c_ip_hdr_len c) (l3_hdr_len c) (segs c + 1)).

(** Flush what is pending and start anew with [p]. *)
Definition restart (c : Coalescer) (parsed : option Ipv4Tcp) (p : list u8) : run (Coalescer * option (list u8)) :=
  let! ' (c, flushed) := take_pending c in
  let! c := match parsed with
            | Some x => if 0 <? payload_len x then start_tcp_run c x (ends_run x) else start_singleton c p
            | None => start_singleton c p
            end in
  Ret (c, flushed).

Definition push (c : Coalescer) (p : list u8) : run (Coalescer * option (list u8)) :=
  let! parsed := parse_ipv4_tcp p in
  match parsed with
  | Some x =>
      let! cont := if has_pending c && is_tcp_run c && negb (sealed c) then continues c x else Ret false in
      if cont then let! c := extend c x in Ret (c, None) else restart c parsed p
  | None => restart c parsed p
  end.

Definition flush (c : Coalescer) : run (Coalescer * option (list u8)) := take_pending c.

End Split.

(** * Properties *)

(** ** Patching a buffer *)

Definition patch {A} (off : nat) (s d : list A) : list A := take off d ++ s ++ drop (off + length s) d.

Lemma copy_patch {A} off (s d : list A) : off + length s <= length d -> copy_at off s d = Ret (patch off s d).
Proof. apply copy_at_ok. Qed.

Lemma length_patch {A} off (s d : list A) : off + length s <= length d -> length (patch off s d) = length d.
Proof. intros. unfold patch. len. Qed.

Lemma lookup_patch {A} off (s d : list A) i :
  off + length s <= length d -> i < off \/ off + length s <= i -> patch off s d !! i = d !! i.
Proof.
  intros Hl [Hi|Hi]; unfold patch.
  - rewrite lookup_app_l by len. by apply lookup_take_lt.
  - rewrite lookup_app_r, lookup_app_r by len. rewrite lookup_drop. f_equal. len.
Qed.

Lemma lookup_patch_in {A} off (s d : list A) i :
  off + length s <= length d -> off <= i < off + length s -> patch off s d !! i = s !! (i - off).
Proof.
  intros Hl Hi. unfold patch. rewrite lookup_app_r by len. rewrite length_take, Nat.min_l by lia. by rewrite lookup_app_l by lia.
Qed.

Lemma patch_patch {A} off (s s' d : list A) :
  length s' = length s -> off + length s <= length d -> patch off s' (patch off s d) = patch off s' d.
Proof.
  intros E Hl. unfold patch. rewrite E. f_equal; [|f_equal].
  - by rewrite take_app_length' by len.
  - rewrite app_assoc, drop_app_length' by len. done.
Qed.

Lemma patch_take_app {A} off (s d : list A) n :
  off + length s <= n -> n <= length d -> patch off s (take n d) ++ drop n d = patch off s d.
Proof.
  intros Hl Hn. unfold patch. rewrite take_take, Nat.min_l, skipn_firstn_comm, <- !app_assoc by lia. do 2 f_equal.
  transitivity (take (n - (off + length s)) (drop (off + length s) d) ++ drop (n - (off + length s)) (drop (off + length s) d)).
  - f_equal. rewrite drop_drop. f_equal. lia.
  - apply take_drop.
Qed.

(** ** Internet checksums *)

(** The sum of the words, without bound. *)
Fixpoint words (l : list u8) : N :=
  match l with
  | a :: b :: l => b2n a * 256 + b2n b + words l
  | [a] => b2n a * 256
  | [] => 0
  end%N.

Lemma list_pairs_ind {A} (P : list A -> Prop) :
  P [] -> (forall a, P [a]) -> (forall a b l, P l -> P (a :: b :: l)) -> forall l, P l.
Proof.
  intros H0 H1 H2. assert (forall l, P l /\ forall a, P (a :: l)) as H; [|intros l; apply H].
  induction l as [|b l [IH IH']]; split; auto.
Qed.

Lemma words_bound l : (2 * words l <= 65535 * (N.of_nat (length l) + 1))%N.
Proof.
  induction l as [|a|a b l IH] using list_pairs_ind; cbn [words length]; [lia| |];
    pose proof (b2n_lt a); [lia|]. pose proof (b2n_lt b). lia.
Qed.

Lemma words_app a b : Nat.Even (length a) -> words (a ++ b) = (words a + words b)%N.
Proof.
  induction a as [|x|x y a IH] using list_pairs_ind; cbn [words length app].
  - lia.
  - intros [n Hn]. lia.
  - intros [n Hn]. rewrite IH; [lia|]. exists (n - 1). lia.
Qed.

Lemma words_u16 v : (v < u16_mod)%N -> words (to_be_bytes 2 v) = v.
Proof.
  intros Hv. pose proof (from_to_be_bytes_small 2 v Hv) as E. cbn [to_be_bytes] in *. unfold from_be_bytes in E.
  cbn [fold_left] in E. cbn [words]. lia.
Qed.

Lemma sum_words_ok l s : (s + words l < u32_mod)%N -> sum_words l s = Ret (s + words l)%N.
Proof.
  revert s. induction l as [|a|a b l IH] using list_pairs_ind; intros s Hs; cbn [sum_words words] in *.
  - f_equal. lia.
  - rewrite N.shiftl_mul_pow2. unfold add32. change (2 ^ 8)%N with 256%N. by rewrite (proj2 (N.ltb_lt _ _)) by lia.
  - unfold add32 at 1. rewrite (proj2 (N.ltb_lt _ _)) by lia. cbn [rbind]. rewrite IH by lia. f_equal. lia.
Qed.

(** One folding step keeps the sum modulo 65535, and its being zero. *)
Definition carry (s : N) : N := (s mod 65536 + s / 65536)%N.

Lemma carry_mod s : (carry s mod 65535 = s mod 65535)%N.
Proof.
  unfold carry. rewrite (N.div_mod s 65536) at 3 by lia.
  replace (65536 * (s / 65536) + s mod 65536)%N with (s mod 65536 + s / 65536 + s / 65536 * 65535)%N by lia.
  by rewrite N.Div0.mod_add.
Qed.

Lemma fold_step fuel s :
  (s < u32_mod)%N -> fold_sum (S fuel) s = if (s <? 65536)%N then Ret s else fold_sum fuel (carry s).
Proof.
  intros Hs. cbn [fold_sum]. rewrite N.shiftr_div_pow2. change (2 ^ 16)%N with 65536%N.
  change 65535%N with (N.ones 16). rewrite N.land_ones. change (2 ^ 16)%N with 65536%N.
  destruct (N.ltb_spec s 65536) as [H|H].
  - by rewrite N.div_small by done.
  - assert (0 < s / 65536)%N by (apply N.div_str_pos; lia). rewrite (proj2 (N.eqb_neq _ _)) by lia.
    unfold add32. pose proof (N.mod_lt s 65536 ltac:(done)). unfold u32_mod in *. change (2 ^ 32)%N with 4294967296%N in *.
    assert (s / 65536 < 65536)%N by (apply N.Div0.div_lt_upper_bound; lia). by rewrite (proj2 (N.ltb_lt _ _)) by lia.
Qed.

Lemma fold_sum_ok s :
  (s < u32_mod)%N ->
  exists r, fold_sum 3 s = Ret r /\ (r < 65536)%N /\ (r mod 65535 = s mod 65535)%N /\ (s = 0 <-> r = 0)%N.
Proof.
  intros Hs. assert (forall s, s <> 0 -> carry s <> 0)%N as Hz.
  { intros x Hx. unfold carry. pose proof (N.div_mod x 65536 ltac:(done)) as E.
    intros [H1 H2]%N.eq_add_0. rewrite H1, H2 in E. done. }
  unfold u32_mod in *. change (2 ^ 32)%N with 4294967296%N in *.
  assert (carry s <= 131070)%N as H1.
  { unfold carry. pose proof (N.mod_lt s 65536 ltac:(done)). assert (s / 65536 < 65536)%N by (apply N.Div0.div_lt_upper_bound; lia). lia. }
  assert (carry (carry s) < 65536)%N as H2.
  { revert H1. generalize (carry s). intros x Hx. unfold carry. pose proof (N.div_mod x 65536 ltac:(done)).
    assert (x / 65536 < 2)%N by (apply N.Div0.div_lt_upper_bound; lia). pose proof (N.mod_lt x 65536 ltac:(done)). lia. }
  assert (forall fuel x, (x < 4294967296)%N -> fold_sum (S fuel) x = if (x <? 65536)%N then Ret x else fold_sum fuel (carry x)) as Hf
    by (intros; by apply fold_step).
  rewrite Hf by lia. destruct (N.ltb_spec s 65536); [by exists s|].
  rewrite Hf by lia. destruct (N.ltb_spec (carry s) 65536); [exists (carry s); rewrite carry_mod; repeat split; auto; intros E; [lia|by apply Hz in E; lia]|].
  rewrite Hf, (proj2 (N.ltb_lt _ _)) by lia. exists (carry (carry s)). rewrite !carry_mod.
  repeat split; auto; intros E; [lia|by apply Hz in E; [|apply Hz; lia]].
Qed.

(** A buffer with its checksum in place sums to 0xFFFF, as receivers check. *)
Definition sums_up (s : N) : Prop := fold_sum 3 s = Ret 0xFFFF%N.

Lemma sums_up_intro s : (s < u32_mod)%N -> (s <> 0)%N -> (s mod 65535 = 0)%N -> sums_up s.
Proof.
  intros Hs H0 Hm. destruct (fold_sum_ok s Hs) as (r & E & Hr & Er & Hz). unfold sums_up. rewrite E. f_equal.
  assert (r <> 0)%N by tauto. rewrite Hm in Er. apply N.Div0.mod_divides in Er as [k Hk]. lia.
Qed.

Lemma finish_sum_ok s :
  (s < u32_mod)%N ->
  exists c, finish_sum s = Ret c /\ (c < u16_mod)%N /\ ((s + c) mod 65535 = 0)%N /\ (s + c <> 0)%N.
Proof.
  intros Hs. destruct (fold_sum_ok s Hs) as (r & E & Hr & Er & Hz). unfold finish_sum. rewrite E. cbn [rbind].
  change 65535%N with (N.ones 16). rewrite N.land_ones, N.mod_small by done.
  assert (r + N.lxor r (N.ones 16) = 65535)%N as Hx.
  { change (N.lxor r (N.ones 16)) with (N.lnot r 16). destruct (decide (r = 0)%N) as [->|Hn]; [done|].
    apply N.add_lnot_diag_low. apply N.log2_lt_pow2; lia. }
  exists (N.lxor r (N.ones 16)). split; [done|]. unfold u16_mod. change (2 ^ 16)%N with 65536%N. split; [lia|]. split; [|lia].
  change (N.ones 16) with 65535%N in *. rewrite N.Div0.add_mod, <- Er, <- N.Div0.add_mod, Hx. done.
Qed.

Definition zero16 : list u8 := [Byte.x00; Byte.x00].

Lemma words_patch off v d :
  Nat.Even off -> off + 2 <= length d -> (v < u16_mod)%N ->
  words (patch off (to_be_bytes 2 v) d) = (words (patch off zero16 d) + v)%N.
Proof.
  intros He Hl Hv. unfold patch. rewrite length_to_be_bytes. change (length zero16) with 2.
  assert (Nat.Even (length (take off d))) as Ht by (rewrite length_take, Nat.min_l by lia; done).
  rewrite !(words_app (take off d)) by done. rewrite (words_app (to_be_bytes 2 v)) by by exists 1.
  rewrite (words_app zero16) by by exists 1. rewrite words_u16 by done. cbn [words zero16]. change (b2n Byte.x00) with 0%N. lia.
Qed.

Lemma words_small l : (N.of_nat (length l) < u16_mod)%N -> (words l < 2147483648)%N.
Proof. intros H. pose proof (words_bound l). unfold u16_mod in H. change (2 ^ 16)%N with 65536%N in H. lia. Qed.

Ltac bounds := unfold u32_mod, u16_mod in *; change (2 ^ 32)%N with 4294967296%N in *; change (2 ^ 16)%N with 65536%N in *.

Lemma ipv4_checksum_ok hdr :
  12 <= length hdr -> (N.of_nat (length hdr) < u16_mod)%N ->
  exists c, (c < u16_mod)%N /\ ipv4_checksum hdr = Ret (patch 10 (to_be_bytes 2 c) hdr) /\
    sums_up (words (patch 10 (to_be_bytes 2 c) hdr)).
Proof.
  intros Hl Hs. unfold ipv4_checksum. change [Byte.x00; Byte.x00] with zero16. rewrite copy_patch by (cbn; lia). cbn [rbind].
  assert (length (patch 10 zero16 hdr) = length hdr) as El by (apply length_patch; cbn; lia).
  pose proof (words_small (patch 10 zero16 hdr) ltac:(by rewrite El)) as Hw.
  rewrite sum_words_ok by (bounds; lia). rewrite N.add_0_l. cbn [rbind].
  destruct (finish_sum_ok (words (patch 10 zero16 hdr))) as (c & -> & Hc & Hm & Hz); [bounds; lia|]. cbn [rbind].
  rewrite copy_patch, patch_patch by (cbn [to_be_bytes]; cbn; lia). exists c. do 2 (split; [done|]).
  rewrite words_patch by (done || lia || by exists 5). apply sums_up_intro; [bounds; lia|done|done].
Qed.

(** What a receiver of the segment adds up: addresses, protocol, length, and
    the TCP header with the payload. *)
Definition tcp_sum (p : list u8) (ip_hdr : nat) : N :=
  (words (slice 12 20 p) + 6 + N.of_nat (length p - ip_hdr) + words (drop ip_hdr p))%N.

Lemma u16_at_ok p i a b : p !! i = Some a -> p !! (i + 1) = Some b -> u16_at p i = Ret (b2n a * 256 + b2n b)%N.
Proof. intros Ha Hb. unfold u16_at, byte_at. rewrite Ha, Hb. done. Qed.

Lemma pseudo_ok p : 20 <= length p -> rfold (add_word p) [12; 14; 16; 18] 0%N = Ret (words (slice 12 20 p)).
Proof.
  intros Hl. destruct (slice 12 20 p) as [|a [|b [|c [|d [|e [|f [|g [|h [|]]]]]]]]] eqn:E;
    pose proof (length_slice 12 20 p ltac:(lia)) as El; rewrite E in El; try discriminate El.
  assert (forall i x, slice 12 20 p !! i = Some x -> p !! (12 + i) = Some x) as Hi.
  { intros i x Hx. unfold slice in Hx. apply lookup_take_Some in Hx as [Hx _]. by rewrite lookup_drop in Hx. }
  rewrite E in Hi. pose proof (Hi 0 _ eq_refl). pose proof (Hi 1 _ eq_refl). pose proof (Hi 2 _ eq_refl).
  pose proof (Hi 3 _ eq_refl). pose proof (Hi 4 _ eq_refl). pose proof (Hi 5 _ eq_refl). pose proof (Hi 6 _ eq_refl).
  pose proof (Hi 7 _ eq_refl). pose proof (b2n_lt a). pose proof (b2n_lt b). pose proof (b2n_lt c). pose proof (b2n_lt d).
  pose proof (b2n_lt e). pose proof (b2n_lt f). pose proof (b2n_lt g). pose proof (b2n_lt h).
  cbn [rfold words]. unfold add_word, add32, u32_mod. change (2 ^ 32)%N with 4294967296%N.
  rewrite (u16_at_ok p 12 a b), (u16_at_ok p 14 c d), (u16_at_ok p 16 e f), (u16_at_ok p 18 g h) by done.
  cbn [rbind]. rewrite !(proj2 (N.ltb_lt _ _)) by lia. cbn [rbind]. rewrite !(proj2 (N.ltb_lt _ _)) by lia. cbn [rbind].
  rewrite !(proj2 (N.ltb_lt _ _)) by lia. cbn [rbind]. rewrite !(proj2 (N.ltb_lt _ _)) by lia. cbn [rbind]. f_equal. lia.
Qed.

Lemma drop_patch {A} off (s d : list A) n : off + length s <= length d -> n <= off -> drop n (patch off s d) = patch (off - n) s (drop n d).
Proof.
  intros Hl Hn. unfold patch. rewrite drop_app_le by len. rewrite skipn_firstn_comm, drop_drop. do 3 f_equal. lia.
Qed.

Lemma slice_patch {A} off (s d : list A) i j : off + length s <= length d -> j <= off -> slice i j (patch off s d) = slice i j d.
Proof.
  intros Hl Hj. unfold slice. destruct (decide (i <= j)) as [Hi|]; [|by replace (j - i) with 0 by lia].
  rewrite drop_patch by lia. unfold patch. rewrite take_app_le by len. rewrite take_take. f_equal. lia.
Qed.

Lemma tcp_checksum_ok p ip_hdr :
  20 <= ip_hdr -> ip_hdr + 18 <= length p -> (N.of_nat (length p) < u16_mod)%N ->
  exists c, (c < u16_mod)%N /\ tcp_checksum p ip_hdr = Ret (patch (ip_hdr + 16) (to_be_bytes 2 c) p) /\
    sums_up (tcp_sum (patch (ip_hdr + 16) (to_be_bytes 2 c) p) ip_hdr).
Proof.
  intros Hi Hl Hs. unfold tcp_checksum. change [Byte.x00; Byte.x00] with zero16. rewrite copy_patch by (cbn; lia). cbn [rbind].
  set (z := patch (ip_hdr + 16) zero16 p). assert (length z = length p) as El by (apply length_patch; cbn; lia).
  rewrite pseudo_ok by lia. cbn [rbind].
  pose proof (words_small (slice 12 20 z)) as H1. rewrite length_slice in H1 by lia. specialize (H1 ltac:(done)).
  pose proof (words_small (drop ip_hdr z)) as H2. rewrite length_drop, El in H2. specialize (H2 ltac:(bounds; lia)).
  pose proof (words_bound (slice 12 20 z)) as H3. rewrite length_slice in H3 by lia.
  unfold add32. rewrite (proj2 (N.ltb_lt _ _)) by (bounds; lia). cbn [rbind].
  unfold rassert. rewrite (proj2 (N.ltb_lt _ _)) by (bounds; lia). cbn [rbind].
  change 65535%N with (N.ones 16). rewrite N.land_ones, N.mod_small by (bounds; lia).
  rewrite (proj2 (N.ltb_lt _ _)) by (bounds; lia). cbn [rbind].
  rewrite sum_words_ok by (bounds; lia). cbn [rbind].
  set (sum := (_ + words _)%N). destruct (finish_sum_ok sum) as (c & -> & Hc & Hm & Hz); [subst sum; bounds; lia|]. cbn [rbind].
  exists c. split; [done|]. rewrite copy_patch by (rewrite El, length_to_be_bytes; lia). unfold z.
  rewrite patch_patch by (cbn; lia). split; [done|].
  assert (tcp_sum (patch (ip_hdr + 16) (to_be_bytes 2 c) p) ip_hdr = sum + c)%N as ->; [|apply sums_up_intro; [subst sum; bounds; lia|done|done]].
  unfold tcp_sum. rewrite slice_patch, drop_patch, length_patch by (cbn; lia).
  replace (ip_hdr + 16 - ip_hdr) with 16 by lia. rewrite words_patch by (by exists 8 || done || len).
  subst sum z. rewrite slice_patch, drop_patch by (cbn; lia). replace (ip_hdr + 16 - ip_hdr) with 16 by lia. lia.
Qed.

(** ** The parser *)

(** What an accepted packet looks like. *)
Record parses (p : list u8) (x : Ipv4Tcp) : Prop := {
  ps_version : exists b, p !! 0 = Some b /\ N.shiftr (b2n b) 4 = 4%N /\ ip_hdr_len x = N.to_nat (N.land (b2n b) 0x0F) * 4;
  ps_proto : exists b, p !! 9 = Some b /\ b2n b = 6%N;
  ps_whole : exists a b, p !! 6 = Some a /\ p !! 7 = Some b /\
    N.land (b2n a * 256 + b2n b) 0x2000 = 0%N /\ N.land (b2n a * 256 + b2n b) 0x1FFF = 0%N;
  ps_total : u16_at p 2 = Ret (N.of_nat (total_len x));
  ps_tcp : exists b, p !! (ip_hdr_len x + 12) = Some b /\ tcp_hdr_len x = N.to_nat (N.shiftr (b2n b) 4) * 4;
  ps_off : payload_off x = ip_hdr_len x + tcp_hdr_len x;
  ps_len : payload_off x + payload_len x = total_len x;
  ps_ip_len : 20 <= ip_hdr_len x;
  ps_tcp_len : 20 <= tcp_hdr_len x;
  ps_fits : total_len x <= length p;
  ps_sport : u16_at p (ip_hdr_len x) = Ret (sport (key x));
  ps_dport : u16_at p (ip_hdr_len x + 2) = Ret (dport (key x));
  ps_seq : u32_at p (ip_hdr_len x + 4) = Ret (seqno x);
  ps_flags : p !! (ip_hdr_len x + 13) = Some (flags x);
  ps_src : src (key x) = slice 12 16 p;
  ps_dst : dst (key x) = slice 16 20 p;
  ps_bytes : bytes x = p;
}.

Lemma byte_at_inv p i n : byte_at p i = Ret n -> exists b, p !! i = Some b /\ b2n b = n.
Proof. unfold byte_at. destruct (p !! i) as [b|]; [|done]. intros [= <-]. by exists b. Qed.

Lemma byte_at_ok p i : i < length p -> exists b, p !! i = Some b /\ byte_at p i = Ret (b2n b).
Proof. intros H. destruct (lookup_lt_is_Some_2 p i H) as [b E]. exists b. unfold byte_at. by rewrite E. Qed.

Lemma u16_at_total p i : i + 2 <= length p -> exists v, u16_at p i = Ret v /\ (v < u16_mod)%N.
Proof.
  intros H. destruct (byte_at_ok p i ltac:(lia)) as (a & _ & Ea). destruct (byte_at_ok p (i + 1) ltac:(lia)) as (b & _ & Eb).
  unfold u16_at. rewrite Ea, Eb. cbn [rbind]. eexists. split; [done|]. pose proof (b2n_lt a). pose proof (b2n_lt b). bounds. lia.
Qed.

Lemma u16_at_inv p i v : u16_at p i = Ret v -> exists a b, p !! i = Some a /\ p !! (i + 1) = Some b /\ v = (b2n a * 256 + b2n b)%N.
Proof.
  unfold u16_at. intros H. run_inv H. run_inv H. injection H as <-. apply byte_at_inv in E as (b & ? & <-).
  apply byte_at_inv in E0 as (b' & ? & <-). eauto.
Qed.

Lemma u32_at_total p i : i + 4 <= length p -> exists v, u32_at p i = Ret v /\ (v < u32_mod)%N.
Proof.
  intros H. destruct (u16_at_total p i ltac:(lia)) as (a & Ea & Ha). destruct (u16_at_total p (i + 2) ltac:(lia)) as (b & Eb & Hb).
  unfold u32_at. rewrite Ea, Eb. cbn [rbind]. eexists. split; [done|]. bounds. lia.
Qed.

Lemma parse_tcp_total p t total :
  20 <= t -> t + 20 <= total -> total <= length p ->
  exists o, parse_tcp p t total = Ret o.
Proof.
  intros H1 H2 H3. unfold parse_tcp. destruct (byte_at_ok p (t + 12) ltac:(lia)) as (b & _ & ->). cbn [rbind].
  destruct (_ || _) eqn:E; [by eexists|]. destruct (u16_at_total p t ltac:(lia)) as (? & -> & _).
  destruct (u16_at_total p (t + 2) ltac:(lia)) as (? & -> & _). destruct (u32_at_total p (t + 4) ltac:(lia)) as (? & -> & _).
  destruct (lookup_lt_is_Some_2 p (t + 13) ltac:(lia)) as [? ->]. cbn [rbind rexpect]. rewrite !slice_run_ok by lia. by eexists.
Qed.

Lemma parse_never_panics p : exists o, parse_ipv4_tcp p = Ret o.
Proof.
  unfold parse_ipv4_tcp. destruct (Nat.ltb_spec (length p) 20) as [|Hl]; [by eexists|].
  destruct (byte_at_ok p 0 ltac:(lia)) as (b & _ & ->). cbn [rbind]. destruct (negb _); [by eexists|].
  destruct (Nat.ltb_spec (N.to_nat (N.land (b2n b) 15) * 4) 20) as [|H1]; [by eexists|]. cbn [orb].
  destruct (Nat.ltb_spec (length p) (N.to_nat (N.land (b2n b) 15) * 4)) as [|H2]; [by eexists|].
  destruct (byte_at_ok p 9 ltac:(lia)) as (b9 & _ & ->). cbn [rbind]. destruct (negb _); [by eexists|].
  destruct (u16_at_total p 6 ltac:(lia)) as (? & -> & _). cbn [rbind]. destruct (_ || _); [by eexists|].
  destruct (u16_at_total p 2 ltac:(lia)) as (len & -> & _). cbn [rbind].
  destruct (Nat.ltb_spec (length p) (N.to_nat len)) as [|H3]; [rewrite orb_true_r; by eexists|].
  destruct (_ || _); [by eexists|].
  destruct (Nat.ltb_spec (N.to_nat len) (N.to_nat (N.land (b2n b) 15) * 4 + 20)) as [|H4]; [by eexists|].
  apply parse_tcp_total; lia.
Qed.

Lemma parse_inv p x : parse_ipv4_tcp p = Ret (Some x) -> parses p x.
Proof.
  unfold parse_ipv4_tcp. destruct (Nat.ltb_spec (length p) 20) as [|Hl]; [done|]. intros H.
  run_inv H. apply byte_at_inv in E as (b0 & E0 & <-). destruct (N.eqb_spec (N.shiftr (b2n b0) 4) 4) as [Ev|]; [|done]. cbn [negb] in H.
  set (ihl := N.to_nat (N.land (b2n b0) 15) * 4) in *.
  destruct (Nat.ltb_spec ihl 20) as [|H1]; [done|]. destruct (Nat.ltb_spec (length p) ihl) as [|H2]; [done|]. cbn [orb] in H.
  run_inv H. apply byte_at_inv in E as (b9 & E9 & <-). destruct (N.eqb_spec (b2n b9) 6) as [Ep|]; [|done]. cbn [negb] in H.
  run_inv H. apply u16_at_inv in E as (f1 & f2 & Ef1 & Ef2 & ->).
  destruct (N.eqb_spec (N.land (b2n f1 * 256 + b2n f2) 8192) 0) as [Em|]; [|done].
  destruct (N.eqb_spec (N.land (b2n f1 * 256 + b2n f2) 8191) 0) as [Eo|]; [|done]. cbn [negb orb] in H.
  run_inv H. destruct (Nat.ltb_spec (N.to_nat a) ihl) as [|H3]; [done|].
  destruct (Nat.ltb_spec (length p) (N.to_nat a)) as [|H4]; [done|]. cbn [orb] in H.
  destruct (Nat.ltb_spec (N.to_nat a) (ihl + 20)) as [|H5]; [done|].
  unfold parse_tcp in H. run_inv H. apply byte_at_inv in E1 as (bo & Eb & <-).
  set (doff := N.to_nat (N.shiftr (b2n bo) 4) * 4) in *.
  destruct (Nat.ltb_spec doff 20) as [|H6]; [done|]. destruct (Nat.ltb_spec (N.to_nat a) (ihl + doff)) as [|H7]; [done|]. cbn [orb] in H.
  run_inv H. run_inv H. run_inv H. run_inv H. rewrite !slice_run_ok in H by lia. cbn [rbind] in H. injection H as <-.
  destruct (p !! (ihl + 13)) as [fl|] eqn:Efl; [|done]. injection E4 as <-.
  constructor; cbn; eauto 8; try lia. by rewrite N2Nat.id.
Qed.

Lemma parse_intro p x : parses p x -> parse_ipv4_tcp p = Ret (Some x).
Proof.
  intros [(b0 & E0 & Ev & Ei) (b9 & E9 & Ep) (f1 & f2 & Ef1 & Ef2 & Em & Eo) Et (bo & Eb & Ed) Eoff El H1 H2 Hf Es Edp Eq Efl Esrc Edst Eby].
  unfold parse_ipv4_tcp. assert (length p <? 20 = false) as -> by (apply Nat.ltb_ge; lia).
  unfold byte_at at 1. rewrite E0. cbn [rbind rexpect]. rewrite Ev, <- Ei. cbn [N.eqb negb Pos.eqb].
  assert ((ip_hdr_len x <? 20) || (length p <? ip_hdr_len x) = false) as -> by (rewrite orb_false_iff, !Nat.ltb_ge; lia).
  unfold byte_at at 1. rewrite E9. cbn [rbind rexpect]. rewrite Ep. cbn [N.eqb negb Pos.eqb].
  rewrite (u16_at_ok p 6 f1 f2 Ef1 Ef2). cbn [rbind]. rewrite Em, Eo. cbn [N.eqb negb orb].
  rewrite Et. cbn [rbind]. rewrite Nat2N.id.
  assert ((total_len x <? ip_hdr_len x) || (length p <? total_len x) = false) as -> by (rewrite orb_false_iff, !Nat.ltb_ge; lia).
  assert (total_len x <? ip_hdr_len x + 20 = false) as -> by (apply Nat.ltb_ge; lia).
  unfold parse_tcp, byte_at. rewrite Eb. cbn [rbind rexpect]. rewrite <- Ed.
  assert ((tcp_hdr_len x <? 20) || (total_len x <? ip_hdr_len x + tcp_hdr_len x) = false) as -> by (rewrite orb_false_iff, !Nat.ltb_ge; lia).
  rewrite Es, Edp, Eq, Efl. cbn [rbind rexpect]. rewrite !slice_run_ok by lia. cbn [rbind]. do 2 f_equal.
  destruct x as [? ? ? [? ? ? ?] ? ? ? ? ?]; cbn in *. subst. f_equal. lia.
Qed.

Lemma u16_at_agree p p' i : (forall j, i <= j < i + 2 -> p' !! j = p !! j) -> u16_at p' i = u16_at p i.
Proof. intros H. unfold u16_at, byte_at. by rewrite !H by lia. Qed.

Lemma u32_at_agree p p' i : (forall j, i <= j < i + 4 -> p' !! j = p !! j) -> u32_at p' i = u32_at p i.
Proof. intros H. unfold u32_at. by rewrite (u16_at_agree p p' i), (u16_at_agree p p' (i + 2)) by (intros; apply H; lia). Qed.

Lemma slice_agree {A} (p p' : list A) i j : (forall k, i <= k < j -> p' !! k = p !! k) -> slice i j p' = slice i j p.
Proof.
  intros H. apply list_eq. intros k. unfold slice. destruct (decide (k < j - i)).
  - rewrite !lookup_take_lt, !lookup_drop by done. apply H. lia.
  - rewrite !lookup_take_ge by lia. done.
Qed.

Lemma u16_at_be v p i : (v < u16_mod)%N -> i + 2 <= length p -> u16_at (patch i (to_be_bytes 2 v) p) i = Ret v.
Proof.
  intros Hv Hl. rewrite <- (words_u16 v Hv) at 2. cbn [to_be_bytes words]. rewrite N.add_0_r.
  apply u16_at_ok; rewrite lookup_patch_in by (cbn; lia); [by rewrite Nat.sub_diag|by replace (i + 1 - i) with 1 by lia].
Qed.

Lemma u32_at_be v p i : (v < u32_mod)%N -> i + 4 <= length p -> u32_at (patch i (to_be_bytes 4 v) p) i = Ret v.
Proof.
  intros Hv Hl. pose proof (from_to_be_bytes_small 4 v Hv) as E. cbn [to_be_bytes] in *. unfold from_be_bytes in E.
  cbn [fold_left] in E. unfold u32_at.
  rewrite (u16_at_ok _ i (n2b (N.shiftr v (8 * N.of_nat 3))) (n2b (N.shiftr v (8 * N.of_nat 2)))),
    (u16_at_ok _ (i + 2) (n2b (N.shiftr v (8 * N.of_nat 1))) (n2b (N.shiftr v (8 * N.of_nat 0)))).
  - cbn [rbind]. f_equal. bounds. lia.
  - rewrite lookup_patch_in by (cbn; lia). by replace (i + 2 - i) with 2 by lia.
  - rewrite lookup_patch_in by (cbn; lia). by replace (i + 2 + 1 - i) with 3 by lia.
  - rewrite lookup_patch_in by (cbn; lia). by replace (i - i) with 0 by lia.
  - rewrite lookup_patch_in by (cbn; lia). by replace (i + 1 - i) with 1 by lia.
Qed.

(** The fields a segment has of its own: length, identification, both
    checksums, sequence number. *)
Definition own_field (x : Ipv4Tcp) (i : nat) : Prop :=
  2 <= i < 6 \/ 10 <= i < 12 \/ ip_hdr_len x + 4 <= i < ip_hdr_len x + 8 \/ ip_hdr_len x + 16 <= i < ip_hdr_len x + 18.

Definition retarget (x : Ipv4Tcp) (sq : N) (p : list u8) : Ipv4Tcp :=
  mkTcp (ip_hdr_len x) (tcp_hdr_len x) (length p) (key x) sq (flags x) (payload_off x) (length p - payload_off x) p.

Lemma parses_agree p p' x sq :
  parses p x -> (forall i, i < payload_off x -> ~ own_field x i -> p' !! i = p !! i) ->
  u16_at p' 2 = Ret (N.of_nat (length p')) -> payload_off x <= length p' -> u32_at p' (ip_hdr_len x + 4) = Ret sq ->
  parses p' (retarget x sq p').
Proof.
  intros [(b0 & E0 & Ev & Ei) (b9 & E9 & Ep) (f1 & f2 & Ef1 & Ef2 & Em & Eo) Et (bo & Eb & Ed) Eoff El H1 H2 Hf Es Edp Eq Efl Esrc Edst Eby] Ha Ht Hl Hq.
  assert (forall i, i < payload_off x -> 20 <= i < ip_hdr_len x + 4 \/ ip_hdr_len x + 8 <= i < ip_hdr_len x + 16 \/
    i < 2 \/ 6 <= i < 10 \/ 12 <= i < 20 -> p' !! i = p !! i) as Hk.
  { intros i Hi Hc. apply Ha; [done|]. unfold own_field. lia. }
  constructor; cbn; try done; try lia.
  - exists b0. by rewrite Hk by lia.
  - exists b9. by rewrite Hk by lia.
  - exists f1, f2. by rewrite !Hk by lia.
  - exists bo. by rewrite Hk by lia.
  - rewrite <- Es. apply u16_at_agree. intros. apply Hk; lia.
  - rewrite <- Edp. apply u16_at_agree. intros. apply Hk; lia.
  - by rewrite Hk by lia.
  - rewrite Esrc. symmetry. apply (slice_agree p p' 12 16). intros. apply Hk; lia.
  - rewrite Edst. symmetry. apply (slice_agree p p' 16 20). intros. apply Hk; lia.
Qed.

(** ** Segments *)

(** A segment of [x] with sequence number [sq] and its payload: the packet's
    flow and flags, and checksums a receiver accepts. *)
Record segment_of (x : Ipv4Tcp) (sq : N) (payload s : list u8) : Prop := {
  so_parses : parse_ipv4_tcp s = Ret (Some (retarget x sq s));
  so_payload : drop (payload_off x) s = payload;
  so_length : length s = payload_off x + length payload;
  so_ip : sums_up (words (take (ip_hdr_len x) s));
  so_tcp : sums_up (tcp_sum s (ip_hdr_len x));
}.

Lemma take_patch {A} off (s d : list A) n : off + length s <= n -> n <= length d -> take n (patch off s d) = patch off s (take n d).
Proof.
  intros H1 H2. rewrite <- (patch_take_app off s d n) by done. apply take_app_length'.
  rewrite length_patch; rewrite length_take; lia.
Qed.

Lemma take_patch_le {A} off (s d : list A) n : off + length s <= length d -> n <= off -> take n (patch off s d) = take n d.
Proof. intros H1 H2. unfold patch. rewrite take_app_le by len. rewrite take_take. f_equal. lia. Qed.

Lemma drop_patch_ge {A} off (s d : list A) n : off + length s <= n -> n <= length d -> drop n (patch off s d) = drop n d.
Proof. intros H1 H2. apply list_eq. intros i. rewrite !lookup_drop. apply lookup_patch; lia. Qed.

Lemma headers_ok x (s : list u8) ip_id sq :
  20 <= ip_hdr_len x -> ip_hdr_len x + 20 <= length s -> (N.of_nat (length s) < u16_mod)%N -> (sq < u32_mod)%N ->
  exists s', length s' = length s /\ (forall i, ~ own_field x i -> s' !! i = s !! i) /\
    u16_at s' 2 = Ret (N.of_nat (length s)) /\ u32_at s' (ip_hdr_len x + 4) = Ret sq /\
    forall B (k : list u8 -> run B),
      (let! s := copy_at 2 (to_be_bytes 2 (N.of_nat (length s))) s in let! s := copy_at 4 (to_be_bytes 2 ip_id) s in
       let! s := copy_at (ip_hdr_len x + 4) (to_be_bytes 4 sq) s in k s) = k s'.
Proof.
  intros H1 H2 Hn Hq. set (n := length s) in *. assert (length s = n) as L0 by done. clearbody n.
  set (s1 := patch 2 (to_be_bytes 2 (N.of_nat n)) s). assert (length s1 = n) as L1 by (subst s1; rewrite length_patch; len).
  set (s2 := patch 4 (to_be_bytes 2 ip_id) s1). assert (length s2 = n) as L2 by (subst s2; rewrite length_patch; len).
  exists (patch (ip_hdr_len x + 4) (to_be_bytes 4 sq) s2). split; [by rewrite length_patch by len|]. split; [|split; [|split]].
  - intros i Hi. unfold own_field in Hi. rewrite lookup_patch by len. unfold s2. rewrite lookup_patch by len. unfold s1.
    by rewrite lookup_patch by len.
  - rewrite <- (u16_at_be (N.of_nat n) s 2 Hn) by lia. apply u16_at_agree. intros j Hj.
    rewrite lookup_patch by len. unfold s2. by rewrite lookup_patch by len.
  - apply u32_at_be; [done|lia].
  - intros B k. rewrite copy_patch by len. cbn [rbind]. rewrite copy_patch by (fold s1; len). cbn [rbind].
    by rewrite copy_patch by (fold s1 s2; len).
Qed.

Lemma segment_ok body x ip_id sq payload :
  parses body x -> (N.of_nat (payload_off x + length payload) < u16_mod)%N -> (sq < u32_mod)%N ->
  exists s, segment (take (payload_off x) body) (ip_hdr_len x) ip_id sq payload = Ret s /\ segment_of x sq payload s.
Proof.
  intros Hx Hn Hq. pose proof Hx as [_ _ _ _ _ Eoff El H1 H2 Hf _ _ _ _ _ _ _].
  assert (length (take (payload_off x) body) = payload_off x) as Eh by (rewrite length_take; lia).
  unfold segment. rewrite Eh. unfold rassert. rewrite (proj2 (N.ltb_lt _ _)) by done. cbn [rbind].
  set (s0 := take (payload_off x) body ++ payload). set (n := payload_off x + length payload) in *.
  assert (length s0 = n) as L0 by (subst s0 n; rewrite length_app, Eh; done). rewrite <- L0 in *.
  destruct (headers_ok x s0 ip_id sq) as (s3 & L3 & A3 & T3 & Q3 & E3); [lia|lia|done|done|]. rewrite E3.
  assert (ip_hdr_len x <=? length s3 = true) as -> by (apply Nat.leb_le; lia). cbn [rbind].
  destruct (ipv4_checksum_ok (take (ip_hdr_len x) s3)) as (c & Hc & -> & Hs); rewrite ?length_take; [lia|bounds; lia|].
  cbn [rbind]. rewrite patch_take_app by len. set (s4 := patch 10 (to_be_bytes 2 c) s3).
  assert (length s4 = length s0) as L4 by (subst s4; rewrite length_patch; len).
  destruct (tcp_checksum_ok s4 (ip_hdr_len x)) as (c' & Hc' & -> & Hs'); [lia|lia|bounds; lia|].
  eexists. split; [done|]. set (s5 := patch _ _ s4) in *. assert (length s5 = length s0) as L5 by (subst s5; rewrite length_patch; len).
  assert (forall i, i < 10 \/ 12 <= i < ip_hdr_len x + 16 \/ ip_hdr_len x + 18 <= i -> s5 !! i = s3 !! i) as A5.
  { intros i Hi. unfold s5. rewrite lookup_patch by len. unfold s4. by rewrite lookup_patch by len. }
  constructor; [| | | |done].
  - apply parse_intro, (parses_agree body); [done| | |lia|].
    + intros i Hi Ho. rewrite A5 by (unfold own_field in Ho; lia). rewrite A3 by done. unfold s0.
      rewrite lookup_app_l by lia. by apply lookup_take_lt.
    + rewrite L5, <- T3. apply u16_at_agree. intros j Hj. apply A5. lia.
    + rewrite <- Q3. apply u32_at_agree. intros j Hj. apply A5. lia.
  - apply list_eq. intros i. rewrite lookup_drop, A5, A3 by (unfold own_field; lia). unfold s0.
    rewrite lookup_app_r by lia. f_equal. lia.
  - by rewrite L5.
  - unfold s5. rewrite take_patch_le by len. unfold s4. by rewrite take_patch by len.
Qed.

(** ** The splitter *)

Lemma chunks_fuel_enough {A} n (l : list A) f f' : 0 < n -> length l <= f -> length l <= f' -> chunks_fuel f n l = chunks_fuel f' n l.
Proof.
  intros Hn. revert l f'. induction f as [|f IH]; intros [|a l] [|f'] H1 H2; cbn in H1, H2; try lia; try done.
  cbn [chunks_fuel]. f_equal. apply IH; rewrite length_drop; cbn; lia.
Qed.

Lemma chunks_step {A} n (l : list A) : 0 < n -> l <> [] -> chunks n l = take n l :: chunks n (drop n l).
Proof.
  intros Hn Hl. unfold chunks. destruct l as [|a l]; [done|]. cbn [length chunks_fuel]. f_equal.
  apply chunks_fuel_enough; [done| |done]. rewrite length_drop. cbn. lia.
Qed.

(** The segments in the output buffer, and where they lie. *)
Definition cut (out : list u8) (offsets : list (nat * nat)) : list (list u8) :=
  (fun o => slice o.1 (o.1 + o.2) out) <$> offsets.

Fixpoint layout (n : nat) (ss : list (list u8)) : list (nat * nat) :=
  match ss with [] => [] | s :: ss => (n, length s) :: layout (n + length s) ss end.

Lemma cut_layout pre ss : cut (pre ++ concat ss) (layout (length pre) ss) = ss.
Proof.
  revert pre. induction ss as [|s ss IH]; intros pre; [done|]. cbn [layout concat].
  unfold cut. rewrite fmap_cons. cbn [fst snd]. f_equal.
  - unfold slice. rewrite drop_app_length. replace (length pre + length s - length pre) with (length s) by lia.
    apply take_app_length.
  - rewrite app_assoc, <- length_app. apply IH.
Qed.

Lemma layout_fits pre ss : Forall (fun o => o.1 + o.2 <= length (pre ++ concat ss)) (layout (length pre) ss).
Proof.
  revert pre. induction ss as [|s ss IH]; intros pre; cbn [layout]; [done|]. constructor.
  - cbn. rewrite !length_app. lia.
  - cbn [concat]. rewrite <- length_app, app_assoc. apply IH.
Qed.

(** The segments of a payload that starts at [sq]. *)
Definition segments_of (x : Ipv4Tcp) (seg : nat) (sq : N) (payload : list u8) (ss : list (list u8)) : Prop :=
  length ss = length (chunks seg payload) /\
  forall i s, ss !! i = Some s -> exists c, chunks seg payload !! i = Some c /\ segment_of x (wrap32 (sq + N.of_nat (i * seg))) c s.

Lemma wrap32_lt n : (wrap32 n < u32_mod)%N.
Proof. by apply N.mod_lt. Qed.

Lemma wrap32_add a b : wrap32 (wrap32 a + b) = wrap32 (a + b).
Proof. unfold wrap32. by rewrite N.Div0.add_mod_idemp_l. Qed.

Lemma segments_cons x seg sq c rest s ss :
  0 < seg -> c <> [] -> length c = Nat.min seg (length (c ++ rest)) -> (sq < u32_mod)%N -> segment_of x sq c s ->
  segments_of x seg (wrap32 (sq + N.of_nat (length c))) rest ss -> segments_of x seg sq (c ++ rest) (s :: ss).
Proof.
  intros Hs Hc Hl Hq H1 [H2 H3]. assert (c ++ rest <> []) by by destruct c. unfold segments_of. rewrite chunks_step by done.
  assert (take seg (c ++ rest) = c) as ->.
  { destruct (decide (seg <= length (c ++ rest))); [apply take_app_length'; lia|].
    rewrite take_ge by lia. rewrite length_app in *. destruct rest; [by rewrite app_nil_r|cbn in *; lia]. }
  assert (drop seg (c ++ rest) = rest) as ->.
  { destruct (decide (seg <= length (c ++ rest))); [apply drop_app_length'; lia|].
    rewrite drop_ge by lia. rewrite length_app in *. destruct rest; [done|cbn in *; lia]. }
  split; [cbn; by rewrite H2|]. intros [|i] s' Hi.
  - injection Hi as <-. exists c. split; [done|]. rewrite N.add_0_r. unfold wrap32. by rewrite N.mod_small.
  - apply H3 in Hi as (c' & Hc' & Hs'). exists c'. split; [done|]. rewrite wrap32_add in Hs'.
    assert (seg <= length (c ++ rest)).
    { apply lookup_lt_Some in Hc'. destruct rest; [cbn in Hc'; lia|]. rewrite length_app in *. cbn in *. lia. }
    replace (sq + N.of_nat (S i * seg))%N with (sq + N.of_nat (length c) + N.of_nat (i * seg))%N by lia. done.
Qed.

Lemma split_loop_ok body x seg fuel ip_id sq payload out offsets :
  parses body x -> 0 < seg -> (N.of_nat (payload_off x + length payload) < u16_mod)%N -> (sq < u32_mod)%N ->
  length payload <= fuel ->
  exists ss, split_loop fuel (take (payload_off x) body) (ip_hdr_len x) seg ip_id sq payload out offsets =
      Ret (out ++ concat ss, offsets ++ layout (length out) ss) /\ segments_of x seg sq payload ss.
Proof.
  intros Hx Hseg. revert ip_id sq payload out offsets. induction fuel as [|fuel IH]; intros ip_id sq payload out offsets Hn Hq Hf.
  { destruct payload; [|cbn in Hf; lia]. exists []. cbn [split_loop concat layout]. rewrite !app_nil_r. split; [done|]. by split. }
  destruct (decide (payload = [])) as [->|Hne].
  { exists []. cbn [split_loop concat layout]. rewrite !app_nil_r. split; [done|]. by split. }
  assert (0 < length payload) by (destruct payload; [done|cbn; lia]). set (n := Nat.min seg (length payload)).
  assert (length (take n payload) = n) as Ec by (rewrite length_take; lia).
  destruct (segment_ok body x ip_id sq (take n payload) Hx) as (s & E & Hs); [rewrite Ec; bounds; lia|done|].
  destruct (IH (wrap16 (ip_id + 1)) (wrap32 (sq + N.of_nat n)) (drop n payload) (out ++ s) (offsets ++ [(length out, payload_off x + n)]))
    as (ss & E' & Hss).
  { rewrite length_drop. bounds. lia. }
  { apply wrap32_lt. }
  { rewrite length_drop. lia. }
  exists (s :: ss). split.
  - destruct payload as [|b payload]; [done|]. cbn [split_loop]. fold n. rewrite E. cbn [rbind].
    unfold rassert. rewrite (proj2 (N.ltb_lt _ _)) by (bounds; lia). cbn [rbind].
    assert (length (take (payload_off x) body) = payload_off x) as ->.
    { destruct Hx. rewrite length_take. lia. }
    rewrite E'. pose proof (so_length _ _ _ _ Hs) as Ls. rewrite Ec in Ls. cbn [concat layout].
    by rewrite <- !app_assoc, length_app, Ls.
  - rewrite <- (take_drop n payload) at 1. apply segments_cons; [done| | |done|done|by rewrite Ec].
    + intros E0. rewrite E0 in Ec. cbn in Ec. lia.
    + by rewrite take_drop, Ec.
Qed.

Definition payload (x : Ipv4Tcp) : list u8 := slice (payload_off x) (payload_off x + payload_len x) (bytes x).

Lemma segments_payload x seg sq p ss : segments_of x seg sq p ss -> drop (payload_off x) <$> ss = chunks seg p.
Proof.
  intros [Hl Hs]. apply list_eq. intros i. rewrite list_lookup_fmap. destruct (ss !! i) as [s|] eqn:E; cbn.
  - apply Hs in E as (c & -> & H). by rewrite (so_payload _ _ _ _ H).
  - apply lookup_ge_None in E. symmetry. apply lookup_ge_None. lia.
Qed.

Lemma u16_at_patch p i v : u16_at p i = Ret v -> patch i (to_be_bytes 2 v) p = p.
Proof.
  intros (a & b & Ha & Hb & ->)%u16_at_inv. pose proof (to_from_be_bytes [a; b]) as E. unfold from_be_bytes in E. cbn [fold_left length] in E.
  rewrite N.mul_0_l, N.add_0_l in E. rewrite E. clear E. apply lookup_lt_Some in Hb as Hl. apply list_eq. intros j.
  destruct (decide (i <= j < i + 2)); [|by apply lookup_patch; cbn; lia].
  rewrite lookup_patch_in by (cbn; lia). destruct (decide (j = i)) as [->|]; [by rewrite Nat.sub_diag|].
  replace j with (i + 1) by lia. by replace (i + 1 - i) with 1 by lia.
Qed.

(** What the kernel left to compute is computed: if the field holds the sum of
    the pseudo header, the packet then adds up with it. *)
Lemma complete_partial_csum_ok p start offset pseudo v :
  Nat.Even offset -> start + offset + 2 <= length p -> (N.of_nat (length p) < u16_mod)%N ->
  u16_at p (start + offset) = Ret v -> (v mod 65535 = pseudo mod 65535)%N -> (0 < pseudo < 1048576)%N ->
  exists p', complete_partial_csum p start offset = Ret p' /\ length p' = length p /\
    (forall i, i < start + offset \/ start + offset + 2 <= i -> p' !! i = p !! i) /\
    sums_up (pseudo + words (drop start p')).
Proof.
  intros He Hl Hs Hv Hm Hp. unfold complete_partial_csum.
  assert ((length p <=? start) || (length p <? start + offset + 2) = false) as ->
    by (rewrite orb_false_iff, Nat.leb_gt, Nat.ltb_ge; lia).
  set (z := patch offset zero16 (drop start p)). pose proof (words_bound z) as Hw.
  assert (length z = length p - start) as Lz by (subst z; rewrite length_patch; cbn; len). rewrite Lz in Hw.
  destruct (u16_at_total p (start + offset) Hl) as (v' & E' & Hv16). rewrite Hv in E'. injection E' as <-.
  assert (words (drop start p) = words z + v)%N as Ew.
  { rewrite <- (u16_at_patch p (start + offset) v Hv) at 1. rewrite drop_patch by len.
    replace (start + offset - start) with offset by lia. apply words_patch; [done|len|done]. }
  rewrite sum_words_ok by (rewrite Ew; bounds; lia). cbn [rbind]. rewrite N.add_0_l, Ew.
  destruct (finish_sum_ok (words z + v)) as (c & -> & Hc & Hcm & _); [bounds; lia|]. cbn [rbind].
  set (c' := if _ : bool then _ else c). assert (c' < u16_mod /\ c' mod 65535 = c mod 65535)%N as [Hc' Em].
  { subst c'. destruct (N.eqb_spec c 0) as [->|]; [|done]. by destruct (bool_decide _). }
  rewrite copy_patch by len. eexists. split; [done|]. split; [apply length_patch; len|]. split.
  { intros i Hi. apply lookup_patch; len. }
  rewrite drop_patch by len. replace (start + offset - start) with offset by lia. rewrite words_patch by (done || len).
  fold z. apply sums_up_intro; [bounds; lia|lia|].
  rewrite <- Hcm. rewrite !N.add_assoc, (N.Div0.add_mod _ c'), Em, <- N.Div0.add_mod.
  replace (pseudo + words z + c)%N with (pseudo + (words z + c))%N by lia.
  rewrite N.Div0.add_mod, <- Hm, <- N.Div0.add_mod. f_equal. lia.
Qed.

Lemma complete_partial_csum_total p start offset :
  (N.of_nat (length p) < 2 * u16_mod)%N -> exists p', complete_partial_csum p start offset = Ret p' /\ length p' = length p.
Proof.
  intros Hs. unfold complete_partial_csum. destruct (Nat.leb_spec (length p) start) as [|H1]; [by eexists|].
  destruct (Nat.ltb_spec (length p) (start + offset + 2)) as [|H2]; [by eexists|]. cbn [orb].
  pose proof (words_bound (drop start p)) as Hw. rewrite length_drop in Hw.
  rewrite sum_words_ok by (bounds; lia). cbn [rbind].
  destruct (finish_sum_ok (0 + words (drop start p))) as (c & -> & _); [bounds; lia|]. cbn [rbind].
  rewrite copy_patch by len. eexists. split; [done|]. apply length_patch. len.
Qed.

(** A frame that is one packet. *)
Lemma split_single big frame h :
  (N.of_nat (length frame) < 2 * u16_mod)%N -> read_vnet_hdr big frame = Some h -> gso_type h = GSO_NONE \/ gso_size h = 0%N ->
  exists p', split_gro big frame = Ret (p', [(0, length p')], true) /\
    if (N.land (b2n (h_flags h)) F_NEEDS_CSUM =? 0)%N then p' = drop VNET_HDR_LEN frame
    else complete_partial_csum (drop VNET_HDR_LEN frame) (N.to_nat (csum_start h)) (N.to_nat (csum_offset h)) = Ret p'.
Proof.
  intros Hl E H. unfold split_gro. rewrite E.
  assert (bool_decide (gso_type h = GSO_NONE) || (gso_size h =? 0)%N = true) as ->.
  { rewrite orb_true_iff, bool_decide_eq_true, N.eqb_eq. done. }
  destruct (N.land _ _ =? 0)%N; cbn [negb rbind]; [by eexists|].
  destruct (complete_partial_csum_total (drop VNET_HDR_LEN frame) (N.to_nat (csum_start h)) (N.to_nat (csum_offset h)))
    as (p' & -> & Lp); [rewrite length_drop; bounds; lia|]. cbn [rbind]. exists p'. by rewrite Lp.
Qed.

(** A frame the parser accepts, of a large packet. *)
Lemma split_large big frame h x :
  read_vnet_hdr big frame = Some h -> gso_type h <> GSO_NONE -> gso_size h <> 0%N ->
  parse_ipv4_tcp (drop VNET_HDR_LEN frame) = Ret (Some x) ->
  exists out offsets, split_gro big frame = Ret (out, offsets, true) /\ Forall (fun o => o.1 + o.2 <= length out) offsets /\
    segments_of x (N.to_nat (gso_size h)) (seqno x) (payload x) (cut out offsets).
Proof.
  intros E E1 E2 Ep. unfold split_gro. rewrite E. rewrite bool_decide_eq_false_2, (proj2 (N.eqb_neq _ _)) by done. cbn [orb].
  rewrite Ep. cbn [rbind]. apply parse_inv in Ep as Hx. pose proof (ps_fits _ _ Hx). pose proof (ps_len _ _ Hx).
  pose proof (ps_bytes _ _ Hx) as Eb. pose proof (ps_total _ _ Hx) as Et. pose proof (ps_off _ _ Hx).
  pose proof (ps_ip_len _ _ Hx). pose proof (ps_tcp_len _ _ Hx).
  destruct (u16_at_total (drop VNET_HDR_LEN frame) 2) as (v & Ev & Hv); [lia|]. rewrite Et in Ev. injection Ev as <-.
  rewrite !slice_run_ok by lia. cbn [rbind]. destruct (u16_at_total (drop VNET_HDR_LEN frame) 4) as (id & -> & _); [lia|]. cbn [rbind].
  unfold slice at 2. rewrite Nat.sub_0_r, drop_0.
  destruct (u32_at_total (drop VNET_HDR_LEN frame) (ip_hdr_len x + 4)) as (q & Eq & Hq); [lia|].
  rewrite (ps_seq _ _ Hx) in Eq. injection Eq as <-.
  edestruct (split_loop_ok (drop VNET_HDR_LEN frame) x (N.to_nat (gso_size h))) as (ss & -> & Hss);
    [done|lia| |exact Hq|reflexivity|].
  { rewrite length_slice by lia. bounds. lia. }
  cbn [rbind app]. do 2 eexists. split; [done|]. split; [apply (layout_fits [])|]. pose proof (cut_layout [] ss) as Ec. cbn [app length] in *. rewrite Ec.
  unfold payload. by rewrite Eb.
Qed.

Lemma split_gro_total big frame :
  (N.of_nat (length frame) < 2 * u16_mod)%N ->
  exists out offsets accepted, split_gro big frame = Ret (out, offsets, accepted) /\ Forall (fun o => o.1 + o.2 <= length out) offsets.
Proof.
  intros Hl. destruct (read_vnet_hdr big frame) as [h|] eqn:E.
  2: { unfold split_gro. rewrite E. by do 3 eexists. }
  destruct (decide (gso_type h = GSO_NONE \/ gso_size h = 0%N)) as [H|[E1 E2]%Decidable.not_or].
  - destruct (split_single big frame h Hl E H) as (p' & -> & _). do 3 eexists. split; [done|]. by apply Forall_singleton.
  - destruct (parse_never_panics (drop VNET_HDR_LEN frame)) as [[x|] Ep].
    + destruct (split_large big frame h x E E1 E2 Ep) as (out & offsets & -> & Hf & _). by do 3 eexists.
    + unfold split_gro. rewrite E, bool_decide_eq_false_2, (proj2 (N.eqb_neq _ _)), Ep by done. by do 3 eexists.
Qed.

(** C24: whatever the device delivers, the splitter returns: a frame of one
    packet gives that packet, its checksum completed where the kernel left it
    open; a large TCP packet gives segments that each parse as a packet of the
    same flow, with consecutive sequence numbers and checksums a receiver
    accepts, and whose payloads are the payload, cut at the size announced. *)
Theorem split_gro_exact big frame :
  (N.of_nat (length frame) < 2 * u16_mod)%N ->
  exists out offsets accepted, split_gro big frame = Ret (out, offsets, accepted) /\
    (read_vnet_hdr big frame = None -> accepted = false) /\
    forall h, read_vnet_hdr big frame = Some h ->
      if bool_decide (gso_type h = GSO_NONE) || (gso_size h =? 0)%N then
        accepted = true /\ exists p', cut out offsets = [p'] /\
          (if (N.land (b2n (h_flags h)) F_NEEDS_CSUM =? 0)%N then p' = drop VNET_HDR_LEN frame
           else complete_partial_csum (drop VNET_HDR_LEN frame) (N.to_nat (csum_start h)) (N.to_nat (csum_offset h)) = Ret p')
      else
        match parse_ipv4_tcp (drop VNET_HDR_LEN frame) with
        | Ret (Some x) =>
            accepted = true /\ segments_of x (N.to_nat (gso_size h)) (seqno x) (payload x) (cut out offsets) /\
            concat (drop (payload_off x) <$> cut out offsets) = payload x
        | _ => accepted = false
        end.
Proof.
  intros Hl. destruct (read_vnet_hdr big frame) as [h|] eqn:E.
  2: { unfold split_gro. rewrite E. by do 3 eexists. }
  destruct (bool_decide (gso_type h = GSO_NONE) || (gso_size h =? 0)%N) eqn:E0.
  - destruct (split_single big frame h Hl E) as (p' & -> & Hp).
    { by rewrite orb_true_iff, bool_decide_eq_true, N.eqb_eq in E0. }
    do 3 eexists. split; [done|]. split; [done|]. intros ? [= <-]. rewrite E0. split; [done|]. exists p'. split; [|done].
    unfold cut, slice. cbn. by rewrite Nat.sub_0_r, firstn_all.
  - pose proof E0 as [E1%bool_decide_eq_false E2%N.eqb_neq]%orb_false_iff.
    destruct (parse_never_panics (drop VNET_HDR_LEN frame)) as [[x|] Ep].
    + destruct (split_large big frame h x E E1 E2 Ep) as (out & offsets & -> & _ & Hss).
      do 3 eexists. split; [done|]. split; [done|]. intros ? [= <-]. rewrite E0, Ep. split; [done|]. split; [done|].
      rewrite (segments_payload _ _ _ _ _ Hss). apply chunks_concat. lia.
    + unfold split_gro. rewrite E, E0, Ep. cbn [rbind]. do 3 eexists. split; [done|]. split; [done|].
      intros ? [= <-]. by rewrite E0.
Qed.

(** ** The coalescer *)

(** What packets carry: TCP payload by flow and sequence number, and packets
    that are passed on as they are. *)
Inductive item := Octet (k : FlowKey) (sq : N) (b : u8) | Whole (p : list u8).

Fixpoint octets (k : FlowKey) (sq : N) (l : list u8) : list item :=
  match l with [] => [] | b :: l => Octet k sq b :: octets k (wrap32 (sq + 1)) l end.

Definition content (p : list u8) : list item :=
  match parse_ipv4_tcp p with
  | Ret (Some x) => if 0 <? payload_len x then octets (key x) (seqno x) (payload x) else [Whole p]
  | _ => [Whole p]
  end.

(** The content of a frame for the device. *)
Definition frame_content (big : bool) (frame : list u8) : list item :=
  match read_vnet_hdr big frame with
  | Some h => if bool_decide (gso_type h = GSO_NONE) then [Whole (drop VNET_HDR_LEN frame)] else content (drop VNET_HDR_LEN frame)
  | None => []
  end.

Lemma octets_app k sq a b :
  (sq < u32_mod)%N -> octets k sq (a ++ b) = octets k sq a ++ octets k (wrap32 (sq + N.of_nat (length a))) b.
Proof.
  revert sq. induction a as [|x a IH]; intros sq Hq; cbn [octets app length].
  - rewrite N.add_0_r. unfold wrap32. by rewrite N.mod_small.
  - rewrite IH by apply wrap32_lt. rewrite wrap32_add. do 4 f_equal. lia.
Qed.

Lemma length_vnet_bytes big h : length (vnet_bytes big h) = 10.
Proof. unfold vnet_bytes, u16_to_ne. destruct big; done. Qed.

Lemma u16_ne_round big v : (v < u16_mod)%N -> u16_of_ne big (u16_to_ne big v) = v.
Proof.
  intros Hv. unfold u16_of_ne, u16_to_ne. destruct big; rewrite ?rev_involutive; by apply from_to_be_bytes_small.
Qed.

Definition hdr_wf (h : VirtioNetHdr) : Prop :=
  (hdr_len h < u16_mod /\ gso_size h < u16_mod /\ csum_start h < u16_mod /\ csum_offset h < u16_mod)%N.

(** The header of the device reads back as written. *)
Lemma vnet_round_trip big h rest : hdr_wf h -> read_vnet_hdr big (vnet_bytes big h ++ rest) = Some h.
Proof.
  intros (H1 & H2 & H3 & H4). destruct h as [f g a b c d]. cbn in *.
  assert (forall v, exists x y, u16_to_ne big v = [x; y]) as Hne by (intros v; unfold u16_to_ne; destruct big; cbn; eauto).
  unfold vnet_bytes. cbn [h_flags gso_type hdr_len gso_size csum_start csum_offset].
  destruct (Hne a) as (a1 & a2 & Ea), (Hne b) as (b1 & b2 & Eb), (Hne c) as (c1 & c2 & Ec), (Hne d) as (d1 & d2 & Ed).
  rewrite Ea, Eb, Ec, Ed. cbn [app read_vnet_hdr]. rewrite <- Ea, <- Eb, <- Ec, <- Ed. by rewrite !u16_ne_round.
Qed.

Lemma patch_app_r {A} (a d s : list A) off : patch (length a + off) s (a ++ d) = a ++ patch off s d.
Proof.
  unfold patch. rewrite take_app_add, <- app_assoc. do 3 f_equal. rewrite <- Nat.add_assoc. apply drop_app_add.
Qed.

Lemma patch_zero {A} (s d : list A) n : length s = n -> patch 0 s d = s ++ drop n d.
Proof. intros <-. unfold patch. by rewrite take_0. Qed.

Definition pad : list u8 := replicate VNET_HDR_LEN Byte.x00.

(** A pending run: the first packet [x] and the payloads [more] that followed. *)
Record tcp_run (c : Coalescer) (x : Ipv4Tcp) (more : list u8) : Prop := {
  tr_parses : parses (bytes x) x;
  tr_some : 0 < payload_len x;
  tr_pending : pending c = pad ++ take (total_len x) (bytes x) ++ more;
  tr_key : c_key c = key x;
  tr_ip : c_ip_hdr_len c = ip_hdr_len x;
  tr_l3 : l3_hdr_len c = payload_off x;
  tr_next : next_seq c = wrap32 (seqno x + N.of_nat (length (payload x ++ more)));
  tr_gso : c_gso_size c = N.of_nat (payload_len x);
}.

Lemma parses_bounds p x : parses p x -> (N.of_nat (total_len x) < u16_mod)%N /\ (seqno x < u32_mod)%N /\ length (payload x) = payload_len x.
Proof.
  intros Hx. pose proof (ps_fits _ _ Hx). pose proof (ps_len _ _ Hx). pose proof (ps_off _ _ Hx). pose proof (ps_ip_len _ _ Hx).
  pose proof (ps_tcp_len _ _ Hx). destruct (u16_at_total p 2) as (v & Ev & Hv); [lia|]. rewrite (ps_total _ _ Hx) in Ev. injection Ev as <-.
  destruct (u32_at_total p (ip_hdr_len x + 4)) as (q & Eq & Hq); [lia|]. rewrite (ps_seq _ _ Hx) in Eq. injection Eq as <-.
  split; [done|]. split; [done|]. unfold payload. rewrite length_slice; rewrite ?(ps_bytes _ _ Hx); lia.
Qed.

Lemma u16_or_small d n : (N.of_nat n < u16_mod)%N -> u16_or d n = N.of_nat n.
Proof. intros H. unfold u16_or. by rewrite (proj2 (N.ltb_lt _ _)). Qed.

Definition run_hdr (x : Ipv4Tcp) : VirtioNetHdr :=
  mkHdr (n2b F_NEEDS_CSUM) GSO_TCPV4 (N.of_nat (payload_off x)) (N.of_nat (payload_len x)) (N.of_nat (ip_hdr_len x)) 16.

Lemma finish_run_ok big c x more :
  tcp_run c x more ->
  exists body, finish_run big c = Ret (vnet_bytes big (run_hdr x) ++ body) /\
    let l3 := take (total_len x) (bytes x) ++ more in
    length body = length l3 /\ u16_at body 2 = Ret (u16_or 65535 (length l3)) /\
    (forall i, i < 2 \/ 4 <= i < 10 \/ 12 <= i -> body !! i = l3 !! i) /\ sums_up (words (take (ip_hdr_len x) body)).
Proof.
  intros [Hx Hs Ep Ek Ei El En Eg]. destruct (parses_bounds _ _ Hx) as (Ht & Hq & Lp).
  pose proof (ps_fits _ _ Hx). pose proof (ps_len _ _ Hx). pose proof (ps_off _ _ Hx). pose proof (ps_ip_len _ _ Hx).
  pose proof (ps_tcp_len _ _ Hx). unfold finish_run. rewrite Ep, Ei, El, Eg. set (l3 := take _ _ ++ more).
  assert (total_len x <= length l3) as Hl by (subst l3; len). assert (length pad = 10) as Lz by done.
  replace (length (pad ++ l3) - VNET_HDR_LEN) with (length l3) by (rewrite length_app, Lz; unfold VNET_HDR_LEN; lia).
  set (tot := u16_or 65535 (length l3)). assert (tot < u16_mod)%N as Htot.
  { subst tot. unfold u16_or. destruct (N.ltb_spec (N.of_nat (length l3)) u16_mod); done. }
  rewrite copy_patch by (rewrite length_to_be_bytes, length_app, Lz; unfold VNET_HDR_LEN; lia). cbn [rbind].
  change (VNET_HDR_LEN + 2) with (length pad + 2). rewrite patch_app_r. set (b1 := patch 2 _ l3).
  assert (length b1 = length l3) as L1 by (subst b1; rewrite length_patch; len).
  rewrite slice_run_ok by (rewrite length_app, Lz; unfold VNET_HDR_LEN; lia). cbn [rbind]. unfold slice.
  replace (VNET_HDR_LEN + ip_hdr_len x - VNET_HDR_LEN) with (ip_hdr_len x) by lia. rewrite (drop_app_length' pad) by done.
  destruct (ipv4_checksum_ok (take (ip_hdr_len x) b1)) as (ck & Hck & -> & Hsum); rewrite ?length_take; [lia|bounds; lia|]. cbn [rbind].
  set (ip := patch 10 _ _) in *. assert (length ip = ip_hdr_len x) as Li by (subst ip; rewrite length_patch; len).
  rewrite copy_patch by (rewrite length_app, Lz, Li; unfold VNET_HDR_LEN; lia). cbn [rbind].
  change VNET_HDR_LEN with (length pad + 0). rewrite patch_app_r, (patch_zero ip b1 (ip_hdr_len x) Li).
  assert (ip ++ drop (ip_hdr_len x) b1 = patch 10 (to_be_bytes 2 ck) b1) as -> by (apply patch_take_app; len).
  set (body := patch 10 _ b1). assert (length body = length l3) as Lb by (subst body; rewrite length_patch; len).
  unfold write_vnet_hdr, rassert. assert (VNET_HDR_LEN <=? length (pad ++ body) = true) as ->.
  { apply Nat.leb_le. rewrite length_app, Lz. unfold VNET_HDR_LEN. lia. }
  cbn [rbind]. rewrite copy_patch by (rewrite length_vnet_bytes, length_app, Lz; lia).
  rewrite (patch_zero _ _ 10) by apply length_vnet_bytes. rewrite (drop_app_length' pad) by done.
  rewrite !u16_or_small by (bounds; lia). exists body. split; [done|]. split; [done|]. split; [|split].
  - rewrite <- (u16_at_be tot l3 2 Htot) by lia. apply u16_at_agree. intros j Hj. fold b1. unfold body. by rewrite lookup_patch by len.
  - intros i Hi. unfold body. rewrite lookup_patch by len. unfold b1. by rewrite lookup_patch by len.
  - unfold body. by rewrite take_patch by len.
Qed.

(** A run is handed over with its payload, unless its length does not fit the
    header. *)
Lemma run_content big c x more frame :
  tcp_run c x more -> finish_run big c = Ret frame -> (N.of_nat (length frame) < 10 + u16_mod)%N ->
  frame_content big frame = octets (key x) (seqno x) (payload x ++ more).
Proof.
  intros Hr Hf Hl. destruct (finish_run_ok big c x more Hr) as (body & E & Lb & Ht & Ha & _). rewrite E in Hf.
  assert (frame = vnet_bytes big (run_hdr x) ++ body) as -> by congruence.
  destruct Hr as [Hx Hs _ _ _ _ _ _]. destruct (parses_bounds _ _ Hx) as (Htl & Hq & Lp).
  pose proof (ps_fits _ _ Hx). pose proof (ps_len _ _ Hx). pose proof (ps_off _ _ Hx). pose proof (ps_ip_len _ _ Hx).
  pose proof (ps_tcp_len _ _ Hx). rewrite length_app, length_vnet_bytes in Hl.
  unfold frame_content. rewrite vnet_round_trip by (repeat split; cbn; bounds; lia). cbn [gso_type run_hdr].
  rewrite bool_decide_eq_false_2 by done. rewrite (drop_app_length' (vnet_bytes _ _)) by by rewrite length_vnet_bytes.
  assert (parses body (retarget x (seqno x) body)) as Hp.
  { assert (length body = total_len x + length more) as Lb' by (rewrite Lb; len).
    apply (parses_agree (bytes x)); [done| | |lia|].
    - intros i Hi Ho. unfold own_field in Ho. rewrite Ha by lia. rewrite lookup_app_l by len. apply lookup_take_lt. lia.
    - rewrite Ht, <- Lb. f_equal. apply u16_or_small. bounds. lia.
    - rewrite <- (ps_seq _ _ Hx). apply u32_at_agree. intros j Hj. rewrite Ha by lia. rewrite lookup_app_l by len. apply lookup_take_lt. lia. }
  unfold content. rewrite (parse_intro _ _ Hp). cbn [payload_len retarget key seqno].
  assert (length body = total_len x + length more) as Lb' by (rewrite Lb; len).
  rewrite (proj2 (Nat.ltb_lt _ _)) by lia. f_equal. unfold payload. cbn [payload_off payload_len bytes retarget].
  apply list_eq. intros i. unfold slice at 1. destruct (decide (i < length body - payload_off x)) as [Hi|Hi].
  - rewrite lookup_take_lt, lookup_drop, Ha by lia. destruct (decide (i < payload_len x)) as [H5|H5].
    + rewrite !lookup_app_l by (rewrite ?length_slice, ?length_take; lia). unfold slice. rewrite !lookup_take_lt, lookup_drop by lia. done.
    + rewrite !lookup_app_r by (rewrite ?length_slice, ?length_take; lia). f_equal. rewrite length_slice, length_take by lia. lia.
  - rewrite lookup_take_ge by lia. symmetry. apply lookup_ge_None. rewrite length_app, length_slice by lia. lia.
Qed.

(** What the coalescer holds back. *)
Inductive holds (big : bool) (c : Coalescer) : list item -> Prop :=
| holds_none : has_pending c = false -> holds big c []
| holds_run x more :
    has_pending c = true -> is_tcp_run c = true -> tcp_run c x more ->
    holds big c (octets (key x) (seqno x) (payload x ++ more))
| holds_one p :
    has_pending c = true -> is_tcp_run c = false -> pending c = vnet_bytes big (mkHdr (n2b 0) GSO_NONE 0 0 0 0) ++ p ->
    holds big c [Whole p].

Definition emitted (o : option (list u8)) : list (list u8) := match o with Some f => [f] | None => [] end.

(** A frame whose packet is at most 65535 bytes long. *)
Definition frame_fits (f : list u8) : Prop := (N.of_nat (length f) < 10 + u16_mod)%N.

Lemma take_pending_ok big c items :
  holds big c items ->
  exists c' o, take_pending big c = Ret (c', o) /\ has_pending c' = false /\
    (Forall frame_fits (emitted o) -> concat (frame_content big <$> emitted o) = items).
Proof.
  intros Hh. unfold take_pending. destruct Hh as [Hp|x more Hp Ht Hr|p Hp Ht Ep]; rewrite Hp; cbn [negb].
  - by exists c, None.
  - rewrite Ht. destruct (finish_run_ok big c x more Hr) as (body & E & _). rewrite E. cbn [rbind]. do 2 eexists. split; [done|].
    split; [done|]. intros Hf. cbn [emitted] in *. pose proof (Forall_inv Hf) as Hf1.
    rewrite list_fmap_singleton. cbn [concat]. rewrite app_nil_r. apply (run_content big c); [done|by rewrite E|exact Hf1].
  - rewrite Ht. cbn [rbind]. do 2 eexists. split; [done|]. split; [done|]. intros _. cbn [emitted]. rewrite list_fmap_singleton.
    cbn [concat]. rewrite app_nil_r. rewrite Ep. unfold frame_content. rewrite vnet_round_trip by done. cbn [gso_type].
    rewrite bool_decide_eq_true_2 by done. by rewrite (drop_app_length' (vnet_bytes _ _)) by by rewrite length_vnet_bytes.
Qed.

Lemma start_singleton_ok big c p : exists c', start_singleton big c p = Ret c' /\ holds big c' [Whole p].
Proof.
  unfold start_singleton, write_vnet_hdr. change (rassert _) with (Ret tt). cbn [rbind].
  rewrite copy_patch by (rewrite length_vnet_bytes; cbn; lia). cbn [rbind]. eexists. split; [done|].
  apply holds_one; [done|done|]. cbn [pending]. f_equal. rewrite (patch_zero _ _ 10) by apply length_vnet_bytes.
  rewrite drop_ge by (cbn; lia). apply app_nil_r.
Qed.

Lemma start_tcp_run_ok big c p x sealed :
  parses p x -> 0 < payload_len x ->
  exists c', start_tcp_run c x sealed = Ret c' /\ holds big c' (octets (key x) (seqno x) (payload x)).
Proof.
  intros Hx Hs. destruct (parses_bounds _ _ Hx) as (Ht & Hq & Lp). pose proof (ps_fits _ _ Hx). pose proof (ps_len _ _ Hx).
  unfold start_tcp_run. rewrite slice_run_ok by (rewrite (ps_bytes _ _ Hx); lia). cbn [rbind]. eexists. split; [done|].
  rewrite <- (app_nil_r (payload x)). apply holds_run; [done|done|]. constructor; cbn; try done.
  - by rewrite (ps_bytes _ _ Hx).
  - unfold slice. by rewrite Nat.sub_0_r, drop_0, app_nil_r.
  - by rewrite app_nil_r, Lp.
  - apply u16_or_small. bounds. lia.
Qed.

Lemma restart_ok big c items parsed p :
  holds big c items -> parse_ipv4_tcp p = Ret parsed ->
  exists c' o items', restart big c parsed p = Ret (c', o) /\ holds big c' items' /\
    (Forall frame_fits (emitted o) -> concat (frame_content big <$> emitted o) ++ items' = items ++ content p).
Proof.
  intros Hh Ep. unfold restart. destruct (take_pending_ok big c items Hh) as (c1 & o & -> & Hn & Ho). cbn [rbind].
  unfold content. rewrite Ep. destruct parsed as [x|]; [destruct (Nat.ltb_spec 0 (payload_len x)) as [Hs|Hs]|].
  - destruct (start_tcp_run_ok big c1 p x (ends_run x) (parse_inv _ _ Ep) Hs) as (c2 & -> & Hh'). cbn [rbind]. do 3 eexists.
    split; [done|]. split; [done|]. intros Hf. by rewrite Ho.
  - destruct (start_singleton_ok big c1 p) as (c2 & -> & Hh'). cbn [rbind]. do 3 eexists. split; [done|]. split; [done|].
    intros Hf. by rewrite Ho.
  - destruct (start_singleton_ok big c1 p) as (c2 & -> & Hh'). cbn [rbind]. do 3 eexists. split; [done|]. split; [done|].
    intros Hf. by rewrite Ho.
Qed.

Lemma continues_total c x more y :
  tcp_run c x more ->
  exists b, continues c y = Ret b /\ (b = true -> 0 < payload_len y /\ key y = c_key c /\ seqno y = next_seq c /\ payload_off y = payload_off x).
Proof.
  intros [Hx Hs Ep Ek Ei El En Eg]. unfold continues. rewrite El. destruct (_ && _) eqn:E; [|eexists; split; [done|done]].
  rewrite !andb_true_iff, Nat.ltb_lt, bool_decide_eq_true, N.eqb_eq, Nat.eqb_eq in E.
  assert (VNET_HDR_LEN + payload_off x <=? length (pending c) = true) as ->.
  { apply Nat.leb_le. rewrite Ep. pose proof (ps_fits _ _ Hx). pose proof (ps_len _ _ Hx). unfold pad. len. }
  cbn [rassert rbind]. eexists. split; [done|]. tauto.
Qed.

Lemma extend_ok big c x more y p :
  has_pending c = true -> is_tcp_run c = true -> tcp_run c x more -> parses p y -> 0 < payload_len y -> key y = c_key c -> seqno y = next_seq c ->
  exists c', extend c y = Ret c' /\ holds big c' (octets (key x) (seqno x) (payload x ++ more) ++ octets (key y) (seqno y) (payload y)).
Proof.
  intros Hp Ht Hr Hy Hs Ek Eq. destruct (parses_bounds _ _ Hy) as (_ & _ & Lp). pose proof (ps_fits _ _ Hy). pose proof (ps_len _ _ Hy).
  unfold extend. rewrite slice_run_ok by (rewrite (ps_bytes _ _ Hy); lia). cbn [rbind]. eexists. split; [done|].
  pose proof Hr as [Hx Hs' Epd Ekx Ei El En Eg]. rewrite Ek, Ekx, Eq, En.
  rewrite <- octets_app by apply (parses_bounds _ _ Hx). rewrite <- app_assoc. apply holds_run; [done|done|].
  constructor; cbn; try done.
  - rewrite Epd, <- !app_assoc. done.
  - rewrite wrap32_add, app_assoc, (length_app (payload x ++ more)), Lp. f_equal. lia.
Qed.

Lemma coalesce_push_ok big c items p :
  holds big c items ->
  exists c' o items', push big c p = Ret (c', o) /\ holds big c' items' /\
    (Forall frame_fits (emitted o) -> concat (frame_content big <$> emitted o) ++ items' = items ++ content p).
Proof.
  intros Hh. unfold push. destruct (parse_never_panics p) as [[y|] Ep]; rewrite Ep; cbn [rbind]; [|by apply restart_ok].
  destruct Hh as [Hn|x more Hn Ht Hr|q Hn Ht Hq].
  - rewrite Hn. cbn [andb rbind]. apply restart_ok; [by apply holds_none|done].
  - rewrite Hn, Ht. cbn [andb]. destruct (sealed c); cbn [negb rbind].
    { apply restart_ok; [by apply holds_run|done]. }
    destruct (continues_total c x more y Hr) as ([|] & -> & Hb); cbn [rbind].
    + destruct (Hb eq_refl) as (H1 & H2 & H3 & _).
      destruct (extend_ok big c x more y p Hn Ht Hr (parse_inv _ _ Ep) H1 H2 H3) as (c' & -> & Hh). cbn [rbind].
      do 3 eexists. split; [done|]. split; [done|]. intros _. cbn. unfold content. rewrite Ep. by rewrite (proj2 (Nat.ltb_lt _ _)).
    + apply restart_ok; [by apply holds_run|done].
  - rewrite Hn, Ht. cbn [andb rbind]. apply restart_ok; [by apply holds_one|done].
Qed.

(** A burst of packets for the device, and the flush at its end. *)
Fixpoint feed (big : bool) (c : Coalescer) (ps : list (list u8)) : run (list (list u8)) :=
  match ps with
  | [] => let! ' (_, o) := flush big c in Ret (emitted o)
  | p :: ps => let! ' (c, o) := push big c p in let! rest := feed big c ps in Ret (emitted o ++ rest)
  end.

Lemma feed_ok big c items ps :
  holds big c items ->
  exists fs, feed big c ps = Ret fs /\
    (Forall frame_fits fs -> concat (frame_content big <$> fs) = items ++ concat (content <$> ps)).
Proof.
  revert c items. induction ps as [|p ps IH]; intros c items Hh; cbn [feed].
  - unfold flush. destruct (take_pending_ok big c items Hh) as (c' & o & -> & _ & Ho). cbn [rbind]. eexists. split; [done|].
    intros Hf. cbn. by rewrite app_nil_r, Ho.
  - destruct (coalesce_push_ok big c items p Hh) as (c' & o & items' & -> & Hh' & Ho). cbn [rbind].
    destruct (IH c' items' Hh') as (fs & -> & Hfs). cbn [rbind]. eexists. split; [done|].
    intros [H1 H2]%Forall_app. rewrite fmap_app, concat_app, Hfs by done. cbn. by rewrite app_assoc, Ho, app_assoc.
Qed.

(** C25: joining loses nothing: whatever packets are written to the device in a
    burst, the frames handed to the kernel carry the same TCP bytes, each under
    its flow and sequence number, and the same other packets, all in the same
    order, as long as no run grows past the 65535 bytes an IPv4 header can
    state. *)
Theorem coalescer_exact big ps :
  exists fs, feed big new ps = Ret fs /\
    (Forall frame_fits fs -> concat (frame_content big <$> fs) = concat (content <$> ps)).
Proof. apply (feed_ok big new []). by apply holds_none. Qed.

(** A run that is too long states 65535 bytes: the rest is lost to the
    receiver. *)
Lemma oversized_run big c x more frame :
  tcp_run c x more -> finish_run big c = Ret frame -> ~ frame_fits frame ->
  u16_at (drop VNET_HDR_LEN frame) 2 = Ret 65535%N /\ (65535 < N.of_nat (length (drop VNET_HDR_LEN frame)))%N.
Proof.
  intros Hr Hf Hl. destruct (finish_run_ok big c x more Hr) as (body & E & Lb & Ht & _). rewrite E in Hf.
  assert (frame = vnet_bytes big (run_hdr x) ++ body) as -> by congruence. unfold frame_fits in Hl.
  rewrite length_app, length_vnet_bytes in Hl. rewrite (drop_app_length' (vnet_bytes _ _)) by by rewrite length_vnet_bytes.
  rewrite Ht, <- Lb. unfold u16_or. rewrite (proj2 (N.ltb_ge _ _)) by (bounds; lia). split; [done|]. bounds. lia.
Qed.

End Offload.

(** ** Examples *)

Module OffloadDemo.
Import Offload.

Definition ip4 (l : list N) : list u8 := n2b <$> l.

(** A TCP packet from 10.0.0.1:1 to 10.0.0.2:2 without its checksums. *)
Definition raw_packet (len flags sq : N) (data : list N) : list u8 :=
  ip4 ([0x45; 0; 0; len; 0; 7; 0; 0; 64; 6; 0; 0; 10; 0; 0; 1; 10; 0; 0; 2] ++
       [0; 1; 0; 2; 0; 0; 0; sq; 0; 0; 0; 9; 0x50; flags; 16; 0; 0; 0; 0; 0] ++ data)%N.

(** With them. *)
Definition sealed_packet (p : list u8) : run (list u8) :=
  let! ip := ipv4_checksum (take 20 p) in tcp_checksum (ip ++ drop 20 p) 20.

(** A large packet of five bytes, to be cut at two. *)
Definition large_frame : list u8 :=
  vnet_bytes false (mkHdr (n2b 1) GSO_TCPV4 40 2 20 16) ++ raw_packet 45 0x10 100 [1; 2; 3; 4; 5]%N.

Lemma split_gro_exact_witness :
  exists out offsets accepted, split_gro false large_frame = Ret (out, offsets, accepted) /\
    accepted = true /\ concat (drop 40 <$> cut out offsets) = ip4 [1; 2; 3; 4; 5]%N.
Proof.
  destruct (split_gro_exact false large_frame ltac:(vm_compute; reflexivity)) as (out & offsets & accepted & E & _ & H).
  specialize (H _ eq_refl). cbn -[segments_of cut] in H. destruct H as (H1 & _ & H2).
  exists out, offsets, accepted. split; [exact E|]. split; [exact H1|exact H2].
Defined.

(** A joined frame asks the kernel to complete a checksum that is already
    complete: for a packet that a receiver accepts, the frame is marked
    [F_NEEDS_CSUM], and adding up as the mark demands gives a packet that a
    receiver rejects. *)
Theorem joined_checksum_broken :
  exists p f q, sealed_packet (raw_packet 41 0x10 100 [42]%N) = Ret p /\ sums_up (words (take 20 p)) /\ sums_up (tcp_sum p 20) /\
    feed false new [p] = Ret [f] /\
    option_map (fun h => (N.land (b2n (h_flags h)) F_NEEDS_CSUM, csum_start h, csum_offset h)) (read_vnet_hdr false f) = Some (1, 20, 16)%N /\
    complete_partial_csum (drop VNET_HDR_LEN f) 20 16 = Ret q /\ ~ sums_up (tcp_sum q 20).
Proof.
  do 3 eexists. split; [vm_compute; reflexivity|]. split; [vm_compute; reflexivity|]. split; [vm_compute; reflexivity|].
  split; [vm_compute; reflexivity|]. split; [vm_compute; reflexivity|]. split; [vm_compute; reflexivity|].
  vm_compute. discriminate.
Qed.

(** Two segments of a flow leave as one frame. *)
Example segments_join :
  exists f, feed false new [raw_packet 42 0x10 100 [1; 2]%N; raw_packet 42 0x10 102 [3; 4]%N] = Ret [f] /\
    drop 50 f = ip4 [1; 2; 3; 4]%N /\ frame_fits f.
Proof. eexists. split; [vm_compute; reflexivity|]. split; vm_compute; reflexivity. Qed.

End OffloadDemo.
