(* ===== verification/PmState.v ===== *)
(** * The peer manager: state

    Models the structures of bin/yipd/src/peer_manager/mod.rs — a remote peer
    with its session state, and the manager that owns the peer table, its
    indices, the rendezvous client and the membership directory — and the
    operations on the table.

    The manager is generic in the data plane of a session ([ManagedPlane]) and
    in the rendezvous client.  Calls on the operating system are numbered: the
    n-th reading of the clock or of the random source is [os_wall_ns n] or
    [os_random n], and the manager counts them in [draws].  The reusable egress
    buffers of the source are returned as values, and the control socket is an
    argument of the tick. *)

From Stdlib Require Strings.Byte.
From Stdlib Require Import NArith Lia Strings.String Floats.SpecFloat.
From stdpp Require Import base numbers gmap list.
From S2P Require Import Prelude StateM Adaptive Session DataPlane NetAddr MemberCodec MemberVerify Directory Obf RdvClient EpochSet PathState Noise Metrics SplitTunnel.

Local Open Scope nat_scope.

Inductive TunnelMode := L3Tun | L2Tap.

(** What the manager uses of a session's data plane.  The number given to
    [mp_tick] names the random draw of its timer. *)
Class ManagedPlane `{Sess.Aead} (D : Type) := {
  mp_plane :: Plane D (list u8) SocketAddr EgressDatagram;
  mp_new : Hs.Established -> N -> TunnelMode -> SocketAddr -> bool -> N -> D;
  mp_on_tun : D -> list u8 -> N -> run (D * list EgressDatagram);
  mp_tick : nat -> D -> N -> run (D * list EgressDatagram);
  mp_conn_tag : D -> N;
  mp_obf_key : D -> option (list u8);
  mp_raw_keys : D -> list u8 * list u8;
  mp_wire_keys : D -> list u8 * list u8;
  mp_set_stride : D -> N -> N -> D;
  mp_set_shard : D -> N -> N -> D;
  mp_repair_ratio : D -> spec_float;
  mp_recovered : D -> N;
  mp_unrecoverable : D -> N;
}.

(** The operating system: random 64-bit words, the wall clock in nanoseconds
    since the UNIX epoch, the answers of the certificate authority, and the
    clock skew read from the environment. *)
Class Os := {
  os_random : nat -> N;
  os_wall_ns : nat -> N;
  os_enroll : nat -> option Cert;
  os_skew : N;
}.

Inductive FecPreset := FecOff | FecLow | FecAdaptive | FecHostile | FecCustom.
Record FecConfig := mkFec { fec_preset : FecPreset; redundancy_pct : N; data_shards : N; parity_shards : N }.

Definition fec_default_config (p : FecPreset) : FecConfig :=
  match p with
  | FecOff => mkFec p 0 10 0
  | FecLow => mkFec p 5 10 1
  | FecAdaptive => mkFec p 12 10 2
  | FecHostile => mkFec p 30 10 4
  | FecCustom => mkFec p 15 10 2
  end.

Record TrafficDefenseConfig := mkDefense {
  preset : TrafficDefensePreset;
  buckets : list nat;
  cover_interval_ms : option N;
  cover_burst_max : N;
  jitter_max_ms : N;
}.

Record DaitaStats := mkDaita { authentic_bytes_tx : N; padding_bytes_tx : N; decoy_packets_tx : N; decoy_bytes_tx : N }.

Record ScheduledDatagram := mkScheduled { deliver_after_ms : N; datagram : EgressDatagram }.

Record SessionEpochMsg := mkEpochMsg {
  em_peer_pk : list u8;
  em_send_key : list u8;
  em_recv_key : list u8;
  em_auth_key : list u8;
  em_hp_key : list u8;
  em_endpoint : option SocketAddr;
}.

Record PeerConfig := mkPeerConfig { public_key : list u8; pc_endpoint : option SocketAddr }.

Inductive DispatchOut :=
| OutNone
| OutTun (inner : list u8)
| OutUdp (pkts : list EgressDatagram)
| OutBoth (inner : list u8) (pkts : list EgressDatagram).

Definition MAX_JITTER_QUEUE : nat := Eval vm_compute in 32 * 32.
Definition HANDSHAKE_RETRY_MS : N := 1000.
Definition REG_REFRESH_MS : N := 20000.
Definition LOOKUP_INTERVAL_MS : N := 1000.
Definition MAX_PENDING_TUN : nat := 16.
Definition MAX_GOSSIP_TARGETS : nat := 4.
Definition MAX_GOSSIP_REPLIES : nat := 8.
Definition REKEY_INTERVAL_MS : N := 120000.
Definition DEFAULT_DATA_SYMBOL_SIZE : N := 1200.

Module Pm.
Section State.
Context {snow : Snow} {kem : MlKem} {aead : Sess.Aead} {D T : Type}.

(** ** Peers *)

Record HandshakingState := mkHandshaking {
  h_hs : Hs.Handshake;
  h_started_ms : N;
  h_last_sent_ms : N;
  h_retry_ms : N;
  h_retries : N;
  h_init_pkt : list u8;
  h_target : SocketAddr;
  h_via_relay : bool;
}.

Definition Epochs : Type := EpochSet D (list u8) (list u8) Hs.Handshake SocketAddr.

Inductive PeerState := Idle | Handshaking (h : HandshakingState) | Established (e : Epochs).

Record Peer := mkPeer {
  pubkey : list u8;
  addr : list u8;
  endpoint : option SocketAddr;
  state : PeerState;
  pending_tun : list (list u8);
  cached_resp : option (list u8);
  cached_resp_init_eph : option (list u8);
  last_accepted_init_ts : option (list u8);
  admitted_cert_not_after : option N;
  is_static : bool;
  node : list u8;
  path : PathState SocketAddr;
  path_kind : option PathKind;
  relay : bool;
  last_lookup_ms : option N;
  session_obf_key : option (list u8);
  last_activity_ms : N;
  last_cover_ms : N;
  next_cover_interval_ms : option N;
  tx_bytes : N;
  rx_bytes : N;
  tx_packets : N;
  rx_packets : N;
  rtt_ms : option N;
  transport_name : option string;
}.

#[export] Instance peer_eta : Settable Peer := fun r =>
  mkPeer (pubkey r) (addr r) (endpoint r) (state r) (pending_tun r) (cached_resp r) (cached_resp_init_eph r)
    (last_accepted_init_ts r) (admitted_cert_not_after r) (is_static r) (node r) (path r) (path_kind r) (relay r)
    (last_lookup_ms r) (session_obf_key r) (last_activity_ms r) (last_cover_ms r) (next_cover_interval_ms r)
    (tx_bytes r) (rx_bytes r) (tx_packets r) (rx_packets r) (rtt_ms r) (transport_name r).

(** ** The manager *)

Record PeerManager := mkManager {
  local_priv : list u8;
  local_pub : list u8;
  mode : TunnelMode;
  peers : list Peer;
  by_tag : gmap N nat;
  by_addr : gmap (list u8) nat;
  by_node : gmap (list u8) nat;
  rendezvous : option T;
  membership : option Membership;
  local_node_id : list u8;
  last_register_ms : N;
  reg_refresh_ms : N;
  registered_once : bool;
  reg_seq : N;
  obf_key : option (list u8);
  junk_rng : N;
  cover_traffic_ms : option N;
  traffic_defense : TrafficDefenseConfig;
  scheduled_egress : list ScheduledDatagram;
  data_symbol_size : N;
  relay_only : bool;
  rekey_interval_ms : N;
  last_cert_sweep_ms : N;
  boot_floor_ts : list u8;
  shard_id : N;
  num_shards : N;
  new_epochs : list SessionEpochMsg;
  threshold_ca_server : option SocketAddr;
  last_cert_check_ms : N;
  fec_config : FecConfig;
  daita_stats : DaitaStats;
  split_tunnel : SplitTunnelState;
  metrics : MetricsRegistry;
  last_metrics_update_ms : N;
  draws : nat;
}.

#[export] Instance manager_eta : Settable PeerManager := fun r =>
  mkManager (local_priv r) (local_pub r) (mode r) (peers r) (by_tag r) (by_addr r) (by_node r) (rendezvous r) (membership r)
    (local_node_id r) (last_register_ms r) (reg_refresh_ms r) (registered_once r) (reg_seq r) (obf_key r) (junk_rng r)
    (cover_traffic_ms r) (traffic_defense r) (scheduled_egress r) (data_symbol_size r) (relay_only r) (rekey_interval_ms r)
    (last_cert_sweep_ms r) (boot_floor_ts r) (shard_id r) (num_shards r) (new_epochs r) (threshold_ca_server r)
    (last_cert_check_ms r) (fec_config r) (daita_stats r) (split_tunnel r) (metrics r) (last_metrics_update_ms r) (draws r).

End State.

Arguments Epochs {snow kem} D.
Arguments Peer {snow kem} D.
Arguments PeerState {snow kem} D.
Arguments PeerManager {snow kem} D T.
End Pm.
