(* ===== verification/PmTable.v ===== *)
(** * The peer manager: the peer table

    Clocks, random draws and metrics as the handlers use them, and the
    operations of bin/yipd/src/peer_manager/mod.rs on the table of peers:
    construction, admission, addition and removal of peers, the end of a
    session, sessions installed from another worker. *)

From Stdlib Require Strings.Byte.
From Stdlib Require Import NArith Lia Strings.String Floats.SpecFloat.
From stdpp Require Import base numbers gmap list.
From S2P Require Import Prelude StateM Adaptive Session DataPlane NetAddr MemberCodec MemberVerify Directory Obf RdvClient EpochSet PathState Noise Metrics SplitTunnel PmState.

Local Open Scope nat_scope.

(** [Iterator::position] *)
Fixpoint position {A} (f : A -> bool) (l : list A) : option nat :=
  match l with
  | [] => None
  | x :: l => if f x then Some 0 else S <$> position f l
  end.

Lemma position_some {A} (f : A -> bool) l i : position f l = Some i -> exists x, l !! i = Some x /\ f x = true.
Proof.
  revert i. induction l as [|x l IH]; intros i; cbn; [done|]. destruct (f x) eqn:E; [intros [= <-]; by exists x|].
  destruct (position f l) as [j|]; [|done]. intros [= <-]. by apply IH.
Qed.

Lemma position_lt {A} (f : A -> bool) l i : position f l = Some i -> i < length l.
Proof. intros (x & Hx & _)%position_some. by eapply lookup_lt_Some. Qed.

Lemma position_sole {A} (f : A -> bool) l i x :
  l !! i = Some x -> f x = true -> (forall j y, l !! j = Some y -> f y = true -> j = i) -> position f l = Some i.
Proof.
  revert i. induction l as [|y l IH]; intros i Hx Hf Hu; [done|]. cbn [position]. destruct (f y) eqn:E.
  { by rewrite <- (Hu 0 y eq_refl E). }
  destruct i as [|i]; cbn in Hx; [congruence|]. rewrite (IH i Hx Hf); [done|]. intros j z Hz Hfz.
  specialize (Hu (S j) z Hz Hfz). lia.
Qed.

Lemma position_none {A} (f : A -> bool) l : (forall j y, l !! j = Some y -> f y = false) -> position f l = None.
Proof. intros H. destruct (position f l) as [i|] eqn:E; [|done]. apply position_some in E as (x & Hx & Hf). by rewrite (H i x Hx) in Hf. Qed.

Definition f32_100 : spec_float := S754_finite false 0xc80000 (-17).

(** [x as f32 / 100.0] for a byte [x]. *)
Definition pct_ratio (pct : N) : spec_float := SFdiv 24 128 (Dp.f32_of_u16 pct) f32_100.

(** [(x * 100.0).round() as u8]: halves away from zero, saturating. *)
Definition ratio_pct (x : spec_float) : N :=
  match f32_mul x f32_100 with
  | S754_finite false m e =>
      N.min 255 (match e with
                 | Z0 => N.pos m
                 | Zpos k => N.shiftl (N.pos m) (N.pos k)
                 | Zneg k => N.shiftr (N.pos m + N.shiftl 1 (N.pos k - 1)) (N.pos k)
                 end)
  | S754_infinity false => 255
  | _ => 0
  end.

(** [jitter_ms] for a random word [v]: within a quarter of [base]. *)
Definition jittered (base v : N) : N :=
  let spread := (base / 4)%N in
  if (spread =? 0)%N then base
  else ((base - spread) + v mod sat_add64 (N.min (spread * 2) (u64_mod - 1)) 1)%N.

Module Tbl.
Import Pm.
Section Table.
Context {snow : Snow} {kem : MlKem} {aead : Sess.Aead} {D T : Type} {MP : ManagedPlane D} {RV : Rendezvous T}.
Context {blake : Blake2s} {ed : Ed25519} {iter : HashIter} {os : Os}.
Notation PeerManager := (PeerManager D T).
Notation Peer := (Peer D).
Notation M := (M PeerManager).
Implicit Types (s : PeerManager) (p : Peer).

(** ** The world *)

Definition draw : M nat := n ← gets draws; modify (fun s => s <| draws := S n |>) ;; mret n.
Definition random : M N := n ← draw; mret (os_random n).
Definition wall_ns : M N := n ← draw; mret (os_wall_ns n).

Definition now_secs : M N := w ← wall_ns; mret (w / 1000000000)%N.
Definition now_wall_clock_ms : M N := w ← wall_ns; mret (N.min (w / 1000000) (u64_mod - 1)).

Definition random_pad (max : nat) : M nat :=
  if max =? 0 then mret 0
  else v ← random; mret (N.to_nat (v mod sat_add64 (N.of_nat max) 1)).

Definition jitter_ms (base : N) : M N :=
  if (base / 4 =? 0)%N then mret base else v ← random; mret (jittered base v).

Definition sample (x : Metrics.Sample) : M unit := modify (fun s => s <| metrics := Metrics.record (metrics s) x |>).

(** ** Indexing *)

(** [self.peers[idx]] *)
Definition peer_at (idx : nat) : M Peer :=
  s ← get; match peers s !! idx with Some p => mret p | None => panic end.

(** An assignment to fields of [self.peers[idx]]. *)
Definition upd_peer (idx : nat) (f : Peer -> Peer) : M unit :=
  s ← get;
  match peers s !! idx with
  | Some p => modify (fun s => s <| peers := <[idx := f p]> (peers s) |>)
  | None => panic
  end.

Definition is_established p : bool := match state p with Established _ => true | _ => false end.
Definition is_idle p : bool := match state p with Idle => true | _ => false end.

(** ** Summaries *)

Definition peer_stats_of p : PeerStats :=
  let state_str := match state p with
                   | Idle => "idle"
                   | Handshaking _ => "handshaking"
                   | Established _ => "established"
                   end%string in
  let transport := match transport_name p with
                   | Some t => t
                   | None =>
                       if relay p then "Relay"
                       else
                         match path_kind p with
                         | Some KDirect => "Direct UDP"
                         | Some KPunched => "Holepunched UDP"
                         | Some KRelayed => "Relayed"
                         | None => match endpoint p with Some _ => "Direct UDP" | None => "None" end
                         end
                   end%string in
  let ' (fec_ratio_pct, fec_recovered) := match state p with
                                          | Established e => (ratio_pct (mp_repair_ratio (current e)), mp_recovered (current e))
                                          | _ => (0%N, 0%N)
                                          end in
  mkStats (pubkey p) (endpoint p) (addr p) state_str (last_activity_ms p) (tx_bytes p) (rx_bytes p) (tx_packets p)
    (rx_packets p) fec_recovered transport (rtt_ms p) fec_ratio_pct "CA Valid"%string.

Definition peer_stats s : list PeerStats := map peer_stats_of (peers s).

(** [self.metrics.update_peer_stats(self.list_peers())] *)
Definition update_stats : M unit :=
  modify (fun s => s <| metrics := Metrics.update_peer_stats (metrics s) (peer_stats s) |>).

(** ** Peers *)

Definition server_addr s : SocketAddr :=
  match rendezvous s with Some r => RdvClient.server_addr r | None => SockV4 (replicate 4 Byte.x00) 0 end.

Definition push_pending (pending : list (list u8)) (inner : list u8) : list (list u8) :=
  (if MAX_PENDING_TUN <=? length pending then drop 1 pending else pending) ++ [inner].

Definition is_root s (pk : list u8) : bool :=
  match membership s with
  | Some m => existsb (fun x => bool_decide (x.1 = pk)) (roots (m_roots m))
  | None => false
  end.

Definition fresh_peer (pk : list u8) (ep : option SocketAddr) (static : bool) (pth : PathState SocketAddr)
    (transport : option string) : Peer :=
  mkPeer pk (node_addr pk) ep Idle [] None None None None static (node_id_of pk) pth None false None None 0 0 None
    0 0 0 0 None transport.

(** The path of a peer that starts with these endpoints. *)
Definition start_path (only_relay has_rdv : bool) (eps : list SocketAddr) (now_ms : N) : PathState SocketAddr :=
  let pth := if only_relay then Path.relay_only now_ms
             else Path.new (match eps with [] => false | _ => true end) has_rdv now_ms in
  fold_left Path.on_direct_addr eps pth.

Definition has_rdv s : bool := match rendezvous s with Some _ => true | None => false end.

(** Push a peer and register its address and node id. *)
Definition push_peer s p : PeerManager :=
  let idx := length (peers s) in
  s <| by_addr ::= <[addr p := idx]> |> <| by_node ::= <[node p := idx]> |> <| peers := peers s ++ [p] |>.

Definition admit_member (pk : list u8) (endpoints : list SocketAddr) (now_ms : N) : M unit :=
  s ← get;
  if bool_decide (pk = local_pub s) || existsb (fun p => bool_decide (pubkey p = pk)) (peers s) then mret tt
  else modify (fun s => push_peer s (fresh_peer pk (head endpoints) false (start_path (relay_only s) (has_rdv s) endpoints now_ms) None)).

(** The manager before any peer; [wall] and [label] are readings of the clock. *)
Definition empty_manager (priv pub : list u8) (md : TunnelMode) (rdv : option T) (memb : option Membership) (only_relay : bool)
    (interval wall seed label : N) (n : nat) : PeerManager :=
  mkManager priv pub md [] ∅ ∅ ∅ rdv memb (node_id_of pub) 0 REG_REFRESH_MS false wall None
    (XorShift64.from_seed seed) None (mkDefense Off [] None 1 0) [] DEFAULT_DATA_SYMBOL_SIZE only_relay interval 0
    (Hs.tai64n_sub_duration (Hs.now_tai64n label) 5 0) 0 1 [] None 0 (fec_default_config FecAdaptive) (mkDaita 0 0 0 0)
    Split.default Metrics.new 0 n.

Definition push_configured s (c : PeerConfig) : PeerManager :=
  push_peer s (fresh_peer (public_key c) (pc_endpoint c) true
    (start_path (relay_only s) (has_rdv s) (option_list (pc_endpoint c)) 0) None).

Definition new_manager (priv pub : list u8) (peers_cfg : list PeerConfig) (md : TunnelMode) (rdv : option T)
    (memb : option Membership) (only_relay : bool) (interval : N) : M unit :=
  wall ← now_wall_clock_ms;
  seed ← random;
  label ← wall_ns;
  n ← gets draws;
  modify (fun _ => fold_left push_configured peers_cfg (empty_manager priv pub md rdv memb only_relay interval wall seed label n)) ;;
  mfor (match memb with Some m => roots (m_roots m) | None => [] end) (fun r => admit_member r.1 [r.2] 0).

(** What is set between construction and the event loop. *)
Inductive Setting :=
| ObfPsk (psk : option (list u8))
| CoverTraffic (ms : option N)
| TrafficDefense (cfg : TrafficDefenseConfig)
| ThresholdCa (server : option SocketAddr)
| DataSymbolSize (n : N)
| NumShards (n : N)
| ShardId (n : N).

Definition configure (x : Setting) : M unit :=
  modify (fun s =>
    match x with
    | ObfPsk psk => s <| obf_key := derive_key <$> psk |>
    | CoverTraffic ms => s <| cover_traffic_ms := ms |>
    | TrafficDefense cfg => s <| traffic_defense := cfg |>
    | ThresholdCa server => s <| threshold_ca_server := server |>
    | DataSymbolSize n => s <| data_symbol_size := n |>
    | NumShards n => s <| num_shards := N.max n 1 |>
    | ShardId n => s <| shard_id := n |>
    end).

Definition session_obf_key_for s (hp_key : list u8) : option (list u8) :=
  match obf_key s with Some _ => Some (derive_key hp_key) | None => None end.

(** The tags a peer's epochs hold. *)
Definition session_tags p : list N :=
  match state p with
  | Established e =>
      mp_conn_tag (current e) :: option_list ((fun n => mp_conn_tag (next_dp n)) <$> next e)
        ++ option_list (mp_conn_tag <$> previous e)
  | _ => []
  end.

Definition drop_session (idx : nat) : M unit :=
  p ← peer_at idx;
  modify (fun s => s <| by_tag := fold_left (fun m t => delete t m) (session_tags p) (by_tag s) |>) ;;
  upd_peer idx (fun p => p <| state := Idle |> <| admitted_cert_not_after := None |>) ;;
  update_stats.

Definition add_peer_with_transport (cfg : PeerConfig) (transport : option string) : M (result unit string) :=
  s ← get;
  match by_node s !! node_id_of (public_key cfg) with
  | Some _ => mret (Err "peer already exists"%string)
  | None =>
      modify (fun s => push_peer s (fresh_peer (public_key cfg) (pc_endpoint cfg) false
        (start_path (relay_only s) (has_rdv s) (option_list (pc_endpoint cfg)) 0) transport)) ;;
      update_stats ;;
      mret (Ok tt)
  end.

Definition set_peer_transport (pk : list u8) (transport : string) : M unit :=
  s ← get;
  match by_node s !! node_id_of pk with
  | Some idx => upd_peer idx (fun p => p <| transport_name := Some transport |>)
  | None => mret tt
  end.

(** [if *v > idx { *v -= 1 }] *)
Definition shift_down (idx v : nat) : nat := if idx <? v then v - 1 else v.

Definition remove_peer (pk : list u8) : M (result unit string) :=
  s ← get;
  match by_node s !! node_id_of pk with
  | None => mret (Err "peer not found"%string)
  | Some idx =>
      drop_session idx ;;
      modify (fun s => s <| by_node := shift_down idx <$> delete (node_id_of pk) (by_node s) |>
                         <| by_addr := shift_down idx <$> delete (node_addr pk) (by_addr s) |>
                         <| peers := delete idx (peers s) |>
                         <| by_tag := shift_down idx <$> by_tag s |>) ;;
      update_stats ;;
      mret (Ok tt)
  end.

(** ** Sessions of a peer *)

(** Replace the session of a peer whose state is [Established]. *)
Definition set_epochs (idx : nat) (e : Epochs D) : M unit := upd_peer idx (fun p => p <| state := Established e |>).

Definition record_new_epoch (idx : nat) : M unit :=
  p ← peer_at idx;
  s ← get;
  match state p with
  | Established e =>
      let e := if (1 <? num_shards s)%N
               then Epochs.set_current e
                      (mp_set_shard (mp_set_stride (current e) (shard_id s) (num_shards s)) (shard_id s) (num_shards s))
               else e in
      set_epochs idx e ;;
      let ' (send, recv) := mp_raw_keys (current e) in
      let ' (auth, hp) := mp_wire_keys (current e) in
      modify (fun s => s <| new_epochs := new_epochs s ++ [mkEpochMsg (pubkey p) send recv auth hp (endpoint p)] |>)
  | _ => mret tt
  end.

Definition drain_new_epochs : M (list SessionEpochMsg) :=
  es ← gets new_epochs; modify (fun s => s <| new_epochs := [] |>) ;; mret es.

(** [DataPlane::new] with the manager's settings. *)
Definition new_plane s (est : Hs.Established) (a : SocketAddr) : D :=
  mp_new est (Hs.conn_tag_from_keys (Hs.auth_key est) (Hs.hp_key est)) (mode s) a
    (match obf_key s with Some _ => true | None => false end) (data_symbol_size s).

Definition set_fec_config (config : FecConfig) : M unit :=
  modify (fun s => s <| fec_config := config |>
    <| peers := map (fun p => match state p with
                              | Established e => p <| state := Established (Epochs.set_fec_repair_ratio e (pct_ratio (redundancy_pct config))) |>
                              | _ => p
                              end) (peers s) |>).

Definition is_peer_established s (pk : list u8) : bool :=
  existsb (fun p => bool_decide (pubkey p = pk) && is_established p) (peers s).

(** A session replicated from another worker. *)
Definition install_established_session (peer_pk : list u8) (est : Hs.Established) (ep : option SocketAddr) : M unit :=
  let find s := position (fun p => bool_decide (pubkey p = peer_pk)) (peers s) in
  s ← get;
  found ← match find s with
          | Some i => mret (Some i)
          | None => admit_member peer_pk (option_list ep) 0 ;; gets find
          end;
  match found with
  | None => mret tt
  | Some idx =>
      s ← get;
      let tag := Hs.conn_tag_from_keys (Hs.auth_key est) (Hs.hp_key est) in
      let sess_obf := session_obf_key_for s (Hs.hp_key est) in
      p ← peer_at idx;
      let peer_ep := match ep with
                     | Some a => a
                     | None => match endpoint p with Some a => a | None => SockV4 (replicate 4 Byte.x00) 0 end
                     end in
      match ep with
      | Some a => upd_peer idx (fun p => p <| endpoint := Some a |> <| path := Path.on_direct_addr (path p) a |>)
      | None => mret tt
      end ;;
      let dp := new_plane s est peer_ep in
      let dp := if (1 <? num_shards s)%N then mp_set_shard dp (shard_id s) (num_shards s) else dp in
      modify (fun s => s <| by_tag ::= <[tag := idx]> |> <| by_addr ::= <[node_addr peer_pk := idx]> |>) ;;
      upd_peer idx (fun p => p <| session_obf_key := sess_obf |> <| path := Path.committed (path p) KDirect |>
                               <| path_kind := Some KDirect |>) ;;
      let e : Epochs D := Epochs.set_fec_repair_ratio (Epochs.new dp 0) (pct_ratio (redundancy_pct (fec_config s))) in
      set_epochs idx e
  end.

End Table.
End Tbl.
