(* ===== verification/PmPlane.v ===== *)
(** * The peer manager: its data planes

    What the manager relies on when it drives a session's data plane
    ([ManagedLaws]), and the data planes of DataPlane, kept with the keys of
    their handshake, as the implementation. *)

From Stdlib Require Strings.Byte.
From Stdlib Require Import NArith Lia Floats.SpecFloat.
From stdpp Require Import base numbers gmap list.
From S2P Require Import Prelude Gf256 RsSimd Fec FecDelivery Adaptive AntiReplay Session Wire Transport MacTable DataPlane DataPlaneWf NetAddr MemberVerify Directory Obf RdvClient EpochSet EpochPlane Noise PmState PmTable.

Local Open Scope nat_scope.

(** A packet the sealing of which does not exceed the length of an object. *)
Definition sealable (inner : list u8) : Prop := (N.of_nat (length inner) + 16 < u32_mod)%N.

Class ManagedLaws `{MP : ManagedPlane D} (wf : D -> Prop) (clock : N -> Prop) : Prop := {
  ml_plane :: PlaneLaws D (list u8) SocketAddr EgressDatagram wf clock;
  ml_new est tag md a obf sym :
    Sess.replay (Hs.session est) = Replay.window_new -> sym <> 0%N -> wf (mp_new est tag md a obf sym);
  ml_on_tun d inner now : wf d -> clock now -> sealable inner -> exists d' out, mp_on_tun d inner now = Ret (d', out) /\ wf d';
  ml_tick n d now : wf d -> exists d' out, mp_tick n d now = Ret (d', out) /\ wf d';
  ml_set_stride d i n : wf d -> wf (mp_set_stride d i n);
  ml_set_shard d i n : wf d -> wf (mp_set_shard d i n);
}.

(** ** The data plane of a session *)

Record KeyedPlane {aead : Sess.Aead} := mkKeyed {
  kp : Dp.DataPlane (Addr := SocketAddr);
  kp_send_key : list u8;
  kp_recv_key : list u8;
}.
Arguments KeyedPlane {_}.
Arguments mkKeyed {_} _ _ _.
Arguments kp {_} _.
Arguments kp_send_key {_} _.
Arguments kp_recv_key {_} _.

Module Keyed.
Section Keyed.
Context {cpu : Cpu} {aead : Sess.Aead} {wire_sip : SipHash} {blake : Blake2s} {iter : HashIter} {os : Os}.
Implicit Types d : KeyedPlane.

Definition with_plane d (x : Dp.DataPlane) : KeyedPlane := mkKeyed x (kp_send_key d) (kp_recv_key d).

(** [DataPlane::new] *)
Definition new (est : Hs.Established) (tag : N) (md : TunnelMode) (a : SocketAddr) (obf : bool) (sym : N) : KeyedPlane :=
  mkKeyed (Dp.new (Hs.session est) (Hs.auth_key est) (Hs.hp_key est) tag (match md with L2Tap => true | L3Tun => false end) a obf sym)
    (Hs.raw_send_key est) (Hs.raw_recv_key est).

Definition on_tun d (inner : list u8) (now : N) : run (KeyedPlane * list EgressDatagram) :=
  let! ' (x, out) := Dp.on_tun_packet (kp d) inner now in Ret (with_plane d x, out).

(** [DataPlane::tick], its jitter drawn and its table swept in the order of
    the hash map. *)
Definition tick (n : nat) d (now : N) : run (KeyedPlane * list EgressDatagram) :=
  let! ' (x, out) := Dp.tick (kp d) (jittered FEEDBACK_INTERVAL_MS (os_random n))
                       (hash_iter (map_to_list (index (Dp.mac_table (kp d))))) now in
  Ret (with_plane d x, out).

Definition total (f : FecReassembler object_table -> N) d : N :=
  map_fold (fun _ re n => wrap64 (n + f re)) 0%N (reassemblers (Dp.transport (kp d))).

Definition set_stride d (i n : N) : KeyedPlane :=
  with_plane d (Dp.set_session (kp d) (Sess.set_stride (Dp.session (kp d)) i n)).

Definition set_shard d (i n : N) : KeyedPlane :=
  with_plane d (Dp.set_transport (kp d) (Tp.set_shard (Dp.transport (kp d)) i n)).

Definition obf_key d : option (list u8) :=
  if Dp.obf_on (kp d) then Some (derive_key (Wire.hp_key (Dp.codec (kp d)))) else None.

Definition bulk_repair_ratio d : spec_float :=
  match controllers (Dp.transport (kp d)) !! class_index Bulk with Some c => ratio c | None => S754_nan end.

#[export] Instance keyed_plane : Plane KeyedPlane (list u8) SocketAddr EgressDatagram := {|
  plane_open d dg now := let! ' (x, o) := plane_open (kp d) dg now in Ret (with_plane d x, o);
  plane_set_addr d a := let! x := plane_set_addr (kp d) a in Ret (with_plane d x);
  plane_set_ratio d r := with_plane d (plane_set_ratio (kp d) r);
|}.

#[export] Instance managed_plane : ManagedPlane KeyedPlane := {|
  mp_new := new;
  mp_on_tun := on_tun;
  mp_tick := tick;
  mp_conn_tag d := Dp.conn_tag (kp d);
  mp_obf_key := obf_key;
  mp_raw_keys d := (kp_send_key d, kp_recv_key d);
  mp_wire_keys d := (Wire.auth_key (Dp.codec (kp d)), Wire.hp_key (Dp.codec (kp d)));
  mp_set_stride := set_stride;
  mp_set_shard := set_shard;
  mp_repair_ratio := bulk_repair_ratio;
  mp_recovered := total recovered_count;
  mp_unrecoverable := total unrecoverable_count;
|}.

Definition keyed_wf d : Prop := DpWf.dp_wf (kp d).

#[export] Instance keyed_laws : PlaneLaws KeyedPlane (list u8) SocketAddr EgressDatagram keyed_wf DpWf.clock.
Proof.
  constructor; cbn -[plane_open plane_set_addr plane_set_ratio].
  - intros d dg now Hd Hnow. destruct (plane_open_ok (kp d) dg now Hd Hnow) as (x & o & E & Hx).
    cbn [plane_open keyed_plane]. rewrite E. cbn. eauto.
  - intros d a Hd. destruct (plane_set_addr_ok (wf := DpWf.dp_wf) (clock := DpWf.clock) (kp d) a Hd) as (x & E & Hx).
    cbn [plane_set_addr keyed_plane]. rewrite E. cbn. eauto.
  - intros d r Hd. apply (plane_set_ratio_ok (wf := DpWf.dp_wf) (clock := DpWf.clock) (kp d) r Hd).
Qed.

Context {sess_laws : Sess.AeadLaws} {iter_laws : HashIterLaws}.

#[export] Instance managed_laws : ManagedLaws keyed_wf DpWf.clock.
Proof.
  constructor; unfold keyed_wf.
  - apply keyed_laws.
  - intros est tag md a obf sym Hr Hs. by apply DpWf.new_wf.
  - intros d inner now Hd Hnow Hin. destruct (DpWf.on_tun_ok (kp d) inner now Hd Hnow Hin) as (x & o & E & Hx).
    cbn [mp_on_tun managed_plane]. unfold on_tun. rewrite E. cbn. eauto.
  - intros n d now Hd. cbn [mp_tick managed_plane]. unfold tick.
    destruct (DpWf.tick_ok (kp d) (jittered FEEDBACK_INTERVAL_MS (os_random n)) _ now Hd (hash_iter_perm _)) as (x & o & E & Hx).
    rewrite E. cbn. eauto.
  - intros d i n [? [sp Hsp] ? ? ? ?]. split; try done. by exists sp.
  - intros d i n Hd. apply DpWf.set_transport_wf; [done|]. by apply Tp.set_shard_wf, Hd.
Qed.

End Keyed.
End Keyed.
