(* ===== verification/PmObf.v ===== *)
(** * The peer manager: obfuscation and egress timing

    Models bin/yipd/src/peer_manager/obf.rs — recovering an obfuscated datagram
    by source and trial, wrapping what is sent, decoys — and the queue of
    delayed datagrams of mod.rs.  Egress jitter delays data datagrams in that
    bounded queue: nothing is lost or duplicated on the way, and nothing waits
    longer than the configured maximum. *)

From Stdlib Require Strings.Byte.
From Stdlib Require Import NArith Lia.
From stdpp Require Import base numbers gmap list.
From S2P Require Import Prelude StateM Session DataPlane NetAddr MemberVerify Directory Obf RdvClient EpochSet PathState Noise Metrics SplitTunnel PmState PmTable.

Local Open Scope nat_scope.

Definition JUNK_TYPE : u8 := Byte.x06.
Definition OBF_MTU_BUDGET : nat := 1200.
Definition OBF_DATA_PAD_MAX : nat := 64.
Definition JUNK_MIN_LEN : N := 64.
Definition JUNK_MAX_LEN : N := 1024.

Module Obfs.
Import Pm Tbl.
Section Obfs.
Context {snow : Snow} {kem : MlKem} {aead : Sess.Aead} {D T : Type} {MP : ManagedPlane D} {RV : Rendezvous T}.
Context {blake : Blake2s} {sip : SipHash24} {os : Os}.
Notation PeerManager := (PeerManager D T).
Notation Peer := (Peer D).
Notation M := (M PeerManager).
Implicit Types (s : PeerManager) (p : Peer).

(** ** Ingress *)

Definition candidate_obf_keys (e : Epochs D) : list (list u8) :=
  let add keys o := match o with
                    | Some k => if bool_decide (k ∈ keys) then keys else keys ++ [k]
                    | None => keys
                    end in
  let keys := add [] (mp_obf_key (current e)) in
  let keys := match next e with Some n => add keys (mp_obf_key (next_dp n)) | None => keys end in
  match previous e with Some d => add keys (mp_obf_key d) | None => keys end.

Definition reassemble (ptype : u8) (body : list u8) : list u8 := ptype :: body.

(** The keys tried for an established peer. *)
Definition session_keys p : list (list u8) :=
  match state p with
  | Established e =>
      match candidate_obf_keys e with
      | [] => option_list (session_obf_key p)
      | keys => keys
      end
  | _ => []
  end.

Inductive Trial := Stop (plain : option (list u8)) | Continue.

(** Try keys in turn: a decoy or an accepted type ends the search. *)
Fixpoint try_keys (accept : u8 -> bool) (keys : list (list u8)) (dg : list u8) : Trial :=
  match keys with
  | [] => Continue
  | key :: keys =>
      match Obf.deobfuscate key dg with
      | Some (ptype, body) =>
          if bool_decide (ptype = JUNK_TYPE) then Stop None
          else if accept ptype then Stop (Some (reassemble ptype body))
          else try_keys accept keys dg
      | None => try_keys accept keys dg
      end
  end.

Definition session_type (t : u8) : bool := is_type t Data || is_type t Control || is_type t Gossip.
Definition handshake_type (t : u8) : bool := is_type t HandshakeInit || is_type t HandshakeResp.

Definition from_endpoint (src : SocketAddr) p : bool := bool_decide (endpoint p = Some src) && is_established p.

Definition deobf_ingress s (src : SocketAddr) (dg : list u8) : option (list u8) :=
  let at_src := match List.find (from_endpoint src) (peers s) with
                | Some p => try_keys session_type (session_keys p) dg
                | None => Continue
                end in
  match at_src with
  | Stop r => r
  | Continue =>
      match try_keys session_type (concat (map session_keys (peers s))) dg with
      | Stop r => r
      | Continue =>
          match try_keys handshake_type (option_list (obf_key s)) dg with
          | Stop r => r
          | Continue => None
          end
      end
  end.

(** ** Egress *)

Definition gen_range (lo hi : N) : M N :=
  s ← get;
  x ← lift (XorShift64.gen_range (junk_rng s) lo hi);
  modify (fun s => s <| junk_rng := x.2 |>) ;;
  mret x.1.

Definition build_junk : M (list u8) :=
  len ← gen_range JUNK_MIN_LEN JUNK_MAX_LEN;
  s ← get;
  let x := XorShift64.fill (junk_rng s) (replicate (N.to_nat len) Byte.x00) in
  modify (fun s => s <| junk_rng := x.2 |>) ;;
  mret (JUNK_TYPE :: x.1).

Definition obf_key_for_egress s (dst : SocketAddr) (ptype : u8) : option (list u8) :=
  if handshake_type ptype then obf_key s
  else
    let found := head (omap (fun p =>
      if bool_decide (endpoint p = Some dst) then
        match state p with
        | Established e => match mp_obf_key (current e) with Some k => Some k | None => session_obf_key p end
        | _ => None
        end
      else None) (peers s)) in
    match found with Some k => Some k | None => obf_key s end.

Definition obf_pad_max (ptype : u8) (dg_len : nat) : nat :=
  let body_len := dg_len - 1 in
  let room := OBF_MTU_BUDGET - (body_len + MIN_ENVELOPE) in
  if handshake_type ptype then room else Nat.min room OBF_DATA_PAD_MAX.

(** [obfuscate_into], with its random nonce. *)
Definition obf_wrap (key : list u8) (ptype : u8) (body : list u8) (pad : nat) : M (option (list u8)) :=
  if (N.of_nat (length body) <? u16_mod)%N then
    n ← random; mret (Obf.obfuscate_into key ptype body pad (to_be_bytes 8 n))
  else mret None.

Definition count_daita (authentic padding decoys decoy : nat) : M unit :=
  modify (fun s => let d := daita_stats s in
    s <| daita_stats := mkDaita (wrap64 (authentic_bytes_tx d + N.of_nat authentic))
                          (wrap64 (padding_bytes_tx d + N.of_nat padding))
                          (wrap64 (decoy_packets_tx d + N.of_nat decoys)) (wrap64 (decoy_bytes_tx d + N.of_nat decoy)) |>).

Definition MAX_BUDGET : nat := Eval vm_compute in Nat.max 1420 OBF_MTU_BUDGET.

Definition defense_active s : bool :=
  match preset (traffic_defense s) with Off => false | _ => true end
  && match buckets (traffic_defense s) with [] => false | _ => true end.

(** The first eight buckets within the budget. *)
Definition valid_buckets s : list nat := take 8 (List.filter (fun b => b <=? MAX_BUDGET) (buckets (traffic_defense s))).

(** The wire length a datagram is padded to, and its fate afterwards. *)
Definition target_wire (d : EgressDatagram) (ptype : u8) (body_len raw_wire : nat) : M (nat * N) :=
  s ← get;
  if bool_decide (ptype = JUNK_TYPE) && (0 <? Dp.fate d)%N
     && existsb (fun b => (N.of_nat b =? Dp.fate d)%N) (buckets (traffic_defense s))
  then mret (N.to_nat (Dp.fate d), 0%N)
  else if bool_decide (ptype = JUNK_TYPE) && (body_len =? 0) then
    match valid_buckets s with
    | [] => mret (MAX_BUDGET, Dp.fate d)
    | b :: bs =>
        i ← gen_range 0 (N.of_nat (length bs));
        mret (nth (N.to_nat i) (b :: bs) 0, Dp.fate d)
    end
  else mret (round_to_bucket raw_wire (buckets (traffic_defense s)) MAX_BUDGET, Dp.fate d).

(** The body of [retain_mut]: the wrapped datagram, or nothing when it cannot
    be wrapped. *)
Definition obf_one (server : option SocketAddr) (active : bool) (d : EgressDatagram) : M (list EgressDatagram) :=
  s ← get;
  match bytes d with
  | [] => mret [d]
  | ptype :: body =>
      if bool_decide (Some (dst d) = server) then
        match obf_key s with
        | None => mret [d]
        | Some key =>
            let raw_wire := MIN_ENVELOPE + length (bytes d) in
            pad ← (if active then mret (round_to_bucket raw_wire (buckets (traffic_defense s)) MAX_BUDGET - raw_wire)
                   else random_pad (obf_pad_max RDV_TYPE (length (bytes d) + 1)));
            out ← obf_wrap key RDV_TYPE (bytes d) pad;
            match out with
            | Some w =>
                count_daita raw_wire pad 0 0 ;;
                sample (Metrics.DaitaPadding (N.of_nat pad)) ;;
                mret [mkEgress (Dp.fate d) (dst d) w]
            | None => mret []
            end
        end
      else
        match obf_key_for_egress s (dst d) ptype with
        | None => mret [d]
        | Some key =>
            let raw_wire := MIN_ENVELOPE + length body in
            x ← (if active then t ← target_wire d ptype (length body) raw_wire; mret (t.1 - raw_wire, t.2)
                 else pad ← random_pad (obf_pad_max ptype (length (bytes d))); mret (pad, Dp.fate d));
            let ' (pad, fate) := x in
            out ← obf_wrap key ptype body pad;
            match out with
            | Some w =>
                (if bool_decide (ptype = JUNK_TYPE) then
                   count_daita 0 0 1 (raw_wire + pad) ;; sample (Metrics.DaitaDecoy 1 (N.of_nat (raw_wire + pad)))
                 else
                   count_daita raw_wire pad 0 0 ;; sample (Metrics.DaitaPadding (N.of_nat pad))) ;;
                mret [mkEgress fate (dst d) w]
            | None => mret []
            end
        end
  end.

Definition obf_egress (dgs : list EgressDatagram) : M (list EgressDatagram) :=
  s ← get;
  let server := match rendezvous s with Some r => Some (RdvClient.server_addr r) | None => None end in
  mconcat (obf_one server (defense_active s)) dgs.

(** ** Delayed datagrams *)

Definition next_scheduled_egress_delay_ms s (now_ms : N) : option N :=
  match map deliver_after_ms (scheduled_egress s) with
  | [] => None
  | d :: ds => Some (fold_left N.min ds d - now_ms)%N
  end.

Definition due (now_ms : N) (x : ScheduledDatagram) : bool := (deliver_after_ms x <=? now_ms)%N.

(** The due datagrams at the front, and the rest. *)
Fixpoint pop_due (now_ms : N) (q : list ScheduledDatagram) : list EgressDatagram * list ScheduledDatagram :=
  match q with
  | x :: q' => if due now_ms x then let ' (out, rest) := pop_due now_ms q' in (datagram x :: out, rest) else ([], q)
  | [] => ([], [])
  end.

(** The front of the queue, then any due datagram that is left. *)
Definition drain_scheduled_egress (now_ms : N) (out : list EgressDatagram) : M (list EgressDatagram) :=
  s ← get;
  let ' (popped, rest) := pop_due now_ms (scheduled_egress s) in
  let ' (late, rest) := if existsb (due now_ms) rest
                        then (map datagram (List.filter (due now_ms) rest), List.filter (fun x => negb (due now_ms x)) rest)
                        else ([], rest) in
  modify (fun s => s <| scheduled_egress := rest |>) ;;
  mret (out ++ popped ++ late).

(** [Iterator::rposition] *)
Definition rposition {A} (f : A -> bool) (l : list A) : option nat :=
  match position f (rev l) with Some i => Some (length l - 1 - i) | None => None end.

Definition queue_scheduled_egress (dg : EgressDatagram) (after : N) (out : list EgressDatagram) : M (list EgressDatagram) :=
  s ← get;
  let ' (evicted, q) := match scheduled_egress s with
                        | oldest :: q => if MAX_JITTER_QUEUE <=? length (oldest :: q) then ([datagram oldest], q)
                                         else ([], oldest :: q)
                        | [] => ([], [])
                        end in
  let idx := match rposition (fun x => (deliver_after_ms x <=? after)%N) q with Some pos => pos + 1 | None => 0 end in
  modify (fun s => s <| scheduled_egress := take idx q ++ mkScheduled after dg :: drop idx q |>) ;;
  mret (out ++ evicted).

(** The loop of [apply_egress_jitter]: [dgs] zipped with [are_data]. *)
Fixpoint jitter_loop (jitter_max now_ms : N) (dgs : list EgressDatagram) (are_data : list bool) (immediate : list EgressDatagram) :
    M (list EgressDatagram) :=
  match dgs, are_data with
  | dg :: dgs, is_data :: are_data =>
      immediate ← (if negb is_data then mret (immediate ++ [dg])
                   else
                     delta ← gen_range 0 jitter_max;
                     if (delta =? 0)%N then mret (immediate ++ [dg])
                     else queue_scheduled_egress dg (sat_add64 now_ms delta) immediate);
      jitter_loop jitter_max now_ms dgs are_data immediate
  | _, _ => mret immediate
  end.

Definition apply_egress_jitter (dgs : list EgressDatagram) (are_data : list bool) (now_ms : N) : M (list EgressDatagram) :=
  s ← get;
  let jitter_max := jitter_max_ms (traffic_defense s) in
  if (jitter_max =? 0)%N then
    match scheduled_egress s with [] => mret dgs | _ => drain_scheduled_egress now_ms dgs end
  else
    immediate ← jitter_loop jitter_max now_ms dgs are_data [];
    drain_scheduled_egress now_ms immediate.

Definition is_data_dg (d : EgressDatagram) : bool :=
  match bytes d with b :: _ => is_type b Data | [] => false end.

Definition obf_egress_with_jitter (dgs : list EgressDatagram) (now_ms : N) : M (list EgressDatagram) :=
  let are_data := map is_data_dg dgs in
  dgs ← obf_egress dgs;
  apply_egress_jitter dgs are_data now_ms.

Definition jitter_unobfuscated_egress (dgs : list EgressDatagram) (now_ms : N) : M (list EgressDatagram) :=
  apply_egress_jitter dgs (map is_data_dg dgs) now_ms.

End Obfs.
End Obfs.

Module Jitter.
Import Pm Tbl Obfs.
Section Jitter.
Context {snow : Snow} {kem : MlKem} {aead : Sess.Aead} {D T : Type} {MP : ManagedPlane D} {RV : Rendezvous T}.
Context {blake : Blake2s} {sip : SipHash24} {os : Os}.
Notation PeerManager := (PeerManager D T).
Notation M := (M PeerManager).
Implicit Types s : PeerManager.

Definition waiting (q : list ScheduledDatagram) : list EgressDatagram := map datagram q.

(** ** Leaving the queue *)

Lemma pop_due_split now q : let ' (out, rest) := pop_due now q in waiting q = out ++ waiting rest /\ rest ⊆ q.
Proof.
  induction q as [|x q IH]; cbn [pop_due]; [done|]. destruct (due now x); [|done].
  destruct (pop_due now q) as [out rest]. destruct IH as [E Hi]. unfold waiting in *. cbn [map app]. rewrite E. split; [done|]. set_solver.
Qed.

Lemma filter_split {A} (f : A -> bool) (l : list A) : List.filter f l ++ List.filter (fun x => negb (f x)) l ≡ₚ l.
Proof.
  induction l as [|x l IH]; [done|]. cbn [List.filter]. destruct (f x); cbn [negb app].
  - by rewrite IH.
  - by rewrite <- Permutation_middle, IH.
Qed.

Lemma drain_conserves now out s s' res :
  drain_scheduled_egress now out s = Ret (s', res) ->
  res ++ waiting (scheduled_egress s') ≡ₚ out ++ waiting (scheduled_egress s) /\
  Forall (fun x => due now x = false) (scheduled_egress s') /\ scheduled_egress s' ⊆ scheduled_egress s.
Proof.
  unfold drain_scheduled_egress, mbind, M_bind, get. cbn [rbind]. pose proof (pop_due_split now (scheduled_egress s)) as Hp.
  destruct (pop_due now (scheduled_egress s)) as [popped rest]. destruct Hp as [Ep Hi].
  destruct (existsb (due now) rest) eqn:Ee; unfold modify, mret, M_ret; cbn [rbind]; intros [= <- <-]; cbn; rewrite Ep.
  - split; [|split].
    + rewrite <- !app_assoc. do 2 f_equiv. unfold waiting. rewrite <- map_app. apply fmap_Permutation, filter_split.
    + apply Forall_forall. intros x Hx. apply list_elem_of_In, filter_In in Hx as [_ Hx]. by apply negb_true_iff in Hx.
    + intros x Hx. apply Hi. apply list_elem_of_In, filter_In in Hx as [Hx _]. by apply list_elem_of_In.
  - rewrite app_nil_r, <- app_assoc. split; [done|]. split; [|done]. apply Forall_forall. intros x Hx.
    destruct (due now x) eqn:E; [|done]. assert (existsb (due now) rest = true) as C by (apply existsb_exists; exists x; split; [by apply list_elem_of_In|done]).
    congruence.
Qed.

(** ** Entering it *)

Lemma queue_conserves dg after out s s' res :
  queue_scheduled_egress dg after out s = Ret (s', res) ->
  res ++ waiting (scheduled_egress s') ≡ₚ out ++ dg :: waiting (scheduled_egress s) /\
  scheduled_egress s' ⊆ mkScheduled after dg :: scheduled_egress s /\ traffic_defense s' = traffic_defense s.
Proof.
  unfold queue_scheduled_egress, mbind, M_bind, get. cbn [rbind].
  set (x := match scheduled_egress s with oldest :: q => _ | [] => _ end).
  assert (x.1 ++ waiting x.2 = waiting (scheduled_egress s) /\ x.2 ⊆ scheduled_egress s) as [Hx Hi].
  { unfold x. destruct (scheduled_egress s) as [|y q]; [done|]. destruct (_ <=? _); (split; [done|set_solver]). }
  destruct x as [evicted q]. cbn [fst snd] in *. set (idx := match _ with Some pos => _ | None => _ end).
  unfold modify, mret, M_ret. cbn [rbind]. intros [= <- <-]. cbn. split; [|split; [|done]].
  - rewrite <- Hx, <- app_assoc. f_equiv. unfold waiting. rewrite map_app. cbn [map datagram].
    rewrite <- Permutation_middle, <- map_app, take_drop. by rewrite Permutation_middle.
  - intros y [Hy|[->|Hy]%elem_of_cons]%elem_of_app; [|by left|]; right; apply Hi; rewrite <- (take_drop idx q); set_solver.
Qed.

(** ** The loop *)

Lemma gen_range_draw lo hi s s' n :
  gen_range lo hi s = Ret (s', n) -> scheduled_egress s' = scheduled_egress s /\ traffic_defense s' = traffic_defense s /\
  exists g, XorShift64.gen_range (junk_rng s) lo hi = Ret (n, g).
Proof.
  unfold gen_range, mbind, M_bind, get, lift. cbn [rbind]. destruct (XorShift64.gen_range _ _ _) as [[v g]|]; [|done]. cbn [rbind].
  unfold modify, mret, M_ret. cbn [rbind]. intros [= <- <-]. cbn. eauto.
Qed.

Lemma draw_le g hi v g' : XorShift64.gen_range g 0 hi = Ret (v, g') -> (v <= hi)%N.
Proof.
  unfold XorShift64.gen_range. destruct (N.leb_spec hi 0); [intros [= <- _]; lia|].
  destruct (N.eqb_spec (wrap64 (hi - 0 + 1)) 0) as [|Hs]; [done|]. destruct (XorShift64.next_u64 g) as [x y]. intros [= <- _].
  assert (wrap64 (hi - 0 + 1) <= hi - 0 + 1)%N by (apply N.Div0.mod_le). pose proof (N.mod_lt x _ Hs). lia.
Qed.

Lemma loop_conserves jitter_max now dgs are immediate s s' res :
  length dgs <= length are -> jitter_loop jitter_max now dgs are immediate s = Ret (s', res) ->
  res ++ waiting (scheduled_egress s') ≡ₚ immediate ++ dgs ++ waiting (scheduled_egress s) /\
  forall x, x ∈ scheduled_egress s' -> x ∈ scheduled_egress s \/ (deliver_after_ms x <= now + jitter_max)%N.
Proof.
  revert are immediate s. induction dgs as [|dg dgs IH]; intros are immediate s Hl; cbn [jitter_loop].
  { intros [= <- <-]. split; [done|]. auto. }
  destruct are as [|is_data are]; cbn [length] in Hl; [lia|]. unfold mbind at 1, M_bind at 1.
  match goal with |- rbind ?m _ = _ -> _ => destruct m as [[s1 imm1]|] eqn:E1; [|done] end. cbn [rbind]. intros E2.
  apply IH in E2 as [HP HQ]; [|lia].
  assert (imm1 ++ waiting (scheduled_egress s1) ≡ₚ immediate ++ dg :: waiting (scheduled_egress s) /\
    forall x, x ∈ scheduled_egress s1 -> x ∈ scheduled_egress s \/ (deliver_after_ms x <= now + jitter_max)%N) as [HP1 HQ1].
  { destruct is_data; cbn [negb] in E1.
    2: { injection E1 as <- <-. rewrite <- app_assoc. split; [done|]. auto. }
    unfold mbind at 1, M_bind at 1 in E1. destruct (gen_range 0 jitter_max s) as [[s2 delta]|] eqn:Eg; [|done]. cbn [rbind] in E1.
    apply gen_range_draw in Eg as (Es & _ & g & Hg). destruct (delta =? 0)%N.
    { injection E1 as <- <-. rewrite Es, <- app_assoc. split; [done|]. auto. }
    apply queue_conserves in E1 as (H1 & H2 & _). rewrite Es in H1, H2. split; [done|]. intros x Hx%H2.
    apply elem_of_cons in Hx as [->|Hx]; [right|by left]. cbn. apply draw_le in Hg. unfold sat_add64, sat_add. lia. }
  split.
  - rewrite HP, (Permutation_app_comm dgs), app_assoc, HP1. rewrite <- app_assoc. f_equiv. cbn [app]. f_equiv. apply Permutation_app_comm.
  - intros x [Hx|Hx]%HQ; [by apply HQ1|by right].
Qed.

(** Jitter delays datagrams and does nothing else: of the datagrams handed
    over and those that waited, each is either sent now or waits, once; what is
    due is sent; and what waits was waiting or leaves within the configured
    maximum. *)
Theorem jitter_conserves dgs are now s s' out :
  length dgs <= length are -> apply_egress_jitter dgs are now s = Ret (s', out) ->
  out ++ waiting (scheduled_egress s') ≡ₚ dgs ++ waiting (scheduled_egress s) /\
  Forall (fun x => (now < deliver_after_ms x)%N) (scheduled_egress s') /\
  (forall x, x ∈ scheduled_egress s' ->
     x ∈ scheduled_egress s \/ (deliver_after_ms x <= now + jitter_max_ms (traffic_defense s))%N).
Proof.
  intros Hl. unfold apply_egress_jitter, mbind at 1, M_bind at 1, get at 1. cbn [rbind].
  assert (forall x, due now x = false -> (now < deliver_after_ms x)%N) as Hdue by (intros x Hx; by apply N.leb_gt in Hx).
  destruct (jitter_max_ms (traffic_defense s) =? 0)%N.
  - destruct (scheduled_egress s) as [|y q] eqn:Eq.
    { intros [= <- <-]. rewrite Eq. split; [done|]. split; [constructor|]. auto. }
    intros (H1 & H2 & H3)%drain_conserves. rewrite Eq in H1, H3. split; [done|]. split; [by eapply Forall_impl|]. auto.
  - unfold mbind at 1, M_bind at 1. destruct (jitter_loop _ _ _ _ _ s) as [[s1 imm]|] eqn:E1; [|done]. cbn [rbind].
    apply loop_conserves in E1 as [HP HQ]; [|done]. intros (H1 & H2 & H3)%drain_conserves.
    split; [by rewrite H1, HP|]. split; [by eapply Forall_impl|]. intros x Hx. by apply HQ, H3.
Qed.

End Jitter.
End Jitter.
