(* ===== verification/PmRekey.v ===== *)
(** * The peer manager: rekeying

    Models bin/yipd/src/peer_manager/rekey.rs, with the checks of an initiation
    and of a peer's certificate it shares with the cold start (handshake.rs)
    and the relay wrapper (relay.rs).  The handlers use the epoch operations of
    EpochSet, over which EpochProtocol proves that a rekey never strands the
    peers; PmRefinesRun shows which steps of the peer machine they take. *)

From Stdlib Require Strings.Byte.
From Stdlib Require Import NArith Lia.
From stdpp Require Import base numbers gmap list.
From S2P Require Import Prelude StateM Session DataPlane NetAddr MemberCodec MemberVerify Directory Obf RdvClient EpochSet PathState Noise Metrics PmState PmTable.

Local Open Scope nat_scope.

Module Rekeys.
Import Pm Tbl.
Section Rekeys.
Context {snow : Snow} {kem : MlKem} {aead : Sess.Aead} {D T : Type} {MP : ManagedPlane D} {RV : Rendezvous T}.
Context {blake : Blake2s} {ed : Ed25519} {iter : HashIter} {os : Os}.
Notation PeerManager := (PeerManager D T).
Notation Peer := (Peer D).
Notation M := (M PeerManager).
Implicit Types (s : PeerManager) (p : Peer).

(** ** Shared steps *)

Definition udp_or_none (pkts : list EgressDatagram) : DispatchOut := match pkts with [] => OutNone | _ => OutUdp pkts end.

Definition relay_wrap (idx : nat) (raw : list u8) : M (option EgressDatagram) :=
  p ← peer_at idx;
  s ← get;
  match rendezvous s with
  | None => mret None
  | Some r => dg ← lift (RdvClient.relay r (local_node_id s) (node p) raw); mret (Some dg)
  end.

(** Wrap each of these packets for the relay. *)
Definition relay_wrap_all (idx : nat) (raws : list (list u8)) : M (list EgressDatagram) :=
  mconcat (fun raw => d ← relay_wrap idx raw; mret (option_list d)) raws.

(** The certificate we present; empty without membership. *)
Definition own_cert_payload : M (list u8) :=
  s ← get; match membership s with Some m => lift (Dir.own_cert_bytes m) | None => mret [] end.

Definition responder_cert_ok (payload peer_pub : list u8) : M bool :=
  s ← get;
  match membership s with
  | None => mret true
  | Some m =>
      match cert_decode payload with
      | None => mret false
      | Some c => now ← now_secs; lift (Dir.member_verify_cert os_skew m c peer_pub now)
      end
  end.

(** [!self.is_root(pk) && !self.responder_cert_ok(payload, pk)], negated. *)
Definition cert_admits (payload pk : list u8) : M bool :=
  s ← get; if is_root s pk then mret true else responder_cert_ok payload pk.

Definition accept_fresh_init s p (ts : list u8) : bool :=
  match last_accepted_init_ts p with
  | None => Hs.label_lt (boot_floor_ts s) ts
  | Some last => Hs.label_lt last ts
  end.

Definition retry_interval : M N :=
  s ← get; match obf_key s with Some _ => jitter_ms HANDSHAKE_RETRY_MS | None => mret HANDSHAKE_RETRY_MS end.

(** A fresh initiation toward [pk]: the label and our certificate as payload. *)
Definition make_init (pk : list u8) : M (result (Hs.Handshake * list u8) Hs.HsError) :=
  cert ← own_cert_payload;
  w ← wall_ns;
  r ← draw;
  r' ← draw;
  s ← get;
  mret (Hs.start_initiator r r' (local_priv s) pk (Hs.frame_init_payload w cert)).

(** Seal the packets that waited for the session. *)
Definition drain_pending (idx : nat) (dp : D) (pending : list (list u8)) (now_ms : N) : M (D * list EgressDatagram) :=
  fold_left (fun acc inner =>
    x ← acc;
    let n := N.of_nat (length inner) in
    upd_peer idx (fun p => p <| tx_bytes := wrap64 (tx_bytes p + n) |> <| tx_packets := wrap64 (tx_packets p + 1) |>) ;;
    sample (Metrics.Tx n 1) ;;
    y ← lift (mp_on_tun x.1 inner now_ms);
    sample (Metrics.FecTx (N.of_nat (length y.2))) ;;
    mret (y.1, x.2 ++ y.2)) pending (mret (dp, [])).

(** [mem::take(&mut self.peers[idx].pending_tun)] *)
Definition take_pending (idx : nat) : M (list (list u8)) :=
  p ← peer_at idx; upd_peer idx (fun p => p <| pending_tun := [] |>) ;; mret (pending_tun p).

(** ** The handlers *)

Definition push_rekey_egress (idx : nat) (dg : EgressDatagram) (via_relay : bool) : M (list EgressDatagram) :=
  if via_relay then d ← relay_wrap idx (bytes dg); mret (option_list d) else mret [dg].

(** The peer's own state is taken out of the table during a tick; [e] is its
    session. *)
Definition drive_rekey_schedule (idx : nat) (rel : bool) (e : Epochs D) (now_ms : N) : M (Epochs D * list EgressDatagram) :=
  s ← get;
  p ← peer_at idx;
  let send target pkt := if rel then d ← relay_wrap idx pkt; mret (option_list d) else mret [mkEgress 0 target pkt] in
  match rekey e with
  | None =>
      let is_glare_winner := (from_be_bytes (local_pub s) <? from_be_bytes (pubkey p))%N in
      if negb (Epochs.needs_rekey e now_ms is_glare_winner (rekey_interval_ms s)) then mret (e, [])
      else
        match if rel then Some (server_addr s) else endpoint p with
        | None => mret (e, [])
        | Some target =>
            x ← make_init (pubkey p);
            match x with
            | Err _ => mret (e, [])
            | Ok (h, pkt) =>
                retry ← retry_interval;
                out ← send target pkt;
                mret (Epochs.set_rekey e (Some (mkRekey h pkt now_ms now_ms retry target)), out)
            end
        end
  | Some rk =>
      if (HANDSHAKE_TOTAL_MS <=? now_ms - started_ms rk)%N then mret (Epochs.set_rekey e None, [])
      else if (now_ms - last_sent_ms rk <? retry_ms rk)%N then mret (e, [])
      else
        out ← send (target rk) (init_pkt rk);
        retry ← retry_interval;
        mret (Epochs.set_rekey e (Some (mkRekey (hs rk) (init_pkt rk) (started_ms rk) now_ms retry (target rk))), out)
  end.

Definition rekey_init_core (idx : nat) (est : Hs.Established) (resp_pkt init_eph init_ts : list u8)
    (direct_src : SocketAddr) (via_relay : bool) : M DispatchOut :=
  s ← get;
  let peer_addr := if via_relay then server_addr s else direct_src in
  let reply pkt := out ← push_rekey_egress idx (mkEgress 0 peer_addr pkt) via_relay; mret (udp_or_none out) in
  p ← peer_at idx;
  if bool_decide (cached_resp_init_eph p = Some init_eph) then
    match cached_resp p with Some resp => reply resp | None => mret OutNone end
  else
    match state p with
    | Established e =>
        match Epochs.next_cached_resp_for e init_eph with
        | Some cached => reply cached
        | None =>
            if negb (accept_fresh_init s p init_ts) then mret OutNone
            else
              upd_peer idx (fun p => p <| state := Established (Epochs.install_next e (new_plane s est peer_addr) init_eph resp_pkt) |>
                                       <| last_accepted_init_ts := Some init_ts |>) ;;
              reply resp_pkt
        end
    | _ => panic
    end.

Definition rekey_resp_core (idx : nat) (dg : list u8) (now_ms : N) (via_relay : bool) : M DispatchOut :=
  p ← peer_at idx;
  match state p with
  | Established e =>
      match rekey e with
      | None => mret OutNone
      | Some rk =>
          let e := Epochs.set_rekey e None in
          set_epochs idx e ;;
          s ← get;
          let peer_addr := if via_relay then server_addr s else target rk in
          match Hs.read_response (hs rk) dg with
          | Err _ => mret OutNone
          | Ok (est, payload) =>
              ok ← cert_admits payload (pubkey p);
              if negb ok then mret OutNone
              else
                match cert_decode payload with
                | Some c => upd_peer idx (fun p => p <| admitted_cert_not_after := Some (not_after c) |>)
                | None => mret tt
                end ;;
                upd_peer idx (fun p => p <| rtt_ms := Some (wrap32 (now_ms - last_sent_ms rk)) |>) ;;
                let tag := Hs.conn_tag_from_keys (Hs.auth_key est) (Hs.hp_key est) in
                let dp := new_plane s est peer_addr in
                pending ← take_pending idx;
                x ← match pending with
                    | [] => lift (mp_on_tun dp [] now_ms)
                    | _ => drain_pending idx dp pending now_ms
                    end;
                out ← mconcat (fun d => push_rekey_egress idx d via_relay) x.2;
                let old_tag := mp_conn_tag (current e) in
                let e := Epochs.promote_from_rekey e x.1 now_ms in
                upd_peer idx (fun p => p <| state := Established e |> <| session_obf_key := mp_obf_key (current e) |>) ;;
                modify (fun s => s <| by_tag := <[tag := idx]> (delete old_tag (by_tag s)) |>) ;;
                record_new_epoch idx ;;
                sample Metrics.Rekey ;;
                sample (Metrics.CurrentEpoch (epoch e)) ;;
                mret (udp_or_none out)
          end
      end
  | _ => panic
  end.

End Rekeys.
End Rekeys.
