(* ===== verification/PmHandshake.v ===== *)
(** * The peer manager: cold-start handshakes

    Models bin/yipd/src/peer_manager/handshake.rs: an initiation toward a peer,
    the admission of an initiation and its answer, the completion of our own. *)

From Stdlib Require Strings.Byte.
From Stdlib Require Import NArith Lia.
From stdpp Require Import base numbers gmap list.
From S2P Require Import Prelude StateM Session DataPlane NetAddr MemberCodec MemberVerify Directory Obf RdvClient EpochSet PathState Noise Metrics PmState PmTable PmObf PmRekey.

Local Open Scope nat_scope.

Definition JUNK_BURST_MIN : N := 3.
Definition JUNK_BURST_MAX : N := 12.

Module Cold.
Import Pm Tbl Obfs Rekeys.
Section Cold.
Context {snow : Snow} {kem : MlKem} {aead : Sess.Aead} {D T : Type} {MP : ManagedPlane D} {RV : Rendezvous T}.
Context {blake : Blake2s} {ed : Ed25519} {iter : HashIter} {sip : SipHash24} {os : Os}.
Notation PeerManager := (PeerManager D T).
Notation Peer := (Peer D).
Notation M := (M PeerManager).
Implicit Types (s : PeerManager) (p : Peer).

(** ** Our initiation *)

Definition begin_handshake (idx : nat) (target : SocketAddr) (via_relay : bool) (now_ms : N) : M (option (list EgressDatagram)) :=
  p ← peer_at idx;
  x ← make_init (pubkey p);
  match x with
  | Err _ => sample Metrics.HandshakeFailure ;; mret None
  | Ok (h, init_pkt) =>
      dg ← (if via_relay then relay_wrap idx init_pkt else mret (Some (mkEgress 0 target init_pkt)));
      match dg with
      | None => mret None
      | Some dg =>
          (if via_relay then upd_peer idx (fun p => p <| relay := true |>)
           else upd_peer idx (fun p => p <| endpoint := Some target |>)) ;;
          retry ← retry_interval;
          upd_peer idx (fun p => p <| state := Handshaking (mkHandshaking h now_ms now_ms retry 0 init_pkt target via_relay) |>) ;;
          s ← get;
          match obf_key s with
          | Some _ =>
              if negb via_relay then
                jc ← gen_range JUNK_BURST_MIN JUNK_BURST_MAX;
                junk ← mconcat (fun _ => b ← build_junk; mret [mkEgress 0 target b]) (List.seq 0 (N.to_nat jc));
                mret (Some (junk ++ [dg]))
              else mret (Some [dg])
          | None => mret (Some [dg])
          end
      end
  end.

Definition kind_for_stage (st : PathStage) : PathKind :=
  match st with
  | Direct => KDirect
  | Punching => KPunched
  | Relaying | Failed => KPunched
  end.

(** The two arms of a completion that differ: over the wire from [src], and
    through the relay. *)
Definition commit_direct (src : SocketAddr) p : Peer :=
  let kind := kind_for_stage (stage (path p)) in
  p <| path := Path.committed (path p) kind |> <| path_kind := Some kind |> <| relay := false |>.
Definition commit_relayed p : Peer :=
  p <| relay := true |> <| path := Path.committed (path p) KRelayed |> <| path_kind := Some KRelayed |>.

(** The end of a completion: drain what waited, enter [Established], announce
    the epoch. [ratio] is set by the direct arms only. *)
Definition establish (idx : nat) (dp : D) (set_ratio : bool) (now_ms : N) : M (list EgressDatagram) :=
  pending ← take_pending idx;
  x ← drain_pending idx dp pending now_ms;
  s ← get;
  let e : Epochs D := Epochs.new x.1 now_ms in
  let e := if set_ratio then Epochs.set_fec_repair_ratio e (pct_ratio (redundancy_pct (fec_config s))) else e in
  set_epochs idx e ;;
  record_new_epoch idx ;;
  sample Metrics.HandshakeSuccess ;;
  update_stats ;;
  mret x.2.

(** ** Their initiation *)

(** Admission: a known static key, or a certificate for it. *)
Definition admit_initiator (remote_static initiator_cert : list u8) (now_ms : N) : M (option nat) :=
  let find s := position (fun p => bool_decide (pubkey p = remote_static)) (peers s) in
  s ← get;
  match find s with
  | Some i => mret (Some i)
  | None =>
      ok ← match membership s with
           | None => mret false
           | Some m =>
               match cert_decode initiator_cert with
               | None => mret false
               | Some c => now ← now_secs; lift (Dir.member_verify_cert os_skew m c remote_static now)
               end
           end;
      if (negb ok : bool) then mret None
      else admit_member remote_static [] now_ms ;; gets find
  end.

(** The record of the initiation that built the session. *)
Definition note_init (init_ts initiator_cert resp_pkt dg : list u8) (sess_obf : option (list u8)) p : Peer :=
  p <| session_obf_key := sess_obf |> <| last_accepted_init_ts := Some init_ts |>
    <| admitted_cert_not_after := not_after <$> cert_decode initiator_cert |>
    <| cached_resp := Some resp_pkt |> <| cached_resp_init_eph := Hs.init_ephemeral dg |>.

Definition lower_key s p : bool := (from_be_bytes (local_pub s) <? from_be_bytes (pubkey p))%N.

Definition handle_handshake_init (src : SocketAddr) (dg : list u8) (now_ms : N) : M DispatchOut :=
  resp_payload ← own_cert_payload;
  r ← draw;
  r' ← draw;
  s ← get;
  match Hs.start_responder r r' (local_priv s) dg resp_payload with
  | Err _ => sample Metrics.HandshakeFailure ;; mret OutNone
  | Ok (est, resp_pkt, remote_static, initiator_payload) =>
      match Hs.parse_init_payload initiator_payload with
      | None => mret OutNone
      | Some (init_ts, initiator_cert) =>
          found ← admit_initiator remote_static initiator_cert now_ms;
          match found with
          | None => mret OutNone
          | Some idx =>
              p ← peer_at idx;
              s ← get;
              match state p with
              | Established _ =>
                  if negb (relay p) then
                    ok ← cert_admits initiator_cert remote_static;
                    if (negb ok : bool) then drop_session idx ;; mret OutNone
                    else
                      match cert_decode initiator_cert with
                      | Some c => upd_peer idx (fun p => p <| admitted_cert_not_after := Some (not_after c) |>)
                      | None => mret tt
                      end ;;
                      init_eph ← lift (rexpect (Hs.init_ephemeral dg));
                      rekey_init_core idx est resp_pkt init_eph init_ts src false
                  else mret OutNone
              | Handshaking _ | Idle =>
                  if negb (is_idle p) && lower_key s p then mret OutNone
                  else
                    ok ← cert_admits initiator_cert remote_static;
                    if (negb ok : bool) then mret OutNone
                    else if negb (accept_fresh_init s p init_ts) then mret OutNone
                    else
                      let dp := new_plane s est src in
                      upd_peer idx (fun p => note_init init_ts initiator_cert resp_pkt dg
                                               (session_obf_key_for s (Hs.hp_key est)) (p <| endpoint := Some src |>)) ;;
                      modify (fun s => s <| by_tag ::= <[mp_conn_tag dp := idx]> |>) ;;
                      upd_peer idx (commit_direct src) ;;
                      drained ← establish idx dp true now_ms;
                      mret (OutUdp (mkEgress 0 src resp_pkt :: drained))
              end
          end
      end
  end.

(** ** Their response *)

Definition rekey_pending p : bool :=
  match state p with Established e => match rekey e with Some _ => true | None => false end | _ => false end.
Definition is_handshaking p : bool := match state p with Handshaking _ => true | _ => false end.

Definition handle_handshake_resp (src : SocketAddr) (dg : list u8) (now_ms : N) : M DispatchOut :=
  s ← get;
  match position (fun p => bool_decide (endpoint p = Some src) && rekey_pending p && negb (relay p)) (peers s) with
  | Some idx => rekey_resp_core idx dg now_ms false
  | None =>
      match position (fun p => bool_decide (endpoint p = Some src) && is_handshaking p) (peers s) with
      | None => mret OutNone
      | Some idx =>
          p ← peer_at idx;
          upd_peer idx (fun p => p <| state := Idle |>) ;;
          match state p with
          | Handshaking h =>
              match Hs.read_response (h_hs h) dg with
              | Err _ => sample Metrics.HandshakeFailure ;; mret OutNone
              | Ok (est, responder_payload) =>
                  ok ← cert_admits responder_payload (pubkey p);
                  if negb ok then mret OutNone
                  else
                    let dp := new_plane s est src in
                    modify (fun s => s <| by_tag ::= <[mp_conn_tag dp := idx]> |>) ;;
                    upd_peer idx (fun p => commit_direct src
                      (p <| session_obf_key := session_obf_key_for s (Hs.hp_key est) |>
                         <| admitted_cert_not_after := not_after <$> cert_decode responder_payload |>
                         <| endpoint := Some src |>)) ;;
                    upd_peer idx (fun p => p <| rtt_ms := Some (wrap32 (now_ms - h_last_sent_ms h)) |>) ;;
                    drained ← establish idx dp true now_ms;
                    mret (udp_or_none drained)
              end
          | _ => panic
          end
      end
  end.

End Cold.
End Cold.
