(* ===== verification/PmRouting.v ===== *)
(** * The peer manager: routing

    Models bin/yipd/src/peer_manager/routing.rs: the path of an idle peer, the
    peer a packet of the tunnel goes to, the peer a datagram of the network
    belongs to, its delivery to the session, and roaming. *)

From Stdlib Require Strings.Byte.
From Stdlib Require Import NArith Lia.
From stdpp Require Import base numbers gmap list.
From S2P Require Import Prelude StateM Session DataPlane NetAddr MemberCodec MemberVerify Directory Obf RdvClient EpochSet PathState Noise Metrics PmState PmTable PmObf PmRekey PmHandshake.

Local Open Scope nat_scope.

Definition ipv6_dst (inner : list u8) : option (list u8) :=
  match inner with
  | [] => None
  | b0 :: _ =>
      if (length inner <? 40) || negb (N.shiftr (b2n b0) 4 =? 6)%N then None else Some (slice 24 40 inner)
  end.

Module Route.
Import Pm Tbl Obfs Rekeys Cold.
Section Route.
Context {snow : Snow} {kem : MlKem} {aead : Sess.Aead} {D T : Type} {MP : ManagedPlane D} {RV : Rendezvous T}.
Context {blake : Blake2s} {ed : Ed25519} {iter : HashIter} {sip : SipHash24} {os : Os}.
Notation PeerManager := (PeerManager D T).
Notation Peer := (Peer D).
Notation M := (M PeerManager).
Implicit Types (s : PeerManager) (p : Peer).

(** ** Paths *)

Definition maybe_lookup (idx : nat) (now_ms : N) : M (option EgressDatagram) :=
  p ← peer_at idx;
  let due := match last_lookup_ms p with
             | None => true
             | Some t => (LOOKUP_INTERVAL_MS <=? now_ms - t)%N
             end in
  if negb due then mret None
  else
    s ← get;
    match rendezvous s with
    | None => mret None
    | Some r =>
        dg ← lift (lookup_node r (node p));
        upd_peer idx (fun p => p <| last_lookup_ms := Some now_ms |>) ;;
        mret (Some dg)
    end.

(** [self.peers[idx].path.advance(now_ms)] *)
Definition advance_path (idx : nat) (now_ms : N) : M (PathAction SocketAddr) :=
  p ← peer_at idx;
  let x := Path.advance (path p) now_ms in
  upd_peer idx (fun p => p <| path := x.1 |>) ;;
  mret x.2.

Definition drive_path_idle (idx : nat) (now_ms : N) : M (list EgressDatagram) :=
  act ← advance_path idx now_ms;
  match act with
  | Probe a => dgs ← begin_handshake idx a false now_ms; mret (default [] dgs)
  | PathState.Relay => s ← get; dgs ← begin_handshake idx (server_addr s) true now_ms; mret (default [] dgs)
  | NeedLookup => dg ← maybe_lookup idx now_ms; mret (option_list dg)
  | PathState.Idle | NoPath => mret []
  end.

(** ** From the tunnel *)

Definition sole_peer s : option nat := if length (peers s) =? 1 then Some 0 else None.

Definition route_tun_index s (inner : list u8) : option nat :=
  match mode s with
  | L2Tap => sole_peer s
  | L3Tun =>
      match ipv6_dst inner with
      | Some d =>
          match by_addr s !! d with
          | Some idx => Some idx
          | None => match membership s with None => sole_peer s | Some _ => None end
          end
      | None => sole_peer s
      end
  end.

Definition is_tun_target_established (inner : list u8) : M bool :=
  s ← get;
  match route_tun_index s inner with
  | Some idx => p ← peer_at idx; mret (is_established p)
  | None => mret false
  end.

(** ** From the network *)

Definition route_data (src : SocketAddr) (dg : list u8) : M (option nat) :=
  s ← get;
  let by_source := position (from_endpoint src) (peers s) in
  match dg with
  | b0 :: _ =>
      if (9 <=? length dg) && is_type b0 Data then
        match by_tag s !! from_be_bytes (slice 1 9 dg) with
        | Some idx => p ← peer_at idx; mret (if is_established p then Some idx else by_source)
        | None => mret by_source
        end
      else mret by_source
  | [] => mret by_source
  end.

Definition relearn_endpoint (idx : nat) (src : SocketAddr) : M unit :=
  p ← peer_at idx;
  let move a :=
    upd_peer idx (fun p => p <| endpoint := Some a |>) ;;
    match state p with
    | Established e => e ← lift (Epochs.set_peer_addr e a); set_epochs idx e
    | _ => mret tt
    end in
  if relay p then mret tt
  else
    match endpoint p with
    | Some ep => if bool_decide (ip_of ep <> ip_of src) then move (set_ip ep (ip_of src)) else mret tt
    | None => move src
    end.

(** Open a datagram in the session [e] of peer [idx], count what the decoder
    recovered or gave up, and follow a promotion. *)
Definition open_session (idx : nat) (e : Epochs D) (dg : list u8) (now_ms : N) : M (EpochInbound EgressDatagram) :=
  x ← lift (Epochs.inbound_open e dg now_ms);
  let ' (e', opened) := x in
  set_epochs idx e' ;;
  let rec_diff := (mp_recovered (current e') - mp_recovered (current e))%N in
  let burst_diff := (mp_unrecoverable (current e') - mp_unrecoverable (current e))%N in
  when (0 <? rec_diff)%N (sample (Metrics.FecRecovered rec_diff)) ;;
  when (0 <? burst_diff)%N (sample (Metrics.FecBurstDrop burst_diff)) ;;
  when (negb (epoch e' =? epoch e)%N)
    (upd_peer idx (fun p => p <| session_obf_key := mp_obf_key (current e') |>) ;;
     sample Metrics.Rekey ;;
     sample (Metrics.CurrentEpoch (epoch e'))) ;;
  mret opened.

Definition count_rx (idx : nat) (buf : list u8) : M unit :=
  let n := N.of_nat (length buf) in
  upd_peer idx (fun p => p <| rx_bytes := wrap64 (rx_bytes p + n) |> <| rx_packets := wrap64 (rx_packets p + 1) |>) ;;
  sample (Metrics.Rx n 1).

Definition dispatch_established (idx : nat) (src : SocketAddr) (dg : list u8) (now_ms : N) : M DispatchOut :=
  p ← peer_at idx;
  match state p with
  | Established e =>
      opened ← open_session idx e dg now_ms;
      when (negb (is_none opened)) (relearn_endpoint idx src) ;;
      match opened with
      | InNone => sample (Metrics.Drop 1) ;; mret OutNone
      | InTun buf => count_rx idx buf ;; mret (OutTun buf)
      | InSend dgs => mret (OutUdp dgs)
      | InTunThenSend buf dgs => count_rx idx buf ;; mret (OutBoth buf dgs)
      end
  | _ => mret OutNone
  end.

(** The combination at the end of the fallback and of the relay path. *)
Definition out_of (tun : option (list u8)) (udp : list EgressDatagram) : DispatchOut :=
  match tun, udp with
  | Some t, [] => OutTun t
  | Some t, _ => OutBoth t udp
  | None, [] => OutNone
  | None, _ => OutUdp udp
  end.

(** Try the sessions of these peers in turn. *)
Fixpoint try_sessions (candidates : list nat) (src : SocketAddr) (dg : list u8) (now_ms : N) : M DispatchOut :=
  match candidates with
  | [] => sample (Metrics.Drop 1) ;; mret OutNone
  | idx :: candidates =>
      p ← peer_at idx;
      match state p with
      | Established e =>
          opened ← open_session idx e dg now_ms;
          let hit := match opened with
                     | InNone => None
                     | InTun buf => Some (Some buf, [])
                     | InSend dgs => Some (None, dgs)
                     | InTunThenSend buf dgs => Some (Some buf, dgs)
                     end in
          match hit with
          | None => try_sessions candidates src dg now_ms
          | Some (tun, udp) =>
              match tun with Some t => count_rx idx t | None => mret tt end ;;
              relearn_endpoint idx src ;;
              mret (out_of tun udp)
          end
      | _ => try_sessions candidates src dg now_ms
      end
  end.

Definition established_indices s : list nat :=
  omap (fun x : nat * Peer => if is_established x.2 then Some x.1 else None) (imap pair (peers s)).

Definition handle_data_or_control (src : SocketAddr) (dg : list u8) (now_ms : N) : M DispatchOut :=
  found ← route_data src dg;
  match found with
  | Some idx =>
      match dg with
      | [] => panic
      | b0 :: _ =>
          (if is_type b0 Data then upd_peer idx (fun p => p <| last_activity_ms := now_ms |>) else mret tt) ;;
          dispatch_established idx src dg now_ms
      end
  | None => s ← get; try_sessions (established_indices s) src dg now_ms
  end.

End Route.
End Route.
