(* ===== verification/PmRelay.v ===== *)
(** * The peer manager: gossip, rendezvous and relay

    Models bin/yipd/src/peer_manager/gossip.rs: gossip from established peers,
    its targets, and the periodic digest with the bootstrap toward a root; and
    bin/yipd/src/peer_manager/relay.rs: messages of the rendezvous server, and
    the handshake, data and gossip that arrive through the relay. *)

From Stdlib Require Strings.Byte.
From Stdlib Require Import NArith Lia.
From stdpp Require Import base numbers gmap list.
From S2P Require Import Prelude StateM Session DataPlane NetAddr MemberCodec MemberVerify Directory Obf RdvClient EpochSet PathState Noise Metrics PmState PmTable PmObf PmRekey PmHandshake PmRouting.

Local Open Scope nat_scope.

Module Gos.
Import Pm Tbl Obfs Rekeys Cold.
Section Gos.
Context {snow : Snow} {kem : MlKem} {aead : Sess.Aead} {D T : Type} {MP : ManagedPlane D} {RV : Rendezvous T}.
Context {blake : Blake2s} {ed : Ed25519} {iter : HashIter} {sip : SipHash24} {os : Os}.
Notation PeerManager := (PeerManager D T).
Notation Peer := (Peer D).
Notation M := (M PeerManager).
Implicit Types (s : PeerManager) (p : Peer).

(** [Gossip ++ msg] *)
Definition gossip_packet (msg : GossipMsg) : M (list u8) :=
  b ← lift (gossip_encode msg); mret (packet_byte Gossip :: b).

(** Feed a decoded message to the directory and answer, wrapped for the relay
    or to [src]. *)
Definition answer_gossip (idx : nat) (dg : list u8) (to_relay : bool) (src : SocketAddr) : M DispatchOut :=
  match gossip_decode (drop 1 dg) with
  | None => mret OutNone
  | Some msg =>
      s ← get;
      match membership s with
      | None => mret OutNone
      | Some m =>
          now ← now_secs;
          x ← lift (Dir.on_gossip os_skew m msg now);
          modify (fun s => s <| membership := Some x.1 |>) ;;
          out ← mconcat (fun reply =>
                  b ← gossip_packet reply;
                  if to_relay then d ← relay_wrap idx b; mret (option_list d) else mret [mkEgress 0 src b])
                (take MAX_GOSSIP_REPLIES x.2);
          mret (udp_or_none out)
      end
  end.

Definition on_gossip (src : SocketAddr) (dg : list u8) : M DispatchOut :=
  s ← get;
  match position (from_endpoint src) (peers s) with
  | None => mret OutNone
  | Some idx => p ← peer_at idx; answer_gossip idx dg (relay p) src
  end.

(** The relayed counterpart, for peer [idx]. *)
Definition relayed_gossip (idx : nat) (dg : list u8) : M DispatchOut :=
  p ← peer_at idx;
  s ← get;
  if is_established p then answer_gossip idx dg true (server_addr s) else mret OutNone.

Definition gossip_targets s : list (SocketAddr * option nat) :=
  let of_peer (x : nat * Peer) :=
    if is_established x.2 then
      if relay x.2 then Some (server_addr s, Some x.1)
      else match endpoint x.2 with Some ep => Some (ep, None) | None => None end
    else None in
  take MAX_GOSSIP_TARGETS
    (omap of_peer (imap pair (peers s))
     ++ match membership s with Some m => map (fun r => (r.2, None)) (roots (m_roots m)) | None => [] end).

(** The bootstrap: the first root whose address an idle peer has. *)
Fixpoint bootstrap (root_addrs : list SocketAddr) (now_ms : N) : M (list EgressDatagram) :=
  match root_addrs with
  | [] => mret []
  | a :: rest =>
      s ← get;
      match position (fun p => bool_decide (endpoint p = Some a) && is_idle p) (peers s) with
      | Some i => dgs ← begin_handshake i a false now_ms; mret (default [] dgs)
      | None => bootstrap rest now_ms
      end
  end.

(** [tick_digest], whose jitter is drawn when a digest is due. *)
Definition tick_digest (now_ms : N) : M (list GossipMsg) :=
  s ← get;
  match membership s with
  | None => mret []
  | Some m =>
      let obf_on := match obf_key s with Some _ => true | None => false end in
      let waits := match last_digest_ms m with Some last => (now_ms - last <? digest_ms m)%N | None => false end in
      j ← (if obf_on && negb waits then jitter_ms GOSSIP_INTERVAL_MS else mret GOSSIP_INTERVAL_MS);
      let x := Dir.tick_digest m now_ms obf_on j in
      modify (fun s => s <| membership := Some x.1 |>) ;;
      mret x.2
  end.

Definition tick_gossip (now_ms : N) : M (list EgressDatagram) :=
  s ← get;
  let have_established := existsb is_established (peers s) in
  digests ← tick_digest now_ms;
  out ← mconcat (fun digest =>
          b ← gossip_packet digest;
          s ← get;
          mconcat (fun t : SocketAddr * option nat =>
            match t.2 with
            | Some i => d ← relay_wrap i b; mret (option_list d)
            | None => mret [mkEgress 0 t.1 b]
            end) (gossip_targets s)) digests;
  if have_established then mret out
  else
    s ← get;
    boot ← bootstrap (match membership s with Some m => map snd (roots (m_roots m)) | None => [] end) now_ms;
    mret (out ++ boot).

End Gos.
End Gos.

Module Rel.
Import Pm Tbl Obfs Rekeys Cold Route Gos.
Section Rel.
Context {snow : Snow} {kem : MlKem} {aead : Sess.Aead} {D T : Type} {MP : ManagedPlane D} {RV : Rendezvous T}.
Context {blake : Blake2s} {ed : Ed25519} {iter : HashIter} {sip : SipHash24} {os : Os}.
Notation PeerManager := (PeerManager D T).
Notation Peer := (Peer D).
Notation M := (M PeerManager).
Implicit Types (s : PeerManager) (p : Peer).

Definition relayed_handshake_init (idx : nat) (dg : list u8) (now_ms : N) : M DispatchOut :=
  resp_payload ← own_cert_payload;
  r ← draw;
  r' ← draw;
  s ← get;
  match Hs.start_responder r r' (local_priv s) dg resp_payload with
  | Err _ => mret OutNone
  | Ok (est, resp_pkt, remote_static, initiator_payload) =>
      p ← peer_at idx;
      if bool_decide (remote_static <> pubkey p) then mret OutNone
      else
        match Hs.parse_init_payload initiator_payload with
        | None => mret OutNone
        | Some (init_ts, initiator_cert) =>
            match state p with
            | Established _ =>
                match Hs.init_ephemeral dg with
                | None => mret OutNone
                | Some init_eph =>
                    ok ← cert_admits initiator_cert remote_static;
                    if (negb ok : bool) then drop_session idx ;; mret OutNone
                    else
                      let adopt := negb (relay p) && bool_decide (last_accepted_init_ts p <> None)
                                   && bool_decide (cached_resp_init_eph p <> Some init_eph)
                                   && accept_fresh_init s p init_ts in
                      when adopt (upd_peer idx (fun p => p <| relay := true |>)) ;;
                      if relay p || adopt
                      then rekey_init_core idx est resp_pkt init_eph init_ts (server_addr s) true
                      else mret OutNone
                end
            | Handshaking _ | Idle =>
                if negb (is_idle p) && lower_key s p then mret OutNone
                else
                  ok ← cert_admits initiator_cert remote_static;
                  if (negb ok : bool) then mret OutNone
                  else if negb (accept_fresh_init s p init_ts) then mret OutNone
                  else
                    let dp := new_plane s est (server_addr s) in
                    upd_peer idx (fun p => note_init init_ts initiator_cert resp_pkt dg
                                             (session_obf_key_for s (Hs.hp_key est)) p) ;;
                    upd_peer idx commit_relayed ;;
                    modify (fun s => s <| by_tag ::= <[mp_conn_tag dp := idx]> |>) ;;
                    first ← relay_wrap idx resp_pkt;
                    drained ← establish idx dp false now_ms;
                    rest ← relay_wrap_all idx (map Dp.bytes drained);
                    mret (OutUdp (option_list first ++ rest))
            end
        end
  end.

Definition relayed_handshake_resp (idx : nat) (dg : list u8) (now_ms : N) : M DispatchOut :=
  p ← peer_at idx;
  if rekey_pending p && relay p then rekey_resp_core idx dg now_ms true
  else
    match state p with
    | Handshaking h =>
        upd_peer idx (fun p => p <| state := Idle |>) ;;
        s ← get;
        match Hs.read_response (h_hs h) dg with
        | Err _ => sample Metrics.HandshakeFailure ;; mret OutNone
        | Ok (est, responder_payload) =>
            ok ← cert_admits responder_payload (pubkey p);
            if (negb ok : bool) then mret OutNone
            else
              let dp := new_plane s est (server_addr s) in
              modify (fun s => s <| by_tag ::= <[mp_conn_tag dp := idx]> |>) ;;
              upd_peer idx (fun p => commit_relayed
                (p <| session_obf_key := session_obf_key_for s (Hs.hp_key est) |>
                   <| admitted_cert_not_after := not_after <$> cert_decode responder_payload |>)) ;;
              upd_peer idx (fun p => p <| rtt_ms := Some (wrap32 (now_ms - h_last_sent_ms h)) |>) ;;
              drained ← establish idx dp false now_ms;
              out ← relay_wrap_all idx (map Dp.bytes drained);
              mret (udp_or_none out)
        end
    | _ => mret OutNone
    end.

Definition relayed_data (idx : nat) (dg : list u8) (now_ms : N) : M DispatchOut :=
  (match dg with
   | b0 :: _ => if is_type b0 Data then upd_peer idx (fun p => p <| last_activity_ms := now_ms |>) else mret tt
   | [] => mret tt
   end) ;;
  p ← peer_at idx;
  match state p with
  | Established e =>
      opened ← open_session idx e dg now_ms;
      x ← match opened with
          | InNone => sample (Metrics.Drop 1) ;; mret (None, [])
          | InTun buf => count_rx idx buf ;; mret (Some buf, [])
          | InSend dgs => mret (None, dgs)
          | InTunThenSend buf dgs => count_rx idx buf ;; mret (Some buf, dgs)
          end;
      out ← relay_wrap_all idx (map Dp.bytes x.2);
      mret (out_of x.1 out)
  | _ => mret OutNone
  end.

Definition on_relayed (src_node payload : list u8) (now_ms : N) : M DispatchOut :=
  match payload with
  | [] => mret OutNone
  | b0 :: _ =>
      s ← get;
      match by_node s !! src_node with
      | None => mret OutNone
      | Some idx =>
          p ← peer_at idx;
          when (negb (is_established p)) (upd_peer idx (fun p => p <| relay := true |>)) ;;
          if is_type b0 HandshakeInit then relayed_handshake_init idx payload now_ms
          else if is_type b0 HandshakeResp then relayed_handshake_resp idx payload now_ms
          else if match membership s with Some _ => true | None => false end && is_type b0 Gossip
               then relayed_gossip idx payload
          else relayed_data idx payload now_ms
      end
  end.

Definition on_rdv (dg : list u8) (now_ms : N) : M DispatchOut :=
  s ← get;
  match rendezvous s with
  | None => mret OutNone
  | Some r =>
      match parse r dg with
      | PeerCandidate nid a record =>
          record_ok ← match membership s, record with
                      | Some m, Some rc =>
                          if bool_decide (node_id rc = nid) then now ← now_secs; lift (Dir.verify_record os_skew m rc now)
                          else mret false
                      | _, _ => mret true
                      end;
          if (negb record_ok : bool) then mret OutNone
          else
            match by_node s !! nid with
            | None => mret OutNone
            | Some idx =>
                p ← peer_at idx;
                when (negb (is_established p))
                  (match membership s, record with
                   | Some _, Some rc =>
                       upd_peer idx (fun p => p <| path := fold_left (fun pth ep => Path.on_peer_candidate pth ep now_ms)
                                                             (rev (endpoints rc)) (Path.on_peer_candidate (path p) a now_ms) |>)
                   | _, _ => upd_peer idx (fun p => p <| path := Path.on_peer_candidate (path p) a now_ms |>)
                   end) ;;
                mret OutNone
            end
      | PunchTo nid a =>
          match by_node s !! nid with
          | None => mret OutNone
          | Some idx =>
              p ← peer_at idx;
              if is_established p then mret OutNone
              else
                verified ← match membership s with
                           | Some m => if is_static p then mret true
                                       else now ← now_secs; lift (Dir.member_cert_valid os_skew m (pubkey p) now)
                           | None => mret true
                           end;
                if (negb verified : bool) then mret OutNone
                else
                  upd_peer idx (fun p => p <| path := Path.on_peer_candidate (path p) a now_ms |>) ;;
                  if is_idle p then
                    dgs ← begin_handshake idx a false now_ms;
                    mret (match dgs with Some l => OutUdp l | None => OutNone end)
                  else mret OutNone
          end
      | Relayed src payload => on_relayed src payload now_ms
      | PeerNotFound _ | Ignored => mret OutNone
      end
  end.

End Rel.
End Rel.
