(* ===== verification/PmDispatch.v ===== *)
(** * The peer manager: dispatch

    Models the [Dispatch] implementation of bin/yipd/src/peer_manager/mod.rs:
    datagrams from the network, packets from the tunnel, and the periodic tick,
    with and without obfuscation; and the control commands that change the
    manager (bin/yipd/src/control.rs), which the tick takes as an argument. *)

From Stdlib Require Strings.Byte.
From Stdlib Require Import NArith Lia Strings.String.
From stdpp Require Import base numbers gmap list.
From S2P Require Import Prelude StateM Session DataPlane NetAddr MemberCodec MemberVerify Directory Obf RdvClient EpochSet PathState Noise Metrics SplitTunnel PmState PmTable PmObf PmRekey PmHandshake PmRouting PmRelay.

Local Open Scope nat_scope.

(** The commands of the control socket that change the manager, with their
    keys, addresses and presets parsed; a CIDR block comes with the result of
    [parse_cidr]. *)
Inductive ControlCmd :=
| AddPeer (cfg : PeerConfig) (transport : option string)
| RemovePeer (pk : list u8)
| SetTransport (pk : list u8) (transport : string)
| CertRenew
| SetFecConfig (preset : option FecPreset) (redundancy data parity : option N)
| SetDaitaConfig (base : option TrafficDefenseConfig) (bkts : option (list nat)) (cover burst jitter : option N)
| SetSplitTunnel (on : option bool) (md : option SplitMode) (cs : option (list (string * option (IpAddr * N))))
    (ds apps_ : option (list string)).

Inductive ControlResponse := Ack | CtlErr (error : string).

(** [sort_unstable] on lengths. *)
Fixpoint insert_sorted (x : nat) (l : list nat) : list nat :=
  match l with
  | [] => [x]
  | y :: l' => if x <=? y then x :: l else y :: insert_sorted x l'
  end.
Definition sort_buckets (l : list nat) : list nat := fold_right insert_sorted [] l.

Module Disp.
Import Pm Tbl Obfs Rekeys Cold Route Gos Rel.
Section Disp.
Context {snow : Snow} {kem : MlKem} {aead : Sess.Aead} {D T : Type} {MP : ManagedPlane D} {RV : Rendezvous T}.
Context {blake : Blake2s} {ed : Ed25519} {iter : HashIter} {sip : SipHash24} {os : Os}.
Notation PeerManager := (PeerManager D T).
Notation Peer := (Peer D).
Notation M := (M PeerManager).
Implicit Types (s : PeerManager) (p : Peer).

(** ** Datagrams from the network *)

Definition on_udp_dispatch (src : SocketAddr) (dg : list u8) (now_ms : N) : M DispatchOut :=
  match dg with
  | [] => sample (Metrics.Drop 1) ;; mret OutNone
  | b0 :: _ =>
      s ← get;
      if match rendezvous s with Some r => bool_decide (src = RdvClient.server_addr r) | None => false end
      then on_rdv dg now_ms
      else if is_type b0 HandshakeInit then handle_handshake_init src dg now_ms
      else if is_type b0 HandshakeResp then handle_handshake_resp src dg now_ms
      else if match membership s with Some _ => true | None => false end && is_type b0 Gossip then on_gossip src dg
      else handle_data_or_control src dg now_ms
  end.

Definition own_dispatch (o : DispatchOut) : option (list u8) * list EgressDatagram :=
  match o with
  | OutNone => (None, [])
  | OutTun b => (Some b, [])
  | OutUdp e => (None, e)
  | OutBoth b e => (Some b, e)
  end.

Definition finish_wrapped (tun : option (list u8)) (udp : list EgressDatagram) (now_ms : N) : M DispatchOut :=
  udp ← obf_egress udp;
  s ← get;
  udp ← match scheduled_egress s with [] => mret udp | _ => drain_scheduled_egress now_ms udp end;
  mret (out_of tun udp).

Definition on_udp (src : SocketAddr) (dg : list u8) (now_ms : N) : M DispatchOut :=
  s ← get;
  match obf_key s with
  | None =>
      match scheduled_egress s with
      | [] => on_udp_dispatch src dg now_ms
      | _ =>
          o ← on_udp_dispatch src dg now_ms;
          let ' (tun, udp) := own_dispatch o in
          udp ← drain_scheduled_egress now_ms udp;
          mret (out_of tun udp)
      end
  | Some key =>
      match dg with
      | [] => sample (Metrics.Drop 1) ;; mret OutNone
      | _ =>
          if match rendezvous s with Some r => bool_decide (src = RdvClient.server_addr r) | None => false end then
            match Obf.deobfuscate key dg with
            | None => mret OutNone
            | Some (ptype, body) =>
                if bool_decide (ptype <> RDV_TYPE) then mret OutNone
                else
                  o ← on_rdv body now_ms;
                  let ' (tun, udp) := own_dispatch o in finish_wrapped tun udp now_ms
            end
          else
            match deobf_ingress s src dg with
            | None => sample (Metrics.Drop 1) ;; mret OutNone
            | Some plain =>
                o ← on_udp_dispatch src plain now_ms;
                let ' (tun, udp) := own_dispatch o in finish_wrapped tun udp now_ms
            end
      end
  end.

(** ** Packets from the tunnel *)

(** The bypass of the split tunnel, and its counters. *)
Definition split_gate (inner : list u8) : M bool :=
  s ← get;
  let n := N.of_nat (length inner) in
  match Split.extract_ip_dst inner with
  | Some d =>
      if Split.should_bypass (split_tunnel s) d then
        modify (fun s => s <| split_tunnel := Split.record_bypassed (split_tunnel s) n |>) ;;
        sample (Metrics.SplitBypass n 1) ;;
        mret true
      else
        modify (fun s => s <| split_tunnel := Split.record_routed (split_tunnel s) n |>) ;;
        sample (Metrics.SplitOverlay n 1) ;;
        mret false
  | None =>
      modify (fun s => s <| split_tunnel := Split.record_routed (split_tunnel s) n |>) ;;
      sample (Metrics.SplitOverlay n 1) ;;
      mret false
  end.

(** The peer of a packet: routed, or resolved in the directory and admitted. *)
Definition route_or_resolve (inner : list u8) (now_ms : N) : M (option nat) :=
  s ← get;
  match route_tun_index s inner with
  | Some i => mret (Some i)
  | None =>
      let resolved := match membership s, ipv6_dst inner with
                      | Some m, Some d => Dir.resolve m d
                      | _, _ => None
                      end in
      match resolved with
      | Some info =>
          admit_member (Directory.pubkey info) (mi_endpoints info) now_ms ;;
          s ← get;
          match route_tun_index s inner with
          | Some i => mret (Some i)
          | None => sample (Metrics.Drop 1) ;; mret None
          end
      | None => sample (Metrics.Drop 1) ;; mret None
      end
  end.

Definition on_tun_dispatch (inner : list u8) (now_ms : N) : M (list EgressDatagram) :=
  bypass ← split_gate inner;
  if (bypass : bool) then mret []
  else
    found ← route_or_resolve inner now_ms;
    match found with
    | None => mret []
    | Some idx =>
        p ← peer_at idx;
        match state p with
        | Established e =>
            let n := N.of_nat (length inner) in
            upd_peer idx (fun p => p <| last_activity_ms := now_ms |> <| tx_bytes := wrap64 (tx_bytes p + n) |>
                                     <| tx_packets := wrap64 (tx_packets p + 1) |>) ;;
            sample (Metrics.Tx n 1) ;;
            x ← lift (mp_on_tun (current e) inner now_ms);
            set_epochs idx (Epochs.set_current e x.1) ;;
            sample (Metrics.FecTx (N.of_nat (length x.2))) ;;
            if negb (relay p) then mret x.2 else relay_wrap_all idx (map Dp.bytes x.2)
        | Handshaking _ => upd_peer idx (fun p => p <| pending_tun := push_pending (pending_tun p) inner |>) ;; mret []
        | Idle =>
            upd_peer idx (fun p => p <| pending_tun := push_pending (pending_tun p) inner |>) ;;
            s ← get;
            act ← match rendezvous s with
                  | Some _ => advance_path idx now_ms
                  | None => mret (match endpoint p with Some ep => Probe ep | None => PathState.Idle end)
                  end;
            match act with
            | Probe a => dgs ← begin_handshake idx a false now_ms; mret (default [] dgs)
            | PathState.Relay => s ← get; dgs ← begin_handshake idx (server_addr s) true now_ms; mret (default [] dgs)
            | NeedLookup => dg ← maybe_lookup idx now_ms; mret (option_list dg)
            | PathState.Idle | NoPath => mret []
            end
        end
    end.

Definition on_tun (inner : list u8) (now_ms : N) : M (list EgressDatagram) :=
  s ← get;
  if (jitter_max_ms (traffic_defense s) =? 0)%N && match scheduled_egress s with [] => true | _ => false end then
    match obf_key s with
    | None => on_tun_dispatch inner now_ms
    | Some _ => dgs ← on_tun_dispatch inner now_ms; obf_egress dgs
    end
  else
    dgs ← on_tun_dispatch inner now_ms;
    s ← get;
    match obf_key s with
    | Some _ => obf_egress_with_jitter dgs now_ms
    | None => jitter_unobfuscated_egress dgs now_ms
    end.

(** ** The tick *)

Definition refresh_metrics (now_ms : N) : M unit :=
  s ← get;
  when ((500 <=? now_ms - last_metrics_update_ms s)%N || (last_metrics_update_ms s =? 0)%N)
    (modify (fun s => s <| last_metrics_update_ms := N.max now_ms 1 |>) ;; update_stats).

Definition refresh_registration (now_ms : N) : M (list EgressDatagram) :=
  s ← get;
  match rendezvous s with
  | None => mret []
  | Some r =>
      if negb (negb (registered_once s) || (reg_refresh_ms s <=? now_ms - last_register_ms s)%N) then mret []
      else
        wall ← now_wall_clock_ms;
        let sq := sat_add64 (N.max (reg_seq s) wall) 1 in
        modify (fun s => s <| reg_seq := sq |>) ;;
        signed ← match membership s with
                 | Some m => rc ← lift (Dir.sign_registration m sq); mret (Some rc)
                 | None => mret None
                 end;
        dg ← lift (RdvClient.register r (local_node_id s) signed);
        refresh ← match obf_key s with Some _ => jitter_ms REG_REFRESH_MS | None => mret REG_REFRESH_MS end;
        modify (fun s => s <| last_register_ms := now_ms |> <| reg_refresh_ms := refresh |> <| registered_once := true |>) ;;
        mret (option_list dg)
  end.

(** The escalation of a direct handshake in flight: whether the peer is done
    for this tick, and what was sent. *)
Definition escalate (i : nat) (h : HandshakingState) (now_ms : N) : M (bool * list EgressDatagram) :=
  act ← advance_path i now_ms;
  match act with
  | PathState.Relay =>
      s ← get;
      upd_peer i (fun p => p <| state := Idle |> <| endpoint := None |>) ;;
      dgs ← begin_handshake i (server_addr s) true now_ms;
      mret (true, default [] dgs)
  | Probe a =>
      if bool_decide (a <> h_target h) then
        upd_peer i (fun p => p <| state := Idle |> <| relay := false |>) ;;
        dgs ← begin_handshake i a false now_ms;
        mret (true, default [] dgs)
      else mret (false, [])
  | NeedLookup => dg ← maybe_lookup i now_ms; mret (false, option_list dg)
  | _ => mret (false, [])
  end.

(** The timers of a peer's state; the state is out of the table meanwhile. *)
Definition drive_peer (i : nat) (now_ms : N) : M (list EgressDatagram) :=
  p ← peer_at i;
  match state p with
  | Established e =>
      upd_peer i (fun p => p <| state := Idle |>) ;;
      let e := Epochs.retire_previous_if_due e now_ms in
      x ← drive_rekey_schedule i (relay p) e now_ms;
      let ' (e, sent) := x in
      n ← draw;
      y ← lift (mp_tick n (current e) now_ms);
      pkts ← (if relay p then relay_wrap_all i (map Dp.bytes y.2) else mret y.2);
      set_epochs i (Epochs.set_current e y.1) ;;
      mret (sent ++ pkts)
  | Handshaking h =>
      if negb (h_retry_ms h <=? now_ms - h_last_sent_ms h)%N then mret []
      else if (HANDSHAKE_TOTAL_MS <=? now_ms - h_started_ms h)%N then
        upd_peer i (fun p => p <| pending_tun := [] |> <| state := Idle |>) ;; mret []
      else
        upd_peer i (fun p => p <| state := Idle |>) ;;
        retry ← retry_interval;
        out ← (if relay p then d ← relay_wrap i (h_init_pkt h); mret (option_list d)
               else mret [mkEgress 0 (h_target h) (h_init_pkt h)]);
        upd_peer i (fun p => p <| state := Handshaking (mkHandshaking (h_hs h) (h_started_ms h) now_ms retry
                                    (sat_add32 (h_retries h) 1) (h_init_pkt h) (h_target h) (h_via_relay h)) |>) ;;
        mret out
  | Idle => mret []
  end.

Definition tick_peer (now_ms : N) (i : nat) : M (list EgressDatagram) :=
  s ← get;
  p ← peer_at i;
  x ← match rendezvous s, state p with
      | Some _, Handshaking h => if negb (h_via_relay h) then escalate i h now_ms else mret (false, [])
      | _, _ => mret (false, [])
      end;
  let ' (continue, sent) := x in
  if (continue : bool) then mret sent
  else out ← drive_peer i now_ms; mret (sent ++ out).

Definition tick_idle (now_ms : N) (i : nat) : M (list EgressDatagram) :=
  p ← peer_at i; if is_idle p then drive_path_idle i now_ms else mret [].

(** One decoy of a burst. *)
Definition decoy (ep : SocketAddr) : M (list EgressDatagram) :=
  s ← get;
  match valid_buckets s with
  | [] => b ← build_junk; mret [mkEgress 0 ep b]
  | b :: bs =>
      i ← gen_range 0 (N.of_nat (length bs));
      let w := N.of_nat (nth (N.to_nat i) (b :: bs) 0) in
      mret [mkEgress (if (w <? u16_mod)%N then w else 0) ep [JUNK_TYPE]]
  end.

Definition cover_peer (base_iv now_ms : N) (i : nat) : M (list EgressDatagram) :=
  s ← get;
  p ← peer_at i;
  if negb (is_established p) || relay p then mret []
  else
    match endpoint p with
    | None => mret []
    | Some ep =>
        let iv := default base_iv (next_cover_interval_ms p) in
        if (now_ms - last_activity_ms p <? iv)%N || (now_ms - last_cover_ms p <? iv)%N then mret []
        else
          burst ← (if (cover_burst_max (traffic_defense s) <=? 1)%N then mret 1%N
                   else gen_range 1 (cover_burst_max (traffic_defense s)));
          out ← mconcat (fun _ => decoy ep) (List.seq 0 (N.to_nat burst));
          j ← jitter_ms base_iv;
          upd_peer i (fun p => p <| last_cover_ms := now_ms |> <| next_cover_interval_ms := Some j |>) ;;
          mret out
    end.

Definition cover_traffic (now_ms : N) : M (list EgressDatagram) :=
  s ← get;
  let base := match cover_interval_ms (traffic_defense s) with Some iv => Some iv | None => cover_traffic_ms s end in
  match obf_key s, base with
  | Some _, Some base_iv => mconcat (cover_peer base_iv now_ms) (List.seq 0 (length (peers s)))
  | _, _ => mret []
  end.

(** The peers whose certificate no longer stands. *)
Definition stale_peers s (m : Membership) (now : N) : run (list nat) :=
  let! l := rfilter (fun x : nat * Peer =>
              if is_established x.2 then
                let! ok := Dir.member_or_admitted_cert_valid os_skew m (pubkey x.2) (admitted_cert_not_after x.2) now in
                Ret (negb ok)
              else Ret false) (imap pair (peers s)) in
  Ret (map fst l).

Definition cert_sweep (now_ms : N) : M unit :=
  s ← get;
  match membership s with
  | None => mret tt
  | Some m =>
      when (rekey_interval_ms s <=? now_ms - last_cert_sweep_ms s)%N
        (modify (fun s => s <| last_cert_sweep_ms := now_ms |>) ;;
         now ← now_secs;
         stale ← lift (stale_peers s m now);
         mfor stale drop_session)
  end.

Definition check_cert_rotation s (now : N) : option bool :=
  match threshold_ca_server s, membership s with
  | Some _, Some m =>
      let c := own_cert m in
      let total_ttl := (not_after c - not_before c)%N in
      if (total_ttl =? 0)%N then Some false
      else
        let elapsed := (now - not_before c)%N in
        Some (N.min (total_ttl * 7) (u64_mod - 1) <=? N.min (elapsed * 10) (u64_mod - 1))%N
  | _, _ => None
  end.

(** The certificate authority is asked over the network. *)
Definition renew_cert : M (result Cert string) :=
  s ← get;
  match threshold_ca_server s with
  | None => mret (Err "no threshold CA server configured"%string)
  | Some _ =>
      match membership s with
      | None => mret (Err "membership directory is not enabled"%string)
      | Some m =>
          n ← draw;
          match os_enroll n with
          | None => mret (Err "enrollment failed"%string)
          | Some c =>
              x ← lift (Dir.update_own_cert m c);
              modify (fun s => s <| membership := Some x.1 |>) ;;
              mret (Ok c)
          end
      end
  end.

Definition cert_rotation (now_ms : N) : M unit :=
  s ← get;
  match threshold_ca_server s, membership s with
  | Some _, Some _ =>
      when (5000 <=? now_ms - last_cert_check_ms s)%N
        (modify (fun s => s <| last_cert_check_ms := now_ms |>) ;;
         now ← now_secs;
         s ← get;
         match check_cert_rotation s now with
         | Some true => renew_cert ;; mret tt
         | _ => mret tt
         end)
  | _, _ => mret tt
  end.

(** *** Control commands *)

Definition ack_or (x : result unit string) : ControlResponse := match x with Ok _ => Ack | Err e => CtlErr e end.

Definition set_fec_cmd (pre : option FecPreset) (red data parity : option N) (cur : FecConfig) : result FecConfig string :=
  let cur := match pre with Some p => fec_default_config p | None => cur end in
  match match red with
        | Some pct =>
            if (100 <? pct)%N then Err "redundancy percentage must be between 0 and 100"%string
            else Ok (mkFec (match fec_preset cur with FecCustom => FecCustom | FecAdaptive => FecAdaptive | _ => FecCustom end)
                       pct (data_shards cur) (parity_shards cur))
        | None => Ok cur
        end with
  | Err e => Err e
  | Ok cur =>
      match match data with
            | Some k => if (k =? 0)%N then Err "data shards (k) must be at least 1"%string
                        else Ok (mkFec FecCustom (redundancy_pct cur) k (parity_shards cur))
            | None => Ok cur
            end with
      | Err e => Err e
      | Ok cur =>
          Ok (match parity with Some m => mkFec FecCustom (redundancy_pct cur) (data_shards cur) m | None => cur end)
      end
  end.

Definition set_daita_cmd (base : option TrafficDefenseConfig) (bkts : option (list nat)) (cover burst jitter : option N)
    (cur : TrafficDefenseConfig) : result TrafficDefenseConfig string :=
  let cur := default cur base in
  let b := match bkts with Some b => sort_buckets b | None => buckets cur end in
  let civ := match cover with Some c => if (c =? 0)%N then None else Some c | None => cover_interval_ms cur end in
  match burst with
  | Some 0%N => Err "cover_burst_max must be at least 1"%string
  | _ => Ok (mkDefense (preset cur) b civ (default (cover_burst_max cur) burst) (default (jitter_max_ms cur) jitter))
  end.

(** The flag and the mode are set before the blocks are looked at. *)
Definition set_split_tunnel_config (on : option bool) (md : option SplitMode) (cs : option (list (string * option (IpAddr * N))))
    (ds apps_ : option (list string)) : M (result unit string) :=
  let upd f := modify (fun s => s <| split_tunnel := f (split_tunnel s) |>) in
  match on with Some b => upd (fun t => t <| enabled := b |>) | None => mret tt end ;;
  match md with Some m => upd (fun t => t <| split_mode := m |>) | None => mret tt end ;;
  match match cs with Some l => fmap Some (mapM snd l) | None => Some None end with
  | None => mret (Err "invalid CIDR"%string)
  | Some blocks =>
      match cs, blocks with
      | Some l, Some bs => upd (fun t => t <| cidrs := map fst l |> <| parsed_cidrs := bs |>)
      | _, _ => mret tt
      end ;;
      match ds with Some l => upd (fun t => t <| domains := l |>) | None => mret tt end ;;
      match apps_ with Some l => upd (fun t => t <| apps := l |>) | None => mret tt end ;;
      mret (Ok tt)
  end.

Definition dispatch_cmd (cmd : ControlCmd) : M ControlResponse :=
  match cmd with
  | AddPeer cfg transport => x ← add_peer_with_transport cfg transport; mret (ack_or x)
  | RemovePeer pk => x ← remove_peer pk; mret (ack_or x)
  | SetTransport pk transport => set_peer_transport pk transport ;; mret Ack
  | CertRenew => x ← renew_cert; mret (match x with Ok _ => Ack | Err e => CtlErr ("certificate renewal failed: " ++ e) end)
  | SetFecConfig pre red data parity =>
      s ← get;
      match set_fec_cmd pre red data parity (fec_config s) with
      | Err e => mret (CtlErr e)
      | Ok c => set_fec_config c ;; mret Ack
      end
  | SetDaitaConfig base bkts cover burst jitter =>
      s ← get;
      match set_daita_cmd base bkts cover burst jitter (traffic_defense s) with
      | Err e => mret (CtlErr e)
      | Ok c => modify (fun s => s <| traffic_defense := c |>) ;; mret Ack
      end
  | SetSplitTunnel on md cs ds apps_ => x ← set_split_tunnel_config on md cs ds apps_; mret (ack_or x)
  end.

Definition tick_dispatch (cmds : list ControlCmd) (now_ms : N) : M (list EgressDatagram) :=
  refresh_metrics now_ms ;;
  reg ← refresh_registration now_ms;
  s ← get;
  driven ← mconcat (tick_peer now_ms) (List.seq 0 (length (peers s)));
  idle ← match rendezvous s with
         | Some _ => mconcat (tick_idle now_ms) (List.seq 0 (length (peers s)))
         | None => mret []
         end;
  gossip ← match membership s with Some _ => tick_gossip now_ms | None => mret [] end;
  cover ← cover_traffic now_ms;
  cert_sweep now_ms ;;
  cert_rotation now_ms ;;
  mfor cmds (fun c => dispatch_cmd c ;; mret tt) ;;
  mret (reg ++ driven ++ idle ++ gossip ++ cover).

Definition tick (cmds : list ControlCmd) (now_ms : N) : M (list EgressDatagram) :=
  dgs ← tick_dispatch cmds now_ms;
  s ← get;
  dgs ← match obf_key s with Some _ => obf_egress dgs | None => mret dgs end;
  s ← get;
  match scheduled_egress s with [] => mret dgs | _ => drain_scheduled_egress now_ms dgs end.

(** ** A run of the daemon *)

Inductive event :=
| Udp (src : SocketAddr) (dg : list u8) (now_ms : N)
| Tun (inner : list u8) (now_ms : N)
| Tick (cmds : list ControlCmd) (now_ms : N).

Definition step (e : event) : M DispatchOut :=
  match e with
  | Udp src dg now => on_udp src dg now
  | Tun inner now => dgs ← on_tun inner now; mret (udp_or_none dgs)
  | Tick cmds now => dgs ← tick cmds now; mret (udp_or_none dgs)
  end.

Fixpoint steps (es : list event) : M (list DispatchOut) :=
  match es with
  | [] => mret []
  | e :: es => o ← step e; os_ ← steps es; mret (o :: os_)
  end.

End Disp.
End Disp.
