(* ===== verification/PmSafe.v ===== *)
(** * The peer manager: its invariant

    What holds of a manager between any two operations — the indices point into
    the peer table, every session is well formed, what waits for a session can
    be sealed, the directory can be encoded — and a logic to prove that a
    handler keeps it without panicking.  [safe n m R] says that [m], started in
    a good state with at least [n] peers, returns a result with [R] in a good
    state with at least [n] peers; the number grows as the handler reads the
    table, so that an index found there stays valid. *)

From Stdlib Require Strings.Byte.
From Stdlib Require Import NArith Lia Strings.String Floats.SpecFloat.
From stdpp Require Import base numbers gmap list.
From S2P Require Import Prelude StateM Adaptive AntiReplay Session DataPlane NetAddr MemberCodec MemberVerify Directory DirSafe Obf RdvProto RdvClient EpochSet EpochPlane PathState Noise Metrics SplitTunnel PmState PmTable PmPlane PmObf.

Local Open Scope nat_scope.

Module Safe.
Import Pm Tbl Obfs EpochWf.

(** ** The invariant *)

Section Inv.
Context {snow : Snow} {kem : MlKem} {aead : Sess.Aead} {D T : Type} {MP : ManagedPlane D} {RV : Rendezvous T}.
Context {blake : Blake2s} (wf : D -> Prop) (eps : list SocketAddr).

Definition session_ok (st : PeerState D) : Prop := match st with Established e => epochs_wf wf e | _ => True end.

Definition peer_ok (p : Peer D) : Prop :=
  length (node p) = 16 /\ session_ok (state p) /\ Forall sealable (pending_tun p) /\ length (pending_tun p) <= MAX_PENDING_TUN.

Definition in_table {K} `{Countable K} (n : nat) (m : gmap K nat) : Prop := map_Forall (fun _ i => i < n) m.

Record inv (s : PeerManager D T) : Prop := {
  inv_peers : Forall peer_ok (peers s);
  inv_tag : in_table (length (peers s)) (by_tag s);
  inv_addr : in_table (length (peers s)) (by_addr s);
  inv_node : in_table (length (peers s)) (by_node s);
  inv_mem m : membership s = Some m -> DirSafe.mem_safe eps m;
  inv_sym : data_symbol_size s <> 0%N;
  inv_id : length (local_node_id s) = 16;
  inv_jitter : (jitter_max_ms (traffic_defense s) + 1 < u64_mod)%N;
  inv_burst : (cover_burst_max (traffic_defense s) < u64_mod)%N;
  inv_queue : length (scheduled_egress s) <= MAX_JITTER_QUEUE;
}.

Definition inv_at (n : nat) (s : PeerManager D T) : Prop := inv s /\ n <= length (peers s).

Definition safe {A} (n : nat) (m : M (PeerManager D T) A) (R : A -> Prop) : Prop :=
  spec (inv_at n) m (fun s a => inv_at n s /\ R a).

Definition any {A} : A -> Prop := fun _ => True.

End Inv.

(** A change of fields the invariant does not mention. *)
Ltac unrelated := by intros ? [[] ?]; split; [constructor|].

Section Safe.
Context {snow : Snow} {kem : MlKem} {aead : Sess.Aead} {D T : Type} {MP : ManagedPlane D} {RV : Rendezvous T}.
Context {blake : Blake2s} {ed : Ed25519} {iter : HashIter} {sip : SipHash24} {os : Os}.
Context {wf : D -> Prop} {clock : N -> Prop} {ML : ManagedLaws wf clock}.
Context {BL : Blake2sLaws} {EL : Ed25519Laws} {IL : HashIterLaws} {RL : Client.RendezvousLaws T}.
Context {eps : list SocketAddr}.
Notation PeerManager := (PeerManager D T).
Notation Peer := (Peer D).
Notation M := (M PeerManager).
Notation inv := (inv wf eps).
Notation inv_at := (inv_at wf eps).
Notation safe := (safe (T := T) wf eps).
Notation peer_ok := (peer_ok wf).
Implicit Types (s : PeerManager) (p : Peer).

(** ** Rules *)

Lemma safe_ret {A} n (a : A) (R : A -> Prop) : R a -> safe n (mret a) R.
Proof. intros Ha. by apply spec_ret. Qed.

Lemma safe_bind {A B} n (m : M A) (k : A -> M B) R Q :
  safe n m R -> (forall a, R a -> safe n (k a) Q) -> safe n (m ≫= k) Q.
Proof.
  intros Hm Hk. eapply spec_bind; [exact Hm|]. intros a s [Hs Ha]. by apply (Hk a Ha).
Qed.

(** What the state after [m] says of its result counts for the rest. *)
Lemma safe_bind_grow {A B} n (m : M A) (k : A -> M B) (R : PeerManager -> A -> Prop) Q :
  spec (inv_at n) m (fun s a => inv_at n s /\ R s a) ->
  (forall s a, inv s -> n <= length (peers s) -> R s a -> safe (length (peers s)) (k a) Q) -> safe n (m ≫= k) Q.
Proof.
  intros Hm Hk. eapply spec_bind; [exact Hm|]. intros a s [[Hs Hn] Ha].
  destruct (Hk s a Hs Hn Ha s) as (s' & b & E & [Hs' Hl] & Hb); [by split|]. exists s', b. split; [done|]. split; [|done].
  split; [done|lia].
Qed.

Lemma safe_get {B} n (k : PeerManager -> M B) Q :
  (forall s, inv s -> n <= length (peers s) -> safe (length (peers s)) (k s) Q) -> safe n (get ≫= k) Q.
Proof.
  intros Hk. apply (safe_bind_grow _ _ _ (fun s a => a = s)); [intros s Hs; by exists s, s|]. intros s a Hs Hn ->. by apply Hk.
Qed.

Lemma safe_gets {A B} n (f : PeerManager -> A) (k : A -> M B) Q :
  (forall s, inv s -> n <= length (peers s) -> safe (length (peers s)) (k (f s)) Q) -> safe n (gets f ≫= k) Q.
Proof.
  intros Hk. apply (safe_bind_grow _ _ _ (fun s a => a = f s)); [intros s Hs; by exists s, (f s)|]. intros s a Hs Hn ->. by apply Hk.
Qed.

Lemma safe_modify n (f : PeerManager -> PeerManager) : (forall s, inv_at n s -> inv_at n (f s)) -> safe n (modify f) any.
Proof. intros H. apply spec_modify. intros s Hs. split; [by apply H|done]. Qed.

Lemma safe_lift {A} n (r : run A) (R : A -> Prop) : (exists a, r = Ret a /\ R a) -> safe n (lift r) R.
Proof. intros H. by apply spec_lift. Qed.

Lemma safe_weaken {A} n (m : M A) (R R' : A -> Prop) : safe n m R -> (forall a, R a -> R' a) -> safe n m R'.
Proof. intros H HR. eapply spec_conseq; [exact H|done|]. intros s a [? ?]. auto. Qed.

Lemma safe_any {A} n (m : M A) (R : A -> Prop) : safe n m R -> safe n m any.
Proof. intros H. by eapply safe_weaken. Qed.

Lemma safe_when n b m : (b = true -> safe n m any) -> safe n (when b m) any.
Proof. destruct b; [auto|]. intros _. by apply safe_ret. Qed.

Lemma safe_mconcat {A B} n (f : A -> M (list B)) l :
  (forall x, x ∈ l -> safe n (f x) any) -> safe n (mconcat f l) any.
Proof.
  intros H. eapply spec_conseq; [apply (spec_mconcat (inv_at n) any f l)|done|by intros s a [? _]].
  intros x Hx. eapply spec_conseq; [by apply H|done|]. intros s a [? _]. split; [done|]. by apply Forall_true.
Qed.

Lemma safe_mfor {A} n (l : list A) f : (forall x, x ∈ l -> safe n (f x) any) -> safe n (mfor l f) any.
Proof.
  intros H. eapply spec_conseq; [apply (spec_mfor (inv_at n) l f)|done|done].
  intros x Hx. eapply spec_conseq; [by apply H|done|]. by intros s a [? _].
Qed.

(** ** Peers *)

Lemma peers_lookup s idx : inv s -> idx < length (peers s) -> exists p, peers s !! idx = Some p /\ peer_ok p.
Proof.
  intros Hs Hi. destruct (lookup_lt_is_Some_2 _ _ Hi) as [p Hp]. exists p. split; [done|].
  by apply (Forall_lookup_1 _ _ _ _ (inv_peers _ _ _ Hs) Hp).
Qed.

Lemma safe_peer_at n idx : idx < n -> safe n (peer_at idx) peer_ok.
Proof.
  intros Hi s [Hs Hn]. destruct (peers_lookup s idx Hs) as (p & Ep & Hp); [lia|].
  exists s, p. unfold peer_at, get, mbind, M_bind. cbn [rbind]. rewrite Ep. by split_and!.
Qed.

Lemma peer_at_spec n idx :
  idx < n -> spec (inv_at n) (peer_at idx) (fun s p => inv_at n s /\ peer_ok p /\ peers s !! idx = Some p).
Proof.
  intros Hi s [Hs Hn]. destruct (peers_lookup s idx Hs) as (p & Ep & Hp); [lia|].
  exists s, p. unfold peer_at, get, mbind, M_bind. cbn [rbind]. rewrite Ep. by split_and!.
Qed.

Lemma inv_insert s idx p : inv s -> peer_ok p -> inv (s <| peers := <[idx := p]> (peers s) |>).
Proof.
  intros [] Hp. constructor; cbn; try done; try (by rewrite length_insert). by apply Forall_insert.
Qed.

Lemma safe_upd_peer n idx f : idx < n -> (forall p, peer_ok p -> peer_ok (f p)) -> safe n (upd_peer idx f) any.
Proof.
  intros Hi Hf s [Hs Hn]. destruct (peers_lookup s idx Hs) as (p & Ep & Hp); [lia|].
  eexists _, tt. unfold upd_peer, get, modify, mbind, M_bind. cbn [rbind]. rewrite Ep. split; [done|]. split; [|done].
  split; [by apply inv_insert, Hf|]. cbn. by rewrite length_insert.
Qed.

(** A change of fields the invariant does not mention. *)
Lemma safe_touch n idx f :
  idx < n -> (forall p, node (f p) = node p /\ state (f p) = state p /\ pending_tun (f p) = pending_tun p) ->
  safe n (upd_peer idx f) any.
Proof.
  intros Hi Hf. apply safe_upd_peer; [done|]. intros p Hp. destruct (Hf p) as (E1 & E2 & E3).
  unfold Safe.peer_ok. by rewrite E1, E2, E3.
Qed.

Lemma safe_set_epochs n idx e : idx < n -> epochs_wf wf e -> safe n (set_epochs idx e) any.
Proof. intros Hi He. apply safe_upd_peer; [done|]. by intros p (? & _ & ?). Qed.

(** ** The world *)

Lemma safe_draw n : safe n draw any.
Proof.
  apply safe_gets. intros s Hs Hn. eapply safe_bind; [apply safe_modify; unrelated|]. intros _ _. by apply safe_ret.
Qed.

Lemma safe_random n : safe n random any.
Proof. eapply safe_bind; [apply safe_draw|]. intros x _. by apply safe_ret. Qed.

Lemma safe_wall n : safe n wall_ns any.
Proof. eapply safe_bind; [apply safe_draw|]. intros x _. by apply safe_ret. Qed.

Lemma safe_now_secs n : safe n now_secs any.
Proof. eapply safe_bind; [apply safe_wall|]. intros x _. by apply safe_ret. Qed.

Lemma safe_now_ms n : safe n now_wall_clock_ms any.
Proof. eapply safe_bind; [apply safe_wall|]. intros x _. by apply safe_ret. Qed.

Lemma safe_random_pad n k : safe n (random_pad k) any.
Proof.
  unfold random_pad. destruct (k =? 0); [by apply safe_ret|]. eapply safe_bind; [apply safe_random|]. intros x _. by apply safe_ret.
Qed.

Lemma safe_jitter_ms n b : safe n (jitter_ms b) any.
Proof.
  unfold jitter_ms. destruct (_ =? _)%N; [by apply safe_ret|]. eapply safe_bind; [apply safe_random|]. intros x _. by apply safe_ret.
Qed.

Lemma safe_sample n x : safe n (sample x) any.
Proof. apply safe_modify. unrelated. Qed.

Lemma safe_update_stats n : safe n update_stats any.
Proof. apply safe_modify. unrelated. Qed.

End Safe.

Create HintDb safe discriminated.
#[export] Hint Constants Opaque : safe.
#[export] Hint Resolve safe_draw safe_random safe_wall safe_now_secs safe_now_ms safe_random_pad safe_jitter_ms safe_sample
  safe_update_stats : safe.
#[export] Hint Extern 4 (_ < _) => lia : safe.

(** One step through a handler: a bind takes the lemma of its head from the
    database, a branch is a case. *)
Ltac safe_touched := apply safe_touch; [lia|by intros ?].
Ltac safe_head :=
  lazymatch goal with
  | |- safe _ _ _ (peer_at _) _ => apply safe_peer_at; lia
  | |- safe _ _ _ (upd_peer _ _) _ => first [safe_touched|apply safe_upd_peer; [lia|by intros ? (? & ? & ?)]]
  | |- safe _ _ _ (modify _) _ => first [by apply safe_modify; unrelated|by eauto 3 with safe]
  | |- _ => by eauto 3 with safe
  end.
Ltac safe_step :=
  lazymatch goal with
  | |- forall _, _ => intro
  | |- safe _ _ _ (get ≫= _) _ => apply safe_get; intros ? ? ?
  | |- safe _ _ _ (gets _ ≫= _) _ => apply safe_gets; intros ? ? ?
  | |- safe _ _ _ (_ ≫= _) _ => eapply safe_bind; [safe_head|]
  | |- safe _ _ _ (mret _) any => by apply safe_ret
  | |- safe _ _ _ (mret _) _ => apply safe_ret
  | |- safe _ _ _ (when _ _) any => apply safe_when; intros ?
  | |- safe _ _ _ (if ?b then _ else _) _ => destruct b eqn:?
  | |- safe _ _ _ (match ?x with _ => _ end) _ => destruct x eqn:?
  | |- safe _ _ _ _ _ => safe_head
  end.
Ltac safely := repeat safe_step.

(** ** The table *)

Section Table.
Context {snow : Snow} {kem : MlKem} {aead : Sess.Aead} {D T : Type} {MP : ManagedPlane D} {RV : Rendezvous T}.
Context {blake : Blake2s} {ed : Ed25519} {iter : HashIter} {sip : SipHash24} {os : Os}.
Context {wf : D -> Prop} {clock : N -> Prop} {ML : ManagedLaws wf clock}.
Context {BL : Blake2sLaws} {EL : Ed25519Laws} {IL : HashIterLaws} {RL : Client.RendezvousLaws T}.
Context {eps : list SocketAddr}.
Notation PeerManager := (PeerManager D T).
Notation Peer := (Peer D).
Notation inv := (inv wf eps).
Notation inv_at := (inv_at wf eps).
Notation safe := (safe (T := T) wf eps).
Notation peer_ok := (peer_ok wf).
Implicit Types (s : PeerManager) (p : Peer).

Lemma in_table_mono {K} `{Countable K} n n' (m : gmap K nat) : n <= n' -> in_table n m -> in_table n' m.
Proof. intros Hn Hm k i Hk. specialize (Hm k i Hk). cbn in *. lia. Qed.

Lemma in_table_insert {K} `{Countable K} n (m : gmap K nat) k i : i < n -> in_table n m -> in_table n (<[k := i]> m).
Proof. intros Hi Hm. by apply map_Forall_insert_2. Qed.

Lemma in_table_delete {K} `{Countable K} n (m : gmap K nat) k : in_table n m -> in_table n (delete k m).
Proof. apply map_Forall_delete. Qed.

Lemma fresh_peer_ok pk ep st pth tr : peer_ok (fresh_peer pk ep st pth tr).
Proof. split_and!; [apply blake2s_length|done|constructor|cbn; lia]. Qed.

Lemma push_peer_inv n s p : inv_at n s -> peer_ok p -> inv_at n (push_peer s p).
Proof.
  intros [[] Hn] Hp. split; [|cbn; rewrite length_app; cbn; lia]. constructor; cbn; rewrite ?length_app; cbn [length]; try done.
  - apply Forall_app. split; [done|]. by constructor.
  - eapply in_table_mono; [|done]. lia.
  - apply in_table_insert; [lia|]. eapply in_table_mono; [|done]. lia.
  - apply in_table_insert; [lia|]. eapply in_table_mono; [|done]. lia.
Qed.

Lemma tag_lt s k i : inv s -> by_tag s !! k = Some i -> i < length (peers s).
Proof. intros Hs. apply (inv_tag _ _ _ Hs). Qed.
Lemma addr_lt s k i : inv s -> by_addr s !! k = Some i -> i < length (peers s).
Proof. intros Hs. apply (inv_addr _ _ _ Hs). Qed.
Lemma node_lt s k i : inv s -> by_node s !! k = Some i -> i < length (peers s).
Proof. intros Hs. apply (inv_node _ _ _ Hs). Qed.

Lemma safe_admit_member n pk l now : safe n (admit_member pk l now) any.
Proof.
  unfold admit_member. safe_step. destruct (_ || _); [by apply safe_ret|]. apply safe_modify. intros s' Hs'.
  apply push_peer_inv; [done|apply fresh_peer_ok].
Qed.

(** A route of a tag to a peer of the table. *)
Lemma safe_insert_tag n tag idx : idx < n -> safe n (modify (fun s => s <| by_tag ::= <[tag := idx]> |>)) any.
Proof.
  intros Hi. apply safe_modify. intros s [[] Hn]. split; [|done]. constructor; try done. by apply in_table_insert; [cbn; lia|].
Qed.

Lemma safe_drop_session n idx : idx < n -> safe n (drop_session idx) any.
Proof.
  intros Hi. unfold drop_session. eapply safe_bind; [by apply safe_peer_at|]. intros p Hp.
  eapply safe_bind; [apply safe_modify|intros _ _].
  { intros s [[] Hn]. split; [|done]. constructor; try done. cbn.
    generalize (session_tags p). intros l. revert inv_tag0. generalize (by_tag s).
    induction l as [|t l IH]; intros m Hm; cbn [fold_left]; [done|]. by apply IH, in_table_delete. }
  eapply safe_bind; [apply safe_upd_peer; [done|]|intros _ _; apply safe_update_stats].
  intros q (? & _ & ? & ?). by split_and!.
Qed.

Lemma safe_record_new_epoch n idx : idx < n -> safe n (record_new_epoch idx) any.
Proof.
  intros Hi. unfold record_new_epoch. eapply safe_bind; [by apply safe_peer_at|]. intros p Hp. safe_step.
  destruct (state p) as [| |e] eqn:Ep; [by apply safe_ret..|]. cbv zeta.
  assert (epochs_wf wf e) as He by (destruct Hp as (_ & Hp & _); by rewrite Ep in Hp).
  set (e' := if (1 <? num_shards s)%N then _ else _). assert (epochs_wf wf e') as He'.
  { unfold e'. destruct (_ <? _)%N; [|done]. destruct He. constructor; cbn; try done.
    by apply (ml_set_shard (clock := clock)), (ml_set_stride (clock := clock)). }
  eapply safe_bind; [apply safe_set_epochs; [lia|done]|]. intros _ _.
  destruct (mp_raw_keys _), (mp_wire_keys _). apply safe_modify. unrelated.
Qed.

Lemma safe_add_peer n cfg tr : safe n (add_peer_with_transport cfg tr) any.
Proof.
  unfold add_peer_with_transport. safe_step. destruct (_ !! _); [by apply safe_ret|].
  eapply safe_bind; [apply safe_modify|intros _ _].
  { intros s' Hs'. apply push_peer_inv; [done|apply fresh_peer_ok]. }
  safely.
Qed.

Lemma safe_set_peer_transport n pk tr : safe n (set_peer_transport pk tr) any.
Proof.
  unfold set_peer_transport. safe_step. destruct (by_node s !! _) eqn:E; [|by apply safe_ret].
  apply node_lt in E; [|done]. safely.
Qed.

Lemma set_ratio_wf (e : Epochs D) r : epochs_wf wf e -> epochs_wf wf (Epochs.set_fec_repair_ratio e r).
Proof. intros He. by destruct (epoch_step_ok wf clock e (ERatio r) He I) as (? & [= <-] & ?). Qed.

Lemma safe_set_fec_config n c : safe n (set_fec_config c) any.
Proof.
  apply safe_modify. intros s [[] Hn]. split; [|by cbn; rewrite length_map].
  constructor; cbn; rewrite ?length_map; try done. apply Forall_map. eapply Forall_impl; [done|].
  intros p (H1 & H2 & H3 & H4). cbn. destruct (state p) eqn:E; [by split_and!; rewrite ?E..|].
  split_and!; [done| |done..]. cbn. by apply set_ratio_wf.
Qed.

(** A session built from a handshake that has opened nothing yet. *)
Definition fresh (est : Hs.Established) : Prop := Sess.replay (Hs.session est) = Replay.window_new.

Lemma new_plane_wf s est a : inv s -> fresh est -> wf (new_plane s est a).
Proof. intros Hs Hf. apply (ml_new (clock := clock)); [done|apply Hs]. Qed.

(** ** Obfuscation *)

Lemma safe_gen_range n lo hi : (hi - lo + 1 < u64_mod)%N -> (hi < u64_mod)%N -> safe n (gen_range lo hi) any.
Proof.
  intros H1 H2. unfold gen_range. safe_step. eapply safe_bind with (R := any); [apply safe_lift|intros x _; by safely].
  destruct (N.le_gt_cases hi lo) as [Hle|Hlt].
  - unfold XorShift64.gen_range. rewrite (proj2 (N.leb_le _ _) Hle). by eexists.
  - destruct (XorShift64.gen_range_bounds (junk_rng s) lo hi) as (v & st & -> & _); [lia|done|]. by eexists.
Qed.

Lemma safe_build_junk n : safe n build_junk any.
Proof.
  unfold build_junk. eapply safe_bind; [apply safe_gen_range; by vm_compute|]. intros len _. safe_step. cbv zeta.
  eapply safe_bind; [apply safe_modify; unrelated|]. intros _ _. by apply safe_ret.
Qed.

Lemma safe_obf_wrap n k t b pad : safe n (obf_wrap k t b pad) any.
Proof. unfold obf_wrap. safely. Qed.

Lemma safe_count_daita n a b c d : safe n (count_daita a b c d) any.
Proof. apply safe_modify. unrelated. Qed.

Lemma valid_buckets_length s b bs : valid_buckets s = b :: bs -> length bs < 8.
Proof.
  unfold valid_buckets. intros E%(f_equal length). rewrite length_take in E. cbn [length] in E. lia.
Qed.

Lemma safe_pick n s b bs : valid_buckets s = b :: bs -> safe n (gen_range 0 (N.of_nat (length bs))) any.
Proof. intros E%valid_buckets_length. apply safe_gen_range; change u64_mod with 18446744073709551616%N; lia. Qed.

Lemma safe_target_wire n d t l r : safe n (target_wire d t l r) any.
Proof.
  unfold target_wire. safe_step. destruct (_ && _ && _); [by apply safe_ret|]. destruct (_ && _); [|by apply safe_ret].
  destruct (valid_buckets s) eqn:E; [by apply safe_ret|]. eapply safe_bind; [by eapply safe_pick|]. intros i _. by apply safe_ret.
Qed.

End Table.
#[export] Hint Resolve safe_admit_member safe_insert_tag safe_drop_session safe_record_new_epoch safe_add_peer
  safe_set_peer_transport safe_set_fec_config safe_build_junk safe_obf_wrap safe_count_daita safe_target_wire : safe.

(** ** Egress *)

Section Egress.
Context {snow : Snow} {kem : MlKem} {aead : Sess.Aead} {D T : Type} {MP : ManagedPlane D} {RV : Rendezvous T}.
Context {blake : Blake2s} {ed : Ed25519} {iter : HashIter} {sip : SipHash24} {os : Os}.
Context {wf : D -> Prop} {clock : N -> Prop} {ML : ManagedLaws wf clock}.
Context {BL : Blake2sLaws} {EL : Ed25519Laws} {IL : HashIterLaws} {RL : Client.RendezvousLaws T}.
Context {eps : list SocketAddr}.
Notation PeerManager := (PeerManager D T).
Notation Peer := (Peer D).
Notation inv := (inv wf eps).
Notation inv_at := (inv_at wf eps).
Notation safe := (safe (T := T) wf eps).
Notation peer_ok := (peer_ok wf).
Implicit Types (s : PeerManager) (p : Peer).

Lemma safe_obf_one n server active d : safe n (obf_one server active d) any.
Proof.
  unfold obf_one. safe_step. destruct (bytes d) as [|t body]; [by apply safe_ret|]. destruct (bool_decide _).
  - destruct (obf_key s) as [key|]; [|by apply safe_ret]. cbv zeta.
    eapply safe_bind with (R := any); [by safely|]. intros pad _. safely.
  - destruct (obf_key_for_egress _ _ _) as [key|]; [|by apply safe_ret]. cbv zeta.
    eapply safe_bind with (R := any); [by safely|]. intros [pad fate] _.
    eapply safe_bind; [apply safe_obf_wrap|]. intros [w|] _; [|by apply safe_ret].
    eapply safe_bind with (R := any); [by safely|]. intros _ _. by apply safe_ret.
Qed.

Lemma safe_obf_egress n dgs : safe n (obf_egress dgs) any.
Proof. unfold obf_egress. safe_step. cbv zeta. apply safe_mconcat. intros d _. apply safe_obf_one. Qed.

Lemma pop_due_length now q : length (pop_due now q).2 <= length q.
Proof.
  induction q as [|x q IH]; cbn [pop_due]; [done|]. destruct (due now x); [|done]. destruct (pop_due now q). cbn in *. lia.
Qed.

Lemma filter_length_le {A} (f : A -> bool) l : length (List.filter f l) <= length l.
Proof. induction l as [|x l IH]; cbn; [done|]. destruct (f x); cbn; lia. Qed.

Lemma safe_set_queue n q :
  length q <= MAX_JITTER_QUEUE -> safe n (modify (fun s => s <| scheduled_egress := q |>)) any.
Proof. intros Hq. apply safe_modify. intros s [[] Hn]. split; [by constructor|done]. Qed.

Lemma safe_drain_scheduled n now out : safe n (drain_scheduled_egress now out) any.
Proof.
  unfold drain_scheduled_egress. safe_step. pose proof (pop_due_length now (scheduled_egress s)) as Hp.
  pose proof (inv_queue _ _ _ H). destruct (pop_due _ _) as [popped rest]. cbn [snd] in Hp.
  set (x := if existsb _ _ then _ else _). assert (length x.2 <= length rest) as Hx.
  { unfold x. destruct (existsb _ _); [apply filter_length_le|done]. }
  destruct x as [late rest']. cbn [snd] in Hx. eapply safe_bind; [apply safe_set_queue; lia|]. intros _ _. by apply safe_ret.
Qed.

Lemma safe_queue_scheduled n dg after out : safe n (queue_scheduled_egress dg after out) any.
Proof.
  unfold queue_scheduled_egress. safe_step. pose proof (inv_queue _ _ _ H) as Hq. cbv zeta.
  set (x := match scheduled_egress s with [] => _ | _ => _ end). assert (length x.2 < MAX_JITTER_QUEUE) as Hx.
  { unfold x. destruct (scheduled_egress s) as [|o q]; [unfold MAX_JITTER_QUEUE; cbn; lia|].
    destruct (Nat.leb_spec MAX_JITTER_QUEUE (length (o :: q))); cbn [snd length] in *; lia. }
  destruct x as [evicted q]. cbn [snd] in Hx. cbv zeta. eapply safe_bind; [apply safe_set_queue|intros _ _; by apply safe_ret].
  rewrite length_app, length_take. cbn [length]. rewrite length_drop. lia.
Qed.

Lemma safe_jitter_loop n jm now dgs are_data imm :
  (jm + 1 < u64_mod)%N -> safe n (jitter_loop jm now dgs are_data imm) any.
Proof.
  intros Hj. revert are_data imm. induction dgs as [|dg dgs IH]; intros are_data imm; [by apply safe_ret|].
  destruct are_data as [|b are_data]; [by apply safe_ret|]. cbn [jitter_loop].
  eapply safe_bind with (R := any); [|intros imm' _; apply IH]. destruct b; cbn [negb]; [|by apply safe_ret].
  eapply safe_bind; [apply safe_gen_range; lia|]. intros delta _. destruct (_ =? _)%N; [by apply safe_ret|].
  apply safe_queue_scheduled.
Qed.

Lemma safe_apply_jitter n dgs are_data now : safe n (apply_egress_jitter dgs are_data now) any.
Proof.
  unfold apply_egress_jitter. safe_step. cbv zeta. destruct (_ =? _)%N.
  - destruct (scheduled_egress s); [by apply safe_ret|apply safe_drain_scheduled].
  - eapply safe_bind; [by apply safe_jitter_loop, (inv_jitter wf eps)|]. intros imm _. apply safe_drain_scheduled.
Qed.

Lemma safe_obf_jitter n dgs now : safe n (obf_egress_with_jitter dgs now) any.
Proof. eapply safe_bind; [apply safe_obf_egress|]. intros l _. apply safe_apply_jitter. Qed.

Lemma safe_plain_jitter n dgs now : safe n (jitter_unobfuscated_egress dgs now) any.
Proof. apply safe_apply_jitter. Qed.

End Egress.
#[export] Hint Resolve safe_obf_egress safe_drain_scheduled safe_queue_scheduled safe_obf_jitter safe_plain_jitter : safe.
End Safe.
