(* ===== verification/PmSafeHs.v ===== *)
(** * The peer manager: safety of rekeys, handshakes and routing

    Every handler of PmRekey, PmHandshake and PmRouting keeps the invariant of
    PmSafe and does not panic. *)

From Stdlib Require Strings.Byte.
From Stdlib Require Import NArith Lia.
From stdpp Require Import base numbers gmap list.
From S2P Require Import Prelude StateM Adaptive AntiReplay Session DataPlane NetAddr MemberCodec MemberVerify Directory DirSafe Obf RdvProto RdvClient EpochSet EpochPlane PathState Noise Metrics PmState PmTable PmPlane PmObf PmRekey PmHandshake PmRouting PmSafe.

Local Open Scope nat_scope.

Module SafeHs.
Import Pm Tbl Obfs Rekeys Cold Route EpochWf Safe.

(** ** Fresh sessions *)

Section Fresh.
Context {snow : Snow} {kem : MlKem} {aead : Sess.Aead} {blake : Blake2s}.

Lemma finish_fresh h est : Hs.finish h = Ok est -> fresh est.
Proof.
  unfold Hs.finish, Hs.into_session, Sess.from_raw_keys. destruct (Hs.raw_split_keys h).
  destruct (Sess.key_new _); [|done]. destruct (Sess.key_new _); [|done]. destruct (Hs.derive_wire_keys _). by intros [= <-].
Qed.

Lemma start_responder_fresh r r' priv dg pl est pkt pk ipl :
  Hs.start_responder r r' priv dg pl = Ok (est, pkt, pk, ipl) -> fresh est.
Proof.
  unfold Hs.start_responder. destruct (Hs.responder priv); [|done]. destruct dg as [|t msg1]; [done|].
  destruct (negb _); [done|]. destruct (Hs.read_message _ _ _) as [[? ?]|]; [|done].
  destruct (Hs.write_message _ _ _) as [[? ?]|]; [|done]. destruct (Hs.remote_static _); [|done].
  destruct (Hs.finish _) eqn:E; [|done]. intros [= <- _ _ _]. by apply finish_fresh in E.
Qed.

Lemma read_response_fresh h dg est pl : Hs.read_response h dg = Ok (est, pl) -> fresh est.
Proof.
  unfold Hs.read_response. destruct dg as [|t msg2]; [done|]. destruct (negb _); [done|].
  destruct (Hs.read_message _ _ _) as [[? ?]|]; [|done]. destruct (Hs.finish _) eqn:E; [|done].
  intros [= <- _]. by apply finish_fresh in E.
Qed.
End Fresh.

(** ** Rekeys *)

Section Rekey.
Context {snow : Snow} {kem : MlKem} {aead : Sess.Aead} {D T : Type} {MP : ManagedPlane D} {RV : Rendezvous T}.
Context {blake : Blake2s} {ed : Ed25519} {iter : HashIter} {sip : SipHash24} {os : Os}.
Context {wf : D -> Prop} {clock : N -> Prop} {ML : ManagedLaws wf clock}.
Context {BL : Blake2sLaws} {EL : Ed25519Laws} {IL : HashIterLaws} {RL : Client.RendezvousLaws T}.
Context {eps : list SocketAddr}.
Notation PeerManager := (PeerManager D T).
Notation Peer := (Peer D).
Notation inv := (inv wf eps).
Notation inv_at := (inv_at wf eps).
Notation safe := (safe (T := T) wf eps).
Notation peer_ok := (peer_ok wf).
Implicit Types (s : PeerManager) (p : Peer).


Lemma safe_relay_wrap n idx raw : idx < n -> safe n (relay_wrap idx raw) any.
Proof.
  intros Hi. unfold relay_wrap. eapply safe_bind; [by apply safe_peer_at|]. intros p (Hp & _). safe_step.
  destruct (rendezvous s) as [r|]; [|by apply safe_ret].
  eapply safe_bind with (R := any); [apply safe_lift|intros; by apply safe_ret].
  destruct (Client.relay_law r (local_node_id s) (node p) raw) as (dg & -> & _); [apply H|done|]. by eexists.
Qed.

Lemma safe_relay_wrap_all n idx raws : idx < n -> safe n (relay_wrap_all idx raws) any.
Proof.
  intros Hi. apply safe_mconcat. intros raw _. eapply safe_bind; [by apply safe_relay_wrap|]. intros d _. by apply safe_ret.
Qed.

Lemma safe_own_cert_payload n : safe n own_cert_payload any.
Proof.
  unfold own_cert_payload. safe_step. destruct (membership s) as [m|] eqn:E; [|by apply safe_ret].
  apply safe_lift. destruct (DirSafe.own_cert_bytes_safe eps m) as (b & ->); [by apply H|]. by eexists.
Qed.

Lemma safe_verify n m payload c pk now : cert_decode payload = Some c ->
  safe n (lift (Dir.member_verify_cert os_skew m c pk now)) any.
Proof.
  intros [Hc _]%cert_decode_iff. apply safe_lift. destruct (DirSafe.member_verify_cert_safe os_skew m c pk now Hc) as (b & ->).
  by eexists.
Qed.

Lemma safe_cert_admits n payload pk : safe n (cert_admits payload pk) any.
Proof.
  unfold cert_admits, responder_cert_ok. safe_step. destruct (is_root _ _); [by apply safe_ret|]. safe_step.
  destruct (membership s0) as [m|]; [|by apply safe_ret].
  destruct (cert_decode payload) eqn:E; [|by apply safe_ret]. eapply safe_bind; [apply safe_now_secs|].
  intros now _. by eapply safe_verify.
Qed.

Lemma safe_retry_interval n : safe n retry_interval any.
Proof. unfold retry_interval. safely. Qed.

Lemma safe_make_init n pk : safe n (make_init pk) any.
Proof. unfold make_init. eapply safe_bind; [apply safe_own_cert_payload|]. intros cert _. safely. Qed.

Lemma safe_take_pending n idx : idx < n -> safe n (take_pending idx) (Forall sealable).
Proof.
  intros Hi. unfold take_pending. eapply safe_bind; [by apply safe_peer_at|]. intros p Hp.
  eapply safe_bind; [apply safe_upd_peer; [done|]|intros _ _; by apply safe_ret, Hp].
  intros q (? & ? & _). split_and!; [done..|cbn; lia].
Qed.

Lemma safe_drain_pending n idx dp pending now :
  idx < n -> wf dp -> clock now -> Forall sealable pending -> safe n (drain_pending idx dp pending now) (fun x => wf x.1).
Proof.
  intros Hi Hd Hnow HF. unfold drain_pending.
  assert (safe n (mret (dp, [])) (fun x : D * list EgressDatagram => wf x.1)) as Hacc by (by apply safe_ret).
  revert Hacc. generalize (mret (dp, []) : M PeerManager (D * list EgressDatagram)).
  induction HF as [|inner l Hin _ IH]; intros acc Hacc; cbn [fold_left]; [done|]. apply IH.
  eapply safe_bind; [exact Hacc|]. intros x Hx. cbv zeta. safe_step. intros _ _. safe_step. intros _ _.
  eapply safe_bind with (R := fun y => wf y.1).
  { apply safe_lift. destruct (ml_on_tun x.1 inner now Hx Hnow Hin) as (d' & out & -> & Hd'). by eexists. }
  intros y Hy. safe_step. intros _ _. by apply safe_ret.
Qed.

Lemma safe_push_rekey_egress n idx dg b : idx < n -> safe n (push_rekey_egress idx dg b) any.
Proof.
  intros Hi. unfold push_rekey_egress. destruct b; [|by apply safe_ret]. eapply safe_bind; [by apply safe_relay_wrap|].
  intros d _. by apply safe_ret.
Qed.

End Rekey.
#[export] Hint Resolve safe_relay_wrap safe_relay_wrap_all safe_own_cert_payload safe_cert_admits safe_retry_interval
  safe_make_init safe_push_rekey_egress : safe.

Section Cores.
Context {snow : Snow} {kem : MlKem} {aead : Sess.Aead} {D T : Type} {MP : ManagedPlane D} {RV : Rendezvous T}.
Context {blake : Blake2s} {ed : Ed25519} {iter : HashIter} {sip : SipHash24} {os : Os}.
Context {wf : D -> Prop} {clock : N -> Prop} {ML : ManagedLaws wf clock}.
Context {BL : Blake2sLaws} {EL : Ed25519Laws} {IL : HashIterLaws} {RL : Client.RendezvousLaws T}.
Context {eps : list SocketAddr}.
Notation PeerManager := (PeerManager D T).
Notation Peer := (Peer D).
Notation inv := (inv wf eps).
Notation inv_at := (inv_at wf eps).
Notation safe := (safe (T := T) wf eps).
Notation peer_ok := (peer_ok wf).
Implicit Types (s : PeerManager) (p : Peer).


Lemma peer_session p e : peer_ok p -> state p = Established e -> epochs_wf wf e.
Proof. intros (_ & H & _) E. by rewrite E in H. Qed.

Lemma peer_ok_established p e : peer_ok p -> epochs_wf wf e -> peer_ok (p <| state := Established e |>).
Proof. intros (? & _ & ? & ?) He. by split_and!. Qed.

Lemma peer_ok_idle p : peer_ok p -> peer_ok (p <| state := Idle |>).
Proof. by intros (? & _ & ? & ?). Qed.

Lemma set_rekey_wf (e : Epochs D) r : epochs_wf wf e -> epochs_wf wf (Epochs.set_rekey e r).
Proof. by intros []. Qed.

Lemma install_next_wf (e : Epochs D) d eph resp : epochs_wf wf e -> wf d -> epochs_wf wf (Epochs.install_next e d eph resp).
Proof. intros He Hd. by destruct (epoch_step_ok wf clock e (EInstall d eph resp) He Hd) as (? & [= <-] & ?). Qed.

Lemma promote_wf (e : Epochs D) d now : epochs_wf wf e -> wf d -> epochs_wf wf (Epochs.promote_from_rekey e d now).
Proof. intros He Hd. by destruct (epoch_step_ok wf clock e (EPromote d now) He Hd) as (? & [= <-] & ?). Qed.

Lemma set_current_wf (e : Epochs D) d : epochs_wf wf e -> wf d -> epochs_wf wf (Epochs.set_current e d).
Proof. intros [] Hd. by constructor. Qed.

Lemma safe_drive_rekey n idx rel e now :
  idx < n -> epochs_wf wf e -> safe n (drive_rekey_schedule idx rel e now) (fun x => epochs_wf wf x.1).
Proof.
  intros Hi He. unfold drive_rekey_schedule. safe_step. eapply safe_bind; [apply safe_peer_at; lia|]. intros p Hp. cbv zeta.
  assert (forall a pkt, safe (length (peers s))
    (if rel then d ← relay_wrap idx pkt; mret (option_list d) else mret [mkEgress 0 a pkt]) any) as Hsend.
  { intros a pkt. destruct rel; safely. }
  destruct (rekey e) as [rk|].
  - destruct (_ <=? _)%N; [by apply safe_ret, set_rekey_wf|]. destruct (_ <? _)%N; [by apply safe_ret|].
    eapply safe_bind; [apply Hsend|]. intros out _. safe_step. intros r _. by apply safe_ret, set_rekey_wf.
  - destruct (negb _); [by apply safe_ret|]. destruct (if rel then _ else _) as [a|]; [|by apply safe_ret].
    safe_step. intros [[h pkt]|] _; [|by apply safe_ret]. safe_step. intros r _.
    eapply safe_bind; [apply Hsend|]. intros out _. by apply safe_ret, set_rekey_wf.
Qed.

(** The peer has a session. *)
Definition est_at (idx : nat) s : Prop := exists p e, peers s !! idx = Some p /\ state p = Established e.

(** A handler that expects a session, in a state that has it. *)
Definition est_kept (idx : nat) : relation PeerManager := fun s s' => est_at idx s -> est_at idx s'.

#[export] Instance est_kept_preorder idx : PreOrder (est_kept idx).
Proof. split; [by intros s ?|]. intros s1 s2 s3 H1 H2 H. by apply H2, H1. Qed.

Lemma est_kept_upd idx i f : (forall p, state (f p) = state p) -> keeps (est_kept idx) (upd_peer i f).
Proof.
  intros Hf s s' []. unfold upd_peer, get, modify, mbind, M_bind. cbn [rbind].
  destruct (peers s !! i) as [p|] eqn:Ei; [|done]. intros [= <-] (q & e & Eq & Es). unfold est_at. cbn.
  destruct (decide (i = idx)) as [->|Hne]; [|rewrite list_lookup_insert_ne by done; eauto].
  rewrite list_lookup_insert_eq by (by eapply lookup_lt_Some). assert (q = p) as -> by congruence. exists (f p), e. by rewrite Hf.
Qed.

Lemma est_kept_cert_admits idx pl pk : keeps (est_kept idx) (cert_admits pl pk).
Proof. unfold cert_admits, responder_cert_ok, now_secs, wall_ns, draw. keep. apply keeps_modify. by intros s ?. Qed.

Definition safe_est {A} (n idx : nat) (m : M PeerManager A) : Prop :=
  spec (fun s => inv_at n s /\ est_at idx s) m (fun s _ => inv_at n s).

Lemma safe_est_any {A} n idx (m : M PeerManager A) : safe n m any -> safe_est n idx m.
Proof. intros H. eapply spec_conseq; [exact H|by intros s [? _]|by intros s a [? _]]. Qed.

(** Reading the peer whose state is taken for granted. *)
Lemma safe_est_peer {B} n idx (k : Peer -> M PeerManager B) :
  idx < n -> (forall p e, peer_ok p -> state p = Established e -> safe n (k p) any) -> safe_est n idx (p ← peer_at idx; k p).
Proof.
  intros Hi Hk s [Hs (p & e & Ep & Es)].
  assert (peer_ok p) as Hp by (apply (Forall_lookup_1 _ _ _ _ (inv_peers _ _ _ (proj1 Hs)) Ep)).
  destruct (Hk p e Hp Es s Hs) as (s' & b & E & H & _). exists s', b. split; [|done].
  unfold peer_at, get, mbind, M_bind in *. cbn [rbind]. by rewrite Ep.
Qed.

Lemma safe_est_get {B} n idx (k : PeerManager -> M PeerManager B) :
  (forall s, inv s -> n <= length (peers s) -> safe_est (length (peers s)) idx (k s)) -> safe_est n idx (get ≫= k).
Proof.
  intros Hk s [[Hs Hn] He]. destruct (Hk s Hs Hn s) as (s' & b & E & [Hs' Hl]); [done|]. exists s', b.
  split; [done|]. split; [done|lia].
Qed.

Lemma safe_est_bind {A B} n idx (m : M PeerManager A) (k : A -> M PeerManager B) (R : A -> Prop) :
  safe n m R -> keeps (est_kept idx) m ->
  (forall a, R a -> safe_est n idx (k a)) -> safe_est n idx (m ≫= k).
Proof.
  intros Hm Hkeep Hk. eapply spec_bind; [apply spec_frame; [exact Hm|exact Hkeep]|].
  intros a s [[Hs Ha] He]. by apply (Hk a Ha).
Qed.

(** Reading a peer that may have a session. *)
Lemma safe_peer {B} n idx (k : Peer -> M PeerManager B) :
  idx < n -> (forall p, peer_ok p -> is_established p = false -> safe n (k p) any) ->
  (forall p e, peer_ok p -> state p = Established e -> safe_est n idx (k p)) -> safe n (p ← peer_at idx; k p) any.
Proof.
  intros Hi H1 H2. eapply spec_bind; [by apply peer_at_spec|]. intros p s (Hs & Hp & Ep).
  destruct (is_established p) eqn:E; [|by apply H1]. unfold is_established in E. destruct (state p) as [| |e] eqn:Es; [done..|].
  destruct (H2 p e Hp Es s) as (s' & b & E' & H'); [split; [done|by exists p, e]|]. by exists s', b.
Qed.

Lemma safe_rekey_init n idx est pkt eph ts src via :
  idx < n -> fresh est -> safe_est n idx (rekey_init_core idx est pkt eph ts src via).
Proof.
  intros Hi Hf. unfold rekey_init_core. apply safe_est_get. intros s Hs Hn. cbv zeta.
  apply safe_est_peer; [lia|]. intros p e Hp Ep.
  assert (forall pkt, safe (length (peers s)) (out ← push_rekey_egress idx
    (mkEgress 0 (if via then server_addr s else src) pkt) via; mret (udp_or_none out)) any) as Hreply by (intros; safely).
  destruct (bool_decide _); [destruct (cached_resp p); [apply Hreply|by apply safe_ret]|].
  rewrite Ep. destruct (Epochs.next_cached_resp_for e eph); [apply Hreply|].
  destruct (negb _); [by apply safe_ret|]. eapply safe_bind; [|intros _ _; apply Hreply].
  apply safe_upd_peer; [lia|]. intros q (? & _ & ? & ?). split_and!; try done.
  apply install_next_wf; [by eapply peer_session|by apply (new_plane_wf (clock := clock) (eps := eps))].
Qed.

Lemma safe_rekey_resp n idx dg now via :
  idx < n -> clock now -> safe_est n idx (rekey_resp_core idx dg now via).
Proof.
  intros Hi Hnow. unfold rekey_resp_core. apply safe_est_peer; [done|]. intros p e0 Hp Ep. rewrite Ep.
  pose proof (peer_session _ _ Hp Ep) as He0.
  destruct (rekey e0) as [rk|]; [|by apply safe_ret]. cbv zeta.
  eapply safe_bind; [apply safe_set_epochs; [done|by apply set_rekey_wf]|]. intros _ _. safe_step.
  destruct (Hs.read_response _ _) as [[est pl]|] eqn:Er; [|by apply safe_ret]. apply read_response_fresh in Er.
  safe_step. intros ok _. destruct (negb ok); [by apply safe_ret|].
  eapply safe_bind with (R := any); [destruct (cert_decode pl); safely|]. intros _ _. safe_step. intros _ _.
  eapply safe_bind; [apply safe_take_pending; lia|]. intros pending Hpend.
  set (dp := new_plane s est _). assert (wf dp) as Hdp by (by apply (new_plane_wf (clock := clock) (eps := eps))).
  eapply safe_bind with (R := fun x => wf x.1).
  { destruct pending as [|i l]; [|apply safe_drain_pending; [lia|done..]]. apply safe_lift.
    destruct (ml_on_tun dp [] now Hdp Hnow) as (d' & out & -> & Hd'); [by vm_compute|]. by eexists. }
  intros x Hx. eapply safe_bind; [apply safe_mconcat; intros d _; apply safe_push_rekey_egress; lia|]. intros out _.
  eapply safe_bind.
  { apply safe_upd_peer; [lia|]. intros q (? & _ & ? & ?). split_and!; try done.
    apply promote_wf; [by apply set_rekey_wf|done]. }
  intros _ _. eapply safe_bind; [apply safe_modify|intros _ _].
  { intros s' [[] Hn']. split; [|done]. constructor; try done. apply in_table_insert; [cbn; lia|]. by apply in_table_delete. }
  safely.
Qed.

End Cores.

(** ** Cold starts *)

Section Cold.
Context {snow : Snow} {kem : MlKem} {aead : Sess.Aead} {D T : Type} {MP : ManagedPlane D} {RV : Rendezvous T}.
Context {blake : Blake2s} {ed : Ed25519} {iter : HashIter} {sip : SipHash24} {os : Os}.
Context {wf : D -> Prop} {clock : N -> Prop} {ML : ManagedLaws wf clock}.
Context {BL : Blake2sLaws} {EL : Ed25519Laws} {IL : HashIterLaws} {RL : Client.RendezvousLaws T} {SL : SnowLaws}.
Context {eps : list SocketAddr}.
Notation PeerManager := (PeerManager D T).
Notation Peer := (Peer D).
Notation inv := (inv wf eps).
Notation inv_at := (inv_at wf eps).
Notation safe := (safe (T := T) wf eps).
Notation peer_ok := (peer_ok wf).
Implicit Types (s : PeerManager) (p : Peer).


Lemma safe_begin_handshake n idx a via now : idx < n -> safe n (begin_handshake idx a via now) any.
Proof.
  intros Hi. unfold begin_handshake. safe_step. intros p Hp. safe_step. intros [[h pkt]|] _; [|by safely].
  eapply safe_bind with (R := any); [destruct via; safely|]. intros [dg|] _; [|by apply safe_ret].
  eapply safe_bind with (R := any); [destruct via; safely|]. intros _ _. safe_step. intros r _. safe_step. intros _ _.
  safe_step. destruct (obf_key s); [|by apply safe_ret]. destruct (negb via); [|by apply safe_ret].
  eapply safe_bind; [apply safe_gen_range; by vm_compute|]. intros jc _.
  eapply safe_bind; [apply safe_mconcat; intros; safely|]. intros junk _. by apply safe_ret.
Qed.

Lemma safe_establish n idx dp b now : idx < n -> wf dp -> clock now -> safe n (establish idx dp b now) any.
Proof.
  intros Hi Hd Hnow. unfold establish. eapply safe_bind; [by apply safe_take_pending|]. intros pending Hp.
  eapply safe_bind; [by apply safe_drain_pending|]. intros x Hx. safe_step. cbv zeta.
  eapply safe_bind; [apply safe_set_epochs; [lia|]|].
  { destruct b; [apply (set_ratio_wf (clock := clock))|]; by apply epochs_new_wf. }
  intros _ _. safely.
Qed.

Lemma admit_initiator_spec n pk cert now :
  spec (inv_at n) (admit_initiator pk cert now)
    (fun s o => inv_at n s /\ forall idx, o = Some idx -> idx < length (peers s)).
Proof.
  unfold admit_initiator.
  assert (forall o : option nat, (forall s', inv_at n s' -> forall idx, o = Some idx -> idx < length (peers s')) ->
    spec (inv_at n) (mret o) (fun s o => inv_at n s /\ forall idx, o = Some idx -> idx < length (peers s))) as Hret.
  { intros o Ho. apply spec_ret. intros s' Hs'. split; [done|]. by apply Ho. }
  intros s Hs. set (find := fun s => position _ (peers s)).
  destruct (find s) as [i|] eqn:Ef.
  { exists s, (Some i). unfold get, mbind, M_bind. cbn [rbind]. fold (find s). rewrite Ef. split; [done|]. split; [done|].
    intros idx [= <-]. by apply position_lt in Ef. }
  assert (forall m, safe n (match cert_decode cert with
                            | Some c => now ← now_secs; lift (Dir.member_verify_cert os_skew m c pk now)
                            | None => mret false
                            end) any) as Hok.
  { intros m. destruct (cert_decode cert) eqn:Ec; [|by apply safe_ret]. safe_step. intros x _. by eapply safe_verify. }
  assert (safe n (match membership s with
                  | None => mret false
                  | Some m => match cert_decode cert with
                              | Some c => now ← now_secs; lift (Dir.member_verify_cert os_skew m c pk now)
                              | None => mret false
                              end
                  end) any) as Hok' by (destruct (membership s); [apply Hok|by apply safe_ret]).
  destruct (Hok' s Hs) as (s1 & ok & E1 & Hs1 & _). unfold get, mbind, M_bind in *. cbn [rbind] in *. fold (find s).
  rewrite Ef. rewrite E1. cbn [rbind]. destruct ok; cbn [negb].
  - destruct (safe_admit_member n pk [] now s1 Hs1) as (s2 & [] & E2 & Hs2 & _). rewrite E2. cbn [rbind].
    exists s2, (find s2). split; [done|]. split; [done|]. intros idx. apply position_lt.
  - exists s1, None. by split_and!.
Qed.

(** The arm of an initiation for a peer with a session. *)
Lemma safe_init_established n idx est pkt ts src via cert pk (X : M PeerManager (list u8)) :
  idx < n -> fresh est -> safe n X any -> keeps (est_kept idx) X ->
  safe_est (wf := wf) (eps := eps) n idx (
    ok ← cert_admits cert pk;
    if (negb ok : bool) then drop_session idx ;; mret OutNone
    else
      match cert_decode cert with
      | Some c => upd_peer idx (fun p => p <| admitted_cert_not_after := Some (not_after c) |>)
      | None => mret tt
      end ;;
      eph ← X;
      rekey_init_core idx est pkt eph ts src via).
Proof.
  intros Hi Hf HX HK. eapply safe_est_bind; [apply safe_cert_admits|apply est_kept_cert_admits|]. intros ok _.
  destruct (negb ok); [apply safe_est_any; safely|].
  eapply safe_est_bind with (R := any); [destruct (cert_decode cert); safely| |intros _ _].
  { destruct (cert_decode cert); [by apply est_kept_upd|apply keeps_ret, _]. }
  eapply safe_est_bind; [exact HX|exact HK|]. intros e _. by apply (safe_rekey_init (clock := clock)).
Qed.

(** The arm of an initiation for a peer without one. *)
Lemma safe_cold_init n idx p src dg now est pkt ts cert pk s :
  inv s -> idx < n -> fresh est -> clock now ->
  safe n (if negb (is_idle p) && lower_key s p then mret OutNone
          else
            ok ← cert_admits cert pk;
            if (negb ok : bool) then mret OutNone
            else if negb (accept_fresh_init s p ts) then mret OutNone
            else
              let dp := new_plane s est src in
              upd_peer idx (fun p => note_init ts cert pkt dg (session_obf_key_for s (Hs.hp_key est)) (p <| endpoint := Some src |>)) ;;
              modify (fun s => s <| by_tag ::= <[mp_conn_tag dp := idx]> |>) ;;
              upd_peer idx (commit_direct src) ;;
              drained ← establish idx dp true now;
              mret (OutUdp (mkEgress 0 src pkt :: drained))) any.
Proof.
  intros Hs Hi Hf Hnow. destruct (_ && _); [by apply safe_ret|]. safe_step. intros ok _. destruct (negb ok); [by apply safe_ret|].
  destruct (negb _); [by apply safe_ret|]. cbv zeta. safe_step. intros _ _.
  eapply safe_bind; [by apply safe_insert_tag|]. intros _ _. safe_step. intros _ _.
  eapply safe_bind; [apply safe_establish; [done|by apply (new_plane_wf (clock := clock) (eps := eps))|done]|].
  intros out _. by apply safe_ret.
Qed.

Lemma safe_handle_init n src dg now : clock now -> safe n (handle_handshake_init src dg now) any.
Proof.
  intros Hnow. unfold handle_handshake_init. safe_step. intros rp _. safe_step. intros r _. safe_step. intros r' _. safe_step.
  destruct (Hs.start_responder _ _ _ _ _) as [[[[est pkt] pk] ipl]|] eqn:Er; [|by safely].
  pose proof (Hs.start_responder_ephemeral _ _ _ _ _ _ _ _ _ Er) as [eph Heph]. apply start_responder_fresh in Er.
  destruct (Hs.parse_init_payload ipl) as [[ts cert]|]; [|by apply safe_ret].
  eapply safe_bind_grow; [apply admit_initiator_spec|]. clear H0 H. intros s1 [idx|] Hs1 _ Hidx; [|by apply safe_ret].
  specialize (Hidx idx eq_refl). apply safe_peer; [done| |].
  - intros p Hp Hne. safe_step. pose proof (safe_cold_init (length (peers s0)) idx p src dg now est pkt ts cert pk s0) as Hc.
    unfold is_established in Hne. destruct (state p); [apply Hc; [done|lia|done..]..|done].
  - intros p e Hp Ep. apply safe_est_get. intros s2 Hs2 Hn2. rewrite Ep.
    destruct (negb (relay p)); [|apply safe_est_any; by apply safe_ret].
    apply safe_init_established; [lia|done| |apply keeps_lift, _]. apply safe_lift. rewrite Heph. by eexists.
Qed.

(** What the initiator's arms end with. *)
Lemma safe_complete n idx dp b now (k : list EgressDatagram -> M PeerManager DispatchOut) f g :
  idx < n -> wf dp -> clock now ->
  (forall p, node (f p) = node p /\ state (f p) = state p /\ pending_tun (f p) = pending_tun p) ->
  (forall p, node (g p) = node p /\ state (g p) = state p /\ pending_tun (g p) = pending_tun p) ->
  (forall l, safe n (k l) any) ->
  safe n (modify (fun s => s <| by_tag ::= <[mp_conn_tag dp := idx]> |>) ;;
          upd_peer idx f ;; upd_peer idx g ;; drained ← establish idx dp b now; k drained) any.
Proof.
  intros Hi Hd Hnow Hf Hg Hk. eapply safe_bind; [by apply safe_insert_tag|]. intros _ _.
  eapply safe_bind; [by apply safe_touch|]. intros _ _. eapply safe_bind; [by apply safe_touch|]. intros _ _.
  eapply safe_bind; [by apply safe_establish|]. intros l _. apply Hk.
Qed.

Lemma peer_at_known {B} n idx p s (k : Peer -> M PeerManager B) :
  inv_at n s -> peers s !! idx = Some p -> safe n (k p) any ->
  exists s' b, (p ← peer_at idx; k p) s = Ret (s', b) /\ inv_at n s' /\ any b.
Proof.
  intros Hs Ep Hk. destruct (Hk s Hs) as (s' & b & E & H). exists s', b. split; [|done].
  unfold peer_at, get, mbind, M_bind in *. cbn [rbind]. by rewrite Ep.
Qed.

(** The proof for each state, with all of its peers. *)
Lemma safe_state {A} n (m : M PeerManager A) (R : A -> Prop) :
  (forall s, inv s -> exists s' a, m s = Ret (s', a) /\ inv_at (length (peers s)) s' /\ R a) -> safe n m R.
Proof.
  intros H s [Hs Hn]. destruct (H s Hs) as (s' & a & E & [Hs' Hl] & Ha). exists s', a. split; [done|]. split; [|done].
  split; [done|lia].
Qed.

Lemma safe_handle_resp n src dg now : clock now -> safe n (handle_handshake_resp src dg now) any.
Proof.
  intros Hnow. apply safe_state. intros s Hs. assert (inv_at (length (peers s)) s) as Hat by (split; [done|lia]).
  unfold handle_handshake_resp. unfold mbind at 1, M_bind at 1, get at 1. cbn [rbind].
  destruct (position (fun p => _ && rekey_pending p && _) _) as [idx|] eqn:E1.
  { pose proof (position_lt _ _ _ E1) as Hi. apply position_some in E1 as (p & Ep & Hf).
    destruct (safe_rekey_resp (wf := wf) (clock := clock) (eps := eps) (length (peers s)) idx dg now false Hi Hnow s)
      as (s' & o & E & H'); [|by exists s', o].
    split; [done|]. unfold rekey_pending in Hf. exists p. destruct (state p); [by rewrite ?andb_false_r in Hf..|eauto]. }
  destruct (position (fun p => _ && is_handshaking p) _) as [idx|] eqn:E2; [|by exists s, OutNone].
  pose proof (position_lt _ _ _ E2) as Hi. apply position_some in E2 as (p & Ep & Hf).
  apply (peer_at_known _ idx p s); [done..|]. unfold is_handshaking in Hf.
  destruct (state p) as [|h|] eqn:Es; [by rewrite ?andb_false_r in Hf| |by rewrite ?andb_false_r in Hf].
  safe_step. intros _ _. destruct (Hs.read_response _ _) as [[est pl]|] eqn:Er; [|by safely]. apply read_response_fresh in Er.
  safe_step. intros ok _. destruct (negb ok); [by apply safe_ret|]. cbv zeta.
  apply safe_complete; try done; [by apply (new_plane_wf (clock := clock) (eps := eps))|]. intros l. by apply safe_ret.
Qed.

End Cold.
#[export] Hint Resolve safe_begin_handshake : safe.

(** ** Routing *)

Section Route.
Context {snow : Snow} {kem : MlKem} {aead : Sess.Aead} {D T : Type} {MP : ManagedPlane D} {RV : Rendezvous T}.
Context {blake : Blake2s} {ed : Ed25519} {iter : HashIter} {sip : SipHash24} {os : Os}.
Context {wf : D -> Prop} {clock : N -> Prop} {ML : ManagedLaws wf clock}.
Context {BL : Blake2sLaws} {EL : Ed25519Laws} {IL : HashIterLaws} {RL : Client.RendezvousLaws T} {SL : SnowLaws}.
Context {eps : list SocketAddr}.
Notation PeerManager := (PeerManager D T).
Notation Peer := (Peer D).
Notation inv := (inv wf eps).
Notation inv_at := (inv_at wf eps).
Notation safe := (safe (T := T) wf eps).
Notation peer_ok := (peer_ok wf).
Implicit Types (s : PeerManager) (p : Peer).


Lemma safe_maybe_lookup n idx now : idx < n -> safe n (maybe_lookup idx now) any.
Proof.
  intros Hi. unfold maybe_lookup. safe_step. intros p (Hp & _). cbv zeta. destruct (negb _); [by apply safe_ret|]. safe_step.
  destruct (rendezvous s) as [r|]; [|by apply safe_ret]. eapply safe_bind with (R := any); [apply safe_lift|intros dg _; by safely].
  destruct (Client.lookup_law r (node p) Hp) as (dg & ? & -> & _). by eexists.
Qed.

Lemma safe_advance_path n idx now : idx < n -> safe n (advance_path idx now) any.
Proof. intros Hi. unfold advance_path. safe_step. intros p Hp. cbv zeta. safely. Qed.

(** An action of the path. *)
Lemma safe_act n idx act now :
  idx < n ->
  safe n (match act with
          | Probe a => dgs ← begin_handshake idx a false now; mret (default [] dgs)
          | PathState.Relay => s ← get; dgs ← begin_handshake idx (server_addr s) true now; mret (default [] dgs)
          | NeedLookup => dg ← maybe_lookup idx now; mret (option_list dg)
          | PathState.Idle | NoPath => mret []
          end) any.
Proof.
  intros Hi. destruct act; try (by safely). eapply safe_bind; [by apply safe_maybe_lookup|]. intros dg _. by apply safe_ret.
Qed.

Lemma safe_drive_path_idle n idx now : idx < n -> safe n (drive_path_idle idx now) any.
Proof. intros Hi. eapply safe_bind; [by apply safe_advance_path|]. intros act _. by apply safe_act. Qed.

Lemma sole_peer_lt s i : sole_peer s = Some i -> i < length (peers s).
Proof. unfold sole_peer. destruct (Nat.eqb_spec (length (peers s)) 1); [|done]. intros [= <-]. lia. Qed.

Lemma route_tun_lt s inner i : inv s -> route_tun_index s inner = Some i -> i < length (peers s).
Proof.
  intros Hs. unfold route_tun_index. destruct (mode s); [|apply sole_peer_lt]. destruct (ipv6_dst inner) as [d|]; [|apply sole_peer_lt].
  destruct (Pm.by_addr s !! d) as [j|] eqn:E; [|destruct (membership s); [done|apply sole_peer_lt]].
  intros [= <-]. by apply (addr_lt (wf := wf) (eps := eps)) in E.
Qed.

Lemma route_data_spec n src dg :
  spec (inv_at n) (route_data src dg) (fun s o => inv_at n s /\ forall i, o = Some i -> i < length (peers s)).
Proof.
  intros s Hs. unfold route_data. unfold mbind at 1, M_bind at 1, get at 1. cbn [rbind].
  assert (exists s' o, (mret (position (from_endpoint src) (peers s)) : M PeerManager (option nat)) s = Ret (s', o) /\
    inv_at n s' /\ (forall i, o = Some i -> i < length (peers s'))) as Hsrc.
  { exists s. eexists. split; [done|]. split; [done|]. intros i. apply position_lt. }
  destruct dg as [|b0 rest]; [done|]. destruct (_ && _); [|done].
  destruct (by_tag s !! _) as [idx|] eqn:E; [|done]. apply (tag_lt (wf := wf) (eps := eps)) in E; [|apply Hs].
  destruct (lookup_lt_is_Some_2 _ _ E) as [p Ep]. exists s, (if is_established p then Some idx else position (from_endpoint src) (peers s)).
  unfold peer_at, get, mbind, M_bind. cbn [rbind]. rewrite Ep. split; [done|]. split; [done|]. intros i.
  destruct (is_established p); [by intros [= <-]|apply position_lt].
Qed.

Lemma safe_relearn n idx src : idx < n -> safe n (relearn_endpoint idx src) any.
Proof.
  intros Hi. unfold relearn_endpoint. safe_step. intros p Hp. cbv zeta.
  assert (forall a, safe n (upd_peer idx (fun p => p <| endpoint := Some a |>) ;;
    match state p with
    | Established e => e ← lift (Epochs.set_peer_addr e a); set_epochs idx e
    | _ => mret tt
    end) any) as Hmove.
  { intros a. safe_step. intros _ _. destruct (state p) as [| |e] eqn:Ep; [by apply safe_ret..|].
    eapply safe_bind with (R := epochs_wf wf); [apply safe_lift|intros e' He'; by apply safe_set_epochs].
    apply (epochs_set_addr_ok wf clock). by eapply peer_session. }
  destruct (relay p); [by apply safe_ret|]. destruct (endpoint p); [|apply Hmove].
  destruct (bool_decide _); [apply Hmove|by apply safe_ret].
Qed.

Lemma safe_open_session n idx e dg now :
  idx < n -> epochs_wf wf e -> clock now -> safe n (open_session idx e dg now) any.
Proof.
  intros Hi He Hnow. unfold open_session. eapply safe_bind with (R := fun x => epochs_wf wf x.1).
  { apply safe_lift. destruct (inbound_open_ok wf clock e dg now He Hnow) as (e' & o & -> & H). by exists (e', o). }
  intros [e' o] He'. eapply safe_bind; [by apply safe_set_epochs|]. intros _ _. cbv zeta.
  do 3 (eapply safe_bind; [apply safe_when; intros _; by safely|]; intros _ _). by apply safe_ret.
Qed.

Lemma safe_count_rx n idx buf : idx < n -> safe n (count_rx idx buf) any.
Proof. intros Hi. unfold count_rx. cbv zeta. safely. Qed.

Lemma safe_dispatch_established n idx src dg now :
  idx < n -> clock now -> safe n (dispatch_established idx src dg now) any.
Proof.
  intros Hi Hnow. unfold dispatch_established. safe_step. intros p Hp. destruct (state p) as [| |e] eqn:Ep; [by apply safe_ret..|].
  eapply safe_bind; [apply safe_open_session; [done|by eapply peer_session|done]|]. intros o _.
  eapply safe_bind; [apply safe_when; intros _; by apply safe_relearn|]. intros _ _.
  destruct o; try (by safely); (eapply safe_bind; [by apply safe_count_rx|]; intros _ _; by apply safe_ret).
Qed.

Lemma safe_try_sessions n l src dg now : Forall (fun i => i < n) l -> clock now -> safe n (try_sessions l src dg now) any.
Proof.
  intros HF Hnow. induction HF as [|idx l Hi _ IH]; cbn [try_sessions]; [by safely|]. safe_step. intros p Hp.
  destruct (state p) as [| |e] eqn:Ep; [done..|].
  eapply safe_bind; [apply safe_open_session; [done|by eapply peer_session|done]|]. intros o _. cbv zeta.
  destruct (match o with InNone => None | _ => _ end) as [[tun udp]|]; [|done].
  eapply safe_bind with (R := any); [destruct tun; [by apply safe_count_rx|by apply safe_ret]|]. intros _ _.
  eapply safe_bind; [by apply safe_relearn|]. intros _ _. by apply safe_ret.
Qed.

Lemma established_indices_lt s : Forall (fun i => i < length (peers s)) (established_indices s).
Proof.
  apply Forall_forall. intros i. unfold established_indices. rewrite list_elem_of_omap. intros ([j p] & Hx & E). cbn in E.
  destruct (is_established p); [|done]. injection E as ->. apply elem_of_lookup_imap in Hx as (k & q & [= -> ->] & Hl).
  by eapply lookup_lt_Some.
Qed.

Lemma safe_handle_data n src dg now : clock now -> dg <> [] -> safe n (handle_data_or_control src dg now) any.
Proof.
  intros Hnow Hdg. unfold handle_data_or_control. eapply safe_bind_grow; [apply route_data_spec|].
  intros s [idx|] Hs Hn Hidx.
  - specialize (Hidx idx eq_refl). destruct dg as [|b0 rest]; [done|].
    eapply safe_bind with (R := any); [destruct (is_type b0 Data); by safely|]. intros _ _. by apply safe_dispatch_established.
  - safe_step. apply safe_try_sessions; [apply established_indices_lt|done].
Qed.

End Route.
End SafeHs.
