(* ===== verification/PmRun.v ===== *)
(** * The peer manager: safety of a run

    The remaining handlers keep the invariant of PmSafe, and so does every
    sequence of datagrams, packets and ticks. *)

From Stdlib Require Strings.Byte.
From Stdlib Require Import NArith Lia.
From stdpp Require Import base numbers gmap list.
From S2P Require Import Prelude StateM Adaptive AntiReplay Session DataPlane NetAddr MemberCodec MemberVerify Directory DirSafe Obf RdvProto RdvClient EpochSet EpochPlane PathState Noise Metrics SplitTunnel PmState PmTable PmPlane PmObf PmRekey PmHandshake PmRouting PmRelay PmDispatch PmSafe PmSafeHs.

Local Open Scope nat_scope.

Module Run.
Import Pm Tbl Obfs Rekeys Cold Route Gos Rel Disp EpochWf Safe SafeHs.

(** ** Gossip *)

Section Gossip.
Context {snow : Snow} {kem : MlKem} {aead : Sess.Aead} {D T : Type} {MP : ManagedPlane D} {RV : Rendezvous T}.
Context {blake : Blake2s} {ed : Ed25519} {iter : HashIter} {sip : SipHash24} {os : Os}.
Context {wf : D -> Prop} {clock : N -> Prop} {ML : ManagedLaws wf clock}.
Context {BL : Blake2sLaws} {EL : Ed25519Laws} {IL : HashIterLaws} {RL : Client.RendezvousLaws T} {SL : SnowLaws}.
Context {eps : list SocketAddr}.
Notation PeerManager := (PeerManager D T).
Notation Peer := (Peer D).
Notation inv := (inv wf eps).
Notation inv_at := (inv_at wf eps).
Notation safe := (safe (T := T) wf eps).
Notation peer_ok := (peer_ok wf).
Implicit Types (s : PeerManager) (p : Peer).


Lemma safe_gossip_packet n msg : gossip_wf msg -> safe n (gossip_packet msg) any.
Proof.
  intros Hm. unfold gossip_packet. eapply safe_bind with (R := any); [apply safe_lift|intros; by apply safe_ret].
  rewrite gossip_encode_ok by done. by eexists.
Qed.

Lemma safe_set_membership n m : DirSafe.mem_safe eps m -> safe n (modify (fun s => s <| membership := Some m |>)) any.
Proof. intros Hm. apply safe_modify. intros s [[] Hn]. split; [|done]. constructor; try done. cbn. by intros ? [= <-]. Qed.

Lemma safe_answer_gossip n idx dg b src : idx < n -> safe n (answer_gossip idx dg b src) any.
Proof.
  intros Hi. unfold answer_gossip. destruct (gossip_decode _) as [msg|] eqn:Ed; [|by apply safe_ret].
  apply gossip_decode_spec in Ed as [Hm _]. safe_step. destruct (membership s) as [m|] eqn:Em; [|by apply safe_ret].
  safe_step. intros now _. eapply safe_bind with (R := fun x => DirSafe.mem_safe eps x.1 /\ Forall gossip_wf x.2).
  { apply safe_lift. destruct (DirSafe.on_gossip_safe os_skew eps m msg now) as (m' & rs & -> & H1 & H2); [by apply H|done|]. by eexists. }
  intros x [Hx Hr]. eapply safe_bind; [by apply safe_set_membership|]. intros _ _.
  eapply safe_bind; [apply safe_mconcat|intros out _; by apply safe_ret].
  intros reply Hin. eapply safe_bind; [apply safe_gossip_packet|intros pkt _; destruct b; safely].
  apply (proj1 (Forall_forall _ _) Hr). by eapply elem_of_take in Hin as (? & ? & _); eapply list_elem_of_lookup_2.
Qed.

Lemma safe_on_gossip n src dg : safe n (on_gossip src dg) any.
Proof.
  unfold on_gossip. safe_step. destruct (position _ _) as [idx|] eqn:E; [|by apply safe_ret]. apply position_lt in E.
  safe_step. intros p _. by apply safe_answer_gossip.
Qed.

Lemma safe_relayed_gossip n idx dg : idx < n -> safe n (relayed_gossip idx dg) any.
Proof.
  intros Hi. unfold relayed_gossip. safe_step. intros p _. safe_step.
  destruct (is_established p); [apply safe_answer_gossip; lia|by apply safe_ret].
Qed.

Lemma gossip_targets_lt s t i : t ∈ gossip_targets s -> t.2 = Some i -> i < length (peers s).
Proof.
  unfold gossip_targets. intros (k & Hk & _)%elem_of_take. apply list_elem_of_lookup_2 in Hk. revert Hk.
  rewrite elem_of_app, list_elem_of_omap. intros [([j p] & Hx & E)|Hr] Et.
  - cbn in E. destruct (is_established p); [|done]. apply elem_of_lookup_imap in Hx as (k' & q & [= -> ->] & Hl).
    destruct (relay q); [|destruct (endpoint q); [|done]]; injection E as <-; [|done]. injection Et as <-.
    by eapply lookup_lt_Some.
  - destruct (membership s); [|by apply not_elem_of_nil in Hr]. apply list_elem_of_fmap in Hr as (x & -> & _). done.
Qed.

Lemma safe_bootstrap n l now : safe n (bootstrap l now) any.
Proof.
  revert n. induction l as [|a l IH]; intros n; cbn [bootstrap]; [by apply safe_ret|]. safe_step.
  destruct (position _ _) as [i|] eqn:E; [|apply IH]. apply position_lt in E. safely.
Qed.

Lemma safe_tick_digest n now : safe n (tick_digest now) (Forall gossip_wf).
Proof.
  unfold tick_digest. safe_step. destruct (membership s) as [m|] eqn:Em; [|by apply safe_ret]. cbv zeta.
  eapply safe_bind with (R := any); [destruct (_ && _); by safely|]. intros j _.
  destruct (DirSafe.tick_digest_safe eps m now (match obf_key s with Some _ => true | None => false end) j) as [H1 H2]; [by apply H|].
  eapply safe_bind; [by apply safe_set_membership|]. intros _ _. by apply safe_ret.
Qed.

Lemma safe_tick_gossip n now : safe n (tick_gossip now) any.
Proof.
  unfold tick_gossip. safe_step. cbv zeta. eapply safe_bind; [apply safe_tick_digest|]. intros ds Hds.
  eapply safe_bind with (R := any); [apply safe_mconcat|].
  { intros d Hd. eapply safe_bind; [apply safe_gossip_packet; by apply (proj1 (Forall_forall _ _) Hds)|]. intros b _.
    safe_step. apply safe_mconcat. intros t Ht. destruct (t.2) as [i|] eqn:Et; [|by apply safe_ret].
    pose proof (gossip_targets_lt _ _ _ Ht Et). safely. }
  intros out _. destruct (existsb _ _); [by apply safe_ret|]. safe_step. eapply safe_bind; [apply safe_bootstrap|].
  intros boot _. by apply safe_ret.
Qed.

End Gossip.

(** ** The relay *)

Section Relay.
Context {snow : Snow} {kem : MlKem} {aead : Sess.Aead} {D T : Type} {MP : ManagedPlane D} {RV : Rendezvous T}.
Context {blake : Blake2s} {ed : Ed25519} {iter : HashIter} {sip : SipHash24} {os : Os}.
Context {wf : D -> Prop} {clock : N -> Prop} {ML : ManagedLaws wf clock}.
Context {BL : Blake2sLaws} {EL : Ed25519Laws} {IL : HashIterLaws} {RL : Client.RendezvousLaws T} {SL : SnowLaws}.
Context {eps : list SocketAddr}.
Notation PeerManager := (PeerManager D T).
Notation Peer := (Peer D).
Notation inv := (inv wf eps).
Notation inv_at := (inv_at wf eps).
Notation safe := (safe (T := T) wf eps).
Notation peer_ok := (peer_ok wf).
Implicit Types (s : PeerManager) (p : Peer).


Lemma safe_relayed_init n idx dg now : idx < n -> clock now -> safe n (relayed_handshake_init idx dg now) any.
Proof.
  intros Hi Hnow. unfold relayed_handshake_init. safe_step. intros rp _. safe_step. intros r _. safe_step. intros r' _. safe_step.
  destruct (Hs.start_responder _ _ _ _ _) as [[[[est pkt] pk] ipl]|] eqn:Er; [|by apply safe_ret]. apply start_responder_fresh in Er.
  assert (idx < length (peers s)) as Hi' by lia. apply safe_peer; [done| |].
  - intros p Hp Hne. destruct (bool_decide _); [by apply safe_ret|].
    destruct (Hs.parse_init_payload ipl) as [[ts cert]|]; [|by apply safe_ret].
    assert (safe (length (peers s)) (if negb (is_idle p) && lower_key s p then mret OutNone
      else
        ok ← cert_admits cert pk;
        if (negb ok : bool) then mret OutNone
        else if negb (accept_fresh_init s p ts) then mret OutNone
        else
          let dp := new_plane s est (server_addr s) in
          upd_peer idx (fun p => note_init ts cert pkt dg (session_obf_key_for s (Hs.hp_key est)) p) ;;
          upd_peer idx commit_relayed ;;
          modify (fun s => s <| by_tag ::= <[mp_conn_tag dp := idx]> |>) ;;
          first ← relay_wrap idx pkt;
          drained ← establish idx dp false now;
          rest ← relay_wrap_all idx (map Dp.bytes drained);
          mret (OutUdp (option_list first ++ rest))) any) as Hcold.
    { destruct (_ && _); [by apply safe_ret|]. safe_step. intros ok _. destruct (negb ok); [by apply safe_ret|].
      destruct (negb _); [by apply safe_ret|]. cbv zeta. safe_step. intros _ _. safe_step. intros _ _.
      eapply safe_bind; [by apply safe_insert_tag|]. intros _ _. safe_step. intros fst _.
      eapply safe_bind; [apply safe_establish; [done|by apply (new_plane_wf (clock := clock) (eps := eps))|done]|].
      intros out _. safely. }
    unfold is_established in Hne. by destruct (state p).
  - intros p e Hp Ep. destruct (bool_decide _); [apply safe_est_any; by apply safe_ret|].
    destruct (Hs.parse_init_payload ipl) as [[ts cert]|]; [|apply safe_est_any; by apply safe_ret]. rewrite Ep.
    destruct (Hs.init_ephemeral dg) as [eph|]; [|apply safe_est_any; by apply safe_ret].
    eapply safe_est_bind; [apply safe_cert_admits|apply est_kept_cert_admits|]. intros ok _.
    destruct (negb ok); [apply safe_est_any; by safely|]. cbv zeta.
    eapply safe_est_bind with (R := any); [apply safe_when; intros _; by safely|by apply keeps_when, est_kept_upd; [apply _|]|].
    intros _ _. destruct (_ || _); [by apply (safe_rekey_init (clock := clock))|apply safe_est_any; by apply safe_ret].
Qed.

Lemma safe_relayed_resp n idx dg now : idx < n -> clock now -> safe n (relayed_handshake_resp idx dg now) any.
Proof.
  intros Hi Hnow. apply safe_peer; [done| |].
  - intros p Hp Hne. unfold is_established, rekey_pending in *. destruct (state p) as [|h|]; cbn [andb]; [by apply safe_ret| |done].
    safe_step. intros _ _. safe_step. destruct (Hs.read_response _ _) as [[est pl]|] eqn:Er; [|by safely].
    apply read_response_fresh in Er. safe_step. intros ok _. destruct (negb ok); [by apply safe_ret|]. cbv zeta.
    apply safe_complete; try done; [lia|by apply (new_plane_wf (clock := clock) (eps := eps))|]. intros l. safely.
  - intros p e Hp Ep. destruct (_ && _); [by apply (safe_rekey_resp (clock := clock))|].
    rewrite Ep. apply safe_est_any. by apply safe_ret.
Qed.

Lemma safe_relayed_data n idx dg now : idx < n -> clock now -> safe n (relayed_data idx dg now) any.
Proof.
  intros Hi Hnow. unfold relayed_data.
  eapply safe_bind with (R := any); [destruct dg as [|b0 ?]; [|destruct (is_type b0 Data)]; by safely|]. intros _ _.
  safe_step. intros p Hp. destruct (state p) as [| |e] eqn:Ep; [by apply safe_ret..|].
  eapply safe_bind; [apply safe_open_session; [done|by eapply peer_session|done]|]. intros o _.
  eapply safe_bind with (R := any); [|intros x _; by safely].
  destruct o; try (by safely); (eapply safe_bind; [by apply safe_count_rx|]; intros _ _; by apply safe_ret).
Qed.

Lemma safe_on_relayed n src pl now : clock now -> safe n (on_relayed src pl now) any.
Proof.
  intros Hnow. unfold on_relayed. destruct pl as [|b0 rest]; [by apply safe_ret|]. safe_step.
  destruct (by_node s !! src) as [idx|] eqn:E; [|by apply safe_ret]. apply (node_lt (wf := wf) (eps := eps)) in E; [|done].
  safe_step. intros p _. eapply safe_bind; [apply safe_when; intros _; by safely|]. intros _ _.
  destruct (is_type b0 HandshakeInit); [by apply safe_relayed_init|].
  destruct (is_type b0 HandshakeResp); [by apply safe_relayed_resp|].
  destruct (_ && _); [by apply safe_relayed_gossip|by apply safe_relayed_data].
Qed.

Lemma safe_on_rdv n dg now : clock now -> safe n (on_rdv dg now) any.
Proof.
  intros Hnow. unfold on_rdv. safe_step. destruct (rendezvous s) as [r|]; [|by apply safe_ret].
  destruct (parse r dg) as [nid a record|nid a|src pl|nid|] eqn:Ep; try (by apply safe_ret); [| |by apply safe_on_relayed].
  - eapply safe_bind with (R := any).
    { destruct (membership s) as [m|]; [|by apply safe_ret]. destruct record as [rc|]; [|by apply safe_ret].
      destruct (bool_decide _); [|by apply safe_ret]. safe_step. intros t _. apply safe_lift.
      apply Client.parse_wf in Ep as [Hw _]. destruct (DirWf.verify_record_ok os_skew m rc t Hw) as (b & -> & _). by eexists. }
    intros ok _. destruct (negb ok); [by apply safe_ret|].
    destruct (by_node s !! nid) as [idx|] eqn:E; [|by apply safe_ret]. apply (node_lt (wf := wf) (eps := eps)) in E; [|done].
    safe_step. intros p _. eapply safe_bind; [apply safe_when; intros _|intros _ _; by apply safe_ret].
    destruct (membership s), record; by safely.
  - destruct (by_node s !! nid) as [idx|] eqn:E; [|by apply safe_ret]. apply (node_lt (wf := wf) (eps := eps)) in E; [|done].
    safe_step. intros p _. destruct (is_established p); [by apply safe_ret|]. eapply safe_bind with (R := any).
    { destruct (membership s) as [m|] eqn:Em; [|by apply safe_ret]. destruct (is_static p); [by apply safe_ret|].
      safe_step. intros t _. apply safe_lift.
      destruct (DirSafe.member_or_admitted_safe os_skew eps m (pubkey p) None t) as (b & Eb); [by apply H|].
      unfold Dir.member_cert_valid. rewrite Eb. by eexists. }
    intros ok _. destruct (negb ok); [by apply safe_ret|]. safe_step. intros _ _. destruct (is_idle p); by safely.
Qed.

End Relay.

(** ** Dispatch *)

Section Dispatch.
Context {snow : Snow} {kem : MlKem} {aead : Sess.Aead} {D T : Type} {MP : ManagedPlane D} {RV : Rendezvous T}.
Context {blake : Blake2s} {ed : Ed25519} {iter : HashIter} {sip : SipHash24} {os : Os}.
Context {wf : D -> Prop} {clock : N -> Prop} {ML : ManagedLaws wf clock}.
Context {BL : Blake2sLaws} {EL : Ed25519Laws} {IL : HashIterLaws} {RL : Client.RendezvousLaws T} {SL : SnowLaws}.
Context {eps : list SocketAddr}.
Notation PeerManager := (PeerManager D T).
Notation Peer := (Peer D).
Notation inv := (inv wf eps).
Notation inv_at := (inv_at wf eps).
Notation safe := (safe (T := T) wf eps).
Notation peer_ok := (peer_ok wf).
Implicit Types (s : PeerManager) (p : Peer).


Lemma safe_on_udp_dispatch n src dg now : clock now -> safe n (on_udp_dispatch src dg now) any.
Proof.
  intros Hnow. unfold on_udp_dispatch. destruct dg as [|b0 rest]; [by safely|]. safe_step.
  destruct (match rendezvous s with Some r => _ | None => false end); [by apply safe_on_rdv|].
  destruct (is_type b0 HandshakeInit); [by apply safe_handle_init|].
  destruct (is_type b0 HandshakeResp); [by apply safe_handle_resp|].
  destruct (_ && _); [apply safe_on_gossip|by apply safe_handle_data].
Qed.

Lemma safe_finish_wrapped n tun udp now : safe n (finish_wrapped tun udp now) any.
Proof.
  unfold finish_wrapped. safe_step. intros u _. safe_step. eapply safe_bind with (R := any); [|intros; by apply safe_ret].
  destruct (scheduled_egress s); safely.
Qed.

Lemma safe_on_udp n src dg now : clock now -> safe n (on_udp src dg now) any.
Proof.
  intros Hnow. unfold on_udp. safe_step. destruct (obf_key s) as [key|].
  - destruct dg as [|b rest]; [by safely|]. destruct (match rendezvous s with Some r => _ | None => false end).
    + destruct (Obf.deobfuscate _ _) as [[t body]|]; [|by apply safe_ret]. destruct (bool_decide _); [by apply safe_ret|].
      eapply safe_bind; [by apply safe_on_rdv|]. intros o _. destruct (own_dispatch o). apply safe_finish_wrapped.
    + destruct (deobf_ingress _ _ _) as [plain|]; [|by safely].
      eapply safe_bind; [by apply safe_on_udp_dispatch|]. intros o _. destruct (own_dispatch o). apply safe_finish_wrapped.
  - destruct (scheduled_egress s); [by apply safe_on_udp_dispatch|].
    eapply safe_bind; [by apply safe_on_udp_dispatch|]. intros o _. destruct (own_dispatch o). safely.
Qed.

Lemma safe_split_gate n inner : safe n (split_gate inner) any.
Proof. unfold split_gate. safely. Qed.

Lemma route_or_resolve_spec n inner now :
  spec (inv_at n) (route_or_resolve inner now) (fun s o => inv_at n s /\ forall i, o = Some i -> i < length (peers s)).
Proof.
  intros s Hs. unfold route_or_resolve, mbind at 1, M_bind at 1, get at 1. cbn [rbind].
  destruct (route_tun_index s inner) as [i|] eqn:E.
  { exists s, (Some i). split; [done|]. split; [done|]. intros ? [= <-]. by eapply route_tun_lt; [apply Hs|]. }
  assert (forall s1, inv_at n s1 -> exists s' o, (sample (Metrics.Drop 1) ;; mret None : M PeerManager (option nat)) s1 = Ret (s', o) /\
    inv_at n s' /\ (forall i, o = Some i -> i < length (peers s'))) as Hdrop.
  { intros s1 Hs1. destruct (safe_sample (wf := wf) (eps := eps) n (Metrics.Drop 1) s1 Hs1) as (s' & [] & E' & Hs' & _).
    exists s', None. unfold mbind, M_bind. rewrite E'. by split_and!. }
  cbv zeta. destruct (match membership s with Some m => _ | None => None end) as [info|]; [|by apply Hdrop].
  destruct (safe_admit_member (wf := wf) (eps := eps) n (Directory.pubkey info) (mi_endpoints info) now s Hs) as (s1 & [] & E1 & Hs1 & _).
  unfold mbind at 1, M_bind at 1. rewrite E1. cbn [rbind]. unfold mbind at 1, M_bind at 1, get at 1. cbn [rbind].
  destruct (route_tun_index s1 inner) as [i|] eqn:E2; [|by apply Hdrop].
  exists s1, (Some i). split; [done|]. split; [done|]. intros ? [= <-]. by eapply route_tun_lt; [apply Hs1|].
Qed.

Lemma push_pending_ok l inner :
  Forall sealable l -> length l <= MAX_PENDING_TUN -> sealable inner ->
  Forall sealable (push_pending l inner) /\ length (push_pending l inner) <= MAX_PENDING_TUN.
Proof.
  intros Hl Hn Hi. unfold push_pending. rewrite length_app. cbn [length]. split.
  - apply Forall_app. split; [|by constructor]. destruct (_ <=? _); [by apply Forall_drop|done].
  - destruct (Nat.leb_spec MAX_PENDING_TUN (length l)); [rewrite length_drop|]; unfold MAX_PENDING_TUN in *; lia.
Qed.

Lemma safe_on_tun_dispatch n inner now : clock now -> sealable inner -> safe n (on_tun_dispatch inner now) any.
Proof.
  intros Hnow Hin. unfold on_tun_dispatch. eapply safe_bind; [apply safe_split_gate|]. intros [] _; [by apply safe_ret|].
  eapply safe_bind_grow; [apply route_or_resolve_spec|]. intros s [idx|] Hs Hn Hidx; [|by apply safe_ret].
  specialize (Hidx idx eq_refl). safe_step. intros p Hp.
  assert (safe (length (peers s)) (upd_peer idx (fun p => p <| pending_tun := push_pending (pending_tun p) inner |>)) any) as Hpush.
  { apply safe_upd_peer; [done|]. intros q (? & ? & ? & ?). split_and!; [done..| |]; by apply push_pending_ok. }
  destruct (state p) as [|h|e] eqn:Ep.
  - eapply safe_bind; [exact Hpush|]. intros _ _. safe_step.
    eapply safe_bind with (R := any); [destruct (rendezvous s0); [apply safe_advance_path; lia|by apply safe_ret]|].
    intros act _. apply safe_act. lia.
  - eapply safe_bind; [exact Hpush|]. intros _ _. by apply safe_ret.
  - cbv zeta. safe_step. intros _ _. safe_step. intros _ _. pose proof (peer_session _ _ Hp Ep) as He.
    eapply safe_bind with (R := fun x => wf x.1).
    { apply safe_lift. destruct (ml_on_tun (current e) inner now) as (d & out & -> & Hd); [apply He|done..|]. by eexists. }
    intros x Hx. eapply safe_bind; [apply safe_set_epochs; [done|by apply set_current_wf]|]. intros _ _. safely.
Qed.

Lemma safe_on_tun n inner now : clock now -> sealable inner -> safe n (on_tun inner now) any.
Proof.
  intros Hnow Hin. unfold on_tun. safe_step. destruct (_ && _).
  - destruct (obf_key s); [|by apply safe_on_tun_dispatch]. eapply safe_bind; [by apply safe_on_tun_dispatch|]. intros dgs _. safely.
  - eapply safe_bind; [by apply safe_on_tun_dispatch|]. intros dgs _. safely.
Qed.

(** ** The tick *)

Lemma safe_refresh_metrics n now : safe n (refresh_metrics now) any.
Proof. unfold refresh_metrics. safely. Qed.

Lemma safe_refresh_registration n now : safe n (refresh_registration now) any.
Proof.
  unfold refresh_registration. safe_step. destruct (rendezvous s) as [r|]; [|by apply safe_ret]. destruct (negb _); [by apply safe_ret|].
  safe_step. intros wall _. cbv zeta. safe_step. intros _ _. set (sq := sat_add64 _ 1).
  assert (sq < u64_mod)%N as Hsq by (unfold sq, sat_add64, sat_add, u64_mod; lia).
  eapply safe_bind with (R := fun o => match o with Some rc => Rdv.carried_wf rc | None => True end).
  { destruct (membership s) as [m|] eqn:Em; [|by apply safe_ret]. eapply safe_bind with (R := Rdv.carried_wf); [|intros; by apply safe_ret].
    apply safe_lift. destruct (DirSafe.sign_registration_safe eps m sq) as (rc & -> & Hrc); [by apply H|done|]. by exists rc. }
  intros o Ho. eapply safe_bind with (R := any).
  { apply safe_lift. destruct (Client.register_law r (local_node_id s) o) as (dg & -> & _); [apply H|done|]. by exists dg. }
  intros dg _. eapply safe_bind with (R := any); [destruct (obf_key s); by safely|]. intros t _. safely.
Qed.

Lemma safe_escalate n i h now : i < n -> safe n (escalate i h now) any.
Proof.
  intros Hi. unfold escalate. eapply safe_bind; [by apply safe_advance_path|]. intros act _. destruct act; try (by safely).
  eapply safe_bind; [by apply safe_maybe_lookup|]. intros dg _. by apply safe_ret.
Qed.

Lemma retire_wf (e : Epochs D) now : epochs_wf wf e -> epochs_wf wf (Epochs.retire_previous_if_due e now).
Proof. intros He. by destruct (epoch_step_ok wf clock e (ERetire now) He I) as (? & [= <-] & ?). Qed.

Lemma safe_drive_peer n i now : i < n -> safe n (drive_peer i now) any.
Proof.
  intros Hi. unfold drive_peer. safe_step. intros p Hp. destruct (state p) as [|h|e] eqn:Ep; [by apply safe_ret| |].
  - destruct (negb _); [by apply safe_ret|]. destruct (_ <=? _)%N.
    + eapply safe_bind; [apply safe_upd_peer; [done|]|intros _ _; by apply safe_ret].
      intros q (? & _ & _). split_and!; [done..|cbn; lia].
    + safe_step. intros _ _. safe_step. intros r _. eapply safe_bind with (R := any); [destruct (relay p); by safely|].
      intros out _. by safely.
  - safe_step. intros _ _. cbv zeta.
    eapply safe_bind; [apply safe_drive_rekey; [done|by apply retire_wf, (peer_session p)]|]. intros [e' sent] He'. cbn [fst] in He'.
    safe_step. intros k _. eapply safe_bind with (R := fun x => wf x.1).
    { apply safe_lift. destruct (ml_tick k (current e') now (ew_current _ _ He')) as (d & out & -> & Hd). by eexists. }
    intros y Hy. eapply safe_bind with (R := any); [destruct (relay p); by safely|]. intros pkts _.
    eapply safe_bind; [apply safe_set_epochs; [done|by apply set_current_wf]|]. intros _ _. by apply safe_ret.
Qed.

Lemma safe_tick_peer n now i : i < n -> safe n (tick_peer now i) any.
Proof.
  intros Hi. unfold tick_peer. safe_step. safe_step. intros p _.
  eapply safe_bind with (R := any).
  { destruct (rendezvous s); [|by apply safe_ret]. destruct (state p) as [|h|]; [by apply safe_ret| |by apply safe_ret].
    destruct (negb _); [apply safe_escalate; lia|by apply safe_ret]. }
  intros [[] sent] _; [by apply safe_ret|]. eapply safe_bind; [apply safe_drive_peer; lia|]. intros out _. by apply safe_ret.
Qed.

Lemma safe_tick_idle n now i : i < n -> safe n (tick_idle now i) any.
Proof.
  intros Hi. unfold tick_idle. safe_step. intros p _. destruct (is_idle p); [by apply safe_drive_path_idle|by apply safe_ret].
Qed.

Lemma safe_decoy n ep : safe n (decoy ep) any.
Proof.
  unfold decoy. safe_step. destruct (valid_buckets s) eqn:E; [by safely|]. eapply safe_bind; [by eapply safe_pick|].
  intros k _. by apply safe_ret.
Qed.

Lemma safe_cover_peer n iv now i : i < n -> safe n (cover_peer iv now i) any.
Proof.
  intros Hi. unfold cover_peer. safe_step. safe_step. intros p _. destruct (_ || _); [by apply safe_ret|].
  destruct (endpoint p) as [ep|]; [|by apply safe_ret]. cbv zeta. destruct (_ || _); [by apply safe_ret|].
  eapply safe_bind with (R := any).
  { destruct (N.leb_spec (cover_burst_max (traffic_defense s)) 1); [by apply safe_ret|].
    pose proof (inv_burst _ _ _ H). apply safe_gen_range; lia. }
  intros burst _. eapply safe_bind; [apply safe_mconcat; intros; apply safe_decoy|]. intros out _. by safely.
Qed.

(** Each peer that was in the table when the loop began. *)
Lemma safe_each n f s : (forall i, i < length (peers s) -> safe n (f i) any) ->
  safe n (mconcat f (List.seq 0 (length (peers s)))) (any : list EgressDatagram -> Prop).
Proof. intros Hf. apply safe_mconcat. intros i Hi. apply Hf. apply list_elem_of_In, in_seq in Hi. lia. Qed.

Lemma safe_cover_traffic n now : safe n (cover_traffic now) any.
Proof.
  unfold cover_traffic. safe_step. cbv zeta. destruct (obf_key s); [|by apply safe_ret].
  destruct (match cover_interval_ms _ with Some iv => _ | None => _ end) as [iv|]; [|by apply safe_ret].
  apply safe_each. intros i Hi. by apply safe_cover_peer.
Qed.

Lemma stale_peers_ok s m now :
  DirSafe.mem_safe eps m -> exists l, stale_peers s m now = Ret l /\ Forall (fun i => i < length (peers s)) l.
Proof.
  intros Hm. unfold stale_peers.
  set (f := fun x : nat * Peer => _ : run bool).
  destruct (rfilter_ok f (fun x => f x = Ret true) (imap pair (peers s))) as (l & -> & Hl).
  { intros [i p] _. unfold f. cbn [snd]. destruct (is_established p); [|by exists false].
    destruct (DirSafe.member_or_admitted_safe os_skew eps m (pubkey p) (admitted_cert_not_after p) now Hm) as (b & ->).
    cbn [rbind]. exists (negb b). split; [done|]. destruct b; cbn; naive_solver. }
  cbn [rbind]. eexists. split; [done|]. apply Forall_map, Forall_forall. intros x [Hx _]%Hl.
  apply elem_of_lookup_imap in Hx as (k & q & -> & Hk). by eapply lookup_lt_Some.
Qed.

Lemma safe_cert_sweep n now : safe n (cert_sweep now) any.
Proof.
  unfold cert_sweep. safe_step. destruct (membership s) as [m|] eqn:Em; [|by apply safe_ret]. apply safe_when. intros _.
  safe_step. intros _ _. safe_step. intros t _. destruct (stale_peers_ok s m t) as (l & El & Hl); [by apply H|].
  eapply safe_bind with (R := eq l); [apply safe_lift; rewrite El; by eexists|]. intros ? <-.
  apply safe_mfor. intros i Hi. apply safe_drop_session. by apply (proj1 (Forall_forall _ _) Hl).
Qed.

Context (enrolled : forall k c, os_enroll k = Some c -> DirWf.announceable c eps).

Lemma safe_renew_cert n : safe n renew_cert any.
Proof.
  unfold renew_cert. safe_step. destruct (threshold_ca_server s); [|by apply safe_ret].
  destruct (membership s) as [m|] eqn:Em; [|by apply safe_ret]. safe_step. intros k _.
  destruct (os_enroll k) as [c|] eqn:Ec; [|by apply safe_ret]. apply enrolled in Ec.
  eapply safe_bind with (R := fun x => DirSafe.mem_safe eps x.1).
  { apply safe_lift. destruct (DirSafe.update_own_cert_safe eps m c) as (x & -> & Hx); [by apply H|done|]. by exists x. }
  intros x Hx. eapply safe_bind; [by apply safe_set_membership|]. intros _ _. by apply safe_ret.
Qed.

Lemma safe_cert_rotation n now : safe n (cert_rotation now) any.
Proof.
  unfold cert_rotation. safe_step. destruct (threshold_ca_server s); [|by apply safe_ret].
  destruct (membership s); [|by apply safe_ret]. apply safe_when. intros _. safe_step. intros _ _. safe_step. intros t _. safe_step.
  destruct (check_cert_rotation _ _) as [[]|]; [|by apply safe_ret..]. eapply safe_bind; [apply safe_renew_cert|].
  intros _ _. by apply safe_ret.
Qed.

(** *** Commands *)

Definition defense_ok (d : TrafficDefenseConfig) : Prop := (jitter_max_ms d + 1 < u64_mod)%N /\ (cover_burst_max d < u64_mod)%N.

(** Any command but a removal; delays and bursts that are 64-bit numbers, the
    delay not the largest one. *)
Definition cmd_ok (c : ControlCmd) : Prop :=
  match c with
  | RemovePeer _ => False
  | SetDaitaConfig base _ _ burst jitter =>
      (forall d, base = Some d -> defense_ok d) /\ (forall b, burst = Some b -> (b < u64_mod)%N) /\
      (forall j, jitter = Some j -> (j + 1 < u64_mod)%N)
  | _ => True
  end.

Lemma set_daita_cmd_ok base bkts cover burst jitter cur d :
  defense_ok cur -> cmd_ok (SetDaitaConfig base bkts cover burst jitter) ->
  set_daita_cmd base bkts cover burst jitter cur = Ok d -> defense_ok d.
Proof.
  intros Hc (H1 & H2 & H3). unfold set_daita_cmd. set (c := default cur base).
  assert (defense_ok c) as [Hj Hb] by (unfold c; destruct base; cbn; auto).
  destruct burst as [[|b]|]; [done|..]; intros [= <-]; (split; cbn; [destruct jitter; cbn; auto|auto]).
Qed.

Lemma safe_set_split n on md cs ds ap : safe n (set_split_tunnel_config on md cs ds ap) any.
Proof.
  unfold set_split_tunnel_config. cbv zeta.
  do 2 (eapply safe_bind with (R := any); [match goal with |- context [match ?o with _ => _ end] => destruct o end; by safely|]; intros _ _).
  destruct (match cs with Some l => _ | None => _ end) as [blocks|]; [|by apply safe_ret].
  do 3 (eapply safe_bind with (R := any); [repeat match goal with |- context [match ?o with _ => _ end] => destruct o end; by safely|]; intros _ _).
  by apply safe_ret.
Qed.

Lemma safe_cmd n c : cmd_ok c -> safe n (dispatch_cmd c) any.
Proof.
  intros Hc. destruct c; cbn [dispatch_cmd].
  - safely.
  - done.
  - safely.
  - eapply safe_bind; [apply safe_renew_cert|]. intros; by apply safe_ret.
  - safely.
  - safe_step. destruct (set_daita_cmd _ _ _ _ _ _) as [d|] eqn:E; [|by apply safe_ret].
    apply set_daita_cmd_ok in E as [Hj Hb]; [|split; apply H|done].
    eapply safe_bind; [apply safe_modify|intros _ _; by apply safe_ret]. intros s' [[] ?]. split; [|done]. by constructor.
  - eapply safe_bind; [apply safe_set_split|]. intros; by apply safe_ret.
Qed.

Lemma safe_tick_dispatch n cmds now : Forall cmd_ok cmds -> safe n (tick_dispatch cmds now) any.
Proof.
  intros Hc. unfold tick_dispatch. eapply safe_bind; [apply safe_refresh_metrics|]. intros _ _.
  eapply safe_bind; [apply safe_refresh_registration|]. intros reg _. safe_step.
  eapply safe_bind; [apply safe_each; intros; by apply safe_tick_peer|]. intros driven _.
  eapply safe_bind with (R := any); [destruct (rendezvous s); [apply safe_each; intros; by apply safe_tick_idle|by apply safe_ret]|].
  intros idle _. eapply safe_bind with (R := any); [destruct (membership s); [apply safe_tick_gossip|by apply safe_ret]|].
  intros gossip _. eapply safe_bind; [apply safe_cover_traffic|]. intros cover _.
  eapply safe_bind; [apply safe_cert_sweep|]. intros _ _. eapply safe_bind; [apply safe_cert_rotation|]. intros _ _.
  eapply safe_bind; [apply safe_mfor|intros _ _; by apply safe_ret]. intros c Hin.
  eapply safe_bind; [apply safe_cmd; by apply (proj1 (Forall_forall _ _) Hc)|]. intros _ _. by apply safe_ret.
Qed.

Lemma safe_tick n cmds now : Forall cmd_ok cmds -> safe n (tick cmds now) any.
Proof.
  intros Hc. unfold tick. eapply safe_bind; [by apply safe_tick_dispatch|]. intros dgs _. safe_step.
  eapply safe_bind with (R := any); [destruct (obf_key s); by safely|]. intros dgs' _. safely.
Qed.

(** *** Runs *)

Definition event_ok (e : Disp.event) : Prop :=
  match e with
  | Udp _ _ now => clock now
  | Tun inner now => clock now /\ sealable inner
  | Tick cmds _ => Forall cmd_ok cmds
  end.

Lemma safe_step_event n e : event_ok e -> safe n (Disp.step e) any.
Proof.
  destruct e as [src dg now|inner now|cmds now]; cbn [event_ok Disp.step].
  - apply safe_on_udp.
  - intros [Hn Hi]. eapply safe_bind; [by apply safe_on_tun|]. intros; by apply safe_ret.
  - intros Hc. eapply safe_bind; [by apply safe_tick|]. intros; by apply safe_ret.
Qed.

Lemma safe_steps n es : Forall event_ok es -> safe n (steps es) any.
Proof.
  intros HF. induction HF as [|e es He _ IH]; cbn [steps]; [by apply safe_ret|].
  eapply safe_bind; [by apply safe_step_event|]. intros o _. eapply safe_bind; [exact IH|]. intros; by apply safe_ret.
Qed.

(** *** From the start *)

Definition setting_ok (x : Setting) : Prop :=
  match x with
  | TrafficDefense cfg => defense_ok cfg
  | DataSymbolSize n => n <> 0%N
  | _ => True
  end.

Lemma safe_configure n x : setting_ok x -> safe n (configure x) any.
Proof. intros Hx. apply safe_modify. intros s [[] Hn]. destruct x; cbn in Hx; (split; [|done]); constructor; try done; apply Hx. Qed.

Lemma new_manager_spec priv pub cfgs md rdv memb only interval :
  (forall m, memb = Some m -> DirSafe.mem_safe eps m) ->
  spec (fun _ : PeerManager => True) (new_manager priv pub cfgs md rdv memb only interval) (fun s _ => inv s).
Proof.
  intros Hm. unfold new_manager.
  do 4 (eapply spec_bind with (R := fun _ _ => True); [intros s _; do 2 eexists; done|]; intros ?).
  eapply spec_bind with (R := fun s _ => inv_at 0 s).
  - apply spec_modify. intros _ _.
    set (empty := empty_manager _ _ _ _ _ _ _ _ _ _ _).
    assert (inv_at 0 empty) as He.
    { split; [|cbn; lia]. constructor; cbn; unfold in_table;
        first [done|by apply blake2s_length|unfold MAX_JITTER_QUEUE; lia|by constructor|by apply map_Forall_empty]. }
    revert He. generalize empty. induction cfgs as [|c l IH]; intros s Hs; cbn [fold_left]; [done|].
    apply IH. apply push_peer_inv; [done|apply fresh_peer_ok].
  - intros []. eapply spec_conseq; [apply (safe_mfor (wf := wf) (eps := eps) 0)|done|by intros s u [[? _] _]]. intros r _. apply safe_admit_member.
Qed.

(** What a run from the start is. *)
Definition daemon priv pub cfgs md rdv memb only interval (settings : list Setting) (es : list Disp.event) :
    M PeerManager (list DispatchOut) :=
  new_manager priv pub cfgs md rdv memb only interval ;; mfor settings configure ;; steps es.

Lemma daemon_spec priv pub cfgs md rdv memb only interval settings es :
  (forall m, memb = Some m -> DirSafe.mem_safe eps m) -> Forall setting_ok settings -> Forall event_ok es ->
  spec (fun _ => True) (daemon priv pub cfgs md rdv memb only interval settings es) (fun s _ => inv s).
Proof.
  intros Hm Hs He. eapply spec_bind; [by apply new_manager_spec|]. intros [].
  eapply spec_conseq with (P' := inv_at 0) (Q' := fun s _ => inv_at 0 s /\ True); [|by intros s H; split; [|lia]|by intros s a [[? _] _]].
  eapply safe_bind; [apply safe_mfor; intros x Hx; apply safe_configure; by apply (proj1 (Forall_forall _ _) Hs)|].
  intros _ _. by apply safe_steps.
Qed.

(** C6: the daemon's core never panics: from any configuration, through any
    sequence of datagrams of anyone, packets of the tunnel and ticks with
    control commands, the peer manager returns; afterwards every entry of its
    three indices is a peer of the table, every session is well formed, at
    most 16 packets wait per peer and at most 1024 datagrams are delayed. *)
Theorem manager_never_panics priv pub cfgs md rdv memb only interval settings es (s0 : PeerManager) :
  (forall m, memb = Some m -> DirSafe.mem_safe eps m) -> Forall setting_ok settings -> Forall event_ok es ->
  exists s outs, daemon priv pub cfgs md rdv memb only interval settings es s0 = Ret (s, outs) /\
    (forall i, (exists t, by_tag s !! t = Some i) \/ (exists a, Pm.by_addr s !! a = Some i) \/ (exists n, by_node s !! n = Some i) ->
       is_Some (peers s !! i)) /\
    (forall p e, p ∈ peers s -> state p = Established e -> epochs_wf wf e) /\
    (forall p, p ∈ peers s -> length (pending_tun p) <= 16) /\ length (scheduled_egress s) <= 1024.
Proof.
  intros Hm Hset He. destruct (daemon_spec priv pub cfgs md rdv memb only interval settings es Hm Hset He s0 I) as (s & outs & E & Hs).
  exists s, outs. split; [done|]. destruct Hs. split; [|split; [|split]].
  - intros i [[t Ht]|[[a Ha]|[n Hn]]]; apply lookup_lt_is_Some_2; eauto.
  - intros p e Hp Ep. destruct (proj1 (Forall_forall _ _) inv_peers0 p Hp) as (_ & H & _). by rewrite Ep in H.
  - intros p Hp. by destruct (proj1 (Forall_forall _ _) inv_peers0 p Hp) as (_ & _ & _ & H).
  - done.
Qed.

End Dispatch.
End Run.
