(* ===== verification/PollLoop.v ===== *)
(** * The event loop

    Models crates/yip-io/src/poll.rs: [run_poll] waits for the socket and the
    tunnel device, drains whichever is ready through a [Dispatch], and ticks it.
    What the handlers return is written to the device, through the coalescer
    when the device has offloads, or collected and sent in batches.

    The kernel is arbitrary: a run of the loop is a list of rounds, each with
    what the calls of that round answered.  The interface [Dispatch] is what the
    loop needs of the daemon; the peer manager implements it at the end. *)

From Stdlib Require Strings.Byte.
From Stdlib Require Import NArith Lia.
From stdpp Require Import base numbers gmap list.
From S2P Require Import Prelude StateM Session DataPlane NetAddr MemberCodec MemberVerify Directory DirSafe Obf RdvClient EpochSet PathState Noise Metrics SplitTunnel TunOffload Gso PmState PmTable PmPlane PmObf PmRekey PmDispatch PmSafe PmRun.

Local Open Scope nat_scope.

Definition MAX_WIRE_DATAGRAM : N := 2048.

(** [C] is what the daemon reads besides the two descriptors when it ticks. *)
Class Dispatch (C D : Type) := {
  on_udp : SocketAddr -> list u8 -> N -> D -> run (D * DispatchOut);
  on_tun : list u8 -> N -> D -> run (D * list EgressDatagram);
  tick : C -> N -> D -> run (D * list EgressDatagram);
  next_timeout_ms : D -> N -> option N;
}.

(** What reaches a handler. *)
Inductive input (C : Type) :=
| Datagram (src : SocketAddr) (dg : list u8) (now : N)
| Packet (inner : list u8) (now : N)
| Timer (c : C) (now : N).
Arguments Datagram {C} _ _ _.
Arguments Packet {C} _ _.
Arguments Timer {C} _ _.

(** What the loop relies on: handlers return on inputs that are [fine]. *)
Class DispatchLaws `{Dispatch C D} (good : D -> Prop) (fine : input C -> Prop) : Prop := {
  dl_udp d src dg now : good d -> fine (Datagram src dg now) -> exists d' o, on_udp src dg now d = Ret (d', o) /\ good d';
  dl_tun d inner now : good d -> fine (Packet inner now) -> exists d' o, on_tun inner now d = Ret (d', o) /\ good d';
  dl_tick d c now : good d -> fine (Timer c now) -> exists d' o, tick c now d = Ret (d', o) /\ good d';
}.

Module Poll.
Import Offload.

(** ** What the kernel answers *)

(** [recvmmsg]: datagrams with their sources, nothing, or an error. *)
Inductive recv := Burst (dgs : list (SocketAddr * list u8)) | RecvNothing | RecvFail.

(** [read] on the tunnel device. *)
Inductive read := ReadPacket (buf : list u8) | ReadAgain | ReadNothing | ReadFail.

Inductive ready := UdpReady (rs : list recv) | TunReady (rs : list read).

(** [epoll_wait]. *)
Inductive wait (C : Type) := Interrupted | WaitFail | Woken (now : N) (evs : list ready) (c : C).
Arguments Interrupted {C}.
Arguments WaitFail {C}.
Arguments Woken {C} _ _ _.

(** The timeout given to [epoll_wait]. *)
Definition timeout_ms (next : option N) : N :=
  match next with
  | Some delay => N.min 10 (if (delay <? 2 ^ 31)%N then delay else 10)
  | None => 10
  end.

Section Loop.
Context {C D : Type} {DI : Dispatch C D}.
Context (kernel : bool -> nat -> Gso.reply) (vnet big_endian : bool).

Record loop := mkLoop {
  disp : D;
  tx : list EgressDatagram;
  gso : Gso.sender (Addr := SocketAddr);
  coalescer : Coalescer;
  tun_out : list (list u8);
}.

Implicit Types l : loop.

Definition start (d : D) : loop := mkLoop d [] (Gso.mkSender true 0 []) new [].

(** ** To the device *)

Definition send_to_tun l (buf : list u8) : loop := mkLoop (disp l) (tx l) (gso l) (coalescer l) (tun_out l ++ [buf]).

Definition write_to_tun l (inner : list u8) : run loop :=
  if vnet then
    let! ' (c, o) := push big_endian (coalescer l) inner in
    let l := mkLoop (disp l) (tx l) (gso l) c (tun_out l) in
    Ret (match o with Some frame => send_to_tun l frame | None => l end)
  else Ret (send_to_tun l inner).

Definition flush_coalescer l : run loop :=
  if vnet then
    let! ' (c, o) := flush big_endian (coalescer l) in
    let l := mkLoop (disp l) (tx l) (gso l) c (tun_out l) in
    Ret (match o with Some frame => send_to_tun l frame | None => l end)
  else Ret l.

(** ** To the network *)

Definition extend_tx l (pkts : list EgressDatagram) : loop := mkLoop (disp l) (tx l ++ pkts) (gso l) (coalescer l) (tun_out l).

(** [flush_tx], which empties the batch; [false] is an error of the socket. *)
Definition flush_batch l : run (loop * bool) :=
  let! ' (s, ok) := Gso.flush_tx kernel (gso l) (tx l) in Ret (mkLoop (disp l) [] s (coalescer l) (tun_out l), ok).

(** ** Draining *)

Definition with_disp l (d : D) : loop := mkLoop d (tx l) (gso l) (coalescer l) (tun_out l).

Definition serve_udp (now : N) l (dg : SocketAddr * list u8) : run loop :=
  let! _ := rassert (N.of_nat (length dg.2) <=? MAX_WIRE_DATAGRAM)%N in
  let! ' (d, o) := on_udp dg.1 dg.2 now (disp l) in
  let l := with_disp l d in
  match o with
  | OutNone => Ret l
  | OutTun inner => write_to_tun l inner
  | OutUdp pkts => Ret (extend_tx l pkts)
  | OutBoth inner pkts => let! l := write_to_tun l inner in Ret (extend_tx l pkts)
  end.

Fixpoint drain_udp (now : N) (rs : list recv) l : run (loop * bool) :=
  match rs with
  | [] | RecvNothing :: _ => let! l := flush_coalescer l in Ret (l, true)
  | RecvFail :: _ => Ret (l, false)
  | Burst dgs :: rs =>
      let! _ := rassert (length dgs <=? MAX_DATAGRAM_BATCH) in
      match dgs with
      | [] => let! l := flush_coalescer l in Ret (l, true)
      | _ =>
          let! l := rfold (serve_udp now) dgs l in
          let! ' (l, ok) := flush_batch l in
          if negb ok then Ret (l, false)
          else if length dgs <? MAX_DATAGRAM_BATCH then let! l := flush_coalescer l in Ret (l, true)
          else drain_udp now rs l
      end
  end.

(** One packet of the device; the batch is sent when it is full. *)
Definition serve_tun (now : N) l (inner : list u8) : run (loop * bool) :=
  let! ' (d, pkts) := on_tun inner now (disp l) in
  let l := extend_tx (with_disp l d) pkts in
  if MAX_DATAGRAM_BATCH <=? length (tx l) then flush_batch l else Ret (l, true).

Fixpoint serve_segments (now : N) l (out : list u8) (offsets : list (nat * nat)) : run (loop * bool) :=
  match offsets with
  | [] => Ret (l, true)
  | o :: offsets =>
      let! s := slice_run o.1 (o.1 + o.2) out in
      let! ' (l, ok) := serve_tun now l s in
      if ok then serve_segments now l out offsets else Ret (l, false)
  end.

Definition serve_read (now : N) l (buf : list u8) : run (loop * bool) :=
  if vnet then
    let! ' (out, offsets, accepted) := split_gro big_endian buf in
    if accepted then serve_segments now l out offsets
    else match slice_opt VNET_HDR_LEN (length buf) buf with
         | Some body => serve_tun now l body
         | None => Ret (l, true)
         end
  else serve_tun now l buf.

Fixpoint drain_tun (now : N) (rs : list read) l : run (loop * bool) :=
  match rs with
  | [] | ReadNothing :: _ => flush_batch l
  | ReadFail :: _ => Ret (l, false)
  | ReadAgain :: rs => drain_tun now rs l
  | ReadPacket buf :: rs =>
      match buf with
      | [] => flush_batch l
      | _ => let! ' (l, ok) := serve_read now l buf in if ok then drain_tun now rs l else Ret (l, false)
      end
  end.

(** ** The loop *)

Fixpoint drain_ready (now : N) (evs : list ready) l : run (loop * bool) :=
  match evs with
  | [] => Ret (l, true)
  | ev :: evs =>
      let! ' (l, ok) := match ev with UdpReady rs => drain_udp now rs l | TunReady rs => drain_tun now rs l end in
      if ok then drain_ready now evs l else Ret (l, false)
  end.

Definition poll_tick (now : N) (c : C) l : run (loop * bool) :=
  let! ' (d, pkts) := tick c now (disp l) in flush_batch (extend_tx (with_disp l d) pkts).

(** The loop ends with an error, or with the rounds considered. *)
Fixpoint run_poll (rounds : list (wait C)) l : run (loop * bool) :=
  match rounds with
  | [] => Ret (l, true)
  | Interrupted :: rounds => run_poll rounds l
  | WaitFail :: _ => Ret (l, false)
  | Woken now evs c :: rounds =>
      let! ' (l, ok) := drain_ready now evs l in
      if negb ok then Ret (l, false)
      else let! ' (l, ok) := poll_tick now c l in if ok then run_poll rounds l else Ret (l, false)
  end.

(** * Properties *)

(** ** The sequential daemon *)

(** One input handled: the packets for the device and for the network. *)
Definition serve1 (i : input C) (d : D) : run (D * list (list u8) * list EgressDatagram) :=
  match i with
  | Datagram src dg now =>
      let! ' (d, o) := on_udp src dg now d in
      Ret (match o with
           | OutNone => (d, [], [])
           | OutTun inner => (d, [inner], [])
           | OutUdp pkts => (d, [], pkts)
           | OutBoth inner pkts => (d, [inner], pkts)
           end)
  | Packet inner now => let! ' (d, pkts) := on_tun inner now d in Ret (d, [], pkts)
  | Timer c now => let! ' (d, pkts) := tick c now d in Ret (d, [], pkts)
  end.

Fixpoint serve (ins : list (input C)) (d : D) : run (D * list (list u8) * list EgressDatagram) :=
  match ins with
  | [] => Ret (d, [], [])
  | i :: ins =>
      let! ' (d, t1, u1) := serve1 i d in let! ' (d, t2, u2) := serve ins d in Ret (d, t1 ++ t2, u1 ++ u2)
  end.

Lemma serve_app ins1 ins2 d d1 t1 u1 d2 t2 u2 :
  serve ins1 d = Ret (d1, t1, u1) -> serve ins2 d1 = Ret (d2, t2, u2) -> serve (ins1 ++ ins2) d = Ret (d2, t1 ++ t2, u1 ++ u2).
Proof.
  revert d t1 u1. induction ins1 as [|i ins1 IH]; intros d t1 u1 H1 H2; cbn [serve app] in *; [by injection H1 as -> <- <-|].
  destruct (serve1 i d) as [[[d' t] u]|]; [|done]. cbn [rbind] in *.
  destruct (serve ins1 d') as [[[d'' t'] u']|] eqn:E; [|done]. cbn [rbind] in H1. injection H1 as -> <- <-.
  rewrite (IH d' t' u' E H2). cbn [rbind]. by rewrite !app_assoc.
Qed.

(** The inputs of a round, as the sequential daemon would see them. *)
Fixpoint received (now : N) (rs : list recv) : list (input C) :=
  match rs with
  | Burst dgs :: rs =>
      map (fun dg => Datagram dg.1 dg.2 now) dgs ++ (if length dgs <? MAX_DATAGRAM_BATCH then [] else received now rs)
  | _ => []
  end.

Definition packets_of (buf : list u8) : list (list u8) :=
  if vnet then
    match split_gro big_endian buf with
    | Ret (out, offsets, true) => cut out offsets
    | _ => if VNET_HDR_LEN <=? length buf then [drop VNET_HDR_LEN buf] else []
    end
  else [buf].

Fixpoint read_packets (now : N) (rs : list read) : list (input C) :=
  match rs with
  | ReadPacket (b :: buf) :: rs => map (fun p => Packet p now) (packets_of (b :: buf)) ++ read_packets now rs
  | ReadAgain :: rs => read_packets now rs
  | _ => []
  end.

Definition ready_inputs (now : N) (ev : ready) : list (input C) :=
  match ev with UdpReady rs => received now rs | TunReady rs => read_packets now rs end.

Fixpoint inputs (rounds : list (wait C)) : list (input C) :=
  match rounds with
  | Woken now evs c :: rounds => concat (map (ready_inputs now) evs) ++ Timer c now :: inputs rounds
  | Interrupted :: rounds => inputs rounds
  | _ => []
  end.

(** The sizes the kernel keeps to: the buffers given to it. *)
Definition recv_ok (r : recv) : Prop :=
  match r with
  | Burst dgs => length dgs <= MAX_DATAGRAM_BATCH /\ Forall (fun dg => (N.of_nat (length dg.2) <= MAX_WIRE_DATAGRAM)%N) dgs
  | _ => True
  end.

Definition read_ok (r : read) : Prop := match r with ReadPacket buf => (N.of_nat (length buf) < 2 * u16_mod)%N | _ => True end.
Definition ready_ok (ev : ready) : Prop := match ev with UdpReady rs => Forall recv_ok rs | TunReady rs => Forall read_ok rs end.
Definition wait_ok (w : wait C) : Prop := match w with Woken _ evs _ => Forall ready_ok evs | _ => True end.

(** ** Progress *)

(** Towards the device, from [l] to [l'], packets [ps] were written. *)
Definition device l l' (ps : list (list u8)) : Prop :=
  exists fs, tun_out l' = tun_out l ++ fs /\
    if vnet then
      forall items, holds big_endian (coalescer l) items ->
      exists items', holds big_endian (coalescer l') items' /\
        (Forall frame_fits fs -> concat (frame_content big_endian <$> fs) ++ items' = items ++ concat (content <$> ps))
    else fs = ps.

(** Towards the network, [pkts] were handed over: each is sent, lost or waits in
    the batch, once; none is lost when the kernel takes what it is given. *)
Definition network l l' (pkts : list EgressDatagram) : Prop :=
  exists w lost, Gso.wire (gso l') = Gso.wire (gso l) ++ w /\
    w ++ lost ++ (Gso.dgram <$> tx l') ≡ₚ (Gso.dgram <$> tx l ++ pkts) /\ (Gso.willing kernel -> lost = []).

Definition progress l l' (ins : list (input C)) : Prop :=
  exists ps pkts, serve ins (disp l) = Ret (disp l', ps, pkts) /\ device l l' ps /\ network l l' pkts.

Lemma device_same l l' : tun_out l' = tun_out l -> coalescer l' = coalescer l -> device l l' [].
Proof.
  intros E1 E2. exists []. rewrite app_nil_r. split; [done|]. destruct vnet; [|done]. rewrite E2. intros items H. exists items.
  split; [done|]. intros _. cbn. by rewrite app_nil_r.
Qed.

Lemma device_trans l1 l2 l3 ps qs : device l1 l2 ps -> device l2 l3 qs -> device l1 l3 (ps ++ qs).
Proof.
  intros (f1 & E1 & H1) (f2 & E2 & H2). exists (f1 ++ f2). rewrite E2, E1, app_assoc. split; [done|]. destruct vnet; [|by subst].
  intros items Hi. destruct (H1 items Hi) as (i2 & Hi2 & C1). destruct (H2 i2 Hi2) as (i3 & Hi3 & C2). exists i3. split; [done|].
  intros [F1 F2]%Forall_app. rewrite !fmap_app, !concat_app, <- app_assoc, C2, app_assoc, C1, app_assoc by done. done.
Qed.

Lemma network_same l l' pkts : Gso.sent (gso l') = Gso.sent (gso l) -> tx l' = tx l ++ pkts -> network l l' pkts.
Proof. intros E1 E2. exists [], []. unfold Gso.wire. rewrite E1, E2, app_nil_r. done. Qed.

Lemma network_trans l1 l2 l3 p1 p2 : network l1 l2 p1 -> network l2 l3 p2 -> network l1 l3 (p1 ++ p2).
Proof.
  intros (w1 & lo1 & E1 & P1 & W1) (w2 & lo2 & E2 & P2 & W2). exists (w1 ++ w2), (lo1 ++ lo2). split; [by rewrite E2, E1, app_assoc|]. split.
  - rewrite !fmap_app in *. transitivity (w1 ++ lo1 ++ (w2 ++ lo2 ++ (Gso.dgram <$> tx l3))); [solve_Permutation|].
    rewrite P2, app_assoc, app_assoc, <- (app_assoc w1), P1. by rewrite app_assoc.
  - intros H. by rewrite W1, W2.
Qed.

Lemma progress_refl l : progress l l [].
Proof. exists [], []. split; [done|]. split; [by apply device_same|]. apply network_same; [done|by rewrite app_nil_r]. Qed.

Lemma progress_trans l1 l2 l3 i1 i2 : progress l1 l2 i1 -> progress l2 l3 i2 -> progress l1 l3 (i1 ++ i2).
Proof.
  intros (p1 & u1 & S1 & D1 & N1) (p2 & u2 & S2 & D2 & N2). exists (p1 ++ p2), (u1 ++ u2).
  split; [by eapply serve_app|]. split; [by eapply device_trans|by eapply network_trans].
Qed.

(** Progress that serves nothing. *)
Lemma progress_none l l' : disp l' = disp l -> device l l' [] -> network l l' [] -> progress l l' [].
Proof. intros E Hd Hn. exists [], []. by rewrite E. Qed.

Section Laws.
Context {good : D -> Prop} {fine : input C -> Prop} {DL : DispatchLaws good fine}.

Record sound l : Prop := { so_good : good (disp l); so_holds : exists items, holds big_endian (coalescer l) items }.

(** Nothing is held back from the device. *)
Definition idle l : Prop := vnet = true -> has_pending (coalescer l) = false.

(** A part of the loop that serves [ins], or a prefix of them before an error. *)
Definition serves (m : run (loop * bool)) l (ins : list (input C)) (P : loop -> Prop) : Prop :=
  exists l' ok done, m = Ret (l', ok) /\ sound l' /\ progress l l' done /\ done `prefix_of` ins /\ (ok = true -> done = ins /\ P l').

Lemma serves_bind m l ins ins' (k : loop -> run (loop * bool)) P Q :
  serves m l ins P -> (forall l', sound l' -> P l' -> serves (k l') l' ins' Q) ->
  serves (let! ' (l, ok) := m in if ok then k l else Ret (l, false)) l (ins ++ ins') Q.
Proof.
  intros (l1 & ok & d1 & -> & Hs & Hp & Hpre & Hok) Hk. cbn [rbind]. destruct ok.
  - destruct (Hok eq_refl) as [-> HP]. destruct (Hk l1 Hs HP) as (l2 & ok & d2 & -> & Hs2 & Hp2 & Hpre2 & Hok2).
    exists l2, ok, (ins ++ d2). split; [done|]. split; [done|]. split; [by eapply progress_trans|].
    split; [by apply prefix_app|]. intros E. by destruct (Hok2 E) as [-> ?].
  - exists l1, false, d1. do 3 (split; [done|]). split; [by apply prefix_app_r|done].
Qed.

Lemma serves_ret l : sound l -> forall P : loop -> Prop, P l -> serves (Ret (l, true)) l [] P.
Proof. intros Hs P HP. exists l, true, []. by split_and!; [| |apply progress_refl| |]. Qed.

Lemma flush_batch_serves l (P : loop -> Prop) :
  sound l -> (forall s, P (mkLoop (disp l) [] s (coalescer l) (tun_out l))) -> serves (flush_batch l) l [] P.
Proof.
  intros [Hg Hh] HP. unfold flush_batch. destruct (Gso.flush_tx_exact kernel (gso l) (tx l)) as (s' & ok & w & lost & -> & Hw & Hp & HW).
  cbn [rbind]. eexists _, ok, []. split; [done|]. split; [by constructor|]. split; [|done].
  apply progress_none; [done|by apply device_same|]. exists w, lost. cbn [gso tx]. split; [done|].
  rewrite fmap_nil, !app_nil_r. split; [done|]. intros H. by apply HW.
Qed.

(** A change of the fields towards the device. *)
Lemma write_to_tun_ok l inner :
  sound l ->
  exists l', write_to_tun l inner = Ret l' /\ sound l' /\ disp l' = disp l /\ tx l' = tx l /\ gso l' = gso l /\ device l l' [inner].
Proof.
  intros [Hg [items Hh]]. unfold write_to_tun, device. destruct vnet.
  - destruct (coalesce_push_ok big_endian (coalescer l) items inner Hh) as (c & o & items' & E & Hh' & Ho). rewrite E. cbn [rbind].
    eexists. split; [done|]. assert (forall items0, holds big_endian (coalescer l) items0 -> exists items', holds big_endian c items' /\
      (Forall frame_fits (emitted o) -> concat (frame_content big_endian <$> emitted o) ++ items' = items0 ++ concat (content <$> [inner]))) as H.
    { intros i0 H0. destruct (coalesce_push_ok big_endian (coalescer l) i0 inner H0) as (c0 & o0 & i' & E0 & H0' & Ho0).
      rewrite E in E0. injection E0 as <- <-. exists i'. split; [done|]. intros Hf. cbn. rewrite app_nil_r. by apply Ho0. }
    destruct o as [frame|]; (split; [by constructor; [|eexists]|]; do 3 (split; [done|])).
    + by exists [frame].
    + exists []. cbn [tun_out]. by rewrite app_nil_r.
  - eexists. split; [done|]. split; [by constructor; [|eexists]|]. do 3 (split; [done|]). by exists [inner].
Qed.

Lemma flush_coalescer_ok l :
  sound l ->
  exists l', flush_coalescer l = Ret l' /\ sound l' /\ idle l' /\ disp l' = disp l /\ tx l' = tx l /\ gso l' = gso l /\ device l l' [].
Proof.
  intros [Hg [items Hh]]. unfold flush_coalescer, device, idle. destruct vnet.
  - unfold flush. destruct (take_pending_ok big_endian (coalescer l) items Hh) as (c & o & E & Hn & Ho). rewrite E. cbn [rbind].
    eexists. split; [done|]. assert (forall items0, holds big_endian (coalescer l) items0 -> exists items', holds big_endian c items' /\
      (Forall frame_fits (emitted o) -> concat (frame_content big_endian <$> emitted o) ++ items' = items0 ++ concat (content <$> []))) as H.
    { intros i0 H0. destruct (take_pending_ok big_endian (coalescer l) i0 H0) as (c0 & o0 & E0 & _ & Ho0).
      rewrite E in E0. injection E0 as <- <-. exists []. split; [by apply holds_none|]. intros Hf. cbn. rewrite !app_nil_r. by apply Ho0. }
    destruct o as [frame|]; (split; [by constructor; [|exists []; apply holds_none]|]; split; [done|]; do 3 (split; [done|])).
    + by exists [frame].
    + exists []. cbn [tun_out]. by rewrite app_nil_r.
  - exists l. split; [done|]. split; [by constructor; [|eexists]|]. do 4 (split; [done|]). exists []. by rewrite app_nil_r.
Qed.

Lemma serve_single i d d' ps pkts : serve1 i d = Ret (d', ps, pkts) -> serve [i] d = Ret (d', ps, pkts).
Proof. intros E. cbn [serve]. rewrite E. cbn [rbind]. by rewrite !app_nil_r. Qed.

Lemma serve_udp_ok now l dg :
  sound l -> fine (Datagram dg.1 dg.2 now) -> (N.of_nat (length dg.2) <= MAX_WIRE_DATAGRAM)%N ->
  exists l', serve_udp now l dg = Ret l' /\ sound l' /\ progress l l' [Datagram dg.1 dg.2 now].
Proof.
  intros [Hg Hh] Hf Hl. unfold serve_udp, rassert. rewrite (proj2 (N.leb_le _ _)) by done. cbn [rbind].
  destruct (dl_udp (disp l) dg.1 dg.2 now Hg Hf) as (d' & o & E & Hg'). rewrite E. cbn [rbind].
  assert (sound (with_disp l d')) as Hs by by constructor.
  pose proof (serve_single (Datagram dg.1 dg.2 now) (disp l) d') as Hserve.
  unfold serve1 in Hserve. rewrite E in Hserve. cbn [rbind] in Hserve. destruct o as [|inner|pkts|inner pkts].
  - eexists. split; [done|]. split; [done|]. exists [], []. split; [by apply Hserve|]. split; [by apply device_same|].
    apply network_same; [done|by rewrite app_nil_r].
  - destruct (write_to_tun_ok (with_disp l d') inner Hs) as (l' & -> & Hs' & Ed & Et & Eg & Hd). exists l'. split; [done|]. split; [done|].
    exists [inner], []. rewrite Ed. split; [by apply Hserve|]. split; [done|]. apply network_same; [by rewrite Eg|by rewrite Et, app_nil_r].
  - eexists. split; [done|]. split; [by constructor|]. exists [], pkts. split; [by apply Hserve|]. split; [by apply device_same|]. by apply network_same.
  - destruct (write_to_tun_ok (with_disp l d') inner Hs) as (l' & -> & Hs' & Ed & Et & Eg & Hd). cbn [rbind]. eexists. split; [done|].
    split; [by destruct Hs'; constructor|]. exists [inner], pkts. cbn [disp extend_tx]. rewrite Ed. split; [by apply Hserve|]. split.
    + done.
    + apply network_same; cbn [gso tx extend_tx]; [by rewrite Eg|by rewrite Et].
Qed.

Lemma serve_burst_ok now dgs l :
  sound l -> Forall (fun dg => (N.of_nat (length dg.2) <= MAX_WIRE_DATAGRAM)%N) dgs ->
  Forall fine (map (fun dg => Datagram dg.1 dg.2 now) dgs) ->
  exists l', rfold (serve_udp now) dgs l = Ret l' /\ sound l' /\ progress l l' (map (fun dg => Datagram dg.1 dg.2 now) dgs).
Proof.
  intros Hs HL. revert l Hs. induction HL as [|dg dgs Hl _ IH]; intros l Hs Hf; cbn [rfold map].
  { exists l. split; [done|]. split; [done|]. apply progress_refl. }
  cbn [map] in Hf. apply Forall_cons in Hf as [Hf Hfs]. destruct (serve_udp_ok now l dg Hs Hf Hl) as (l1 & -> & Hs1 & Hp1). cbn [rbind].
  destruct (IH l1 Hs1 Hfs) as (l2 & -> & Hs2 & Hp2). exists l2. split; [done|]. split; [done|]. by apply (progress_trans l l1 l2 [_]).
Qed.

(** The end of a drain. *)
Lemma finish_serves l : sound l -> serves (let! l := flush_coalescer l in Ret (l, true)) l [] idle.
Proof.
  intros Hs. destruct (flush_coalescer_ok l Hs) as (l' & -> & Hs' & Hi & Ed & Et & Eg & Hd). cbn [rbind].
  exists l', true, []. split; [done|]. split; [done|]. split; [|done].
  apply progress_none; [done|done|]. apply network_same; [by rewrite Eg|by rewrite Et, app_nil_r].
Qed.

Lemma fail_serves l ins P : sound l -> serves (Ret (l, false)) l ins P.
Proof. intros Hs. exists l, false, []. split; [done|]. split; [done|]. split; [apply progress_refl|]. split; [apply prefix_nil|done]. Qed.

Lemma serves_after m l l1 ins ins' P : progress l l1 ins -> serves m l1 ins' P -> serves m l (ins ++ ins') P.
Proof.
  intros Hp (l2 & ok & d & -> & Hs & Hp2 & Hpre & Hok). exists l2, ok, (ins ++ d). split; [done|]. split; [done|].
  split; [by eapply progress_trans|]. split; [by apply prefix_app|]. intros E. by destruct (Hok E) as [-> ?].
Qed.

Lemma drain_udp_serves now rs l :
  sound l -> Forall recv_ok rs -> Forall fine (received now rs) -> serves (drain_udp now rs l) l (received now rs) idle.
Proof.
  intros Hs HR. revert l Hs. induction HR as [|r rs Hr _ IH]; intros l Hs Hf; cbn [drain_udp received] in *; [by apply finish_serves|].
  destruct r as [dgs| |]; [|by apply finish_serves|by apply fail_serves]. destruct Hr as [Hn Hl].
  unfold rassert. rewrite (proj2 (Nat.leb_le _ _)) by done. cbn [rbind].
  destruct (decide (dgs = [])) as [->|Hne]; [by apply finish_serves|]. apply Forall_app in Hf as [Hf Hf'].
  assert (forall (A B : run (loop * bool)), match dgs with [] => A | _ => B end = B) as -> by by destruct dgs.
  destruct (serve_burst_ok now dgs l Hs Hl Hf) as (l1 & -> & Hs1 & Hp). cbn [rbind].
  eapply serves_after; [exact Hp|]. pose proof (flush_batch_serves l1 (fun _ => True) Hs1 ltac:(done)) as Hb.
  set (k := fun l2 : loop => if length dgs <? MAX_DATAGRAM_BATCH then let! l := flush_coalescer l2 in Ret (l, true) else drain_udp now rs l2).
  assert (serves (let! ' (l2, ok) := flush_batch l1 in if ok then k l2 else Ret (l2, false)) l1
    ([] ++ if length dgs <? MAX_DATAGRAM_BATCH then [] else received now rs) idle) as Hk.
  { eapply serves_bind; [exact Hb|]. intros l2 Hs2 _. unfold k. destruct (length dgs <? MAX_DATAGRAM_BATCH); [by apply finish_serves|by apply IH]. }
  destruct Hb as (l2 & ok & d & E & _). rewrite E in *. cbn [rbind] in *. by destruct ok.
Qed.

Lemma serve_tun_serves now l inner :
  sound l -> idle l -> fine (Packet inner now) -> serves (serve_tun now l inner) l [Packet inner now] idle.
Proof.
  intros [Hg Hh] Hi Hf. unfold serve_tun. destruct (dl_tun (disp l) inner now Hg Hf) as (d' & pkts & E & Hg'). rewrite E. cbn [rbind].
  set (l1 := extend_tx (with_disp l d') pkts). assert (sound l1) as Hs1 by by constructor.
  assert (progress l l1 [Packet inner now]) as Hp.
  { exists [], pkts. split; [apply serve_single; unfold serve1; by rewrite E|]. split; [by apply device_same|by apply network_same]. }
  rewrite <- (app_nil_r [Packet inner now]). eapply serves_after; [exact Hp|].
  destruct (MAX_DATAGRAM_BATCH <=? length (tx l1)); [by apply flush_batch_serves|by apply serves_ret].
Qed.

Lemma serve_segments_serves now l out offsets :
  sound l -> idle l -> Forall (fun o => o.1 + o.2 <= length out) offsets -> Forall fine (map (fun p => Packet p now) (cut out offsets)) ->
  serves (serve_segments now l out offsets) l (map (fun p => Packet p now) (cut out offsets)) idle.
Proof.
  intros Hs Hi HF. revert l Hs Hi. induction HF as [|o offsets Ho _ IH]; intros l Hs Hi Hf; [by apply serves_ret|].
  cbn [serve_segments]. rewrite slice_run_ok by lia. cbn [rbind]. unfold cut in *. rewrite fmap_cons in *. cbn [map] in *.
  apply Forall_cons in Hf as [Hf Hfs]. apply (serves_bind _ _ [_]) with (P := idle); [by apply serve_tun_serves|].
  intros l' Hs' Hi'. by apply IH.
Qed.

Lemma serve_read_serves now l buf :
  sound l -> idle l -> (N.of_nat (length buf) < 2 * u16_mod)%N -> Forall fine (map (fun p => Packet p now) (packets_of buf)) ->
  serves (serve_read now l buf) l (map (fun p => Packet p now) (packets_of buf)) idle.
Proof.
  intros Hs Hi Hl Hf. unfold serve_read, packets_of in *. destruct vnet eqn:Ev.
  - destruct (split_gro_total big_endian buf Hl) as (out & offsets & acc & E & Ho). rewrite E in *. cbn [rbind]. destruct acc.
    + by apply serve_segments_serves.
    + unfold slice_opt. destruct (Nat.leb_spec VNET_HDR_LEN (length buf)) as [H|H].
      * rewrite decide_True by done. apply Forall_cons in Hf as [Hf _]. unfold slice.
        rewrite (take_ge (drop _ _)) by (rewrite length_drop; lia). by apply serve_tun_serves.
      * rewrite decide_False by lia. by apply serves_ret.
  - apply Forall_cons in Hf as [Hf _]. by apply serve_tun_serves.
Qed.

Lemma drain_tun_serves now rs l :
  sound l -> idle l -> Forall read_ok rs -> Forall fine (read_packets now rs) -> serves (drain_tun now rs l) l (read_packets now rs) idle.
Proof.
  intros Hs Hi HR. revert l Hs Hi. induction HR as [|r rs Hr _ IH]; intros l Hs Hi Hf; cbn [drain_tun read_packets] in *.
  { by apply flush_batch_serves. }
  destruct r as [[|b buf]| | |]; [by apply flush_batch_serves| |by apply IH|by apply flush_batch_serves|by apply fail_serves].
  apply Forall_app in Hf as [Hf Hfs]. eapply serves_bind; [by apply serve_read_serves|]. intros l' Hs' Hi'. by apply IH.
Qed.

Lemma drain_ready_serves now evs l :
  sound l -> idle l -> Forall ready_ok evs -> Forall fine (concat (map (ready_inputs now) evs)) ->
  serves (drain_ready now evs l) l (concat (map (ready_inputs now) evs)) idle.
Proof.
  intros Hs Hi HR. revert l Hs Hi. induction HR as [|ev evs Hr _ IH]; intros l Hs Hi Hf; [by apply serves_ret|].
  cbn [drain_ready map concat] in *. apply Forall_app in Hf as [Hf Hfs]. apply serves_bind with (P := idle).
  - destruct ev; [by apply drain_udp_serves|by apply drain_tun_serves].
  - intros l' Hs' Hi'. by apply IH.
Qed.

Lemma poll_tick_serves now c l : sound l -> idle l -> fine (Timer c now) -> serves (poll_tick now c l) l [Timer c now] idle.
Proof.
  intros [Hg Hh] Hi Hf. unfold poll_tick. destruct (dl_tick (disp l) c now Hg Hf) as (d' & pkts & E & Hg'). rewrite E. cbn [rbind].
  rewrite <- (app_nil_r [Timer c now]). eapply serves_after; [|by apply flush_batch_serves].
  exists [], pkts. split; [apply serve_single; unfold serve1; by rewrite E|]. split; [by apply device_same|by apply network_same].
Qed.

Lemma run_poll_serves rounds l :
  sound l -> idle l -> Forall wait_ok rounds -> Forall fine (inputs rounds) -> serves (run_poll rounds l) l (inputs rounds) idle.
Proof.
  intros Hs Hi HR. revert l Hs Hi. induction HR as [|r rounds Hr _ IH]; intros l Hs Hi Hf; [by apply serves_ret|].
  destruct r as [| |now evs c]; cbn [run_poll inputs] in *; [by apply IH|by apply fail_serves|].
  apply Forall_app in Hf as [Hf [Ht Hfs]%Forall_cons].
  assert (serves (let! ' (l1, ok) := drain_ready now evs l in
      if ok then let! ' (l2, ok2) := poll_tick now c l1 in if ok2 then run_poll rounds l2 else Ret (l2, false) else Ret (l1, false)) l
    (concat (map (ready_inputs now) evs) ++ [Timer c now] ++ inputs rounds) idle) as H.
  { eapply serves_bind; [by apply drain_ready_serves|]. intros l1 Hs1 Hi1. eapply serves_bind; [by apply poll_tick_serves|].
    intros l2 Hs2 Hi2. by apply IH. }
  destruct H as (l' & ok & d & E & H). exists l', ok, d. split; [|done]. rewrite <- E.
  destruct (drain_ready now evs l) as [[l1 []]|]; done.
Qed.

(** The loop returns, and keeps the daemon's invariant. *)
Lemma run_poll_total d rounds :
  good d -> Forall wait_ok rounds -> Forall fine (inputs rounds) -> exists l ok, run_poll rounds (start d) = Ret (l, ok) /\ good (disp l).
Proof.
  intros Hg HR Hf. assert (sound (start d)) as Hs by by constructor; [|exists []; apply holds_none].
  destruct (run_poll_serves rounds (start d) Hs ltac:(done) HR Hf) as (l & ok & served & E & [Hg' _] & _). by exists l, ok.
Qed.

(** C2: the event loop serves its daemon faithfully, whatever the kernel does:
    it never panics; the inputs reach the handlers one at a time, in the order
    they came (all of them, or those before an error of the socket or the
    device ended the loop); and what the handlers return goes out unchanged.
    Datagrams are sent once each, none is lost if the kernel takes what it is
    given; the device receives the packets in order, or, with offloads, frames
    that carry the same bytes of the same flows. *)
Theorem poll_loop_faithful d rounds :
  good d -> Forall wait_ok rounds -> Forall fine (inputs rounds) ->
  exists l ok served ps pkts, run_poll rounds (start d) = Ret (l, ok) /\ good (disp l) /\
    served `prefix_of` inputs rounds /\ (ok = true -> served = inputs rounds) /\
    serve served d = Ret (disp l, ps, pkts) /\
    (exists lost, Gso.wire (gso l) ++ lost ++ (Gso.dgram <$> tx l) ≡ₚ (Gso.dgram <$> pkts) /\ (Gso.willing kernel -> lost = [])) /\
    (if vnet then ok = true -> Forall frame_fits (tun_out l) ->
       concat (frame_content big_endian <$> tun_out l) = concat (content <$> ps)
     else tun_out l = ps).
Proof.
  intros Hg HR Hf. assert (sound (start d)) as Hs by by constructor; [|exists []; apply holds_none].
  destruct (run_poll_serves rounds (start d) Hs ltac:(done) HR Hf)
    as (l & ok & served & E & [Hg' _] & (ps & pkts & Es & (fs & Ef & Hd) & (w & lost & Ew & Hp & HW)) & Hpre & Hok).
  exists l, ok, served, ps, pkts. split; [done|]. split; [done|]. split; [done|]. split; [intros H; by apply Hok|]. split; [done|]. split.
  - exists lost. change (Gso.wire (gso l) = w) in Ew. rewrite Ew. split; [done|done].
  - change (tun_out l = fs) in Ef. subst fs. destruct vnet eqn:Ev; [|done]. intros H Hfit.
    destruct (Hd [] ltac:(by apply holds_none)) as (items & Hh & Hc). destruct (Hok H) as [_ Hidle].
    specialize (Hidle Ev). destruct Hh as [_|? ? H0 _ _|? H0 _ _]; [|congruence|congruence].
    specialize (Hc Hfit). by rewrite app_nil_r in Hc.
Qed.

End Laws.
End Loop.
End Poll.

(** ** The peer manager as the daemon *)

Module Managed.
Import Pm Tbl Obfs Disp Safe Run.
Section Managed.
Context {snow : Snow} {kem : MlKem} {aead : Sess.Aead} {D T : Type} {MP : ManagedPlane D} {RV : Rendezvous T}.
Context {blake : Blake2s} {ed : Ed25519} {iter : HashIter} {sip : SipHash24} {os : Os}.

#[export] Instance manager_dispatch : Dispatch (list ControlCmd) (PeerManager D T) := {|
  PollLoop.on_udp src dg now := Disp.on_udp src dg now;
  PollLoop.on_tun inner now := Disp.on_tun inner now;
  PollLoop.tick cmds now := Disp.tick cmds now;
  PollLoop.next_timeout_ms s now := next_scheduled_egress_delay_ms s now;
|}.

Context {wf : D -> Prop} {clock : N -> Prop} {ML : ManagedLaws wf clock}.
Context {BL : Blake2sLaws} {EL : Ed25519Laws} {IL : HashIterLaws} {RL : Client.RendezvousLaws T} {SL : SnowLaws}.
Context {eps : list SocketAddr} (enrolled : forall k c, os_enroll k = Some c -> DirWf.announceable c eps).

Definition input_ok (i : input (list ControlCmd)) : Prop :=
  match i with
  | Datagram _ _ now => clock now
  | Packet inner now => clock now /\ sealable inner
  | Timer cmds _ => Forall cmd_ok cmds
  end.

(** The manager keeps what the loop relies on. *)
Lemma manager_laws : DispatchLaws (inv (T := T) wf eps) input_ok.
Proof.
  assert (forall A (m : M (PeerManager D T) A), safe (T := T) wf eps 0 m any ->
    forall s, inv wf eps s -> exists s' a, m s = Ret (s', a) /\ inv wf eps s') as H.
  { intros A m Hm s Hs. destruct (Hm s) as (s' & a & E & [[Hi _] _]); [by split; [|lia]|]. by exists s', a. }
  constructor; intros s *; intros Hs Hi; cbn in Hi |- *.
  - apply H; [by apply safe_on_udp|done].
  - apply H; [by apply safe_on_tun; apply Hi|done].
  - apply H; [by apply safe_tick|done].
Qed.

End Managed.
End Managed.
