(* ===== verification/PmSpec.v ===== *)
(** * The peer machine

    What may happen to one peer, whatever the manager does: a transition system
    over peers ([peer_step]) whose rules carry the evidence each change needs —
    a session is accepted from an initiation that was decrypted, whose label is
    newer than any accepted before, and whose sender is authorised; an endpoint
    of a peer with a session moves only when that session opened a datagram.
    The invariants of the machine are proved by rule induction; PmRefines shows
    that the manager's handlers only ever make its steps. *)

From Stdlib Require Strings.Byte.
From Stdlib Require Import NArith Lia.
From stdpp Require Import base numbers gmap list relations.
From S2P Require Import Prelude StateM Session DataPlane NetAddr MemberCodec MemberVerify Directory Obf RdvClient EpochSet PathState Noise PmState PmTable PmRekey.

Local Open Scope nat_scope.

Module PeerSpec.
Import Pm Tbl Rekeys.

Section Machine.
Context {snow : Snow} {kem : MlKem} {aead : Sess.Aead} {D T : Type} {MP : ManagedPlane D} {RV : Rendezvous T}.
Context {blake : Blake2s} {ed : Ed25519} {os : Os}.
Notation PeerManager := (PeerManager D T).
Notation Peer := (Peer D).
Notation Epochs := (Epochs D).
Implicit Types (s : PeerManager) (p q : Peer) (e : Epochs).

(** What the rules read of the manager, and no operation changes: the boot
    label, and the trust configuration of the network. *)
Record Env := mkEnv { floor : list u8; trust_config : option (list (list u8) * list u8 * RootSet) }.

Definition env_of s : Env :=
  mkEnv (boot_floor_ts s) ((fun m => (ca_pubkeys m, m_network_id m, m_roots m)) <$> membership s).

(** A root node, or a key for which a certificate of the authority was valid. *)
Definition authorised (env : Env) (pk : list u8) : Prop :=
  match trust_config env with
  | None => True
  | Some (cas, net, rts) =>
      (exists a, (pk, a) ∈ roots rts) \/ exists c now, cert_valid c cas net now os_skew /\ member_pubkey c = pk
  end.

(** A label later than any accepted from this peer. *)
Definition fresh_label (env : Env) p (ts : list u8) : Prop :=
  Hs.label_lt (default (floor env) (last_accepted_init_ts p)) ts = true.

(** An initiation of [pk] that we decrypted, with its label. *)
Definition initiated (pk ts : list u8) : Prop :=
  exists r r' priv dg pl est pkt ipl cert,
    Hs.start_responder r r' priv dg pl = Ok (est, pkt, pk, ipl) /\ Hs.parse_init_payload ipl = Some (ts, cert).

(** A response to a handshake of ours that we decrypted. *)
Definition responded (h : Hs.Handshake) : Prop := exists dg est pl, Hs.read_response h dg = Ok (est, pl).

(** The fields the rules speak of. *)
Definition core p : list u8 * list u8 * list u8 * PeerState D * option (list u8) * option SocketAddr * bool :=
  (pubkey p, addr p, node p, state p, last_accepted_init_ts p, endpoint p, relay p).

Definition unestablished p : Prop := is_established p = false.

(** What a session does between rotations. *)
Inductive session_step e : Epochs -> Prop :=
| ss_open dg now e' o : Epochs.inbound_open e dg now = Ret (e', o) -> session_step e e'
| ss_plane d : session_step e (Epochs.set_current e d)
| ss_rekey r : session_step e (Epochs.set_rekey e r)
| ss_retire now : session_step e (Epochs.retire_previous_if_due e now)
| ss_ratio r : session_step e (Epochs.set_fec_repair_ratio e r).

Inductive peer_step (env : Env) p : Peer -> Prop :=
| ps_touch p' : core p' = core p -> peer_step env p p'
| ps_aim p' ep rl : unestablished p -> core p' = core (p <| endpoint := ep |> <| relay := rl |>) -> peer_step env p p'
| ps_try p' h : unestablished p -> core p' = core (p <| state := Handshaking h |>) -> peer_step env p p'
| ps_drop p' : core p' = core (p <| state := Idle |>) -> peer_step env p p'
| ps_session p' e e' :
    state p = Established e -> session_step e e' -> core p' = core (p <| state := Established e' |>) -> peer_step env p p'
| ps_roam p' e dg now e1 o a e2 :
    state p = Established e -> relay p = false ->
    Epochs.inbound_open e dg now = Ret (e1, o) -> o <> InNone -> Epochs.set_peer_addr e1 a = Ret e2 ->
    core p' = core (p <| endpoint := Some a |> <| state := Established e2 |>) -> peer_step env p p'
| ps_accept p' ts ep rl d now :
    unestablished p -> initiated (pubkey p) ts -> authorised env (pubkey p) -> fresh_label env p ts ->
    core p' = core (p <| endpoint := ep |> <| relay := rl |> <| last_accepted_init_ts := Some ts |>
                      <| state := Established (Epochs.new d now) |>) -> peer_step env p p'
| ps_complete p' h ep rl d now :
    state p = Handshaking h -> responded (h_hs h) -> authorised env (pubkey p) ->
    core p' = core (p <| endpoint := ep |> <| relay := rl |> <| state := Established (Epochs.new d now) |>) -> peer_step env p p'
| ps_adopt p' ts :
    initiated (pubkey p) ts -> authorised env (pubkey p) -> fresh_label env p ts ->
    core p' = core (p <| relay := true |>) -> peer_step env p p'
| ps_rekey_accept p' e ts d eph resp :
    state p = Established e -> initiated (pubkey p) ts -> authorised env (pubkey p) -> fresh_label env p ts ->
    core p' = core (p <| last_accepted_init_ts := Some ts |> <| state := Established (Epochs.install_next e d eph resp) |>) ->
    peer_step env p p'
| ps_rekey_complete p' e rk d now :
    state p = Established e -> rekey e = Some rk -> responded (hs rk) -> authorised env (pubkey p) ->
    core p' = core (p <| state := Established (Epochs.promote_from_rekey (Epochs.set_rekey e None) d now) |>) ->
    peer_step env p p'.

Definition peer_steps (env : Env) : relation Peer := rtc (peer_step env).

(** A peer as it enters the table. *)
Definition fresh_in_table p : Prop :=
  state p = Idle /\ last_accepted_init_ts p = None /\ node p = node_id_of (pubkey p) /\ addr p = node_addr (pubkey p).

(** ** The indices *)

(** Where each peer of a table is, by some key; the last one wins. *)
Definition index_by (f : Peer -> list u8) (ps : list Peer) : gmap (list u8) nat :=
  list_to_map (rev (imap (fun i p => (f p, i)) ps)).

(** The keys are distinct, each peer has the identifiers of its key, and the
    two indices are those of the table. *)
Record indexed s : Prop := {
  ix_keys : NoDup (pubkey <$> peers s);
  ix_ident p : p ∈ peers s -> node p = node_id_of (pubkey p) /\ addr p = node_addr (pubkey p);
  ix_node : by_node s = index_by node (peers s);
  ix_addr : Pm.by_addr s = index_by addr (peers s);
}.

Lemma index_by_snoc f ps p : index_by f (ps ++ [p]) = <[f p := length ps]> (index_by f ps).
Proof. unfold index_by. rewrite imap_app. cbn [imap]. rewrite rev_app_distr. cbn. by rewrite Nat.add_0_r. Qed.

Lemma index_by_some f ps k i : index_by f ps !! k = Some i -> exists p, ps !! i = Some p /\ f p = k.
Proof.
  intros H. apply elem_of_list_to_map_2, list_elem_of_In, in_rev, list_elem_of_In in H.
  apply elem_of_lookup_imap in H as (j & p & [= -> ->] & Hp). by exists p.
Qed.

Lemma index_by_none f ps k : index_by f ps !! k = None -> forall p, p ∈ ps -> f p <> k.
Proof.
  intros H p Hp E. apply not_elem_of_list_to_map in H. apply H. apply list_elem_of_fmap.
  apply list_elem_of_lookup in Hp as [i Hi]. exists (f p, i). split; [done|].
  apply list_elem_of_In, in_rev. rewrite rev_involutive. apply list_elem_of_In, elem_of_lookup_imap. by exists i, p.
Qed.

(** With distinct keys the index is exact. *)
Lemma index_by_exact f ps k i : NoDup (f <$> ps) -> index_by f ps !! k = Some i <-> exists p, ps !! i = Some p /\ f p = k.
Proof.
  intros Hd. split; [apply index_by_some|]. intros (p & Hp & <-).
  destruct (index_by f ps !! f p) as [j|] eqn:E; [|exfalso; eapply index_by_none; [done|by eapply list_elem_of_lookup_2|done]].
  apply index_by_some in E as (q & Hq & Eq). f_equal.
  eapply (NoDup_lookup (f <$> ps)); [done| |]; rewrite list_lookup_fmap; [by rewrite Hq; cbn; rewrite Eq|by rewrite Hp].
Qed.

(** ** Invariants of the machine *)

Ltac core_eq H := unfold core in H; cbn in H; injection H as ? ? ? ? ? ? ?.

Lemma step_identity env p p' : peer_step env p p' -> pubkey p' = pubkey p /\ addr p' = addr p /\ node p' = node p.
Proof. intros H. destruct H as [? E|? ? ? _ E|? ? _ E|? E|? ? ? _ _ E|? ? ? ? ? ? ? ? _ _ _ _ _ E|? ? ? ? ? ? _ _ _ _ E|? ? ? ? ? ? _ _ _ E|? ? _ _ _ E|? ? ? ? ? ? _ _ _ _ E|? ? ? ? ? _ _ _ _ E]; core_eq E; done. Qed.

(** The order of accepted labels. *)
Definition label_le (a b : option (list u8)) : Prop :=
  match a, b with
  | None, _ => True
  | Some x, Some y => (from_be_bytes x <= from_be_bytes y)%N
  | Some _, None => False
  end.

#[export] Instance label_le_preorder : PreOrder label_le.
Proof. split; [by intros [x|]; cbn|]. intros [x|] [y|] [z|] ?H ?H; try done. cbn [label_le] in *. by etransitivity. Qed.

Lemma fresh_label_le env p ts : fresh_label env p ts -> label_le (last_accepted_init_ts p) (Some ts).
Proof.
  unfold fresh_label, Hs.label_lt. destruct (last_accepted_init_ts p) as [x|]; [|done]. intros H%N.ltb_lt. by apply N.lt_le_incl.
Qed.

Lemma step_label env p p' : peer_step env p p' -> label_le (last_accepted_init_ts p) (last_accepted_init_ts p').
Proof.
  intros H. destruct H as [? E|? ? ? _ E|? ? _ E|? E|? ? ? _ _ E|? ? ? ? ? ? ? ? _ _ _ _ _ E|? ? ? ? ? ? _ _ _ Hf E
    |? ? ? ? ? ? _ _ _ E|? ? _ _ _ E|? ? ? ? ? ? _ _ _ Hf E|? ? ? ? ? _ _ _ _ E]; core_eq E;
    match goal with H : last_accepted_init_ts ?q = _ |- label_le _ (last_accepted_init_ts ?q) => rewrite H end;
    first [reflexivity|by eapply fresh_label_le].
Qed.

Lemma steps_label env p p' : peer_steps env p p' -> label_le (last_accepted_init_ts p) (last_accepted_init_ts p').
Proof. induction 1 as [|x y z Hxy _ IH]; [reflexivity|]. etransitivity; [by eapply step_label|done]. Qed.

Lemma steps_identity env p p' : peer_steps env p p' -> pubkey p' = pubkey p /\ addr p' = addr p /\ node p' = node p.
Proof. induction 1 as [|x y z Hxy _ IH]; [done|]. apply step_identity in Hxy. intuition congruence. Qed.

(** A peer with a session is authorised. *)
Definition admitted env p : Prop := is_established p = true -> authorised env (pubkey p).

Lemma step_admitted env p p' : peer_step env p p' -> admitted env p -> admitted env p'.
Proof.
  intros H. destruct H as [? E|? ? ? Hu E|? ? _ E|? E|? ? ? Es _ E|? ? ? ? ? ? ? ? Es _ _ _ _ E|? ? ? ? ? ? _ _ Ha _ E
    |? ? ? ? ? ? _ _ Ha E|? ? _ Ha _ E|? ? ? ? ? ? _ _ Ha _ E|? ? ? ? ? _ _ _ Ha E]; core_eq E;
    unfold admitted, unestablished, is_established in *; intros Hp Hq;
    repeat match goal with H : pubkey _ = _ |- _ => rewrite H in * | H : state _ = _ |- _ => rewrite H in * end; try done; auto.
Qed.

Lemma steps_admitted env p p' : peer_steps env p p' -> admitted env p -> admitted env p'.
Proof. induction 1 as [|x y z Hxy _ IH]; [done|]. intros Hp. by eapply IH, step_admitted. Qed.

(** The endpoint of a peer with a session, when it keeps one: it moves only to
    where the session opened a datagram. *)
Lemma step_endpoint env p p' :
  peer_step env p p' -> is_established p = true -> endpoint p' <> endpoint p ->
  relay p = false /\ exists e dg now e1 o,
    state p = Established e /\ Epochs.inbound_open e dg now = Ret (e1, o) /\ o <> InNone.
Proof.
  intros H. destruct H as [? E|? ? ? Hu E|? ? _ E|? E|? ? ? Es _ E|? e dg now e1 o a e2 Es Hr Ho Hn _ E|? ? ? ? ? ? Hu _ _ _ E
    |? ? ? ? ? ? Eh _ _ E|? ? _ _ _ E|? ? ? ? ? ? _ _ _ _ E|? ? ? ? ? _ _ _ _ E]; core_eq E; intros Hp Hne;
    try (by unfold unestablished in Hu; rewrite Hu in Hp); try congruence.
  - split; [done|]. by exists e, dg, now, e1, o.
  - unfold is_established in Hp. by rewrite Eh in Hp.
Qed.

End Machine.
End PeerSpec.
