(* ===== verification/PmRefines.v ===== *)
(** * The peer manager refines the peer machine

    A handler's effect on the table is read off by symbolic execution:
    [acts env i q m Q] says that [m], run where the peer [i] is [q], changes no
    other peer, and leaves [i] as some [q'] with [Q q'].  Computations that
    leave the whole table alone are [quiet].  Each handler is shown to take its
    peer along steps of [peer_step]; runs of the manager follow. *)

From Stdlib Require Strings.Byte.
From Stdlib Require Import NArith Lia.
From stdpp Require Import base numbers gmap list relations.
From S2P Require Import Prelude StateM Session DataPlane NetAddr MemberCodec MemberVerify Directory Obf RdvClient EpochSet PathState Noise Metrics SplitTunnel PmState PmTable PmObf PmRekey PmHandshake PmRouting PmRelay PmDispatch PmSpec.

Local Open Scope nat_scope.

Module Refines.
Import Pm Tbl Obfs Rekeys Cold Route Gos Rel Disp PeerSpec.

Section Logic.
Context {snow : Snow} {kem : MlKem} {aead : Sess.Aead} {D T : Type} {MP : ManagedPlane D} {RV : Rendezvous T}.
Context {blake : Blake2s} {ed : Ed25519} {os : Os}.
Notation PeerManager := (PeerManager D T).
Notation Peer := (Peer D).
Notation M := (M PeerManager).
Implicit Types (s : PeerManager) (p q : Peer).

(** ** Quiet computations *)

Definition indices s := (by_node s, Pm.by_addr s).

Definition quiet : relation PeerManager := fun s s' => peers s' = peers s /\ env_of s' = env_of s /\ indices s' = indices s.

#[export] Instance quiet_preorder : PreOrder quiet.
Proof. split; [done|]. intros s1 s2 s3 (? & ? & ?) (? & ? & ?). split_and!; congruence. Qed.

Lemma quiet_modify f : (forall s, peers (f s) = peers s /\ env_of (f s) = env_of s /\ indices (f s) = indices s) -> keeps quiet (modify f).
Proof. intros H. by apply keeps_modify. Qed.

(** ** Effects on one peer *)

Definition acts {A} (env : Env) (i : nat) q (m : M A) (Q : Peer -> A -> Prop) : Prop :=
  forall s s' a, env_of s = env -> peers s !! i = Some q -> m s = Ret (s', a) ->
  exists q', peers s' = <[i := q']> (peers s) /\ env_of s' = env /\ indices s' = indices s /\ Q q' a.

Lemma acts_weaken {A} env i q (m : M A) (Q Q' : Peer -> A -> Prop) :
  acts env i q m Q -> (forall q' a, Q q' a -> Q' q' a) -> acts env i q m Q'.
Proof. intros H HQ s s' a He Hi E. destruct (H s s' a He Hi E) as (q' & ? & ? & ? & ?). exists q'. auto. Qed.

Lemma acts_ret {A} env i q (a : A) Q : Q q a -> acts env i q (mret a) Q.
Proof. intros HQ s s' b He Hi [= <- <-]. exists q. by rewrite list_insert_id. Qed.

Lemma acts_bind {A B} env i q (m : M A) (k : A -> M B) R Q :
  acts env i q m R -> (forall q' a, R q' a -> acts env i q' (k a) Q) -> acts env i q (m ≫= k) Q.
Proof.
  intros Hm Hk s s' b He Hi. unfold mbind, M_bind. destruct (m s) as [[s1 a]|] eqn:E; [|done]. cbn [rbind]. intros E2.
  destruct (Hm s s1 a He Hi E) as (q1 & Ep & He1 & Ex1 & HR). pose proof (lookup_lt_Some _ _ _ Hi) as Hlt.
  destruct (Hk q1 a HR s1 s' b He1) as (q2 & Ep2 & He2 & Ex2 & HQ); [rewrite Ep; by apply list_lookup_insert_eq|done|].
  exists q2. split; [by rewrite Ep2, Ep, list_insert_insert_eq|]. split; [done|]. split; [congruence|done].
Qed.

(** A computation that leaves the table alone, with what is known of its
    result. *)
Lemma acts_quiet {A} env i q (m : M A) (R : A -> Prop) :
  keeps quiet m -> (forall s s' a, env_of s = env -> m s = Ret (s', a) -> R a) ->
  acts env i q m (fun q' a => q' = q /\ R a).
Proof.
  intros Hq HR s s' a He Hi E. destruct (Hq s s' a E) as (Ep & Ee & Ex). exists q. split; [by rewrite list_insert_id, Ep|].
  split; [congruence|]. split; [done|]. split; [done|]. by eapply HR.
Qed.

Lemma acts_skip {A B} env i q (m : M A) (k : A -> M B) Q :
  keeps quiet m -> (forall a, acts env i q (k a) Q) -> acts env i q (m ≫= k) Q.
Proof. intros Hq Hk. eapply acts_bind; [by apply (acts_quiet _ _ _ _ (fun _ => True))|]. by intros q' a [-> _]. Qed.

Lemma acts_end {A} env i q (m : M A) (Q : Peer -> A -> Prop) : keeps quiet m -> (forall a, Q q a) -> acts env i q m Q.
Proof. intros Hq HQ. eapply acts_weaken; [by apply (acts_quiet _ _ _ _ (fun _ => True))|]. by intros q' a [-> _]. Qed.

Lemma acts_get {B} env i q (k : PeerManager -> M B) Q :
  (forall s, env_of s = env -> peers s !! i = Some q -> acts env i q (k s) Q) -> acts env i q (get ≫= k) Q.
Proof. intros H s s' a He Hi E. by apply (H s He Hi s s' a). Qed.

Lemma acts_peer {B} env i q (k : Peer -> M B) Q : acts env i q (k q) Q -> acts env i q (peer_at i ≫= k) Q.
Proof.
  intros H s s' a He Hi. unfold peer_at, get, mbind, M_bind. cbn [rbind]. rewrite Hi. cbn [rbind mret M_ret]. by apply H.
Qed.

Lemma acts_upd env i q f (Q : Peer -> unit -> Prop) : Q (f q) tt -> acts env i q (upd_peer i f) Q.
Proof.
  intros HQ s s' [] He Hi. unfold upd_peer, get, modify, mbind, M_bind. cbn [rbind]. rewrite Hi. intros [= <-].
  exists (f q). by split_and!.
Qed.

Lemma acts_then {B} env i q f (k : unit -> M B) Q : acts env i (f q) (k tt) Q -> acts env i q (upd_peer i f ≫= k) Q.
Proof. intros H. eapply acts_bind; [by apply (acts_upd _ _ _ _ (fun q' _ => q' = f q))|]. by intros q' [] ->. Qed.

(** ** The table *)

(** Every peer made steps of the machine; those that are new, from their entry
    into the table. *)
Definition table_step s s' : Prop :=
  env_of s' = env_of s /\
  (forall i p, peers s !! i = Some p -> exists p', peers s' !! i = Some p' /\ peer_steps (env_of s) p p') /\
  (forall i p', peers s' !! i = Some p' -> length (peers s) <= i ->
     exists p0, fresh_in_table p0 /\ peer_steps (env_of s) p0 p') /\
  (indexed s -> indexed s').

Lemma indexed_same s s' :
  (fun p => (pubkey p, node p, addr p)) <$> peers s' = (fun p => (pubkey p, node p, addr p)) <$> peers s ->
  indices s' = indices s -> indexed s -> indexed s'.
Proof.
  intros Ei [= E1 E2] [H1 H2 H3 H4].
  assert (forall f : Peer -> list u8, (exists g, forall p, f p = g (pubkey p, node p, addr p)) -> f <$> peers s' = f <$> peers s) as Hf.
  { intros f [g Hg]. rewrite (list_fmap_ext f (g ∘ (fun p => (pubkey p, node p, addr p))) (peers s')) by (intros; apply Hg).
    rewrite (list_fmap_ext f (g ∘ (fun p => (pubkey p, node p, addr p))) (peers s)) by (intros; apply Hg).
    by rewrite !list_fmap_compose, Ei. }
  assert (forall f : Peer -> list u8, f <$> peers s' = f <$> peers s -> index_by f (peers s') = index_by f (peers s)) as Hx.
  { intros f E. unfold index_by. f_equal. f_equal. revert E. generalize (peers s), (peers s'). intros l l'. revert l.
    enough (forall n l, f <$> l' = f <$> l -> imap (fun i p => (f p, n + i)) l' = imap (fun i p => (f p, n + i)) l) as H by (intros l; apply (H 0)).
    induction l' as [|x l' IH]; intros n [|y l]; cbn; try done. intros [= E E']. f_equal; [congruence|].
    rewrite !(imap_ext (fun i p => (f p, n + S i)) (fun i p => (f p, S n + i))) by (intros; f_equal; lia). by apply IH. }
  constructor.
  - rewrite (Hf pubkey); [done|]. by exists (fun x => x.1.1).
  - intros p Hp. apply (list_elem_of_fmap_2 (fun p => (pubkey p, node p, addr p))) in Hp. rewrite Ei in Hp.
    apply list_elem_of_fmap in Hp as (p0 & [= -> -> ->] & Hp0). by apply H2.
  - rewrite E1, H3. symmetry. apply Hx, Hf. by exists (fun x => x.1.2).
  - rewrite E2, H4. symmetry. apply Hx, Hf. by exists (fun x => x.2).
Qed.

Lemma table_quiet s s' : quiet s s' -> table_step s s'.
Proof.
  intros (Ep & Ee & Ex). split; [done|]. split; [rewrite Ep; intros i p Hp; exists p; split; [done|apply rtc_refl]|].
  split; [|apply indexed_same; [by rewrite Ep|done]]. rewrite Ep. intros i p' Hp Hl. apply lookup_lt_Some in Hp. lia.
Qed.

#[export] Instance table_step_preorder : PreOrder table_step.
Proof.
  split; [intros s; apply table_quiet; reflexivity|].
  intros s1 s2 s3 (E1 & O1 & N1 & X1) (E2 & O2 & N2 & X2). rewrite E1 in *. split; [congruence|]. split; [|split; [|auto]].
  - intros i p Hp. destruct (O1 i p Hp) as (p1 & H1 & S1). destruct (O2 i p1 H1) as (p2 & H2 & S2).
    exists p2. split; [done|]. by etransitivity.
  - intros i p3 H3 Hl. destruct (decide (i < length (peers s2))) as [Hlt|Hge]; [|apply (N2 i); [done|lia]].
    destruct (lookup_lt_is_Some_2 _ _ Hlt) as [p2 H2]. destruct (N1 i p2 H2 Hl) as (p0 & Hf & S0).
    destruct (O2 i p2 H2) as (p3' & H3' & S2). assert (p3' = p3) as -> by congruence.
    exists p0. split; [done|]. by etransitivity.
Qed.

Lemma table_replace s s' i q q' :
  env_of s' = env_of s -> indices s' = indices s -> peers s !! i = Some q -> peers s' = <[i := q']> (peers s) ->
  peer_steps (env_of s) q q' -> table_step s s'.
Proof.
  intros He Hx Hi Ep Hq. split; [done|]. split; [|split].
  - intros j p Hj. rewrite Ep. destruct (decide (j = i)) as [->|Hne].
    + exists q'. rewrite list_lookup_insert_eq by (by eapply lookup_lt_Some). split; [done|]. by assert (p = q) as -> by congruence.
    + exists p. rewrite list_lookup_insert_ne by done. split; [done|apply rtc_refl].
  - intros j p' Hj Hl. apply lookup_lt_Some in Hj. rewrite Ep, length_insert in Hj. lia.
  - apply indexed_same; [|done]. rewrite Ep, list_fmap_insert. apply list_insert_id. rewrite list_lookup_fmap, Hi. cbn.
    apply steps_identity in Hq as (-> & -> & ->). done.
Qed.

Lemma acts_step {A} env i q (m : M A) s s' a :
  acts env i q m (fun q' _ => peer_steps env q q') ->
  env_of s = env -> peers s !! i = Some q -> m s = Ret (s', a) -> table_step s s'.
Proof.
  intros Hm He Hi E. destruct (Hm s s' a He Hi E) as (q' & Ep & He' & Hx & Hq).
  eapply table_replace; [congruence|done|done|done|by rewrite He].
Qed.

(** A handler in progress: its peer, [q0] when it began, is now [q]. *)
Definition walks {A} (env : Env) (i : nat) q0 q (m : M A) : Prop :=
  forall s0 s s' a, env_of s0 = env -> env_of s = env -> indices s = indices s0 -> peers s0 !! i = Some q0 -> peers s = <[i := q]> (peers s0) ->
  m s = Ret (s', a) -> table_step s0 s'.

Lemma walks_bind {A B} env i q0 q (m : M A) (k : A -> M B) R :
  acts env i q m R -> (forall q' a, R q' a -> walks env i q0 q' (k a)) -> walks env i q0 q (m ≫= k).
Proof.
  intros Hm Hk s0 s s' b E0 Es Ex Hi Ep. unfold mbind, M_bind. destruct (m s) as [[s1 a]|] eqn:E; [|done]. cbn [rbind]. intros E2.
  pose proof (lookup_lt_Some _ _ _ Hi) as Hlt.
  destruct (Hm s s1 a Es) as (q1 & Ep1 & He1 & Hx & HR); [rewrite Ep; by apply list_lookup_insert_eq|done|].
  eapply (Hk q1 a HR); [exact E0|exact He1|congruence|exact Hi| |exact E2]. by rewrite Ep1, Ep, list_insert_insert_eq.
Qed.

Lemma walks_acts {A} env i q0 q (m : M A) : acts env i q m (fun q' _ => peer_steps env q0 q') -> walks env i q0 q m.
Proof.
  intros Hm s0 s s' a E0 Es Ex Hi Ep E. pose proof (lookup_lt_Some _ _ _ Hi) as Hlt.
  destruct (Hm s s' a Es) as (q' & Ep' & He' & Hx & Hq); [rewrite Ep; by apply list_lookup_insert_eq|done|].
  eapply table_replace; [congruence|congruence|exact Hi|rewrite Ep', Ep; apply list_insert_insert_eq|by rewrite E0].
Qed.

Lemma walks_commit {A} env i q0 q (m : M A) : peer_steps env q0 q -> keeps table_step m -> walks env i q0 q m.
Proof.
  intros Hq Hm s0 s s' a E0 Es Ex Hi Ep E. transitivity s; [|by eapply Hm].
  eapply table_replace; [congruence|exact Ex|exact Hi|exact Ep|by rewrite E0].
Qed.

Lemma keeps_walk {A} i (k : Peer -> M A) :
  (forall env q, walks env i q q (k q)) -> keeps table_step (peer_at i ≫= k).
Proof.
  intros H s s' a E. destruct (peers s !! i) as [q|] eqn:Hi.
  - unfold peer_at, get, mbind, M_bind in E. cbn [rbind] in E. rewrite Hi in E. cbn [rbind mret M_ret] in E.
    eapply (H (env_of s) q s s); [done|done|done|done| |exact E]. by rewrite list_insert_id.
  - unfold peer_at, get, mbind, M_bind in E. cbn [rbind] in E. by rewrite Hi in E.
Qed.

Lemma keeps_quiet {A} (m : M A) : keeps quiet m -> keeps table_step m.
Proof. intros H s s' a E. by eapply table_quiet, H. Qed.

(** A handler that begins by reading its peer. *)
Lemma keeps_at {A} i (k : Peer -> M A) :
  (forall env q, acts env i q (k q) (fun q' _ => peer_steps env q q')) -> keeps table_step (peer_at i ≫= k).
Proof. intros H. apply keeps_walk. intros env q. by apply walks_acts. Qed.

Lemma keeps_upd i f : (forall env q, peer_steps env q (f q)) -> keeps table_step (upd_peer i f).
Proof.
  intros H s s' a E. destruct (peers s !! i) as [q|] eqn:Hi; [eapply (acts_step (env_of s) i q); [|done|done|exact E]; by apply acts_upd|].
  unfold upd_peer, get, mbind, M_bind in E. cbn [rbind] in E. by rewrite Hi in E.
Qed.

Lemma touch env q q' : core q' = core q -> peer_steps env q q'.
Proof. intros H. by apply rtc_once, ps_touch. Qed.

(** A new peer with a key the table does not have. *)
Lemma table_push_peer s p :
  fresh_in_table p -> (indexed s -> pubkey p ∉ (pubkey <$> peers s)) -> table_step s (push_peer s p).
Proof.
  intros Hf Hk. split; [done|]. cbn. split; [|split].
  - intros i q Hq. exists q. split; [by apply lookup_app_l_Some|apply rtc_refl].
  - intros i q Hq Hl. exists p. split; [done|]. rewrite lookup_app_r in Hq by done.
    destruct (i - length (peers s)); [|done]. injection Hq as <-. apply rtc_refl.
  - intros Hi. pose proof Hi as [H1 H2 H3 H4]. destruct Hf as (_ & _ & Hn & Ha). constructor; cbn -[index_by].
    + rewrite fmap_app. apply NoDup_app. split; [done|]. split; [|apply NoDup_singleton].
      intros k Hk' [= ->]%list_elem_of_singleton. by apply (Hk Hi).
    + intros q [Hq| ->%list_elem_of_singleton]%elem_of_app; [by apply H2|done].
    + by rewrite index_by_snoc, H3.
    + by rewrite index_by_snoc, H4.
Qed.

End Logic.

Create HintDb quiet discriminated.
#[export] Hint Constants Opaque : quiet.
#[export] Hint Resolve keeps_ret keeps_panic keeps_get keeps_gets keeps_lift : quiet.
#[export] Hint Extern 0 (PreOrder _) => apply _ : quiet.

(** Walk through a computation; the lemmas come from the database. *)
Ltac keep_with tac :=
  repeat match goal with
  | |- PreOrder _ => apply _
  | |- forall _, _ => intro
  | |- keeps _ (_ ≫= _) => apply keeps_bind
  | |- keeps _ (when _ _) => apply keeps_when
  | |- keeps _ (mfor _ _) => apply keeps_mfor
  | |- keeps _ (mconcat _ _) => apply keeps_mconcat
  | |- keeps _ (if ?b then _ else _) => destruct b eqn:?
  | |- keeps _ (match ?x with _ => _ end) => destruct x eqn:?
  | |- keeps _ (let _ := _ in _) => cbv zeta
  | |- keeps _ _ => tac
  end.
Ltac quietly := keep_with ltac:(first [solve [eauto 2 with quiet]|apply quiet_modify; by intros]).

Section Quiet.
Context {snow : Snow} {kem : MlKem} {aead : Sess.Aead} {D T : Type} {MP : ManagedPlane D} {RV : Rendezvous T}.
Context {blake : Blake2s} {ed : Ed25519} {iter : HashIter} {sip : SipHash24} {os : Os}.
Notation PeerManager := (PeerManager D T).
Notation quiet := (quiet (D := D) (T := T)).

Lemma quiet_draw : keeps quiet draw.
Proof. unfold draw. quietly. Qed.
Lemma quiet_random : keeps quiet random.
Proof. apply keeps_bind; [apply _|apply quiet_draw|]. quietly. Qed.
Lemma quiet_wall : keeps quiet wall_ns.
Proof. apply keeps_bind; [apply _|apply quiet_draw|]. quietly. Qed.
Lemma quiet_now_secs : keeps quiet now_secs.
Proof. apply keeps_bind; [apply _|apply quiet_wall|]. quietly. Qed.
Lemma quiet_now_ms : keeps quiet now_wall_clock_ms.
Proof. apply keeps_bind; [apply _|apply quiet_wall|]. quietly. Qed.
Lemma quiet_sample x : keeps quiet (sample x).
Proof. unfold sample. quietly. Qed.
Lemma quiet_update_stats : keeps quiet update_stats.
Proof. unfold update_stats. quietly. Qed.
Lemma quiet_peer_at i : keeps quiet (peer_at i).
Proof. unfold peer_at. quietly. Qed.
Lemma quiet_gen_range lo hi : keeps quiet (gen_range lo hi).
Proof. unfold gen_range. quietly. Qed.
End Quiet.
#[export] Hint Resolve quiet_draw quiet_random quiet_wall quiet_now_secs quiet_now_ms quiet_sample quiet_update_stats
  quiet_peer_at quiet_gen_range : quiet.

Section Quiet2.
Context {snow : Snow} {kem : MlKem} {aead : Sess.Aead} {D T : Type} {MP : ManagedPlane D} {RV : Rendezvous T}.
Context {blake : Blake2s} {ed : Ed25519} {iter : HashIter} {sip : SipHash24} {os : Os}.
Notation PeerManager := (PeerManager D T).
Notation quiet := (quiet (D := D) (T := T)).

Lemma quiet_random_pad n : keeps quiet (random_pad n).
Proof. unfold random_pad. quietly. Qed.
Lemma quiet_jitter_ms n : keeps quiet (jitter_ms n).
Proof. unfold jitter_ms. quietly. Qed.
Lemma quiet_build_junk : keeps quiet build_junk.
Proof. unfold build_junk. quietly. Qed.
Lemma quiet_relay_wrap i raw : keeps quiet (relay_wrap i raw).
Proof. unfold relay_wrap. quietly. Qed.
Lemma quiet_own_cert : keeps quiet own_cert_payload.
Proof. unfold own_cert_payload. quietly. Qed.
Lemma quiet_cert_admits pl pk : keeps quiet (cert_admits pl pk).
Proof. unfold cert_admits, responder_cert_ok. quietly. Qed.
Lemma quiet_queue dg after out : keeps quiet (queue_scheduled_egress dg after out).
Proof. unfold queue_scheduled_egress. quietly. Qed.
Lemma quiet_drain now out : keeps quiet (drain_scheduled_egress now out).
Proof. unfold drain_scheduled_egress. quietly. Qed.
Lemma quiet_target_wire d t l r : keeps quiet (target_wire d t l r).
Proof. unfold target_wire. quietly. Qed.
Lemma quiet_obf_wrap k t b p : keeps quiet (obf_wrap k t b p).
Proof. unfold obf_wrap. quietly. Qed.
Lemma quiet_count_daita a b c d : keeps quiet (count_daita a b c d).
Proof. unfold count_daita. quietly. Qed.
Lemma quiet_split_gate inner : keeps quiet (split_gate inner).
Proof. unfold split_gate. quietly. Qed.
End Quiet2.
#[export] Hint Resolve quiet_random_pad quiet_jitter_ms quiet_build_junk quiet_relay_wrap quiet_own_cert quiet_cert_admits
  quiet_queue quiet_drain quiet_target_wire quiet_obf_wrap quiet_count_daita quiet_split_gate : quiet.


Section Quiet3.
Context {snow : Snow} {kem : MlKem} {aead : Sess.Aead} {D T : Type} {MP : ManagedPlane D} {RV : Rendezvous T}.
Context {blake : Blake2s} {ed : Ed25519} {iter : HashIter} {sip : SipHash24} {os : Os}.
Notation PeerManager := (PeerManager D T).
Notation Peer := (Peer D).
Notation M := (M PeerManager).
Notation quiet := (quiet (D := D) (T := T)).
Notation table_step := (table_step (D := D) (T := T)).
Notation acts := (acts (D := D) (T := T)).
Implicit Types (s : PeerManager) (p q : Peer).

Lemma quiet_obf_egress dgs : keeps quiet (obf_egress dgs).
Proof. unfold obf_egress, obf_one. quietly. Qed.
Lemma quiet_jitter_loop jm now dgs ds imm : keeps quiet (jitter_loop jm now dgs ds imm).
Proof. revert ds imm. induction dgs as [|dg dgs IH]; intros [|b ds] imm; cbn [jitter_loop]; quietly. Qed.
Lemma quiet_apply_jitter dgs ds now : keeps quiet (apply_egress_jitter dgs ds now).
Proof. unfold apply_egress_jitter. quietly. apply quiet_jitter_loop. Qed.
Lemma quiet_retry : keeps quiet retry_interval.
Proof. unfold retry_interval. quietly. Qed.
Lemma quiet_make_init pk : keeps quiet (make_init pk).
Proof. unfold make_init. quietly. Qed.
Lemma quiet_wrap_all i raws : keeps quiet (relay_wrap_all i raws).
Proof. unfold relay_wrap_all. quietly. Qed.
Lemma quiet_push_rekey i dg b : keeps quiet (push_rekey_egress i dg b).
Proof. unfold push_rekey_egress. quietly. Qed.
End Quiet3.
#[export] Hint Resolve quiet_obf_egress quiet_apply_jitter quiet_retry quiet_make_init quiet_wrap_all quiet_push_rekey : quiet.

(** Symbolic execution. *)
Ltac act_step :=
  lazymatch goal with
  | |- acts _ _ _ (get ≫= _) _ => apply acts_get; intros ? ? ?
  | |- acts _ _ _ (peer_at _ ≫= _) _ => apply acts_peer
  | |- acts _ _ _ (upd_peer _ _ ≫= _) _ => apply acts_then
  | |- acts _ _ _ (set_epochs _ _ ≫= _) _ => apply acts_then
  | |- acts _ _ _ (_ ≫= _) _ => apply acts_skip; [solve [quietly]|intros ?]
  | |- acts _ _ _ (mret _) _ => apply acts_ret
  | |- acts _ _ _ (upd_peer _ _) _ => apply acts_upd
  | |- acts _ _ _ (set_epochs _ _) _ => apply acts_upd
  | |- acts _ _ _ (let _ := _ in _) _ => cbv zeta
  | |- acts _ _ _ _ _ => apply acts_end; [solve [quietly]|intros ?]
  end.
Ltac act := repeat act_step.
Ltac same_core := unfold core in *; cbn in *; simplify_eq; congruence.

Section Handlers.
Context {snow : Snow} {kem : MlKem} {aead : Sess.Aead} {D T : Type} {MP : ManagedPlane D} {RV : Rendezvous T}.
Context {blake : Blake2s} {ed : Ed25519} {iter : HashIter} {sip : SipHash24} {os : Os}.
Notation PeerManager := (PeerManager D T).
Notation Peer := (Peer D).
Notation M := (M PeerManager).
Notation quiet := (quiet (D := D) (T := T)).
Notation table_step := (table_step (D := D) (T := T)).
Notation acts := (acts (D := D) (T := T)).
Implicit Types (s : PeerManager) (p q : Peer).

(** ** Certificates *)

Lemma verified_authorised env m pl c pk now :
  trust_config env = Some (ca_pubkeys m, m_network_id m, m_roots m) -> cert_decode pl = Some c ->
  Dir.member_verify_cert os_skew m c pk now = Ret true -> authorised env pk.
Proof.
  intros He [Hw _]%cert_decode_iff Hv. unfold authorised. rewrite He. right. exists c, now.
  unfold Dir.member_verify_cert in Hv.
  destruct (verify_cert_spec c (ca_pubkeys m) (m_network_id m) pk now os_skew Hw) as (v & E & Hspec). rewrite E in Hv.
  cbn [rbind] in Hv. destruct v as [[]|]; [|done]. by apply Hspec.
Qed.

Lemma acts_cert_admits env i q pl pk :
  acts env i q (cert_admits pl pk) (fun q' ok => q' = q /\ (ok = true -> authorised env pk)).
Proof.
  apply acts_quiet; [apply quiet_cert_admits|]. intros s s' ok He E ->. unfold cert_admits, responder_cert_ok, mbind, M_bind, get in E.
  cbn [rbind] in E. destruct (is_root s pk) eqn:Er.
  - unfold is_root in Er. unfold authorised. rewrite <- He. cbn [trust_config env_of].
    destruct (membership s) as [m|]; [|done]. cbn. left. apply existsb_exists in Er as ([k a] & Hin & Hk).
    apply bool_decide_eq_true_1 in Hk. cbn in Hk. subst k. exists a. by apply list_elem_of_In.
  - destruct (membership s) as [m|] eqn:Em.
    2: { unfold authorised. rewrite <- He. cbn [trust_config env_of]. by rewrite Em. }
    destruct (cert_decode pl) as [c|] eqn:Ec; [|done]. destruct (now_secs s) as [[s1 t]|]; [|done]. cbn [rbind] in E. unfold lift in E.
    destruct (Dir.member_verify_cert _ _ _ _ _) as [b|] eqn:Ev; [|done]. injection E as _ ->.
    eapply verified_authorised; [|done|exact Ev]. rewrite <- He. cbn [trust_config env_of]. by rewrite Em.
Qed.

(** ** A session that begins *)

Lemma acts_take_pending env i q :
  acts env i q (take_pending i) (fun q' _ => core q' = core q).
Proof. unfold take_pending. act. done. Qed.

Lemma acts_drain_pending env i q dp pending now :
  acts env i q (drain_pending i dp pending now) (fun q' _ => core q' = core q).
Proof.
  unfold drain_pending.
  assert (acts env i q (mret (dp, [])) (fun q' (_ : D * list EgressDatagram) => core q' = core q)) as H by (by apply acts_ret).
  revert H. generalize (mret (dp, []) : M (D * list EgressDatagram)).
  induction pending as [|inner l IH]; intros acc Hacc; cbn [fold_left]; [done|]. apply IH.
  eapply acts_bind; [exact Hacc|]. intros q' x Hq'. cbv zeta. act. same_core.
Qed.

Lemma acts_record_epoch env i q e :
  state q = Established e ->
  acts env i q (record_new_epoch i) (fun q' _ => exists d, core q' = core (q <| state := Established (Epochs.set_current e d) |>)).
Proof.
  intros Es. unfold record_new_epoch. act_step. act_step. rewrite Es. cbv zeta.
  assert (exists d, (if (1 <? num_shards s)%N
     then Epochs.set_current e (mp_set_shard (mp_set_stride (current e) (shard_id s) (num_shards s)) (shard_id s) (num_shards s))
     else e) = Epochs.set_current e d) as [d ->].
  { destruct (_ <? _)%N; [by eexists|]. exists (current e). by destruct e. }
  act_step. destruct (mp_raw_keys _), (mp_wire_keys _). apply acts_end; [quietly|]. intros _. by exists d.
Qed.

Lemma acts_establish env i q dp b now :
  acts env i q (establish i dp b now) (fun q' _ => exists d, core q' = core (q <| state := Established (Epochs.new d now) |>)).
Proof.
  unfold establish. eapply acts_bind; [apply acts_take_pending|]. intros q1 pending H1.
  eapply acts_bind; [apply acts_drain_pending|]. intros q2 x H2. act_step. cbv zeta.
  match goal with |- context [set_epochs i ?e] => assert (exists d, e = Epochs.new d now) as [d ->] by (destruct b; by eexists) end.
  act_step. eapply acts_bind; [by apply acts_record_epoch|]. intros q3 [] [d' H3].
  change (Epochs.set_current (Epochs.new d now) d') with (Epochs.new d' now : Epochs D) in H3. act. exists d'. same_core.
Qed.

Lemma begin_path env q q' : unestablished q ->
  (exists h ep rl, core q' = core (q <| endpoint := ep |> <| relay := rl |> <| state := Handshaking h |>)) -> peer_steps env q q'.
Proof.
  intros Hu (h & ep & rl & E). eapply rtc_l; [apply (ps_aim _ _ (q <| endpoint := ep |> <| relay := rl |>) ep rl Hu eq_refl)|].
  by eapply rtc_once, ps_try.
Qed.

Lemma acts_begin_handshake env i q a via now :
  unestablished q -> acts env i q (begin_handshake i a via now) (fun q' _ => peer_steps env q q').
Proof.
  intros Hu. unfold begin_handshake. act_step. act_step. destruct a0 as [[h pkt]|]; [|act; apply rtc_refl].
  act_step. destruct a0 as [dg|]; [|act; apply rtc_refl].
  eapply acts_bind with (R := fun q' _ => exists ep rl, core q' = core (q <| endpoint := ep |> <| relay := rl |>)).
  { destruct via; apply acts_upd; [by exists (endpoint q), true|by exists (Some a), (relay q)]. }
  intros q1 [] (ep & rl & H1). act_step. act_step. act_step.
  assert (peer_steps env q (q1 <| state := Handshaking (mkHandshaking h now now a0 0 pkt a via) |>)) as Hp.
  { apply begin_path; [done|]. exists (mkHandshaking h now now a0 0 pkt a via), ep, rl. same_core. }
  destruct (obf_key s); [|by act]. destruct (negb via); [|by act]. act. done.
Qed.


Lemma acts_drop_session env i q : acts env i q (drop_session i) (fun q' _ => core q' = core (q <| state := Idle |>)).
Proof. unfold drop_session. act. done. Qed.

(** ** Rekeys *)

Lemma acts_drive_rekey env i q rel e now :
  acts env i q (drive_rekey_schedule i rel e now) (fun q' x => q' = q /\ rtc session_step e x.1).
Proof.
  unfold drive_rekey_schedule. act_step. act_step. cbv zeta. destruct (rekey e) as [rk|].
  - destruct (_ <=? _)%N; [act; split; [done|]; apply rtc_once, ss_rekey|]. destruct (_ <? _)%N; [act; split; [done|apply rtc_refl]|].
    act. split; [done|]. apply rtc_once, ss_rekey.
  - destruct (negb _); [act; split; [done|apply rtc_refl]|]. destruct (if rel then _ else _); [|act; split; [done|apply rtc_refl]].
    act_step. destruct a as [[h pkt]|]; act; (split; [done|]); [apply rtc_once, ss_rekey|apply rtc_refl].
Qed.

Lemma accept_fresh env s p ts : env_of s = env -> accept_fresh_init s p ts = true -> fresh_label env p ts.
Proof. intros <-. unfold accept_fresh_init, fresh_label. cbn. by destruct (last_accepted_init_ts p). Qed.

Lemma acts_rekey_init env i q est pkt eph ts src via :
  initiated (pubkey q) ts -> authorised env (pubkey q) ->
  acts env i q (rekey_init_core i est pkt eph ts src via) (fun q' _ => peer_steps env q q').
Proof.
  intros Hin Ha. unfold rekey_init_core. act_step. cbv zeta. act_step.
  destruct (bool_decide _); [destruct (cached_resp q); act; apply rtc_refl|].
  destruct (state q) as [| |e] eqn:Es; [by intros ? ?..|].
  destruct (Epochs.next_cached_resp_for _ _); [act; apply rtc_refl|].
  destruct (accept_fresh_init s q ts) eqn:Ef; cbn [negb]; [|act; apply rtc_refl]. act.
  apply rtc_once. eapply ps_rekey_accept; [done|done|done|by eapply accept_fresh|done].
Qed.

Lemma session_run env p e e' : state p = Established e -> rtc session_step e e' -> forall p',
  core p' = core (p <| state := Established e' |>) -> peer_steps env p p'.
Proof.
  intros Es H. revert p Es. induction H as [e|e e1 e2 H1 _ IH]; intros p Es p' E.
  - apply touch. unfold core in *. cbn in *. congruence.
  - eapply rtc_l; [by apply (ps_session _ _ (p <| state := Established e1 |>) e e1 Es H1)|]. by apply IH.
Qed.

Lemma acts_rekey_resp env i q dg now via :
  acts env i q (rekey_resp_core i dg now via) (fun q' _ => peer_steps env q q').
Proof.
  unfold rekey_resp_core. act_step. destruct (state q) as [| |e] eqn:Es; [by intros ? ?..|].
  destruct (rekey e) as [rk|] eqn:Er; [|act; apply rtc_refl]. cbv zeta. act_step. act_step.
  set (q1 := q <| state := Established (Epochs.set_rekey e None) |>).
  assert (peer_steps env q q1) as Hq1 by (eapply session_run; [exact Es|apply rtc_once, ss_rekey|done]).
  destruct (Hs.read_response _ _) as [[est pl]|] eqn:Ed; [|act; done].
  eapply acts_bind; [apply acts_cert_admits|]. intros ? ok [-> Hok]. destruct ok; cbn [negb]; [|act; done]. specialize (Hok eq_refl).
  eapply acts_bind with (R := fun q' _ => core q' = core q1); [destruct (cert_decode pl); act; done|]. intros q2 [] H2.
  act_step. eapply acts_bind; [apply acts_take_pending|]. intros q3 pending H3.
  eapply acts_bind with (R := fun q' _ => core q' = core q3).
  { destruct pending; [|apply acts_drain_pending]. by apply acts_end; [quietly|]. }
  intros q4 x H4. act_step. act_step. act_step.
  eapply acts_bind; [by apply acts_record_epoch|]. intros q5 [] [d H5]. act.
  eapply rtc_l; [eapply (ps_rekey_complete _ q
    (q <| state := Established (Epochs.promote_from_rekey (Epochs.set_rekey e None) x.1 now) |>) e rk x.1 now); [done|done|by do 3 eexists|exact Hok|done]|].
  eapply session_run; [done|apply rtc_once, (ss_plane _ d)|]. unfold q1 in *. same_core.
Qed.

(** ** Cold starts *)

Lemma acts_init_established env i q est pkt eph ts src via cert :
  initiated (pubkey q) ts ->
  acts env i q (
    ok ← cert_admits cert (pubkey q);
    if (negb ok : bool) then drop_session i ;; mret OutNone
    else
      match cert_decode cert with
      | Some c => upd_peer i (fun p => p <| admitted_cert_not_after := Some (not_after c) |>)
      | None => mret tt
      end ;;
      eph ← lift (rexpect eph);
      rekey_init_core i est pkt eph ts src via) (fun q' _ => peer_steps env q q').
Proof.
  intros Hin. eapply acts_bind; [apply acts_cert_admits|]. intros ? ok [-> Hok]. destruct ok; cbn [negb].
  - eapply acts_bind with (R := fun q' _ => core q' = core q); [destruct (cert_decode cert); act; done|]. intros q1 [] H1.
    act_step. assert (pubkey q1 = pubkey q) as Ek by same_core.
    eapply acts_weaken; [apply acts_rekey_init; rewrite Ek; auto|]. intros q2 o H2. etransitivity; [by apply touch|exact H2].
  - eapply acts_bind; [apply acts_drop_session|]. intros q1 [] H1. act. by apply rtc_once, ps_drop.
Qed.

Lemma acts_cold_init env i q src dg now est pkt ts cert s :
  unestablished q -> initiated (pubkey q) ts -> env_of s = env ->
  acts env i q (
    if negb (is_idle q) && lower_key s q then mret OutNone
    else
      ok ← cert_admits cert (pubkey q);
      if (negb ok : bool) then mret OutNone
      else if negb (accept_fresh_init s q ts) then mret OutNone
      else
        let dp := new_plane s est src in
        upd_peer i (fun p => note_init ts cert pkt dg (session_obf_key_for s (Hs.hp_key est)) (p <| endpoint := Some src |>)) ;;
        modify (fun s => s <| by_tag ::= <[mp_conn_tag dp := i]> |>) ;;
        upd_peer i (commit_direct src) ;;
        drained ← establish i dp true now;
        mret (OutUdp (mkEgress 0 src pkt :: drained))) (fun q' _ => peer_steps env q q').
Proof.
  intros Hu Hin He. destruct (_ && _); [act; apply rtc_refl|].
  eapply acts_bind; [apply acts_cert_admits|]. intros ? ok [-> Hok]. destruct ok; cbn [negb]; [|act; apply rtc_refl].
  specialize (Hok eq_refl). destruct (accept_fresh_init s q ts) eqn:Ef; cbn [negb]; [|act; apply rtc_refl].
  cbv zeta. act_step. act_step. act_step. eapply acts_bind; [apply acts_establish|]. intros q1 out [d H1]. act.
  apply rtc_once. eapply (ps_accept _ _ _ ts (Some src) false d now); [done|done|done|by eapply accept_fresh|]. same_core.
Qed.

End Handlers.
End Refines.
