(* ===== verification/PmRefinesRun.v ===== *)
(** * The peer manager refines the peer machine: runs

    The handlers of PmHandshake, PmRouting, PmGossip, PmRelay and PmDispatch as
    steps of [peer_step], every run of the manager, and what the machine's
    invariants then say of the daemon. *)

From Stdlib Require Strings.Byte.
From Stdlib Require Import NArith Lia.
From stdpp Require Import base numbers gmap list relations.
From S2P Require Import Prelude StateM Session DataPlane NetAddr MemberCodec MemberVerify Directory Obf RdvClient EpochSet PathState Noise Metrics SplitTunnel PmState PmTable PmObf PmRekey PmHandshake PmRouting PmRelay PmDispatch PmSpec PmRefines.

Local Open Scope nat_scope.

(** [position] returns an element that passes the test. *)
Module RefinesRun.
Import Pm Tbl Obfs Rekeys Cold Route Gos Rel Disp PeerSpec Refines.

(** Walk through a handler: what is quiet, and the lemmas of the database. *)
Create HintDb table discriminated.
#[export] Hint Constants Opaque : table.
Ltac table_touch := apply keeps_upd; intros ? ?; by apply touch.
Ltac tabled := keep_with ltac:(first [solve [eauto 2 with table]|apply keeps_quiet; solve [quietly]|table_touch]).

Section Cold.
Context {snow : Snow} {kem : MlKem} {aead : Sess.Aead} {D T : Type} {MP : ManagedPlane D} {RV : Rendezvous T}.
Context {blake : Blake2s} {ed : Ed25519} {iter : HashIter} {sip : SipHash24} {os : Os}.
Notation PeerManager := (PeerManager D T).
Notation Peer := (Peer D).
Notation M := (M PeerManager).
Notation quiet := (quiet (D := D) (T := T)).
Notation table_step := (table_step (D := D) (T := T)).
Notation acts := (acts (D := D) (T := T)).
Implicit Types (s : PeerManager) (p q : Peer).


Lemma fresh_peer_fresh pk ep st pth tr : fresh_in_table (fresh_peer pk ep st pth tr : Peer).
Proof. done. Qed.

Lemma table_admit_member pk l now : keeps table_step (admit_member pk l now).
Proof.
  intros s s' []. unfold admit_member, mbind, M_bind, get. cbn [rbind]. destruct (_ || _) eqn:E; [by intros [= <-]|]. intros [= <-].
  apply table_push_peer; [apply fresh_peer_fresh|]. intros _ (p & Ep & Hp)%list_elem_of_fmap. cbn in Ep.
  apply orb_false_elim in E as [_ E]. assert (existsb (fun p => bool_decide (pubkey p = pk)) (peers s) = true) as E'; [|congruence].
  apply existsb_exists. exists p. split; [by apply list_elem_of_In|]. by apply bool_decide_eq_true_2.
Qed.

Lemma admit_initiator_post pk cert now s s' found :
  admit_initiator pk cert now s = Ret (s', found) ->
  table_step s s' /\ forall i, found = Some i -> exists q, peers s' !! i = Some q /\ pubkey q = pk.
Proof.
  unfold admit_initiator. unfold mbind at 1, M_bind at 1, get at 1. cbn [rbind].
  assert (forall s1 i, position (fun p => bool_decide (pubkey p = pk)) (peers s1) = Some i ->
    exists q, peers s1 !! i = Some q /\ pubkey q = pk) as Hpos.
  { intros s1 i (q & Hq & Hb)%position_some. apply bool_decide_eq_true_1 in Hb. by exists q. }
  destruct (position _ (peers s)) as [i|] eqn:Ei.
  - intros [= <- <-]. split; [reflexivity|]. intros ? [= <-]. by apply Hpos.
  - set (m := match membership s with Some _ => _ | None => _ end). assert (keeps quiet m) as Hm by (unfold m; quietly).
    unfold mbind at 1, M_bind at 1. destruct (m s) as [[s1 ok]|] eqn:Em; [|done]. cbn [rbind]. apply Hm in Em. destruct ok; cbn [negb].
    + unfold mbind at 1, M_bind at 1. destruct (admit_member pk [] now s1) as [[s2 []]|] eqn:E2; [|done]. cbn [rbind].
      unfold gets. intros [= <- <-]. apply table_admit_member in E2. split; [etransitivity; [by apply table_quiet|done]|].
      intros i Hi. by apply Hpos.
    + intros [= <- <-]. split; [by apply table_quiet|done].
Qed.

Lemma table_handle_init src dg now : keeps table_step (handle_handshake_init src dg now).
Proof.
  unfold handle_handshake_init. do 4 (apply keeps_bind; [apply _|apply keeps_quiet; quietly|intros ?]).
  destruct (Hs.start_responder _ _ _ _ _) as [[[[est pkt] pk] ipl]|] eqn:Er; [|tabled].
  destruct (Hs.parse_init_payload ipl) as [[ts cert]|] eqn:Ep; [|tabled].
  assert (initiated pk ts) as Hin by (by repeat eexists).
  intros s s' o. unfold mbind at 1, M_bind at 1. destruct (admit_initiator _ _ _ s) as [[s1 found]|] eqn:Ea; [|done]. cbn [rbind].
  apply admit_initiator_post in Ea as [Ht Hfound]. intros E. transitivity s1; [done|]. clear Ht.
  destruct found as [i|]; [|by injection E as <- <-]. destruct (Hfound i eq_refl) as (q & Hq & <-).
  eapply (acts_step (env_of s1) i q); [apply acts_peer|done|done|exact E]. clear E. apply acts_get. intros s2 He _.
  pose proof (acts_cold_init (env_of s1) i q src dg now est pkt ts cert s2) as Hc.
  destruct (state q) as [|h|e] eqn:Es; [apply Hc; try done; unfold unestablished, is_established; by rewrite Es..|].
  destruct (negb (relay q)); [|act; apply rtc_refl]. by apply acts_init_established.
Qed.

Lemma keeps_reads {A} i (m : M A) :
  (forall env q, acts env i q m (fun q' _ => peer_steps env q q')) -> (forall s, peers s !! i = None -> m s = Panic) ->
  keeps table_step m.
Proof.
  intros H Hn s s' a E. destruct (peers s !! i) as [q|] eqn:Hi; [by eapply (acts_step (env_of s) i q)|]. by rewrite Hn in E.
Qed.

Lemma peer_at_none {A} i (k : Peer -> M A) s : peers s !! i = None -> (peer_at i ≫= k) s = Panic.
Proof. intros Hi. unfold peer_at, get, mbind, M_bind. cbn [rbind]. by rewrite Hi. Qed.

Lemma table_rekey_resp i dg now via : keeps table_step (rekey_resp_core i dg now via).
Proof. apply (keeps_reads i); [intros; apply acts_rekey_resp|]. intros s. apply peer_at_none. Qed.

(** What the completion of our initiation does to its peer. *)
Lemma acts_complete {B} env i q h f g dp b now (k : list EgressDatagram -> M B) :
  state q = Handshaking h -> responded (h_hs h) -> authorised env (pubkey q) ->
  (forall l, keeps quiet (k l)) ->
  (forall p, exists ep rl, core (g (f p)) = core (p <| endpoint := ep |> <| relay := rl |>)) ->
  acts env i (q <| state := Idle |>) (
    modify (fun s => s <| by_tag ::= <[mp_conn_tag dp := i]> |>) ;;
    upd_peer i f ;; upd_peer i g ;; drained ← establish i dp b now; k drained) (fun q' _ => peer_steps env q q').
Proof.
  intros Es Hr Ha Hk Hfg. act_step. act_step. act_step. eapply acts_bind; [apply acts_establish|]. intros q1 out [d H1].
  apply acts_end; [apply Hk|]. intros _. destruct (Hfg (q <| state := Idle |>)) as (ep & rl & E).
  apply rtc_once. eapply (ps_complete _ _ _ h ep rl d now); [done|done|done|]. same_core.
Qed.

Lemma table_handle_resp src dg now : keeps table_step (handle_handshake_resp src dg now).
Proof.
  unfold handle_handshake_resp. apply keeps_bind; [apply _|by apply keeps_quiet; quietly|intros s].
  destruct (position _ _) as [i|]; [apply table_rekey_resp|]. destruct (position _ _) as [i|]; [|tabled].
  apply keeps_at. intros env q. act_step. destruct (state q) as [|h|] eqn:Es; [by intros ? ?| |by intros ? ?].
  assert (forall q', core q' = core (q <| state := Idle |>) -> peer_steps env q q') as Hidle by (intros; by apply rtc_once, ps_drop).
  destruct (Hs.read_response _ _) as [[est pl]|] eqn:Er; [|act; by apply Hidle].
  eapply acts_bind; [apply acts_cert_admits|]. intros ? ok [-> Hok]. destruct ok; cbn [negb]; [|act; by apply Hidle].
  cbv zeta. apply (acts_complete env i q h); [done|by repeat eexists|by apply Hok|intros; quietly|].
  intros p. by exists (Some src), false.
Qed.

(** A handshake begun for a peer without a session. *)
Lemma table_begin_at s s' i q a via now o :
  peers s !! i = Some q -> unestablished q -> begin_handshake i a via now s = Ret (s', o) -> table_step s s'.
Proof. intros Hq Hu E. eapply (acts_step (env_of s) i q); [by apply acts_begin_handshake|done|done|exact E]. Qed.

End Cold.
#[export] Hint Resolve table_admit_member table_handle_init table_handle_resp table_rekey_resp : table.

Section Route.
Context {snow : Snow} {kem : MlKem} {aead : Sess.Aead} {D T : Type} {MP : ManagedPlane D} {RV : Rendezvous T}.
Context {blake : Blake2s} {ed : Ed25519} {iter : HashIter} {sip : SipHash24} {os : Os}.
Notation PeerManager := (PeerManager D T).
Notation Peer := (Peer D).
Notation M := (M PeerManager).
Notation quiet := (quiet (D := D) (T := T)).
Notation table_step := (table_step (D := D) (T := T)).
Notation acts := (acts (D := D) (T := T)).
Implicit Types (s : PeerManager) (p q : Peer).



Lemma acts_maybe_lookup env i q now : acts env i q (maybe_lookup i now) (fun q' _ => core q' = core q).
Proof.
  unfold maybe_lookup. act_step. cbv zeta. destruct (negb _); [act; done|]. act_step.
  destruct (rendezvous s); [|act; done]. act. done.
Qed.

Lemma acts_advance_path env i q now : acts env i q (advance_path i now) (fun q' _ => core q' = core q).
Proof. unfold advance_path. act_step. cbv zeta. act. done. Qed.

(** The action of a path of a peer without a session. *)
Lemma acts_act env i q now act_ :
  unestablished q ->
  acts env i q (match act_ with
          | Probe a => dgs ← begin_handshake i a false now; mret (default [] dgs)
          | PathState.Relay => s ← get; dgs ← begin_handshake i (server_addr s) true now; mret (default [] dgs)
          | NeedLookup => dg ← maybe_lookup i now; mret (option_list dg)
          | PathState.Idle | NoPath => mret []
          end) (fun q' _ => peer_steps env q q').
Proof.
  intros Hu. destruct act_ as [| |a| |]; try (act; apply rtc_refl).
  - eapply acts_bind; [apply acts_maybe_lookup|]. intros q1 o H1. act. by apply touch.
  - eapply acts_bind; [by apply acts_begin_handshake|]. intros q1 o H1. act. done.
  - act_step. eapply acts_bind; [by apply acts_begin_handshake|]. intros q1 o H1. act. done.
Qed.

Lemma unestablished_core q q' : core q' = core q -> unestablished q -> unestablished q'.
Proof. unfold unestablished, is_established, core. intros [= _ _ _ -> _ _ _]. done. Qed.

Lemma acts_drive_path_idle env i q now :
  unestablished q -> acts env i q (drive_path_idle i now) (fun q' _ => peer_steps env q q').
Proof.
  intros Hu. eapply acts_bind; [apply acts_advance_path|]. intros q1 a H1.
  eapply acts_weaken; [apply acts_act; by apply (unestablished_core q)|]. intros q2 o H2. transitivity q1; [by apply touch|exact H2].
Qed.

Lemma acts_open_session env i q e dg now :
  acts env i q (open_session i e dg now)
    (fun q' o => exists e', Epochs.inbound_open e dg now = Ret (e', o) /\ core q' = core (q <| state := Established e' |>)).
Proof.
  unfold open_session. eapply acts_bind; [apply (acts_quiet _ _ _ _ (fun x => Epochs.inbound_open e dg now = Ret x));
    [quietly|unfold lift; intros s s' x _; destruct (Epochs.inbound_open _ _ _); [by intros [= _ <-]|done]]|].
  intros ? [e' o] [-> Eo]. act_step. cbv zeta. act_step. act_step.
  eapply acts_bind with (R := fun q' _ => core q' = core (q <| state := Established e' |>)).
  { destruct (negb _); cbn [when]; [|act; done]. act. done. }
  intros q1 [] H1. act. by exists e'.
Qed.

Lemma acts_relearn env i q e1 src :
  state q = Established e1 ->
  acts env i q (relearn_endpoint i src) (fun q' _ => core q' = core q \/
    relay q = false /\ exists a e2, Epochs.set_peer_addr e1 a = Ret e2 /\
      core q' = core (q <| endpoint := Some a |> <| state := Established e2 |>)).
Proof.
  intros Es. unfold relearn_endpoint. act_step. rewrite Es. cbv zeta.
  assert (forall a, relay q = false -> acts env i q (
    upd_peer i (fun p => p <| endpoint := Some a |>) ;; e ← lift (Epochs.set_peer_addr e1 a); set_epochs i e)
    (fun q' _ => core q' = core q \/ relay q = false /\ exists a e2, Epochs.set_peer_addr e1 a = Ret e2 /\
       core q' = core (q <| endpoint := Some a |> <| state := Established e2 |>))) as Hmove.
  { intros a Hr. act_step. eapply acts_bind; [apply (acts_quiet _ _ _ _ (fun x => Epochs.set_peer_addr e1 a = Ret x));
      [quietly|unfold lift; intros s s' x _; destruct (Epochs.set_peer_addr _ _); [by intros [= _ <-]|done]]|].
    intros ? e2 [-> E2]. act_step. right. split; [done|]. by exists a, e2. }
  destruct (relay q) eqn:Hr; [act; by left|]. destruct (endpoint q); [|by apply Hmove].
  destruct (bool_decide _); [by apply Hmove|act; by left].
Qed.

Lemma opened_steps env q e dg now e1 o q1 q2 :
  state q = Established e -> Epochs.inbound_open e dg now = Ret (e1, o) -> o <> InNone ->
  core q1 = core (q <| state := Established e1 |>) ->
  (core q2 = core q1 \/ relay q1 = false /\ exists a e2, Epochs.set_peer_addr e1 a = Ret e2 /\
      core q2 = core (q1 <| endpoint := Some a |> <| state := Established e2 |>)) ->
  peer_steps env q q2.
Proof.
  intros Es Eo Hn H1 [H2|(Hr & a & e2 & Ea & H2)].
  - apply (session_run env q e e1); [done|by eapply rtc_once, ss_open|by rewrite H2, H1].
  - apply rtc_once. eapply (ps_roam _ _ _ e dg now e1 o a e2); try done; [|]; same_core.
Qed.

Lemma acts_count_rx env i q buf : acts env i q (count_rx i buf) (fun q' _ => core q' = core q).
Proof. unfold count_rx. cbv zeta. act. done. Qed.

Lemma steps_touched env p q q' : peer_steps env p q -> core q' = core q -> peer_steps env p q'.
Proof. intros H Hc. etransitivity; [exact H|by apply touch]. Qed.

Lemma acts_dispatch_established env i q src dg now :
  acts env i q (dispatch_established i src dg now) (fun q' _ => peer_steps env q q').
Proof.
  unfold dispatch_established. act_step. destruct (state q) as [| |e] eqn:Es; [act; apply rtc_refl..|].
  eapply acts_bind; [apply acts_open_session|]. intros q1 o (e1 & Eo & H1).
  eapply acts_bind with (R := fun q' _ => peer_steps env q q').
  { destruct (negb (is_none o)) eqn:En; cbn [when].
    - eapply acts_weaken; [apply (acts_relearn _ _ _ e1); same_core|]. intros q2 [] H2.
      eapply (opened_steps env q e dg now e1 o q1 q2); try done. by destruct o.
    - act. eapply session_run; [done|by eapply rtc_once, ss_open|done]. }
  intros q2 [] H2. destruct o; try (by act); (eapply acts_bind; [apply acts_count_rx|]; intros q3 [] H3; act; by eapply steps_touched).
Qed.

Lemma table_try_sessions l src dg now : keeps table_step (try_sessions l src dg now).
Proof.
  induction l as [|i l IH]; cbn [try_sessions]; [tabled|]. apply keeps_walk. intros env q.
  destruct (state q) as [| |e] eqn:Es; [by apply walks_commit; [apply rtc_refl|]..|].
  eapply walks_bind; [apply acts_open_session|]. intros q1 o (e1 & Eo & H1). cbv zeta.
  destruct (match o with InNone => None | _ => _ end) as [[tun udp]|] eqn:Eh.
  - apply walks_acts. eapply acts_bind with (R := fun q' _ => core q' = core q1); [destruct tun; [apply acts_count_rx|by act]|].
    intros q2 [] H2. eapply acts_bind; [apply (acts_relearn _ _ _ e1); same_core|]. intros q3 [] H3. act.
    eapply (opened_steps env q e dg now e1 o q2 q3); try done; [by destruct o|congruence].
  - apply walks_commit; [|done]. eapply session_run; [done|by eapply rtc_once, ss_open|done].
Qed.

Lemma table_handle_data src dg now : keeps table_step (handle_data_or_control src dg now).
Proof.
  unfold handle_data_or_control. apply keeps_bind; [apply _|apply keeps_quiet; unfold route_data; quietly|]. intros [i|].
  - destruct dg as [|b0 rest]; [tabled|]. apply keeps_bind; [apply _|destruct (is_type b0 Data); tabled|]. intros [].
    apply (keeps_reads i); [intros; apply acts_dispatch_established|]. intros s. apply peer_at_none.
  - tabled. apply table_try_sessions.
Qed.

End Route.
#[export] Hint Resolve table_handle_data : table.

(** ** The directory *)

Section Members.
Context {snow : Snow} {kem : MlKem} {aead : Sess.Aead} {D T : Type} {MP : ManagedPlane D} {RV : Rendezvous T}.
Context {blake : Blake2s} {ed : Ed25519} {iter : HashIter} {sip : SipHash24} {os : Os}.
Notation PeerManager := (PeerManager D T).
Notation Peer := (Peer D).
Notation M := (M PeerManager).
Notation quiet := (quiet (D := D) (T := T)).
Notation table_step := (table_step (D := D) (T := T)).
Notation acts := (acts (D := D) (T := T)).
Implicit Types (s : PeerManager) (p q : Peer).



(** The trust configuration of a directory. *)
Definition config (m : Membership) := (ca_pubkeys m, m_network_id m, m_roots m).

Lemma config_sweep skew m now m' b : Dir.sweep_expired skew m now = Ret (m', b) -> config m' = config m.
Proof.
  unfold Dir.sweep_expired. destruct (rfilter _ _) as [ex|]; [|done]. cbn [rbind]. generalize false. revert m.
  induction ex as [|x l IH]; intros m b0; cbn [fold_left]; [by intros [= <- _]|]. intros E. apply IH in E. rewrite E. cbn [fst].
  unfold Dir.evict. by destruct (_ !! _).
Qed.

Lemma config_ingest skew m r now x : Dir.ingest_record skew m r now = Ret x -> config x.1 = config m.
Proof.
  unfold Dir.ingest_record. destruct (Dir.sweep_expired skew m now) as [[m1 b]|] eqn:E; [|done]. cbn [rbind].
  apply config_sweep in E as <-. destruct (Dir.verify_record _ _ _ _) as [[]|]; [|by intros [= <-]|done]. cbn [rbind].
  intros [= <-]. cbn [fst]. unfold Dir.insert_if_newer. destruct (_ !! _); [|done]. by destruct (_ <=? _)%N.
Qed.

Lemma config_gossip skew m msg now x : Dir.on_gossip skew m msg now = Ret x -> config x.1 = config m.
Proof.
  destruct msg as [es|ids|recs]; cbn [Dir.on_gossip]; [by intros [= <-]..|].
  destruct (Dir.ingest_all skew m recs now) as [m'|] eqn:E; [|done]. cbn [rbind]. intros [= <-]. cbn [fst]. unfold Dir.ingest_all in E.
  revert m E. induction recs as [|r l IH]; intros m; cbn [rfold]; [by intros [= <-]|].
  destruct (Dir.ingest_record skew m r now) as [y|] eqn:Ey; [|done]. cbn [rbind]. intros E. rewrite (IH _ E). by eapply config_ingest.
Qed.

Lemma config_renew m c x : Dir.update_own_cert m c = Ret x -> config x.1 = config m.
Proof. unfold Dir.update_own_cert. destruct (build_signed_record _ _ _ _); [|done]. by intros [= <-]. Qed.

(** The directory is replaced by one with the same configuration. *)
Lemma quiet_set_membership s m m' :
  membership s = Some m -> config m' = config m -> quiet s (s <| membership := Some m' |>).
Proof. intros Em Ec. split; [done|]. split; [|done]. unfold env_of. cbn. rewrite Em. cbn. unfold config in Ec. by rewrite Ec. Qed.

Definition same_members : relation PeerManager := fun s s' => membership s' = membership s /\ quiet s s'.

#[export] Instance same_members_preorder : PreOrder same_members.
Proof. split; [done|]. intros s1 s2 s3 [] []. split; [congruence|]. by transitivity s2. Qed.

Lemma members_draw : keeps same_members draw.
Proof. unfold draw. apply keeps_bind; [apply _|apply keeps_gets, _|]. intros n. apply keeps_bind; [apply _| |intros; apply keeps_ret, _]. by apply keeps_modify. Qed.

Lemma members_now_secs : keeps same_members now_secs.
Proof. unfold now_secs, wall_ns. keep_with ltac:(first [apply members_draw|apply keeps_ret]). Qed.

Lemma members_jitter n : keeps same_members (jitter_ms n).
Proof. unfold jitter_ms, random. keep_with ltac:(first [apply members_draw|apply keeps_ret]). Qed.

(** An update of the directory from its value at the start, after a draw. *)
Lemma quiet_update_members {A B C} m (pre : M A) (f : A -> run B) (g : A -> B -> Membership) (k : A -> B -> M C) s s' c :
  membership s = Some m -> keeps same_members pre -> (forall a b, f a = Ret b -> config (g a b) = config m) ->
  (forall a b, keeps quiet (k a b)) ->
  (a ← pre; b ← lift (f a); modify (fun s => s <| membership := Some (g a b) |>) ;; k a b) s = Ret (s', c) -> quiet s s'.
Proof.
  intros Em Hp Hg Hk. unfold mbind at 1, M_bind at 1. destruct (pre s) as [[s1 a]|] eqn:E1; [|done]. cbn [rbind].
  apply Hp in E1 as [Em1 Hq1]. unfold mbind at 1, M_bind at 1, lift. destruct (f a) as [b|] eqn:Ef; [|done]. cbn [rbind].
  unfold mbind at 1, M_bind at 1, modify. cbn [rbind]. intros E. transitivity s1; [done|].
  etransitivity; [eapply quiet_set_membership; [by rewrite Em1|by apply (Hg a b)]|]. by eapply Hk.
Qed.

Lemma quiet_gossip_packet msg : keeps quiet (gossip_packet msg).
Proof. unfold gossip_packet. quietly. Qed.

Lemma quiet_answer_gossip i dg b src : keeps quiet (answer_gossip i dg b src).
Proof.
  unfold answer_gossip. destruct (gossip_decode _) as [msg|]; [|quietly]. intros s s' o. unfold mbind at 1, M_bind at 1, get at 1. cbn [rbind].
  destruct (membership s) as [m|] eqn:Em; [|by intros [= <- _]]. intros E.
  eapply (quiet_update_members m now_secs (fun now => Dir.on_gossip os_skew m msg now) (fun _ x => x.1)); [done|apply members_now_secs| | |exact E].
  - intros now x. apply config_gossip.
  - intros now x. cbn beta. quietly; try apply quiet_gossip_packet.
Qed.

Lemma quiet_tick_digest now : keeps quiet (tick_digest now).
Proof.
  intros s s' o. unfold tick_digest. unfold mbind at 1, M_bind at 1, get at 1. cbn [rbind].
  destruct (membership s) as [m|] eqn:Em; [|by intros [= <- _]]. cbv zeta. intros E.
  set (pre := if _ && _ then jitter_ms _ else mret _) in E.
  assert (keeps same_members pre) as Hp by (unfold pre; destruct (_ && _); [apply members_jitter|apply keeps_ret, _]).
  unfold mbind at 1, M_bind at 1 in E. destruct (pre s) as [[s1 j]|] eqn:E1; [|done]. cbn [rbind] in E. apply Hp in E1 as [Em1 Hq].
  injection E as <- _. transitivity s1; [done|]. eapply quiet_set_membership; [by rewrite Em1|].
  unfold Dir.tick_digest. by destruct (match last_digest_ms m with Some _ => _ | None => _ end).
Qed.

Lemma quiet_renew_cert : keeps quiet renew_cert.
Proof.
  intros s s' o. unfold renew_cert. unfold mbind at 1, M_bind at 1, get at 1. cbn [rbind].
  destruct (threshold_ca_server s); [|by intros [= <- _]]. destruct (membership s) as [m|] eqn:Em; [|by intros [= <- _]].
  unfold mbind at 1, M_bind at 1. destruct (draw s) as [[s1 n]|] eqn:E1; [|done]. cbn [rbind]. apply members_draw in E1 as [Em1 Hq].
  destruct (os_enroll n) as [c|]; [|by intros [= <- _]]. intros E. transitivity s1; [done|].
  eapply (quiet_update_members m (mret tt) (fun _ => Dir.update_own_cert m c) (fun _ x => x.1) (fun _ _ => mret (Ok c)));
    [by rewrite Em1|apply keeps_ret, _|intros _ x; apply config_renew|intros; cbn beta; quietly|exact E].
Qed.

End Members.
#[export] Hint Resolve quiet_gossip_packet quiet_answer_gossip quiet_tick_digest quiet_renew_cert : quiet.

(** ** Relay *)

Section Relay.
Context {snow : Snow} {kem : MlKem} {aead : Sess.Aead} {D T : Type} {MP : ManagedPlane D} {RV : Rendezvous T}.
Context {blake : Blake2s} {ed : Ed25519} {iter : HashIter} {sip : SipHash24} {os : Os}.
Notation PeerManager := (PeerManager D T).
Notation Peer := (Peer D).
Notation M := (M PeerManager).
Notation quiet := (quiet (D := D) (T := T)).
Notation table_step := (table_step (D := D) (T := T)).
Notation acts := (acts (D := D) (T := T)).
Implicit Types (s : PeerManager) (p q : Peer).



Lemma acts_relayed_init env i q dg now : acts env i q (relayed_handshake_init i dg now) (fun q' _ => peer_steps env q q').
Proof.
  unfold relayed_handshake_init. act_step. act_step. act_step. act_step.
  destruct (Hs.start_responder _ _ _ _ _) as [[[[est pkt] pk] ipl]|] eqn:Er; [|act; apply rtc_refl]. act_step.
  destruct (bool_decide (pk <> pubkey q)) eqn:Ek; [act; apply rtc_refl|].
  apply bool_decide_eq_false_1 in Ek. assert (pk = pubkey q) as -> by (destruct (decide (pk = pubkey q)); [done|tauto]).
  destruct (Hs.parse_init_payload ipl) as [[ts cert]|] eqn:Ep; [|act; apply rtc_refl].
  assert (initiated (pubkey q) ts) as Hin by (by repeat eexists).
  assert (unestablished q -> acts env i q (
    if negb (is_idle q) && lower_key s q then mret OutNone
    else
      ok ← cert_admits cert (pubkey q);
      if (negb ok : bool) then mret OutNone
      else if negb (accept_fresh_init s q ts) then mret OutNone
      else
        let dp := new_plane s est (server_addr s) in
        upd_peer i (fun p => note_init ts cert pkt dg (session_obf_key_for s (Hs.hp_key est)) p) ;;
        upd_peer i commit_relayed ;;
        modify (fun s => s <| by_tag ::= <[mp_conn_tag dp := i]> |>) ;;
        first ← relay_wrap i pkt;
        drained ← establish i dp false now;
        rest ← relay_wrap_all i (map Dp.bytes drained);
        mret (OutUdp (option_list first ++ rest))) (fun q' _ => peer_steps env q q')) as Hcold.
  { intros Hu. destruct (_ && _); [act; apply rtc_refl|].
    eapply acts_bind; [apply acts_cert_admits|]. intros ? ok [-> Hok]. destruct ok; cbn [negb]; [|act; apply rtc_refl].
    destruct (accept_fresh_init s q ts) eqn:Ef; cbn [negb]; [|act; apply rtc_refl]. cbv zeta. do 4 act_step.
    eapply acts_bind; [apply acts_establish|]. intros q1 out [d H1]. act. apply rtc_once.
    eapply (ps_accept _ _ _ ts (endpoint q) true d now); [done|done|by apply Hok|by eapply accept_fresh|]. same_core. }
  destruct (state q) as [|h|e] eqn:Es; [by apply Hcold; unfold unestablished, is_established; rewrite Es..|].
  destruct (Hs.init_ephemeral dg) as [eph|]; [|act; apply rtc_refl].
  eapply acts_bind; [apply acts_cert_admits|]. intros ? ok [-> Hok]. destruct ok; cbn [negb].
  2: { eapply acts_bind; [apply acts_drop_session|]. intros q1 [] H1. act. by apply rtc_once, ps_drop. }
  specialize (Hok eq_refl). cbv zeta. set (adopt := _ && accept_fresh_init s q ts).
  eapply acts_bind with (R := fun q' _ => peer_steps env q q' /\ pubkey q' = pubkey q).
  { destruct adopt eqn:Ea; cbn [when]; [|act; by split; [apply rtc_refl|]]. act. split; [|done]. apply rtc_once.
    apply andb_prop in Ea as [_ Ef]. eapply ps_adopt; [done|done|by eapply accept_fresh|done]. }
  intros q1 [] [H1 Ek1]. destruct (_ || _); [|act; done].
  eapply acts_weaken; [apply acts_rekey_init; by rewrite Ek1|]. intros q2 o H2. by transitivity q1.
Qed.

Lemma acts_relayed_resp env i q dg now : acts env i q (relayed_handshake_resp i dg now) (fun q' _ => peer_steps env q q').
Proof.
  unfold relayed_handshake_resp. act_step. destruct (_ && _); [apply acts_rekey_resp|].
  destruct (state q) as [|h|] eqn:Es; [act; apply rtc_refl| |act; apply rtc_refl]. act_step. act_step.
  assert (forall q', core q' = core (q <| state := Idle |>) -> peer_steps env q q') as Hidle by (intros; by apply rtc_once, ps_drop).
  destruct (Hs.read_response _ _) as [[est pl]|] eqn:Er; [|act; by apply Hidle].
  eapply acts_bind; [apply acts_cert_admits|]. intros ? ok [-> Hok]. destruct ok; cbn [negb]; [|act; by apply Hidle].
  cbv zeta. apply (acts_complete env i q h); [done|by repeat eexists|by apply Hok|intros; quietly|].
  intros p. by exists (endpoint p), true.
Qed.

Lemma acts_relayed_data env i q dg now : acts env i q (relayed_data i dg now) (fun q' _ => peer_steps env q q').
Proof.
  unfold relayed_data. eapply acts_bind with (R := fun q' _ => core q' = core q).
  { destruct dg as [|b0 ?]; [act; done|]. destruct (is_type b0 Data); act; done. }
  intros q0 [] H0. act_step. destruct (state q0) as [| |e] eqn:Es; [act; by apply touch..|].
  eapply acts_bind; [apply acts_open_session|]. intros q1 o (e1 & Eo & H1).
  assert (peer_steps env q q1) as Hq1.
  { transitivity q0; [by apply touch|]. eapply session_run; [done|by eapply rtc_once, ss_open|done]. }
  eapply acts_bind with (R := fun q' _ => core q' = core q1).
  { destruct o; try (act; done); (eapply acts_bind; [apply acts_count_rx|]; intros q2 [] H2; act; done). }
  intros q2 x H2. act. by eapply steps_touched.
Qed.

Lemma table_on_relayed src pl now : keeps table_step (on_relayed src pl now).
Proof.
  unfold on_relayed. destruct pl as [|b0 rest]; [tabled|]. apply keeps_bind; [apply _|by apply keeps_quiet; quietly|intros s].
  destruct (by_node s !! src) as [i|]; [|tabled]. apply keeps_at. intros env q.
  eapply acts_bind with (R := fun q' _ => peer_steps env q q').
  { destruct (is_established q) eqn:Ee; cbn [negb when]; act; [apply rtc_refl|]. apply rtc_once.
    by apply (ps_aim _ _ _ (endpoint q) true). }
  intros q1 [] H1.
  assert (forall m : M DispatchOut, acts env i q1 m (fun q' _ => peer_steps env q1 q') -> acts env i q1 m (fun q' _ => peer_steps env q q')) as Ht.
  { intros m Hm. eapply acts_weaken; [exact Hm|]. intros q2 o H2. by transitivity q1. }
  destruct (is_type b0 HandshakeInit); [apply Ht, acts_relayed_init|].
  destruct (is_type b0 HandshakeResp); [apply Ht, acts_relayed_resp|].
  destruct (_ && _); [|apply Ht, acts_relayed_data]. apply acts_end; [unfold relayed_gossip; quietly|]. by intros _.
Qed.

Lemma table_on_rdv dg now : keeps table_step (on_rdv dg now).
Proof.
  unfold on_rdv. apply keeps_bind; [apply _|by apply keeps_quiet; quietly|intros s]. destruct (rendezvous s) as [r|]; [|tabled].
  destruct (parse r dg) as [nid a record|nid a|src pl|nid|]; [| |apply table_on_relayed|tabled|tabled].
  - apply keeps_bind; [apply _|apply keeps_quiet; quietly|]. intros ok. destruct (negb ok); [tabled|].
    destruct (by_node s !! nid) as [i|]; [|tabled]. apply keeps_at. intros env q.
    eapply acts_bind with (R := fun q' _ => core q' = core q); [|intros q1 [] H1; act; by apply touch].
    destruct (negb _); cbn [when]; [|act; done]. destruct (membership s), record; act; done.
  - destruct (by_node s !! nid) as [i|]; [|tabled]. apply keeps_at. intros env q.
    destruct (is_established q) eqn:Ee; [act; apply rtc_refl|]. act_step. destruct (negb _); [act; apply rtc_refl|]. act_step.
    destruct (is_idle q); [|act; by apply touch]. eapply acts_bind; [by apply acts_begin_handshake|]. intros q1 o H1. act.
    etransitivity; [|exact H1]. by apply touch.
Qed.

End Relay.
#[export] Hint Resolve table_on_rdv : table.

(** ** Dispatch *)

Section Dispatch.
Context {snow : Snow} {kem : MlKem} {aead : Sess.Aead} {D T : Type} {MP : ManagedPlane D} {RV : Rendezvous T}.
Context {blake : Blake2s} {ed : Ed25519} {iter : HashIter} {sip : SipHash24} {os : Os}.
Notation PeerManager := (PeerManager D T).
Notation Peer := (Peer D).
Notation M := (M PeerManager).
Notation quiet := (quiet (D := D) (T := T)).
Notation table_step := (table_step (D := D) (T := T)).
Notation acts := (acts (D := D) (T := T)).
Implicit Types (s : PeerManager) (p q : Peer).



Lemma table_on_udp_dispatch src dg now : keeps table_step (on_udp_dispatch src dg now).
Proof. unfold on_udp_dispatch, on_gossip. tabled. Qed.

Lemma quiet_finish_wrapped tun udp now : keeps quiet (finish_wrapped tun udp now).
Proof. unfold finish_wrapped. quietly. Qed.

Lemma table_on_udp src dg now : keeps table_step (on_udp src dg now).
Proof.
  unfold on_udp. tabled; try apply table_on_udp_dispatch; try (apply keeps_quiet, quiet_finish_wrapped).
Qed.

Lemma table_route_or_resolve inner now : keeps table_step (route_or_resolve inner now).
Proof. unfold route_or_resolve. tabled. Qed.

Lemma acts_on_tun env i q inner now :
  acts env i q (
    match state q with
    | Established e =>
        let n := N.of_nat (length inner) in
        upd_peer i (fun p => p <| last_activity_ms := now |> <| tx_bytes := wrap64 (tx_bytes p + n) |>
                               <| tx_packets := wrap64 (tx_packets p + 1) |>) ;;
        sample (Metrics.Tx n 1) ;;
        x ← lift (mp_on_tun (current e) inner now);
        set_epochs i (Epochs.set_current e x.1) ;;
        sample (Metrics.FecTx (N.of_nat (length x.2))) ;;
        if negb (relay q) then mret x.2 else relay_wrap_all i (map Dp.bytes x.2)
    | Handshaking _ => upd_peer i (fun p => p <| pending_tun := push_pending (pending_tun p) inner |>) ;; mret []
    | Idle =>
        upd_peer i (fun p => p <| pending_tun := push_pending (pending_tun p) inner |>) ;;
        s ← get;
        act ← match rendezvous s with
              | Some _ => advance_path i now
              | None => mret (match endpoint q with Some ep => Probe ep | None => PathState.Idle end)
              end;
        match act with
        | Probe a => dgs ← begin_handshake i a false now; mret (default [] dgs)
        | PathState.Relay => s ← get; dgs ← begin_handshake i (server_addr s) true now; mret (default [] dgs)
        | NeedLookup => dg ← maybe_lookup i now; mret (option_list dg)
        | PathState.Idle | NoPath => mret []
        end
    end) (fun q' _ => peer_steps env q q').
Proof.
  destruct (state q) as [|h|e] eqn:Es.
  - act_step. act_step. set (q0 := q <| pending_tun := _ |>).
    eapply acts_bind with (R := fun q' _ => core q' = core q0); [destruct (rendezvous s); [apply acts_advance_path|act; done]|].
    intros q1 a H1. eapply acts_weaken.
    + apply acts_act. apply (unestablished_core q0); [done|]. unfold unestablished, is_established. cbn. by rewrite Es.
    + intros q2 o H2. transitivity q1; [by apply touch; rewrite H1|exact H2].
  - act. by apply touch.
  - cbv zeta. act. eapply session_run; [done|apply rtc_once, ss_plane|done].
Qed.

Lemma table_on_tun_dispatch inner now : keeps table_step (on_tun_dispatch inner now).
Proof.
  unfold on_tun_dispatch. apply keeps_bind; [apply _|by apply keeps_quiet, quiet_split_gate|]. intros [|]; [tabled|].
  apply keeps_bind; [apply _|apply table_route_or_resolve|]. intros [i|]; [|tabled]. apply keeps_at. intros env q. apply acts_on_tun.
Qed.

Lemma table_on_tun inner now : keeps table_step (on_tun inner now).
Proof.
  unfold on_tun, obf_egress_with_jitter, jitter_unobfuscated_egress. tabled; try apply table_on_tun_dispatch.
Qed.

(** *** The tick *)

Lemma quiet_refresh_registration now : keeps quiet (refresh_registration now).
Proof. unfold refresh_registration. quietly. Qed.

(** A handshake in flight given up for another target. *)
Lemma acts_retarget env i q f a via now :
  unestablished q -> (exists ep rl, core (f q) = core (q <| state := Idle |> <| endpoint := ep |> <| relay := rl |>)) ->
  acts env i q (upd_peer i f ;; dgs ← begin_handshake i a via now; mret (true, default [] dgs)) (fun q' _ => peer_steps env q q').
Proof.
  intros Hu (ep & rl & E). act_step.
  assert (unestablished (f q)) as Hf by (unfold unestablished, is_established, core in *; by injection E as _ _ _ -> _ _ _).
  eapply acts_bind; [by apply acts_begin_handshake|]. intros q1 o H1. act. etransitivity; [|exact H1].
  eapply rtc_l; [by apply (ps_drop _ _ (q <| state := Idle |>))|]. eapply rtc_once, (ps_aim _ _ _ ep rl); done.
Qed.

Lemma acts_escalate env i q h now :
  unestablished q -> acts env i q (escalate i h now) (fun q' _ => peer_steps env q q').
Proof.
  intros Hu. unfold escalate. eapply acts_bind; [apply acts_advance_path|]. intros q1 act_ H1.
  assert (unestablished q1) as Hu1 by (by apply (unestablished_core q)).
  assert (forall m : M (bool * list EgressDatagram),
    acts env i q1 m (fun q' _ => peer_steps env q1 q') -> acts env i q1 m (fun q' _ => peer_steps env q q')) as Ht.
  { intros m Hm. eapply acts_weaken; [exact Hm|]. intros q2 o H2. transitivity q1; [by apply touch|exact H2]. }
  apply Ht. destruct act_ as [| |a| |]; try (act; apply rtc_refl).
  - eapply acts_bind; [apply acts_maybe_lookup|]. intros q2 o H2. act. by apply touch.
  - destruct (bool_decide _); [|act; apply rtc_refl]. apply acts_retarget; [done|]. by exists (endpoint q1), false.
  - act_step. apply acts_retarget; [done|]. by exists None, (relay q1).
Qed.

Lemma acts_drive_peer env i q now : acts env i q (drive_peer i now) (fun q' _ => peer_steps env q q').
Proof.
  unfold drive_peer. act_step. destruct (state q) as [|h|e] eqn:Es; [act; apply rtc_refl| |].
  - assert (unestablished q) as Hu by (unfold unestablished, is_established; by rewrite Es).
    destruct (negb _); [act; apply rtc_refl|]. destruct (_ <=? _)%N; [act; by apply rtc_once, ps_drop|].
    act. apply rtc_once. by eapply ps_try.
  - act_step. cbv zeta. eapply acts_bind; [apply acts_drive_rekey|]. intros ? [e1 sent] [-> H1]. cbn [fst] in H1.
    act. eapply session_run; [done| |done]. eapply rtc_l; [apply ss_retire|]. etransitivity; [exact H1|]. apply rtc_once, ss_plane.
Qed.

Lemma table_tick_peer now i : keeps table_step (tick_peer now i).
Proof.
  unfold tick_peer. apply keeps_bind; [apply _|by apply keeps_quiet; quietly|]. intros s. apply keeps_at. intros env q.
  eapply acts_bind with (R := fun q' _ => peer_steps env q q').
  { destruct (rendezvous s); [|act; apply rtc_refl]. destruct (state q) as [|h|] eqn:Es; [act; apply rtc_refl| |act; apply rtc_refl].
    destruct (negb _); [|act; apply rtc_refl]. apply acts_escalate. unfold unestablished, is_established. by rewrite Es. }
  intros q1 [[] sent] H1; [act; done|]. eapply acts_bind; [apply acts_drive_peer|]. intros q2 out H2. act. by transitivity q1.
Qed.

Lemma table_tick_idle now i : keeps table_step (tick_idle now i).
Proof.
  unfold tick_idle. apply keeps_at. intros env q. destruct (is_idle q) eqn:Ei; [|act; apply rtc_refl].
  apply acts_drive_path_idle. unfold unestablished, is_established, is_idle in *. by destruct (state q).
Qed.

Lemma table_bootstrap l now : keeps table_step (bootstrap l now).
Proof.
  induction l as [|a l IH]; cbn [bootstrap]; [tabled|]. intros s s' o. unfold mbind at 1, M_bind at 1, get at 1. cbn [rbind].
  destruct (position _ _) as [i|] eqn:Ei; [|apply IH]. apply position_some in Ei as (q & Hq & Hb). apply andb_prop in Hb as [_ Hi].
  unfold mbind, M_bind. destruct (begin_handshake i a false now s) as [[s1 d]|] eqn:E; [|done]. cbn [rbind]. intros [= <- _].
  eapply table_begin_at; [done| |exact E]. unfold unestablished, is_established, is_idle in *. by destruct (state q).
Qed.

Lemma table_tick_gossip now : keeps table_step (tick_gossip now).
Proof. unfold tick_gossip. tabled. apply table_bootstrap. Qed.

Lemma table_cover_peer iv now i : keeps table_step (cover_peer iv now i).
Proof. unfold cover_peer, decoy. tabled. Qed.

Lemma table_drop_session i : keeps table_step (drop_session i).
Proof.
  apply (keeps_reads i); [|intros s; apply peer_at_none]. intros env q. eapply acts_weaken; [apply acts_drop_session|].
  intros q' [] H. by apply rtc_once, ps_drop.
Qed.

Lemma table_cert_sweep now : keeps table_step (cert_sweep now).
Proof. unfold cert_sweep. tabled. apply table_drop_session. Qed.

Lemma quiet_cert_rotation now : keeps quiet (cert_rotation now).
Proof. unfold cert_rotation. quietly. Qed.

Lemma table_set_fec_config c : keeps table_step (set_fec_config c).
Proof.
  unfold set_fec_config. apply keeps_modify. intros s. split; [done|]. cbn. split; [|split].
  - intros i p Hp. rewrite list_lookup_fmap, Hp. eexists. split; [done|].
    destruct (state p) as [| |e] eqn:Es; [apply rtc_refl..|]. eapply session_run; [done|apply rtc_once, ss_ratio|done].
  - intros i p' Hp Hl. apply lookup_lt_Some in Hp. rewrite length_map in Hp. lia.
  - apply indexed_same; [|done]. cbn. change (map ?f ?l) with (f <$> l). rewrite <- list_fmap_compose. apply list_fmap_ext.
    intros i p _. cbn. by destruct (state p).
Qed.

(** The commands that remove no peer. *)
Definition keeps_peers (c : ControlCmd) : Prop := match c with RemovePeer _ => False | _ => True end.

Lemma quiet_set_split on md cs ds ap : keeps quiet (set_split_tunnel_config on md cs ds ap).
Proof. unfold set_split_tunnel_config. cbv zeta. quietly. Qed.

Lemma table_add_peer cfg tr : keeps table_step (add_peer_with_transport cfg tr).
Proof.
  intros s s' o. unfold add_peer_with_transport. unfold mbind at 1, M_bind at 1, get at 1. cbn [rbind].
  destruct (by_node s !! _) eqn:E; [by intros [= <- _]|]. unfold mbind at 1, M_bind at 1, modify at 1. cbn [rbind]. intros E2.
  transitivity (push_peer s (fresh_peer (public_key cfg) (pc_endpoint cfg) false
    (start_path (relay_only s) (has_rdv s) (option_list (pc_endpoint cfg)) 0) tr)).
  - apply table_push_peer; [apply fresh_peer_fresh|]. intros Hi (p & Ep & Hp)%list_elem_of_fmap. cbn in Ep.
    rewrite (ix_node _ Hi) in E. apply (index_by_none _ _ _ E p Hp). destruct (ix_ident _ Hi p Hp) as [-> _]. by rewrite <- Ep.
  - apply table_quiet. revert E2. generalize (push_peer s (fresh_peer (public_key cfg) (pc_endpoint cfg) false
      (start_path (relay_only s) (has_rdv s) (option_list (pc_endpoint cfg)) 0) tr)). intros s1 E2.
    assert (keeps quiet (update_stats ;; mret (Ok tt) : M (result unit String.string))) as Hq by quietly. by eapply Hq.
Qed.

Lemma table_cmd c : keeps_peers c -> keeps table_step (dispatch_cmd c).
Proof.
  intros Hc. destruct c; cbn [dispatch_cmd]; try done.
  - apply keeps_bind; [apply _|apply table_add_peer|]. intros x. tabled.
  - unfold set_peer_transport. tabled.
  - tabled.
  - tabled. apply table_set_fec_config.
  - tabled.
  - apply keeps_quiet. apply keeps_bind; [apply _|apply quiet_set_split|]. quietly.
Qed.

Lemma keeps_mfor_in {A} (R : relation PeerManager) `{!PreOrder R} (l : list A) f :
  (forall x, x ∈ l -> keeps R (f x)) -> keeps R (mfor l f).
Proof.
  intros H. induction l as [|x l IH]; cbn [mfor fold_right]; [apply keeps_ret, _|].
  apply keeps_bind; [apply _|apply H; by left|]. intros []. apply IH. intros y Hy. apply H. by right.
Qed.

Lemma table_tick cmds now : Forall keeps_peers cmds -> keeps table_step (tick cmds now).
Proof.
  intros Hc. unfold tick, tick_dispatch. apply keeps_bind; [apply _| |intros dgs; tabled].
  apply keeps_bind; [apply _|apply keeps_quiet; unfold refresh_metrics; quietly|intros _].
  apply keeps_bind; [apply _|apply keeps_quiet, quiet_refresh_registration|intros reg].
  apply keeps_bind; [apply _|by apply keeps_quiet; quietly|intros s].
  apply keeps_bind; [apply _|apply keeps_mconcat; [apply _|apply table_tick_peer]|intros driven].
  apply keeps_bind; [apply _|tabled; apply table_tick_idle|intros idle].
  apply keeps_bind; [apply _|tabled; apply table_tick_gossip|intros gossip].
  apply keeps_bind; [apply _|unfold cover_traffic; tabled; apply table_cover_peer|intros cover].
  apply keeps_bind; [apply _|apply table_cert_sweep|intros _].
  apply keeps_bind; [apply _|apply keeps_quiet, quiet_cert_rotation|intros _].
  apply keeps_bind; [apply _|apply keeps_mfor_in; [apply _|]|intros _; tabled]. intros c Hin.
  apply keeps_bind; [apply _|apply table_cmd; by apply (proj1 (Forall_forall _ _) Hc)|]. intros _. tabled.
Qed.

(** *** Runs *)

Definition keeps_table (e : event) : Prop := match e with Tick cmds _ => Forall keeps_peers cmds | _ => True end.

Lemma table_step_event e : keeps_table e -> keeps table_step (step e).
Proof.
  destruct e as [src dg now|inner now|cmds now]; cbn [keeps_table step]; intros He.
  - apply table_on_udp.
  - apply keeps_bind; [apply _|apply table_on_tun|]. intros; tabled.
  - apply keeps_bind; [apply _|by apply table_tick|]. intros; tabled.
Qed.

Lemma table_steps es : Forall keeps_table es -> keeps table_step (steps es).
Proof.
  intros HF. induction HF as [|e es He _ IH]; cbn [steps]; [tabled|].
  apply keeps_bind; [apply _|by apply table_step_event|]. intros o. apply keeps_bind; [apply _|exact IH|]. intros; tabled.
Qed.

End Dispatch.
End RefinesRun.
