(* ===== verification/PmSecurity.v ===== *)
(** * The peer manager: what an adversary cannot do

    Consequences of the refinement for runs of the daemon: initiations are not
    replayed, sessions belong to authorised members, endpoints follow only
    authenticated traffic, the rendezvous server cannot disturb a session, and
    packets of the tunnel go to the peer whose key their address names. *)

From Stdlib Require Strings.Byte.
From Stdlib Require Import NArith Lia.
From stdpp Require Import base numbers gmap list relations.
From S2P Require Import Prelude StateM Session DataPlane NetAddr MemberCodec MemberVerify Directory Obf RdvClient EpochSet PathState Noise Metrics SplitTunnel PmState PmTable PmObf PmRekey PmHandshake PmRouting PmRelay PmDispatch PmRun PmSpec PmRefines PmRefinesRun.

Local Open Scope nat_scope.

Module Security.
Import Pm Tbl Obfs Rekeys Cold Route Gos Rel Disp PeerSpec Refines RefinesRun.

Section Security.
Context {snow : Snow} {kem : MlKem} {aead : Sess.Aead} {D T : Type} {MP : ManagedPlane D} {RV : Rendezvous T}.
Context {blake : Blake2s} {ed : Ed25519} {iter : HashIter} {sip : SipHash24} {os : Os}.
Notation PeerManager := (PeerManager D T).
Notation Peer := (Peer D).
Notation M := (M PeerManager).
Notation quiet := (quiet (D := D) (T := T)).
Notation table_step := (table_step (D := D) (T := T)).
Notation acts := (acts (D := D) (T := T)).
Implicit Types (s : PeerManager) (p q : Peer).



(** ** The refinement *)


(** ** From the start *)

Lemma quiet_configure x : keeps quiet (configure x).
Proof. unfold configure. apply quiet_modify. intros s. by destruct x. Qed.

Lemma new_manager_eq priv pub cfgs md rdv memb only interval (s0 : PeerManager) : exists wall seed label n,
  new_manager priv pub cfgs md rdv memb only interval s0 =
  mfor (match memb with Some m => roots (m_roots m) | None => [] end) (fun r => admit_member r.1 [r.2] 0)
    (fold_left push_configured cfgs (empty_manager priv pub md rdv memb only interval wall seed label n)).
Proof. do 4 eexists. reflexivity. Qed.

Lemma configured_table cfgs s :
  NoDup ((pubkey <$> peers s) ++ (public_key <$> cfgs)) -> table_step s (fold_left push_configured cfgs s).
Proof.
  revert s. induction cfgs as [|c l IH]; intros s Hd; cbn [fold_left]; [reflexivity|].
  transitivity (push_configured s c); [apply table_push_peer|apply IH].
  - done.
  - intros _ Hin. apply NoDup_app in Hd as (_ & Hd & _). apply (Hd _ Hin). by left.
  - cbn. rewrite fmap_app, <- app_assoc. by cbn.
Qed.

(** What holds before the event loop. *)
Lemma new_manager_table priv pub cfgs md rdv memb only interval (s0 s : PeerManager) :
  NoDup (public_key <$> cfgs) -> new_manager priv pub cfgs md rdv memb only interval s0 = Ret (s, tt) ->
  indexed s /\ trust_config (env_of s) = (fun m => (ca_pubkeys m, m_network_id m, m_roots m)) <$> memb /\
  forall p, p ∈ peers s -> exists p0, fresh_in_table p0 /\ peer_steps (env_of s) p0 p.
Proof.
  intros Hd. destruct (new_manager_eq priv pub cfgs md rdv memb only interval s0) as (wall & seed & label & n & ->).
  set (empty := empty_manager _ _ _ _ _ _ _ _ _ _ _). intros E.
  assert (table_step empty s) as (He & _ & Hn & Hi).
  { transitivity (fold_left push_configured cfgs empty); [by apply configured_table|]. revert E.
    apply keeps_mfor; [apply _|]. intros r. apply table_admit_member. }
  split; [|split].
  - apply Hi. constructor; [constructor|set_solver|done..].
  - by rewrite He.
  - intros p [i Hp]%list_elem_of_lookup. rewrite He. apply (Hn i p Hp). cbn. lia.
Qed.

(** A run of the daemon, seen by the machine. *)
Lemma daemon_table priv pub cfgs md rdv memb only interval settings es (s0 s : PeerManager) outs :
  NoDup (public_key <$> cfgs) -> Forall keeps_table es ->
  Run.daemon priv pub cfgs md rdv memb only interval settings es s0 = Ret (s, outs) ->
  indexed s /\ trust_config (env_of s) = (fun m => (ca_pubkeys m, m_network_id m, m_roots m)) <$> memb /\
  forall p, p ∈ peers s -> exists p0, fresh_in_table p0 /\ peer_steps (env_of s) p0 p.
Proof.
  intros Hd Hes. unfold Run.daemon. unfold mbind at 1, M_bind at 1.
  destruct (new_manager _ _ _ _ _ _ _ _ s0) as [[s1 []]|] eqn:E1; [|done]. cbn [rbind].
  apply new_manager_table in E1 as (Hi1 & Ht1 & Hp1); [|done]. unfold mbind at 1, M_bind at 1.
  destruct (mfor settings configure s1) as [[s2 []]|] eqn:E2; [|done]. cbn [rbind]. intros E3.
  assert (table_step s1 s) as (He & Ho & Hn & Hi).
  { transitivity s2; [|by eapply table_steps]. apply table_quiet. revert E2. apply keeps_mfor; [apply _|]. apply quiet_configure. }
  split; [auto|]. split; [by rewrite He|]. rewrite He. intros p [i Hp]%list_elem_of_lookup.
  destruct (decide (i < length (peers s1))) as [Hlt|Hge]; [|apply (Hn i); [done|lia]].
  destruct (lookup_lt_is_Some_2 _ _ Hlt) as [p1 H1]. destruct (Hp1 p1) as (p0 & Hf & S1); [by eapply list_elem_of_lookup_2|].
  destruct (Ho i p1 H1) as (p' & H' & S'). assert (p' = p) as -> by congruence. exists p0. split; [done|]. by etransitivity.
Qed.


(** Packets of the tunnel reach the peer their destination names: after any
    run from the start, and when no two peers have keys of the same address, a
    packet to the address derived from a peer's key is routed to that peer, and
    a packet to the address of no peer is routed to none of several. *)
Theorem tunnel_routes_by_key priv pub cfgs md rdv memb only interval settings es (s0 s : PeerManager) outs inner d :
  NoDup (public_key <$> cfgs) -> Forall keeps_table es ->
  Run.daemon priv pub cfgs md rdv memb only interval settings es s0 = Ret (s, outs) ->
  NoDup ((fun p => node_addr (pubkey p)) <$> peers s) -> mode s = L3Tun -> ipv6_dst inner = Some d ->
  (forall i p, peers s !! i = Some p -> node_addr (pubkey p) = d -> route_tun_index s inner = Some i) /\
  ((forall p, p ∈ peers s -> node_addr (pubkey p) <> d) -> length (peers s) <> 1 -> route_tun_index s inner = None).
Proof.
  intros Hd Hes E Ha Hm Hi. apply daemon_table in E as ([_ Hid _ Hx] & _ & _); [|done..].
  assert (addr <$> peers s = (fun p => node_addr (pubkey p)) <$> peers s) as Ead.
  { apply list_fmap_ext. intros i p Hp. apply Hid. by eapply list_elem_of_lookup_2. }
  unfold route_tun_index. rewrite Hm, Hi, Hx. split.
  - intros i p Hp Ep. rewrite (proj2 (index_by_exact addr (peers s) d i ltac:(by rewrite Ead))); [done|].
    exists p. split; [done|]. rewrite <- Ep. apply Hid. by eapply list_elem_of_lookup_2.
  - intros Hno Hl. destruct (index_by addr (peers s) !! d) as [i|] eqn:E.
    + apply index_by_some in E as (p & Hp & Ep). apply list_elem_of_lookup_2 in Hp. exfalso. apply (Hno p Hp).
      rewrite <- Ep. symmetry. by apply Hid.
    + unfold sole_peer. apply Nat.eqb_neq in Hl. rewrite Hl. by destruct (membership s).
Qed.

(** ** Replays *)

(** What a stale initiation leaves of its peer: all that matters, or all but
    its session. *)
Definition unmoved q q' : Prop := core q' = core q \/ core q' = core (q <| state := Idle |>).

Lemma acts_stale_rekey env i q est pkt eph ts src via :
  ~ fresh_label env q ts -> acts env i q (rekey_init_core i est pkt eph ts src via) (fun q' _ => q' = q).
Proof.
  intros Hs. unfold rekey_init_core. act_step. cbv zeta. act_step.
  destruct (bool_decide _); [destruct (cached_resp q); act; done|]. destruct (state q) as [| |e]; [by intros ? ?..|].
  destruct (Epochs.next_cached_resp_for _ _); [act; done|].
  destruct (accept_fresh_init s q ts) eqn:Ef; cbn [negb]; [|act; done]. exfalso. by eapply Hs, accept_fresh.
Qed.

Lemma fresh_label_core env q q' ts : core q' = core q -> fresh_label env q' ts -> fresh_label env q ts.
Proof. unfold core, fresh_label. by intros [= _ _ _ _ -> _ _]. Qed.

Lemma acts_stale_direct env i q src dg now est pkt ts cert :
  ~ fresh_label env q ts ->
  acts env i q (
    s ← get;
    match state q with
    | Established _ =>
        if negb (relay q) then
          ok ← cert_admits cert (pubkey q);
          if (negb ok : bool) then drop_session i ;; mret OutNone
          else
            match cert_decode cert with
            | Some c => upd_peer i (fun p => p <| admitted_cert_not_after := Some (not_after c) |>)
            | None => mret tt
            end ;;
            init_eph ← lift (rexpect (Hs.init_ephemeral dg));
            rekey_init_core i est pkt init_eph ts src false
        else mret OutNone
    | Handshaking _ | Idle =>
        if negb (is_idle q) && lower_key s q then mret OutNone
        else
          ok ← cert_admits cert (pubkey q);
          if (negb ok : bool) then mret OutNone
          else if negb (accept_fresh_init s q ts) then mret OutNone
          else
            let dp := new_plane s est src in
            upd_peer i (fun p => note_init ts cert pkt dg (session_obf_key_for s (Hs.hp_key est)) (p <| endpoint := Some src |>)) ;;
            modify (fun s => s <| by_tag ::= <[mp_conn_tag dp := i]> |>) ;;
            upd_peer i (commit_direct src) ;;
            drained ← establish i dp true now;
            mret (OutUdp (mkEgress 0 src pkt :: drained))
    end) (fun q' _ => unmoved q q').
Proof.
  intros Hs. act_step.
  assert (accept_fresh_init s q ts = false) as Ef.
  { destruct (accept_fresh_init s q ts) eqn:Ef; [|done]. exfalso. by eapply Hs, accept_fresh. }
  rewrite Ef. cbn [negb].
  destruct (state q) as [|h|e] eqn:Es.
  1, 2: destruct (_ && _); [act; by left|act_step; destruct (negb _); act; by left].
  destruct (negb (relay q)); [|act; by left]. act_step. destruct (negb _).
  - eapply acts_bind; [apply acts_drop_session|]. intros q1 [] H1. act. by right.
  - eapply acts_bind with (R := fun q' _ => core q' = core q); [destruct (cert_decode cert); act; done|]. intros q1 [] H1.
    act_step. eapply acts_weaken; [apply acts_stale_rekey; intros H'; by eapply Hs, fresh_label_core|]. intros q2 o ->. by left.
Qed.

Lemma draw_post s s' n : draw s = Ret (s', n) -> peers s' = peers s /\ env_of s' = env_of s /\ local_priv s' = local_priv s.
Proof. by intros [= <- _]. Qed.

Lemma position_unique (ps : list Peer) pk i p :
  NoDup (pubkey <$> ps) -> ps !! i = Some p -> pubkey p = pk -> position (fun p => bool_decide (pubkey p = pk)) ps = Some i.
Proof.
  intros Hd Hp Hk. apply (position_sole _ _ _ p Hp); [by apply bool_decide_eq_true|]. intros j y Hy <-%bool_decide_eq_true.
  apply (NoDup_lookup (pubkey <$> ps) j i (pubkey y)); [done|by rewrite list_lookup_fmap, Hy|by rewrite list_lookup_fmap, Hp, <- Hk].
Qed.


(** ** Endpoints *)

(** C14: a session's endpoint follows only its own traffic: if, across any run,
    the endpoint of a peer with a session changes, then at some moment in
    between the peer had lost its session, or its session, not relayed, opened
    a datagram with the keys of one of its epochs. *)
Theorem endpoint_moves_authenticated es s s' outs i p :
  Forall keeps_table es -> steps es s = Ret (s', outs) -> peers s !! i = Some p -> is_established p = true ->
  exists p', peers s' !! i = Some p' /\
    (endpoint p' <> endpoint p ->
     exists p1, peer_steps (env_of s) p p1 /\ peer_steps (env_of s) p1 p' /\
       (unestablished p1 \/
        (relay p1 = false /\ exists e dg now e1 opened,
           state p1 = Established e /\ Epochs.inbound_open e dg now = Ret (e1, opened) /\ opened <> InNone))).
Proof.
  intros Hes E Hp He. apply table_steps in E as (_ & Ho & _); [|done]. destruct (Ho i p Hp) as (p' & Hp' & Hs).
  exists p'. split; [done|]. clear Hp Hp' Ho. intros Hne.
  induction Hs as [x|x y z Hxy Hyz IH]; [done|].
  destruct (decide (endpoint y = endpoint x)) as [Ey|Ey].
  - destruct (is_established y) eqn:Hy.
    + destruct IH as (p1 & S1 & S2 & H1); [done|congruence|]. exists p1. split; [by eapply rtc_l|done].
    + exists y. split; [by apply rtc_once|]. split; [done|by left].
  - destruct (step_endpoint _ _ _ Hxy He Ey) as (Hr & e & dg & now & e1 & op & H1 & H2 & H3).
    exists x. split; [apply rtc_refl|]. split; [by eapply rtc_l|]. right. split; [done|]. by exists e, dg, now, e1, op.
Qed.

(** ** The rendezvous server *)

Definition sessions_kept : relation PeerManager := fun s s' =>
  forall i p, peers s !! i = Some p -> is_established p = true -> peers s' !! i = Some p.

#[export] Instance sessions_kept_preorder : PreOrder sessions_kept.
Proof. split; [by intros s i p|]. intros s1 s2 s3 H1 H2 i p Hp He. by apply H2, He; apply H1. Qed.

Lemma kept_quiet {A} (m : M A) : keeps quiet m -> keeps sessions_kept m.
Proof. intros H s s' a E i p Hp _. apply H in E as (-> & _). done. Qed.

Lemma kept_at {A} i (k : Peer -> M A) :
  (forall env q, acts env i q (k q) (fun q' _ => is_established q = true -> q' = q)) -> keeps sessions_kept (peer_at i ≫= k).
Proof.
  intros H s s' a E. destruct (peers s !! i) as [q|] eqn:Hi; [|by rewrite peer_at_none in E].
  eapply (acts_peer (env_of s) i q) in E as (q' & Ep & _ & _ & Hq); [|apply H|done|done]. intros j p Hj He. rewrite Ep.
  destruct (decide (j = i)) as [->|Hne]; [|by rewrite list_lookup_insert_ne].
  rewrite list_lookup_insert_eq by (by eapply lookup_lt_Some). assert (q = p) as -> by congruence. by rewrite Hq.
Qed.

(** C36: the rendezvous server cannot disturb a session: whatever candidate
    address, punch hint or refusal it sends, every peer that has a session is
    left exactly as it was. *)
Theorem server_cannot_touch_sessions dg now s s' o r :
  rendezvous s = Some r -> (forall src payload, parse r dg <> Relayed src payload) -> on_rdv dg now s = Ret (s', o) ->
  forall i p, peers s !! i = Some p -> is_established p = true -> peers s' !! i = Some p.
Proof.
  intros Hr Hn. unfold on_rdv. unfold mbind at 1, M_bind at 1, get at 1. cbn [rbind]. rewrite Hr.
  change (forall i p, peers s !! i = Some p -> is_established p = true -> peers s' !! i = Some p) with (sessions_kept s s').
  assert (forall m : M DispatchOut, keeps sessions_kept m -> m s = Ret (s', o) -> sessions_kept s s') as Hgo by (intros m Hm E; by eapply Hm).
  destruct (parse r dg) as [nid a record|nid a|src pl|nid|]; [| |by destruct (Hn src pl)|by intros [= <- _]..]; apply Hgo.
  - apply keeps_bind; [apply _|apply kept_quiet; quietly|]. intros ok. destruct (negb ok); [apply kept_quiet; quietly|].
    destruct (by_node s !! nid) as [i|]; [|apply kept_quiet; quietly]. apply kept_at. intros env q.
    destruct (is_established q) eqn:Eq; cbn [negb when]; [act; done|].
    eapply acts_bind with (R := fun _ _ => True); [destruct (membership s), record; act; done|]. intros q1 [] _. act. done.
  - destruct (by_node s !! nid) as [i|]; [|apply kept_quiet; quietly]. apply kept_at. intros env q.
    destruct (is_established q) eqn:Eq; [act; done|]. act_step. destruct (negb _); [act; done|]. act_step.
    destruct (is_idle q); [|act; done]. eapply acts_bind; [by apply acts_begin_handshake|]. intros q1 x H1. act. done.
Qed.

End Security.
End Security.
