(* ===== verification/PmFirst.v ===== *)
(** * Two daemons: the first packet

    Freshly started managers of two hosts that know each other's keys: the
    first packet for the other host starts the handshake, and the datagrams
    released by its completion deliver the packet. *)

From Stdlib Require Strings.Byte.
From Stdlib Require Import NArith Lia Floats.SpecFloat.
From stdpp Require Import base numbers gmap list.
From S2P Require Import Prelude StateM Gf256 RsSimd Fec FecEncode FecWf FecDelivery AntiReplay Session Wire Adaptive Flow Classify Transport WireGlue DataPlane DataPlaneWf DataPlaneDelivery NetAddr MemberCodec MemberVerify Directory Obf RdvClient EpochSet EpochPlane PathState Noise Metrics SplitTunnel PmState PmTable PmPlane PmObf PmRekey PmHandshake PmRouting PmRelay PmDispatch.

Local Open Scope nat_scope.

Module Exchange.
Import Pm Tbl Obfs Rekeys Cold Route Disp.

Section Exchange.
Context {snow : Snow} {kem : MlKem} {aead : Sess.Aead} {D T : Type} {MP : ManagedPlane D} {RV : Rendezvous T}.
Context {blake : Blake2s} {ed : Ed25519} {iter : HashIter} {sip : SipHash24} {os : Os}.
Notation PeerManager := (PeerManager D T).
Notation Peer := (Peer D).
Notation M := (M PeerManager).
Implicit Types (s : PeerManager) (p q : Peer).

(** ** Computations that concern one peer

    [does c i ps q m Q]: in every manager of configuration [c] whose table is
    [ps] with [q] at [i], [m] returns, keeps the rest of the table, and leaves
    a configuration, a peer and a result in [Q]. *)

Record Config := mkConfig {
  c_priv : list u8;
  c_pub : list u8;
  c_mode : TunnelMode;
  c_floor : list u8;
  c_symbol : N;
  c_addr : gmap (list u8) nat;
  c_draws : nat;
}.

Definition config_of s : Config :=
  mkConfig (local_priv s) (local_pub s) (mode s) (boot_floor_ts s) (data_symbol_size s) (by_addr s) (draws s).

Definition drawn (c : Config) (n : nat) : Config :=
  mkConfig (c_priv c) (c_pub c) (c_mode c) (c_floor c) (c_symbol c) (c_addr c) (n + c_draws c).

(** No obfuscation, rendezvous, membership, delayed datagrams, bypass, shards. *)
Record plain s : Prop := {
  pl_obf : obf_key s = None;
  pl_queue : scheduled_egress s = [];
  pl_rdv : rendezvous s = None;
  pl_mem : membership s = None;
  pl_jitter : jitter_max_ms (traffic_defense s) = 0%N;
  pl_split : enabled (split_tunnel s) = false;
  pl_shards : num_shards s = 1%N;
}.

Definition at_peer (c : Config) (i : nat) (ps : list Peer) q s : Prop :=
  plain s /\ config_of s = c /\ peers s = <[i := q]> ps /\ i < length ps /\ map_Forall (fun _ j => j < length ps) (by_tag s).

Definition does {A} (c : Config) (i : nat) (ps : list Peer) q (m : M A) (Q : Config -> Peer -> A -> Prop) : Prop :=
  forall s, at_peer c i ps q s -> exists s' a c' q', m s = Ret (s', a) /\ at_peer c' i ps q' s' /\ Q c' q' a.

Lemma does_ret {A} c i ps q (a : A) (Q : Config -> Peer -> A -> Prop) : Q c q a -> does c i ps q (mret a) Q.
Proof. intros H s Hs. by exists s, a, c, q. Qed.

Lemma does_bind {A B} c i ps q (m : M A) (k : A -> M B) R Q :
  does c i ps q m R -> (forall c' q' a, R c' q' a -> does c' i ps q' (k a) Q) -> does c i ps q (m ≫= k) Q.
Proof.
  intros Hm Hk s Hs. destruct (Hm s Hs) as (s1 & a & c1 & q1 & E & H1 & HR).
  destruct (Hk c1 q1 a HR s1 H1) as (s2 & b & c2 & q2 & E2 & H2 & HQ).
  exists s2, b, c2, q2. split; [|done]. unfold mbind, M_bind. by rewrite E.
Qed.

Lemma does_weaken {A} c i ps q (m : M A) (R Q : Config -> Peer -> A -> Prop) :
  does c i ps q m R -> (forall c' q' a, R c' q' a -> Q c' q' a) -> does c i ps q m Q.
Proof. intros H HQ s Hs. destruct (H s Hs) as (s' & a & c' & q' & E & H' & HR). eauto 10. Qed.

Lemma does_get {B} c i ps q (k : PeerManager -> M B) Q :
  (forall s, at_peer c i ps q s -> does c i ps q (k s) Q) -> does c i ps q (s ← get; k s) Q.
Proof. intros H s Hs. destruct (H s Hs s Hs) as (s' & a & c' & q' & E & H'). exists s', a, c', q'. by split. Qed.

Lemma does_modify c i ps q f (Q : Config -> Peer -> unit -> Prop) :
  (forall s, at_peer c i ps q s -> at_peer c i ps q (f s)) -> Q c q tt -> does c i ps q (modify f) Q.
Proof. intros H HQ s Hs. exists (f s), tt, c, q. split; [done|]. auto. Qed.

Lemma does_lift {A} c i ps q (r : run A) a (Q : Config -> Peer -> A -> Prop) :
  r = Ret a -> Q c q a -> does c i ps q (lift r) Q.
Proof. intros -> HQ s Hs. by exists s, a, c, q. Qed.

Lemma at_lookup c i ps q s : at_peer c i ps q s -> peers s !! i = Some q.
Proof. intros (_ & _ & -> & Hi & _). by apply list_lookup_insert_eq. Qed.

Lemma does_peer c i ps q (Q : Config -> Peer -> Peer -> Prop) : Q c q q -> does c i ps q (peer_at i) Q.
Proof.
  intros HQ s Hs. exists s, q, c, q. split; [|done]. unfold peer_at, mbind, M_bind, get. cbn [rbind]. by rewrite (at_lookup _ _ _ _ _ Hs).
Qed.

Lemma does_upd c i ps q f (Q : Config -> Peer -> unit -> Prop) : Q c (f q) tt -> does c i ps q (upd_peer i f) Q.
Proof.
  intros HQ s Hs. pose proof (at_lookup _ _ _ _ _ Hs) as Hi. destruct Hs as ([] & Hc & Hp & Hl).
  exists (s <| peers := <[i := f q]> (peers s) |>), tt, c, (f q).
  split; [unfold upd_peer, mbind, M_bind, get, modify; cbn [rbind]; by rewrite Hi|]. split; [|done].
  split; [by constructor|]. split; [done|]. split; [|done]. cbn. by rewrite Hp, list_insert_insert_eq.
Qed.

Lemma does_draw c i ps q (Q : Config -> Peer -> nat -> Prop) : Q (drawn c 1) q (c_draws c) -> does c i ps q draw Q.
Proof.
  intros HQ s ([] & Hc & Hp & Hl). exists (s <| draws := S (draws s) |>), (draws s), (drawn c 1), q. subst c.
  split; [done|]. split; [|done]. split; [by constructor|]. by split.
Qed.

Lemma does_sample c i ps q x (Q : Config -> Peer -> unit -> Prop) : Q c q tt -> does c i ps q (sample x) Q.
Proof. intros HQ. apply does_modify; [|done]. intros s ([] & ? & ? & ?). by split; [constructor|]. Qed.

Lemma does_stats c i ps q (Q : Config -> Peer -> unit -> Prop) : Q c q tt -> does c i ps q update_stats Q.
Proof. intros HQ. apply does_modify; [|done]. intros s ([] & ? & ? & ?). by split; [constructor|]. Qed.

Lemma does_tag c i ps q t (Q : Config -> Peer -> unit -> Prop) :
  Q c q tt -> does c i ps q (modify (fun s => s <| by_tag ::= <[t := i]> |>)) Q.
Proof.
  intros HQ. apply does_modify; [|done]. intros s ([] & ? & ? & ? & Ht). split; [by constructor|]. do 3 (split; [done|]).
  by apply map_Forall_insert_2.
Qed.

Lemma does_seq {A B} c i ps q (m : M A) (k : A -> M B) Q :
  does c i ps q m (fun c' q' a => does c' i ps q' (k a) Q) -> does c i ps q (m ≫= k) Q.
Proof. intros H. eapply does_bind; [exact H|]. auto. Qed.

End Exchange.

(** Walk forward through a computation, its branches decided by rewriting. *)
Ltac doing :=
  repeat first
    [ lazymatch goal with
      | |- does _ _ _ _ (get ≫= _) _ => let s := fresh "s" in let H := fresh "At" in apply does_get; intros s H
      | |- does _ _ _ _ (_ ≫= _) _ => apply does_seq
      | |- does _ _ _ _ (mret _) _ => apply does_ret
      | |- does _ _ _ _ (peer_at _) _ => apply does_peer
      | |- does _ _ _ _ (upd_peer _ _) _ => apply does_upd
      | |- does _ _ _ _ (set_epochs _ _) _ => apply does_upd
      | |- does _ _ _ _ draw _ => apply does_draw
      | |- does _ _ _ _ (sample _) _ => apply does_sample
      | |- does _ _ _ _ update_stats _ => apply does_stats
      | |- does _ _ _ _ (modify (fun s => s <| by_tag ::= _ |>)) _ => apply does_tag
      end
    | progress cbv zeta ].

Section Handshake.
Context {snow : Snow} {kem : MlKem} {aead : Sess.Aead} {D T : Type} {MP : ManagedPlane D} {RV : Rendezvous T}.
Context {blake : Blake2s} {ed : Ed25519} {iter : HashIter} {sip : SipHash24} {os : Os}.
Notation PeerManager := (PeerManager D T).
Notation Peer := (Peer D).
Notation M := (M PeerManager).
Notation does := (does (D := D) (T := T)).
Implicit Types (s : PeerManager) (p q : Peer).

(** ** The initiator *)

Lemma does_own_cert c i ps q (Q : Config -> Peer -> list u8 -> Prop) : Q c q [] -> does c i ps q own_cert_payload Q.
Proof. intros HQ. unfold own_cert_payload. doing. destruct At as [[] _]. rewrite pl_mem0. by doing. Qed.

Lemma does_make_init c i ps q pk (Q : Config -> Peer -> result (Hs.Handshake * list u8) Hs.HsError -> Prop) :
  Q (drawn c 3) q (Hs.start_initiator (1 + c_draws c) (2 + c_draws c) (c_priv c) pk
                     (Hs.frame_init_payload (os_wall_ns (c_draws c)) [])) ->
  does c i ps q (make_init pk) Q.
Proof.
  intros HQ. unfold make_init, wall_ns. apply does_seq, does_own_cert. doing.
  destruct At as (_ & Hc & _). replace (local_priv s) with (c_priv c); [exact HQ|].
  apply (f_equal c_priv) in Hc. symmetry. exact Hc.
Qed.

(** The state of a peer whose initiation is on its way. *)
Definition initiating (h : Hs.Handshake) (init : list u8) (target : SocketAddr) (now : N) : PeerState D :=
  Handshaking (mkHandshaking h now now HANDSHAKE_RETRY_MS 0 init target false).

Lemma does_begin c i ps q target now h init (Q : Config -> Peer -> option (list EgressDatagram) -> Prop) :
  Hs.start_initiator (1 + c_draws c) (2 + c_draws c) (c_priv c) (pubkey q)
    (Hs.frame_init_payload (os_wall_ns (c_draws c)) []) = Ok (h, init) ->
  Q (drawn c 3) (q <| endpoint := Some target |> <| state := initiating h init target now |>) (Some [mkEgress 0 target init]) ->
  does c i ps q (begin_handshake i target false now) Q.
Proof.
  intros Hi HQ. unfold begin_handshake. doing. apply does_make_init. rewrite Hi. doing. unfold retry_interval. doing.
  destruct At as [[] _]. rewrite pl_obf0. doing. destruct At as [[] _]. rewrite pl_obf1. by doing.
Qed.

Lemma does_gate c i ps q inner (Q : Config -> Peer -> bool -> Prop) : Q c q false -> does c i ps q (split_gate inner) Q.
Proof.
  intros HQ. unfold split_gate. doing. destruct At as [[] _].
  destruct (Split.extract_ip_dst inner); [unfold Split.should_bypass; rewrite pl_split0; cbn [negb]|];
    (doing; apply does_modify; [intros x ([] & ? & ? & ?); by split; [constructor|]|]; by doing).
Qed.

Lemma does_on_tun c i ps q inner now target h init (Q : Config -> Peer -> list EgressDatagram -> Prop) :
  (forall s, at_peer c i ps q s -> route_tun_index s inner = Some i) ->
  state q = Idle -> endpoint q = Some target -> pending_tun q = [] ->
  Hs.start_initiator (1 + c_draws c) (2 + c_draws c) (c_priv c) (pubkey q)
    (Hs.frame_init_payload (os_wall_ns (c_draws c)) []) = Ok (h, init) ->
  Q (drawn c 3) (q <| pending_tun := [inner] |> <| endpoint := Some target |> <| state := initiating h init target now |>)
    [mkEgress 0 target init] ->
  does c i ps q (on_tun inner now) Q.
Proof.
  intros Hr Hs He Hp Hi HQ. unfold on_tun. doing. destruct At as [[] _]. rewrite pl_jitter0, pl_queue0, pl_obf0. cbn [N.eqb andb].
  unfold on_tun_dispatch. apply does_seq, does_gate. unfold route_or_resolve. doing. rewrite (Hr _ At). doing. rewrite Hs. doing.
  destruct At0 as [[] _]. rewrite pl_rdv1. doing. rewrite He. doing. apply (does_begin _ _ _ _ _ _ h init); [done|].
  doing. unfold push_pending in *. rewrite Hp. exact HQ.
Qed.

(** ** Completion *)

(** What the sessions of a peer just established look like. *)
Definition just_established q (e : Epochs D) (d : D) (now : N) q' : Prop :=
  state q' = Established e /\ (exists r, e = Epochs.new (plane_set_ratio d r) now) /\
  endpoint q' = endpoint q /\ relay q' = relay q /\ pubkey q' = pubkey q.

Lemma does_record c i ps q e (Q : Config -> Peer -> unit -> Prop) :
  state q = Established e -> Q c (q <| state := Established e |>) tt -> does c i ps q (record_new_epoch i) Q.
Proof.
  intros He HQ. unfold record_new_epoch. doing. rewrite He. destruct At as [[] _]. rewrite pl_shards0. cbn [N.ltb N.compare Pos.compare Pos.compare_cont].
  doing. destruct (mp_raw_keys _), (mp_wire_keys _). apply does_modify; [|done]. intros x ([] & ? & ? & ?). by split; [constructor|].
Qed.

Lemma does_establish_none c i ps q d now (Q : Config -> Peer -> list EgressDatagram -> Prop) :
  pending_tun q = [] -> (forall q' e, just_established q e d now q' -> Q c q' []) ->
  does c i ps q (establish i d true now) Q.
Proof.
  intros Hp HQ. unfold establish, take_pending. doing. rewrite Hp. cbn [drain_pending fold_left]. doing. cbn [fst snd].
  eapply does_record; [reflexivity|]. doing. eapply HQ. split; [reflexivity|]. split; [by eexists|done].
Qed.

Lemma does_establish_one c i ps q d now inner d' out (Q : Config -> Peer -> list EgressDatagram -> Prop) :
  pending_tun q = [inner] -> mp_on_tun d inner now = Ret (d', out) ->
  (forall q' e, just_established q e d' now q' -> Q c q' out) ->
  does c i ps q (establish i d true now) Q.
Proof.
  intros Hp Hd HQ. unfold establish, take_pending. doing. rewrite Hp. cbn [drain_pending fold_left]. doing. cbn [fst snd].
  eapply does_lift; [exact Hd|]. doing. cbn [fst snd app].
  eapply does_record; [reflexivity|]. doing. eapply HQ. split; [reflexivity|]. split; [by eexists|done].
Qed.

(** ** The responder *)

Lemma does_cert_admits c i ps q payload pk (Q : Config -> Peer -> bool -> Prop) :
  Q c q true -> does c i ps q (cert_admits payload pk) Q.
Proof.
  intros HQ. unfold cert_admits, is_root, responder_cert_ok. doing. destruct At as [[] _]. rewrite pl_mem0.
  doing. destruct At as [[] _]. rewrite pl_mem1. by doing.
Qed.

Lemma does_on_init c i ps q src init now est resp w (Q : Config -> Peer -> DispatchOut -> Prop) :
  Hs.start_responder (c_draws c) (1 + c_draws c) (c_priv c) init [] = Ok (est, resp, pubkey q, Hs.frame_init_payload w []) ->
  position (fun p => bool_decide (pubkey p = pubkey q)) (<[i := q]> ps) = Some i ->
  state q = Idle -> pending_tun q = [] -> last_accepted_init_ts q = None ->
  Hs.label_lt (c_floor c) (Hs.now_tai64n w) = true ->
  (forall q' e d, d = mp_new est (Hs.conn_tag_from_keys (Hs.auth_key est) (Hs.hp_key est)) (c_mode c) src false (c_symbol c) ->
     state q' = Established e -> (exists r, e = Epochs.new (plane_set_ratio d r) now) ->
     endpoint q' = Some src -> relay q' = false -> Q (drawn c 2) q' (OutUdp [mkEgress 0 src resp])) ->
  does c i ps q (handle_handshake_init src init now) Q.
Proof.
  intros Hi Hpos Hs Hp Hts Hf HQ. unfold handle_handshake_init. apply does_seq, does_own_cert. doing.
  assert (local_priv s = c_priv c) as ->.
  { destruct At as (_ & Hc & _). by apply (f_equal c_priv) in Hc. }
  change (c_draws (drawn c 1)) with (1 + c_draws c). rewrite Hi, Hs.parse_frame. apply does_seq. unfold admit_initiator. doing.
  destruct At0 as (_ & _ & Ep & _). rewrite Ep, Hpos. clear Ep s0. doing. destruct At0 as ([] & Hc & _). rewrite Hs. unfold is_idle. rewrite Hs. cbn [negb andb].
  apply does_seq, does_cert_admits. cbn [negb].
  assert (accept_fresh_init s0 q (Hs.now_tai64n w) = true) as ->.
  { unfold accept_fresh_init. rewrite Hts. apply (f_equal c_floor) in Hc. cbn in Hc. by rewrite Hc. }
  cbn [negb]. doing. apply does_establish_none; [exact Hp|]. intros q' e (H1 & H2 & H3 & H4 & _). doing.
  eapply (HQ q' e _ eq_refl H1); [|done|done]. destruct H2 as [r ->]. exists r. do 2 f_equal. unfold new_plane.
  rewrite pl_obf0. apply (f_equal (fun c => (c_mode c, c_symbol c))) in Hc. by injection Hc as -> ->.
Qed.

(** ** The answer *)

Lemma does_on_resp c i ps q src resp now h init t0 inner est d' out (Q : Config -> Peer -> DispatchOut -> Prop) :
  (forall j p, ps !! j = Some p -> endpoint p = Some src -> j = i) ->
  endpoint q = Some src -> state q = initiating h init src t0 -> pending_tun q = [inner] ->
  Hs.read_response h resp = Ok (est, []) ->
  mp_on_tun (mp_new est (Hs.conn_tag_from_keys (Hs.auth_key est) (Hs.hp_key est)) (c_mode c) src false (c_symbol c)) inner now
    = Ret (d', out) ->
  (forall q', is_established q' = true -> Q c q' (udp_or_none out)) ->
  does c i ps q (handle_handshake_resp src resp now) Q.
Proof.
  intros Hu He Hs Hp Hr Hd HQ. unfold handle_handshake_resp. doing.
  assert (forall j p, peers s !! j = Some p -> endpoint p = Some src -> j = i) as Hu'.
  { destruct At as (_ & _ & -> & Hi & _). intros j p. destruct (decide (j = i)) as [->|Hne]; [done|].
    rewrite list_lookup_insert_ne by done. apply Hu. }
  pose proof (at_lookup _ _ _ _ _ At) as Hq.
  rewrite position_none.
  2: { intros j p Hj. destruct (bool_decide (endpoint p = Some src)) eqn:E; [|done]. apply bool_decide_eq_true in E.
       assert (p = q) as -> by (rewrite (Hu' j p Hj E) in Hj; congruence). unfold rekey_pending. by rewrite Hs. }
  rewrite (position_sole _ _ i q Hq).
  2: { unfold is_handshaking. rewrite Hs, He. by rewrite bool_decide_true. }
  2: { intros j p Hj E. apply andb_prop in E as [E%bool_decide_eq_true _]. by eapply Hu'. }
  doing. rewrite Hs. cbn [initiating h_hs]. rewrite Hr. apply does_seq, does_cert_admits. cbn [negb]. doing.
  eapply does_establish_one; [exact Hp| |].
  - unfold new_plane. destruct At as ([] & Hc & _). rewrite pl_obf0, <- Hd. by rewrite <- Hc.
  - intros q' e (H1 & _). doing. apply HQ. unfold is_established. by rewrite H1.
Qed.

(** ** Data *)

(** A session of one epoch with the data plane [d], reached from [src]. *)
Definition in_session (src : SocketAddr) (d : D) q : Prop :=
  endpoint q = Some src /\ exists e, state q = Established e /\ current e = d /\ next e = None /\ previous e = None.

Definition out_of_plane (o : EpochInbound EgressDatagram) : DispatchOut :=
  match o with
  | InNone => OutNone
  | InTun b => OutTun b
  | InSend l => OutUdp l
  | InTunThenSend b l => OutBoth b l
  end.

Lemma inbound_one (e : Epochs D) dg now d' o :
  next e = None -> previous e = None -> plane_open (current e) dg now = Ret (d', o) ->
  Epochs.inbound_open e dg now = Ret (Epochs.set_current e d', o).
Proof.
  intros Hn Hp Ho. unfold Epochs.inbound_open. rewrite Ho. cbn [rbind].
  destruct (is_none o) eqn:En; cbn [negb]; [|done]. cbn [next Epochs.set_current]. rewrite Hn.
  unfold Epochs.open_previous. cbn [previous Epochs.set_current]. rewrite Hp. by destruct o.
Qed.

Lemma does_open c i ps q e dg now d' o (Q : Config -> Peer -> EpochInbound EgressDatagram -> Prop) :
  next e = None -> previous e = None -> plane_open (current e) dg now = Ret (d', o) ->
  Q c (q <| state := Established (Epochs.set_current e d') |>) o ->
  does c i ps q (open_session i e dg now) Q.
Proof.
  intros Hn Hp Ho HQ. unfold open_session. doing. eapply does_lift; [by apply inbound_one|]. cbv beta iota. doing.
  assert (forall b x (R : Config -> Peer -> unit -> Prop) c' q', R c' q' tt -> does c' i ps q' (when b (sample x)) R) as Hw.
  { intros [] x R c' q' HR; cbn [when]; by doing. }
  apply Hw. doing. apply Hw. cbn [epoch Epochs.set_current]. rewrite N.eqb_refl. cbn [negb when]. by doing.
Qed.

Lemma does_relearn c i ps q src (Q : Config -> Peer -> unit -> Prop) :
  endpoint q = Some src -> Q c q tt -> does c i ps q (relearn_endpoint i src) Q.
Proof.
  intros He HQ. unfold relearn_endpoint. doing. destruct (relay q); [by doing|]. rewrite He.
  rewrite bool_decide_false by (intros H; by apply H). by doing.
Qed.

Lemma does_data c i ps q src wire now d d' o (Q : Config -> Peer -> DispatchOut -> Prop) :
  (forall j p, ps !! j = Some p -> j <> i -> is_established p = false) ->
  in_session src d q -> plane_open d (PACKET_DATA :: wire) now = Ret (d', o) ->
  (forall q', in_session src d' q' -> Q c q' (out_of_plane o)) ->
  does c i ps q (on_udp src (PACKET_DATA :: wire) now) Q.
Proof.
  intros Hno (He & e & Hs & <- & Hn & Hp) Ho HQ.
  assert (forall j p, <[i := q]> ps !! j = Some p -> is_established p = true -> j = i) as Hu.
  { intros j p. destruct (decide (j = i)) as [->|Hne]; [done|]. rewrite list_lookup_insert_ne by done.
    intros Hj E. by rewrite (Hno j p Hj Hne) in E. }
  unfold on_udp. doing.
  destruct At as [[] _]. rewrite pl_obf0, pl_queue0. unfold on_udp_dispatch. doing. destruct At as [[] _]. rewrite pl_rdv1, pl_mem1.
  assert (forall t, t <> Data -> is_type PACKET_DATA t = false) as Ht by (by intros []).
  rewrite !Ht by done. cbn [andb]. unfold handle_data_or_control.
  eapply does_bind with (R := fun c' q' a => c' = c /\ q' = q /\ a = Some i).
  - unfold route_data. doing. destruct At as (_ & _ & Ep & Hi & Htag).
    assert (position (from_endpoint src) (peers s1) = Some i) as Hpos.
    { apply (position_sole _ _ i q); [rewrite Ep; by apply list_lookup_insert_eq| |].
      - unfold from_endpoint, is_established. by rewrite He, Hs, bool_decide_true.
      - intros j p Hj [_ E]%andb_prop. rewrite Ep in Hj. eauto. }
    destruct (_ && _); [|by doing]. destruct (by_tag s1 !! _) as [j|] eqn:Ej; [|by doing].
    intros x Hx. assert (is_Some (peers x !! j)) as [p Hj].
    { destruct Hx as (_ & _ & -> & _). apply lookup_lt_is_Some. rewrite length_insert. by eapply Htag. }
    exists x. eexists _, c, q. split; [unfold peer_at, mbind, M_bind, get; cbn [rbind]; by rewrite Hj|]. split; [done|].
    split; [done|]. split; [done|]. destruct (is_established p) eqn:E; [|done]. f_equal.
    destruct Hx as (_ & _ & Ex & _). rewrite Ex in Hj. eauto.
  - intros c' q' a (-> & -> & ->). unfold is_type at 1. rewrite bool_decide_true by done. doing.
    unfold dispatch_established. doing. change (state (q <| last_activity_ms := now |>)) with (state q). rewrite Hs. doing.
    eapply does_open; [done..|]. doing. unfold count_rx.
    destruct o; cbn [is_none negb when out_of_plane]; doing; try (apply does_relearn; [done|]); doing; apply HQ;
      (split; [done|]; by exists (Epochs.set_current e d')).
Qed.

End Handshake.
End Exchange.

Module First.
Import Pm Tbl Obfs Rekeys Cold Route Disp Exchange.
#[local] Existing Instances Keyed.keyed_plane Keyed.managed_plane Keyed.managed_laws.

(** ** Labels and the floor at boot *)

(** A host started at [w] accepts the label of an initiation at [w'] when its
    clock was at most five seconds ahead. *)
Lemma floor_admits w w' :
  Hs.wall_ok w -> Hs.wall_ok w' -> (0 < w')%N -> (w < w' + 5000000000)%N ->
  Hs.label_lt (Hs.tai64n_sub_duration (Hs.now_tai64n w) 5 0) (Hs.now_tai64n w') = true.
Proof.
  intros Hw Hw' Hpos Hlt. unfold Hs.label_lt. rewrite Hs.now_tai64n_value by done. apply N.ltb_lt.
  assert (w / 1000000000 < 2 ^ 62)%N as Hq by (apply N.Div0.div_lt_upper_bound; unfold Hs.wall_ok in Hw; lia).
  pose proof (N.mod_lt w 1000000000 ltac:(lia)) as Hm. pose proof (N.mod_lt w' 1000000000 ltac:(lia)) as Hm'.
  pose proof (N.Div0.div_mod w 1000000000) as Ew. pose proof (N.Div0.div_mod w' 1000000000) as Ew'.
  unfold Hs.tai64n_sub_duration, Hs.now_tai64n. rewrite take_app_length', drop_app_length' by (by rewrite length_to_be_bytes).
  unfold wrap64, u64_mod. rewrite (N.mod_small (_ + _) (2 ^ 64)) by lia.
  rewrite !from_to_be_bytes_small by (change (256 ^ N.of_nat 8)%N with (2 ^ 64)%N || change (256 ^ N.of_nat 4)%N with (2 ^ 32)%N; lia).
  set (qw := (w / 1000000000)%N) in *. set (qw' := (w' / 1000000000)%N) in *.
  set (rw := (w mod 1000000000)%N) in *. set (rw' := (w' mod 1000000000)%N) in *.
  rewrite (proj2 (N.ltb_ge rw 0)) by lia. rewrite (proj2 (N.ltb_ge (qw + 2 ^ 62) _)) by lia. cbn [orb].
  destruct (N.ltb_spec (qw + 2 ^ 62 - 5) (2 ^ 62)) as [Hs|Hs];
    rewrite Hs.from_be_bytes_app, length_to_be_bytes, !from_to_be_bytes_small
      by (change (256 ^ N.of_nat 8)%N with (2 ^ 64)%N || change (256 ^ N.of_nat 4)%N with (2 ^ 32)%N; lia);
    change (256 ^ N.of_nat 4)%N with (2 ^ 32)%N; lia.
Qed.

Section First.
Context {cpu : Cpu} {snow : Snow} {kem : MlKem} {aead : Sess.Aead} {wire_sip : SipHash} {T : Type} {RV : Rendezvous T}.
Context {blake : Blake2s} {ed : Ed25519} {iter : HashIter} {sip : SipHash24} {os : Os}.
Notation PeerManager := (PeerManager KeyedPlane T).
Notation Peer := (Peer KeyedPlane).
Notation M := (M PeerManager).
Implicit Types (s : PeerManager) (p q : Peer).

(** ** A run of data through the manager *)

Definition out_of_outcome (o : Dp.Outcome (Addr := SocketAddr)) : DispatchOut := out_of_plane (own o).

Lemma steps_data c i ps q s src d arrivals b' outs :
  (forall j p, ps !! j = Some p -> j <> i -> is_established p = false) ->
  at_peer c i ps q s -> in_session src d q -> Tunnel.receive (kp d) arrivals = Ret (b', outs) ->
  exists s', steps (map (fun a => Udp src (PACKET_DATA :: a.1) a.2) arrivals) s = Ret (s', map out_of_outcome outs).
Proof.
  intros Hno. revert q s d outs. induction arrivals as [|[wire t] l IH]; intros q s d outs Hat Hq; cbn [Tunnel.receive map].
  { intros [= <- <-]. by eexists. }
  destruct (Dp.on_udp_datagram (kp d) (PACKET_DATA :: wire) t) as [[d1 o]|] eqn:E; [|done]. cbn [rbind].
  destruct (Tunnel.receive d1 l) as [[d2 os_]|] eqn:El; [|done]. cbn [rbind]. intros [= <- <-].
  destruct (does_data c i ps q src wire t d (Keyed.with_plane d d1) (own o)
    (fun c' q' a => c' = c /\ in_session src (Keyed.with_plane d d1) q' /\ a = out_of_outcome o) Hno Hq) with (s := s)
    as (s1 & a & c1 & q1 & E1 & H1 & -> & Hq1 & ->); [| |done|].
  - cbn [plane_open Keyed.keyed_plane dataplane_plane mp_plane Keyed.managed_plane]. by rewrite E.
  - by intros q' Hq'.
  - destruct (IH q1 s1 (Keyed.with_plane d d1) os_ H1 Hq1 El) as (s2 & E2). exists s2.
    cbn [steps step fst snd map]. unfold mbind, M_bind. rewrite E1. cbn [rbind]. by rewrite E2.
Qed.

(** ** Managers at their start *)

(** The table of a manager that knows these peers. *)
Definition table_of (only_relay : bool) (cfgs : list PeerConfig) : list Peer :=
  map (fun c => fresh_peer (public_key c) (pc_endpoint c) true (start_path only_relay false (option_list (pc_endpoint c)) 0) None) cfgs.

Lemma configured_at cfgs s :
  rendezvous s = None ->
  let s' := fold_left push_configured cfgs s in
  peers s' = peers s ++ table_of (relay_only s) cfgs /\ (plain s -> plain s') /\ by_tag s' = by_tag s /\
  exists m, config_of s' = config_of (s <| by_addr := m |>).
Proof.
  revert s. induction cfgs as [|x l IH]; intros s Hr; cbn [fold_left table_of map].
  { rewrite app_nil_r. split_and!; try done. by exists (by_addr s). }
  destruct (IH (push_configured s x)) as (H1 & H2 & H3 & m & H4); [done|]. split_and!.
  - rewrite H1. cbn [push_configured push_peer]. unfold push_configured, push_peer, has_rdv. rewrite Hr. cbn.
    by rewrite <- app_assoc.
  - intros []. apply H2. by constructor.
  - by rewrite H3.
  - exists m. rewrite H4. done.
Qed.

Lemma new_manager_at priv pub cfgs md only interval s0 i x :
  cfgs !! i = Some x ->
  exists s m, new_manager priv pub cfgs md None None only interval s0 = Ret (s, tt) /\
    at_peer (mkConfig priv pub md (Hs.tai64n_sub_duration (Hs.now_tai64n (os_wall_ns (2 + draws s0))) 5 0)
               DEFAULT_DATA_SYMBOL_SIZE m (3 + draws s0)) i (table_of only cfgs)
      (fresh_peer (public_key x) (pc_endpoint x) true (start_path only false (option_list (pc_endpoint x)) 0) None) s.
Proof.
  intros Hx.
  set (e := empty_manager priv pub md None None only interval (N.min (os_wall_ns (draws s0) / 1000000) (u64_mod - 1))
    (os_random (1 + draws s0)) (os_wall_ns (2 + draws s0)) (3 + draws s0) : PeerManager).
  destruct (configured_at cfgs e) as (Hp & Hpl & Ht & m & Hc); [done|].
  exists (fold_left push_configured cfgs e), m. split; [reflexivity|]. split; [by apply Hpl; constructor|]. split; [by rewrite Hc|].
  assert (table_of only cfgs !! i = Some (fresh_peer (public_key x) (pc_endpoint x) true
    (start_path only false (option_list (pc_endpoint x)) 0) None)) as Hi by (unfold table_of; by rewrite list_lookup_fmap, Hx).
  split; [by rewrite Hp, list_insert_id|]. split; [by eapply lookup_lt_Some|]. rewrite Ht. apply map_Forall_empty.
Qed.

(** ** Data planes at their start *)

Definition first_plane (est : Hs.Established) (md : TunnelMode) (a : SocketAddr) : KeyedPlane :=
  mp_new est (Hs.conn_tag_from_keys (Hs.auth_key est) (Hs.hp_key est)) md a false DEFAULT_DATA_SYMBOL_SIZE.

(** The class of the first packet of a session. *)
Definition first_class (md : TunnelMode) (inner : list u8) (now : N) : FlowClass :=
  match Classify.classify (Classify.new []) inner (match md with L2Tap => true | L3Tun => false end) now with
  | Ret (_, class) => class
  | Panic => Default
  end.

Lemma first_codable (ct : list u8) (fp : FlowParams) : 0 < length ct -> (N.of_nat (length ct) <= 65551)%N -> symbol_size fp = 1200%N -> codable ct fp.
Proof.
  intros H0 Hl Hs. split; [done|]. split; [unfold MAX_OBJECT_SIZE; lia|]. rewrite Hs. split; [done|].
  unfold source_count. rewrite Nat2N.id. change (N.to_nat 1200) with 1200. cbn [Nat.eqb].
  apply Nat.Div0.div_lt_upper_bound. lia.
Qed.

Lemma first_sends {laws : Sess.AeadLaws} est md a inner now :
  Sess.replay (Hs.session est) = Replay.window_new -> Sess.send_counter (Hs.session est) = 0%N -> Sess.stride (Hs.session est) = 1%N ->
  (forall k n, is_Some (Sess.aead_seal k n inner)) -> DpWf.clock now -> (N.of_nat (length inner) <= 65535)%N ->
  exists d dgs, Dp.on_tun_packet (kp (first_plane est md a)) inner now = Ret (d, dgs) /\
    Tunnel.sends (kp (first_plane est md a)) inner now dgs /\ Forall (fun x => Dp.dst x = a) dgs.
Proof.
  intros Hr Hc Hst Hseal Hclk Hlen. assert (DpWf.dp_wf (kp (first_plane est md a))) as Hwf by (by apply DpWf.new_wf).
  destruct (DpWf.on_tun_ok (kp (first_plane est md a)) inner now Hwf Hclk) as (d & dgs & E & _); [unfold u32_mod; lia|].
  exists d, dgs. split; [done|]. enough (dgs <> [] /\ Forall (fun x => Dp.dst x = a) dgs) as [Hne Hdst].
  { split; [|done]. split; [done|done|unfold MAX_OBJECT_SIZE; lia| |by vm_compute|eauto|done]. cbn. eapply N.lt_le_trans; [apply from_be_bytes_lt|]. rewrite length_take. unfold u64_mod. change (2 ^ 64)%N with (256 ^ 8)%N.
    apply N.pow_le_mono_r; lia. }
  revert E. unfold Dp.on_tun_packet. destruct (Dp.learn_source _ _ _ _ _) as [d1|] eqn:El; [|done]. cbn [rbind].
  destruct (Tunnel.learn_source_ret _ _ _ _ _ _ El) as [m ->]. unfold Sess.seal_into, Sess.seal_append, Sess.next_counter.
  cbn [Dp.session Dp.set_mac kp first_plane mp_new Keyed.managed_plane Keyed.new Dp.new]. rewrite Hc, Hst.
  destruct (Hseal (Sess.send_key (Hs.session est)) (Sess.noise_nonce 0)) as [[c0 tag] Es]. rewrite Es. cbn [N.add N.ltb].
  destruct (Sess.seal_lengths _ _ _ _ _ Es) as [Hc0 Ht]. change (0 + 1 <? u64_mod)%N with true. cbv iota.
  cbn [Dp.transport Dp.set_session Dp.set_mac Dp.new Dp.l2].
  assert (length (c0 ++ tag) = length inner + 16) as Hct by (rewrite length_app; lia).
  destruct (Tp.encode_ok (Tp.new [] DEFAULT_DATA_SYMBOL_SIZE) (c0 ++ tag) inner (match md with L2Tap => true | L3Tun => false end) now)
    as (tp & class & rep & syms & -> & _ & _ & _ & Hb); [by apply Tp.tp_new_wf|done|rewrite Hct; unfold u32_mod; lia|].
  cbn [rbind]. intros [= _ <-]. split.
  2: { apply Forall_forall. intros x (y & -> & _)%list_elem_of_fmap. done. }
  intros Hnil%map_eq_nil. subst syms.
  assert (codable (c0 ++ tag) (Tp.params_for (Tp.new [] DEFAULT_DATA_SYMBOL_SIZE) class)) as Hcod
    by (apply first_codable; [rewrite Hct; lia|rewrite Hct; lia|done]).
  destruct (build_codable (c0 ++ tag) _ (next_object_id (encoder (Tp.new [] DEFAULT_DATA_SYMBOL_SIZE))) rep Hcod) as [_ Hb'].
  rewrite Hb in Hb'. injection Hb' as Hnil%eq_sym%map_eq_nil. apply (f_equal length) in Hnil. rewrite length_seq in Hnil.
  pose proof (codable_k _ _ Hcod) as Hk. cbn [length Tp.params_for symbol_size t_symbol_size Tp.new] in Hnil, Hk. lia.
Qed.

(** The two ends of a handshake, the receiver's redundancy set. *)
Lemma first_expects est_i est_r md a b r class :
  Hs.mirrors est_i est_r ->
  Tunnel.expects (kp (plane_set_ratio (first_plane est_r md b) r)) (kp (first_plane est_i md a)) class [] [0%N].
Proof.
  intros (_ & _ & Ha & Hh & Hk & _ & Hi & _ & _ & _ & _ & Hr).
  split; cbn -[max_objects]; try done.
  - apply DpWf.set_transport_wf; [by apply DpWf.new_wf|]. apply Tp.set_fec_repair_ratio_wf, Tp.tp_new_wf. done.
  - by rewrite Ha, Hh.
  - by rewrite Hr.
  - apply not_elem_of_nil.
  - rewrite Hi. repeat constructor; vm_compute; discriminate.
  - unfold Tp.reassembler_for. cbn [reassemblers Tp.set_fec_repair_ratio Tp.new]. rewrite lookup_empty. cbn. lia.
  - intros j [x Hj]. exfalso. revert Hj. unfold Tp.reassembler_for. cbn [reassemblers Tp.set_fec_repair_ratio Tp.new].
    rewrite lookup_empty. cbn. by rewrite lookup_empty.
Qed.

(** ** The exchange *)

Lemma route_stable c i ps q s s' inner :
  at_peer c i ps q s -> at_peer c i ps q s' -> route_tun_index s' inner = route_tun_index s inner.
Proof.
  intros ([] & Hc & Hp & _) ([] & Hc' & Hp' & _). unfold route_tun_index, sole_peer.
  assert (mode s' = mode s /\ by_addr s' = by_addr s) as [-> ->].
  { rewrite <- Hc' in Hc. apply (f_equal (fun c => (c_mode c, c_addr c))) in Hc. by injection Hc as -> ->. }
  by rewrite pl_mem0, pl_mem1, Hp, Hp'.
Qed.

Lemma table_of_key cfgs only i x :
  NoDup (public_key <$> cfgs) -> cfgs !! i = Some x ->
  position (fun p => bool_decide (pubkey p = public_key x))
    (<[i := fresh_peer (public_key x) (pc_endpoint x) true (start_path only false (option_list (pc_endpoint x)) 0) None]> (table_of only cfgs))
  = Some i.
Proof.
  intros Hd Hx. rewrite list_insert_id by (unfold table_of; by rewrite list_lookup_fmap, Hx).
  eapply position_sole; [unfold table_of; by rewrite list_lookup_fmap, Hx|by apply bool_decide_eq_true|].
  intros j p Hj Hk%bool_decide_eq_true. unfold table_of in Hj. apply list_lookup_fmap_Some in Hj as (y & -> & Hy). cbn in Hk.
  apply (NoDup_lookup (public_key <$> cfgs) j i (public_key y)); [done|by rewrite list_lookup_fmap, Hy|by rewrite list_lookup_fmap, Hx, Hk].
Qed.

(** What is sent of a packet: data frames, at least one for each source symbol. *)
Lemma sent_shape {laws : Sess.AeadLaws} (d : Dp.DataPlane (Addr := SocketAddr)) inner now dgs :
  Tunnel.sends d inner now dgs ->
  Forall (fun x => exists wire, Dp.bytes x = PACKET_DATA :: wire) dgs /\
  source_count (N.of_nat (length inner + 16)) (t_symbol_size (Dp.transport d)) <= length dgs.
Proof.
  intros Hsd. destruct (Tunnel.on_tun_sent d inner now dgs Hsd) as (ct & r & scheme & _ & Hct & _ & _ & _ & Hdgs). cbv zeta in Hdgs. split.
  - apply Forall_forall. intros x Hx. assert (Dp.bytes x ∈ map Dp.bytes dgs) as Hin by (apply list_elem_of_fmap; eauto).
    rewrite Hdgs in Hin. apply list_elem_of_fmap in Hin as (i & -> & _). by eexists.
  - apply (f_equal length) in Hdgs. rewrite !length_map, length_seq in Hdgs. rewrite Hdgs, Hct. cbn. lia.
Qed.

(** The arrivals: some of the datagrams sent, in any order and number, within
    the deadline of the packet's class. *)
Definition in_flight (dgs : list EgressDatagram) (class : FlowClass) (start : N) (a : list u8 * N) : Prop :=
  DpWf.clock a.2 /\ (start <= a.2 <= Tunnel.limit class start)%N /\ PACKET_DATA :: a.1 ∈ map Dp.bytes dgs.

Definition delivered (inner : list u8) (outs : list DispatchOut) : Prop :=
  exists n, outs !! n = Some (OutTun inner) /\ forall m o, outs !! m = Some o -> m <> n -> o = OutNone.

Lemma once_delivered {laws : Sess.AeadLaws} d inner now dgs class start arrivals outs :
  Tunnel.sends d inner now dgs -> Forall (in_flight dgs class start) arrivals -> length outs = length arrivals ->
  Tunnel.delivered_once (Dp.codec d) (Sess.send_counter (Dp.session d)) inner arrivals outs ->
  delivered inner (map out_of_outcome outs).
Proof.
  intros Hsd Harr Hlen (n & wire & t & Hn & _ & Ho & Hother). exists n. split; [by rewrite list_lookup_fmap, Ho|].
  intros m o Hm Hne. apply list_lookup_fmap_Some in Hm as (x & -> & Hx).
  destruct (lookup_lt_is_Some_2 arrivals m) as [[w t'] Hw]; [rewrite <- Hlen; by eapply lookup_lt_Some|].
  rewrite (Hother m w t' x Hw) by (done || (destruct (proj1 (Forall_forall _ _) Harr (w, t')) as (_ & _ & Hin);
    [by eapply list_elem_of_lookup_2|by eapply Tunnel.sent_of_packet])). done.
Qed.

Lemma step_tun c i ps q s inner now target h init :
  at_peer c i ps q s -> route_tun_index s inner = Some i ->
  state q = Idle -> endpoint q = Some target -> pending_tun q = [] ->
  Hs.start_initiator (1 + c_draws c) (2 + c_draws c) (c_priv c) (pubkey q)
    (Hs.frame_init_payload (os_wall_ns (c_draws c)) []) = Ok (h, init) ->
  exists s' q', step (Tun inner now) s = Ret (s', OutUdp [mkEgress 0 target init]) /\ at_peer (drawn c 3) i ps q' s' /\
    endpoint q' = Some target /\ state q' = initiating h init target now /\ pending_tun q' = [inner].
Proof.
  intros Hat Hr Hs He Hp Hi.
  assert (does c i ps q (on_tun inner now) (fun c' q' o => c' = drawn c 3 /\ endpoint q' = Some target /\
    state q' = initiating h init target now /\ pending_tun q' = [inner] /\ o = [mkEgress 0 target init])) as Hd.
  { eapply does_on_tun; [|done..]. intros s' Hs'. by rewrite (route_stable _ _ _ _ _ _ _ Hat Hs'). }
  destruct (Hd s Hat) as (s' & o & c' & q' & E & H' & -> & H1 & H2 & H3 & ->). exists s', q'.
  cbn [step]. unfold mbind, M_bind. by rewrite E.
Qed.

(** A handshake datagram reaches its handler. *)
Lemma on_udp_plain c i ps q s src b dg now :
  at_peer c i ps q s ->
  on_udp src (b :: dg) now s =
  (if is_type b HandshakeInit then handle_handshake_init src (b :: dg) now
   else if is_type b HandshakeResp then handle_handshake_resp src (b :: dg) now
   else handle_data_or_control src (b :: dg) now) s.
Proof.
  intros ([] & _). unfold on_udp, on_udp_dispatch, mbind, M_bind, get. cbn [rbind]. rewrite pl_obf0, pl_queue0. cbn [rbind].
  rewrite pl_rdv0, pl_mem0. cbn [andb]. by destruct (is_type b HandshakeInit), (is_type b HandshakeResp).
Qed.

Lemma step_init {SL : SnowLaws} c i ps q s src init now est resp w :
  at_peer c i ps q s ->
  Hs.start_responder (c_draws c) (1 + c_draws c) (c_priv c) init [] = Ok (est, resp, pubkey q, Hs.frame_init_payload w []) ->
  position (fun p => bool_decide (pubkey p = pubkey q)) (<[i := q]> ps) = Some i ->
  state q = Idle -> pending_tun q = [] -> last_accepted_init_ts q = None ->
  Hs.label_lt (c_floor c) (Hs.now_tai64n w) = true ->
  exists s' q' r, step (Udp src init now) s = Ret (s', OutUdp [mkEgress 0 src resp]) /\ at_peer (drawn c 2) i ps q' s' /\
    in_session src (plane_set_ratio (mp_new est (Hs.conn_tag_from_keys (Hs.auth_key est) (Hs.hp_key est)) (c_mode c) src false (c_symbol c)) r) q'.
Proof.
  intros Hat Hi Hpos Hs Hp Hts Hf.
  assert (does c i ps q (handle_handshake_init src init now) (fun c' q' o => c' = drawn c 2 /\ o = OutUdp [mkEgress 0 src resp] /\
    exists r, in_session src (plane_set_ratio (mp_new est (Hs.conn_tag_from_keys (Hs.auth_key est) (Hs.hp_key est)) (c_mode c)
      src false (c_symbol c)) r) q')) as Hd.
  { eapply does_on_init; [done..|]. intros q' e d -> H1 [r He] H3 _. split; [done|]. split; [done|]. exists r. split; [done|].
    exists e. by subst e. }
  destruct (Hd s Hat) as (s' & o & c' & q' & E & H' & -> & -> & r & H1). exists s', q', r. split; [|done]. cbn [step].
  destruct (Hs.start_responder_shape _ _ _ _ _ _ _ _ _ Hi) as (m & -> & _). erewrite on_udp_plain by done. done.
Qed.

Lemma step_resp c i ps q s src resp now h init t0 inner est d' out :
  at_peer c i ps q s ->
  (forall j p, ps !! j = Some p -> endpoint p = Some src -> j = i) ->
  endpoint q = Some src -> state q = initiating h init src t0 -> pending_tun q = [inner] ->
  Hs.read_response h resp = Ok (est, []) ->
  mp_on_tun (mp_new est (Hs.conn_tag_from_keys (Hs.auth_key est) (Hs.hp_key est)) (c_mode c) src false (c_symbol c)) inner now
    = Ret (d', out) ->
  exists s', step (Udp src resp now) s = Ret (s', udp_or_none out).
Proof.
  intros Hat Hu He Hs Hp Hr Hd.
  assert (does c i ps q (handle_handshake_resp src resp now) (fun c' q' o => o = udp_or_none out)) as Hdo.
  { eapply does_on_resp; [done..|]. done. }
  destruct (Hdo s Hat) as (s' & o & c' & q' & E & _ & ->). exists s'. cbn [step].
  unfold Hs.read_response in Hr. destruct resp as [|b msg]; [done|]. destruct (is_type b HandshakeResp) eqn:Eb; [|done].
  erewrite on_udp_plain by done. assert (is_type b HandshakeInit = false) as ->.
  { unfold is_type in *. apply bool_decide_eq_true in Eb as ->. done. }
  by rewrite Eb.
Qed.

(** C1: the first packet is delivered.  Two hosts start with each other's keys
    in their configuration, their clocks less than five seconds apart.  The
    first packet one of them reads for the other makes it send an initiation,
    which the other answers, and the answer releases the packet's datagrams.
    Whatever subset of these arrives at the other host, in any order and with
    duplicates, as long as it has K distinct ones (K the number of source
    symbols) within the deadline of the packet's class, the other host writes
    exactly that packet to its tunnel device exactly once. *)
Theorem first_packet_delivered {laws : Sess.AeadLaws} {SL : SnowLaws} {KL : MlKemLaws} pa pb cfgsA cfgsB md onlyA onlyB ivA ivB
    (a0 b0 : PeerManager) ia ib addrA addrB epA inner t0 t1 t2 :
  Hs.keys_usable -> (forall k n, is_Some (Sess.aead_seal k n inner)) -> (N.of_nat (length inner) <= 65535)%N -> DpWf.clock t2 ->
  length pa = 32 -> length pb = 32 -> length (snow_public pb) = 32 ->
  cfgsA !! ia = Some (mkPeerConfig (snow_public pb) (Some addrB)) ->
  (forall j c, cfgsA !! j = Some c -> pc_endpoint c = Some addrB -> j = ia) ->
  cfgsB !! ib = Some (mkPeerConfig (snow_public pa) epA) -> NoDup (public_key <$> cfgsB) ->
  (let w := os_wall_ns (2 + draws b0) in let w' := os_wall_ns (3 + draws a0) in
   Hs.wall_ok w /\ Hs.wall_ok w' /\ 0 < w' /\ w < w' + 5000000000)%N ->
  exists A B, new_manager pa (snow_public pa) cfgsA md None None onlyA ivA a0 = Ret (A, tt) /\
    new_manager pb (snow_public pb) cfgsB md None None onlyB ivB b0 = Ret (B, tt) /\
    (route_tun_index A inner = Some ia ->
     exists A1 init B1 resp A2 dgs,
       step (Tun inner t0) A = Ret (A1, OutUdp [mkEgress 0 addrB init]) /\
       step (Udp addrA init t1) B = Ret (B1, OutUdp [mkEgress 0 addrA resp]) /\
       step (Udp addrB resp t2) A1 = Ret (A2, OutUdp dgs) /\
       Forall (fun d => Dp.dst d = addrB /\ exists wire, Dp.bytes d = PACKET_DATA :: wire) dgs /\
       source_count (N.of_nat (length inner + 16)) DEFAULT_DATA_SYMBOL_SIZE <= length dgs /\
       forall start arrivals ids,
         Forall (in_flight dgs (first_class md inner t2) start) arrivals ->
         NoDup ids -> length ids = source_count (N.of_nat (length inner + 16)) DEFAULT_DATA_SYMBOL_SIZE ->
         (forall i, i ∈ ids -> exists dg wire t, dgs !! i = Some dg /\ Dp.bytes dg = PACKET_DATA :: wire /\ (wire, t) ∈ arrivals) ->
         exists B2 outs, steps (map (fun a => Udp addrA (PACKET_DATA :: a.1) a.2) arrivals) B1 = Ret (B2, outs) /\
           length outs = length arrivals /\ delivered inner outs).
Proof.
  intros HK Hseal Hlen Hclk Ha Hb Hpb HA HuA HB HdB (Hw & Hw' & Hpos & Hskew).
  destruct (new_manager_at pa (snow_public pa) cfgsA md onlyA ivA a0 ia _ HA) as (A & mA & EA & HatA).
  destruct (new_manager_at pb (snow_public pb) cfgsB md onlyB ivB b0 ib _ HB) as (B & mB & EB & HatB).
  exists A, B. split; [done|]. split; [done|]. intros Hroute. cbn [public_key pc_endpoint] in *.
  destruct (Hs.handshake_agreement (4 + draws a0) (5 + draws a0) (3 + draws b0) (4 + draws b0) pa pb
    (Hs.frame_init_payload (os_wall_ns (3 + draws a0)) []) []) as (h & init & resp & est_i & est_r & Hini & Hres & Hrd & Hm & Htag); [done..| |cbn; lia|].
  { unfold Hs.frame_init_payload. rewrite app_nil_r, Hs.length_now_tai64n. unfold TAI64N_LEN. lia. }
  destruct (step_tun _ _ _ _ A inner t0 addrB h init HatA Hroute) as (A1 & qA & E1 & HatA1 & HeA & HsA & HpA); [done..|].
  destruct (step_init _ _ _ _ B addrA init t1 est_r resp (os_wall_ns (3 + draws a0)) HatB) as (B1 & qB & r & E2 & HatB1 & HqB);
    [done|by apply (table_of_key cfgsB onlyB ib (mkPeerConfig (snow_public pa) epA))|done..|by apply floor_admits|].
  destruct (first_sends est_i md addrB inner t2) as (d & dgs & Etun & Hsd & Hdst); [by apply Hm|by apply Hm|by apply Hm|done..|].
  destruct (step_resp _ _ _ _ A1 addrB resp t2 h init t0 inner est_i (Keyed.with_plane (first_plane est_i md addrB) d) dgs HatA1)
    as (A2 & E3); [|done..| |].
  { intros j p Hj. unfold table_of in Hj. apply list_lookup_fmap_Some in Hj as (x & -> & Hx). by apply HuA. }
  { cbn [mp_on_tun Keyed.managed_plane c_mode c_symbol drawn]. unfold Keyed.on_tun. fold (first_plane est_i md addrB). by rewrite Etun. }
  assert (udp_or_none dgs = OutUdp dgs) as Eout by (destruct dgs; [by destruct (Tunnel.sd_some _ _ _ _ Hsd)|done]).
  rewrite Eout in E3. exists A1, init, B1, resp, A2, dgs. destruct (sent_shape _ _ _ _ Hsd) as [Hshape Hcount].
  split_and!; [done..|by apply Forall_and|exact Hcount|].
  intros start arrivals ids Harr Hn Hl Hids.
  destruct (Tunnel.tunnel_delivery (kp (first_plane est_i md addrB)) (kp (plane_set_ratio (first_plane est_r md addrA) r))
    inner t2 dgs [] [0%N] start arrivals ids Hsd) as (b' & outs & Erun & Hlen' & Honce).
  - by apply first_expects.
  - eapply Forall_impl; [exact Harr|]. intros [wire t] (H1 & H2 & H3). split; [done|]. split; [exact H2|]. intros s c class' Hc.
    destruct (Tunnel.sent_of_packet _ _ _ _ wire Hsd H3) as (s2 & class2 & Hc2). cbn [fst] in Hc. rewrite Hc in Hc2. injection Hc2 as _ -> _.
    split; [|done]. replace (Sess.send_counter _) with 0%N by (symmetry; apply Hm). by left.
  - done.
  - done.
  - done.
  - assert (forall j p, table_of onlyB cfgsB !! j = Some p -> j <> ib -> is_established p = false) as Hno.
    { intros j p Hj _. unfold table_of in Hj. by apply list_lookup_fmap_Some in Hj as (x & -> & Hx). }
    destruct (steps_data _ _ _ _ _ _ _ _ _ _ Hno HatB1 HqB Erun) as (B2 & E4).
    exists B2, (map out_of_outcome outs). split; [done|]. split; [by rewrite length_map|]. by eapply once_delivered.
Qed.

End First.
End First.
