(* ===== verification/Config.v ===== *)
(** * The configuration file

    Models bin/yipd/src/config.rs, with [TunnelMode::parse_device_kind] of
    mode.rs and the presets of yip-obf: the parser of the [key=value] format,
    its addresses, keys and rendezvous URLs, and the checks that make a parsed
    file a configuration; and the part of bin/yipd/src/tunnel.rs that builds the
    peer manager of a configuration.  Files are a parameter: the text behind a
    path, if it can be read.

    The theorems: the parser never panics; an accepted configuration satisfies
    every rule the checks stand for; and the daemon of an accepted configuration
    never panics in the event loop, whatever it receives. *)

From Stdlib Require Strings.Byte.
From Stdlib Require Import NArith Lia ZifyBool.
From stdpp Require Import base numbers gmap list sorting.
From S2P Require Import Prelude StateM Reader NetAddr StdText Session MemberCodec MemberVerify Directory DirSafe Obf RdvProto RdvClient Noise EpochPlane PmState PmTable PmPlane PmObf PmDispatch PmSafe PmRun Gso PollLoop.

Local Open Scope N_scope.

Module Cfg.
Import Text.

Definition DEFAULT_LISTEN_PORT : N := 443.
Definition FALLBACK_LISTEN_PORT : N := 8443.
Definition DEFAULT_TLS_SNI : str := lit "www.apple.com".

Inductive TransportMode := RawUdp | Quic | Tls.

Inductive Rendezvous :=
| RdvUdp (a : SocketAddr)
| RdvTls (host : str) (port : N)
| RdvReality (host : str) (port : N) (pubkey short_id : list u8) (sni : str) (verify : bool).

Record Config := mkConfig {
  local_private : list u8;
  local_public : list u8;
  peers : list PeerConfig;
  listen : SocketAddr;
  listen_port_auto : bool;
  device : str;
  device_kind : TunnelMode;
  rendezvous : option Rendezvous;
  ca_public : list (list u8);
  cert : option Cert;
  roots : option RootSet;
  member_sign_private : option (list u8);
  network_id : option (list u8);
  threshold_ca_server : option SocketAddr;
  obf_psk : option (list u8);
  cover_traffic_ms : option N;
  traffic_defense : TrafficDefenseConfig;
  transport : TransportMode;
  tls_sni : str;
  shards : N;
  control_socket : option str;
  mtu : option N;
  metrics_listen : option SocketAddr;
}.

(** One constructor for each error the source reports. *)
Inductive ConfigError :=
| HexLength (want got : nat) | HexOdd | HexDigit (b : u8)
| Unreadable (path : str) | BadCertFile (path : str) | BadRootsFile (path : str)
| UnterminatedIpv6 | Ipv6WithoutPort | NotHostPort
| RealityWithoutQuery | RealityPort | RealityParam (pair : str) | RealityDuplicate (key : str) | RealityEmptySni
| RealityVerify | RealityUnknown (key : str) | RealityMissing (key : str)
| EndpointWithoutKey | NoEquals (line : str) | BadAddress | BadListen (val : str) | BadDeviceKind (val : str)
| BadNumber | ZeroCoverTraffic | UnknownPreset (val : str) | EmptyBucket | BadBucket | ZeroCoverInterval
| UnknownTransport (val : str) | BadShards | ZeroShards | MtuRange (m : N)
| NoPeers | RootsUnverified | DefenseTransport | DefenseWithoutPsk | NoBuckets | BucketRange (b : N) | BucketOrder
| JitterRange | BurstRange (n : N) | TransportWithObf (t : TransportMode) | RelayWithoutPsk | Missing (key : str).

(** The accumulators of [Config::parse]. *)
Record Raw := mkRaw {
  w_local_private : option (list u8);
  w_local_public : option (list u8);
  w_peers : list PeerConfig;
  cur_pk : option (list u8);
  cur_ep : option SocketAddr;
  legacy_peer_public : option (list u8);
  legacy_peer_endpoint : option SocketAddr;
  w_listen : option SocketAddr;
  w_listen_port_auto : bool;
  w_device : option str;
  w_device_kind : TunnelMode;
  w_rendezvous : option Rendezvous;
  w_ca_public : list (list u8);
  w_cert : option Cert;
  w_roots : option RootSet;
  w_member_sign_private : option (list u8);
  w_network_id : option (list u8);
  w_threshold_ca_server : option SocketAddr;
  w_obf_psk : option (list u8);
  w_cover_traffic_ms : option N;
  raw_defense_preset : option TrafficDefensePreset;
  raw_defense_buckets : option (list N);
  raw_defense_cover_interval_ms : option N;
  raw_defense_cover_burst_max : option N;
  raw_defense_jitter_max_ms : option N;
  w_transport : TransportMode;
  w_tls_sni : option str;
  w_shards : option N;
  w_control_socket : option str;
  w_mtu : option N;
  w_metrics_listen : option SocketAddr;
}.

#[export] Instance raw_eta : Settable Raw := fun r =>
  mkRaw (w_local_private r) (w_local_public r) (w_peers r) (cur_pk r) (cur_ep r) (legacy_peer_public r) (legacy_peer_endpoint r)
    (w_listen r) (w_listen_port_auto r) (w_device r) (w_device_kind r) (w_rendezvous r) (w_ca_public r) (w_cert r) (w_roots r)
    (w_member_sign_private r) (w_network_id r) (w_threshold_ca_server r) (w_obf_psk r) (w_cover_traffic_ms r)
    (raw_defense_preset r) (raw_defense_buckets r) (raw_defense_cover_interval_ms r) (raw_defense_cover_burst_max r)
    (raw_defense_jitter_max_ms r) (w_transport r) (w_tls_sni r) (w_shards r) (w_control_socket r) (w_mtu r) (w_metrics_listen r).

#[export] Instance preset_eq_dec : EqDecision TrafficDefensePreset.
Proof. solve_decision. Defined.
#[export] Instance transport_eq_dec : EqDecision TransportMode.
Proof. solve_decision. Defined.

(** [?] *)
Definition and_then {A B} (r : result A ConfigError) (k : A -> result B ConfigError) : result B ConfigError :=
  match r with Ok a => k a | Err e => Err e end.
Notation "'let?' x ':=' e 'in' k" := (and_then e (fun x => k)) (at level 10, x name, e at level 100, k at level 200).
Notation "'let?' ' p ':=' e 'in' k" := (and_then e (fun p => k)) (at level 10, p pattern, e at level 100, k at level 200).

Definition ok_or {A} (o : option A) (e : ConfigError) : result A ConfigError := match o with Some a => Ok a | None => Err e end.

Definition eqs (s : str) (k : String.string) : bool := bool_decide (s = lit k).
Arguments eqs _ _%_string_scope.

(** ** Hexadecimal *)

Definition hex_nibble (b : u8) : result N ConfigError :=
  let n := b2n b in
  if (48 <=? n) && (n <=? 57) then Ok (n - 48)
  else if (97 <=? n) && (n <=? 102) then Ok (n - 97 + 10)
  else if (65 <=? n) && (n <=? 70) then Ok (n - 65 + 10)
  else Err (HexDigit b).

(** The loop over [chunks(2)] of an even number of digits. *)
Fixpoint hex_pairs (l : list u8) : result (list u8) ConfigError :=
  match l with
  | a :: b :: l =>
      let? hi := hex_nibble a in
      let? lo := hex_nibble b in
      let? rest := hex_pairs l in
      Ok (n2b (N.lor (N.shiftl hi 4) lo) :: rest)
  | _ => Ok []
  end.

Definition hex_to (n : nat) (hex : str) : result (list u8) ConfigError :=
  if negb (length (utf8 hex) =? 2 * n)%nat then Err (HexLength (2 * n) (length (utf8 hex))) else hex_pairs (utf8 hex).

Definition hex_to_32 : str -> result (list u8) ConfigError := hex_to 32.
Definition hex_to_16 : str -> result (list u8) ConfigError := hex_to 16.
Definition hex_to_8 : str -> result (list u8) ConfigError := hex_to 8.

Definition hex_decode_vec (hex : str) : result (list u8) ConfigError :=
  if Nat.even (length (utf8 hex)) then hex_pairs (utf8 hex) else Err HexOdd.

(** ** Rendezvous URLs *)

Definition parse_rendezvous_host_port (rest : str) : result (str * str) ConfigError :=
  match strip_prefix (lit "[") rest with
  | Some after_bracket =>
      let? ' (host, tail) := ok_or (split_once 93 after_bracket) UnterminatedIpv6 in
      let? port := ok_or (strip_prefix (lit ":") tail) Ipv6WithoutPort in
      Ok (host, port)
  | None => ok_or (rsplit_once 58 rest) NotHostPort
  end.

Record Query := mkQuery { pbk : option (list u8); sid : option (list u8); sni : option str; verify : option bool }.

Definition query_step (q : Query) (pair : str) : result Query ConfigError :=
  let? ' (key, value) := ok_or (split_once 61 pair) (RealityParam pair) in
  if eqs key "pbk" then
    match pbk q with
    | Some _ => Err (RealityDuplicate key)
    | None => let? k := hex_to_32 value in Ok (mkQuery (Some k) (sid q) (sni q) (verify q))
    end
  else if eqs key "sid" then
    match sid q with
    | Some _ => Err (RealityDuplicate key)
    | None => let? k := hex_to_8 value in Ok (mkQuery (pbk q) (Some k) (sni q) (verify q))
    end
  else if eqs key "sni" then
    match sni q with
    | Some _ => Err (RealityDuplicate key)
    | None => match value with [] => Err RealityEmptySni | _ => Ok (mkQuery (pbk q) (sid q) (Some value) (verify q)) end
    end
  else if eqs key "verify" then
    match verify q with
    | Some _ => Err (RealityDuplicate key)
    | None =>
        if eqs value "on" || eqs value "true" then Ok (mkQuery (pbk q) (sid q) (sni q) (Some true))
        else if eqs value "off" || eqs value "false" then Ok (mkQuery (pbk q) (sid q) (sni q) (Some false))
        else Err RealityVerify
    end
  else Err (RealityUnknown key).

Fixpoint fold_result {A B} (f : A -> B -> result A ConfigError) (l : list B) (a : A) : result A ConfigError :=
  match l with [] => Ok a | b :: l => let? a := f a b in fold_result f l a end.

Definition parse_reality_rendezvous (rest : str) : result Rendezvous ConfigError :=
  let? ' (hostport, query) := ok_or (split_once 63 rest) RealityWithoutQuery in
  let? ' (host, port_str) := parse_rendezvous_host_port hostport in
  let? port := ok_or (parse_uint u16_mod port_str) RealityPort in
  let? q := fold_result query_step (split 38 query) (mkQuery None None None None) in
  let? pubkey := ok_or (pbk q) (RealityMissing (lit "pbk")) in
  let? short_id := ok_or (sid q) (RealityMissing (lit "sid")) in
  let? name := ok_or (sni q) (RealityMissing (lit "sni")) in
  Ok (RdvReality host port pubkey short_id name (default true (verify q))).

Definition parse_rendezvous (val : str) : result Rendezvous ConfigError :=
  match strip_prefix (lit "reality://") val with
  | Some rest => parse_reality_rendezvous rest
  | None =>
      match strip_prefix (lit "tls://") val with
      | Some rest =>
          let? ' (host, port_str) := parse_rendezvous_host_port rest in
          let? port := ok_or (parse_uint u16_mod port_str) BadNumber in
          Ok (RdvTls host port)
      | None => let? a := ok_or (parse_socket_addr val) BadAddress in Ok (RdvUdp a)
      end
  end.

(** ** Values *)

(** [TunnelMode::parse_device_kind] *)
Definition parse_device_kind (val : str) : result TunnelMode ConfigError :=
  if eqs val "tun" then Ok L3Tun else if eqs val "tap" then Ok L2Tap else Err (BadDeviceKind val).

Definition parse_preset (val : str) : result TrafficDefensePreset ConfigError :=
  if eqs val "off" then Ok Off else if eqs val "balanced" then Ok Balanced else if eqs val "paranoid" then Ok Paranoid
  else Err (UnknownPreset val).

Definition parse_transport (val : str) : result TransportMode ConfigError :=
  if eqs val "quic" then Ok Quic else if eqs val "tls" then Ok Tls else if eqs val "raw" || eqs val "udp" then Ok RawUdp
  else Err (UnknownTransport val).

(** [usize] is 64 bits wide. *)
Definition bucket_step (bs : list N) (part : str) : result (list N) ConfigError :=
  match trim part with
  | [] => Err EmptyBucket
  | p => let? b := ok_or (parse_uint u64_mod p) BadBucket in Ok (bs ++ [b])
  end.

Definition socket (val : str) : result SocketAddr ConfigError := ok_or (parse_socket_addr val) BadAddress.
Definition number (modulus : N) (val : str) : result N ConfigError := ok_or (parse_uint modulus val) BadNumber.

Definition nonzero (n : N) (e : ConfigError) : result N ConfigError := if n =? 0 then Err e else Ok n.

(** [SocketAddr::new] *)
Definition socket_of (ip : IpAddr) (port : N) : SocketAddr :=
  match ip with IpV4 o => SockV4 o port | IpV6 o => SockV6 o port 0 0 end.

Definition parse_listen (val : str) : result (SocketAddr * bool) ConfigError :=
  match parse_socket_addr val with
  | Some a => Ok (a, false)
  | None =>
      match parse_ip_addr val with
      | Some ip => Ok (socket_of ip DEFAULT_LISTEN_PORT, true)
      | None => Err (BadListen val)
      end
  end.

(** The protocol a port makes the daemon look like; the daemon warns of it. *)
Definition fingerprinted_vpn_port (port : N) : option str :=
  if port =? 51820 then Some (lit "WireGuard")
  else if port =? 1194 then Some (lit "OpenVPN")
  else if (port =? 500) || (port =? 4500) then Some (lit "IPsec/IKE")
  else if port =? 1701 then Some (lit "L2TP")
  else if port =? 1723 then Some (lit "PPTP")
  else if port =? 655 then Some (lit "tinc")
  else None.

(** ** Presets *)

Definition default_cover_interval_ms (p : TrafficDefensePreset) : option N :=
  match p with Off => None | Balanced => Some 500 | Paranoid => Some 150 end.
Definition default_cover_burst_max (p : TrafficDefensePreset) : N := match p with Off => 1 | Balanced => 2 | Paranoid => 4 end.
Definition default_jitter_max_ms (p : TrafficDefensePreset) : N := match p with Off => 0 | Balanced => 2 | Paranoid => 4 end.

(** ** The lines of the file *)

Definition blank : Raw :=
  mkRaw None None [] None None None None None false None L3Tun None [] None None None None None None None None None None None None
    RawUdp None None None None None.

Definition flush_peer_block (pk : option (list u8)) (ep : option SocketAddr) (ps : list PeerConfig) :
    result (list PeerConfig) ConfigError :=
  match pk, ep with
  | Some pk, _ => Ok (ps ++ [mkPeerConfig pk ep])
  | None, Some _ => Err EndpointWithoutKey
  | None, None => Ok ps
  end.

Section Parse.
Context `{Ed25519} (fs : str -> option str).

Definition load_cert_file (path : str) : result Cert ConfigError :=
  let? contents := ok_or (fs path) (Unreadable path) in
  let? bytes := hex_decode_vec (trim contents) in
  ok_or (cert_decode bytes) (BadCertFile path).

Definition load_roots_file (path : str) : result RootSet ConfigError :=
  let? contents := ok_or (fs path) (Unreadable path) in
  let? bytes := hex_decode_vec (trim contents) in
  ok_or (rootset_decode bytes) (BadRootsFile path).

(** The match on the key of a line. *)
Definition set_key (r : Raw) (key val : str) : result Raw ConfigError :=
  if eqs key "local_private" then let? k := hex_to_32 val in Ok (r <| w_local_private := Some k |>)
  else if eqs key "local_public" then let? k := hex_to_32 val in Ok (r <| w_local_public := Some k |>)
  else if eqs key "public_key" then let? k := hex_to_32 val in Ok (r <| cur_pk := Some k |>)
  else if eqs key "endpoint" then let? a := socket val in Ok (r <| cur_ep := Some a |>)
  else if eqs key "peer_public" then let? k := hex_to_32 val in Ok (r <| legacy_peer_public := Some k |>)
  else if eqs key "peer_endpoint" then let? a := socket val in Ok (r <| legacy_peer_endpoint := Some a |>)
  else if eqs key "listen" then
    let? ' (a, auto) := parse_listen val in Ok (r <| w_listen := Some a |> <| w_listen_port_auto := auto |>)
  else if eqs key "device" then Ok (r <| w_device := Some (trim_matches 34 val) |>)
  else if eqs key "device_kind" then let? k := parse_device_kind val in Ok (r <| w_device_kind := k |>)
  else if eqs key "rendezvous" then let? v := parse_rendezvous val in Ok (r <| w_rendezvous := Some v |>)
  else if eqs key "ca_public" then let? k := hex_to_32 val in Ok (r <| w_ca_public := w_ca_public r ++ [k] |>)
  else if eqs key "cert" then let? c := load_cert_file val in Ok (r <| w_cert := Some c |>)
  else if eqs key "roots" then let? c := load_roots_file val in Ok (r <| w_roots := Some c |>)
  else if eqs key "member_sign_private" then let? k := hex_to_32 val in Ok (r <| w_member_sign_private := Some k |>)
  else if eqs key "network_id" then let? k := hex_to_16 val in Ok (r <| w_network_id := Some k |>)
  else if eqs key "ca_server" || eqs key "threshold_ca_server" then
    let? a := socket val in Ok (r <| w_threshold_ca_server := Some a |>)
  else if eqs key "obf_psk" then let? k := hex_to_32 val in Ok (r <| w_obf_psk := Some k |>)
  else if eqs key "cover_traffic_ms" then
    let? n := number u64_mod val in let? ms := nonzero n ZeroCoverTraffic in Ok (r <| w_cover_traffic_ms := Some ms |>)
  else if eqs key "traffic_defense" then let? p := parse_preset val in Ok (r <| raw_defense_preset := Some p |>)
  else if eqs key "defense_buckets" then
    let? bs := fold_result bucket_step (split 44 val) [] in Ok (r <| raw_defense_buckets := Some bs |>)
  else if eqs key "defense_cover_interval_ms" then
    let? n := number u64_mod val in let? ms := nonzero n ZeroCoverInterval in Ok (r <| raw_defense_cover_interval_ms := Some ms |>)
  else if eqs key "defense_cover_burst_max" then let? n := number u64_mod val in Ok (r <| raw_defense_cover_burst_max := Some n |>)
  else if eqs key "defense_jitter_max_ms" then let? n := number u64_mod val in Ok (r <| raw_defense_jitter_max_ms := Some n |>)
  else if eqs key "transport" then let? t := parse_transport val in Ok (r <| w_transport := t |>)
  else if eqs key "tls_sni" then Ok (r <| w_tls_sni := Some val |>)
  else if eqs key "shards" || eqs key "threads" then
    let? k := ok_or (parse_uint u64_mod val) BadShards in let? n := nonzero k ZeroShards in Ok (r <| w_shards := Some n |>)
  else if eqs key "control_socket" || eqs key "control" then Ok (r <| w_control_socket := Some val |>)
  else if eqs key "mtu" then
    let? m := number u32_mod val in
    if (576 <=? m) && (m <=? 65535) then Ok (r <| w_mtu := Some m |>) else Err (MtuRange m)
  else if eqs key "metrics_listen" || eqs key "metrics" then
    let? a := socket (trim_matches 34 val) in Ok (r <| w_metrics_listen := Some a |>)
  else Ok r.

(** One iteration of the loop over the lines. *)
Definition parse_line (r : Raw) (l : str) : result Raw ConfigError :=
  let l := trim l in
  if bool_decide (l = []) || starts_with 35 l then Ok r
  else if eqs l "[peer]" then
    let? ps := flush_peer_block (cur_pk r) (cur_ep r) (w_peers r) in
    Ok (r <| w_peers := ps |> <| cur_pk := None |> <| cur_ep := None |>)
  else
    let? ' (key, val) := ok_or (split_once 61 l) (NoEquals l) in set_key r (trim key) (trim val).

Definition parse_lines (text : str) : result Raw ConfigError := fold_result parse_line (lines text) blank.

(** ** After the last line *)

(** The trailing peer block, and the two-key form of a single peer. *)
Definition close_peers (r : Raw) : result (list PeerConfig) ConfigError :=
  let? ps := flush_peer_block (cur_pk r) (cur_ep r) (w_peers r) in
  Ok (match ps, legacy_peer_public r, legacy_peer_endpoint r with
      | [], Some pk, Some ep => [mkPeerConfig pk (Some ep)]
      | _, _, _ => ps
      end).

Definition mesh_mode (r : Raw) : bool :=
  match w_ca_public r, w_cert r, w_roots r, w_member_sign_private r, w_network_id r with
  | _ :: _, Some _, Some _, Some _, Some _ => true
  | _, _, _, _, _ => false
  end.

Definition is_some {A} (o : option A) : bool := match o with Some _ => true | None => false end.

Definition defense_enabled (r : Raw) : bool :=
  match raw_defense_preset r with Some p => negb (bool_decide (p = Off)) | None => false end
  || is_some (raw_defense_buckets r) || is_some (raw_defense_cover_interval_ms r)
  || is_some (raw_defense_cover_burst_max r) || is_some (raw_defense_jitter_max_ms r).

Definition preset_of (r : Raw) : TrafficDefensePreset := default Off (raw_defense_preset r).
Definition buckets_of (r : Raw) : list N := default (N.of_nat <$> default_buckets (preset_of r)) (raw_defense_buckets r).

(** [Option::or] *)
Definition or_else {A} (a b : option A) : option A := match a with Some _ => a | None => b end.

Definition defense_of (r : Raw) : TrafficDefenseConfig :=
  mkDefense (preset_of r) (N.to_nat <$> buckets_of r)
    (or_else (raw_defense_cover_interval_ms r) (or_else (w_cover_traffic_ms r) (default_cover_interval_ms (preset_of r))))
    (default (default_cover_burst_max (preset_of r)) (raw_defense_cover_burst_max r))
    (default (default_jitter_max_ms (preset_of r)) (raw_defense_jitter_max_ms r)).

(** The loop over the buckets. *)
Fixpoint check_buckets (prev : N) (bs : list N) : result unit ConfigError :=
  match bs with
  | [] => Ok tt
  | b :: bs =>
      if negb ((64 <=? b) && (b <=? 1500)) then Err (BucketRange b)
      else if b <=? prev then Err BucketOrder
      else check_buckets b bs
  end.

Definition mimics (t : TransportMode) : bool := match t with RawUdp => false | _ => true end.

Definition check_defense (r : Raw) : result unit ConfigError :=
  if defense_enabled r then
    if mimics (w_transport r) then Err DefenseTransport
    else if negb (is_some (w_obf_psk r)) then Err DefenseWithoutPsk
    else match buckets_of r with [] => Err NoBuckets | bs => check_buckets 0 bs end
  else Ok tt.

Definition relayed (v : option Rendezvous) : bool :=
  match v with Some (RdvTls _ _) | Some (RdvReality _ _ _ _ _ _) => true | _ => false end.

(** The checks that follow, in the order of the source. *)
Definition check_rest (r : Raw) : result unit ConfigError :=
  if 10 <? default (default_jitter_max_ms (preset_of r)) (raw_defense_jitter_max_ms r) then Err JitterRange
  else
    let burst := default (default_cover_burst_max (preset_of r)) (raw_defense_cover_burst_max r) in
    if negb ((1 <=? burst) && (burst <=? 8)) then Err (BurstRange burst)
    else if bool_decide (or_else (raw_defense_cover_interval_ms r) (or_else (w_cover_traffic_ms r) (default_cover_interval_ms (preset_of r))) = Some 0)
    then Err ZeroCoverInterval
    else if mimics (w_transport r) && (is_some (w_obf_psk r) || is_some (w_cover_traffic_ms r)) then Err (TransportWithObf (w_transport r))
    else if relayed (w_rendezvous r) && negb (is_some (w_obf_psk r)) then Err RelayWithoutPsk
    else Ok tt.

(** The last expression of [Config::parse]. *)
Definition build (r : Raw) (ps : list PeerConfig) : result Config ConfigError :=
  let auto := negb (is_some (w_listen r)) || w_listen_port_auto r in
  let? priv := ok_or (w_local_private r) (Missing (lit "local_private")) in
  let? pub := ok_or (w_local_public r) (Missing (lit "local_public")) in
  let? dev := ok_or (w_device r) (Missing (lit "device")) in
  Ok (mkConfig priv pub ps (default (SockV4 (replicate 4 Byte.x00) DEFAULT_LISTEN_PORT) (w_listen r)) auto dev (w_device_kind r)
        (w_rendezvous r) (w_ca_public r) (w_cert r) (w_roots r) (w_member_sign_private r) (w_network_id r)
        (w_threshold_ca_server r) (w_obf_psk r) (w_cover_traffic_ms r) (defense_of r) (w_transport r)
        (default DEFAULT_TLS_SNI (w_tls_sni r)) (default 1 (w_shards r)) (w_control_socket r) (w_mtu r) (w_metrics_listen r)).

Definition finish (r : Raw) : run (result Config ConfigError) :=
  match close_peers r with
  | Err e => Ret (Err e)
  | Ok ps =>
      if bool_decide (ps = []) && negb (mesh_mode r) then Ret (Err NoPeers)
      else
        let! trusted := match w_roots r with Some rs => verify_rootset rs (w_ca_public r) | None => Ret true end in
        Ret (if negb trusted then Err RootsUnverified
             else let? _ := check_defense r in let? _ := check_rest r in build r ps)
  end.

(** [Config::parse] *)
Definition parse (text : str) : run (result Config ConfigError) :=
  match parse_lines text with Err e => Ret (Err e) | Ok r => finish r end.

End Parse.
End Cfg.

(** ** What the parser guarantees *)

Module CfgOk.
Import Text Cfg.

Lemma and_then_ok {A B} (r : result A ConfigError) (k : A -> result B ConfigError) b :
  and_then r k = Ok b <-> exists a, r = Ok a /\ k a = Ok b.
Proof. destruct r; cbn; naive_solver. Qed.

Lemma ok_or_ok {A} (o : option A) e a : ok_or o e = Ok a <-> o = Some a.
Proof. destruct o; cbn; naive_solver. Qed.

Lemma hex_pairs_length n l bs : length l = (2 * n)%nat -> hex_pairs l = Ok bs -> length bs = n.
Proof.
  revert l bs. induction n as [|n IH]; intros [|a [|b l]] bs Hl; cbn [length] in Hl; try lia; cbn [hex_pairs]; [by intros [= <-]|].
  intros (hi & _ & E)%and_then_ok. apply and_then_ok in E as (lo & _ & E). apply and_then_ok in E as (rest & Hr & [= <-]).
  cbn [length]. f_equal. apply (IH l); [lia|done].
Qed.

Lemma hex_to_length n s bs : hex_to n s = Ok bs -> length bs = n.
Proof.
  unfold hex_to. destruct (Nat.eqb_spec (length (utf8 s)) (2 * n)) as [E|E]; cbn [negb]; [|done]. by apply hex_pairs_length.
Qed.

Lemma socket_ok s a : socket s = Ok a -> addr_shape a.
Proof. unfold socket. rewrite ok_or_ok. apply parse_socket_addr_shape. Qed.

Lemma nonzero_ok n e m : nonzero n e = Ok m -> m <> 0.
Proof. unfold nonzero. destruct (N.eqb_spec n 0); naive_solver. Qed.

Lemma parse_listen_ok s a auto :
  parse_listen s = Ok (a, auto) -> addr_shape a /\ (auto = true -> port_of a = DEFAULT_LISTEN_PORT).
Proof.
  unfold parse_listen. destruct (parse_socket_addr s) as [b|] eqn:E; [intros [= <- <-]; split; [by eapply parse_socket_addr_shape|done]|].
  destruct (parse_ip_addr s) as [ip|] eqn:Ei; [|done]. intros [= <- <-]. apply parse_ip_addr_length in Ei. by destruct ip.
Qed.

Definition option_all {A} (P : A -> Prop) (o : option A) : Prop := match o with Some a => P a | None => True end.

Definition key32 (k : list u8) : Prop := length k = 32%nat.

Definition peer_ok (p : PeerConfig) : Prop := key32 (public_key p) /\ option_all addr_shape (pc_endpoint p).

Definition rendezvous_ok (v : Rendezvous) : Prop :=
  match v with
  | RdvUdp a => addr_shape a
  | RdvTls _ port => port < u16_mod
  | RdvReality _ port pk short name _ => port < u16_mod /\ key32 pk /\ length short = 8%nat /\ name <> []
  end.

Lemma digits_from_bound m radix s acc v : acc < m -> digits_from m radix acc s = Some v -> v < m.
Proof.
  revert acc. induction s as [|c s IH]; intros acc Ha; cbn [digits_from]; [by intros [= <-]|].
  destruct (to_digit radix c) as [d|]; [|done]. cbn zeta. destruct (N.ltb_spec (acc * radix + d) m); [by apply IH|done].
Qed.

Lemma parse_uint_bound m s v : 0 < m -> parse_uint m s = Some v -> v < m.
Proof.
  intros Hm H. assert (forall t, digits_from m 10 0 t = Some v -> v < m) as Hd by (intros t; by apply digits_from_bound).
  unfold parse_uint, from_str_radix in H. repeat (case_match; try done; try by eapply Hd).
Qed.

Definition query_ok (q : Query) : Prop :=
  option_all key32 (pbk q) /\ option_all (fun s => length s = 8%nat) (sid q) /\ option_all (fun s => s <> []) (sni q).

Lemma query_step_ok q pair q' : query_ok q -> query_step q pair = Ok q' -> query_ok q'.
Proof.
  intros (Hp & Hs & Hn) E. unfold query_step in E. apply and_then_ok in E as ([key value] & _ & E).
  repeat case_match; try done;
    try (apply and_then_ok in E as (k & Hk & [= <-]); apply hex_to_length in Hk); try injection E as <-; split_and!; cbn; try done.
Qed.

Lemma fold_result_ok {A B} (P : A -> Prop) (f : A -> B -> result A ConfigError) l a a' :
  (forall a b a', P a -> f a b = Ok a' -> P a') -> P a -> fold_result f l a = Ok a' -> P a'.
Proof.
  intros Hf. revert a. induction l as [|b l IH]; intros a Ha; cbn [fold_result]; [by intros [= <-]|].
  intros (a1 & E1 & E2)%and_then_ok. eapply IH; [|done]. by eapply Hf.
Qed.

Lemma parse_rendezvous_ok s v : parse_rendezvous s = Ok v -> rendezvous_ok v.
Proof.
  unfold parse_rendezvous. destruct (strip_prefix (lit "reality://") s) as [rest|].
  - unfold parse_reality_rendezvous. intros ([hp query] & _ & E)%and_then_ok.
    apply and_then_ok in E as ([host ps] & _ & E). apply and_then_ok in E as (port & Hp & E).
    apply and_then_ok in E as (q & Hq & E). apply (fold_result_ok query_ok) in Hq as (H1 & H2 & H3); [|by apply query_step_ok|done].
    apply and_then_ok in E as (pk & E1%ok_or_ok & E). apply and_then_ok in E as (short & E2%ok_or_ok & E).
    apply and_then_ok in E as (name & E3%ok_or_ok & [= <-]). rewrite E1 in H1. rewrite E2 in H2. rewrite E3 in H3.
    split_and!; try done. by apply ok_or_ok, parse_uint_bound in Hp.
  - destruct (strip_prefix (lit "tls://") s) as [rest|].
    + intros ([host ps] & _ & E)%and_then_ok. apply and_then_ok in E as (port & Hp & [= <-]). by apply ok_or_ok, parse_uint_bound in Hp.
    + intros (a & Ha%ok_or_ok & [= <-])%and_then_ok. by eapply parse_socket_addr_shape.
Qed.

(** What every line keeps. *)
Record raw_ok (r : Raw) : Prop := {
  ro_private : option_all key32 (w_local_private r);
  ro_public : option_all key32 (w_local_public r);
  ro_peers : Forall peer_ok (w_peers r);
  ro_cur_pk : option_all key32 (cur_pk r);
  ro_cur_ep : option_all addr_shape (cur_ep r);
  ro_legacy_pk : option_all key32 (legacy_peer_public r);
  ro_legacy_ep : option_all addr_shape (legacy_peer_endpoint r);
  ro_listen : option_all addr_shape (w_listen r);
  ro_auto : w_listen_port_auto r = true -> option_all (fun a => port_of a = DEFAULT_LISTEN_PORT) (w_listen r);
  ro_rendezvous : option_all rendezvous_ok (w_rendezvous r);
  ro_ca : Forall key32 (w_ca_public r);
  ro_cert : option_all cert_wf (w_cert r);
  ro_roots : option_all rootset_wf (w_roots r);
  ro_sign : option_all key32 (w_member_sign_private r);
  ro_network : option_all (fun k => length k = 16%nat) (w_network_id r);
  ro_psk : option_all key32 (w_obf_psk r);
  ro_cover : option_all (fun n => n <> 0) (w_cover_traffic_ms r);
  ro_shards : option_all (fun n => n <> 0) (w_shards r);
  ro_mtu : option_all (fun m => 576 <= m <= 65535) (w_mtu r);
}.

Lemma blank_ok : raw_ok blank.
Proof. by constructor; cbn. Qed.

Section Ok.
Context `{Ed25519} (fs : str -> option str).

Lemma load_cert_file_ok path c : load_cert_file fs path = Ok c -> cert_wf c.
Proof.
  unfold load_cert_file. intros (t & _ & E)%and_then_ok. apply and_then_ok in E as (bs & _ & E).
  by apply ok_or_ok, cert_decode_iff in E as [? _].
Qed.

Lemma load_roots_file_ok path c : load_roots_file fs path = Ok c -> rootset_wf c.
Proof.
  unfold load_roots_file. intros (t & _ & E)%and_then_ok. apply and_then_ok in E as (bs & _ & E).
  by apply ok_or_ok, rootset_decode_iff in E as [? _].
Qed.

Lemma set_key_ok r key val r' : raw_ok r -> set_key fs r key val = Ok r' -> raw_ok r'.
Proof.
  intros Hr E. unfold set_key in E.
  repeat match type of E with
  | (if eqs _ _ then _ else _) = _ => destruct (eqs _ _)
  | (if eqs _ _ || eqs _ _ then _ else _) = _ => destruct (eqs _ _ || eqs _ _)
  | and_then _ _ = Ok _ => let a := fresh "a" in let Ha := fresh "Ha" in apply and_then_ok in E as (a & Ha & E)
  | (let ' (_, _) := ?p in _) = Ok _ => destruct p
  | (if _ then Ok _ else Err _) = Ok _ => destruct (_ && _) eqn:?; [|done]
  | Ok _ = Ok _ => injection E as <-
  end;
  destruct Hr; constructor; cbn; try assumption;
  first [ by eapply hex_to_length | by eapply socket_ok | by eapply nonzero_ok | by eapply parse_rendezvous_ok
        | by eapply load_cert_file_ok | by eapply load_roots_file_ok | by eapply parse_listen_ok
        | by apply Forall_app_2; [|apply Forall_singleton; eapply hex_to_length] | lia ].
Qed.

Lemma flush_peer_block_ok pk ep ps ps' :
  option_all key32 pk -> option_all addr_shape ep -> Forall peer_ok ps -> flush_peer_block pk ep ps = Ok ps' -> Forall peer_ok ps'.
Proof.
  intros Hk Ha Hp. unfold flush_peer_block. destruct pk as [pk|]; [|destruct ep; [done|by intros [= <-]]].
  intros [= <-]. apply Forall_app_2; [done|]. by apply Forall_singleton.
Qed.

Lemma parse_line_ok r l r' : raw_ok r -> parse_line fs r l = Ok r' -> raw_ok r'.
Proof.
  intros Hr. unfold parse_line. cbn zeta. destruct (_ || _); [by intros [= <-]|]. destruct (eqs _ _).
  - intros (ps & Hps & [= <-])%and_then_ok. apply flush_peer_block_ok in Hps; [|apply Hr..].
    destruct Hr. constructor; by cbn.
  - intros ([key val] & _ & E)%and_then_ok. by apply (set_key_ok r _ _ _ Hr E).
Qed.

Lemma parse_lines_ok text r : parse_lines fs text = Ok r -> raw_ok r.
Proof. apply fold_result_ok; [apply parse_line_ok|apply blank_ok]. Qed.

Lemma close_peers_ok r ps : raw_ok r -> close_peers r = Ok ps -> Forall peer_ok ps.
Proof.
  intros Hr. unfold close_peers. intros (l & Hl & [= <-])%and_then_ok. apply flush_peer_block_ok in Hl; [|apply Hr..].
  destruct l; [|done]. destruct Hr. destruct (legacy_peer_public r), (legacy_peer_endpoint r); try done. by apply Forall_singleton.
Qed.

Lemma check_buckets_ok prev bs :
  check_buckets prev bs = Ok tt -> Forall (fun b => 64 <= b <= 1500) bs /\ Forall (N.lt prev) bs /\ StronglySorted N.lt bs.
Proof.
  revert prev. induction bs as [|b bs IH]; intros prev; cbn [check_buckets]; [intros _; split_and!; constructor|].
  destruct ((64 <=? b) && (b <=? 1500)) eqn:E; cbn [negb]; [|done]. destruct (N.leb_spec b prev) as [Hb|Hb]; [done|].
  intros (H1 & H2 & H3)%IH. split_and!; constructor; try done; [lia|].
  eapply Forall_impl; [exact H2|]. cbn. lia.
Qed.

(** A configuration that obeys the rules of the format. *)
Record config_ok (c : Config) : Prop := {
  co_private : key32 (local_private c);
  co_public : key32 (local_public c);
  co_peers : Forall peer_ok (peers c);
  co_reachable : peers c <> [] \/
    (ca_public c <> [] /\ is_Some (cert c) /\ is_Some (roots c) /\ is_Some (member_sign_private c) /\ is_Some (network_id c));
  co_listen : addr_shape (listen c);
  co_auto : listen_port_auto c = true -> port_of (listen c) = DEFAULT_LISTEN_PORT;
  co_rendezvous : option_all rendezvous_ok (rendezvous c);
  co_ca : Forall key32 (ca_public c);
  co_cert : option_all cert_wf (cert c);
  co_roots : option_all (fun r => rootset_wf r /\
    exists pk, pk ∈ ca_public c /\ key_verifies (rootset_body r) (rs_ca_sig r) pk = true) (roots c);
  co_sign : option_all key32 (member_sign_private c);
  co_network : option_all (fun k => length k = 16%nat) (network_id c);
  co_psk : option_all key32 (obf_psk c);
  co_cover : cover_traffic_ms c <> Some 0;
  co_interval : cover_interval_ms (traffic_defense c) <> Some 0;
  co_jitter : jitter_max_ms (traffic_defense c) <= 10;
  co_burst : 1 <= cover_burst_max (traffic_defense c) <= 8;
  co_defense : buckets (traffic_defense c) <> [] \/ preset (traffic_defense c) <> Off \/
      jitter_max_ms (traffic_defense c) <> 0 \/ cover_burst_max (traffic_defense c) <> 1 ->
    transport c = RawUdp /\ is_Some (obf_psk c) /\ buckets (traffic_defense c) <> [] /\
    Forall (fun b => 64 <= b <= 1500)%nat (buckets (traffic_defense c)) /\ StronglySorted lt (buckets (traffic_defense c));
  co_mimicry : transport c <> RawUdp -> obf_psk c = None /\ cover_traffic_ms c = None /\ relayed (rendezvous c) = false;
  co_relay : relayed (rendezvous c) = true -> transport c = RawUdp /\ is_Some (obf_psk c);
  co_shards : 1 <= shards c;
  co_mtu : option_all (fun m => 576 <= m <= 65535) (mtu c);
}.

Lemma defense_off r : defense_enabled r = false ->
  buckets_of r = [] /\ preset_of r = Off /\ default (default_jitter_max_ms (preset_of r)) (raw_defense_jitter_max_ms r) = 0 /\
  default (default_cover_burst_max (preset_of r)) (raw_defense_cover_burst_max r) = 1.
Proof.
  unfold defense_enabled, buckets_of, preset_of. intros H0.
  destruct (raw_defense_buckets r), (raw_defense_cover_interval_ms r), (raw_defense_cover_burst_max r), (raw_defense_jitter_max_ms r);
    cbn in *; rewrite ?orb_true_r in H0; try done.
  destruct (raw_defense_preset r) as [[]|]; done.
Qed.

Lemma sorted_to_nat l : StronglySorted N.lt l -> StronglySorted lt (N.to_nat <$> l).
Proof.
  induction 1 as [|a l _ IH Ha]; cbn; constructor; [done|]. rewrite Forall_fmap. eapply Forall_impl; [exact Ha|]. cbn. lia.
Qed.

Lemma check_defense_ok r : check_defense r = Ok tt -> defense_enabled r = true ->
  w_transport r = RawUdp /\ is_Some (w_obf_psk r) /\ buckets_of r <> [] /\
  Forall (fun b => 64 <= b <= 1500)%nat (N.to_nat <$> buckets_of r) /\ StronglySorted lt (N.to_nat <$> buckets_of r).
Proof.
  unfold check_defense. intros E He. rewrite He in E. destruct (w_transport r); try done. cbn [mimics] in E.
  destruct (w_obf_psk r) as [k|]; [|done]. cbn [is_some negb] in E. destruct (buckets_of r) as [|b bs]; [done|].
  apply check_buckets_ok in E as (H1 & _ & H3). split_and!; try done.
  - rewrite Forall_fmap. eapply Forall_impl; [exact H1|]. cbn. lia.
  - by apply sorted_to_nat.
Qed.

Record rest_ok (r : Raw) : Prop := {
  xo_jitter : jitter_max_ms (defense_of r) <= 10;
  xo_burst : 1 <= cover_burst_max (defense_of r) <= 8;
  xo_interval : cover_interval_ms (defense_of r) <> Some 0;
  xo_mimicry : w_transport r <> RawUdp -> w_obf_psk r = None /\ w_cover_traffic_ms r = None;
  xo_relay : relayed (w_rendezvous r) = true -> is_Some (w_obf_psk r);
}.

Lemma check_rest_ok r : check_rest r = Ok tt -> rest_ok r.
Proof.
  unfold check_rest. destruct (N.ltb_spec 10 (default (default_jitter_max_ms (preset_of r)) (raw_defense_jitter_max_ms r))) as [Hj|Hj]; [done|]. cbn zeta.
  destruct (_ && _) eqn:Eb; cbn [negb]; [|done]. case_bool_decide as Hi; [done|].
  destruct (mimics _ && _) eqn:Em; [done|]. destruct (relayed _ && _) eqn:Er; [done|]. intros _. constructor; cbn; [done|lia|done|..].
  - intros Ht. destruct (w_transport r); [done|..]; destruct (w_obf_psk r), (w_cover_traffic_ms r); done.
  - intros Hr. rewrite Hr in Er. destruct (w_obf_psk r); [by eexists|done].
Qed.

Lemma verified_roots rs cas : rootset_wf rs -> verify_rootset rs cas = Ret (verify_any (rootset_body rs) (rs_ca_sig rs) cas).
Proof. intros Hw. unfold verify_rootset. by rewrite rootset_signing_body_ok. Qed.

Lemma built_config_ok r ps c :
  raw_ok r -> Forall peer_ok ps -> (ps = [] -> mesh_mode r = true) ->
  option_all (fun rs => verify_any (rootset_body rs) (rs_ca_sig rs) (w_ca_public r) = true) (w_roots r) ->
  check_defense r = Ok tt -> rest_ok r -> build r ps = Ok c -> config_ok c.
Proof.
  intros Hr Hp Hm Hv Hd Hx. unfold build. intros (priv & E1%ok_or_ok & E)%and_then_ok.
  apply and_then_ok in E as (pub & E2%ok_or_ok & E). apply and_then_ok in E as (dev & _ & [= <-]).
  destruct Hr, Hx. rewrite E1 in ro_private0. rewrite E2 in ro_public0.
  constructor; cbn; try assumption.
  - destruct ps as [|p ps]; [right|by left]. specialize (Hm eq_refl). unfold mesh_mode in Hm.
    destruct (w_ca_public r), (w_cert r), (w_roots r), (w_member_sign_private r), (w_network_id r); try done; by split_and!.
  - by destruct (w_listen r).
  - destruct (w_listen r); cbn in *; [exact ro_auto0|done].
  - destruct (w_roots r); [|done]. cbn in *. apply verify_any_spec in Hv. done.
  - by destruct (w_cover_traffic_ms r); cbn in *; [intros [= ->]|].
  - destruct (defense_enabled r) eqn:Ed.
    + intros _. destruct (check_defense_ok r Hd Ed) as (H1 & H2 & H3 & H4 & H5). split_and!; try done. by destruct (buckets_of r).
    + apply defense_off in Ed as (-> & -> & Hj & Hb). cbn in Hj, Hb |- *. rewrite Hj, Hb. naive_solver.
  - intros Ht. destruct (xo_mimicry0 Ht) as [H1 H2]. split_and!; [done..|]. destruct (relayed _); [|done].
    rewrite H1 in xo_relay0. by destruct (xo_relay0 eq_refl).
  - intros Hrel. destruct (xo_relay0 Hrel) as [k Hk]. split; [|by eexists]. destruct (decide (w_transport r = RawUdp)) as [|Hn]; [done|].
    destruct (xo_mimicry0 Hn). congruence.
  - destruct (w_shards r); cbn in *; lia.
Qed.

Lemma parse_sound text : exists r, parse fs text = Ret r /\ match r with Ok c => config_ok c | Err _ => True end.
Proof.
  unfold parse. destruct (parse_lines fs text) as [r|e] eqn:El; [|by eexists].
  apply parse_lines_ok in El. unfold finish. destruct (close_peers r) as [ps|e] eqn:Ep; [|by eexists].
  apply close_peers_ok in Ep; [|done]. destruct (bool_decide (ps = []) && negb (mesh_mode r)) eqn:Em; [by eexists|].
  assert (exists b, match w_roots r with Some rs => verify_rootset rs (w_ca_public r) | None => Ret true end = Ret b /\
    (b = true -> option_all (fun rs => verify_any (rootset_body rs) (rs_ca_sig rs) (w_ca_public r) = true) (w_roots r))) as (b & -> & Hb).
  { pose proof (ro_roots r El) as Hw. destruct (w_roots r) as [rs|]; [|by eexists]. rewrite verified_roots by done. by eexists. }
  cbn [rbind]. destruct b; cbn [negb]; [|by eexists]. eexists. split; [done|].
  destruct (check_defense r) as [[]|] eqn:Ed; [|done]. cbn [and_then]. destruct (check_rest r) as [[]|] eqn:Ex; [|done]. cbn [and_then].
  destruct (build r ps) as [c|] eqn:Ec; [|done]. eapply built_config_ok; try done; [|by apply Hb|by apply check_rest_ok].
  intros ->. by destruct (mesh_mode r).
Qed.

(** C30: the configuration parser never panics, and what it accepts obeys the
    rules of the format: keys have 32 bytes; there is a peer or a whole mesh
    configuration; a root set is signed by one of the configured CA keys;
    buckets, when the traffic defence is on, ascend strictly between 64 and
    1500 and come with the obfuscation key and the raw transport; the jitter is
    at most 10 ms and the burst between 1 and 8; a relay over TLS has the
    obfuscation key and the raw transport, a mimicking transport has none of
    the two; an automatic port is 443; the MTU is between 576 and 65535. *)
Theorem accepted_config_sound text : exists r, parse fs text = Ret r /\ match r with Ok c => config_ok c | Err _ => True end.
Proof. apply parse_sound. Qed.

End Ok.
End CfgOk.

(** ** From a configuration to the event loop *)

Module Boot.
Import Pm Tbl Text Cfg CfgOk.

(** [Box<dyn Rendezvous>] *)
#[export] Instance dyn_rendezvous {A B} `{RdvClient.Rendezvous A} `{RdvClient.Rendezvous B} : RdvClient.Rendezvous (A + B) := {|
  RdvClient.register c node signed := match c with inl a => RdvClient.register a node signed | inr b => RdvClient.register b node signed end;
  RdvClient.lookup_node c node := match c with inl a => RdvClient.lookup_node a node | inr b => RdvClient.lookup_node b node end;
  RdvClient.relay c src dst payload := match c with inl a => RdvClient.relay a src dst payload | inr b => RdvClient.relay b src dst payload end;
  RdvClient.parse c dg := match c with inl a => RdvClient.parse a dg | inr b => RdvClient.parse b dg end;
  RdvClient.server_addr c := match c with inl a => RdvClient.server_addr a | inr b => RdvClient.server_addr b end;
|}.

#[export] Instance dyn_laws {A B} `{Client.RendezvousLaws A} `{Client.RendezvousLaws B} : Client.RendezvousLaws (A + B).
Proof.
  constructor; intros [c|c]; first [apply (Client.register_law c)|apply (Client.relay_law c)|apply (Client.lookup_law c)
    |apply (Client.parse_law c)|apply (Client.parse_wf c)].
Qed.

#[local] Existing Instances Client.configured_rendezvous Client.tls_relay_rendezvous Client.configured_laws Client.tls_relay_laws.

Notation DynRendezvous := (Client.ConfiguredServerRendezvous + Client.TlsRelayRendezvous)%type.

Inductive BootError := Unresolved (host : str) | NoAddress (host : str).

(** The loop [run] ends in. *)
Inductive Driver :=
| Sharded (n : N)
| QuicPump (peers : list (list u8 * SocketAddr))
| TlsPump (peers : list (list u8 * SocketAddr)) (listen : SocketAddr) (listen_port_auto : bool) (sni : str)
| RelayTls (host : str) (port : N) (obf_key : list u8) (relay : SocketAddr)
| RelayReality (host : str) (port : N) (pubkey short_id : list u8) (sni : str) (verify : bool) (obf_key : list u8) (relay : SocketAddr)
| RawLoop.

Section Boot.
Context {snow : Snow} {kem : MlKem} {aead : Sess.Aead} {D : Type} {MP : ManagedPlane D}.
Context {blake : Blake2s} {ed : Ed25519} {iter : HashIter} {sip : SipHash24} {os : Os}.

(** [to_socket_addrs]: the addresses of a host, or an error. *)
Context (resolve : str -> N -> option (list SocketAddr)).

Notation Manager := (Pm.PeerManager D DynRendezvous).

Definition resolve_first (host : str) (port : N) : result SocketAddr BootError :=
  match resolve host port with None => Err (Unresolved host) | Some [] => Err (NoAddress host) | Some (a :: _) => Ok a end.

(** The rendezvous handle, and the address a relay was resolved to. *)
Definition rendezvous_of (c : Config) : result (option DynRendezvous * option SocketAddr) BootError :=
  match rendezvous c with
  | None => Ok (None, None)
  | Some (RdvUdp a) => Ok (Some (inl (Client.mkConfigured a)), None)
  | Some (RdvTls host port) | Some (RdvReality host port _ _ _ _) =>
      match resolve_first host port with
      | Ok a => Ok (Some (inr (Client.mkTlsRelay a)), Some a)
      | Err e => Err e
      end
  end.

Definition membership_of (c : Config) : run (option Membership) :=
  match ca_public c, cert c, roots c, member_sign_private c, network_id c with
  | _ :: _, Some cert, Some roots, Some sign_priv, Some network_id =>
      let! m := Dir.new (ca_public c) network_id cert sign_priv roots [listen c] in Ret (Some m)
  | _, _, _, _, _ => Ret None
  end.

(** [u16::try_from(mtu.saturating_add(30)).unwrap_or(u16::MAX)] *)
Definition symbol_size (c : Config) : N :=
  let n := N.min (default 1400 (mtu c) + 30) (u32_mod - 1) in if n <? u16_mod then n else u16_mod - 1.

(** The setters between construction and the loop. *)
Definition settings_of (c : Config) : list Setting :=
  [ObfPsk (obf_psk c); CoverTraffic (cover_traffic_ms c); TrafficDefense (traffic_defense c); ThresholdCa (threshold_ca_server c)]
  ++ (if bool_decide (transport c = Quic) then [] else [DataSymbolSize (symbol_size c)]).

Definition direct_peers (c : Config) : list (list u8 * SocketAddr) :=
  omap (fun p => (fun ep => (public_key p, ep)) <$> pc_endpoint p) (peers c).

(** [expect("rendezvous=... requires obf_psk")] *)
Definition relay_key (c : Config) : run (list u8) := match obf_psk c with Some psk => Ret (derive_key psk) | None => Panic end.

Definition select_driver (c : Config) (relay_addr : option SocketAddr) : run Driver :=
  match transport c with
  | Quic => Ret (QuicPump (direct_peers c))
  | Tls => Ret (TlsPump (direct_peers c) (listen c) (listen_port_auto c) (tls_sni c))
  | RawUdp =>
      match rendezvous c, relay_addr with
      | Some (RdvTls host port), Some a => let! k := relay_key c in Ret (RelayTls host port k a)
      | Some (RdvReality host port pk short sni verify), Some a => let! k := relay_key c in Ret (RelayReality host port pk short sni verify k a)
      | _, _ => Ret RawLoop
      end
  end.

(** [run] up to the loop: the manager and the driver that takes it. *)
Definition boot (c : Config) (interval : N) : M Manager (result Driver BootError) :=
  if 1 <? shards c then mret (Ok (Sharded (shards c)))
  else
    match rendezvous_of c with
    | Err e => mret (Err e)
    | Ok (rdv, relay_addr) =>
        memb ← lift (membership_of c);
        Tbl.new_manager (local_private c) (local_public c) (peers c) (device_kind c) rdv memb (relayed (rendezvous c)) interval ;;
        mfor (settings_of c) Tbl.configure ;;
        d ← lift (select_driver c relay_addr);
        mret (Ok d)
    end.

(** *** The daemon of an accepted configuration *)

(** The node's own record fits a datagram and keeps its address. *)
Definition announces (c : Config) : Prop :=
  option_all (fun x => N.of_nat (length (cert_bytes x)) <= 65000) (cert c) /\
  match listen c with SockV6 _ _ _ scope => scope = 0 | SockV4 _ _ => True end.

Context {wf : D -> Prop} {clock : N -> Prop} {ML : ManagedLaws wf clock}.
Context {BL : Blake2sLaws} {EL : Ed25519Laws} {IL : HashIterLaws} {SL : SnowLaws}.

Lemma put_addr_short a : addr_wf a -> (length (put_addr a) <= 19)%nat.
Proof. intros [_ Ha]. unfold put_addr. rewrite length_app, length_to_be_bytes. destruct a; cbn [length]; lia. Qed.

Lemma announceable_own c x : config_ok c -> announces c -> cert c = Some x -> DirWf.announceable x [listen c].
Proof.
  intros Hc [Hl Hs] E. pose proof (co_cert c Hc) as Hx. rewrite E in Hl, Hx. cbn [option_all] in Hl, Hx.
  destruct (co_listen c Hc) as [Hp Ha]. assert (addr_wf (listen c)) as Hw by (destruct (listen c); split; naive_solver).
  pose proof (put_addr_short _ Hw). split; [done|]. split; [by apply Forall_singleton|]. split; [done|].
  unfold fits16, u16_mod. cbn [map concat]. rewrite app_nil_r. lia.
Qed.

Lemma membership_of_safe c : config_ok c -> announces c ->
  exists o, membership_of c = Ret o /\ forall m, o = Some m -> DirSafe.mem_safe [listen c] m.
Proof.
  intros Hc Ha. unfold membership_of. destruct (ca_public c) eqn:Eca; [by eexists|].
  destruct (cert c) as [x|] eqn:Ex; [|by eexists]. destruct (roots c); [|by eexists]. destruct (member_sign_private c); [|by eexists].
  destruct (network_id c); [|by eexists]. pose proof (announceable_own c x Hc Ha Ex) as Hx. unfold Dir.new.
  destruct (DirSafe.announce_safe [listen c] x INITIAL_SEQ l1 Hx) as (rec & -> & Hrec); [done|]. cbn [rbind]. eexists. split; [done|].
  intros m [= <-]. apply DirSafe.insert_record_safe; [|done]. by constructor.
Qed.

Lemma settings_of_ok c : config_ok c -> Forall Run.setting_ok (settings_of c).
Proof.
  intros []. apply Forall_app_2.
  - repeat constructor; cbn; unfold Run.defense_ok, u64_mod; lia.
  - destruct (bool_decide _); constructor; [|done]. cbn. unfold symbol_size, u32_mod, u16_mod. cbn zeta.
    destruct (N.ltb_spec (N.min (default 1400 (mtu c) + 30) (2 ^ 32 - 1)) (2 ^ 16)); lia.
Qed.

Lemma select_driver_ok c a : config_ok c -> exists d, select_driver c a = Ret d.
Proof.
  intros []. unfold select_driver. destruct (transport c); [|by eexists..].
  assert (forall k : list u8 -> run Driver, (forall x, exists d, k x = Ret d) -> relayed (rendezvous c) = true ->
    exists d, (let! x := relay_key c in k x) = Ret d) as Hk.
  { intros k Hk [_ [psk E]]%co_relay0. unfold relay_key. rewrite E. apply Hk. }
  destruct (rendezvous c) as [[]|]; [by eexists| | |by eexists]; (destruct a; [|by eexists]); apply Hk; try done; intros x; by eexists.
Qed.

Lemma select_driver_raw c rdv d : rendezvous_of c = Ok rdv -> select_driver c rdv.2 = Ret d ->
  d = RawLoop <-> transport c = RawUdp /\ relayed (rendezvous c) = false.
Proof.
  unfold rendezvous_of, select_driver, relay_key. destruct rdv as [v a]. cbn [snd].
  destruct (transport c), (rendezvous c) as [[]|]; cbn [relayed]; try destruct (resolve_first _ _);
    intros [= <- <-] E; try destruct (obf_psk c); cbn in E; naive_solver.
Qed.

Lemma spec_given {S A} (given : Prop) (m : M S A) (Q : S -> A -> Prop) :
  (given -> spec (fun _ => True) m Q) -> spec (fun _ => given) m Q.
Proof. intros H s Hg. by apply (H Hg). Qed.

Lemma boot_spec c interval rdv : config_ok c -> announces c -> shards c = 1 -> rendezvous_of c = Ok rdv ->
  exists d, select_driver c rdv.2 = Ret d /\
    spec (fun _ => True) (boot c interval) (fun s r => Safe.inv wf [listen c] s /\ r = Ok d).
Proof.
  intros Hc Ha Hn Er. destruct (membership_of_safe c Hc Ha) as (o & Eo & Ho). destruct (select_driver_ok c rdv.2 Hc) as [d Ed].
  exists d. split; [done|]. unfold boot. rewrite Hn, Er. cbn [N.ltb]. destruct rdv as [rdv a]. rewrite Eo. cbn in Ed. rewrite Ed.
  eapply spec_bind with (R := fun _ m => m = o); [by intros s _; exists s, o|]. intros m. apply spec_given. intros ->.
  eapply spec_bind; [by apply (Run.new_manager_spec (wf := wf) (eps := [listen c]))|]. intros [].
  eapply spec_bind with (R := fun s _ => Safe.inv wf [listen c] s).
  - eapply spec_conseq with (P' := Safe.inv_at wf [listen c] 0) (Q' := fun s _ => Safe.inv_at wf [listen c] 0 s /\ True);
      [|by intros s H; split; [|lia]|by intros s u [[? _] _]].
    apply Safe.safe_mfor. intros x Hx. apply Run.safe_configure. by apply (proj1 (Forall_forall _ _) (settings_of_ok c Hc)).
  - intros []. intros s Hs. by exists s, (Ok d).
Qed.

(** C3: a daemon started from a configuration file it accepts does not fail
    on its own.  With one worker, and if the relay's host resolves, it reaches
    the loop its configuration selects - the relay loops only with the
    obfuscation key they demand - with a manager in good order; and the poll
    loop then returns whatever the kernel, the network and the tunnel deliver,
    the manager still in good order. *)
Theorem configured_daemon_runs fs text c rdv interval kernel vnet big_endian (s0 : Manager) :
  Cfg.parse fs text = Ret (Ok c) -> shards c = 1 -> announces c -> rendezvous_of c = Ok rdv ->
  (forall k x, os_enroll k = Some x -> DirWf.announceable x [listen c]) ->
  exists s d, boot c interval s0 = Ret (s, Ok d) /\ select_driver c rdv.2 = Ret d /\
    (d = RawLoop <-> transport c = RawUdp /\ relayed (rendezvous c) = false) /\
    forall rounds, Forall Poll.wait_ok rounds -> Forall (Managed.input_ok (clock := clock)) (Poll.inputs vnet big_endian rounds) ->
      exists l ok, Poll.run_poll (DI := Managed.manager_dispatch) kernel vnet big_endian rounds (Poll.start s) = Ret (l, ok) /\
        Safe.inv wf [listen c] (Poll.disp l).
Proof.
  intros Ep Hn Ha Er He. destruct (CfgOk.parse_sound fs text) as (r & Ep' & Hc). rewrite Ep in Ep'. injection Ep' as <-.
  destruct (boot_spec c interval rdv Hc Ha Hn Er) as (d & Ed & Hb). destruct (Hb s0 I) as (s & r & E & Hs & ->).
  exists s, d. split; [done|]. split; [done|]. split; [by apply (select_driver_raw c rdv)|].
  intros rounds Hw Hi. set (DL := Managed.manager_laws (wf := wf) (T := DynRendezvous) He).
  destruct (Poll.run_poll_total kernel vnet big_endian (DL := DL) s rounds Hs Hw Hi) as (l & ok & El & Hl). by exists l, ok.
Qed.

End Boot.
End Boot.

(** ** A file *)

Module CfgDemo.
Import Text Cfg.

Definition demo_text : str := lit "# two hosts
local_private = 0101010101010101010101010101010101010101010101010101010101010101
local_public  = 0202020202020202020202020202020202020202020202020202020202020202
listen = 192.168.0.7
device = yip0
obf_psk = 00112233445566778899AABBCCDDEEFF00112233445566778899aabbccddeeff
traffic_defense = balanced
mtu = 1280
initiate = true

[peer]
public_key = 0303030303030303030303030303030303030303030303030303030303030303
endpoint = [2001:db8::1]:51820
[peer]
public_key = 0404040404040404040404040404040404040404040404040404040404040404
".

Definition demo_psk : list u8 := map n2b (let l := [0; 17; 34; 51; 68; 85; 102; 119; 136; 153; 170; 187; 204; 221; 238; 255] in l ++ l).

Definition demo_config : Config :=
  mkConfig (replicate 32 Byte.x01) (replicate 32 Byte.x02)
    [mkPeerConfig (replicate 32 Byte.x03) (Some (SockV6 (map n2b [32; 1; 13; 184; 0; 0; 0; 0; 0; 0; 0; 0; 0; 0; 0; 1]) 51820 0 0));
     mkPeerConfig (replicate 32 Byte.x04) None]
    (SockV4 (map n2b [192; 168; 0; 7]) 443) true (lit "yip0") L3Tun None [] None None None None None (Some demo_psk) None
    (mkDefense Balanced [256; 512; 1024; 1420]%nat (Some 500) 2 2) RawUdp DEFAULT_TLS_SNI 1 None (Some 1280) None.

Lemma demo_parsed `{Ed25519} : Cfg.parse (fun _ => None) demo_text = Ret (Ok demo_config).
Proof. vm_compute. reflexivity. Qed.

End CfgDemo.
