(* ===== verification/Sharding.v ===== *)
(** * Workers

    Models the sharded daemon, bin/yipd/src/sharding.rs and flow.rs: the
    mapping of packets, keys and symbols to workers, the choice of the egress
    socket, the coalesced timer, and the loop of a worker.  A worker has its
    own manager and one ring to every other worker; shard 0 runs the
    handshakes and replicates each new session to the others, which seal under
    the same keys with interleaved counters.  The system is a list of workers,
    and a step is what one of them does with one input of its loop, in any
    interleaving.  The rings are those of Spsc: a queue, which the producer may
    find full while the consumer has made room it does not see yet.

    The theorems: no input makes a worker fail and the rings stay bounded; the
    counters of the workers are disjoint exactly when shard 0 sealed at most
    one packet before it replicated the session.  Two runs in PmExamples show
    what follows when it sealed more, and that a datagram replayed to another
    worker is delivered again.  The hash of the standard library is a class.
    Busy polling, the AF_XDP setup, the creation of devices and sockets and the
    socket errors that end a worker are not modelled. *)

From Stdlib Require Strings.Byte.
From Stdlib Require Import NArith Lia ZifyBool.
From stdpp Require Import base numbers gmap list.
From S2P Require Import Prelude StateM Reader NetAddr StdText Flow Fec Session MemberCodec MemberVerify Directory DirSafe Obf RdvProto RdvClient DataPlane TunOffload Noise EpochPlane PmState PmTable PmPlane PmObf PmRouting PmDispatch PmSafe PmSafeHs PmRun Gso PollLoop Config.

Local Open Scope nat_scope.

(** ** The hash of a flow: flow.rs *)

(** What [Hash] feeds to a hasher. *)
Inductive hash_write :=
| WriteLength (n : nat)
| WriteBytes (l : list u8)
| WriteU8 (b : u8)
| WriteU16 (n : N).

(** [DefaultHasher::new()], fed and finished. *)
Class DefaultHasher := { hasher_finish : list hash_write -> N }.

Record FlowTuple := mkFlow { src_ip : list u8; dst_ip : list u8; f_proto : u8; src_port : N; dst_port : N }.

Module Tuple.
Import Offload.

Definition extract_ports (payload : list u8) (proto : u8) : run (N * N) :=
  if (bool_decide (proto = Byte.x06) || bool_decide (proto = Byte.x11)) && (4 <=? length payload) then
    let! sp := u16_at payload 0 in let! dp := u16_at payload 2 in Ret (sp, dp)
  else Ret (0, 0)%N.

Definition v4_mapped (a : list u8) : list u8 := replicate 10 Byte.x00 ++ [Byte.xff; Byte.xff] ++ a.

Definition extract_v4 (pkt : list u8) : run (option FlowTuple) :=
  if length pkt <? 20 then Ret None
  else
    let! b0 := byte_at pkt 0 in
    let ihl := N.to_nat (N.land b0 15 * 4) in
    if (length pkt <? ihl) || (ihl <? 20) then Ret None
    else
      let! proto := rexpect (pkt !! 9) in
      let! src := slice_run 12 16 pkt in
      let! dst := slice_run 16 20 pkt in
      let! b6 := byte_at pkt 6 in
      let! b7 := byte_at pkt 7 in
      let! ' (sp, dp) := if (N.land b6 31 * 256 + b7 =? 0)%N
                         then let! rest := slice_run ihl (length pkt) pkt in extract_ports rest proto
                         else Ret (0, 0)%N in
      Ret (Some (mkFlow (v4_mapped src) (v4_mapped dst) proto sp dp)).

Definition extract_v6 (pkt : list u8) : run (option FlowTuple) :=
  if length pkt <? 40 then Ret None
  else
    let! next_hdr := rexpect (pkt !! 6) in
    let! src := slice_run 8 24 pkt in
    let! dst := slice_run 24 40 pkt in
    let! rest := slice_run 40 (length pkt) pkt in
    let! ' (sp, dp) := extract_ports rest next_hdr in
    Ret (Some (mkFlow src dst next_hdr sp dp)).

Definition extract (packet : list u8) : run (option FlowTuple) :=
  match packet with
  | [] => Ret None
  | b :: _ =>
      let version := N.shiftr (b2n b) 4 in
      if (version =? 4)%N then extract_v4 packet else if (version =? 6)%N then extract_v6 packet else Ret None
  end.

Section Hash.
Context {hasher : DefaultHasher}.

Definition flow_hash (f : FlowTuple) : N :=
  hasher_finish [WriteLength 16; WriteBytes (src_ip f); WriteLength 16; WriteBytes (dst_ip f); WriteU8 (f_proto f);
                 WriteU16 (src_port f); WriteU16 (dst_port f)].

Definition symmetric_flow_hash (f : FlowTuple) : N :=
  let ' (low_ip, low_port, high_ip, high_port) :=
    if endpoint_leb (src_ip f) (src_port f) (dst_ip f) (dst_port f)
    then (src_ip f, src_port f, dst_ip f, dst_port f)
    else (dst_ip f, dst_port f, src_ip f, src_port f) in
  hasher_finish [WriteLength 16; WriteBytes low_ip; WriteLength 16; WriteBytes high_ip; WriteU8 (f_proto f);
                 WriteU16 low_port; WriteU16 high_port].

End Hash.
End Tuple.

(** ** From packets to workers *)

Module Map.
Import Tuple.
Section Map.
Context {hasher : DefaultHasher} {blake : Blake2s}.

Definition shard_for_addr (octets : list u8) (num_shards : nat) : nat :=
  if num_shards <=? 1 then 0
  else
    let hash := if bool_decide (octets !! 0 = Some Byte.xfd) then from_be_bytes (slice 1 9 octets) else from_be_bytes (slice 8 16 octets) in
    N.to_nat (hash mod N.of_nat num_shards).

Definition shard_for_pubkey (pubkey : list u8) (num_shards : nat) : nat :=
  if num_shards <=? 1 then 0 else shard_for_addr (node_addr pubkey) num_shards.

(** The IP packet of a frame, by its EtherType. *)
Definition dst_for_packet (pkt : list u8) (is_tap : bool) : option (list u8) :=
  let ip_data :=
    if is_tap then
      if (14 <=? length pkt) && bool_decide (slice 12 14 pkt = [Byte.x86; Byte.xdd]) then Some (drop 14 pkt) else None
    else Some pkt in
  match ip_data with
  | Some ((b :: _) as ip) =>
      if (40 <=? length ip) && (N.shiftr (b2n b) 4 =? 6)%N then Some (slice 24 40 ip)
      else if (20 <=? length ip) && (N.shiftr (b2n b) 4 =? 4)%N then Some (v4_mapped (slice 16 20 ip))
      else None
  | _ => None
  end.

Definition is_ip_frame (pkt : list u8) : bool :=
  (14 <=? length pkt) && (bool_decide (slice 12 14 pkt = [Byte.x08; Byte.x00]) || bool_decide (slice 12 14 pkt = [Byte.x86; Byte.xdd])).

Definition shard_for_packet (packet : list u8) (is_tap : bool) (num_shards : nat) : run nat :=
  if num_shards <=? 1 then Ret 0
  else if is_tap && negb (is_ip_frame packet) then Ret 0
  else
    let! o := extract (if is_tap then drop 14 packet else packet) in
    Ret (match o with
         | Some f => N.to_nat (symmetric_flow_hash f mod N.of_nat num_shards)
         | None => match dst_for_packet packet is_tap with Some dst => shard_for_addr dst num_shards | None => 0 end
         end).

Definition shard_for_wire_header (header : list u8) (num_shards : nat) : nat :=
  if (num_shards <=? 1) || (length header <? 10) then 0
  else shard_for_fec_symbol (from_be_bytes (slice 0 8 header)) (from_be_bytes (slice 8 10 header)) num_shards.

Definition shard_for_outer_udp (datagram : list u8) (num_shards : nat) : option nat :=
  if (num_shards <=? 1) || (length datagram <? 11) then None
  else if bool_decide (datagram !! 0 = Some (packet_byte Data)) then Some (shard_for_wire_header (slice 1 11 datagram) num_shards)
  else None.

Definition shard_for_fec_control (payload : list u8) (num_shards : nat) : option nat :=
  if (num_shards <=? 1) || (length payload <? 11) then None
  else if bool_decide (payload !! 0 = Some (packet_byte Control))
  then Some (shard_for_fec_symbol (from_be_bytes (slice 1 9 payload)) (from_be_bytes (slice 9 11 payload)) num_shards)
  else None.

(** The socket a data frame leaves by: the worker's own, or one of its pool.
    [pool] has the family of each socket of the pool, where it is known. *)
Definition is_ipv6 (a : SocketAddr) : bool := match a with SockV6 _ _ _ _ => true | SockV4 _ _ => false end.

Definition select_egress_socket (pool : list (option bool)) (pkt : list u8) (is_tap : bool) (dst : SocketAddr) : run (option nat) :=
  match pool with
  | [] => Ret None
  | _ =>
      let! o := extract (if is_tap then (if is_ip_frame pkt then drop 14 pkt else []) else pkt) in
      let i := N.to_nat (match o with Some f => flow_hash f | None => 0 end mod N.of_nat (length pool)) in
      let! chosen := rexpect (pool !! i) in
      Ret (match chosen with Some v6 => if bool_decide (is_ipv6 dst = v6) then Some i else None | None => Some i end)
  end.

End Map.
End Map.

(** ** The timer *)

Record CoalescedTimer := mkTimer {
  interval : N;
  packet_batch_mask : N;
  last_tick : N;
  packet_count : N;
  last_check_packets : N;
}.

(** Instants are nanoseconds since the start of the worker. *)
Module Timer.
Implicit Types t : CoalescedTimer.

Definition DEFAULT_INTERVAL : N := 50000000.
Definition DEFAULT_BATCH_MASK : N := 2047.

Definition new (now : N) : CoalescedTimer := mkTimer DEFAULT_INTERVAL DEFAULT_BATCH_MASK now 0 0.

Definition on_packets t (n : N) : CoalescedTimer :=
  mkTimer (interval t) (packet_batch_mask t) (last_tick t) (wrap64 (packet_count t + n)) (last_check_packets t).

(** [wrapping_sub] *)
Definition sub64 (a b : N) : N := wrap64 (a + (u64_mod - b)).

Definition should_check_time t (packets_this_iter : N) : bool :=
  ((packets_this_iter =? 0) || (N.land (packet_count t) (packet_batch_mask t) =? 0)
   || (packet_batch_mask t <? sub64 (packet_count t) (last_check_packets t)))%N.

(** [duration_since] saturates at zero. *)
Definition should_tick t (now : N) : CoalescedTimer * bool :=
  let fire := (interval t <=? now - last_tick t)%N in
  (mkTimer (interval t) (packet_batch_mask t) (if fire then now else last_tick t) (packet_count t) (packet_count t), fire).

End Timer.

(** ** The loop of a worker *)

Inductive ShardMsg :=
| PacketMsg (pkt : list u8)
| SessionEpoch (e : SessionEpochMsg)
| HandshakeForward (dg : list u8) (src : SocketAddr)
| ArqFeedback (dg : list u8) (src : SocketAddr).

Definition RING_CAP : nat := 2048.
Definition BATCH_SIZE : nat := 32.
Definition DRAIN_MAX : nat := 64.
Definition CHUNK_SIZE : nat := 4096.

Module Shard.
Import Pm Tbl Obfs Route Disp Map Cfg Boot.
#[local] Existing Instances Client.configured_rendezvous Client.tls_relay_rendezvous.

Section Shard.
Context {snow : Snow} {kem : MlKem} {aead : Sess.Aead} {D : Type} {MP : ManagedPlane D}.
Context {blake : Blake2s} {ed : Ed25519} {iter : HashIter} {sip : SipHash24} {os : Os} {hasher : DefaultHasher}.
Notation Manager := (PeerManager D DynRendezvous).

(** The state of a worker's thread.  [tx] has its ring to each worker, [None]
    in its own place; [tun_out] is what it wrote to the device and [sent] what
    it handed to a socket (its own, or one of the pool). *)
Record worker := mkWorker {
  mgr : Manager;
  tx : list (option (list ShardMsg));
  cached_now_ms : N;
  packets_this_iter : N;
  timer : CoalescedTimer;
  tun_out : list (list u8);
  sent : list (option nat * EgressDatagram);
}.

#[export] Instance worker_eta : Settable worker :=
  fun w => mkWorker (mgr w) (tx w) (cached_now_ms w) (packets_this_iter w) (timer w) (tun_out w) (sent w).

Implicit Types w : worker.

(** The settings of the daemon, and what the producers see of their rings:
    [room k] is whether the ring to [k], if it has room, is seen to have it. *)
Context (c : Config) (num_shards : nat) (vnet big_endian : bool) (pool : list (option bool)).

Definition is_tap : bool := match device_kind c with L2Tap => true | L3Tun => false end.
Definition vnet_len : nat := if vnet then VNET_HDR_LEN else 0.

Definition in_mgr {A} (m : M Manager A) w : run (worker * A) := let! ' (s, a) := m (mgr w) in Ret (w <| mgr := s |>, a).

Definition ms_of (now : N) : N := N.min (now / 1000000) (u64_mod - 1).

(** A zero header before the packet, if the device wants one. *)
Definition write_tun w (inner : list u8) : worker := w <| tun_out := tun_out w ++ [replicate vnet_len Byte.x00 ++ inner] |>.

(** [sendmmsg_batch]: one batch is submitted, the rest is not. *)
Definition send_batch w (egress : list EgressDatagram) : worker :=
  w <| sent := sent w ++ ((fun d => (None, d)) <$> take BATCH_SIZE egress) |>.

Definition push (room : nat -> bool) w (k : nat) (m : ShardMsg) : worker * bool :=
  match tx w !! k with
  | Some (Some q) => if room k && (length q <? RING_CAP) then (w <| tx := <[k := Some (q ++ [m])]> (tx w) |>, true) else (w, false)
  | _ => (w, false)
  end.

(** Shard 0 replicates its new sessions. *)
Definition broadcast (room : nat -> bool) (id : nat) w : run worker :=
  if id =? 0 then
    let! ' (w, epochs) := in_mgr drain_new_epochs w in
    Ret (fold_left (fun w e => fold_left (fun w k => (push room w k (SessionEpoch e)).1) (List.seq 1 (num_shards - 1)) w) epochs w)
  else Ret w.

Definition serve_udp (room : nat -> bool) (id : nat) w (src : SocketAddr) (dg : list u8) : run worker :=
  let! ' (w, out) := in_mgr (on_udp src dg (cached_now_ms w)) w in
  let ' (tun, egress) := own_dispatch out in
  let w := match tun with Some inner => write_tun w inner | None => w end in
  broadcast room id (send_batch w egress).

Definition is_hs (payload : list u8) : bool :=
  match payload with b :: _ => is_type b HandshakeInit || is_type b HandshakeResp | [] => false end.

(** A datagram of the worker's socket. *)
Definition receive (room : nat -> bool) (id : nat) w (src : SocketAddr) (payload : list u8) : run worker :=
  let w := w <| packets_this_iter := wrap64 (packets_this_iter w + 1) |> in
  if negb (id =? 0) && is_hs payload then Ret (push room w 0 (HandshakeForward payload src)).1
  else
    match shard_for_fec_control payload num_shards with
    | Some target =>
        if target =? id then serve_udp room id w src payload
        else
          let ' (w', ok) := push room w target (ArqFeedback payload src) in
          if ok then Ret w' else serve_udp room id w src payload
    | None => serve_udp room id w src payload
    end.

(** A datagram of the AF_XDP ring, whose source the code does not know. *)
Definition receive_xsk (room : nat -> bool) (id : nat) w (payload : list u8) : run worker :=
  if length payload <=? CHUNK_SIZE then receive room id w (listen c) payload
  else Ret (w <| packets_this_iter := wrap64 (packets_this_iter w + 1) |>).

(** The datagrams of a packet of the device; data frames may use the pool. *)
Definition send_tun (pkt : list u8) w (d : EgressDatagram) : run worker :=
  let! sock := if bool_decide (Dp.bytes d !! 0 = Some (packet_byte Data)) then select_egress_socket pool pkt is_tap (Dp.dst d) else Ret None in
  Ret (w <| sent := sent w ++ [(sock, d)] |>).

Definition serve_tun w (pkt : list u8) : run worker :=
  let! ' (w, egress) := in_mgr (on_tun pkt (cached_now_ms w)) w in rfold (send_tun pkt) egress w.

Definition dispatch_pkt (room : nat -> bool) (id : nat) w (pkt : list u8) : run worker :=
  let w := w <| packets_this_iter := wrap64 (packets_this_iter w + 1) |> in
  let! ' (w, here) := in_mgr (is_tun_target_established pkt) w in
  if here : bool then serve_tun w pkt
  else if id =? 0 then let! w := serve_tun w pkt in broadcast room id w
  else Ret (push room w 0 (PacketMsg pkt)).1.

(** A read of the device. *)
Definition read_tun (room : nat -> bool) (id : nat) w (buf : list u8) : run worker :=
  if length buf <=? vnet_len then Ret w
  else if vnet then
    let! ' (out, offsets, accepted) := Offload.split_gro big_endian buf in
    if accepted : bool then
      rfold (fun w o => let! p := slice_run o.1 (o.1 + o.2) out in dispatch_pkt room id w p) offsets w
    else dispatch_pkt room id w (drop vnet_len buf)
  else dispatch_pkt room id w (drop vnet_len buf).

(** A message of another worker. *)
Definition serve_msg (room : nat -> bool) (id : nat) w (m : ShardMsg) : run worker :=
  match m with
  | PacketMsg pkt => let! w := serve_tun w pkt in broadcast room id w
  | SessionEpoch e =>
      match Sess.from_raw_keys (em_send_key e) (em_recv_key e) (N.of_nat id) (N.of_nat num_shards) with
      | Ok sess =>
          let est := Hs.mkEstablished sess (em_auth_key e) (em_hp_key e) (em_send_key e) (em_recv_key e) in
          let! ' (w, _) := in_mgr (install_established_session (em_peer_pk e) est (em_endpoint e)) w in Ret w
      | Err _ => Ret w
      end
  | HandshakeForward dg src | ArqFeedback dg src => serve_udp room id w src dg
  end.

Definition drain_inbox (room : nat -> bool) (id : nat) w (ms : list ShardMsg) : run worker :=
  let w := w <| packets_this_iter := wrap64 (packets_this_iter w + N.of_nat (length ms)) |> in
  rfold (serve_msg room id) ms w.

(** The reactor returned at [now]: what jitter delayed leaves. *)
Definition wake w (now : N) : run worker :=
  let w := w <| cached_now_ms := ms_of now |> <| packets_this_iter := 0%N |> in
  let! ' (w, due) := in_mgr (drain_scheduled_egress (ms_of now) []) w in
  Ret (send_batch w due).

(** The end of a round, at [now] if the clock is asked. *)
Definition end_round (room : nat -> bool) (id : nat) w (ready_none : bool) (now : N) : run worker :=
  let t := Timer.on_packets (timer w) (packets_this_iter w) in
  let w := w <| timer := t |> in
  if ready_none && (packets_this_iter w =? 0)%N || Timer.should_check_time t (packets_this_iter w) then
    let ' (t, fire) := Timer.should_tick t now in
    let w := w <| cached_now_ms := ms_of now |> <| timer := t |> in
    if fire : bool then
      let! ' (w, egress) := in_mgr (tick [] (cached_now_ms w)) w in
      broadcast room id (send_batch w egress)
    else Ret w
  else Ret w.

(** ** The daemon *)

Context (resolve : str -> N -> option (list SocketAddr)).

Definition create_peer_manager (rekey : N) : M Manager (result unit BootError) :=
  match rendezvous_of resolve c with
  | Err e => mret (Err e)
  | Ok (rdv, _) =>
      memb ← lift (membership_of c);
      new_manager (local_private c) (local_public c) (peers c) (device_kind c) rdv memb (relayed (rendezvous c)) rekey ;;
      mfor [ObfPsk (obf_psk c); CoverTraffic (cover_traffic_ms c); TrafficDefense (traffic_defense c)] configure ;;
      mret (Ok tt)
  end.

Definition shard_settings (id : nat) : list Setting :=
  [NumShards (N.of_nat num_shards); ShardId (N.of_nat id); DataSymbolSize (symbol_size c)].

Definition rings (id : nat) : list (option (list ShardMsg)) :=
  (fun k => if k =? id then None else Some []) <$> List.seq 0 num_shards.

(** The thread of a worker up to its loop.  [s0] holds nothing but the draws of
    the random generator. *)
Definition start_worker (rekey : N) (s0 : Manager) (id : nat) : run (result worker BootError) :=
  let! ' (s, r) := create_peer_manager rekey s0 in
  match r with
  | Err e => Ret (Err e)
  | Ok _ =>
      let! ' (s, _) := mfor (shard_settings id) configure s in
      Ret (Ok (mkWorker s (rings id) 0 0 (Timer.new 0) [] []))
  end.

Inductive ShardError := NoShards | UnsupportedTransport | WorkerFailed (e : BootError).

Fixpoint start_workers (rekey : N) (s0 : nat -> Manager) (ids : list nat) : run (result (list worker) ShardError) :=
  match ids with
  | [] => Ret (Ok [])
  | id :: ids =>
      let! r := start_worker rekey (s0 id) id in
      match r with
      | Err e => Ret (Err (WorkerFailed e))
      | Ok w =>
          let! r := start_workers rekey s0 ids in
          Ret (match r with Ok ws => Ok (w :: ws) | Err e => Err e end)
      end
  end.

Definition run_sharded (rekey : N) (s0 : nat -> Manager) : run (result (list worker) ShardError) :=
  if num_shards =? 0 then Ret (Err NoShards)
  else match transport c with
       | RawUdp => start_workers rekey s0 (List.seq 0 num_shards)
       | _ => Ret (Err UnsupportedTransport)
       end.

(** What one worker does in its loop, and what it sees of its rings. *)
Inductive event :=
| Woken (id : nat) (now : N)
| Received (id : nat) (src : SocketAddr) (dg : list u8)
| XskReceived (id : nat) (dg : list u8)
| TunRead (id : nat) (buf : list u8)
| Drained (id from count : nat)
| RoundEnd (id : nat) (ready_none : bool) (now : N).

Definition at_worker (ws : list worker) (id : nat) (f : worker -> run worker) : run (list worker) :=
  match ws !! id with
  | Some w => let! w := f w in Ret (<[id := w]> ws)
  | None => Ret ws
  end.

(** The first messages of a ring, which leave it. *)
Definition take_ring (ws : list worker) (from id count : nat) : list worker * list ShardMsg :=
  match ws !! from with
  | Some p =>
      match tx p !! id with
      | Some (Some q) => (<[from := p <| tx := <[id := Some (drop count q)]> (tx p) |>]> ws, take count q)
      | _ => (ws, [])
      end
  | None => (ws, [])
  end.

Definition step (ws : list worker) (x : (nat -> bool) * event) : run (list worker) :=
  let ' (room, e) := x in
  match e with
  | Woken id now => at_worker ws id (fun w => wake w now)
  | Received id src dg => at_worker ws id (fun w => receive room id w src dg)
  | XskReceived id dg => at_worker ws id (fun w => receive_xsk room id w dg)
  | TunRead id buf => at_worker ws id (fun w => read_tun room id w buf)
  | Drained id from count =>
      let ' (ws, ms) := take_ring ws from id (Nat.min count DRAIN_MAX) in
      at_worker ws id (fun w => drain_inbox room id w ms)
  | RoundEnd id ready_none now => at_worker ws id (fun w => end_round room id w ready_none now)
  end.

Definition run_steps (ws : list worker) (es : list ((nat -> bool) * event)) : run (list worker) := rfold step es ws.

End Shard.
End Shard.

(** * Properties *)

(** ** Flows *)

Module TupleOk.
Import Offload Tuple.

Lemma extract_ports_ok payload proto : exists r, extract_ports payload proto = Ret r.
Proof.
  unfold extract_ports. destruct (_ && _) eqn:E; [|by eexists]. apply andb_prop in E as [_ E%Nat.leb_le].
  destruct (u16_at_total payload 0) as (a & -> & _); [lia|]. destruct (u16_at_total payload 2) as (b & -> & _); [lia|]. by eexists.
Qed.

(** No packet makes the extraction fail. *)
Lemma extract_ok pkt : exists o, extract pkt = Ret o.
Proof.
  unfold extract. destruct pkt as [|b pkt]; [by eexists|]. set (p := b :: pkt). destruct (_ =? _)%N; [|destruct (_ =? _)%N; [|by eexists]].
  - unfold extract_v4. destruct (Nat.ltb_spec (length p) 20) as [|H]; [by eexists|]. destruct (byte_at_ok p 0) as (b0 & _ & ->); [lia|]. cbn [rbind].
    set (ihl := N.to_nat (N.land (b2n b0) 15 * 4)). destruct (Nat.ltb_spec (length p) ihl) as [|Hl]; [by eexists|]. cbn [orb].
    destruct (ihl <? 20); [by eexists|]. destruct (lookup_lt_is_Some_2 p 9) as [pr ->]; [lia|]. cbn [rexpect rbind].
    rewrite !slice_run_ok by lia. cbn [rbind]. destruct (byte_at_ok p 6) as (b6 & _ & ->); [lia|]. destruct (byte_at_ok p 7) as (b7 & _ & ->); [lia|].
    cbn [rbind]. destruct (_ =? _)%N; [|by eexists]. cbn [rbind].
    destruct (extract_ports_ok (slice ihl (length p) p) pr) as [[sp dp] ->]. by eexists.
  - unfold extract_v6. destruct (Nat.ltb_spec (length p) 40) as [|H]; [by eexists|].
    destruct (lookup_lt_is_Some_2 p 6) as [nh ->]; [lia|]. cbn [rexpect rbind]. rewrite !slice_run_ok by lia. cbn [rbind].
    destruct (extract_ports_ok (slice 40 (length p) p) nh) as [[sp dp] ->]. by eexists.
Qed.

(** The flow in the other direction. *)
Definition reversed (f : FlowTuple) : FlowTuple := mkFlow (dst_ip f) (src_ip f) (f_proto f) (dst_port f) (src_port f).

(** Both directions of a connection have one hash. *)
Lemma symmetric_reversed {hasher : DefaultHasher} f : symmetric_flow_hash (reversed f) = symmetric_flow_hash f.
Proof.
  pose proof (Key.canonical_reversed (mkFlowKey (src_ip f) (dst_ip f) (src_port f) (dst_port f) (f_proto f))) as H.
  destruct f as [s d p sp dp]. unfold symmetric_flow_hash, Key.canonical, Key.reversed, reversed in *. cbn in *.
  destruct (endpoint_leb d dp s sp), (endpoint_leb s sp d dp); first [reflexivity|by injection H as ? ? ? ?; subst].
Qed.

End TupleOk.

Module MapOk.
Import Tuple TupleOk Map.
Section MapOk.
Context {hasher : DefaultHasher} {blake : Blake2s}.

Lemma mod_lt (h : N) n : 0 < n -> N.to_nat (h mod N.of_nat n) < n.
Proof. intros H. pose proof (N.mod_lt h (N.of_nat n)). lia. Qed.

Lemma select_ok pool pkt tap a : exists o, select_egress_socket pool pkt tap a = Ret o.
Proof.
  unfold select_egress_socket. destruct pool as [|v l]; [by eexists|]. set (pool := v :: l).
  destruct (extract_ok (if tap then if is_ip_frame pkt then drop 14 pkt else [] else pkt)) as [o ->]. cbn [rbind].
  set (h := match o with Some f => flow_hash f | None => 0%N end).
  destruct (lookup_lt_is_Some_2 pool (N.to_nat (h mod N.of_nat (length pool)))) as [x ->]; [apply mod_lt; cbn; lia|]. by eexists.
Qed.

End MapOk.
End MapOk.

(** ** No input makes a worker fail *)

Module ShardOk.
Import Pm Tbl Obfs Route Disp Safe Map MapOk Cfg CfgOk Boot Shard.
#[local] Existing Instances Client.configured_rendezvous Client.tls_relay_rendezvous Client.configured_laws Client.tls_relay_laws.
#[local] Existing Instance Shard.worker_eta.

Section Ok.
Context {snow : Snow} {kem : MlKem} {aead : Sess.Aead} {D : Type} {MP : ManagedPlane D}.
Context {blake : Blake2s} {ed : Ed25519} {iter : HashIter} {sip : SipHash24} {os : Os} {hasher : DefaultHasher}.
Context {wf : D -> Prop} {clock : N -> Prop} {ML : ManagedLaws wf clock}.
Context {BL : Blake2sLaws} {EL : Ed25519Laws} {IL : HashIterLaws} {SL : SnowLaws}.
Notation Manager := (PeerManager D DynRendezvous).
Context (c : Config) (num_shards : nat) (vnet big_endian : bool) (pool : list (option bool)).
Context (enrolled : forall k x, os_enroll k = Some x -> DirWf.announceable x [listen c]).
Notation inv := (Safe.inv (T := DynRendezvous) wf [listen c]).
Notation safe := (Safe.safe (T := DynRendezvous) wf [listen c]).
Notation worker := (Shard.worker (D := D)).
Implicit Types (s : Manager) (w : worker).

Lemma safe_install n pk est ep : fresh est -> safe n (install_established_session pk est ep) any.
Proof.
  intros Hf. unfold install_established_session. cbv zeta. safe_step.
  set (find := fun s => position (fun p => bool_decide (pubkey p = pk)) (Pm.peers s)).
  eapply safe_bind_grow with (R := fun s o => forall i, o = Some i -> i < length (Pm.peers s)).
  { change (position _ (Pm.peers s)) with (find s). destruct (find s) as [i|] eqn:E.
    - intros s1 [Hs1 Hn1]. exists s1, (Some i). split; [done|]. split; [done|]. intros j [= <-]. apply position_lt in E. lia.
    - eapply spec_bind; [apply (safe_admit_member (wf := wf))|]. intros [] s1 [Hs1 _]. exists s1, (find s1).
      split; [done|]. split; [done|]. intros i. apply position_lt. }
  intros s1 [idx|] Hs1 Hn1 Hi; [|by safely]. specialize (Hi idx eq_refl). safe_step.
  eapply safe_bind; [apply safe_peer_at; lia|]. intros p Hp.
  eapply safe_bind with (R := any); [destruct ep; safely|]. intros _ _.
  eapply safe_bind; [apply safe_modify|intros _ _].
  { intros s2 [[] Hn2]. split; [|done]. constructor; try done; cbn; (apply in_table_insert; [lia|done]). }
  eapply safe_bind; [by apply safe_touch; [lia|intros ?]|]. intros _ _.
  apply safe_set_epochs; [lia|]. apply (set_ratio_wf (clock := clock)), EpochWf.epochs_new_wf.
  destruct (_ <? _)%N; [apply (ml_set_shard (clock := clock))|]; by apply (new_plane_wf (eps := [listen c])).
Qed.

(** What a worker and its rings keep to. *)
Definition msg_ok (m : ShardMsg) : Prop := match m with PacketMsg p => sealable p | _ => True end.
Definition ring_ok (o : option (list ShardMsg)) : Prop := match o with Some q => length q <= RING_CAP /\ Forall msg_ok q | None => True end.

Record worker_ok w : Prop := {
  wo_mgr : inv (mgr w);
  wo_tx : Forall ring_ok (tx w);
  wo_clock : clock (cached_now_ms w);
}.

Definition serves (r : run worker) : Prop := exists w, r = Ret w /\ worker_ok w.

Lemma worker_serves_ret w : worker_ok w -> serves (Ret w).
Proof. intros H. by exists w. Qed.

Lemma worker_serves_bind (r : run worker) (k : worker -> run worker) : serves r -> (forall w, worker_ok w -> serves (k w)) -> serves (rbind r k).
Proof. intros (w & -> & Hw) Hk. by apply Hk. Qed.

Lemma serves_rfold {A} (f : worker -> A -> run worker) (l : list A) (P : A -> Prop) w :
  Forall P l -> (forall w a, worker_ok w -> P a -> serves (f w a)) -> worker_ok w -> serves (rfold f l w).
Proof.
  intros Hl Hf. revert w. induction Hl as [|a l Ha _ IH]; intros w Hw; cbn [rfold]; [by apply worker_serves_ret|].
  eapply worker_serves_bind; [by apply Hf|]. intros w' Hw'. by apply IH.
Qed.

(** A computation on the manager. *)
Lemma serves_mgr {A} (m : M Manager A) w (k : worker * A -> run worker) :
  safe 0 m any -> worker_ok w -> (forall w' a, worker_ok w' -> serves (k (w', a))) -> serves (rbind (in_mgr m w) k).
Proof.
  intros Hm [] Hk. unfold in_mgr. destruct (Hm (mgr w)) as (s & a & -> & [Hs _] & _); [by split; [|lia]|]. cbn [rbind].
  apply Hk. by constructor.
Qed.

Lemma ring_push_ok room w k m : worker_ok w -> msg_ok m -> worker_ok (push room w k m).1.
Proof.
  intros [] Hm. unfold push. destruct (tx w !! k) as [[q|]|] eqn:E; [|by constructor..].
  destruct (_ && _) eqn:Er; [|by constructor]. apply andb_prop in Er as [_ Hl%Nat.ltb_lt].
  pose proof (proj1 (Forall_lookup _ _) wo_tx0 _ _ E) as [_ Hq]. constructor; cbn; try done. apply Forall_insert; [done|].
  split; [rewrite length_app; cbn; lia|]. apply Forall_app. split; [done|]. by constructor.
Qed.

(** A change of what the worker put out or counts. *)
Lemma worker_ok_out w w' : worker_ok w -> mgr w' = mgr w -> tx w' = tx w -> cached_now_ms w' = cached_now_ms w -> worker_ok w'.
Proof. intros [] E1 E2 E3. constructor; congruence. Qed.

Lemma fold_ok {A} (f : worker -> A -> worker) (l : list A) w :
  (forall w a, worker_ok w -> worker_ok (f w a)) -> worker_ok w -> worker_ok (fold_left f l w).
Proof. intros Hf. revert w. induction l as [|a l IH]; intros w Hw; cbn; [done|]. apply IH, Hf, Hw. Qed.

Lemma broadcast_ok room id w : worker_ok w -> serves (broadcast num_shards room id w).
Proof.
  intros Hw. unfold broadcast. destruct (id =? 0); [|by apply worker_serves_ret].
  apply serves_mgr; [|done|].
  - unfold drain_new_epochs. safely.
  - intros w' es Hw'. apply worker_serves_ret. apply fold_ok; [|done]. intros w1 e H1. apply fold_ok; [|done]. intros. by apply ring_push_ok.
Qed.

Lemma worker_udp_ok room id w src dg : worker_ok w -> serves (serve_udp num_shards vnet room id w src dg).
Proof.
  intros Hw. unfold serve_udp. apply serves_mgr; [apply Run.safe_on_udp, Hw|done|]. intros w' out Hw'. destruct (own_dispatch out) as [tun egress].
  apply broadcast_ok. destruct tun; by eapply worker_ok_out.
Qed.

Lemma receive_ok room id w src dg : worker_ok w -> serves (receive num_shards vnet room id w src dg).
Proof.
  intros Hw. unfold receive. set (w1 := _ <| packets_this_iter := _ |>). assert (worker_ok w1) as H1 by by eapply worker_ok_out.
  destruct (_ && _); [by apply worker_serves_ret, ring_push_ok|]. destruct (shard_for_fec_control dg num_shards) as [t|]; [|by apply worker_udp_ok].
  destruct (t =? id); [by apply worker_udp_ok|]. pose proof (ring_push_ok room w1 t (ArqFeedback dg src) H1 I).
  destruct (push room w1 t (ArqFeedback dg src)) as [w2 []]; [by apply worker_serves_ret|by apply worker_udp_ok].
Qed.

Lemma serve_tun_ok w pkt : worker_ok w -> sealable pkt -> serves (serve_tun c pool w pkt).
Proof.
  intros Hw Hp. unfold serve_tun. apply serves_mgr; [apply Run.safe_on_tun; [apply Hw|done]|done|]. intros w' egress Hw'.
  apply serves_rfold with (P := fun _ => True); [by apply Forall_true| |done]. intros w1 d H1 _. unfold send_tun.
  destruct (bool_decide _); [destruct (select_ok pool pkt (is_tap c) (Dp.dst d)) as [o ->]|]; (apply worker_serves_ret; by eapply worker_ok_out).
Qed.

Lemma safe_established n inner : safe n (is_tun_target_established inner) any.
Proof.
  unfold is_tun_target_established. safe_step. destruct (route_tun_index s inner) as [i|] eqn:E; [|by safely].
  pose proof (SafeHs.route_tun_lt _ _ _ H E). safely.
Qed.

Lemma worker_dispatch_ok room id w pkt : worker_ok w -> sealable pkt -> serves (dispatch_pkt c num_shards pool room id w pkt).
Proof.
  intros Hw Hp. unfold dispatch_pkt. apply serves_mgr; [apply safe_established|by eapply worker_ok_out|]. intros w' [] Hw'; [by apply serve_tun_ok|].
  destruct (id =? 0); [eapply worker_serves_bind; [by apply serve_tun_ok|]; intros; by apply broadcast_ok|]. by apply worker_serves_ret, ring_push_ok.
Qed.

(** What the kernel delivers fits the buffers, and no packet of the device is
    longer than a frame can be. *)
Definition event_ok (e : event) : Prop :=
  match e with
  | Woken _ now | RoundEnd _ _ now => clock (ms_of now)
  | TunRead _ buf => (N.of_nat (length buf) < 2 * u16_mod)%N /\ Forall sealable (Poll.packets_of vnet big_endian buf)
  | _ => True
  end.

Lemma read_tun_ok room id w buf : worker_ok w -> event_ok (TunRead id buf) -> serves (read_tun c num_shards vnet big_endian pool room id w buf).
Proof.
  intros Hw [Hl Hp]. unfold read_tun, vnet_len. unfold Poll.packets_of in Hp. destruct (Nat.leb_spec (length buf) (if vnet then VNET_HDR_LEN else 0)) as [|Hn]; [by apply worker_serves_ret|].
  destruct vnet; [|rewrite drop_0; apply worker_dispatch_ok; [done|by inversion Hp]].
  destruct (Offload.split_gro_total big_endian buf Hl) as (out & offsets & acc & E & Ho). rewrite E in *. cbn [rbind].
  destruct acc.
  - unfold Offload.cut in Hp. rewrite Forall_fmap in Hp.
    apply serves_rfold with (P := fun o => o.1 + o.2 <= length out /\ sealable (slice o.1 (o.1 + o.2) out)); [by apply Forall_and| |done].
    intros w1 o H1 [H2 H3]. rewrite slice_run_ok by lia. cbn [rbind]. by apply worker_dispatch_ok.
  - rewrite (proj2 (Nat.leb_le _ _)) in Hp by lia. apply worker_dispatch_ok; [done|by inversion Hp].
Qed.

Lemma serve_msg_ok room id w m : worker_ok w -> msg_ok m -> serves (serve_msg c num_shards vnet pool room id w m).
Proof.
  intros Hw Hm. destruct m as [pkt|e|dg src|dg src]; cbn [serve_msg].
  - eapply worker_serves_bind; [by apply serve_tun_ok|]. intros; by apply broadcast_ok.
  - destruct (Sess.from_raw_keys _ _ _ _) as [sess|] eqn:E; [|by apply worker_serves_ret].
    apply serves_mgr; [apply safe_install|done|intros; by apply worker_serves_ret]. unfold fresh. cbn.
    unfold Sess.from_raw_keys in E. destruct (Sess.key_new _); [|done]. destruct (Sess.key_new _); [|done]. by injection E as <-.
  - by apply worker_udp_ok.
  - by apply worker_udp_ok.
Qed.

Lemma wake_ok w now : worker_ok w -> clock (ms_of now) -> serves (wake w now).
Proof.
  intros [] Hn. unfold wake. apply serves_mgr; [apply safe_drain_scheduled|by constructor|]. intros w' due Hw'. apply worker_serves_ret. by eapply worker_ok_out.
Qed.

Lemma end_round_ok room id w none now : worker_ok w -> clock (ms_of now) -> serves (end_round num_shards room id w none now).
Proof.
  intros [] Hn. unfold end_round. set (t := Timer.on_packets _ _). cbn zeta.
  destruct (_ || _); [|by apply worker_serves_ret; constructor]. destruct (Timer.should_tick t now) as [t' []]; [|by apply worker_serves_ret; constructor].
  apply serves_mgr; [by apply (Run.safe_tick enrolled)|by constructor|]. intros w' out Hw'. apply broadcast_ok. by eapply worker_ok_out.
Qed.

(** *** The daemon *)

Lemma at_worker_ok (ws : list worker) id f :
  Forall worker_ok ws -> (forall w, worker_ok w -> serves (f w)) -> exists ws', at_worker ws id f = Ret ws' /\ Forall worker_ok ws' /\ length ws' = length ws.
Proof.
  intros Hws Hf. unfold at_worker. destruct (ws !! id) as [w|] eqn:E; [|by exists ws].
  destruct (Hf w) as (w' & -> & Hw'); [by apply (proj1 (Forall_lookup _ _) Hws _ _ E)|]. cbn [rbind]. eexists. split; [done|].
  split; [by apply Forall_insert|]. apply length_insert.
Qed.

Lemma take_ring_ok (ws : list worker) from id count :
  Forall worker_ok ws -> Forall worker_ok (take_ring ws from id count).1 /\ Forall msg_ok (take_ring ws from id count).2 /\
    length (take_ring ws from id count).1 = length ws.
Proof.
  intros Hws. unfold take_ring. destruct (ws !! from) as [p|] eqn:E; [|done]. destruct (tx p !! id) as [[q|]|] eqn:Eq; [|done..].
  destruct (proj1 (Forall_lookup _ _) Hws _ _ E) as [Hm Ht Hc]. pose proof (proj1 (Forall_lookup _ _) Ht _ _ Eq) as [Hl Hq].
  split; [|split; [by apply Forall_take|cbn; by rewrite length_insert]]. apply Forall_insert; [done|]. constructor; try done.
  cbn. apply Forall_insert; [done|]. split; [rewrite length_drop; lia|by apply Forall_drop].
Qed.

Lemma shard_step_ok (ws : list worker) room e : Forall worker_ok ws -> event_ok e ->
  exists ws', step c num_shards vnet big_endian pool ws (room, e) = Ret ws' /\ Forall worker_ok ws' /\ length ws' = length ws.
Proof.
  intros Hws He. destruct e as [id now|id src dg|id dg|id buf|id from count|id none now]; cbn [step].
  - apply at_worker_ok; [done|]. intros. by apply wake_ok.
  - apply at_worker_ok; [done|]. intros. by apply receive_ok.
  - apply at_worker_ok; [done|]. intros. unfold receive_xsk. destruct (_ <=? _); [by apply receive_ok|].
    apply worker_serves_ret. by eapply worker_ok_out.
  - apply at_worker_ok; [done|]. intros. by apply read_tun_ok.
  - destruct (take_ring_ok ws from id (Nat.min count DRAIN_MAX) Hws) as (H1 & H2 & <-). destruct (take_ring _ _ _ _) as [ws1 ms]. cbn in *.
    apply at_worker_ok; [done|]. intros w Hw. unfold drain_inbox. eapply serves_rfold; [exact H2| |by eapply worker_ok_out].
    intros. by apply serve_msg_ok.
  - apply at_worker_ok; [done|]. intros. by apply end_round_ok.
Qed.

Lemma run_steps_ok (ws : list worker) es : Forall worker_ok ws -> Forall (fun x => event_ok x.2) es ->
  exists ws', run_steps c num_shards vnet big_endian pool ws es = Ret ws' /\ Forall worker_ok ws' /\ length ws' = length ws.
Proof.
  intros Hws He. revert ws Hws. induction He as [|[room e] es Hx _ IH]; intros ws Hws; [by exists ws|]. unfold run_steps in *. cbn [rfold].
  destruct (shard_step_ok ws room e Hws Hx) as (ws1 & -> & H1 & <-). cbn [rbind]. by apply IH.
Qed.

Context (clock_zero : clock 0%N) (resolve : str -> N -> option (list SocketAddr)).

Lemma shard_settings_ok id : Forall Run.setting_ok (shard_settings c num_shards id).
Proof.
  repeat constructor. cbn. unfold symbol_size, u32_mod, u16_mod. cbn zeta.
  destruct (N.ltb_spec (N.min (default 1400 (mtu c) + 30) (2 ^ 32 - 1)) (2 ^ 16))%N; lia.
Qed.

Lemma safe_settings xs : Forall Run.setting_ok xs -> safe 0 (mfor xs configure) any.
Proof. intros H. apply safe_mfor. intros x Hx. apply Run.safe_configure. by apply (proj1 (Forall_forall _ _) H). Qed.

Lemma create_spec rekey rdv : config_ok c -> announces c -> rendezvous_of resolve c = Ok rdv ->
  spec (fun _ => True) (create_peer_manager c resolve rekey) (fun s r => inv s /\ r = Ok tt).
Proof.
  intros Hc Ha Er. destruct (membership_of_safe c Hc Ha) as (o & Eo & Ho). unfold create_peer_manager. rewrite Er. destruct rdv as [rdv a]. rewrite Eo.
  eapply spec_bind with (R := fun _ m => m = o); [by intros s _; exists s, o|]. intros m. apply spec_given. intros ->.
  eapply spec_bind; [by apply (Run.new_manager_spec (wf := wf) (eps := [listen c]))|]. intros [].
  eapply spec_bind with (R := fun s _ => inv s).
  - eapply spec_conseq with (P' := Safe.inv_at wf [listen c] 0) (Q' := fun s _ => Safe.inv_at wf [listen c] 0 s /\ True);
      [|by intros s H; split; [|lia]|by intros s u [[? _] _]].
    apply safe_settings. pose proof (settings_of_ok c Hc) as H. unfold settings_of in H. apply Forall_app in H as [H _].
    do 3 (apply Forall_cons in H as [? H]). do 3 (apply Forall_cons_2; [assumption|]). apply Forall_nil_2.
  - intros [] s Hs. by exists s, (Ok tt).
Qed.

Lemma start_worker_ok rekey rdv s0 id : config_ok c -> announces c -> rendezvous_of resolve c = Ok rdv ->
  exists w, start_worker c num_shards resolve rekey s0 id = Ret (Ok w) /\ worker_ok w.
Proof.
  intros Hc Ha Er. unfold start_worker. destruct (create_spec rekey rdv Hc Ha Er s0 I) as (s & r & -> & Hs & ->). cbn [rbind].
  destruct (safe_settings (shard_settings c num_shards id) (shard_settings_ok id) s) as (s' & u & -> & [Hs' _] & _); [by split; [|lia]|].
  cbn [rbind]. eexists. split; [done|]. constructor; cbn; [done| |done]. unfold rings. apply Forall_fmap, Forall_forall. intros k _. cbn.
  destruct (k =? id); [done|]. split; [cbn; lia|done].
Qed.

Lemma start_workers_ok rekey rdv (s0 : nat -> Manager) ids : config_ok c -> announces c -> rendezvous_of resolve c = Ok rdv ->
  exists ws, start_workers c num_shards resolve rekey s0 ids = Ret (Ok ws) /\ Forall worker_ok ws /\ length ws = length ids.
Proof.
  intros Hc Ha Er. induction ids as [|id ids (ws & IH & Hws & Hl)]; cbn [start_workers]; [by exists []|].
  destruct (start_worker_ok rekey rdv (s0 id) id Hc Ha Er) as (w & -> & Hw). cbn [rbind]. rewrite IH. cbn [rbind].
  eexists. split; [done|]. split; [by constructor|]. cbn. by f_equal.
Qed.

End Ok.

Section Daemon.
Context {snow : Snow} {kem : MlKem} {aead : Sess.Aead} {D : Type} {MP : ManagedPlane D}.
Context {blake : Blake2s} {ed : Ed25519} {iter : HashIter} {sip : SipHash24} {os : Os} {hasher : DefaultHasher}.
Context {wf : D -> Prop} {clock : N -> Prop} {ML : ManagedLaws wf clock}.
Context {BL : Blake2sLaws} {EL : Ed25519Laws} {IL : HashIterLaws} {SL : SnowLaws}.
Notation Manager := (PeerManager D DynRendezvous).

(** C4: No input brings the sharded daemon down.  From a configuration file it
    accepts, for the raw transport, all workers start, each with a manager in
    good order; and however their rounds interleave, whatever datagrams,
    packets and messages they handle, and whether or not a producer sees the
    room in its rings, no worker fails: every manager stays in good order and
    no ring holds more than its 2048 messages. *)
Theorem workers_never_fail fs text c n rdv rekey (s0 : nat -> Manager) vnet big_endian pool resolve :
  clock 0%N -> Cfg.parse fs text = Ret (Ok c) -> shards c = N.of_nat n -> transport c = RawUdp -> announces c ->
  rendezvous_of resolve c = Ok rdv -> (forall k x, os_enroll k = Some x -> DirWf.announceable x [listen c]) ->
  exists ws, run_sharded c n resolve rekey s0 = Ret (Ok ws) /\ length ws = n /\
    forall es, Forall (fun x => event_ok (clock := clock) vnet big_endian x.2) es ->
      exists ws', run_steps c n vnet big_endian pool ws es = Ret ws' /\ length ws' = n /\
        Forall (fun w => Safe.inv (T := DynRendezvous) wf [listen c] (mgr w) /\
          forall k q, tx w !! k = Some (Some q) -> length q <= RING_CAP) ws'.
Proof.
  intros H0 Ep Hn Ht Ha Er He. destruct (CfgOk.parse_sound fs text) as (r & Ep' & Hc). rewrite Ep in Ep'. injection Ep' as <-.
  destruct (start_workers_ok (wf := wf) (clock := clock) c n H0 resolve rekey rdv s0 (List.seq 0 n) Hc Ha Er) as (ws & Es & Hws & Hl).
  rewrite length_seq in Hl. exists ws. unfold run_sharded. rewrite Ht, Es.
  destruct n as [|n]; [pose proof (co_shards c Hc); lia|]. cbn [Nat.eqb]. split; [done|]. split; [done|]. intros es Hes.
  destruct (run_steps_ok (wf := wf) (clock := clock) c (S n) vnet big_endian pool He ws es Hws Hes) as (ws' & E & Hws' & Hl'). exists ws'. split; [done|].
  split; [congruence|]. eapply Forall_impl; [exact Hws'|]. intros w [Hm Htx _]. split; [done|]. intros k q Hq.
  apply (proj1 (Forall_lookup _ _) Htx _ _ Hq).
Qed.

End Daemon.
End ShardOk.

(** ** The counters of the workers *)

Module Counters.
Import Sess.
Local Open Scope N_scope.
Section Counters.
Context {aead : Sess.Aead}.
Implicit Types s : Session.

Lemma send_ops_app os1 os2 s :
  send_ops (os1 ++ os2) s = ((send_ops os1 s).1 ++ (send_ops os2 (send_ops os1 s).2).1, (send_ops os2 (send_ops os1 s).2).2).
Proof.
  revert s. induction os1 as [|o os IH]; intros s; cbn [send_ops app fst snd]; [by rewrite <- surjective_pairing|].
  destruct o as [p|p|start st]; [destruct (seal s p) as [s' r]|destruct (seal_into s p) as [s' r]|by rewrite IH]; rewrite IH;
    destruct (send_ops os s') as [cs s'']; cbn [fst snd]; destruct (send_ops os2 s'') as [cs2 s3]; cbn [fst snd]; [by destruct r|by destruct r as [[]|]].
Qed.

(** Seals count up, and a counter used was used for a packet under the key. *)
Lemma seals_count ps s : send_ok s ->
  let r := send_ops (map OSeal ps) s in
  send_ok r.2 /\ send_key r.2 = send_key s /\ stride r.2 = stride s /\
  send_counter r.2 = send_counter s + N.of_nat (length r.1) * stride s /\
  (forall i c, r.1 !! i = Some c -> c = send_counter s + N.of_nat i * stride s /\ exists p, is_Some (seal_append (send_key s) c p)).
Proof.
  revert s. induction ps as [|p ps IH]; intros s Hs r; subst r; cbn [map send_ops].
  { cbn. split_and!; try done; lia. }
  destruct (seal s p) as [s' r] eqn:E. assert (E' := E). unfold seal, next_counter in E.
  destruct (seal_append (send_key s) (send_counter s) p) as [buf|] eqn:Eb; [|injection E as <- <-; specialize (IH s Hs); by destruct (send_ops _ s)].
  destruct (N.ltb_spec (send_counter s + stride s) u64_mod); [|injection E as <- <-; specialize (IH s Hs); by destruct (send_ops _ s)].
  destruct (seal_step s p Hs) as [[e E2]|(s2 & ct & E2 & Hs2 & Hc & Hst)]; rewrite E2 in E'; [congruence|].
  injection E' as <- <-. injection E as E3 _. specialize (IH s2 Hs2). rewrite Hst, Hc in IH. subst s2.
  destruct (send_ops (map OSeal ps) _) as [cs s3]. cbn in *. destruct IH as (? & ? & ? & Hn & Hi). split_and!; try done; [lia|].
  intros [|i] c; cbn.
  - intros [= <-]. split; [lia|]. exists p. by rewrite Eb.
  - intros Hic. destruct (Hi i c Hic) as [-> ?]. split; [lia|done].
Qed.

Lemma raw_keys_inv ks kr i n s : from_raw_keys ks kr i n = Ok s -> 0 < n -> i < u64_mod ->
  send_ok s /\ send_counter s = i /\ stride s = n /\ key_new ks = Some (send_key s).
Proof.
  intros E Hn Hi. unfold from_raw_keys, norm_stride in E. rewrite (proj2 (N.eqb_neq n 0)) in E by lia.
  destruct (key_new ks) eqn:Ek; [|done]. destruct (key_new kr); [|done]. injection E as <-. unfold send_ok. cbn. by split_and!.
Qed.

(** After [k <= 1] seals with stride one, the next ones are multiples of [n]. *)
Lemma restrided s n : send_ok s -> send_counter s <= 1 -> 1 < n -> n + 1 < u64_mod ->
  send_ok (set_stride s 0 n) /\ stride (set_stride s 0 n) = n /\ send_counter (set_stride s 0 n) mod n = 0.
Proof.
  intros Hs Hc Hn Hb. split; [by apply set_stride_ok|]. destruct (decide (send_counter s = 0)) as [E|E].
  - unfold set_stride, norm_stride. rewrite (proj2 (N.eqb_neq n 0)) by lia. rewrite E. cbn. split; [done|]. by apply N.Div0.mod_0_l.
  - destruct (set_stride_aligns s 0 n Hs E) as (_ & -> & ->); [lia|lia|]. split; [done|]. by apply N.Div0.mod_0_l.
Qed.

(** C21: The workers' nonces are disjoint exactly when shard 0 sealed at most one
    frame before it took its stride.  Shard 0 seals what waited for the
    handshake with stride one and only then changes to its stride, when it
    replicates the session; the other workers start at their own index.  If it
    sealed at most one frame before, no counter of shard 0 is ever one of
    another worker; if it sealed two, the first frame of worker 1 can use a
    counter, under the same key, that shard 0 has used. *)
Theorem worker_nonces_disjoint_iff ks kr n s0 pre :
  1 < n -> n + 1 < u64_mod -> from_raw_keys ks kr 0 1 = Ok s0 ->
  (forall ps i si qs, 0 < i < n -> from_raw_keys ks kr i n = Ok si ->
     Forall (fun c => c ∉ (send_ops (map OSeal qs) si).1) (send_ops (map OSeal pre ++ OSetStride 0 n :: map OSeal ps) s0).1) <->
  (length (send_ops (map OSeal pre) s0).1 <= 1)%nat.
Proof.
  intros Hn Hb E0. destruct (raw_keys_inv _ _ _ _ _ E0) as (H0 & Hc0 & Hs0 & Hk0); [lia|lia|].
  pose proof (seals_count pre s0 H0) as (H1 & Hk1 & Hs1 & Hc1 & Hcs). rewrite Hc0, Hs0 in *. split.
  - intros H. destruct (decide (2 <= length (send_ops (map OSeal pre) s0).1)%nat) as [Hl|]; [exfalso|lia].
    destruct (lookup_lt_is_Some_2 (send_ops (map OSeal pre) s0).1 1) as [c Ec]; [lia|].
    destruct (Hcs _ _ Ec) as [-> [p [buf Eb]]]. change (0 + N.of_nat 1 * 1) with 1 in Eb, Ec.
    destruct (from_raw_keys ks kr 1 n) as [s1|] eqn:E1.
    2: { unfold from_raw_keys in E0, E1. destruct (key_new ks); [|done]. by destruct (key_new kr). }
    specialize (H [] 1 s1 [p] ltac:(lia) E1). destruct (raw_keys_inv _ _ _ _ _ E1) as (_ & Hc & Hs & Hk); [lia|lia|].
    rewrite send_ops_app in H. apply Forall_app in H as [H _]. apply (proj1 (Forall_lookup _ _) H _ _ Ec).
    cbn [map send_ops]. unfold seal, next_counter. rewrite Hc, Hs. assert (send_key s1 = send_key s0) as -> by congruence.
    rewrite Eb, (proj2 (N.ltb_lt _ _)) by lia. left.
  - intros Hl ps i si qs Hi Ei. destruct (raw_keys_inv _ _ _ _ _ Ei) as (Hoi & Hci & Hsi & _); [lia|lia|].
    assert (Forall (fun c => c mod n = 0) (send_ops (map OSeal pre ++ OSetStride 0 n :: map OSeal ps) s0).1) as Hz.
    { rewrite send_ops_app. apply Forall_app. split.
      - apply Forall_lookup. intros j c Hj. destruct (Hcs j c Hj) as [-> _]. apply lookup_lt_Some in Hj. replace j with 0%nat by lia.
        by apply N.Div0.mod_0_l.
      - cbn [fst send_ops]. destruct (restrided (send_ops (map OSeal pre) s0).2 n H1) as (Ho & Hst & Hm); [lia|lia|lia|].
        pose proof (seals_residue ps _ Ho) as R. by rewrite Hst, Hm in R. }
    pose proof (seals_residue qs si Hoi) as R. rewrite Hsi, Hci, (N.mod_small i) in R by lia.
    eapply Forall_impl; [exact Hz|]. intros c Hc Hin. cbn in Hc. pose proof (proj1 (Forall_forall _ _) R c Hin). cbn in *. lia.
Qed.

End Counters.
End Counters.

Module CountersDemo.
Import Sess Counters.
#[local] Existing Instance Sess.toy_aead.
Local Open Scope N_scope.

(** One packet waited: four workers never meet. *)
Lemma worker_nonces_disjoint_iff_witness :
  (send_ops (map OSeal [[Byte.x2a]]) (toy_session 0 1)).1 = [0] /\
  forall ps i si qs, 0 < i < 4 -> from_raw_keys toy_key toy_key i 4 = Ok si ->
    Forall (fun c => c ∉ (send_ops (map OSeal qs) si).1) (send_ops (map OSeal [[Byte.x2a]] ++ OSetStride 0 4 :: map OSeal ps) (toy_session 0 1)).1.
Proof.
  split; [vm_compute; reflexivity|].
  apply (worker_nonces_disjoint_iff toy_key toy_key 4 (toy_session 0 1) [[Byte.x2a]]).
  - reflexivity.
  - reflexivity.
  - reflexivity.
  - vm_compute. apply Nat.le_refl.
Defined.

End CountersDemo.
