(* ===== verification/CaTool.v ===== *)
(** * The certificate authority's tool

    Models the offline commands of bin/yip-ca/src/main.rs: the flags, the
    hexadecimal texts, [genkey], [sign-cert] and [sign-roots], and how [enroll]
    leaves its certificate.  A command is a function of its arguments, the
    standard input, the clock, the files and the key the generator drew; its
    result is what it prints, or an error.

    The theorems tie the tool to the daemon (Config): what the tool prints, put
    in a file, is what the daemon loads and trusts under the key the tool
    printed; and the file [enroll --out] writes is one the daemon cannot load. *)

From Stdlib Require Strings.Byte.
From Stdlib Require Import NArith Lia ZifyBool.
From stdpp Require Import base numbers gmap list.
From S2P Require Import Prelude StateM Reader NetAddr StdText MemberCodec MemberVerify Config.

Local Open Scope N_scope.

Module Ca.
Import Text.

Inductive CaError :=
| Usage | NotAFlag (arg : str) | MissingValue (name : str) | MissingFlag (name : str)
| OddHex | BadHexByte (pair : str) | WrongLength (want got : nat)
| EmptyStdin | BadNumber (val : str) | NoValidity | DaysOverflow | WindowOverflow
| Unreadable (path : str) | MissingPubkey | MissingAddress | TooManyFields | BadAddress (val : str).

Definition SECS_PER_DAY : N := 86400.

Definition and_then {A B} (r : result A CaError) (k : A -> result B CaError) : result B CaError :=
  match r with Ok a => k a | Err e => Err e end.
Notation "'let?' x ':=' e 'in' k" := (and_then e (fun x => k)) (at level 10, x name, e at level 100, k at level 200).

Definition ok_or {A} (o : option A) (e : CaError) : result A CaError := match o with Some a => Ok a | None => Err e end.

(** ** Hexadecimal *)

(** A digit of ["{:02x}"]. *)
Definition hex_digit (n : N) : N := if n <? 10 then 48 + n else 87 + n.

Definition hex_encode (bytes : list u8) : str := concat (map (fun b => [hex_digit (b2n b / 16); hex_digit (b2n b mod 16)]) bytes).

(** The loop over two characters at a time. *)
Fixpoint decode_chars (s : str) : result (list u8) CaError :=
  match s with
  | a :: b :: s =>
      let? byte := ok_or (from_str_radix 256 16 [a; b]) (BadHexByte [a; b]) in
      let? rest := decode_chars s in
      Ok (n2b byte :: rest)
  | _ => Ok []
  end.

Definition hex_decode (s : str) : result (list u8) CaError :=
  let s := trim s in if Nat.even (length (utf8 s)) then decode_chars s else Err OddHex.

(** [fixed32], [fixed16] *)
Definition fixed (n : nat) (bytes : list u8) : result (list u8) CaError :=
  if (length bytes =? n)%nat then Ok bytes else Err (WrongLength n (length bytes)).

(** ** Flags *)

Fixpoint flags_from (args : list str) (map : gmap str str) : result (gmap str str) CaError :=
  match args with
  | [] => Ok map
  | key :: args =>
      match strip_prefix (lit "--") key with
      | None => Err (NotAFlag key)
      | Some name =>
          match args with
          | [] => Err (MissingValue name)
          | value :: args => flags_from args (<[name := value]> map)
          end
      end
  end.
Definition parse_flags (args : list str) : result (gmap str str) CaError := flags_from args ∅.

Definition require (flags : gmap str str) (key : str) : result str CaError := ok_or (flags !! key) (MissingFlag key).

(** [fixed(&hex_decode(require(flags, key)?)?, key)?] *)
Definition require_hex (n : nat) (flags : gmap str str) (key : str) : result (list u8) CaError :=
  let? v := require flags key in let? bytes := hex_decode v in fixed n bytes.

Definition load_ca_private (arg : option str) (stdin : str) : result (list u8) CaError :=
  let? raw := match arg with
              | Some s => Ok s
              | None => match lines stdin with [] => Err EmptyStdin | l :: _ => Ok (trim l) end
              end in
  let raw := match strip_prefix (lit "ca_private=") raw with Some r => r | None => raw end in
  let? bytes := hex_decode raw in
  fixed 32 bytes.

(** ** Commands *)

Definition println (s : str) : str := s ++ [10].

Section Commands.
Context `{Ed25519}.

Definition cmd_genkey (sk : list u8) : str :=
  println (lit "ca_private=" ++ hex_encode sk) ++ println (lit "ca_public=" ++ hex_encode (ed_public sk)).

(** The match on [--secs] and [--days]. *)
Definition validity (flags : gmap str str) : result N CaError :=
  match flags !! lit "secs", flags !! lit "days" with
  | Some s, _ => ok_or (parse_uint u64_mod s) (BadNumber s)
  | None, Some d =>
      let? days := ok_or (parse_uint u64_mod d) (BadNumber d) in
      if days * SECS_PER_DAY <? u64_mod then Ok (days * SECS_PER_DAY) else Err DaysOverflow
  | None, None => Err NoValidity
  end.

(** What [sign-cert] puts in the certificate, and the key that signs it. *)
Definition cert_request (args : list str) (stdin : str) (now : N) : result (Cert * list u8) CaError :=
  let? flags := parse_flags args in
  let? member_pubkey := require_hex 32 flags (lit "member") in
  let? member_sign_pubkey := require_hex 32 flags (lit "member-sign") in
  let? network_id := require_hex 16 flags (lit "network") in
  let? ca_key := load_ca_private (flags !! lit "ca-private") stdin in
  let? v := validity flags in
  if now + v <? u64_mod
  then Ok (mkCert Byte.x01 member_pubkey member_sign_pubkey network_id now (now + v) [] (replicate 64 Byte.x00), ca_key)
  else Err WindowOverflow.

Definition cmd_sign_cert (args : list str) (stdin : str) (now : N) : run (result str CaError) :=
  match cert_request args stdin now with
  | Err e => Ret (Err e)
  | Ok (cert, ca_key) =>
      let! body := cert_signing_body cert in
      let! buf := cert_encode (with_ca_sig (ed_sign ca_key body) cert) in
      Ret (Ok (println (hex_encode buf)))
  end.

Definition root_line (roots : list (list u8 * SocketAddr)) (raw_line : str) : result (list (list u8 * SocketAddr)) CaError :=
  let line := trim raw_line in
  if bool_decide (line = []) || starts_with 35 line then Ok roots
  else
    match split_whitespace line with
    | [] => Err MissingPubkey
    | [_] => Err MissingAddress
    | pk_hex :: addr_str :: [] =>
        let? bytes := hex_decode pk_hex in
        let? pk := fixed 32 bytes in
        let? addr := ok_or (parse_socket_addr addr_str) (BadAddress addr_str) in
        Ok (roots ++ [(pk, addr)])
    | _ => Err TooManyFields
    end.

Fixpoint root_lines (ls : list str) (roots : list (list u8 * SocketAddr)) : result (list (list u8 * SocketAddr)) CaError :=
  match ls with [] => Ok roots | l :: ls => let? roots := root_line roots l in root_lines ls roots end.

Definition parse_roots_file (contents : str) : result (list (list u8 * SocketAddr)) CaError := root_lines (lines contents) [].

Definition roots_request (fs : str -> option str) (args : list str) (stdin : str) : result (RootSet * list u8) CaError :=
  let? flags := parse_flags args in
  let? roots_path := require flags (lit "roots") in
  let? version_str := require flags (lit "version") in
  let? version := ok_or (parse_uint u64_mod version_str) (BadNumber version_str) in
  let? ca_key := load_ca_private (flags !! lit "ca-private") stdin in
  let? contents := ok_or (fs roots_path) (Unreadable roots_path) in
  let? roots := parse_roots_file contents in
  Ok (mkRootSet roots version (replicate 64 Byte.x00), ca_key).

Definition with_roots_sig (sg : list u8) (r : RootSet) : RootSet := mkRootSet (roots r) (rs_version r) sg.

Definition cmd_sign_roots (fs : str -> option str) (args : list str) (stdin : str) : run (result str CaError) :=
  match roots_request fs args stdin with
  | Err e => Ret (Err e)
  | Ok (rootset, ca_key) =>
      let! body := rootset_signing_body rootset in
      let! buf := rootset_encode (with_roots_sig (ed_sign ca_key body) rootset) in
      Ret (Ok (println (hex_encode buf)))
  end.

(** What [enroll] leaves of the certificate it was given: the bytes of the file
    [--out] names, or a line of text. *)
Definition enroll_output (flags : gmap str str) (cert : Cert) : run (list u8 + str) :=
  let! cert_bytes := cert_encode cert in
  Ret (match flags !! lit "out" with
       | Some _ => inl cert_bytes
       | None => inr (println (lit "cert_hex=" ++ hex_encode cert_bytes))
       end).

End Commands.
End Ca.

(** ** Texts in hexadecimal *)

Module CaHex.
Import Text Ca.

Lemma drop_while_app f s t : Forall (fun c => f c = true) s -> drop_while f (s ++ t) = drop_while f t.
Proof. induction 1 as [|c s Hc _ IH]; [done|]. cbn. by rewrite Hc. Qed.

Lemma drop_while_keep f s t : s <> [] -> Forall (fun c => f c = false) s -> drop_while f (s ++ t) = s ++ t.
Proof. intros Hs Hc. destruct Hc as [|c s Hc]; [done|]. cbn. by rewrite Hc. Qed.

(** Trimming removes exactly the white space around a word. *)
Lemma trim_word s pre post :
  s <> [] -> Forall (fun c => is_whitespace c = false) s -> Forall (fun c => is_whitespace c = true) pre ->
  Forall (fun c => is_whitespace c = true) post -> trim (pre ++ s ++ post) = s.
Proof.
  intros Hs Hw Hpre Hpost. unfold trim, trim_by. rewrite drop_while_app by done. rewrite drop_while_keep by done.
  rewrite rev_app_distr, drop_while_app by by apply Forall_rev. rewrite <- (app_nil_r (rev s)).
  rewrite drop_while_keep, app_nil_r, rev_involutive; [done| |by apply Forall_rev].
  intros E. apply Hs. by rewrite <- (rev_involutive s), E.
Qed.

Definition hex_char (c : N) : Prop := (48 <= c <= 57 \/ 97 <= c <= 102).

Lemma hex_encode_cons b l : hex_encode (b :: l) = hex_digit (b2n b / 16) :: hex_digit (b2n b mod 16) :: hex_encode l.
Proof. done. Qed.

Lemma hex_encode_chars l : Forall hex_char (hex_encode l).
Proof.
  induction l as [|b l IH]; [constructor|]. rewrite hex_encode_cons.
  assert (forall n, n < 16 -> hex_char (hex_digit n)) as Hd.
  { intros n Hn. unfold hex_char, hex_digit. destruct (N.ltb_spec n 10); lia. }
  pose proof (b2n_lt b). constructor; [|constructor; [|done]]; apply Hd; [apply N.Div0.div_lt_upper_bound|apply N.mod_lt]; lia.
Qed.

Lemma length_hex_encode l : length (hex_encode l) = (2 * length l)%nat.
Proof. induction l as [|b l IH]; [done|]. rewrite hex_encode_cons. cbn [length]. rewrite IH. lia. Qed.

Lemma hex_no_space s : Forall hex_char s -> Forall (fun c => is_whitespace c = false) s.
Proof. intros H. eapply Forall_impl; [exact H|]. intros c Hc. unfold is_whitespace, hex_char in *. lia. Qed.

Lemma utf8_ascii s : Forall (fun c => c < 128) s -> utf8 s = map n2b s.
Proof.
  induction 1 as [|c s Hc _ IH]; [done|]. unfold utf8 in *. cbn [map concat]. rewrite IH. unfold utf8_char.
  by destruct (N.ltb_spec c 128); [|lia].
Qed.

Lemma utf8_hex s : Forall hex_char s -> utf8 s = map n2b s.
Proof. intros H. apply utf8_ascii. eapply Forall_impl; [exact H|]. unfold hex_char. lia. Qed.

Lemma trim_hex s post : Forall hex_char s -> Forall (fun c => is_whitespace c = true) post -> trim (s ++ post) = s.
Proof.
  intros Hs Hp. destruct (decide (s = [])) as [->|E].
  - cbn [app]. unfold trim, trim_by. rewrite <- (app_nil_r post), drop_while_app by done. done.
  - apply (trim_word s [] post); [done|by apply hex_no_space|constructor|done].
Qed.

Lemma trim_hex_only s : Forall hex_char s -> trim s = s.
Proof. intros H. pose proof (trim_hex s [] H (Forall_nil_2 _)) as E. by rewrite app_nil_r in E. Qed.

(** What the daemon's decoder, and the tool's own, make of a byte's two digits. *)
Lemma nibbles_of_byte b :
  Cfg.hex_nibble (n2b (hex_digit (b2n b / 16))) = Ok (b2n b / 16) /\ Cfg.hex_nibble (n2b (hex_digit (b2n b mod 16))) = Ok (b2n b mod 16) /\
  n2b (N.lor (N.shiftl (b2n b / 16) 4) (b2n b mod 16)) = b /\
  from_str_radix 256 16 [hex_digit (b2n b / 16); hex_digit (b2n b mod 16)] = Some (b2n b).
Proof. by destruct b. Qed.

Lemma hex_pairs_encode l : Cfg.hex_pairs (map n2b (hex_encode l)) = Ok l.
Proof.
  induction l as [|b l IH]; [done|]. rewrite hex_encode_cons. cbn [map Cfg.hex_pairs]. destruct (nibbles_of_byte b) as (-> & -> & Eb & _).
  cbn [Cfg.and_then]. rewrite IH. cbn [Cfg.and_then]. by rewrite Eb.
Qed.

Lemma decode_chars_encode l : decode_chars (hex_encode l) = Ok l.
Proof.
  induction l as [|b l IH]; [done|]. rewrite hex_encode_cons. cbn [decode_chars]. destruct (nibbles_of_byte b) as (_ & _ & _ & ->).
  cbn [ok_or and_then]. rewrite IH. cbn [and_then]. by rewrite n2b_b2n.
Qed.

Lemma hex_decode_encode l : hex_decode (hex_encode l) = Ok l.
Proof.
  pose proof (hex_encode_chars l) as Hc. unfold hex_decode. rewrite trim_hex_only by done. cbn zeta.
  rewrite utf8_hex, length_map, length_hex_encode, Nat.even_mul by done. cbn. apply decode_chars_encode.
Qed.

Lemma hex_to_encode n l : length l = n -> Cfg.hex_to n (hex_encode l) = Ok l.
Proof.
  intros <-. unfold Cfg.hex_to. rewrite utf8_hex, length_map, length_hex_encode, Nat.eqb_refl by apply hex_encode_chars. cbn [negb].
  apply hex_pairs_encode.
Qed.

(** A printed line of hexadecimal, read back by the daemon. *)
Lemma hex_decode_vec_line l : Cfg.hex_decode_vec (trim (println (hex_encode l))) = Ok l.
Proof.
  pose proof (hex_encode_chars l) as Hc. unfold println. rewrite trim_hex by (done || by repeat constructor).
  unfold Cfg.hex_decode_vec. rewrite utf8_hex, length_map, length_hex_encode, Nat.even_mul by done. cbn. apply hex_pairs_encode.
Qed.

End CaHex.

(** ** From the tool to the daemon *)

Module CaTrust.
Import Text Ca CaHex.
#[local] Existing Instance Cfg.raw_eta.

Lemma ca_then_ok {A B} (r : result A CaError) (k : A -> result B CaError) b :
  and_then r k = Ok b <-> exists a, r = Ok a /\ k a = Ok b.
Proof. destruct r; cbn; naive_solver. Qed.

Lemma fixed_ok n bs x : fixed n bs = Ok x -> length x = n.
Proof. unfold fixed. destruct (Nat.eqb_spec (length bs) n); [by intros [= <-]|done]. Qed.

Lemma require_hex_ok n flags key x : require_hex n flags key = Ok x -> length x = n.
Proof. unfold require_hex. intros (v & _ & E)%ca_then_ok. apply ca_then_ok in E as (bs & _ & E). by apply fixed_ok in E. Qed.

(** A first line without line feed or carriage return. *)
Lemma split_line l rest : Forall (fun c => c <> 10) l -> split 10 (l ++ 10 :: rest) = l :: split 10 rest.
Proof.
  induction 1 as [|c l Hc _ IH]; [done|]. cbn [app split]. destruct (N.eqb_spec c 10); [done|]. by rewrite IH.
Qed.

Lemma split_nonempty s : split 10 s <> [].
Proof. destruct s as [|c s]; cbn; [done|]. destruct (c =? 10); [done|]. by destruct (split 10 s). Qed.

Lemma chomp_id l : Forall (fun c => c <> 13) l -> chomp l = l.
Proof.
  intros Hl%Forall_rev. unfold chomp. destruct (rev l) as [|c r]; [done|]. apply Forall_inv in Hl.
  destruct (decide (c = 13)); [done|]. destruct c as [|p]; [done|]. do 4 (destruct p; try done).
Qed.

Lemma lines_cons l rest : Forall (fun c => c <> 10 /\ c <> 13) l -> lines (l ++ 10 :: rest) = l :: lines rest.
Proof.
  intros Hl. unfold lines. rewrite split_line by (eapply Forall_impl; [exact Hl|]; naive_solver).
  pose proof (split_nonempty rest). destruct (split 10 rest) as [|p ps]; [done|]. cbn [removelast map List.last app].
  rewrite chomp_id; [done|]. eapply Forall_impl; [exact Hl|]. naive_solver.
Qed.

Lemma no_space_no_break l : Forall (fun c => is_whitespace c = false) l -> Forall (fun c => c <> 10 /\ c <> 13) l.
Proof. intros H. eapply Forall_impl; [exact H|]. intros c Hc. split; intros ->; by vm_compute in Hc. Qed.

Lemma key_line_word k l : Forall (fun c => is_whitespace c = false) (lit k) -> Forall (fun c => is_whitespace c = false) (lit k ++ hex_encode l).
Proof. intros Hk. apply Forall_app_2; [done|]. apply hex_no_space, hex_encode_chars. Qed.
Arguments key_line_word k%_string_scope _ _.

Lemma trim_no_space s : Forall (fun c => is_whitespace c = false) s -> trim s = s.
Proof.
  intros Hs. destruct (decide (s = [])) as [->|E]; [done|]. pose proof (trim_word s [] [] E Hs) as H. rewrite app_nil_r in H. by apply H.
Qed.

Section Trust.
Context `{HE : Ed25519} `{HL : !Ed25519Laws}.

Lemma genkey_lines sk :
  lines (cmd_genkey sk) = [lit "ca_private=" ++ hex_encode sk; lit "ca_public=" ++ hex_encode (ed_public sk)].
Proof.
  unfold cmd_genkey, println. rewrite <- (app_assoc _ [10] _). cbn [app].
  rewrite !lines_cons; [done|..]; by apply no_space_no_break, key_line_word; repeat constructor.
Qed.

Lemma load_generated sk : length sk = 32%nat -> load_ca_private None (cmd_genkey sk) = Ok sk.
Proof.
  intros Hl. unfold load_ca_private. rewrite genkey_lines. cbn [and_then].
  rewrite trim_no_space by (apply key_line_word; by repeat constructor).
  change (strip_prefix (lit "ca_private=") (lit "ca_private=" ++ hex_encode sk)) with (Some (hex_encode sk)). cbn zeta iota.
  rewrite hex_decode_encode. cbn [and_then]. unfold fixed. by rewrite Hl.
Qed.

(** The daemon reads the tool's key lines as its own. *)
Lemma parse_key_line fs r k h :
  Forall (fun c => is_whitespace c = false) (lit k ++ 61 :: h) -> Forall (fun c => c <> 61) (lit k) -> lit k <> [] ->
  starts_with 35 (lit k) = false -> starts_with 91 (lit k) = false ->
  Cfg.parse_line fs r (lit k ++ 61 :: h) = Cfg.set_key fs r (lit k) h.
Proof.
  intros Hw Hk Hn Hc Hp. unfold Cfg.parse_line. rewrite trim_no_space by done. cbn zeta.
  assert (split_once 61 (lit k ++ 61 :: h) = Some (lit k, h)) as Es.
  { clear -Hk. induction Hk as [|c l Hc _ IH]; [done|]. cbn [app split_once]. destruct (N.eqb_spec c 61); [done|]. by rewrite IH. }
  rewrite Es. apply Forall_app in Hw as [H1 [_ H2]%Forall_cons]. cbn [Cfg.ok_or Cfg.and_then]. rewrite !trim_no_space by done.
  destruct (lit k) as [|c l]; [done|]. cbn [app] in *. rewrite bool_decide_false by done. cbn [orb].
  unfold starts_with in *. rewrite Hc. unfold Cfg.eqs. rewrite bool_decide_false; [done|].
  intros [= ->]. done.
Qed.

Lemma genkey_configures fs sk r : length (ed_public sk) = 32%nat ->
  Cfg.fold_result (Cfg.parse_line fs) (lines (cmd_genkey sk)) r = Ok (r <| Cfg.w_ca_public := Cfg.w_ca_public r ++ [ed_public sk] |>).
Proof.
  intros Hl. rewrite genkey_lines. cbn [Cfg.fold_result].
  pose proof (key_line_word "ca_private=" sk ltac:(by repeat constructor)) as H1.
  pose proof (key_line_word "ca_public=" (ed_public sk) ltac:(by repeat constructor)) as H2.
  change (lit "ca_private=" ++ hex_encode sk) with (lit "ca_private" ++ 61 :: hex_encode sk) in *.
  change (lit "ca_public=" ++ hex_encode (ed_public sk)) with (lit "ca_public" ++ 61 :: hex_encode (ed_public sk)) in *.
  rewrite parse_key_line by (done || by repeat constructor).
  change (Cfg.set_key fs r (lit "ca_private") (hex_encode sk)) with (Ok (E := Cfg.ConfigError) r). cbn [Cfg.and_then].
  rewrite parse_key_line by (done || by repeat constructor).
  change (Cfg.set_key fs r (lit "ca_public") (hex_encode (ed_public sk)))
    with (Cfg.and_then (Cfg.hex_to_32 (hex_encode (ed_public sk))) (fun k => Ok (r <| Cfg.w_ca_public := Cfg.w_ca_public r ++ [k] |>))).
  unfold Cfg.hex_to_32. by rewrite hex_to_encode.
Qed.

Lemma signature_trusted sk body : verify_any body (ed_sign sk body) [ed_public sk] = true.
Proof.
  apply verify_any_spec. exists (ed_public sk). split; [by apply list_elem_of_singleton|]. unfold key_verifies.
  by destruct (ed_sign_verifies sk body) as (vk & -> & ->).
Qed.

Lemma cert_request_ok args stdin now c key flags :
  now < u64_mod -> parse_flags args = Ok flags -> cert_request args stdin now = Ok (c, key) ->
  cert_wf c /\ not_before c = now /\ load_ca_private (flags !! lit "ca-private") stdin = Ok key.
Proof.
  intros Hn Ef. unfold cert_request. rewrite Ef. cbn [and_then]. intros (m & Hm & E)%ca_then_ok.
  apply ca_then_ok in E as (ms & Hms & E). apply ca_then_ok in E as (net & Hnet & E). apply ca_then_ok in E as (k & Hk & E).
  apply ca_then_ok in E as (v & Hv & E). destruct (N.ltb_spec (now + v) u64_mod) as [Hw|]; [|done]. injection E as <- <-.
  apply require_hex_ok in Hm, Hms, Hnet. split; [|done]. by constructor; cbn.
Qed.

(** C31: certificates go from the tool to the daemon.  The key pair [genkey]
    prints, given to [sign-cert] on its standard input, signs what the flags
    ask for; the command does not panic; and the line it prints, in any file,
    is loaded by the daemon as that certificate, which the printed public key
    verifies at every moment of its window. *)
Theorem signed_cert_trusted sk args flags now :
  length sk = 32%nat -> now < u64_mod -> parse_flags args = Ok flags -> flags !! lit "ca-private" = None ->
  match cert_request args (cmd_genkey sk) now with
  | Err e => cmd_sign_cert args (cmd_genkey sk) now = Ret (Err e)
  | Ok (c0, key) =>
      key = sk /\ not_before c0 = now /\
      exists out, cmd_sign_cert args (cmd_genkey sk) now = Ret (Ok out) /\
        let c := with_ca_sig (ed_sign sk (cert_body c0)) c0 in
        (forall fs path, fs path = Some out -> Cfg.load_cert_file fs path = Ok c) /\
        forall t skew, not_before c <= t < not_after c ->
          verify_cert c [ed_public sk] (network_id c) (member_pubkey c) t skew = Ret (Ok tt)
  end.
Proof.
  intros Hl Hn Ef Hp. unfold cmd_sign_cert. destruct (cert_request args (cmd_genkey sk) now) as [[c0 key]|e] eqn:Er; [|done].
  destruct (cert_request_ok _ _ _ _ _ _ Hn Ef Er) as (Hw & Hb & Hk). rewrite Hp, load_generated in Hk by done. injection Hk as <-.
  split; [done|]. split; [done|]. rewrite cert_signing_body_ok by done. cbn [rbind].
  set (c := with_ca_sig (ed_sign sk (cert_body c0)) c0).
  assert (cert_wf c) as Hc by (apply with_ca_sig_wf; [apply ed_sign_length|done]).
  rewrite cert_encode_ok by done. cbn [rbind]. eexists. split; [done|]. cbn zeta. split.
  - intros fs path E. unfold Cfg.load_cert_file. rewrite E. cbn [Cfg.ok_or Cfg.and_then]. rewrite hex_decode_vec_line. cbn [Cfg.and_then].
    assert (cert_decode (cert_bytes c) = Some c) as ->; [|done]. apply cert_decode_iff. split; [done|]. by apply cert_encode_ok.
  - intros t skew Ht. destruct (verify_cert_spec c [ed_public sk] (network_id c) (member_pubkey c) t skew Hc) as (v & -> & Hv).
    f_equal. apply Hv. split; [|done]. pose proof (cw_after c Hc). pose proof (cw_before c Hc).
    constructor; [|done|unfold sat_add64, sat_add; lia..].
    apply verify_any_spec. apply (signature_trusted sk (cert_body c0)).
Qed.

(** A root as its encoding keeps it. *)
Definition unscoped (a : SocketAddr) : SocketAddr := match a with SockV6 ip p _ _ => SockV6 ip p 0 0 | _ => a end.
Definition unscoped_roots (r : RootSet) : RootSet := mkRootSet (map (fun x => (x.1, unscoped x.2)) (roots r)) (rs_version r) (rs_ca_sig r).

Definition root_shape (x : list u8 * SocketAddr) : Prop := length x.1 = 32%nat /\ addr_shape x.2.

Lemma root_lines_ok ls rts rts' : Forall root_shape rts -> root_lines ls rts = Ok rts' -> Forall root_shape rts'.
Proof.
  revert rts. induction ls as [|l ls IH]; intros rts Hr; cbn [root_lines]; [by intros [= <-]|].
  intros (rts1 & E1 & E2)%ca_then_ok. eapply IH; [|done]. clear E2. unfold root_line in E1. cbn zeta in E1.
  destruct (_ || _); [by injection E1 as <-|]. destruct (split_whitespace _) as [|a [|b [|? ?]]]; try done.
  apply ca_then_ok in E1 as (bs & _ & E1). apply ca_then_ok in E1 as (pk & Hpk & E1). apply ca_then_ok in E1 as (addr & Ha & [= <-]).
  apply Forall_app_2; [done|]. apply Forall_singleton. split; [by apply fixed_ok in Hpk|].
  unfold ok_or in Ha. destruct (parse_socket_addr b) eqn:Eb; [|done]. injection Ha as <-. by apply parse_socket_addr_shape in Eb.
Qed.

Lemma roots_request_ok fs args stdin r key flags :
  parse_flags args = Ok flags -> roots_request fs args stdin = Ok (r, key) ->
  Forall root_shape (roots r) /\ rs_version r < u64_mod /\ length (rs_ca_sig r) = 64%nat /\
  load_ca_private (flags !! lit "ca-private") stdin = Ok key.
Proof.
  intros Ef. unfold roots_request. rewrite Ef. cbn [and_then]. intros (p & _ & E)%ca_then_ok.
  apply ca_then_ok in E as (vs & _ & E). apply ca_then_ok in E as (v & Hv & E). apply ca_then_ok in E as (k & Hk & E).
  apply ca_then_ok in E as (t & _ & E). apply ca_then_ok in E as (rts & Hr & [= <- <-]). split_and!; try done.
  - by eapply root_lines_ok in Hr.
  - unfold ok_or in Hv. destruct (parse_uint u64_mod vs) eqn:E; [|done]. injection Hv as <-. by apply CfgOk.parse_uint_bound in E.
Qed.

Lemma rootset_body_unscoped r : rootset_body (unscoped_roots r) = rootset_body r.
Proof.
  unfold rootset_body, counted, unscoped_roots. cbn [rs_version roots]. rewrite length_map. f_equal. f_equal. rewrite map_map.
  f_equal. apply map_ext. intros [pk []]; done.
Qed.

Lemma unscoped_wf r : Forall root_shape (roots r) -> rs_version r < u64_mod -> length (rs_ca_sig r) = 64%nat ->
  fits16 (length (roots r)) -> rootset_wf (unscoped_roots r).
Proof.
  intros Hr Hv Hs Hf. constructor; cbn; try done; [by rewrite length_map|]. rewrite Forall_map. eapply Forall_impl; [exact Hr|].
  intros [pk a] [Hp [Hq Ha]]. split; [done|]. destruct a; cbn in *; split; naive_solver.
Qed.

(** Root sets go from the tool to the daemon.  With at most 65535 roots
    [sign-roots] does not panic; the line it prints is loaded by the daemon as
    the roots of the operator's file (IPv6 scopes aside), with a signature the
    public key printed by [genkey] verifies; and the lines of [genkey], in the
    daemon's configuration, make that key a trusted one. *)
Theorem signed_roots_trusted sk fs args flags :
  length sk = 32%nat -> length (ed_public sk) = 32%nat -> parse_flags args = Ok flags -> flags !! lit "ca-private" = None ->
  match roots_request fs args (cmd_genkey sk) with
  | Err e => cmd_sign_roots fs args (cmd_genkey sk) = Ret (Err e)
  | Ok (r0, key) =>
      fits16 (length (roots r0)) ->
      key = sk /\
      exists out, cmd_sign_roots fs args (cmd_genkey sk) = Ret (Ok out) /\
        let r := unscoped_roots (with_roots_sig (ed_sign sk (rootset_body r0)) r0) in
        (forall disk path, disk path = Some out -> Cfg.load_roots_file disk path = Ok r) /\
        verify_rootset r [ed_public sk] = Ret true
  end /\
  forall disk raw, Cfg.fold_result (Cfg.parse_line disk) (lines (cmd_genkey sk)) raw =
    Ok (raw <| Cfg.w_ca_public := Cfg.w_ca_public raw ++ [ed_public sk] |>).
Proof.
  intros Hl Hpl Ef Hp. split; [|intros; by apply genkey_configures].
  unfold cmd_sign_roots. destruct (roots_request fs args (cmd_genkey sk)) as [[r0 key]|e] eqn:Er; [|done]. intros Hf.
  destruct (roots_request_ok _ _ _ _ _ _ Ef Er) as (Hr & Hv & Hs & Hk). rewrite Hp, load_generated in Hk by done. injection Hk as <-.
  split; [done|].
  assert (forall r, fits16 (length (roots r)) -> rootset_signing_body r = Ret (rootset_body r)) as Hb.
  { intros r Hfr. unfold rootset_signing_body. by rewrite len16_fits. }
  rewrite Hb by done. cbn [rbind]. set (r := with_roots_sig (ed_sign sk (rootset_body r0)) r0).
  assert (rootset_wf (unscoped_roots r)) as Hw by by apply unscoped_wf; [..|apply ed_sign_length|].
  assert (rootset_encode r = Ret (rootset_bytes (unscoped_roots r))) as ->.
  { unfold rootset_encode. rewrite Hb by done. cbn [rbind]. unfold rootset_bytes. by rewrite rootset_body_unscoped. }
  cbn [rbind]. eexists. split; [done|]. cbn zeta. split.
  - intros disk path E. unfold Cfg.load_roots_file. rewrite E. cbn [Cfg.ok_or Cfg.and_then]. rewrite hex_decode_vec_line. cbn [Cfg.and_then].
    assert (rootset_decode (rootset_bytes (unscoped_roots r)) = Some (unscoped_roots r)) as ->; [|done].
    apply rootset_decode_iff. split; [done|]. unfold rootset_encode. by rewrite rootset_signing_body_ok.
  - rewrite CfgOk.verified_roots by done. rewrite rootset_body_unscoped. f_equal. apply (signature_trusted sk (rootset_body r0)).
Qed.

End Trust.
End CaTrust.

(** ** What [enroll] writes *)

Module CaEnroll.
Import Text Ca CaHex.

Lemma drop_while_last f s c : f c = false -> exists s', drop_while f (s ++ [c]) = s' ++ [c].
Proof.
  intros Hc. induction s as [|x s IH]; cbn; [rewrite Hc; by exists []|]. destruct (f x); [done|]. by exists (x :: s).
Qed.

Lemma trim_head c s : is_whitespace c = false -> exists s', trim (c :: s) = c :: s'.
Proof.
  intros Hc. unfold trim, trim_by. cbn [drop_while]. rewrite Hc. cbn [rev].
  destruct (drop_while_last is_whitespace (rev s) c Hc) as [s' ->]. exists (rev s'). by rewrite rev_app_distr.
Qed.

(** A control character is encoded by itself only. *)
Lemma utf8_control s b l : Forall (fun c => c < 0x110000) s -> b2n b < 128 -> utf8 s = b :: l -> exists s', s = b2n b :: s'.
Proof.
  intros [|c s' Hc _]; [done|]. unfold utf8. cbn [map concat]. unfold utf8_char. intros Hb.
  destruct (N.ltb_spec c 0x80); [cbn [app]; intros [= <- _]; exists s'; by rewrite b2n_n2b_small by lia|].
  assert (forall x, 128 <= x < 256 -> n2b x <> b) as Hx by (intros x Hx <-; rewrite b2n_n2b_small in Hb; lia).
  destruct (N.ltb_spec c 0x800).
  { cbn [app]. intros E. injection E as E _. exfalso. revert E. apply Hx. assert (c / 0x40 < 32) as Hq by (apply N.Div0.div_lt_upper_bound; lia). revert Hq. generalize (c / 0x40). clear. lia. }
  destruct (N.ltb_spec c 0x10000).
  { cbn [app]. intros E. injection E as E _. exfalso. revert E. apply Hx. assert (c / 0x1000 < 16) as Hq by (apply N.Div0.div_lt_upper_bound; lia). revert Hq. generalize (c / 0x1000). clear. lia. }
  cbn [app]. intros E. injection E as E _. exfalso. revert E. apply Hx. assert (c / 0x40000 < 5) as Hq by (apply N.Div0.div_lt_upper_bound; lia). revert Hq. generalize (c / 0x40000). clear. lia.
Qed.

Section Enroll.
Context `{Ed25519}.

(** The certificate file of [enroll --out] is not one the daemon loads:
    [enroll] writes the encoded certificate itself, where the daemon reads a
    line of hexadecimal, so whatever text those bytes are, if any, loading it
    fails. *)
Theorem enrolled_file_unreadable fs path text flags c bytes :
  version c = Byte.x01 -> enroll_output flags c = Ret (inl bytes) ->
  fs path = Some text -> Forall (fun ch => ch < 0x110000) text -> utf8 text = bytes ->
  exists e, Cfg.load_cert_file fs path = Err e.
Proof.
  intros Hv Eo Ef Ht Eu. assert (exists l, bytes = Byte.x01 :: l) as [l ->].
  { unfold enroll_output, cert_encode, cert_signing_body in Eo. rewrite Hv in Eo.
    destruct (len16 _) as [n|]; [|done]. cbn [rbind] in Eo. destruct (put_all _ _) as [t|]; [|done]. cbn [rbind] in Eo.
    destruct (flags !! lit "out"); [|done]. injection Eo as <-. by eexists. }
  destruct (utf8_control text Byte.x01 l Ht) as [s' ->]; [done|done|]. change (b2n Byte.x01) with 1 in *.
  unfold Cfg.load_cert_file. rewrite Ef. cbn [Cfg.ok_or Cfg.and_then].
  destruct (trim_head 1 s' eq_refl) as [t ->]. unfold Cfg.hex_decode_vec. change (utf8 (1 :: t)) with (Byte.x01 :: utf8 t).
  destruct (Nat.even _) eqn:Ee; [|by eexists]. destruct (utf8 t) as [|b u]; [done|]. by eexists.
Qed.

End Enroll.
End CaEnroll.

(** ** Runs *)

Module CaDemo.
Import Text Ca CaTrust CaEnroll.
#[local] Existing Instance toy_ed.

Definition demo_sk : list u8 := replicate 32 Byte.x2a.
Definition demo_args : list str :=
  [lit "--member"; hex_encode (replicate 32 Byte.x0a); lit "--member-sign"; hex_encode (replicate 32 Byte.xb1);
   lit "--network"; hex_encode (replicate 16 Byte.x07); lit "--days"; lit "30"].
Definition demo_flags : gmap str str :=
  <[lit "days" := lit "30"]> (<[lit "network" := hex_encode (replicate 16 Byte.x07)]>
    (<[lit "member-sign" := hex_encode (replicate 32 Byte.xb1)]> (<[lit "member" := hex_encode (replicate 32 Byte.x0a)]> ∅))).
Definition demo_cert : Cert :=
  mkCert Byte.x01 (replicate 32 Byte.x0a) (replicate 32 Byte.xb1) (replicate 16 Byte.x07) 1000 2593000 [] (replicate 64 Byte.x00).

Lemma demo_request : cert_request demo_args (cmd_genkey demo_sk) 1000 = Ok (demo_cert, demo_sk).
Proof. vm_compute. reflexivity. Qed.

Lemma signed_cert_trusted_witness :
  exists out c, cmd_sign_cert demo_args (cmd_genkey demo_sk) 1000 = Ret (Ok out) /\
    Cfg.load_cert_file (fun _ => Some out) (lit "node.cert") = Ok c /\
    verify_cert c [demo_sk] (network_id c) (member_pubkey c) 2000 0 = Ret (Ok tt).
Proof.
  pose proof (signed_cert_trusted (HL := toy_ed_laws) demo_sk demo_args demo_flags 1000) as H.
  rewrite demo_request in H. destruct H as (_ & _ & out & E & Hl & Hv).
  - reflexivity.
  - reflexivity.
  - reflexivity.
  - vm_compute. reflexivity.
  - exists out. eexists. split; [exact E|]. split; [by apply Hl|]. apply Hv. split; [discriminate|reflexivity].
Defined.

Definition roots_args : list str := [lit "--roots"; lit "roots.txt"; lit "--version"; lit "7"].
Definition roots_flags : gmap str str := <[lit "version" := lit "7"]> (<[lit "roots" := lit "roots.txt"]> ∅).
Definition roots_disk (path : str) : option str :=
  if bool_decide (path = lit "roots.txt")
  then Some (lit "# seeds
" ++ hex_encode (replicate 32 Byte.x0a) ++ lit "  198.51.100.1:443
" ++ hex_encode (replicate 32 Byte.x0b) ++ lit " [2001:db8::2]:8443")
  else None.
Definition demo_roots : RootSet :=
  mkRootSet [(replicate 32 Byte.x0a, SockV4 (map n2b [198; 51; 100; 1]) 443);
             (replicate 32 Byte.x0b, SockV6 (map n2b [32; 1; 13; 184; 0; 0; 0; 0; 0; 0; 0; 0; 0; 0; 0; 2]) 8443 0 0)] 7 (replicate 64 Byte.x00).

Lemma demo_roots_request : roots_request roots_disk roots_args (cmd_genkey demo_sk) = Ok (demo_roots, demo_sk).
Proof. vm_compute. reflexivity. Qed.

Lemma signed_roots_trusted_witness :
  exists out r, cmd_sign_roots roots_disk roots_args (cmd_genkey demo_sk) = Ret (Ok out) /\
    Cfg.load_roots_file (fun _ => Some out) (lit "mesh.roots") = Ok r /\ verify_rootset r [demo_sk] = Ret true.
Proof.
  destruct (signed_roots_trusted (HL := toy_ed_laws) demo_sk roots_disk roots_args roots_flags) as [H _].
  - reflexivity.
  - reflexivity.
  - reflexivity.
  - vm_compute. reflexivity.
  - rewrite demo_roots_request in H. destruct H as (_ & out & E & Hl & Hv); [reflexivity|].
    exists out. eexists. split; [exact E|]. split; [by apply Hl|exact Hv].
Defined.

(** A certificate whose encoding happens to be text. *)
Definition text_cert : Cert :=
  mkCert Byte.x01 (replicate 32 Byte.x61) (replicate 32 Byte.x62) (replicate 16 Byte.x63) 97 122 [] (replicate 64 Byte.x64).
Definition text_of_cert : str := map b2n (cert_bytes text_cert).

Lemma enrolled_file_unreadable_witness :
  exists e, Cfg.load_cert_file (fun _ => Some text_of_cert) (lit "node.cert") = Err e.
Proof.
  apply (enrolled_file_unreadable (fun _ => Some text_of_cert) (lit "node.cert") text_of_cert (<[lit "out" := lit "node.cert"]> ∅)
    text_cert (cert_bytes text_cert)).
  - reflexivity.
  - vm_compute. reflexivity.
  - reflexivity.
  - apply Forall_forall. intros ch Hin. apply list_elem_of_fmap in Hin as (b & -> & _). pose proof (b2n_lt b). lia.
  - vm_compute. reflexivity.
Defined.

(** The tool's decoder reads a sign as a digit, and drops a last character that
    takes two bytes. *)
Lemma hex_decode_lax : hex_decode (lit "+f") = Ok [Byte.x0f] /\ hex_decode [233] = Ok [].
Proof. split; vm_compute; reflexivity. Qed.

End CaDemo.
