(* ===== verification/CaQuorum.v ===== *)
(** * The threshold certificate authority

    Models the online authority of bin/yip-ca: the enrolment messages and the
    proof of possession (src/rpc.rs), the signer with its vault of one-time
    nonces (src/signer_daemon.rs), the ROAST coordinator
    (src/roast_coordinator.rs), the coordinator's connection tasks as steps
    between two holdings of its lock (src/serve.rs), and the client
    (src/enroll.rs).  FROST is third-party code: [Frost] holds its operations
    and [FrostLaws] what its documentation says of them.  The serialization of
    messages, the channels and the timers between the steps are not modelled.

    The theorems: a nonce is used once; every certificate the coordinator sends
    verifies under the group key and is the one its client proved possession
    for; with enough honest signers an enrolment succeeds; a signer caught with
    a bad share never signs again.  They also show what is missing: nothing
    looks at the credential, a request a signer refuses costs the signer its
    place for good, and a share need not come from the signer it names. *)

From Stdlib Require Strings.Byte.
From Stdlib Require Import NArith Lia.
From stdpp Require Import base numbers gmap sets list sorting.
From S2P Require Import Prelude StateM Reader NetAddr MemberCodec MemberVerify.

Local Open Scope N_scope.

(** ** FROST *)

(** [frost::SigningPackage]: the commitments of the participants and the
    message they sign. *)
Record SigningPackage {C : Type} := mkPackage { sp_commitments : gmap N C; sp_message : list u8 }.
Arguments SigningPackage C : clear implicits.

(** Identifiers are their scalars, in their order. *)
Class Frost := {
  KeyPackage : Type;
  SigningNonces : Type;
  SigningCommitments : Type;
  SignatureShare : Type;
  Signature : Type;
  PublicKeyPackage : Type;
  identifier : KeyPackage -> N;
  commit : KeyPackage -> nat -> SigningNonces * SigningCommitments;
  round2_sign : SigningPackage SigningCommitments -> SigningNonces -> KeyPackage -> option SignatureShare;
  knows_signer : PublicKeyPackage -> N -> bool;
  verify_signature_share : PublicKeyPackage -> N -> SignatureShare -> SigningPackage SigningCommitments -> bool;
  aggregate : SigningPackage SigningCommitments -> gmap N SignatureShare -> PublicKeyPackage -> option Signature;
  serialize : Signature -> list u8;
  group_key : PublicKeyPackage -> list u8;
}.

(** ** Messages: rpc.rs *)

Record CertTbs := mkTbs {
  t_version : u8;
  t_member_pubkey : list u8;
  t_member_sign_pubkey : list u8;
  t_network_id : list u8;
  t_not_before : N;
  t_not_after : N;
  t_tags : list (u8 * list u8);
}.

(** [to_canonical_bytes]; a tag list that does not fit panics. *)
Definition to_canonical_bytes (t : CertTbs) : run (list u8) :=
  let! tag_count := len16 (length (t_tags t)) in
  let! tag_bytes := put_all (fun x => let! len := len16 (length x.2) in Ret (x.1 :: len ++ x.2)) (t_tags t) in
  Ret (t_version t :: t_member_pubkey t ++ t_member_sign_pubkey t ++ t_network_id t
       ++ to_be_bytes 8 (t_not_before t) ++ to_be_bytes 8 (t_not_after t) ++ tag_count ++ tag_bytes).

Inductive EnrollmentCredential :=
| BootstrapToken (token_id allowed_node_id : list u8) (assigned_ipv4 : N) (assigned_ipv6 : list u8) (allowed_flags not_after_unix : N)
    (admin_signature : list u8)
| RenewalCert (existing_cert_bytes renewal_signature : list u8).

Record SubmitEnrollmentPayload := mkSubmit {
  challenge_nonce : list u8;
  csr_tbs : CertTbs;
  credential : EnrollmentCredential;
  pop_signature : list u8;
}.

Inductive ClientRpcRequest := GetChallenge | SubmitEnrollment (p : SubmitEnrollmentPayload).

Inductive Reason := NonceMismatch | PopFailed | QuorumUnreachable.

Inductive ClientRpcResponse :=
| Challenge (nonce : list u8) (expires_at_unix : N)
| Enrolled (cert_bytes ca_public_key : list u8)
| Rejected (reason : Reason).

Record NonceSlotId := mkSlot { boot_epoch_id : N; sequence_idx : N }.

#[export] Instance slot_eq_dec : EqDecision NonceSlotId.
Proof. solve_decision. Defined.
#[export] Instance slot_countable : Countable NonceSlotId.
Proof. apply (inj_countable' (fun s => (boot_epoch_id s, sequence_idx s)) (fun x => mkSlot x.1 x.2)). by intros []. Defined.

(** The bytes of "YIP-CA-ENROLL-POP-V1". *)
Definition ENROLL_POP_CONTEXT : list u8 :=
  map n2b [89; 73; 80; 45; 67; 65; 45; 69; 78; 82; 79; 76; 76; 45; 80; 79; 80; 45; 86; 49].

Definition pop_message (nonce : list u8) (t : CertTbs) : run (list u8) :=
  let! body := to_canonical_bytes t in Ret (ENROLL_POP_CONTEXT ++ nonce ++ body).

(** [verify_enrollment_pop] *)
Definition verify_enrollment_pop `{Ed25519} (pop_sig signer_pubkey nonce : list u8) (t : CertTbs) : run bool :=
  match vk_from_bytes signer_pubkey with
  | None => Ret false
  | Some vk => let! msg := pop_message nonce t in Ret (verify_strict vk msg pop_sig)
  end.

Section Frost.
Context {frost : Frost}.

Record SignCertRequestPayload := mkSignRequest {
  r_session_id : N;
  r_slot_id : NonceSlotId;
  r_signing_package : SigningPackage SigningCommitments;
  r_cert_tbs : CertTbs;
  r_credential : EnrollmentCredential;
  r_challenge_nonce : list u8;
  r_pop_signature : list u8;
}.

Record SignCertResponsePayload := mkSignResponse {
  p_session_id : N;
  p_signer_id : N;
  p_signature_share : SignatureShare;
  p_replenish_commitment : option (NonceSlotId * SigningCommitments);
}.

Inductive RejectReason := PackageMismatch | TtlExceeded | NonceUnavailable | FrostFailed.

Inductive QuorumRpcMessage :=
| PublishCommitments (signer_id boot_epoch_id : N) (commitments : list (NonceSlotId * SigningCommitments))
| SignCertRequest (p : SignCertRequestPayload)
| SignCertResponse (p : SignCertResponsePayload)
| SignCertReject (session_id signer_id : N) (reason : RejectReason).

(** ** The signer: signer_daemon.rs *)

Record Vault := mkVault { v_boot_epoch_id : N; next_gen_idx : N; active_nonces : gmap NonceSlotId SigningNonces }.

(** The signer draws its randomness in sequence; [s_draws] counts the draws. *)
Record SignerState := mkSigner { s_key_package : KeyPackage; max_ttl_secs : N; vault : Vault; s_draws : nat }.

Definition new_vault (epoch : N) : Vault := mkVault epoch 1 ∅.

Fixpoint preprocess_batch (kp : KeyPackage) (count : nat) (v : Vault) (draws : nat) :
    run (Vault * nat * list (NonceSlotId * SigningCommitments)) :=
  match count with
  | O => Ret (v, draws, [])
  | S count =>
      let seq := next_gen_idx v in
      if seq + 1 <? u64_mod then
        let ' (nonces, commitments) := commit kp draws in
        let slot := mkSlot (v_boot_epoch_id v) seq in
        let! ' (v, draws, out) :=
          preprocess_batch kp count (mkVault (v_boot_epoch_id v) (seq + 1) (<[slot := nonces]> (active_nonces v))) (S draws) in
        Ret (v, draws, (slot, commitments) :: out)
      else Panic
  end.

Definition take_once (v : Vault) (slot : NonceSlotId) : Vault * option SigningNonces :=
  if negb (boot_epoch_id slot =? v_boot_epoch_id v) then (v, None)
  else (mkVault (v_boot_epoch_id v) (next_gen_idx v) (delete slot (active_nonces v)), active_nonces v !! slot).

Definition handle_sign_request (s : SignerState) (req : SignCertRequestPayload) : run (SignerState * QuorumRpcMessage) :=
  let signer_id := identifier (s_key_package s) in
  let reject reason := SignCertReject (r_session_id req) signer_id reason in
  let! expected_msg := to_canonical_bytes (r_cert_tbs req) in
  if negb (bool_decide (sp_message (r_signing_package req) = expected_msg)) then Ret (s, reject PackageMismatch)
  else if (t_not_after (r_cert_tbs req) <=? t_not_before (r_cert_tbs req))
       || (max_ttl_secs s <? t_not_after (r_cert_tbs req) - t_not_before (r_cert_tbs req)) then Ret (s, reject TtlExceeded)
  else
    match take_once (vault s) (r_slot_id req) with
    | (v, None) => Ret (mkSigner (s_key_package s) (max_ttl_secs s) v (s_draws s), reject NonceUnavailable)
    | (v, Some nonces) =>
        let! ' (v, draws, out) := preprocess_batch (s_key_package s) 1 v (s_draws s) in
        let s := mkSigner (s_key_package s) (max_ttl_secs s) v draws in
        Ret (s, match round2_sign (r_signing_package req) nonces (s_key_package s) with
                | Some share => SignCertResponse (mkSignResponse (r_session_id req) signer_id share (last out))
                | None => reject FrostFailed
                end)
    end.

(** [run_signer] up to its loop: a vault with sixteen commitments. *)
Definition start_signer (kp : KeyPackage) (max_ttl epoch : N) : run (SignerState * QuorumRpcMessage) :=
  let! ' (v, draws, out) := preprocess_batch kp 16 (new_vault epoch) 0 in
  Ret (mkSigner kp max_ttl v draws, PublishCommitments (identifier kp) epoch out).

(** The loop of [run_signer] over the requests it receives. *)
Fixpoint serve_requests (s : SignerState) (reqs : list SignCertRequestPayload) : run (SignerState * list QuorumRpcMessage) :=
  match reqs with
  | [] => Ret (s, [])
  | req :: reqs =>
      let! ' (s, m) := handle_sign_request s req in
      let! ' (s, ms) := serve_requests s reqs in
      Ret (s, m :: ms)
  end.

(** ** The coordinator: roast_coordinator.rs *)

Record RoastSession := mkSession {
  participants : gset N;
  signing_package : SigningPackage SigningCommitments;
  collected_shares : gmap N SignatureShare;
}.

Record RoastCoordinator := mkRoast {
  threshold : nat;
  pubkey_package : PublicKeyPackage;
  message : list u8;
  responsive_signers : gset N;
  commitment_queues : gmap N (list (NonceSlotId * SigningCommitments));
  active_sessions : gmap N RoastSession;
  signer_to_session : gmap N N;
  banished_signers : gset N;
  next_session_id : N;
}.

#[export] Instance roast_eta : Settable RoastCoordinator := fun r =>
  mkRoast (threshold r) (pubkey_package r) (message r) (responsive_signers r) (commitment_queues r) (active_sessions r)
    (signer_to_session r) (banished_signers r) (next_session_id r).

Implicit Types r : RoastCoordinator.

Definition new_roast (t : nat) (ppk : PublicKeyPackage) (msg : list u8) : RoastCoordinator := mkRoast t ppk msg ∅ ∅ ∅ ∅ ∅ 1.

Definition queue_of r (id : N) : list (NonceSlotId * SigningCommitments) := default [] (commitment_queues r !! id).

Definition register_commitments r (id : N) (cs : list (NonceSlotId * SigningCommitments)) : RoastCoordinator :=
  if bool_decide (id ∈ banished_signers r) then r
  else
    let r := r <| commitment_queues := <[id := queue_of r id ++ cs]> (commitment_queues r) |> in
    match signer_to_session r !! id with
    | Some _ => r
    | None => r <| responsive_signers := {[id]} ∪ responsive_signers r |>
    end.

Definition eligible r : list N :=
  take (threshold r)
    (filter (fun id => id ∉ banished_signers r /\ queue_of r id <> []) (merge_sort N.le (elements (responsive_signers r)))).

(** The loop over the eligible signers: their commitments and slots. *)
Fixpoint enlist (sid : N) (ids : list N) r (cs : gmap N SigningCommitments) (slots : gmap N NonceSlotId) :
    run (RoastCoordinator * gmap N SigningCommitments * gmap N NonceSlotId) :=
  match ids with
  | [] => Ret (r, cs, slots)
  | id :: ids =>
      let r := r <| responsive_signers := responsive_signers r ∖ {[id]} |> <| signer_to_session := <[id := sid]> (signer_to_session r) |> in
      match commitment_queues r !! id with
      | Some ((slot, c) :: q) =>
          enlist sid ids (r <| commitment_queues := <[id := q]> (commitment_queues r) |>) (<[id := c]> cs) (<[id := slot]> slots)
      | _ => Panic
      end
  end.

Definition u128_mod : N := 2 ^ 128.

Definition try_spawn_session r : run (RoastCoordinator * option (N * SigningPackage SigningCommitments * gmap N NonceSlotId)) :=
  let ids := eligible r in
  if (length ids <? threshold r)%nat then Ret (r, None)
  else
    let sid := next_session_id r in
    if sid + 1 <? u128_mod then
      let! ' (r, cs, slots) := enlist sid ids (r <| next_session_id := sid + 1 |>) ∅ ∅ in
      let pkg := mkPackage _ cs (message r) in
      Ret (r <| active_sessions := <[sid := mkSession (list_to_set ids) pkg ∅]> (active_sessions r) |>, Some (sid, pkg, slots))
    else Panic.

Inductive ShareError := UnknownIdentifier | InvalidShare | AggregateFailed.

Definition receive_share r (sid id : N) (share : SignatureShare) (replenish : option (NonceSlotId * SigningCommitments)) :
    RoastCoordinator * result (option Signature) ShareError :=
  match active_sessions r !! sid with
  | None => (r, Ok None)
  | Some session =>
      if negb (bool_decide (id ∈ participants session)) then (r, Ok None)
      else if negb (knows_signer (pubkey_package r) id) then (r, Err UnknownIdentifier)
      else if negb (verify_signature_share (pubkey_package r) id share (signing_package session)) then
        (r <| banished_signers := {[id]} ∪ banished_signers r |> <| signer_to_session := delete id (signer_to_session r) |>, Err InvalidShare)
      else
        let r := match replenish with
                 | Some rep => r <| commitment_queues := <[id := queue_of r id ++ [rep]]> (commitment_queues r) |>
                 | None => r
                 end in
        let shares := <[id := share]> (collected_shares session) in
        let r := r <| signer_to_session := delete id (signer_to_session r) |>
                   <| responsive_signers := {[id]} ∪ responsive_signers r |>
                   <| active_sessions := <[sid := mkSession (participants session) (signing_package session) shares]> (active_sessions r) |> in
        if (size shares =? threshold r)%nat then
          match aggregate (signing_package session) shares (pubkey_package r) with
          | Some sig => (r, Ok (Some sig))
          | None => (r, Err AggregateFailed)
          end
        else (r, Ok None)
  end.

(** ** The coordinator's tasks: serve.rs *)

(** The task of a client connection between two awaits: it waits for the
    submission, tries to start a session, or waits for its shares. *)
Inductive Task :=
| Challenged (nonce : list u8)
| Spawning (p : SubmitEnrollmentPayload) (msg : list u8) (tries : nat)
| Waiting (p : SubmitEnrollmentPayload) (msg : list u8) (sid : N) (tries : nat)
| Closed (reply : option ClientRpcResponse).

Record Coordinator := mkCoordinator {
  roast : RoastCoordinator;
  signer_txs : gmap N nat;
  tasks : gmap nat Task;
  outbox : list (nat * SignCertRequestPayload);
}.

#[export] Instance coordinator_eta : Settable Coordinator := fun s => mkCoordinator (roast s) (signer_txs s) (tasks s) (outbox s).

Implicit Types s : Coordinator.

Definition new_coordinator (t : nat) (ppk : PublicKeyPackage) : Coordinator := mkCoordinator (new_roast t ppk []) ∅ ∅ [].

(** What a connection delivers, or one round of a task's loop. *)
Inductive event :=
| SignerConnected (conn : nat) (id : N) (commitments : list (NonceSlotId * SigningCommitments))
| SignerShare (conn : nat) (p : SignCertResponsePayload)
| SignerGone (conn : nat) (id : N)
| ClientHello (k : nat) (nonce : list u8)
| ClientSubmit (k : nat) (p : SubmitEnrollmentPayload)
| ClientGone (k : nat)
| Attempt (k : nat)
| Poll (k : nat).

Definition set_task s (k : nat) (t : Task) : Coordinator := s <| tasks := <[k := t]> (tasks s) |>.

Context {ed : Ed25519}.

(** The checks on a submission.  A panic ends the task. *)
Definition check_submission (nonce : list u8) (p : SubmitEnrollmentPayload) : Task :=
  if negb (bool_decide (challenge_nonce p = nonce)) then Closed (Some (Rejected NonceMismatch))
  else
    match verify_enrollment_pop (pop_signature p) (t_member_sign_pubkey (csr_tbs p)) nonce (csr_tbs p) with
    | Panic => Closed None
    | Ret false => Closed (Some (Rejected PopFailed))
    | Ret true =>
        match to_canonical_bytes (csr_tbs p) with
        | Ret msg => Spawning p msg 60
        | Panic => Closed None
        end
    end.

(** The order of a BTreeMap. *)
Definition key_le {A} (x y : N * A) : Prop := x.1 <= y.1.
#[export] Instance key_le_dec {A} (x y : N * A) : Decision (key_le x y).
Proof. unfold key_le. apply _. Defined.

(** The requests for the signers that have a connection. *)
Definition dispatch s (p : SubmitEnrollmentPayload) (sid : N) (pkg : SigningPackage SigningCommitments) (slots : gmap N NonceSlotId) :
    list (nat * SignCertRequestPayload) :=
  omap (fun x => (fun conn => (conn, mkSignRequest sid x.2 pkg (csr_tbs p) (credential p) (challenge_nonce p) (pop_signature p)))
                   <$> signer_txs s !! x.1)
    (merge_sort key_le (map_to_list slots)).

(** A round of the loop that starts a session. *)
Definition attempt s (k : nat) (p : SubmitEnrollmentPayload) (msg : list u8) (tries : nat) : run Coordinator :=
  let! ' (r, o) := try_spawn_session (roast s <| message := msg |>) in
  let s := s <| roast := r |> in
  Ret (match o with
       | Some (sid, pkg, slots) => set_task (s <| outbox := outbox s ++ dispatch s p sid pkg slots |>) k (Waiting p msg sid 200)
       | None => set_task s k (match tries with S (S n) => Spawning p msg (S n) | _ => Closed (Some (Rejected QuorumUnreachable)) end)
       end).

Definition cert_of (t : CertTbs) (sig : list u8) : Cert :=
  mkCert (t_version t) (t_member_pubkey t) (t_member_sign_pubkey t) (t_network_id t) (t_not_before t) (t_not_after t) (t_tags t) sig.

(** A signature that is not 64 bytes long panics in [copy_from_slice]. *)
Definition enrolled (ppk : PublicKeyPackage) (t : CertTbs) (sig : Signature) : Task :=
  if (length (serialize sig) =? 64)%nat && (length (group_key ppk) =? 32)%nat then
    match cert_encode (cert_of t (serialize sig)) with
    | Ret bytes => Closed (Some (Enrolled bytes (group_key ppk)))
    | Panic => Closed None
    end
  else Closed None.

(** A round of the loop that waits for the shares. *)
Definition poll s (p : SubmitEnrollmentPayload) (msg : list u8) (sid : N) (tries : nat) : Task :=
  let again := match tries with S (S n) => Waiting p msg sid (S n) | _ => Closed (Some (Rejected QuorumUnreachable)) end in
  match active_sessions (roast s) !! sid with
  | Some session =>
      if (threshold (roast s) <=? size (collected_shares session))%nat then
        match aggregate (signing_package session) (collected_shares session) (pubkey_package (roast s)) with
        | Some sig => enrolled (pubkey_package (roast s)) (csr_tbs p) sig
        | None => again
        end
      else again
  | None => again
  end.

(** What the lock protects, step by step. *)
Definition step s (e : event) : run Coordinator :=
  match e with
  | SignerConnected conn id cs =>
      Ret (s <| signer_txs := <[id := conn]> (signer_txs s) |> <| roast := register_commitments (roast s) id cs |>)
  | SignerShare _ p =>
      Ret (s <| roast := (receive_share (roast s) (p_session_id p) (p_signer_id p) (p_signature_share p) (p_replenish_commitment p)).1 |>)
  | SignerGone _ id => Ret (s <| signer_txs := delete id (signer_txs s) |>)
  | ClientHello k nonce => Ret (match tasks s !! k with None => set_task s k (Challenged nonce) | Some _ => s end)
  | ClientSubmit k p =>
      Ret (match tasks s !! k with Some (Challenged nonce) => set_task s k (check_submission nonce p) | _ => s end)
  | ClientGone k => Ret (match tasks s !! k with Some (Challenged _) => set_task s k (Closed None) | _ => s end)
  | Attempt k => match tasks s !! k with Some (Spawning p msg tries) => attempt s k p msg tries | _ => Ret s end
  | Poll k => Ret (match tasks s !! k with Some (Waiting p msg sid tries) => set_task s k (poll s p msg sid tries) | _ => s end)
  end.

Fixpoint steps s (es : list event) : run Coordinator :=
  match es with [] => Ret s | e :: es => let! s := step s e in steps s es end.

(** ** The client: enroll.rs *)

(** The certificate asked for, and the proof of possession. *)
Definition csr (member member_sign network : list u8) (now : N) : CertTbs :=
  mkTbs Byte.x01 member member_sign network (now - 60) (now + 86400) [].

Definition submission (client_sk member member_sign network : list u8) (cred : EnrollmentCredential) (nonce : list u8) (now : N) :
    run SubmitEnrollmentPayload :=
  let t := csr member member_sign network now in
  let! msg := pop_message nonce t in Ret (mkSubmit nonce t cred (ed_sign client_sk msg)).

Inductive EnrollError := RejectedBy (reason : Reason) | BadCertificate | Unexpected.

(** What the client makes of the last response. *)
Definition read_reply (resp : ClientRpcResponse) : result Cert EnrollError :=
  match resp with
  | Enrolled bytes _ => match cert_decode bytes with Some c => Ok c | None => Err BadCertificate end
  | Rejected reason => Err (RejectedBy reason)
  | Challenge _ _ => Err Unexpected
  end.

End Frost.

(** ** A nonce is used once *)

Module Nonces.
Section Nonces.
Context {frost : Frost}.

(** A request of the types of the source, whose tags fit their counts. *)
Definition request_ok (req : SignCertRequestPayload) : Prop := exists msg, to_canonical_bytes (r_cert_tbs req) = Ret msg.

(** The nonces of the vault are draws that signed nothing yet. *)
Record vault_ok (kp : KeyPackage) (v : Vault) (draws : nat) (used : list nat) : Prop := {
  vo_draws : next_gen_idx v = 1 + N.of_nat draws;
  vo_slot slot n : active_nonces v !! slot = Some n ->
    exists d, slot = mkSlot (v_boot_epoch_id v) (1 + N.of_nat d) /\ (d < draws)%nat /\ d ∉ used /\ n = (commit kp d).1;
  vo_used : Forall (fun d => d < draws)%nat used;
}.

Lemma preprocess_ok kp count v draws used :
  vault_ok kp v draws used -> next_gen_idx v + N.of_nat count < u64_mod ->
  exists v' out, preprocess_batch kp count v draws = Ret (v', (draws + count)%nat, out) /\
    vault_ok kp v' (draws + count) used /\ v_boot_epoch_id v' = v_boot_epoch_id v /\ length out = count.
Proof.
  revert v draws. induction count as [|count IH]; intros v draws Hv Hb; cbn [preprocess_batch].
  - exists v, []. rewrite Nat.add_0_r. done.
  - cbn zeta. destruct (N.ltb_spec (next_gen_idx v + 1) u64_mod); [|lia].
    destruct (commit kp draws) as [n c] eqn:Ec. set (slot := mkSlot _ _). set (v1 := mkVault _ _ _).
    assert (vault_ok kp v1 (S draws) used) as H1.
    { destruct Hv as [Hd Hs Hu]. constructor; cbn.
      - lia.
      - intros s m. rewrite lookup_insert_Some. intros [[<- <-]|[_ Hm]].
        + exists draws. cbn. split_and!; [unfold slot; by rewrite Hd|lia| |by rewrite Ec]. intros Hin.
          apply (proj1 (Forall_forall _ _) Hu) in Hin. lia.
        + destruct (Hs s m Hm) as (d & E & Hlt & Hn & En). exists d. split_and!; [done|lia|done|done].
      - eapply Forall_impl; [exact Hu|]. cbn. lia. }
    destruct (IH v1 (S draws) H1) as (v' & out & -> & Hv' & Hb' & Hl); [cbn; lia|]. cbn [rbind].
    exists v', ((slot, c) :: out). replace (draws + S count)%nat with (S draws + count)%nat by lia. cbn. by rewrite Hl.
Qed.

(** The requests that were signed, with their shares. *)
Definition answered (reqs : list SignCertRequestPayload) (ms : list QuorumRpcMessage) : list (SignCertRequestPayload * SignatureShare) :=
  omap (fun x => match x.2 with SignCertResponse p => Some (x.1, p_signature_share p) | _ => None end) (zip reqs ms).

(** What a signature says: the certificate is the message, within the policy. *)
Definition within_policy (ttl : N) (req : SignCertRequestPayload) : Prop :=
  to_canonical_bytes (r_cert_tbs req) = Ret (sp_message (r_signing_package req)) /\
  t_not_before (r_cert_tbs req) < t_not_after (r_cert_tbs req) <= t_not_before (r_cert_tbs req) + ttl.

Definition signed_by (kp : KeyPackage) (ttl : N) (x : SignCertRequestPayload * SignatureShare) (d : nat) : Prop :=
  round2_sign (r_signing_package x.1) (commit kp d).1 kp = Some x.2 /\ within_policy ttl x.1.

Lemma take_ok kp v draws used slot v' n :
  vault_ok kp v draws used -> take_once v slot = (v', Some n) ->
  exists d, n = (commit kp d).1 /\ d ∉ used /\ vault_ok kp v' draws (d :: used) /\ next_gen_idx v' = next_gen_idx v.
Proof.
  intros [Hd Hs Hu]. unfold take_once. destruct (negb _) eqn:Eb; [done|]. intros [= <- El].
  destruct (Hs slot n El) as (d & E & Hlt & Hn & ->). exists d. split; [done|]. split; [done|]. split; [|done].
  constructor; cbn; [done| |by constructor].
  intros s m. rewrite lookup_delete_Some. intros [Hne Hm]. destruct (Hs s m Hm) as (d' & E' & Hlt' & Hn' & En).
  exists d'. split; [done|]. split; [done|]. split; [|done]. rewrite elem_of_cons. intros [->|?]; [|done]. congruence.
Qed.

Lemma take_none v slot v' : take_once v slot = (v', None) -> v' = v.
Proof.
  unfold take_once. destruct (negb _); [by intros [= <-]|]. intros [= <- El]. rewrite delete_id by done. by destruct v.
Qed.

(** One request: nothing but the vault changes, and a share is made with a
    draw that signed nothing before and signs nothing after. *)
Lemma sign_request_ok s req used :
  vault_ok (s_key_package s) (vault s) (s_draws s) used -> request_ok req -> next_gen_idx (vault s) + 1 < u64_mod ->
  exists s' m used', handle_sign_request s req = Ret (s', m) /\
    s_key_package s' = s_key_package s /\ max_ttl_secs s' = max_ttl_secs s /\
    next_gen_idx (vault s') <= next_gen_idx (vault s) + 1 /\
    vault_ok (s_key_package s) (vault s') (s_draws s') (used' ++ used) /\
    NoDup used' /\ (forall d, d ∈ used' -> d ∉ used) /\
    match m with
    | SignCertResponse p => exists d, used' = [d] /\ signed_by (s_key_package s) (max_ttl_secs s) (req, p_signature_share p) d
    | _ => True
    end.
Proof.
  intros Hv [msg Hm] Hb. unfold handle_sign_request. rewrite Hm. cbn [rbind].
  assert (forall m, match m with SignCertResponse p => False | _ => True end -> exists s' m' used',
    Ret (s, m) = Ret (s', m') /\ s_key_package s' = s_key_package s /\ max_ttl_secs s' = max_ttl_secs s /\
    next_gen_idx (vault s') <= next_gen_idx (vault s) + 1 /\ vault_ok (s_key_package s) (vault s') (s_draws s') (used' ++ used) /\
    NoDup used' /\ (forall d, d ∈ used' -> d ∉ used) /\
    match m' with SignCertResponse p => exists d, used' = [d] /\ signed_by (s_key_package s) (max_ttl_secs s) (req, p_signature_share p) d | _ => True end)
    as Hsame.
  { intros m Hr. exists s, m, []. split_and!; try done; [lia|constructor|by intros d ?%not_elem_of_nil|by destruct m]. }
  case_bool_decide as Hp; cbn [negb]; [|by apply Hsame]. destruct (_ || _) eqn:Et; [by apply Hsame|].
  destruct (take_once (vault s) (r_slot_id req)) as [v [n|]] eqn:Ek.
  2: { apply take_none in Ek as ->. destruct s. by apply Hsame. }
  destruct (take_ok _ _ _ _ _ _ _ Hv Ek) as (d & -> & Hd & Hv' & En).
  destruct (preprocess_ok _ 1 v (s_draws s) _ Hv') as (v2 & out & -> & Hv2 & _ & _); [lia|]. cbn [rbind].
  eexists _, _, [d]. split; [done|]. cbn [s_key_package max_ttl_secs vault s_draws]. split_and!; try done.
  - destruct Hv2 as [E2 _ _], Hv' as [E1 _ _]. lia.
  - apply NoDup_singleton.
  - by intros d' ->%list_elem_of_singleton.
  - destruct (round2_sign _ _ _) eqn:Es; [|done]. exists d. split; [done|]. split; [done|]. split; [cbn [fst]; congruence|]. cbn.
    apply orb_false_iff in Et as [?%N.leb_gt ?%N.ltb_ge]. lia.
Qed.

Lemma serve_ok reqs s used :
  vault_ok (s_key_package s) (vault s) (s_draws s) used -> Forall request_ok reqs ->
  next_gen_idx (vault s) + N.of_nat (length reqs) < u64_mod ->
  exists s' ms draws, serve_requests s reqs = Ret (s', ms) /\ NoDup draws /\ (forall d, d ∈ draws -> d ∉ used) /\
    Forall2 (signed_by (s_key_package s) (max_ttl_secs s)) (answered reqs ms) draws.
Proof.
  revert s used. induction reqs as [|req reqs IH]; intros s used Hv Hr Hb; cbn [serve_requests].
  - exists s, [], []. split_and!; [done|constructor|by intros d ?%not_elem_of_nil|constructor].
  - apply Forall_cons in Hr as [H1 Hr]. cbn [length] in Hb.
    destruct (sign_request_ok s req used Hv H1 ltac:(lia)) as (s1 & m & used' & -> & Ek & Et & Hn & Hv1 & Hnd & Hdis & Hm). cbn [rbind].
    rewrite <- Ek in Hv1. destruct (IH s1 (used' ++ used) Hv1 Hr ltac:(lia)) as (s2 & ms & draws & -> & Hnd2 & Hdis2 & Hall). cbn [rbind].
    rewrite Ek, Et in Hall. exists s2, (m :: ms). unfold answered in *. cbn [zip zip_with].
    destruct m as [| |p|]; cbn [omap list_omap snd fst];
      [exists draws; split_and!; [done|done| |done]; intros d Hd Hu; apply (Hdis2 d Hd); set_solver..| |
       exists draws; split_and!; [done|done| |done]; intros d Hd Hu; apply (Hdis2 d Hd); set_solver].
    destruct Hm as (d & -> & Hd). exists (d :: draws). split_and!; [done| | |by constructor].
    + constructor; [|done]. intros Hin. apply (Hdis2 d Hin). set_solver.
    + intros d' [->|Hin]%elem_of_cons; [apply Hdis; by apply list_elem_of_singleton|]. intros Hu. apply (Hdis2 d' Hin). set_solver.
Qed.

(** C12: a signer never signs twice with the same nonce: whatever requests it is
    given, in whatever order and however often, it answers them all, and the
    shares it gives away were made with pairwise different draws of its
    generator; and each share is for the certificate of its request, whose
    window is not empty and not longer than the signer's policy allows. *)
Theorem nonces_used_once kp ttl epoch reqs :
  Forall request_ok reqs -> N.of_nat (length reqs) + 17 < u64_mod ->
  exists s0 m0 s ms draws, start_signer kp ttl epoch = Ret (s0, m0) /\ serve_requests s0 reqs = Ret (s, ms) /\
    NoDup draws /\ Forall2 (signed_by kp ttl) (answered reqs ms) draws.
Proof.
  intros Hr Hb. unfold start_signer.
  assert (vault_ok kp (new_vault epoch) 0 []) as H0 by by constructor.
  destruct (preprocess_ok kp 16 (new_vault epoch) 0 [] H0) as (v & out & -> & Hv & _); [done|]. cbn [rbind].
  set (s0 := mkSigner kp ttl v 16). pose proof (vo_draws _ _ _ _ Hv) as En.
  destruct (serve_ok reqs s0 [] Hv Hr) as (s & ms & draws & E & Hn & _ & Hall); [cbn; cbn in En; lia|].
  by exists s0, (PublishCommitments (identifier kp) epoch out), s, ms, draws.
Qed.

End Nonces.
End Nonces.

(** ** The coordinator's sessions *)

Module Roast.
Section Roast.
Context {frost : Frost}.
Implicit Types r : RoastCoordinator.

(** What the loop over the eligible signers leaves alone. *)
Definition same_sessions r r' : Prop :=
  threshold r' = threshold r /\ pubkey_package r' = pubkey_package r /\ message r' = message r /\
  active_sessions r' = active_sessions r /\ banished_signers r' = banished_signers r /\ next_session_id r' = next_session_id r.

Lemma enlist_ok sid ids r cs slots :
  NoDup ids -> Forall (fun id => queue_of r id <> []) ids ->
  exists r' cs' slots', enlist sid ids r cs slots = Ret (r', cs', slots') /\ same_sessions r r' /\
    responsive_signers r' = responsive_signers r ∖ list_to_set ids /\
    (forall id, signer_to_session r' !! id = if decide (id ∈ ids) then Some sid else signer_to_session r !! id) /\
    (forall id, queue_of r' id = if decide (id ∈ ids) then tail (queue_of r id) else queue_of r id) /\
    (forall id, cs' !! id = if decide (id ∈ ids) then snd <$> head (queue_of r id) else cs !! id) /\
    (forall id, slots' !! id = if decide (id ∈ ids) then fst <$> head (queue_of r id) else slots !! id).
Proof.
  intros Hnd. revert r cs slots. induction Hnd as [|id ids Hid _ IH]; intros r cs slots Hq; cbn [enlist].
  - exists r, cs, slots. split_and!; try done; set_solver.
  - apply Forall_cons in Hq as [Hq Hqs]. cbn zeta. cbn. unfold queue_of in Hq.
    destruct (commitment_queues r !! id) as [[|[slot c] q]|] eqn:Eq; cbn in Hq; try done.
    match goal with |- context [enlist sid ids ?x _ _] => set (r1 := x) end.
    assert (forall i, queue_of r1 i = if decide (i = id) then q else queue_of r i) as Hr1.
    { intros i. unfold queue_of, r1. cbn. destruct (decide (i = id)) as [->|Hi]; [by rewrite lookup_insert_eq|by rewrite lookup_insert_ne]. }
    assert (queue_of r id = (slot, c) :: q) as Er by (unfold queue_of; by rewrite Eq).
    destruct (IH r1 (<[id := c]> cs) (<[id := slot]> slots)) as (r' & cs' & slots' & -> & Hs & Hresp & Hsig & Hqu & Hcs & Hsl).
    { rewrite Forall_forall in Hqs |- *. intros i Hi. rewrite Hr1, decide_False by (intros ->; done). by apply Hqs. }
    exists r', cs', slots'. split; [done|]. split; [exact Hs|]. split; [rewrite Hresp; cbn; set_solver|].
    assert (forall i A (x y : A), (if decide (i ∈ id :: ids) then x else y) = if decide (i = id) then x else if decide (i ∈ ids) then x else y) as Hdec.
    { intros i A x y. destruct (decide (i = id)) as [->|Hi]; [by rewrite decide_True by set_solver|].
      destruct (decide (i ∈ ids)); [rewrite decide_True by set_solver|rewrite decide_False by set_solver]; done. }
    split_and!; intros i; rewrite Hdec.
    + rewrite Hsig. cbn. destruct (decide (i = id)) as [->|Hi]; [by rewrite decide_False, lookup_insert_eq by done|].
      by rewrite lookup_insert_ne.
    + rewrite Hqu, Hr1. destruct (decide (i = id)) as [->|Hi]; [|done]. by rewrite decide_False, Er by done.
    + rewrite Hcs, Hr1. destruct (decide (i = id)) as [->|Hi]; [by rewrite decide_False, lookup_insert_eq, Er by done|].
      by rewrite lookup_insert_ne.
    + rewrite Hsl, Hr1. destruct (decide (i = id)) as [->|Hi]; [by rewrite decide_False, lookup_insert_eq, Er by done|].
      by rewrite lookup_insert_ne.
Qed.

Lemma NoDup_take {A} n (l : list A) : NoDup l -> NoDup (take n l).
Proof. intros H. rewrite <- (take_drop n l) in H. by apply NoDup_app in H as [? _]. Qed.

Lemma eligible_spec r :
  NoDup (eligible r) /\ (length (eligible r) <= threshold r)%nat /\
  Forall (fun id => id ∈ responsive_signers r /\ id ∉ banished_signers r /\ queue_of r id <> []) (eligible r).
Proof.
  unfold eligible. set (l := filter _ _). assert (NoDup l) as Hl.
  { apply NoDup_filter. rewrite merge_sort_Permutation. apply NoDup_elements. }
  split; [by apply NoDup_take|]. split; [apply firstn_le_length|].
  apply Forall_take, Forall_forall. intros id [[H1 H2] H3]%list_elem_of_filter. rewrite merge_sort_Permutation in H3. set_solver.
Qed.

(** What a spawned session is. *)
Lemma try_spawn_ok r : next_session_id r + 1 < u128_mod ->
  exists r' o, try_spawn_session r = Ret (r', o) /\
    match o with
    | None => r' = r /\ (length (eligible r) < threshold r)%nat
    | Some (sid, pkg, slots) =>
        length (eligible r) = threshold r /\ sid = next_session_id r /\ sp_message pkg = message r /\
        threshold r' = threshold r /\ pubkey_package r' = pubkey_package r /\ message r' = message r /\
        banished_signers r' = banished_signers r /\ next_session_id r' = sid + 1 /\
        active_sessions r' = <[sid := mkSession (list_to_set (eligible r)) pkg ∅]> (active_sessions r) /\
        responsive_signers r' = responsive_signers r ∖ list_to_set (eligible r) /\
        (forall id, signer_to_session r' !! id = if decide (id ∈ eligible r) then Some sid else signer_to_session r !! id) /\
        (forall id, sp_commitments pkg !! id = if decide (id ∈ eligible r) then snd <$> head (queue_of r id) else None) /\
        (forall id, slots !! id = if decide (id ∈ eligible r) then fst <$> head (queue_of r id) else None)
    end.
Proof.
  intros Hb. destruct (eligible_spec r) as (Hn & Hle & Hall). unfold try_spawn_session. cbn zeta.
  destruct (Nat.ltb_spec (length (eligible r)) (threshold r)) as [Hlt|Hge]; [exists r, None; done|].
  destruct (N.ltb_spec (next_session_id r + 1) u128_mod); [|lia].
  set (r0 := r <| next_session_id := _ |>).
  destruct (enlist_ok (next_session_id r) (eligible r) r0 ∅ ∅ Hn) as (r' & cs & slots & -> & Hs & Hresp & Hsig & _ & Hcs & Hsl).
  { eapply Forall_impl; [exact Hall|]. intros id (_ & _ & Hq). exact Hq. }
  cbn [rbind]. eexists _, _. split; [done|]. cbn. destruct Hs as (H1 & H2 & H3 & H4 & H5 & H6).
  split_and!; try done; try lia; first [by rewrite H4|by intros id; rewrite Hcs, lookup_empty|by intros id; rewrite Hsl, lookup_empty].
Qed.

End Roast.
End Roast.

(** ** Every certificate is a good one *)

(** What the documentation of FROST says of [aggregate]: the signature it
    returns verifies under the group's key; and of the encodings' lengths. *)
Class FrostLaws `{Frost} `{Ed25519} : Prop := {
  aggregate_verifies pkg shares ppk sig :
    aggregate pkg shares ppk = Some sig -> key_verifies (sp_message pkg) (serialize sig) (group_key ppk) = true;
  serialize_length sig : length (serialize sig) = 64%nat;
  group_key_length ppk : length (group_key ppk) = 32%nat;
}.

Module Issued.
Import Roast.
Section Issued.
Context {frost : Frost} {ed : Ed25519} {FL : FrostLaws}.
Context (t : nat) (ppk : PublicKeyPackage).

(** Arrays have their lengths and words their bounds. *)
Record tbs_ok (x : CertTbs) : Prop := {
  to_member : length (t_member_pubkey x) = 32%nat;
  to_sign : length (t_member_sign_pubkey x) = 32%nat;
  to_network : length (t_network_id x) = 16%nat;
  to_before : t_not_before x < u64_mod;
  to_after : t_not_after x < u64_mod;
}.

Definition event_ok (e : event) : Prop := match e with ClientSubmit _ p => tbs_ok (csr_tbs p) | _ => True end.

(** The client of task [k] proved possession of the key it submits, for the
    challenge this task was given. *)
Definition proved (es : list event) (k : nat) (p : SubmitEnrollmentPayload) (msg : list u8) : Prop :=
  ClientHello k (challenge_nonce p) ∈ es /\ ClientSubmit k p ∈ es /\ to_canonical_bytes (csr_tbs p) = Ret msg /\
  key_verifies (ENROLL_POP_CONTEXT ++ challenge_nonce p ++ msg) (pop_signature p) (t_member_sign_pubkey (csr_tbs p)) = true.

(** The shares of a session are of its participants, and each verifies. *)
Definition session_ok (x : RoastSession) : Prop :=
  forall id sh, collected_shares x !! id = Some sh ->
    id ∈ participants x /\ verify_signature_share ppk id sh (signing_package x) = true.

(** A certificate of at least [t] signers, for what the client submitted. *)
Definition issued_for (p : SubmitEnrollmentPayload) (msg bytes key : list u8) : Prop :=
  key = group_key ppk /\
  exists x sig, session_ok x /\ sp_message (signing_package x) = msg /\ (t <= size (collected_shares x))%nat /\
    aggregate (signing_package x) (collected_shares x) ppk = Some sig /\
    cert_encode (cert_of (csr_tbs p) (serialize sig)) = Ret bytes.

Definition task_ok (es : list event) (r : RoastCoordinator) (k : nat) (tk : Task) : Prop :=
  match tk with
  | Challenged nonce => ClientHello k nonce ∈ es
  | Spawning p msg _ => proved es k p msg
  | Waiting p msg sid _ =>
      proved es k p msg /\ exists x, active_sessions r !! sid = Some x /\ sp_message (signing_package x) = msg
  | Closed (Some (Enrolled bytes key)) => exists p msg, proved es k p msg /\ issued_for p msg bytes key
  | Closed _ => True
  end.

Record inv (es : list event) (s : Coordinator) : Prop := {
  in_threshold : threshold (roast s) = t;
  in_package : pubkey_package (roast s) = ppk;
  in_sessions sid x : active_sessions (roast s) !! sid = Some x -> session_ok x /\ sid < next_session_id (roast s);
  in_next : next_session_id (roast s) <= 1 + N.of_nat (length es);
  in_tasks k tk : tasks s !! k = Some tk -> task_ok es (roast s) k tk;
}.

(** Sessions stay, with their messages. *)
Definition grows (r r' : RoastCoordinator) : Prop :=
  forall sid x, active_sessions r !! sid = Some x ->
    exists x', active_sessions r' !! sid = Some x' /\ signing_package x' = signing_package x.

Lemma task_mono es e r r' k tk : grows r r' -> task_ok es r k tk -> task_ok (es ++ [e]) r' k tk.
Proof.
  intros Hg. assert (forall p msg, proved es k p msg -> proved (es ++ [e]) k p msg) as Hp.
  { intros p msg (H1 & H2 & H3). split_and!; [set_solver..|apply H3|apply H3]. }
  destruct tk as [nonce|p msg n|p msg sid n|[[]|]]; cbn; try done; [set_solver|apply Hp| |].
  - intros [H1 (x & Ex & Em)]. split; [by apply Hp|]. destruct (Hg sid x Ex) as (x' & Ex' & Epkg). exists x'. by rewrite Epkg.
  - intros (p & msg & H1 & H2). exists p, msg. by split; [apply Hp|].
Qed.

Lemma grows_refl r : grows r r.
Proof. intros sid x E. by exists x. Qed.

(** The steps of the invariant, with the session table and one task changed. *)
Lemma issued_step es e s r' :
  inv es s -> threshold r' = threshold (roast s) -> pubkey_package r' = pubkey_package (roast s) -> grows (roast s) r' ->
  (forall sid x, active_sessions r' !! sid = Some x -> session_ok x /\ sid < next_session_id r') ->
  next_session_id r' <= next_session_id (roast s) + 1 ->
  forall s', roast s' = r' ->
  (forall k tk, tasks s' !! k = Some tk -> tasks s !! k = Some tk \/ task_ok (es ++ [e]) r' k tk) -> inv (es ++ [e]) s'.
Proof.
  intros [Ht Hp Hs Hn Hk] Et Ep Hg Hs' Hn' s' <- Htk. constructor; [congruence..|done| |].
  - rewrite length_app. cbn. lia.
  - intros k tk E. destruct (Htk k tk E) as [E0|?]; [|done]. eapply task_mono; [exact Hg|]. by apply Hk.
Qed.

Lemma check_submission_ok es k nonce p r :
  tbs_ok (csr_tbs p) -> ClientHello k nonce ∈ es -> task_ok (es ++ [ClientSubmit k p]) r k (check_submission nonce p).
Proof.
  intros Hw Hh. unfold check_submission. case_bool_decide as En; cbn [negb]; [|done].
  destruct (verify_enrollment_pop _ _ _ _) as [[]|] eqn:Ev; [|done..].
  destruct (to_canonical_bytes (csr_tbs p)) as [msg|] eqn:Em; [|done]. cbn. subst nonce. split_and!; [set_solver..|done|].
  unfold verify_enrollment_pop, pop_message in Ev. rewrite Em in Ev. cbn [rbind] in Ev. unfold key_verifies.
  destruct (vk_from_bytes _); [|done]. cbn [rbind] in Ev. congruence.
Qed.

Lemma poll_ok es s k p msg sid n : inv es s -> tasks s !! k = Some (Waiting p msg sid n) ->
  forall e, task_ok (es ++ [e]) (roast s) k (poll s p msg sid n).
Proof.
  intros Hi Ek e. pose proof (in_tasks es s Hi k _ Ek) as Hk. pose proof (task_mono es e _ _ k _ (grows_refl (roast s)) Hk) as Hk'.
  assert (task_ok (es ++ [e]) (roast s) k (match n with S (S n) => Waiting p msg sid (S n) | _ => Closed (Some (Rejected QuorumUnreachable)) end)) as Ha.
  { destruct n as [|[|n]]; done. }
  unfold poll. cbn zeta. destruct Hk as [Hp (x & Ex & Em)]. rewrite Ex.
  destruct (Nat.leb_spec (threshold (roast s)) (size (collected_shares x))) as [Hl|]; [|done].
  destruct (aggregate _ _ _) as [sig|] eqn:Ea; [|done]. unfold enrolled. rewrite serialize_length, group_key_length. cbn [Nat.eqb andb].
  destruct (cert_encode _) as [bytes|] eqn:Ec; [|done]. cbn. exists p, msg. split; [apply Hk'|].
  rewrite (in_package es s Hi) in *. rewrite (in_threshold es s Hi) in Hl. split; [done|]. exists x, sig. split_and!; try done.
  by apply (in_sessions es s Hi sid x).
Qed.

(** A share changes one session at most, by a verified share. *)
Lemma receive_share_ok r sid id sh rep :
  pubkey_package r = ppk -> (forall i x, active_sessions r !! i = Some x -> session_ok x /\ i < next_session_id r) ->
  let r' := (receive_share r sid id sh rep).1 in
  threshold r' = threshold r /\ pubkey_package r' = pubkey_package r /\ next_session_id r' = next_session_id r /\ grows r r' /\
  (forall i x, active_sessions r' !! i = Some x -> session_ok x /\ i < next_session_id r').
Proof.
  intros Ep Hs. cbn zeta.
  assert (forall r', active_sessions r' = active_sessions r -> threshold r' = threshold r -> pubkey_package r' = pubkey_package r ->
    next_session_id r' = next_session_id r -> threshold r' = threshold r /\ pubkey_package r' = pubkey_package r /\
    next_session_id r' = next_session_id r /\ grows r r' /\
    forall i x, active_sessions r' !! i = Some x -> session_ok x /\ i < next_session_id r') as Hsame.
  { intros r' E1 E2 E3 E4. split_and!; [done..|by intros i x Ex; rewrite E1; exists x|]. intros i x. rewrite E1, E4. apply Hs. }
  unfold receive_share. destruct (active_sessions r !! sid) as [x|] eqn:Ex; [|by apply Hsame].
  case_bool_decide as Hin; cbn [negb]; [|by apply Hsame].
  destruct (knows_signer _ id); cbn [negb]; [|by apply Hsame].
  destruct (verify_signature_share _ id sh _) eqn:Ev; cbn [negb]; [|by apply Hsame].
  cbn zeta. match goal with |- context [if _ then match aggregate _ _ _ with Some sig => (?x, _) | None => _ end else _] => set (r1 := x) end.
  assert ((if (size (<[id:=sh]> (collected_shares x)) =? threshold r1)%nat
     then match aggregate (signing_package x) (<[id:=sh]> (collected_shares x)) (pubkey_package r1) with
          | Some sig => (r1, Ok (Some sig)) | None => (r1, Err AggregateFailed) end else (r1, Ok None)).1 = r1) as ->.
  { destruct (_ =? _)%nat; [|done]. by destruct (aggregate _ _ _). }
  assert (threshold r1 = threshold r /\ pubkey_package r1 = pubkey_package r /\ next_session_id r1 = next_session_id r /\
    active_sessions r1 = <[sid := mkSession (participants x) (signing_package x) (<[id := sh]> (collected_shares x))]> (active_sessions r))
    as (-> & -> & -> & Ea) by by destruct rep.
  split_and!; try done.
  - intros i y Ey. rewrite Ea. destruct (decide (i = sid)) as [->|Hi]; [|by rewrite lookup_insert_ne; eauto].
    rewrite lookup_insert_eq. rewrite Ex in Ey. injection Ey as <-. by eexists.
  - intros i y. rewrite Ea, lookup_insert_Some. intros [[<- <-]|[_ Hy]]; [|by apply Hs]. destruct (Hs sid x Ex) as [Hx Hlt]. split; [|done].
    intros i z. cbn. rewrite lookup_insert_Some. intros [[<- <-]|[_ Hz]]; [|by apply Hx]. rewrite Ep in Ev. done.
Qed.

Lemma register_ok r id cs :
  let r' := register_commitments r id cs in
  threshold r' = threshold r /\ pubkey_package r' = pubkey_package r /\ next_session_id r' = next_session_id r /\
  active_sessions r' = active_sessions r.
Proof. unfold register_commitments. case_bool_decide; [done|]. cbn zeta. cbn. by destruct (signer_to_session r !! id). Qed.

Lemma grows_same r r' : active_sessions r' = active_sessions r -> grows r r'.
Proof. intros E sid x Ex. rewrite E. by exists x. Qed.

(** A step that leaves the sessions as they are. *)
Lemma inv_task_step es e s k tk :
  inv es s -> task_ok (es ++ [e]) (roast s) k tk -> inv (es ++ [e]) (set_task s k tk).
Proof.
  intros Hi Ht. eapply (issued_step es e s (roast s)); try done; [apply grows_refl|by apply (in_sessions es s Hi)|lia|].
  intros k' tk'. cbn. rewrite lookup_insert_Some. intros [[<- <-]|[_ E]]; [by right|by left].
Qed.

Lemma inv_same_step es e s s' : inv es s -> roast s' = roast s -> tasks s' = tasks s -> inv (es ++ [e]) s'.
Proof.
  intros Hi Er Et. eapply (issued_step es e s (roast s)); try done; [apply grows_refl|by apply (in_sessions es s Hi)|lia|].
  intros k tk E. left. by rewrite <- Et.
Qed.

Lemma attempt_ok es e s k p msg n :
  inv es s -> tasks s !! k = Some (Spawning p msg n) -> next_session_id (roast s) + 1 < u128_mod ->
  exists s', attempt s k p msg n = Ret s' /\ inv (es ++ [e]) s'.
Proof.
  intros Hi Ek Hb. pose proof (in_tasks es s Hi k _ Ek) as Hp. cbn in Hp. unfold attempt.
  destruct (try_spawn_ok (roast s <| message := msg |>)) as (r' & o & -> & Ho); [by cbn|]. cbn [rbind]. eexists. split; [done|].
  pose proof (task_mono es e (roast s) (roast s) k (Spawning p msg n) (grows_refl _) Hp) as Hp'. cbn in Hp'.
  destruct o as [[[sid pkg] slots]|].
  - destruct Ho as (_ & -> & Em & Et & Epk & _ & _ & Enx & Ea & _). cbn in *.
    assert (grows (roast s) r') as Hg.
    { intros i x Ex. rewrite Ea. exists x. rewrite lookup_insert_ne; [done|]. intros <-. destruct (in_sessions es s Hi _ x Ex) as [_ ?]. lia. }
    eapply (issued_step es e s r'); try done; [|lia|].
    + intros i x. rewrite Ea, lookup_insert_Some. intros [[<- <-]|[_ Ex]]; [split; [by intros j sh; cbn; rewrite lookup_empty|lia]|].
      destruct (in_sessions es s Hi i x Ex) as [? ?]. split; [done|lia].
    + intros k' tk. cbn. rewrite lookup_insert_Some. intros [[<- <-]|[_ E]]; [right|by left]. cbn. split; [exact Hp'|].
      rewrite Ea, lookup_insert_eq. by eexists.
  - destruct Ho as [-> _]. eapply (issued_step es e s (roast s <| message := msg |>)); try done.
    + by apply grows_same.
    + by apply (in_sessions es s Hi).
    + cbn. lia.
    + intros k' tk. cbn. rewrite lookup_insert_Some. intros [[<- <-]|[_ E]]; [right|by left]. destruct n as [|[|n]]; [done..|exact Hp'].
Qed.

Lemma issued_step_ok es e s : inv es s -> event_ok e -> N.of_nat (length es) + 2 < u128_mod -> exists s', step s e = Ret s' /\ inv (es ++ [e]) s'.
Proof.
  intros Hi He Hb. pose proof (in_next es s Hi) as Hn. destruct e as [conn id cs|conn p|conn id|k nonce|k p|k|k|k]; cbn [step].
  - eexists. split; [done|]. destruct (register_ok (roast s) id cs) as (E1 & E2 & E3 & E4).
    eapply (issued_step es _ s (register_commitments (roast s) id cs)); try done; [by apply grows_same| |lia|by left].
    intros i x. rewrite E3, E4. apply (in_sessions es s Hi).
  - eexists. split; [done|].
    destruct (receive_share_ok (roast s) (p_session_id p) (p_signer_id p) (p_signature_share p) (p_replenish_commitment p)
      (in_package es s Hi) (in_sessions es s Hi)) as (E1 & E2 & E3 & Hg & Hs).
    eapply issued_step; [done|exact E1|exact E2|exact Hg|exact Hs|lia|done|by left].
  - eexists. split; [done|]. by eapply inv_same_step.
  - eexists. split; [done|]. destruct (tasks s !! k) as [tk|] eqn:Ek; [by eapply inv_same_step|]. apply inv_task_step; [done|]. cbn. set_solver.
  - eexists. split; [done|]. destruct (tasks s !! k) as [[nonce|?|?|?]|] eqn:Ek; try by eapply inv_same_step.
    apply inv_task_step; [done|]. apply check_submission_ok; [done|]. apply (in_tasks es s Hi k _ Ek).
  - eexists. split; [done|]. destruct (tasks s !! k) as [[nonce|?|?|?]|] eqn:Ek; try by eapply inv_same_step. by apply inv_task_step.
  - destruct (tasks s !! k) as [[?|p msg n|?|?]|] eqn:Ek; try by (eexists; split; [done|]; eapply inv_same_step).
    eapply attempt_ok; [done..|]. lia.
  - eexists. split; [done|]. destruct (tasks s !! k) as [[?|?|p msg sid n|?]|] eqn:Ek; try by eapply inv_same_step.
    apply inv_task_step; [done|]. by apply poll_ok.
Qed.

Lemma issued_steps_ok es0 s es : inv es0 s -> Forall event_ok es -> N.of_nat (length es0 + length es) + 2 < u128_mod ->
  exists s', steps s es = Ret s' /\ inv (es0 ++ es) s'.
Proof.
  intros Hi He. revert es0 s Hi. induction He as [|e es H1 _ IH]; intros es0 s Hi Hb; cbn [steps]; [exists s; by rewrite app_nil_r|].
  cbn [length] in Hb. destruct (issued_step_ok es0 e s Hi H1) as (s1 & -> & Hi1); [lia|]. cbn [rbind].
  destruct (IH (es0 ++ [e]) s1 Hi1) as (s' & E & Hi'); [rewrite length_app; cbn; lia|]. exists s'. by rewrite <- app_assoc in Hi'.
Qed.

Lemma canonical_body x sig : to_canonical_bytes x = cert_signing_body (cert_of x sig).
Proof. done. Qed.

Lemma len16_inv n bs : len16 n = Ret bs -> fits16 n.
Proof. unfold len16. by destruct (N.ltb_spec (N.of_nat n) u16_mod). Qed.

(** What encodes is well formed. *)
Lemma canonical_wf x sig msg : tbs_ok x -> length sig = 64%nat -> to_canonical_bytes x = Ret msg -> cert_wf (cert_of x sig).
Proof.
  intros [] Hs. rewrite (canonical_body x sig). unfold cert_signing_body. cbn [tags cert_of].
  destruct (len16 (length (t_tags x))) as [n|] eqn:En; [|done]. cbn [rbind].
  destruct (put_all put_tag (t_tags x)) as [bs|] eqn:Et; [|done]. intros _.
  apply len16_inv in En. constructor; cbn; try done. unfold put_all in Et. clear -Et. revert bs Et.
  induction (t_tags x) as [|[tag v] l IH]; intros bs; [constructor|]. cbn [rmap].
  destruct (put_tag (tag, v)) as [b|] eqn:Eb; [|done]. cbn [rbind]. destruct (rmap put_tag l) as [bss|]; [|done]. intros _.
  constructor; [|by apply (IH (concat bss))]. unfold put_tag in Eb. cbn [snd] in *.
  destruct (len16 (length v)) as [n|] eqn:En; [|done]. by apply len16_inv in En.
Qed.

(** C11: every certificate the authority hands out is a good one, whatever
    clients, signers and strangers send and however their steps interleave.
    The coordinator does not fail; and if the task of a client ended with a
    certificate, then the client submitted it, with a signature under the key
    it names over the challenge this very task was given; it decodes; at every
    moment of its window it verifies under the group's key for its member and
    network; and at least [t] signers gave shares for it that verify. *)
Theorem enrolled_certs_valid es :
  Forall event_ok es -> N.of_nat (length es) + 2 < u128_mod ->
  exists s, steps (new_coordinator t ppk) es = Ret s /\
    forall k bytes key, tasks s !! k = Some (Closed (Some (Enrolled bytes key))) ->
      exists p c, ClientHello k (challenge_nonce p) ∈ es /\ ClientSubmit k p ∈ es /\
        read_reply (Enrolled bytes key) = Ok c /\ c = cert_of (csr_tbs p) (ca_sig c) /\
        key_verifies (ENROLL_POP_CONTEXT ++ challenge_nonce p ++ cert_body c) (pop_signature p) (member_sign_pubkey c) = true /\
        (forall now skew, not_before c <= now < not_after c ->
           verify_cert c [group_key ppk] (network_id c) (member_pubkey c) now skew = Ret (Ok tt)) /\
        exists pkg (shares : gmap N SignatureShare), sp_message pkg = cert_body c /\ (t <= size shares)%nat /\
          forall id sh, shares !! id = Some sh -> verify_signature_share ppk id sh pkg = true.
Proof.
  intros He Hb. assert (inv [] (new_coordinator t ppk)) as H0.
  { constructor; try done; intros ? ?; cbn; by rewrite lookup_empty. }
  destruct (issued_steps_ok [] (new_coordinator t ppk) es H0 He ltac:(done)) as (s & E & Hi). exists s. split; [done|].
  intros k bytes key Ek. pose proof (in_tasks _ _ Hi k _ Ek) as (p & msg & (H1 & H2 & Hm & Hpop) & -> & x & sig & Hx & Em & Hl & Ea & Ec).
  pose proof (proj1 (Forall_forall _ _) He _ H2) as Hp. cbn in Hp.
  assert (cert_wf (cert_of (csr_tbs p) (serialize sig))) as Hw by (eapply canonical_wf; [done|apply serialize_length|done]).
  set (c := cert_of (csr_tbs p) (serialize sig)) in *. pose proof (cert_signing_body_ok c Hw) as Hbody.
  change (cert_signing_body c) with (to_canonical_bytes (csr_tbs p)) in Hbody. rewrite Hm in Hbody. injection Hbody as ->.
  exists p, c. split; [done|]. split; [done|]. split.
  { cbn. assert (cert_decode bytes = Some c) as ->; [|done]. by apply cert_decode_iff. }
  split; [done|]. split; [exact Hpop|]. split.
  - intros now skew Hn. destruct (verify_cert_spec c [group_key ppk] (network_id c) (member_pubkey c) now skew Hw) as (v & -> & Hv).
    f_equal. apply Hv. split; [|done]. pose proof (cw_after c Hw). pose proof (cw_before c Hw).
    constructor; [|done|unfold sat_add64, sat_add; lia..]. exists (group_key ppk). split; [by apply list_elem_of_singleton|].
    rewrite <- Em. by apply aggregate_verifies in Ea.
  - exists (signing_package x), (collected_shares x). split_and!; [done..|]. intros id sh Hsh. by apply (Hx id sh).
Qed.

End Issued.
End Issued.

(** ** Who can be in a session *)

Module Faults.
Import Roast.
Section Faults.
Context {frost : Frost} {ed : Ed25519}.
Implicit Types s : Coordinator.

Definition fresh_ids s : Prop := forall sid x, active_sessions (roast s) !! sid = Some x -> sid < next_session_id (roast s).

(** What a step does to the sessions: each keeps its participants, and a new
    one has the eligible signers. *)
Definition sessions_step s s' : Prop :=
  (forall sid x, active_sessions (roast s) !! sid = Some x ->
     exists x', active_sessions (roast s') !! sid = Some x' /\ participants x' = participants x) /\
  (forall sid x, active_sessions (roast s') !! sid = Some x -> active_sessions (roast s) !! sid = None ->
     participants x = list_to_set (eligible (roast s)) /\ length (eligible (roast s)) = threshold (roast s)) /\
  fresh_ids s'.

Lemma sessions_same s s' : fresh_ids s -> active_sessions (roast s') = active_sessions (roast s) ->
  next_session_id (roast s') = next_session_id (roast s) -> sessions_step s s'.
Proof.
  intros Hf Ea En. split_and!; intros sid x; rewrite ?Ea; [eauto|congruence|]. rewrite En. apply Hf.
Qed.

Lemma eligible_message r msg : eligible (r <| message := msg |>) = eligible r.
Proof. done. Qed.

Lemma attempt_sessions s k p msg n s' : fresh_ids s -> attempt s k p msg n = Ret s' ->
  sessions_step s s' /\
  (forall id, banished_signers (roast s') = banished_signers (roast s) /\
     (id ∈ responsive_signers (roast s') -> id ∈ responsive_signers (roast s)) /\
     (is_Some (signer_to_session (roast s) !! id) -> is_Some (signer_to_session (roast s') !! id))) /\
  threshold (roast s') = threshold (roast s).
Proof.
  intros Hf. unfold attempt. destruct (N.ltb_spec (next_session_id (roast s) + 1) u128_mod) as [Hb|Hb].
  - destruct (try_spawn_ok (roast s <| message := msg |>)) as (r' & o & -> & Ho); [by cbn|]. cbn [rbind]. intros [= <-].
    destruct o as [[[sid pkg] slots]|].
    + destruct Ho as (Hl & -> & _ & Et & _ & _ & Eb & Enx & Ea & Er & Es & _). rewrite !eligible_message in *. cbn in *.
      split; [|split; [|done]].
      * split_and!; cbn.
        -- intros i x Ex. rewrite Ea. exists x. rewrite lookup_insert_ne; [done|]. intros <-. apply Hf in Ex. lia.
        -- intros i x. rewrite Ea, lookup_insert_Some. intros [[<- <-]|[_ Ex]] En; [done|congruence].
        -- intros i x. cbn. rewrite Ea, Enx, lookup_insert_Some. intros [[<- <-]|[_ Ex]]; [lia|]. apply Hf in Ex. lia.
      * intros id. split_and!; [done|rewrite Er; set_solver|]. rewrite Es. by destruct (decide _).
    + destruct Ho as [-> _]. split; [by apply sessions_same|done].
  - unfold try_spawn_session. cbn zeta. destruct (_ <? _)%nat; [|destruct (N.ltb_spec (next_session_id (roast s <| message := msg |>) + 1) u128_mod) as [Hc|]; [cbn in Hc; lia|done]].
    cbn [rbind]. intros [= <-]. split; [by apply sessions_same|done].
Qed.

Lemma receive_sessions s sid id sh rep : fresh_ids s ->
  forall s', roast s' = (receive_share (roast s) sid id sh rep).1 -> sessions_step s s' /\ threshold (roast s') = threshold (roast s).
Proof.
  intros Hf s' Er. set (r := roast s) in *.
  assert (forall r', active_sessions r' = active_sessions r -> next_session_id r' = next_session_id r -> threshold r' = threshold r ->
    roast s' = r' -> sessions_step s s' /\ threshold (roast s') = threshold r) as Hsame.
  { intros r' E1 E2 E3 E. split; [apply sessions_same; by rewrite ?E|by rewrite E]. }
  unfold receive_share in Er. destruct (active_sessions r !! sid) as [x|] eqn:Ex; [|by eapply Hsame; [..|exact Er]].
  case_bool_decide as Hin; cbn [negb] in Er; [|by eapply Hsame; [..|exact Er]].
  destruct (knows_signer _ id); cbn [negb] in Er; [|by eapply Hsame; [..|exact Er]].
  destruct (verify_signature_share _ id sh _) eqn:Ev; cbn [negb] in Er; [|by eapply Hsame; [..|exact Er]].
  cbn zeta in Er. assert (threshold (roast s') = threshold r /\ next_session_id (roast s') = next_session_id r /\
    active_sessions (roast s') = <[sid := mkSession (participants x) (signing_package x) (<[id := sh]> (collected_shares x))]> (active_sessions r))
    as (Et & En & Ea).
  { revert Er. destruct (_ =? _)%nat; [destruct (aggregate _ _ _)|]; cbn [fst]; intros ->; by destruct rep. }
  split; [|done]. split_and!.
  - intros i y Ey. rewrite Ea. destruct (decide (i = sid)) as [->|Hi]; [|rewrite lookup_insert_ne by done; eauto].
    rewrite lookup_insert_eq. fold r in Ey. rewrite Ex in Ey. injection Ey as <-. by eexists.
  - intros i y. rewrite Ea, lookup_insert_Some. intros [[<- <-]|[_ Ey]] Hn; fold r in Hn; congruence.
  - intros i y. rewrite Ea, En, lookup_insert_Some. intros [[<- _]|[_ Ey]]; by apply (Hf _ _ ltac:(eassumption)).
Qed.

Lemma step_sessions s e s' : fresh_ids s -> step s e = Ret s' -> sessions_step s s' /\ threshold (roast s') = threshold (roast s).
Proof.
  intros Hf. destruct e as [conn id cs|conn p|conn id|k nonce|k p|k|k|k]; cbn [step].
  - intros [= <-]. cbn. unfold register_commitments. case_bool_decide; [split; [by apply sessions_same|done]|]. cbn zeta. cbn.
    destruct (signer_to_session (roast s) !! id); (split; [by apply sessions_same|done]).
  - intros [= <-]. by eapply receive_sessions.
  - intros [= <-]. split; [by apply sessions_same|done].
  - intros [= <-]. destruct (tasks s !! k); (split; [by apply sessions_same|done]).
  - intros [= <-]. destruct (tasks s !! k) as [[]|]; (split; [by apply sessions_same|done]).
  - intros [= <-]. destruct (tasks s !! k) as [[]|]; (split; [by apply sessions_same|done]).
  - destruct (tasks s !! k) as [[?|p msg n|?|?]|]; try (intros [= <-]; split; [by apply sessions_same|done]).
    intros E. destruct (attempt_sessions _ _ _ _ _ _ Hf E) as (H1 & _ & H2). by split.
  - intros [= <-]. destruct (tasks s !! k) as [[]|]; (split; [by apply sessions_same|done]).
Qed.

Lemma steps_fresh es s s' : fresh_ids s -> steps s es = Ret s' ->
  fresh_ids s' /\ forall sid x, active_sessions (roast s) !! sid = Some x ->
    exists x', active_sessions (roast s') !! sid = Some x' /\ participants x' = participants x.
Proof.
  revert s. induction es as [|e es IH]; intros s Hf; cbn [steps]; [intros [= <-]; eauto|].
  destruct (step s e) as [s1|] eqn:E1; [|done]. cbn [rbind]. intros E2. destruct (step_sessions s e s1 Hf E1) as [(Hk & _ & Hf1) _].
  destruct (IH s1 Hf1 E2) as [Hf' Hk']. split; [done|]. intros sid x Ex. destruct (Hk sid x Ex) as (x1 & Ex1 & Ep1).
  destruct (Hk' sid x1 Ex1) as (x' & Ex' & Ep'). exists x'. by rewrite Ep'.
Qed.

Lemma new_fresh t ppk : fresh_ids (new_coordinator t ppk).
Proof. intros sid x. cbn. by rewrite lookup_empty. Qed.

(** The sessions that start while [Q] holds have what [Q] says of the eligible. *)
Lemma later_sessions (Q : Coordinator -> Prop) (allowed : event -> Prop) (good : gset N -> Prop) :
  (forall s e s', fresh_ids s -> Q s -> allowed e -> step s e = Ret s' -> Q s') ->
  (forall s, Q s -> length (eligible (roast s)) = threshold (roast s) -> good (list_to_set (eligible (roast s)))) ->
  forall es s s', fresh_ids s -> Q s -> Forall allowed es -> steps s es = Ret s' ->
  Q s' /\ forall sid x, active_sessions (roast s') !! sid = Some x -> active_sessions (roast s) !! sid = None -> good (participants x).
Proof.
  intros HQ Hgood es s s' Hf Hs Ha. revert s Hf Hs. induction Ha as [|e es Ha _ IH]; intros s Hf Hs; cbn [steps].
  - intros [= <-]. split; [done|]. intros; congruence.
  - destruct (step s e) as [s1|] eqn:E1; [|done]. cbn [rbind]. intros E2.
    destruct (step_sessions s e s1 Hf E1) as [(_ & Hnew & Hf1) _]. destruct (IH s1 Hf1 (HQ s e s1 Hf Hs Ha E1) E2) as [Hs' Hlater]. split; [done|].
    intros sid x Ex Hn. destruct (active_sessions (roast s1) !! sid) as [x1|] eqn:Ex1; [|by eapply Hlater].
    destruct (Hnew sid x1 Ex1 Hn) as [Ep Hl]. destruct (steps_fresh es s1 s' Hf1 E2) as [_ Hk].
    destruct (Hk sid x1 Ex1) as (x' & Ex' & Ep'). assert (x' = x) as -> by congruence. rewrite Ep', Ep. by apply Hgood.
Qed.

Lemma banished_step id s e s' : fresh_ids s -> id ∈ banished_signers (roast s) -> step s e = Ret s' -> id ∈ banished_signers (roast s').
Proof.
  intros Hf Hb. destruct e as [conn i cs|conn p|conn i|k nonce|k p|k|k|k]; cbn [step].
  - intros [= <-]. cbn. unfold register_commitments. case_bool_decide; [done|]. cbn zeta. cbn. by destruct (signer_to_session (roast s) !! i).
  - intros [= <-]. cbn. unfold receive_share. destruct (active_sessions _ !! _); [|done]. destruct (negb _); [done|]. destruct (negb _); [done|].
    destruct (negb _); [cbn; set_solver|]. cbn zeta. destruct (_ =? _)%nat; [destruct (aggregate _ _ _)|]; by destruct (p_replenish_commitment p).
  - by intros [= <-].
  - intros [= <-]. by destruct (tasks s !! k).
  - intros [= <-]. by destruct (tasks s !! k) as [[]|].
  - intros [= <-]. by destruct (tasks s !! k) as [[]|].
  - destruct (tasks s !! k) as [[?|p msg n|?|?]|]; try by intros [= <-]. intros E.
    destruct (attempt_sessions _ _ _ _ _ _ Hf E) as (_ & H & _). by destruct (H id) as [-> _].
  - intros [= <-]. by destruct (tasks s !! k) as [[]|].
Qed.

(** A share that does not verify costs the signer it names its place: the
    signer is in no session that starts later, whatever happens.  The theorem
    holds for any connection [conn] the share came on: the coordinator does
    not ask whether it is that signer's. *)
Theorem caught_signer_excluded t ppk es0 s conn p es s' sid x :
  steps (new_coordinator t ppk) es0 = Ret s ->
  (receive_share (roast s) (p_session_id p) (p_signer_id p) (p_signature_share p) (p_replenish_commitment p)).2 = Err InvalidShare ->
  steps s (SignerShare conn p :: es) = Ret s' ->
  active_sessions (roast s') !! sid = Some x -> active_sessions (roast s) !! sid = None -> p_signer_id p ∉ participants x.
Proof.
  intros E0 Ei Es Ex Hn. destruct (steps_fresh _ _ _ (new_fresh t ppk) E0) as [Hf _].
  cbn [steps] in Es. destruct (step s (SignerShare conn p)) as [s1|] eqn:E1; [|done]. cbn [rbind] in Es.
  destruct (step_sessions _ _ _ Hf E1) as [(_ & _ & Hf1) _].
  assert (p_signer_id p ∈ banished_signers (roast s1) /\ active_sessions (roast s1) = active_sessions (roast s)) as [Hb Ea].
  { cbn [step] in E1. injection E1 as <-. cbn. revert Ei. unfold receive_share. destruct (active_sessions (roast s) !! p_session_id p); [|done].
    destruct (negb _); [done|]. destruct (negb _); [done|]. destruct (negb _); [cbn; set_solver|]. cbn zeta.
    destruct (_ =? _)%nat; [destruct (aggregate _ _ _)|]; done. }
  rewrite <- Ea in Hn.
  apply (later_sessions (fun s => p_signer_id p ∈ banished_signers (roast s)) (fun _ => True) (fun X => p_signer_id p ∉ X)) with (6 := Es) (8 := Hn) (7 := Ex); try done.
  - intros s2 e s3 H2 H3 _. by apply banished_step.
  - intros s2 Hb2 _. destruct (eligible_spec (roast s2)) as (_ & _ & Hall). rewrite elem_of_list_to_set. intros Hin.
    by apply (proj1 (Forall_forall _ _) Hall) in Hin as (_ & ? & _).
  - apply Forall_forall. done.
Qed.

(** A client without a session and without a certificate. *)
Definition unserved (o : option Task) : Prop :=
  match o with Some (Waiting _ _ _ _) | Some (Closed (Some (Enrolled _ _))) => False | _ => True end.

Lemma attempt_unserved s k p msg n s' k' : length (eligible (roast s)) <> threshold (roast s) ->
  attempt s k p msg n = Ret s' -> unserved (tasks s !! k') -> unserved (tasks s' !! k').
Proof.
  intros Hl. unfold attempt, try_spawn_session. rewrite eligible_message. cbn zeta. cbn [threshold].
  destruct (eligible_spec (roast s)) as (_ & Hle & _).
  destruct (Nat.ltb_spec (length (eligible (roast s))) (threshold (roast s <| message := msg |>))) as [_|Hge]; [|cbn in Hge; lia].
  cbn [rbind]. intros [= <-]. cbn. destruct (decide (k = k')) as [->|Hk]; [|by rewrite lookup_insert_ne].
  rewrite lookup_insert_eq. by destruct n as [|[|n]].
Qed.

(** The signers [lost] serve a session, and no others than [others] can be
    chosen, now or later. *)
Record stalled (t : nat) (lost others : gset N) (k : nat) (s : Coordinator) : Prop := {
  st_threshold : threshold (roast s) = t;
  st_others id : id ∈ responsive_signers (roast s) -> id ∈ others;
  st_lost id : id ∈ lost -> is_Some (signer_to_session (roast s) !! id);
  st_client : unserved (tasks s !! k);
}.

(** No share of a lost signer arrives, and all signers are known. *)
Definition silent (lost others : gset N) (e : event) : Prop :=
  match e with
  | SignerConnected _ id _ => id ∈ lost ∪ others
  | SignerShare _ p => p_signer_id p ∈ others
  | _ => True
  end.

Lemma stalled_not_eligible t lost others k s : (size others < t)%nat -> stalled t lost others k s ->
  length (eligible (roast s)) <> threshold (roast s).
Proof.
  intros Hs [Ht Ho _ _] E. destruct (eligible_spec (roast s)) as (Hn & _ & Hall).
  assert (list_to_set (eligible (roast s)) ⊆ others) as Hsub%subseteq_size.
  { intros id Hin%elem_of_list_to_set. apply Ho. by apply (proj1 (Forall_forall _ _) Hall) in Hin as [? _]. }
  rewrite (size_list_to_set (C := gset N)) in Hsub by done. lia.
Qed.

Lemma stalled_step t lost others k s e s' : lost ## others -> (size others < t)%nat -> fresh_ids s ->
  stalled t lost others k s -> silent lost others e -> step s e = Ret s' -> stalled t lost others k s'.
Proof.
  intros Hdis Hsz Hf Hst He E. pose proof (stalled_not_eligible _ _ _ _ _ Hsz Hst) as Hne.
  destruct (step_sessions s e s' Hf E) as [_ Et]. rewrite (st_threshold _ _ _ _ _ Hst) in Et.
  destruct Hst as [_ Ho Hl Hc].
  destruct e as [conn id cs|conn p|conn id|j nonce|j p|j|j|j]; cbn [step silent] in *.
  - injection E as <-. constructor; [done|..|done].
    + cbn. unfold register_commitments. case_bool_decide; [done|]. cbn zeta. cbn.
      destruct (signer_to_session (roast s) !! id) eqn:Es; [done|]. cbn. intros i [->%elem_of_singleton|Hi]%elem_of_union; [|by apply Ho].
      apply elem_of_union in He as [He|He]; [|done]. destruct (Hl id He). congruence.
    + cbn. unfold register_commitments. case_bool_decide; [done|]. cbn zeta. cbn. by destruct (signer_to_session (roast s) !! id).
  - injection E as <-. assert (forall i, i ∈ lost -> i <> p_signer_id p) as Hd by (intros i Hi ->; set_solver).
    constructor; [done|..|done]; cbn; unfold receive_share; (destruct (active_sessions _ !! _); [|done]); (destruct (negb _); [done|]);
      (destruct (negb _); [done|]); destruct (negb _); cbn zeta; [done| | |].
    + destruct (_ =? _)%nat; [destruct (aggregate _ _ _)|]; destruct (p_replenish_commitment p); cbn; set_solver.
    + intros i Hi. cbn. rewrite lookup_delete_ne by (symmetry; by apply Hd). by apply Hl.
    + intros i Hi. pose proof (Hd i Hi). destruct (_ =? _)%nat; [destruct (aggregate _ _ _)|]; destruct (p_replenish_commitment p); cbn;
        rewrite lookup_delete_ne by done; by apply Hl.
  - by injection E as <-.
  - injection E as <-. constructor; [done|..]; destruct (tasks s !! j) eqn:Ej; cbn; try done.
    destruct (decide (j = k)) as [->|Hj]; [by rewrite lookup_insert_eq|by rewrite lookup_insert_ne].
  - injection E as <-. constructor; [done|..]; destruct (tasks s !! j) as [[nonce|?|?|?]|] eqn:Ej; cbn; try done.
    destruct (decide (j = k)) as [->|Hj]; [rewrite lookup_insert_eq|by rewrite lookup_insert_ne].
    unfold check_submission. destruct (negb _); [done|]. destruct (verify_enrollment_pop _ _ _ _) as [[]|]; try done.
    by destruct (to_canonical_bytes _).
  - injection E as <-. constructor; [done|..]; destruct (tasks s !! j) as [[nonce|?|?|?]|] eqn:Ej; cbn; try done.
    destruct (decide (j = k)) as [->|Hj]; [by rewrite lookup_insert_eq|by rewrite lookup_insert_ne].
  - destruct (tasks s !! j) as [[?|p msg n|?|?]|] eqn:Ej; try by injection E as <-.
    destruct (attempt_sessions _ _ _ _ _ _ Hf E) as (_ & H & _). constructor; [done|..].
    + intros i Hi. apply Ho. by apply (H i).
    + intros i Hi. apply (H i). by apply Hl.
    + by eapply attempt_unserved.
  - injection E as <-. constructor; [done|..]; destruct (tasks s !! j) as [[?|?|p msg sid n|?]|] eqn:Ej; cbn; try done.
    destruct (decide (j = k)) as [->|Hj]; [by rewrite Ej in Hc|by rewrite lookup_insert_ne].
Qed.

Lemma attempt_spawned s k p msg n s' sid x : attempt s k p msg n = Ret s' ->
  active_sessions (roast s') !! sid = Some x -> active_sessions (roast s) !! sid = None ->
  responsive_signers (roast s') = responsive_signers (roast s) ∖ participants x /\
  forall id, id ∈ participants x -> is_Some (signer_to_session (roast s') !! id).
Proof.
  unfold attempt. destruct (N.ltb_spec (next_session_id (roast s) + 1) u128_mod) as [Hb|Hb].
  - destruct (try_spawn_ok (roast s <| message := msg |>)) as (r' & o & -> & Ho); [by cbn|]. cbn [rbind]. intros [= <-].
    destruct o as [[[i pkg] slots]|]; [|destruct Ho as [-> _]; cbn; congruence].
    destruct Ho as (Hl & -> & _ & _ & _ & _ & _ & _ & Ea & Er & Es & _). rewrite !eligible_message in *. cbn in *.
    rewrite Ea, lookup_insert_Some. intros [[<- <-]|[_ Ex]] Hn; [|congruence]. cbn. split; [done|].
    intros id Hin%elem_of_list_to_set. rewrite Es, decide_True by done. by eexists.
  - unfold try_spawn_session. cbn zeta. destruct (_ <? _)%nat; [|destruct (N.ltb_spec (next_session_id (roast s <| message := msg |>) + 1) u128_mod) as [Hc|]; [cbn in Hc; lia|done]].
    cbn [rbind]. intros [= <-]. cbn. congruence.
Qed.

(** C38: a request that its signers refuse stops the authority.  Once a session
    has started and no share of its participants arrives - a signer that
    refuses sends none - they are never chosen again, not even when they
    connect anew with fresh commitments; so if fewer than the threshold are
    left, no session ever starts again, and no client that was not being
    served is given a certificate. *)
Theorem refused_request_stalls t ppk es0 s k0 p msg n s1 sid x others k es s2 :
  steps (new_coordinator t ppk) es0 = Ret s -> tasks s !! k0 = Some (Spawning p msg n) -> step s (Attempt k0) = Ret s1 ->
  active_sessions (roast s1) !! sid = Some x -> active_sessions (roast s) !! sid = None ->
  responsive_signers (roast s) ⊆ participants x ∪ others -> participants x ## others -> (size others < t)%nat ->
  unserved (tasks s1 !! k) -> Forall (silent (participants x) others) es -> steps s1 es = Ret s2 ->
  unserved (tasks s2 !! k) /\ forall i, is_Some (active_sessions (roast s2) !! i) -> is_Some (active_sessions (roast s1) !! i).
Proof.
  intros E0 Ek E1 Ex Hn Hr Hd Hs Hk Hes E2. destruct (steps_fresh _ _ _ (new_fresh t ppk) E0) as [Hf _].
  destruct (step_sessions _ _ _ Hf E1) as [(_ & _ & Hf1) Et1]. cbn [step] in E1. rewrite Ek in E1.
  destruct (attempt_spawned _ _ _ _ _ _ _ _ E1 Ex Hn) as [Er Hb].
  assert (stalled t (participants x) others k s1) as Hst.
  { constructor; [|set_solver|done|done]. rewrite Et1. clear -E0.
    assert (forall s0, fresh_ids s0 -> threshold (roast s0) = t -> steps s0 es0 = Ret s -> threshold (roast s) = t) as H.
    { clear E0. induction es0 as [|e es IH]; intros s0 Hf Ht; cbn [steps]; [by intros [= <-]|].
      destruct (step s0 e) as [s1|] eqn:E1; [|done]. cbn [rbind]. destruct (step_sessions s0 e s1 Hf E1) as [(_ & _ & Hf1) Et].
      apply IH; [done|congruence]. }
    by apply (H _ (new_fresh t ppk)). }
  destruct (later_sessions (stalled t (participants x) others k) (silent (participants x) others) (fun _ => False)) with (es := es) (s := s1) (s' := s2)
    as [Hst2 Hnew]; try done.
  - intros s3 e s4 Hf3 Hq Ha E. by eapply stalled_step.
  - intros s3 Hq E. by eapply stalled_not_eligible.
  - split; [apply Hst2|]. intros i [y Ey]. destruct (active_sessions (roast s1) !! i) eqn:Ei; [by eexists|]. by destruct (Hnew i y Ey Ei).
Qed.

Definition with_credential (cred : EnrollmentCredential) (p : SubmitEnrollmentPayload) : SubmitEnrollmentPayload :=
  mkSubmit (challenge_nonce p) (csr_tbs p) cred (pop_signature p).
Definition with_req_credential (cred : EnrollmentCredential) (q : SignCertRequestPayload) : SignCertRequestPayload :=
  mkSignRequest (r_session_id q) (r_slot_id q) (r_signing_package q) (r_cert_tbs q) cred (r_challenge_nonce q) (r_pop_signature q).

(** Nobody looks at the credential.  Whatever credential is put in the place
    of a client's - an administrator's token or an older certificate, of
    anyone, valid or not - the coordinator lets the submission through exactly
    if it did before, and every signer gives the same answer. *)
Theorem credential_ignored cred (sg : SignerState) (req : SignCertRequestPayload) nonce p :
  handle_sign_request sg (with_req_credential cred req) = handle_sign_request sg req /\
  check_submission nonce (with_credential cred p) =
    match check_submission nonce p with Spawning q msg n => Spawning (with_credential cred q) msg n | tk => tk end.
Proof.
  split; [done|]. unfold check_submission, with_credential. cbn. destruct (negb _); [done|].
  destruct (verify_enrollment_pop _ _ _ _) as [[]|]; try done. by destruct (to_canonical_bytes _).
Qed.

End Faults.
End Faults.

(** ** An enrolment among honest signers *)

(** What the documentation of FROST says of honest key holders: a share over
    the commitments of at least [t] signers, made with the nonces behind one's
    own, verifies; and the shares of all of a package's signers, if they
    verify, aggregate. *)
Class HonestLaws `{Frost} (t : nat) (ppk : PublicKeyPackage) (holds : KeyPackage -> Prop) : Prop := {
  honest_known kp : holds kp -> knows_signer ppk (identifier kp) = true;
  honest_share pkg kp d : holds kp -> (t <= size (sp_commitments pkg))%nat ->
    sp_commitments pkg !! identifier kp = Some (commit kp d).2 ->
    exists sh, round2_sign pkg (commit kp d).1 kp = Some sh /\ verify_signature_share ppk (identifier kp) sh pkg = true;
  honest_aggregate pkg shares : (t <= size shares)%nat -> dom shares = dom (sp_commitments pkg) ->
    (forall id sh, shares !! id = Some sh -> verify_signature_share ppk id sh pkg = true) -> is_Some (aggregate pkg shares ppk);
}.

Module Success.
Import Roast Issued.
Section Success.
Context {frost : Frost} {ed : Ed25519} {EL : Ed25519Laws} {FL : FrostLaws}.
Context (t : nat) (ppk : PublicKeyPackage) (holds : KeyPackage -> Prop) {HH : HonestLaws t ppk holds}.

Lemma preprocess_keeps kp count v draws v' draws' out slot :
  preprocess_batch kp count v draws = Ret (v', draws', out) -> sequence_idx slot < next_gen_idx v ->
  active_nonces v' !! slot = active_nonces v !! slot.
Proof.
  revert v draws v' draws' out. induction count as [|count IH]; intros v draws v' draws' out; cbn [preprocess_batch].
  - by intros [= <- _ _].
  - cbn zeta. destruct (_ <? _); [|done]. destruct (commit kp draws) as [n c].
    destruct (preprocess_batch _ _ _ _) as [[[v1 d1] out1]|] eqn:E; [|done]. cbn [rbind]. intros [= <- _ _] Hlt.
    rewrite (IH _ _ _ _ _ E) by (cbn; lia). cbn. rewrite lookup_insert_ne; [done|]. intros <-. cbn in Hlt. lia.
Qed.

Lemma preprocess_boot kp count v draws v' draws' out :
  preprocess_batch kp count v draws = Ret (v', draws', out) ->
  v_boot_epoch_id v' = v_boot_epoch_id v /\ next_gen_idx v' = next_gen_idx v + N.of_nat count.
Proof.
  revert v draws v' draws' out. induction count as [|count IH]; intros v draws v' draws' out; cbn [preprocess_batch].
  - intros [= <- _ _]. split; [done|lia].
  - cbn zeta. destruct (_ <? _); [|done]. destruct (commit kp draws) as [n c].
    destruct (preprocess_batch _ _ _ _) as [[[v1 d1] out1]|] eqn:E; [|done]. cbn [rbind]. intros [= <- _ _].
    destruct (IH _ _ _ _ _ E) as [E1 E2]. cbn in *. split; [done|lia].
Qed.

Lemma preprocess_first kp m epoch : 2 + N.of_nat m < u64_mod -> exists v draws out,
  preprocess_batch kp (S m) (new_vault epoch) 0 = Ret (v, draws, out) /\ head out = Some (mkSlot epoch 1, (commit kp 0).2) /\
  v_boot_epoch_id v = epoch /\ next_gen_idx v = 2 + N.of_nat m /\ active_nonces v !! mkSlot epoch 1 = Some (commit kp 0).1.
Proof.
  intros Hm. assert (Nonces.vault_ok kp (new_vault epoch) 0 []) as H0 by by constructor.
  destruct (Nonces.preprocess_ok kp (S m) (new_vault epoch) 0 [] H0) as (v & out & E & _); [cbn [next_gen_idx new_vault]; lia|].
  destruct (preprocess_boot _ _ _ _ _ _ _ E) as [Eb En]. exists v, (0 + S m)%nat, out. split; [done|].
  cbn [preprocess_batch] in E. cbn zeta in E. cbn [next_gen_idx v_boot_epoch_id new_vault] in E, Eb, En.
  destruct (N.ltb_spec (1 + 1) u64_mod); [|done]. destruct (commit kp 0) as [n c]. cbn [fst snd].
  destruct (preprocess_batch kp m _ _) as [[[v1 d1] out1]|] eqn:E1; [|done]. cbn [rbind] in E. injection E as -> _ <-.
  split; [done|]. split; [done|]. split; [rewrite En; lia|].
  rewrite (preprocess_keeps _ _ _ _ _ _ _ (mkSlot epoch 1) E1) by (cbn [sequence_idx next_gen_idx]; lia).
  cbn [active_nonces]. apply lookup_insert_eq.
Qed.

(** A signer just started: its first commitment, and the nonce behind it. *)
Lemma start_signer_ok kp ttl epoch : exists sg cs,
  start_signer kp ttl epoch = Ret (sg, PublishCommitments (identifier kp) epoch cs) /\
  head cs = Some (mkSlot epoch 1, (commit kp 0).2) /\
  s_key_package sg = kp /\ max_ttl_secs sg = ttl /\ v_boot_epoch_id (vault sg) = epoch /\ next_gen_idx (vault sg) = 17 /\
  active_nonces (vault sg) !! mkSlot epoch 1 = Some (commit kp 0).1.
Proof.
  unfold start_signer. destruct (preprocess_first kp 15 epoch) as (v & draws & out & -> & Hh & Hb & Hn & Ha); [done|]. cbn [rbind].
  by exists (mkSigner kp ttl v draws), out.
Qed.

(** Such a signer answers a request for its first slot. *)
Lemma honest_answer sg kp req epoch :
  s_key_package sg = kp -> v_boot_epoch_id (vault sg) = epoch -> next_gen_idx (vault sg) = 17 ->
  active_nonces (vault sg) !! mkSlot epoch 1 = Some (commit kp 0).1 -> holds kp -> (t <= size (sp_commitments (r_signing_package req)))%nat ->
  sp_commitments (r_signing_package req) !! identifier kp = Some (commit kp 0).2 ->
  r_slot_id req = mkSlot epoch 1 -> Nonces.within_policy (max_ttl_secs sg) req ->
  exists sg' p, handle_sign_request sg req = Ret (sg', SignCertResponse p) /\ p_session_id p = r_session_id req /\
    p_signer_id p = identifier kp /\ verify_signature_share ppk (identifier kp) (p_signature_share p) (r_signing_package req) = true.
Proof.
  intros Ek Eb En Ea Hh Hsz Hc Es [Hm Hw]. unfold handle_sign_request. rewrite Hm. cbn [rbind]. rewrite bool_decide_true by done. cbn [negb].
  destruct (N.leb_spec (t_not_after (r_cert_tbs req)) (t_not_before (r_cert_tbs req))); [lia|].
  destruct (N.ltb_spec (max_ttl_secs sg) (t_not_after (r_cert_tbs req) - t_not_before (r_cert_tbs req))); [lia|]. cbn [orb].
  unfold take_once. rewrite Es, Eb. cbn [boot_epoch_id]. rewrite N.eqb_refl. cbn [negb]. rewrite Ea.
  cbn [preprocess_batch next_gen_idx]. rewrite En. cbn zeta. replace (17 + 1 <? u64_mod) with true by done.
  destruct (commit (s_key_package sg) (s_draws sg)) as [n c]. cbn [rbind]. cbn [s_key_package]. rewrite Ek.
  destruct (honest_share _ kp 0 Hh Hsz Hc) as (sh & -> & Hv). eexists _, _. split; [done|]. done.
Qed.

Lemma steps_app s es1 es2 : steps s (es1 ++ es2) = let! s := steps s es1 in steps s es2.
Proof. revert s. induction es1 as [|e es1 IH]; intros s; [done|]. cbn [app steps]. destruct (step s e); [apply IH|done]. Qed.

(** The signers of a run: key, state and commitments after the start. *)
Notation booted := (KeyPackage * SignerState * list (NonceSlotId * SigningCommitments))%type.
Definition name (x : booted) : N := identifier x.1.1.
Definition connects (xs : list booted) : list event := imap (fun i x => SignerConnected i (name x) x.2) xs.

(** The coordinator once they are connected. *)
Record ready (xs : list booted) (s : Coordinator) : Prop := {
  rd_threshold : threshold (roast s) = t;
  rd_package : pubkey_package (roast s) = ppk;
  rd_active : active_sessions (roast s) = ∅;
  rd_serving : signer_to_session (roast s) = ∅;
  rd_banished : banished_signers (roast s) = ∅;
  rd_next : next_session_id (roast s) = 1;
  rd_responsive : responsive_signers (roast s) = list_to_set (name <$> xs);
  rd_queue i x : xs !! i = Some x -> queue_of (roast s) (name x) = x.2;
  rd_absent id : id ∉ name <$> xs -> queue_of (roast s) id = [];
  rd_conn i x : xs !! i = Some x -> signer_txs s !! name x = Some i;
  rd_tasks : tasks s = ∅;
  rd_outbox : outbox s = [];
}.

Lemma connects_ready xs : NoDup (name <$> xs) -> exists s, steps (new_coordinator t ppk) (connects xs) = Ret s /\ ready xs s.
Proof.
  induction xs as [|x xs IH] using rev_ind; intros Hn.
  - eexists. split; [done|]. constructor; try done; by intros i x; rewrite lookup_nil.
  - rewrite fmap_app in Hn. apply NoDup_app in Hn as (Hn & Hx & _). destruct (IH Hn) as (s & Es & []).
    unfold connects in *. rewrite imap_app, steps_app, Es. cbn [rbind imap steps step]. rewrite Nat.add_0_r.
    assert (name x ∉ name <$> xs) as Hfresh by (intros Hin; by apply (Hx _ Hin), list_elem_of_singleton).
    eexists. split; [done|]. unfold register_commitments. rewrite rd_banished0. rewrite bool_decide_false by set_solver. cbn zeta. cbn.
    rewrite rd_serving0, lookup_empty.
    assert (forall i y, (xs ++ [x]) !! i = Some y -> (xs !! i = Some y /\ name y <> name x) \/ (i = length xs /\ y = x)) as Hcase.
    { intros i y [Hy|[Hi Hy]]%lookup_app_Some; [left; split; [done|]|right].
      - intros E. apply Hfresh. rewrite <- E. by apply list_elem_of_fmap_2, list_elem_of_lookup_2 with i.
      - apply list_lookup_singleton_Some in Hy as [? <-]. split; [lia|done]. }
    constructor; cbn; try done.
    + rewrite rd_responsive0, fmap_app, list_to_set_app_L. cbn. set_solver.
    + intros i y [[Hy Hne]|[-> ->]]%Hcase; unfold queue_of; cbn.
      * rewrite lookup_insert_ne by done. by apply (rd_queue0 i).
      * rewrite lookup_insert_eq. cbn. pose proof (rd_absent0 _ Hfresh) as Hq. unfold queue_of in Hq. by rewrite Hq.
    + intros id Hid. rewrite fmap_app in Hid. unfold queue_of; cbn. rewrite lookup_insert_ne by set_solver. apply rd_absent0. set_solver.
    + intros i y [[Hy Hne]|[-> ->]]%Hcase; [rewrite lookup_insert_ne by done; by apply rd_conn0|by rewrite lookup_insert_eq].
Qed.

(** A submission whose proof was made with the key it names. *)
Lemma submission_checked client_sk member network cred nonce now p :
  submission client_sk member (ed_public client_sk) network cred nonce now = Ret p ->
  exists msg, to_canonical_bytes (csr_tbs p) = Ret msg /\ check_submission nonce p = Spawning p msg 60 /\
    csr_tbs p = csr member (ed_public client_sk) network now.
Proof.
  unfold submission, pop_message. destruct (to_canonical_bytes _) as [msg|] eqn:Em; [|done]. cbn [rbind]. intros E.
  assert (p = mkSubmit nonce (csr member (ed_public client_sk) network now) cred (ed_sign client_sk (ENROLL_POP_CONTEXT ++ nonce ++ msg))) as -> by congruence.
  exists msg. cbn [csr_tbs]. split; [done|]. split; [|done]. unfold check_submission. cbn [challenge_nonce csr_tbs pop_signature].
  rewrite bool_decide_true by done. cbn [negb]. unfold verify_enrollment_pop, pop_message. cbn [t_member_sign_pubkey csr].
  destruct (ed_sign_verifies client_sk (ENROLL_POP_CONTEXT ++ nonce ++ msg)) as (vk & -> & Hv).
  rewrite Em. cbn [rbind]. by rewrite Hv.
Qed.

Lemma filter_all {A} (P : A -> Prop) `{forall x, Decision (P x)} l : Forall P l -> filter P l = l.
Proof. induction 1 as [|x l Hx _ IH]; [done|]. by rewrite filter_cons_True, IH. Qed.

(** Every signer is eligible; the first [t] are chosen. *)
Lemma ready_eligible xs s : ready xs s -> NoDup (name <$> xs) -> (forall x, x ∈ xs -> x.2 <> []) -> (t <= length xs)%nat ->
  length (eligible (roast s)) = t.
Proof.
  intros [] Hn Hq Hl. unfold eligible. rewrite rd_threshold0, length_take.
  assert (filter (fun id => id ∉ banished_signers (roast s) /\ queue_of (roast s) id <> []) (merge_sort N.le (elements (responsive_signers (roast s))))
    = merge_sort N.le (elements (responsive_signers (roast s)))) as ->.
  { apply filter_all, Forall_forall. intros id Hid. rewrite merge_sort_Permutation, rd_responsive0 in Hid.
    apply elem_of_elements, elem_of_list_to_set, list_elem_of_fmap in Hid as (x & -> & Hx). split; [rewrite rd_banished0; set_solver|].
    apply list_elem_of_lookup in Hx as [i Hi]. rewrite (rd_queue0 i x Hi). apply Hq. by apply list_elem_of_lookup_2 with i. }
  rewrite (Permutation_length (merge_sort_Permutation N.le _)), rd_responsive0.
  change (length (elements (C := gset N) (list_to_set (name <$> xs)))) with (size (list_to_set (C := gset N) (name <$> xs))).
  rewrite size_list_to_set, length_fmap by done. lia.
Qed.

(** The shares of a session arrive. *)
Definition share_for (x : RoastSession) (sid : N) (p : SignCertResponsePayload) : Prop :=
  p_session_id p = sid /\ p_signer_id p ∈ participants x /\ knows_signer ppk (p_signer_id p) = true /\
  verify_signature_share ppk (p_signer_id p) (p_signature_share p) (signing_package x) = true.

Definition verified (x : RoastSession) : Prop :=
  forall id sh, collected_shares x !! id = Some sh -> verify_signature_share ppk id sh (signing_package x) = true.

Lemma receive_one r sid x p : pubkey_package r = ppk -> active_sessions r !! sid = Some x -> share_for x sid p ->
  let r' := (receive_share r (p_session_id p) (p_signer_id p) (p_signature_share p) (p_replenish_commitment p)).1 in
  pubkey_package r' = ppk /\ threshold r' = threshold r /\
  active_sessions r' !! sid = Some (mkSession (participants x) (signing_package x) (<[p_signer_id p := p_signature_share p]> (collected_shares x))).
Proof.
  intros Ep Ex (<- & Hin & Hk & Hv). unfold receive_share. rewrite Ex, bool_decide_true by done. cbn [negb]. rewrite Ep, Hk, Hv. cbn [negb].
  cbn zeta. destruct (_ =? _)%nat; [destruct (aggregate _ _ _)|]; cbn [fst]; destruct (p_replenish_commitment p); cbn; by rewrite lookup_insert_eq.
Qed.

Lemma receive_all (ps : list (nat * SignCertResponsePayload)) s sid x :
  pubkey_package (roast s) = ppk -> active_sessions (roast s) !! sid = Some x -> verified x -> Forall (fun a => share_for x sid a.2) ps ->
  exists s' x', steps s (map (fun a => SignerShare a.1 a.2) ps) = Ret s' /\
    tasks s' = tasks s /\ pubkey_package (roast s') = ppk /\ threshold (roast s') = threshold (roast s) /\
    active_sessions (roast s') !! sid = Some x' /\ signing_package x' = signing_package x /\ verified x' /\
    dom (collected_shares x') = dom (collected_shares x) ∪ list_to_set (map (fun a => p_signer_id a.2) ps).
Proof.
  intros Ep Ex Hx Hps. revert s x Ep Ex Hx Hps. induction ps as [|[conn p] ps IH]; intros s x Ep Ex Hx Hps; cbn [map steps].
  - exists s, x. split_and!; try done. cbn. set_solver.
  - apply Forall_cons in Hps as [Hp Hps]. cbn [fst snd] in *. cbn [step rbind].
    destruct (receive_one (roast s) sid x p Ep Ex Hp) as (E1 & E2 & E3).
    match goal with |- context [steps ?y _] => set (s1 := y) end.
    destruct (IH s1 _ E1 E3) as (s' & x' & E & Ht & E4 & E5 & E6 & E7 & E8 & E9).
    + intros id sh. cbn. rewrite lookup_insert_Some. intros [[<- <-]|[_ H]]; [apply Hp|by apply Hx].
    + exact Hps.
    + exists s', x'. split_and!; try done; [by rewrite E5|]. rewrite E9. cbn. rewrite dom_insert_L. set_solver.
Qed.

(** What the signer behind a connection sends back. *)
Definition answer (xs : list booted) (q : nat * SignCertRequestPayload) : option event :=
  match xs !! q.1 with
  | Some (_, sg, _) =>
      match handle_sign_request sg q.2 with Ret (_, SignCertResponse p) => Some (SignerShare q.1 p) | _ => None end
  | None => None
  end.

Lemma answers_of {A B} (f : N * A -> option B) (g : B -> option event) (R : SignCertResponsePayload -> Prop) l :
  (forall y, y ∈ l -> exists b conn p, f y = Some b /\ g b = Some (SignerShare conn p) /\ p_signer_id p = y.1 /\ R p) ->
  exists ps : list (nat * SignCertResponsePayload), omap g (omap f l) = map (fun a => SignerShare a.1 a.2) ps /\
    map (fun a => p_signer_id a.2) ps = l.*1 /\ Forall (fun a => R a.2) ps.
Proof.
  induction l as [|y l IH]; intros H; [by exists []|].
  destruct (H y ltac:(set_solver)) as (b & conn & p & Ef & Eg & Ep & Hr). destruct IH as (ps & E1 & E2 & E3); [set_solver|].
  exists ((conn, p) :: ps). cbn. rewrite Ef. cbn. rewrite Eg. cbn. split_and!; [by f_equal|by rewrite E2, Ep|by constructor].
Qed.

Section Run.
Context (xs : list booted) (ttl : N) (epoch : nat -> N).
Hypothesis xs_started : forall i kp sg cs, xs !! i = Some (kp, sg, cs) ->
  holds kp /\ start_signer kp ttl (epoch i) = Ret (sg, PublishCommitments (identifier kp) (epoch i) cs).
Hypothesis xs_names : NoDup (name <$> xs).
Hypothesis xs_enough : (t <= length xs)%nat.
Hypothesis policy : 86460 <= ttl.

(** A request for a chosen signer is answered with a share that verifies. *)
Lemma request_answered s i kp sg cs sid pkg p msg :
  ready xs s -> xs !! i = Some (kp, sg, cs) -> sp_message pkg = msg -> to_canonical_bytes (csr_tbs p) = Ret msg ->
  t_not_before (csr_tbs p) < t_not_after (csr_tbs p) <= t_not_before (csr_tbs p) + 86460 ->
  (t <= size (sp_commitments pkg))%nat -> sp_commitments pkg !! identifier kp = snd <$> head cs ->
  exists slot q, fst <$> head cs = Some slot /\
    answer xs (i, mkSignRequest sid slot pkg (csr_tbs p) (credential p) (challenge_nonce p) (pop_signature p)) = Some (SignerShare i q) /\
    p_session_id q = sid /\ p_signer_id q = identifier kp /\ knows_signer ppk (identifier kp) = true /\
    verify_signature_share ppk (identifier kp) (p_signature_share q) pkg = true.
Proof.
  intros Hrd Hi Em Hm Hw Hsz Hc. destruct (xs_started i kp sg cs Hi) as [Hh Hst].
  destruct (start_signer_ok kp ttl (epoch i)) as (sg' & cs' & E & Hhd & Hk & Htt & Hb & Hn & Ha). rewrite Hst in E. injection E as <- <-.
  rewrite Hhd in *. cbn in Hc. exists (mkSlot (epoch i) 1).
  set (req := mkSignRequest _ _ _ _ _ _ _).
  destruct (honest_answer sg kp req (epoch i)) as (sg2 & q & Eq & E1 & E2 & E3); try done.
  { split; [by rewrite <- Em in Hm|]. cbn. rewrite Htt. lia. }
  exists q. split; [done|]. unfold answer. cbn [fst snd]. rewrite Hi. fold req. rewrite Eq. split_and!; try done. by apply honest_known.
Qed.

Lemma spawned s k p msg n : ready xs s -> to_canonical_bytes (csr_tbs p) = Ret msg ->
  t_not_before (csr_tbs p) < t_not_after (csr_tbs p) <= t_not_before (csr_tbs p) + 86460 ->
  forall s0, roast s0 = roast s -> signer_txs s0 = signer_txs s -> outbox s0 = [] ->
  exists s1 x ps, attempt s0 k p msg n = Ret s1 /\ tasks s1 !! k = Some (Waiting p msg 1 200) /\
    active_sessions (roast s1) !! 1 = Some x /\ collected_shares x = ∅ /\ pubkey_package (roast s1) = ppk /\ threshold (roast s1) = t /\
    size (sp_commitments (signing_package x)) = t /\ dom (sp_commitments (signing_package x)) = participants x /\
    omap (answer xs) (outbox s1) = map (fun a => SignerShare a.1 a.2) ps /\
    list_to_set (map (fun a => p_signer_id a.2) ps) = participants x /\ Forall (fun a => share_for x 1 a.2) ps.
Proof.
  intros Hrd Hm Hw s0 Er Etx Eo. pose proof Hrd as [].
  assert (forall y, y ∈ xs -> y.2 <> []) as Hq.
  { intros [[kp sg] cs] [i Hi]%list_elem_of_lookup. destruct (xs_started i kp sg cs Hi) as [_ Hst].
    destruct (start_signer_ok kp ttl (epoch i)) as (sg' & cs' & E & Hhd & _). rewrite Hst in E. injection E as <- <-. by destruct cs. }
  pose proof (ready_eligible xs s Hrd xs_names Hq xs_enough) as Hlen. destruct (eligible_spec (roast s)) as (Hnd & _ & Hall).
  unfold attempt. rewrite Er. destruct (try_spawn_ok (roast s <| message := msg |>)) as (r' & o & -> & Ho); [cbn; by rewrite rd_next0|]. cbn [rbind].
  destruct o as [[[sid pkg] slots]|]; [|destruct Ho as [_ Ho]; rewrite Faults.eligible_message in Ho; cbn in Ho; lia].
  rewrite !Faults.eligible_message in Ho. destruct Ho as (_ & -> & Em & Et & Epk & _ & _ & _ & Ea & _ & _ & Hcs & Hsl). cbn in Em, Et, Epk, Ea. rewrite rd_next0 in *.
  assert (forall id, id ∈ eligible (roast s) -> exists i kp sg cs, xs !! i = Some (kp, sg, cs) /\ id = identifier kp /\ queue_of (roast s) id = cs) as Hel.
  { intros id Hid. apply (proj1 (Forall_forall _ _) Hall) in Hid as (Hr & _). rewrite rd_responsive0 in Hr.
    apply elem_of_list_to_set, list_elem_of_fmap in Hr as ([[kp sg] cs] & -> & [i Hi]%list_elem_of_lookup).
    exists i, kp, sg, cs. split_and!; try done. by apply (rd_queue0 i (kp, sg, cs)). }
  assert (dom (sp_commitments pkg) = list_to_set (eligible (roast s))) as Hdom.
  { apply set_eq. intros id. rewrite elem_of_dom, elem_of_list_to_set, Hcs. destruct (decide _) as [Hid|Hid]; [|by split; [intros []|]].
    split; [done|]. intros _. destruct (Hel id Hid) as (i & kp & sg & cs & Hi & _ & Hqu). change (queue_of (roast s <| message := msg |>) id) with (queue_of (roast s) id).
    rewrite Hqu. pose proof (Hq _ ltac:(by apply list_elem_of_lookup_2 with i)) as Hne. cbn in Hne. destruct cs; [done|]. by eexists. }
  assert (size (sp_commitments pkg) = t) as Hsize by by rewrite <- size_dom, Hdom, size_list_to_set.
  set (x := mkSession (list_to_set (eligible (roast s))) pkg ∅).
  cbn zeta. change (next_session_id (roast s <| message := msg |>)) with (next_session_id (roast s)). rewrite rd_next0. set (s1 := s0 <| roast := r' |>).
  destruct (answers_of (fun y => (fun conn => (conn, mkSignRequest 1 y.2 pkg (csr_tbs p) (credential p) (challenge_nonce p) (pop_signature p))) <$> signer_txs s1 !! y.1)
    (answer xs) (share_for x 1) (merge_sort key_le (map_to_list slots))) as (ps & E1 & E2 & E3).
  { intros [id slot]. rewrite merge_sort_Permutation, elem_of_map_to_list, Hsl. destruct (decide _) as [Hid|]; [|done]. cbn [fst snd].
    change (queue_of (roast s <| message := msg |>) id) with (queue_of (roast s) id). intros Hslot.
    destruct (Hel id Hid) as (i & kp & sg & cs & Hi & -> & Hqu). rewrite Hqu in Hslot.
    destruct (request_answered s i kp sg cs 1 pkg p msg Hrd Hi Em Hm Hw ltac:(lia)) as (slot' & q & Es & Eans & Eq1 & Eq2 & Hkn & Hv).
    { rewrite Hcs, decide_True by done. change (queue_of (roast s <| message := msg |>) (identifier kp)) with (queue_of (roast s) (identifier kp)). by rewrite Hqu. }
    assert (slot' = slot) as -> by congruence. assert (signer_txs s1 !! identifier kp = Some i) as Htx.
    { change (signer_txs s0 !! identifier kp = Some i). rewrite Etx. apply (rd_conn0 i (kp, sg, cs) Hi). }
    eexists _, i, q. rewrite Htx. cbn. split; [done|]. split; [exact Eans|]. split; [done|]. split; [done|]. rewrite Eq2. cbn.
    split; [by apply elem_of_list_to_set|done]. }
  eexists _, x, ps. split; [done|]. split; [cbn; apply lookup_insert_eq|]. split; [cbn; rewrite Ea; apply lookup_insert_eq|]. split; [done|].
  split; [cbn; congruence|]. split; [cbn; congruence|]. split; [done|]. split; [done|].
  split; [|split; [|done]].
  - cbn. rewrite Eo. exact E1.
  - rewrite E2, merge_sort_Permutation. apply set_eq. intros id. rewrite elem_of_list_to_set, list_elem_of_fmap. split.
    + intros ([i sl] & -> & Hin%elem_of_map_to_list). cbn. rewrite Hsl in Hin. destruct (decide _); [by apply elem_of_list_to_set|done].
    + cbn. intros Hid%elem_of_list_to_set. destruct (Hel id Hid) as (i & kp & sg & cs & Hi & _ & Hqu).
      pose proof (Hq _ ltac:(by apply list_elem_of_lookup_2 with i)) as Hne. cbn in Hne. destruct cs as [|[sl c] cs]; [done|].
      exists (id, sl). split; [done|]. apply elem_of_map_to_list. rewrite Hsl, decide_True by done.
      change (queue_of (roast s <| message := msg |>) id) with (queue_of (roast s) id). by rewrite Hqu.
Qed.


End Run.
End Success.
End Success.

(** ** Runs *)

Module QuorumDemo.
Import Nonces Issued Faults Success.

Definition demo_group : list u8 := replicate 32 Byte.x99.

(** A stand-in: a share names its signer and the message, and a signature is
    the group's. *)
#[local] Instance toy_frost : Frost := {|
  KeyPackage := N;
  SigningNonces := N * nat;
  SigningCommitments := N * nat;
  SignatureShare := N * list u8;
  Signature := list u8;
  PublicKeyPackage := nat;
  identifier kp := kp;
  commit kp d := ((kp, d), (kp, d));
  round2_sign pkg n kp := if decide (sp_commitments pkg !! kp = Some n) then Some (kp, sp_message pkg) else None;
  knows_signer _ _ := true;
  verify_signature_share _ id sh pkg := bool_decide (sh = (id, sp_message pkg));
  aggregate pkg shares ppk :=
    if decide ((ppk <= size shares)%nat /\ map_Forall (fun id sh => sh = (id, sp_message pkg)) shares) then Some (sp_message pkg) else None;
  serialize m := toy_sign demo_group m;
  group_key _ := demo_group;
|}.

#[local] Existing Instance toy_ed.

Lemma toy_frost_laws : FrostLaws.
Proof.
  constructor; [|intros sig; apply (ed_sign_length (Ed25519Laws := toy_ed_laws))|done].
  intros pkg shares ppk sig. cbn. destruct (decide _); [|done]. intros [= <-]. unfold key_verifies. cbn. by apply bool_decide_true.
Qed.

Lemma toy_honest_laws t : HonestLaws t t (fun _ => True).
Proof.
  constructor; [done|..]; cbn.
  - intros pkg kp d _ _ ->. rewrite decide_True by done. eexists. split; [done|]. by apply bool_decide_true.
  - intros pkg shares Hs _ Hv. rewrite decide_True; [by eexists|]. split; [done|]. intros id sh Hsh. by apply Hv, bool_decide_eq_true in Hsh.
Qed.

Definition demo_member : list u8 := replicate 32 Byte.x0a.
Definition demo_client : list u8 := replicate 32 Byte.x0b.
Definition demo_network : list u8 := replicate 16 Byte.x07.
Definition demo_nonce : list u8 := replicate 32 Byte.x5a.
Definition demo_cred : EnrollmentCredential := RenewalCert [] (replicate 64 Byte.x00).

Definition returned {A} (d : A) (x : run A) : A := match x with Ret a => a | Panic => d end.

Definition demo_submit (t : CertTbs) : SubmitEnrollmentPayload :=
  mkSubmit demo_nonce t demo_cred (ed_sign demo_client (returned [] (pop_message demo_nonce t))).
Definition demo_csr : CertTbs := csr demo_member demo_client demo_network 1000.

Definition demo_signer (i : nat) : N * SignerState * list (NonceSlotId * (N * nat)) :=
  match start_signer (frost := toy_frost) (N.of_nat (S i)) 604800 (N.of_nat i) with
  | Ret (sg, PublishCommitments _ _ cs) => (N.of_nat (S i), sg, cs)
  | _ => (0, mkSigner 0 0 (mkVault 0 0 ∅) 0, [])
  end.
Definition demo_signers : list (N * SignerState * list (NonceSlotId * (N * nat))) := map demo_signer [0; 1; 2]%nat.

Lemma demo_signer_ok i kp sg cs : demo_signer i = (kp, sg, cs) ->
  kp = N.of_nat (S i) /\ start_signer kp 604800 (N.of_nat i) = Ret (sg, PublishCommitments kp (N.of_nat i) cs).
Proof.
  unfold demo_signer. destruct (start_signer_ok (frost := toy_frost) (N.of_nat (S i)) 604800 (N.of_nat i)) as (sg' & cs' & E & _).
  rewrite E. intros [= <- <- <-]. by split.
Qed.

Lemma demo_signers_lookup i x : demo_signers !! i = Some x -> x = demo_signer i.
Proof.
  unfold demo_signers. rewrite list_lookup_fmap. intros (j & Hj & ->)%fmap_Some. f_equal.
  do 3 (destruct i as [|i]; [by injection Hj as <-|]). done.
Qed.

Lemma demo_names : name <$> demo_signers = [1; 2; 3].
Proof.
  unfold demo_signers. cbn [map fmap list_fmap].
  assert (forall i, name (demo_signer i) = N.of_nat (S i)) as H.
  { intros i. destruct (demo_signer i) as [[kp sg] cs] eqn:E. by apply demo_signer_ok in E as [-> _]. }
  by rewrite !H.
Qed.


Definition body_of (x : CertTbs) : list u8 := returned [] (to_canonical_bytes x).

(** The same request twice. *)
Definition demo_req : SignCertRequestPayload :=
  mkSignRequest 1 (mkSlot 9 1) (mkPackage _ {[1 := (1, 0%nat)]} (body_of demo_csr)) demo_csr demo_cred demo_nonce [].

Lemma nonces_used_once_witness :
  exists s0 m0 s ms draws, start_signer 1 604800 9 = Ret (s0, m0) /\ serve_requests s0 [demo_req; demo_req] = Ret (s, ms) /\
    NoDup draws /\ Forall2 (signed_by 1 604800) (answered [demo_req; demo_req] ms) draws.
Proof.
  apply (nonces_used_once (frost := toy_frost) 1 604800 9 [demo_req; demo_req]).
  - repeat constructor; eexists; vm_compute; reflexivity.
  - reflexivity.
Defined.

(** Three signers, two of which must sign. *)
Definition demo_connected : list event :=
  [SignerConnected 0 1 [(mkSlot 10 1, (1, 0%nat))]; SignerConnected 1 2 [(mkSlot 20 1, (2, 0%nat))];
   SignerConnected 2 3 [(mkSlot 30 1, (3, 0%nat))]].
Definition demo_client_events (k : nat) (x : CertTbs) : list event := [ClientHello k demo_nonce; ClientSubmit k (demo_submit x)].
Definition demo_share (sid id : N) (x : CertTbs) (next : option (NonceSlotId * (N * nat))) : event :=
  SignerShare 0 (mkSignResponse sid id (id, body_of x) next).

Definition demo_start : Coordinator := new_coordinator 2 2%nat.
Definition reached (es : list event) : Coordinator := returned demo_start (steps demo_start es).

Definition issuing_events : list event :=
  demo_connected ++ demo_client_events 7 demo_csr ++ [Attempt 7; demo_share 1 1 demo_csr None; demo_share 1 2 demo_csr None; Poll 7].

Lemma enrolled_certs_valid_witness :
  exists bytes c, tasks (reached issuing_events) !! 7%nat = Some (Closed (Some (Enrolled bytes demo_group))) /\
    read_reply (Enrolled bytes demo_group) = Ok c /\
    verify_cert c [demo_group] (network_id c) (member_pubkey c) (not_before c) 300 = Ret (Ok tt).
Proof.
  destruct (enrolled_certs_valid (frost := toy_frost) (FL := toy_frost_laws) 2 2%nat issuing_events) as (s & E & H).
  - repeat constructor; try exact I; cbn; constructor; reflexivity.
  - reflexivity.
  - assert (s = reached issuing_events) as -> by (unfold reached; fold demo_start in E; by rewrite E).
    assert (exists bytes, tasks (reached issuing_events) !! 7%nat = Some (Closed (Some (Enrolled bytes demo_group)))) as [bytes Eb]
      by (eexists; vm_compute; reflexivity).
    destruct (H 7%nat bytes demo_group Eb) as (p & c & _ & Hin & Hr & Ec & _ & Hv & _). exists bytes, c.
    split; [exact Eb|]. split; [exact Hr|]. apply Hv. split; [reflexivity|].
    assert (csr_tbs p = demo_csr) as Et.
    { assert (Forall (fun e => match e with ClientSubmit _ q => csr_tbs q = demo_csr | _ => True end) issuing_events) as Hall
        by (repeat constructor).
      exact (proj1 (Forall_forall _ _) Hall _ Hin). }
    rewrite Ec, Et. reflexivity.
Defined.

(** Signer 1 sends a share of nothing; then signer 2 signs, and another client
    comes. *)
Definition bad_share : SignCertResponsePayload := mkSignResponse 1 1 (1, []) None.
Definition spawning_events : list event := demo_connected ++ demo_client_events 7 demo_csr ++ [Attempt 7].
Definition after_share : list event :=
  demo_share 1 2 demo_csr (Some (mkSlot 20 2, (2, 1%nat))) :: demo_client_events 8 demo_csr ++ [Attempt 8].

(** Checks that evaluate to a boolean. *)
Lemma returned_ret {A} (d : A) (x : run A) : match x with Ret _ => true | Panic => false end = true -> x = Ret (returned d x).
Proof. by destruct x. Qed.
Lemma found {A} (o : option A) (f : A -> bool) : match o with Some a => f a | None => false end = true -> exists a, o = Some a /\ f a = true.
Proof. destruct o as [a|]; [|done]. intros H. by exists a. Qed.
Lemma missing {A} (o : option A) : match o with Some _ => false | None => true end = true -> o = None.
Proof. by destruct o. Qed.
Lemma invalid {A B} (x : A * result B ShareError) : match x.2 with Err InvalidShare => true | _ => false end = true -> x.2 = Err InvalidShare.
Proof. by destruct x as [a [b|[]]]. Qed.
Lemma refuses (x : run (SignerState * QuorumRpcMessage)) n :
  match x with Ret (_, SignCertReject a b TtlExceeded) => (a =? 1) && (b =? n) | _ => false end = true ->
  exists sg, x = Ret (sg, SignCertReject 1 n TtlExceeded).
Proof.
  destruct x as [[sg [| | |a b []]]|]; try discriminate. intros [->%N.eqb_eq ->%N.eqb_eq]%andb_prop. by exists sg.
Qed.

Lemma caught_signer_excluded_witness :
  exists s' x, steps (reached spawning_events) (SignerShare 5 bad_share :: after_share) = Ret s' /\
    active_sessions (roast s') !! 2 = Some x /\ 1 ∉ participants x.
Proof.
  set (s' := returned demo_start (steps (reached spawning_events) (SignerShare 5 bad_share :: after_share))).
  assert (steps demo_start spawning_events = Ret (reached spawning_events)) as E0 by (apply returned_ret; vm_compute; reflexivity).
  assert (steps (reached spawning_events) (SignerShare 5 bad_share :: after_share) = Ret s') as E1 by (apply returned_ret; vm_compute; reflexivity).
  destruct (found (active_sessions (roast s') !! 2) (fun _ => true)) as (x & Ex & _); [vm_compute; reflexivity|].
  exists s', x. split; [exact E1|]. split; [exact Ex|].
  apply (caught_signer_excluded (frost := toy_frost) 2 2%nat spawning_events (reached spawning_events) 5 bad_share after_share s' 2 x).
  - exact E0.
  - apply invalid. vm_compute. reflexivity.
  - exact E1.
  - exact Ex.
  - apply missing. vm_compute. reflexivity.
Defined.

(** A client asks for ten days, which no signer grants; the signers that
    refused connect again, and another client asks for a day. *)
Definition long_csr : CertTbs := mkTbs Byte.x01 demo_member demo_client demo_network 1000 865000 [].
Definition long_events : list event := demo_connected ++ demo_client_events 7 long_csr.
Definition later_events : list event :=
  SignerGone 0 1 :: SignerGone 1 2 :: SignerConnected 3 1 [(mkSlot 11 1, (1, 5%nat))] :: SignerConnected 4 2 [(mkSlot 21 1, (2, 5%nat))]
  :: demo_client_events 8 demo_csr ++ [Attempt 8; Attempt 8; Poll 8].

Lemma refused_request_stalls_witness :
  (forall i q, (i, q) ∈ outbox (returned demo_start (step (reached long_events) (Attempt 7))) ->
     exists sg, handle_sign_request (demo_signer i).1.2 q = Ret (sg, SignCertReject 1 (N.of_nat (S i)) TtlExceeded)) /\
  exists s2, steps (returned demo_start (step (reached long_events) (Attempt 7))) later_events = Ret s2 /\ unserved (tasks s2 !! 8%nat).
Proof.
  set (s1 := returned demo_start (step (reached long_events) (Attempt 7))). split.
  - assert (forallb (fun x => match handle_sign_request (demo_signer x.1).1.2 x.2 with
        | Ret (_, SignCertReject a b TtlExceeded) => (a =? 1) && (b =? N.of_nat (S x.1)) | _ => false end) (outbox s1) = true) as Hall
      by (vm_compute; reflexivity).
    intros i q Hin%list_elem_of_In. apply refuses. exact (proj1 (forallb_forall _ _) Hall _ Hin).
  - set (s2 := returned demo_start (steps s1 later_events)).
    assert (steps demo_start long_events = Ret (reached long_events)) as E0 by (apply returned_ret; vm_compute; reflexivity).
    assert (step (reached long_events) (Attempt 7) = Ret s1) as E1 by (apply returned_ret; vm_compute; reflexivity).
    assert (steps s1 later_events = Ret s2) as E2 by (apply returned_ret; vm_compute; reflexivity).
    destruct (found (active_sessions (roast s1) !! 1) (fun x => bool_decide (participants x = {[1; 2]}))) as (x & Ex & Ep%bool_decide_eq_true);
      [vm_compute; reflexivity|].
    destruct (found (tasks (reached long_events) !! 7%nat) (fun tk => match tk with Spawning _ _ _ => true | _ => false end)) as ([] & Ek & Hk);
      [vm_compute; reflexivity|discriminate| |discriminate|discriminate].
    exists s2. split; [exact E2|].
    apply (refused_request_stalls (frost := toy_frost) 2 2%nat long_events (reached long_events) 7 p msg tries s1 1 x {[3]} 8 later_events s2).
    + exact E0.
    + exact Ek.
    + exact E1.
    + exact Ex.
    + apply missing. vm_compute. reflexivity.
    + rewrite Ep. apply (bool_decide_unpack _). vm_compute. exact I.
    + rewrite Ep. apply (bool_decide_unpack _). vm_compute. exact I.
    + apply (bool_decide_unpack _). vm_compute. exact I.
    + vm_compute. exact I.
    + rewrite Ep. repeat constructor; apply (bool_decide_unpack _); vm_compute; exact I.
    + exact E2.
Defined.

End QuorumDemo.
