(* ===== verification/PmExamples.v ===== *)
(** * The peer manager: runs

    Concrete daemons over stand-in cryptography.  Their data planes are the
    ones of PmPlane where delivery matters, and elsewhere a plane that carries
    packets in the clear after the session's tag, so that runs evaluate. *)

From Stdlib Require Strings.Byte.
From Stdlib Require Import NArith Lia Floats.SpecFloat.
From stdpp Require Import base numbers gmap list.
From S2P Require Import Prelude StateM Gf256 RsSimd FecDelivery Fec Session Wire WireGlue DataPlane DataPlaneDelivery NetAddr MemberCodec MemberVerify Directory DirGossip Obf RdvProto RdvClient EpochSet EpochPlane PathState Noise Metrics SplitTunnel TunOffload Gso PmState PmTable PmPlane PmObf PmRekey PmHandshake PmRouting PmRelay PmDispatch PmSafe PmRun PollLoop StdText Config PmSpec PmRefines PmRefinesRun PmSecurity PmFirst Sharding.

Local Open Scope nat_scope.

Module PmDemo.
Import Pm Tbl Obfs Rekeys Cold Route Disp.

#[local] Existing Instances Sess.toy_aead toy_blake toy_ed ToyHs.toy_snow ToyHs.toy_kem toy_sip24 toy_iter Client.configured_rendezvous.

(** ** A plane in the clear *)

Record ClearPlane := mkClear { cl_tag : N; cl_addr : SocketAddr }.

#[local] Instance clear_plane : Plane ClearPlane (list u8) SocketAddr EgressDatagram := {|
  plane_open d dg _ := Ret (d, if bool_decide (slice 1 9 dg = to_be_bytes 8 (cl_tag d)) then InTun (drop 9 dg) else InNone);
  plane_set_addr d a := Ret (mkClear (cl_tag d) a);
  plane_set_ratio d _ := d;
|}.

#[local] Instance clear_managed : ManagedPlane ClearPlane := {|
  mp_new _ tag _ a _ _ := mkClear tag a;
  mp_on_tun d inner _ := Ret (d, [mkEgress 0 (cl_addr d) (PACKET_DATA :: to_be_bytes 8 (cl_tag d) ++ inner)]);
  mp_tick _ d _ := Ret (d, []);
  mp_conn_tag := cl_tag;
  mp_obf_key _ := None;
  mp_raw_keys _ := ([], []);
  mp_wire_keys _ := ([], []);
  mp_set_stride d _ _ := d;
  mp_set_shard d _ _ := d;
  mp_repair_ratio _ := S754_zero false;
  mp_recovered _ := 0%N;
  mp_unrecoverable _ := 0%N;
|}.

(** Readings of the clock are a second apart. *)
#[local] Instance toy_os : Os := {|
  os_random n := N.of_nat n;
  os_wall_ns n := (1000000000 * (100 + N.of_nat n))%N;
  os_enroll _ := None;
  os_skew := 300%N;
|}.

Definition key (b : u8) : list u8 := replicate 32 b.
Definition host (n : N) : SocketAddr := SockV4 (map n2b [10; 0; 0; n])%N 51820.
Notation Manager := (PeerManager ClearPlane Client.ConfiguredServerRendezvous).
Definition blank (n : nat) : Manager := empty_manager [] [] L3Tun None None false 0 0 0 0 n.

(** Two hosts that know each other. *)
Definition keyA : list u8 := key Byte.x0a.
Definition keyB : list u8 := key Byte.x0b.
Definition booted (priv : list u8) (cfgs : list PeerConfig) (n : nat) : Manager :=
  match new_manager priv priv cfgs L3Tun None None false REKEY_INTERVAL_MS (blank n) with Ret (s, _) => s | Panic => blank 0 end.
Definition hostB : Manager := booted keyB [mkPeerConfig keyA None] 100.

(** The initiations host A makes at [w], with randomness [r]. *)
Definition init_of (r : nat) (w : N) : list u8 :=
  match Hs.start_initiator r (S r) keyA keyB (Hs.frame_init_payload w []) with Ok (_, pkt) => pkt | Err _ => [] end.

(** The tag of the session host B makes of an initiation at its [n]-th draw. *)
Definition tag_of (n : nat) (init : list u8) : N :=
  match Hs.start_responder n (S n) keyB init [] with
  | Ok (est, _, _, _) => Hs.conn_tag_from_keys (Hs.auth_key est) (Hs.hp_key est)
  | Err _ => 0
  end.

Definition init1 : list u8 := init_of 1 300000000000.
Definition init2 : list u8 := init_of 3 400000000000.
Definition tag1 : N := tag_of (draws hostB) init1.
Definition tag2 : N := tag_of (2 + draws hostB) init2.
Definition data_under (tag : N) : list u8 := PACKET_DATA :: to_be_bytes 8 tag ++ [Byte.x2a].

(** A session, its rotation, the end of the grace period. *)
Definition rotation : list event :=
  [Udp (host 1) init1 1000; Udp (host 1) init2 2000; Udp (host 1) (data_under tag2) 3000; Tick [] 20000]%N.

(** ** Removing a peer *)


(** ** What the theorems say of runs *)

Lemma clear_laws : PlaneLaws ClearPlane (list u8) SocketAddr EgressDatagram (fun _ => True) (fun _ => True).
Proof. constructor; cbn; eauto. Qed.

Lemma clear_managed_laws : ManagedLaws (D := ClearPlane) (fun _ => True) (fun _ => True).
Proof. constructor; [apply clear_laws|cbn; eauto..]. Qed.

Definition obfuscated : list Setting :=
  [ObfPsk (Some (key Byte.x33)); TrafficDefense (mkDefense Balanced [256; 512] (Some 500%N) 3 20); NumShards 2].

Lemma manager_never_panics_witness :
  exists s outs, Run.daemon keyB keyB [mkPeerConfig keyA None] L3Tun (Some (Client.mkConfigured (host 200))) None false
      REKEY_INTERVAL_MS obfuscated (Udp (host 9) (replicate 70 Byte.xff) 500 :: rotation)%N (blank 100) = Ret (s, outs) /\
    (forall i, (exists t, by_tag s !! t = Some i) \/ (exists a, Pm.by_addr s !! a = Some i) \/ (exists n, by_node s !! n = Some i) ->
       is_Some (peers s !! i)) /\
    (forall p e, p ∈ peers s -> state p = Established e -> EpochWf.epochs_wf (fun _ => True) e) /\
    (forall p, p ∈ peers s -> length (pending_tun p) <= 16) /\ length (scheduled_egress s) <= 1024.
Proof.
  apply (Run.manager_never_panics (ML := clear_managed_laws) (BL := toy_blake_laws) (EL := toy_ed_laws) (IL := toy_iter_laws)
    (RL := Client.configured_laws) (SL := ToyHs.toy_snow_laws) (eps := [])).
  - by intros k c Hk.
  - by intros m Hm.
  - repeat constructor.
  - repeat constructor.
Defined.

(** Two rounds of the event loop: an initiation and a packet of the device, then
    a tick that is interrupted first. *)
Definition demo_rounds : list (Poll.wait (list ControlCmd)) :=
  [Poll.Woken 1000 [Poll.UdpReady [Poll.Burst [(host 1, init1)]]; Poll.TunReady [Poll.ReadPacket [Byte.x60; Byte.x2a]]] [];
   Poll.Interrupted; Poll.Woken 2000 [] []]%N.

Definition demo_kernel (_ : bool) (_ : nat) : Gso.reply := Gso.Took 1.

Lemma demo_rounds_ok : Forall Poll.wait_ok demo_rounds.
Proof.
  constructor; [|by repeat constructor]. constructor; [|constructor; [|done]].
  - constructor; [|done]. split; [cbn; unfold Gso.MAX_DATAGRAM_BATCH; lia|]. constructor; [vm_compute; discriminate|done].
  - constructor; [vm_compute; reflexivity|done].
Qed.

Lemma demo_inputs_ok : Forall (Managed.input_ok (clock := fun _ => True)) (Poll.inputs false false demo_rounds).
Proof.
  constructor; [done|]. constructor; [by split; [|vm_compute]|]. by repeat constructor.
Qed.

Lemma poll_loop_faithful_witness :
  exists s l ok, new_manager keyB keyB [mkPeerConfig keyA None] L3Tun None None false REKEY_INTERVAL_MS (blank 100) = Ret (s, tt) /\
    Poll.run_poll (DI := Managed.manager_dispatch) demo_kernel false false demo_rounds (Poll.start s) = Ret (l, ok) /\
    Safe.inv (fun _ => True) [] (Poll.disp l).
Proof.
  destruct (Run.new_manager_spec (D := ClearPlane) (T := Client.ConfiguredServerRendezvous) (BL := toy_blake_laws) (wf := fun _ => True) (eps := []) keyB keyB [mkPeerConfig keyA None] L3Tun None None false REKEY_INTERVAL_MS) with (blank 100)
    as (s & [] & E & Hs); [done|done|].
  destruct (Poll.poll_loop_faithful (DI := Managed.manager_dispatch) demo_kernel false false (good := Safe.inv (fun _ => True) [])
    (fine := Managed.input_ok (clock := fun _ => True))
    (DL := Managed.manager_laws (ML := clear_managed_laws) (BL := toy_blake_laws) (EL := toy_ed_laws) (IL := toy_iter_laws)
       (RL := Client.configured_laws) (SL := ToyHs.toy_snow_laws) (eps := []) ltac:(done)) s demo_rounds)
    as (l & ok & served & ps & pkts & El & Hl & _).
  - exact Hs.
  - exact demo_rounds_ok.
  - exact demo_inputs_ok.
  - exists s, l, ok. split; [exact E|]. split; [exact El|exact Hl].
Defined.

(** The daemon of the file of CfgDemo. *)
Section Configured.
#[local] Existing Instances Client.tls_relay_rendezvous Boot.dyn_rendezvous.
Notation Linked := (PeerManager ClearPlane (Client.ConfiguredServerRendezvous + Client.TlsRelayRendezvous)).
Definition nothing : Linked := empty_manager [] [] L3Tun None None false 0 0 0 0 100.

Lemma configured_daemon_runs_witness :
  exists (s : Linked) l ok,
    Boot.boot (fun _ _ => None) CfgDemo.demo_config REKEY_INTERVAL_MS nothing = Ret (s, Ok Boot.RawLoop) /\
    Poll.run_poll (DI := Managed.manager_dispatch) demo_kernel false false demo_rounds (Poll.start s) = Ret (l, ok).
Proof.
  destruct (Boot.configured_daemon_runs (D := ClearPlane) (fun _ _ => None) (ML := clear_managed_laws) (BL := toy_blake_laws) (EL := toy_ed_laws)
    (IL := toy_iter_laws) (SL := ToyHs.toy_snow_laws) (fun _ => None) CfgDemo.demo_text CfgDemo.demo_config (None, None) REKEY_INTERVAL_MS
    demo_kernel false false nothing)
    as (s & d & E & Ed & Hraw & Hrun).
  - exact CfgDemo.demo_parsed.
  - reflexivity.
  - by split.
  - reflexivity.
  - by intros k x Hk.
  - destruct (Hrun demo_rounds demo_rounds_ok demo_inputs_ok) as (l & ok & El & _).
    assert (d = Boot.RawLoop) as -> by by apply Hraw.
    exists s, l, ok. split; [exact E|exact El].
Defined.

(** The same file with a line for two workers, before its peers. *)
Definition sharded_text : str := lit "shards = 2
" ++ CfgDemo.demo_text.
Definition sharded_config : Cfg.Config :=
  match Cfg.parse (fun _ => None) sharded_text with Ret (Ok c) => c | _ => CfgDemo.demo_config end.

Definition demo_steps : list ((nat -> bool) * Shard.event) :=
  (fun e => (fun _ => true, e)) <$>
    [Shard.Woken 0 1000000; Shard.Received 1 (host 1) init1; Shard.Drained 0 1 64; Shard.TunRead 1 [Byte.x60; Byte.x2a];
     Shard.RoundEnd 0 true 60000000]%N.

#[local] Instance fixed_hasher : DefaultHasher := {| hasher_finish _ := 0%N |}.

Lemma workers_never_fail_witness :
  exists ws ws' : list (Shard.worker (D := ClearPlane)),
    Shard.run_sharded sharded_config 2 (fun _ _ => None) REKEY_INTERVAL_MS (fun _ => nothing) = Ret (Ok ws) /\
    Shard.run_steps sharded_config 2 false false [] ws demo_steps = Ret ws' /\ length ws' = 2.
Proof.
  destruct (ShardOk.workers_never_fail (D := ClearPlane) (clock := fun _ => True) (ML := clear_managed_laws) (BL := toy_blake_laws) (EL := toy_ed_laws)
    (IL := toy_iter_laws) (SL := ToyHs.toy_snow_laws) (fun _ => None) sharded_text sharded_config 2 (None, None) REKEY_INTERVAL_MS
    (fun _ => nothing) false false [] (fun _ _ => None))
    as (ws & E & Hl & Hrun).
  - done.
  - vm_compute. reflexivity.
  - vm_compute. reflexivity.
  - vm_compute. reflexivity.
  - vm_compute. by split.
  - vm_compute. reflexivity.
  - by intros k x Hk.
  - destruct (Hrun demo_steps) as (ws' & E' & Hl' & _).
    + repeat constructor.
    + exists ws, ws'. split; [exact E|]. split; [exact E'|exact Hl'].
Defined.

End Configured.

(** The state a run ends in, and what it put out. *)
Definition ran {A} (d : A) (x : run (Manager * A)) : Manager * A := match x with Ret r => r | Panic => (blank 0, d) end.
Definition returns {A} (x : run A) : bool := match x with Ret _ => true | Panic => false end.

Lemma ran_ret {A} (d : A) (x : run (Manager * A)) : returns x = true -> x = Ret ((ran d x).1, (ran d x).2).
Proof. by destruct x as [[]|]. Qed.

Definition rotated : Manager * list DispatchOut := ran [] (steps rotation hostB).

Lemma rotation_keeps : Forall RefinesRun.keeps_table rotation.
Proof. repeat constructor. Qed.

Lemma rotation_runs : steps rotation hostB = Ret (rotated.1, rotated.2).
Proof. unfold rotated. refine (ran_ret [] (steps rotation hostB) _). vm_cast_no_check (@eq_refl bool true). Qed.


(** A member that another member calls, with its certificate. *)
Definition cert_init : list u8 :=
  match Hs.start_initiator 1 2 (demo_member 1) (demo_member 2) (Hs.frame_init_payload 300000000000 (cert_bytes (demo_cert 1))) with
  | Ok (_, pkt) => pkt
  | Err _ => []
  end.
Definition call : list event := [Udp (host 1) cert_init 1000]%N.
Notation member_run := (Run.daemon (demo_member 2) (demo_member 2) [] L3Tun None (Some (DirDemo.demo_node 2)) false REKEY_INTERVAL_MS [] call).
Definition called : Manager * list DispatchOut := ran [] (member_run (blank 100)).
Definition caller : option (Peer ClearPlane) := peers called.1 !! 0.

Lemma call_runs : member_run (blank 100) = Ret (called.1, called.2).
Proof. unfold called. refine (ran_ret [] (member_run (blank 100)) _). vm_cast_no_check (@eq_refl bool true). Qed.

Lemma caller_established : exists p, peers called.1 !! 0 = Some p /\ is_established p = true.
Proof.
  assert (is_established <$> peers called.1 !! 0 = Some true) as H by (vm_cast_no_check (@eq_refl (option bool) (Some true))).
  destruct (peers called.1 !! 0) as [p|]; [|done]. exists p. by injection H.
Qed.


(** Two peers, a packet to the address of the first, and one to no peer's. *)
Definition keyC : list u8 := key Byte.x0c.
Definition packet_to (d : list u8) : list u8 := n2b 96 :: replicate 23 Byte.x00 ++ d ++ [Byte.x01; Byte.x02].
Notation pair_run := (Run.daemon keyB keyB [mkPeerConfig keyA None; mkPeerConfig keyC None] L3Tun None None false REKEY_INTERVAL_MS [] rotation).
Definition paired : Manager * list DispatchOut := ran [] (pair_run (blank 100)).

Lemma pair_runs : pair_run (blank 100) = Ret (paired.1, paired.2).
Proof. unfold paired. refine (ran_ret [] (pair_run (blank 100)) _). vm_cast_no_check (@eq_refl bool true). Qed.

Lemma tunnel_routes_by_key_witness :
  (forall i p, peers paired.1 !! i = Some p -> node_addr (pubkey p) = node_addr keyA ->
     route_tun_index paired.1 (packet_to (node_addr keyA)) = Some i) /\
  ((forall p, p ∈ peers paired.1 -> node_addr (pubkey p) <> node_addr keyA) -> length (peers paired.1) <> 1 ->
     route_tun_index paired.1 (packet_to (node_addr keyA)) = None).
Proof.
  apply (Security.tunnel_routes_by_key keyB keyB [mkPeerConfig keyA None; mkPeerConfig keyC None] L3Tun None None false
    REKEY_INTERVAL_MS [] rotation (blank 100) paired.1 paired.2).
  - apply (bool_decide_unpack _). vm_compute. exact I.
  - exact rotation_keeps.
  - exact pair_runs.
  - apply (bool_decide_unpack _). vm_cast_no_check I.
  - vm_cast_no_check (@eq_refl TunnelMode L3Tun).
  - vm_compute. reflexivity.
Defined.

(** The first initiation again, after the rotation. *)
Definition first_call : Manager * list DispatchOut := ran [] (steps [Udp (host 1) init1 1000]%N hostB).
Definition then_rotated : Manager * list DispatchOut := ran [] (steps (drop 1 rotation) first_call.1).
Definition replayed : Manager * DispatchOut := ran OutNone (handle_handshake_init (host 1) init1 30000 then_rotated.1).

Lemma then_rotates : steps (drop 1 rotation) first_call.1 = Ret (then_rotated.1, then_rotated.2).
Proof. unfold then_rotated. refine (ran_ret [] (steps (drop 1 rotation) first_call.1) _). vm_cast_no_check (@eq_refl bool true). Qed.

Lemma replay_runs : handle_handshake_init (host 1) init1 30000 then_rotated.1 = Ret (replayed.1, replayed.2).
Proof.
  unfold replayed. refine (ran_ret OutNone (handle_handshake_init (host 1) init1 30000 then_rotated.1) _). vm_cast_no_check (@eq_refl bool true).
Qed.

Definition init1_body : list u8 := tail init1.
Definition init1_read : ToyHs.toy_state * list u8 :=
  default (ToyHs.mkToy false [] None [], []) (Hs.snow_read_buf (ToyHs.mkToy false keyB None []) init1_body).

Lemma init1_reads r r' pl est pkt pk ipl :
  Hs.start_responder r r' keyB init1 pl = Ok (est, pkt, pk, ipl) -> pk = keyA /\ ipl = Hs.frame_init_payload 300000000000 [].
Proof.
  assert (init1 = packet_byte HandshakeInit :: init1_body) as -> by (vm_compute; reflexivity).
  unfold Hs.start_responder, Hs.responder. cbn [snow_responder ToyHs.toy_snow].
  change (ToyHs.pad32 keyB) with keyB. unfold is_type. rewrite bool_decide_true by done. cbn [negb]. unfold Hs.read_message.
  cbn [Hs.role Hs.inner].
  assert (Hs.snow_read_buf (ToyHs.mkToy false keyB None []) init1_body = Some init1_read) as -> by (vm_compute; reflexivity).
  destruct init1_read as [s1 p] eqn:Er. assert (s1 = init1_read.1 /\ p = init1_read.2) as [-> ->] by (by rewrite Er). clear Er.
  assert (length init1_read.2 <? PQ_ENCAPS_KEY_LEN = false) as -> by (vm_compute; reflexivity).
  destruct (Hs.pq_encapsulate r _) as [[ct ss]|]; [|done]. cbn [snow_set_psk ToyHs.toy_snow].
  cbn [Hs.write_message Hs.role Hs.inner]. unfold Hs.snow_write_buf. cbn [snow_write ToyHs.toy_snow]. unfold ToyHs.toy_write.
  assert (ToyHs.t_init init1_read.1 = false) as Ei by (vm_compute; reflexivity).
  cbn [ToyHs.t_init ToyHs.t_local ToyHs.t_remote ToyHs.t_script]. rewrite Ei.
  destruct (_ <=? _); [|done]. unfold Hs.remote_static. cbn [Hs.inner snow_remote_static ToyHs.toy_snow ToyHs.t_remote].
  assert (ToyHs.t_remote init1_read.1 = Some keyA) as -> by (vm_compute; reflexivity).
  destruct (Hs.finish _); [|done]. intros [= _ _ <- <-]. split; [done|]. vm_compute. reflexivity.
Qed.

Lemma first_indexed : PeerSpec.indexed first_call.1.
Proof.
  assert (steps [Udp (host 1) init1 1000]%N hostB = Ret (first_call.1, first_call.2)) as E.
  { unfold first_call. refine (ran_ret [] (steps [Udp (host 1) init1 1000]%N hostB) _). vm_cast_no_check (@eq_refl bool true). }
  apply RefinesRun.table_steps in E as (_ & _ & _ & H); [|repeat constructor]. apply H.
  destruct (Security.new_manager_table keyB keyB [mkPeerConfig keyA None] L3Tun None None false REKEY_INTERVAL_MS (blank 100) hostB)
    as (Hi & _); [apply (bool_decide_unpack _); vm_compute; exact I|reflexivity|exact Hi].
Qed.

Lemma first_peer : exists p, peers first_call.1 !! 0 = Some p /\ is_established p = true /\ pubkey p = keyA /\
  last_accepted_init_ts p = Some (Hs.now_tai64n 300000000000) /\ endpoint p = Some (host 1).
Proof.
  assert ((fun p => (is_established p, pubkey p, last_accepted_init_ts p, endpoint p)) <$> peers first_call.1 !! 0
    = Some (true, keyA, Some (Hs.now_tai64n 300000000000), Some (host 1))) as H by (vm_compute; reflexivity).
  destruct (peers first_call.1 !! 0) as [p|]; [|done]. exists p. injection H as H1 H2 H3 H4. by split_and!.
Qed.


(** The peer's traffic from another address. *)
Definition roaming : list event := [Udp (host 9) (data_under tag1) 5000]%N.
Definition roamed : Manager * list DispatchOut := ran [] (steps roaming first_call.1).

Lemma roaming_runs : steps roaming first_call.1 = Ret (roamed.1, roamed.2).
Proof. unfold roamed. refine (ran_ret [] (steps roaming first_call.1) _). vm_cast_no_check (@eq_refl bool true). Qed.

Lemma endpoint_moves_authenticated_witness :
  exists p p', peers first_call.1 !! 0 = Some p /\ peers roamed.1 !! 0 = Some p' /\ endpoint p' <> endpoint p /\
    exists p1, PeerSpec.peer_steps (PeerSpec.env_of first_call.1) p p1 /\ PeerSpec.peer_steps (PeerSpec.env_of first_call.1) p1 p' /\
      (PeerSpec.unestablished p1 \/
       (relay p1 = false /\ exists e dg now e1 opened,
          state p1 = Established e /\ Epochs.inbound_open e dg now = Ret (e1, opened) /\ opened <> InNone)).
Proof.
  destruct first_peer as (p & Hp & He & _ & _ & Hep).
  destruct (Security.endpoint_moves_authenticated roaming first_call.1 roamed.1 roamed.2 0 p) as (p' & Hp' & H).
  - repeat constructor.
  - exact roaming_runs.
  - exact Hp.
  - exact He.
  - exists p, p'. assert (endpoint p' <> endpoint p) as Hne.
    { rewrite Hep. assert (endpoint <$> peers roamed.1 !! 0 = Some (Some (host 9))) as E by (vm_compute; reflexivity).
      rewrite Hp' in E. injection E as ->. discriminate. }
    split; [exact Hp|]. split; [exact Hp'|]. split; [exact Hne|]. exact (H Hne).
Defined.

(** A host with a rendezvous server, which names another address of a peer
    that has a session. *)
Definition served : Manager * list DispatchOut :=
  ran [] (Run.daemon keyB keyB [mkPeerConfig keyA None] L3Tun (Some (Client.mkConfigured (host 200))) None false REKEY_INTERVAL_MS []
            [Udp (host 1) init1 1000]%N (blank 100)).
Definition hint : list u8 :=
  match Rdv.encode (Rdv.PunchHint (node_id_of keyA) (host 66)) with Ret b => b | Panic => [] end.
Definition hinted : Manager * DispatchOut := ran OutNone (Rel.on_rdv hint 2000 served.1).

Lemma server_cannot_touch_sessions_witness :
  parse (Client.mkConfigured (host 200)) hint = PunchTo (node_id_of keyA) (host 66) /\
  exists p, peers served.1 !! 0 = Some p /\ is_established p = true /\ peers hinted.1 !! 0 = Some p.
Proof.
  split; [vm_compute; reflexivity|].
  assert (is_established <$> peers served.1 !! 0 = Some true) as H by (vm_cast_no_check (@eq_refl (option bool) (Some true))).
  destruct (peers served.1 !! 0) as [p|] eqn:Ep; [|discriminate]. exists p. injection H as H. split; [reflexivity|]. split; [exact H|].
  refine (Security.server_cannot_touch_sessions hint 2000 served.1 hinted.1 hinted.2 (Client.mkConfigured (host 200)) _ _ _ 0 p Ep H).
  - vm_compute. reflexivity.
  - intros src payload. vm_compute. discriminate.
  - unfold hinted. refine (ran_ret OutNone (Rel.on_rdv hint 2000 served.1) _). vm_cast_no_check (@eq_refl bool true).
Defined.

(** Four datagrams, the second one a handshake, delayed by up to 20 ms. *)
Definition jittery : Manager := blank 0 <| traffic_defense := mkDefense Off [] None 1 20 |>.
Definition burst : list EgressDatagram :=
  map (fun i => mkEgress 0 (host i) [if (i =? 2)%N then packet_byte HandshakeInit else PACKET_DATA; n2b i]) [1; 2; 3; 4]%N.
Definition delayed : Manager * list EgressDatagram := ran [] (apply_egress_jitter burst (map is_data_dg burst) 100 jittery).

Lemma jitter_conserves_witness :
  delayed.2 ++ Jitter.waiting (scheduled_egress delayed.1) ≡ₚ burst ++ Jitter.waiting (scheduled_egress jittery) /\
  Forall (fun x => (100 < deliver_after_ms x)%N) (scheduled_egress delayed.1) /\
  (forall x, x ∈ scheduled_egress delayed.1 ->
     x ∈ scheduled_egress jittery \/ (deliver_after_ms x <= 100 + jitter_max_ms (traffic_defense jittery))%N).
Proof.
  apply (Jitter.jitter_conserves burst (map is_data_dg burst) 100 jittery delayed.1 delayed.2).
  - apply Nat.le_refl.
  - unfold delayed. refine (ran_ret [] (apply_egress_jitter burst (map is_data_dg burst) 100 jittery) _). vm_cast_no_check (@eq_refl bool true).
Defined.

End PmDemo.

(** ** The first packet *)

Module FirstDemo.
Import Pm Tbl Route Disp First.

#[local] Existing Instances Sess.toy_aead toy_blake toy_ed ToyHs.toy_snow ToyHs.toy_kem toy_sip24 toy_iter Client.configured_rendezvous.
#[local] Existing Instances Wire.toy_sip demo_cpu Keyed.keyed_plane Keyed.managed_plane PmDemo.toy_os.

Notation Manager := (PeerManager KeyedPlane Client.ConfiguredServerRendezvous).
Definition blank (n : nat) : Manager := empty_manager [] [] L3Tun None None false 0 0 0 0 n.
Definition hello : list u8 := map n2b [104; 101; 108; 108; 111]%N.

(** Two hosts, a packet of one source symbol, all its datagrams arriving. *)
Lemma first_packet_delivered_witness :
  exists (A B : Manager) A1 init B1 resp A2 dgs B2 outs,
    new_manager PmDemo.keyA PmDemo.keyA [mkPeerConfig PmDemo.keyB (Some (PmDemo.host 2))] L3Tun None None false REKEY_INTERVAL_MS (blank 0)
      = Ret (A, tt) /\
    new_manager PmDemo.keyB PmDemo.keyB [mkPeerConfig PmDemo.keyA None] L3Tun None None false REKEY_INTERVAL_MS (blank 2) = Ret (B, tt) /\
    step (Tun hello 10) A = Ret (A1, OutUdp [mkEgress 0 (PmDemo.host 2) init]) /\
    step (Udp (PmDemo.host 1) init 20) B = Ret (B1, OutUdp [mkEgress 0 (PmDemo.host 1) resp]) /\
    step (Udp (PmDemo.host 2) resp 30) A1 = Ret (A2, OutUdp dgs) /\
    steps (map (fun a : list u8 * N => Udp (PmDemo.host 1) (PACKET_DATA :: a.1) a.2) (map (fun d => (tail (Dp.bytes d), 40%N)) dgs)) B1
      = Ret (B2, outs) /\ delivered hello outs.
Proof.
  destruct (first_packet_delivered (laws := Sess.toy_laws) (SL := ToyHs.toy_snow_laws) (KL := ToyHs.toy_kem_laws)
    PmDemo.keyA PmDemo.keyB [mkPeerConfig PmDemo.keyB (Some (PmDemo.host 2))] [mkPeerConfig PmDemo.keyA None] L3Tun false false
    REKEY_INTERVAL_MS REKEY_INTERVAL_MS (blank 0) (blank 2) 0 0 (PmDemo.host 1) (PmDemo.host 2) None hello 10 20 30)
    as (A & B & EA & EB & H).
  - exact ToyHs.toy_keys_usable.
  - intros k n. cbn. by eexists.
  - vm_compute. discriminate.
  - vm_compute. reflexivity.
  - reflexivity.
  - reflexivity.
  - reflexivity.
  - reflexivity.
  - intros [|j] c Hc _; [done|]. by destruct j.
  - reflexivity.
  - apply NoDup_singleton.
  - vm_compute. done.
  - destruct H as (A1 & init & B1 & resp & A2 & dgs & E1 & E2 & E3 & Hsh & Hk & Hdel).
    { assert (A = (match new_manager PmDemo.keyA PmDemo.keyA [mkPeerConfig PmDemo.keyB (Some (PmDemo.host 2))] L3Tun None None false
        REKEY_INTERVAL_MS (blank 0) with Ret (s, _) => s | Panic => blank 0 end)) as ->.
      { change (snow_public PmDemo.keyA) with PmDemo.keyA in EA. change (snow_public PmDemo.keyB) with PmDemo.keyB in EA.
        destruct (new_manager _ _ _ _ _ _ _ _ _) as [[s u]|]; [|done]. by injection EA. }
      vm_compute. reflexivity. }
    destruct (Hdel 35%N (map (fun d => (tail (Dp.bytes d), 40%N)) dgs) [0]) as (B2 & outs & E4 & _ & Hd).
    + apply Forall_forall. intros a (d & -> & Hin)%list_elem_of_fmap.
      destruct (proj1 (Forall_forall _ _) Hsh d Hin) as (_ & wire & Ew). split; [vm_compute; reflexivity|].
      split; [vm_compute; split; discriminate|]. cbn [fst]. rewrite Ew. cbn [tail]. rewrite <- Ew.
      apply list_elem_of_fmap. eauto.
    + apply NoDup_singleton.
    + vm_compute. reflexivity.
    + intros i ->%list_elem_of_singleton. destruct dgs as [|d dgs]; [exfalso; revert Hk; vm_compute; lia|].
      destruct (proj1 (Forall_forall _ _) Hsh d ltac:(left)) as (_ & wire & Ew). exists d, wire, 40%N. split; [done|]. split; [done|].
      cbn [map]. rewrite Ew. left.
    + exists A, B, A1, init, B1, resp, A2, dgs, B2, outs. by split_and!.
Defined.
End FirstDemo.


(** ** Workers *)

Module ShardDemo.
Import Pm Tbl Disp Cfg Boot Shard.

#[local] Existing Instances Sess.toy_aead toy_blake toy_ed ToyHs.toy_snow ToyHs.toy_kem toy_sip24 toy_iter.
#[local] Existing Instances Client.configured_rendezvous Client.tls_relay_rendezvous.
#[local] Existing Instances Wire.toy_sip demo_cpu Keyed.keyed_plane Keyed.managed_plane PmDemo.toy_os.

#[local] Instance toy_hasher : DefaultHasher := {| hasher_finish ws := N.of_nat (length ws) |}.

Notation Manager := (PeerManager KeyedPlane DynRendezvous).
Definition blank (n : nat) : Manager := empty_manager [] [] L3Tun None None false 0 0 0 0 n.

(** Host A with two workers, host B with one. *)
Definition config (own other : list u8) (ep : option SocketAddr) (n : N) : Config :=
  mkConfig own own [mkPeerConfig other ep] (SockV4 (replicate 4 Byte.x00) 443) true (lit "yip0") L3Tun None [] None None None None None None None
    (mkDefense Off [] None 1 0) RawUdp DEFAULT_TLS_SNI n None None None.
Definition configA : Config := config PmDemo.keyA PmDemo.keyB (Some (PmDemo.host 2)) 2.

Definition started : list (worker (D := KeyedPlane)) :=
  match run_sharded configA 2 (fun _ _ => None) REKEY_INTERVAL_MS (fun i => blank (50 * i)) with Ret (Ok ws) => ws | _ => [] end.
Definition hostB : PeerManager KeyedPlane Client.ConfiguredServerRendezvous :=
  match new_manager PmDemo.keyB PmDemo.keyB [mkPeerConfig PmDemo.keyA None] L3Tun None None false REKEY_INTERVAL_MS (FirstDemo.blank 2) with
  | Ret (s, _) => s | Panic => FirstDemo.blank 0 end.

Definition go (ws : list (worker (D := KeyedPlane))) (es : list event) : list worker :=
  match run_steps configA 2 false false [] ws ((fun e => (fun _ => true, e)) <$> es) with Ret ws => ws | Panic => [] end.

Definition sends (ws : list (worker (D := KeyedPlane))) (id : nat) : list (list u8) :=
  match ws !! id with Some w => (fun x => Dp.bytes x.2) <$> sent w | None => [] end.

(** Two packets for B arrive at shard 0 before there is a session. *)
Definition p1 : list u8 := [Byte.x60; Byte.x01].
Definition p2 : list u8 := [Byte.x60; Byte.x02].
Definition p3 : list u8 := [Byte.x60; Byte.x03].
Definition called : list worker := go started [Woken 0 1000000; TunRead 0 p1; TunRead 0 p2].
Definition init : list u8 := default [] (sends called 0 !! 0).
Definition answered : run (PeerManager KeyedPlane Client.ConfiguredServerRendezvous * DispatchOut) := on_udp (PmDemo.host 1) init 20 hostB.
Definition resp : list u8 := match answered with Ret (_, OutUdp (d :: _)) => Dp.bytes d | _ => [] end.
Definition talked : list worker :=
  go called [Received 0 (PmDemo.host 2) resp; Woken 1 2000000; Drained 1 0 64; TunRead 1 p3].

(** What a worker's frames were sealed with: its key, the counter, and a symbol
    of the ciphertext. *)
Definition plane_of (w : worker (D := KeyedPlane)) : option KeyedPlane :=
  match Pm.peers (mgr w) !! 0 with
  | Some p => match state p with Established e => Some (current e) | _ => None end
  | None => None
  end.

Definition unseal (d : KeyedPlane) (dg : list u8) : option (list u8 * N * list u8) :=
  match Wire.deframe (Dp.codec (kp d)) (tail dg) with
  | Ret (Ok f) => match frame_to_symbol f with Ret (Some (sym, counter, _)) => Some (kp_send_key d, counter, data sym) | _ => None end
  | _ => None
  end.

Definition frames (w : worker (D := KeyedPlane)) : list (list u8 * N * list u8) :=
  match plane_of w with Some d => omap (unseal d) ((fun x => Dp.bytes x.2) <$> sent w) | None => [] end.

(** A run of the two workers from the start, no ring ever seen full. *)
Definition run_from_start (es : list event) : run (list (worker (D := KeyedPlane))) :=
  let! r := run_sharded configA 2 (fun _ _ => None) REKEY_INTERVAL_MS (fun i => blank (50 * i)) in
  match r with Ok ws => run_steps configA 2 false false [] ws ((fun e => (fun _ => true, e)) <$> es) | Err _ => Panic end.

Definition talk : list event :=
  [Woken 0 1000000; TunRead 0 p1; TunRead 0 p2; Received 0 (PmDemo.host 2) resp; Woken 1 2000000; Drained 1 0 64; TunRead 1 p3]%N.

Definition workers_of (r : run (list (worker (D := KeyedPlane)))) : list worker := match r with Ret ws => ws | Panic => [] end.

(** The tests the run is evaluated with. *)
Definition same_nonce (x y : list u8 * N * list u8) : bool := bool_decide (x.1 = y.1) && negb (bool_decide (x.2 = y.2)).

Definition answers (r : run (PeerManager KeyedPlane Client.ConfiguredServerRendezvous * DispatchOut)) (dg : list u8) : bool :=
  match r with
  | Ret (_, OutUdp [d]) => (Dp.fate d =? 0)%N && bool_decide (Dp.dst d = PmDemo.host 1) && bool_decide (Dp.bytes d = dg)
  | _ => false
  end.

Definition reuses (r : run (list (worker (D := KeyedPlane)))) : bool :=
  match r with
  | Ret [w0; w1] => bool_decide (sends [w0] 0 !! 0 = Some init) && existsb (fun x => existsb (same_nonce x) (frames w1)) (frames w0)
  | _ => false
  end.

Lemma answers_found r dg : answers r dg = true -> exists B, r = Ret (B, OutUdp [mkEgress 0 (PmDemo.host 1) dg]).
Proof.
  destruct r as [[B [| |[|[n a b] [|]]|]]|]; try discriminate. cbn [answers Dp.fate Dp.dst Dp.bytes].
  intros [[->%N.eqb_eq ->%bool_decide_eq_true]%andb_prop ->%bool_decide_eq_true]%andb_prop. by exists B.
Qed.

Lemma reuses_found r : reuses r = true -> exists w0 w1 key counter c0 c1, r = Ret [w0; w1] /\ sends [w0] 0 !! 0 = Some init /\
  (key, counter, c0) ∈ frames w0 /\ (key, counter, c1) ∈ frames w1 /\ c0 <> c1.
Proof.
  destruct r as [[|w0 [|w1 [|]]]|]; try discriminate. cbn [reuses]. intros [H1%bool_decide_eq_true H2]%andb_prop.
  apply existsb_exists in H2 as ([[k n] c0] & Hx & H2). apply existsb_exists in H2 as ([[k' n'] c1] & Hy & H2).
  unfold same_nonce in H2. cbn [fst snd] in H2. apply andb_prop in H2 as [[= -> ->]%bool_decide_eq_true Hne%negb_true_iff%bool_decide_eq_false].
  exists w0, w1, k', n', c0, c1. split_and!; try done; by apply list_elem_of_In.
Qed.

(** Workers can seal two packets with one nonce.  Two packets wait at shard 0
    for the handshake with B; its answer completes the handshake, shard 0 seals
    both and replicates the session to worker 1; and the next packet, read by
    worker 1, is sealed under the same key and the same counter as the second
    one.  [resp] is the answer of B's manager to the initiation shard 0 sent. *)
Theorem sharded_nonce_reused :
  (exists B, on_udp (PmDemo.host 1) init 20 hostB = Ret (B, OutUdp [mkEgress 0 (PmDemo.host 1) resp])) /\
  exists w0 w1 key counter c0 c1, run_from_start talk = Ret [w0; w1] /\ sends [w0] 0 !! 0 = Some init /\
    (key, counter, c0) ∈ frames w0 /\ (key, counter, c1) ∈ frames w1 /\ c0 <> c1.
Proof. split; [apply answers_found|apply reuses_found]; vm_cast_no_check (@eq_refl bool true). Qed.

(** What B sends for a packet once it has answered. *)
Definition p4 : list u8 := [Byte.x60; Byte.x04].
Definition replied : run (PeerManager KeyedPlane Client.ConfiguredServerRendezvous * list Dp.EgressDatagram) :=
  match answered with Ret (B, _) => on_tun p4 30 B | Panic => Panic end.
Definition reply : list (list u8) := match replied with Ret (_, ds) => Dp.bytes <$> ds | Panic => [] end.

(** B's datagrams reach shard 0, and a copy of them worker 1. *)
Definition replay : list event :=
  [Woken 0 1000000; TunRead 0 p1; Received 0 (PmDemo.host 2) resp; Woken 1 2000000; Drained 1 0 64]%N ++
  (Received 0 (PmDemo.host 2) <$> reply) ++ (Received 1 (PmDemo.host 2) <$> reply).

Definition replies (r : run (PeerManager KeyedPlane Client.ConfiguredServerRendezvous * DispatchOut)) (dg : list u8) (dgs : list (list u8)) : bool :=
  match r with
  | Ret (B, OutUdp [d]) =>
      bool_decide (Dp.bytes d = dg) &&
      match on_tun p4 30 B with Ret (_, ds) => bool_decide (Dp.bytes <$> ds = dgs) | Panic => false end
  | _ => false
  end.

Lemma replies_found r dg dgs : replies r dg dgs = true ->
  exists B B' d ds, r = Ret (B, OutUdp [d]) /\ Dp.bytes d = dg /\ on_tun p4 30 B = Ret (B', ds) /\ Dp.bytes <$> ds = dgs.
Proof.
  destruct r as [[B [| |[|d [|]]|]]|]; try discriminate. cbn [replies]. intros [H1%bool_decide_eq_true H2]%andb_prop.
  destruct (on_tun p4 30 B) as [[B' ds]|] eqn:E; [|discriminate]. apply bool_decide_eq_true in H2. by exists B, B', d, ds.
Qed.

Definition twice (r : run (list (worker (D := KeyedPlane)))) : bool :=
  match r with Ret [w0; w1] => bool_decide (tun_out w0 = [p4]) && bool_decide (tun_out w1 = [p4]) | _ => false end.

Lemma twice_found r : twice r = true -> exists w0 w1, r = Ret [w0; w1] /\ tun_out w0 = [p4] /\ tun_out w1 = [p4].
Proof.
  destruct r as [[|w0 [|w1 [|]]]|]; try discriminate. cbn [twice].
  intros [H1%bool_decide_eq_true H2%bool_decide_eq_true]%andb_prop. by exists w0, w1.
Qed.

(** Workers do not share what they have seen.  B sends one packet; the
    datagrams that carry it reach shard 0, which delivers it, and are replayed
    to worker 1, which delivers it again: each worker has its own window. *)
Theorem sharded_replay_delivered :
  (exists B B' d ds, on_udp (PmDemo.host 1) init 20 hostB = Ret (B, OutUdp [d]) /\ Dp.bytes d = resp /\
     on_tun p4 30 B = Ret (B', ds) /\ Dp.bytes <$> ds = reply) /\
  exists w0 w1, run_from_start replay = Ret [w0; w1] /\ tun_out w0 = [p4] /\ tun_out w1 = [p4].
Proof. split; [apply replies_found|apply twice_found]; vm_cast_no_check (@eq_refl bool true). Qed.

End ShardDemo.
